(* ===== verification/_CoqProject ===== *)
-Q . S2P
Prelude.v
JsDate.v
Json.v
JsonParse.v
Ndjson.v
JsonIndent.v
Cid.v
Csv.v
KycStore.v
Backfill.v
Lifecycle.v
LedgerChain.v
LedgerService.v
LedgerExport.v
Fees.v
StateMachines.v
PartialFailures.v
Redis.v
Threads.v
Idempotency.v
AdminIntents.v
SideEffects.v
JobQueue.v
JobClaims.v
JobRace.v
AuditTrail.v
IntentReceipts.v
Imports.v
KycImport.v
Market.v
Evidence.v
Oracle.v
Breakers.v
Grants.v
Invitations.v
Impersonation.v
Compliance.v
Snapshots.v
Holders.v
Coupons.v
PolicyConfig.v
Webhooks.v
DomainInvariants.v
Similarity.v
Deduplication.v
EvidenceBundles.v
Auth.v
Notifications.v
Policy.v
BoundedCache.v
Keyring.v
KycCommitments.v
FeatureFlags.v
OperationQueue.v
OrderStates.v
Cancellation.v
PendingTransactions.v
SearchIndex.v
