(* ===== verification/Prelude.v ===== *)
(** * Verdant Bond Protocol: verification library

    The Verdant Bond Protocol issues bonds on Stellar whose coupons depend on
    verified climate reports.  This library verifies the part of its TypeScript API
    ([api/src/]) that keeps records, moves work around and decides who may do what: the
    services whose mistakes lose, repeat or falsify an operation, or let one through; with
    the signing keys of the oracle ([oracle/]) and the two services of the web client
    ([frontend/]) that send operations and follow them.

    ** The parts and where they are modelled

    Foundations
    - [Prelude]: results that may throw, association lists in insertion order (a
      JavaScript [Map] or object), decimal texts, sums, shared tactics and hints.
    - [JsDate]: [Date], [toISOString], [Date.parse].
    - [Json]: JSON values, [JSON.stringify], and [audit/audit.canonical.ts].
    - [JsonParse]: [JSON.parse], and the round trip with [JSON.stringify].
    - [Ndjson]: files of JSON lines.
    - [JsonIndent]: the indented form of [JSON.stringify].
    - [Cid]: [common/utils/cid.util.ts]: base58, base32 and evidence references.
    - [Redis]: [common/services/redis.service.ts] over a Redis server, for calls that
      run one at a time but fail or die at any command.
    - [Threads]: the same calls as trees of commands that any number of requests
      interleave, with a rely-guarantee rule for safety ([protocol_run]), rules for a
      request on its own ([yields]), and rules for one process that dies and is
      restarted ([safe]).

    The event ledger
    - [LedgerChain]: [ledger/ledger.chain.ts] and [ledger.types.ts]: hashes, MACs,
      payload check, [verifyLedgerEvents] with every failure it reports.
    - [LedgerService]: [ledger/event-ledger.service.ts] and [ledger.store.ts].
    - [LedgerExport]: [parseNdjson] and [verifyLedgerExport] of [ledger.chain.ts].

    Authorised actions and their records
    - [AuditTrail]: [audit/audit.service.ts].
    - [IntentReceipts]: [intent-receipts/intent-receipt.service.ts], over [AuditTrail].
    - [AdminIntents]: [common/services/intent.service.ts],
      [common/guards/intent.guard.ts] and
      [intent-receipts/intent-receipt.interceptor.ts], over [Threads].
    - [Grants], [Invitations] and [Impersonation]:
      [authorizations/authorization.service.ts], [invitations/invitation.service.ts] and
      [impersonation/impersonation.service.ts].
    - [Auth]: [auth/auth.service.ts], [rbac.ts] and [rbac.service.ts].
    - [PolicyConfig] and [Policy]: [policy/policy-config-change.service.ts], over
      [AuditTrail], [policy.service.ts] and [policy-simulation.service.ts].
    - [EvidenceBundles]: [audit/evidence-bundle.ts], over [AuditTrail].

    Work that must happen once
    - [JobQueue] and [JobClaims]: [workers/services/job-queue.service.ts] and
      [queue-backpressure.ts], over [Redis]; [JobRace]: its [dequeue] over [Threads], command
      by command.
    - [Idempotency]: [common/services/idempotency.service.ts] and
      [common/interceptors/idempotency.interceptor.ts], over [Threads].
    - [SideEffects]: [recovery/side-effect-checkpoint.service.ts], over [Threads].
    - [Backfill]: [backfill/backfill-runner.ts] and [backfill-state.store.ts], over files
      and any job ([BackfillJob]) that meets the documented requirements
      ([BackfillJobLaws]).
    - [Webhooks]: [webhooks/webhook-verification.service.ts].
    - [Notifications]: [notifications/notifications.service.ts].
    - [Cancellation]: [common/services/operation-cancellation.service.ts].
    - [OperationQueue] and [PendingTransactions]:
      [frontend/src/app/shared/services/operation-queue.service.ts] and
      [pending-transactions.service.ts].

    Serving and rollout
    - [BoundedCache]: [common/services/bounded-cache.service.ts].
    - [SearchIndex]: [common/search/search-index.service.ts].
    - [FeatureFlags]: [config/feature-flags.service.ts] and
      [feature-flags-rollback.service.ts].

    Investors
    - [KycStore]: [common/services/kyc-store.service.ts] and [auth/kyc.service.ts], over
      files and a cache.
    - [Csv], [Imports] and [KycImport]: [imports/import-safety.ts],
      [import-pipeline.service.ts] and [kyc-import.sink.ts].  The pipeline is proved over any
      sink that meets the requirements it documents ([ImportSinkLaws]), and the KYC sink is
      an instance over [KycStore].
    - [Compliance] and [Snapshots]: [compliance/services/] and [compliance/rules/]:
      sanctions, rulesets, attestations and snapshots, with the check of a subscription in
      [bonds/bonds.service.ts].
    - [KycCommitments]: [compliance/services/kyc-commitment.service.ts].
    - [Similarity] and [Deduplication]: [deduplication/]: scores, the review and merging of
      duplicates over any adapter ([DeduplicationAdapter], [Restores]), and the adapters of
      KYC records, over [KycStore], and of projects.

    Market and oracle
    - [Market]: [marketplace/dex.service.ts], [price-impact.service.ts] and
      [liquidity.service.ts].
    - [OrderStates]: [marketplace/order-state.service.ts].
    - [Evidence] and [Oracle]: [oracle/manifest-verification.ts],
      [evidence-verification.ts], [oracle.service.ts] and
      [interfaces/dispute-bundle.interface.ts], over [Cid].
    - [Breakers]: [oracle/circuit-breaker.service.ts] and [grace-period.service.ts].
    - [Keyring]: [oracle/keyring.ts] at the top of the repository, with the canonical JSON and
      the signature of [ipfs/evidence.ts].

    Domain rules
    - [Fees]: [fees/fee-calculation.ts] and [fees/fees.service.ts].
    - [StateMachines]: [bonds/bond.state-machine.ts].
    - [Lifecycle]: [common/lifecycle/record-lifecycle.ts].
    - [PartialFailures]: [failures/partial-failure.service.ts], over [Lifecycle].
    - [Holders] and [Coupons]: [bonds/holder-store.ts], [holder-index.service.ts] and the
      distribution of coupons, paging and exports of [bonds/bonds.service.ts].
    - [DomainInvariants]: [reconciliation/services/].

    ** What the theorems show

    - The ledger: whatever operations are called, and however its storage fails, the
      service never writes a ledger that fails its own verification
      ([ledger_never_corrupts]), appends exactly the event it should
      ([append_exact]), only ever appends ([ledger_append_only]), and refuses to
      write to a ledger that does not verify ([bad_ledger_frozen]).  A changed
      history does not verify, or exhibits a SHA-256 collision
      ([ledger_tamper_evident]) or an HMAC forgery ([checkpoint_pins_history]).
      Exports verify offline and are tamper evident ([export_verifies_offline],
      [export_tamper_evident]).
    - Audit trail and receipts: histories verify and record what happened
      ([audit_trail_sound]); every receipt in the store verifies ([receipts_verify])
      and follows its life cycle ([receipt_lifecycle]).
    - Admin intents: with any number of requests interleaved and failing, at most one
      runs its action on a nonce ([intent_single_use]); what a protected request does
      is given on every branch ([protected_action_exact]); the nonce outlives the
      intent ([nonce_outlives_intent]).
    - Delegated access: a revoked grant is final and cleaning up changes no decision
      ([grants_final], [cleanup_transparent]); an invitation accepted in time gives the role
      it names ([accept_grants]) and creating them is throttled ([invitations_throttled]);
      when an impersonated operation is allowed ([impersonation_confined]).
    - Job queue: no failure or crash loses a queued job ([no_job_lost]), a claim is
      exclusive, also between workers whose commands interleave ([claim_exclusive],
      [one_worker_per_job]), admission respects the bound
      ([admission_bounded]), finished jobs stay finished ([finished_is_final]), a
      waiting job is served and an admitted one stored ([dequeue_serves],
      [enqueue_accepts]).
    - Idempotency: a mutation runs at most once under a key unless it failed
      ([mutation_runs_once]); a retry gets the stored answer ([retry_replays]).
    - Side effects: an effect run and resumed with a probe is applied at most once
      across crashes, and can always be completed ([effect_at_most_once]).
    - Backfills: a run that is interrupted anywhere and resumed ends where an
      undisturbed one would, and can always be completed ([backfill_converges]); it can
      be rolled back to the records it started from ([rollback_restores]); a dry run
      reports what applying does ([preview_predicts_apply]).
    - Fees: the BigInt calculation is the half-up rounding clamped to its bounds
      ([calculateFees_refines_spec]) and conserves the amount
      ([fees_conserve_amount]).
    - KYC: after any crash that loses no write, a restart recovers the records
      ([kyc_restart_recovers]); eligibility follows the store although answers are cached
      ([eligibility_tracks_store]).
    - Imports: a file written by the rules of CSV is read back cell by cell
      ([csv_reads_back]); a commit applies exactly the rows that were previewed and did not
      drift ([commit_exact]), and rolling it back restores what was there
      ([import_rollback_restores]); a bulk import does not lift a rejection that was there
      when it was previewed ([import_keeps_rejections]).
    - Compliance: who is eligible, on every rule ([eligibility_exact],
      [transfer_exact], [grace_period_exact]); an attestation is accepted for what it was
      issued for until it expires ([attestation_roundtrip]); a snapshot is never replaced and
      cannot be changed unnoticed ([snapshots_immutable]).
    - Market: walking the book costs the least that any way of filling the request costs
      ([sweep_cheapest]); the price-impact check and the amount it suggests
      ([impact_allowed_exact], [suggestion_allowed]); walking the pages by cursor
      ends and lists the matching orders once ([cursor_lists_all]); a purchase passes every
      check first ([purchase_guarded]).
    - Oracle: references and digests determine each other ([cid_roundtrip],
      [encodeCid_type]); nothing is pinned or sent before the evidence was checked
      ([report_evidence_checked]); when a coupon is payable ([coupon_eligible_exact]);
      dispute bundles are tamper evident ([bundle_tamper_evident]); a pause holds until
      governance lifts it ([pause_holds]) and grace periods are extended a bounded number of
      times ([extensions_bounded]).
    - Logins: one needs a fresh challenge of its own, signed by both sides
      ([login_needs_challenge]); permissions are those of the roles ([permissions_exact]).
    - Policy: the configuration in force is the last one recorded, and every change leaves
      evidence ([policy_changes_evidenced]); what a rollback restores
      ([policy_rollback_exact]); a simulation reports what the change would do
      ([simulation_predicts]).
    - Evidence bundles: a bundle does not depend on what it redacts ([bundle_hides]) and
      verifies offline ([bundle_verifies]).
    - Webhooks and notifications: an event is handled once in its window
      ([webhook_handled_once]) and delivered at most once ([notified_once]).
    - Duplicates: the active merges form a forest ([absorbed_forest]), what a merge does
      ([merge_exact]), and reversing it restores the records
      ([merge_reverse_roundtrip]); the two-row loop computes the edit distance
      ([levenshtein_least]).
    - Coupons: the list of holders misses nobody whose purchases were recorded
      ([coupon_reaches_holders]), and the batches
      pay everybody once and end ([coupon_batches_cover]).
    - Reconciliation: a validation is HEALTHY exactly when the data satisfy the domain
      invariants ([healthy_exact]), and books out of balance are CRITICAL ([books_critical]).
    - The web client: operations are sent in order and as they were queued
      ([queue_sends_in_order]) and leave the queue only when they are done or discarded
      ([queue_keeps]); the entries of submitted transactions are the rendering of a machine of
      four phases ([pending_refines]), so that a value is shown in advance exactly while its
      transaction waits ([optimistic_exact]).
    - Search: what was hidden, revoked or deleted is not found again ([hidden_stays_hidden]),
      pages cover the answer ([pages_cover]) and a repair settles the index
      ([repair_settles]).
    - Cache, flags and cancellation: the cache refines a map and keeps its bound
      ([cache_refines], [cache_bounded]); flags are what their log says
      ([flags_follow_log]); a cancellation reaches the operation ([cancel_reaches]).
    - Keys, commitments and order states: what is signed verifies ([sign_verifies]) and what a
      rotation leaves valid ([rotation_exact]); what is disclosed was committed
      ([disclosure_sound]); transitions and versions ([transition_exact], [version_counts]).
    - State machines, lifecycles and the failure board: their tables, invariants,
      histories and reports.

    Where the code does less than a comment or a document says, a lemma exhibits it
    on a concrete run, next to the theorem it limits: for example
    [retries_can_run_twice], [lost_started_record_repeats],
    [torn_journal_blocks_rollback], [enqueue_can_lose_silently],
    [truncation_undetected], [retry_keeps_resolution], [lost_append_reverts],
    [rollback_misses_unacknowledged_write], [forged_subscription_accepted],
    [anyone_becomes_admin], [digest_taken_for_cidv1], [challenged_report_still_eligible],
    [shrunk_list_never_ends], [checksum_ignores_content], [failed_reconcile_counts],
    [unreachable_store_healthy], [never_expiring_expires], [racing_merges],
    [rejections_exhaust_audit], [hash_confirms_guess], [refresh_keeps_kyc],
    [retired_key_backdates], [rollback_is_permanent], [both_transitions_succeed],
    [retry_disarms_checks], [outage_rolls_back], [unhide_publishes].

    ** How code is modelled

    A function that throws returns [result]; one that changes state takes and returns
    the state; one that talks to Redis is a computation [M] ([Redis]) or a program
    [prog] ([Threads]); one that writes files is a computation [io] ([Backfill]).  Clock
    readings, random identifiers, the outcome of storage writes, the fate of commands and
    the interleaving are arguments, and the theorems hold for all of them.  Objects that
    the code mutates and shares are passed along with each mutation written out.

    Code outside the repository is an argument: [sha256] and [hmac] of Node, [sign]
    and [verify_sig] of the Stellar SDK, [other] (what [Date.parse] answers on texts
    [toISOString] does not produce), [num] (the text of a number that is not a plain
    integer up to 2^53), and the Redis server, whose documented behaviour is the
    class [RedisLaws] with the instance [KeyspaceServer].  What the contracts, the IPFS
    gateway and the pinning service answer are arguments too, and so are signature schemes
    (of [Compliance], only assumed to accept what they signed) and floating-point numbers
    ([Floats]).  No property of a hash is assumed: a theorem that needs one says that its
    failure yields a [collision].

    Strings are byte strings: one character per UTF-16 code unit up to 255.  A JSON
    number is the text [Number.prototype.toString] gives it.  Dates in records have
    four-digit years, as [toISOString] prints them for the years 0 to 9999.

    Some recursions are not structural.  [JSON_parse] is bounded by the length of its
    text, which is proved to be enough for every text [JSON_stringify] prints.  The
    batches of a backfill are cut with as much fuel as there are keys, which is enough
    as no batch is empty ([slices_spec]).  Base 36 digits ([radix36]) are printed up to
    twelve, which hold every safe integer.  The search for an amount within the
    price-impact limit halves its range, so that the logarithm of the range is enough
    ([search_fuel], proved in [suggestion_allowed]); listing orders from a cursor runs at
    most over the identifiers left; the carries of base58 shrink in every step, so that the
    carry itself is enough ([push_spec]).

    ** Not modelled

    Timing other than through the clock arguments: Redis keys with a time to live may
    lapse at any moment, or not at all, and theorems say which keys they need to
    stay.  The ledger, the failure board, the audit trail and the receipt service run
    one operation at a time; the first serialises its operations itself, the others
    do not wait in the middle of an update.  Scanning Redis keys, log lines, metrics
    and NestJS wiring are left out.

    Services that mainly build and decode calls of Soroban contracts, SQL or HTTP (issuing
    bonds, projects, the Stellar client, oracle incidents), reports for display, sampling of
    the process, the rest of the Angular client, the processes of the oracle that turn
    measurements into reports and the Rust contracts are outside the library; the
    manifest lists each with the reason.  Floating-point scores and statistics are arguments
    where a modelled decision depends on them, and are left out otherwise. *)

From Stdlib Require Export Ascii.
From stdpp Require Export base gmap strings list sorting.
From Stdlib Require Export ZArith.
From Stdlib Require Import Decimal DecimalString DecimalZ DecimalFacts.

#[global] Open Scope Z_scope.

(** ** Fallible code

    A TypeScript function that may throw is a function into [result E A]: [Err]
    carries the exception, [Ok] the returned value.  The error type comes first
    so that [result E] is a monad for stdpp's notations. *)
Inductive result (E A : Type) : Type :=
| Ok (a : A)
| Err (e : E).
Arguments Ok {E A} a.
Arguments Err {E A} e.

(** How a call of a process that may die ends. *)
Inductive exit (A : Type) :=
| Returned (a : A)
| Threw (e : string)
| Died.
Arguments Returned {A} a.
Arguments Threw {A} e.
Arguments Died {A}.

#[export] Instance result_ret {E} : MRet (result E) := fun A a => @Ok E A a.
#[export] Instance result_bind {E} : MBind (result E) :=
  fun A B f r => match r with Ok a => f a | Err e => Err e end.
#[export] Instance result_fmap {E} : FMap (result E) :=
  fun A B f r => match r with Ok a => Ok (f a) | Err e => Err e end.

#[export] Instance result_eq_dec {E A} `{EqDecision E, EqDecision A} :
  EqDecision (result E A).
Proof. solve_decision. Defined.

(** [throw_if b e]: the guard [if (b) throw e]. *)
Definition throw_if {E} (b : bool) (e : E) : result E unit :=
  if b then Err e else Ok tt.

Lemma bind_ok {E A B} (f : A → result E B) (r : result E A) b :
  (r ≫= f) = Ok b ↔ ∃ a, r = Ok a ∧ f a = Ok b.
Proof. destruct r; simpl; naive_solver. Qed.

Lemma throw_if_ok {E} (b : bool) (e : E) u : throw_if b e = Ok u ↔ b = false.
Proof. destruct b, u; simpl; naive_solver. Qed.

(** Array.prototype.map with a callback that may throw and threads a local
    mutable variable (a [Set], a counter) from one call to the next. *)
Fixpoint map_st {E S A B} (f : S → A → result E (S * B)) (s : S) (l : list A) :
    result E (S * list B) :=
  match l with
  | [] => Ok (s, [])
  | x :: l =>
      '(s1, y) ← f s x;
      '(s2, ys) ← map_st f s1 l;
      Ok (s2, y :: ys)
  end.

Lemma map_st_nil {E S A B} (f : S → A → result E (S * B)) s r :
  map_st f s [] = Ok r ↔ r = (s, []).
Proof. simpl; naive_solver. Qed.

Lemma map_st_cons {E S A B} (f : S → A → result E (S * B)) s x l s2 ys :
  map_st f s (x :: l) = Ok (s2, ys) ↔
  ∃ s1 y ys', f s x = Ok (s1, y) ∧ map_st f s1 l = Ok (s2, ys') ∧ ys = y :: ys'.
Proof.
  simpl. rewrite bind_ok. split.
  - intros ([s1 y] & Hf & Hr). apply bind_ok in Hr as ([s3 ys'] & Hm & Hr).
    injection Hr as -> <-. eauto 6.
  - intros (s1 & y & ys' & Hf & Hm & ->). exists (s1, y). split; [done|].
    rewrite Hm. done.
Qed.

(** Invert every [_ ≫= _ = Ok _] and guard in the context. *)
Ltac inv_ok :=
  repeat match goal with
  | H : (_ ≫= _) = Ok _ |- _ => apply bind_ok in H; destruct H as (? & ? & H); simpl in H
  | H : throw_if _ _ = Ok _ |- _ => apply throw_if_ok in H
  | H : Ok _ = Ok _ |- _ => injection H as H
  | H : Err _ = Ok _ |- _ => discriminate H
  | H : Ok _ = Err _ |- _ => discriminate H
  | H : context [match ?p with (_, _) => _ end] |- _ =>
      is_var p; destruct p; simpl in H
  | u : unit |- _ => destruct u
  end; simplify_eq.

(** Turn the boolean tests of the code into propositions [lia] reads. *)
Ltac bool_to_prop :=
  repeat match goal with
  | H : _ && _ = true |- _ => apply andb_true_iff in H; destruct H
  | H : _ || _ = false |- _ => apply orb_false_iff in H; destruct H
  | H : negb _ = true |- _ => apply negb_true_iff in H
  | H : negb _ = false |- _ => apply negb_false_iff in H
  | H : bool_decide _ = true |- _ => apply bool_decide_eq_true in H
  | H : bool_decide _ = false |- _ => apply bool_decide_eq_false in H
  end.

(** ** Text

    A JavaScript string is modelled as a [string] with one 8-bit character per
    UTF-16 code unit; code units above 255 are not represented. *)
Definition code (c : Ascii.ascii) : N := Ascii.N_of_ascii c.

(** White space of [String.prototype.trim] below code unit 256. *)
Definition is_space (c : Ascii.ascii) : bool :=
  let n := code c in
  ((9 <=? n) && (n <=? 13) || (n =? 32) || (n =? 160))%N.

Fixpoint trim_start (s : string) : string :=
  match s with
  | EmptyString => EmptyString
  | String c s' => if is_space c then trim_start s' else s
  end.

Definition trim (s : string) : string :=
  String.rev (trim_start (String.rev (trim_start s))).

(** [toLowerCase] below code unit 256: A-Z and the accented capitals, the
    multiplication sign (215) excepted. *)
Definition lower (c : Ascii.ascii) : Ascii.ascii :=
  let n := code c in
  if ((65 <=? n) && (n <=? 90) || (192 <=? n) && (n <=? 222) && negb (n =? 215))%N
  then Ascii.ascii_of_N (n + 32) else c.

Fixpoint to_lower (s : string) : string :=
  match s with
  | EmptyString => EmptyString
  | String c s' => String (lower c) (to_lower s')
  end.

(** The order of [<] on strings: lexicographic in code units. *)
Definition str_lt (s t : string) : bool :=
  match String.compare s t with Lt => true | _ => false end.

(** Decimal text of an integer: [BigInt.prototype.toString], and
    [Number.prototype.toString] for integers below 10^21 in magnitude. *)
Definition Z_to_string (z : Z) : string := NilZero.string_of_int (Z.to_int z).

(** Digits of a literal in a radix; [None] on any other character. *)
Definition digit_val (radix : Z) (c : Ascii.ascii) : option Z :=
  let n := Z.of_N (code c) in
  let v := if (48 <=? n) && (n <=? 57) then n - 48
           else if (97 <=? n) && (n <=? 122) then n - 87
           else if (65 <=? n) && (n <=? 90) then n - 55
           else 36 in
  if v <? radix then Some v else None.

Fixpoint digits_val (radix acc : Z) (s : string) : option Z :=
  match s with
  | EmptyString => Some acc
  | String c s' => v ← digit_val radix c; digits_val radix (acc * radix + v) s'
  end.

Definition nonempty_digits (radix : Z) (s : string) : option Z :=
  match s with EmptyString => None | _ => digits_val radix 0 s end.

Definition decimal_val (s : string) : option Z :=
  Z.of_uint <$> NilZero.uint_of_string s.

(** The radix a two-character prefix [0d] announces. *)
Definition radix_of (d : Ascii.ascii) : option Z :=
  if (Ascii.eqb d "x" || Ascii.eqb d "X")%char then Some 16
  else if (Ascii.eqb d "o" || Ascii.eqb d "O")%char then Some 8
  else if (Ascii.eqb d "b" || Ascii.eqb d "B")%char then Some 2
  else None.

(** [BigInt(text)] (ECMAScript StringToBigInt): surrounding white space is
    ignored, the empty string is [0n], a sign is allowed on decimal literals
    only, and [None] stands for the [SyntaxError]. *)
Definition BigInt_of_string (s : string) : option Z :=
  match trim s with
  | EmptyString => Some 0
  | String c r =>
      if Ascii.eqb c "-"%char then Z.opp <$> decimal_val r
      else if Ascii.eqb c "+"%char then decimal_val r
      else match r with
           | String d r' =>
               match (if Ascii.eqb c "0"%char then radix_of d else None) with
               | Some radix => nonempty_digits radix r'
               | None => decimal_val (String c r)
               end
           | EmptyString => decimal_val (String c r)
           end
  end.

(** A JavaScript number where the code only asks [Number.isInteger] and
    compares: an integer, or any of the other doubles (a fraction, [NaN], an
    infinity), kept by its text. *)
Inductive jsnum : Type :=
| NInt (z : Z)
| NOther (text : string).
#[export] Instance jsnum_eq_dec : EqDecision jsnum.
Proof. solve_decision. Defined.

(** *** Decimal text round trips *)

(** A decidable fact about one character, by cases on its eight bits. *)
Ltac by_ascii c := destruct c as [[] [] [] [] [] [] [] []]; vm_compute; congruence.

Definition is_digit (c : ascii) : bool := ((48 <=? code c) && (code c <=? 57))%N.

Fixpoint str_forall (P : ascii → bool) (s : string) : bool :=
  match s with EmptyString => true | String c s' => P c && str_forall P s' end.

Lemma string_of_uint_digits u : str_forall is_digit (NilEmpty.string_of_uint u) = true.
Proof. induction u; simpl; auto. Qed.

Lemma string_of_uint0_digits u : str_forall is_digit (NilZero.string_of_uint u) = true.
Proof. destruct u; [done|..]; apply (string_of_uint_digits _). Qed.

(** [to_uint] never produces the empty digit sequence. *)
Lemma pos_to_uint_nonnil p : Pos.to_uint p ≠ Nil.
Proof. apply DecimalPos.Unsigned.to_uint_nonnil. Qed.

Definition no_space (s : string) : bool := str_forall (λ c, negb (is_space c)) s.

Lemma trim_start_no_space s : no_space s = true → trim_start s = s.
Proof.
  destruct s as [|c s]; [done|]. unfold no_space; simpl.
  by destruct (is_space c).
Qed.

Lemma rev_app_forall P s t :
  str_forall P (String.rev_app s t) = str_forall P s && str_forall P t.
Proof.
  revert t. induction s as [|c s IH]; intros t; simpl; [done|].
  rewrite IH. simpl. destruct (P c), (str_forall P s); done.
Qed.

Lemma rev_app_rev_app s t u :
  String.rev_app (String.rev_app s t) u = String.rev_app t (s +:+ u).
Proof. revert t. induction s as [|c s IH]; intros t; simpl; [done|]. by rewrite IH. Qed.

(** stdpp keeps [+:+] from reducing; these are its equations. *)
Lemma str_app_cons c s t : String c s +:+ t = String c (s +:+ t).
Proof. reflexivity. Qed.

Lemma str_app_nil t : EmptyString +:+ t = t.
Proof. reflexivity. Qed.

Lemma str_app_nil_r s : s +:+ "" = s.
Proof. induction s as [|c s IH]; [done|]. by apply (f_equal (String c)). Qed.

Lemma str_app_assoc s t u : (s +:+ t) +:+ u = s +:+ t +:+ u.
Proof. induction s as [|c s IH]; [done|]. by rewrite !str_app_cons, IH. Qed.

Lemma str_app_inj p s t : p +:+ s = p +:+ t → s = t.
Proof. induction p as [|c p IH]; [done|]. rewrite !str_app_cons. intros [= Hp]. by apply IH. Qed.

Lemma str_length_app s t : String.length (s +:+ t) = (String.length s + String.length t)%nat.
Proof. induction s as [|c s IH]; [done|]. rewrite str_app_cons. cbn. by rewrite IH. Qed.

Lemma str_app_inj_r s t u : s +:+ u = t +:+ u → s = t.
Proof.
  revert t. induction s as [|c s IH]; intros [|d t]; [done|..]; intros E.
  - apply (f_equal String.length) in E. rewrite !str_length_app in E. cbn in E. lia.
  - apply (f_equal String.length) in E. rewrite !str_length_app in E. cbn in E. lia.
  - rewrite !str_app_cons in E. injection E as -> E. by rewrite (IH t).
Qed.

Lemma str_rev_rev s : String.rev (String.rev s) = s.
Proof. unfold String.rev. rewrite rev_app_rev_app. simpl. apply str_app_nil_r. Qed.

Lemma trim_no_space s : no_space s = true → trim s = s.
Proof.
  intros Hs. unfold trim. rewrite (trim_start_no_space s) by done.
  rewrite trim_start_no_space; [apply str_rev_rev|].
  unfold no_space, String.rev. rewrite rev_app_forall. by rewrite andb_true_r.
Qed.

Lemma str_forall_impl (P Q : ascii → bool) s :
  (∀ c, P c = true → Q c = true) → str_forall P s = true → str_forall Q s = true.
Proof. intros HPQ. induction s as [|c s IH]; simpl; [done|].
  rewrite !andb_true_iff. intros [? ?]. auto.
Qed.

Lemma digit_no_space c : is_digit c = true → negb (is_space c) = true.
Proof. by_ascii c. Qed.

Lemma str_forall_app P s t : str_forall P (s +:+ t) = str_forall P s && str_forall P t.
Proof. induction s as [|c s IH]; simpl; [done|]. by rewrite IH, andb_assoc. Qed.

Lemma decimal_val_of_uint u :
  u ≠ Nil → decimal_val (NilZero.string_of_uint u) = Some (Z.of_uint u).
Proof. intros Hu. unfold decimal_val. by rewrite NilZero.usu. Qed.

Lemma string_of_uint0_cons u :
  ∃ c s, NilZero.string_of_uint u = String c s ∧ is_digit c = true.
Proof. destruct u; simpl; eauto. Qed.

Lemma radix_of_not_digit c : is_digit c = true → radix_of c = None.
Proof.
  unfold is_digit, radix_of. intros Hc.
  repeat match goal with
  | |- context [Ascii.eqb c ?d] =>
      destruct (Ascii.eqb_spec c d) as [->|_]; [vm_compute in Hc; discriminate|]
  end. done.
Qed.

Lemma digit_not_sign c :
  is_digit c = true → Ascii.eqb c "-"%char = false ∧ Ascii.eqb c "+"%char = false.
Proof. destruct c as [[] [] [] [] [] [] [] []]; vm_compute; auto. Qed.

Lemma uint_no_space u : no_space (NilZero.string_of_uint u) = true.
Proof.
  eapply str_forall_impl; [apply digit_no_space|]. apply string_of_uint0_digits.
Qed.

Lemma BigInt_of_uint u :
  u ≠ Nil → BigInt_of_string (NilZero.string_of_uint u) = Some (Z.of_uint u).
Proof.
  intros Hu. unfold BigInt_of_string. rewrite trim_no_space by apply uint_no_space.
  rewrite <- decimal_val_of_uint by done.
  pose proof (string_of_uint0_digits u) as Hd.
  destruct (string_of_uint0_cons u) as (c & s & Hs & Hc). rewrite Hs in *.
  destruct (digit_not_sign c Hc) as [-> ->].
  destruct s as [|d s]; [done|]. simpl in Hd.
  assert (is_digit d = true) as Hdd by (destruct (is_digit c), (is_digit d); done).
  rewrite (radix_of_not_digit d Hdd). by destruct (Ascii.eqb c "0"%char).
Qed.

Lemma BigInt_of_neg u :
  u ≠ Nil → BigInt_of_string (String "-" (NilZero.string_of_uint u)) = Some (- Z.of_uint u).
Proof.
  intros Hu. unfold BigInt_of_string.
  rewrite trim_no_space by apply (uint_no_space u). simpl.
  by rewrite decimal_val_of_uint.
Qed.

(** [BigInt(z.toString())] gives [z] back. *)
Lemma BigInt_of_Z_to_string z : BigInt_of_string (Z_to_string z) = Some z.
Proof.
  unfold Z_to_string. pose proof (DecimalZ.of_to z) as Hz.
  destruct z as [|p|p]; simpl in *; [done|..].
  - rewrite BigInt_of_uint by apply pos_to_uint_nonnil. f_equal. apply Hz.
  - rewrite BigInt_of_neg by apply pos_to_uint_nonnil. f_equal. apply Hz.
Qed.

Lemma Z_to_string_inj z1 z2 : Z_to_string z1 = Z_to_string z2 → z1 = z2.
Proof.
  intros H. apply (f_equal BigInt_of_string) in H.
  rewrite !BigInt_of_Z_to_string in H. congruence.
Qed.

(** [needle] occurs in [hay]: [hay.includes(needle)]. *)
Fixpoint includes (needle hay : string) : bool :=
  String.prefix needle hay ||
  match hay with EmptyString => false | String _ h => includes needle h end.

(** [s.split(c)]. *)
Fixpoint split_on (c : ascii) (s : string) : list string :=
  match s with
  | EmptyString => [EmptyString]
  | String d s =>
      if Ascii.eqb d c then EmptyString :: split_on c s
      else match split_on c s with
           | [] => [String d EmptyString]
           | p :: ps => String d p :: ps
           end
  end.

(** [parts.join(sep)]. *)
Fixpoint join (sep : string) (parts : list string) : string :=
  match parts with
  | [] => EmptyString
  | [p] => p
  | p :: ps => p +:+ sep +:+ join sep ps
  end.

(** [n.toString(36)] for an integer. *)
Definition digit36 (d : Z) : ascii := ascii_of_N (Z.to_N (if d <? 10 then 48 + d else 87 + d)).
Fixpoint radix36_pos (fuel : nat) (n : Z) (acc : string) : string :=
  match fuel with
  | O => acc
  | S fuel =>
      let acc := String (digit36 (n mod 36)) acc in
      if n <? 36 then acc else radix36_pos fuel (n / 36) acc
  end.
(** Twelve base-36 digits hold every safe integer. *)
Definition radix36 (z : Z) : string :=
  if z <? 0 then String "-" (radix36_pos 12 (- z) EmptyString) else radix36_pos 12 z EmptyString.

(** Properties every plain object inherits from [Object.prototype]: an indexed
    read of one of these names is truthy even when the object has no such key. *)
Definition inherited_names : list string :=
  [ "constructor"; "__proto__"; "__defineGetter__"; "__defineSetter__"; "hasOwnProperty";
    "__lookupGetter__"; "__lookupSetter__"; "isPrototypeOf"; "propertyIsEnumerable";
    "toString"; "valueOf"; "toLocaleString" ].

(** [toUpperCase] on the letters of the English alphabet. *)
Definition upper (c : ascii) : ascii :=
  if ((97 <=? code c) && (code c <=? 122))%N then ascii_of_N (code c - 32) else c.
Fixpoint toUpperCase (s : string) : string :=
  match s with EmptyString => EmptyString | String c s => String (upper c) (toUpperCase s) end.

(** [new Set(l)], in the order of insertion. *)
Definition js_set (l : list string) : list string :=
  foldl (λ acc x, if decide (x ∈ acc) then acc else acc ++ [x]) [] l.

Lemma elem_of_js_set x l : x ∈ js_set l ↔ x ∈ l.
Proof.
  unfold js_set. assert (∀ acc, x ∈ foldl (λ acc x, if decide (x ∈ acc) then acc else acc ++ [x]) acc l ↔ x ∈ acc ∨ x ∈ l) as H.
  { induction l as [|y l IH]; intros acc; cbn.
    - split; [by left|]. intros [?|H]; [done|by apply elem_of_nil in H].
    - rewrite IH, elem_of_cons. case_decide; [|rewrite elem_of_app, list_elem_of_singleton]; naive_solver. }
  rewrite H. split; [|by right]. intros [E|?]; [by apply elem_of_nil in E|done].
Qed.

(** ** Maps in insertion order

    A JavaScript [Map] (and an object used as one, for keys that are not array
    indices) lists its entries in insertion order; setting a present key keeps
    its place. *)
Section amap.
Context {K V : Type} `{EqDecision K}.

Fixpoint aget (k : K) (m : list (K * V)) : option V :=
  match m with
  | [] => None
  | (k', v) :: m => if decide (k = k') then Some v else aget k m
  end.

Fixpoint aput (k : K) (v : V) (m : list (K * V)) : list (K * V) :=
  match m with
  | [] => [(k, v)]
  | (k', v') :: m => if decide (k = k') then (k', v) :: m else (k', v') :: aput k v m
  end.

Fixpoint adel (k : K) (m : list (K * V)) : list (K * V) :=
  match m with
  | [] => []
  | (k', v') :: m => if decide (k = k') then m else (k', v') :: adel k m
  end.

Lemma aget_aput k v k' m : aget k' (aput k v m) = if decide (k' = k) then Some v else aget k' m.
Proof.
  induction m as [|[k1 v1] m IH]; simpl; [done|]. repeat (case_decide; simplify_eq; simpl); done.
Qed.

Lemma aput_keys k v m : (aput k v m).*1 = if decide (k ∈ m.*1) then m.*1 else m.*1 ++ [k].
Proof.
  induction m as [|[k1 v1] m IH]; cbn [aput].
  { case_decide as H; [by apply not_elem_of_nil in H|done]. }
  destruct (decide (k = k1)) as [-> |Hk].
  { clear IH. destruct (decide (k1 ∈ _)) as [|H]; [done|]. destruct H. apply list_elem_of_here. }
  rewrite !fmap_cons, IH. cbn [fst].
  destruct (decide (k ∈ m.*1)), (decide (k ∈ k1 :: m.*1)); try done;
    exfalso; rewrite elem_of_cons in *; naive_solver.
Qed.

Lemma aput_new k v m : aget k m = None → aput k v m = m ++ [(k, v)].
Proof.
  induction m as [|[k1 v1] m IH]; simpl; [done|]. case_decide; [done|].
  intros Hk. by rewrite IH.
Qed.

Lemma aput_keys_NoDup k v m : NoDup m.*1 → NoDup (aput k v m).*1.
Proof.
  intros Hm. rewrite aput_keys. case_decide; [done|]. apply NoDup_app.
  split; [done|]. split; [|apply NoDup_singleton]. intros x Hx ->%list_elem_of_singleton. done.
Qed.

Lemma aget_Some_elem k v m : aget k m = Some v → (k, v) ∈ m.
Proof.
  induction m as [|[k1 v1] m IH]; simpl; [done|]. case_decide; intros; simplify_eq.
  - apply list_elem_of_here.
  - apply list_elem_of_further. auto.
Qed.

Lemma elem_aget k v m : NoDup m.*1 → (k, v) ∈ m → aget k m = Some v.
Proof.
  induction m as [|[k1 v1] m IH]; simpl; [by intros _ ?%not_elem_of_nil|].
  intros [Hn Hm]%NoDup_cons [[= -> ->]|Hin]%elem_of_cons; [by rewrite decide_True|].
  rewrite decide_False; [auto|]. intros ->. apply Hn. by apply (list_elem_of_fmap_2 fst) in Hin.
Qed.

Lemma aget_None k m : aget k m = None ↔ k ∉ m.*1.
Proof.
  induction m as [|[k1 v1] m IH]; simpl; [split; [intros _; apply not_elem_of_nil|done]|].
  rewrite not_elem_of_cons. case_decide; naive_solver.
Qed.

Lemma amap_eq (m1 m2 : list (K * V)) :
  NoDup m1.*1 → m1.*1 = m2.*1 → (∀ k, aget k m1 = aget k m2) → m1 = m2.
Proof.
  revert m2. induction m1 as [|[k v] m1 IH]; intros [|[k' v'] m2]; try done. simpl.
  intros [Hk Hn]%NoDup_cons [= <- Hm] H. f_equal.
  - specialize (H k). rewrite !decide_True in H by done. congruence.
  - apply IH; [done..|]. intros k0. specialize (H k0). destruct (decide (k0 = k)) as [->|]; [|done].
    trans (@None V); [|symmetry]; apply aget_None; [done|].
    change (m1.*1 = m2.*1) in Hm. by rewrite <- Hm.
Qed.

Lemma Forall_aput (P : K * V → Prop) k v m : Forall P m → P (k, v) → Forall P (aput k v m).
Proof.
  intros Hm Hk. induction Hm as [|[k1 v1] m H1 Hm IH]; simpl; [by repeat constructor|].
  case_decide; subst; by constructor.
Qed.

Lemma adel_sublist k m : adel k m `sublist_of` m.
Proof.
  induction m as [|[k1 v1] m IH]; simpl; [done|]. case_decide; [by apply sublist_cons|by apply sublist_skip].
Qed.

Lemma Forall_adel (P : K * V → Prop) k m : Forall P m → Forall P (adel k m).
Proof.
  rewrite !Forall_forall. intros Hm kv Hkv. apply Hm. eapply elem_of_submseteq; [exact Hkv|].
  apply sublist_submseteq, adel_sublist.
Qed.

Lemma adel_keys_NoDup k m : NoDup m.*1 → NoDup (adel k m).*1.
Proof. intros Hm. eapply sublist_NoDup; [exact Hm|]. apply fmap_sublist, adel_sublist. Qed.

Lemma aget_adel k k' m : NoDup m.*1 → aget k' (adel k m) = if decide (k' = k) then None else aget k' m.
Proof.
  induction m as [|[k1 v1] m IH]; simpl; [by case_decide|]. intros [Hk Hm]%NoDup_cons.
  destruct (decide (k = k1)) as [->|Hne]; simpl.
  - destruct (decide (k' = k1)) as [->|]; [by apply aget_None|done].
  - rewrite IH by done. destruct (decide (k' = k1)) as [->|]; [by rewrite decide_False|done].
Qed.
End amap.

Lemma aget_map {K V W} `{EqDecision K} (f : V → W) k (m : list (K * V)) :
  aget k ((λ kv, (kv.1, f kv.2)) <$> m) = f <$> aget k m.
Proof. induction m as [|[k1 v1] m IH]; cbn; [done|]. by case_decide. Qed.

Lemma map_keys {K V W} (f : V → W) (m : list (K * V)) : ((λ kv, (kv.1, f kv.2)) <$> m).*1 = m.*1.
Proof. rewrite <- list_fmap_compose. by apply list_fmap_ext. Qed.

(** ** Stable sorting

    [arr.sort((a, b) => key(a) - key(b))]: stable since ES2019. *)
Section sort.
Context {A : Type} (key : A → Z).

Fixpoint insert_by (x : A) (l : list A) : list A :=
  match l with
  | [] => [x]
  | y :: l' => if key x <=? key y then x :: l else y :: insert_by x l'
  end.

Definition sort_by (l : list A) : list A := foldr insert_by [] l.

Lemma insert_by_perm x l : insert_by x l ≡ₚ x :: l.
Proof.
  induction l as [|y l IH]; simpl; [done|]. destruct (_ <=? _); [done|]. rewrite IH. constructor.
Qed.

Lemma sort_by_perm l : sort_by l ≡ₚ l.
Proof. induction l as [|x l IH]; simpl; [done|]. by rewrite insert_by_perm, IH. Qed.

Lemma insert_by_sorted x l :
  StronglySorted (λ a b, key a ≤ key b) l → StronglySorted (λ a b, key a ≤ key b) (insert_by x l).
Proof.
  induction 1 as [|y l Hs IH Hy]; simpl; [repeat constructor|].
  destruct (Z.leb_spec (key x) (key y)).
  - constructor; [by constructor|]. constructor; [done|].
    eapply Forall_impl; [exact Hy|]. intros z Hz. simpl in *. lia.
  - constructor; [done|]. rewrite insert_by_perm. constructor; [lia|done].
Qed.

Lemma sort_by_sorted l : StronglySorted (λ a b, key a ≤ key b) (sort_by l).
Proof. induction l; simpl; [constructor|by apply insert_by_sorted]. Qed.
End sort.

(** ** Sums and counts *)

Definition zsum (l : list Z) : Z := foldr Z.add 0 l.

Lemma zsum_perm l1 l2 : l1 ≡ₚ l2 → zsum l1 = zsum l2.
Proof. induction 1; simpl; lia. Qed.

(** How many elements satisfy a test. *)
Definition count {A} (P : A → bool) (l : list A) : Z :=
  Z.of_nat (length (filter (λ x, P x = true) l)).

Lemma count_cons {A} (P : A → bool) x l : count P (x :: l) = (if P x then 1 else 0) + count P l.
Proof.
  unfold count. rewrite filter_cons. destruct (P x) eqn:E.
  - rewrite decide_True by done. simpl. lia.
  - rewrite decide_False by (by rewrite ?E). done.
Qed.

Lemma count_app {A} (P : A → bool) l1 l2 : count P (l1 ++ l2) = count P l1 + count P l2.
Proof. unfold count. rewrite filter_app, length_app. lia. Qed.

Lemma count_perm {A} (P : A → bool) l1 l2 : l1 ≡ₚ l2 → count P l1 = count P l2.
Proof. unfold count. by intros ->. Qed.

Lemma count_filter {A} (P Q : A → bool) l :
  count P (filter (λ x, Q x = true) l) = count (λ x, Q x && P x) l.
Proof.
  induction l as [|x l IH]; [done|]. rewrite filter_cons, count_cons. destruct (Q x) eqn:E.
  - rewrite decide_True by done. by rewrite count_cons, IH.
  - rewrite decide_False by (by rewrite ?E). by rewrite IH.
Qed.

Lemma concat_perm_app {A B} (f g : A → list B) l :
  concat ((λ x, f x ++ g x) <$> l) ≡ₚ concat (f <$> l) ++ concat (g <$> l).
Proof.
  induction l as [|x l IH]; simpl; [done|]. rewrite IH. solve_Permutation.
Qed.

Lemma concat_perm {A} (l1 l2 : list (list A)) : l1 ≡ₚ l2 → concat l1 ≡ₚ concat l2.
Proof.
  induction 1 as [|x l1 l2 _ IH|x y l|l1 l2 l3 _ IH1 _ IH2]; simpl;
    [done|by rewrite IH|solve_Permutation|by rewrite IH1].
Qed.

Lemma concat_fmap_perm {A B} (f g : A → list B) l :
  (∀ x, f x ≡ₚ g x) → concat (f <$> l) ≡ₚ concat (g <$> l).
Proof. intros H. induction l as [|x l IH]; simpl; [done|]. by rewrite H, IH. Qed.

Lemma foldl_eq {A B} (f g : A → B → A) a l :
  (∀ a x, f a x = g a x) → foldl f a l = foldl g a l.
Proof. intros H. revert a. induction l as [|x l IH]; intros a; simpl; [done|]. by rewrite H, IH. Qed.

Lemma filter_all {A} (P : A → bool) (l : list A) : (∀ x, P x = true) → filter (λ x, P x = true) l = l.
Proof.
  intros H. induction l as [|x l IH]; [done|]. rewrite filter_cons, decide_True by done. by rewrite IH.
Qed.

Section filters.
Context {A : Type} (P : A → Prop) `{∀ x, Decision (P x)}.

Lemma filter_keep (l : list A) : (∀ x, x ∈ l → P x) → filter P l = l.
Proof.
  intros Hl. induction l as [|x l IH]; [done|]. rewrite filter_cons, decide_True by (apply Hl; by left).
  rewrite IH; [done|]. intros y Hy. apply Hl. by right.
Qed.

Lemma filter_drop (l : list A) : (∀ x, x ∈ l → ¬ P x) → filter P l = [].
Proof.
  intros Hl. induction l as [|x l IH]; [done|]. rewrite filter_cons, decide_False by (apply Hl; by left).
  apply IH. intros y Hy. apply Hl. by right.
Qed.
End filters.

(** Two texts with one digest. *)
Definition collision (digest : string → string) : Prop := ∃ x y, x ≠ y ∧ digest x = digest y.

Lemma digest_eq digest x y : digest x = digest y → collision digest ∨ x = y.
Proof. intros E. destruct (decide (x = y)); [by right|]. left. by exists x, y. Qed.
