(* ===== verification/JsDate.v ===== *)
(** * Date: time values, [toISOString] and [Date.parse]

    The ECMAScript definitions the services rely on: a time value is a number of
    milliseconds since 1970-01-01 UTC ([Z]), the civil fields are the ones of the
    language definition (DayFromYear, YearFromTime, MonthFromTime, ...), and
    [toISOString] prints them.  [Date.parse] is defined on the texts [toISOString]
    produces; for every other text the language leaves much to the engine, so what
    the engine answers there is the argument [other] of [Date_parse].

    The two facts the ledger needs are proved: parsing undoes printing, and for
    the four-digit years the order of the texts is the order of the times. *)
From S2P Require Import Prelude.

Definition msPerDay : Z := 86400000.

Definition DayFromYear (y : Z) : Z :=
  365 * (y - 1970) + (y - 1969) / 4 - (y - 1901) / 100 + (y - 1601) / 400.

Definition leap (y : Z) : bool :=
  (y mod 4 =? 0) && (negb (y mod 100 =? 0) || (y mod 400 =? 0)).

(** The year [y] with [DayFromYear y <= d < DayFromYear (y + 1)]: an estimate
    by the mean length of a year, then a correction by at most one. *)
Definition YearFromDay (d : Z) : Z :=
  let y := 1970 + d * 400 / 146097 in
  if DayFromYear (y + 1) <=? d then y + 1
  else if DayFromYear y <=? d then y
  else y - 1.

(** Days before month [m] (0 to 11) in a year. *)
Definition month_start (lp : bool) (m : Z) : Z :=
  let k := if lp then 1 else 0 in
  if m <=? 0 then 0 else if m <=? 1 then 31
  else k + (if m <=? 2 then 59 else if m <=? 3 then 90 else if m <=? 4 then 120
            else if m <=? 5 then 151 else if m <=? 6 then 181 else if m <=? 7 then 212
            else if m <=? 8 then 243 else if m <=? 9 then 273 else if m <=? 10 then 304
            else 334).

Definition MonthFromDayInYear (lp : bool) (n : Z) : Z :=
  let k := if lp then 1 else 0 in
  if n <? 31 then 0 else if n <? 59 + k then 1 else if n <? 90 + k then 2
  else if n <? 120 + k then 3 else if n <? 151 + k then 4 else if n <? 181 + k then 5
  else if n <? 212 + k then 6 else if n <? 243 + k then 7 else if n <? 273 + k then 8
  else if n <? 304 + k then 9 else if n <? 334 + k then 10 else 11.

(** Fixed-width decimal digits, most significant first. *)
Definition digit_char (z : Z) : ascii := ascii_of_N (Z.to_N (48 + z)).

Fixpoint pad (n : nat) (z : Z) : string :=
  match n with
  | O => EmptyString
  | S n => String (digit_char (z / 10 ^ Z.of_nat n)) (pad n (z mod 10 ^ Z.of_nat n))
  end.

Definition iso_year (y : Z) : string :=
  if (0 <=? y) && (y <=? 9999) then pad 4 y
  else if y <? 0 then String "-" (pad 6 (- y)) else String "+" (pad 6 y).

Definition iso_text (t : Z) : string :=
  let d := t / msPerDay in
  let ms := t mod msPerDay in
  let y := YearFromDay d in
  let n := d - DayFromYear y in
  let m := MonthFromDayInYear (leap y) n in
  iso_year y +:+ "-" +:+ pad 2 (m + 1) +:+ "-" +:+ pad 2 (n - month_start (leap y) m + 1)
  +:+ "T" +:+ pad 2 (ms / 3600000) +:+ ":" +:+ pad 2 (ms / 60000 mod 60)
  +:+ ":" +:+ pad 2 (ms / 1000 mod 60) +:+ "." +:+ pad 3 (ms mod 1000) +:+ "Z".

(** The exception of [toISOString] on an invalid date. *)
Inductive RangeError := InvalidTimeValue.

Definition maxTime : Z := 8640000000000000.

(** [new Date(t).toISOString()]. *)
Definition toISOString (t : Z) : result RangeError string :=
  if (- maxTime <=? t) && (t <=? maxTime) then Ok (iso_text t) else Err InvalidTimeValue.

(** The number written in [n] digits at offset [i]. *)
Definition field (s : string) (i n : nat) : option Z :=
  nonempty_digits 10 (String.substring i n s).

(** The time value of the civil fields of a text of the width of a four-digit
    year's ISO text. *)
Definition iso_fields (s : string) : option Z :=
  y ← field s 0 4; mo ← field s 5 2; dd ← field s 8 2; h ← field s 11 2;
  mi ← field s 14 2; se ← field s 17 2; ms ← field s 20 3;
  Some ((DayFromYear y + month_start (leap y) (mo - 1) + dd - 1) * msPerDay
        + h * 3600000 + mi * 60000 + se * 1000 + ms).

(** [Date.parse(s)], [None] standing for [NaN]. *)
Definition Date_parse (other : string → option Z) (s : string) : option Z :=
  match iso_fields s with
  | Some t => if decide (iso_text t = s) then Some t else other s
  | None => other s
  end.

(** Time values whose year has four digits: 0000-01-01 to 9999-12-31. *)
Definition four_digit_time (t : Z) : Prop := -62167219200000 ≤ t ≤ 253402300799999.

(** ** Lemmas *)

(** Let [lia] read divisions by constants. *)
#[local] Ltac Zify.zify_post_hook ::= Z.to_euclidean_division_equations.

Lemma DayFromYear_mono y1 y2 : y1 ≤ y2 → DayFromYear y1 ≤ DayFromYear y2.
Proof. unfold DayFromYear. lia. Qed.

Lemma YearFromDay_spec d :
  DayFromYear (YearFromDay d) ≤ d < DayFromYear (YearFromDay d + 1).
Proof.
  unfold YearFromDay. set (y := 1970 + d * 400 / 146097).
  destruct (Z.leb_spec (DayFromYear (y + 1)) d).
  { split; [done|]. unfold y, DayFromYear in *. lia. }
  destruct (Z.leb_spec (DayFromYear y) d).
  { split; [done|]. lia. }
  split; [|replace (y - 1 + 1) with y by lia; lia].
  unfold y, DayFromYear in *. lia.
Qed.

Lemma year_length y :
  DayFromYear (y + 1) - DayFromYear y = 365 + (if leap y then 1 else 0).
Proof.
  unfold DayFromYear, leap.
  destruct (Z.eqb_spec (y mod 4) 0), (Z.eqb_spec (y mod 100) 0), (Z.eqb_spec (y mod 400) 0);
    simpl; lia.
Qed.

Ltac split_ifs :=
  repeat match goal with
  | |- context [?x <? ?y] => destruct (Z.ltb_spec x y)
  | |- context [?x <=? ?y] => destruct (Z.leb_spec x y)
  end.

Lemma month_spec (lp : bool) n :
  0 ≤ n < 365 + (if lp then 1 else 0) →
  0 ≤ MonthFromDayInYear lp n ≤ 11 ∧
  0 ≤ n - month_start lp (MonthFromDayInYear lp n) ≤ 30.
Proof.
  intros Hn. unfold MonthFromDayInYear.
  destruct lp; split_ifs; unfold month_start; simpl; lia.
Qed.

Lemma month_mono lp n1 n2 :
  n1 ≤ n2 → MonthFromDayInYear lp n1 ≤ MonthFromDayInYear lp n2.
Proof. intros Hn. unfold MonthFromDayInYear. destruct lp; split_ifs; lia. Qed.

Lemma digit_char_code z : 0 ≤ z < 10 → Z.of_N (code (digit_char z)) = 48 + z.
Proof.
  intros Hz. unfold code, digit_char. rewrite N_ascii_embedding by lia. lia.
Qed.

Lemma digit_val_char z : 0 ≤ z < 10 → digit_val 10 (digit_char z) = Some z.
Proof.
  intros Hz. unfold digit_val. rewrite digit_char_code by done.
  rewrite (proj2 (Z.leb_le _ _)), (proj2 (Z.leb_le _ _)) by lia. simpl.
  rewrite (proj2 (Z.ltb_lt _ _)) by lia. f_equal. lia.
Qed.

Lemma pad_digit n a :
  0 ≤ a < 10 ^ Z.of_nat (S n) →
  0 ≤ a / 10 ^ Z.of_nat n < 10 ∧ 0 ≤ a mod 10 ^ Z.of_nat n < 10 ^ Z.of_nat n ∧
  a = a / 10 ^ Z.of_nat n * 10 ^ Z.of_nat n + a mod 10 ^ Z.of_nat n.
Proof.
  rewrite Nat2Z.inj_succ, Z.pow_succ_r by lia. intros Ha.
  assert (0 < 10 ^ Z.of_nat n) by (apply Z.pow_pos_nonneg; lia).
  pose proof (Z.div_mod a (10 ^ Z.of_nat n)). pose proof (Z.mod_pos_bound a (10 ^ Z.of_nat n)).
  split; [|split; lia]. split; [apply Z.div_pos; lia|apply Z.div_lt_upper_bound; lia].
Qed.

Lemma digits_val_pad n a acc :
  0 ≤ a < 10 ^ Z.of_nat n →
  digits_val 10 acc (pad n a) = Some (acc * 10 ^ Z.of_nat n + a).
Proof.
  revert a acc. induction n as [|n IH]; intros a acc Ha.
  { simpl in *. f_equal. lia. }
  destruct (pad_digit n a Ha) as (Hq & Hm & Ea). cbn [pad digits_val].
  rewrite digit_val_char by done. cbn [mbind option_bind]. rewrite IH by done. f_equal.
  rewrite Nat2Z.inj_succ, Z.pow_succ_r by lia. lia.
Qed.

Lemma pad_compare n a b s t :
  0 ≤ a < 10 ^ Z.of_nat n → 0 ≤ b < 10 ^ Z.of_nat n →
  String.compare (pad n a +:+ s) (pad n b +:+ t) =
  match a ?= b with Eq => String.compare s t | c => c end.
Proof.
  revert a b. induction n as [|n IH]; intros a b Ha Hb.
  { simpl in *. by replace b with a by lia; rewrite Z.compare_refl. }
  destruct (pad_digit n a Ha) as (Hqa & Hma & Ea), (pad_digit n b Hb) as (Hqb & Hmb & Eb).
  set (p := 10 ^ Z.of_nat n) in *. cbn [pad].
  rewrite !str_app_cons. cbn [String.compare].
  change (10 ^ Z.of_nat n) with p. unfold Ascii.compare.
  pose proof (digit_char_code _ Hqa) as Ca. pose proof (digit_char_code _ Hqb) as Cb.
  unfold code in *. rewrite <- N2Z.inj_compare, Ca, Cb.
  destruct (Z.compare_spec (48 + a / p) (48 + b / p)) as [E|E|E].
  - rewrite IH by done. assert (a / p = b / p) as Eq by lia.
    destruct (Z.compare_spec (a mod p) (b mod p)), (Z.compare_spec a b);
      try done; exfalso; rewrite Eq in *; lia.
  - assert (a < b) by (clear -Ea Eb E Hma Hmb; nia). by rewrite (proj2 (Z.compare_lt_iff _ _)).
  - assert (b < a) by (clear -Ea Eb E Hma Hmb; nia). by rewrite (proj2 (Z.compare_gt_iff _ _)).
Qed.

(** The fields of a time value, as [iso_text] prints them. *)
Definition t_year (t : Z) : Z := YearFromDay (t / msPerDay).
Definition t_dayInYear (t : Z) : Z := t / msPerDay - DayFromYear (t_year t).
Definition t_month (t : Z) : Z := MonthFromDayInYear (leap (t_year t)) (t_dayInYear t).
Definition t_date (t : Z) : Z := t_dayInYear t - month_start (leap (t_year t)) (t_month t) + 1.

Lemma t_ranges t :
  four_digit_time t →
  0 ≤ t_year t < 10 ^ Z.of_nat 4 ∧
  0 ≤ t_month t + 1 < 10 ^ Z.of_nat 2 ∧ 0 ≤ t_date t < 10 ^ Z.of_nat 2 ∧
  0 ≤ t mod msPerDay / 3600000 < 10 ^ Z.of_nat 2 ∧
  0 ≤ t mod msPerDay / 60000 mod 60 < 10 ^ Z.of_nat 2 ∧
  0 ≤ t mod msPerDay / 1000 mod 60 < 10 ^ Z.of_nat 2 ∧
  0 ≤ t mod msPerDay mod 1000 < 10 ^ Z.of_nat 3.
Proof.
  intros Ht. unfold four_digit_time in Ht.
  pose proof (YearFromDay_spec (t / msPerDay)) as Hy.
  pose proof (year_length (t_year t)) as Hl.
  destruct (month_spec (leap (t_year t)) (t_dayInYear t)) as [Hm Hd].
  { unfold t_dayInYear, t_year in *. lia. }
  split.
  { change (10 ^ Z.of_nat 4) with 10000. change (YearFromDay (t / msPerDay)) with (t_year t) in Hy.
    clear Hl Hm Hd. unfold msPerDay, DayFromYear in *. lia. }
  unfold t_month, t_date in *. fold (t_month t) in *.
  change (10 ^ Z.of_nat 2) with 100. change (10 ^ Z.of_nat 3) with 1000.
  unfold t_month in *. clear Hy Hl. unfold msPerDay. lia.
Qed.

Lemma iso_text_fields t :
  four_digit_time t →
  iso_text t =
  pad 4 (t_year t) +:+ "-" +:+ pad 2 (t_month t + 1) +:+ "-" +:+ pad 2 (t_date t)
  +:+ "T" +:+ pad 2 (t mod msPerDay / 3600000) +:+ ":" +:+ pad 2 (t mod msPerDay / 60000 mod 60)
  +:+ ":" +:+ pad 2 (t mod msPerDay / 1000 mod 60) +:+ "." +:+ pad 3 (t mod msPerDay mod 1000)
  +:+ "Z".
Proof.
  intros Ht. destruct (t_ranges t Ht) as [Hy _]. change (10 ^ Z.of_nat 4) with 10000 in Hy.
  change (iso_text t) with (iso_year (t_year t) +:+ "-" +:+ pad 2 (t_month t + 1) +:+ "-"
    +:+ pad 2 (t_date t) +:+ "T" +:+ pad 2 (t mod msPerDay / 3600000) +:+ ":"
    +:+ pad 2 (t mod msPerDay / 60000 mod 60) +:+ ":" +:+ pad 2 (t mod msPerDay / 1000 mod 60)
    +:+ "." +:+ pad 3 (t mod msPerDay mod 1000) +:+ "Z").
  unfold iso_year. by rewrite (proj2 (Z.leb_le _ _)), (proj2 (Z.leb_le _ _)) by lia.
Qed.

(** Reading back [n] padded digits. *)
Lemma nonempty_digits_pad n a :
  0 ≤ a < 10 ^ Z.of_nat (S n) → nonempty_digits 10 (pad (S n) a) = Some a.
Proof.
  intros Ha. change (nonempty_digits 10 (pad (S n) a)) with (digits_val 10 0 (pad (S n) a)).
  rewrite digits_val_pad by done. done.
Qed.

Lemma iso_fields_text t : four_digit_time t → iso_fields (iso_text t) = Some t.
Proof.
  intros Ht. rewrite iso_text_fields by done.
  destruct (t_ranges t Ht) as (Hy & Hm & Hd & Hh & Hi & Hs & Hms).
  unfold iso_fields, field.
  assert (∀ y m d h i s ms : Z,
    let x := pad 4 y +:+ "-" +:+ pad 2 m +:+ "-" +:+ pad 2 d +:+ "T" +:+ pad 2 h +:+ ":"
             +:+ pad 2 i +:+ ":" +:+ pad 2 s +:+ "." +:+ pad 3 ms +:+ "Z" in
    String.substring 0 4 x = pad 4 y ∧ String.substring 5 2 x = pad 2 m ∧
    String.substring 8 2 x = pad 2 d ∧ String.substring 11 2 x = pad 2 h ∧
    String.substring 14 2 x = pad 2 i ∧ String.substring 17 2 x = pad 2 s ∧
    String.substring 20 3 x = pad 3 ms) as Hsub by (intros; repeat split; reflexivity).
  destruct (Hsub (t_year t) (t_month t + 1) (t_date t) (t mod msPerDay / 3600000)
    (t mod msPerDay / 60000 mod 60) (t mod msPerDay / 1000 mod 60) (t mod msPerDay mod 1000))
    as (-> & -> & -> & -> & -> & -> & ->).
  rewrite !nonempty_digits_pad by done. cbn [mbind option_bind]. f_equal.
  replace (t_month t + 1 - 1) with (t_month t) by lia.
  unfold t_date, t_dayInYear. clear. set (a := DayFromYear _). set (b := month_start _ _).
  unfold msPerDay. lia.
Qed.

(** Parsing a printed time gives the time back, whatever the engine does on
    other texts. *)
Lemma Date_parse_iso_text other t :
  four_digit_time t → Date_parse other (iso_text t) = Some t.
Proof.
  intros Ht. unfold Date_parse. rewrite iso_fields_text by done. by rewrite decide_True.
Qed.

Lemma compare_char c s t : String.compare (String c s) (String c t) = String.compare s t.
Proof. cbn [String.compare]. unfold Ascii.compare. by rewrite N.compare_refl. Qed.

(** Comparing by the first field that differs. *)
Definition lex (c d : comparison) : comparison := match c with Eq => d | _ => c end.

Lemma year_order t1 t2 : t_year t1 < t_year t2 → t1 / msPerDay < t2 / msPerDay.
Proof.
  intros Hy. pose proof (YearFromDay_spec (t1 / msPerDay)) as Y1.
  pose proof (YearFromDay_spec (t2 / msPerDay)) as Y2.
  pose proof (DayFromYear_mono (t_year t1 + 1) (t_year t2)) as Hm.
  unfold t_year in *. clear -Hy Y1 Y2 Hm. lia.
Qed.

Lemma month_order t1 t2 :
  t_year t1 = t_year t2 → t_month t1 < t_month t2 → t1 / msPerDay < t2 / msPerDay.
Proof.
  intros Ey Lm. destruct (Z_lt_le_dec (t1 / msPerDay) (t2 / msPerDay)); [done|].
  exfalso. unfold t_month in Lm. rewrite Ey in Lm.
  assert (t_dayInYear t2 ≤ t_dayInYear t1) as Hn by (unfold t_dayInYear; rewrite Ey; lia).
  pose proof (month_mono (leap (t_year t2)) _ _ Hn). lia.
Qed.

Lemma day_compare t1 t2 :
  lex (t_year t1 ?= t_year t2)
    (lex (t_month t1 + 1 ?= t_month t2 + 1) (t_date t1 ?= t_date t2)) =
  (t1 / msPerDay ?= t2 / msPerDay).
Proof.
  destruct (Z.compare_spec (t_year t1) (t_year t2)) as [Ey|Ly|Ly]; simpl; symmetry.
  2: { by apply Z.compare_lt_iff, year_order. }
  2: { by apply Z.compare_gt_iff, year_order. }
  destruct (Z.compare_spec (t_month t1 + 1) (t_month t2 + 1)) as [Em|Lm|Lm]; simpl.
  2: { apply Z.compare_lt_iff, month_order; [done|lia]. }
  2: { apply Z.compare_gt_iff, month_order; [done|lia]. }
  unfold t_date, t_dayInYear. rewrite Ey. replace (t_month t1) with (t_month t2) by lia.
  set (k := DayFromYear _). set (j := month_start _ _). clear.
  generalize (t1 / msPerDay), (t2 / msPerDay). intros a b.
  destruct (Z.compare_spec a b), (Z.compare_spec (a - k - j + 1) (b - k - j + 1));
    done || (exfalso; lia).
Qed.

Lemma time_compare a b :
  0 ≤ a < msPerDay → 0 ≤ b < msPerDay →
  lex (a / 3600000 ?= b / 3600000)
    (lex (a / 60000 mod 60 ?= b / 60000 mod 60)
       (lex (a / 1000 mod 60 ?= b / 1000 mod 60) (a mod 1000 ?= b mod 1000))) = (a ?= b).
Proof.
  intros _ _.
  destruct (Z.compare_spec (a / 3600000) (b / 3600000)); simpl; symmetry;
    [|apply Z.compare_lt_iff; lia|apply Z.compare_gt_iff; lia].
  destruct (Z.compare_spec (a / 60000 mod 60) (b / 60000 mod 60)); simpl;
    [|apply Z.compare_lt_iff; lia|apply Z.compare_gt_iff; lia].
  destruct (Z.compare_spec (a / 1000 mod 60) (b / 1000 mod 60)); simpl;
    [|apply Z.compare_lt_iff; lia|apply Z.compare_gt_iff; lia].
  destruct (Z.compare_spec (a mod 1000) (b mod 1000)); simpl;
    [apply Z.compare_eq_iff; lia|apply Z.compare_lt_iff; lia|apply Z.compare_gt_iff; lia].
Qed.

Lemma lex_assoc c d e : lex (lex c d) e = lex c (lex d e).
Proof. by destruct c. Qed.

Lemma split_compare t1 t2 :
  lex (t1 / msPerDay ?= t2 / msPerDay) (t1 mod msPerDay ?= t2 mod msPerDay) = (t1 ?= t2).
Proof.
  unfold msPerDay.
  destruct (Z.compare_spec (t1 / 86400000) (t2 / 86400000)); simpl; symmetry;
    [|apply Z.compare_lt_iff; lia|apply Z.compare_gt_iff; lia].
  destruct (Z.compare_spec (t1 mod 86400000) (t2 mod 86400000));
    [apply Z.compare_eq_iff; lia|apply Z.compare_lt_iff; lia|apply Z.compare_gt_iff; lia].
Qed.

(** For four-digit years the order of the texts is the order of the times. *)
Lemma iso_text_compare t1 t2 :
  four_digit_time t1 → four_digit_time t2 →
  String.compare (iso_text t1) (iso_text t2) = (t1 ?= t2).
Proof.
  intros H1 H2. rewrite !iso_text_fields by done.
  destruct (t_ranges t1 H1) as (? & ? & ? & ? & ? & ? & ?).
  destruct (t_ranges t2 H2) as (? & ? & ? & ? & ? & ? & ?).
  repeat (rewrite pad_compare by done; rewrite ?str_app_cons, ?str_app_nil, ?compare_char).
  rewrite <- (split_compare t1 t2), <- (day_compare t1 t2),
    <- (time_compare (t1 mod msPerDay) (t2 mod msPerDay)) by (apply Z.mod_pos_bound; done).
  rewrite !lex_assoc. cbn [String.compare].
  repeat match goal with |- context [?x ?= ?y] => destruct (x ?= y); [|done..] end. done.
Qed.

Lemma iso_text_lt t1 t2 :
  four_digit_time t1 → four_digit_time t2 → str_lt (iso_text t1) (iso_text t2) = (t1 <? t2).
Proof. intros. unfold str_lt, Z.ltb. by rewrite iso_text_compare. Qed.

Create HintDb dates.
#[export] Hint Rewrite Date_parse_iso_text iso_text_lt using done : dates.
