(* ===== verification/Json.v ===== *)
(** * JSON values, canonical form and stable text

    Models [canonicalize] and [stableStringify] of [api/src/audit/audit.canonical.ts]
    and the parts of the language they use: [JSON.stringify] (string escapes,
    nesting) and the enumeration order of object keys (array-index keys in
    numeric order, then the others in insertion order).

    A number is kept as its [Number.prototype.toString] text, which determines a
    finite number; the code never computes with payload numbers.  An object is
    the list of its own enumerable properties in enumeration order.

    Shown: the text of a canonical value determines it ([print_inj]), and the
    canonical form does not depend on key order at any depth. *)
From S2P Require Import Prelude.

Inductive json : Type :=
| JNull
| JBool (b : bool)
| JNum (text : string)
| JStr (s : string)
| JArr (l : list json)
| JObj (l : list (string * json)).

Definition pair_dec {A} (dec : ∀ a b : A, {a = b} + {a ≠ b}) (x y : string * A) : {x = y} + {x ≠ y}.
Proof.
  destruct x as [k v], y as [k' v']. destruct (decide (k = k')) as [->|]; [|right; congruence].
  destruct (dec v v') as [->|]; [by left|right; congruence].
Defined.

#[export] Instance json_eq_dec : EqDecision json.
Proof.
  unfold EqDecision, Decision. fix IH 1.
  intros [|b1|t1|s1|l1|l1] [|b2|t2|s2|l2|l2]; try (right; discriminate); [by left|..].
  - destruct (decide (b1 = b2)); [left; by f_equal|right; congruence].
  - destruct (decide (t1 = t2)); [left; by f_equal|right; congruence].
  - destruct (decide (s1 = s2)); [left; by f_equal|right; congruence].
  - destruct (List.list_eq_dec IH l1 l2); [left; by f_equal|right; congruence].
  - destruct (List.list_eq_dec (pair_dec IH) l1 l2); [left; by f_equal|right; congruence].
Defined.

(** ** [JSON.stringify] *)

Definition hex_digit (n : N) : ascii :=
  ascii_of_N (if (n <? 10)%N then 48 + n else 87 + n).

(** The escape sequence of one code unit. *)
Definition esc (c : ascii) : string :=
  let n := code c in
  if (n =? 34)%N then String "\" (String c EmptyString)
  else if (n =? 92)%N then String "\" (String "\" EmptyString)
  else if (n =? 8)%N then String "\" (String "b" EmptyString)
  else if (n =? 9)%N then String "\" (String "t" EmptyString)
  else if (n =? 10)%N then String "\" (String "n" EmptyString)
  else if (n =? 12)%N then String "\" (String "f" EmptyString)
  else if (n =? 13)%N then String "\" (String "r" EmptyString)
  else if (n <? 32)%N
  then String "\" (String "u" (String "0" (String "0"
         (String (hex_digit (n / 16)) (String (hex_digit (n mod 16)) EmptyString)))))
  else String c EmptyString.

Definition dquote : ascii := "034"%char.

(** Printing in front of a continuation [r]: [print j r] is the text of [j]
    followed by [r]. *)
Fixpoint esc_all (s : string) (r : string) : string :=
  match s with
  | EmptyString => r
  | String c s => esc c +:+ esc_all s r
  end.

Definition quote (s : string) (r : string) : string :=
  String dquote (esc_all s (String dquote r)).

Section sep.
Context {A : Type} (item : A → string → string).
(** Items separated by commas. *)
Fixpoint commas (l : list A) (r : string) : string :=
  match l with
  | [] => r
  | [x] => item x r
  | x :: l => item x (String "," (commas l r))
  end.
End sep.

Fixpoint print (j : json) (r : string) {struct j} : string :=
  match j with
  | JNull => "null" +:+ r
  | JBool true => "true" +:+ r
  | JBool false => "false" +:+ r
  | JNum t => t +:+ r
  | JStr s => quote s r
  | JArr l => String "[" (commas print l (String "]" r))
  | JObj l =>
      String "{" (commas (λ kv r, quote (fst kv) (String ":" (print (snd kv) r))) l
                    (String "}" r))
  end.

Definition JSON_stringify (j : json) : string := print j EmptyString.

(** [String(v)]. *)
Fixpoint js_String (v : json) : string :=
  match v with
  | JNull => "null"
  | JBool true => "true"
  | JBool false => "false"
  | JNum t => t
  | JStr s => s
  | JArr l =>
      (fix join l := match l with
                     | [] => EmptyString
                     | [x] => match x with JNull => EmptyString | _ => js_String x end
                     | x :: l => (match x with JNull => EmptyString | _ => js_String x end)
                                 +:+ String "," (join l)
                     end) l
  | JObj _ => "[object Object]"
  end.

(** ** Key order and canonical form *)

(** A key that is the text of an integer in [0, 2^32 - 2]. *)
Definition array_index (k : string) : option Z :=
  z ← decimal_val k;
  if bool_decide (Z_to_string z = k) && (z <? 4294967295) then Some z else None.

Definition index_val (k : string) : Z := default (-1) (array_index k).

Definition is_index (k : string) : bool :=
  match array_index k with Some _ => true | None => false end.

#[export] Instance le_index_dec : RelDecision (λ k1 k2, index_val k1 ≤ index_val k2).
Proof. intros k1 k2. apply _. Defined.

Definition str_le (s t : string) : Prop := String.leb s t = true.
#[export] Instance str_le_dec : RelDecision str_le.
Proof. intros s t. unfold str_le. apply _. Defined.

(** The order in which an object built by inserting [ks] lists its keys. *)
Definition own_order (ks : list string) : list string :=
  merge_sort (λ k1 k2, index_val k1 ≤ index_val k2) (filter (λ k, is_index k = true) ks) ++
  filter (λ k, is_index k = false) ks.

Fixpoint jget (k : string) (l : list (string * json)) : option json :=
  match l with
  | [] => None
  | (k', v) :: l => if decide (k = k') then Some v else jget k l
  end.

(** *** Reading values *)

Definition jint (z : Z) : json := JNum (Z_to_string z).

Definition max_safe : Z := 9007199254740991.

(** [Number.isInteger], as the integer. *)
Definition int_of (v : option json) : option Z :=
  match v with
  | Some (JNum t) =>
      z ← BigInt_of_string t;
      if bool_decide (Z_to_string z = t) && (Z.abs z <=? max_safe) then Some z else None
  | _ => None
  end.

Definition string_of (v : option json) : option string :=
  match v with Some (JStr s) => Some s | _ => None end.

(** [event.k] on a value that is not [null] or [undefined]. *)
Definition prop (e : json) (k : string) : option json :=
  match e with JObj l => jget k l | _ => None end.

(** A run-time value that is falsy. *)
Definition falsy (v : json) : bool :=
  match v with
  | JNull | JBool false => true
  | JNum t => bool_decide (t = "0")
  | JStr s => bool_decide (s = "")
  | _ => false
  end.

(** A falsy text: absent or empty. *)
Definition truthy (x : option string) : option string :=
  match x with Some EmptyString => None | x => x end.

(** [a ?? b]. *)
Definition coalesce (a b : option json) : option json :=
  match a with Some JNull | None => b | Some v => Some v end.

(** [o?.k]. *)
Definition opt_prop (o : option json) (k : string) : option json :=
  match o with Some e => prop e k | None => None end.

(** A property of an object literal that is [undefined] is not printed. *)
Definition jfield (k : string) (v : option json) : list (string * json) :=
  match v with Some v => [(k, v)] | None => [] end.

(** *** Canonical form *)

(** Assigning to the key [__proto__] of an object literal sets its prototype
    instead of adding a property, so [canonicalize] loses that key. *)
Definition proto_key : string := "__proto__".

(** The keys of the object [canonicalize] builds, in enumeration order. *)
Definition canonical_keys (ks : list string) : list string :=
  own_order (filter (λ k, k ≠ proto_key) (merge_sort str_le ks)).

Definition arrange (l : list (string * json)) : list (string * json) :=
  (λ k, (k, default JNull (jget k l))) <$> canonical_keys l.*1.

Fixpoint canonicalize (j : json) : json :=
  match j with
  | JArr l => JArr (map canonicalize l)
  | JObj l => JObj (arrange (map (λ kv, (fst kv, canonicalize (snd kv))) l))
  | _ => j
  end.

Definition stableStringify (j : json) : string := JSON_stringify (canonicalize j).

(** [Buffer.byteLength(s, 'utf8')]: two bytes per code unit from 128 to 255. *)
Fixpoint byteLength (s : string) : Z :=
  match s with
  | EmptyString => 0
  | String c s => (if (code c <? 128)%N then 1 else 2) + byteLength s
  end.

(** ** Well-formed values *)

Definition is_num_char (c : ascii) : bool :=
  is_digit c || (let n := code c in (n =? 43) || (n =? 45) || (n =? 46) || (n =? 101))%N.

(** Number texts are non-empty and made of digits, signs, a point and an
    exponent mark; the keys of an object are distinct. *)
Definition num_text_ok (t : string) : bool :=
  negb (bool_decide (t = EmptyString)) && str_forall is_num_char t.

Fixpoint json_ok (j : json) : bool :=
  match j with
  | JNum t => num_text_ok t
  | JArr l => forallb json_ok l
  | JObj l => bool_decide (NoDup l.*1) && forallb (λ kv, json_ok (snd kv)) l
  | _ => true
  end.

(** Equal up to the order of object keys, at any depth. *)
Inductive json_equiv : json → json → Prop :=
| equiv_null : json_equiv JNull JNull
| equiv_bool b : json_equiv (JBool b) (JBool b)
| equiv_num t : json_equiv (JNum t) (JNum t)
| equiv_str s : json_equiv (JStr s) (JStr s)
| equiv_arr l1 l2 : Forall2 json_equiv l1 l2 → json_equiv (JArr l1) (JArr l2)
| equiv_obj l1 l2 l2' :
    l2 ≡ₚ l2' → Forall2 (λ p q, fst p = fst q ∧ json_equiv (snd p) (snd q)) l1 l2' →
    json_equiv (JObj l1) (JObj l2).

(** ** The text determines the value *)

Section json_ind.
Context (P : json → Prop)
  (Pnull : P JNull) (Pbool : ∀ b, P (JBool b)) (Pnum : ∀ t, P (JNum t))
  (Pstr : ∀ s, P (JStr s))
  (Parr : ∀ l, Forall P l → P (JArr l))
  (Pobj : ∀ l, Forall (λ kv, P (snd kv)) l → P (JObj l)).

(** Induction through the nested lists. *)
Fixpoint json_ind_nested (j : json) : P j :=
  match j with
  | JNull => Pnull
  | JBool b => Pbool b
  | JNum t => Pnum t
  | JStr s => Pstr s
  | JArr l =>
      Parr l ((fix go l := match l return Forall P l with
                           | [] => Forall_nil_2 _
                           | x :: l => Forall_cons_2 _ _ _ (json_ind_nested x) (go l)
                           end) l)
  | JObj l =>
      Pobj l ((fix go l := match l return Forall (λ kv, P (snd kv)) l with
                           | [] => Forall_nil_2 _
                           | x :: l => Forall_cons_2 _ _ _ (json_ind_nested (snd x)) (go l)
                           end) l)
  end.
End json_ind.

(** Reading one escaped code unit back. *)
Definition hex_val (c : ascii) : N := (if code c <? 58 then code c - 48 else code c - 87)%N.
Definition unesc (s : string) : option (ascii * string) :=
  match s with
  | String c r =>
      if (code c =? 92)%N then
        match r with
        | String d r' =>
            let n := code d in
            if (n =? 98)%N then Some (ascii_of_N 8, r')
            else if (n =? 116)%N then Some (ascii_of_N 9, r')
            else if (n =? 110)%N then Some (ascii_of_N 10, r')
            else if (n =? 102)%N then Some (ascii_of_N 12, r')
            else if (n =? 114)%N then Some (ascii_of_N 13, r')
            else if (n =? 117)%N then
              match r' with
              | String _ (String _ (String h (String l r''))) =>
                  Some (ascii_of_N (16 * hex_val h + hex_val l), r'')
              | _ => None
              end
            else Some (d, r')
        | EmptyString => None
        end
      else Some (c, r)
  | EmptyString => None
  end.

Lemma unesc_esc c r : unesc (esc c +:+ r) = Some (c, r).
Proof. destruct c as [[] [] [] [] [] [] [] []]; reflexivity. Qed.

Lemma esc_inj c1 c2 r1 r2 : esc c1 +:+ r1 = esc c2 +:+ r2 → c1 = c2 ∧ r1 = r2.
Proof. intros H%(f_equal unesc). rewrite !unesc_esc in H. by simplify_eq. Qed.

Lemma esc_not_dquote c r r' : esc c +:+ r ≠ String dquote r'.
Proof. destruct c as [[] [] [] [] [] [] [] []]; discriminate. Qed.

Lemma esc_all_inj s1 s2 r1 r2 :
  esc_all s1 (String dquote r1) = esc_all s2 (String dquote r2) → s1 = s2 ∧ r1 = r2.
Proof.
  revert s2. induction s1 as [|c1 s1 IH]; intros [|c2 s2]; cbn [esc_all].
  - intros [= ->]. done.
  - intros H. symmetry in H. by apply esc_not_dquote in H.
  - intros H. by apply esc_not_dquote in H.
  - intros [-> [-> ->]%IH]%esc_inj. done.
Qed.

Lemma quote_inj s1 s2 r1 r2 : quote s1 r1 = quote s2 r2 → s1 = s2 ∧ r1 = r2.
Proof. unfold quote. intros [= H]. by apply esc_all_inj. Qed.

(** What may follow a value: the end, or a character no number contains. *)
Definition delim (r : string) : bool :=
  match r with EmptyString => true | String c _ => negb (is_num_char c) end.

Lemma num_inj t1 t2 r1 r2 :
  str_forall is_num_char t1 = true → str_forall is_num_char t2 = true →
  delim r1 = true → delim r2 = true → t1 +:+ r1 = t2 +:+ r2 → t1 = t2 ∧ r1 = r2.
Proof.
  revert t2. induction t1 as [|c1 t1 IH]; intros [|c2 t2] H1 H2 D1 D2; cbn [str_forall] in *;
    rewrite ?str_app_cons, ?str_app_nil; bool_to_prop.
  - done.
  - intros ->. simpl in D1. rewrite H in D1. done.
  - intros <-. simpl in D2. rewrite H in D2. done.
  - intros [= -> Ht]. destruct (IH t2) as [-> ->]; done.
Qed.

(** The kind of a value can be read off its first character. *)
Definition first_class (c : ascii) : N :=
  let n := code c in
  if (n =? 110)%N then 0%N else if (n =? 116)%N then 1%N else if (n =? 102)%N then 2%N
  else if (n =? 34)%N then 4%N else if (n =? 91)%N then 5%N else if (n =? 123)%N then 6%N
  else if (n =? 93)%N then 7%N else if (n =? 125)%N then 8%N else if (n =? 44)%N then 9%N
  else 3%N.

Definition kind (j : json) : N :=
  match j with
  | JNull => 0 | JBool true => 1 | JBool false => 2 | JNum _ => 3
  | JStr _ => 4 | JArr _ => 5 | JObj _ => 6
  end%N.

Lemma print_first j r :
  json_ok j = true → ∃ c s, print j r = String c s ∧ first_class c = kind j.
Proof.
  destruct j as [|[]|t|s|l|l]; intros Hok; simpl in *;
    try (eexists _, _; split; [reflexivity|reflexivity]).
  unfold num_text_ok in Hok. bool_to_prop.
  destruct t as [|c t]; [done|]. simpl in H0. bool_to_prop.
  exists c, (t +:+ r). split; [done|]. revert H0. by_ascii c.
Qed.

Section commas.
Context {A : Type} (item : A → string → string) (ok : A → bool) (e : ascii).
Context (He : is_num_char e = false) (Hcomma : e ≠ ","%char).
(** No item starts with the closing character. *)
Context (Hfirst : ∀ x r s, ok x = true → item x r ≠ String e s).

Definition item_inj (x : A) : Prop :=
  ∀ y r1 r2, ok x = true → ok y = true → delim r1 = true → delim r2 = true →
    item x r1 = item y r2 → x = y ∧ r1 = r2.

Lemma commas_cons x l r :
  commas item (x :: l) r =
  item x (match l with [] => r | _ => String "," (commas item l r) end).
Proof. by destruct l. Qed.

Lemma commas_inj l1 l2 r1 r2 :
  Forall item_inj l1 → forallb ok l1 = true → forallb ok l2 = true →
  commas item l1 (String e r1) = commas item l2 (String e r2) → l1 = l2 ∧ r1 = r2.
Proof.
  assert (∀ l r, delim (match l with [] => String e r
                        | _ => String "," (commas item l (String e r)) end) = true) as Hd.
  { intros [|? ?] r; simpl; [by rewrite He|done]. }
  revert l2. induction l1 as [|x l1 IH]; intros [|y l2] HI H1 H2.
  - intros [= ->]. done.
  - simpl in H2. bool_to_prop. rewrite commas_cons. intros Heq. symmetry in Heq.
    by apply Hfirst in Heq.
  - simpl in H1. bool_to_prop. rewrite commas_cons. intros Heq. by apply Hfirst in Heq.
  - simpl in H1, H2. bool_to_prop. apply Forall_cons in HI as [Hx HI].
    rewrite !commas_cons. intros Heq. apply Hx in Heq as [-> Heq]; [|auto..].
    destruct l1 as [|x1 l1], l2 as [|y2 l2]; simplify_eq; [done|].
    destruct (IH (y2 :: l2)) as [-> ->]; done.
Qed.
End commas.

Lemma print_inj j1 j2 r1 r2 :
  json_ok j1 = true → json_ok j2 = true → delim r1 = true → delim r2 = true →
  print j1 r1 = print j2 r2 → j1 = j2 ∧ r1 = r2.
Proof.
  revert j2 r1 r2. induction j1 as [|b|t|s|l IH|l IH] using json_ind_nested;
    intros j2 r1 r2 H1 H2 D1 D2 Heq;
    assert (kind j2 = kind _) as Hk by
      (destruct (print_first _ r1 H1) as (c1 & s1 & E1 & <-),
         (print_first _ r2 H2) as (c2 & s2 & E2 & <-); congruence).
  - destruct j2 as [|[]|?|?|?|?]; try done. cbn in Heq. by simplify_eq.
  - destruct b, j2 as [|[]|?|?|?|?]; try done; cbn in Heq; by simplify_eq.
  - destruct j2 as [|[]|t2|?|?|?]; try done. cbn in Heq. simpl in H1, H2.
    unfold num_text_ok in *. bool_to_prop. destruct (num_inj t t2 r1 r2) as [-> ->]; done.
  - destruct j2 as [|[]|?|s2|?|?]; try done. cbn [print] in Heq.
    apply quote_inj in Heq as [-> ->]. done.
  - destruct j2 as [|[]|?|?|l2|?]; try done. cbn [print] in Heq. injection Heq as Heq.
    simpl in H1, H2. apply (commas_inj print json_ok "]"%char) in Heq as [-> ->];
      [done|done|done| |exact IH|done|done].
    intros x r s Hx Hs. destruct (print_first x r Hx) as (c & s' & E & Hc).
    rewrite E in Hs. injection Hs as -> _. by destruct x as [|[]| | | |].
  - destruct j2 as [|[]|?|?|?|l2]; try done. cbn [print] in Heq. injection Heq as Heq.
    simpl in H1, H2. bool_to_prop.
    apply (commas_inj _ (λ kv, json_ok (snd kv)) "}"%char) in Heq as [-> ->];
      [done|done|done|intros [k v] r s _; done| |done|done].
    eapply Forall_impl; [exact IH|]. intros [k v] Hv [k2 v2] q1 q2 ? ? ? ? Hq.
    cbn [fst snd] in *. apply quote_inj in Hq as [-> [= Hq]].
    destruct (Hv v2 q1 q2) as [-> ->]; done.
Qed.

Lemma JSON_stringify_inj j1 j2 :
  json_ok j1 = true → json_ok j2 = true → JSON_stringify j1 = JSON_stringify j2 → j1 = j2.
Proof. intros H1 H2 H. by destruct (print_inj j1 j2 EmptyString EmptyString). Qed.

(** ** Key order *)

Lemma str_compare_refl s : String.compare s s = Eq.
Proof. induction s as [|c s IH]; [done|]. simpl. unfold Ascii.compare. by rewrite N.compare_refl. Qed.

Lemma str_compare_trans s t u :
  String.compare s t ≠ Gt → String.compare t u ≠ Gt → String.compare s u ≠ Gt.
Proof.
  revert t u. induction s as [|a s IH]; intros [|b t] [|c u]; simpl; try done.
  unfold Ascii.compare.
  destruct (N.compare_spec (N_of_ascii a) (N_of_ascii b)) as [Eab|Eab|Eab]; [| |done];
    destruct (N.compare_spec (N_of_ascii b) (N_of_ascii c)) as [Ebc|Ebc|Ebc]; try done;
    destruct (N.compare_spec (N_of_ascii a) (N_of_ascii c)) as [Eac|Eac|Eac];
    try done; try lia; intros; eapply IH; eauto.
Qed.

#[export] Instance str_le_trans : Transitive str_le.
Proof.
  intros s t u. unfold str_le, String.leb. intros H1 H2.
  pose proof (str_compare_trans s t u) as H.
  destruct (String.compare s t), (String.compare t u), (String.compare s u); try done;
    exfalso; by apply H.
Qed.
#[export] Instance str_le_antisymm : AntiSymm (=) str_le.
Proof. intros s t. apply String.leb_antisym. Qed.
#[export] Instance str_le_total : Total str_le.
Proof. intros s t. apply String.leb_total. Qed.

Lemma str_lt_iff a b : str_lt a b = true ↔ str_le a b ∧ a ≠ b.
Proof.
  unfold str_lt, str_le, String.leb. pose proof (String.compare_eq_iff a b) as Hab.
  destruct (String.compare a b) eqn:Ec; split; try done.
  - intros [_ Hne]. by destruct Hne; apply Hab.
  - intros _. split; [done|]. intros ->. by rewrite str_compare_refl in Ec.
  - by intros [? _].
Qed.

Lemma str_lt_trans a b c : str_lt a b = true → str_lt b c = true → str_lt a c = true.
Proof.
  rewrite !str_lt_iff. intros [Hab Hn] [Hbc Hn2]. split; [by transitivity b|]. intros ->.
  by apply Hn2, (anti_symm str_le).
Qed.

Lemma own_order_perm ks : own_order ks ≡ₚ ks.
Proof.
  unfold own_order. rewrite merge_sort_Permutation.
  induction ks as [|k ks IH]; [done|].
  rewrite !filter_cons. destruct (is_index k) eqn:E.
  - rewrite decide_True, decide_False by done. simpl. by rewrite IH.
  - rewrite decide_False, decide_True by done. by rewrite <- Permutation_middle, IH.
Qed.

Lemma canonical_keys_perm ks : canonical_keys ks ≡ₚ filter (λ k, k ≠ proto_key) ks.
Proof. unfold canonical_keys. by rewrite own_order_perm, merge_sort_Permutation. Qed.

Lemma elem_of_canonical_keys k ks : k ∈ canonical_keys ks ↔ k ∈ ks ∧ k ≠ proto_key.
Proof. rewrite canonical_keys_perm, list_elem_of_filter. tauto. Qed.

#[export] Instance canonical_keys_proper : Proper ((≡ₚ) ==> (=)) canonical_keys.
Proof.
  intros ks1 ks2 Hp. unfold canonical_keys. do 2 f_equal.
  apply (Sorted_unique str_le); [apply Sorted_merge_sort, _..|].
  by rewrite !merge_sort_Permutation.
Qed.

Lemma jget_Some_elem k v l : jget k l = Some v → (k, v) ∈ l.
Proof.
  induction l as [|[k' v'] l IH]; simpl; [done|]. case_decide; intros; simplify_eq; set_solver.
Qed.

Lemma jget_elem k v l : NoDup l.*1 → (k, v) ∈ l → jget k l = Some v.
Proof.
  induction l as [|[k' v'] l IH]; intros Hnd Hin; [by apply elem_of_nil in Hin|].
  simpl in *. apply NoDup_cons in Hnd as [Hn Hnd].
  apply elem_of_cons in Hin as [[= -> ->]|Hin]; [by rewrite decide_True|].
  rewrite decide_False; [auto|]. intros ->. apply Hn, list_elem_of_fmap. by exists (k', v).
Qed.

Lemma jget_None k l : jget k l = None ↔ k ∉ l.*1.
Proof.
  induction l as [|[k' v'] l IH]; simpl; [set_solver|].
  case_decide; simplify_eq; [|rewrite IH]; set_solver.
Qed.

Lemma jget_perm k l1 l2 : NoDup l1.*1 → l1 ≡ₚ l2 → jget k l1 = jget k l2.
Proof.
  intros Hnd Hp. assert (NoDup l2.*1) as Hnd2 by (by rewrite <- Hp).
  destruct (jget k l1) as [v|] eqn:E1.
  - symmetry. apply jget_elem; [done|]. rewrite <- Hp. by apply jget_Some_elem.
  - symmetry. apply jget_None. rewrite <- Hp. by apply jget_None.
Qed.

Lemma arrange_perm l1 l2 : NoDup l1.*1 → l1 ≡ₚ l2 → arrange l1 = arrange l2.
Proof.
  intros Hnd Hp. unfold arrange.
  assert (canonical_keys l1.*1 = canonical_keys l2.*1) as -> by (by rewrite Hp).
  apply list_fmap_ext. intros i k _. by rewrite (jget_perm k l1 l2).
Qed.

Lemma arrange_keys l : (arrange l).*1 = canonical_keys l.*1.
Proof.
  unfold arrange. rewrite <- list_fmap_compose.
  rewrite (list_fmap_ext _ id); [apply list_fmap_id|done].
Qed.

Lemma canonicalize_keys (l : list (string * json)) :
  (map (λ kv, (fst kv, canonicalize (snd kv))) l).*1 = l.*1.
Proof. induction l as [|[k v] l IH]; simpl; [done|]. by f_equal. Qed.

Lemma canonicalize_ok j : json_ok j = true → json_ok (canonicalize j) = true.
Proof.
  induction j as [|b|t|s|l IH|l IH] using json_ind_nested; try done; simpl; intros Hok.
  - rewrite forallb_forall in *. intros x Hx. apply in_map_iff in Hx as (y & <- & Hy).
    rewrite Forall_forall in IH. apply IH; [by apply list_elem_of_In|auto].
  - bool_to_prop. apply andb_true_iff. split.
    { apply bool_decide_eq_true. rewrite arrange_keys, canonicalize_keys, canonical_keys_perm.
      by apply NoDup_filter. }
    apply forallb_forall. intros [k v] Hkv. apply list_elem_of_In, list_elem_of_fmap in Hkv
      as (k' & [= -> ->] & _). simpl.
    destruct (jget _ _) as [v|] eqn:E; [|done]. simpl.
    apply jget_Some_elem, list_elem_of_In, in_map_iff in E as ([k2 v2] & [= -> <-] & Hin).
    simpl in *. rewrite forallb_forall in H0. apply list_elem_of_In in Hin as Hin'.
    rewrite Forall_forall in IH. by apply (IH _ Hin'), (H0 (k', v2)).
Qed.

Lemma json_equiv_canonical j1 j2 :
  json_ok j2 = true → json_equiv j1 j2 → canonicalize j1 = canonicalize j2.
Proof.
  revert j2. induction j1 as [|b|t|s|l IH|l IH] using json_ind_nested; intros j2 Hok He;
    inversion He as [| | | |l1 l2 HF|l1 l2 l2' Hp HF]; subst; try done; simpl in *; f_equal.
  - induction HF as [|x y l1 l2 Hxy HF IHF]; [done|]. simpl in *. bool_to_prop.
    apply Forall_cons in IH as [Hx IH]. f_equal; [by apply Hx|].
    apply IHF; (done || by constructor).
  - bool_to_prop.
    trans (arrange (map (λ kv, (kv.1, canonicalize kv.2)) l2')).
    + f_equal. assert (forallb (λ kv, json_ok kv.2) l2' = true) as Hok2.
      { rewrite forallb_forall in *. intros x Hx. apply H0, list_elem_of_In. rewrite Hp.
        by apply list_elem_of_In. }
      clear He Hp H H0. induction HF as [|[k x] [k2 y] l1 l2' [Hk Hxy] HF IHF]; [done|].
      simpl in *. bool_to_prop. apply Forall_cons in IH as [Hx IH]. subst.
      f_equal; [f_equal; by apply Hx|by apply IHF].
    + symmetry. apply arrange_perm; [by rewrite canonicalize_keys|].
      by apply Permutation_map.
Qed.

(** *** The canonical form is a fixed point *)

Lemma sorted_filter (P : string → Prop) `{∀ k, Decision (P k)} ks :
  Sorted str_le ks → Sorted str_le (filter P ks).
Proof.
  intros Hs%Sorted_StronglySorted; [|apply _]. apply StronglySorted_Sorted.
  induction Hs as [|k ks Hs IH Hall]; [constructor|]. rewrite filter_cons. case_decide; [|done].
  constructor; [done|]. apply Forall_forall. intros x [_ Hx]%list_elem_of_filter.
  rewrite Forall_forall in Hall. by apply Hall.
Qed.

Lemma canonical_keys_idem ks : canonical_keys (canonical_keys ks) = canonical_keys ks.
Proof.
  etrans; [apply canonical_keys_proper, canonical_keys_perm|]. unfold canonical_keys. f_equal.
  apply (Sorted_unique str_le); [apply sorted_filter, Sorted_merge_sort, _..|].
  rewrite !merge_sort_Permutation. by rewrite list_filter_filter_l.
Qed.

Lemma array_index_inj k1 k2 :
  is_index k1 = true → is_index k2 = true → index_val k1 = index_val k2 → k1 = k2.
Proof.
  unfold is_index, index_val. intros H1 H2.
  assert (∀ k z, array_index k = Some z → k = Z_to_string z) as Hk.
  { unfold array_index. intros k z (z' & _ & H)%bind_Some.
    destruct (bool_decide _ && _) eqn:E; [|done]. injection H as <-. bool_to_prop. done. }
  destruct (array_index k1) eqn:E1, (array_index k2) eqn:E2; simpl; try done. intros ->.
  apply Hk in E1, E2. congruence.
Qed.

#[export] Instance le_index_trans : Transitive (λ k1 k2, index_val k1 ≤ index_val k2).
Proof. intros a b c. lia. Qed.
#[export] Instance le_index_total : Total (λ k1 k2, index_val k1 ≤ index_val k2).
Proof. intros a b. lia. Qed.

Lemma own_order_fixed s t :
  (∀ k, k ∈ s → is_index k = true) → Sorted (λ k1 k2, index_val k1 ≤ index_val k2) s →
  (∀ k, k ∈ t → is_index k = false) → own_order (s ++ t) = s ++ t.
Proof.
  intros Hs Hsort Ht. unfold own_order. rewrite !filter_app.
  rewrite (filter_keep _ s) by done. rewrite (filter_drop _ t) by (intros k Hk; by rewrite Ht).
  rewrite (filter_drop _ s) by (intros k Hk; by rewrite Hs). rewrite (filter_keep _ t) by done.
  rewrite app_nil_r. simpl. f_equal.
  apply (Sorted_unique_strong (λ k1 k2, index_val k1 ≤ index_val k2)); [|apply Sorted_merge_sort, _|done|].
  - intros x y Hx Hy ? ?. rewrite merge_sort_Permutation in Hx. apply array_index_inj; auto. lia.
  - apply merge_sort_Permutation.
Qed.

Lemma own_order_idem ks : own_order (own_order ks) = own_order ks.
Proof.
  apply own_order_fixed.
  - intros k Hk. rewrite merge_sort_Permutation in Hk. by apply list_elem_of_filter in Hk as [? _].
  - apply Sorted_merge_sort, _.
  - by intros k [? _]%list_elem_of_filter.
Qed.

Lemma canonical_keys_own ks : own_order (canonical_keys ks) = canonical_keys ks.
Proof. apply own_order_idem. Qed.

Lemma jget_fmap (g : string → json) ks k :
  k ∈ ks → jget k ((λ k, (k, g k)) <$> ks) = Some (g k).
Proof.
  induction ks as [|k' ks IH]; [by intros ?%elem_of_nil|]. rewrite fmap_cons. cbn [jget].
  intros Hin. case_decide; [by subst|]. apply IH. set_solver.
Qed.

(** Reading a property of the canonical form. *)
Lemma jget_arrange k l :
  jget k (arrange l) = if decide (k = proto_key) then None else jget k l.
Proof.
  destruct (decide (k ∈ canonical_keys l.*1)) as [Hk|Hk].
  - unfold arrange. rewrite (jget_fmap (λ k, default JNull (jget k l))) by done.
    apply elem_of_canonical_keys in Hk as [Hk Hp]. rewrite decide_False by done.
    destruct (jget k l) eqn:E; [done|]. by apply jget_None in E.
  - rewrite (proj2 (jget_None k (arrange l))) by (by rewrite arrange_keys).
    case_decide as Hp; [done|]. symmetry. apply jget_None. intros Hin. apply Hk.
    by apply elem_of_canonical_keys.
Qed.

Lemma jget_map_snd (f : json → json) k l :
  jget k (map (λ kv, (fst kv, f (snd kv))) l) = f <$> jget k l.
Proof. induction l as [|[k' v] l IH]; simpl; [done|]. case_decide; [done|exact IH]. Qed.

Lemma prop_canonicalize e k :
  k ≠ proto_key → prop (canonicalize e) k = canonicalize <$> prop e k.
Proof.
  intros Hk. destruct e as [| | | |l|l]; try done. cbn [canonicalize prop].
  rewrite jget_arrange, decide_False by done. apply jget_map_snd.
Qed.

Lemma canonicalize_idem j : json_ok j = true → canonicalize (canonicalize j) = canonicalize j.
Proof.
  induction j as [|b|t|s|l IH|l IH] using json_ind_nested; try done; cbn [canonicalize json_ok]; intros Hok.
  - f_equal. rewrite map_map. apply map_ext_in. intros x Hx. apply list_elem_of_In in Hx as Hx'.
    rewrite Forall_forall in IH. apply IH; [done|]. rewrite forallb_forall in Hok. auto.
  - f_equal. unfold arrange at 1. bool_to_prop.
    rewrite canonicalize_keys, arrange_keys, canonical_keys_idem, canonicalize_keys.
    unfold arrange at 2. rewrite canonicalize_keys. apply list_fmap_ext. intros i k Hk.
    apply list_elem_of_lookup_2, elem_of_canonical_keys in Hk as [Hk Hp]. f_equal.
    rewrite jget_map_snd, jget_arrange, decide_False, jget_map_snd by done.
    destruct (jget k l) as [v|] eqn:E; [|done]. simpl. apply jget_Some_elem in E.
    rewrite Forall_forall in IH. apply (IH (k, v) E). rewrite forallb_forall in H0.
    by apply (H0 (k, v)), list_elem_of_In.
Qed.

(** ** Properties *)

(** The stable text of a value determines its canonical form, and equal
    canonical forms have equal text: two records hash to the same text exactly
    when [canonicalize] identifies them. *)
Lemma stableStringify_exact j1 j2 :
  json_ok j1 = true → json_ok j2 = true →
  stableStringify j1 = stableStringify j2 ↔ canonicalize j1 = canonicalize j2.
Proof.
  intros H1 H2. unfold stableStringify. split; [|congruence].
  apply JSON_stringify_inj; by apply canonicalize_ok.
Qed.

(** The stable text does not depend on the order in which keys were
    inserted, at any depth of the value. *)
Lemma stableStringify_key_order j1 j2 :
  json_ok j2 = true → json_equiv j1 j2 → stableStringify j1 = stableStringify j2.
Proof. intros Hok He. unfold stableStringify. by rewrite (json_equiv_canonical j1 j2). Qed.

(** A [__proto__] key is dropped: a value and the same value without it have
    the same stable text. *)
Lemma stableStringify_loses_proto :
  ∃ j1 j2, json_ok j1 = true ∧ json_ok j2 = true ∧ ¬ json_equiv j1 j2 ∧
           stableStringify j1 = stableStringify j2.
Proof.
  exists (JObj [("amount", JNum "5"); ("__proto__", JObj [("to", JStr "GA")])]),
         (JObj [("amount", JNum "5")]).
  repeat split; try reflexivity. inversion 1 as [| | | | |? ? ? Hp HF].
  apply Forall2_length in HF. apply Permutation_length in Hp. simpl in *. lia.
Qed.
