(* ===== verification/JsonParse.v ===== *)
(** * Reading JSON text

    [JSON.parse], which the program applies to what it stored as text (Redis
    records, NDJSON exports): white space, literals, numbers, strings with their
    escapes, arrays, and objects, where a repeated key keeps its first place and
    its last value.  Shown: parsing the text of a value gives the value back.

    A number is kept as the text [Number.prototype.toString] gives it; for a text
    that is not an integer up to 2^53 written plainly, that is the argument [num].
    Escapes of code units above 255, which no modelled string contains, are
    refused.  Recursion is bounded by the length of the text, which is enough:
    every level of nesting and every item reads at least one character
    ([need_print]). *)
From Stdlib Require Import Decimal DecimalString DecimalFacts DecimalN.
From S2P Require Import Prelude Json.

Definition is_json_space (c : ascii) : bool :=
  let n := code c in ((n =? 32) || (n =? 9) || (n =? 10) || (n =? 13))%N.

Fixpoint skip_ws (s : string) : string :=
  match s with
  | String c r => if is_json_space c then skip_ws r else s
  | EmptyString => EmptyString
  end.

(** *** Strings *)

Definition hex_digit_val (c : ascii) : option N :=
  let n := code c in
  if ((48 <=? n) && (n <=? 57))%N then Some (n - 48)%N
  else if ((97 <=? n) && (n <=? 102))%N then Some (n - 87)%N
  else if ((65 <=? n) && (n <=? 70))%N then Some (n - 55)%N
  else None.

Definition hex4 (a b c d : ascii) : option ascii :=
  x ← hex_digit_val a; y ← hex_digit_val b; z ← hex_digit_val c; w ← hex_digit_val d;
  let n := (4096 * x + 256 * y + 16 * z + w)%N in
  if (n <? 256)%N then Some (ascii_of_N n) else None.

(** The character a one-letter escape stands for. *)
Definition escape_char (c : ascii) : option ascii :=
  let n := code c in
  if ((n =? 34) || (n =? 92) || (n =? 47))%N then Some c
  else if (n =? 98)%N then Some (ascii_of_N 8)
  else if (n =? 116)%N then Some (ascii_of_N 9)
  else if (n =? 110)%N then Some (ascii_of_N 10)
  else if (n =? 102)%N then Some (ascii_of_N 12)
  else if (n =? 114)%N then Some (ascii_of_N 13)
  else None.

(** After the opening quote: the string and what follows the closing quote. *)
Fixpoint parse_str (s : string) : option (string * string) :=
  match s with
  | EmptyString => None
  | String c r =>
      if (code c =? 34)%N then Some (EmptyString, r)
      else if (code c =? 92)%N then
        match r with
        | String u r1 =>
            if (code u =? 117)%N then
              match r1 with
              | String a (String b (String c (String d r2))) =>
                  x ← hex4 a b c d; '(t, r') ← parse_str r2; Some (String x t, r')
              | _ => None
              end
            else x ← escape_char u; '(t, r') ← parse_str r1; Some (String x t, r')
        | EmptyString => None
        end
      else if (code c <? 32)%N then None
      else '(t, r') ← parse_str r; Some (String c t, r')
  end.

(** *** Numbers *)

Definition is_num_part (c : ascii) : bool := is_num_char c || (code c =? 69)%N.

(** The longest prefix of number characters. *)
Fixpoint scan_num (s : string) : string * string :=
  match s with
  | String c r => if is_num_part c then let '(t, r') := scan_num r in (String c t, r')
                  else (EmptyString, s)
  | EmptyString => (EmptyString, EmptyString)
  end.

Fixpoint drop_digits (s : string) : string :=
  match s with String c r => if is_digit c then drop_digits r else s | EmptyString => s end.

(** At least one digit, then [k]. *)
Definition digits1 (s : string) (k : string → bool) : bool :=
  match s with String c r => is_digit c && k (drop_digits r) | EmptyString => false end.

Definition is_nil (s : string) : bool := match s with EmptyString => true | _ => false end.

Definition exp_ok (s : string) : bool :=
  match s with
  | EmptyString => true
  | String e r =>
      ((code e =? 101) || (code e =? 69))%N &&
      match r with
      | String c r' => if ((code c =? 43) || (code c =? 45))%N then digits1 r' is_nil
                       else digits1 r is_nil
      | EmptyString => false
      end
  end.

Definition frac_ok (s : string) : bool :=
  match s with
  | String c r => if (code c =? 46)%N then digits1 r exp_ok else exp_ok s
  | EmptyString => true
  end.

(** The grammar of JSON numbers. *)
Definition unsigned_ok (s : string) : bool :=
  match s with
  | String c r => if (code c =? 48)%N then frac_ok r
                  else is_digit c && frac_ok (drop_digits r)
  | EmptyString => false
  end.

Definition number_ok (s : string) : bool :=
  match s with
  | String c r => if (code c =? 45)%N then unsigned_ok r else unsigned_ok s
  | EmptyString => false
  end.

(** [s] without its prefix [p]. *)
Fixpoint strip (p s : string) : option string :=
  match p, s with
  | EmptyString, _ => Some s
  | String a p, String b s => if Ascii.eqb a b then strip p s else None
  | _, EmptyString => None
  end.

Section parse.
Context (num : string → string).

(** [Number(t).toString()]: an integer up to 2^53 written plainly prints the same. *)
Definition number_text (t : string) : string :=
  match BigInt_of_string t with
  | Some z => if bool_decide (Z_to_string z = t) && (Z.abs z <=? 9007199254740992) then t
              else num t
  | None => num t
  end.

(** The object a list of members builds. *)
Definition obj_of (l : list (string * json)) : list (string * json) :=
  let m := foldl (λ m kv, aput kv.1 kv.2 m) [] l in
  (λ k, (k, default JNull (aget k m))) <$> own_order m.*1.

Definition parse_scalar (s : string) : option (json * string) :=
  match strip "null" s, strip "true" s, strip "false" s with
  | Some r, _, _ => Some (JNull, r)
  | None, Some r, _ => Some (JBool true, r)
  | None, None, Some r => Some (JBool false, r)
  | None, None, None =>
      let '(t, r) := scan_num s in
      if number_ok t then Some (JNum (number_text t), r) else None
  end.

Fixpoint parse_value (fuel : nat) (s : string) : option (json * string) :=
  match fuel with
  | O => None
  | S n =>
      match skip_ws s with
      | EmptyString => None
      | String c r =>
          if (code c =? 34)%N then '(t, r') ← parse_str r; Some (JStr t, r')
          else if (code c =? 91)%N then
            match skip_ws r with
            | String d r1 =>
                if (code d =? 93)%N then Some (JArr [], r1)
                else '(l, r') ← parse_items n (String d r1); Some (JArr l, r')
            | EmptyString => None
            end
          else if (code c =? 123)%N then
            match skip_ws r with
            | String d r1 =>
                if (code d =? 125)%N then Some (JObj [], r1)
                else '(l, r') ← parse_members n (String d r1); Some (JObj (obj_of l), r')
            | EmptyString => None
            end
          else parse_scalar (String c r)
      end
  end
with parse_items (fuel : nat) (s : string) : option (list json * string) :=
  match fuel with
  | O => None
  | S n =>
      '(v, r) ← parse_value n s;
      match skip_ws r with
      | String d r1 =>
          if (code d =? 44)%N then '(l, r') ← parse_items n r1; Some (v :: l, r')
          else if (code d =? 93)%N then Some ([v], r1)
          else None
      | EmptyString => None
      end
  end
with parse_members (fuel : nat) (s : string) : option (list (string * json) * string) :=
  match fuel with
  | O => None
  | S n =>
      match skip_ws s with
      | String q r =>
          if (code q =? 34)%N then
            '(k, r1) ← parse_str r;
            match skip_ws r1 with
            | String d r2 =>
                if (code d =? 58)%N then
                  '(v, r3) ← parse_value n r2;
                  match skip_ws r3 with
                  | String e r4 =>
                      if (code e =? 44)%N then
                        '(l, r') ← parse_members n r4; Some ((k, v) :: l, r')
                      else if (code e =? 125)%N then Some ([(k, v)], r4)
                      else None
                  | EmptyString => None
                  end
                else None
            | EmptyString => None
            end
          else None
      | EmptyString => None
      end
  end.

(** [JSON.parse(s)], [None] standing for the [SyntaxError]. *)
Definition JSON_parse (s : string) : option json :=
  '(v, r) ← parse_value (String.length s) s;
  if is_nil (skip_ws r) then Some v else None.
End parse.

(** ** Lemmas *)

Lemma parse_esc c s :
  parse_str (esc c +:+ s) = ('(t, r') ← parse_str s; Some (String c t, r')).
Proof. destruct c as [[] [] [] [] [] [] [] []]; reflexivity. Qed.

Lemma parse_str_esc_all s r : parse_str (esc_all s (String dquote r)) = Some (s, r).
Proof.
  induction s as [|c s IH]; [done|]. cbn [esc_all]. rewrite parse_esc, IH. done.
Qed.

(** What may follow a number. *)
Definition num_delim (r : string) : bool :=
  match r with EmptyString => true | String c _ => negb (is_num_part c) end.

Lemma scan_num_app t r :
  str_forall is_num_char t = true → num_delim r = true → scan_num (t +:+ r) = (t, r).
Proof.
  intros Ht Hr. induction t as [|c t IH].
  - rewrite str_app_nil. destruct r as [|c r]; [done|]. simpl in *. by destruct (is_num_part c).
  - rewrite str_app_cons. simpl in Ht. bool_to_prop. cbn [scan_num]. unfold is_num_part at 1.
    rewrite H. simpl. by rewrite IH.
Qed.

(** How deep the parser recurses on the text of a value. *)
Fixpoint need (j : json) : nat :=
  match j with
  | JArr l => S (foldr (λ x n, S (Nat.max (need x) n)) 0%nat l)
  | JObj l => S (foldr (λ kv n, S (Nat.max (need (snd kv)) n)) 0%nat l)
  | _ => 1
  end.

(** *** The text of an integer is a JSON number *)

Lemma drop_digits_all s : str_forall is_digit s = true → drop_digits s = EmptyString.
Proof. induction s as [|c s IH]; simpl; [done|]. intros H. bool_to_prop. rewrite H. auto. Qed.

Lemma pos_to_uint_nonzero p u : Pos.to_uint p ≠ Decimal.D0 u.
Proof.
  intros E. pose proof (DecimalN.Unsigned.to_of (N.to_uint (N.pos p))) as H.
  rewrite DecimalN.Unsigned.of_to in H. change (N.to_uint (N.pos p)) with (Pos.to_uint p) in H.
  rewrite E in H. unfold Decimal.unorm in H.
  pose proof (DecimalFacts.nzhead_nonzero (Decimal.D0 u) u) as Hn.
  destruct (Decimal.nzhead (Decimal.D0 u)) eqn:En; try discriminate H; [|by rewrite H in Hn].
  injection H as ->. pose proof (DecimalN.Unsigned.of_to (N.pos p)) as Hp.
  change (N.to_uint (N.pos p)) with (Pos.to_uint p) in Hp. by rewrite E in Hp.
Qed.

Lemma pos_text_ok p : unsigned_ok (DecimalString.NilZero.string_of_uint (Pos.to_uint p)) = true.
Proof.
  pose proof (pos_to_uint_nonzero p) as Hz. pose proof (pos_to_uint_nonnil p) as Hn.
  destruct (Pos.to_uint p) as [|u|u|u|u|u|u|u|u|u|u]; [done|by destruct (Hz u)|..];
    simpl; rewrite drop_digits_all by apply string_of_uint_digits; reflexivity.
Qed.

Lemma Z_text_ok z :
  number_ok (Z_to_string z) = true ∧ num_text_ok (Z_to_string z) = true.
Proof.
  assert (∀ s, str_forall is_digit s = true → str_forall is_num_char s = true) as Hd.
  { intros s. apply str_forall_impl. intros c Hc. unfold is_num_char. by rewrite Hc. }
  unfold Z_to_string. destruct z as [|p|p]; [done|..]; cbn [Z.to_int DecimalString.NilZero.string_of_int].
  - pose proof (pos_text_ok p) as Hp. pose proof (string_of_uint0_digits (Pos.to_uint p)) as Hs.
    destruct (string_of_uint0_cons (Pos.to_uint p)) as (c & s & E & Hc). rewrite E in *. split.
    + unfold number_ok. destruct (code c =? 45)%N eqn:E45; [|done].
      apply N.eqb_eq in E45. unfold is_digit in Hc. rewrite E45 in Hc. discriminate.
    + unfold num_text_ok. by rewrite Hd.
  - split; [apply pos_text_ok|]. unfold num_text_ok. simpl. rewrite Hd; [done|]. apply string_of_uint0_digits.
Qed.

Section roundtrip.
Context (num : string → string).

(** A value as [JSON.parse] builds it: numbers as they print, object keys
    distinct and in enumeration order. *)
Fixpoint natural (j : json) : bool :=
  match j with
  | JNum t => num_text_ok t && number_ok t && bool_decide (number_text num t = t)
  | JArr l => forallb natural l
  | JObj l => bool_decide (NoDup l.*1) && bool_decide (own_order l.*1 = l.*1) &&
              forallb (λ kv, natural (snd kv)) l
  | _ => true
  end.

(** The first character of a printed value. *)
Definition starts_ok (c : ascii) : bool := negb (is_json_space c) && negb (code c =? 93)%N.

Lemma num_char_start c : is_num_char c = true → starts_ok c = true.
Proof. by_ascii c. Qed.

Lemma print_start j r :
  natural j = true → ∃ c r', print j r = String c r' ∧ starts_ok c = true.
Proof.
  destruct j as [|[]|t|s|l|l]; intros Hn; try (by eexists _, _).
  cbn [natural] in Hn. bool_to_prop. unfold num_text_ok in *. bool_to_prop.
  destruct t as [|c t]; [done|]. exists c, (t +:+ r). split; [done|].
  cbn [str_forall] in *. bool_to_prop. by apply num_char_start.
Qed.

Lemma skip_ws_start c r : starts_ok c = true → skip_ws (String c r) = String c r.
Proof. unfold starts_ok. intros H. bool_to_prop. simpl. by destruct (is_json_space c). Qed.

(** No number starts like another value. *)
Lemma parse_num n c t r :
  natural (JNum (String c t)) = true → num_delim r = true →
  parse_value num (S n) (String c t +:+ r) = Some (JNum (String c t), r).
Proof.
  intros Hn Hr. cbn [natural] in Hn. bool_to_prop. unfold num_text_ok in *. bool_to_prop.
  pose proof (scan_num_app (String c t) r ltac:(done) Hr) as Hs.
  rewrite str_app_cons in *. cbn [parse_value str_forall] in *. bool_to_prop.
  assert (is_num_char c = true) as Hc by done.
  rewrite skip_ws_start by (by apply num_char_start).
  assert ((code c =? 34)%N = false ∧ (code c =? 91)%N = false ∧ (code c =? 123)%N = false ∧
    strip "null" (String c (t +:+ r)) = None ∧ strip "true" (String c (t +:+ r)) = None ∧
    strip "false" (String c (t +:+ r)) = None) as (-> & -> & -> & E1 & E2 & E3).
  { clear - Hc. destruct c as [[] [] [] [] [] [] [] []]; try discriminate; repeat split; reflexivity. }
  unfold parse_scalar. rewrite E1, E2, E3, Hs.
  assert (number_ok (String c t) = true) as -> by done.
  assert (number_text num (String c t) = String c t) as -> by done. done.
Qed.

(** The parser reads the value it is looking at and stops after it. *)
Definition reads (j : json) : Prop :=
  ∀ n r, natural j = true → num_delim r = true → (need j ≤ n)%nat →
         parse_value num n (print j r) = Some (j, r).

Lemma parse_items_print l n r :
  Forall reads l → l ≠ [] → forallb natural l = true →
  (foldr (λ x n, S (Nat.max (need x) n)) 0 l ≤ n)%nat →
  parse_items num n (commas print l (String "]" r)) = Some (l, r).
Proof.
  intros Hl. revert n. induction Hl as [|x l Hx Hl IH]; [done|].
  intros n _ Hn Hf. cbn [forallb foldr] in *. bool_to_prop. destruct n as [|n]; [lia|].
  destruct l as [|y l].
  - cbn [commas parse_items]. rewrite (Hx n) by (done || (simpl in *; lia)). done.
  - cbn [commas parse_items]. rewrite (Hx n) by (done || lia). cbn [mbind option_bind].
    change (skip_ws (String "," ?s)) with (String "," s). cbn [mbind].
    rewrite IH by (done || lia). done.
Qed.

Lemma parse_members_step n k s :
  parse_members num (S n) (quote k (String ":" s)) =
  ('(v, r3) ← parse_value num n s;
   match skip_ws r3 with
   | String e r4 =>
       if (code e =? 44)%N then '(l, r') ← parse_members num n r4; Some ((k, v) :: l, r')
       else if (code e =? 125)%N then Some ([(k, v)], r4)
       else None
   | EmptyString => None
   end).
Proof.
  unfold quote. cbn [parse_members]. change (skip_ws (String dquote ?x)) with (String dquote x).
  cbn [mbind]. change (code dquote =? 34)%N with true. by rewrite parse_str_esc_all.
Qed.

Lemma parse_members_print l n r :
  Forall (λ kv, reads (snd kv)) l → l ≠ [] → forallb (λ kv, natural (snd kv)) l = true →
  (foldr (λ kv n, S (Nat.max (need (snd kv)) n)) 0 l ≤ n)%nat →
  parse_members num n
    (commas (λ kv r, quote (fst kv) (String ":" (print (snd kv) r))) l (String "}" r)) = Some (l, r).
Proof.
  intros Hl. revert n. induction Hl as [|[k x] l Hx Hl IH]; [done|].
  intros n _ Hn Hf. cbn [forallb foldr fst snd] in *. bool_to_prop. destruct n as [|n]; [lia|].
  destruct l as [|y l].
  - cbn [commas fst snd]. rewrite parse_members_step, (Hx n) by (done || (simpl in *; lia)). done.
  - cbn [commas fst snd]. rewrite parse_members_step, (Hx n) by (done || lia).
    cbn [mbind option_bind]. change (skip_ws (String "," ?s)) with (String "," s). cbn [mbind].
    rewrite IH by (done || lia). done.
Qed.

Lemma foldl_aput_id (l m : list (string * json)) :
  NoDup (m ++ l).*1 → foldl (λ m kv, aput kv.1 kv.2 m) m l = m ++ l.
Proof.
  revert m. induction l as [|[k v] l IH]; intros m Hn; simpl; [by rewrite app_nil_r|].
  rewrite aput_new.
  - rewrite IH; rewrite <- app_assoc; done.
  - apply aget_None. rewrite fmap_app in Hn. apply NoDup_app in Hn as (_ & Hd & _).
    intros Hk. apply (Hd k Hk). apply list_elem_of_here.
Qed.

Lemma aget_all (l : list (string * json)) :
  NoDup l.*1 → (λ k, (k, default JNull (aget k l))) <$> l.*1 = l.
Proof.
  intros Hn. rewrite <- list_fmap_compose. etrans; [|apply list_fmap_id].
  apply list_fmap_ext. intros i [k v] Hi. simpl.
  rewrite (elem_aget k v l Hn); [done|]. by eapply list_elem_of_lookup_2.
Qed.

Lemma obj_of_id l : NoDup l.*1 → own_order l.*1 = l.*1 → obj_of l = l.
Proof.
  intros Hn Ho. unfold obj_of. rewrite foldl_aput_id by done. rewrite app_nil_l, Ho.
  by apply aget_all.
Qed.

Lemma commas_start {A} (item : A → string → string) x l r :
  ∃ r', commas item (x :: l) r = item x r'.
Proof. destruct l; by eexists. Qed.

Lemma reads_all j : reads j.
Proof.
  induction j as [|b|t|s|l IH|l IH] using json_ind_nested; intros n r Hn Hr Hf;
    (destruct n as [|n]; [cbn [need] in Hf; lia|]).
  - cbn [print]. by rewrite !str_app_cons, str_app_nil.
  - destruct b; cbn [print]; by rewrite !str_app_cons, str_app_nil.
  - destruct t as [|c t]; [done|]. by apply parse_num.
  - cbn [print parse_value]. unfold quote.
    change (skip_ws (String dquote ?x)) with (String dquote x). cbn [mbind].
    change (code dquote =? 34)%N with true. by rewrite parse_str_esc_all.
  - cbn [print parse_value natural need] in *.
    change (skip_ws (String "[" ?x)) with (String "[" x). cbn [mbind].
    destruct l as [|x l]; [done|].
    destruct (commas_start print x l (String "]" r)) as [r' E].
    assert (natural x = true) as Hx by (cbn [forallb] in Hn; by bool_to_prop).
    destruct (print_start x r' Hx) as (c & s & Es & Hc).
    pose proof (parse_items_print (x :: l) n r IH ltac:(done) Hn ltac:(lia)) as Hp.
    rewrite E, Es in *. rewrite skip_ws_start by done.
    unfold starts_ok in Hc. bool_to_prop. change (code "[" =? 34)%N with false.
    change (code "[" =? 91)%N with true. cbn iota.
    assert ((code c =? 93)%N = false) as -> by done. by rewrite Hp.
  - cbn [print parse_value natural need] in *. bool_to_prop.
    change (skip_ws (String "{" ?x)) with (String "{" x). cbn [mbind].
    destruct l as [|[k x] l]; [done|].
    pose proof (parse_members_print ((k, x) :: l) n r IH ltac:(done) ltac:(done) ltac:(lia)) as Hp.
    destruct (commas_start (λ kv r, quote (fst kv) (String ":" (print (snd kv) r))) (k, x) l
      (String "}" r)) as [r' E].
    rewrite E in *. unfold quote in *. cbn [fst] in *.
    change (skip_ws (String dquote ?x)) with (String dquote x).
    change (code "{" =? 34)%N with false. change (code "{" =? 91)%N with false.
    change (code "{" =? 123)%N with true. cbn iota.
    change (code dquote =? 125)%N with false. cbn iota. rewrite Hp. cbn [mbind option_bind].
    by rewrite obj_of_id.
Qed.

Lemma length_str_app s t : String.length (s +:+ t) = (String.length s + String.length t)%nat.
Proof. induction s as [|c s IH]; [done|]. rewrite str_app_cons. simpl. by rewrite IH. Qed.

Lemma length_quote s r : (2 + String.length r ≤ String.length (quote s r))%nat.
Proof.
  unfold quote. simpl. apply le_n_S. induction s as [|c s IH]; simpl; [lia|].
  rewrite length_str_app. lia.
Qed.

(** The printed items are at least as long as the recursion they need. *)
Lemma need_commas {A} (item : A → string → string) (nd : A → nat) l R :
  Forall (λ x, ∀ r, (nd x + String.length r ≤ String.length (item x r))%nat) l →
  (foldr (λ x n, S (Nat.max (nd x) n)) 0 l + String.length R
   ≤ S (String.length (commas item l R)))%nat.
Proof.
  induction 1 as [|x l Hx Hl IH]; [simpl; lia|]. destruct l as [|y l].
  - cbn [foldr commas]. specialize (Hx R). lia.
  - change (commas item (x :: y :: l) R) with (item x (String "," (commas item (y :: l) R))).
    specialize (Hx (String "," (commas item (y :: l) R))).
    cbn [foldr String.length] in *. lia.
Qed.

Lemma need_print j r :
  natural j = true → (need j + String.length r ≤ String.length (print j r))%nat.
Proof.
  revert r. induction j as [|b|t|s|l IH|l IH] using json_ind_nested; intros r Hn.
  - cbn [print need]. rewrite length_str_app. simpl. lia.
  - destruct b; cbn [print need]; rewrite length_str_app; simpl; lia.
  - destruct t as [|c t]; [done|]. cbn [print need]. rewrite length_str_app. simpl. lia.
  - cbn [print need]. pose proof (length_quote s r). lia.
  - cbn [print need natural String.length] in *.
    pose proof (need_commas print need l (String "]" r)) as H. cbn [String.length] in H.
    rewrite Forall_forall in IH. apply Is_true_true, forallb_True in Hn.
    rewrite Forall_forall in Hn. enough (Forall (λ x, ∀ r, (need x + String.length r ≤
      String.length (print x r))%nat) l) as HF by (specialize (H HF); lia).
    apply Forall_forall. intros x Hx r0. by apply IH, Is_true_true, Hn.
  - cbn [print need natural String.length] in *. bool_to_prop.
    set (item := λ (kv : string * json) r, quote (fst kv) (String ":" (print (snd kv) r))).
    pose proof (need_commas item (λ kv, need (snd kv)) l (String "}" r)) as HC.
    cbn [String.length] in HC. rewrite Forall_forall in IH.
    assert (Forall (λ kv, natural (snd kv)) l) as HN by (by apply forallb_True, Is_true_true).
    rewrite Forall_forall in HN.
    enough (Forall (λ x, ∀ r, (need (snd x) + String.length r ≤ String.length (item x r))%nat) l)
      as HF by (specialize (HC HF); lia).
    apply Forall_forall. intros x Hx r0.
    pose proof (IH x Hx r0 ltac:(by apply Is_true_true, HN)).
    pose proof (length_quote (fst x) (String ":" (print (snd x) r0))). unfold item.
    cbn [String.length] in *. lia.
Qed.
End roundtrip.

(** *** Natural values *)

Section natural.
Context (num : string → string).

Lemma natural_ok j : natural num j = true → json_ok j = true.
Proof.
  induction j as [|b|t|s|l IH|l IH] using json_ind_nested; try done; cbn [natural json_ok]; intros Hn; bool_to_prop.
  - done.
  - rewrite forallb_forall in *. intros x Hx. rewrite Forall_forall in IH. apply IH; [by apply list_elem_of_In|auto].
  - apply andb_true_iff. split; [by apply bool_decide_eq_true|]. rewrite forallb_forall in *. intros x Hx.
    rewrite Forall_forall in IH. apply IH; [by apply list_elem_of_In|auto].
Qed.

Lemma natural_canonicalize j : natural num j = true → natural num (canonicalize j) = true.
Proof.
  induction j as [|b|t|s|l IH|l IH] using json_ind_nested; try done; cbn [natural canonicalize]; intros Hn.
  - rewrite forallb_forall in *. intros x (y & <- & Hy)%in_map_iff.
    rewrite Forall_forall in IH. apply IH; [by apply list_elem_of_In|auto].
  - bool_to_prop. rewrite !andb_true_iff, !bool_decide_eq_true, arrange_keys, canonicalize_keys.
    split; [split|].
    + rewrite canonical_keys_perm. by apply NoDup_filter.
    + apply canonical_keys_own.
    + apply forallb_forall. intros [k v] (k' & [= -> ->] & Hk)%list_elem_of_In%list_elem_of_fmap. simpl.
      rewrite jget_map_snd. destruct (jget k' l) as [v|] eqn:E; [|done]. simpl. apply jget_Some_elem in E.
      rewrite Forall_forall in IH. apply (IH (k', v) E). rewrite forallb_forall in H0.
      by apply (H0 (k', v)), list_elem_of_In.
Qed.
End natural.

(** *** What the parser builds *)

Section parsed.
Context (num : string → string) (Hnum : ∀ t, num_text_ok (num t) = true).

Lemma number_text_ok t : num_text_ok (number_text num t) = true.
Proof.
  unfold number_text. destruct (BigInt_of_string t) as [z|]; [|done].
  destruct (bool_decide (Z_to_string z = t) && _) eqn:E; [|done]. bool_to_prop. subst t. apply Z_text_ok.
Qed.

Lemma obj_of_ok l : forallb (λ kv, json_ok (snd kv)) l = true → json_ok (JObj (obj_of l)) = true.
Proof.
  intros Hl. unfold obj_of. set (m := foldl _ _ _).
  assert (NoDup m.*1 ∧ Forall (λ kv, json_ok (snd kv) = true) m) as [Hnd Hok].
  { unfold m. clear m. assert (NoDup (@nil (string * json)).*1 ∧ Forall (λ kv : string * json, json_ok (snd kv) = true) []) as H0
      by (split; constructor).
    revert H0. generalize (@nil (string * json)). induction l as [|[k v] l IH]; intros acc [H1 H2]; [done|].
    simpl in *. bool_to_prop. apply IH; [done|]. split; [by apply aput_keys_NoDup|by apply Forall_aput]. }
  cbn [json_ok]. apply andb_true_iff. split.
  - apply bool_decide_eq_true. rewrite <- list_fmap_compose. rewrite (list_fmap_ext _ id) by done.
    rewrite list_fmap_id. by rewrite own_order_perm.
  - apply forallb_forall. intros [k v] (k' & [= -> ->] & _)%list_elem_of_In%list_elem_of_fmap. simpl.
    destruct (aget k' m) as [v|] eqn:E; [|done]. apply aget_Some_elem in E.
    rewrite Forall_forall in Hok. by apply (Hok (k', v)).
Qed.

Lemma parse_scalar_ok s v r : parse_scalar num s = Some (v, r) → json_ok v = true.
Proof.
  unfold parse_scalar. repeat case_match; intros; simplify_eq; try done. apply number_text_ok.
Qed.

Lemma parsed_ok n :
  (∀ s v r, parse_value num n s = Some (v, r) → json_ok v = true) ∧
  (∀ s l r, parse_items num n s = Some (l, r) → forallb json_ok l = true) ∧
  (∀ s l r, parse_members num n s = Some (l, r) → forallb (λ kv, json_ok (snd kv)) l = true).
Proof.
  induction n as [|n (IHv & IHi & IHm)]; [done|]. split; [|split].
  - intros s v r. cbn [parse_value]. destruct (skip_ws s) as [|c s1]; [done|].
    destruct (_ =? 34)%N; [intros ((t & r') & _ & H)%bind_Some; by simplify_eq|].
    destruct (_ =? 91)%N.
    { destruct (skip_ws s1) as [|d s2]; [done|]. destruct (_ =? 93)%N; [intros; by simplify_eq|].
      intros ((l & r') & Hl & H)%bind_Some. simplify_eq. by eapply IHi. }
    destruct (_ =? 123)%N; [|apply parse_scalar_ok].
    destruct (skip_ws s1) as [|d s2]; [done|]. destruct (_ =? 125)%N; [intros; by simplify_eq|].
    intros ((l & r') & Hl & H)%bind_Some. simplify_eq. by eapply obj_of_ok, IHm.
  - intros s l r. cbn [parse_items]. intros ((v & r') & Hv & H)%bind_Some.
    destruct (skip_ws r') as [|d r1]; [done|]. apply IHv in Hv.
    destruct (_ =? 44)%N.
    + apply bind_Some in H as ((l' & r2) & Hl & H). simplify_eq. simpl. rewrite Hv. by eapply IHi.
    + destruct (_ =? 93)%N; [|done]. simplify_eq. simpl. by rewrite Hv.
  - intros s l r. cbn [parse_members]. destruct (skip_ws s) as [|q s1]; [done|].
    destruct (_ =? 34)%N; [|done]. intros ((k & r1) & _ & H)%bind_Some.
    destruct (skip_ws r1) as [|d r2]; [done|]. destruct (_ =? 58)%N; [|done].
    apply bind_Some in H as ((v & r3) & Hv & H). apply IHv in Hv.
    destruct (skip_ws r3) as [|e r4]; [done|]. destruct (_ =? 44)%N.
    + apply bind_Some in H as ((l' & r5) & Hl & H). simplify_eq. simpl. rewrite Hv. by eapply IHm.
    + destruct (_ =? 125)%N; [|done]. simplify_eq. simpl. by rewrite Hv.
Qed.

Lemma JSON_parse_ok s v : JSON_parse num s = Some v → json_ok v = true.
Proof.
  unfold JSON_parse. intros ((v' & r) & Hv & H)%bind_Some. destruct (is_nil _); [|done].
  injection H as <-. by eapply (proj1 (parsed_ok _)).
Qed.
End parsed.

(** Reading back what was written: parsing the text of any value, as [JSON.parse]
    builds values, gives that value. *)
Lemma JSON_parse_print num j : natural num j = true → JSON_parse num (JSON_stringify j) = Some j.
Proof.
  intros Hn. unfold JSON_parse, JSON_stringify.
  rewrite (reads_all num j) by (done || (pose proof (need_print num j "" Hn); simpl in *; lia)).
  done.
Qed.

(** ** Objects that are updated and written back *)

Definition updated (l kvs : list (string * json)) : list (string * json) :=
  foldl (λ m kv, aput kv.1 kv.2 m) l kvs.

Lemma jget_aget k l : jget k l = aget k l.
Proof. induction l as [|[k' v] l IH]; simpl; [done|]. by rewrite IH. Qed.

Lemma own_order_snoc ks k :
  own_order ks = ks → is_index k = false → own_order (ks ++ [k]) = ks ++ [k].
Proof.
  unfold own_order. intros Ho Hk. rewrite !filter_app, !filter_cons, !filter_nil, Hk.
  rewrite decide_False, decide_True by done. rewrite app_nil_r, app_assoc. by rewrite Ho.
Qed.

Lemma jint_ok z : json_ok (jint z) = true.
Proof. apply Z_text_ok. Qed.

Section objects.
Context (num : string → string).

Definition natural_obj (l : list (string * json)) : Prop := natural num (JObj l) = true.

Lemma forallb_aput (P : json → bool) k v (l : list (string * json)) :
  forallb (λ kv, P (snd kv)) l = true → P v = true →
  forallb (λ kv, P (snd kv)) (aput k v l) = true.
Proof.
  intros Hl Hv. induction l as [|[k1 v1] l IH]; simpl in *; [by rewrite Hv|].
  bool_to_prop. case_decide; simpl; rewrite ?Hv; [done|]. rewrite IH by done. by rewrite andb_true_r.
Qed.

Lemma natural_aput k v l :
  natural_obj l → natural num v = true → is_index k = false → natural_obj (aput k v l).
Proof.
  unfold natural_obj. cbn [natural]. intros Hl Hv Hk. bool_to_prop.
  apply andb_true_iff. split; [|by apply forallb_aput].
  apply andb_true_iff. split; apply bool_decide_eq_true; [by apply aput_keys_NoDup|].
  rewrite aput_keys. case_decide; [done|]. by apply own_order_snoc.
Qed.

Lemma natural_updated kvs l :
  natural_obj l → Forall (λ kv, natural num kv.2 = true ∧ is_index kv.1 = false) kvs →
  natural_obj (updated l kvs).
Proof.
  intros Hl Hk. revert l Hl. unfold updated. induction Hk as [|[k v] kvs [Hv Hi] _ IH]; intros l Hl; [done|].
  apply IH. by apply natural_aput.
Qed.

Lemma natural_jint z : Z.abs z ≤ 9007199254740992 → natural num (jint z) = true.
Proof.
  intros Hz. unfold jint. cbn [natural]. destruct (Z_text_ok z) as [-> ->]. cbn [andb].
  apply bool_decide_eq_true. unfold number_text. rewrite BigInt_of_Z_to_string.
  rewrite bool_decide_true by done. by rewrite (proj2 (Z.leb_le _ _) Hz).
Qed.

Lemma parse_stringify l : natural_obj l → JSON_parse num (JSON_stringify (JObj l)) = Some (JObj l).
Proof. apply JSON_parse_print. Qed.

Lemma natural_jget l k v : natural_obj l → jget k l = Some v → natural num v = true.
Proof.
  unfold natural_obj. cbn [natural]. intros Hn Hg. bool_to_prop.
  apply jget_Some_elem in Hg. rewrite forallb_forall in H0. apply (H0 (k, v)).
  by apply list_elem_of_In.
Qed.

(** An object literal whose keys are distinct and are not array indexes. *)
Lemma natural_literal l :
  NoDup l.*1 → Forall (λ kv, is_index kv.1 = false ∧ natural num kv.2 = true) l → natural_obj l.
Proof.
  intros Hd Hl. unfold natural_obj. cbn [natural]. rewrite !andb_true_iff, !bool_decide_eq_true.
  split; [split; [done|]|].
  - assert (Forall (λ k, is_index k = false) l.*1) as Hk.
    { apply Forall_fmap. eapply Forall_impl; [done|]. by intros [k v] [? _]. }
    rewrite Forall_forall in Hk. unfold own_order.
    rewrite filter_drop by (intros k Hki; by rewrite (Hk k Hki)). by rewrite filter_keep.
  - rewrite forallb_forall. intros kv Hkv%list_elem_of_In.
    rewrite Forall_forall in Hl. by apply Hl.
Qed.
End objects.
