(* ===== verification/Ndjson.v ===== *)
(** * Lines of JSON

    A file of JSON lines holds one printed value per line.  Shown: a printed value
    contains no line break and is not blank, so that splitting the file gives the
    texts of its values. *)
From S2P Require Import Prelude Json JsonParse.

Definition newline : ascii := "010"%char.

Definition no_newline (s : string) : bool := str_forall (λ c, negb (Ascii.eqb c newline)) s.

Lemma split_on_line line rest :
  no_newline line = true → split_on newline (line +:+ String newline rest) = line :: split_on newline rest.
Proof.
  unfold no_newline. induction line as [|c line IH]; [done|]. rewrite str_app_cons.
  cbn [str_forall split_on]. intros H. bool_to_prop. rewrite IH by done.
  destruct (Ascii.eqb c newline); [done|]. done.
Qed.

Lemma esc_all_no_newline s r : no_newline r = true → no_newline (esc_all s r) = true.
Proof.
  intros Hr. induction s as [|c s IH]; [done|]. cbn [esc_all]. unfold no_newline in *.
  rewrite str_forall_app, IH, andb_true_r. destruct c as [[] [] [] [] [] [] [] []]; reflexivity.
Qed.

Lemma quote_no_newline s r : no_newline r = true → no_newline (quote s r) = true.
Proof. intros Hr. unfold quote. cbn. by apply esc_all_no_newline. Qed.

Lemma commas_no_newline {A} (item : A → string → string) l r :
  (∀ x r, x ∈ l → no_newline r = true → no_newline (item x r) = true) →
  no_newline r = true → no_newline (commas item l r) = true.
Proof.
  intros Hi Hr. induction l as [|x l IH]; [done|]. rewrite commas_cons. apply Hi; [by left|].
  destruct l as [|y l]; [done|]. cbn. apply IH. intros z r' Hz. apply Hi. by right.
Qed.

(** A printed value is one line. *)
Lemma print_no_newline j r : json_ok j = true → no_newline r = true → no_newline (print j r) = true.
Proof.
  revert r. induction j as [|b|t|s|l IH|l IH] using json_ind_nested; intros r Hj Hr; try (by destruct b || done).
  - cbn [print json_ok] in *. unfold num_text_ok in Hj. bool_to_prop. unfold no_newline in *.
    rewrite str_forall_app, Hr, andb_true_r. eapply str_forall_impl; [|done]. intros c. by_ascii c.
  - by apply quote_no_newline.
  - cbn [print json_ok] in *. cbn. apply commas_no_newline; [|exact Hr]. intros x r' Hx Hr'.
    rewrite Forall_forall in IH. apply IH; [done| |done]. rewrite forallb_forall in Hj. by apply Hj, list_elem_of_In.
  - cbn [print json_ok] in *. cbn. bool_to_prop. apply commas_no_newline; [|exact Hr]. intros x r' Hx Hr'.
    apply quote_no_newline. cbn. rewrite Forall_forall in IH. apply (IH x Hx); [|done].
    rewrite forallb_forall in *. by apply (H0 x), list_elem_of_In.
Qed.

Lemma trim_start_blank s : trim_start s = EmptyString → str_forall is_space s = true.
Proof. induction s as [|c s IH]; [done|]. cbn [trim_start str_forall]. destruct (is_space c); [done|discriminate]. Qed.

Lemma trim_nonblank c s : is_space c = false → trim (String c s) ≠ EmptyString.
Proof.
  intros Hc H. unfold trim in H. cbn [trim_start] in H. rewrite Hc in H.
  apply (f_equal String.rev) in H. rewrite str_rev_rev in H. apply trim_start_blank in H.
  unfold String.rev in H. rewrite rev_app_forall in H. cbn [str_forall] in H. by rewrite Hc in H.
Qed.

Lemma print_nonblank j : json_ok j = true → trim (JSON_stringify j) ≠ EmptyString.
Proof.
  intros Hj. unfold JSON_stringify.
  assert (∃ c s, print j "" = String c s ∧ is_space c = false) as (c & s & -> & Hc).
  { destruct j as [|[]|t|s|l|l]; try (by eexists _, _). cbn [print json_ok] in *.
    unfold num_text_ok in Hj. bool_to_prop. destruct t as [|c t]; [done|]. eexists _, _. split; [done|].
    cbn [str_forall] in *. bool_to_prop.
    match goal with H : is_num_char c = true |- _ => revert H end. by_ascii c. }
  by apply trim_nonblank.
Qed.

