(* ===== verification/JsonIndent.v ===== *)
(** * Indented JSON text

    [JSON.stringify(value, null, 2)], in which the KYC store writes its records, and
    that [JSON.parse] reads it back ([JSON_parse_indented]). *)
From S2P Require Import Prelude Json JsonParse Ndjson.

(** [ind] is the line break and the indentation in force. *)
Fixpoint indented (ind : string) (j : json) (r : string) {struct j} : string :=
  match j with
  | JArr ((_ :: _) as l) =>
      String "[" (commas (λ x r, (ind +:+ "  ") +:+ indented (ind +:+ "  ") x r) l (ind +:+ String "]" r))
  | JObj ((_ :: _) as l) =>
      String "{" (commas (λ kv r, (ind +:+ "  ") +:+
                            quote (fst kv) (String ":" (String " " (indented (ind +:+ "  ") (snd kv) r)))) l
                    (ind +:+ String "}" r))
  | _ => print j r
  end.

Definition JSON_stringify2 (j : json) : string := indented (String newline EmptyString) j EmptyString.

(** ** Reading it back *)

Definition blank_text (s : string) : bool := str_forall is_json_space s.

Lemma blank_deeper ind : blank_text ind = true → blank_text (ind +:+ "  ") = true.
Proof. unfold blank_text. intros H. by rewrite str_forall_app, H. Qed.

Lemma skip_ws_blank s r : blank_text s = true → skip_ws (s +:+ r) = skip_ws r.
Proof.
  induction s as [|c s IH]; [done|]. unfold blank_text. cbn [str_forall]. intros [Hc Hs]%andb_true_iff.
  rewrite str_app_cons. cbn [skip_ws]. rewrite Hc. by apply IH.
Qed.

Lemma blank_delim s r : blank_text s = true → num_delim r = true → num_delim (s +:+ r) = true.
Proof.
  destruct s as [|c s]; [done|]. unfold blank_text. cbn [str_forall]. intros [Hc _]%andb_true_iff _.
  revert Hc. clear. rewrite str_app_cons. cbn [num_delim]. by_ascii c.
Qed.

Section indent.
Context (num : string → string).

Lemma parse_value_blank n s r : blank_text s = true → parse_value num n (s +:+ r) = parse_value num n r.
Proof. intros Hs. destruct n as [|n]; [done|]. cbn [parse_value]. by rewrite skip_ws_blank. Qed.

Lemma parse_members_blank n s r : blank_text s = true → parse_members num n (s +:+ r) = parse_members num n r.
Proof. intros Hs. destruct n as [|n]; [done|]. cbn [parse_members]. by rewrite skip_ws_blank. Qed.

Definition reads_indented (j : json) : Prop :=
  ∀ n ind r, blank_text ind = true → natural num j = true → num_delim r = true → (need j ≤ n)%nat →
             parse_value num n (indented ind j r) = Some (j, r).

Lemma parse_items_indented l n ind r :
  blank_text ind = true → Forall reads_indented l → l ≠ [] → forallb (natural num) l = true →
  (foldr (λ x n, S (Nat.max (need x) n)) 0 l ≤ n)%nat →
  parse_items num n
    (commas (λ x r, (ind +:+ "  ") +:+ indented (ind +:+ "  ") x r) l (ind +:+ String "]" r)) = Some (l, r).
Proof.
  intros Hi Hl. revert n. induction Hl as [|x l Hx Hl IH]; [done|].
  pose proof (blank_deeper ind Hi) as Hd.
  intros n _ Hn Hf. cbn [forallb foldr] in *. bool_to_prop. destruct n as [|n]; [lia|].
  destruct l as [|y l].
  - cbn [commas parse_items]. rewrite parse_value_blank by done.
    rewrite (Hx n) by (done || (by apply blank_delim) || (simpl in *; lia)). cbn [mbind option_bind].
    by rewrite skip_ws_blank.
  - cbn [commas parse_items]. rewrite parse_value_blank by done.
    rewrite (Hx n) by (done || lia). cbn [mbind option_bind].
    change (skip_ws (String "," ?s)) with (String "," s). cbn [mbind].
    rewrite IH by (done || lia). done.
Qed.

Lemma parse_members_indented l n ind r :
  blank_text ind = true → Forall (λ kv, reads_indented (snd kv)) l → l ≠ [] →
  forallb (λ kv, natural num (snd kv)) l = true →
  (foldr (λ kv n, S (Nat.max (need (snd kv)) n)) 0 l ≤ n)%nat →
  parse_members num n
    (commas (λ kv r, (ind +:+ "  ") +:+
               quote (fst kv) (String ":" (String " " (indented (ind +:+ "  ") (snd kv) r)))) l
       (ind +:+ String "}" r)) = Some (l, r).
Proof.
  intros Hi Hl. revert n. induction Hl as [|[k x] l Hx Hl IH]; [done|].
  pose proof (blank_deeper ind Hi) as Hd.
  intros n _ Hn Hf. cbn [forallb foldr fst snd] in *. bool_to_prop. destruct n as [|n]; [lia|].
  destruct l as [|y l].
  - cbn [commas fst snd]. rewrite parse_members_blank, parse_members_step by done.
    change (String " " ?s) with (" " +:+ s) at 1. rewrite parse_value_blank by done.
    rewrite (Hx n) by (done || (by apply blank_delim) || (simpl in *; lia)). cbn [mbind option_bind].
    by rewrite skip_ws_blank.
  - cbn [commas fst snd]. rewrite parse_members_blank, parse_members_step by done.
    change (String " " ?s) with (" " +:+ s) at 1. rewrite parse_value_blank by done.
    rewrite (Hx n) by (done || lia). cbn [mbind option_bind].
    change (skip_ws (String "," ?s)) with (String "," s). cbn [mbind].
    rewrite IH by (done || lia). done.
Qed.

Lemma indented_start ind j r :
  natural num j = true → ∃ c r', indented ind j r = String c r' ∧ starts_ok c = true.
Proof. destruct j as [|b|t|s|[|x l]|[|x l]]; intros Hn; try (by apply (print_start num)); by eexists _, _. Qed.

Lemma reads_indented_all j : reads_indented j.
Proof.
  induction j as [|b|t|s|l IH|l IH] using json_ind_nested; intros n ind r Hi Hn Hr Hf;
    try (by apply (reads_all num)).
  - destruct l as [|x l]; [by apply (reads_all num)|]. destruct n as [|n]; [cbn [need] in Hf; lia|].
    cbn [indented parse_value natural need] in *.
    change (skip_ws (String "[" ?x)) with (String "[" x). cbn [mbind].
    pose proof (parse_items_indented (x :: l) n ind r Hi IH ltac:(done) Hn ltac:(lia)) as Hp.
    destruct (commas_start (λ x r, (ind +:+ "  ") +:+ indented (ind +:+ "  ") x r) x l
      (ind +:+ String "]" r)) as [r' E].
    assert (natural num x = true) as Hx by (cbn [forallb] in Hn; by bool_to_prop).
    destruct (indented_start (ind +:+ "  ") x r' Hx) as (c & s & Es & Hc).
    cbv beta in E. rewrite Es in E. rewrite E in Hp |- *. rewrite skip_ws_blank by (by apply blank_deeper).
    rewrite skip_ws_start by done.
    change (code "[" =? 34)%N with false. change (code "[" =? 91)%N with true. cbn iota.
    destruct n as [|n]; [done|]. cbn [parse_items] in *.
    rewrite parse_value_blank in Hp by (by apply blank_deeper).
    unfold starts_ok in Hc. bool_to_prop. assert ((code c =? 93)%N = false) as -> by done. by rewrite Hp.
  - destruct l as [|[k x] l]; [by apply (reads_all num)|]. destruct n as [|n]; [cbn [need] in Hf; lia|].
    cbn [indented parse_value natural need] in *. bool_to_prop.
    change (skip_ws (String "{" ?x)) with (String "{" x). cbn [mbind].
    pose proof (parse_members_indented ((k, x) :: l) n ind r Hi IH ltac:(done) ltac:(done) ltac:(lia)) as Hp.
    destruct (commas_start (λ kv r, (ind +:+ "  ") +:+
      quote (fst kv) (String ":" (String " " (indented (ind +:+ "  ") (snd kv) r)))) (k, x) l
      (ind +:+ String "}" r)) as [r' E].
    cbv beta in E. rewrite E in Hp |- *. rewrite skip_ws_blank by (by apply blank_deeper).
    rewrite parse_members_blank in Hp by (by apply blank_deeper). unfold quote in *. cbn [fst] in *.
    change (skip_ws (String dquote ?x)) with (String dquote x).
    change (code "{" =? 34)%N with false. change (code "{" =? 91)%N with false.
    change (code "{" =? 123)%N with true. cbn iota.
    change (code dquote =? 125)%N with false. cbn iota. rewrite Hp. cbn [mbind option_bind].
    by rewrite obj_of_id.
Qed.

(** The indented text is no shorter than the recursion it needs. *)
Lemma need_indented j ind r :
  natural num j = true → (need j + String.length r ≤ String.length (indented ind j r))%nat.
Proof.
  revert ind r. induction j as [|b|t|s|l IH|l IH] using json_ind_nested; intros ind r Hn;
    try (by apply (need_print num)).
  - destruct l as [|x l]; [by apply (need_print num)|]. cbn [indented need natural String.length] in *.
    set (item := λ x r, (ind +:+ "  ") +:+ indented (ind +:+ "  ") x r).
    pose proof (need_commas item need (x :: l) (ind +:+ String "]" r)) as H.
    rewrite length_str_app in H. cbn [String.length] in H. rewrite Forall_forall in IH.
    rewrite forallb_forall in Hn. enough (Forall (λ x, ∀ r, (need x + String.length r ≤
      String.length (item x r))%nat) (x :: l)) as HF by (specialize (H HF); lia).
    apply Forall_forall. intros y Hy r0. unfold item. rewrite length_str_app.
    pose proof (IH y Hy (ind +:+ "  ") r0 ltac:(by apply Hn, list_elem_of_In)). lia.
  - destruct l as [|x l]; [by apply (need_print num)|].
    cbn [indented need natural String.length] in *. bool_to_prop.
    set (item := λ (kv : string * json) r, (ind +:+ "  ") +:+
      quote (fst kv) (String ":" (String " " (indented (ind +:+ "  ") (snd kv) r)))).
    pose proof (need_commas item (λ kv, need (snd kv)) (x :: l) (ind +:+ String "}" r)) as HC.
    rewrite length_str_app in HC. cbn [String.length] in HC. rewrite Forall_forall in IH.
    assert (∀ kv, In kv (x :: l) → natural num (snd kv) = true) as HN by (by apply forallb_forall).
    enough (Forall (λ x, ∀ r, (need (snd x) + String.length r ≤ String.length (item x r))%nat) (x :: l))
      as HF by (specialize (HC HF); lia).
    apply Forall_forall. intros y Hy r0. unfold item. rewrite length_str_app.
    pose proof (IH y Hy (ind +:+ "  ") r0 ltac:(by apply HN, list_elem_of_In)).
    pose proof (length_quote (fst y) (String ":" (String " " (indented (ind +:+ "  ") (snd y) r0)))).
    cbn [String.length] in *. lia.
Qed.
End indent.

Lemma JSON_parse_indented num j : natural num j = true → JSON_parse num (JSON_stringify2 j) = Some j.
Proof.
  intros Hn. unfold JSON_parse, JSON_stringify2.
  rewrite (reads_indented_all num j)
    by (done || (pose proof (need_indented num j (String newline EmptyString) "" Hn); simpl in *; lia)).
  done.
Qed.

Example indented_sample :
  JSON_stringify2 (JObj [("a", JArr [jint 1; JArr []]); ("b", JObj [])]) =
  join (String newline EmptyString)
    ["{"; "  " +:+ String dquote ("a" +:+ String dquote ": ["); "    1,"; "    []"; "  ],";
     "  " +:+ String dquote ("b" +:+ String dquote ": {}"); "}"].
Proof. reflexivity. Qed.
