(* ===== verification/Cid.v ===== *)
(** * Evidence references

    Models [api/src/common/utils/cid.util.ts], which turns an evidence reference (a CIDv0 or
    the hex of a digest) into the 32 bytes that go on chain and back, and the base58 encoder
    of [api/src/oracle/interfaces/dispute-bundle.interface.ts].

    Bytes and digits are integers, least significant first in the loops, as in the code.
    The carries of the loops stay far below [2^31], so that the shifts of the code are those
    of integers; the accumulator of base 32 does wrap and is kept at 32 bits.

    Shown: both base58 loops compute the one representation of a number
    ([absorb_val], [digits_unique]), so that decoding undoes encoding for every buffer with
    a byte other than zero ([base58_roundtrip]); a digest and its reference determine each
    other ([cid_roundtrip]) unless the digest starts with the byte 1, which
    [decodeCid] takes for a CIDv1 ([digest_taken_for_cidv1]); the reference of a dispute
    bundle names its digest ([bundle_cid_names_digest]). *)
From S2P Require Import Prelude Json JsonParse.

(** ** Base 58 *)

Definition BASE58_ALPHABET : string := "123456789ABCDEFGHJKLMNPQRSTUVWXYZabcdefghijkmnopqrstuvwxyz".

Definition char_at (s : string) (n : Z) : string := String.substring (Z.to_nat n) 1 s.

Fixpoint index_of (c : ascii) (s : string) : option Z :=
  match s with
  | EmptyString => None
  | String d s => if Ascii.eqb c d then Some 0 else Z.succ <$> index_of c s
  end.

(** [while (carry > 0)] of the encoder. *)
Fixpoint push58 (fuel : nat) (carry : Z) : list Z :=
  match fuel with
  | O => []
  | S n => if 0 <? carry then carry mod 58 :: push58 n (carry / 58) else []
  end.

(** The loop over the digits, then the pushes. *)
Fixpoint absorb_byte (carry : Z) (digits : list Z) : list Z :=
  match digits with
  | [] => push58 (Z.to_nat carry) carry
  | d :: ds => let carry := carry + Z.shiftl d 8 in carry mod 58 :: absorb_byte (carry / 58) ds
  end.

Definition digits58 (buffer : list Z) : list Z := foldl (λ ds byte, absorb_byte byte ds) [0] buffer.

Fixpoint leading_zeros (buffer : list Z) : nat :=
  match buffer with
  | b :: buffer => if b =? 0 then S (leading_zeros buffer) else O
  | [] => O
  end.

Definition text58 (digits : list Z) : string := String.concat "" (char_at BASE58_ALPHABET <$> digits).

Definition base58Encode (buffer : list Z) : string :=
  text58 (replicate (leading_zeros buffer) 0) +:+ text58 (reverse (digits58 buffer)).

Fixpoint push256 (fuel : nat) (carry : Z) : list Z :=
  match fuel with
  | O => []
  | S n => if 0 <? carry then Z.land carry 255 :: push256 n (Z.shiftr carry 8) else []
  end.

Fixpoint absorb_digit (carry : Z) (bytes : list Z) : list Z :=
  match bytes with
  | [] => push256 (Z.to_nat carry) carry
  | b :: bs => let carry := carry + b * 58 in Z.land carry 255 :: absorb_digit (Z.shiftr carry 8) bs
  end.

Fixpoint decode58 (bytes : list Z) (s : string) : result string (list Z) :=
  match s with
  | EmptyString => Ok bytes
  | String c s =>
      match index_of c BASE58_ALPHABET with
      | None => Err ("Invalid base58 character: " +:+ String c EmptyString)
      | Some d => decode58 (absorb_digit d bytes) s
      end
  end.

Fixpoint leading_ones (s : string) : nat :=
  match s with
  | String c s => if Ascii.eqb c "1" then S (leading_ones s) else O
  | EmptyString => O
  end.

Definition base58Decode (s : string) : result string (list Z) :=
  bytes ← decode58 [0] s; Ok (reverse (bytes ++ replicate (leading_ones s) 0)).

(** ** Base 32 *)

Definition BASE32_ALPHABET : string := "ABCDEFGHIJKLMNOPQRSTUVWXYZ234567".

(** A number as [<<] and [|] leave it. *)
Definition to_int32 (x : Z) : Z := let y := x mod 2^32 in if 2^31 <=? y then y - 2^32 else y.

(** [while (bits >= 5)]: at most twelve bits wait. *)
Fixpoint emit32 (fuel : nat) (value bits : Z) : string * Z :=
  match fuel with
  | O => (EmptyString, bits)
  | S n =>
      if 5 <=? bits then
        let '(out, bits') := emit32 n value (bits - 5) in
        (char_at BASE32_ALPHABET (Z.land (Z.shiftr (value mod 2^32) (bits - 5)) 31) +:+ out, bits')
      else (EmptyString, bits)
  end.

Fixpoint encode32 (value bits : Z) (buffer : list Z) : string :=
  match buffer with
  | [] => if 0 <? bits then char_at BASE32_ALPHABET (Z.land (to_int32 (Z.shiftl value (5 - bits))) 31) else EmptyString
  | b :: buffer =>
      let value := Z.lor (to_int32 (Z.shiftl value 8)) b in
      let '(out, bits) := emit32 3 value (bits + 8) in out +:+ encode32 value bits buffer
  end.

Definition base32Encode (buffer : list Z) : string := encode32 0 0 buffer.

(** ** References *)

Definition CIDV0_PREFIX : list Z := [18; 32].
Definition DIGEST_LENGTH : nat := 32.

Definition is_hex_char (c : ascii) : bool :=
  ((48 <=? code c) && (code c <=? 57) || (65 <=? code c) && (code c <=? 70) || (97 <=? code c) && (code c <=? 102))%N.
Definition hex_value (c : ascii) : Z :=
  Z.of_N (if code c <? 58 then code c - 48 else if code c <? 71 then code c - 55 else code c - 87)%N.

(** [Buffer.from(s, 'hex')] on hex digits. *)
Fixpoint from_hex (s : string) : list Z :=
  match s with
  | String a (String b s) => hex_value a * 16 + hex_value b :: from_hex s
  | _ => []
  end.

Definition is_hex64 (s : string) : bool := bool_decide (String.length s = 64%nat) && str_forall is_hex_char s.

Definition is_base58_char (c : ascii) : bool := match index_of c BASE58_ALPHABET with Some _ => true | None => false end.

(** [/^Qm[1-9A-HJ-NP-Za-km-z]{44}$/]. *)
Definition is_cidv0 (s : string) : bool :=
  match s with
  | String q (String m r) =>
      Ascii.eqb q "Q" && Ascii.eqb m "m" && bool_decide (String.length r = 44%nat) && str_forall is_base58_char r
  | _ => false
  end.

Definition tryExtractDigest (cid : string) : option (list Z) :=
  if bool_decide (cid = EmptyString) then None
  else if is_hex64 cid then Some (from_hex cid)
  else if is_cidv0 cid then
    match base58Decode cid with
    | Err _ => None
    | Ok decoded =>
        match decoded with
        | a :: b :: digest =>
            if bool_decide (length decoded = 34%nat) && (a =? 18) && (b =? 32) then Some digest else None
        | _ => None
        end
    end
  else None.

Definition encodeCid (cid : string) : result string (list Z) :=
  if bool_decide (cid = EmptyString) then Err "Invalid evidence reference: must be a non-empty string"
  else
    match tryExtractDigest cid with
    | Some digest => if bool_decide (length digest = DIGEST_LENGTH) then Ok digest
                     else Err "not a supported CIDv0 or 64-character hex SHA-256 digest"
    | None => Err "not a supported CIDv0 or 64-character hex SHA-256 digest"
    end.

Definition decodeCid (bytes : list Z) : string :=
  if bool_decide (length bytes = 0%nat) then EmptyString
  else if bool_decide (length bytes = 34%nat) && bool_decide (take 2 bytes = CIDV0_PREFIX) then base58Encode bytes
  else if (2 <? Z.of_nat (length bytes)) && bool_decide (head bytes = Some 1) then base32Encode bytes
  else if bool_decide (length bytes = DIGEST_LENGTH) then base58Encode (CIDV0_PREFIX ++ bytes)
  else base32Encode bytes.

Definition isValidCid (cid : string) : bool := match tryExtractDigest cid with Some _ => true | None => false end.

Example known_cid :
  decodeCid (from_hex "b94d27b9934d3e08a52e52d7da7dabfac484efe37a5380ee9088f7ace2efcde9") =
  "QmaozNR7DZHQK1ZcU9p7QdrshMvXqWK6gpu5rmrkPdT3L4".
Proof. vm_compute. reflexivity. Qed.

(** ** Numbers in a base *)

Section radix.
Context (b : Z) (Hb : 2 ≤ b).

Definition digit (d : Z) : Prop := 0 ≤ d < b.

(** The number that digits stand for, the least significant first. *)
Fixpoint val (ds : list Z) : Z := match ds with [] => 0 | d :: ds => d + b * val ds end.

Definition size (ds : list Z) : Z := b ^ Z.of_nat (length ds).

(** No zero in front, apart from zero itself. *)
Definition shortest (ds : list Z) : Prop :=
  Forall digit ds ∧ (ds = [0] ∨ ∃ ds' d, ds = ds' ++ [d] ∧ d ≠ 0).

Fixpoint push (fuel : nat) (carry : Z) : list Z :=
  match fuel with
  | O => []
  | S n => if 0 <? carry then carry mod b :: push n (carry / b) else []
  end.
Fixpoint absorb (m carry : Z) (ds : list Z) : list Z :=
  match ds with
  | [] => push (Z.to_nat carry) carry
  | d :: ds => let carry := carry + d * m in carry mod b :: absorb m (carry / b) ds
  end.

Lemma size_cons d ds : size (d :: ds) = b * size ds.
Proof. unfold size. cbn [length]. rewrite Nat2Z.inj_succ. apply Z.pow_succ_r. lia. Qed.

Lemma size_pos ds : 0 < size ds.
Proof. unfold size. apply Z.pow_pos_nonneg; lia. Qed.

Lemma val_app l1 l2 : val (l1 ++ l2) = val l1 + size l1 * val l2.
Proof.
  induction l1 as [|d l1 IH]; cbn [app val].
  - unfold size. cbn. lia.
  - rewrite IH, size_cons. ring.
Qed.

Lemma val_bounds ds : Forall digit ds → 0 ≤ val ds < size ds.
Proof.
  induction 1 as [|d ds [Hd1 Hd2] _ IH]; [unfold size; cbn; lia|]. rewrite size_cons. cbn [val]. nia.
Qed.

Lemma val_zeros n : val (replicate n 0) = 0.
Proof. induction n as [|n IH]; [done|]. cbn [replicate val]. rewrite IH. lia. Qed.

Lemma mod_digit x : digit (x mod b).
Proof. unfold digit. apply Z.mod_pos_bound. lia. Qed.

Lemma push_digits fuel c : Forall digit (push fuel c).
Proof.
  revert c. induction fuel as [|n IH]; intros c; cbn [push]; [done|].
  destruct (0 <? c); [|done]. constructor; [apply mod_digit|apply IH].
Qed.

Lemma push_spec fuel c :
  0 ≤ c ≤ Z.of_nat fuel → val (push fuel c) = c ∧ (push fuel c = [] ∨ ∃ ds d, push fuel c = ds ++ [d] ∧ d ≠ 0).
Proof.
  revert c. induction fuel as [|n IH]; intros c Hc; cbn [push]; [split; [cbn; lia|by left]|].
  destruct (Z.ltb_spec 0 c); [|split; [cbn; lia|by left]].
  assert (0 ≤ c / b ≤ Z.of_nat n) as Hd.
  { split; [apply Z.div_pos; lia|]. apply Z.lt_succ_r. apply Z.div_lt_upper_bound; nia. }
  destruct (IH _ Hd) as [Hv Hl]. pose proof (Z.div_mod c b ltac:(lia)). cbn [val]. split; [lia|]. right.
  destruct Hl as [Hl|(ds & d & Hl & Hd0)]; rewrite Hl in *.
  - exists [], (c mod b). split; [done|]. cbn [val] in Hv. lia.
  - by exists (c mod b :: ds), d.
Qed.

Lemma absorb_digits m c ds : Forall digit (absorb m c ds).
Proof.
  revert c. induction ds as [|d ds IH]; intros c; cbn [absorb]; [apply push_digits|].
  constructor; [apply mod_digit|apply IH].
Qed.

Lemma absorb_val m c ds : 0 ≤ m → 0 ≤ c → Forall digit ds → val (absorb m c ds) = m * val ds + c.
Proof.
  intros Hm. revert c. induction ds as [|d ds IH]; intros c Hc Hds; cbn [absorb val].
  - destruct (push_spec (Z.to_nat c) c ltac:(lia)) as [-> _]. lia.
  - apply Forall_cons in Hds as [[Hd1 Hd2] Hds]. rewrite IH; [|apply Z.div_pos; nia|done].
    pose proof (Z.div_mod (c + d * m) b ltac:(lia)). nia.
Qed.

(** The digits of a number, and their number. *)
Lemma shortest_bounds ds :
  shortest ds → ds = [0] ∨ (∃ n, length ds = S n ∧ b ^ Z.of_nat n ≤ val ds).
Proof.
  intros [Hd [->|(ds' & d & -> & Hd0)]]; [by left|]. right. exists (length ds').
  rewrite length_app. cbn [length]. split; [lia|].
  apply Forall_app in Hd as [Hd' [[Hd1 Hd2] _]%Forall_cons]. rewrite val_app. cbn [val]. fold (size ds').
  pose proof (val_bounds _ Hd'). pose proof (size_pos ds'). nia.
Qed.

Lemma shortest_of_bounds ds :
  Forall digit ds → ds = [0] ∨ (∃ n, length ds = S n ∧ b ^ Z.of_nat n ≤ val ds) → shortest ds.
Proof.
  intros Hd [->|(n & Hn & Hv)]; (split; [done|]); [by left|]. right.
  destruct ds as [|d ds _] using rev_ind; [done|]. exists ds, d. split; [done|]. intros ->.
  apply Forall_app in Hd as [Hd _]. rewrite val_app in Hv. cbn [val] in Hv. pose proof (val_bounds _ Hd) as Hb2.
  rewrite length_app in Hn. cbn [length] in Hn. assert (n = length ds) as -> by lia. unfold size in Hb2. lia.
Qed.

Lemma same_length_unique l1 l2 :
  Forall digit l1 → Forall digit l2 → length l1 = length l2 → val l1 = val l2 → l1 = l2.
Proof.
  intros H1. revert l2. induction H1 as [|d l1 Hd H1 IH]; intros [|d2 l2] H2 Hl Hv; try done.
  apply Forall_cons in H2 as [Hd2 H2]. cbn [val] in Hv. unfold digit in *.
  assert (val l1 = val l2) by nia. f_equal; [nia|]. apply IH; [done|cbn in Hl; lia|done].
Qed.

Lemma digits_unique l1 l2 : shortest l1 → shortest l2 → val l1 = val l2 → l1 = l2.
Proof.
  intros H1 H2 Hv. pose proof (val_bounds _ (proj1 H1)) as B1. pose proof (val_bounds _ (proj1 H2)) as B2.
  pose proof (shortest_bounds _ H1) as S1. pose proof (shortest_bounds _ H2) as S2. destruct H1 as [D1 _], H2 as [D2 _].
  unfold size in *. destruct S1 as [->|(n1 & E1 & L1)], S2 as [->|(n2 & E2 & L2)].
  - done.
  - cbn [val] in Hv. pose proof (Z.pow_pos_nonneg b (Z.of_nat n2)). lia.
  - cbn [val] in Hv. pose proof (Z.pow_pos_nonneg b (Z.of_nat n1)). lia.
  - apply same_length_unique; try done. rewrite E1, E2 in *. f_equal.
    assert (Z.of_nat n1 < Z.of_nat (S n2)) by (apply (Z.pow_lt_mono_r_iff b); lia).
    assert (Z.of_nat n2 < Z.of_nat (S n1)) by (apply (Z.pow_lt_mono_r_iff b); lia). lia.
Qed.

Lemma absorb_top m c ds :
  0 ≤ m → 0 ≤ c → Forall digit ds →
  length (absorb m c ds) = length ds ∨ ∃ l x, absorb m c ds = l ++ [x] ∧ x ≠ 0.
Proof.
  intros Hm. revert c. induction ds as [|d ds IH]; intros c Hc Hds; cbn [absorb].
  - destruct (push_spec (Z.to_nat c) c ltac:(lia)) as [_ [->|Hl]]; [by left|by right].
  - apply Forall_cons in Hds as [[Hd1 Hd2] Hds].
    destruct (IH ((c + d * m) / b)) as [Hl|(l & x & Hl & Hx)]; [apply Z.div_pos; nia|done|..].
    + left. cbn. lia.
    + right. exists ((c + d * m) mod b :: l), x. by rewrite Hl.
Qed.

Lemma absorb_shortest m c ds : 1 ≤ m → 0 ≤ c → shortest ds → shortest (absorb m c ds).
Proof.
  intros Hm Hc Hs. pose proof (proj1 Hs) as Hd. pose proof (absorb_digits m c ds) as Hf.
  destruct (absorb_top m c ds ltac:(lia) Hc Hd) as [Hl|Ht]; [|by split; [|right]].
  destruct (shortest_bounds _ Hs) as [->|(n & Hn & Hv)].
  - destruct (absorb m c [0]) as [|x [|]] eqn:E; try done. split; [done|].
    destruct (decide (x = 0)) as [->|]; [by left|]. right. by exists [], x.
  - apply shortest_of_bounds; [done|]. right. exists n. split; [by rewrite Hl|]. rewrite absorb_val by (try done; lia).
    pose proof (val_bounds _ Hd). nia.
Qed.

(** A loop over digits of another base. *)
Lemma absorb_all m (l : list Z) ds :
  1 ≤ m → Forall (λ x, 0 ≤ x) l → shortest ds →
  shortest (foldl (λ ds x, absorb m x ds) ds l) ∧
  val (foldl (λ ds x, absorb m x ds) ds l) = foldl (λ v x, m * v + x) (val ds) l.
Proof.
  intros Hm Hl. revert ds. induction Hl as [|x l Hx Hl IH]; intros ds Hds; [done|]. cbn [foldl].
  rewrite <- absorb_val by (try apply Hds; lia). apply IH. by apply absorb_shortest.
Qed.

Lemma foldl_val l v : foldl (λ v x, b * v + x) v l = size l * v + val (reverse l).
Proof.
  revert v. induction l as [|x l IH]; intros v; cbn [foldl]; [unfold size; cbn; lia|].
  rewrite IH, reverse_cons, val_app, size_cons. cbn [val]. unfold size at 3. rewrite length_reverse. fold (size l). lia.
Qed.

Lemma shortest_zero : shortest [0].
Proof. split; [|by left]. constructor; [|done]. unfold digit. lia. Qed.

(** The digits of the number that [l] stands for, the most significant first. *)
Lemma stripped (l : list Z) :
  Forall digit l → val (reverse l) ≠ 0 →
  ∃ r, l = replicate (leading_zeros l) 0 ++ r ∧ shortest (reverse r) ∧ val (reverse r) = val (reverse l) ∧
       ∃ x r', r = x :: r' ∧ x ≠ 0.
Proof.
  induction 1 as [|x l Hx Hl IH]; [done|]. rewrite reverse_cons, val_app. cbn [val leading_zeros]. intros Hv.
  destruct (Z.eqb_spec x 0) as [->|Hx0].
  - destruct IH as (r & E & Hs & Hv' & Ht); [lia|]. exists r. cbn [replicate app]. split_and!; try done; [by rewrite <- E|lia].
  - exists (x :: l). split_and!; [done|..|by exists x, l].
    + split; [|right; exists (reverse l), x; by rewrite reverse_cons]. apply Forall_reverse. by constructor.
    + rewrite reverse_cons, val_app. cbn [val]. done.
Qed.
End radix.

(** ** The loops of the code *)

Lemma push58_push fuel c : push58 fuel c = push 58 fuel c.
Proof. revert c. induction fuel as [|n IH]; intros c; [done|]. cbn [push58 push]. by rewrite IH. Qed.
Lemma absorb_byte_absorb c ds : absorb_byte c ds = absorb 58 256 c ds.
Proof.
  revert c. induction ds as [|d ds IH]; intros c; cbn [absorb_byte absorb]; [apply push58_push|].
  rewrite Z.shiftl_mul_pow2 by lia. change (2 ^ 8) with 256. by rewrite IH.
Qed.
Lemma land_255 x : Z.land x 255 = x mod 256.
Proof. apply (Z.land_ones x 8). lia. Qed.
Lemma shiftr_8 x : Z.shiftr x 8 = x / 256.
Proof. by rewrite Z.shiftr_div_pow2. Qed.
Lemma push256_push fuel c : push256 fuel c = push 256 fuel c.
Proof.
  revert c. induction fuel as [|n IH]; intros c; [done|]. cbn [push256 push]. by rewrite land_255, shiftr_8, IH.
Qed.
Lemma absorb_digit_absorb c ds : absorb_digit c ds = absorb 256 58 c ds.
Proof.
  revert c. induction ds as [|d ds IH]; intros c; cbn [absorb_digit absorb]; [apply push256_push|].
  by rewrite land_255, shiftr_8, IH.
Qed.

Definition byte (x : Z) : Prop := digit 256 x.

Lemma bytes_nonneg l : Forall byte l → Forall (λ x, 0 ≤ x) l.
Proof. intros H. eapply List.Forall_impl; [|exact H]. unfold byte, digit. intros; lia. Qed.

Lemma digits58_spec buffer :
  Forall byte buffer →
  shortest 58 (digits58 buffer) ∧ val 58 (digits58 buffer) = val 256 (reverse buffer).
Proof.
  intros Hb. unfold digits58.
  assert (∀ l ds, foldl (λ ds byte, absorb_byte byte ds) ds l = foldl (λ ds x, absorb 58 256 x ds) ds l) as ->.
  { induction l as [|x l IH]; intros ds; [done|]. cbn [foldl]. by rewrite absorb_byte_absorb, IH. }
  destruct (absorb_all 58 ltac:(lia) 256 buffer [0] ltac:(lia) (bytes_nonneg _ Hb) (shortest_zero 58 ltac:(lia))) as [H1 H2].
  split; [done|]. rewrite H2, foldl_val by lia. cbn [val]. lia.
Qed.

(** *** The alphabet *)

Lemma index_of_at c s n : index_of c s = Some n → 0 ≤ n < Z.of_nat (String.length s) ∧ char_at s n = String c EmptyString.
Proof.
  revert n. induction s as [|d s IH]; intros n; cbn [index_of String.length]; [done|].
  destruct (Ascii.eqb_spec c d) as [->|Hc].
  - intros [= <-]. split; [lia|]. by destruct s.
  - destruct (index_of c s) as [m|] eqn:E; [|done]. intros [= <-]. destruct (IH m eq_refl) as [Hb Hat]. split; [lia|].
    unfold char_at in *. by replace (Z.to_nat (Z.succ m)) with (S (Z.to_nat m)) by lia.
Qed.

Definition alphabet_ok (d : Z) : bool :=
  match char_at BASE58_ALPHABET d with
  | String c EmptyString =>
      bool_decide (index_of c BASE58_ALPHABET = Some d) && bool_decide (Ascii.eqb c "1" = (d =? 0))
  | _ => false
  end.

Lemma alphabet58 d :
  digit 58 d →
  ∃ c, char_at BASE58_ALPHABET d = String c EmptyString ∧ index_of c BASE58_ALPHABET = Some d ∧
       Ascii.eqb c "1" = (d =? 0).
Proof.
  intros Hd. assert (forallb alphabet_ok (Z.of_nat <$> seq 0 58) = true) as Hall by (vm_compute; reflexivity).
  rewrite forallb_forall in Hall. specialize (Hall d). unfold alphabet_ok in Hall.
  assert (In d (Z.of_nat <$> seq 0 58)) as Hin.
  { apply list_elem_of_In, list_elem_of_fmap. exists (Z.to_nat d). unfold digit in Hd. split; [lia|].
    apply elem_of_seq. lia. }
  specialize (Hall Hin). destruct (char_at BASE58_ALPHABET d) as [|c [|]]; try done.
  apply andb_true_iff in Hall as [H1%bool_decide_eq_true H2%bool_decide_eq_true]. by exists c.
Qed.

Lemma text58_cons d ds : text58 (d :: ds) = char_at BASE58_ALPHABET d +:+ text58 ds.
Proof. unfold text58. cbn. destruct (char_at BASE58_ALPHABET <$> ds) eqn:E; [|done]. by rewrite str_app_nil_r. Qed.

Lemma text58_app l1 l2 : text58 (l1 ++ l2) = text58 l1 +:+ text58 l2.
Proof. induction l1 as [|d l1 IH]; [done|]. cbn [app]. by rewrite !text58_cons, IH, str_app_assoc. Qed.

Lemma decode58_text ds bytes :
  Forall (digit 58) ds → decode58 bytes (text58 ds) = Ok (foldl (λ bs d, absorb_digit d bs) bytes ds).
Proof.
  intros H. revert bytes. induction H as [|d ds Hd _ IH]; intros bytes; [done|]. rewrite text58_cons.
  destruct (alphabet58 d Hd) as (c & -> & Hi & _). rewrite str_app_cons, str_app_nil. cbn [decode58 foldl]. rewrite Hi. apply IH.
Qed.

Lemma leading_ones_text ds : Forall (digit 58) ds → leading_ones (text58 ds) = leading_zeros ds.
Proof.
  induction 1 as [|d ds Hd _ IH]; [done|]. rewrite text58_cons. destruct (alphabet58 d Hd) as (c & -> & _ & H1).
  rewrite str_app_cons, str_app_nil. cbn [leading_ones leading_zeros]. rewrite H1, IH. done.
Qed.

(** The digits of a text. *)
Lemma text58_surj s : str_forall is_base58_char s = true → ∃ ds, Forall (digit 58) ds ∧ s = text58 ds.
Proof.
  induction s as [|c s IH]; cbn [str_forall]; [intros _; by exists []|].
  intros [Hc Hs]%andb_true_iff. destruct (IH Hs) as (ds & Hds & ->). unfold is_base58_char in Hc.
  destruct (index_of c BASE58_ALPHABET) as [d|] eqn:E; [|done]. apply index_of_at in E as [Hb Hat].
  exists (d :: ds). split; [constructor; [unfold digit; vm_compute String.length in Hb; lia|done]|].
  by rewrite text58_cons, Hat.
Qed.

(** *** Decoding *)

Lemma base58Decode_text ds :
  Forall (digit 58) ds →
  ∃ bytes, base58Decode (text58 ds) = Ok (replicate (leading_zeros ds) 0 ++ reverse bytes) ∧
           shortest 256 bytes ∧ val 256 bytes = val 58 (reverse ds).
Proof.
  intros Hd. unfold base58Decode. rewrite decode58_text, leading_ones_text by done. cbn [mbind result_bind].
  assert (∀ l bs, foldl (λ bs d, absorb_digit d bs) bs l = foldl (λ ds x, absorb 256 58 x ds) bs l) as ->.
  { induction l as [|x l IH]; intros bs; [done|]. cbn [foldl]. by rewrite absorb_digit_absorb, IH. }
  assert (Forall (λ x, 0 ≤ x) ds) as Hn by (eapply List.Forall_impl; [|exact Hd]; unfold digit; intros; lia).
  destruct (absorb_all 256 ltac:(lia) 58 ds [0] ltac:(lia) Hn (shortest_zero 256 ltac:(lia))) as [H1 H2].
  eexists. split; [|split; [exact H1|]].
  - by rewrite reverse_app, reverse_replicate.
  - rewrite H2, foldl_val by lia. cbn [val]. lia.
Qed.

Lemma reverse_zeros_val l n : val 58 (l ++ replicate n 0) = val 58 l.
Proof. rewrite val_app, val_zeros; lia. Qed.

Lemma leading_zeros_app n l x l' : l = x :: l' → x ≠ 0 → leading_zeros (replicate n 0 ++ l) = n.
Proof.
  intros -> Hx. induction n as [|n IH]; cbn [replicate app leading_zeros].
  - by rewrite (proj2 (Z.eqb_neq x 0)).
  - by rewrite IH.
Qed.

Lemma text58_encode buffer :
  base58Encode buffer = text58 (replicate (leading_zeros buffer) 0 ++ reverse (digits58 buffer)).
Proof. unfold base58Encode. by rewrite text58_app. Qed.

Lemma shortest_reverse b ds : 2 ≤ b → shortest b ds → val b ds ≠ 0 → ∃ x l, reverse ds = x :: l ∧ x ≠ 0.
Proof.
  intros Hb [_ [->|(l & x & -> & Hx)]] Hv; [cbn [val] in Hv; lia|]. exists x, (reverse l). by rewrite reverse_app.
Qed.

Lemma encoded_digits buffer : Forall byte buffer → Forall (digit 58) (replicate (leading_zeros buffer) 0 ++ reverse (digits58 buffer)).
Proof.
  intros Hb. apply Forall_app. split; [apply Forall_replicate; unfold digit; lia|].
  apply Forall_reverse, digits58_spec, Hb.
Qed.

(** Decoding base58 undoes encoding it, for every buffer that is not all zeros,
    whatever its length and its leading zeros. *)
Lemma base58_roundtrip buffer :
  Forall byte buffer → Exists (λ x, x ≠ 0) buffer → base58Decode (base58Encode buffer) = Ok buffer.
Proof.
  intros Hb Hnz. destruct (digits58_spec buffer Hb) as [Hs Hv].
  assert (val 256 (reverse buffer) ≠ 0) as Hv0.
  { clear Hs Hv. induction Hnz as [x l Hx|x l _ IH]; apply Forall_cons in Hb as [[Hx1 _] Hl]; rewrite reverse_cons, val_app;
      cbn [val]; pose proof (val_bounds 256 ltac:(lia) (reverse l) (proj2 (Forall_reverse _ _) Hl));
      pose proof (size_pos 256 ltac:(lia) (reverse l)); [nia|]. specialize (IH Hl). nia. }
  rewrite text58_encode. destruct (base58Decode_text _ (encoded_digits buffer Hb)) as (bytes & -> & Hbs & Hbv). do 2 f_equal.
  destruct (shortest_reverse 58 _ ltac:(lia) Hs ltac:(by rewrite Hv)) as (x & l & Hr & Hx).
  rewrite (leading_zeros_app _ _ _ _ Hr Hx).
  rewrite reverse_app, reverse_replicate, reverse_involutive, reverse_zeros_val, Hv in Hbv.
  destruct (stripped 256 buffer Hb Hv0) as (r & Er & Hrs & Hrv & _).
  rewrite Er at 2. f_equal. rewrite (digits_unique 256 ltac:(lia) bytes (reverse r) Hbs Hrs ltac:(congruence)).
  by rewrite reverse_involutive.
Qed.

(** *** References *)

Lemma text58_length ds : Forall (digit 58) ds → String.length (text58 ds) = length ds.
Proof.
  induction 1 as [|d ds Hd _ IH]; [done|]. rewrite text58_cons. destruct (alphabet58 d Hd) as (c & -> & _).
  rewrite str_app_cons, str_app_nil. cbn. by rewrite IH.
Qed.

Lemma text58_chars ds : Forall (digit 58) ds → str_forall is_base58_char (text58 ds) = true.
Proof.
  induction 1 as [|d ds Hd _ IH]; [done|]. rewrite text58_cons. destruct (alphabet58 d Hd) as (c & -> & Hi & _).
  rewrite str_app_cons, str_app_nil. cbn [str_forall]. unfold is_base58_char at 1. by rewrite Hi, IH.
Qed.

Definition is_digest (d : list Z) : Prop := length d = DIGEST_LENGTH ∧ Forall byte d.

Lemma multihash_bytes d : is_digest d → Forall byte (CIDV0_PREFIX ++ d).
Proof. intros [_ H]. unfold CIDV0_PREFIX. repeat (constructor; [unfold byte, digit; lia|]). done. Qed.

Lemma multihash_val d :
  is_digest d → ∃ v, 0 ≤ v < 256^32 ∧ val 256 (reverse (CIDV0_PREFIX ++ d)) = v + 256^32 * (32 + 256 * 18).
Proof.
  intros [Hl Hd]. exists (val 256 (reverse d)). unfold CIDV0_PREFIX.
  assert (Forall byte (reverse d)) as Hr by (by apply Forall_reverse).
  pose proof (val_bounds 256 ltac:(lia) _ Hr) as Hv. unfold size in Hv. rewrite length_reverse, Hl in Hv. split; [exact Hv|].
  cbn [app]. rewrite !reverse_cons, <- app_assoc, val_app by lia. unfold size. rewrite length_reverse, Hl. reflexivity.
Qed.

Ltac power b n H :=
  let v := eval vm_compute in (b ^ n) in assert (b ^ n = v) as H by (vm_compute; reflexivity).

(** The base58 text of a multihash has 46 characters and starts with [Qm]. *)
Lemma multihash_digits d :
  is_digest d → ∃ rest, digits58 (CIDV0_PREFIX ++ d) = rest ++ [44; 23] ∧ length rest = 44%nat ∧ Forall (digit 58) rest.
Proof.
  intros Hd. destruct (digits58_spec _ (multihash_bytes d Hd)) as [Hs Hv].
  destruct (multihash_val d Hd) as (v & Hb & Hm). rewrite Hm in Hv. clear Hm.
  power 256 32 P. power 58 44 P44. power 58 45 P45. power 58 46 P46. rewrite P in Hb, Hv. clear P.
  pose proof (shortest_bounds 58 ltac:(lia) _ Hs) as Hn. pose proof (val_bounds 58 ltac:(lia) _ (proj1 Hs)) as Hu.
  pose proof (proj1 Hs) as Hdig. generalize dependent (digits58 (CIDV0_PREFIX ++ d)). intros D Hs Hv Hn Hu Hdig.
  destruct Hn as [->|(n & En & Hn)]; [cbn [val] in Hv; lia|]. unfold size in Hu. rewrite En in Hu.
  assert (Z.of_nat n < 46) by (apply (Z.pow_lt_mono_r_iff 58); [lia..|]; eapply Z.le_lt_trans; [exact Hn|]; rewrite Hv, P46; lia).
  assert (45 < Z.of_nat (S n)) by (apply (Z.pow_lt_mono_r_iff 58); [lia..|]; eapply Z.le_lt_trans; [|apply Hu]; rewrite Hv, P45; lia).
  assert (length D = 46%nat) as HD by lia. clear Hn Hu En. clear dependent n.
  exists (take 44 D). pose proof (take_drop 44 D) as Htd.
  destruct (drop 44 D) as [|d1 [|d0 [|? ?]]] eqn:Ed; apply (f_equal length) in Ed as El; rewrite length_drop in El; cbn in El; try lia.
  rewrite <- Htd in Hdig, Hv. apply Forall_app in Hdig as [Hdt Hdd].
  assert (length (take 44 D) = 44%nat) as Ht by (rewrite length_take; lia).
  pose proof (val_bounds 58 ltac:(lia) _ Hdt) as Hvt. rewrite val_app in Hv by lia. unfold size in *. rewrite Ht in *.
  apply Forall_cons in Hdd as [Hd1 [Hd0 _]%Forall_cons]. unfold digit in Hd1, Hd0. cbn [val] in Hv.
  change (Z.of_nat 44) with 44 in *. rewrite P44 in Hvt, Hv. clear P44 P45 P46. assert (d0 = 23) as -> by lia. assert (d1 = 44) as -> by lia.
  by rewrite Htd.
Qed.

Lemma multihash_text d :
  is_digest d → base58Encode (CIDV0_PREFIX ++ d) = text58 (reverse (digits58 (CIDV0_PREFIX ++ d))).
Proof. intros Hd. rewrite text58_encode. done. Qed.

Lemma multihash_cidv0 d : is_digest d → is_cidv0 (base58Encode (CIDV0_PREFIX ++ d)) = true.
Proof.
  intros Hd. rewrite multihash_text by done. destruct (multihash_digits d Hd) as (rest & -> & Hl & Hr).
  apply Forall_reverse in Hr. rewrite reverse_app. change (reverse [44; 23]) with [23; 44]. cbn [app]. rewrite !text58_cons.
  change (char_at BASE58_ALPHABET 23) with "Q". change (char_at BASE58_ALPHABET 44) with "m".
  rewrite !str_app_cons, !str_app_nil. cbn [is_cidv0]. rewrite text58_length, length_reverse, Hl, text58_chars by done. done.
Qed.

Lemma base58Encode_length d : is_digest d → String.length (base58Encode (CIDV0_PREFIX ++ d)) = 46%nat.
Proof.
  intros Hd. rewrite multihash_text by done. destruct (multihash_digits d Hd) as (rest & -> & Hl & Hr).
  rewrite text58_length, length_reverse, length_app, Hl; [done|]. apply Forall_reverse, Forall_app. split; [done|].
  repeat (constructor; [unfold digit; lia|]). done.
Qed.

Lemma encodeCid_multihash d : is_digest d → encodeCid (base58Encode (CIDV0_PREFIX ++ d)) = Ok d.
Proof.
  intros Hd. pose proof (base58Encode_length d Hd) as Hlen. unfold encodeCid, tryExtractDigest.
  rewrite (multihash_cidv0 d Hd), base58_roundtrip; [|by apply multihash_bytes|by left].
  destruct (base58Encode (CIDV0_PREFIX ++ d)) as [|c r] eqn:E; [done|]. rewrite bool_decide_eq_false_2 by done.
  unfold is_hex64. rewrite Hlen, bool_decide_eq_false_2 by done. cbn [andb CIDV0_PREFIX app length].
  rewrite (bool_decide_eq_true_2 _ (f_equal (λ n, S (S n)) (proj1 Hd))). cbn. by rewrite bool_decide_eq_true_2 by apply Hd.
Qed.

Lemma hex_value_bounds c : is_hex_char c = true → 0 ≤ hex_value c < 16.
Proof.
  unfold is_hex_char, hex_value. rewrite !orb_true_iff, !andb_true_iff, !N.leb_le. intros H.
  destruct (N.ltb_spec (code c) 58); [lia|]. destruct (N.ltb_spec (code c) 71); lia.
Qed.

Lemma from_hex_spec n s :
  String.length s = (2 * n)%nat → str_forall is_hex_char s = true → length (from_hex s) = n ∧ Forall byte (from_hex s).
Proof.
  revert s. induction n as [|n IH]; intros [|a [|b s]]; cbn [String.length]; try (intros; lia); [done|].
  cbn [str_forall from_hex length]. rewrite !andb_true_iff. intros Hl (Ha%hex_value_bounds & Hb%hex_value_bounds & Hs).
  destruct (IH s) as [H1 H2]; [lia|done|]. split; [lia|]. constructor; [unfold byte, digit; lia|done].
Qed.

Lemma encodeCid_length cid d : encodeCid cid = Ok d → length d = 32%nat.
Proof.
  unfold encodeCid. case_bool_decide; [done|]. destruct (tryExtractDigest cid); [|done]. case_bool_decide; [|done].
  by intros [= <-].
Qed.

Lemma from_hex64 s : is_hex64 s = true → is_digest (from_hex s).
Proof.
  unfold is_hex64. intros [Hl%bool_decide_eq_true Hs]%andb_true_iff.
  destruct (from_hex_spec 32 s) as [H1 H2]; [lia|done|]. by split.
Qed.

(** The bytes of a base58 text are bytes. *)
Lemma decoded_bytes s bytes : base58Decode s = Ok bytes → str_forall is_base58_char s = true → Forall byte bytes.
Proof.
  intros E Hs. destruct (text58_surj s Hs) as (ds & Hds & ->). destruct (base58Decode_text ds Hds) as (bs & E' & Hb & _).
  rewrite E in E'. injection E' as ->. apply Forall_app. split; [|apply Forall_reverse, Hb].
  apply Forall_replicate. unfold byte, digit. lia.
Qed.

Lemma is_cidv0_chars s : is_cidv0 s = true → str_forall is_base58_char s = true.
Proof.
  destruct s as [|q [|m r]]; try done. cbn [is_cidv0]. rewrite !andb_true_iff. intros [[[->%Ascii.eqb_eq ->%Ascii.eqb_eq] _] Hr].
  cbn [str_forall]. by rewrite Hr.
Qed.

(** C40: what [encodeCid] returns always is a digest: 32 bytes; and it accepts exactly the
    references that [isValidCid] accepts, so that nothing which passed validation is
    refused later or stored at another length. *)
Theorem encodeCid_type cid :
  match encodeCid cid with
  | Ok d => length d = 32%nat ∧ Forall byte d ∧ isValidCid cid = true
  | Err _ => isValidCid cid = false
  end.
Proof.
  assert (match tryExtractDigest cid with Some d => is_digest d | None => True end) as Ht.
  { unfold tryExtractDigest. case_bool_decide; [done|]. destruct (is_hex64 cid) eqn:Eh; [by apply from_hex64|].
    destruct (is_cidv0 cid) eqn:Ec; [|done]. destruct (base58Decode cid) as [[|a [|b digest]]|] eqn:Ed; try done.
    destruct (bool_decide _ && _ && _) eqn:E; [|done]. bool_to_prop. cbn in *. split; [unfold DIGEST_LENGTH; lia|].
    apply decoded_bytes in Ed; [|by apply is_cidv0_chars]. by apply Forall_cons in Ed as [_ [_ ?]%Forall_cons]. }
  unfold encodeCid, isValidCid. case_bool_decide as He; [by rewrite He|].
  destruct (tryExtractDigest cid) as [d|]; [|done]. destruct Ht as [Hl Hb]. by rewrite bool_decide_eq_true_2.
Qed.

(** Digests and CIDv0 references determine each other: the reference that [decodeCid]
    rebuilds from a stored digest resolves to it again, and is the one that was submitted.
    The digests that start with the byte 1 are excluded; for those see
    [digest_taken_for_cidv1]. *)
Theorem cid_roundtrip cid d :
  is_digest d → head d ≠ Some 1 →
  encodeCid (decodeCid d) = Ok d ∧
  (is_cidv0 cid = true → encodeCid cid = Ok d → decodeCid d = cid).
Proof.
  intros Hd H1. assert (decodeCid d = base58Encode (CIDV0_PREFIX ++ d)) as ->.
  { unfold decodeCid. rewrite (proj1 Hd). rewrite (bool_decide_eq_false_2 (head d = Some 1)), andb_false_r by done. done. }
  split; [by apply encodeCid_multihash|]. intros Hc. pose proof (is_cidv0_chars _ Hc) as Hchars.
  unfold encodeCid, tryExtractDigest. case_bool_decide; [done|].
  assert (is_hex64 cid = false) as ->.
  { destruct cid as [|q r]; [done|]. unfold is_hex64. apply andb_false_iff. right. cbn [is_cidv0] in Hc.
    destruct r; [done|]. rewrite !andb_true_iff in Hc. destruct Hc as [[[->%Ascii.eqb_eq _] _] _]. done. }
  rewrite Hc. destruct (text58_surj cid Hchars) as (ds & Hds & ->).
  destruct (base58Decode_text ds Hds) as (bytes & -> & Hbs & Hbv). intros E.
  destruct (replicate (leading_zeros ds) 0 ++ reverse bytes) as [|a [|b digest]] eqn:Eb; try done.
  destruct (bool_decide _ && _ && _) eqn:Eg; [|done]. rewrite !andb_true_iff in Eg. destruct Eg as [[_ ->%Z.eqb_eq] ->%Z.eqb_eq].
  case_bool_decide; [|done]. injection E as ->.
  destruct ds as [|x ds]; [by vm_compute in Hc|]. cbn [leading_zeros] in Eb. destruct (Z.eqb_spec x 0) as [->|Hx]; [done|].
  cbn [replicate app] in Eb. rewrite multihash_text by done. f_equal. rewrite <- (reverse_involutive (x :: ds)). f_equal.
  destruct (digits58_spec _ (multihash_bytes d Hd)) as [Hs Hv].
  apply (digits_unique 58); [lia|done| |].
  - split; [by apply Forall_reverse|]. right. exists (reverse ds), x. by rewrite reverse_cons.
  - rewrite Hv, <- Hbv. f_equal. change (CIDV0_PREFIX ++ d) with (18 :: 32 :: d). rewrite <- Eb. apply reverse_involutive.
Qed.

Definition KNOWN_DIGEST : list Z := from_hex "b94d27b9934d3e08a52e52d7da7dabfac484efe37a5380ee9088f7ace2efcde9".
Lemma cid_roundtrip_witness :
  let cid := "QmaozNR7DZHQK1ZcU9p7QdrshMvXqWK6gpu5rmrkPdT3L4" in
  encodeCid (decodeCid KNOWN_DIGEST) = Ok KNOWN_DIGEST ∧
  (is_cidv0 cid = true → encodeCid cid = Ok KNOWN_DIGEST → decodeCid KNOWN_DIGEST = cid).
Proof. apply cid_roundtrip; [|done]. by apply from_hex64. Defined.

(** A digest that starts with the byte 1 is printed in base 32, as if it were a CIDv1:
    what comes out is no reference that [encodeCid] accepts. *)
Lemma digest_taken_for_cidv1 :
  let d := 1 :: replicate 31 0 in
  is_digest d ∧ isValidCid (decodeCid d) = false ∧
  decodeCid d = "AEAAAAAAAAAAAAAAAAAAAAAAAAAAAAAAAAAAAAAAAAAAAAAAAAAA".
Proof.
  split_and!; [|vm_compute; reflexivity..]. split; [done|]. constructor; [unfold byte, digit; lia|].
  apply Forall_replicate. unfold byte, digit. lia.
Qed.

(** A buffer of zeros does not come back. *)
Lemma base58_zeros_grow : base58Encode [0] = "11" ∧ base58Decode "11" = Ok [0; 0; 0].
Proof. by vm_compute. Qed.

(** ** The reference of a dispute bundle *)

Definition MULTIHASH_SHA2_256 : list Z := [18; 32].

Definition encodeBase58btc (input : list Z) : string :=
  String.concat "" (replicate (leading_zeros input) (char_at BASE58_ALPHABET 0)) +:+
  String.concat "" (char_at BASE58_ALPHABET <$> reverse (digits58 input)).

Definition computeBundleCid (digestHex : string) : string := encodeBase58btc (MULTIHASH_SHA2_256 ++ from_hex digestHex).

Lemma encodeBase58btc_eq input : encodeBase58btc input = base58Encode input.
Proof. unfold encodeBase58btc, base58Encode, text58. by rewrite fmap_replicate. Qed.

(** The reference of a bundle resolves to the digest it was made from. *)
Lemma bundle_cid_names_digest hex : is_hex64 hex = true → encodeCid (computeBundleCid hex) = Ok (from_hex hex).
Proof. intros H. unfold computeBundleCid. rewrite encodeBase58btc_eq. by apply encodeCid_multihash, from_hex64. Qed.
