(* ===== verification/Csv.v ===== *)
(** * Reading and screening imported rows

    Models [api/src/imports/import-safety.ts]: the RFC 4180 reader ([splitRecords],
    [parseCsv]) and the checks every row goes through before an import kind sees it
    ([checkRowSafety]).

    Strings hold code units up to 255, so the byte order mark and the zero-width and
    bidirectional controls the code also looks for do not occur.  The texts of a CSV
    file are described by [file_text], a relation that lets every cell be quoted or,
    when it has no special character, left bare, and every line end with LF or CRLF.

    Shown: every such text is read as the records it stands for, with the line each
    starts on ([csv_reads_back]); a row passes the checks exactly when each of its
    columns is known, short, printable and not a formula ([row_safety_exact]). *)
From S2P Require Import Prelude Json JsonParse Ndjson.

(** ** Limits and reasons *)

Definition MAX_PAYLOAD_BYTES : Z := 2 * 1024 * 1024.
Definition MAX_ROWS : Z := 5000.
Definition MAX_COLUMNS : Z := 32.
Definition MAX_FIELD_LENGTH : Z := 512.

Definition FORBIDDEN_KEYS : list string := ["__proto__"; "prototype"; "constructor"].

Inductive QuarantineCode :=
| FORBIDDEN_KEY | UNKNOWN_FIELD | INVALID_TYPE | FORMULA_INJECTION | UNSAFE_CHARACTERS
| FIELD_TOO_LONG | MISSING_FIELD | INVALID_VALUE | INVALID_ADDRESS | DUPLICATE_IN_BATCH
| REQUIRES_REVIEW | STATE_DRIFT | APPLY_FAILED | MALFORMED_ROW.
#[export] Instance QuarantineCode_eq_dec : EqDecision QuarantineCode.
Proof. solve_decision. Defined.

Record QuarantineReason := { qr_code : QuarantineCode; qr_field : option string; qr_message : string }.
#[export] Instance QuarantineReason_eq_dec : EqDecision QuarantineReason.
Proof. solve_decision. Defined.

(** A raw row: the own properties of an object. *)
Definition RawImportRow : Type := list (string * json).

(** ** Screening a row *)

(** [/^[=+\-@\t\r]/.test(s)]. *)
Definition FORMULA_PREFIX (s : string) : bool :=
  match s with
  | EmptyString => false
  | String c _ => let n := code c in ((n =? 61) || (n =? 43) || (n =? 45) || (n =? 64) || (n =? 9) || (n =? 13))%N
  end.

(** [/^[+-]?\d+(\.\d+)?$/.test(s)]. *)
Definition SIGNED_NUMBER (s : string) : bool :=
  let unsigned s :=
    digits1 s (λ r, match r with
                    | EmptyString => true
                    | String c r => (code c =? 46)%N && digits1 r is_nil
                    end) in
  match s with
  | String c r => if ((code c =? 43) || (code c =? 45))%N then unsigned r else unsigned s
  | EmptyString => false
  end.

(** A control character. *)
Definition unsafe_char (c : ascii) : bool :=
  let n := code c in ((n <=? 31) || (127 <=? n) && (n <=? 159))%N.
Definition UNSAFE_CHARS (s : string) : bool := negb (str_forall (λ c, negb (unsafe_char c)) s).

Definition number_finite (t : string) : bool :=
  negb (bool_decide (t ∈ ["NaN"; "Infinity"; "-Infinity"])).

Definition reason_at (code : QuarantineCode) (field message : string) : QuarantineReason :=
  {| qr_code := code; qr_field := Some field; qr_message := message |}.

Definition type_name (v : json) : string :=
  match v with
  | JBool _ => "boolean"
  | JNum _ => "number"
  | JStr _ => "string"
  | JArr _ => "array" 
  | JNull | JObj _ => "object"
  end.

(** One turn of the loop over [Object.keys(row)]. *)
Definition check_column (allowed : list string) (kv : string * json) : list QuarantineReason :=
  let '(key, value) := kv in
  if bool_decide (key ∈ FORBIDDEN_KEYS) then
    [reason_at FORBIDDEN_KEY key "reserved object key is not allowed"]
  else if negb (bool_decide (key ∈ allowed)) then
    [reason_at UNKNOWN_FIELD key "column is not part of the import schema"]
  else
    match value with
    | JNull => []
    | JNum t => if number_finite t then [] else [reason_at INVALID_VALUE key "number must be finite"]
    | JStr s =>
        if MAX_FIELD_LENGTH <? Z.of_nat (String.length s) then
          [reason_at FIELD_TOO_LONG key ("value exceeds " +:+ Z_to_string MAX_FIELD_LENGTH +:+ " characters")]
        else if UNSAFE_CHARS s then
          [reason_at UNSAFE_CHARACTERS key
             "value contains control, zero-width or bidi-override characters"]
        else if FORMULA_PREFIX s && negb (SIGNED_NUMBER s) then
          [reason_at FORMULA_INJECTION key "value starts with a spreadsheet formula character"]
        else []
    | v => [reason_at INVALID_TYPE key ("expected a string or number, got " +:+ type_name v)]
    end.

Definition checkRowSafety (row : RawImportRow) (allowedFields : list string) : list QuarantineReason :=
  mjoin (check_column allowedFields <$> row).

(** ** Splitting a text into records *)

Definition carriage_return : ascii := "013"%char.

Record CsvRecord := { rec_line : Z; rec_fields : list string }.

Record csv_state := {
  cs_records : list CsvRecord;
  cs_fields : list string;
  cs_field : string;
  cs_inQuotes : bool;
  cs_line : Z;
  cs_recordLine : Z;
}.

Definition csv_init : csv_state :=
  {| cs_records := []; cs_fields := []; cs_field := EmptyString; cs_inQuotes := false;
     cs_line := 1; cs_recordLine := 1 |}.

Definition endRecord (s : csv_state) : csv_state :=
  {| cs_records := cs_records s ++ [{| rec_line := cs_recordLine s; rec_fields := cs_fields s ++ [cs_field s] |}];
     cs_fields := []; cs_field := EmptyString; cs_inQuotes := cs_inQuotes s;
     cs_line := cs_line s; cs_recordLine := cs_recordLine s |}.

(** [line++; recordLine = line]. *)
Definition next_line (s : csv_state) : csv_state :=
  {| cs_records := cs_records s; cs_fields := cs_fields s; cs_field := cs_field s;
     cs_inQuotes := cs_inQuotes s; cs_line := cs_line s + 1; cs_recordLine := cs_line s + 1 |}.

Definition endField (s : csv_state) : csv_state :=
  {| cs_records := cs_records s; cs_fields := cs_fields s ++ [cs_field s]; cs_field := EmptyString;
     cs_inQuotes := cs_inQuotes s; cs_line := cs_line s; cs_recordLine := cs_recordLine s |}.

Definition set_quotes (b : bool) (s : csv_state) : csv_state :=
  {| cs_records := cs_records s; cs_fields := cs_fields s; cs_field := cs_field s;
     cs_inQuotes := b; cs_line := cs_line s; cs_recordLine := cs_recordLine s |}.

(** [field += ch]; a line break inside quotes counts as a line. *)
Definition push_char (c : ascii) (s : csv_state) : csv_state :=
  {| cs_records := cs_records s; cs_fields := cs_fields s;
     cs_field := cs_field s +:+ String c EmptyString; cs_inQuotes := cs_inQuotes s;
     cs_line := if cs_inQuotes s && Ascii.eqb c newline then cs_line s + 1 else cs_line s;
     cs_recordLine := cs_recordLine s |}.

(** The [while] loop. *)
Fixpoint scan (text : string) (s : csv_state) : csv_state :=
  match text with
  | EmptyString => s
  | String ch rest =>
      if cs_inQuotes s then
        if Ascii.eqb ch dquote then
          match rest with
          | String d rest' =>
              if Ascii.eqb d dquote then scan rest' (push_char dquote s) else scan rest (set_quotes false s)
          | EmptyString => scan rest (set_quotes false s)
          end
        else scan rest (push_char ch s)
      else if Ascii.eqb ch dquote && bool_decide (cs_field s = EmptyString) then scan rest (set_quotes true s)
      else if Ascii.eqb ch "," then scan rest (endField s)
      else if Ascii.eqb ch newline then scan rest (next_line (endRecord s))
      else match rest with
           | String d rest' =>
               if Ascii.eqb ch carriage_return && Ascii.eqb d newline
               then scan rest' (next_line (endRecord s))
               else scan rest (push_char ch s)
           | EmptyString => scan rest (push_char ch s)
           end
  end.

(** A last record without a line break. *)
Definition finish (s : csv_state) : list CsvRecord :=
  if negb (bool_decide (cs_field s = EmptyString)) || negb (bool_decide (cs_fields s = []))
  then cs_records (endRecord s) else cs_records s.

Definition splitRecords (text : string) : result string (list CsvRecord) :=
  let s := scan text csv_init in
  if cs_inQuotes s then
    Err ("CSV has an unterminated quoted field starting on line " +:+ Z_to_string (cs_recordLine s))
  else Ok (finish s).

(** ** Rows as objects *)

Record ParsedRow := { pr_line : Z; pr_row : option RawImportRow; pr_error : option string }.

Definition quoted_name (name : string) : string := String dquote (name +:+ String dquote EmptyString).

(** The loop over the column names, with the names seen so far. *)
Fixpoint check_header (seen names : list string) : result string unit :=
  match names with
  | [] => Ok tt
  | name :: names =>
      if bool_decide (name = EmptyString) then Err "CSV header has an empty column name"
      else if bool_decide (name ∈ FORBIDDEN_KEYS) then
        Err ("CSV header uses reserved name " +:+ quoted_name name)
      else if bool_decide (name ∈ seen) then Err ("CSV header repeats column " +:+ quoted_name name)
      else check_header (name :: seen) names
  end.

Definition cell_value (cell : string) : json := if bool_decide (cell = EmptyString) then JNull else JStr cell.

Definition blank (r : CsvRecord) : bool := bool_decide (rec_fields r = [EmptyString]).

Definition data_row (header : list string) (r : CsvRecord) : ParsedRow :=
  if bool_decide (length (rec_fields r) = length header) then
    {| pr_line := rec_line r;
       pr_row := Some (obj_of (zip header (cell_value <$> rec_fields r))); pr_error := None |}
  else
    {| pr_line := rec_line r; pr_row := None;
       pr_error := Some ("expected " +:+ Z_to_string (Z.of_nat (length header)) +:+ " columns, found " +:+
                         Z_to_string (Z.of_nat (length (rec_fields r)))) |}.

Definition parseCsv (text : string) : result string (list ParsedRow) :=
  _ ← throw_if (MAX_PAYLOAD_BYTES <? byteLength text)
        ("CSV exceeds " +:+ Z_to_string MAX_PAYLOAD_BYTES +:+ " bytes");
  records ← splitRecords text;
  match records with
  | [] => Err "CSV is empty"
  | first :: records =>
      let header := trim <$> rec_fields first in
      _ ← throw_if (MAX_COLUMNS <? Z.of_nat (length header))
            ("CSV has more than " +:+ Z_to_string MAX_COLUMNS +:+ " columns");
      _ ← check_header [] header;
      let dataRecords := filter (λ r, blank r = false) records in
      _ ← throw_if (MAX_ROWS <? Z.of_nat (length dataRecords))
            ("CSV has more than " +:+ Z_to_string MAX_ROWS +:+ " data rows");
      Ok (data_row header <$> dataRecords)
  end.

(** ** What a CSV text stands for *)

(** A character that may appear in a cell that is not quoted. *)
Definition bare_char (c : ascii) : bool :=
  negb (Ascii.eqb c dquote || Ascii.eqb c "," || Ascii.eqb c newline || Ascii.eqb c carriage_return).

(** A cell's text with every quote doubled. *)
Fixpoint doubled (s : string) : string :=
  match s with
  | EmptyString => EmptyString
  | String c s => if Ascii.eqb c dquote then String dquote (String dquote (doubled s)) else String c (doubled s)
  end.

Inductive cell_text : string → string → Prop :=
| text_bare s : str_forall bare_char s = true → cell_text s s
| text_quoted s : cell_text s (String dquote (doubled s +:+ String dquote EmptyString)).

Inductive row_text : list string → string → Prop :=
| text_last s t : cell_text s t → row_text [s] t
| text_cell s t cells u : cell_text s t → row_text cells u → row_text (s :: cells) (t +:+ String "," u).

Inductive line_end : string → Prop :=
| end_lf : line_end (String newline EmptyString)
| end_crlf : line_end (String carriage_return (String newline EmptyString)).

(** How many line breaks a text has. *)
Fixpoint breaks (s : string) : Z :=
  match s with EmptyString => 0 | String c s => (if Ascii.eqb c newline then 1 else 0) + breaks s end.

(** The records of a text that starts on the given line. *)
Inductive file_text : Z → list CsvRecord → string → Prop :=
| text_end line : file_text line [] EmptyString
| text_open_end line cells t :
    row_text cells t → cells ≠ [EmptyString] →
    file_text line [{| rec_line := line; rec_fields := cells |}] t
| text_record line cells t eol records u :
    row_text cells t → line_end eol → file_text (line + breaks t + 1) records u →
    file_text line ({| rec_line := line; rec_fields := cells |} :: records) (t +:+ eol +:+ u).

(** ** Reading back *)

(** The reader between two records, having read [records]. *)
Definition between (records : list CsvRecord) (line : Z) : csv_state :=
  {| cs_records := records; cs_fields := []; cs_field := EmptyString; cs_inQuotes := false;
     cs_line := line; cs_recordLine := line |}.

(** The reader inside a record that starts on line [start], at line [line]. *)
Definition within (records : list CsvRecord) (start : Z) (fields : list string) (field : string)
    (q : bool) (line : Z) : csv_state :=
  {| cs_records := records; cs_fields := fields; cs_field := field; cs_inQuotes := q;
     cs_line := line; cs_recordLine := start |}.

Definition head_is (c : ascii) (s : string) : bool :=
  match s with String d _ => Ascii.eqb d c | EmptyString => false end.

Lemma bare_char_spec c :
  bare_char c = true →
  Ascii.eqb c dquote = false ∧ Ascii.eqb c "," = false ∧ Ascii.eqb c newline = false ∧
  Ascii.eqb c carriage_return = false.
Proof.
  unfold bare_char. intros H%negb_true_iff. rewrite !orb_false_iff in H. by destruct H as [[[]]].
Qed.

Lemma str_snoc s c t : (s +:+ String c EmptyString) +:+ t = s +:+ String c t.
Proof. by rewrite str_app_assoc. Qed.

Lemma scan_bare records start fields field line s rest :
  str_forall bare_char s = true →
  scan (s +:+ rest) (within records start fields field false line) =
  scan rest (within records start fields (field +:+ s) false line).
Proof.
  revert field. induction s as [|c s IH]; intros field; cbn [str_forall]; [by rewrite str_app_nil_r|].
  intros [Hc Hs]%andb_true_iff. destruct (bare_char_spec c Hc) as (E1 & E2 & E3 & E4).
  rewrite str_app_cons. cbn [scan within cs_inQuotes]. rewrite E1, E2, E3, E4. cbn [andb].
  rewrite <- (str_snoc field c s). rewrite <- (IH _ Hs). by destruct (s +:+ rest).
Qed.

Lemma scan_quoted records start fields field line s rest :
  head_is dquote rest = false →
  scan (doubled s +:+ String dquote rest) (within records start fields field true line) =
  scan rest (within records start fields (field +:+ s) false (line + breaks s)).
Proof.
  intros Hr. revert field line. induction s as [|c s IH]; intros field line; cbn [doubled breaks].
  - rewrite str_app_nil, str_app_nil_r, Z.add_0_r. cbn [scan within cs_inQuotes].
    rewrite Ascii.eqb_refl. unfold head_is in Hr. destruct rest as [|d rest]; [done|]. by rewrite Hr.
  - destruct (Ascii.eqb_spec c dquote) as [->|Hc].
    + rewrite !str_app_cons. cbn [scan within cs_inQuotes]. rewrite !Ascii.eqb_refl.
      rewrite <- (str_snoc field). etrans; [apply IH|]. cbn. by rewrite Z.add_0_l.
    + rewrite str_app_cons. cbn [scan within cs_inQuotes].
      apply Ascii.eqb_neq in Hc. rewrite Hc, <- (str_snoc field), Z.add_assoc.
      etrans; [|apply IH]. unfold push_char, within. cbn.
      do 2 f_equal. destruct (Ascii.eqb c newline); lia.
Qed.

Lemma breaks_app s t : breaks (s +:+ t) = breaks s + breaks t.
Proof. induction s as [|c s IH]; [done|]. rewrite str_app_cons. cbn [breaks]. rewrite IH. lia. Qed.

Lemma breaks_doubled s : breaks (doubled s +:+ String dquote EmptyString) = breaks s.
Proof.
  induction s as [|c s IH]; [done|]. cbn [doubled breaks].
  destruct (Ascii.eqb_spec c dquote) as [->|]; rewrite ?str_app_cons; cbn [breaks]; by rewrite IH.
Qed.

Lemma breaks_bare s : str_forall bare_char s = true → breaks s = 0.
Proof.
  induction s as [|c s IH]; [done|]. cbn [str_forall breaks]. intros [Hc Hs]%andb_true_iff.
  destruct (bare_char_spec c Hc) as (_ & _ & -> & _). by rewrite IH.
Qed.

Lemma scan_cell records start fields line s t rest :
  cell_text s t → head_is dquote rest = false →
  scan (t +:+ rest) (within records start fields EmptyString false line) =
  scan rest (within records start fields s false (line + breaks t)).
Proof.
  intros [s0 Hs|s0] Hr.
  - rewrite scan_bare by done. rewrite str_app_nil. do 2 f_equal.
    rewrite breaks_bare by done. lia.
  - rewrite str_app_cons, str_app_assoc. cbn [scan within cs_inQuotes cs_field].
    rewrite Ascii.eqb_refl, bool_decide_eq_true_2 by done. cbn [andb].
    etrans; [by apply scan_quoted|]. rewrite str_app_nil. do 2 f_equal.
    cbn [breaks]. by rewrite breaks_doubled.
Qed.

Lemma scan_row records start fields line cells t rest :
  row_text cells t → head_is dquote rest = false →
  ∃ pre s, cells = pre ++ [s] ∧
    scan (t +:+ rest) (within records start fields EmptyString false line) =
    scan rest (within records start (fields ++ pre) s false (line + breaks t)).
Proof.
  intros Hrow Hr. revert fields line.
  induction Hrow as [s t Ht|s t cells u Ht _ IH]; intros fields line.
  - exists [], s. rewrite app_nil_r. split; [done|]. by apply scan_cell.
  - destruct (IH (fields ++ [s]) (line + breaks t)) as (pre & s' & -> & E).
    exists (s :: pre), s'. split; [done|]. rewrite str_app_assoc, (scan_cell _ _ _ _ s) by done.
    rewrite str_app_cons. cbn [scan within cs_inQuotes]. etrans; [exact E|].
    rewrite <- app_assoc. do 2 f_equal. rewrite breaks_app.
    change (breaks (String "," u)) with (breaks u). lia.
Qed.

Lemma line_end_head eol rest : line_end eol → head_is dquote (eol +:+ rest) = false.
Proof. by destruct 1. Qed.

Lemma scan_line_end records start fields s line eol rest :
  line_end eol →
  scan (eol +:+ rest) (within records start fields s false line) =
  scan rest (between (records ++ [{| rec_line := start; rec_fields := fields ++ [s] |}]) (line + 1)).
Proof. by destruct 1. Qed.

Lemma scan_file line records text recs :
  file_text line records text →
  cs_inQuotes (scan text (between recs line)) = false ∧
  finish (scan text (between recs line)) = recs ++ records.
Proof.
  intros H. revert recs.
  induction H as [line|line cells t Ht Hc|line cells t eol records u Ht He _ IH]; intros recs.
  - by rewrite app_nil_r.
  - destruct (scan_row recs line [] line cells t EmptyString Ht eq_refl) as (pre & s & -> & E).
    rewrite str_app_nil_r in E. change (between recs line) with (within recs line [] EmptyString false line).
    rewrite E. split; [done|]. unfold finish. cbn.
    destruct (bool_decide_reflect (s = EmptyString)) as [->|]; [|done].
    destruct (bool_decide_reflect (pre = [])) as [->|]; done.
  - destruct (scan_row recs line [] line cells t (eol +:+ u) Ht) as (pre & s & -> & E);
      [by apply line_end_head|].
    change (between recs line) with (within recs line [] EmptyString false line).
    rewrite E, scan_line_end by done. cbn [app].
    destruct (IH (recs ++ [{| rec_line := line; rec_fields := pre ++ [s] |}])) as [IH1 IH2].
    split; [exact IH1|]. etrans; [exact IH2|]. by rewrite <- app_assoc.
Qed.

Lemma splitRecords_file records text : file_text 1 records text → splitRecords text = Ok records.
Proof. intros [Hq Hf]%(scan_file 1 records text []). unfold splitRecords. change csv_init with (between [] 1). by rewrite Hq, Hf. Qed.

(** A column name the reader accepts. *)
Definition name_ok (name : string) : Prop := name ≠ EmptyString ∧ name ∉ FORBIDDEN_KEYS.

Lemma check_header_ok seen names :
  check_header seen names = Ok tt ↔ Forall name_ok names ∧ NoDup names ∧ (∀ n, n ∈ names → n ∉ seen).
Proof.
  revert seen. induction names as [|name names IH]; intros seen; cbn [check_header].
  { split; [intros _|done]. split_and!; [constructor..|]. by intros n ?%elem_of_nil. }
  rewrite Forall_cons, NoDup_cons. unfold name_ok at 1.
  case_bool_decide; [split; [done|tauto]|]. case_bool_decide; [split; [done|tauto]|].
  case_bool_decide as Hs.
  - split; [done|]. intros (_ & _ & Hd). by destruct (Hd name (list_elem_of_here _ _)).
  - rewrite IH. split; intros (H1 & H2 & H3).
    + split_and!; try tauto; [intros Hn; apply (H3 name Hn), list_elem_of_here|].
      intros n [->|Hn]%elem_of_cons; [done|]. intros Hn'. apply (H3 n Hn). by apply list_elem_of_further.
    + split_and!; try tauto. intros n Hn [->|Hn']%elem_of_cons; [tauto|].
      apply (H3 n); [by apply list_elem_of_further|done].
Qed.

Lemma obj_of_keys l : NoDup l.*1 → (obj_of l).*1 ≡ₚ l.*1.
Proof.
  intros Hn. unfold obj_of. rewrite foldl_aput_id by done. rewrite app_nil_l, <- list_fmap_compose.
  rewrite (list_fmap_ext _ id) by done. by rewrite list_fmap_id, own_order_perm.
Qed.

Lemma obj_of_get l k v : NoDup l.*1 → (k, v) ∈ l → jget k (obj_of l) = Some v.
Proof.
  intros Hn Hk. unfold obj_of. rewrite foldl_aput_id by done. rewrite app_nil_l.
  rewrite (jget_fmap (λ k, default JNull (aget k l))).
  - by rewrite (elem_aget k v l).
  - rewrite own_order_perm. by apply (list_elem_of_fmap_2 fst) in Hk.
Qed.

(** What the row of a record should be. *)
Definition row_of (header : list string) (r : CsvRecord) (p : ParsedRow) : Prop :=
  pr_line p = rec_line r ∧
  match pr_row p with
  | Some o =>
      length (rec_fields r) = length header ∧ pr_error p = None ∧ o.*1 ≡ₚ header ∧
      ∀ i name cell, header !! i = Some name → rec_fields r !! i = Some cell →
        jget name o = Some (if bool_decide (cell = EmptyString) then JNull else JStr cell)
  | None => length (rec_fields r) ≠ length header ∧ ∃ e, pr_error p = Some e
  end.

Lemma data_row_spec header r : NoDup header → row_of header r (data_row header r).
Proof.
  intros Hn. unfold data_row. case_bool_decide as Hl; (split; [done|]); cbn; [|eauto].
  assert ((zip header (cell_value <$> rec_fields r)).*1 = header) as Hz.
  { apply fst_zip. rewrite length_fmap. lia. }
  split; [done|]. split; [done|]. split; [by rewrite obj_of_keys; rewrite Hz|].
  intros i name cell Hi Hc. apply obj_of_get; [by rewrite Hz|].
  apply list_elem_of_lookup. exists i. apply lookup_zip_Some. split; [done|].
  by rewrite list_lookup_fmap, Hc.
Qed.

(** Every text of an RFC 4180 file (cells quoted at will, LF or CRLF line ends, a last
    line break or none) within the documented limits is read as exactly the rows it
    stands for: the first record names the columns, blank lines are skipped, each other
    record becomes an object whose properties are its cells under their own column
    names, with its source line, and a record of another width becomes an error row
    instead of being realigned. *)
Theorem csv_reads_back first records text :
  file_text 1 (first :: records) text →
  byteLength text ≤ MAX_PAYLOAD_BYTES →
  Forall name_ok (trim <$> rec_fields first) → NoDup (trim <$> rec_fields first) →
  Z.of_nat (length (rec_fields first)) ≤ MAX_COLUMNS →
  Z.of_nat (length (filter (λ r, blank r = false) records)) ≤ MAX_ROWS →
  ∃ rows, parseCsv text = Ok rows ∧
    Forall2 (row_of (trim <$> rec_fields first)) (filter (λ r, blank r = false) records) rows.
Proof.
  intros Hfile Hbytes Hnames Hdup Hcols Hrows.
  exists (data_row (trim <$> rec_fields first) <$> filter (λ r, blank r = false) records). split.
  - unfold parseCsv. rewrite (proj2 (Z.ltb_ge _ _) Hbytes), (splitRecords_file _ _ Hfile). simpl.
    rewrite length_fmap, (proj2 (Z.ltb_ge _ _) Hcols). simpl.
    rewrite (proj2 (check_header_ok [] _)) by (split_and!; [done..|]; by intros n _ ?%elem_of_nil). simpl.
    by rewrite (proj2 (Z.ltb_ge _ _) Hrows).
  - apply Forall2_fmap_r, Forall_Forall2_diag, Forall_forall. intros r _. by apply data_row_spec.
Qed.

(** A file with a quoted comma, an escaped quote, a line break in a cell, a blank line
    and a short row. *)
Definition sample_csv : string :=
  "address, status" +:+ String newline (String dquote ("a,b" +:+ String dquote (String dquote
  (String newline (String dquote ("," +:+ String carriage_return (String newline (String newline
  ("x" +:+ String carriage_return (String newline EmptyString)))))))))).

Lemma csv_reads_back_witness :
  ∃ rows, parseCsv sample_csv = Ok rows ∧
    Forall2 (row_of ["address"; "status"])
      [ {| rec_line := 2; rec_fields := ["a,b" +:+ String dquote (String newline EmptyString); EmptyString] |};
        {| rec_line := 5; rec_fields := ["x"] |} ] rows.
Proof.
  apply (csv_reads_back {| rec_line := 1; rec_fields := ["address"; " status"] |}
    [ {| rec_line := 2; rec_fields := ["a,b" +:+ String dquote (String newline EmptyString); EmptyString] |};
      {| rec_line := 4; rec_fields := [EmptyString] |};
      {| rec_line := 5; rec_fields := ["x"] |} ] sample_csv).
  - apply (text_record 1 ["address"; " status"] "address, status" (String newline EmptyString));
      [apply (text_cell "address" "address" [" status"] " status"); repeat constructor|constructor|].
    apply (text_record 2 _ (String dquote (doubled ("a,b" +:+ String dquote (String newline EmptyString)) +:+
             String dquote EmptyString) +:+ String "," EmptyString)
             (String carriage_return (String newline EmptyString)));
      [apply text_cell; [constructor|repeat constructor]|constructor|].
    apply (text_record 4 _ EmptyString (String newline EmptyString)); [repeat constructor|constructor|].
    apply (text_record 5 _ "x" (String carriage_return (String newline EmptyString)));
      [repeat constructor|constructor|constructor].
  - vm_compute. discriminate.
  - repeat constructor; try discriminate; apply (bool_decide_unpack _); vm_compute; exact I.
  - apply (bool_decide_unpack _). vm_compute. exact I.
  - vm_compute. discriminate.
  - vm_compute. discriminate.
Defined.

(** ** The checks *)

(** A value that may be shown to a person and opened in a spreadsheet. *)
Definition safe_value (v : json) : Prop :=
  match v with
  | JNull => True
  | JNum t => t ∉ ["NaN"; "Infinity"; "-Infinity"]
  | JStr s =>
      Z.of_nat (String.length s) ≤ MAX_FIELD_LENGTH ∧ str_forall (λ c, negb (unsafe_char c)) s = true ∧
      (FORMULA_PREFIX s = true → SIGNED_NUMBER s = true)
  | _ => False
  end.

Lemma check_column_nil allowed k v :
  check_column allowed (k, v) = [] ↔ k ∉ FORBIDDEN_KEYS ∧ k ∈ allowed ∧ safe_value v.
Proof.
  unfold check_column. case_bool_decide as Hf; [naive_solver|]. case_bool_decide as Ha; [|naive_solver].
  cbn [negb]. destruct v as [|b|t|s|l|l]; cbn [safe_value]; try naive_solver.
  - unfold number_finite. case_bool_decide; naive_solver.
  - destruct (Z.ltb_spec MAX_FIELD_LENGTH (Z.of_nat (String.length s))); [split; [done|lia]|].
    unfold UNSAFE_CHARS. destruct (str_forall _ s); cbn [negb]; [|naive_solver].
    destruct (FORMULA_PREFIX s), (SIGNED_NUMBER s); naive_solver.
Qed.

(** A row passes the screening exactly when every one of its columns is in the schema, is
    not a name that reaches the prototype, and holds nothing, a finite number, or a text
    of at most 512 characters without control characters that no spreadsheet takes for
    a formula; and no column is reported twice. *)
Theorem row_safety_exact row allowed :
  (checkRowSafety row allowed = [] ↔
   Forall (λ kv, kv.1 ∉ FORBIDDEN_KEYS ∧ kv.1 ∈ allowed ∧ safe_value kv.2) row) ∧
  (NoDup row.*1 → NoDup (qr_field <$> checkRowSafety row allowed)).
Proof.
  unfold checkRowSafety. split.
  - induction row as [|[k v] row IH]; [done|]. rewrite fmap_cons, Forall_cons. cbn [mjoin list_join].
    rewrite app_nil. rewrite IH. by rewrite check_column_nil.
  - assert (∀ kv r, r ∈ check_column allowed kv → qr_field r = Some kv.1) as Hf.
    { intros [k v] r. unfold check_column.
      repeat case_match; rewrite ?list_elem_of_singleton, ?elem_of_nil; try done; by intros ->. }
    assert (∀ kv, check_column allowed kv = [] ∨ ∃ r, check_column allowed kv = [r]) as Hs.
    { intros [k v]. unfold check_column. repeat case_match; eauto. }
    induction row as [|kv row IH]; [constructor|]. rewrite !fmap_cons. cbn [mjoin list_join].
    intros [Hk Hn]%NoDup_cons. rewrite fmap_app.
    destruct (Hs kv) as [E|[r E]]; rewrite E; [by apply IH|]. cbn. apply NoDup_cons. split; [|by apply IH].
    rewrite (Hf kv r) by (rewrite E; apply list_elem_of_here).
    intros (r' & E' & Hr')%list_elem_of_fmap. apply list_elem_of_join in Hr' as (rs & Hr' & (kv' & -> & Hkv')%list_elem_of_fmap).
    apply Hf in Hr'. rewrite Hr' in E'. injection E' as E'. apply Hk. rewrite E'.
    by apply list_elem_of_fmap_2.
Qed.
