(* ===== verification/KycStore.v ===== *)
(** * KYC records

    Models [api/src/common/services/kyc-store.service.ts] (the records, the audit log
    and the snapshot file behind them) and [api/src/auth/kyc.service.ts] (transitions
    and eligibility through a cache).

    Records and audit entries are written as JSON; [Jsonable] is that encoding with the
    way it is read back.  The audit log is a text of lines, the snapshot a text or no
    file.  An append may leave any number of characters behind; a snapshot is renamed
    into place, so it is written or not.  The two writes of one transition end
    independently, as the code runs them side by side.  A line of the log that parses
    to something other than an entry is skipped here; the service writes none.
    Addresses are neither array indexes nor properties of [Object.prototype]; Stellar
    addresses are not.  Redis is a map of texts whose entries may lapse.

    Shown: if no append to the log is cut short, a restart gives back exactly the
    records in memory, even when the last snapshots were not written
    ([kyc_restart_recovers]); eligibility answers on the stored record
    ([eligibility_tracks_store]).  Where an append is lost, a restart takes back the
    transition ([lost_append_reverts], [torn_append_reverts_next]), and a log without a
    snapshot is not read ([missing_snapshot_forgets]). *)
From S2P Require Import Prelude Json JsonParse Ndjson JsonIndent.

(** ** Data *)

Inductive KycStatus := NONE | PENDING | VERIFIED | ACCREDITED | EXPIRED | REJECTED.
#[export] Instance KycStatus_eq_dec : EqDecision KycStatus.
Proof. solve_decision. Defined.

Definition kyc_text (s : KycStatus) : string :=
  match s with
  | NONE => "none" | PENDING => "pending" | VERIFIED => "verified" | ACCREDITED => "accredited"
  | EXPIRED => "expired" | REJECTED => "rejected"
  end.

Inductive KycStatusSource := FromProvider | FromAdmin | FromSystem | FromImport.
#[export] Instance KycStatusSource_eq_dec : EqDecision KycStatusSource.
Proof. solve_decision. Defined.

Definition source_text (s : KycStatusSource) : string :=
  match s with
  | FromProvider => "provider" | FromAdmin => "admin" | FromSystem => "system" | FromImport => "import"
  end.

Record KycRecord := {
  kr_address : string;
  kr_status : KycStatus;
  kr_source : KycStatusSource;
  kr_actor : option string;
  kr_reason : option string;
  kr_providerReference : option string;
  kr_createdAt : Z;
  kr_updatedAt : Z;
  kr_expiresAt : option Z;
}.
#[export] Instance KycRecord_eq_dec : EqDecision KycRecord.
Proof. solve_decision. Defined.

Record KycAuditEntry := {
  ke_id : string;
  ke_address : string;
  ke_fromStatus : KycStatus;
  ke_toStatus : KycStatus;
  ke_source : KycStatusSource;
  ke_actor : option string;
  ke_reason : option string;
  ke_providerReference : option string;
  ke_expiresAt : option Z;
  ke_timestamp : Z;
}.

(** The argument of [applyTransition]. *)
Record Transition := {
  tr_address : string;
  tr_toStatus : KycStatus;
  tr_source : KycStatusSource;
  tr_actor : option string;
  tr_reason : option string;
  tr_providerReference : option string;
  tr_expiresAt : option Z;
}.

(** ** Encoding *)

(** Values that are written as JSON and read back. *)
Class Jsonable (A : Type) := {
  encode : A → json;
  decode : json → option A;
  decode_encode a : decode (encode a) = Some a;
}.

Definition nullable {A} (f : A → json) (x : option A) : json :=
  match x with Some a => f a | None => JNull end.
Definition read_nullable {A} (f : option json → option A) (v : option json) : option (option A) :=
  match v with Some JNull => Some None | _ => Some <$> f v end.

Definition read_int (v : option json) : option Z :=
  match v with Some (JNum t) => z ← BigInt_of_string t; if bool_decide (Z_to_string z = t) then Some z else None
             | _ => None end.

Definition read_status (v : option json) : option KycStatus :=
  s ← string_of v; list_find (λ k, kyc_text k = s) [NONE; PENDING; VERIFIED; ACCREDITED; EXPIRED; REJECTED] ≫= λ p, Some p.2.
Definition read_source (v : option json) : option KycStatusSource :=
  s ← string_of v; list_find (λ k, source_text k = s) [FromProvider; FromAdmin; FromSystem; FromImport] ≫= λ p, Some p.2.

Lemma read_status_text k : read_status (Some (JStr (kyc_text k))) = Some k.
Proof. by destruct k. Qed.
Lemma read_source_text k : read_source (Some (JStr (source_text k))) = Some k.
Proof. by destruct k. Qed.
Lemma read_int_jint z : read_int (Some (jint z)) = Some z.
Proof. unfold read_int, jint. rewrite BigInt_of_Z_to_string. simpl. by rewrite bool_decide_eq_true_2. Qed.
Lemma read_nullable_str x : read_nullable string_of (Some (nullable JStr x)) = Some x.
Proof. by destruct x. Qed.
Lemma read_nullable_int x : read_nullable read_int (Some (nullable jint x)) = Some x.
Proof. destruct x as [z|]; [|done]. cbn -[read_int]. by rewrite read_int_jint. Qed.

Definition record_json (r : KycRecord) : json :=
  JObj [ ("address", JStr (kr_address r)); ("status", JStr (kyc_text (kr_status r)));
         ("source", JStr (source_text (kr_source r))); ("actor", nullable JStr (kr_actor r));
         ("reason", nullable JStr (kr_reason r));
         ("providerReference", nullable JStr (kr_providerReference r));
         ("createdAt", jint (kr_createdAt r)); ("updatedAt", jint (kr_updatedAt r));
         ("expiresAt", nullable jint (kr_expiresAt r)) ].

Definition record_of (j : json) : option KycRecord :=
  a ← string_of (prop j "address"); s ← read_status (prop j "status"); o ← read_source (prop j "source");
  ac ← read_nullable string_of (prop j "actor"); re ← read_nullable string_of (prop j "reason");
  p ← read_nullable string_of (prop j "providerReference");
  c ← read_int (prop j "createdAt"); u ← read_int (prop j "updatedAt");
  x ← read_nullable read_int (prop j "expiresAt");
  Some {| kr_address := a; kr_status := s; kr_source := o; kr_actor := ac; kr_reason := re;
          kr_providerReference := p; kr_createdAt := c; kr_updatedAt := u; kr_expiresAt := x |}.

Definition entry_json (e : KycAuditEntry) : json :=
  JObj [ ("id", JStr (ke_id e)); ("address", JStr (ke_address e));
         ("fromStatus", JStr (kyc_text (ke_fromStatus e))); ("toStatus", JStr (kyc_text (ke_toStatus e)));
         ("source", JStr (source_text (ke_source e))); ("actor", nullable JStr (ke_actor e));
         ("reason", nullable JStr (ke_reason e));
         ("providerReference", nullable JStr (ke_providerReference e));
         ("expiresAt", nullable jint (ke_expiresAt e)); ("timestamp", jint (ke_timestamp e)) ].

Definition entry_of (j : json) : option KycAuditEntry :=
  i ← string_of (prop j "id"); a ← string_of (prop j "address");
  f ← read_status (prop j "fromStatus"); s ← read_status (prop j "toStatus");
  o ← read_source (prop j "source");
  ac ← read_nullable string_of (prop j "actor"); re ← read_nullable string_of (prop j "reason");
  p ← read_nullable string_of (prop j "providerReference");
  x ← read_nullable read_int (prop j "expiresAt"); t ← read_int (prop j "timestamp");
  Some {| ke_id := i; ke_address := a; ke_fromStatus := f; ke_toStatus := s; ke_source := o;
          ke_actor := ac; ke_reason := re; ke_providerReference := p; ke_expiresAt := x;
          ke_timestamp := t |}.

Ltac read_back :=
  cbn [prop jget]; repeat first [rewrite decide_False by discriminate | rewrite decide_True by done];
  cbn [string_of mbind option_bind];
  repeat first [ rewrite read_nullable_str | rewrite read_nullable_int | rewrite read_status_text
               | rewrite read_source_text | rewrite read_int_jint | progress cbn [mbind option_bind] ].

#[export] Program Instance record_jsonable : Jsonable KycRecord :=
  {| encode := record_json; decode := record_of |}.
Next Obligation. intros []. unfold record_of, record_json. by read_back. Qed.

#[export] Program Instance entry_jsonable : Jsonable KycAuditEntry :=
  {| encode := entry_json; decode := entry_of |}.
Next Obligation. intros []. unfold entry_of, entry_json. by read_back. Qed.

(** ** The store *)

Definition orelse {A} (a b : option A) : option A := match a with Some _ => a | None => b end.

(** What a transition makes of a record; replaying its audit entry does the same. *)
Definition moved (existing : option KycRecord) (address : string) (to : KycStatus) (source : KycStatusSource)
    (actor reason providerReference : option string) (expiresAt : option Z) (now : Z) : KycRecord :=
  match existing with
  | Some r =>
      {| kr_address := kr_address r; kr_status := to; kr_source := source;
         kr_actor := orelse actor (kr_actor r); kr_reason := orelse reason (kr_reason r);
         kr_providerReference := orelse providerReference (kr_providerReference r);
         kr_createdAt := kr_createdAt r; kr_updatedAt := now;
         kr_expiresAt := orelse expiresAt (kr_expiresAt r) |}
  | None =>
      {| kr_address := address; kr_status := to; kr_source := source; kr_actor := actor;
         kr_reason := reason; kr_providerReference := providerReference; kr_createdAt := now;
         kr_updatedAt := now; kr_expiresAt := expiresAt |}
  end.

Record kyc_store := {
  records : list (string * KycRecord);
  snapshot : option string;  (* kyc-records.json *)
  audit : option string;     (* kyc-audit.log.jsonl *)
}.
Definition empty_store : kyc_store := {| records := []; snapshot := None; audit := None |}.

(** How the two writes of a transition end: the line is appended whole or cut short
    after some characters, and the snapshot is renamed into place or not. *)
Record persist_fate := { cut : option nat; renamed : bool }.

Definition snapshot_json (rs : list (string * KycRecord)) : json :=
  JObj [ ("records", JObj ((λ kr, (kr.1, encode kr.2)) <$> rs)); ("audit", JArr []); ("version", jint 1) ].

Definition audit_line (e : KycAuditEntry) : string :=
  JSON_stringify (encode e) +:+ String newline EmptyString.

Definition appendAuditLine (e : KycAuditEntry) (cut : option nat) (st : kyc_store) : kyc_store :=
  let text := match cut with Some n => String.substring 0 n (audit_line e) | None => audit_line e end in
  {| records := records st; snapshot := snapshot st; audit := Some (default EmptyString (audit st) +:+ text) |}.

Definition writeSnapshot (ok : bool) (st : kyc_store) : kyc_store :=
  if ok then {| records := records st; snapshot := Some (JSON_stringify2 (snapshot_json (records st)));
                audit := audit st |}
  else st.

Definition persist (e : KycAuditEntry) (f : persist_fate) (st : kyc_store) : kyc_store :=
  writeSnapshot (renamed f) (appendAuditLine e (cut f) st).

Definition get (st : kyc_store) (address : string) : option KycRecord := aget address (records st).

(** The entry, when there is one, and whether the record is new. *)
Definition applyTransition (st : kyc_store) (i : Transition) (id : string) (now : Z) (f : persist_fate) :
    kyc_store * (KycRecord * option KycAuditEntry * bool) :=
  let existing := get st (tr_address i) in
  let unchanged :=
    match existing with
    | Some r => bool_decide (kr_status r = tr_toStatus i) && bool_decide (kr_expiresAt r = tr_expiresAt i)
    | None => false
    end in
  match existing, unchanged with
  | Some r, true => (st, (r, None, false))
  | _, _ =>
      let entry :=
        {| ke_id := id; ke_address := tr_address i;
           ke_fromStatus := match existing with Some r => kr_status r | None => PENDING end;
           ke_toStatus := tr_toStatus i; ke_source := tr_source i; ke_actor := tr_actor i;
           ke_reason := tr_reason i; ke_providerReference := tr_providerReference i;
           ke_expiresAt := tr_expiresAt i; ke_timestamp := now |} in
      let record := moved existing (tr_address i) (tr_toStatus i) (tr_source i) (tr_actor i) (tr_reason i)
                      (tr_providerReference i) (tr_expiresAt i) now in
      let st := {| records := aput (tr_address i) record (records st); snapshot := snapshot st; audit := audit st |} in
      (persist entry f st, (record, Some entry, bool_decide (existing = None)))
  end.

(** *** Starting up *)

Section load.
Context (num : string → string).

Definition replay_entry (rs : list (string * KycRecord)) (e : KycAuditEntry) : list (string * KycRecord) :=
  aput (ke_address e)
    (moved (aget (ke_address e) rs) (ke_address e) (ke_toStatus e) (ke_source e) (ke_actor e) (ke_reason e)
       (ke_providerReference e) (ke_expiresAt e) (ke_timestamp e)) rs.

Definition replay_line (rs : list (string * KycRecord)) (line : string) : list (string * KycRecord) :=
  match JSON_parse num line ≫= decode with Some e => replay_entry rs e | None => rs end.

Definition replayAudit (log : string) (rs : list (string * KycRecord)) : list (string * KycRecord) :=
  foldl replay_line rs (filter (λ l, trim l ≠ EmptyString) (split_on newline log)).

(** [parsed?.records ?? {}]. *)
Definition records_of (j : json) : list (string * KycRecord) :=
  match prop j "records" with
  | Some (JObj l) => omap (λ kv, (λ r, (kv.1, r)) <$> decode kv.2) l
  | _ => []
  end.

Definition loadSnapshot (st : kyc_store) : kyc_store :=
  match snapshot st with
  | None => {| records := []; snapshot := None; audit := audit st |}
  | Some text =>
      let rs := match JSON_parse num text with Some j => records_of j | None => [] end in
      {| records := match audit st with Some log => replayAudit log rs | None => rs end;
         snapshot := snapshot st; audit := audit st |}
  end.

(** A process that serves transitions and is restarted now and then. *)
Inductive kyc_op :=
| KTransition (i : Transition) (id : string) (now : Z) (f : persist_fate)
| KRestart.

Definition kyc_step (st : kyc_store) (o : kyc_op) : kyc_store :=
  match o with
  | KTransition i id now f => (applyTransition st i id now f).1
  | KRestart => loadSnapshot st
  end.

Definition kyc_run (st : kyc_store) (ops : list kyc_op) : kyc_store := foldl kyc_step st ops.
End load.

(** ** Replaying the log

    The log holds every entry from the start, and the snapshot may already contain the
    effect of any number of them: replaying all of them must not do them twice. *)

Definition touch (r : option KycRecord) (e : KycAuditEntry) : KycRecord :=
  moved r (ke_address e) (ke_toStatus e) (ke_source e) (ke_actor e) (ke_reason e)
    (ke_providerReference e) (ke_expiresAt e) (ke_timestamp e).

(** The last value, and the last value that is not null. *)
Definition last_of {A} (f : KycAuditEntry → A) (d : A) (es : list KycAuditEntry) : A :=
  foldl (λ _ e, f e) d es.
Definition latest {A} (f : KycAuditEntry → option A) (d : option A) (es : list KycAuditEntry) : option A :=
  foldl (λ a e, orelse (f e) a) d es.

Lemma latest_orelse {A} (f : KycAuditEntry → option A) d es :
  latest f d es = orelse (latest f None es) d.
Proof.
  unfold latest. induction es as [|e es IH] using rev_ind; [done|].
  rewrite !foldl_app. simpl. rewrite IH. by destruct (f e).
Qed.

Lemma latest_again {A} (f : KycAuditEntry → option A) e es :
  latest f (latest f (f e) es) (e :: es) = latest f (f e) es.
Proof.
  rewrite latest_orelse. assert (latest f None (e :: es) = latest f (f e) es) as ->.
  { unfold latest. simpl. by destruct (f e). }
  by destruct (latest f (f e) es).
Qed.

Lemma foldl_touch r es :
  foldl (λ o e, Some (touch o e)) (Some r) es =
  Some {| kr_address := kr_address r; kr_status := last_of ke_toStatus (kr_status r) es;
          kr_source := last_of ke_source (kr_source r) es; kr_actor := latest ke_actor (kr_actor r) es;
          kr_reason := latest ke_reason (kr_reason r) es;
          kr_providerReference := latest ke_providerReference (kr_providerReference r) es;
          kr_createdAt := kr_createdAt r; kr_updatedAt := last_of ke_timestamp (kr_updatedAt r) es;
          kr_expiresAt := latest ke_expiresAt (kr_expiresAt r) es |}.
Proof.
  revert r. induction es as [|e es IH]; intros r; [by destruct r|]. cbn [foldl]. by rewrite IH.
Qed.

Lemma foldl_touch_twice es :
  foldl (λ o e, Some (touch o e)) (foldl (λ o e, Some (touch o e)) None es) es =
  foldl (λ o e, Some (touch o e)) None es.
Proof.
  destruct es as [|e es]; [done|]. cbn [foldl]. rewrite foldl_touch.
  change (foldl (λ o e, Some (touch o e)) ?x es) with (foldl (λ o e, Some (touch o e)) x es).
  rewrite foldl_touch. cbn [touch moved kr_address kr_status kr_source kr_actor kr_reason
    kr_providerReference kr_createdAt kr_updatedAt kr_expiresAt]. do 2 f_equal; by apply latest_again.
Qed.

Definition replays (es : list KycAuditEntry) : list (string * KycRecord) := foldl replay_entry [] es.

Lemma aget_replay a rs es :
  aget a (foldl replay_entry rs es) =
  foldl (λ o e, Some (touch o e)) (aget a rs) (filter (λ e, ke_address e = a) es).
Proof.
  revert rs. induction es as [|e es IH]; intros rs; [done|]. cbn [foldl]. rewrite IH, filter_cons.
  unfold replay_entry at 1. rewrite aget_aput. case_decide as H1; case_decide as H2; try congruence.
  subst a. done.
Qed.

Lemma replay_keys_known rs es :
  Forall (λ e, ke_address e ∈ rs.*1) es → (foldl replay_entry rs es).*1 = rs.*1.
Proof.
  revert rs. induction es as [|e es IH]; intros rs He; [done|]. apply Forall_cons in He as [He Hes].
  assert ((replay_entry rs e).*1 = rs.*1) as Hk by (unfold replay_entry; rewrite aput_keys; by case_decide).
  cbn [foldl]. rewrite IH; rewrite Hk; done.
Qed.

Lemma replay_NoDup rs es : NoDup rs.*1 → NoDup (foldl replay_entry rs es).*1.
Proof.
  revert rs. induction es as [|e es IH]; intros rs Hn; [done|]. cbn [foldl]. apply IH.
  by apply aput_keys_NoDup.
Qed.

Lemma replays_NoDup es : NoDup (replays es).*1.
Proof. apply replay_NoDup, NoDup_nil_2. Qed.

Lemma replays_snoc es e : replays (es ++ [e]) = replay_entry (replays es) e.
Proof. unfold replays. by rewrite foldl_app. Qed.

Lemma replays_known es : Forall (λ e, ke_address e ∈ (replays es).*1) es.
Proof.
  induction es as [|e es IH] using rev_ind; [constructor|]. rewrite replays_snoc. unfold replay_entry.
  apply Forall_app. rewrite Forall_singleton, aput_keys. split; case_decide as H; try done.
  - eapply Forall_impl; [exact IH|]. intros e'. rewrite elem_of_app. tauto.
  - rewrite elem_of_app, list_elem_of_singleton. by right.
Qed.

(** Replaying a log over the records of a part of it changes nothing but to add the
    rest. *)
Lemma replay_prefix es1 es2 : foldl replay_entry (replays es1) (es1 ++ es2) = replays (es1 ++ es2).
Proof.
  trans (foldl replay_entry (replays es1) es2); [|unfold replays; by rewrite foldl_app].
  rewrite foldl_app. f_equal. apply amap_eq.
  - apply replay_NoDup, replays_NoDup.
  - rewrite replay_keys_known; [done|]. apply replays_known.
  - intros a. rewrite !aget_replay. unfold replays. rewrite aget_replay. apply foldl_touch_twice.
Qed.

(** ** Texts *)

(** Times that a double holds exactly. *)
Definition fits (t : Z) : Prop := Z.abs t ≤ 9007199254740992.
Definition fits_opt (t : option Z) : Prop := match t with Some t => fits t | None => True end.
Definition entry_fits (e : KycAuditEntry) : Prop :=
  is_index (ke_address e) = false ∧ fits (ke_timestamp e) ∧ fits_opt (ke_expiresAt e).
Definition record_fits (r : KycRecord) : Prop :=
  fits (kr_createdAt r) ∧ fits (kr_updatedAt r) ∧ fits_opt (kr_expiresAt r).

Definition log_text (es : list KycAuditEntry) : string := foldr (λ e t, audit_line e +:+ t) EmptyString es.

Lemma log_text_snoc es e : log_text (es ++ [e]) = log_text es +:+ audit_line e.
Proof.
  induction es as [|e' es IH]; [cbn; by rewrite str_app_nil_r|]. cbn [log_text app foldr].
  fold (log_text (es ++ [e])) (log_text es). by rewrite IH, str_app_assoc.
Qed.

Section texts.
Context (num : string → string).

Lemma natural_nullable {A} (f : A → json) (P : A → Prop) x :
  (∀ a, P a → natural num (f a) = true) → (match x with Some a => P a | None => True end) →
  natural num (nullable f x) = true.
Proof. intros Hf Hx. destruct x; [by apply Hf|done]. Qed.

Lemma natural_opt_str x : natural num (nullable JStr x) = true.
Proof. by destruct x. Qed.

Lemma natural_opt_int x : fits_opt x → natural num (nullable jint x) = true.
Proof. apply natural_nullable. apply natural_jint. Qed.

Ltac literal :=
  apply natural_literal; [apply (bool_decide_unpack _); vm_compute; exact I|];
  repeat constructor; cbn [fst snd];
  try (apply natural_opt_str || apply natural_opt_int || apply natural_jint || reflexivity); try done.

Lemma natural_entry e : entry_fits e → natural num (encode e) = true.
Proof. intros (_ & Ht & Hx). literal. Qed.

Lemma natural_record r : record_fits r → natural num (encode r) = true.
Proof. intros (Hc & Hu & Hx). literal. Qed.

Lemma replay_log es rs : Forall entry_fits es → replayAudit num (log_text es) rs = foldl replay_entry rs es.
Proof.
  intros Hes. revert rs. induction Hes as [|e es He Hes IH]; intros rs; [done|].
  pose proof (natural_entry e He) as Hn. pose proof (natural_ok num _ Hn) as Hok.
  unfold replayAudit. cbn [log_text foldr]. fold (log_text es). unfold audit_line.
  rewrite str_app_assoc, str_app_cons, str_app_nil.
  rewrite split_on_line by (by apply print_no_newline).
  rewrite filter_cons, decide_True by (by apply print_nonblank). cbn [foldl].
  unfold replay_line at 2. rewrite JSON_parse_print by done. cbn [mbind option_bind].
  rewrite decode_encode. apply IH.
Qed.

Lemma replays_fit es :
  Forall entry_fits es → Forall (λ kr, is_index kr.1 = false ∧ record_fits kr.2) (replays es).
Proof.
  induction es as [|e es IH] using rev_ind; [constructor|]. rewrite Forall_app, Forall_singleton.
  intros [Hes (Hi & Ht & Hx)]. rewrite replays_snoc. specialize (IH Hes). apply Forall_aput; [done|].
  cbn [fst snd]. split; [done|]. destruct (aget (ke_address e) (replays es)) as [r|] eqn:E; [|done].
  apply aget_Some_elem in E. rewrite Forall_forall in IH. destruct (IH _ E) as (_ & Hc & _ & Hr).
  split; [done|]. split; [done|]. cbn. by destruct (ke_expiresAt e).
Qed.

Lemma natural_snapshot es : Forall entry_fits es → natural num (snapshot_json (replays es)) = true.
Proof.
  intros Hes. apply natural_literal; [apply (bool_decide_unpack _); vm_compute; exact I|].
  apply Forall_cons. split; [split; [done|]|by repeat (apply Forall_cons; split)].
  apply natural_literal; [rewrite <- list_fmap_compose; apply replays_NoDup|].
  apply Forall_fmap. eapply Forall_impl; [by apply replays_fit|]. intros [a r] [Ha Hr]. cbn in *.
  split; [done|]. by apply natural_record.
Qed.

Lemma records_of_snapshot rs : records_of (snapshot_json rs) = rs.
Proof.
  unfold records_of, snapshot_json. cbn [prop jget]. rewrite decide_True by done.
  induction rs as [|[a r] rs IH]; [done|]. cbn [fmap list_fmap omap list_omap fst snd]. rewrite decode_encode.
  cbn [fmap option_fmap option_map]. by rewrite IH.
Qed.
End texts.

(** ** Restarting *)

Section restart.
Context (num : string → string).

(** The files of a store whose log is whole. *)
Definition kyc_inv (st : kyc_store) : Prop :=
  ∃ es1 es2, records st = replays (es1 ++ es2) ∧ Forall entry_fits (es1 ++ es2) ∧
    audit st = Some (log_text (es1 ++ es2)) ∧ snapshot st = Some (JSON_stringify2 (snapshot_json (replays es1))).

Lemma load_recovers st : kyc_inv st → loadSnapshot num st = st.
Proof.
  intros (es1 & es2 & Hr & Hf & Ha & Hs). destruct st as [rs sn au]. cbn [records audit snapshot] in *.
  subst. unfold loadSnapshot. cbn [records audit snapshot].
  apply Forall_app in Hf as [Hf1 Hf2]. rewrite JSON_parse_indented by (by apply natural_snapshot).
  rewrite records_of_snapshot, replay_log by (by apply Forall_app). by rewrite replay_prefix.
Qed.

(** A transition whose line is appended whole, at times a double holds. *)
Definition logged (o : kyc_op) : Prop :=
  match o with
  | KTransition i id now f =>
      cut f = None ∧ is_index (tr_address i) = false ∧ fits now ∧ fits_opt (tr_expiresAt i)
  | KRestart => True
  end.

(** A transition that changes something writes down what it does. *)
Lemma applyTransition_entry st i id now f :
  (applyTransition st i id now f).1 = st ∨
  ∃ e, ke_address e = tr_address i ∧ ke_timestamp e = now ∧ ke_expiresAt e = tr_expiresAt i ∧
    (applyTransition st i id now f).1 =
    persist e f {| records := replay_entry (records st) e; snapshot := snapshot st; audit := audit st |}.
Proof.
  unfold applyTransition, get. set (existing := aget _ _).
  destruct existing as [r|] eqn:E; [destruct (_ && _); [by left|]|]; right; eexists;
    (split; [|split; [|split; [|cbn [fst]; f_equal; f_equal]]]); cbn; try done; unfold replay_entry; cbn;
    by unfold existing in E; rewrite E.
Qed.

Lemma kyc_step_inv st o : kyc_inv st → logged o → kyc_inv (kyc_step num st o).
Proof.
  intros Hst Ho. destruct o as [i id now f|]; [|cbn; by rewrite load_recovers]. cbn [kyc_step].
  destruct (applyTransition_entry st i id now f) as [->|(e & Ea & Et & Ex & ->)]; [done|].
  destruct Hst as (es1 & es2 & Hr & Hf & Ha & Hs). destruct Ho as (Hcut & Hi & Hn & Hx).
  assert (Forall entry_fits ((es1 ++ es2) ++ [e])) as Hf'.
  { apply Forall_app. split; [done|]. apply Forall_singleton. unfold entry_fits. by rewrite Ea, Et, Ex. }
  assert (replay_entry (records st) e = replays ((es1 ++ es2) ++ [e])) as Hr'
    by (by rewrite replays_snoc, Hr).
  unfold persist, appendAuditLine, writeSnapshot. rewrite Hcut. destruct (renamed f).
  - exists ((es1 ++ es2) ++ [e]), []. rewrite app_nil_r. cbn. split; [done|]. split; [done|].
    rewrite Ha. cbn. by rewrite log_text_snoc, Hr'.
  - exists es1, (es2 ++ [e]). rewrite app_assoc. cbn. rewrite Ha. cbn. by rewrite log_text_snoc.
Qed.

Lemma kyc_run_inv st ops : kyc_inv st → Forall logged ops → kyc_inv (kyc_run num st ops).
Proof.
  intros Hst Ho. revert st Hst. induction Ho as [|o ops Ho _ IH]; intros st Hst; [done|].
  apply IH. by apply kyc_step_inv.
Qed.
End restart.

(** C12: Starting from an empty directory, after any transitions and restarts, in which every
    line of the audit log was appended whole and the first snapshot was written, a
    restart gives back exactly the records that were in memory, whichever later
    snapshots were lost; and the records are what the entries of the log say. *)
Theorem kyc_restart_recovers num i id now f ops :
  Forall logged (KTransition i id now f :: ops) → renamed f = true →
  let st := kyc_run num empty_store (KTransition i id now f :: ops) in
  loadSnapshot num st = st ∧
  ∃ es, audit st = Some (log_text es) ∧ records st = replays es.
Proof.
  intros [(Hcut & Hi & Hn & Hx) Ho]%Forall_cons Hf st.
  assert (kyc_inv st) as Hst.
  { change (kyc_inv (kyc_run num (applyTransition empty_store i id now f).1 ops)).
    apply kyc_run_inv; [|done].
    destruct (applyTransition_entry empty_store i id now f) as [E|(e & Ea & Et & Ex & ->)].
    { unfold applyTransition in E. cbn in E. unfold persist, writeSnapshot in E. by rewrite Hf in E. }
    exists [e], []. unfold persist, appendAuditLine, writeSnapshot. rewrite Hcut, Hf. cbn [records snapshot audit app].
    split; [done|]. split; [apply Forall_singleton; unfold entry_fits; by rewrite Ea, Et, Ex|].
    split; [|done]. unfold log_text. cbn [foldr]. by rewrite str_app_nil_r. }
  split; [by apply load_recovers|]. destruct Hst as (es1 & es2 & Hr & _ & Ha & _). eauto.
Qed.

Definition sample_transition (a : string) (s : KycStatus) (x : option Z) : Transition :=
  {| tr_address := a; tr_toStatus := s; tr_source := FromProvider; tr_actor := Some "ops"; tr_reason := None;
     tr_providerReference := Some "ref"; tr_expiresAt := x |}.
Definition whole (r : bool) : persist_fate := {| cut := None; renamed := r |}.

Lemma kyc_restart_recovers_witness :
  let st := kyc_run id empty_store
    [KTransition (sample_transition "GA" VERIFIED (Some 2000)) "1" 1000 (whole true);
     KTransition (sample_transition "GB" PENDING None) "2" 1001 (whole false); KRestart;
     KTransition (sample_transition "GA" REJECTED None) "3" 1002 (whole false)] in
  kr_status <$> get (loadSnapshot id st) "GA" = Some REJECTED ∧ loadSnapshot id st = st.
Proof.
  intros st.
  assert (loadSnapshot id st = st) as E.
  { apply (kyc_restart_recovers id (sample_transition "GA" VERIFIED (Some 2000)) "1" 1000 (whole true));
      [|done]. repeat constructor; vm_compute; congruence. }
  split; [|exact E]. rewrite E. vm_compute. reflexivity.
Defined.

(** The snapshot has the rejection, the log does not: the restart replays the older
    entries over it and the investor is verified again. *)
Lemma lost_append_reverts :
  let st := kyc_run id empty_store
    [KTransition (sample_transition "GA" VERIFIED (Some 2000)) "1" 1000 (whole true);
     KTransition (sample_transition "GA" REJECTED None) "2" 1001 {| cut := Some 0%nat; renamed := true |}] in
  kr_status <$> get st "GA" = Some REJECTED ∧ kr_status <$> get (loadSnapshot id st) "GA" = Some VERIFIED.
Proof. vm_compute. done. Qed.

(** A process stops while it appends a line; the next entry is appended to the torn
    line, cannot be parsed, and its transition is taken back by the next restart. *)
Lemma torn_append_reverts_next :
  let st := kyc_run id empty_store
    [KTransition (sample_transition "GA" VERIFIED (Some 2000)) "1" 1000 (whole true);
     KTransition (sample_transition "GB" PENDING None) "2" 1001 {| cut := Some 9%nat; renamed := false |}; KRestart;
     KTransition (sample_transition "GA" REJECTED None) "3" 1002 (whole true)] in
  kr_status <$> get st "GA" = Some REJECTED ∧ kr_status <$> get (loadSnapshot id st) "GA" = Some VERIFIED.
Proof. vm_compute. done. Qed.

(** Without a snapshot file the log is not replayed. *)
Lemma missing_snapshot_forgets :
  let st := kyc_run id empty_store
    [KTransition (sample_transition "GA" REJECTED None) "1" 1000 (whole false)] in
  kr_status <$> get st "GA" = Some REJECTED ∧ audit st ≠ None ∧ get (loadSnapshot id st) "GA" = None.
Proof. vm_compute. split; [done|]. split; [discriminate|done]. Qed.

(** ** The service *)

Section service.
Context (num : string → string).

Record kyc_service := { sv_store : kyc_store; sv_cache : gmap string string }.

(** Clock readings, the random id, the fate of the files, and which of the commands
    sent to Redis work, in order. *)
Record kyc_env := { ev_read : Z; ev_now : Z; ev_id : string; ev_fate : persist_fate; ev_redis : list bool }.

Definition CACHE_KEY (address : string) : string := "kyc:" +:+ address.

(** The commands of [RedisService] degrade: one that does not work changes nothing and
    reads nothing. *)
Definition works (fs : list bool) : bool * list bool :=
  match fs with [] => (true, []) | b :: fs => (b, fs) end.

Definition redis_set (k v : string) (fs : list bool) (c : gmap string string) : gmap string string * list bool :=
  let '(b, fs) := works fs in (if b then <[k := v]> c else c, fs).
Definition redis_del (k : string) (fs : list bool) (c : gmap string string) : gmap string string * list bool :=
  let '(b, fs) := works fs in (if b then delete k c else c, fs).
Definition redis_get (k : string) (fs : list bool) (c : gmap string string) : option string * list bool :=
  let '(b, fs) := works fs in (if b then c !! k else None, fs).

Definition writeThroughCache (r : KycRecord) (fs : list bool) (c : gmap string string) :
    gmap string string * list bool :=
  redis_set (CACHE_KEY (kr_address r)) (JSON_stringify (encode r)) fs c.

Definition invalidateCache (address : string) (fs : list bool) (c : gmap string string) :
    gmap string string * list bool :=
  redis_del (CACHE_KEY address) fs c.

Definition transitionStatus (sv : kyc_service) (i : Transition) (e : kyc_env) : kyc_service * KycRecord :=
  let '(st, (r, entry, isNew)) := applyTransition (sv_store sv) i (ev_id e) (ev_now e) (ev_fate e) in
  match entry with
  | Some _ =>
      let '(c, fs) := invalidateCache (tr_address i) (ev_redis e) (sv_cache sv) in
      let '(c, _) := writeThroughCache r fs c in
      ({| sv_store := st; sv_cache := c |}, r)
  | None => ({| sv_store := st; sv_cache := sv_cache sv |}, r)
  end.

Definition isExpired (now : Z) (r : KycRecord) : bool :=
  match kr_expiresAt r with Some t => t <=? now | None => false end.

Definition ELIGIBLE_ELIGIBILITY_SET : list KycStatus := [VERIFIED; ACCREDITED].

Definition resolveEffectiveStatus (now : Z) (r : KycRecord) : KycStatus :=
  if isExpired now r && bool_decide (kr_status r ∈ ELIGIBLE_ELIGIBILITY_SET) then EXPIRED else kr_status r.

Definition first_lookup (address : string) : Transition :=
  {| tr_address := address; tr_toStatus := PENDING; tr_source := FromSystem; tr_actor := None;
     tr_reason := Some "Initial KYC record created on first lookup"; tr_providerReference := None;
     tr_expiresAt := None |}.

Definition with_redis (e : kyc_env) (fs : list bool) : kyc_env :=
  {| ev_read := ev_read e; ev_now := ev_now e; ev_id := ev_id e; ev_fate := ev_fate e; ev_redis := fs |}.

Definition getRecord (sv : kyc_service) (address : string) (e : kyc_env) : kyc_service * KycRecord :=
  let '(hit, fs) := redis_get (CACHE_KEY address) (ev_redis e) (sv_cache sv) in
  let cached := (* the text, when there is one, and what it parses to *)
    match hit with
    | Some EmptyString | None => None
    | Some text => Some (JSON_parse num text ≫= decode)
    end in
  match cached with
  | Some (Some r) => (sv, r)
  | _ =>
      let '(c, fs) := match cached with
                      | Some None => invalidateCache address fs (sv_cache sv)
                      | _ => (sv_cache sv, fs)
                      end in
      match get (sv_store sv) address with
      | Some r =>
          let '(c, _) := writeThroughCache r fs c in
          ({| sv_store := sv_store sv; sv_cache := c |}, r)
      | None =>
          transitionStatus {| sv_store := sv_store sv; sv_cache := c |} (first_lookup address) (with_redis e fs)
      end
  end.

Definition getStatus (sv : kyc_service) (address : string) (e : kyc_env) : kyc_service * KycStatus :=
  let '(sv, r) := getRecord sv address e in (sv, resolveEffectiveStatus (ev_read e) r).

(** The status an expired verification is moved to, with its own environment. *)
Definition getFullStatus (sv : kyc_service) (address : string) (iso : Z → string) (e e' : kyc_env) :
    kyc_service * KycRecord :=
  let '(sv, r) := getRecord sv address e in
  if bool_decide (resolveEffectiveStatus (ev_read e) r = kr_status r) then (sv, r)
  else
    transitionStatus sv
      {| tr_address := address; tr_toStatus := EXPIRED; tr_source := FromSystem; tr_actor := None;
         tr_reason := Some ("Verification expired at " +:+ iso (default 0 (kr_expiresAt r)));
         tr_providerReference := None; tr_expiresAt := kr_expiresAt r |} e'.

Definition STATUS_ORDER : list KycStatus := [NONE; PENDING; REJECTED; EXPIRED; VERIFIED; ACCREDITED].
Definition status_rank (s : KycStatus) : Z :=
  match list_find (s =.) STATUS_ORDER with Some (i, _) => Z.of_nat i | None => -1 end.
Definition compareStatus (actual required : KycStatus) : bool := status_rank required <=? status_rank actual.

Definition isEligible (sv : kyc_service) (address : string) (required : KycStatus) (e : kyc_env) :
    kyc_service * bool :=
  let '(sv, s) := getStatus sv address e in (sv, compareStatus s required).

Definition isEligibleRecord (sv : kyc_service) (address : string) (required : KycStatus) (iso : Z → string)
    (e e' : kyc_env) : kyc_service * (bool * KycRecord) :=
  let '(sv, r) := getFullStatus sv address iso e e' in (sv, (compareStatus (kr_status r) required, r)).

Definition reject (sv : kyc_service) (address reason : string) (actor providerReference : option string)
    (e : kyc_env) : kyc_service * KycRecord :=
  transitionStatus sv
    {| tr_address := address; tr_toStatus := REJECTED; tr_source := FromAdmin; tr_actor := actor;
       tr_reason := Some reason; tr_providerReference := providerReference; tr_expiresAt := None |} e.

Definition verify (sv : kyc_service) (address : string) (actor reason providerReference : option string)
    (expiresAt : option Z) (accredited : bool) (e : kyc_env) : kyc_service * KycRecord :=
  transitionStatus sv
    {| tr_address := address; tr_toStatus := if accredited then ACCREDITED else VERIFIED;
       tr_source := FromProvider; tr_actor := actor;
       tr_reason := orelse reason (Some "KYC verification completed");
       tr_providerReference := providerReference; tr_expiresAt := expiresAt |} e.

Definition updateStatus (sv : kyc_service) (address : string) (s : KycStatus) (e : kyc_env) : kyc_service :=
  (transitionStatus sv
     {| tr_address := address; tr_toStatus := s; tr_source := FromAdmin; tr_actor := None; tr_reason := None;
        tr_providerReference := None; tr_expiresAt := None |} e).1.

Definition listAll (now : Z) (sv : kyc_service) : list KycRecord :=
  (λ kr, let r := kr.2 in
         {| kr_address := kr_address r; kr_status := resolveEffectiveStatus now r; kr_source := kr_source r;
            kr_actor := kr_actor r; kr_reason := kr_reason r; kr_providerReference := kr_providerReference r;
            kr_createdAt := kr_createdAt r; kr_updatedAt := kr_updatedAt r; kr_expiresAt := kr_expiresAt r |})
  <$> records (sv_store sv).
End service.

(** ** Eligibility *)

Section eligibility.
Context (num : string → string).

(** The requests that reach the service, and a cache entry that lapses. *)
Inductive kyc_request :=
| RTransition (i : Transition) (e : kyc_env)
| RLookup (address : string) (e : kyc_env)
| RFull (address : string) (iso : Z → string) (e e' : kyc_env)
| RLapse (address : string).

Definition serve (sv : kyc_service) (q : kyc_request) : kyc_service :=
  match q with
  | RTransition i e => (transitionStatus sv i e).1
  | RLookup a e => (getRecord num sv a e).1
  | RFull a iso e e' => (getFullStatus num sv a iso e e').1
  | RLapse a => {| sv_store := sv_store sv; sv_cache := delete (CACHE_KEY a) (sv_cache sv) |}
  end.

Definition calm (e : kyc_env) : Prop := Forall (λ b, b = true) (ev_redis e) ∧ fits (ev_now e).
Definition request_ok (q : kyc_request) : Prop :=
  match q with
  | RTransition i e => calm e ∧ fits_opt (tr_expiresAt i)
  | RLookup _ e => calm e
  | RFull _ _ e e' => calm e ∧ calm e'
  | RLapse _ => True
  end.

(** What the cache holds is the text of the stored record. *)
Definition sv_ok (sv : kyc_service) : Prop :=
  (∀ a r, get (sv_store sv) a = Some r → kr_address r = a ∧ record_fits r) ∧
  (∀ a text, sv_cache sv !! CACHE_KEY a = Some text →
     ∃ r, get (sv_store sv) a = Some r ∧ text = JSON_stringify (encode r)).

Lemma CACHE_KEY_inj a b : CACHE_KEY a = CACHE_KEY b → a = b.
Proof. apply str_app_inj. Qed.

Lemma works_calm fs : Forall (λ b, b = true) fs → works fs = (true, tail fs) ∧ Forall (λ b, b = true) (tail fs).
Proof. by destruct 1 as [|b fs ->]. Qed.

Lemma get_persist e f st a : get (persist e f st) a = get st a.
Proof. unfold persist, writeSnapshot. by destruct (renamed f). Qed.

Lemma applyTransition_get st i id now f a :
  get (applyTransition st i id now f).1 a =
  if decide (a = tr_address i) then Some (applyTransition st i id now f).2.1.1 else get st a.
Proof.
  unfold applyTransition. destruct (get st (tr_address i)) as [r|] eqn:E; [destruct (_ && _)|];
    cbn [fst snd]; rewrite ?get_persist; unfold get in *; cbn [records]; rewrite ?aget_aput; try done.
  case_decide; by subst.
Qed.

Lemma applyTransition_record st i id now f :
  (∀ r, get st (tr_address i) = Some r → kr_address r = tr_address i ∧ record_fits r) →
  fits now → fits_opt (tr_expiresAt i) →
  let r := (applyTransition st i id now f).2.1.1 in kr_address r = tr_address i ∧ record_fits r.
Proof.
  intros Hst Hn Hx. unfold applyTransition. destruct (get st (tr_address i)) as [r|] eqn:E.
  - destruct (Hst r eq_refl) as (Ha & Hc & Hu & Hr). destruct (_ && _); cbn; [done|].
    split; [done|]. split; [done|]. split; [done|]. cbn. by destruct (tr_expiresAt i).
  - cbn. done.
Qed.

Lemma applyTransition_silent st i id now f :
  (applyTransition st i id now f).2.1.2 = None → (applyTransition st i id now f).1 = st.
Proof.
  unfold applyTransition. by destruct (get st (tr_address i)) as [r|]; [destruct (_ && _)|].
Qed.

Lemma transitionStatus_ok sv i e :
  sv_ok sv → calm e → fits_opt (tr_expiresAt i) →
  sv_ok (transitionStatus sv i e).1 ∧
  get (sv_store (transitionStatus sv i e).1) (tr_address i) = Some (transitionStatus sv i e).2.
Proof.
  intros [Hr Hc] [Hw Hn] Hx. unfold transitionStatus.
  pose proof (applyTransition_get (sv_store sv) i (ev_id e) (ev_now e) (ev_fate e)) as Hg.
  pose proof (applyTransition_silent (sv_store sv) i (ev_id e) (ev_now e) (ev_fate e)) as Hs.
  destruct (applyTransition_record (sv_store sv) i (ev_id e) (ev_now e) (ev_fate e) (Hr _) Hn Hx) as [Ha Hf].
  destruct (applyTransition _ _ _ _ _) as [st [[r en] nw]]. cbn [fst snd] in *.
  assert (∀ a r0, get st a = Some r0 → kr_address r0 = a ∧ record_fits r0) as Hr'.
  { intros a r0. rewrite Hg. case_decide; [intros [= <-]; by subst|apply Hr]. }
  destruct en as [en|].
  - unfold invalidateCache, writeThroughCache, redis_del, redis_set.
    destruct (works_calm _ Hw) as [-> Hw1]. destruct (works_calm _ Hw1) as [-> _]. rewrite Ha.
    cbn. split; [split; [exact Hr'|]|rewrite Hg; by rewrite decide_True].
    intros a text. cbn. rewrite insert_delete_eq, Hg.
    destruct (decide (a = tr_address i)) as [->|Hne].
    + rewrite lookup_insert_eq. intros [= <-]. eauto.
    + rewrite lookup_insert_ne by (intros ?%CACHE_KEY_inj; congruence). apply Hc.
  - cbn. rewrite (Hs eq_refl) in *. split; [by split|]. rewrite Hg. by rewrite decide_True.
Qed.

(** A lookup answers with the stored record, which it creates when there is none. *)
Lemma getRecord_ok sv a e :
  sv_ok sv → calm e →
  sv_ok (getRecord num sv a e).1 ∧
  get (sv_store (getRecord num sv a e).1) a = Some (getRecord num sv a e).2 ∧
  match get (sv_store sv) a with
  | Some r => (getRecord num sv a e).2 = r ∧ sv_store (getRecord num sv a e).1 = sv_store sv
  | None => kr_status (getRecord num sv a e).2 = PENDING ∧ kr_expiresAt (getRecord num sv a e).2 = None
  end.
Proof.
  intros [Hr Hc] [Hw Hn]. unfold getRecord, redis_get. destruct (works_calm _ Hw) as [-> Hw1].
  destruct (sv_cache sv !! CACHE_KEY a) as [text|] eqn:E.
  - destruct (Hc a text E) as (r & Hg & ->). destruct (Hr a r Hg) as [_ Hf].
    rewrite JSON_parse_print by (by apply natural_record). cbn [mbind option_bind]. rewrite decode_encode.
    rewrite Hg. assert (∃ c s, JSON_stringify (encode r) = String c s) as (c & s & ->) by (eexists _, _; reflexivity).
    cbn. split; [by split|]. split; done.
  - destruct (get (sv_store sv) a) as [r|] eqn:Hg; cbn.
    + unfold writeThroughCache, redis_set. destruct (works_calm _ Hw1) as [-> _]. cbn.
      destruct (Hr a r Hg) as [Ha _]. split; [|done]. split; [exact Hr|]. cbn. intros b text.
      destruct (decide (CACHE_KEY b = CACHE_KEY (kr_address r))) as [Eb|].
      * apply CACHE_KEY_inj in Eb as ->. rewrite lookup_insert_eq. intros [= <-].
        exists r. split; [by rewrite Ha|done].
      * rewrite lookup_insert_ne by done. apply Hc.
    + destruct (transitionStatus_ok {| sv_store := sv_store sv; sv_cache := sv_cache sv |} (first_lookup a)
        (with_redis e (tail (ev_redis e)))) as [H1 H2]; [by split|by split|done|].
      split; [done|]. split; [exact H2|]. 
      clear - Hg. unfold transitionStatus, applyTransition. cbn [sv_store tr_address first_lookup].
      rewrite Hg. cbn. by destruct (invalidateCache _ _ _) as [? ?], (writeThroughCache _ _ _).
Qed.

Lemma serve_ok sv q : sv_ok sv → request_ok q → sv_ok (serve sv q).
Proof.
  intros Hsv Hq. destruct q as [i e|a e|a iso e e'|a]; cbn in *.
  - destruct Hq. by apply transitionStatus_ok.
  - by apply getRecord_ok.
  - destruct Hq as [He He']. unfold getFullStatus. destruct (getRecord_ok sv a e Hsv He) as (H1 & H2 & _).
    destruct (getRecord num sv a e) as [sv1 r]. cbn in *. case_bool_decide; [done|].
    apply transitionStatus_ok; [done..|]. cbn. by apply (proj1 H1) in H2 as (_ & _ & _ & ?).
  - destruct Hsv as [Hr Hc]. split; [exact Hr|]. cbn. intros b text [_ H]%lookup_delete_Some. by apply Hc.
Qed.

Lemma serve_all_ok qs sv : sv_ok sv → Forall request_ok qs → sv_ok (foldl serve sv qs).
Proof.
  intros Hsv Hqs. revert sv Hsv. induction Hqs as [|q qs Hq _ IH]; intros sv Hsv; [done|].
  apply IH. by apply serve_ok.
Qed.
End eligibility.

Definition new_service : kyc_service := {| sv_store := empty_store; sv_cache := ∅ |}.

Lemma new_service_ok : sv_ok new_service.
Proof. split; [done|]. intros a text. cbn. by rewrite lookup_empty. Qed.

(** After any transitions and lookups, with cache entries lapsing at any time and every
    Redis command working, an investor counts as eligible exactly when the record in
    the store does: an address without a record is pending, and a verified or accredited
    one whose expiry has passed is expired, whatever the cache says. *)
Theorem eligibility_tracks_store num qs a required e :
  Forall request_ok qs → calm e →
  let sv := foldl (serve num) new_service qs in
  (isEligible num sv a required e).2 =
    (status_rank required <=?
     status_rank (match get (sv_store sv) a with
                  | Some r => resolveEffectiveStatus (ev_read e) r
                  | None => PENDING
                  end)) ∧
  ((isEligible num sv a required e).2 = true → required ∈ [VERIFIED; ACCREDITED] →
   ∃ r, get (sv_store sv) a = Some r ∧ kr_status r ∈ [VERIFIED; ACCREDITED] ∧
        (∀ t, kr_expiresAt r = Some t → ev_read e < t)).
Proof.
  intros Hqs He sv. pose proof (serve_all_ok num qs new_service new_service_ok Hqs) as Hsv. fold sv in Hsv.
  destruct (getRecord_ok num sv a e Hsv He) as (_ & _ & Hm).
  assert ((isEligible num sv a required e).2 =
    (status_rank required <=?
     status_rank (match get (sv_store sv) a with
                  | Some r => resolveEffectiveStatus (ev_read e) r
                  | None => PENDING
                  end))) as E.
  { unfold isEligible, getStatus. destruct (getRecord num sv a e) as [sv1 r]. cbn in *. unfold compareStatus.
    destruct (get (sv_store sv) a) as [r0|]; [by destruct Hm as [-> _]|].
    destruct Hm as [H1 H2]. unfold resolveEffectiveStatus, isExpired. by rewrite H1, H2. }
  split; [done|]. rewrite E. intros Hle Hreq.
  destruct (get (sv_store sv) a) as [r|];
    [|apply list_elem_of_In in Hreq as [<-|[<-|[]]]; done].
  exists r. split; [done|]. unfold resolveEffectiveStatus, isExpired in Hle.
  assert (∀ s, s ∉ [VERIFIED; ACCREDITED] → status_rank required <=? status_rank s = false) as Hlow.
  { intros s Hs. apply list_elem_of_In in Hreq as [<-|[<-|[]]]; destruct s; try done; destruct Hs;
      apply (bool_decide_unpack _); vm_compute; exact I. }
  destruct (bool_decide_reflect (kr_status r ∈ ELIGIBLE_ELIGIBILITY_SET)) as [Hin|Hout].
  - split; [done|]. intros t Ht. rewrite Ht in Hle. destruct (Z.leb_spec t (ev_read e)); [|done].
    cbn [andb] in Hle. rewrite Hlow in Hle; [done|]. apply (bool_decide_unpack (_ ∉ _)). vm_compute. exact I.
  - rewrite andb_false_r in Hle. by rewrite Hlow in Hle.
Qed.

Definition sample_env (now : Z) : kyc_env :=
  {| ev_read := now; ev_now := now; ev_id := "id"; ev_fate := whole true; ev_redis := [] |}.

Lemma eligibility_tracks_store_witness :
  let sv := foldl (serve id) new_service
    [RTransition (sample_transition "GA" VERIFIED (Some 2000)) (sample_env 1000); RLookup "GA" (sample_env 1001)] in
  (isEligible id sv "GA" VERIFIED (sample_env 1500)).2 = true ∧
  (isEligible id sv "GA" VERIFIED (sample_env 2000)).2 = false.
Proof.
  intros sv. unfold sv. split.
  - etrans; [apply eligibility_tracks_store; [repeat constructor; vm_compute; congruence|by repeat constructor]|].
    vm_compute. reflexivity.
  - vm_compute. reflexivity.
Defined.
