(* ===== verification/Backfill.v ===== *)
(** * Backfills that survive crashes

    Models [api/src/backfill/backfill-runner.ts], [backfill-state.store.ts] and the
    types of [backfill.interface.ts]: a job's records are walked in key order and
    changed in batches; a checkpoint after every batch lets a run be resumed, and a
    journal of before and after images, written ahead of every batch, lets it be
    rolled back.

    The files are the state [disk].  An operation is a computation [io] whose every
    write meets a fate: it works, throws before or after taking effect, or the
    process stops in it.  Checkpoints and records are replaced by renaming a file, so
    such a write happens or does not; a journal is appended to, so the process may
    stop after any number of characters.  Reads do not fail.  The checkpoint file
    holds the checkpoint itself, or something that is not JSON; the journal is kept as
    text.  Records are JSON.  The messages that name files or the holder of a lock are
    shortened.

    A job is the class [BackfillJob]; what [docs/BACKFILL.md] requires of a job is the
    class [BackfillJobLaws].  A limit is a natural number, and the batch size of a
    rollback is positive, as the command line makes sure.  Clock readings and random
    digits are arguments. *)
From S2P Require Import Prelude JsDate Json JsonParse Ndjson.

(** ** Data *)

Record BackfillChange := { ch_key : string; before : json; after : json }.

Inductive BackfillDecision := Update (after : json) (changes : list string) | Noop | Skip (reason : string).

Record BackfillRestoreResult := { restored : list string; conflicts : list (string * string) }.

Record BackfillDiffEntry := { df_key : string; df_changes : list string }.
Record BackfillSkippedEntry := { sk_key : string; sk_reason : string }.
Record BackfillFailedEntry := { fl_key : string; fl_error : string; fl_attempts : Z }.

#[export] Instance BackfillFailedEntry_eq_dec : EqDecision BackfillFailedEntry.
Proof. solve_decision. Defined.

Inductive BackfillRunStatus := running | interrupted | aborted | completed | rolled_back.
#[export] Instance BackfillRunStatus_eq_dec : EqDecision BackfillRunStatus.
Proof. solve_decision. Defined.

Definition status_text (s : BackfillRunStatus) : string :=
  match s with
  | running => "running" | interrupted => "interrupted" | aborted => "aborted"
  | completed => "completed" | rolled_back => "rolled-back"
  end.

Record BackfillCounters := { scanned : Z; updated : Z; unchanged : Z; skipped_n : Z; failed_n : Z }.

Definition emptyCounters : BackfillCounters :=
  {| scanned := 0; updated := 0; unchanged := 0; skipped_n := 0; failed_n := 0 |}.

Record BackfillCheckpoint := {
  cp_jobId : string;
  cp_jobVersion : Z;
  cp_fingerprint : string;
  cp_runId : string;
  cp_status : BackfillRunStatus;
  cp_cursor : option string;
  cp_counters : BackfillCounters;
  cp_skipped : list BackfillSkippedEntry;
  cp_failed : list BackfillFailedEntry;
  cp_retryOf : option string;
  cp_keySet : option (list string);
  cp_startedAt : string;
  cp_updatedAt : string;
  cp_error : option string;
}.

Record BackfillOptions := {
  batchSize : option Z;
  limit : option nat;
  maxFailures : option Z;
  maxCommitAttempts : option Z;
  resume : bool;
  restart : bool;
  retryFailed : bool;
  confirmPlan : option string;
  shouldStop : nat → bool;  (* polled before each batch *)
  forceUnlock : bool;
}.

Record BackfillReport := {
  rp_jobId : string;
  rp_jobVersion : Z;
  rp_mode : string;
  rp_runId : option string;
  rp_status : string;
  rp_resumedFrom : option string;
  rp_counters : BackfillCounters;
  rp_diff : list BackfillDiffEntry;
  rp_skipped : list BackfillSkippedEntry;
  rp_failed : list BackfillFailedEntry;
  rp_planDigest : string;
  rp_rollback : string;
  rp_error : option string;
}.

Record LockInfo := { pid : Z; host : string; lk_startedAt : string }.

Definition DEFAULT_BATCH_SIZE : Z := 50.
Definition DEFAULT_MAX_FAILURES : Z := 25.
Definition DEFAULT_MAX_COMMIT_ATTEMPTS : Z := 3.

(** ** Jobs

    [D] is what a job keeps on disk, [H] what an opened job keeps in memory. *)
Class BackfillJob (D H : Type) := {
  job_id : string;
  job_version : Z;
  job_rollback : string;
  open_ : D → result string H;
  listKeys : H → list string;
  load : H → string → result string (option json);
  plan : string → json → result string BackfillDecision;
  commit : D → H → list BackfillChange → result string (D * H);
  restore : D → H → list BackfillChange → result string (D * BackfillRestoreResult);
}.

(** ** Files *)

Inductive cp_file := NoFile | Garbled | Holds (c : BackfillCheckpoint).

Inductive fate :=
| Works
| Throws (done : bool) (e : string)  (* after or before taking effect *)
| Stops (n : nat).                   (* the process dies, having written [n] characters *)

Section runner.
Context {D H : Type} `{BackfillJob D H}.
Context (num : string → string) (sha256 : string → string).

Record disk := {
  dk_store : D;
  dk_checkpoint : cp_file;
  dk_journals : gmap string string;
  dk_lock : option (option LockInfo);  (* [Some None]: unreadable *)
}.

Definition io (A : Type) : Type := disk → list fate → disk * list fate * exit A.

#[export] Instance io_ret : MRet io := λ A a d fs, (d, fs, Returned a).
#[export] Instance io_bind : MBind io := λ A B f m d fs,
  match m d fs with
  | (d, fs, Returned a) => f a d fs
  | (d, fs, Threw e) => (d, fs, Threw e)
  | (d, fs, Died) => (d, fs, Died)
  end.

Definition throw {A} (e : string) : io A := λ d fs, (d, fs, Threw e).
Definition lift {A} (r : result string A) : io A := match r with Ok a => mret a | Err e => throw e end.
Definition get : io disk := λ d fs, (d, fs, Returned d).

(** A caught exception is a value. *)
Definition catch {A} (m : io A) : io (result string A) := λ d fs,
  match m d fs with
  | (d, fs, Returned a) => (d, fs, Returned (Ok a))
  | (d, fs, Threw e) => (d, fs, Returned (Err e))
  | (d, fs, Died) => (d, fs, Died)
  end.

(** A write: [p] is what it does, [midway n] the disk left when the process stops
    after [n] characters. *)
Definition act {A} (p : disk → result string (disk * A)) (midway : disk → nat → disk) : io A := λ d fs,
  let work fs := match p d with Ok (d', a) => (d', fs, Returned a) | Err e => (d, fs, Threw e) end in
  match fs with
  | [] => work []
  | Works :: fs => work fs
  | Throws done e :: fs => (match p d with Ok (d', _) => if done : bool then d' else d | Err _ => d end, fs, Threw e)
  | Stops n :: fs => (midway d n, fs, Died)
  end.

(** A write that replaces a file. *)
Definition atomic {A} (p : disk → result string (disk * A)) : io A :=
  act p (λ d n, match n, p d with S _, Ok (d', _) => d' | _, _ => d end).

Definition with_store (x : D) (d : disk) : disk :=
  {| dk_store := x; dk_checkpoint := dk_checkpoint d; dk_journals := dk_journals d; dk_lock := dk_lock d |}.
Definition with_checkpoint (c : cp_file) (d : disk) : disk :=
  {| dk_store := dk_store d; dk_checkpoint := c; dk_journals := dk_journals d; dk_lock := dk_lock d |}.
Definition with_journal (runId text : string) (d : disk) : disk :=
  {| dk_store := dk_store d; dk_checkpoint := dk_checkpoint d;
     dk_journals := <[runId := default EmptyString (dk_journals d !! runId) +:+ text]> (dk_journals d);
     dk_lock := dk_lock d |}.
Definition with_lock (l : option (option LockInfo)) (d : disk) : disk :=
  {| dk_store := dk_store d; dk_checkpoint := dk_checkpoint d; dk_journals := dk_journals d; dk_lock := l |}.

Definition readCheckpoint : io (option BackfillCheckpoint) :=
  d ← get;
  match dk_checkpoint d with
  | NoFile => mret None
  | Holds c => mret (Some c)
  | Garbled => throw "Checkpoint is not valid JSON."
  end.

Definition writeCheckpoint (c : BackfillCheckpoint) : io unit :=
  atomic (λ d, Ok (with_checkpoint (Holds c) d, tt)).

Definition entry_json (runId : string) (batch : Z) (at_ : string) (c : BackfillChange) : json :=
  JObj [("runId", JStr runId); ("batch", jint batch); ("key", JStr (ch_key c)); ("before", before c);
        ("after", after c); ("at", JStr at_)].

(** Each entry on a line of its own. *)
Definition lines (vs : list json) : string :=
  foldr (λ v r, JSON_stringify v +:+ String newline r) EmptyString vs.

Definition appendJournal (runId : string) (batch : Z) (at_ : string) (cs : list BackfillChange) : io unit :=
  let text := lines (entry_json runId batch at_ <$> cs) in
  act (λ d, Ok (with_journal runId text d, tt)) (λ d n, with_journal runId (String.substring 0 n text) d).

Fixpoint parse_journal (ls : list string) : result string (list json) :=
  match ls with
  | [] => Ok []
  | l :: ls =>
      match JSON_parse num l with
      | Some v => vs ← parse_journal ls; Ok (v :: vs)
      | None => if bool_decide (ls = []) then Ok [] else Err "SyntaxError"
      end
  end.

Definition readJournal (runId : string) : io (list json) :=
  d ← get;
  match dk_journals d !! runId with
  | None => throw ("No journal for run " +:+ runId +:+ ".")
  | Some text => lift (parse_journal (filter (λ l, trim l ≠ EmptyString) (split_on newline text)))
  end.

Definition acquireLock (forceUnlock : bool) (me : LockInfo) : io unit :=
  atomic (λ d,
    match dk_lock d with
    | Some _ => if forceUnlock then Ok (with_lock (Some (Some me)) d, tt) else Err ("Job " +:+ job_id +:+ " is locked.")
    | None => Ok (with_lock (Some (Some me)) d, tt)
    end).

(** The function [acquireLock] returns. *)
Definition release (me : LockInfo) : io unit :=
  d ← get;
  match dk_lock d with
  | Some (Some l) =>
      if bool_decide (pid l = pid me ∧ host l = host me) then atomic (λ d, Ok (with_lock None d, tt)) else mret tt
  | _ => mret tt
  end.

(** [try { m } finally { release() }]. *)
Definition locked {A} (me : LockInfo) (m : io A) : io A :=
  r ← catch m; _ ← release me; lift r.

(** ** Planning a batch *)

Definition fingerprint : string :=
  String.substring 0 16 (sha256 (job_id +:+ "@" +:+ Z_to_string job_version)).

Definition diff_json (l : list BackfillDiffEntry) : json :=
  JArr ((λ e, JObj [("key", JStr (df_key e)); ("changes", JArr (JStr <$> df_changes e))]) <$> l).

Definition planDigest (l : list BackfillDiffEntry) : string := sha256 (JSON_stringify (diff_json l)).

Record BatchOutcome := {
  oc_counters : BackfillCounters;
  oc_changes : list BackfillChange;
  oc_diff : list BackfillDiffEntry;
  oc_skipped : list BackfillSkippedEntry;
  oc_failed : list BackfillFailedEntry;
}.

Definition no_outcome : BatchOutcome :=
  {| oc_counters := emptyCounters; oc_changes := []; oc_diff := []; oc_skipped := []; oc_failed := [] |}.

Definition addCounters (a b : BackfillCounters) : BackfillCounters :=
  {| scanned := scanned a + scanned b; updated := updated a + updated b; unchanged := unchanged a + unchanged b;
     skipped_n := skipped_n a + skipped_n b; failed_n := failed_n a + failed_n b |}.

(** One key's contribution. *)
Definition outcome_of (h : H) (key : string) : BatchOutcome :=
  let one u n s f := {| scanned := 1; updated := u; unchanged := n; skipped_n := s; failed_n := f |} in
  let failed e := {| oc_counters := one 0 0 0 1; oc_changes := []; oc_diff := []; oc_skipped := [];
                     oc_failed := [{| fl_key := key; fl_error := e; fl_attempts := 1 |}] |} in
  let skipped why := {| oc_counters := one 0 0 1 0; oc_changes := []; oc_diff := [];
                        oc_skipped := [{| sk_key := key; sk_reason := why |}]; oc_failed := [] |} in
  match load h key with
  | Err e => failed ("load failed: " +:+ e)
  | Ok None => skipped "record no longer exists"
  | Ok (Some record) =>
      match plan key record with
      | Ok (Update after changes) =>
          {| oc_counters := one 1 0 0 0; oc_changes := [{| ch_key := key; before := record; after := after |}];
             oc_diff := [{| df_key := key; df_changes := changes |}]; oc_skipped := []; oc_failed := [] |}
      | Ok (Skip why) => skipped why
      | Ok Noop => {| oc_counters := one 0 1 0 0; oc_changes := []; oc_diff := []; oc_skipped := []; oc_failed := [] |}
      | Err e => failed e
      end
  end.

Definition join_outcome (a b : BatchOutcome) : BatchOutcome :=
  {| oc_counters := addCounters (oc_counters a) (oc_counters b); oc_changes := oc_changes a ++ oc_changes b;
     oc_diff := oc_diff a ++ oc_diff b; oc_skipped := oc_skipped a ++ oc_skipped b;
     oc_failed := oc_failed a ++ oc_failed b |}.

Definition planBatch (h : H) (keys : list string) : BatchOutcome :=
  foldl (λ o key, join_outcome o (outcome_of h key)) no_outcome keys.

(** [n]: attempts left. *)
Fixpoint commitWithRetry (n : nat) (h : H) (cs : list BackfillChange) (last : string) : io (H + string) :=
  match n with
  | O => mret (inr last)
  | S n =>
      r ← catch (atomic (λ d, '(x, h) ← commit (dk_store d) h cs; Ok (with_store x d, h)));
      match r with
      | Ok h => mret (inl h)
      | Err e => commitWithRetry n h cs e
      end
  end.

Definition mergeSkipped (into add : list BackfillSkippedEntry) : list BackfillSkippedEntry :=
  foldl (λ into e,
    match list_find (λ x, sk_key x = sk_key e) into with
    | Some (i, _) => <[i := e]> into
    | None => into ++ [e]
    end) into add.

Definition mergeFailed (into add : list BackfillFailedEntry) : list BackfillFailedEntry :=
  foldl (λ into e,
    match list_find (λ x, fl_key x = fl_key e) into with
    | Some (i, x) =>
        <[i := {| fl_key := fl_key e; fl_error := fl_error e; fl_attempts := fl_attempts x + fl_attempts e |}]> into
    | None => into ++ [e]
    end) into add.

(** ** Selecting the keys of a run *)

Record KeySelection := { ks_keys : list string; ks_resumeFrom : option BackfillCheckpoint; ks_retryOf : option BackfillCheckpoint }.

Definition FINISHED (s : BackfillRunStatus) : bool :=
  match s with completed | rolled_back => true | _ => false end.

Definition sort_keys (ks : list string) : list string := merge_sort str_le ks.

Definition unfinished_of (existing : option BackfillCheckpoint) : option BackfillCheckpoint :=
  match existing with Some c => if FINISHED (cp_status c) then None else Some c | None => None end.

(** [cursor === null || k > cursor]. *)
Definition after_cursor (cursor : option string) (k : string) : bool :=
  match cursor with None => true | Some c => str_lt c k end.

Definition refusal (u : BackfillCheckpoint) : string :=
  "Run " +:+ cp_runId u +:+ " is " +:+ status_text (cp_status u) +:+ " at cursor " +:+
  JSON_stringify (match cp_cursor u with Some c => JStr c | None => JNull end) +:+
  (match truthy (cp_error u) with Some e => " (" +:+ e +:+ ")" | None => EmptyString end) +:+
  ". Pass --resume to continue it or --restart to start over.".

Definition selectKeys (h : H) (existing : option BackfillCheckpoint) (o : BackfillOptions) :
    result string KeySelection :=
  let unfinished := unfinished_of existing in
  if resume o && restart o then Err "Pass either --resume or --restart, not both."
  else if retryFailed o then
    match unfinished, existing with
    | Some u, _ =>
        Err ("Run " +:+ cp_runId u +:+ " is " +:+ status_text (cp_status u) +:+
             "; resume or restart it before retrying failures.")
    | None, None => Err ("No failed records recorded for " +:+ job_id +:+ "; nothing to retry.")
    | None, Some c =>
        if bool_decide (cp_failed c = []) then Err ("No failed records recorded for " +:+ job_id +:+ "; nothing to retry.")
        else Ok {| ks_keys := sort_keys (fl_key <$> cp_failed c); ks_resumeFrom := None; ks_retryOf := Some c |}
    end
  else
    match unfinished, restart o with
    | Some u, false =>
        if negb (resume o) then Err (refusal u)
        else if negb (bool_decide (cp_jobVersion u = job_version)) || negb (bool_decide (cp_fingerprint u = fingerprint))
        then Err ("Checkpoint was written by " +:+ cp_jobId u +:+ "@" +:+ Z_to_string (cp_jobVersion u) +:+
                  ", this is " +:+ job_id +:+ "@" +:+ Z_to_string job_version +:+
                  ". Its cursor cannot be trusted; roll back or --restart.")
        else
          let source := default (listKeys h) (cp_keySet u) in
          Ok {| ks_keys := filter (λ k, after_cursor (cp_cursor u) k = true) (sort_keys source);
                ks_resumeFrom := Some u; ks_retryOf := None |}
    | _, _ =>
        if resume o then Err ("No unfinished run of " +:+ job_id +:+ " to resume.")
        else Ok {| ks_keys := sort_keys (listKeys h); ks_resumeFrom := None; ks_retryOf := None |}
    end.

(** [keys.slice(0, limit)]. *)
Definition limited (o : BackfillOptions) (keys : list string) : list string :=
  match limit o with Some n => take n keys | None => keys end.

(** ** Preview *)

Definition resumedFrom (s : KeySelection) : option string :=
  match ks_resumeFrom s with Some c => cp_cursor c | None => None end.

Definition preview (o : BackfillOptions) : io BackfillReport :=
  d ← get;
  h ← lift (open_ (dk_store d));
  existing ← readCheckpoint;
  s ← lift (selectKeys h existing o);
  let out := planBatch h (limited o (ks_keys s)) in
  mret {| rp_jobId := job_id; rp_jobVersion := job_version; rp_mode := "dry-run"; rp_runId := None; rp_status := "previewed"; rp_resumedFrom := resumedFrom s;
          rp_counters := oc_counters out; rp_diff := oc_diff out; rp_skipped := oc_skipped out;
          rp_failed := oc_failed out; rp_planDigest := planDigest (oc_diff out);
          rp_rollback := job_rollback; rp_error := None |}.

(** ** Apply *)

(** The slices of [n] keys that the loop takes. *)
Fixpoint slices (fuel : nat) (n : nat) (keys : list string) : list (list string) :=
  match fuel, keys with
  | S fuel, _ :: _ => take n keys :: slices fuel n (drop n keys)
  | _, _ => []
  end.

(** Clock readings and random digits of a call. *)
Record env := { e_start : Z; e_rand : string; e_journal : nat → Z; e_saved : nat → Z; e_end : Z; e_me : LockInfo }.

Definition stop := (BackfillRunStatus * string)%type.

Definition saved (c : BackfillCheckpoint) (keys : list string) (out : BatchOutcome) (at_ : string) : BackfillCheckpoint :=
  let failed := mergeFailed (cp_failed c) (oc_failed out) in
  {| cp_jobId := cp_jobId c; cp_jobVersion := cp_jobVersion c; cp_fingerprint := cp_fingerprint c;
     cp_runId := cp_runId c; cp_status := cp_status c; cp_cursor := last keys;
     cp_counters := addCounters (cp_counters c) (oc_counters out);
     cp_skipped := mergeSkipped (cp_skipped c) (oc_skipped out);
     cp_failed := filter (λ f, fl_key f ∉ keys ∨ fl_key f ∈ fl_key <$> oc_failed out) failed;
     cp_retryOf := cp_retryOf c; cp_keySet := cp_keySet c; cp_startedAt := cp_startedAt c;
     cp_updatedAt := at_; cp_error := cp_error c |}.

Definition with_failed (c : BackfillCheckpoint) (failed : list BackfillFailedEntry) : BackfillCheckpoint :=
  {| cp_jobId := cp_jobId c; cp_jobVersion := cp_jobVersion c; cp_fingerprint := cp_fingerprint c;
     cp_runId := cp_runId c; cp_status := cp_status c; cp_cursor := cp_cursor c; cp_counters := cp_counters c;
     cp_skipped := cp_skipped c; cp_failed := failed; cp_retryOf := cp_retryOf c; cp_keySet := cp_keySet c;
     cp_startedAt := cp_startedAt c; cp_updatedAt := cp_updatedAt c; cp_error := cp_error c |}.

Definition with_status (c : BackfillCheckpoint) (s : BackfillRunStatus) (error : option string) (at_ : string) :
    BackfillCheckpoint :=
  {| cp_jobId := cp_jobId c; cp_jobVersion := cp_jobVersion c; cp_fingerprint := cp_fingerprint c;
     cp_runId := cp_runId c; cp_status := s; cp_cursor := cp_cursor c; cp_counters := cp_counters c;
     cp_skipped := cp_skipped c; cp_failed := cp_failed c; cp_retryOf := cp_retryOf c; cp_keySet := cp_keySet c;
     cp_startedAt := cp_startedAt c; cp_updatedAt := at_; cp_error := error |}.

(** Journal and commit of a batch; the error if the commit kept failing. *)
Definition commit_batch (e : env) (attempts : nat) (runId : string) (batchNo : nat) (h : H)
    (cs : list BackfillChange) : io (H + string) :=
  match cs with
  | [] => mret (inl h)
  | _ =>
      _ ← appendJournal runId (Z.of_nat batchNo) (iso_text (e_journal e batchNo)) cs;
      commitWithRetry attempts h cs EmptyString
  end.

Fixpoint batches (o : BackfillOptions) (e : env) (most : Z) (attempts : nat) (bs : list (list string))
    (batchNo : nat) (h : H) (c : BackfillCheckpoint) (diff : list BackfillDiffEntry) :
    io (BackfillCheckpoint * list BackfillDiffEntry * option stop) :=
  match bs with
  | [] => mret (c, diff, None)
  | keys :: bs =>
      if shouldStop o batchNo then mret (c, diff, Some (interrupted, "stopped by operator signal"))
      else
        let out := planBatch h keys in
        let batchNo := S batchNo in
        r ← commit_batch e attempts (cp_runId c) batchNo h (oc_changes out);
        (* an empty message is falsy *)
        let '(h, err) := match r with inl h => (h, EmptyString) | inr err => (h, err) end in
        match err with
        | String _ _ =>
            let failed := (λ x, {| fl_key := ch_key x; fl_error := "commit failed: " +:+ err;
                                   fl_attempts := Z.of_nat attempts |}) <$> oc_changes out in
            mret (with_failed c (mergeFailed (cp_failed c) failed), diff,
                  Some (aborted, "batch " +:+ Z_to_string (Z.of_nat batchNo) +:+ " commit failed after " +:+
                                 Z_to_string (Z.of_nat attempts) +:+ " attempt(s): " +:+ err))
        | EmptyString =>
            let c := saved c keys out (iso_text (e_saved e batchNo)) in
            _ ← writeCheckpoint c;
            let diff := diff ++ oc_diff out in
            if most <=? Z.of_nat (length (cp_failed c)) then
              mret (c, diff, Some (aborted, "failure threshold reached (" +:+
                                            Z_to_string (Z.of_nat (length (cp_failed c))) +:+ " >= " +:+
                                            Z_to_string most +:+ ")"))
            else batches o e most attempts bs batchNo h c diff
        end
  end.

(** [now.replace(/[-:.]/g, '').slice(0, 15)]. *)
Definition compact (now : string) : string :=
  let fix strip s := match s with
    | EmptyString => EmptyString
    | String a s => if bool_decide (a = "-"%char ∨ a = ":"%char ∨ a = "."%char) then strip s else String a (strip s)
    end in
  String.substring 0 15 (strip now).

Definition new_checkpoint (s : KeySelection) (e : env) : BackfillCheckpoint :=
  let now := iso_text (e_start e) in
  {| cp_jobId := job_id; cp_jobVersion := job_version; cp_fingerprint := fingerprint;
     cp_runId := compact now +:+ "-" +:+ e_rand e; cp_status := running; cp_cursor := None;
     cp_counters := emptyCounters; cp_skipped := []; cp_failed := []; cp_retryOf := cp_runId <$> ks_retryOf s;
     cp_keySet := match ks_retryOf s with Some _ => Some (ks_keys s) | None => None end;
     cp_startedAt := now; cp_updatedAt := now; cp_error := None |}.

Definition first_checkpoint (s : KeySelection) (e : env) : BackfillCheckpoint :=
  match ks_resumeFrom s with
  | Some c => with_status c running None (iso_text (e_start e))
  | None => new_checkpoint s e
  end.

(** [--confirm-plan]. *)
Definition confirm (o : BackfillOptions) (h : H) (s : KeySelection) : result string unit :=
  match truthy (confirmPlan o) with
  | None => Ok tt
  | Some expected =>
      match ks_resumeFrom s with
      | Some _ => Err "--confirm-plan only applies to a fresh run, not a resume."
      | None =>
          let digest := planDigest (oc_diff (planBatch h (limited o (ks_keys s)))) in
          if bool_decide (digest = expected) then Ok tt
          else Err ("Plan changed since it was reviewed (expected " +:+ expected +:+ ", now " +:+ digest +:+
                    "). Re-run the dry-run and review again.")
      end
  end.

Definition batch_size (o : BackfillOptions) : nat := Z.to_nat (Z.max 1 (default DEFAULT_BATCH_SIZE (batchSize o))).

Definition finish (o : BackfillOptions) (s : KeySelection) (r : option stop) : option stop :=
  match r, limit o with
  | None, Some n =>
      if (n <? length (ks_keys s))%nat then
        Some (interrupted, "limit of " +:+ Z_to_string (Z.of_nat n) +:+ " record(s) reached; resume to continue")
      else None
  | _, _ => r
  end.

(** The run itself, once its keys are selected and its plan confirmed. *)
Definition work (o : BackfillOptions) (e : env) (h : H) (s : KeySelection) : io BackfillReport :=
  let most := default DEFAULT_MAX_FAILURES (maxFailures o) in
  let attempts := Z.to_nat (Z.max 1 (default DEFAULT_MAX_COMMIT_ATTEMPTS (maxCommitAttempts o))) in
  let c := first_checkpoint s e in
  _ ← writeCheckpoint c;
  let keys := limited o (ks_keys s) in
  '(c, diff, r) ← batches o e most attempts (slices (length keys) (batch_size o) keys) 0 h c [];
  let r := finish o s r in
  let c := with_status c (from_option fst completed r) (snd <$> r) (iso_text (e_end e)) in
  _ ← writeCheckpoint c;
  mret {| rp_jobId := job_id; rp_jobVersion := job_version; rp_mode := "apply"; rp_runId := Some (cp_runId c); rp_status := status_text (cp_status c);
          rp_resumedFrom := resumedFrom s; rp_counters := cp_counters c; rp_diff := diff;
          rp_skipped := cp_skipped c; rp_failed := cp_failed c; rp_planDigest := planDigest diff;
          rp_rollback := job_rollback; rp_error := cp_error c |}.

Definition applyLocked (o : BackfillOptions) (e : env) : io BackfillReport :=
  d ← get;
  h ← lift (open_ (dk_store d));
  existing ← readCheckpoint;
  s ← lift (selectKeys h existing o);
  _ ← lift (confirm o h s);
  work o e h s.

Definition apply (o : BackfillOptions) (e : env) : io BackfillReport :=
  _ ← acquireLock (forceUnlock o) (e_me e);
  locked (e_me e) (applyLocked o e).

(** ** Rollback *)

Definition change_of (v : json) : BackfillChange :=
  {| ch_key := default "undefined" (string_of (prop v "key")); before := default JNull (prop v "before");
     after := default JNull (prop v "after") |}.

Fixpoint part (fuel n : nat) (cs : list BackfillChange) : list (list BackfillChange) :=
  match fuel, cs with
  | S fuel, _ :: _ => take n cs :: part fuel n (drop n cs)
  | _, _ => []
  end.

Fixpoint restore_all (h : H) (parts : list (list BackfillChange)) (acc : BackfillRestoreResult) :
    io BackfillRestoreResult :=
  match parts with
  | [] => mret acc
  | cs :: parts =>
      r ← atomic (λ d, '(x, r) ← restore (dk_store d) h cs; Ok (with_store x d, r));
      restore_all h parts {| restored := restored acc ++ restored r; conflicts := conflicts acc ++ conflicts r |}
  end.

Definition rollback (runId : string) (size : option positive) (forceUnlock : bool) (e : env) :
    io BackfillRestoreResult :=
  _ ← acquireLock forceUnlock (e_me e);
  locked (e_me e) (
    d ← get;
    h ← lift (open_ (dk_store d));
    entries ← readJournal runId;
    let changes := change_of <$> reverse entries in
    let n := match size with Some p => Pos.to_nat p | None => Z.to_nat DEFAULT_BATCH_SIZE end in
    result ← restore_all h (part (length changes) n changes) {| restored := []; conflicts := [] |};
    c ← readCheckpoint;
    _ ← match c with
        | Some c =>
            if bool_decide (cp_runId c = runId) then
              let error := if bool_decide (conflicts result = []) then cp_error c
                           else Some ("rolled back with " +:+ Z_to_string (Z.of_nat (length (conflicts result))) +:+
                                      " conflict(s)") in
              writeCheckpoint (with_status c rolled_back error (iso_text (e_end e)))
            else mret tt
        | None => mret tt
        end;
    mret result).
End runner.
Arguments disk D : clear implicits.
Arguments io D A : clear implicits.

(** ** What a job promises *)

Definition put_all (cs : list BackfillChange) (m : gmap string json) : gmap string json :=
  foldl (λ m c, <[ch_key c := after c]> m) m cs.

Definition at_before (m : gmap string json) (c : BackfillChange) : Prop := m !! ch_key c = Some (before c).

(** Records, keys restored, keys in conflict. *)
Definition restore_one (x : gmap string json * list string * list string) (c : BackfillChange) :
    gmap string json * list string * list string → Prop := λ y,
  let '(m, ok, bad) := x in
  (m !! ch_key c = Some (after c) ∧ y = (<[ch_key c := before c]> m, ok ++ [ch_key c], bad)) ∨
  (m !! ch_key c ≠ Some (after c) ∧ m !! ch_key c = Some (before c) ∧ y = (m, ok ++ [ch_key c], bad)) ∨
  (m !! ch_key c ≠ Some (after c) ∧ m !! ch_key c ≠ Some (before c) ∧ y = (m, ok, bad ++ [ch_key c])).

Inductive restores : list BackfillChange → gmap string json * list string * list string →
    gmap string json * list string * list string → Prop :=
| restores_nil x : restores [] x x
| restores_cons c cs x y z : restore_one x c y → restores cs y z → restores (c :: cs) x z.

(** The requirements of [docs/BACKFILL.md].  [unreadable] tells the keys whose record
    cannot be loaded. *)
Class BackfillJobLaws (num : string → string) (D H : Type) `{BackfillJob D H} := {
  records : D → gmap string json;
  unreadable : string → option string;
  insync : D → H → Prop;
  open_law d h : open_ d = Ok h → insync d h;
  insync_open d h : insync d h → ∃ h', open_ d = Ok h';
  listKeys_law d h : insync d h → NoDup (listKeys h) ∧ ∀ k, k ∈ listKeys h ↔ is_Some (records d !! k);
  load_law d h k : insync d h →
    load h k = match unreadable k with Some e => Err e | None => Ok (records d !! k) end;
  plan_idempotent k r a l : plan k r = Ok (Update a l) → plan k a = Ok Noop;
  plan_natural k r a l : natural num r = true → plan k r = Ok (Update a l) → natural num a = true;
  commit_law d h cs d' h' : NoDup (ch_key <$> cs) → commit d h cs = Ok (d', h') →
    Forall (at_before (records d)) cs ∧ records d' = put_all cs (records d) ∧ insync d' h';
  commit_fits d h cs : insync d h → NoDup (ch_key <$> cs) → Forall (at_before (records d)) cs →
    ∃ x, commit d h cs = Ok x;
  commit_speaks d h cs e : commit d h cs = Err e → e ≠ EmptyString;
  restore_law d h h' cs : open_ d = Ok h' → ∃ d' r h'', restore d h cs = Ok (d', r) ∧ open_ d' = Ok h'' ∧
    restores cs (records d, [], []) (records d', restored r, (conflicts r).*1);
}.

(** ** Reasoning about runs

    [triple I P m Q]: started where [P] holds, with fates that are [tolerated], [m]
    ends where [Q] holds if it returns.  If it throws or dies, which happens only when
    [faulty], [I] holds of the disk, and what is thrown is not empty. *)
Section triples.
Context {D : Type} (faulty careful : bool).

(** [careful]: the process does not stop in the middle of a write. *)
Definition tolerated (f : fate) : Prop :=
  match f with
  | Works => True
  | Throws _ e => e ≠ EmptyString
  | Stops n => careful = true → n = 0%nat
  end.

Definition fates_ok (fs : list fate) : Prop := Forall tolerated fs ∧ (faulty = false → fs = []).

Definition triple {A} (I P : disk D → Prop) (m : io D A) (Q : A → disk D → Prop) : Prop :=
  ∀ d fs, P d → fates_ok fs →
    let '(d', fs', e) := m d fs in
    fates_ok fs' ∧
    match e with
    | Returned a => Q a d'
    | Threw x => faulty = true ∧ x ≠ EmptyString ∧ I d'
    | Died => faulty = true ∧ I d'
    end.

Lemma hoare_ret {A} (I P : disk D → Prop) (a : A) (Q : A → disk D → Prop) :
  (∀ d, P d → Q a d) → triple I P (mret a) Q.
Proof. intros HQ d fs HP Hf. split; [done|]. by apply HQ. Qed.

Lemma hoare_bind {A B} I P (m : io D A) (f : A → io D B) Q R :
  triple I P m R → (∀ a, triple I (R a) (f a) Q) → triple I P (m ≫= f) Q.
Proof.
  intros Hm Hf d fs HP Hok. specialize (Hm d fs HP Hok). unfold mbind, io_bind.
  destruct (m d fs) as [[d' fs'] [a|x|]]; destruct Hm as [? Hm]; [|done|done].
  by apply Hf.
Qed.

Lemma hoare_weaken {A} (I P P' : disk D → Prop) (m : io D A) Q Q' :
  triple I P' m Q' → (∀ d, P d → P' d) → (∀ a d, Q' a d → Q a d) → triple I P m Q.
Proof.
  intros Hm HP HQ d fs Hd Hok. specialize (Hm d fs (HP d Hd) Hok).
  destruct (m d fs) as [[d' fs'] [a|x|]]; naive_solver.
Qed.

Lemma hoare_crash {A} (I I' P : disk D → Prop) (m : io D A) Q :
  triple I' P m Q → (∀ d, I' d → I d) → triple I P m Q.
Proof.
  intros Hm HI d fs HP Hok. specialize (Hm d fs HP Hok).
  destruct (m d fs) as [[d' fs'] [a|x|]]; naive_solver.
Qed.

(** What is known of the disk at the start. *)
Lemma hoare_pre {A} I P (m : io D A) Q : (∀ d, P d → triple I (λ d', d' = d) m Q) → triple I P m Q.
Proof. intros Hm d fs HP. by apply (Hm d HP). Qed.

Lemma hoare_get {B} I P (f : disk D → io D B) Q :
  (∀ d, P d → triple I (λ d', d' = d) (f d) Q) → triple I P (get ≫= f) Q.
Proof. intros Hf d fs HP. by apply (Hf d HP). Qed.

Lemma hoare_throw {A} (I P : disk D → Prop) e (Q : A → disk D → Prop) :
  faulty = true → e ≠ EmptyString → (∀ d, P d → I d) → triple I P (throw e) Q.
Proof. intros Hf He HI d fs HP Hok. split; [done|]. auto. Qed.

Lemma hoare_catch {A} (I I' P : disk D → Prop) (m : io D A) (Q : result string A → disk D → Prop) :
  triple I' P m (λ a, Q (Ok a)) → (∀ d, I' d → I d) →
  (∀ e d, faulty = true → e ≠ EmptyString → I' d → Q (Err e) d) → triple I P (catch m) Q.
Proof.
  intros Hm HI HQ d fs HP Hok. specialize (Hm d fs HP Hok). unfold catch.
  destruct (m d fs) as [[d' fs'] [a|x|]]; naive_solver.
Qed.

Lemma hoare_act {A} (I P : disk D → Prop) (p : disk D → result string (disk D * A)) midway Q :
  (∀ d, P d → match p d with
              | Ok (d', a) => Q a d' ∧ (faulty = true → I d')
              | Err e => faulty = true ∧ e ≠ EmptyString
              end) →
  (∀ d, faulty = true → P d → I d) →
  (∀ d n, faulty = true → P d → (careful = true → n = 0%nat) → I (midway d n)) →
  triple I P (act p midway) Q.
Proof.
  intros Hp HI Hm d fs HP [Hok Hn]. specialize (Hp d HP). unfold act.
  assert (∀ fs', fates_ok fs' →
    let '(d', fs', e) := match p d with Ok (d', a) => (d', fs', Returned a) | Err e => (d, fs', Threw e) end in
    fates_ok fs' ∧ match e with
      | Returned a => Q a d' | Threw x => faulty = true ∧ x ≠ EmptyString ∧ I d' | Died => faulty = true ∧ I d' end)
    as Hwork by (intros fs' Hf; destruct (p d) as [[d' a]|e]; naive_solver).
  destruct Hok as [|f fs Hf Hfs]; [by apply Hwork|].
  destruct faulty eqn:Ef; [|by specialize (Hn eq_refl)].
  assert (fates_ok fs) as Hok by (split; [done|by rewrite Ef]).
  destruct f as [|b e|n]; [by apply Hwork|..]; (split; [done|]).
  - split; [done|]. split; [done|]. destruct (p d) as [[d' a]|e']; [destruct b|]; naive_solver.
  - split; [done|]. by apply Hm.
Qed.

Lemma hoare_atomic {A} (I P : disk D → Prop) (p : disk D → result string (disk D * A)) Q :
  (∀ d, P d → match p d with
              | Ok (d', a) => Q a d' ∧ (faulty = true → I d')
              | Err e => faulty = true ∧ e ≠ EmptyString
              end) →
  (∀ d, faulty = true → P d → I d) → triple I P (atomic p) Q.
Proof.
  intros Hp HI. apply hoare_act; [done|done|]. intros d n Hf HP _. specialize (Hp d HP).
  destruct n; [by apply HI|]. destruct (p d) as [[d' a]|e]; [naive_solver|by apply HI].
Qed.
End triples.

(** ** Planning *)
Section planning.
Context {D H : Type} `{BackfillJob D H}.

Lemma addCounters_assoc a b c : addCounters (addCounters a b) c = addCounters a (addCounters b c).
Proof. unfold addCounters. simpl. f_equal; lia. Qed.

Lemma addCounters_empty a : addCounters emptyCounters a = a.
Proof. by destruct a. Qed.

Lemma join_outcome_assoc a b c : join_outcome (join_outcome a b) c = join_outcome a (join_outcome b c).
Proof. unfold join_outcome. simpl. by rewrite addCounters_assoc, !(assoc_L (++)). Qed.

Lemma join_no_outcome a : join_outcome no_outcome a = a.
Proof. unfold join_outcome. simpl. rewrite addCounters_empty. by destruct a. Qed.

Lemma planBatch_app h ks1 ks2 :
  planBatch h (ks1 ++ ks2) = join_outcome (planBatch h ks1) (planBatch h ks2).
Proof.
  unfold planBatch. rewrite foldl_app. generalize (foldl (λ o k, join_outcome o (outcome_of h k)) no_outcome ks1).
  intros o. assert (∀ ks a, foldl (λ o k, join_outcome o (outcome_of h k)) (join_outcome o a) ks =
    join_outcome o (foldl (λ o k, join_outcome o (outcome_of h k)) a ks)) as Hf.
  { intros ks. induction ks as [|k ks IH]; intros a; [done|]. cbn [foldl]. by rewrite join_outcome_assoc, IH. }
  rewrite <-Hf. f_equal. unfold join_outcome. simpl. rewrite !app_nil_r.
  destruct o as [[] ? ? ? ?]. unfold addCounters. simpl. by rewrite !Z.add_0_r.
Qed.

Lemma planBatch_cons h k ks : planBatch h (k :: ks) = join_outcome (outcome_of h k) (planBatch h ks).
Proof. change (k :: ks) with ([k] ++ ks). rewrite planBatch_app. unfold planBatch at 1. simpl. by rewrite join_no_outcome. Qed.

(** A plan depends on the records of its keys only. *)
Lemma planBatch_ext h h' ks : (∀ k, k ∈ ks → load h' k = load h k) → planBatch h' ks = planBatch h ks.
Proof.
  induction ks as [|k ks IH]; intros Hl; [done|]. rewrite !planBatch_cons, IH by set_solver.
  f_equal. unfold outcome_of. by rewrite Hl by set_solver.
Qed.

Lemma elem_changes h ks c :
  c ∈ oc_changes (planBatch h ks) ↔
  ch_key c ∈ ks ∧ load h (ch_key c) = Ok (Some (before c)) ∧
  ∃ l, plan (ch_key c) (before c) = Ok (Update (after c) l).
Proof.
  induction ks as [|k ks IH]; [split; [by intros ?%elem_of_nil|by intros [?%elem_of_nil _]]|].
  rewrite planBatch_cons. simpl. rewrite elem_of_app, IH, elem_of_cons.
  assert (c ∈ oc_changes (outcome_of h k) ↔ ch_key c = k ∧ load h (ch_key c) = Ok (Some (before c)) ∧
    ∃ l, plan (ch_key c) (before c) = Ok (Update (after c) l)) as ->; [|naive_solver].
  unfold outcome_of. destruct (load h k) as [[r|]|e] eqn:Hl; simpl; rewrite ?elem_of_nil;
    [|split; [done|intros (-> & ? & _); congruence]..].
  destruct (plan k r) as [[a l| |why]|e] eqn:Hp; simpl; rewrite ?elem_of_nil, ?list_elem_of_singleton;
    split; try done; try (intros (-> & ? & l' & ?); congruence).
  - intros ->. simpl. eauto.
  - destruct c as [k' b' a']. simpl. intros (-> & Hl' & l' & Hp').
    assert (b' = r) as -> by congruence. assert (a' = a) as -> by congruence. done.
Qed.

Lemma elem_failed h ks f :
  f ∈ oc_failed (planBatch h ks) →
  fl_key f ∈ ks ∧ ∃ e, load h (fl_key f) = Err e ∨ ∃ r, load h (fl_key f) = Ok (Some r) ∧ plan (fl_key f) r = Err e.
Proof.
  induction ks as [|k ks IH]; [by intros ?%elem_of_nil|].
  rewrite planBatch_cons. simpl. rewrite elem_of_app, elem_of_cons. intros [Hf|Hf]; [|naive_solver]. clear IH.
  unfold outcome_of in Hf. destruct (load h k) as [[r|]|e] eqn:Hl; simpl in Hf;
    [destruct (plan k r) as [[a l| |why]|e] eqn:Hp; simpl in Hf| |];
    try (by apply elem_of_nil in Hf); apply list_elem_of_singleton in Hf as ->; simpl; (split; [by left|]); eauto 6.
Qed.

Lemma changes_keys h ks : sublist (ch_key <$> oc_changes (planBatch h ks)) ks.
Proof.
  induction ks as [|k ks IH]; [done|]. rewrite planBatch_cons. simpl. rewrite fmap_app.
  unfold outcome_of. destruct (load h k) as [[r|]|e]; simpl; [|by constructor..].
  destruct (plan k r) as [[a l| |why]|e]; simpl; by constructor.
Qed.

Lemma skipped_keys h ks : sublist (sk_key <$> oc_skipped (planBatch h ks)) ks.
Proof.
  induction ks as [|k ks IH]; [done|]. rewrite planBatch_cons. simpl. rewrite fmap_app.
  unfold outcome_of. destruct (load h k) as [[r|]|e]; simpl; [|by constructor..].
  destruct (plan k r) as [[a l| |why]|e]; simpl; by constructor.
Qed.

Lemma failed_keys h ks : sublist (fl_key <$> oc_failed (planBatch h ks)) ks.
Proof.
  induction ks as [|k ks IH]; [done|]. rewrite planBatch_cons. simpl. rewrite fmap_app.
  unfold outcome_of. destruct (load h k) as [[r|]|e]; simpl; [|by constructor..].
  destruct (plan k r) as [[a l| |why]|e]; simpl; by constructor.
Qed.

Lemma NoDup_sublist {A} (l1 l2 : list A) : sublist l1 l2 → NoDup l2 → NoDup l1.
Proof.
  induction 1 as [|x l1 l2 Hs IH|x l1 l2 Hs IH]; [done|..]; rewrite NoDup_cons; [|naive_solver].
  intros [Hx Hn]. constructor; [|auto]. intros Hin. apply Hx. by eapply sublist_subseteq.
Qed.

Lemma put_all_notin cs m k : k ∉ ch_key <$> cs → put_all cs m !! k = m !! k.
Proof.
  revert m. induction cs as [|c cs IH]; intros m Hk; [done|]. rewrite fmap_cons, not_elem_of_cons in Hk.
  unfold put_all in *. simpl. rewrite IH by apply Hk. by rewrite lookup_insert_ne by naive_solver.
Qed.

Lemma put_all_elem cs m c :
  NoDup (ch_key <$> cs) → c ∈ cs → put_all cs m !! ch_key c = Some (after c).
Proof.
  revert m. induction cs as [|c' cs IH]; intros m Hn Hc; [by apply elem_of_nil in Hc|].
  rewrite fmap_cons, NoDup_cons in Hn. destruct Hn as [Hni Hn]. apply elem_of_cons in Hc as [->|Hc].
  - change (put_all (c' :: cs) m) with (put_all cs (<[ch_key c' := after c']> m)).
    rewrite put_all_notin by done. by rewrite lookup_insert_eq.
  - change (put_all (c' :: cs) m) with (put_all cs (<[ch_key c' := after c']> m)). by apply IH.
Qed.
End planning.

(** ** One run

    [R0]: the records when the run [rid] was started. *)
Section run.
Context (num sha256 : string → string) {D H : Type} `{BackfillJobLaws num D H}.
Context (faulty careful : bool) (R0 : gmap string json) (rid : string).

(** What the backfill makes of a record. *)
Definition goal (k : string) (r : json) : json :=
  match unreadable k, plan k r with
  | None, Ok (Update a _) => a
  | _, _ => r
  end.

(** The records that cannot be loaded, or that the job refuses to plan. *)
Definition unplannable (k : string) (r : json) : bool :=
  match unreadable k, plan k r with
  | None, Ok _ => false
  | _, _ => true
  end.
Definition failing (m : gmap string json) : gmap string json := filter (λ x, unplannable x.1 x.2 = true) m.

(** Every record is as it was, or done. *)
Definition between (m : gmap string json) : Prop :=
  ∀ k, match R0 !! k with
       | Some r => m !! k = Some r ∨ m !! k = Some (goal k r)
       | None => m !! k = None
       end.

Definition reached (cursor : option string) (m : gmap string json) : Prop :=
  ∀ k r, R0 !! k = Some r → after_cursor cursor k = false → m !! k = Some (goal k r).

Definition all_done (m : gmap string json) : Prop := ∀ k r, R0 !! k = Some r → m !! k = Some (goal k r).

(** The entry that a change of the record [r] under [k] leaves in the journal. *)
Definition is_entry (v : json) (k : string) (r : json) : Prop :=
  ∃ i t, v = entry_json rid i t {| ch_key := k; before := r; after := goal k r |} ∧ 0 ≤ i ≤ Z.of_nat (size R0).

Definition logged (m : gmap string json) (es : list json) : Prop :=
  Forall (λ v, ∃ k r, is_entry v k r ∧ R0 !! k = Some r) es ∧
  ∀ k r, R0 !! k = Some r → m !! k = Some r ∨ ∃ v, v ∈ es ∧ is_entry v k r.

Definition journalled (m : gmap string json) (j : option string) : Prop :=
  careful = true → ∃ es, default EmptyString j = lines es ∧ logged m es.

Notation recs d := (records (dk_store d)).
Notation journal d := (dk_journals d !! rid).

(** The store can be opened. *)
Definition opens (d : disk D) : Prop := ∃ h, open_ (dk_store d) = Ok h.

Definition sound_disk (d : disk D) : Prop := between (recs d) ∧ journalled (recs d) (journal d) ∧ opens d.

(** A change of the records that the journal already tells of. *)
Definition wanted (c : BackfillChange) : Prop :=
  R0 !! ch_key c = Some (before c) ∧ after c = goal (ch_key c) (before c).

Lemma goal_plan k r a l : unreadable k = None → plan k r = Ok (Update a l) → goal k r = a.
Proof. unfold goal. by intros -> ->. Qed.

Lemma between_lookup m k r : between m → R0 !! k = Some r → m !! k = Some r ∨ m !! k = Some (goal k r).
Proof. intros Hb Hk. specialize (Hb k). by rewrite Hk in Hb. Qed.

Lemma between_dom m k : between m → is_Some (m !! k) ↔ is_Some (R0 !! k).
Proof.
  intros Hb. specialize (Hb k). destruct (R0 !! k) as [r|]; [|by rewrite Hb].
  destruct Hb as [->| ->]; split; eauto.
Qed.

(** A planned change starts from the original record. *)
Lemma plan_wanted d h ks c :
  insync d h → between (records d) → c ∈ oc_changes (planBatch h ks) → wanted c ∧ at_before (records d) c.
Proof.
  intros Hs Hb (Hk & Hl & l & Hp)%elem_changes. rewrite (load_law (num := num) d) in Hl by done.
  destruct (unreadable (ch_key c)) as [|] eqn:Hu; [done|]. injection Hl as Hl. split; [|done].
  destruct (proj1 (between_dom _ (ch_key c) Hb)) as [r Hr]; [by rewrite Hl|].
  destruct (between_lookup _ _ _ Hb Hr) as [Hm|Hm]; rewrite Hl in Hm; injection Hm as Hm.
  - rewrite <-Hm in Hr. split; [done|]. symmetry. by eapply goal_plan.
  - unfold goal in Hm. rewrite Hu in Hm. destruct (plan (ch_key c) r) as [[a l'| |]|] eqn:Hpr;
      try (rewrite <-Hm in Hr; split; [done|]; symmetry; by eapply goal_plan).
    apply (plan_idempotent (num := num)) in Hpr. congruence.
Qed.

(** Committing the planned changes of some keys brings these keys to their goal. *)
Lemma put_changes d h ks :
  insync d h → between (records d) → NoDup ks →
  let cs := oc_changes (planBatch h ks) in
  let m := put_all cs (records d) in
  between m ∧ (∀ k, k ∉ ks → m !! k = records d !! k) ∧
  ∀ k r, k ∈ ks → R0 !! k = Some r → m !! k = Some (goal k r).
Proof.
  intros Hs Hb Hn cs m.
  assert (NoDup (ch_key <$> cs)) as Hnc by (eapply NoDup_sublist; [apply changes_keys|done]).
  assert (∀ k, k ∉ ks → m !! k = records d !! k) as Hout.
  { intros k Hk. apply put_all_notin. intros Hc. apply Hk. eapply sublist_subseteq; [apply changes_keys|done]. }
  assert (∀ k r, k ∈ ks → R0 !! k = Some r → m !! k = Some (goal k r)) as Hin.
  { intros k r Hk Hr. destruct (decide (k ∈ ch_key <$> cs)) as [(c & -> & Hc)%list_elem_of_fmap|Hni].
    - unfold m. rewrite put_all_elem by done. destruct (plan_wanted d h ks c Hs Hb Hc) as [[Hr' ->] _].
      by simplify_eq.
    - unfold m. rewrite put_all_notin by done. destruct (between_lookup _ _ _ Hb Hr) as [Hm|Hm]; [|done].
      rewrite Hm. f_equal. unfold goal. destruct (unreadable k) eqn:Hu; [done|].
      destruct (plan k r) as [[a l| |]|] eqn:Hp; try done. exfalso. apply Hni.
      apply list_elem_of_fmap. exists {| ch_key := k; before := r; after := a |}. split; [done|].
      apply elem_changes. simpl. rewrite (load_law (num := num) d), Hu, Hm by done. eauto. }
  split; [|done]. intros k. destruct (decide (k ∈ ks)) as [Hk|Hk].
  - destruct (R0 !! k) as [r|] eqn:Hr; [right; by apply Hin|].
    unfold m. rewrite put_all_notin; [by specialize (Hb k); rewrite Hr in Hb|].
    intros (c & -> & Hc)%list_elem_of_fmap. destruct (plan_wanted d h ks c Hs Hb Hc) as [[Hr' _] _]. congruence.
  - rewrite Hout by done. apply Hb.
Qed.

(** *** The journal *)

Lemma lines_app es1 es2 : lines (es1 ++ es2) = lines es1 +:+ lines es2.
Proof.
  induction es1 as [|v es1 IH]; [done|]. unfold lines in *. cbn [app foldr]. rewrite IH.
  by rewrite str_app_assoc, str_app_cons.
Qed.

(** Entries for the changes are written; then the changes may take place. *)
Lemma journalled_append m j cs i t :
  between m → journalled m j → Forall wanted cs → 0 ≤ i ≤ Z.of_nat (size R0) → NoDup (ch_key <$> cs) →
  let j' := Some (default EmptyString j +:+ lines (entry_json rid i t <$> cs)) in
  journalled m j' ∧ journalled (put_all cs m) j'.
Proof.
  intros Hb Hj Hw Hi Hn j'.
  assert (∀ m', (∀ k, m' !! k = m !! k ∨ ∃ c, c ∈ cs ∧ k = ch_key c) → journalled m' j') as Hgo.
  { intros m' Hm' Hc. destruct (Hj Hc) as (es & He & Hf & Hl). exists (es ++ (entry_json rid i t <$> cs)).
    assert (∀ c, c ∈ cs → is_entry (entry_json rid i t c) (ch_key c) (before c)) as Hent.
    { intros [k b a] Hcs. rewrite Forall_forall in Hw. destruct (Hw _ Hcs) as [_ Ha]. simpl in *. subst a.
      exists i, t. done. }
    split; [unfold j'; simpl; by rewrite He, lines_app|]. split.
    - apply Forall_app. split; [done|]. apply Forall_fmap, Forall_forall. intros c Hcs.
      exists (ch_key c), (before c). split; [by apply Hent|]. rewrite Forall_forall in Hw. by apply Hw.
    - intros k r Hr. destruct (Hm' k) as [E|(c & Hcs & ->)].
      + rewrite E. destruct (Hl k r Hr) as [?|(v & ? & ?)]; [by left|]. right. exists v. rewrite elem_of_app. auto.
      + right. exists (entry_json rid i t c). rewrite elem_of_app. split; [right; by apply list_elem_of_fmap_2|].
        rewrite Forall_forall in Hw. destruct (Hw c Hcs) as [Hr' _].
        assert (r = before c) as -> by congruence. by apply Hent. }
  split; apply Hgo; [by left|]. intros k. destruct (decide (k ∈ ch_key <$> cs)) as [Hk|Hk].
  - apply list_elem_of_fmap in Hk as (c & -> & Hcs). right. eauto.
  - left. by apply put_all_notin.
Qed.

Lemma journalled_same m m' j : (∀ k, m' !! k = m !! k) → journalled m j → journalled m' j.
Proof. intros E%map_eq. by rewrite E. Qed.

(** *** Committing *)

Lemma put_all_twice cs (m : gmap string json) :
  NoDup (ch_key <$> cs) → put_all cs (put_all cs m) = put_all cs m.
Proof.
  intros Hn. apply map_eq. intros k. destruct (decide (k ∈ ch_key <$> cs)) as [Hk|Hk].
  - apply list_elem_of_fmap in Hk as (c & -> & Hc). by rewrite !put_all_elem.
  - by rewrite !(put_all_notin _ _ k).
Qed.

(** The disk while the changes [cs] of the records [m] are committed. *)
Definition committing (d0 : disk D) (cs : list BackfillChange) (d : disk D) : Prop :=
  dk_checkpoint d = dk_checkpoint d0 ∧ dk_journals d = dk_journals d0 ∧
  (recs d = recs d0 ∨ recs d = put_all cs (recs d0)) ∧ opens d.

Definition committed (d0 : disk D) (cs : list BackfillChange) (r : H + string) (d : disk D) : Prop :=
  match r with
  | inl h => dk_checkpoint d = dk_checkpoint d0 ∧ dk_journals d = dk_journals d0 ∧
             recs d = put_all cs (recs d0) ∧ insync (dk_store d) h
  | inr e => faulty = true ∧ e ≠ EmptyString ∧ committing d0 cs d
  end.

Lemma commit_triple d0 cs h n last :
  NoDup (ch_key <$> cs) → (n = 0%nat → last ≠ EmptyString ∧ faulty = true) →
  triple faulty careful (committing d0 cs)
    (λ d, committing d0 cs d ∧ (faulty = false → insync (dk_store d) h ∧ Forall (at_before (recs d)) cs))
    (commitWithRetry n h cs last) (committed d0 cs).
Proof.
  intros Hn. revert last. induction n as [|n IH]; intros last Hlast; cbn [commitWithRetry].
  { apply hoare_ret. intros d [Hd _]. by destruct (Hlast eq_refl). }
  eapply hoare_bind.
  - apply (hoare_catch faulty careful _ (committing d0 cs) _ _ (λ r d,
      match r with Ok h => committed d0 cs (inl h) d
      | Err e => e ≠ EmptyString ∧ faulty = true ∧ committing d0 cs d end)); [|done|done].
    apply hoare_atomic; [|by intros d _ [? _]]. intros d [(Hc & Hj & Hm & Hop) Hfit].
    destruct (commit (dk_store d) h cs) as [[x h']|e] eqn:E; cbn [mbind result_bind].
    + destruct (commit_law (num := num) _ _ _ _ _ Hn E) as (_ & Hr & Hs).
      assert (records x = put_all cs (recs d0)) as Hx.
      { destruct Hm as [Hm|Hm]; rewrite Hr, Hm; [done|by apply put_all_twice]. }
      split; [by repeat split|]. intros _. split_and!; [done|done|by right|]. by eapply insync_open.
    + destruct faulty; [split; [done|]; by eapply (commit_speaks (num := num))|].
      destruct (Hfit eq_refl) as [Hs Hb]. destruct (commit_fits (num := num) _ _ _ Hs Hn Hb) as [? ?]. congruence.
  - intros [h'|e]; [by apply hoare_ret|]. apply hoare_pre. intros d (He & Hf & Hd).
    eapply hoare_weaken; [apply IH; done| |done].
    intros d' ->. split; [done|]. by rewrite Hf.
Qed.

(** *** Keys in order *)

Notation lt_key := (λ a b : string, str_lt a b = true).

Lemma sort_keys_sorted (l : list string) : NoDup l → StronglySorted lt_key (sort_keys l).
Proof.
  intros Hn. assert (NoDup (sort_keys l)) as Hn' by (by unfold sort_keys; rewrite merge_sort_Permutation).
  assert (StronglySorted str_le (sort_keys l)) as Hs by (apply StronglySorted_merge_sort; apply _).
  induction Hs as [|k ks Hs IH Hf]; [constructor|]. apply NoDup_cons in Hn' as [Hk Hn'].
  constructor; [by apply IH|]. rewrite Forall_forall in Hf |- *. intros x Hx. apply str_lt_iff.
  split; [by apply Hf|]. by intros ->.
Qed.

Lemma sorted_filter_keys P `{∀ k, Decision (P k)} (l : list string) :
  StronglySorted lt_key l → StronglySorted lt_key (filter P l).
Proof.
  induction 1 as [|k l Hl IH Hf]; [constructor|]. rewrite filter_cons. case_decide; [|done].
  constructor; [done|]. rewrite Forall_forall in Hf |- *. intros x [_ Hx]%list_elem_of_filter. by apply Hf.
Qed.

Lemma sorted_split ks (l : list string) :
  StronglySorted lt_key (ks ++ l) →
  StronglySorted lt_key ks ∧ StronglySorted lt_key l ∧ ∀ a b, a ∈ ks → b ∈ l → str_lt a b = true.
Proof.
  induction ks as [|k ks IH]; intros Hs; [split; [constructor|]; split; [done|]; by intros a b ?%not_elem_of_nil|].
  apply StronglySorted_inv in Hs as [Hs Hf]. destruct (IH Hs) as (Hs1 & Hs2 & Hs3).
  rewrite Forall_forall in Hf. split; [|split; [done|]].
  - constructor; [done|]. apply Forall_forall. intros x Hx. apply Hf. rewrite elem_of_app. by left.
  - intros a b [->|Ha]%elem_of_cons Hb; [apply Hf; rewrite elem_of_app; by right|by apply Hs3].
Qed.

Lemma sorted_NoDup (l : list string) : StronglySorted lt_key l → NoDup l.
Proof.
  induction 1 as [|k l Hl IH Hf]; constructor; [|done]. intros Hk. rewrite Forall_forall in Hf.
  apply Hf in Hk. apply str_lt_iff in Hk as [_ ?]. done.
Qed.

Lemma sorted_last (ks : list string) z k :
  StronglySorted lt_key ks → last ks = Some z → k ∈ ks → k = z ∨ str_lt k z = true.
Proof.
  intros Hs [l ->]%last_Some [Hk|Hk]%elem_of_app; [right|left; by apply list_elem_of_singleton in Hk].
  apply sorted_split in Hs as (_ & _ & Hs). apply Hs; [done|]. by apply list_elem_of_singleton.
Qed.

(** The keys that a run has still to look at. *)
Definition remaining (cursor : option string) (l : list string) : Prop :=
  StronglySorted lt_key l ∧ ∀ k, k ∈ l ↔ is_Some (R0 !! k) ∧ after_cursor cursor k = true.

Lemma remaining_start cursor l :
  NoDup l → (∀ k, k ∈ l ↔ is_Some (R0 !! k)) →
  remaining cursor (filter (λ k, after_cursor cursor k = true) (sort_keys l)).
Proof.
  intros Hn Hl. split; [by apply sorted_filter_keys, sort_keys_sorted|]. intros k.
  rewrite list_elem_of_filter. unfold sort_keys. rewrite merge_sort_Permutation, Hl. naive_solver.
Qed.

Lemma remaining_step cursor ks l z :
  remaining cursor (ks ++ l) → last ks = Some z →
  remaining (Some z) l ∧ NoDup ks ∧
  ∀ k, is_Some (R0 !! k) → after_cursor (Some z) k = false → after_cursor cursor k = false ∨ k ∈ ks.
Proof.
  intros [Hs Hk] Hz. pose proof Hs as (Hs1 & Hs2 & Hs3)%sorted_split.
  assert (z ∈ ks) as Hzk. { apply last_Some in Hz as [? ->]. rewrite elem_of_app. right. by apply list_elem_of_singleton. }
  assert (after_cursor cursor z = true) as Hcz by (apply Hk; rewrite elem_of_app; by left).
  split_and!; [split; [done|]|by apply sorted_NoDup|].
  - intros k. split.
    + intros Hkl. split; [apply Hk; rewrite elem_of_app; by right|]. by apply Hs3.
    + intros [Hr Hzl]. simpl in Hzl.
      assert (k ∈ ks ++ l) as [Hkk|]%elem_of_app; [|exfalso|done].
      { apply Hk. split; [done|]. destruct cursor as [c|]; [|done]. by eapply str_lt_trans. }
      destruct (sorted_last ks z k Hs1 Hz Hkk) as [->|Hlt].
      * by apply str_lt_iff in Hzl as [_ ?].
      * apply str_lt_iff in Hzl as [Ha Hb], Hlt as [Hc _]. by apply Hb, (anti_symm str_le).
  - intros k Hr Hzk'. destruct (after_cursor cursor k) eqn:E; [right|by left].
    assert (k ∈ ks ++ l) as [|Hkl]%elem_of_app; [by apply Hk|done|].
    specialize (Hs3 z k Hzk Hkl). simpl in Hzk'. congruence.
Qed.

(** *** Batches *)

(** A checkpoint of the run. *)
Definition about (c : BackfillCheckpoint) : Prop :=
  cp_runId c = rid ∧ cp_jobVersion c = job_version ∧ cp_fingerprint c = fingerprint sha256 ∧ cp_keySet c = None.

Definition phase (c : BackfillCheckpoint) (m : gmap string json) : Prop :=
  match cp_status c with
  | completed => all_done m
  | rolled_back => False
  | _ => reached (cp_cursor c) m
  end.

(** What holds of the disk whenever a process ends. *)
Definition run_inv (d : disk D) : Prop :=
  sound_disk d ∧ ∃ c, dk_checkpoint d = Holds c ∧ about c ∧ phase c (recs d).

(** An opened job whose checkpoint is [c] and which has the keys [l] before it. *)
Definition at_work (c : BackfillCheckpoint) (h : H) (l : list string) (d : disk D) : Prop :=
  dk_checkpoint d = Holds c ∧ about c ∧ FINISHED (cp_status c) = false ∧ sound_disk d ∧
  reached (cp_cursor c) (recs d) ∧ insync (dk_store d) h ∧ remaining (cp_cursor c) l.

Lemma phase_unfinished c m : FINISHED (cp_status c) = false → phase c m ↔ reached (cp_cursor c) m.
Proof. unfold phase. by destruct (cp_status c). Qed.

Lemma at_work_inv c h l d : at_work c h l d → run_inv d.
Proof.
  intros (Hc & Ha & Hf & Hs & Hr & _). split; [done|]. exists c. split; [done|]. split; [done|].
  by apply phase_unfinished.
Qed.

Lemma reached_put cursor d h ks :
  insync d h → between (records d) → NoDup ks → reached cursor (records d) →
  reached cursor (put_all (oc_changes (planBatch h ks)) (records d)).
Proof.
  intros Hs Hb Hn Hr k r Hk Hc. destruct (put_changes d h ks Hs Hb Hn) as (_ & Hout & Hin).
  destruct (decide (k ∈ ks)); [by apply Hin|]. rewrite Hout by done. by apply Hr.
Qed.

Definition batch_post (d0 : disk D) (cs : list BackfillChange) (r : H + string) (d : disk D) : Prop :=
  sound_disk d ∧ dk_checkpoint d = dk_checkpoint d0 ∧
  match r with
  | inl h => recs d = put_all cs (recs d0) ∧ insync (dk_store d) h
  | inr e => faulty = true ∧ e ≠ EmptyString ∧ (recs d = recs d0 ∨ recs d = put_all cs (recs d0))
  end.

Lemma commit_batch_triple e n i h c l ks d0 :
  at_work c h l d0 → NoDup ks → (i ≤ size R0)%nat → n ≠ 0%nat →
  triple faulty careful run_inv (λ d, d = d0) (commit_batch e n rid i h (oc_changes (planBatch h ks)))
    (batch_post d0 (oc_changes (planBatch h ks))).
Proof.
  intros Hw Hn Hi Hn0. pose proof Hw as (Hc & Ha & Hf & (Hb & Hj & Hop) & Hr & Hs & _).
  destruct (put_changes _ h ks Hs Hb Hn) as (Hb' & _). pose proof (reached_put _ _ h ks Hs Hb Hn Hr) as Hr'.
  assert (NoDup (ch_key <$> oc_changes (planBatch h ks))) as Hnc by (eapply NoDup_sublist; [apply changes_keys|done]).
  assert (Forall wanted (oc_changes (planBatch h ks)) ∧ Forall (at_before (recs d0)) (oc_changes (planBatch h ks)))
    as [Hw1 Hw2].
  { split; apply Forall_forall; intros x Hx; by destruct (plan_wanted _ h ks x Hs Hb Hx). }
  unfold commit_batch. destruct (oc_changes (planBatch h ks)) as [|c0 cs0] eqn:Ecs.
  { apply hoare_ret. intros d ->. by repeat split. }
  rewrite <-Ecs in *. clear Ecs c0 cs0. set (cs := oc_changes (planBatch h ks)) in *.
  set (text := lines (entry_json rid (Z.of_nat i) (iso_text (e_journal e i)) <$> cs)).
  destruct (journalled_append (recs d0) (journal d0) cs (Z.of_nat i) (iso_text (e_journal e i)) Hb Hj Hw1
    ltac:(lia) Hnc) as [Hj1 Hj2].
  assert (∀ d, committing (with_journal rid text d0) cs d → sound_disk d) as Hsd.
  { intros d (_ & Hjd & Hm & Hopd). assert (journal d = Some (default EmptyString (journal d0) +:+ text)) as Ej.
    { rewrite Hjd. simpl. by rewrite lookup_insert_eq. }
    unfold sound_disk. rewrite Ej. simpl in Hm. by destruct Hm as [->| ->]. }
  assert (∀ d, committing (with_journal rid text d0) cs d → run_inv d) as Hcinv.
  { intros d Hd. split; [by apply Hsd|]. destruct Hd as (Hcd & _ & Hm & _). simpl in Hcd, Hm. exists c.
    split; [congruence|]. split; [done|]. apply phase_unfinished; [done|]. by destruct Hm as [->| ->]. }
  eapply (hoare_bind _ _ _ _ _ _ _ (λ _ d, d = with_journal rid text d0)).
  - apply hoare_act; [| |].
    + intros d ->. split; [done|]. intros _. apply Hcinv. split_and!; [done|done|by left|done].
    + intros d _ ->. by eapply at_work_inv.
    + intros d k _ -> Hk. split; [|by exists c; split; [done|]; split; [done|]; apply phase_unfinished].
      split_and!; [done| |done]. intros Hcare. rewrite (Hk Hcare). simpl. rewrite lookup_insert_eq.
      destruct (Hj Hcare) as (es & He & Hl). exists es. split; [|done]. simpl. rewrite He.
      by destruct (lines _); simpl; rewrite str_app_nil_r.
  - intros _. eapply hoare_weaken.
    + eapply hoare_crash; [by apply (commit_triple (with_journal rid text d0))|done].
    + intros d ->. split; [split_and!; [done|done|by left|done]|]. done.
    + intros [h'|err] d Hd; simpl in Hd.
      * destruct Hd as (Hcd & Hjd & Hm & Hsd'). split; [|by repeat split]. apply Hsd. split_and!; [done|done|by right|]. by eapply insync_open.
      * destruct Hd as (Hfd & Hed & Hd). split; [by apply Hsd|]. destruct Hd as (Hcd & _ & Hm & _). done.
Qed.

(** *** What a report tells *)

Definition tracks (h0 : H) (done : list string) (c : BackfillCheckpoint) (diff : list BackfillDiffEntry) : Prop :=
  let out := planBatch h0 done in
  diff = oc_diff out ∧ cp_counters c = oc_counters out ∧ cp_skipped c = oc_skipped out ∧ cp_failed c = oc_failed out.

Lemma mergeSkipped_app into add :
  NoDup (sk_key <$> into ++ add) → mergeSkipped into add = into ++ add.
Proof.
  revert into. induction add as [|x add IH]; intros into Hn; [by rewrite app_nil_r|].
  unfold mergeSkipped in *. cbn [foldl].
  destruct (list_find (λ y, sk_key y = sk_key x) into) as [[i y]|] eqn:E.
  - exfalso. apply list_find_Some in E as (Hy%list_elem_of_lookup_2 & Hk & _).
    rewrite fmap_app, NoDup_app in Hn. destruct Hn as (_ & Hd & _). apply (Hd (sk_key y)).
    + by apply list_elem_of_fmap_2.
    + rewrite Hk. by left.
  - rewrite IH by by rewrite <-(assoc_L (++)). by rewrite <-(assoc_L (++)).
Qed.

Lemma mergeFailed_app into add :
  NoDup (fl_key <$> into ++ add) → mergeFailed into add = into ++ add.
Proof.
  revert into. induction add as [|x add IH]; intros into Hn; [by rewrite app_nil_r|].
  unfold mergeFailed in *. cbn [foldl].
  destruct (list_find (λ y, fl_key y = fl_key x) into) as [[i y]|] eqn:E.
  - exfalso. apply list_find_Some in E as (Hy%list_elem_of_lookup_2 & Hk & _).
    rewrite fmap_app, NoDup_app in Hn. destruct Hn as (_ & Hd & _). apply (Hd (fl_key y)).
    + by apply list_elem_of_fmap_2.
    + rewrite Hk. by left.
  - rewrite IH by by rewrite <-(assoc_L (++)). by rewrite <-(assoc_L (++)).
Qed.

Lemma mergeFailed_length into add : (length (mergeFailed into add) ≤ length into + length add)%nat.
Proof.
  revert into. induction add as [|x add IH]; intros into; [simpl; lia|]. unfold mergeFailed in *. cbn [foldl].
  destruct (list_find _ into) as [[i y]|]; etrans; [apply IH|rewrite length_insert; simpl; lia|apply IH|].
  rewrite length_app. simpl. lia.
Qed.

Lemma saved_failed_length c ks h t :
  (length (cp_failed (saved c ks (planBatch h ks) t)) ≤ length (cp_failed c) + length (oc_failed (planBatch h ks)))%nat.
Proof. simpl. etrans; [apply length_filter|]. apply mergeFailed_length. Qed.

Lemma tracks_step h0 done c diff ks t :
  NoDup (done ++ ks) → tracks h0 done c diff →
  tracks h0 (done ++ ks) (saved c ks (planBatch h0 ks) t) (diff ++ oc_diff (planBatch h0 ks)).
Proof.
  intros Hn (-> & Hc & Hs & Hf). unfold tracks. rewrite planBatch_app. simpl. split; [done|].
  rewrite Hc, Hs, Hf. split; [done|].
  assert (∀ h ks, NoDup ks → NoDup (sk_key <$> oc_skipped (planBatch h ks)) ∧ NoDup (fl_key <$> oc_failed (planBatch h ks)))
    as Hnd by (intros h l Hl; split; (eapply NoDup_sublist; [|done]); [apply skipped_keys|apply failed_keys]).
  destruct (Hnd h0 _ Hn) as [Hn1 Hn2]. rewrite planBatch_app in Hn1, Hn2. simpl in Hn1, Hn2.
  split; [by apply mergeSkipped_app|]. rewrite mergeFailed_app by done.
  apply filter_keep. intros f [Hf1|Hf2]%elem_of_app; [left|right; by apply list_elem_of_fmap_2].
  intros Hk. apply NoDup_app in Hn as (_ & Hd & _). apply (Hd (fl_key f)); [|done].
  eapply sublist_subseteq; [apply failed_keys|]. by apply list_elem_of_fmap_2.
Qed.

(** *** The loop *)

(** Nothing goes wrong and nothing stops the loop, in which [n] records fail. *)
Definition quiet (o : BackfillOptions) (most : Z) (c : BackfillCheckpoint) (n : nat) : Prop :=
  faulty = false ∧ (∀ i, shouldStop o i = false) ∧ Z.of_nat (length (cp_failed c) + n) < most.

Definition loop_post (o : BackfillOptions) (most : Z) (todo rest : list string) (h : H)
    (c : BackfillCheckpoint) (diff : list BackfillDiffEntry)
    (r : BackfillCheckpoint * list BackfillDiffEntry * option stop) (d : disk D) : Prop :=
  let '(c', diff', r) := r in
  run_inv d ∧ about c' ∧ reached (cp_cursor c') (recs d) ∧
  (r = None → remaining (cp_cursor c') rest) ∧
  (∀ x, r = Some x → FINISHED x.1 = false) ∧
  (quiet o most c (length (oc_failed (planBatch h todo))) → r = None) ∧
  (∀ h0 done, tracks h0 done c diff → NoDup (done ++ todo) → (∀ k, k ∈ todo → load h k = load h0 k) →
     r = None → tracks h0 (done ++ todo) c' diff').

Lemma loop_post_cons o most ks todo rest h h' c c1 diff r d t :
  loop_post o most todo rest h' c1 (diff ++ oc_diff (planBatch h ks)) r d →
  c1 = saved c ks (planBatch h ks) t → (∀ k, k ∈ todo → load h' k = load h k) →
  loop_post o most (ks ++ todo) rest h c diff r d.
Proof.
  destruct r as [[c' diff'] r]. intros (Hi & Ha & Hr & Hrem & Hst & Hq & Ht) -> Hl. split_and!; try done.
  - intros (Hf & Hs & Hm). apply Hq. split_and!; [done|done|].
    pose proof (saved_failed_length c ks h t). rewrite planBatch_app in Hm. cbn [oc_failed join_outcome] in Hm.
    rewrite length_app in Hm. rewrite (planBatch_ext h h') by done. lia.
  - intros h0 done Htr Hn Hl0 Hnone. rewrite (assoc_L (++)) in Hn |- *. apply Ht; [|done| |done].
    + rewrite (planBatch_ext h0 h) by (intros; apply Hl0; rewrite elem_of_app; by left).
      apply tracks_step; [|done]. by apply NoDup_app in Hn as (? & _ & _).
    + intros k Hk. rewrite Hl by done. apply Hl0. rewrite elem_of_app. by right.
Qed.

Lemma batches_triple o e most attempts bs rest i h c diff :
  Forall (λ ks, ks ≠ []) bs → (i + length (concat bs) ≤ size R0)%nat → attempts ≠ 0%nat →
  triple faulty careful run_inv (at_work c h (concat bs ++ rest))
    (batches o e most attempts bs i h c diff) (loop_post o most (concat bs) rest h c diff).
Proof.
  intros Hne. revert i h c diff. induction Hne as [|ks bs Hks Hne IH]; intros i h c diff Hi Hat.
  { cbn [batches concat app]. apply hoare_ret. intros d Hw. pose proof (at_work_inv _ _ _ _ Hw) as Hinv.
    destruct Hw as (Hc & Ha & Hf & Hs & Hr & Hsy & Hrem). split_and!; try done.
    intros h0 done Ht _ _ _. by rewrite app_nil_r. }
  apply hoare_pre. intros d0 Hw. pose proof (at_work_inv _ _ _ _ Hw) as Hinv.
  pose proof Hw as (Hc & Ha & Hf & (Hb & Hj & Hop) & Hr & Hsy & Hrem). cbn [batches concat] in *.
  rewrite length_app in Hi. rewrite <-(assoc_L (++)) in Hrem.
  assert (∃ z, last ks = Some z) as [z Hz] by (destruct (last ks) eqn:E; [eauto|by apply last_None in E]).
  destruct (remaining_step _ _ _ _ Hrem Hz) as (Hrem' & Hn & Hcov).
  destruct (shouldStop o i) eqn:Hstop.
  { apply hoare_ret. intros d ->. split_and!; try done; [by intros x [= <-]|]. intros (_ & Hs & _). congruence. }
  assert (length ks ≠ 0%nat) by (by destruct ks).
  assert (cp_runId c = rid) as Erid by apply Ha. rewrite Erid.
  destruct (put_changes _ h ks Hsy Hb Hn) as (Hb' & Hout & Hin). set (cs := oc_changes (planBatch h ks)) in *.
  eapply hoare_bind; [eapply (commit_batch_triple e attempts (S i) h c _ ks d0 Hw Hn ltac:(lia) Hat)|].
  intros [h'|err]; cbv beta iota zeta.
  - set (c1 := saved c ks (planBatch h ks) (iso_text (e_saved e (S i)))).
    assert (∀ d, batch_post d0 cs (inl h') d → at_work c1 h' (concat bs ++ rest) (with_checkpoint (Holds c1) d)) as Hw1.
    { intros d ((Hbd & Hjd & Hopd) & Hcd & Hmd & Hsd). split_and!; try done; simpl.
      - rewrite Hz. intros k r Hk Hck. rewrite Hmd.
        destruct (Hcov k (ex_intro _ r Hk) Hck) as [Hold|Hin']; [|by apply Hin].
        by apply (reached_put _ _ h ks Hsy Hb Hn Hr).
      - by rewrite Hz. }
    eapply (hoare_bind _ _ _ _ _ _ _ (λ _ d, at_work c1 h' (concat bs ++ rest) d ∧
      ∀ k, k ∈ concat bs → load h' k = load h k)).
    { apply hoare_atomic.
      - intros d Hd. pose proof (Hw1 d Hd) as Hw'. split; [|intros _; by eapply at_work_inv]. split; [done|].
        intros k Hk. destruct Hd as (_ & _ & Hmd & Hsd).
        rewrite (load_law (num := num) _ _ k Hsd), (load_law (num := num) _ _ k Hsy), Hmd, Hout; [done|].
        intros Hk'. pose proof (sorted_NoDup _ (proj1 Hrem)) as (_ & Hd' & _)%NoDup_app.
        apply (Hd' k Hk'). rewrite elem_of_app. by left.
      - intros d _ ((Hbd & Hjd & Hopd) & Hcd & Hmd & Hsd). split; [done|]. exists c. split; [congruence|]. split; [done|].
        apply phase_unfinished; [done|]. rewrite Hmd. by apply (reached_put _ _ h ks Hsy Hb Hn Hr). }
    intros _. destruct (most <=? Z.of_nat (length (cp_failed c1))) eqn:Hmost.
    + apply hoare_ret. intros d [Hw' Hl]. pose proof (at_work_inv _ _ _ _ Hw') as Hinv'.
      destruct Hw' as (? & ? & ? & ? & ? & ? & ?). split_and!; try done; [by intros x [= <-]|].
      intros (_ & _ & Hm). exfalso. apply Z.leb_le in Hmost.
      pose proof (saved_failed_length c ks h (iso_text (e_saved e (S i)))) as Hsl. fold c1 in Hsl.
      rewrite planBatch_app in Hm. cbn [oc_failed join_outcome] in Hm. rewrite length_app in Hm. lia.
    + apply hoare_pre. intros d1 [Hw' Hl]. eapply hoare_weaken; [apply (IH (S i)); [lia|done]|by intros d ->|].
      intros r d Hpost. by eapply loop_post_cons.
  - destruct err as [|a err].
    + apply hoare_pre. by intros d (_ & _ & _ & [] & _).
    + apply hoare_ret. intros d (Hsd & Hcd & Hfd & _ & Hmd).
      assert (reached (cp_cursor c) (recs d)) as Hrd.
      { destruct Hmd as [->| ->]; [done|]. by apply (reached_put _ _ h ks Hsy Hb Hn Hr). }
      split_and!; try done; [|by intros x [= <-]|intros (Hq & _); congruence].
      split; [done|]. exists c. split; [congruence|]. split; [done|]. by apply phase_unfinished.
Qed.

(** *** A whole run *)

Lemma slices_spec fuel n (l : list string) :
  n ≠ 0%nat → (length l ≤ fuel)%nat → concat (slices fuel n l) = l ∧ Forall (λ ks, ks ≠ []) (slices fuel n l).
Proof.
  intros Hn. revert l. induction fuel as [|fuel IH]; intros [|k l] Hl; simpl in *; try done; [lia|].
  destruct n as [|n]; [done|]. destruct (IH (drop (S n) (k :: l))) as [Hc Hf].
  { simpl. rewrite length_drop. lia. }
  simpl in Hc, Hf. split; [simpl; by rewrite Hc, take_drop|]. by constructor.
Qed.

Lemma remaining_length cursor l : remaining cursor l → (length l ≤ size R0)%nat.
Proof.
  intros [Hs Hk]. rewrite <-size_dom. rewrite <-(size_list_to_set (C := gset string)) by by apply sorted_NoDup.
  apply subseteq_size. intros k Hin%elem_of_list_to_set. apply elem_of_dom. by apply Hk.
Qed.

Lemma remaining_nil cursor m : remaining cursor [] → reached cursor m → all_done m.
Proof.
  intros [_ Hk] Hr k r Hkr. apply Hr; [done|]. destruct (after_cursor cursor k) eqn:E; [|done].
  exfalso. eapply not_elem_of_nil. apply Hk. split; [eauto|done].
Qed.

Lemma planned_failures d h ks :
  insync d h → between (records d) → NoDup ks → (∀ k, k ∈ ks → is_Some (R0 !! k)) →
  (length (oc_failed (planBatch h ks)) ≤ size (failing R0))%nat.
Proof.
  intros Hs Hb Hn Hk. pose proof (NoDup_sublist _ _ (failed_keys h ks) Hn) as Hnf.
  rewrite <-(length_fmap fl_key), <-size_dom, <-(size_list_to_set (C := gset string)) by done.
  apply subseteq_size. intros k (f & -> & Hf)%elem_of_list_to_set%list_elem_of_fmap.
  apply elem_failed in Hf as (Hin & e & Hf). destruct (Hk _ Hin) as [r Hr]. apply elem_of_dom. exists r.
  apply map_lookup_filter_Some. split; [done|]. simpl. unfold unplannable.
  rewrite (load_law (num := num) d) in Hf by done. destruct (unreadable (fl_key f)) as [|] eqn:Hu; [done|].
  destruct Hf as [[= ]|(r' & [= Hr'] & Hp)].
  destruct (between_lookup _ _ _ Hb Hr) as [Hm|Hm]; rewrite Hr' in Hm; injection Hm as ->; [by rewrite Hp|].
  unfold goal in Hp. rewrite Hu in Hp. destruct (plan (fl_key f) r) as [[a l| |]|] eqn:Hpr; try done.
  - apply (plan_idempotent (num := num)) in Hpr. congruence.
  - congruence.
  - congruence.
Qed.

Definition matches (rp : BackfillReport) (out : BatchOutcome) : Prop :=
  rp_diff rp = oc_diff out ∧ rp_counters rp = oc_counters out ∧ rp_skipped rp = oc_skipped out ∧
  rp_failed rp = oc_failed out ∧ rp_planDigest rp = planDigest sha256 (oc_diff out).

(** The rest of the options of a run that nothing stops and in which [n] records fail. *)
Definition undisturbed (o : BackfillOptions) (c : BackfillCheckpoint) (n : nat) : Prop :=
  faulty = false ∧ (∀ i, shouldStop o i = false) ∧
  Z.of_nat (length (cp_failed c) + n) < default DEFAULT_MAX_FAILURES (maxFailures o).

Definition work_post (o : BackfillOptions) (h : H) (s : KeySelection) (c : BackfillCheckpoint)
    (rp : BackfillReport) (d : disk D) : Prop :=
  let out := planBatch h (limited o (ks_keys s)) in
  run_inv d ∧ (rp_status rp = "completed" → all_done (recs d)) ∧
  (undisturbed o c (length (oc_failed out)) → limit o = None → rp_status rp = "completed") ∧
  (undisturbed o c (length (oc_failed out)) → tracks h [] c [] → matches rp out).

Lemma work_triple (I : disk D → Prop) o e h s d0 :
  let c := first_checkpoint sha256 s e in
  about c → cp_status c = running → sound_disk d0 → insync (dk_store d0) h → reached (cp_cursor c) (recs d0) →
  remaining (cp_cursor c) (ks_keys s) → I d0 → (∀ d, run_inv d → I d) →
  triple faulty careful I (λ d, d = d0) (work sha256 o e h s) (work_post o h s c).
Proof.
  intros c Ha Hst Hs Hsy Hr Hrem HI0 HI. set (keys := limited o (ks_keys s)).
  set (rest := match limit o with Some n => drop n (ks_keys s) | None => [] end).
  assert (keys ++ rest = ks_keys s) as Hkr.
  { unfold keys, rest, limited. destruct (limit o); [apply take_drop|apply app_nil_r]. }
  assert (length keys ≤ size R0)%nat as Hlen.
  { apply remaining_length in Hrem. rewrite <-Hkr, length_app in Hrem. lia. }
  assert (batch_size o ≠ 0%nat) as Hbs by (unfold batch_size; lia).
  destruct (slices_spec (length keys) (batch_size o) keys Hbs ltac:(lia)) as [Hcat Hne].
  set (bs := slices (length keys) (batch_size o) keys) in *.
  assert (at_work c h (concat bs ++ rest) (with_checkpoint (Holds c) d0)) as Hw.
  { rewrite Hcat, Hkr. split_and!; try done. by rewrite Hst. }
  unfold work. fold c keys bs.
  eapply (hoare_bind _ _ _ _ _ _ _ (λ _ d, d = with_checkpoint (Holds c) d0)).
  { apply hoare_atomic; [|by intros d _ ->]. intros d ->. split; [done|]. intros _. apply HI. by eapply at_work_inv. }
  intros _. eapply hoare_bind.
  { eapply hoare_crash; [|done]. eapply hoare_weaken; [by apply (batches_triple o e _ _ bs rest 0 h c []);
      [done|rewrite Hcat; lia|lia]|by intros d ->|]. intros r d Hp. exact Hp. }
  rewrite Hcat. intros [[c' diff] r]. apply hoare_pre. intros d1 (Hi1 & Ha1 & Hr1 & Hrm1 & Hf1 & Hq1 & Ht1).
  set (r' := finish o s r). set (c2 := with_status c' _ _ _).
  assert (Hnone : r' = None → r = None ∧ rest = []).
  { unfold r', finish, rest. destruct r as [x|]; [by destruct (limit o)|]. destruct (limit o) as [n|]; [|done].
    destruct (n <? length (ks_keys s))%nat eqn:En; [done|]. intros _. split; [done|].
    apply drop_ge. by apply Nat.ltb_ge in En. }
  assert (Hfin : ∀ x, r' = Some x → FINISHED x.1 = false).
  { unfold r', finish. intros x. destruct r as [y|]; [destruct (limit o); intros [= <-]; by apply Hf1|].
    destruct (limit o) as [n|]; [|done]. destruct (_ <? _)%nat; [by intros [= <-]|done]. }
  assert (Hdone : cp_status c2 = completed → r' = None).
  { simpl. destruct r' as [x|]; [|done]. specialize (Hfin x eq_refl). simpl. intros E. by rewrite E in Hfin. }
  assert (Hall : r' = None → all_done (recs d1)).
  { intros Hn. destruct (Hnone Hn) as [Hrn Hrs]. eapply remaining_nil; [|exact Hr1]. rewrite <-Hrs. by apply Hrm1. }
  assert (run_inv (with_checkpoint (Holds c2) d1)) as Hi2.
  { split; [apply Hi1|]. exists c2. split; [done|]. split; [done|]. unfold phase, c2. simpl.
    destruct r' as [x|] eqn:Er; simpl; [|by apply Hall]. specialize (Hfin x eq_refl). by destruct (x.1). }
  eapply (hoare_bind _ _ _ _ _ _ _ (λ _ d, d = with_checkpoint (Holds c2) d1)).
  { apply hoare_atomic; [|by intros d _ ->; apply HI]. intros d ->. split; [done|]. intros _. by apply HI. }
  intros _. apply hoare_ret. intros d ->.
  split_and!; [done| | |].
  - cbn [rp_status]. intros E. apply Hall, Hdone. by destruct (cp_status c2).
  - intros Hu Hl. cbn [rp_status]. assert (r' = None) as Er.
    { unfold r', finish. rewrite Hl, (Hq1 Hu). done. }
    unfold c2. by rewrite Er.
  - intros Hu Htr. destruct (Ht1 h [] Htr) as (Hd & Hc & Hsk & Hfl).
    + rewrite app_nil_l. apply sorted_NoDup. rewrite <-Hkr in Hrem. destruct Hrem as [(Hk & _)%sorted_split _]. done.
    + done.
    + by apply Hq1.
    + unfold matches. simpl in *. by rewrite Hd, Hc, Hsk, Hfl.
Qed.

(** *** Under the lock *)

Lemma hoare_bind_ret {A B} (I P : disk D → Prop) (a : A) (f : A → io D B) Q :
  triple faulty careful I P (f a) Q → triple faulty careful I P (mret a ≫= f) Q.
Proof. done. Qed.

Definition lock_free {A} (Q : A → disk D → Prop) : Prop := ∀ a l d, Q a d → Q a (with_lock l d).

Lemma locked_triple {A} I P (m : io D A) (Q : A → disk D → Prop) force me :
  lock_free (λ _ : unit, I) → lock_free (λ _ : unit, P) → lock_free Q → (∀ d, P d → I d) →
  (∀ a d, Q a d → I d) → triple faulty careful I P m Q →
  triple faulty careful I (λ d, P d ∧ (faulty = false → dk_lock d = None ∨ force = true))
    (_ ← acquireLock force me; locked me m) Q.
Proof.
  intros HI HP HQ HPI HQI Hm. eapply (hoare_bind _ _ _ _ _ _ _ (λ _, P)).
  { apply hoare_atomic; [|intros d _ [? _]; by apply HPI]. intros d [Hd Hl].
    assert (P (with_lock (Some (Some me)) d)) as Hd' by by apply (HP tt).
    destruct (dk_lock d) as [l|]; [|split; [done|intros _; by apply HPI]].
    destruct force; [split; [done|intros _; by apply HPI]|].
    split; [|done]. destruct faulty; [done|]. by destruct (Hl eq_refl). }
  intros _. unfold locked.
  eapply (hoare_bind _ _ _ _ _ _ _ (λ r d, match r with Ok a => Q a d | Err e => faulty = true ∧ e ≠ EmptyString ∧ I d end)).
  { by eapply (hoare_catch _ _ I I). }
  intros r. eapply (hoare_bind _ _ _ _ _ _ _ (λ _ d, match r with Ok a => Q a d | Err e => faulty = true ∧ e ≠ EmptyString ∧ I d end)).
  - unfold release. apply hoare_get. intros d Hd.
    assert (∀ l, match r with Ok a => Q a (with_lock l d) | Err e => faulty = true ∧ e ≠ EmptyString ∧ I (with_lock l d) end)
      as Hl by (intros l; destruct r; [by apply HQ|]; destruct Hd as (? & ? & ?); split_and!; [done|done|by apply (HI tt)]).
    assert (I d ∧ ∀ l, I (with_lock l d)) as [HId HIl].
    { destruct r; [split; [by eapply HQI|intros l; by eapply HQI, HQ]|].
      destruct Hd as (_ & _ & ?). split; [done|]. intros l. by apply (HI tt). }
    destruct (dk_lock d) as [[l|]|]; [case_bool_decide|..]; try (apply hoare_ret; by intros d' ->).
    apply hoare_atomic; [|by intros d' _ ->]. intros d' ->.
    split; [apply Hl|intros _; apply HIl].
  - intros _. destruct r as [a|e]; simpl; [by apply hoare_ret|].
    apply hoare_pre. intros d (Hf & He & Hd). apply hoare_throw; [done|done|]. by intros d' ->.
Qed.

(** *** Resuming *)

Definition asks_resume (o : BackfillOptions) : Prop := resume o = true ∧ restart o = false ∧ retryFailed o = false.

(** The run has not written anything yet, and no other is unfinished. *)
Definition not_begun (d : disk D) : Prop :=
  recs d = R0 ∧ journal d = None ∧ opens d ∧
  (dk_checkpoint d = NoFile ∨ ∃ c, dk_checkpoint d = Holds c ∧ FINISHED (cp_status c) = true ∧ cp_runId c ≠ rid).

Definition any_inv (d : disk D) : Prop := not_begun d ∨ run_inv d.

Definition resumable (o : BackfillOptions) (d : disk D) : Prop :=
  truthy (confirmPlan o) = None ∧
  ∃ c, dk_checkpoint d = Holds c ∧ FINISHED (cp_status c) = false ∧ undisturbed o c (size (failing R0)) ∧ limit o = None.

Definition resume_post (d0 : disk D) (o : BackfillOptions) (rp : BackfillReport) (d : disk D) : Prop :=
  run_inv d ∧ (rp_status rp = "completed" → all_done (recs d)) ∧ (resumable o d0 → rp_status rp = "completed").

(** What the checkpoint file holds. *)
Definition file_of (existing : option BackfillCheckpoint) : cp_file :=
  match existing with Some c => Holds c | None => NoFile end.

(** [applyLocked] up to the selection of keys. *)
Lemma front_triple I o e d0 h existing Q :
  open_ (dk_store d0) = Ok h → dk_checkpoint d0 = file_of existing →
  triple faulty careful I (λ d, d = d0)
    (s ← lift (selectKeys sha256 h existing o); _ ← lift (confirm sha256 o h s); work sha256 o e h s) Q →
  triple faulty careful I (λ d, d = d0) (applyLocked sha256 o e) Q.
Proof.
  intros Hh Hc Ht. unfold applyLocked. apply hoare_get. intros d ->. rewrite Hh. apply hoare_bind_ret.
  eapply (hoare_bind _ _ _ _ _ _ _ (λ x d, d = d0 ∧ x = existing)).
  { apply hoare_get. intros d ->. rewrite Hc. destruct existing; by apply hoare_ret. }
  intros x. apply hoare_pre. by intros d [-> ->].
Qed.

Lemma refused_triple {A} x (f : A → io D BackfillReport) Q d0 :
  any_inv d0 → faulty = true → x ≠ EmptyString → triple faulty careful any_inv (λ d, d = d0) (throw x ≫= f) Q.
Proof.
  intros Hd Hf Hx. eapply (hoare_bind _ _ _ _ _ _ _ (λ _ _, False)); [|by intros a d fs []].
  apply hoare_throw; [done|done|]. by intros d' ->.
Qed.

Lemma not_begun_existing d :
  not_begun d → ∃ existing, dk_checkpoint d = file_of existing ∧ unfinished_of existing = None.
Proof.
  intros (_ & _ & _ & [Hc|(c & Hc & Hf & _)]); [by exists None|]. exists (Some c). split; [done|]. simpl. by rewrite Hf.
Qed.

Lemma resume_triple o e d0 :
  asks_resume o → any_inv d0 → (faulty = false → resumable o d0) →
  triple faulty careful any_inv (λ d, d = d0) (applyLocked sha256 o e) (resume_post d0 o).
Proof.
  intros (Hr & Hrs & Hrf) Hany Hq.
  assert (opens d0) as [h Hh] by (destruct Hany as [(_ & _ & ? & _)|[(_ & _ & ?) _]]; done).
  assert (∀ ex, dk_checkpoint d0 = file_of ex → unfinished_of ex = None →
    triple faulty careful any_inv (λ d, d = d0) (applyLocked sha256 o e) (resume_post d0 o)) as Hnone.
  { intros ex Hex Hun. eapply front_triple; [done|done|]. unfold selectKeys. rewrite Hr, Hrs, Hrf, Hun. cbn [andb].
    apply refused_triple; [done| |done]. destruct faulty; [done|].
    destruct (Hq eq_refl) as (_ & c & Hc & Hfi & _). rewrite Hex in Hc. destruct ex as [c'|]; [|done].
    injection Hc as ->. simpl in Hun. by rewrite Hfi in Hun. }
  destruct Hany as [Hb|Hinv]; [by destruct (not_begun_existing d0 Hb) as (ex & ? & ?); eapply Hnone|].
  pose proof Hinv as ((Hb & Hj & Ho) & c & Hc & Ha & Hph).
  destruct (FINISHED (cp_status c)) eqn:Hfin; [apply (Hnone (Some c)); [done|simpl; by rewrite Hfin]|].
  eapply (front_triple _ _ _ _ h (Some c)); [done|done|]. unfold selectKeys. rewrite Hr, Hrs, Hrf.
  cbn [andb unfinished_of]. rewrite Hfin.
  destruct Ha as (Hid & Hv & Hfp & Hks). rewrite Hv, Hfp, Hks, !bool_decide_true by done. cbn [negb orb default].
  apply hoare_bind_ret. set (s := {| ks_keys := _ |}).
  assert (any_inv d0) as Hany by by right.
  assert (insync (dk_store d0) h) as Hsy by by apply (open_law (num := num)).
  destruct (listKeys_law (num := num) _ _ Hsy) as [Hnd Hlk].
  unfold confirm. destruct (truthy (confirmPlan o)) as [x|] eqn:Hcp.
  { apply refused_triple; [done| |done]. destruct faulty; [done|]. destruct (Hq eq_refl) as (Hcf & _). congruence. }
  assert (remaining (cp_cursor c) (ks_keys s)) as Hrem
    by (apply remaining_start; [done|]; intros k; by rewrite Hlk, between_dom).
  apply hoare_bind_ret. eapply hoare_weaken; [apply work_triple| |]; try done.
  - exact (proj1 (phase_unfinished c _ Hfin) Hph).
  - intros d Hd. by right.
  - intros rp d (Hi & Hdn & Hcm & _). split_and!; [done|done|].
    intros (_ & c' & Hc' & _ & (Hnf & Hst & Hm) & Hl). assert (c' = c) as -> by congruence.
    apply Hcm; [|done]. split_and!; [done|done|]. unfold limited. rewrite Hl.
    assert (length (oc_failed (planBatch h (ks_keys s))) ≤ size (failing R0))%nat;
      [|change (cp_failed (first_checkpoint sha256 s e)) with (cp_failed c); lia].
    destruct Hrem as [Hsr Hkr].
    eapply planned_failures; [done|done|by apply sorted_NoDup|]. intros k Hk. by apply Hkr.
Qed.

(** *** Starting *)

Definition asks_fresh (o : BackfillOptions) : Prop := resume o = false ∧ restart o = false ∧ retryFailed o = false.

Definition run_id (e : env) : string := compact (iso_text (e_start e)) +:+ "-" +:+ e_rand e.

(** What a fresh run of an opened job plans. *)
Definition planned (h : H) (o : BackfillOptions) : BatchOutcome := planBatch h (limited o (sort_keys (listKeys h))).

Definition confirmed (o : BackfillOptions) (h : H) : Prop :=
  truthy (confirmPlan o) = None ∨ truthy (confirmPlan o) = Some (planDigest sha256 (oc_diff (planned h o))).

Definition fresh_post (h : H) (o : BackfillOptions) (rp : BackfillReport) (d : disk D) : Prop :=
  run_inv d ∧ (rp_status rp = "completed" → all_done (recs d)) ∧
  (faulty = false → (∀ i, shouldStop o i = false) →
   Z.of_nat (length (oc_failed (planned h o))) < default DEFAULT_MAX_FAILURES (maxFailures o) → matches rp (planned h o)).

Lemma fresh_triple o e d0 h :
  asks_fresh o → rid = run_id e → not_begun d0 → open_ (dk_store d0) = Ok h → (faulty = false → confirmed o h) →
  triple faulty careful any_inv (λ d, d = d0) (applyLocked sha256 o e) (fresh_post h o).
Proof.
  intros (Hr & Hrs & Hrf) Hrid Hnb Hh Hcf. destruct (not_begun_existing d0 Hnb) as (ex & Hex & Hun).
  assert (any_inv d0) as Hany by by left. destruct Hnb as (HR & Hj & Ho & _).
  eapply front_triple; [done|done|]. unfold selectKeys. rewrite Hr, Hrs, Hrf, Hun. cbn [andb].
  apply hoare_bind_ret. set (s := {| ks_keys := _ |}).
  assert (insync (dk_store d0) h) as Hsy by by apply (open_law (num := num)).
  destruct (listKeys_law (num := num) _ _ Hsy) as [Hnd Hlk].
  assert (remaining None (sort_keys (listKeys h))) as Hrem.
  { pose proof (remaining_start None (listKeys h) Hnd) as Hx. rewrite filter_keep in Hx by done.
    apply Hx. intros k. by rewrite Hlk, HR. }
  assert (triple faulty careful any_inv (λ d, d = d0) (work sha256 o e h s) (fresh_post h o)) as Hwork.
  { eapply hoare_weaken; [apply work_triple| |]; try done.
    - unfold sound_disk. rewrite HR. split_and!; [intros k; destruct (R0 !! k); auto| |done]. intros _. exists []. rewrite Hj.
      split; [done|]. split; [constructor|]. intros k r Hkr. by left.
    - intros d Hd. by right.
    - intros rp d (Hi & Hdn & _ & Hm). split_and!; [done|done|]. intros Hf Hs Hlt. by apply Hm. }
  unfold confirm. destruct (truthy (confirmPlan o)) as [x|] eqn:Hcp; [|by apply hoare_bind_ret].
  cbn [ks_resumeFrom s]. case_bool_decide as Hdig; [by apply hoare_bind_ret|].
  apply refused_triple; [done| |done]. destruct faulty; [done|].
  destruct (Hcf eq_refl) as [Hc'|Hc']; rewrite Hcp in Hc'; [done|]. by injection Hc' as ->.
Qed.

(** *** Locked runs *)

Definition can_lock (force : bool) (d : disk D) : Prop := dk_lock d = None ∨ force = true.

(** A computation that does not look at the lock, run under it. *)
Lemma under_lock {A} (I : disk D → Prop) d0 (m : io D A) (Q : A → disk D → Prop) force me :
  lock_free (λ _ : unit, I) → lock_free Q → I d0 → (∀ a d, Q a d → I d) →
  (faulty = false → can_lock force d0) →
  (∀ l, triple faulty careful I (λ d, d = with_lock l d0) m Q) →
  triple faulty careful I (λ d, d = d0) (_ ← acquireLock force me; locked me m) Q.
Proof.
  intros HI HQ HI0 HQI Hl Hm. eapply hoare_weaken; [apply (locked_triple I (λ d, ∃ l, d = with_lock l d0) m Q)| |done].
  - done.
  - intros _ l d [l' ->]. by exists l.
  - done.
  - intros d [l ->]. by apply (HI tt).
  - done.
  - apply hoare_pre. intros d [l ->]. apply Hm.
  - intros d ->. split; [|done]. exists (dk_lock d0). by destruct d0.
Qed.

(** The invariants do not mention the lock. *)
Lemma any_inv_lock_free : lock_free (λ _ : unit, any_inv).
Proof. intros _ l d Hd. exact Hd. Qed.

Lemma resume_post_lock_free d0 o : lock_free (resume_post d0 o).
Proof. intros rp l d Hd. exact Hd. Qed.

Lemma fresh_post_lock_free h o : lock_free (fresh_post h o).
Proof. intros rp l d Hd. exact Hd. Qed.

Lemma apply_resume_triple o e d0 :
  asks_resume o → any_inv d0 → (faulty = false → resumable o d0 ∧ can_lock (forceUnlock o) d0) →
  triple faulty careful any_inv (λ d, d = d0) (apply sha256 o e) (resume_post d0 o).
Proof.
  intros Ho Hd Hq. apply under_lock;
    [apply any_inv_lock_free|apply resume_post_lock_free|done|by intros rp d [? _]; right|by intros Hf; apply Hq|].
  intros l. apply (resume_triple o e (with_lock l d0)); [done|by apply (any_inv_lock_free tt)|].
  intros Hf. exact (proj1 (Hq Hf)).
Qed.

Lemma apply_fresh_triple o e d0 h :
  asks_fresh o → rid = run_id e → not_begun d0 → open_ (dk_store d0) = Ok h →
  (faulty = false → confirmed o h ∧ can_lock (forceUnlock o) d0) →
  triple faulty careful any_inv (λ d, d = d0) (apply sha256 o e) (fresh_post h o).
Proof.
  intros Ho Hr Hd Hh Hq. apply under_lock;
    [apply any_inv_lock_free|apply fresh_post_lock_free|by left|by intros rp d [? _]; right|by intros Hf; apply Hq|].
  intros l. apply (fresh_triple o e (with_lock l d0)); [done|done|exact Hd|done|]. intros Hf. exact (proj1 (Hq Hf)).
Qed.

(** *** Rolling back *)

Lemma parse_journal_lines es :
  Forall (λ v, natural num v = true) es →
  parse_journal num (filter (λ l, trim l ≠ EmptyString) (split_on newline (lines es))) = Ok es.
Proof.
  induction 1 as [|v es Hv Hes IH]; [done|]. pose proof (natural_ok num _ Hv) as Hok.
  unfold lines. cbn [foldr]. fold (lines es). rewrite split_on_line by by apply print_no_newline.
  rewrite filter_cons, decide_True by by apply print_nonblank.
  cbn [parse_journal]. rewrite JSON_parse_print by done. by rewrite IH.
Qed.

Hypothesis R0_natural : ∀ k r, R0 !! k = Some r → natural num r = true.
Hypothesis R0_size : Z.of_nat (size R0) ≤ 9007199254740992.

Lemma entry_natural v k r : R0 !! k = Some r → is_entry v k r → natural num v = true.
Proof.
  intros Hr (i & t & -> & Hi). pose proof (R0_natural k r Hr) as Hn.
  assert (natural num (goal k r) = true) as Hg.
  { unfold goal. destruct (unreadable k); [done|]. destruct (plan k r) as [[a l| |]|] eqn:E; try done.
    by eapply (plan_natural (num := num)). }
  apply natural_literal; [by apply (bool_decide_unpack _)|]. repeat constructor; simpl; try done.
  apply natural_jint. lia.
Qed.

(** The disk during a rollback of the journal [es]. *)
Definition undoing (es : list json) (d : disk D) : Prop :=
  between (recs d) ∧ journal d = Some (lines es) ∧ logged (recs d) es ∧ opens d ∧ dk_checkpoint d ≠ Garbled.

Definition back (ks : list string) (m : gmap string json) : Prop :=
  ∀ k r, k ∈ ks → R0 !! k = Some r → m !! k = Some r.

(** Putting back an original record. *)
Lemma restore_one_back m ok bad c m' ok' bad' ks :
  wanted c → between m → back ks m → restore_one (m, ok, bad) c (m', ok', bad') →
  between m' ∧ bad' = bad ∧ back (ch_key c :: ks) m' ∧ ∀ k r, R0 !! k = Some r → m !! k = Some r → m' !! k = Some r.
Proof.
  intros [Hr Ha] Hb Hk Hx.
  assert (∀ m1, m1 !! ch_key c = Some (before c) → (∀ k, k ≠ ch_key c → m1 !! k = m !! k) →
    between m1 ∧ back (ch_key c :: ks) m1 ∧ ∀ k r, R0 !! k = Some r → m !! k = Some r → m1 !! k = Some r) as Hgo.
  { intros m1 H1c H1o. split_and!.
    - intros k. destruct (decide (k = ch_key c)) as [->|Hne]; [rewrite Hr; by left|]. rewrite H1o by done. apply Hb.
    - intros k r Hin Hkr. destruct (decide (k = ch_key c)) as [->|Hne]; [congruence|]. rewrite H1o by done.
      apply elem_of_cons in Hin as [?|Hin]; [done|]. by apply Hk.
    - intros k r Hkr Hm. destruct (decide (k = ch_key c)) as [->|Hne]; [congruence|]. by rewrite H1o. }
  destruct Hx as [(Hm & [= -> -> ->])|[(_ & Hm & [= -> -> ->])|(Hn1 & Hn2 & _)]].
  - destruct (Hgo (<[ch_key c := before c]> m)) as (? & ? & ?); [by rewrite lookup_insert_eq| |done].
    intros k Hne. by rewrite lookup_insert_ne.
  - by destruct (Hgo m) as (? & ? & ?).
  - exfalso. rewrite Ha in Hn1. by destruct (between_lookup _ _ _ Hb Hr).
Qed.

Lemma restores_back cs m ok bad m' ok' bad' ks :
  Forall wanted cs → between m → back ks m → restores cs (m, ok, bad) (m', ok', bad') →
  between m' ∧ bad' = bad ∧ back ((ch_key <$> cs) ++ ks) m' ∧
  ∀ k r, R0 !! k = Some r → m !! k = Some r → m' !! k = Some r.
Proof.
  intros Hw. revert m ok bad ks. induction Hw as [|c cs Hc Hw IH]; intros m ok bad ks Hb Hk Hx.
  { inversion Hx; subst. done. }
  inversion Hx as [|? ? ? [[m1 ok1] bad1] ? Hone Hrest]; subst.
  destruct (restore_one_back _ _ _ _ _ _ _ ks Hc Hb Hk Hone) as (Hb1 & -> & Hk1 & Hs1).
  destruct (IH _ _ _ _ Hb1 Hk1 Hrest) as (Hb2 & -> & Hk2 & Hs2). split_and!; [done|done| |auto].
  intros k r Hin. apply Hk2. set_solver.
Qed.

Lemma restore_all_triple es h parts acc ks :
  Forall wanted (concat parts) →
  triple faulty careful (undoing es) (λ d, undoing es d ∧ back ks (recs d)) (restore_all h parts acc)
    (λ r d, undoing es d ∧ conflicts r = conflicts acc ∧ back ((ch_key <$> concat parts) ++ ks) (recs d)).
Proof.
  revert acc ks. induction parts as [|cs parts IH]; intros acc ks Hw; cbn [restore_all concat] in *.
  { apply hoare_ret. naive_solver. }
  apply Forall_app in Hw as [Hw1 Hw2].
  eapply (hoare_bind _ _ _ _ _ _ _ (λ r d, undoing es d ∧ conflicts r = [] ∧ back ((ch_key <$> cs) ++ ks) (recs d))).
  - apply hoare_atomic; [|by intros d _ [? _]]. intros d [(Hb & Hj & (Hl1 & Hl2) & [h' Ho] & Hg) Hk].
    destruct (restore_law (num := num) _ h _ cs Ho) as (x & r & h2 & Hr & Ho2 & Hx). rewrite Hr.
    cbn [mbind result_bind]. destruct (restores_back _ _ _ _ _ _ _ ks Hw1 Hb Hk Hx) as (Hb2 & Hc & Hk2 & Hs2).
    assert (undoing es (with_store x d)) as Hu.
    { split_and!; [done|done| |by exists h2|done]. split; [done|]. intros k r0 Hr0.
      destruct (Hl2 k r0 Hr0) as [?|?]; [left; by apply Hs2|by right]. }
    split; [|done]. split; [done|]. split; [|done]. by destruct (conflicts r).
  - intros r. apply hoare_pre. intros d (Hu & Hc & Hk). eapply hoare_weaken; [by apply (IH _ ((ch_key <$> cs) ++ ks))| |].
    + by intros d' ->.
    + intros r' d' (Hu' & Hc' & Hk'). split_and!; [done|by rewrite Hc'; simpl; rewrite Hc, app_nil_r|].
      intros k r0 Hin. apply Hk'. rewrite fmap_app in Hin. set_solver.
Qed.

Lemma part_spec fuel n (l : list BackfillChange) :
  n ≠ 0%nat → (length l ≤ fuel)%nat → concat (part fuel n l) = l.
Proof.
  intros Hn. revert l. induction fuel as [|fuel IH]; intros [|c l] Hl; simpl in *; try done; [lia|].
  destruct n as [|n]; [done|]. rewrite IH; [apply (take_drop (S n) (c :: l))|].
  simpl. rewrite length_drop. lia.
Qed.

(** The changes of a journal are changes of original records. *)
Lemma change_of_entry v k r : is_entry v k r → change_of v = {| ch_key := k; before := r; after := goal k r |}.
Proof. by intros (i & t & -> & _). Qed.

Lemma rollback_triple es size force e d0 :
  undoing es d0 → (faulty = false → can_lock force d0) →
  triple faulty careful (undoing es) (λ d, d = d0) (rollback num rid size force e)
    (λ r d, undoing es d ∧ conflicts r = [] ∧ recs d = R0).
Proof.
  intros Hu Hl. apply under_lock; [by intros _ l d|by intros r l d|done|by intros r d [? _]|done|].
  intros l. set (d1 := with_lock l d0). assert (undoing es d1) as Hu1 by exact Hu.
  pose proof Hu1 as (Hb & Hj & (Hl1 & Hl2) & [h Ho] & Hg).
  apply hoare_get. intros d ->. rewrite Ho. apply hoare_bind_ret. set (cs := change_of <$> reverse es).
  assert (Forall wanted cs) as Hw.
  { apply Forall_fmap, Forall_forall. intros v Hv. rewrite elem_of_reverse in Hv. rewrite Forall_forall in Hl1.
    destruct (Hl1 v Hv) as (k & r & Hent & Hr). simpl. by rewrite (change_of_entry v k r Hent). }
  eapply (hoare_bind _ _ _ _ _ _ _ (λ x d, d = d1 ∧ x = es)).
  { apply hoare_get. intros d ->. rewrite Hj. unfold lift. rewrite parse_journal_lines; [by apply hoare_ret|].
    eapply Forall_impl; [done|]. intros v (k & r & Hent & Hr). by eapply entry_natural. }
  intros x. apply hoare_pre. intros d [-> ->]. fold cs.
  set (n := match size with Some p => Pos.to_nat p | None => Z.to_nat DEFAULT_BATCH_SIZE end).
  assert (n ≠ 0%nat) as Hn by (unfold n, DEFAULT_BATCH_SIZE; destruct size; lia).
  pose proof (part_spec (length cs) n cs Hn ltac:(lia)) as Hparts.
  eapply (hoare_bind _ _ _ _ _ _ _ (λ r d, undoing es d ∧ conflicts r = [] ∧ recs d = R0)).
  { eapply hoare_weaken; [apply (restore_all_triple es h _ _ []); by rewrite Hparts| |].
    - intros d ->. split; [done|]. by intros k r ?%not_elem_of_nil.
    - intros r d (Hud & Hc & Hk). split; [done|]. split; [done|]. rewrite Hparts, app_nil_r in Hk.
      apply map_eq. intros k. destruct Hud as (Hbd & _ & (_ & Hlog) & _). specialize (Hbd k).
      destruct (R0 !! k) as [r0|] eqn:Hr; [|done]. destruct (Hlog k r0 Hr) as [?|(v & Hv & Hent)]; [done|].
      apply Hk; [|done]. apply list_elem_of_fmap. exists (change_of v). split; [by rewrite (change_of_entry v k r0 Hent)|].
      apply list_elem_of_fmap_2. by rewrite elem_of_reverse. }
  intros r. eapply (hoare_bind _ _ _ _ _ _ _ (λ _ d, undoing es d ∧ conflicts r = [] ∧ recs d = R0)).
  { apply hoare_get. intros d Hd. destruct (dk_checkpoint d) eqn:Ec; [by apply hoare_ret; intros d' ->| |by apply hoare_ret; intros d' ->].
    exfalso. by destruct Hd as [(_ & _ & _ & _ & ?) _]. }
  intros c. eapply (hoare_bind _ _ _ _ _ _ _ (λ _ d, undoing es d ∧ conflicts r = [] ∧ recs d = R0)).
  { destruct c as [c|]; [case_bool_decide|]; try by apply hoare_ret.
    apply hoare_atomic; [|by intros d _ [? _]]. intros d ((Hbd & Hjd & Hld & Hod & Hgd) & Hc & HR).
    assert (∀ f, f ≠ Garbled → undoing es (with_checkpoint f d)) as Hck by by intros f Hf; split_and!.
    split; [split; [by apply Hck|done]|]. intros _. by apply Hck. }
  intros _. by apply hoare_ret.
Qed.
End run.

(** ** Histories of runs *)
Section history.
Context (num sha256 : string → string) {D H : Type} `{BackfillJobLaws num D H}.

Notation session := (BackfillOptions * env * list fate)%type.

Definition session_ (d : disk D) (s : session) : disk D := (apply sha256 s.1.1 s.1.2 d s.2).1.1.

Definition history (d : disk D) (ss : list session) : disk D := foldl session_ d ss.

(** The reference: every record mapped to its goal. *)
Definition backfilled (m : gmap string json) : gmap string json :=
  map_imap (λ k r, Some (goal num k r)) m.

Lemma backfilled_all_done m R0 : between num R0 m → all_done num R0 m → m = backfilled R0.
Proof.
  intros Hb Ha. apply map_eq. intros k. unfold backfilled. rewrite map_lookup_imap.
  specialize (Hb k). destruct (R0 !! k) as [r|] eqn:E; [|done]. simpl. by apply Ha.
Qed.

Lemma hoare_run {A} (careful : bool) (I : disk D → Prop) d (m : io D A) Q fs :
  triple true careful I (λ d', d' = d) m Q → (∀ a d, Q a d → I d) → Forall (tolerated careful) fs → I (m d fs).1.1.
Proof.
  intros Ht HQ Hf. assert (fates_ok true careful fs) as Hok by by split. specialize (Ht d fs eq_refl Hok).
  destruct (m d fs) as [[d' fs'] [a|x|]]; destruct Ht as [_ Ht]; simpl; naive_solver.
Qed.

(** A fresh run and its resumptions. *)
Lemma history_inv careful d0 o e fs ss :
  not_begun num (records (dk_store d0)) (run_id e) d0 → asks_fresh o → Forall (tolerated careful) fs →
  Forall (λ s : session, asks_resume s.1.1 ∧ Forall (tolerated careful) s.2) ss →
  any_inv num sha256 careful (records (dk_store d0)) (run_id e) (history d0 ((o, e, fs) :: ss)).
Proof.
  intros Hnb Ho Hfs Hss. cbn [history foldl]. set (R0 := records (dk_store d0)). set (rid := run_id e).
  assert (any_inv num sha256 careful R0 rid (session_ d0 (o, e, fs))) as Hi1.
  { pose proof Hnb as (_ & _ & [h Hh] & _).
    eapply (hoare_run careful (any_inv num sha256 careful R0 rid) d0 (apply sha256 o e));
      [by eapply (apply_fresh_triple num sha256 true careful R0 rid o e d0 h)| |done].
    intros rp d [? _]. by right. }
  change (any_inv num sha256 careful R0 rid (foldl session_ (session_ d0 (o, e, fs)) ss)).
  revert Hi1. generalize (session_ d0 (o, e, fs)).
  induction Hss as [|[[o' e'] fs'] ss [Ho' Hf'] Hss IH]; intros d Hd; [done|]. cbn [foldl]. apply IH.
  eapply (hoare_run careful (any_inv num sha256 careful R0 rid) d (apply sha256 o' e'));
    [by eapply (apply_resume_triple num sha256 true careful R0 rid o' e' d)| |done].
  intros rp d' [? _]. by right.
Qed.

Lemma hoare_returns {A} careful (I : disk D → Prop) d (m : io D A) Q :
  triple false careful I (λ d', d' = d) m Q → ∃ a d', m d [] = (d', [], Returned a) ∧ Q a d'.
Proof.
  intros Ht. assert (fates_ok false careful []) as Hok by by split. specialize (Ht d [] eq_refl Hok).
  destruct (m d []) as [[d' fs'] [a|x|]]; destruct Ht as [[_ Hf] Ht]; [|by destruct Ht..].
  rewrite (Hf eq_refl). eauto.
Qed.

(** C3: a backfill gets where it should, whatever interrupts it.  A fresh run is
    started and then resumed any number of times, with any batch sizes, limits and
    thresholds; every write may fail, take effect and fail, or be the last thing the
    process does, as long as every error thrown has a message (an empty one counts as
    success: [silent_commit_error_completes]).  Then every record is what it was or
    what the job makes of it, once; if the run's checkpoint says completed, all records
    are what the job makes of them, as if each had been planned once; and while the run
    is unfinished, a resumption completes it in which no write fails, and which asks
    for no stop, no limit and no plan to be confirmed, gets the lock, and allows more
    failures than the checkpoint lists and the job cannot plan taken together.  (With
    that many failures a resumption aborts again.) *)
Theorem backfill_converges d0 o e fs ss :
  let R0 := records (dk_store d0) in
  let d := history d0 ((o, e, fs) :: ss) in
  not_begun num R0 (run_id e) d0 → asks_fresh o → Forall (tolerated false) fs →
  Forall (λ s : session, asks_resume s.1.1 ∧ Forall (tolerated false) s.2) ss →
  (∀ k, records (dk_store d) !! k = R0 !! k ∨ records (dk_store d) !! k = backfilled R0 !! k) ∧
  ∀ c, dk_checkpoint d = Holds c → cp_runId c = run_id e →
    (cp_status c = completed → records (dk_store d) = backfilled R0) ∧
    (FINISHED (cp_status c) = false → ∀ o' e', asks_resume o' → can_lock (forceUnlock o') d →
     truthy (confirmPlan o') = None → limit o' = None → (∀ i, shouldStop o' i = false) →
     Z.of_nat (length (cp_failed c) + size (failing num R0)) < default DEFAULT_MAX_FAILURES (maxFailures o') →
     ∃ rp d', apply sha256 o' e' d [] = (d', [], Returned rp) ∧ rp_status rp = "completed" ∧
              records (dk_store d') = backfilled R0).
Proof.
  intros R0 d Hnb Ho Hfs Hss. pose proof (history_inv false d0 o e fs ss Hnb Ho Hfs Hss) as Hi. fold R0 d in Hi.
  assert (between num R0 (records (dk_store d))) as Hb.
  { destruct Hi as [(-> & _)|[[? _] _]]; [|done]. intros k. destruct (R0 !! k); auto. }
  split.
  { intros k. pose proof (Hb k) as Hk. unfold backfilled. rewrite map_lookup_imap.
    destruct (R0 !! k) as [r|]; simpl; [|by left]. destruct Hk; auto. }
  intros c Hc Hid. destruct Hi as [(_ & _ & _ & [Hc'|(c' & Hc' & _ & Hne)])|Hinv]; [congruence|congruence|].
  pose proof Hinv as (_ & c' & Hc' & _ & Hph). assert (c' = c) as -> by congruence. split.
  - intros Hst. apply backfilled_all_done; [done|]. unfold phase in Hph. by rewrite Hst in Hph.
  - intros Hfin o' e' Ho' Hlk Hcf Hlim Hstop Hmost.
    assert (resumable num false R0 o' d) as Hres by (split; [done|]; exists c; by split_and!).
    destruct (hoare_returns false (any_inv num sha256 false R0 (run_id e)) d (apply sha256 o' e')
      (resume_post num sha256 false false R0 (run_id e) d o')) as (rp & d' & Hr & Hi' & Hdone & Hcm).
    { apply apply_resume_triple; [done|by right|done]. }
    exists rp, d'. split; [done|]. specialize (Hcm Hres). split; [done|].
    apply backfilled_all_done; [apply Hi'|by apply Hdone].
Qed.

Lemma applyLocked_eq o e d fs h existing :
  open_ (dk_store d) = Ok h → dk_checkpoint d = file_of existing →
  applyLocked sha256 o e d fs =
    match selectKeys sha256 h existing o with
    | Err x => (d, fs, Threw x)
    | Ok s => match confirm sha256 o h s with Err x => (d, fs, Threw x) | Ok _ => work sha256 o e h s d fs end
    end.
Proof.
  intros Hh Hc. unfold applyLocked. change ((get ≫= ?f) d fs) with (f d d fs). cbv beta. rewrite Hh.
  change ((lift (Ok h) ≫= ?f) d fs) with (f h d fs). cbv beta.
  assert (∀ (B : Type) (f : _ → io D B), (readCheckpoint ≫= f) d fs = f existing d fs) as ->.
  { intros B f. unfold readCheckpoint, mbind, io_bind, get. rewrite Hc. by destruct existing. }
  destruct (selectKeys sha256 h existing o) as [s|x]; [|done].
  change ((lift (Ok s) ≫= ?f) d fs) with (f s d fs). cbv beta.
  by destruct (confirm sha256 o h s).
Qed.

(** A call that is refused before it writes leaves only the lock, which is released. *)
Lemma refused_unlocked o e (d : disk D) x :
  dk_lock d = None → applyLocked sha256 o e (with_lock (Some (Some (e_me e))) d) [] =
    (with_lock (Some (Some (e_me e))) d, [], Threw x) →
  apply sha256 o e d [] = (d, [], Threw x).
Proof.
  intros Hl Hx. destruct d as [st cpf js lk]. simpl in *. subst lk.
  unfold apply, acquireLock, atomic, act, mbind, io_bind at 1. simpl.
  unfold locked, catch, mbind, io_bind at 1. rewrite Hx. unfold release, mbind, io_bind, get. simpl.
  by rewrite bool_decide_true.
Qed.

(** C25: a dry run tells what applying will do.  When the preview lists fewer failed
    records than the failure threshold, nobody holds the lock, no write fails and no
    stop is asked for, a fresh run reports the same differences, counts, skipped and
    failed records, and the same digest as the preview made just before with the same
    options, also when the plan is confirmed by that digest.  Confirming another digest
    is refused and leaves the disk as it was.  (At the threshold the run aborts between
    batches and reports less than the preview: [threshold_aborts].) *)
Theorem preview_predicts_apply d0 o e rp0 :
  let R0 := records (dk_store d0) in
  not_begun num R0 (run_id e) d0 → dk_lock d0 = None → asks_fresh o → (∀ i, shouldStop o i = false) →
  Z.of_nat (length (rp_failed rp0)) < default DEFAULT_MAX_FAILURES (maxFailures o) →
  preview sha256 o d0 [] = (d0, [], Returned rp0) →
  (truthy (confirmPlan o) = None ∨ truthy (confirmPlan o) = Some (rp_planDigest rp0) →
   ∃ rp d', apply sha256 o e d0 [] = (d', [], Returned rp) ∧
     (rp_diff rp, rp_counters rp, rp_skipped rp, rp_failed rp, rp_planDigest rp) =
     (rp_diff rp0, rp_counters rp0, rp_skipped rp0, rp_failed rp0, rp_planDigest rp0)) ∧
  (∀ x, truthy (confirmPlan o) = Some x → x ≠ rp_planDigest rp0 →
   ∃ msg, apply sha256 o e d0 [] = (d0, [], Threw msg)).
Proof.
  intros R0 Hnb Hlk Ho Hstop Hmost Hpre. pose proof Hnb as (_ & _ & [h Hh] & _).
  destruct (not_begun_existing num R0 (run_id e) d0 Hnb) as (ex & Hex & Hun).
  destruct d0 as [st cpf js lk]. simpl in Hlk, Hh, Hex. subst lk cpf.
  assert (rp0 = {| rp_jobId := job_id; rp_jobVersion := job_version; rp_mode := "dry-run"; rp_runId := None; rp_status := "previewed"; rp_resumedFrom := None;
    rp_counters := oc_counters (planned h o); rp_diff := oc_diff (planned h o); rp_skipped := oc_skipped (planned h o);
    rp_failed := oc_failed (planned h o); rp_planDigest := planDigest sha256 (oc_diff (planned h o));
    rp_rollback := job_rollback; rp_error := None |}) as ->.
  { destruct Ho as (Hr & Hrs & Hrf). unfold preview, get, mbind, io_bind in Hpre. simpl in Hpre. rewrite Hh in Hpre.
    unfold lift, readCheckpoint, get, mret, io_ret in Hpre. simpl in Hpre.
    destruct ex as [c|]; simpl in Hpre; unfold selectKeys in Hpre; rewrite Hr, Hrs, Hrf, Hun in Hpre;
      simpl in Hpre; by injection Hpre as <-. }
  simpl. split.
  - intros Hcf. destruct (hoare_returns false (any_inv num sha256 false R0 (run_id e)) {| dk_store := st; dk_checkpoint := file_of ex;
      dk_journals := js; dk_lock := None |} (apply sha256 o e)
      (fresh_post num sha256 false false R0 (run_id e) h o)) as (rp & d' & Hr & _ & _ & Hm).
    { apply apply_fresh_triple; [done|done|done|done|]. intros _. split; [done|]. by left. }
    exists rp, d'. split; [done|]. destruct (Hm eq_refl Hstop Hmost) as (-> & -> & -> & -> & ->). done.
  - intros x Hx Hne. destruct Ho as (Hr & Hrs & Hrf). eexists. apply refused_unlocked; [done|].
    erewrite applyLocked_eq by done. unfold selectKeys. rewrite Hr, Hrs, Hrf, Hun. cbn [andb].
    unfold confirm. rewrite Hx. cbn [ks_resumeFrom ks_keys]. fold (planned h o). by rewrite bool_decide_false.
Qed.

Notation undo := (option positive * bool * env * list fate)%type.

Definition undo_ (rid : string) (d : disk D) (u : undo) : disk D :=
  let '(size, force, e, fs) := u in (rollback num rid size force e d fs).1.1.

(** C6: a backfill can be taken back.  After a fresh run and any number of resumptions,
    interrupted and failing as above but for a process that stops in the middle of a
    write, and after any number of rollbacks interrupted likewise, a rollback of the
    run during which nothing fails finds no conflict and leaves every record as it was
    before the run.  If the run left no journal, no record had changed. *)
Theorem rollback_restores d0 o e fs ss us size force e' :
  let R0 := records (dk_store d0) in
  let d := history d0 ((o, e, fs) :: ss) in
  let d1 := foldl (undo_ (run_id e)) d us in
  not_begun num R0 (run_id e) d0 → asks_fresh o → Forall (tolerated true) fs →
  Forall (λ s : session, asks_resume s.1.1 ∧ Forall (tolerated true) s.2) ss →
  Forall (λ u : undo, Forall (tolerated true) u.2) us →
  (∀ k r, R0 !! k = Some r → natural num r = true) → Z.of_nat (base.size R0) ≤ 9007199254740992 →
  (dk_journals d !! run_id e = None → records (dk_store d) = R0) ∧
  (is_Some (dk_journals d !! run_id e) → can_lock force d1 →
   ∃ r d2, rollback num (run_id e) size force e' d1 [] = (d2, [], Returned r) ∧
     conflicts r = [] ∧ records (dk_store d2) = R0).
Proof.
  intros R0 d d1 Hnb Ho Hfs Hss Hus Hnat Hsz.
  pose proof (history_inv true d0 o e fs ss Hnb Ho Hfs Hss) as Hi. fold R0 d in Hi.
  destruct Hi as [(HR & Hj & _)|((Hb & Hj & Hop) & c & Hc & _)].
  { split; [done|]. rewrite Hj. by intros [? ?]. }
  destruct (Hj eq_refl) as (es & He & Hl). split.
  { intros Hn. rewrite Hn in He. assert (es = []) as -> by (destruct es as [|v es]; [done|]; simpl in He;
      unfold lines in He; cbn [foldr] in He; by destruct (JSON_stringify v)).
    destruct Hl as [_ Hl]. apply map_eq. intros k. specialize (Hb k). destruct (R0 !! k) as [r|] eqn:Hr; [|done].
    destruct (Hl k r Hr) as [?|(v & Hv & _)]; [done|]. by apply not_elem_of_nil in Hv. }
  intros [t Ht] Hlk. rewrite Ht in He. simpl in He. subst t.
  assert (undoing num R0 (run_id e) es d) as Hu by (split_and!; [done|done|done|done|by rewrite Hc]).
  assert (undoing num R0 (run_id e) es d1) as Hu1.
  { unfold d1. clear Hlk. revert Hu. generalize d. induction Hus as [|[[[sz f] eu] fu] us Hfu Hus IH]; intros dd Hu; [done|].
    cbn [foldl]. apply IH. cbn [undo_].
    eapply (hoare_run true (undoing num R0 (run_id e) es) dd (rollback num (run_id e) sz f eu));
      [by apply (rollback_triple num sha256 true true)| |done]. by intros r dd' [? _]. }
  destruct (hoare_returns true (undoing num R0 (run_id e) es) d1 (rollback num (run_id e) size force e')
    (λ r d, undoing num R0 (run_id e) es d ∧ conflicts r = [] ∧ records (dk_store d) = R0))
    as (r & d2 & Hr & _ & Hcf & HR); [by apply (rollback_triple num sha256 false true)|eauto].
Qed.
End history.

(** ** A job over a map

    Records that are [null] become a text; numbers are skipped and booleans refused. *)
Definition restore_step (x : gmap string json * BackfillRestoreResult) (c : BackfillChange) :
    gmap string json * BackfillRestoreResult :=
  let '(m, r) := x in
  if decide (m !! ch_key c = Some (after c)) then
    (<[ch_key c := before c]> m, {| restored := restored r ++ [ch_key c]; conflicts := conflicts r |})
  else if decide (m !! ch_key c = Some (before c)) then
    (m, {| restored := restored r ++ [ch_key c]; conflicts := conflicts r |})
  else (m, {| restored := restored r; conflicts := conflicts r ++ [(ch_key c, "modified")] |}).

#[local] Instance at_before_dec m c : Decision (at_before m c).
Proof. unfold at_before. apply _. Defined.

#[local] Instance map_job : BackfillJob (gmap string json) (gmap string json) := {|
  job_id := "demo";
  job_version := 1;
  job_rollback := "none needed";
  open_ d := Ok d;
  listKeys h := (map_to_list h).*1;
  load h k := Ok (h !! k);
  plan k r := match r with
              | JNull => Ok (Update (JStr "new") ["null"])
              | JBool _ => Err "unknown status"
              | JNum _ => Ok (Skip "number")
              | _ => Ok Noop
              end;
  commit d h cs :=
    if decide (d = h) then
      if decide (Forall (at_before d) cs) then Ok (put_all cs d, put_all cs d) else Err "record differs"
    else Err "changed on disk";
  restore d h cs := Ok (foldl restore_step (d, {| restored := []; conflicts := [] |}) cs);
|}.

Lemma restore_steps cs m r :
  let '(m', r') := foldl restore_step (m, r) cs in
  restores cs (m, restored r, (conflicts r).*1) (m', restored r', (conflicts r').*1).
Proof.
  revert m r. induction cs as [|c cs IH]; intros m r; [constructor|]. cbn [foldl].
  destruct (restore_step (m, r) c) as [m1 r1] eqn:E. specialize (IH m1 r1).
  destruct (foldl restore_step (m1, r1) cs) as [m2 r2]. econstructor; [|exact IH].
  unfold restore_step in E. unfold restore_one. repeat case_decide; injection E as <- <-; simpl;
    [by left|right; by left|right; right]. by rewrite fmap_app.
Qed.

#[local] Instance map_job_laws : BackfillJobLaws (λ s, s) (gmap string json) (gmap string json).
Proof.
  refine {| records d := d; unreadable _ := None; insync d h := d = h |}; simpl.
  - congruence.
  - eauto.
  - intros d h <-. split; [apply NoDup_fst_map_to_list|]. intros k. rewrite list_elem_of_fmap. split.
    + intros ([k' v] & -> & Hv%elem_of_map_to_list). by eexists.
    + intros [v Hv]. exists (k, v). split; [done|]. by apply elem_of_map_to_list.
  - by intros d h k <-.
  - intros k r a x. by destruct r; intros [= <- <-].
  - intros k r a x _. by destruct r; intros [= <- <-].
  - intros d h cs d' h' _ Hc. repeat case_decide; try done. by simplify_eq.
  - intros d h cs <- _ Hf. rewrite decide_True, decide_True by done. by eexists.
  - intros d h cs e Hc. repeat case_decide; simplify_eq; done.
  - intros d h h' cs _. pose proof (restore_steps cs d {| restored := []; conflicts := [] |}) as Hr.
    destruct (foldl restore_step _ cs) as [d' r]. by exists d', r, d'.
Defined.

Definition sample_options (resume : bool) : BackfillOptions :=
  {| batchSize := Some 2; limit := None; maxFailures := Some 10; maxCommitAttempts := Some 1; resume := resume;
     restart := false; retryFailed := false; confirmPlan := None; shouldStop _ := false; forceUnlock := true |}.
Definition sample_env : env :=
  {| e_start := 1704067200000; e_rand := "a1b2c3"; e_journal _ := 1704067201000; e_saved _ := 1704067202000;
     e_end := 1704067203000; e_me := {| pid := 7; host := "ops"; lk_startedAt := "2024-01-01T00:00:00.000Z" |} |}.
Definition sample_records : gmap string json :=
  list_to_map [("a", JNull); ("b", JNum "5"); ("c", JNull); ("d", JBool true); ("e", JNull)].
Definition sample_disk : disk (gmap string json) :=
  {| dk_store := sample_records; dk_checkpoint := NoFile; dk_journals := ∅; dk_lock := None |}.

(** The process stops after the first commit; a resumption stops after the journal of
    its second batch, and another has its commit fail after taking effect. *)
Definition sample_sessions : list (BackfillOptions * env * list fate) :=
  [ (sample_options true, sample_env, [Works; Works; Works; Works; Works; Works; Stops 0]);
    (sample_options true, sample_env, [Works; Works; Works; Works; Throws true "timeout"]) ].
Definition sample_start : list fate := [Works; Works; Works; Works; Stops 0].

Notation sample_history := (history (λ s, s) sample_disk
  ((sample_options false, sample_env, sample_start) :: sample_sessions)).

Lemma sample_not_begun : not_begun (λ s, s) (records (num := λ s, s) (dk_store sample_disk)) (run_id sample_env) sample_disk.
Proof. split_and!; [done|done|by eexists|by left]. Qed.

Lemma sample_tolerated careful :
  Forall (tolerated careful) sample_start ∧
  Forall (λ s : BackfillOptions * env * list fate, asks_resume s.1.1 ∧ Forall (tolerated careful) s.2) sample_sessions.
Proof. split; repeat constructor; done. Qed.

Lemma sample_unfinished :
  ∃ c, dk_checkpoint sample_history = Holds c ∧ cp_runId c = run_id sample_env ∧ FINISHED (cp_status c) = false ∧
    Z.of_nat (length (cp_failed c) + size (failing (λ s, s) sample_records)) < 10.
Proof. eexists. split; [vm_compute; reflexivity|]. by vm_compute. Qed.

Lemma backfill_converges_witness :
  ∃ rp d', apply (λ s, s) (sample_options true) sample_env sample_history [] = (d', [], Returned rp) ∧
    rp_status rp = "completed" ∧ records (num := λ s, s) (dk_store d') = backfilled (λ s, s) sample_records.
Proof.
  destruct sample_unfinished as (c & Hc & Hid & Hfin & Hlt).
  destruct (backfill_converges (λ s, s) (λ s, s) sample_disk (sample_options false) sample_env sample_start
    sample_sessions sample_not_begun) as [_ Ht];
    [by repeat split|apply (sample_tolerated false)|apply (sample_tolerated false)|].
  destruct (Ht c Hc Hid) as [_ Hres].
  apply (Hres Hfin (sample_options true) sample_env);
    [by repeat split|right; reflexivity|reflexivity|reflexivity|intros i; reflexivity|exact Hlt].
Defined.

Lemma sample_preview :
  ∃ rp, preview (λ s, s) (sample_options false) sample_disk [] = (sample_disk, [], Returned rp) ∧
    updated (rp_counters rp) = 3 ∧ length (rp_failed rp) = 1%nat.
Proof. eexists. split; [vm_compute; reflexivity|]. by vm_compute. Qed.

Lemma preview_predicts_apply_witness :
  ∃ rp d', apply (λ s, s) (sample_options false) sample_env sample_disk [] = (d', [], Returned rp) ∧
    updated (rp_counters rp) = 3.
Proof.
  destruct sample_preview as (rp0 & Hp0 & Hu & Hfew).
  destruct (preview_predicts_apply (λ s, s) (λ s, s) sample_disk (sample_options false) sample_env rp0
    sample_not_begun) as [Ha _];
    [reflexivity|by repeat split|intros i; reflexivity|by rewrite Hfew|exact Hp0|].
  destruct Ha as (rp & d' & Hr & Heq); [left; reflexivity|]. exists rp, d'. split; [exact Hr|].
  injection Heq as _ Hc _ _ _. by rewrite Hc.
Defined.

Lemma rollback_restores_witness :
  ∃ r d, rollback (λ s, s) (run_id sample_env) (Some 1%positive) true sample_env
      (undo_ (λ s, s) (run_id sample_env) sample_history (None, true, sample_env, [Works; Works; Stops 0])) [] =
    (d, [], Returned r) ∧ conflicts r = [] ∧ records (num := λ s, s) (dk_store d) = sample_records.
Proof.
  destruct (rollback_restores (λ s, s) (λ s, s) sample_disk (sample_options false) sample_env sample_start
    sample_sessions [(None, true, sample_env, [Works; Works; Stops 0])] (Some 1%positive) true sample_env
    sample_not_begun) as [_ Ht];
    [by repeat split|apply (sample_tolerated true)|apply (sample_tolerated true)| | | |].
  - by repeat constructor.
  - intros k r Hr. apply elem_of_map_to_list in Hr. vm_compute in Hr.
    repeat (apply elem_of_cons in Hr as [[= -> ->]|Hr]; [reflexivity|]). by apply not_elem_of_nil in Hr.
  - by vm_compute.
  - apply Ht; [eexists; vm_compute; reflexivity|right; reflexivity].
Defined.

(** A process that stops in the middle of a journal line leaves it without a line
    break.  The resumed run appends to it, and the journal can no longer be read: the
    run, though completed, cannot be rolled back. *)
Lemma torn_journal_blocks_rollback :
  let d := history (λ s, s) sample_disk
    [(sample_options false, sample_env, [Works; Works; Stops 20]); (sample_options true, sample_env, [])] in
  (∃ c, dk_checkpoint d = Holds c ∧ cp_status c = completed) ∧
  (rollback (λ s, s) (run_id sample_env) None true sample_env d []).2 = Threw "SyntaxError".
Proof. split; [eexists; split; [vm_compute; reflexivity|done]|by vm_compute]. Qed.

(** A commit that keeps throwing an error without a message counts as done: the run
    completes and the record is as it was. *)
Lemma silent_commit_error_completes :
  let '(d, _, r) := apply (λ s, s) (sample_options false) sample_env
    {| dk_store := {["a" := JNull]} : gmap string json; dk_checkpoint := NoFile; dk_journals := ∅; dk_lock := None |}
    [Works; Works; Works; Throws false EmptyString] in
  (∃ rp, r = Returned rp ∧ rp_status rp = "completed" ∧ updated (rp_counters rp) = 1) ∧ dk_store d !! "a" = Some JNull.
Proof. vm_compute. split; [eexists; by split|done]. Qed.

(** A run whose failures reach the threshold aborts after the batch, with fewer
    differences than its preview, and so does every resumption of it. *)
Lemma threshold_aborts :
  let o r := {| batchSize := Some 1; limit := None; maxFailures := Some 1; maxCommitAttempts := Some 1; resume := r;
     restart := false; retryFailed := false; confirmPlan := None; shouldStop _ := false; forceUnlock := true |} in
  let d0 : disk (gmap string json) :=
    {| dk_store := list_to_map [("a", JBool true); ("b", JNull); ("c", JNull)] : gmap string json; dk_checkpoint := NoFile;
       dk_journals := ∅; dk_lock := None |} in
  let '(d1, _, r1) := apply (λ s, s) (o false) sample_env d0 [] in
  let '(d2, _, r2) := apply (λ s, s) (o true) sample_env d1 [] in
  (∃ rp, r1 = Returned rp ∧ rp_status rp = "aborted" ∧ rp_diff rp = []) ∧
  (∃ rp, r2 = Returned rp ∧ rp_status rp = "aborted") ∧ dk_store d2 !! "c" = Some JNull.
Proof. vm_compute. split_and!; [by eexists|by eexists|done]. Qed.
