(* ===== verification/Lifecycle.v ===== *)
(** * Archive and restore of records

    Models [api/src/common/lifecycle/record-lifecycle.ts].  The TypeScript
    functions mutate the lifecycle object and return it; here they return the
    new record.  Every exception is thrown before the first assignment, so an
    [Err] leaves the object as it was.  The specification reads a lifecycle off
    its own history ([replay]); the invariant is that the stored fields never
    disagree with it. *)
From S2P Require Import Prelude JsDate.

Inductive ArchiveState := Active | Archived.
Inductive ArchiveAction := Archive | Restore.

Record ArchiveEvent := {
  at_ : string;
  action : ArchiveAction;
  ev_actor : string;
  ev_reason : option string;
}.

Record RecordLifecycle := {
  state : ArchiveState;
  archivedAt : option string;
  archivedBy : option string;
  archiveReason : option string;
  restoredAt : option string;
  restoredBy : option string;
  history : list ArchiveEvent;
}.

Inductive LifecycleErrorCode :=
| already_archived | not_archived | missing_actor | missing_reason | archived.

(** A [LifecycleError], or the [RangeError] of an unprintable [now]. *)
Inductive lifecycle_exn :=
| LifecycleError (code : LifecycleErrorCode)
| BadTime.

Record TransitionInput := {
  actor : option string;
  reason : option string;
  now : option Z;
}.

(** A record with a lifecycle; the lifecycle is read through [?.], so it may be
    missing. *)
Record Archivable := {
  lifecycle : option RecordLifecycle;
  rec_id : option string;
}.

#[export] Instance ArchiveState_eq_dec : EqDecision ArchiveState.
Proof. solve_decision. Defined.
#[export] Instance ArchiveAction_eq_dec : EqDecision ArchiveAction.
Proof. solve_decision. Defined.
#[export] Instance ArchiveEvent_eq_dec : EqDecision ArchiveEvent.
Proof. solve_decision. Defined.
#[export] Instance RecordLifecycle_eq_dec : EqDecision RecordLifecycle.
Proof. solve_decision. Defined.

(** ** Operations *)

Definition activeLifecycle : RecordLifecycle :=
  {| state := Active; archivedAt := None; archivedBy := None; archiveReason := None;
     restoredAt := None; restoredBy := None; history := [] |}.

Definition isArchived (record : Archivable) : bool :=
  match lifecycle record with
  | Some l => bool_decide (state l = Archived)
  | None => false
  end.

(** [x?.trim()], with the empty string and [undefined] both falsy. *)
Definition trimmed (x : option string) : option string :=
  match x with
  | Some s => match trim s with EmptyString => None | t => Some t end
  | None => None
  end.

Definition requireActor (a : option string) : result lifecycle_exn string :=
  match trimmed a with
  | Some t => Ok t
  | None => Err (LifecycleError missing_actor)
  end.

(** [new Date(input.now ?? Date.now()).toISOString()]. *)
Definition timestamp_of (dateNow : Z) (input : TransitionInput) : result lifecycle_exn string :=
  match toISOString (default dateNow (now input)) with
  | Ok s => Ok s
  | Err _ => Err BadTime
  end.

Definition archiveRecord (dateNow : Z) (l : RecordLifecycle) (input : TransitionInput) :
    result lifecycle_exn RecordLifecycle :=
  act ← requireActor (actor input);
  rsn ← match trimmed (reason input) with
        | Some r => Ok r
        | None => Err (LifecycleError missing_reason)
        end;
  _ ← throw_if (bool_decide (state l = Archived)) (LifecycleError already_archived);
  t ← timestamp_of dateNow input;
  Ok {| state := Archived; archivedAt := Some t; archivedBy := Some act;
        archiveReason := Some rsn; restoredAt := None; restoredBy := None;
        history := history l ++
          [ {| at_ := t; action := Archive; ev_actor := act; ev_reason := Some rsn |} ] |}.

Definition restoreRecord (dateNow : Z) (l : RecordLifecycle) (input : TransitionInput) :
    result lifecycle_exn RecordLifecycle :=
  act ← requireActor (actor input);
  _ ← throw_if (negb (bool_decide (state l = Archived))) (LifecycleError not_archived);
  t ← timestamp_of dateNow input;
  Ok {| state := Active; archivedAt := archivedAt l; archivedBy := archivedBy l;
        archiveReason := archiveReason l; restoredAt := Some t; restoredBy := Some act;
        history := history l ++
          [ {| at_ := t; action := Restore; ev_actor := act; ev_reason := None |} ] |}.

(** [T extends Archivable]. *)
Class IsArchivable (T : Type) := as_archivable : T → Archivable.
#[export] Instance Archivable_self : IsArchivable Archivable := λ r, r.

Definition visibleOnly {T} `{IsArchivable T} (records : list T) : list T :=
  filter (λ r, isArchived (as_archivable r) = false) records.

Definition includeArchived {T} `{IsArchivable T} (records : list T) (incl : bool) : list T :=
  if incl then records else visibleOnly records.

Definition assertNotArchived (record : Archivable) : result lifecycle_exn unit :=
  throw_if (isArchived record) (LifecycleError archived).

Definition recordKey (record : Archivable) : string := default "record" (rec_id record).

Definition systemActor (name : string) : string :=
  "system:" +:+ match trim name with EmptyString => "unknown" | t => t end.

(** ** Specification *)

(** The lifecycle a history describes. *)
Definition replay_step (l : RecordLifecycle) (e : ArchiveEvent) : RecordLifecycle :=
  match action e with
  | Archive =>
      {| state := Archived; archivedAt := Some (at_ e); archivedBy := Some (ev_actor e);
         archiveReason := ev_reason e; restoredAt := None; restoredBy := None;
         history := history l ++ [e] |}
  | Restore =>
      {| state := Active; archivedAt := archivedAt l; archivedBy := archivedBy l;
         archiveReason := archiveReason l; restoredAt := Some (at_ e);
         restoredBy := Some (ev_actor e); history := history l ++ [e] |}
  end.
Definition replay (h : list ArchiveEvent) : RecordLifecycle := foldl replay_step activeLifecycle h.

(** Archives and restores alternate, starting with an archive; an archive has
    an actor and a reason, a restore has an actor and none. *)
Fixpoint alternating (s : ArchiveState) (h : list ArchiveEvent) : bool :=
  match h with
  | [] => true
  | e :: h =>
      negb (bool_decide (ev_actor e = "")) &&
      match action e, s with
      | Archive, Active =>
          match ev_reason e with Some r => negb (bool_decide (r = "")) | None => false end &&
          alternating Archived h
      | Restore, Archived => bool_decide (ev_reason e = None) && alternating Active h
      | _, _ => false
      end
  end.

(** The state a history leaves behind. *)
Definition state_of (a : ArchiveAction) : ArchiveState :=
  match a with Archive => Archived | Restore => Active end.
Definition state_after (s : ArchiveState) (h : list ArchiveEvent) : ArchiveState :=
  foldl (λ _ e, state_of (action e)) s h.

Definition lifecycle_inv (l : RecordLifecycle) : Prop :=
  l = replay (history l) ∧ alternating Active (history l) = true.

(** A caller's sequence of operations; a refused one leaves the record as it is. *)
Inductive op := OpArchive (dateNow : Z) (i : TransitionInput)
              | OpRestore (dateNow : Z) (i : TransitionInput).
Definition apply_op (l : RecordLifecycle) (o : op) : result lifecycle_exn RecordLifecycle :=
  match o with
  | OpArchive d i => archiveRecord d l i
  | OpRestore d i => restoreRecord d l i
  end.
Definition apply_ops (l : RecordLifecycle) (ops : list op) : RecordLifecycle :=
  foldl (λ l o, match apply_op l o with Ok l' => l' | Err _ => l end) l ops.

(** ** Lemmas *)

Lemma trimmed_nonempty x t : trimmed x = Some t → t ≠ "".
Proof. unfold trimmed. destruct x as [s|]; [|done]. by destruct (trim s); intros [= <-]. Qed.

Lemma requireActor_ok a t : requireActor a = Ok t ↔ trimmed a = Some t.
Proof. unfold requireActor. destruct (trimmed a); naive_solver. Qed.

Lemma replay_snoc h e : replay (h ++ [e]) = replay_step (replay h) e.
Proof. unfold replay. by rewrite foldl_app. Qed.

Lemma replay_history h : history (replay h) = h.
Proof.
  induction h as [|e h IH] using rev_ind; [done|].
  rewrite replay_snoc. unfold replay_step. by destruct (action e); simpl; rewrite IH.
Qed.

Lemma alternating_snoc s h e :
  alternating s (h ++ [e]) = alternating s h && alternating (state_after s h) [e].
Proof.
  revert s. induction h as [|e' h IH]; intros s; [done|].
  change (state_after s (e' :: h)) with (state_after (state_of (action e')) h).
  generalize dependent [e]. intros tl IH. cbn [alternating app].
  destruct (action e'), s; simpl; rewrite ?IH, ?andb_assoc, ?andb_false_r; done.
Qed.

Lemma replay_state h : state (replay h) = state_after Active h.
Proof.
  induction h as [|e h IH] using rev_ind; [done|].
  unfold state_after. rewrite replay_snoc, foldl_app. unfold replay_step.
  simpl. by destruct (action e).
Qed.

Lemma inv_snoc l e :
  lifecycle_inv l → alternating (state l) [e] = true → lifecycle_inv (replay_step l e).
Proof.
  intros [Hl Ha] He.
  assert (history (replay_step l e) = history l ++ [e]) as Hh
    by (unfold replay_step; by destruct (action e)).
  split; rewrite Hh.
  - rewrite replay_snoc. by rewrite <- Hl.
  - rewrite alternating_snoc, Ha. simpl. rewrite <- replay_state, <- Hl. done.
Qed.

Lemma archiveRecord_ok d l i l' :
  archiveRecord d l i = Ok l' →
  ∃ t act rsn, trimmed (actor i) = Some act ∧ trimmed (reason i) = Some rsn ∧
    state l = Active ∧ timestamp_of d i = Ok t ∧
    l' = replay_step l {| at_ := t; action := Archive; ev_actor := act; ev_reason := Some rsn |}.
Proof.
  unfold archiveRecord. intros H. inv_ok.
  apply requireActor_ok in H0. destruct (trimmed (reason i)) as [r|]; inv_ok.
  bool_to_prop. eexists _, _, _. repeat split; try done. by destruct (state l).
Qed.

Lemma restoreRecord_ok d l i l' :
  restoreRecord d l i = Ok l' →
  ∃ t act, trimmed (actor i) = Some act ∧ state l = Archived ∧ timestamp_of d i = Ok t ∧
    l' = replay_step l {| at_ := t; action := Restore; ev_actor := act; ev_reason := None |}.
Proof.
  unfold restoreRecord. intros H. inv_ok. apply requireActor_ok in H0. bool_to_prop.
  eexists _, _. done.
Qed.

Lemma apply_op_inv l o l' : lifecycle_inv l → apply_op l o = Ok l' → lifecycle_inv l'.
Proof.
  intros Hi. destruct o as [d i|d i]; simpl.
  - intros (t & act & rsn & Ha & Hr & Hs & _ & ->)%archiveRecord_ok.
    apply inv_snoc; [done|]. simpl. rewrite Hs.
    apply trimmed_nonempty in Ha, Hr. by rewrite !bool_decide_false.
  - intros (t & act & Ha & Hs & _ & ->)%restoreRecord_ok.
    apply inv_snoc; [done|]. simpl. rewrite Hs.
    apply trimmed_nonempty in Ha. by rewrite bool_decide_false.
Qed.

Lemma apply_ops_prefix l ops : ∃ h, history (apply_ops l ops) = history l ++ h.
Proof.
  revert l. unfold apply_ops. induction ops as [|o ops IH]; intros l; simpl.
  { exists []. by rewrite app_nil_r. }
  destruct (apply_op l o) as [l'|] eqn:Ho; [|apply IH].
  destruct (IH l') as [h ->].
  assert (∃ e, history l' = history l ++ [e]) as [e ->].
  { destruct o as [d i|d i]; simpl in Ho.
    - apply archiveRecord_ok in Ho as (? & ? & ? & _ & _ & _ & _ & ->). by eexists.
    - apply restoreRecord_ok in Ho as (? & ? & _ & _ & _ & ->). by eexists. }
  exists (e :: h). by rewrite <- app_assoc.
Qed.

(** ** Properties *)

(** After any sequence of archive and restore calls on a fresh record, in
    which refused calls change nothing, the stored fields are exactly what the
    history says, the history alternates attributed archives with reasons and
    attributed restores, and history is append-only. *)
Theorem lifecycle_matches_history ops1 ops2 :
  lifecycle_inv (apply_ops activeLifecycle ops1) ∧
  ∃ h, history (apply_ops (apply_ops activeLifecycle ops1) ops2) =
       history (apply_ops activeLifecycle ops1) ++ h.
Proof.
  split; [|apply apply_ops_prefix]. unfold apply_ops.
  assert (lifecycle_inv activeLifecycle) as Hi by done.
  revert Hi. generalize activeLifecycle.
  induction ops1 as [|o ops IH]; intros l Hi; simpl; [done|].
  destruct (apply_op l o) eqn:Ho; [|by apply IH]. eapply IH, apply_op_inv; eauto.
Qed.

(** Archive and restore are refused exactly as documented, in this order:
    no actor, no reason, already archived (or, for restore, not archived). With
    a printable time the call otherwise succeeds. *)
Lemma lifecycle_refusals d l i t :
  timestamp_of d i = Ok t →
  (archiveRecord d l i =
   match trimmed (actor i), trimmed (reason i), state l with
   | None, _, _ => Err (LifecycleError missing_actor)
   | Some _, None, _ => Err (LifecycleError missing_reason)
   | Some _, Some _, Archived => Err (LifecycleError already_archived)
   | Some a, Some r, Active =>
       Ok (replay_step l {| at_ := t; action := Archive; ev_actor := a; ev_reason := Some r |})
   end) ∧
  (restoreRecord d l i =
   match trimmed (actor i), state l with
   | None, _ => Err (LifecycleError missing_actor)
   | Some _, Active => Err (LifecycleError not_archived)
   | Some a, Archived =>
       Ok (replay_step l {| at_ := t; action := Restore; ev_actor := a; ev_reason := None |})
   end).
Proof.
  intros Ht. unfold archiveRecord, restoreRecord, requireActor. rewrite Ht.
  destruct (trimmed (actor i)); [|done].
  by destruct (trimmed (reason i)), (state l); simpl.
Qed.

