(* ===== verification/LedgerChain.v ===== *)
(** * The event ledger's hash chain

    Models [api/src/ledger/ledger.types.ts] and [api/src/ledger/ledger.chain.ts]:
    the event and checkpoint records, the registry of event types, the payload
    check, the event hash and the checkpoint MAC, and the verification walk.

    A stored row is whatever [JSON.parse] returned, a [json]; reading a missing
    property gives [None] ([undefined]).  Node's [createHash('sha256')] and
    [createHmac('sha256', key)], and what the engine answers when [Date.parse]
    meets a text [toISOString] does not produce, are the arguments [sha256],
    [hmac] and [other].  Sequence numbers are safe integers; a stored number text
    that is not the decimal text of one is treated as not an integer. *)
From S2P Require Import Prelude JsDate Json.

(** ** Data *)

Inductive LedgerCategory := privileged | financial.
#[export] Instance LedgerCategory_eq_dec : EqDecision LedgerCategory.
Proof. solve_decision. Defined.

Definition category_text (c : LedgerCategory) : string :=
  match c with privileged => "privileged" | financial => "financial" end.

Definition LEDGER_SCHEMA_VERSION : Z := 1.
Definition LEDGER_GENESIS_HASH : string :=
  "0000000000000000000000000000000000000000000000000000000000000000".

(** The closed registry of event types. *)
Definition LEDGER_EVENT_TYPES : list (string * LedgerCategory) :=
  [ ("role.granted", privileged); ("role.revoked", privileged);
    ("admin.intent.executed", privileged); ("impersonation.started", privileged);
    ("impersonation.operation_allowed", privileged);
    ("impersonation.operation_denied", privileged); ("impersonation.ended", privileged);
    ("impersonation.expired", privileged); ("impersonation.revoked", privileged);
    ("kyc.override", privileged); ("oracle.override", privileged);
    ("config.changed", privileged); ("ledger.exported", privileged);
    ("bond.issued", financial); ("subscription.allocated", financial);
    ("coupon.distributed", financial); ("carbon_credit.retired", financial);
    ("settlement.completed", financial); ("settlement.rolled_back", financial);
    ("redemption.processed", financial); ("fee.collected", financial) ].

Fixpoint reg_get {A} (k : string) (l : list (string * A)) : option A :=
  match l with
  | [] => None
  | (k', v) :: l => if decide (k = k') then Some v else reg_get k l
  end.

(** [String(...)] of an inherited property. *)
Definition inherited_text (k : string) : string :=
  if decide (k = "__proto__") then "[object Object]"
  else "function " +:+ (if decide (k = "constructor") then "Object" else k)
       +:+ "() { [native code] }".

Record LedgerEvent := {
  schemaVersion : Z;
  sequence : Z;
  eventId : string;
  category : LedgerCategory;
  type : string;
  actor : string;
  subjectType : string;
  subjectId : string;
  payload : list (string * json);
  correlationId : option string;
  occurredAt : string;
  recordedAt : string;
  previousHash : string;
  hash : string;
}.

Record LedgerCheckpoint := {
  cp_sequence : Z;
  cp_hash : string;
  cp_recordedAt : string;
  createdAt : string;
  keyId : string;
  mac : string;
}.

Inductive LedgerFailureReason :=
| unsupported_schema_version | sequence_break | previous_hash_mismatch
| content_hash_mismatch | recordedAt_went_backwards | unknown_event_type
| category_mismatch | duplicate_event_id | checkpoint_mac_invalid
| checkpoint_does_not_match_event | checkpoint_beyond_ledger_head | head_mismatch
| export_body_digest_mismatch | export_manifest_mismatch | malformed_event.
#[export] Instance LedgerFailureReason_eq_dec : EqDecision LedgerFailureReason.
Proof. solve_decision. Defined.

Record LedgerVerificationFailure := {
  vf_sequence : option json;
  vf_reason : LedgerFailureReason;
  vf_expected : option string;
  vf_actual : option string;
}.

Record LedgerVerificationReport := {
  ok : bool;
  checkedEvents : Z;
  checkedCheckpoints : Z;
  firstSequence : option json;
  lastSequence : option json;
  headHash : option json;
  failures : list LedgerVerificationFailure;
}.

(** The exception of reading a property of [null], or of keying an HMAC with
    something that is not a string. *)
Inductive js_exn := TypeError.

Record VerifyOptions := {
  anchorHash : option string;
  startSequence : option Z;
  checkpoints : list LedgerCheckpoint;
  checkpointKeys : option (list (string * string));
  lostKeyIds : list string;
  expectedHeadHash : option string;
  expectedLastSequence : option Z;
}.

Definition no_options : VerifyOptions :=
  {| anchorHash := None; startSequence := None; checkpoints := []; checkpointKeys := None;
     lostKeyIds := []; expectedHeadHash := None; expectedLastSequence := None |}.

(** ** Reading stored values *)

(** [event.k], which throws on [null]. *)
Definition prop_or_throw (e : json) (k : string) : result js_exn (option json) :=
  match e with JNull => Err TypeError | _ => Ok (prop e k) end.

(** The text a failure reports: [null] for [null] and [undefined]. *)
Definition report_text (v : option json) : option string :=
  match v with None | Some JNull => None | Some v => Some (js_String v) end.

(** [typeof v]. *)
Definition typeof (v : json) : string :=
  match v with
  | JBool _ => "boolean" | JNum _ => "number" | JStr _ => "string" | _ => "object"
  end.

(** [n > v] for an integer [n]: a comparison with [undefined] is false. *)
Definition gt_value (n : Z) (v : option json) : bool :=
  match int_of v with Some m => m <? n | None => false end.

(** ** Payload check *)

(** A value a caller may pass as a payload: JSON values, and what [walk] refuses
    (an [undefined], a number that is not finite, a class instance such as a
    [Date], a function, a symbol or a BigInt). *)
Inductive jsval : Type :=
| VUndefined
| VNull
| VBool (b : bool)
| VNum (text : option string)
| VStr (s : string)
| VArr (l : list jsval)
| VObj (l : list (string * jsval))
| VOther (typeof : string).

Inductive payload_exn :=
| PayloadNotObject
| NotFinite (path : string)
| LooksLikeSecret (path : string)
| NotJsonSafe (path kind : string)
| PayloadTooLarge (bytes : Z).

Definition SENSITIVE_KEYS : list string :=
  [ "password"; "passwd"; "secret"; "clientsecret"; "token"; "accesstoken"; "refreshtoken";
    "jwt"; "privatekey"; "secretkey"; "seed"; "seedphrase"; "mnemonic"; "apikey"; "ssn" ].

(** [key.replace(/[_-]/g, '')]. *)
Fixpoint strip_separators (s : string) : string :=
  match s with
  | EmptyString => EmptyString
  | String c s =>
      if ((code c =? 95) || (code c =? 45))%N then strip_separators s
      else String c (strip_separators s)
  end.

Definition isSensitiveKey (key : string) : bool :=
  bool_decide (to_lower (strip_separators key) ∈ SENSITIVE_KEYS).

Definition isPlainObject (v : jsval) : bool := match v with VObj _ => true | _ => false end.

Fixpoint walk (v : jsval) (path : string) : result payload_exn unit :=
  match v with
  | VNull | VStr _ | VBool _ => Ok tt
  | VNum (Some _) => Ok tt
  | VNum None => Err (NotFinite path)
  | VArr l =>
      (fix go (i : Z) (l : list jsval) : result payload_exn unit :=
         match l with
         | [] => Ok tt
         | x :: l =>
             _ ← walk x (path +:+ "[" +:+ Z_to_string i +:+ "]"); go (i + 1) l
         end) 0 l
  | VObj l =>
      (fix go (l : list (string * jsval)) : result payload_exn unit :=
         match l with
         | [] => Ok tt
         | (key, child) :: l =>
             _ ← throw_if (isSensitiveKey key) (LooksLikeSecret (path +:+ "." +:+ key));
             _ ← walk child (path +:+ "." +:+ key); go l
         end) l
  | VUndefined => Err (NotJsonSafe path "undefined")
  | VOther k => Err (NotJsonSafe path k)
  end.

(** [JSON.parse(JSON.stringify(v))] of a value [walk] accepts. *)
Fixpoint to_json (v : jsval) : json :=
  match v with
  | VBool b => JBool b
  | VNum (Some t) => JNum t
  | VStr s => JStr s
  | VArr l => JArr (map to_json l)
  | VObj l => JObj (map (λ kv, (fst kv, to_json (snd kv))) l)
  | VNull | VNum None | VUndefined | VOther _ => JNull
  end.

Definition MAX_PAYLOAD_BYTES : Z := 16 * 1024.
Definition MIN_CHECKPOINT_KEY_LENGTH : Z := 32.

Definition assertLedgerPayload (v : jsval) : result payload_exn unit :=
  _ ← throw_if (negb (isPlainObject v)) PayloadNotObject;
  _ ← walk v "payload";
  let bytes := byteLength (stableStringify (to_json v)) in
  throw_if (MAX_PAYLOAD_BYTES <? bytes) (PayloadTooLarge bytes).

(** ** Hashing and verification *)

Definition nl : string := String "010" EmptyString.
Definition EVENT_HASH_PREFIX : string := "verdant-ledger:event:v1" +:+ nl.
Definition CHECKPOINT_MAC_PREFIX : string := "verdant-ledger:checkpoint:v1" +:+ nl.

(** The object whose stable text is hashed; [canonicalize] turns a missing
    property into [null]. *)
Definition hashed_keys : list string :=
  [ "schemaVersion"; "sequence"; "eventId"; "category"; "type"; "actor"; "subjectType";
    "subjectId"; "payload"; "correlationId"; "occurredAt"; "recordedAt"; "previousHash" ].

Definition hashed_object (event : json) : json :=
  JObj ((λ k, (k, default JNull (prop event k))) <$> hashed_keys).

Definition event_preimage (event : json) : string :=
  EVENT_HASH_PREFIX +:+ stableStringify (hashed_object event).

Definition checkpoint_preimage (c : LedgerCheckpoint) : string :=
  CHECKPOINT_MAC_PREFIX +:+
  stableStringify (JObj [ ("sequence", jint (cp_sequence c)); ("hash", JStr (cp_hash c));
                          ("recordedAt", JStr (cp_recordedAt c));
                          ("createdAt", JStr (createdAt c)); ("keyId", JStr (keyId c)) ]).

(** What [isWellFormed] establishes of a row: the checked fields at their types. *)
Record wf_fields := {
  wf_sequence : Z;
  wf_eventId : string;
  wf_hash : string;
  wf_previousHash : string;
  wf_recordedAt : string;
  wf_type : string;
  wf_category : string;
}.

Definition isWellFormed (event : json) : option wf_fields :=
  seq ← int_of (prop event "sequence");
  id ← string_of (prop event "eventId");
  h ← string_of (prop event "hash");
  ph ← string_of (prop event "previousHash");
  ra ← string_of (prop event "recordedAt");
  ty ← string_of (prop event "type");
  ca ← string_of (prop event "category");
  match prop event "payload" with
  | Some (JArr _) | Some (JObj _) =>
      Some {| wf_sequence := seq; wf_eventId := id; wf_hash := h; wf_previousHash := ph;
              wf_recordedAt := ra; wf_type := ty; wf_category := ca |}
  | _ => None
  end.

(** Local variables of the walk. *)
Record walk_state := {
  w_seenIds : gset string;
  w_bySequence : gmap Z wf_fields;
  w_previousHash : string;
  w_previousRecordedAt : option string;
  w_expectedSequence : Z;
  w_failures : list LedgerVerificationFailure;
}.

(** [fail(seq, reason, expected, actual)] when the condition holds. *)
Definition fail_if (b : bool) (seq : option json) (r : LedgerFailureReason)
    (expected actual : option json) : list LedgerVerificationFailure :=
  if b then [ {| vf_sequence := seq; vf_reason := r;
                 vf_expected := report_text expected; vf_actual := report_text actual |} ]
  else [].

Section chain.
Context (sha256 : string → string) (hmac : string → string → string)
        (other : string → option Z).

Definition computeEventHash (event : json) : string := sha256 (event_preimage event).

Definition computeCheckpointMac (c : LedgerCheckpoint) (key : string) : string :=
  hmac key (checkpoint_preimage c).

(** [Date.parse(a) < Date.parse(b)], false when either is [NaN]. *)
Definition time_before (a b : string) : bool :=
  match Date_parse other a, Date_parse other b with
  | Some x, Some y => x <? y
  | _, _ => false
  end.

(** The registry check of one event. *)
Definition type_failures (seq : option json) (f : wf_fields) : list LedgerVerificationFailure :=
  match reg_get (wf_type f) LEDGER_EVENT_TYPES with
  | Some registered =>
      fail_if (negb (bool_decide (category_text registered = wf_category f))) seq
        category_mismatch (Some (JStr (category_text registered))) (Some (JStr (wf_category f)))
  | None =>
      if bool_decide (wf_type f ∈ inherited_names)
      then fail_if true seq category_mismatch (Some (JStr (inherited_text (wf_type f))))
             (Some (JStr (wf_category f)))
      else fail_if true seq unknown_event_type None (Some (JStr (wf_type f)))
  end.

(** One iteration of the loop over the events. *)
Definition verify_event (w : walk_state) (event : json) : walk_state :=
  match isWellFormed event with
  | None =>
      {| w_seenIds := w_seenIds w; w_bySequence := w_bySequence w;
         w_previousHash := w_previousHash w;
         w_previousRecordedAt := w_previousRecordedAt w;
         w_expectedSequence := w_expectedSequence w;
         w_failures := w_failures w ++
           fail_if true
             (match prop event "sequence" with Some (JNum t) => Some (JNum t) | _ => Some JNull end)
             malformed_event (Some (JStr "ledger event")) (Some (JStr (typeof event))) |}
  | Some f =>
      let seq := Some (jint (wf_sequence f)) in
      let version := prop event "schemaVersion" in
      let rebuilt := computeEventHash event in
      {| w_seenIds := {[wf_eventId f]} ∪ w_seenIds w;
         w_bySequence := <[wf_sequence f := f]> (w_bySequence w);
         w_previousHash := wf_hash f;
         w_previousRecordedAt := Some (wf_recordedAt f);
         w_expectedSequence := wf_sequence f + 1;
         w_failures := w_failures w ++
           fail_if (negb (bool_decide (int_of version = Some LEDGER_SCHEMA_VERSION)))
             seq unsupported_schema_version (Some (jint LEDGER_SCHEMA_VERSION)) version ++
           fail_if (negb (wf_sequence f =? w_expectedSequence w))
             seq sequence_break (Some (jint (w_expectedSequence w))) seq ++
           fail_if (negb (bool_decide (wf_previousHash f = w_previousHash w)))
             seq previous_hash_mismatch (Some (JStr (w_previousHash w)))
             (Some (JStr (wf_previousHash f))) ++
           fail_if (negb (bool_decide (rebuilt = wf_hash f)))
             seq content_hash_mismatch (Some (JStr rebuilt)) (Some (JStr (wf_hash f))) ++
           type_failures seq f ++
           fail_if (bool_decide (wf_eventId f ∈ w_seenIds w))
             seq duplicate_event_id None (Some (JStr (wf_eventId f))) ++
           fail_if (match w_previousRecordedAt w with
                    | Some prev => time_before (wf_recordedAt f) prev
                    | None => false
                    end)
             seq recordedAt_went_backwards
             (Some (JStr (">= " +:+ default EmptyString (w_previousRecordedAt w))))
             (Some (JStr (wf_recordedAt f))) |}
  end.

Definition walk_init (anchor : string) (start : Z) : walk_state :=
  {| w_seenIds := ∅; w_bySequence := ∅; w_previousHash := anchor;
     w_previousRecordedAt := None; w_expectedSequence := start; w_failures := [] |}.

Definition verify_walk (anchor : string) (start : Z) (events : list json) : walk_state :=
  foldl verify_event (walk_init anchor start) events.

(** [macMatches] on the UTF-8 bytes of two texts: equality. *)
Definition macMatches (expected actual : string) : bool := bool_decide (expected = actual).

(** The failures of one checkpoint against the events seen by the walk. *)
Definition checkpoint_event_failures (w : walk_state) (last : option json)
    (c : LedgerCheckpoint) : list LedgerVerificationFailure :=
  let seq := Some (jint (cp_sequence c)) in
  match w_bySequence w !! cp_sequence c with
  | None =>
      fail_if (match last with Some JNull => true | _ => gt_value (cp_sequence c) last end)
        seq checkpoint_beyond_ledger_head seq last
  | Some f =>
      fail_if (negb (bool_decide (wf_hash f = cp_hash c)) ||
               negb (bool_decide (wf_recordedAt f = cp_recordedAt c)))
        seq checkpoint_does_not_match_event (Some (JStr (cp_hash c))) (Some (JStr (wf_hash f)))
  end.

Definition verify_checkpoint (o : VerifyOptions) (w : walk_state) (last : option json)
    (c : LedgerCheckpoint) : result js_exn (list LedgerVerificationFailure) :=
  let seq := Some (jint (cp_sequence c)) in
  match checkpointKeys o with
  | Some keys =>
      if bool_decide (keyId c ∈ lostKeyIds o) then Ok (checkpoint_event_failures w last c)
      else
        match reg_get (keyId c) keys with
        | Some key =>
            if decide (key = EmptyString) then
              Ok (fail_if true seq checkpoint_mac_invalid (Some (JStr "known key id"))
                    (Some (JStr (keyId c))))
            else if macMatches (computeCheckpointMac c key) (mac c)
            then Ok (checkpoint_event_failures w last c)
            else Ok (fail_if true seq checkpoint_mac_invalid None (Some (JStr (mac c))))
        | None =>
            if bool_decide (keyId c ∈ inherited_names) then Err TypeError
            else Ok (fail_if true seq checkpoint_mac_invalid (Some (JStr "known key id"))
                       (Some (JStr (keyId c))))
        end
  | None => Ok (checkpoint_event_failures w last c)
  end.

Fixpoint verify_checkpoints (o : VerifyOptions) (w : walk_state) (last : option json)
    (cs : list LedgerCheckpoint) : result js_exn (list LedgerVerificationFailure) :=
  match cs with
  | [] => Ok []
  | c :: cs =>
      f ← verify_checkpoint o w last c;
      fs ← verify_checkpoints o w last cs;
      Ok (f ++ fs)
  end.

(** [v !== x] for a text, and for a number. *)
Definition not_text (s : string) (v : option json) : bool :=
  negb (bool_decide (string_of v = Some s)).
Definition not_int (z : Z) (v : option json) : bool := negb (bool_decide (int_of v = Some z)).

(** [report.lastSequence ?? 0]. *)
Definition or_zero (v : option json) : option json :=
  match v with None | Some JNull => Some (jint 0) | Some v => Some v end.

Definition verifyLedgerEvents (events : list json) (o : VerifyOptions) :
    result js_exn LedgerVerificationReport :=
  let anchor := default LEDGER_GENESIS_HASH (anchorHash o) in
  let start := default 1 (startSequence o) in
  first ← match events with [] => Ok (Some JNull) | e :: _ => prop_or_throw e "sequence" end;
  lastSeq ← match last events with
            | None => Ok (Some JNull)
            | Some e => prop_or_throw e "sequence"
            end;
  head ← match last events with
         | None => Ok (Some (JStr anchor))
         | Some e => prop_or_throw e "hash"
         end;
  let w := verify_walk anchor start events in
  cfs ← verify_checkpoints o w lastSeq (checkpoints o);
  let hfs :=
    match expectedHeadHash o with
    | Some h => fail_if (not_text h head) lastSeq head_mismatch (Some (JStr h)) head
    | None => []
    end ++
    match expectedLastSequence o with
    | Some z => fail_if (not_int z (or_zero lastSeq)) lastSeq head_mismatch (Some (jint z))
                  (or_zero lastSeq)
    | None => []
    end in
  let fs := w_failures w ++ cfs ++ hfs in
  Ok {| ok := bool_decide (fs = []);
        checkedEvents := Z.of_nat (length events);
        checkedCheckpoints := Z.of_nat (length (checkpoints o));
        firstSequence := first; lastSequence := lastSeq; headHash := head;
        failures := fs |}.
End chain.

(** A service-built event as the row the store keeps. *)
Definition event_json (e : LedgerEvent) : json :=
  JObj [ ("schemaVersion", jint (schemaVersion e)); ("sequence", jint (sequence e));
         ("eventId", JStr (eventId e)); ("category", JStr (category_text (category e)));
         ("type", JStr (type e)); ("actor", JStr (actor e));
         ("subjectType", JStr (subjectType e)); ("subjectId", JStr (subjectId e));
         ("payload", JObj (payload e));
         ("correlationId", match correlationId e with Some s => JStr s | None => JNull end);
         ("occurredAt", JStr (occurredAt e)); ("recordedAt", JStr (recordedAt e));
         ("previousHash", JStr (previousHash e)); ("hash", JStr (hash e)) ].

(** ** Specification *)

(** The fields of an event, all but its own hash. *)
Definition content_fields : list string :=
  [ "schemaVersion"; "sequence"; "eventId"; "category"; "type"; "actor"; "subjectType";
    "subjectId"; "payload"; "correlationId"; "occurredAt"; "recordedAt"; "previousHash" ].

(** The canonical content an event's hash should commit to. *)
Definition committed (event : json) : list (string * json) :=
  (λ k, (k, canonicalize (default JNull (prop event k)))) <$> content_fields.

Section spec.
Context (sha256 : string → string).

(** Consecutive well-formed rows, each hashed correctly and linked to the
    previous one. *)
Fixpoint row_chain (prev : string) (seq : Z) (rows : list json) : Prop :=
  match rows with
  | [] => True
  | e :: rows =>
      ∃ f, isWellFormed e = Some f ∧ wf_sequence f = seq ∧ wf_previousHash f = prev ∧
           wf_hash f = computeEventHash sha256 e ∧ row_chain (wf_hash f) (seq + 1) rows
  end.

Fixpoint chain_head (prev : string) (rows : list json) : string :=
  match rows with
  | [] => prev
  | e :: rows => chain_head (match isWellFormed e with Some f => wf_hash f | None => prev end) rows
  end.

(** The typed chain the service builds: times are printed times that never
    decrease, types are registered under their category. *)
Fixpoint event_chain (prev : string) (seq : Z) (time : Z) (es : list LedgerEvent) : Prop :=
  match es with
  | [] => True
  | e :: es =>
      schemaVersion e = LEDGER_SCHEMA_VERSION ∧ sequence e = seq ∧ previousHash e = prev ∧
      hash e = computeEventHash sha256 (event_json e) ∧
      reg_get (type e) LEDGER_EVENT_TYPES = Some (category e) ∧
      ∃ t, four_digit_time t ∧ time ≤ t ∧ recordedAt e = iso_text t ∧
           event_chain (hash e) (seq + 1) t es
  end.
End spec.

(** Plain JSON data with no key that looks like a secret, at any depth. *)
Fixpoint js_safe (v : jsval) : bool :=
  match v with
  | VNull | VStr _ | VBool _ | VNum (Some _) => true
  | VArr l => forallb js_safe l
  | VObj l => forallb (λ kv, negb (isSensitiveKey (fst kv)) && js_safe (snd kv)) l
  | VUndefined | VNum None | VOther _ => false
  end.

(** ** Lemmas: what a clean walk establishes *)

Lemma fail_if_nil b s r x y : fail_if b s r x y = [] ↔ b = false.
Proof. by destruct b. Qed.

Lemma failures_app_nil (l1 l2 : list LedgerVerificationFailure) :
  l1 ++ l2 = [] ↔ l1 = [] ∧ l2 = [].
Proof. apply app_nil. Qed.

Create HintDb ledger.
#[export] Hint Rewrite fail_if_nil negb_false_iff bool_decide_eq_true bool_decide_eq_false
  Z.eqb_eq failures_app_nil : ledger.

Section walk_lemmas.
Context (sha256 : string → string) (other : string → option Z).
Notation verify_event := (verify_event sha256 other).
Notation computeEventHash := (computeEventHash sha256).

Lemma verify_event_grows w e : ∃ fs, w_failures (verify_event w e) = w_failures w ++ fs.
Proof. unfold LedgerChain.verify_event. destruct (isWellFormed e); simpl; eauto. Qed.

Lemma verify_events_grow rows w :
  ∃ fs, w_failures (foldl verify_event w rows) = w_failures w ++ fs.
Proof.
  revert w. induction rows as [|e rows IH]; intros w; simpl.
  { exists []. by rewrite app_nil_r. }
  destruct (IH (verify_event w e)) as [fs ->], (verify_event_grows w e) as [fs' ->].
  exists (fs' ++ fs). by rewrite app_assoc.
Qed.

Lemma type_failures_nil seq f :
  type_failures seq f = [] ↔
  ∃ c, reg_get (wf_type f) LEDGER_EVENT_TYPES = Some c ∧ category_text c = wf_category f.
Proof.
  unfold type_failures. destruct (reg_get (wf_type f) LEDGER_EVENT_TYPES) as [c|].
  - rewrite fail_if_nil, negb_false_iff, bool_decide_eq_true. naive_solver.
  - destruct (bool_decide (wf_type f ∈ inherited_names)); simpl; naive_solver.
Qed.

(** What one clean iteration checks, and the state it leaves. *)
Lemma verify_event_clean w e :
  w_failures w = [] →
  w_failures (verify_event w e) = [] ↔
  ∃ f, isWellFormed e = Some f ∧
    int_of (prop e "schemaVersion") = Some LEDGER_SCHEMA_VERSION ∧
    wf_sequence f = w_expectedSequence w ∧ wf_previousHash f = w_previousHash w ∧
    wf_hash f = computeEventHash e ∧
    (∃ c, reg_get (wf_type f) LEDGER_EVENT_TYPES = Some c ∧
          category_text c = wf_category f) ∧
    wf_eventId f ∉ w_seenIds w ∧
    match w_previousRecordedAt w with
    | Some prev => time_before other (wf_recordedAt f) prev = false
    | None => True
    end.
Proof.
  intros Hw. unfold LedgerChain.verify_event. destruct (isWellFormed e) as [f|]; simpl.
  - autorewrite with ledger. rewrite (type_failures_nil (Some (jint (wf_sequence f)))), Hw.
    split.
    + intros (_ & Hv & Hs & Hp & Hh & Ht & Hi & Hr). exists f. repeat split; try done.
      by destruct (w_previousRecordedAt w).
    + intros (f' & [= <-] & Hv & Hs & Hp & Hh & Ht & Hi & Hr). repeat split; try done.
      by destruct (w_previousRecordedAt w).
  - rewrite Hw. simpl. naive_solver.
Qed.

Lemma verify_event_state w e f :
  isWellFormed e = Some f →
  let w' := verify_event w e in
  w_seenIds w' = {[wf_eventId f]} ∪ w_seenIds w ∧
  w_bySequence w' = <[wf_sequence f := f]> (w_bySequence w) ∧
  w_previousHash w' = wf_hash f ∧ w_previousRecordedAt w' = Some (wf_recordedAt f) ∧
  w_expectedSequence w' = wf_sequence f + 1.
Proof. intros Hf. unfold LedgerChain.verify_event. by rewrite Hf. Qed.

Lemma clean_walk_chain rows w :
  w_failures (foldl verify_event w rows) = [] →
  row_chain sha256 (w_previousHash w) (w_expectedSequence w) rows.
Proof.
  revert w. induction rows as [|e rows IH]; intros w H; simpl in *; [done|].
  destruct (verify_events_grow rows (verify_event w e)) as [fs Hfs].
  destruct (verify_event_grows w e) as [fs' Hfs'].
  assert (w_failures (verify_event w e) = []) as He.
  { rewrite H in Hfs. symmetry in Hfs. by apply app_nil in Hfs as [? _]. }
  assert (w_failures w = []) as Hw.
  { rewrite He in Hfs'. symmetry in Hfs'. by apply app_nil in Hfs' as [? _]. }
  apply verify_event_clean in He as (f & Hf & _ & Hs & Hp & Hh & _); [|done].
  exists f. repeat split; try done.
  destruct (verify_event_state w e f Hf) as (_ & _ & E1 & _ & E2).
  rewrite <- Hs, <- E1, <- E2. by apply IH.
Qed.
End walk_lemmas.

Lemma hashed_object_ok e : json_ok e = true → json_ok (hashed_object e) = true.
Proof.
  intros He. unfold hashed_object. cbn [json_ok]. apply andb_true_iff. split.
  { apply bool_decide_eq_true. change (NoDup hashed_keys).
    apply (bool_decide_unpack _). vm_compute. exact I. }
  apply forallb_forall. intros [k v] Hin.
  apply list_elem_of_In, list_elem_of_fmap in Hin as (k' & [= -> ->] & _). simpl.
  destruct e as [| | | | |l]; try reflexivity. simpl in *. bool_to_prop.
  destruct (jget k' l) as [v|] eqn:E; [|done]. apply jget_Some_elem, list_elem_of_In in E.
  rewrite forallb_forall in H0. exact (H0 _ E).
Qed.

Lemma canonicalize_hashed_object e :
  canonicalize (hashed_object e) =
  JObj ((λ k, (k, canonicalize (default JNull (prop e k)))) <$> canonical_keys hashed_keys).
Proof.
  reflexivity.
Qed.

Lemma JObj_inj l1 l2 : JObj l1 = JObj l2 → l1 = l2.
Proof. by intros [= ->]. Qed.

(** The hash covers every field. *)
Lemma content_hashed k : k ∈ content_fields → k ∈ canonical_keys hashed_keys.
Proof.
  assert (Forall (λ k, k ∈ canonical_keys hashed_keys) content_fields) as H.
  { apply (bool_decide_unpack _). vm_compute. exact I. }
  rewrite Forall_forall in H. apply H.
Qed.

Lemma event_preimage_committed e1 e2 :
  json_ok e1 = true → json_ok e2 = true →
  event_preimage e1 = event_preimage e2 → committed e1 = committed e2.
Proof.
  intros H1 H2 H. unfold event_preimage in H.
  apply str_app_inj in H. unfold stableStringify in H.
  apply JSON_stringify_inj in H; [|by apply canonicalize_ok, hashed_object_ok..].
  rewrite !canonicalize_hashed_object in H. apply JObj_inj in H.
  unfold committed. apply list_fmap_ext. intros i k Hk. apply list_elem_of_lookup_2 in Hk.
  f_equal. apply content_hashed in Hk as Hc.
  set (g1 := λ k, canonicalize (default JNull (prop e1 k))).
  set (g2 := λ k, canonicalize (default JNull (prop e2 k))).
  change ((λ k, (k, g1 k)) <$> canonical_keys hashed_keys =
          (λ k, (k, g2 k)) <$> canonical_keys hashed_keys) in H.
  assert (Some (g1 k) = Some (g2 k)) as E; [|by injection E].
  rewrite <- (jget_fmap g1 _ k Hc), <- (jget_fmap g2 _ k Hc). by rewrite H.
Qed.

Lemma committed_get e1 e2 k :
  k ∈ content_fields → committed e1 = committed e2 →
  canonicalize (default JNull (prop e1 k)) = canonicalize (default JNull (prop e2 k)).
Proof.
  intros Hk H. unfold committed in H. apply (f_equal (jget k)) in H.
  rewrite !(jget_fmap (λ k, canonicalize (default JNull (prop _ k)))) in H by done.
  by injection H.
Qed.

Lemma isWellFormed_props e f :
  isWellFormed e = Some f →
  int_of (prop e "sequence") = Some (wf_sequence f) ∧
  prop e "previousHash" = Some (JStr (wf_previousHash f)) ∧
  prop e "hash" = Some (JStr (wf_hash f)) ∧ e ≠ JNull.
Proof.
  unfold isWellFormed. intros H.
  repeat match type of H with
  | (_ ≫= _) = Some _ => apply bind_Some in H as (? & ? & H)
  end.
  assert (∀ v s, string_of v = Some s → v = Some (JStr s)) as Hs.
  { intros v s; destruct v as [[]|]; simpl; naive_solver. }
  repeat match goal with Hx : string_of _ = Some _ |- _ => apply Hs in Hx end.
  destruct (prop e "payload") as [[]|]; try done; injection H as <-; simpl;
    (repeat split; try done; by intros ->).
Qed.

(** Equal commitments: equal sequence number and equal link. *)
Lemma committed_link e1 e2 f1 f2 :
  isWellFormed e1 = Some f1 → isWellFormed e2 = Some f2 → committed e1 = committed e2 →
  wf_sequence f1 = wf_sequence f2 ∧ wf_previousHash f1 = wf_previousHash f2.
Proof.
  intros (S1 & P1 & _)%isWellFormed_props (S2 & P2 & _)%isWellFormed_props H. split.
  - apply (committed_get _ _ "sequence") in H; [|by apply (bool_decide_unpack _); vm_compute].
    destruct (prop e1 "sequence") as [[| |t1| | |]|]; try done.
    destruct (prop e2 "sequence") as [[| |t2| | |]|]; try done.
    simpl in H. injection H as ->. congruence.
  - apply (committed_get _ _ "previousHash") in H;
      [|by apply (bool_decide_unpack _); vm_compute].
    rewrite P1, P2 in H. by injection H.
Qed.

Section tamper.
Context (sha256 : string → string).

Lemma row_chain_app prev seq l1 l2 :
  row_chain sha256 prev seq (l1 ++ l2) ↔
  row_chain sha256 prev seq l1 ∧
  row_chain sha256 (chain_head prev l1) (seq + Z.of_nat (length l1)) l2.
Proof.
  revert prev seq. induction l1 as [|e l1 IH]; intros prev seq; simpl.
  { rewrite Z.add_0_r. tauto. }
  replace (seq + Z.of_nat (S (length l1))) with (seq + 1 + Z.of_nat (length l1)) by lia.
  split.
  - intros (f & Hf & Hs & Hp & Hh & [H1 H2]%IH). rewrite Hf. eauto 8.
  - intros [(f & Hf & Hs & Hp & Hh & H1) H2]. rewrite Hf in H2.
    exists f. rewrite IH. done.
Qed.

Lemma chain_head_snoc prev l e f :
  isWellFormed e = Some f → chain_head prev (l ++ [e]) = wf_hash f.
Proof.
  intros Hf. revert prev. induction l as [|e' l IH]; intros prev; simpl; [by rewrite Hf|].
  apply IH.
Qed.

(** Hashes that agree at the head agree all the way down, or collide. *)
Lemma same_head_same_commitments prev seq l1 l2 :
  length l1 = length l2 →
  row_chain sha256 prev seq l1 → row_chain sha256 prev seq l2 →
  Forall (λ e, json_ok e = true) l1 → Forall (λ e, json_ok e = true) l2 →
  chain_head prev l1 = chain_head prev l2 →
  collision sha256 ∨ committed <$> l1 = committed <$> l2.
Proof.
  revert l2. induction l1 as [|e1 l1 IH] using rev_ind;
    intros l2' Hlen C1 C2 O1 O2 Hh.
  { destruct l2'; [by right|done]. }
  destruct l2' as [|e2 l2 _] using rev_ind; [rewrite length_app in Hlen; simpl in *; lia|].
  rewrite !length_app in Hlen. simpl in Hlen. assert (length l1 = length l2) as Hl by lia.
  apply row_chain_app in C1 as [C1 (f1 & F1 & S1 & P1 & H1 & _)].
  apply row_chain_app in C2 as [C2 (f2 & F2 & S2 & P2 & H2 & _)].
  apply Forall_app in O1 as [O1 Oe1]. apply Forall_app in O2 as [O2 Oe2].
  rewrite Forall_singleton in Oe1, Oe2.
  rewrite (chain_head_snoc _ _ _ _ F1), (chain_head_snoc _ _ _ _ F2) in Hh.
  destruct (decide (event_preimage e1 = event_preimage e2)) as [Ep|Np].
  2: { left. exists (event_preimage e1), (event_preimage e2). split; [done|].
       unfold computeEventHash in *. congruence. }
  apply event_preimage_committed in Ep; [|done..].
  destruct (committed_link e1 e2 f1 f2 F1 F2 Ep) as [_ Elink].
  destruct (IH l2 Hl C1 C2 O1 O2) as [|E]; [congruence|by left|].
  right. by rewrite !fmap_app, E, !list_fmap_singleton, Ep.
Qed.

(** With a common head, neither ledger can be longer than the other. *)
Lemma same_head_same_length prev seq l1 l2 :
  l1 ≠ [] → l2 ≠ [] →
  row_chain sha256 prev seq l1 → row_chain sha256 prev seq l2 →
  Forall (λ e, json_ok e = true) l1 → Forall (λ e, json_ok e = true) l2 →
  chain_head prev l1 = chain_head prev l2 → collision sha256 ∨ length l1 = length l2.
Proof.
  intros N1 N2 C1 C2 O1 O2 Hh.
  destruct l1 as [|e1 l1 _] using rev_ind; [done|].
  destruct l2 as [|e2 l2 _] using rev_ind; [done|].
  apply row_chain_app in C1 as [_ (f1 & F1 & S1 & _ & H1 & _)].
  apply row_chain_app in C2 as [_ (f2 & F2 & S2 & _ & H2 & _)].
  apply Forall_app in O1 as [_ Oe1]. apply Forall_app in O2 as [_ Oe2].
  rewrite Forall_singleton in Oe1, Oe2.
  rewrite (chain_head_snoc _ _ _ _ F1), (chain_head_snoc _ _ _ _ F2) in Hh.
  destruct (decide (event_preimage e1 = event_preimage e2)) as [Ep|Np].
  - right. apply event_preimage_committed in Ep; [|done..].
    destruct (committed_link e1 e2 f1 f2 F1 F2 Ep) as [Es _].
    rewrite !length_app. simpl. lia.
  - left. exists (event_preimage e1), (event_preimage e2). split; [done|].
    unfold computeEventHash in *. congruence.
Qed.
End tamper.

(** What a clean report establishes. *)
Section report.
Context (sha256 : string → string) (hmac : string → string → string)
        (other : string → option Z).
Notation verify := (verifyLedgerEvents sha256 hmac other).

Lemma verify_clean_intro events o first lastSeq head :
  let anchor := default LEDGER_GENESIS_HASH (anchorHash o) in
  let w := verify_walk sha256 other anchor (default 1 (startSequence o)) events in
  match events with [] => Ok (Some JNull) | e :: _ => prop_or_throw e "sequence" end = Ok first →
  match last events with
  | None => Ok (Some JNull) | Some e => prop_or_throw e "sequence" end = Ok lastSeq →
  match last events with
  | None => Ok (Some (JStr anchor)) | Some e => prop_or_throw e "hash" end = Ok head →
  w_failures w = [] → verify_checkpoints hmac o w lastSeq (checkpoints o) = Ok [] →
  (∀ h, expectedHeadHash o = Some h → string_of head = Some h) →
  (∀ z, expectedLastSequence o = Some z → int_of (or_zero lastSeq) = Some z) →
  ∃ r, verify events o = Ok r ∧ failures r = [] ∧ ok r = true.
Proof.
  intros anchor w H1 H2 H3 Hw Hc Hh Hz. unfold verifyLedgerEvents. fold anchor.
  rewrite H1, H2, H3. cbn [mbind result_bind]. fold w. rewrite Hc. cbn [mbind result_bind].
  rewrite Hw. eexists. split; [reflexivity|]. cbn [failures ok app].
  assert (match expectedHeadHash o with
    | Some h => fail_if (not_text h head) lastSeq head_mismatch (Some (JStr h)) head
    | None => [] end = []) as ->.
  { destruct (expectedHeadHash o) as [h|]; [|done]. apply fail_if_nil. unfold not_text.
    by rewrite (Hh h eq_refl), bool_decide_true. }
  assert (match expectedLastSequence o with
    | Some z => fail_if (not_int z (or_zero lastSeq)) lastSeq head_mismatch (Some (jint z))
                  (or_zero lastSeq)
    | None => [] end = []) as ->.
  { destruct (expectedLastSequence o) as [z|]; [|done]. apply fail_if_nil. unfold not_int.
    by rewrite (Hz z eq_refl), bool_decide_true. }
  done.
Qed.

Lemma verify_ok_inv events o r :
  verify events o = Ok r → ok r = true →
  let w := verify_walk sha256 other (default LEDGER_GENESIS_HASH (anchorHash o))
             (default 1 (startSequence o)) events in
  w_failures w = [] ∧
  (∃ lastSeq, verify_checkpoints hmac o w lastSeq (checkpoints o) = Ok []) ∧
  row_chain sha256 (default LEDGER_GENESIS_HASH (anchorHash o))
    (default 1 (startSequence o)) events ∧
  (events ≠ [] →
   headHash r = Some (JStr (chain_head (default LEDGER_GENESIS_HASH (anchorHash o)) events))).
Proof.
  intros H Hok w. unfold verifyLedgerEvents in H.
  apply bind_ok in H as (first & _ & H). apply bind_ok in H as (lastSeq & _ & H).
  apply bind_ok in H as (head & Hhead & H). apply bind_ok in H as (cfs & Hc & H).
  injection H as <-. simpl in Hok. apply bool_decide_eq_true, app_nil in Hok as [Hw Hrest].
  apply app_nil in Hrest as [-> _]. fold w in Hw, Hc.
  assert (row_chain sha256 (default LEDGER_GENESIS_HASH (anchorHash o))
    (default 1 (startSequence o)) events) as Hchain.
  { apply (clean_walk_chain sha256 other events (walk_init _ _)). exact Hw. }
  split; [done|]. split; [eauto|]. split; [done|]. intros Hne. simpl.
  destruct events as [|e events _] using rev_ind; [done|].
  apply row_chain_app in Hchain as [_ (f & Hf & _)].
  rewrite (chain_head_snoc _ _ _ _ Hf). rewrite last_snoc in Hhead.
  destruct (isWellFormed_props e f Hf) as (_ & _ & Hh & Hnn).
  assert (Ok (prop e "hash") = (Ok head : result js_exn _)) as Hp by (by destruct e).
  by injection Hp as <-.
Qed.
End report.

(** ** Lemmas: a service-built chain walks clean *)

Definition fields_of (e : LedgerEvent) : wf_fields :=
  {| wf_sequence := sequence e; wf_eventId := eventId e; wf_hash := hash e;
     wf_previousHash := previousHash e; wf_recordedAt := recordedAt e;
     wf_type := type e; wf_category := category_text (category e) |}.

Lemma int_of_jint z : Z.abs z ≤ max_safe → int_of (Some (jint z)) = Some z.
Proof.
  intros Hz. unfold int_of, jint. rewrite BigInt_of_Z_to_string. simpl.
  rewrite bool_decide_true by done. by rewrite (proj2 (Z.leb_le _ _)).
Qed.

Lemma isWellFormed_event e :
  Z.abs (sequence e) ≤ max_safe → isWellFormed (event_json e) = Some (fields_of e).
Proof.
  intros Hs. unfold isWellFormed.
  change (prop (event_json e) "sequence") with (Some (jint (sequence e))).
  rewrite int_of_jint by done. reflexivity.
Qed.

Section complete.
Context (sha256 : string → string) (other : string → option Z).
Notation verify_event := (verify_event sha256 other).

Lemma time_before_iso t1 t2 :
  four_digit_time t1 → four_digit_time t2 →
  time_before other (iso_text t1) (iso_text t2) = (t1 <? t2).
Proof. intros. unfold time_before. by autorewrite with dates. Qed.

(** The walk's state agrees with the chain built so far. *)
Definition walk_at (w : walk_state) (prev : string) (seq time : Z) : Prop :=
  w_failures w = [] ∧ w_previousHash w = prev ∧ w_expectedSequence w = seq ∧
  (w_previousRecordedAt w = None ∨
   four_digit_time time ∧ w_previousRecordedAt w = Some (iso_text time)).

Lemma event_chain_step w prev seq time e es :
  walk_at w prev seq time → event_chain sha256 prev seq time (e :: es) →
  Z.abs seq ≤ max_safe → eventId e ∉ w_seenIds w →
  ∃ t, walk_at (verify_event w (event_json e)) (hash e) (seq + 1) t ∧
       event_chain sha256 (hash e) (seq + 1) t es ∧
       w_seenIds (verify_event w (event_json e)) = {[eventId e]} ∪ w_seenIds w ∧
       w_bySequence (verify_event w (event_json e)) =
         <[seq := fields_of e]> (w_bySequence w).
Proof.
  intros (Hw & Hp & Hs & Ht) (Ev & Es & Ep & Eh & Er & t & Ft & Le & Et & Hc) Hm Hid.
  subst seq. pose proof (isWellFormed_event e ltac:(lia)) as Hf.
  destruct (verify_event_state sha256 other w _ _ Hf) as (E1 & E2 & E3 & E4 & E5).
  exists t. split; [split|].
  - apply verify_event_clean; [done|]. exists (fields_of e).
    repeat split; try done; try (simpl; congruence).
    + change (prop (event_json e) "schemaVersion") with (Some (jint (schemaVersion e))).
      rewrite Ev. reflexivity.
    + exists (category e). done.
    + simpl. destruct Ht as [->|[Fp ->]]; [done|]. rewrite Et, time_before_iso by done.
      by apply Z.ltb_ge.
  - simpl in *. rewrite E3, E4, E5, Et. repeat split; [simpl; lia|]. by right.
  - split; [done|]. rewrite E1, E2. simpl. by rewrite Es.
Qed.

Lemma event_chain_clean es w prev seq time :
  walk_at w prev seq time → event_chain sha256 prev seq time es →
  0 ≤ seq → seq + Z.of_nat (length es) ≤ max_safe →
  NoDup (eventId <$> es) → (∀ i, i ∈ eventId <$> es → i ∉ w_seenIds w) →
  w_failures (foldl verify_event w (event_json <$> es)) = [].
Proof.
  revert w prev seq time. induction es as [|e es IH];
    intros w prev seq time Hw Hc H0 Hm Hnd Hseen; [by destruct Hw|].
  rewrite fmap_cons in *. cbn [foldl length] in *. apply NoDup_cons in Hnd as [Hni Hnd].
  destruct (event_chain_step w prev seq time e es Hw Hc) as (t & Hw' & Hc' & Hids & _);
    [lia|set_solver|].
  eapply IH; [exact Hw'|exact Hc'|lia|lia|done|].
  intros i Hi. rewrite Hids. set_solver.
Qed.

(** Where the walk files each event. *)
Lemma bySequence_ge rows w k :
  (∀ e f, e ∈ rows → isWellFormed e = Some f → k < wf_sequence f) →
  w_bySequence (foldl verify_event w rows) !! k = w_bySequence w !! k.
Proof.
  revert w. induction rows as [|e rows IH]; intros w Hr; [done|]. cbn [foldl].
  rewrite IH by (intros e' f' Hin Hf'; apply (Hr e' f'); [set_solver|done]).
  destruct (isWellFormed e) as [f|] eqn:Hf.
  - destruct (verify_event_state sha256 other w e f Hf) as (_ & -> & _).
    apply lookup_insert_ne. pose proof (Hr e f ltac:(set_solver) Hf). lia.
  - unfold LedgerChain.verify_event. by rewrite Hf.
Qed.

Lemma row_chain_sequences prev seq rows e f :
  row_chain sha256 prev seq rows → e ∈ rows → isWellFormed e = Some f → seq ≤ wf_sequence f.
Proof.
  revert prev seq. induction rows as [|e' rows IH]; intros prev seq Hc Hin Hf;
    [by apply elem_of_nil in Hin|].
  destruct Hc as (f' & Hf' & Hs & _ & _ & Hc). apply elem_of_cons in Hin as [->|Hin].
  - rewrite Hf in Hf'. injection Hf' as ->. lia.
  - specialize (IH _ _ Hc Hin Hf). lia.
Qed.

(** In a chain, the row filed under a sequence number is the one at that
    position. *)
Lemma bySequence_chain prev seq l1 e l2 f w :
  row_chain sha256 prev seq (l1 ++ e :: l2) → isWellFormed e = Some f →
  wf_sequence f = seq + Z.of_nat (length l1) ∧
  w_bySequence (foldl verify_event w (l1 ++ e :: l2)) !! wf_sequence f = Some f.
Proof.
  intros Hc Hf. apply row_chain_app in Hc as [_ (f' & Hf' & Hs & _ & _ & Hc)].
  rewrite Hf in Hf'. injection Hf' as <-. split; [done|].
  rewrite foldl_app. cbn [foldl]. rewrite bySequence_ge.
  - destruct (verify_event_state sha256 other (foldl verify_event w l1) e f Hf)
      as (_ & -> & _). apply lookup_insert_eq.
  - intros e2 f2 Hin Hf2.
    pose proof (row_chain_sequences _ _ _ _ _ Hc Hin Hf2). lia.
Qed.
End complete.

Section checkpoint_lemmas.
Context (sha256 : string → string) (hmac : string → string → string)
        (other : string → option Z).

Lemma verify_checkpoints_clean o w lastSeq cs c :
  verify_checkpoints hmac o w lastSeq cs = Ok [] → c ∈ cs →
  verify_checkpoint hmac o w lastSeq c = Ok [].
Proof.
  induction cs as [|c' cs IH]; intros H Hin; [by apply elem_of_nil in Hin|].
  simpl in H. apply bind_ok in H as (f & Hf & H). apply bind_ok in H as (fs & Hfs & H).
  injection H as H. apply app_nil in H as [-> ->].
  apply elem_of_cons in Hin as [->|Hin]; auto.
Qed.

Lemma verify_checkpoint_clean o w lastSeq c :
  verify_checkpoint hmac o w lastSeq c = Ok [] →
  checkpoint_event_failures w lastSeq c = [] ∧
  (∀ keys, checkpointKeys o = Some keys → keyId c ∉ lostKeyIds o →
     ∃ key, reg_get (keyId c) keys = Some key ∧ key ≠ "" ∧
            mac c = hmac key (checkpoint_preimage c)).
Proof.
  unfold verify_checkpoint. destruct (checkpointKeys o) as [keys|]; [|by intros [= ->]].
  case_bool_decide; [by intros [= ->]|].
  destruct (reg_get (keyId c) keys) as [key|] eqn:Hk; [|by case_bool_decide].
  case_decide; [done|]. unfold macMatches, computeCheckpointMac.
  case_bool_decide as Hm; [|done]. intros [= ->]. split; [done|].
  intros keys' [= <-] _. eauto.
Qed.

(** A clean checkpoint inside a chained ledger carries the hash of its row. *)
Lemma checkpoint_row prev seq rows lastSeq c w0 :
  row_chain sha256 prev seq rows →
  seq ≤ cp_sequence c < seq + Z.of_nat (length rows) →
  checkpoint_event_failures (foldl (verify_event sha256 other) w0 rows) lastSeq c = [] →
  chain_head prev (take (Z.to_nat (cp_sequence c - seq + 1)) rows) = cp_hash c.
Proof.
  intros Hc Hr Hf. set (n := Z.to_nat (cp_sequence c - seq)).
  destruct (lookup_lt_is_Some_2 rows n ltac:(lia)) as [e He].
  pose proof (take_drop_middle rows n e He) as Hsplit.
  assert (length (take n rows) = n) as Hn.
  { rewrite length_take. apply lookup_lt_Some in He. lia. }
  rewrite <- Hsplit in Hc. pose proof Hc as Hc2.
  apply row_chain_app in Hc2 as [_ (f & Hwf & _)].
  destruct (bySequence_chain sha256 other prev seq _ e _ f w0 Hc Hwf) as [Hs Hb].
  rewrite Hsplit, Hs, Hn in Hb. unfold checkpoint_event_failures in Hf.
  replace (seq + Z.of_nat n) with (cp_sequence c) in Hb by lia. rewrite Hb in Hf.
  apply fail_if_nil, orb_false_iff in Hf as [Hh _].
  apply negb_false_iff, bool_decide_eq_true in Hh. rewrite <- Hh.
  replace (Z.to_nat (cp_sequence c - seq + 1)) with (S n) by lia.
  rewrite (take_S_r rows n e He). by apply chain_head_snoc.
Qed.
End checkpoint_lemmas.

(** ** Lemmas: the payload check *)

Section jsval_ind.
Context (P : jsval → Prop)
  (Pu : P VUndefined) (Pn : P VNull) (Pb : ∀ b, P (VBool b)) (Pnum : ∀ t, P (VNum t))
  (Ps : ∀ s, P (VStr s)) (Po : ∀ k, P (VOther k))
  (Parr : ∀ l, Forall P l → P (VArr l))
  (Pobj : ∀ l, Forall (λ kv, P (snd kv)) l → P (VObj l)).

(** Induction through the nested lists. *)
Fixpoint jsval_ind_nested (v : jsval) : P v :=
  match v with
  | VUndefined => Pu
  | VNull => Pn
  | VBool b => Pb b
  | VNum t => Pnum t
  | VStr s => Ps s
  | VOther k => Po k
  | VArr l =>
      Parr l ((fix go l := match l return Forall P l with
                           | [] => Forall_nil_2 _
                           | x :: l => Forall_cons_2 _ _ _ (jsval_ind_nested x) (go l)
                           end) l)
  | VObj l =>
      Pobj l ((fix go l := match l return Forall (λ kv, P (snd kv)) l with
                           | [] => Forall_nil_2 _
                           | x :: l => Forall_cons_2 _ _ _ (jsval_ind_nested (snd x)) (go l)
                           end) l)
  end.
End jsval_ind.

Lemma walk_ok v path : walk v path = Ok tt ↔ js_safe v = true.
Proof.
  revert path. induction v as [| |b|[t|]|s|k|l IH|l IH] using jsval_ind_nested;
    intros path; try (simpl; naive_solver).
  - cbn [walk js_safe]. generalize 0. induction IH as [|x l Hx _ IHl]; intros i; [naive_solver|].
    cbn [forallb]. rewrite bind_ok, andb_true_iff, <- (IHl (i + 1)).
    rewrite <- (Hx (path +:+ "[" +:+ Z_to_string i +:+ "]")). split.
    + intros ([] & ? & ?). done.
    + intros [? ?]. exists tt. done.
  - cbn [walk js_safe]. induction IH as [|[k x] l Hx _ IHl]; [naive_solver|].
    cbn [forallb fst snd] in *. rewrite !andb_true_iff, <- IHl, negb_true_iff.
    rewrite <- (Hx (path +:+ "." +:+ k)). rewrite bind_ok. split.
    + intros ([] & Hs%throw_if_ok & Hr). apply bind_ok in Hr as ([] & ? & ?). done.
    + intros [[Hs ?] ?]. exists tt. rewrite throw_if_ok. split; [done|].
      apply bind_ok. exists tt. done.
Qed.

(** ** Properties *)

(** The payload check accepts exactly the plain objects that are JSON data
    at every depth, carry no key that looks like a secret at any depth, and whose
    stable text is at most 16 KiB of UTF-8. *)
Theorem assertLedgerPayload_exact v :
  assertLedgerPayload v = Ok tt ↔
  isPlainObject v = true ∧ js_safe v = true ∧
  byteLength (stableStringify (to_json v)) ≤ MAX_PAYLOAD_BYTES.
Proof.
  unfold assertLedgerPayload. rewrite bind_ok. split.
  - intros ([] & Hp%throw_if_ok & H). apply bind_ok in H as ([] & Hw%walk_ok & H).
    apply throw_if_ok in H. apply negb_false_iff in Hp. apply Z.ltb_ge in H. done.
  - intros (Hp & Hw & Hb). exists tt. rewrite Hp. split; [done|].
    apply bind_ok. exists tt. split; [by apply walk_ok|]. by apply throw_if_ok, Z.ltb_ge.
Qed.

(** A report is positive exactly when it lists no failure. *)
Lemma verify_report_failures sha256 hmac other rows o r :
  verifyLedgerEvents sha256 hmac other rows o = Ok r → failures r = [] → ok r = true.
Proof.
  unfold verifyLedgerEvents. intros H. repeat (apply bind_ok in H as (? & ? & H)).
  injection H as <-. cbn [failures ok]. by intros ->.
Qed.

(** A stored row [null] at either end of the ledger makes verification throw
    instead of reporting a malformed event, which a row in the middle does. *)
Lemma verify_throws_on_null_row sha256 hmac other rows o :
  verifyLedgerEvents sha256 hmac other (JNull :: rows) o = Err TypeError.
Proof. reflexivity. Qed.

(** A checkpoint whose key id is the name of an inherited property makes
    verification throw: the HMAC is keyed with a function. *)
Lemma verify_throws_on_inherited_key sha256 hmac other keys cp :
  reg_get "constructor" keys = None → keyId cp = "constructor" →
  verifyLedgerEvents sha256 hmac other []
    {| anchorHash := None; startSequence := None; checkpoints := [cp];
       checkpointKeys := Some keys; lostKeyIds := []; expectedHeadHash := None;
       expectedLastSequence := None |} = Err TypeError.
Proof.
  intros Hr Hk. unfold verifyLedgerEvents. simpl. unfold verify_checkpoint. simpl.
  by rewrite Hk, Hr.
Qed.

(** C2: tamper evidence.  Two non-empty ledgers that both verify from the same
    anchor and report the same head hash commit to the same canonical events, in
    the same number and order; otherwise SHA-256 has collided on two texts.  So
    altering, dropping, inserting or reordering any event either fails
    verification, changes the head hash, or exhibits a collision. *)
Theorem ledger_tamper_evident sha256 hmac other evs1 evs2 o1 o2 r1 r2 :
  anchorHash o1 = anchorHash o2 → startSequence o1 = startSequence o2 →
  Forall (λ e, json_ok e = true) evs1 → Forall (λ e, json_ok e = true) evs2 →
  verifyLedgerEvents sha256 hmac other evs1 o1 = Ok r1 → ok r1 = true →
  verifyLedgerEvents sha256 hmac other evs2 o2 = Ok r2 → ok r2 = true →
  evs1 ≠ [] → evs2 ≠ [] → headHash r1 = headHash r2 →
  committed <$> evs1 = committed <$> evs2 ∨ collision sha256.
Proof.
  intros Ha Hs J1 J2 V1 K1 V2 K2 N1 N2 Hh.
  destruct (verify_ok_inv _ _ _ _ _ _ V1 K1) as (_ & _ & C1 & H1).
  destruct (verify_ok_inv _ _ _ _ _ _ V2 K2) as (_ & _ & C2 & H2).
  rewrite H1, H2 in Hh by done. rewrite <- Ha, <- Hs in *. injection Hh as Hh.
  destruct (same_head_same_length sha256 _ _ evs1 evs2 N1 N2 C1 C2 J1 J2 Hh) as [|Hl];
    [by right|].
  destruct (same_head_same_commitments sha256 _ _ evs1 evs2 Hl C1 C2 J1 J2 Hh); tauto.
Qed.

(** A checkpoint pins history.  If two ledgers both verify with the same
    checkpoint, and both reach its sequence number, then they commit to the same
    events up to it, or SHA-256 collides; and with keys configured, an accepted
    checkpoint under a key that is not declared lost carries the HMAC of its
    content under a known non-empty key. *)
Theorem checkpoint_pins_history sha256 hmac other evs1 evs2 o1 o2 r1 r2 c :
  anchorHash o1 = anchorHash o2 → startSequence o1 = startSequence o2 →
  Forall (λ e, json_ok e = true) evs1 → Forall (λ e, json_ok e = true) evs2 →
  verifyLedgerEvents sha256 hmac other evs1 o1 = Ok r1 → ok r1 = true →
  verifyLedgerEvents sha256 hmac other evs2 o2 = Ok r2 → ok r2 = true →
  c ∈ checkpoints o1 → c ∈ checkpoints o2 →
  let start := default 1 (startSequence o1) in
  start ≤ cp_sequence c < start + Z.of_nat (Nat.min (length evs1) (length evs2)) →
  let n := Z.to_nat (cp_sequence c - start + 1) in
  (committed <$> take n evs1 = committed <$> take n evs2 ∨ collision sha256) ∧
  (∀ keys, checkpointKeys o1 = Some keys → keyId c ∉ lostKeyIds o1 →
     ∃ key, reg_get (keyId c) keys = Some key ∧ key ≠ "" ∧
            mac c = hmac key (checkpoint_preimage c)).
Proof.
  intros Ha Hs J1 J2 V1 K1 V2 K2 I1 I2 start Hr n.
  destruct (verify_ok_inv _ _ _ _ _ _ V1 K1) as (_ & [l1 P1] & C1 & _).
  destruct (verify_ok_inv _ _ _ _ _ _ V2 K2) as (_ & [l2 P2] & C2 & _).
  rewrite <- Ha, <- Hs in *. fold start in C1, C2, P1, P2.
  apply (verify_checkpoints_clean _ _ _ _ _ c) in P1; [|done].
  apply (verify_checkpoints_clean _ _ _ _ _ c) in P2; [|done].
  apply verify_checkpoint_clean in P1 as [E1 M1], P2 as [E2 _]. split; [|done].
  assert (start ≤ cp_sequence c < start + Z.of_nat (length evs1)) as R1 by lia.
  assert (start ≤ cp_sequence c < start + Z.of_nat (length evs2)) as R2 by lia.
  pose proof (checkpoint_row _ _ _ _ _ _ _ _ C1 R1 E1) as T1.
  pose proof (checkpoint_row _ _ _ _ _ _ _ _ C2 R2 E2) as T2.
  fold n in T1, T2. rewrite <- (take_drop n evs1) in C1, J1. rewrite <- (take_drop n evs2) in C2, J2.
  apply row_chain_app in C1 as [C1 _], C2 as [C2 _].
  apply Forall_app in J1 as [J1 _]. apply Forall_app in J2 as [J2 _].
  assert (length (take n evs1) = length (take n evs2)) as Hl by (rewrite !length_take; lia).
  assert (committed <$> take n evs1 = committed <$> take n evs2 ∨ collision sha256); [|done].
  destruct (same_head_same_commitments sha256 _ _ _ _ Hl C1 C2 J1 J2); [congruence|tauto..].
Qed.

(** *** A concrete ledger *)

(** A hash that can be evaluated, for the concrete instances below. *)
Definition toy_sha256 (s : string) : string := "#" +:+ s.
Definition toy_hmac (k s : string) : string := k +:+ "|" +:+ s.
Definition toy_other (s : string) : option Z := None.

Definition seal (e : LedgerEvent) : LedgerEvent :=
  {| schemaVersion := schemaVersion e; sequence := sequence e; eventId := eventId e;
     category := category e; type := type e; actor := actor e; subjectType := subjectType e;
     subjectId := subjectId e; payload := payload e; correlationId := correlationId e;
     occurredAt := occurredAt e; recordedAt := recordedAt e; previousHash := previousHash e;
     hash := computeEventHash toy_sha256 (event_json e) |}.

Definition toy_event (seq : Z) (id prev : string) (t : Z) : LedgerEvent :=
  seal {| schemaVersion := 1; sequence := seq; eventId := id; category := financial;
          type := "bond.issued"; actor := "GA1"; subjectType := "bond"; subjectId := "b1";
          payload := [("z", JNum "7"); ("a", JStr "x")]; correlationId := None;
          occurredAt := iso_text t; recordedAt := iso_text t; previousHash := prev;
          hash := "" |}.

Definition toy_1 : LedgerEvent := toy_event 1 "id-1" LEDGER_GENESIS_HASH 0.
Definition toy_2 : LedgerEvent := toy_event 2 "id-2" (hash toy_1) 86400000.

(** The same ledger as a store could return it: keys in another order. *)
Definition reorder (j : json) : json := match j with JObj l => JObj (reverse l) | _ => j end.
Definition toy_rows : list json := [event_json toy_1; event_json toy_2].
Definition toy_rows' : list json := reorder <$> toy_rows.

Definition toy_checkpoint : LedgerCheckpoint :=
  let base := {| cp_sequence := 1; cp_hash := hash toy_1; cp_recordedAt := recordedAt toy_1;
                 createdAt := iso_text 5; keyId := "v1"; mac := "" |} in
  {| cp_sequence := 1; cp_hash := hash toy_1; cp_recordedAt := recordedAt toy_1;
     createdAt := iso_text 5; keyId := "v1"; mac := toy_hmac "k" (checkpoint_preimage base) |}.

Definition toy_options : VerifyOptions :=
  {| anchorHash := None; startSequence := None; checkpoints := [toy_checkpoint];
     checkpointKeys := Some [("v1", "k")]; lostKeyIds := []; expectedHeadHash := None;
     expectedLastSequence := Some 2 |}.

Definition toy_report (rows : list json) (o : VerifyOptions) : LedgerVerificationReport :=
  match verifyLedgerEvents toy_sha256 toy_hmac toy_other rows o with
  | Ok r => r
  | Err _ => {| ok := false; checkedEvents := 0; checkedCheckpoints := 0; firstSequence := None;
                lastSequence := None; headHash := None; failures := [] |}
  end.

Lemma ledger_tamper_evident_witness :
  toy_rows ≠ toy_rows' ∧
  (committed <$> toy_rows = committed <$> toy_rows' ∨ collision toy_sha256).
Proof.
  split; [discriminate|].
  apply (ledger_tamper_evident toy_sha256 toy_hmac toy_other toy_rows toy_rows' toy_options
           toy_options (toy_report toy_rows toy_options) (toy_report toy_rows' toy_options));
    try reflexivity; try discriminate.
  all: repeat (constructor; [vm_compute; reflexivity|]); constructor.
Defined.

Lemma checkpoint_pins_history_witness :
  (committed <$> take 1 toy_rows = committed <$> take 1 toy_rows' ∨ collision toy_sha256) ∧
  (∀ keys, checkpointKeys toy_options = Some keys → "v1" ∉ lostKeyIds toy_options →
     ∃ key, reg_get "v1" keys = Some key ∧ key ≠ "" ∧
            mac toy_checkpoint = toy_hmac key (checkpoint_preimage toy_checkpoint)).
Proof.
  apply (checkpoint_pins_history toy_sha256 toy_hmac toy_other toy_rows toy_rows' toy_options
           toy_options (toy_report toy_rows toy_options) (toy_report toy_rows' toy_options)
           toy_checkpoint); try reflexivity.
  1-2: repeat (constructor; [vm_compute; reflexivity|]); constructor.
  1-2: apply list_elem_of_here.
  vm_compute. split; [discriminate|reflexivity].
Defined.
