(* ===== verification/LedgerService.v ===== *)
(** * The event ledger service and its store

    Models [api/src/ledger/event-ledger.service.ts] (loading, sealing, appending,
    checkpointing, verifying, querying) and the in-memory store of
    [api/src/ledger/ledger.store.ts].  The service serialises its operations
    through a promise queue, so a run of the service is a sequence of whole
    operations.

    What an operation reads from outside is its argument [env]: the clock, the
    random UUID, and what each storage call does.  A storage write may succeed,
    fail without effect, or fail after it took effect ([FailCommitted]: a time-out
    after commit).  The store itself is an instance of the class [LedgerStore];
    the service's invariant is proved against [LedgerStoreLaws], which the
    in-memory store discharges. *)
From S2P Require Import Prelude JsDate Json LedgerChain.

(** ** The store interface *)

Class LedgerStore (σ : Type) := {
  loadEvents : σ → list json;
  loadCheckpoints : σ → list LedgerCheckpoint;
  (** [None]: the call threw and nothing was written. *)
  appendEvent : σ → LedgerEvent → option σ;
  appendCheckpoint : σ → LedgerCheckpoint → option σ;
}.

(** The number a row is ordered by. *)
Definition row_seq (row : json) : Z := default 0 (int_of (prop row "sequence")).

Definition rows_below (n : Z) (rows : list json) : Prop := Forall (λ r, row_seq r < n) rows.
Definition rows_increasing (rows : list json) : Prop :=
  StronglySorted (λ r1 r2, row_seq r1 < row_seq r2) rows.

(** Append-only: a new highest sequence number goes to the end, a taken one is
    refused, and checkpoints do not disturb events. *)
Class LedgerStoreLaws (σ : Type) `{LedgerStore σ} := {
  append_new s e :
    rows_increasing (loadEvents s) → rows_below (sequence e) (loadEvents s) →
    Z.abs (sequence e) ≤ max_safe →
    ∃ s', appendEvent s e = Some s' ∧ loadEvents s' = loadEvents s ++ [event_json e] ∧
          loadCheckpoints s' = loadCheckpoints s;
  append_taken s e :
    Z.abs (sequence e) ≤ max_safe →
    Exists (λ r, int_of (prop r "sequence") = Some (sequence e)) (loadEvents s) →
    appendEvent s e = None;
  append_checkpoint s c s' :
    appendCheckpoint s c = Some s' →
    loadEvents s' = loadEvents s ∧ loadCheckpoints s' = loadCheckpoints s ++ [c];
}.

(** *** The in-memory store *)

Record InMemoryLedgerStore := {
  ms_events : list json;
  ms_checkpoints : list LedgerCheckpoint;
}.

Definition mem_appendEvent (s : InMemoryLedgerStore) (e : LedgerEvent) :
    option InMemoryLedgerStore :=
  if existsb (λ r, bool_decide (int_of (prop r "sequence") = Some (sequence e))) (ms_events s)
  then None
  else Some {| ms_events := ms_events s ++ [event_json e]; ms_checkpoints := ms_checkpoints s |}.

#[export] Instance row_le_dec : RelDecision (λ r1 r2, row_seq r1 ≤ row_seq r2).
Proof. intros r1 r2. apply _. Defined.

(** Sorted by sequence number. *)
Definition mem_loadEvents (s : InMemoryLedgerStore) : list json :=
  merge_sort (λ r1 r2, row_seq r1 ≤ row_seq r2) (ms_events s).

Definition mem_appendCheckpoint (s : InMemoryLedgerStore) (c : LedgerCheckpoint) :
    option InMemoryLedgerStore :=
  Some {| ms_events := ms_events s; ms_checkpoints := ms_checkpoints s ++ [c] |}.

#[export] Instance InMemory_store : LedgerStore InMemoryLedgerStore :=
  {| loadEvents := mem_loadEvents; loadCheckpoints := ms_checkpoints;
     appendEvent := mem_appendEvent; appendCheckpoint := mem_appendCheckpoint |}.

(** ** Configuration *)

Record ledger_env_vars := {
  CHECKPOINT_KEY : option string;
  CHECKPOINT_KEY_ID : option string;
  CHECKPOINT_RETIRED_KEYS : option string;
  CHECKPOINT_LOST_KEY_IDS : option string;
  checkpointInterval : Z;
}.

(** [s.slice(0, i)] and [s.slice(i + 1)] around the first [c]. *)
Fixpoint cut_at (c : ascii) (s : string) : option (string * string) :=
  match s with
  | EmptyString => None
  | String d s =>
      if Ascii.eqb d c then Some (EmptyString, s)
      else '(a, b) ← cut_at c s; Some (String d a, b)
  end.

Fixpoint put_key (k v : string) (l : list (string * string)) : list (string * string) :=
  match l with
  | [] => [(k, v)]
  | (k', v') :: l => if decide (k = k') then (k, v) :: l else (k', v') :: put_key k v l
  end.

(** [keys[k] = v]: an existing key keeps its place, and assigning a text to
    [__proto__] does nothing. *)
Definition set_key (k v : string) (l : list (string * string)) : list (string * string) :=
  if decide (k = proto_key) then l else put_key k v l.

Definition or_default (d : string) (x : option string) : string :=
  match x with Some EmptyString | None => d | Some s => s end.

Definition checkpointKey (cfg : ledger_env_vars) : option string :=
  let key := default EmptyString (CHECKPOINT_KEY cfg) in
  if MIN_CHECKPOINT_KEY_LENGTH <=? Z.of_nat (String.length key) then Some key else None.

Definition currentKeyId (cfg : ledger_env_vars) : string := or_default "v1" (CHECKPOINT_KEY_ID cfg).

Definition retired_keys (cfg : ledger_env_vars) : list (string * string) :=
  foldl (λ keys pair,
           match cut_at ":" pair with
           | Some (EmptyString, _) | None => keys
           | Some (a, b) => set_key (trim a) (trim b) keys
           end) [] (split_on "," (default EmptyString (CHECKPOINT_RETIRED_KEYS cfg))).

Definition verificationKeys (cfg : ledger_env_vars) : option (list (string * string)) :=
  let keys := retired_keys cfg in
  let keys := match checkpointKey cfg with
              | Some k => set_key (currentKeyId cfg) k keys
              | None => keys
              end in
  match keys with [] => None | _ => Some keys end.

Definition config_lostKeyIds (cfg : ledger_env_vars) : list string :=
  filter (λ s, s ≠ EmptyString)
    (trim <$> split_on "," (default EmptyString (CHECKPOINT_LOST_KEY_IDS cfg))).

(** ** The service *)

Definition MAX_LEDGER_EVENTS : Z := 100000.
Definition MAX_FIELD_LENGTH : Z := 256.

Record LedgerEventInput := {
  in_type : string;
  in_actor : string;
  in_subjectType : string;
  in_subjectId : string;
  in_payload : option jsval;
  in_correlationId : option string;
  in_occurredAt : option string;
}.

(** A validated input: the payload copied, [occurredAt] normalised. *)
Record ValidInput := {
  vi_type : string;
  vi_category : LedgerCategory;
  vi_actor : string;
  vi_subjectType : string;
  vi_subjectId : string;
  vi_payload : list (string * json);
  vi_correlationId : option string;
  vi_occurredAt : option string;
}.

Inductive ledger_exn :=
| UnknownType (t : string)
| BadField (field : string)
| BadCorrelationId
| BadOccurredAt
| BadPayload (e : payload_exn)
| SealedLedger (first : LedgerVerificationFailure) (count : Z)
| AtCapacity
| StoreRejected
| LoadFailed
| LoadThrew (e : js_exn)
| CheckpointingDisabled
| EmptyLedger
| BadExportRange
| ExportTooLarge
| ExportedByMissing.

(** The private fields of [EventLedgerService]. *)
Record service := {
  sv_events : list json;
  sv_checkpoints : list LedgerCheckpoint;
  sv_loaded : bool;
  sv_needsReload : bool;
  sv_sealedReason : option (LedgerVerificationFailure * Z);
  sv_appendFailures : Z;
}.

Definition new_service : service :=
  {| sv_events := []; sv_checkpoints := []; sv_loaded := false; sv_needsReload := false;
     sv_sealedReason := None; sv_appendFailures := 0 |}.

(** What a storage call does. *)
Inductive outcome := Succeed | Fail | FailCommitted.

Record env := {
  e_clock : Z;
  e_checkpointClock : Z;
  e_uuid : string;
  e_load : bool;
  e_append : outcome;
  e_checkpoint : outcome;
}.

(** [this.events[this.events.length - 1]], when truthy. *)
Definition last_row (rows : list json) : option json :=
  match last rows with Some r => if falsy r then None else Some r | None => None end.

(** [head()]: sequence number and hash of the last row. *)
Definition head_of (rows : list json) : option json * option json :=
  match last_row rows with
  | Some r => (prop r "sequence", prop r "hash")
  | None => (Some (jint 0), Some (JStr LEDGER_GENESIS_HASH))
  end.

Definition text_of (v : option json) : string := default EmptyString (string_of v).

(** Checks one text field. *)
Definition field_ok (v : string) : bool :=
  negb (bool_decide (trim v = EmptyString)) && (Z.of_nat (String.length v) <=? MAX_FIELD_LENGTH).

(** *** Queries *)

Record LedgerQuery := {
  q_fromSequence : option Z;
  q_limit : option Z;
  q_category : option string;
  q_type : option string;
  q_subjectType : option string;
  q_subjectId : option string;
}.

(** [filter.k && e.k !== filter.k]: the row is skipped. *)
Definition skips (want : option string) (have : option json) : bool :=
  match want with
  | Some EmptyString | None => false
  | Some s => negb (bool_decide (string_of have = Some s))
  end.

Definition row_matches (q : LedgerQuery) (r : json) : bool :=
  negb (skips (q_category q) (prop r "category")) &&
  negb (skips (q_type q) (prop r "type")) &&
  negb (skips (q_subjectType q) (prop r "subjectType")) &&
  negb (skips (q_subjectId q) (prop r "subjectId")).

(** The loop of [query] from index [i]: [out] is what has been pushed. *)
Fixpoint query_loop (q : LedgerQuery) (limit : Z) (rows : list json) (out : list json) :
    list json :=
  match rows with
  | [] => out
  | r :: rows =>
      if Z.of_nat (length out) <? limit
      then query_loop q limit rows (if row_matches q r then out ++ [r] else out)
      else out
  end.

Definition query_rows (q : LedgerQuery) (rows : list json) : list json :=
  let from := default 1 (q_fromSequence q) in
  let limit := Z.min (Z.max (default 100 (q_limit q)) 1) 1000 in
  query_loop q limit (drop (Z.to_nat (Z.max (from - 1) 0)) rows) [].

(** *** Exports *)

Definition MAX_EXPORT_EVENTS : Z := 10000.

Record LedgerExportManifest := {
  mf_schemaVersion : Z;
  mf_fromSequence : Z;
  mf_toSequence : Z;
  mf_count : Z;
  mf_anchorHash : string;
  mf_headHash : string;
  mf_exportedAt : string;
  mf_exportedBy : string;
  mf_bodySha256 : string;
  mf_checkpoints : list LedgerCheckpoint;
}.

Definition serializeNdjson (rows : list json) : string :=
  foldr (λ r acc, stableStringify r +:+ nl +:+ acc) EmptyString rows.

Record LedgerStatus := {
  st_headSequence : option json;
  st_headHash : option json;
  st_sealed : bool;
  st_appendFailures : Z;
  st_checkpointing : bool;
  st_checkpointInterval : Z;
  st_lastCheckpoint : option LedgerCheckpoint;
  st_capacity : Z;
}.

Section service.
Context (sha256 : string → string) (hmac : string → string → string)
        (other : string → option Z) (cfg : ledger_env_vars).
Context {σ : Type} `{LedgerStore σ}.

Record world := { w_svc : service; w_store : σ }.

Definition validate (i : LedgerEventInput) : result ledger_exn ValidInput :=
  cat ← match reg_get (in_type i) LEDGER_EVENT_TYPES with
        | Some c => Ok c
        | None => Err (UnknownType (in_type i))
        end;
  _ ← throw_if (negb (field_ok (in_actor i))) (BadField "actor");
  _ ← throw_if (negb (field_ok (in_subjectType i))) (BadField "subjectType");
  _ ← throw_if (negb (field_ok (in_subjectId i))) (BadField "subjectId");
  _ ← throw_if (match in_correlationId i with
                | Some c => MAX_FIELD_LENGTH <? Z.of_nat (String.length c)
                | None => false
                end) BadCorrelationId;
  occ ← match in_occurredAt i with
        | Some s => match Date_parse other s with
                    | Some ms => Ok (Some (iso_text ms))
                    | None => Err BadOccurredAt
                    end
        | None => Ok None
        end;
  let p := default (VObj []) (in_payload i) in
  _ ← match assertLedgerPayload p with Ok u => Ok u | Err e => Err (BadPayload e) end;
  Ok {| vi_type := in_type i; vi_category := cat; vi_actor := in_actor i;
        vi_subjectType := in_subjectType i; vi_subjectId := in_subjectId i;
        vi_payload := match to_json p with JObj l => l | _ => [] end;
        vi_correlationId := in_correlationId i; vi_occurredAt := occ |}.

(** Options of the verification of the whole store. *)
Definition load_options (cps : list LedgerCheckpoint) : VerifyOptions :=
  {| anchorHash := None; startSequence := None; checkpoints := cps;
     checkpointKeys := verificationKeys cfg; lostKeyIds := config_lostKeyIds cfg;
     expectedHeadHash := None; expectedLastSequence := None |}.

(** [ensureLoaded] and [load]. *)
Definition ensureLoaded (env : env) (w : world) : world * result ledger_exn unit :=
  let sv := w_svc w in
  let loaded := sv_loaded sv && negb (sv_needsReload sv) in
  let sv1 := {| sv_events := sv_events sv; sv_checkpoints := sv_checkpoints sv;
                sv_loaded := loaded; sv_needsReload := false;
                sv_sealedReason := sv_sealedReason sv;
                sv_appendFailures := sv_appendFailures sv |} in
  let w1 := {| w_svc := sv1; w_store := w_store w |} in
  if loaded then (w1, Ok tt)
  else if negb (e_load env) then (w1, Err LoadFailed)
  else
    let rows := loadEvents (w_store w) in
    let cps := loadCheckpoints (w_store w) in
    match verifyLedgerEvents sha256 hmac other rows (load_options cps) with
    | Err e => (w1, Err (LoadThrew e))
    | Ok report =>
        ({| w_svc := {| sv_events := rows; sv_checkpoints := cps; sv_loaded := true;
                        sv_needsReload := false;
                        sv_sealedReason :=
                          match failures report with
                          | [] => None
                          | f :: fs => Some (f, Z.of_nat (length (f :: fs)))
                          end;
                        sv_appendFailures := sv_appendFailures sv |};
            w_store := w_store w |}, Ok tt)
    end.

Definition assertNotSealed (w : world) : result ledger_exn unit :=
  match sv_sealedReason (w_svc w) with
  | Some (f, n) => Err (SealedLedger f n)
  | None => Ok tt
  end.

Definition with_events (sv : service) (rows : list json) : service :=
  {| sv_events := rows; sv_checkpoints := sv_checkpoints sv; sv_loaded := sv_loaded sv;
     sv_needsReload := sv_needsReload sv; sv_sealedReason := sv_sealedReason sv;
     sv_appendFailures := sv_appendFailures sv |}.

Definition with_checkpoints (sv : service) (cps : list LedgerCheckpoint) : service :=
  {| sv_events := sv_events sv; sv_checkpoints := cps; sv_loaded := sv_loaded sv;
     sv_needsReload := sv_needsReload sv; sv_sealedReason := sv_sealedReason sv;
     sv_appendFailures := sv_appendFailures sv |}.

Definition mark_reload (sv : service) : service :=
  {| sv_events := sv_events sv; sv_checkpoints := sv_checkpoints sv;
     sv_loaded := sv_loaded sv; sv_needsReload := true;
     sv_sealedReason := sv_sealedReason sv; sv_appendFailures := sv_appendFailures sv |}.

(** A storage write under an outcome: the store afterwards, and whether the
    call returned normally. *)
Definition attempt (o : outcome) (write : option σ) (st : σ) : σ * bool :=
  match o with
  | Succeed => match write with Some st' => (st', true) | None => (st, false) end
  | Fail => (st, false)
  | FailCommitted => (default st write, false)
  end.

Definition checkpointNow (env : env) (w : world) :
    world * result ledger_exn LedgerCheckpoint :=
  let sv := w_svc w in
  match checkpointKey cfg with
  | None => (w, Err CheckpointingDisabled)
  | Some key =>
      match last_row (sv_events sv) with
      | None => (w, Err EmptyLedger)
      | Some row =>
          let seq := default 0 (int_of (prop row "sequence")) in
          match list_find (λ c, cp_sequence c = seq) (sv_checkpoints sv) with
          | Some (_, existing) => (w, Ok existing)
          | None =>
              let base := {| cp_sequence := seq; cp_hash := text_of (prop row "hash");
                             cp_recordedAt := text_of (prop row "recordedAt");
                             createdAt := iso_text (e_checkpointClock env);
                             keyId := currentKeyId cfg; mac := EmptyString |} in
              let cp := {| cp_sequence := cp_sequence base; cp_hash := cp_hash base;
                           cp_recordedAt := cp_recordedAt base; createdAt := createdAt base;
                           keyId := keyId base; mac := computeCheckpointMac hmac base key |} in
              let '(st', done) :=
                attempt (e_checkpoint env) (appendCheckpoint (w_store w) cp) (w_store w) in
              if done : bool
              then ({| w_svc := with_checkpoints sv (sv_checkpoints sv ++ [cp]);
                       w_store := st' |}, Ok cp)
              else ({| w_svc := sv; w_store := st' |}, Err StoreRejected)
          end
      end
  end.

(** The event [appendNow] builds on top of the current rows. *)
Definition build_event (env : env) (rows : list json) (v : ValidInput) : LedgerEvent :=
  let now := iso_text (e_clock env) in
  let recorded :=
    match last_row rows with
    | Some r => let prev := text_of (prop r "recordedAt") in
                if str_lt now prev then prev else now
    | None => now
    end in
  let unhashed :=
    {| schemaVersion := LEDGER_SCHEMA_VERSION;
       sequence := default 0 (int_of (fst (head_of rows))) + 1;
       eventId := e_uuid env; category := vi_category v; type := vi_type v;
       actor := vi_actor v; subjectType := vi_subjectType v; subjectId := vi_subjectId v;
       payload := vi_payload v; correlationId := vi_correlationId v;
       occurredAt := default recorded (vi_occurredAt v); recordedAt := recorded;
       previousHash := text_of (snd (head_of rows)); hash := EmptyString |} in
  {| schemaVersion := schemaVersion unhashed; sequence := sequence unhashed;
     eventId := eventId unhashed; category := category unhashed; type := type unhashed;
     actor := actor unhashed; subjectType := subjectType unhashed;
     subjectId := subjectId unhashed; payload := payload unhashed;
     correlationId := correlationId unhashed; occurredAt := occurredAt unhashed;
     recordedAt := recordedAt unhashed; previousHash := previousHash unhashed;
     hash := computeEventHash sha256 (event_json unhashed) |}.

Definition appendNow (env : env) (w : world) (input : LedgerEventInput) :
    world * result ledger_exn LedgerEvent :=
  let '(w1, loaded) := ensureLoaded env w in
  let sv := w_svc w1 in
  match (_ ← loaded; _ ← assertNotSealed w1; v ← validate input;
         _ ← throw_if (MAX_LEDGER_EVENTS <=? Z.of_nat (length (sv_events sv))) AtCapacity;
         Ok v) with
  | Err e => (w1, Err e)
  | Ok v =>
      let event := build_event env (sv_events sv) v in
      let '(st', done) :=
        attempt (e_append env) (appendEvent (w_store w1) event) (w_store w1) in
      if negb done then ({| w_svc := mark_reload sv; w_store := st' |}, Err StoreRejected)
      else
        let w2 := {| w_svc := with_events sv (sv_events sv ++ [event_json event]);
                     w_store := st' |} in
        if (match checkpointKey cfg with Some _ => true | None => false end) &&
           (Z.rem (sequence event) (checkpointInterval cfg) =? 0)
        then (fst (checkpointNow env w2), Ok event)
        else (w2, Ok event)
  end.

(** [append] and [appendSafe]. *)
Definition append := appendNow.
Definition appendSafe (env : env) (w : world) (input : LedgerEventInput) :
    world * option LedgerEvent :=
  match appendNow env w input with
  | (w', Ok e) => (w', Some e)
  | (w', Err _) =>
      let sv := w_svc w' in
      ({| w_svc := {| sv_events := sv_events sv; sv_checkpoints := sv_checkpoints sv;
                      sv_loaded := sv_loaded sv; sv_needsReload := sv_needsReload sv;
                      sv_sealedReason := sv_sealedReason sv;
                      sv_appendFailures := sv_appendFailures sv + 1 |};
          w_store := w_store w' |}, None)
  end.

Definition createCheckpoint (env : env) (w : world) :
    world * result ledger_exn LedgerCheckpoint :=
  let '(w1, loaded) := ensureLoaded env w in
  match (_ ← loaded; assertNotSealed w1) with
  | Err e => (w1, Err e)
  | Ok _ => checkpointNow env w1
  end.

(** [verify]: re-reads the store and checks it against the in-memory head. *)
Definition verify_options (w : world) : VerifyOptions :=
  let head := head_of (sv_events (w_svc w)) in
  {| anchorHash := None; startSequence := None;
     checkpoints := loadCheckpoints (w_store w); checkpointKeys := verificationKeys cfg;
     lostKeyIds := config_lostKeyIds cfg; expectedHeadHash := string_of (snd head);
     expectedLastSequence := int_of (fst head) |}.

Definition verify (env : env) (w : world) :
    world * result ledger_exn LedgerVerificationReport :=
  let '(w1, loaded) := ensureLoaded env w in
  match loaded with
  | Err e => (w1, Err e)
  | Ok _ =>
      if negb (e_load env) then (w1, Err LoadFailed)
      else match verifyLedgerEvents sha256 hmac other (loadEvents (w_store w1))
                   (verify_options w1) with
           | Ok r => (w1, Ok r)
           | Err e => (w1, Err (LoadThrew e))
           end
  end.

(** [query]. *)
Definition query (env : env) (w : world) (q : LedgerQuery) :
    world * result ledger_exn (list json) :=
  let '(w1, loaded) := ensureLoaded env w in
  match loaded with
  | Err e => (w1, Err e)
  | Ok _ => (w1, Ok (query_rows q (sv_events (w_svc w1))))
  end.

(** [export]: the manifest, the body, and the ledger entry about it. *)
Definition export_manifest (env : env) (w : world) (from to : Z) (by_ : string)
    (slice : list json) : LedgerExportManifest :=
  let ndjson := serializeNdjson slice in
  let anchor := match slice with
                | r :: _ => text_of (prop r "previousHash")
                | [] => text_of (snd (head_of (sv_events (w_svc w))))
                end in
  let nonempty := match slice with [] => false | _ => true end in
  {| mf_schemaVersion := LEDGER_SCHEMA_VERSION;
     mf_fromSequence := if nonempty then from else 0;
     mf_toSequence := if nonempty then to else 0;
     mf_count := Z.of_nat (length slice);
     mf_anchorHash := anchor;
     mf_headHash := match last slice with
                    | Some r => text_of (prop r "hash")
                    | None => anchor
                    end;
     mf_exportedAt := iso_text (e_clock env);
     mf_exportedBy := by_;
     mf_bodySha256 := sha256 ndjson;
     mf_checkpoints :=
       filter (λ c, from ≤ cp_sequence c ∧ cp_sequence c ≤ to) (sv_checkpoints (w_svc w)) |}.

(** The [ledger.exported] event about a manifest. *)
Definition export_input (m : LedgerExportManifest) : LedgerEventInput :=
  {| in_type := "ledger.exported"; in_actor := mf_exportedBy m; in_subjectType := "ledger";
     in_subjectId := "global";
     in_payload := Some (VObj
       [ ("fromSequence", VNum (Some (Z_to_string (mf_fromSequence m))));
         ("toSequence", VNum (Some (Z_to_string (mf_toSequence m))));
         ("headHash", VStr (mf_headHash m)); ("bodySha256", VStr (mf_bodySha256 m)) ]);
     in_correlationId := None; in_occurredAt := None |}.

Definition export (env env2 : LedgerService.env) (w : world) (fromSequence toSequence : option Z)
    (exportedBy : string) : world * result ledger_exn (LedgerExportManifest * string) :=
  let '(w1, loaded) := ensureLoaded env w in
  let rows := sv_events (w_svc w1) in
  let headSeq := Z.of_nat (length rows) in
  let from := default 1 fromSequence in
  let to := Z.min (default headSeq toSequence) headSeq in
  match (_ ← loaded;
         _ ← throw_if (from <? 1) BadExportRange;
         _ ← throw_if ((0 <? headSeq) && (to <? from)) BadExportRange;
         _ ← throw_if (MAX_EXPORT_EVENTS <? to - from + 1) ExportTooLarge;
         throw_if (bool_decide (exportedBy = EmptyString)) ExportedByMissing) with
  | Err e => (w1, Err e)
  | Ok _ =>
      let slice := if headSeq =? 0 then []
                   else take (Z.to_nat (to - (from - 1))) (drop (Z.to_nat (from - 1)) rows) in
      let m := export_manifest env w1 from to exportedBy slice in
      match sv_sealedReason (w_svc w1) with
      | Some _ => (w1, Ok (m, serializeNdjson slice))
      | None =>
          match appendNow env2 w1 (export_input m) with
          | (w2, Ok _) => (w2, Ok (m, serializeNdjson slice))
          | (w2, Err e) => (w2, Err e)
          end
      end
  end.

(** [getStatus]. *)
Definition getStatus (w : world) : LedgerStatus :=
  let sv := w_svc w in
  {| st_headSequence := fst (head_of (sv_events sv));
     st_headHash := snd (head_of (sv_events sv));
     st_sealed := match sv_sealedReason sv with Some _ => true | None => false end;
     st_appendFailures := sv_appendFailures sv;
     st_checkpointing := match checkpointKey cfg with Some _ => true | None => false end;
     st_checkpointInterval := checkpointInterval cfg;
     st_lastCheckpoint := last (sv_checkpoints sv);
     st_capacity := MAX_LEDGER_EVENTS |}.

(** ** Runs of the service *)

(** One whole operation, or a restart of the process on the same store. *)
Inductive op :=
| OpAppend (input : LedgerEventInput)
| OpAppendSafe (input : LedgerEventInput)
| OpCheckpoint
| OpVerify
| OpExport (from to : option Z) (by_ : string)
| OpRestart
| OpInit
| OpQuery (q : LedgerQuery).

Definition step (w : world) (env : env) (o : op) : world :=
  match o with
  | OpAppend i => fst (append env w i)
  | OpAppendSafe i => fst (appendSafe env w i)
  | OpCheckpoint => fst (createCheckpoint env w)
  | OpVerify => fst (verify env w)
  | OpExport f t b => fst (export env env w f t b)
  | OpRestart => {| w_svc := new_service; w_store := w_store w |}
  | OpInit => fst (ensureLoaded env w)
  | OpQuery q => fst (query env w q)
  end.

Definition run_ops (w : world) (ops : list (LedgerService.env * op)) : world :=
  foldl (λ w eo, step w (fst eo) (snd eo)) w ops.
End service.

(** ** Invariant *)

(** The earliest time of a four-digit year: the lower bound of a new chain. *)
Definition time_zero : Z := -62167219200000.

Section invariant.
Context (sha256 : string → string) (hmac : string → string → string)
        (other : string → option Z) (cfg : ledger_env_vars).
Context {σ : Type} `{LedgerStoreLaws σ}.

(** A checkpoint this configuration made of an event of the ledger. *)
Definition cp_ok (es : list LedgerEvent) (c : LedgerCheckpoint) : Prop :=
  ∃ n e key, es !! n = Some e ∧ cp_sequence c = Z.of_nat n + 1 ∧
    cp_hash c = hash e ∧ cp_recordedAt c = recordedAt e ∧ keyId c = currentKeyId cfg ∧
    checkpointKey cfg = Some key ∧ mac c = hmac key (checkpoint_preimage c).

(** A ledger this service wrote. *)
Definition good_ledger (used : list string) (es : list LedgerEvent) : Prop :=
  event_chain sha256 LEDGER_GENESIS_HASH 1 time_zero es ∧ NoDup (eventId <$> es) ∧
  eventId <$> es ⊆ used ∧ Z.of_nat (length es) ≤ MAX_LEDGER_EVENTS.

(** The service holds a loaded ledger and will not reload it. *)
Definition ready (w : world (σ := σ)) : Prop :=
  sv_loaded (w_svc w) = true ∧ sv_needsReload (w_svc w) = false.

(** The store holds a good ledger [es] with good checkpoints, and a service
    that will not reload holds the same; it is never sealed. *)
Definition inv_at (used : list string) (es : list LedgerEvent) (w : world (σ := σ)) : Prop :=
  good_ledger used es ∧
  loadEvents (w_store w) = event_json <$> es ∧
  Forall (cp_ok es) (loadCheckpoints (w_store w)) ∧
  sv_sealedReason (w_svc w) = None ∧
  (ready w → sv_events (w_svc w) = event_json <$> es ∧
             Forall (cp_ok es) (sv_checkpoints (w_svc w))).

Definition world_inv (used : list string) (w : world (σ := σ)) : Prop :=
  ∃ es, inv_at used es w.
End invariant.

(** ** Lemmas on chains *)

Section chain_lemmas.
Context (sha256 : string → string).

Lemma event_chain_cons prev seq time e es :
  event_chain sha256 prev seq time (e :: es) ↔
  schemaVersion e = LEDGER_SCHEMA_VERSION ∧ sequence e = seq ∧ previousHash e = prev ∧
  hash e = computeEventHash sha256 (event_json e) ∧
  reg_get (type e) LEDGER_EVENT_TYPES = Some (category e) ∧
  ∃ t, four_digit_time t ∧ time ≤ t ∧ recordedAt e = iso_text t ∧
       event_chain sha256 (hash e) (seq + 1) t es.
Proof. reflexivity. Qed.

Lemma event_chain_last prev seq time es l :
  event_chain sha256 prev seq time es → last es = Some l →
  sequence l = seq + Z.of_nat (length es) - 1 ∧
  ∃ t, four_digit_time t ∧ recordedAt l = iso_text t ∧ time ≤ t.
Proof.
  revert prev seq time. induction es as [|e es IH]; [done|].
  intros prev seq time (_ & Hs & _ & _ & _ & t & Ft & Lt & Et & Hc) Hl.
  rewrite last_cons in Hl. destruct (last es) as [y|] eqn:Ey.
  - injection Hl as ->. destruct (IH _ _ _ Hc eq_refl) as (Hq & tl & ? & ? & ?).
    split; [simpl; lia|]. exists tl. split; [done|]. split; [done|lia].
  - injection Hl as ->. apply last_None in Ey as ->. simpl. split; [lia|]. eauto.
Qed.

(** Extending a chain by one event. *)
Lemma event_chain_snoc prev seq time es e t :
  event_chain sha256 prev seq time es →
  schemaVersion e = LEDGER_SCHEMA_VERSION → sequence e = seq + Z.of_nat (length es) →
  previousHash e = match last es with Some l => hash l | None => prev end →
  hash e = computeEventHash sha256 (event_json e) →
  reg_get (type e) LEDGER_EVENT_TYPES = Some (category e) →
  four_digit_time t → recordedAt e = iso_text t → time ≤ t →
  (∀ l tl, last es = Some l → four_digit_time tl → recordedAt l = iso_text tl → tl ≤ t) →
  event_chain sha256 prev seq time (es ++ [e]).
Proof.
  revert prev seq time. induction es as [|e1 es IH];
    intros prev seq time Hc Hv Hs Hp Hh Hr Ft Et Ht Hl.
  { apply event_chain_cons. simpl in *. split; [done|]. split; [lia|]. eauto 10. }
  apply event_chain_cons in Hc as (V1 & S1 & P1 & H1 & R1 & t1 & F1 & L1 & E1 & Hc).
  rewrite <- app_comm_cons, event_chain_cons.
  split; [done|]. split; [done|]. split; [done|]. split; [done|]. split; [done|].
  exists t1. split; [done|]. split; [done|]. split; [done|].
  apply IH; try done.
  - simpl in Hs. lia.
  - rewrite Hp, last_cons. by destruct (last es).
  - destruct (last es) as [l|] eqn:El.
    + destruct (event_chain_last _ _ _ _ _ Hc El) as (_ & tl & Fl & Rl & Ll).
      specialize (Hl l tl). rewrite last_cons, El in Hl. specialize (Hl eq_refl Fl Rl). lia.
    + apply (Hl e1); [by rewrite last_cons, El|done..].
  - intros l tl Ell. apply (Hl l tl). by rewrite last_cons, Ell.
Qed.

Lemma event_chain_lookup prev seq time es n e :
  event_chain sha256 prev seq time es → es !! n = Some e →
  sequence e = seq + Z.of_nat n.
Proof.
  revert prev seq time n. induction es as [|e' es IH]; [done|].
  intros prev seq time n (_ & Hs & _ & _ & _ & t & _ & _ & _ & Hc) Hn.
  destruct n as [|n]; simpl in *; [simplify_eq; lia|]. rewrite (IH _ _ _ _ Hc Hn). lia.
Qed.

Lemma row_seq_event e : Z.abs (sequence e) ≤ max_safe → row_seq (event_json e) = sequence e.
Proof.
  intros. unfold row_seq.
  change (prop (event_json e) "sequence") with (Some (jint (sequence e))).
  by rewrite int_of_jint.
Qed.

Lemma event_chain_rows prev seq time es :
  event_chain sha256 prev seq time es → 0 ≤ seq → seq + Z.of_nat (length es) ≤ max_safe →
  Forall (λ r, seq ≤ row_seq r < seq + Z.of_nat (length es)) (event_json <$> es) ∧
  rows_increasing (event_json <$> es).
Proof.
  revert prev seq time. induction es as [|e es IH]; intros prev seq time Hc H0 Hm.
  { split; [constructor|constructor]. }
  destruct Hc as (_ & Hs & _ & _ & _ & t & _ & _ & _ & Hc). cbn [length] in *.
  destruct (IH _ _ _ Hc) as [HF HS]; [lia..|]. rewrite fmap_cons.
  assert (row_seq (event_json e) = seq) as He by (rewrite row_seq_event; lia).
  split.
  - constructor; [lia|]. eapply Forall_impl; [exact HF|]. simpl. lia.
  - constructor; [exact HS|]. eapply Forall_impl; [exact HF|]. simpl. lia.
Qed.
End chain_lemmas.

(** ** The in-memory store keeps the interface's promise *)

#[local] Instance row_lt_trans : Transitive (λ r1 r2, row_seq r1 < row_seq r2).
Proof. intros x y z. lia. Qed.
#[local] Instance row_lt_antisymm : AntiSymm (=) (λ r1 r2, row_seq r1 < row_seq r2).
Proof. intros x y. lia. Qed.

Lemma increasing_NoDup rows : rows_increasing rows → NoDup (row_seq <$> rows).
Proof.
  intros Hs. induction Hs as [|r rows _ IH Hr]; [constructor|]. rewrite fmap_cons.
  constructor; [|done]. intros (r' & E & Hin)%list_elem_of_fmap.
  rewrite Forall_forall in Hr. specialize (Hr _ Hin). lia.
Qed.

Lemma sorted_distinct_increasing (m : list json) :
  StronglySorted (λ r1 r2, row_seq r1 ≤ row_seq r2) m → NoDup (row_seq <$> m) →
  rows_increasing m.
Proof.
  induction 1 as [|r m _ IH Hr]; [constructor|]. rewrite fmap_cons.
  intros [Hni Hnd]%NoDup_cons. constructor; [by apply IH|].
  rewrite Forall_forall in *. intros x Hx. specialize (Hr x Hx).
  assert (row_seq r ≠ row_seq x); [|lia]. intros E. apply Hni, list_elem_of_fmap. eauto.
Qed.

(** Sorting rows with distinct numbers has one result. *)
Lemma sort_rows_unique (l rows : list json) :
  l ≡ₚ rows → rows_increasing rows → merge_sort (λ r1 r2, row_seq r1 ≤ row_seq r2) l = rows.
Proof.
  intros Hl Hs. set (R := λ r1 r2, row_seq r1 ≤ row_seq r2).
  pose proof (increasing_NoDup rows Hs) as Hnd.
  assert (merge_sort R l ≡ₚ rows) as Hp by (by rewrite merge_sort_Permutation).
  apply (Sorted_unique (λ r1 r2, row_seq r1 < row_seq r2)); [| |done].
  - assert (StronglySorted R (merge_sort R l)) as Hm.
    { apply StronglySorted_merge_sort; unfold R; [intros x y z; lia|intros x y; lia]. }
    apply StronglySorted_Sorted, sorted_distinct_increasing; [done|]. by rewrite Hp.
  - by apply StronglySorted_Sorted.
Qed.

Lemma rows_increasing_snoc rows r :
  rows_increasing rows → rows_below (row_seq r) rows → rows_increasing (rows ++ [r]).
Proof.
  intros Hs Hb. induction Hs as [|x rows _ IH Hx]; [repeat constructor|].
  apply Forall_cons in Hb as [? ?]. simpl. constructor; [by apply IH|].
  apply Forall_app. split; [done|]. by repeat constructor.
Qed.

Lemma mem_rows_perm s : loadEvents s ≡ₚ ms_events s.
Proof. apply merge_sort_Permutation. Qed.

#[export] Instance InMemory_laws : LedgerStoreLaws InMemoryLedgerStore.
Proof.
  split.
  - intros s e Hs Hb Hm. simpl. unfold mem_appendEvent.
    destruct (existsb _ _) eqn:Ex.
    { apply existsb_exists in Ex as (r & Hin & Hr). apply bool_decide_eq_true in Hr.
      apply list_elem_of_In in Hin. rewrite <- mem_rows_perm in Hin.
      unfold rows_below in Hb. rewrite Forall_forall in Hb. specialize (Hb r Hin).
      unfold row_seq in Hb. rewrite Hr in Hb. simpl in Hb. lia. }
    eexists. split; [reflexivity|]. split; [|done]. unfold mem_loadEvents. simpl.
    apply sort_rows_unique.
    + apply Permutation_app_tail. symmetry. apply (mem_rows_perm s).
    + apply rows_increasing_snoc; [done|]. by rewrite row_seq_event.
  - intros s e Hm Hex. simpl. unfold mem_appendEvent.
    rewrite (proj2 (existsb_exists _ _)); [done|].
    apply Exists_exists in Hex as (r & Hin & Hr). exists r.
    rewrite mem_rows_perm in Hin. split; [by apply list_elem_of_In|].
    by apply bool_decide_eq_true.
  - intros s c s' [= <-]. done.
Qed.

(** ** Lemmas: honest ledgers verify *)

Lemma last_row_events es : last_row (event_json <$> es) = event_json <$> last es.
Proof. unfold last_row. rewrite fmap_last. by destruct (last es). Qed.

Lemma head_of_events es :
  head_of (event_json <$> es) =
  match last es with
  | Some l => (Some (jint (sequence l)), Some (JStr (hash l)))
  | None => (Some (jint 0), Some (JStr LEDGER_GENESIS_HASH))
  end.
Proof. unfold head_of. rewrite last_row_events. by destruct (last es). Qed.

Lemma reg_get_put k v l : reg_get k (put_key k v l) = Some v.
Proof.
  induction l as [|[k' v'] l IH]; simpl; [by rewrite decide_True|].
  case_decide as E; simpl; [by rewrite decide_True|]. by rewrite decide_False.
Qed.

Lemma put_key_not_nil k v l : put_key k v l ≠ [].
Proof. destruct l as [|[k' v'] l]; simpl; [done|]. by case_decide. Qed.

Lemma verificationKeys_current cfg key :
  checkpointKey cfg = Some key → currentKeyId cfg ≠ proto_key →
  ∃ keys, verificationKeys cfg = Some keys ∧ reg_get (currentKeyId cfg) keys = Some key ∧
          key ≠ EmptyString.
Proof.
  intros Hk Hp. unfold verificationKeys. rewrite Hk. unfold set_key.
  rewrite decide_False by done.
  pose proof (put_key_not_nil (currentKeyId cfg) key (retired_keys cfg)) as Hn.
  pose proof (reg_get_put (currentKeyId cfg) key (retired_keys cfg)) as Hg.
  destruct (put_key _ _ _) as [|p keys]; [done|]. eexists. split; [done|]. split; [done|].
  intros ->. unfold checkpointKey in Hk.
  destruct (Z.leb_spec MIN_CHECKPOINT_KEY_LENGTH
    (Z.of_nat (String.length (default "" (CHECKPOINT_KEY cfg))))) as [Hle|]; [|done].
  injection Hk as Hk. rewrite Hk in Hle. vm_compute in Hle. by apply Hle.
Qed.

Section honest.
Context (sha256 : string → string) (hmac : string → string → string)
        (other : string → option Z) (cfg : ledger_env_vars).
Context (Hproto : currentKeyId cfg ≠ proto_key).

Lemma good_walk_clean used es :
  good_ledger sha256 used es →
  w_failures (verify_walk sha256 other LEDGER_GENESIS_HASH 1 (event_json <$> es)) = [].
Proof.
  intros (Hc & Hnd & _ & Hm). unfold verify_walk.
  eapply (event_chain_clean sha256 other es _ LEDGER_GENESIS_HASH 1 time_zero);
    [|done|lia|unfold max_safe, MAX_LEDGER_EVENTS in *; lia|done|simpl; set_solver].
  repeat split; try done. by left.
Qed.

Lemma good_row_chain used es :
  good_ledger sha256 used es → row_chain sha256 LEDGER_GENESIS_HASH 1 (event_json <$> es).
Proof.
  intros Hg. apply (clean_walk_chain sha256 other _ (walk_init LEDGER_GENESIS_HASH 1)).
  by eapply good_walk_clean.
Qed.

(** A checkpoint of an event of a chain matches what a walk of it saw. *)
Lemma cp_in_chain prev seq es n e lastSeq c :
  row_chain sha256 prev seq (event_json <$> es) → es !! n = Some e →
  cp_sequence c = seq + Z.of_nat n → Z.abs (sequence e) ≤ max_safe →
  cp_hash c = hash e → cp_recordedAt c = recordedAt e →
  checkpoint_event_failures (verify_walk sha256 other prev seq (event_json <$> es)) lastSeq c = [].
Proof.
  intros Hc Hn Hs Hm Hh Hr. pose proof (isWellFormed_event e Hm) as Hw.
  rewrite <- (take_drop_middle es n e Hn), fmap_app, fmap_cons in Hc.
  destruct (bySequence_chain sha256 other _ _ _ _ _ _ (walk_init prev seq) Hc Hw) as [Hq Hb].
  rewrite <- fmap_cons, <- fmap_app, take_drop_middle in Hb by done.
  unfold checkpoint_event_failures, verify_walk.
  rewrite length_fmap, length_take in Hq. apply lookup_lt_Some in Hn.
  replace (cp_sequence c) with (wf_sequence (fields_of e)) by lia. rewrite Hb.
  simpl. by rewrite Hh, Hr, !bool_decide_true.
Qed.

(** A checkpoint this configuration signed is accepted with the keys of this
    configuration, and without keys. *)
Lemma cp_mac_verifies key o w lastSeq c :
  checkpointKeys o = verificationKeys cfg ∨ checkpointKeys o = None →
  keyId c = currentKeyId cfg → checkpointKey cfg = Some key →
  mac c = hmac key (checkpoint_preimage c) → checkpoint_event_failures w lastSeq c = [] →
  verify_checkpoint hmac o w lastSeq c = Ok [].
Proof.
  intros Ho Hk Hkey Hm Hf. unfold verify_checkpoint. destruct Ho as [Ho|Ho]; rewrite Ho; [|by rewrite Hf].
  destruct (verificationKeys_current cfg key Hkey Hproto) as (keys & -> & Hget & Hne).
  case_bool_decide; [by rewrite Hf|]. rewrite Hk, Hget, decide_False by done.
  unfold macMatches, computeCheckpointMac. by rewrite bool_decide_true, Hf.
Qed.

Lemma cp_ok_verifies used es o lastSeq c :
  good_ledger sha256 used es → checkpointKeys o = verificationKeys cfg →
  cp_ok hmac cfg es c →
  verify_checkpoint hmac o
    (verify_walk sha256 other LEDGER_GENESIS_HASH 1 (event_json <$> es)) lastSeq c = Ok [].
Proof.
  intros Hg Ho (n & e & key & Hn & Hs & Hh & Hr & Hk & Hkey & Hm).
  assert (checkpoint_event_failures
    (verify_walk sha256 other LEDGER_GENESIS_HASH 1 (event_json <$> es)) lastSeq c = []) as Hf.
  { pose proof Hg as (He & _ & _ & Hmax). apply (cp_in_chain _ _ _ n e); try done; [|lia|].
    - by apply (good_row_chain used).
    - rewrite (event_chain_lookup _ _ _ _ _ _ _ He Hn).
      apply lookup_lt_Some in Hn. unfold max_safe, MAX_LEDGER_EVENTS in *. lia. }
  apply (cp_mac_verifies key); auto.
Qed.

Lemma cps_ok_verify used es o lastSeq cps :
  good_ledger sha256 used es → checkpointKeys o = verificationKeys cfg →
  Forall (cp_ok hmac cfg es) cps →
  verify_checkpoints hmac o
    (verify_walk sha256 other LEDGER_GENESIS_HASH 1 (event_json <$> es)) lastSeq cps = Ok [].
Proof.
  intros Hg Ho HF. induction HF as [|c cps Hc _ IH]; [done|].
  cbn [verify_checkpoints]. by rewrite (cp_ok_verifies used es) by done; rewrite IH.
Qed.

(** A ledger this service wrote verifies, and against its own head too. *)
Lemma honest_report used es o :
  good_ledger sha256 used es →
  anchorHash o = None → startSequence o = None → checkpointKeys o = verificationKeys cfg →
  Forall (cp_ok hmac cfg es) (checkpoints o) →
  (∀ h, expectedHeadHash o = Some h → string_of (snd (head_of (event_json <$> es))) = Some h) →
  (∀ z, expectedLastSequence o = Some z → int_of (fst (head_of (event_json <$> es))) = Some z) →
  ∃ r, verifyLedgerEvents sha256 hmac other (event_json <$> es) o = Ok r ∧
       failures r = [] ∧ ok r = true.
Proof.
  intros Hg Ha Hs Hk Hc Hh Hz. rewrite head_of_events in Hh, Hz.
  pose (lastSeq := match last es with Some l => Some (jint (sequence l)) | None => Some JNull end).
  pose (head := match last es with
                | Some l => Some (JStr (hash l)) | None => Some (JStr LEDGER_GENESIS_HASH) end).
  apply (verify_clean_intro sha256 hmac other _ o
    (match es with [] => Some JNull | e :: _ => Some (jint (sequence e)) end) lastSeq head);
    unfold lastSeq, head; rewrite ?Ha, ?Hs; cbn [default from_option].
  - by destruct es.
  - rewrite fmap_last. by destruct (last es).
  - rewrite fmap_last. by destruct (last es).
  - by eapply good_walk_clean.
  - by eapply cps_ok_verify.
  - intros h Eh. specialize (Hh h Eh). by destruct (last es).
  - intros z Ez. specialize (Hz z Ez). by destruct (last es).
Qed.
End honest.

(** ** Lemmas: every operation keeps the invariant *)

Section preserve.
Context (sha256 : string → string) (hmac : string → string → string)
        (other : string → option Z) (cfg : ledger_env_vars).
Context {σ : Type} `{Hlaws : LedgerStoreLaws σ}.
Context (Hproto : currentKeyId cfg ≠ proto_key).
Notation inv_at := (inv_at sha256 hmac cfg (σ := σ)).
Notation ensureLoaded := (ensureLoaded sha256 hmac other cfg (σ := σ)).
Notation checkpointNow := (checkpointNow hmac cfg (σ := σ)).
Notation appendNow := (appendNow sha256 hmac other cfg (σ := σ)).

Lemma ensureLoaded_inv env used es w w' r :
  inv_at used es w → ensureLoaded env w = (w', r) →
  inv_at used es w' ∧ w_store w' = w_store w ∧ 
  (r = Ok tt ∧ ready w' ∨ r = Err LoadFailed ∧ e_load env = false).
Proof.
  intros (Hg & Hrows & Hcps & Hseal & Hready). unfold LedgerService.ensureLoaded.
  destruct (sv_loaded (w_svc w) && negb (sv_needsReload (w_svc w))) eqn:El.
  { intros [= <- <-]. apply andb_true_iff in El as [El En%negb_true_iff].
    split; [|split; [done|left; done]]. split; [done|]. split; [done|]. split; [done|].
    split; [done|]. intros _. by apply Hready. }
  destruct (e_load env); simpl.
  - destruct (honest_report sha256 hmac other cfg Hproto used es
      (load_options cfg (loadCheckpoints (w_store w)))) as (rep & Hrep & Hf & _); try done.
    rewrite <- Hrows in Hrep. rewrite Hrep, Hf. intros [= <- <-].
    split; [|split; [done|left; done]]. split; [done|]. split; [done|]. split; [done|].
    split; [done|]. intros _. simpl. by rewrite Hrows.
  - intros [= <- <-]. split; [|split; [done|by right]]. split; [done|]. split; [done|].
    split; [done|]. split; [done|]. by intros [Hl _].
Qed.

Lemma cp_ok_app es e c : cp_ok hmac cfg es c → cp_ok hmac cfg (es ++ [e]) c.
Proof.
  intros (n & e' & key & Hn & ?). exists n, e', key. split; [|done].
  by apply lookup_app_l_Some.
Qed.

(** The row the service checkpoints is the last event of the ledger. *)
Lemma last_event_seq used es l :
  good_ledger sha256 used es → last es = Some l →
  es !! pred (length es) = Some l ∧ sequence l = Z.of_nat (pred (length es)) + 1 ∧
  int_of (prop (event_json l) "sequence") = Some (sequence l).
Proof.
  intros (Hc & _ & _ & Hm) Hl. rewrite last_lookup in Hl.
  pose proof (lookup_lt_Some _ _ _ Hl).
  assert (sequence l = Z.of_nat (pred (length es)) + 1) as Hs
    by (rewrite (event_chain_lookup _ _ _ _ _ _ _ Hc Hl); lia).
  split; [done|]. split; [done|].
  change (prop (event_json l) "sequence") with (Some (jint (sequence l))).
  apply int_of_jint. unfold max_safe, MAX_LEDGER_EVENTS in *. lia.
Qed.

Lemma attempt_checkpoint_inv o es st cp st' d :
  Forall (cp_ok hmac cfg es) (loadCheckpoints st) → cp_ok hmac cfg es cp →
  attempt o (appendCheckpoint st cp) st = (st', d) →
  loadEvents st' = loadEvents st ∧ Forall (cp_ok hmac cfg es) (loadCheckpoints st').
Proof.
  intros Hcps Hcp. unfold attempt.
  destruct (appendCheckpoint st cp) as [st1|] eqn:Ha.
  - apply append_checkpoint in Ha as [E1 E2].
    assert (Forall (cp_ok hmac cfg es) (loadCheckpoints st1))
      by (rewrite E2; apply Forall_app; by repeat constructor).
    destruct o; intros [= <- <-]; done.
  - destruct o; intros [= <- <-]; done.
Qed.

Lemma checkpointNow_inv env used es w w' r :
  inv_at used es w → ready w → checkpointNow env w = (w', r) →
  inv_at used es w' ∧ ready w' ∧ loadEvents (w_store w') = loadEvents (w_store w).
Proof.
  intros Hinv Hr. pose proof Hinv as (Hg & Hrows & Hcps & Hseal & Hready).
  destruct (Hready Hr) as [Hev Hscps]. unfold LedgerService.checkpointNow.
  destruct (checkpointKey cfg) as [key|] eqn:Hkey; [|by intros [= <- <-]].
  rewrite Hev, last_row_events. destruct (last es) as [l|] eqn:Hl; simpl; [|by intros [= <- <-]].
  destruct (list_find _ _) as [[i c0]|]; [by intros [= <- <-]|].
  destruct (last_event_seq used es l Hg Hl) as (Hn & Hs & Hi).
  match goal with |- context [attempt _ (appendCheckpoint _ ?c) _] => set (cp := c) end.
  assert (cp_ok hmac cfg es cp) as Hcp.
  { exists (pred (length es)), l, key. split; [done|]. split; [|by repeat split].
    etransitivity; [|exact Hs]. exact (f_equal (default 0) Hi). }
  clearbody cp.
  destruct (attempt _ _ _) as [st' d] eqn:Eatt.
  destruct (attempt_checkpoint_inv _ _ _ _ _ _ Hcps Hcp Eatt) as [E1 E2].
  destruct d; intros [= <- <-]; (split; [|done]); (split; [done|]); simpl; rewrite E1;
    (split; [done|]); (split; [done|]); (split; [done|]); [|done].
  intros _. split; [done|]. apply Forall_app. by repeat constructor.
Qed.

Lemma validate_category i v :
  validate other i = Ok v → reg_get (vi_type v) LEDGER_EVENT_TYPES = Some (vi_category v).
Proof.
  unfold validate. intros Hv. apply bind_ok in Hv as (cat & Hc & Hv).
  destruct (reg_get (in_type i) LEDGER_EVENT_TYPES) as [c|] eqn:E; [|done].
  injection Hc as ->. inv_ok. done.
Qed.

Lemma validate_fields i v :
  validate other i = Ok v →
  vi_type v = in_type i ∧ vi_actor v = in_actor i ∧ vi_subjectType v = in_subjectType i ∧
  vi_subjectId v = in_subjectId i ∧
  JObj (vi_payload v) = to_json (default (VObj []) (in_payload i)).
Proof.
  unfold validate. intros Hv.
  repeat (apply bind_ok in Hv as (? & ? & Hv)). injection Hv as <-. repeat split; try done.
  destruct (assertLedgerPayload _) as [[]|] eqn:Ha; [|done].
  unfold assertLedgerPayload in Ha. apply bind_ok in Ha as ([] & Hp%throw_if_ok & _).
  by destruct (default _ _).
Qed.

(** The time stamped on a new event: the clock, or the last time if the clock
    is behind it. *)
Lemma build_event_time env es v :
  four_digit_time (e_clock env) →
  event_chain sha256 LEDGER_GENESIS_HASH 1 time_zero es →
  ∃ t, four_digit_time t ∧ recordedAt (build_event sha256 env (event_json <$> es) v) = iso_text t ∧
       time_zero ≤ t ∧
       (∀ l tl, last es = Some l → four_digit_time tl → recordedAt l = iso_text tl → tl ≤ t).
Proof.
  intros Ft Hc. cbn [build_event recordedAt]. rewrite last_row_events.
  destruct (last es) as [l|] eqn:Hl; cbn [fmap option_fmap option_map].
  - destruct (event_chain_last sha256 _ _ _ _ _ Hc Hl) as (_ & tl & Fl & Rl & Ll).
    change (text_of (prop (event_json l) "recordedAt")) with (recordedAt l).
    rewrite Rl, iso_text_lt by done.
    assert (∀ l' tl', Some l = Some l' → four_digit_time tl' → recordedAt l' = iso_text tl' →
      tl' = tl) as Huniq.
    { intros l' tl' [= <-] Fl' Rl'. rewrite Rl in Rl'.
      apply (f_equal (Date_parse other)) in Rl'. rewrite !Date_parse_iso_text in Rl' by done.
      congruence. }
    destruct (Z.ltb_spec (e_clock env) tl).
    + exists tl. split; [done|]. split; [done|]. split; [done|].
      intros l' tl' H1 H2 H3. rewrite (Huniq l' tl' H1 H2 H3). lia.
    + exists (e_clock env). split; [done|]. split; [done|]. split; [unfold four_digit_time, time_zero in *; lia|].
      intros l' tl' H1 H2 H3. rewrite (Huniq l' tl' H1 H2 H3). lia.
  - exists (e_clock env). split; [done|]. split; [done|].
    split; [unfold four_digit_time, time_zero in *; lia|done].
Qed.

Lemma build_event_good env used es v :
  good_ledger sha256 used es → four_digit_time (e_clock env) →
  reg_get (vi_type v) LEDGER_EVENT_TYPES = Some (vi_category v) →
  Z.of_nat (length es) < MAX_LEDGER_EVENTS → e_uuid env ∉ used →
  let e := build_event sha256 env (event_json <$> es) v in
  good_ledger sha256 (e_uuid env :: used) (es ++ [e]) ∧
  sequence e = 1 + Z.of_nat (length es).
Proof.
  intros (Hc & Hnd & Hsub & Hm) Ft Hr Hlt Hu e.
  assert (sequence e = 1 + Z.of_nat (length es)) as Hs.
  { unfold e. cbn [build_event sequence]. rewrite head_of_events.
    destruct (last es) as [l|] eqn:Hl; cbn [fst].
    - destruct (event_chain_last sha256 _ _ _ _ _ Hc Hl) as [-> _].
      rewrite int_of_jint; [simpl; lia|]. unfold max_safe, MAX_LEDGER_EVENTS in *. lia.
    - apply last_None in Hl as ->. reflexivity. }
  split; [|done]. destruct (build_event_time env es v Ft Hc) as (t & F & Rt & Lt & Hlast).
  split.
  { apply (event_chain_snoc sha256 _ _ _ _ _ t); try done.
    unfold e. cbn [build_event previousHash]. rewrite head_of_events. by destruct (last es). }
  rewrite fmap_app, length_app. split; [|split].
  - apply NoDup_app. split; [done|]. split; [|apply NoDup_singleton].
    intros x Hx ->%list_elem_of_singleton. by apply Hu, Hsub.
  - cbn [fmap list_fmap]. change (eventId e) with (e_uuid env). set_solver.
  - simpl. lia.
Qed.

Lemma inv_at_weaken used u es w : inv_at used es w → inv_at (u :: used) es w.
Proof.
  intros ((Hc & Hnd & Hsub & Hm) & Hrest). split; [|exact Hrest].
  split; [done|]. split; [done|]. split; [set_solver|done].
Qed.

(** What the store holds once it accepted the next event. *)
Lemma store_append_good used es w e used' :
  inv_at used es w → good_ledger sha256 used' (es ++ [e]) →
  ∃ st, appendEvent (w_store w) e = Some st ∧ loadEvents st = event_json <$> es ++ [e] ∧
        Forall (cp_ok hmac cfg (es ++ [e])) (loadCheckpoints st).
Proof.
  intros (Hg & Hrows & Hcps & _) (Hc & _ & _ & Hm).
  assert (sequence e = 1 + Z.of_nat (length es)) as Hs.
  { assert (Hl : (es ++ [e]) !! length es = Some e) by by apply list_lookup_middle.
    by rewrite (event_chain_lookup _ _ _ _ _ _ _ Hc Hl). }
  rewrite length_app in Hm. simpl in Hm.
  destruct (event_chain_rows sha256 _ _ _ _ (proj1 Hg)) as [HF Hinc];
    [lia|unfold max_safe, MAX_LEDGER_EVENTS in *; lia|].
  destruct (append_new (w_store w) e) as (st & Hst & Hl1 & Hc1).
  { by rewrite Hrows. }
  { rewrite Hrows. eapply Forall_impl; [exact HF|]. intros row Hrow. cbn beta in *. lia. }
  { unfold max_safe, MAX_LEDGER_EVENTS in *. lia. }
  exists st. split; [done|]. split; [by rewrite Hl1, Hrows, fmap_app|].
  rewrite Hc1. eapply Forall_impl; [exact Hcps|]. intros c. apply cp_ok_app.
Qed.

(** Appending: the ledger is unchanged or extended by exactly one event, the
    one built from the validated input; a returned event is the one at its
    end, and only a storage error can hide that it was written. *)
Definition append_effect (env : env) (i : LedgerEventInput) (es es' : list LedgerEvent)
    (r : result ledger_exn LedgerEvent) : Prop :=
  es' = es ∧ (∃ x, r = Err x) ∨
  ∃ v e, validate other i = Ok v ∧ e = build_event sha256 env (event_json <$> es) v ∧
         es' = es ++ [e] ∧ (r = Ok e ∨ r = Err StoreRejected).

Lemma refused_effect env i used es w u x :
  inv_at used es w → ∃ es', inv_at (u :: used) es' w ∧ append_effect env i es es' (Err x).
Proof.
  intros Hinv. exists es. split; [by apply inv_at_weaken|]. left. eauto.
Qed.

Lemma appendNow_inv env used es w i w' r :
  inv_at used es w → four_digit_time (e_clock env) → e_uuid env ∉ used →
  appendNow env w i = (w', r) →
  ∃ es', inv_at (e_uuid env :: used) es' w' ∧ append_effect env i es es' r.
Proof.
  intros Hinv Ft Hu. unfold LedgerService.appendNow.
  destruct (ensureLoaded env w) as [w1 rl] eqn:El.
  destruct (ensureLoaded_inv _ _ _ _ _ _ Hinv El) as (Hinv1 & _ & Hr).
  destruct Hr as [[-> Hready]|[-> _]]; [|intros [= <- <-]; by eapply refused_effect].
  pose proof Hinv1 as (Hg & Hrows & Hcps & Hseal & Hsv). destruct (Hsv Hready) as [Hev Hsc].
  unfold assertNotSealed. rewrite Hseal. cbn [mbind result_bind].
  destruct (validate other i) as [v|] eqn:Hv; cbn [mbind result_bind];
    [|intros [= <- <-]; by eapply refused_effect].
  rewrite Hev, length_fmap. unfold throw_if.
  destruct (Z.leb_spec MAX_LEDGER_EVENTS (Z.of_nat (length es))) as [|Hlt];
    [intros [= <- <-]; by eapply refused_effect|]. cbn [mbind result_bind].
  destruct (build_event_good env used es v Hg Ft (validate_category _ _ Hv) Hlt Hu) as [Hg' _].
  set (e := build_event sha256 env (event_json <$> es) v) in *.
  destruct (store_append_good used es w1 e _ Hinv1 Hg') as (st1 & -> & Hl1 & Hc1).
  destruct (e_append env); cbn [attempt negb default from_option].
  2: { intros [= <- <-]. apply refused_effect. split; [done|]. repeat split; try done; by destruct H0. }
  2: { intros [= <- <-]. exists (es ++ [e]). split; [|right; exists v, e; eauto].
       split; [done|]. simpl. repeat split; try done; by destruct H0. }
  set (w2 := {| w_svc := _; w_store := st1 |}).
  assert (inv_at (e_uuid env :: used) (es ++ [e]) w2) as Hinv2.
  { split; [done|]. simpl. split; [done|]. split; [done|]. split; [done|].
    intros _. split; [by rewrite fmap_app|]. eapply Forall_impl; [exact Hsc|].
    intros c. apply cp_ok_app. }
  destruct (_ && _); intros [= <- <-]; exists (es ++ [e]); (split; [|right; exists v, e; eauto]); [|done].
  destruct (checkpointNow env w2) as [w3 r3] eqn:E3.
  by destruct (checkpointNow_inv _ _ _ _ _ _ Hinv2 Hready E3).
Qed.

(** With working storage, room left and a valid input, an append is accepted. *)
Lemma appendNow_accepts env used es w i v :
  inv_at used es w → e_load env = true → e_append env = Succeed →
  Z.of_nat (length es) < MAX_LEDGER_EVENTS → validate other i = Ok v →
  four_digit_time (e_clock env) → e_uuid env ∉ used →
  snd (appendNow env w i) = Ok (build_event sha256 env (event_json <$> es) v).
Proof.
  intros Hinv Hld Hap Hlt Hv Ft Hu. unfold LedgerService.appendNow.
  destruct (ensureLoaded env w) as [w1 rl] eqn:El.
  destruct (ensureLoaded_inv _ _ _ _ _ _ Hinv El) as (Hinv1 & _ & [[-> Hready]|[_ ?]]);
    [|congruence].
  pose proof Hinv1 as (Hg & _ & _ & Hseal & Hsv). destruct (Hsv Hready) as [Hev _].
  unfold assertNotSealed. rewrite Hseal, Hv, Hev, length_fmap. cbn [mbind result_bind].
  unfold throw_if. rewrite (proj2 (Z.leb_gt _ _) Hlt). cbn [mbind result_bind].
  destruct (build_event_good env used es v Hg Ft (validate_category _ _ Hv) Hlt Hu) as [Hg' _].
  destruct (store_append_good used es w1 _ _ Hinv1 Hg') as (st1 & -> & _). rewrite Hap.
  cbn [attempt negb]. by destruct (_ && _).
Qed.

Notation step := (step sha256 hmac other cfg (σ := σ)).

(** Every operation keeps the invariant, under any storage outcome. *)
Lemma step_inv env used es w o :
  inv_at used es w → four_digit_time (e_clock env) → e_uuid env ∉ used →
  ∃ es', inv_at (e_uuid env :: used) es' (step w env o) ∧ (es' = es ∨ ∃ e, es' = es ++ [e]).
Proof.
  intros Hinv Ft Hu.
  assert (∀ w i w' r, inv_at used es w → appendNow env w i = (w', r) →
    ∃ es', inv_at (e_uuid env :: used) es' w' ∧ (es' = es ∨ ∃ e, es' = es ++ [e])) as Happ.
  { intros w0 i w' r Hi Ha. destruct (appendNow_inv _ _ _ _ _ _ _ Hi Ft Hu Ha)
      as (es' & Hi' & [[-> _]|(v & e & _ & _ & -> & _)]); eauto. }
  destruct o as [i|i| | |f t b| | |q]; simpl.
  - destruct (append _ _ _ _ env w i) as [w' r] eqn:Ea. by eapply Happ.
  - unfold appendSafe. destruct (LedgerService.appendNow _ _ _ _ env w i) as [w' r] eqn:Ea.
    destruct (Happ _ _ _ _ Hinv Ea) as (es' & Hi' & Hes). destruct r; [by eauto|].
    exists es'. done.
  - unfold createCheckpoint. destruct (ensureLoaded env w) as [w1 rl] eqn:El.
    destruct (ensureLoaded_inv _ _ _ _ _ _ Hinv El) as (Hi1 & _ & Hr). exists es.
    split; [|by left]. apply inv_at_weaken. destruct (_ ≫= _) as [u|] eqn:Eb; [|done].
    apply bind_ok in Eb as ([] & -> & _). destruct Hr as [[_ Hr]|[? _]]; [|done].
    destruct (checkpointNow env w1) as [w2 r2] eqn:Ec.
    by destruct (checkpointNow_inv _ _ _ _ _ _ Hi1 Hr Ec).
  - unfold verify. destruct (ensureLoaded env w) as [w1 rl] eqn:El.
    destruct (ensureLoaded_inv _ _ _ _ _ _ Hinv El) as (Hi1 & _ & _). exists es.
    split; [|by left]. apply inv_at_weaken. destruct rl; [|done].
    destruct (e_load env); [|done]. by destruct (verifyLedgerEvents _ _ _ _ _).
  - unfold export. destruct (ensureLoaded env w) as [w1 rl] eqn:El.
    destruct (ensureLoaded_inv _ _ _ _ _ _ Hinv El) as (Hi1 & _ & _).
    assert (∃ es', inv_at (e_uuid env :: used) es' w1 ∧ (es' = es ∨ ∃ e, es' = es ++ [e])) as Hsame
      by (exists es; split; [by apply inv_at_weaken|by left]).
    destruct (_ ≫= _); [|done]. destruct (sv_sealedReason (w_svc w1)); [done|].
    destruct (LedgerService.appendNow _ _ _ _ env w1 _) as [w2 r2] eqn:Ea.
    destruct (Happ _ _ _ _ Hi1 Ea) as (es' & Hi' & Hes). destruct r2; eauto.
  - exists es. split; [|by left]. apply inv_at_weaken.
    destruct Hinv as (Hg & Hrows & Hcps & _). split; [done|]. split; [done|].
    split; [done|]. split; [done|]. intros [? _]. done.
  - destruct (ensureLoaded env w) as [w1 rl] eqn:El. exists es. split; [|by left].
    apply inv_at_weaken. by destruct (ensureLoaded_inv _ _ _ _ _ _ Hinv El).
  - unfold query. destruct (ensureLoaded env w) as [w1 rl] eqn:El. exists es. split; [|by left].
    apply inv_at_weaken. destruct (ensureLoaded_inv _ _ _ _ _ _ Hinv El). by destruct rl.
Qed.
End preserve.

Section runs.
Context (sha256 : string → string) (hmac : string → string → string)
        (other : string → option Z) (cfg : ledger_env_vars).
Context {σ : Type} `{Hlaws : LedgerStoreLaws σ}.
Notation run_ops := (run_ops sha256 hmac other cfg (σ := σ)).

(** The random identifiers a run draws. *)
Definition run_uuids (ops : list (env * op)) : list string := (λ eo, e_uuid (fst eo)) <$> ops.

(** Clocks within four-digit years, and identifiers never drawn twice. *)
Definition fair_run (ops : list (env * op)) : Prop :=
  Forall (λ eo, four_digit_time (e_clock (fst eo))) ops ∧ NoDup (run_uuids ops).

Lemma run_ops_inv used es w ops :
  currentKeyId cfg ≠ proto_key →
  inv_at sha256 hmac cfg used es w → fair_run ops →
  (∀ u, u ∈ run_uuids ops → u ∉ used) →
  ∃ es', inv_at sha256 hmac cfg (reverse (run_uuids ops) ++ used) (es ++ es') (run_ops w ops).
Proof.
  intros Hp. revert used es w.
  induction ops as [|[env o] ops IH]; intros used es w Hinv [Ht Hnd] Hu.
  { exists []. by rewrite app_nil_r. }
  apply Forall_cons in Ht as [Ht Hts].
  change (run_uuids ((env, o) :: ops)) with (e_uuid env :: run_uuids ops) in *.
  apply NoDup_cons in Hnd as [Hni Hnd].
  destruct (step_inv sha256 hmac other cfg Hp env used es w o Hinv Ht) as (es1 & Hinv1 & Hes);
    [apply Hu; by apply list_elem_of_here|].
  destruct (IH (e_uuid env :: used) es1 _ Hinv1 (conj Hts Hnd)) as (es' & Hinv').
  { intros u Hin. apply not_elem_of_cons. split; [by intros ->|]. apply Hu.
    by apply list_elem_of_further. }
  rewrite reverse_cons, <- app_assoc. destruct Hes as [-> |[e ->]]; [by eexists|].
  exists (e :: es'). by rewrite <- app_assoc in Hinv'.
Qed.

(** A fresh process over an empty store satisfies the invariant. *)
Definition fresh (st : σ) : world (σ := σ) := {| w_svc := new_service; w_store := st |}.

Lemma fresh_inv st :
  loadEvents st = [] → loadCheckpoints st = [] →
  inv_at sha256 hmac cfg [] [] (fresh st).
Proof.
  intros He Hc. split.
  - split; [done|]. split; [constructor|]. split; [done|]. simpl. unfold MAX_LEDGER_EVENTS. lia.
  - simpl. rewrite He, Hc. repeat split; try done; by destruct H0.
Qed.

(** A sealed service, or one that has yet to load the bad ledger. *)
Definition frozen (st : σ) (w : world (σ := σ)) : Prop :=
  w_store w = st ∧ (ready w → sv_sealedReason (w_svc w) ≠ None).

Lemma ensureLoaded_frozen env st w w' r rep :
  verifyLedgerEvents sha256 hmac other (loadEvents st)
    (load_options cfg (loadCheckpoints st)) = Ok rep → failures rep ≠ [] →
  frozen st w → ensureLoaded sha256 hmac other cfg env w = (w', r) →
  frozen st w' ∧ (r = Ok tt → sv_sealedReason (w_svc w') ≠ None).
Proof.
  intros Hv Hf [Hst Hr]. unfold ensureLoaded.
  destruct (sv_loaded (w_svc w) && negb (sv_needsReload (w_svc w))) eqn:El.
  { apply andb_true_iff in El as [El En%negb_true_iff]. intros [= <- <-].
    assert (sv_sealedReason (w_svc w) ≠ None) by (by apply Hr). done. }
  destruct (e_load env); simpl.
  - rewrite Hst, Hv. destruct (failures rep); [done|]. intros [= <- <-]. by repeat split.
  - intros [= <- <-]. repeat split; try done. by intros [? _].
Qed.

Lemma step_frozen st w env o rep :
  verifyLedgerEvents sha256 hmac other (loadEvents st)
    (load_options cfg (loadCheckpoints st)) = Ok rep → failures rep ≠ [] →
  frozen st w → frozen st (step sha256 hmac other cfg w env o).
Proof.
  intros Hv Hf Hw.
  assert (∀ w0 w1 r, frozen st w0 → ensureLoaded sha256 hmac other cfg env w0 = (w1, r) →
    frozen st w1 ∧ (r = Ok tt → sv_sealedReason (w_svc w1) ≠ None)) as HE
    by (intros; by eapply ensureLoaded_frozen).
  assert (∀ w0 i, frozen st w0 → frozen st (fst (appendNow sha256 hmac other cfg env w0 i)) ∧
    ∃ x, snd (appendNow sha256 hmac other cfg env w0 i) = Err x) as HA.
  { intros w0 i H0. unfold appendNow.
    destruct (ensureLoaded sha256 hmac other cfg env w0) as [w1 r] eqn:El.
    destruct (HE _ _ _ H0 El) as [H1 Hs]. destruct r as [[]|]; [|simpl; eauto].
    unfold assertNotSealed. specialize (Hs eq_refl).
    destruct (sv_sealedReason (w_svc w1)) as [[f n]|]; [|done]. simpl. eauto. }
  clear Hv Hf. destruct o as [i|i| | |f t b| | |q]; simpl.
  - by apply HA.
  - unfold appendSafe. destruct (HA w i Hw) as [H1 [x Hx]].
    destruct (appendNow _ _ _ _ env w i) as [w' r]. simpl in *. by subst.
  - unfold createCheckpoint. destruct (ensureLoaded _ _ _ _ env w) as [w1 r] eqn:El.
    destruct (HE _ _ _ Hw El) as [H1 Hs]. destruct r as [[]|]; [|done]. simpl.
    unfold assertNotSealed. specialize (Hs eq_refl).
    by destruct (sv_sealedReason (w_svc w1)) as [[? ?]|].
  - unfold verify. destruct (ensureLoaded _ _ _ _ env w) as [w1 r] eqn:El.
    destruct (HE _ _ _ Hw El) as [H1 _]. destruct r; [|done].
    destruct (e_load env); simpl; [|exact H1].
    destruct (verifyLedgerEvents _ _ _ _ _); exact H1.
  - unfold export. destruct (ensureLoaded _ _ _ _ env w) as [w1 r] eqn:El.
    destruct (HE _ _ _ Hw El) as [H1 _]. destruct (_ ≫= _); [|done].
    destruct (sv_sealedReason (w_svc w1)); [done|].
    match goal with |- context [appendNow _ _ _ _ env w1 ?i] => destruct (HA w1 i H1) as [H2 _] end.
    by destruct (appendNow _ _ _ _ env w1 _) as [w2 [|]].
  - destruct Hw as [Hst _]. split; [done|]. by intros [? _].
  - destruct (ensureLoaded _ _ _ _ env w) as [w1 r] eqn:El. by destruct (HE _ _ _ Hw El).
  - unfold query. destruct (ensureLoaded _ _ _ _ env w) as [w1 r] eqn:El.
    destruct (HE _ _ _ Hw El). by destruct r.
Qed.
End runs.

Lemma query_loop_spec q limit rows out :
  Z.of_nat (length out) ≤ limit →
  query_loop q limit rows out =
  out ++ take (Z.to_nat limit - length out) (filter (λ r, row_matches q r = true) rows).
Proof.
  revert out. induction rows as [|r rows IH]; intros out Ho; cbn [query_loop].
  { by rewrite filter_nil, take_nil, app_nil_r. }
  destruct (Z.ltb_spec (Z.of_nat (length out)) limit) as [Hlt|Hge].
  - rewrite filter_cons. destruct (row_matches q r) eqn:Hm.
    + rewrite decide_True by done. rewrite IH by (rewrite length_app; simpl; lia).
      rewrite length_app. simpl.
      replace (Z.to_nat limit - length out)%nat with (S (Z.to_nat limit - (length out + 1)))%nat by lia.
      simpl. by rewrite <- app_assoc.
    + rewrite decide_False by done. by apply IH.
  - replace (Z.to_nat limit - length out)%nat with 0%nat by lia. by rewrite take_0, app_nil_r.
Qed.

(** ** Theorems *)

Section theorems.
Context (sha256 : string → string) (hmac : string → string → string)
        (other : string → option Z) (cfg : ledger_env_vars).
Context {σ : Type} `{Hlaws : LedgerStoreLaws σ}.
Notation run_ops := (run_ops sha256 hmac other cfg (σ := σ)).
Notation appendNow := (appendNow sha256 hmac other cfg (σ := σ)).

(** C1: the service never corrupts its ledger.  Start a process on an empty
    store and run any operations, with any clock within four-digit years (also
    one that runs backwards), any storage errors (also writes that fail after
    they took effect) and any restarts: the service never seals, what is stored
    is a sequence of events it built, and the stored ledger verifies with its
    stored checkpoints.  A key id of [__proto__] is excluded: no key can be
    stored under it. *)
Theorem ledger_never_corrupts st ops :
  loadEvents st = [] → loadCheckpoints st = [] →
  currentKeyId cfg ≠ proto_key → fair_run ops →
  let w := run_ops (fresh st) ops in
  sv_sealedReason (w_svc w) = None ∧
  (∃ es, loadEvents (w_store w) = event_json <$> es ∧ (length es ≤ length ops)%nat) ∧
  ∃ r, verifyLedgerEvents sha256 hmac other (loadEvents (w_store w))
         (load_options cfg (loadCheckpoints (w_store w))) = Ok r ∧ ok r = true.
Proof.
  intros He Hc Hp Hf w.
  destruct (run_ops_inv sha256 hmac other cfg [] [] (fresh st) ops Hp
    (fresh_inv sha256 hmac cfg st He Hc) Hf) as (es & Hg & Hrows & Hcps & Hseal & _);
    [intros u _ []%not_elem_of_nil|].
  fold w in Hrows, Hcps, Hseal. simpl in *. split; [done|]. split.
  - exists es. split; [done|]. destruct Hg as (_ & Hnd & Hsub & _). rewrite app_nil_r in Hsub.
    pose proof (submseteq_length _ _ (NoDup_submseteq _ _ Hnd Hsub)) as Hl.
    unfold run_uuids in Hl. by rewrite length_reverse, !length_fmap in Hl.
  - rewrite Hrows. destruct (honest_report sha256 hmac other cfg Hp _ es
      (load_options cfg (loadCheckpoints (w_store w))) Hg) as (r & Hr & _ & Hk); try done. eauto.
Qed.

(** History only grows.  Whatever a run does after some prefix of it, the
    rows stored at that point are still there, unchanged and in place. *)
Theorem ledger_append_only st ops1 ops2 :
  loadEvents st = [] → loadCheckpoints st = [] →
  currentKeyId cfg ≠ proto_key → fair_run (ops1 ++ ops2) →
  ∃ more, loadEvents (w_store (run_ops (fresh st) (ops1 ++ ops2))) =
          loadEvents (w_store (run_ops (fresh st) ops1)) ++ more.
Proof.
  intros He Hc Hp [Ht Hnd]. unfold run_uuids in Hnd. rewrite fmap_app in Hnd.
  apply Forall_app in Ht as [Ht1 Ht2]. apply NoDup_app in Hnd as (Hn1 & Hd & Hn2).
  destruct (run_ops_inv sha256 hmac other cfg [] [] (fresh st) ops1 Hp
    (fresh_inv sha256 hmac cfg st He Hc) (conj Ht1 Hn1)) as (es1 & Hinv1);
    [intros u _ []%not_elem_of_nil|].
  destruct (run_ops_inv sha256 hmac other cfg _ _ _ ops2 Hp Hinv1 (conj Ht2 Hn2)) as (es2 & Hinv2).
  { intros u Hu Hin. rewrite app_nil_r, elem_of_reverse in Hin. by apply (Hd u). }
  exists (event_json <$> es2). destruct Hinv1 as (_ & H1 & _), Hinv2 as (_ & H2 & _).
  unfold LedgerService.run_ops in *. rewrite foldl_app. rewrite H1, H2. by rewrite <- fmap_app.
Qed.

(** C13: what one append does to a ledger that the service has kept and not sealed
    (a ledger that fails verification refuses every append: [bad_ledger_frozen]), with
    a clock of a four-digit year, a fresh identifier and a signing key not called
    "__proto__".  An accepted event is stored at
    the end of the old rows, with the next sequence number, chained to the old
    head, carrying the input's type, actor, subject and payload, and not dated
    before the row under it.  Any error other than a storage error leaves the
    stored rows alone; after a storage error they are the old rows or the old
    rows and this one event.  And with a valid input, room left and storage that
    works, the append is accepted. *)
Theorem append_exact env used es w i w' r :
  currentKeyId cfg ≠ proto_key → inv_at sha256 hmac cfg used es w →
  four_digit_time (e_clock env) → e_uuid env ∉ used → appendNow env w i = (w', r) →
  match r with
  | Ok e =>
      loadEvents (w_store w') = loadEvents (w_store w) ++ [event_json e] ∧
      sequence e = Z.of_nat (length es) + 1 ∧
      previousHash e = from_option hash LEDGER_GENESIS_HASH (last es) ∧
      hash e = computeEventHash sha256 (event_json e) ∧
      type e = in_type i ∧ actor e = in_actor i ∧ subjectType e = in_subjectType i ∧
      subjectId e = in_subjectId i ∧
      JObj (payload e) = to_json (default (VObj []) (in_payload i)) ∧
      (∀ l, last es = Some l → str_lt (recordedAt e) (recordedAt l) = false)
  | Err StoreRejected =>
      loadEvents (w_store w') = loadEvents (w_store w) ∨
      ∃ v, validate other i = Ok v ∧ loadEvents (w_store w') =
        loadEvents (w_store w) ++ [event_json (build_event sha256 env (loadEvents (w_store w)) v)]
  | Err _ => loadEvents (w_store w') = loadEvents (w_store w)
  end ∧
  (e_load env = true → e_append env = Succeed → Z.of_nat (length es) < MAX_LEDGER_EVENTS →
   ∀ v, validate other i = Ok v → ∃ e, r = Ok e).
Proof.
  intros Hp Hinv Ft Hu Ha. split.
  2: { intros Hld Hap Hlt v Hv. exists (build_event sha256 env (event_json <$> es) v).
       rewrite <- (appendNow_accepts sha256 hmac other cfg Hp env used es w i v) by done.
       by rewrite Ha. }
  destruct (appendNow_inv sha256 hmac other cfg Hp _ _ _ _ _ _ _ Hinv Ft Hu Ha)
    as (es' & (Hg' & Hrows' & _) & Heff). destruct Hinv as (Hg & Hrows & _).
  rewrite Hrows, Hrows'. destruct Heff as [[-> [x ->]]|(v & e & Hv & He & -> & [-> | ->])].
  - destruct x; auto.
  - destruct (validate_fields other i v Hv) as (V1 & V2 & V3 & V4 & V5).
    destruct Hg' as (Hc & _), Hg as (Hc0 & _).
    destruct (event_chain_last sha256 _ _ _ (es ++ [e]) e Hc) as (Hs & t & Ft' & Rt & _);
      [by rewrite last_snoc|].
    rewrite fmap_app. subst e. split; [done|]. split; [rewrite Hs, length_app; simpl; lia|].
    split; [cbn [build_event previousHash]; rewrite head_of_events; by destruct (last es)|].
    split; [done|]. repeat (split; [done|]). intros l Hl.
    destruct (build_event_time sha256 other env es v Ft Hc0) as (t' & F' & -> & _ & Hle).
    destruct (event_chain_last sha256 _ _ _ _ _ Hc0 Hl) as (_ & tl & Fl & Rl & _).
    rewrite Rl, iso_text_lt by done. apply Z.ltb_ge. by apply (Hle l).
  - right. exists v. split; [done|]. by rewrite fmap_app, He.
Qed.

(** A ledger that fails verification is frozen.  Start a process on a store
    whose contents verify with a failure: no run of operations changes what is
    stored, whatever storage does, until an operator repairs it. *)
Theorem bad_ledger_frozen st ops rep :
  verifyLedgerEvents sha256 hmac other (loadEvents st)
    (load_options cfg (loadCheckpoints st)) = Ok rep → ok rep = false →
  w_store (run_ops (fresh st) ops) = st.
Proof.
  intros Hv Hk.
  assert (failures rep ≠ []) as Hf
    by (intros Hn%(verify_report_failures _ _ _ _ _ _ Hv); congruence).
  assert (∀ w, frozen st w → frozen st (run_ops w ops)) as Hrun.
  { induction ops as [|[env o] ops IH]; [done|]. intros w Hw. simpl. apply IH.
    by eapply step_frozen. }
  apply Hrun. split; [done|]. by intros [? _].
Qed.
End theorems.

(** A query returns the first [limit] matching rows from [fromSequence] on,
    in order, with [limit] kept between 1 and 1000. *)
Lemma query_exact q rows :
  query_rows q rows =
  take (Z.to_nat (Z.min (Z.max (default 100 (q_limit q)) 1) 1000))
    (filter (λ r, row_matches q r = true)
       (drop (Z.to_nat (default 1 (q_fromSequence q) - 1)) rows)).
Proof.
  unfold query_rows. rewrite query_loop_spec by (simpl; lia). simpl. rewrite Nat.sub_0_r.
  do 3 f_equal. lia.
Qed.

(** *** Concrete runs *)

Definition toy_cfg : ledger_env_vars :=
  {| CHECKPOINT_KEY := Some "0123456789abcdef0123456789abcdef"; CHECKPOINT_KEY_ID := None;
     CHECKPOINT_RETIRED_KEYS := Some "v0: oldkey"; CHECKPOINT_LOST_KEY_IDS := None;
     checkpointInterval := 2 |}.

Definition toy_env (t : Z) (id : string) (a : outcome) : env :=
  {| e_clock := t; e_checkpointClock := t; e_uuid := id; e_load := true; e_append := a;
     e_checkpoint := Succeed |}.

Definition toy_input : LedgerEventInput :=
  {| in_type := "bond.issued"; in_actor := "GA1"; in_subjectType := "bond"; in_subjectId := "b1";
     in_payload := Some (VObj [("amount", VStr "10")]); in_correlationId := None;
     in_occurredAt := None |}.

(** An accepted append, one that fails after it was written, a clock that runs
    backwards, a restart, an append refused by storage, an export, a checkpoint. *)
Definition toy_ops : list (env * op) :=
  [ (toy_env 5000 "u1" Succeed, OpAppend toy_input);
    (toy_env 6000 "u2" FailCommitted, OpAppendSafe toy_input);
    (toy_env 1000 "u3" Succeed, OpAppend toy_input);
    (toy_env 7000 "u4" Succeed, OpRestart);
    (toy_env 7000 "u5" Fail, OpAppend toy_input);
    (toy_env 8000 "u6" Succeed, OpExport None None "GA2");
    (toy_env 9000 "u7" Succeed, OpCheckpoint);
    (toy_env 9000 "u8" Succeed, OpVerify) ].

Lemma toy_fair : fair_run toy_ops.
Proof.
  split.
  - repeat (constructor; [unfold four_digit_time; simpl; lia|]). constructor.
  - apply (bool_decide_unpack _). vm_compute. exact I.
Qed.

Definition empty_store : InMemoryLedgerStore := {| ms_events := []; ms_checkpoints := [] |}.

Lemma empty_inv : inv_at toy_sha256 toy_hmac toy_cfg [] [] (fresh empty_store).
Proof. by apply fresh_inv. Qed.

Notation toy_run := (run_ops toy_sha256 toy_hmac toy_other toy_cfg).

Lemma ledger_never_corrupts_witness :
  let w := toy_run (fresh empty_store) toy_ops in
  (length (loadEvents (w_store w)) = 4%nat ∧ length (loadCheckpoints (w_store w)) = 1%nat) ∧
  sv_sealedReason (w_svc w) = None ∧
  (∃ es, loadEvents (w_store w) = event_json <$> es ∧ (length es ≤ length toy_ops)%nat) ∧
  ∃ r, verifyLedgerEvents toy_sha256 toy_hmac toy_other (loadEvents (w_store w))
         (load_options toy_cfg (loadCheckpoints (w_store w))) = Ok r ∧ ok r = true.
Proof.
  split; [split; vm_compute; reflexivity|].
  apply (ledger_never_corrupts toy_sha256 toy_hmac toy_other toy_cfg empty_store toy_ops);
    [reflexivity|reflexivity|discriminate|exact toy_fair].
Defined.

Lemma ledger_append_only_witness :
  ∃ more, loadEvents (w_store (toy_run (fresh empty_store) (take 3 toy_ops ++ drop 3 toy_ops))) =
          loadEvents (w_store (toy_run (fresh empty_store) (take 3 toy_ops))) ++ more.
Proof.
  apply (ledger_append_only toy_sha256 toy_hmac toy_other toy_cfg empty_store);
    [reflexivity|reflexivity|discriminate|exact toy_fair].
Defined.

Lemma append_exact_witness :
  ∃ w' e, appendNow toy_sha256 toy_hmac toy_other toy_cfg (toy_env 5000 "u1" Succeed)
            (fresh empty_store) toy_input = (w', Ok e) ∧
  loadEvents (w_store w') = [event_json e] ∧ sequence e = 1 ∧
  previousHash e = LEDGER_GENESIS_HASH.
Proof.
  eexists _, _. split; [reflexivity|].
  destruct (append_exact toy_sha256 toy_hmac toy_other toy_cfg (toy_env 5000 "u1" Succeed) [] []
    (fresh empty_store) toy_input _ _ ltac:(discriminate) empty_inv
    ltac:(unfold four_digit_time; simpl; lia) ltac:(apply not_elem_of_nil) eq_refl)
    as [(H1 & H2 & H3 & _) _].
  split; [exact H1|]. split; [exact H2|exact H3].
Defined.

(** The same ledger with one payload altered in storage. *)
Definition forged_store : InMemoryLedgerStore :=
  {| ms_events := [event_json (toy_event 1 "id-1" LEDGER_GENESIS_HASH 0); event_json toy_1];
     ms_checkpoints := [] |}.

Lemma bad_ledger_frozen_witness :
  w_store (toy_run (fresh forged_store) toy_ops) = forged_store.
Proof.
  eapply (bad_ledger_frozen toy_sha256 toy_hmac toy_other toy_cfg forged_store toy_ops).
  - vm_compute. reflexivity.
  - reflexivity.
Defined.
