(* ===== verification/LedgerExport.v ===== *)
(** * Exported ledgers

    The offline side of [api/src/ledger/ledger.chain.ts]: [parseNdjson] and
    [verifyLedgerExport], which check an export without the live ledger: the digest
    of the body, the consistency of the manifest, and the chain from its anchor to
    its head.  Exports are made by [LedgerService.export]. *)
From S2P Require Import Prelude JsDate Json JsonParse Ndjson LedgerChain LedgerService.

Section export.
Context (num : string → string).
Context (sha256 : string → string) (hmac : string → string → string)
        (other : string → option Z).

(** [lines.map((line, i) => JSON.parse(line))], with the message of its error. *)
Fixpoint parse_lines (i : Z) (lines : list string) : result string (list json) :=
  match lines with
  | [] => Ok []
  | line :: lines =>
      match JSON_parse num line with
      | None => Err ("line " +:+ Z_to_string i +:+ " is not valid JSON")
      | Some v => vs ← parse_lines (i + 1) lines; Ok (v :: vs)
      end
  end.

Definition parseNdjson (body : string) : result string (list json) :=
  parse_lines 1 (filter (λ line, trim line ≠ EmptyString) (split_on newline body)).

Definition export_options (m : LedgerExportManifest) (keys : option (list (string * string)))
    (lost : list string) : VerifyOptions :=
  {| anchorHash := Some (mf_anchorHash m); startSequence := Some (mf_fromSequence m);
     checkpoints := mf_checkpoints m; checkpointKeys := keys; lostKeyIds := lost;
     expectedHeadHash := Some (mf_headHash m);
     expectedLastSequence := Some (if mf_count m =? 0 then 0 else mf_toSequence m) |}.

(** The checks of the manifest against the body. *)
Definition manifest_failures (m : LedgerExportManifest) (ndjson : string) (events : list json) :
    list LedgerVerificationFailure :=
  let digest := sha256 ndjson in
  let count := Z.of_nat (length events) in
  let f r x y := {| vf_sequence := Some JNull; vf_reason := r; vf_expected := Some x; vf_actual := Some y |} in
  (if bool_decide (digest = mf_bodySha256 m) then []
   else [f export_body_digest_mismatch (mf_bodySha256 m) digest]) ++
  (if count =? mf_count m then []
   else [f export_manifest_mismatch ("count " +:+ Z_to_string (mf_count m)) ("count " +:+ Z_to_string count)]) ++
  (if mf_schemaVersion m =? LEDGER_SCHEMA_VERSION then []
   else [f unsupported_schema_version (Z_to_string LEDGER_SCHEMA_VERSION) (Z_to_string (mf_schemaVersion m))]).

Definition verifyLedgerExport (m : LedgerExportManifest) (ndjson : string)
    (keys : option (list (string * string))) (lost : list string) :
    result js_exn LedgerVerificationReport :=
  match parseNdjson ndjson with
  | Err msg =>
      Ok {| ok := false; checkedEvents := 0; checkedCheckpoints := 0;
            firstSequence := Some JNull; lastSequence := Some JNull;
            headHash := Some (JStr (mf_anchorHash m));
            failures := [{| vf_sequence := Some JNull; vf_reason := malformed_event;
                            vf_expected := Some "ndjson"; vf_actual := Some msg |}] |}
  | Ok events =>
      r ← verifyLedgerEvents sha256 hmac other events (export_options m keys lost);
      let fs := failures r ++ manifest_failures m ndjson events in
      Ok {| ok := bool_decide (fs = []); checkedEvents := checkedEvents r;
            checkedCheckpoints := checkedCheckpoints r; firstSequence := firstSequence r;
            lastSequence := lastSequence r; headHash := headHash r; failures := fs |}
  end.
End export.

(** ** Bodies *)

Section body.
Context (num : string → string).

(** Parsing an exported body gives the canonical rows. *)
Lemma parse_lines_body i rows :
  Forall (λ r, natural num r = true) rows →
  parse_lines num i (filter (λ line, trim line ≠ EmptyString) (split_on newline (serializeNdjson rows))) =
    Ok (canonicalize <$> rows).
Proof.
  intros HF. revert i. induction HF as [|r rows Hr HF IH]; intros i; [done|].
  pose proof (natural_canonicalize num r Hr) as Hc. pose proof (natural_ok num _ Hc) as Hok.
  cbn [serializeNdjson foldr]. unfold nl. rewrite str_app_cons, str_app_nil.
  change (String "010" ?x) with (String newline x).
  rewrite split_on_line by (by apply print_no_newline).
  rewrite filter_cons, decide_True by (by apply print_nonblank).
  cbn [parse_lines]. unfold stableStringify. rewrite JSON_parse_print by done.
  fold (serializeNdjson rows). by rewrite IH.
Qed.

Lemma parseNdjson_body rows :
  Forall (λ r, natural num r = true) rows →
  parseNdjson num (serializeNdjson rows) = Ok (canonicalize <$> rows).
Proof. apply parse_lines_body. Qed.

Lemma parse_lines_ok i lines rows :
  (∀ t, num_text_ok (num t) = true) → parse_lines num i lines = Ok rows →
  Forall (λ r, json_ok r = true) rows.
Proof.
  intros Hn. revert i rows. induction lines as [|line lines IH]; intros i rows H; cbn [parse_lines] in H.
  - injection H as <-. constructor.
  - destruct (JSON_parse num line) as [v|] eqn:E; [|done]. apply bind_ok in H as (vs & Hvs & H).
    injection H as <-. constructor; [by eapply JSON_parse_ok|by eapply IH].
Qed.
End body.

(** ** Canonical rows verify like the rows they come from *)

Section canonical.
Context (sha256 : string → string) (other : string → option Z).

Lemma string_of_canonicalize v : string_of (canonicalize <$> v) = string_of v.
Proof. by destruct v as [[]|]. Qed.

Lemma int_of_canonicalize v : int_of (canonicalize <$> v) = int_of v.
Proof. by destruct v as [[]|]. Qed.

Lemma isWellFormed_canonicalize e : isWellFormed (canonicalize e) = isWellFormed e.
Proof.
  unfold isWellFormed. rewrite !prop_canonicalize by done.
  rewrite int_of_canonicalize, !string_of_canonicalize.
  repeat (apply option_bind_ext_fun; intros ?). by destruct (prop e "payload") as [[]|].
Qed.

Lemma event_preimage_canonicalize e :
  json_ok e = true → event_preimage (canonicalize e) = event_preimage e.
Proof.
  intros He. unfold event_preimage. f_equal. unfold stableStringify. f_equal.
  rewrite !canonicalize_hashed_object. f_equal. apply list_fmap_ext. intros i k Hk.
  apply list_elem_of_lookup_2, elem_of_canonical_keys in Hk as [_ Hk]. f_equal.
  rewrite prop_canonicalize by done. destruct (prop e k) as [v|] eqn:E; [|done]. simpl.
  apply canonicalize_idem. destruct e as [| | | | |l]; try done. simpl in E, He. bool_to_prop.
  apply jget_Some_elem in E. rewrite forallb_forall in H0. by apply (H0 (k, v)), list_elem_of_In.
Qed.

Lemma verify_event_canonicalize w e :
  json_ok e = true →
  w_failures (verify_event sha256 other w e) = [] →
  verify_event sha256 other w (canonicalize e) = verify_event sha256 other w e.
Proof.
  intros He Hf. unfold verify_event in *. rewrite isWellFormed_canonicalize.
  destruct (isWellFormed e) as [f|]; [|by apply app_nil in Hf as [_ ?]].
  cbn zeta in *. unfold computeEventHash. rewrite event_preimage_canonicalize by done.
  f_equal. f_equal. f_equal. cbn [w_failures] in Hf.
  apply app_nil in Hf as [_ Hf]. apply app_nil in Hf as [Hf _]. rewrite Hf.
  rewrite prop_canonicalize by done. apply fail_if_nil. apply fail_if_nil in Hf.
  by rewrite int_of_canonicalize.
Qed.

Lemma verify_walk_canonicalize w rows :
  Forall (λ r, json_ok r = true) rows →
  w_failures (foldl (verify_event sha256 other) w rows) = [] →
  foldl (verify_event sha256 other) w (canonicalize <$> rows) = foldl (verify_event sha256 other) w rows.
Proof.
  intros HF. revert w. induction HF as [|r rows Hr HF IH]; intros w Hw; [done|].
  rewrite fmap_cons. cbn [foldl] in *. rewrite verify_event_canonicalize; [by apply IH|done|].
  destruct (verify_events_grow sha256 other rows (verify_event sha256 other w r)) as [fs E].
  rewrite E in Hw. by apply app_nil in Hw as [? _].
Qed.
End canonical.

(** ** An exported range verifies *)

Section chains.
Context (sha256 : string → string).

Lemma event_chain_app prev seq time es1 es2 :
  event_chain sha256 prev seq time (es1 ++ es2) →
  event_chain sha256 prev seq time es1 ∧
  ∃ t, event_chain sha256 (match last es1 with Some l => hash l | None => prev end)
         (seq + Z.of_nat (length es1)) t es2.
Proof.
  revert prev seq time. induction es1 as [|e es1 IH]; intros prev seq time Hc.
  { split; [done|]. exists time. by rewrite Z.add_0_r. }
  rewrite <- app_comm_cons, event_chain_cons in Hc.
  destruct Hc as (Hv & Hs & Hp & Hh & Hr & t & Hf & Hl & Ht & Hc).
  destruct (IH _ _ _ Hc) as [H1 (t' & H2)]. split; [apply event_chain_cons; eauto 12|].
  exists t'. rewrite last_cons. cbn [length].
  replace (seq + Z.of_nat (S (length es1))) with (seq + 1 + Z.of_nat (length es1)) by lia.
  by destruct (last es1).
Qed.

Lemma event_chain_range prev seq time es a n :
  event_chain sha256 prev seq time es →
  ∃ p t, event_chain sha256 p (seq + Z.of_nat (Nat.min a (length es))) t (take n (drop a es)).
Proof.
  intros Hc. rewrite <- (take_drop a es) in Hc.
  apply event_chain_app in Hc as [_ (t & Hc)]. rewrite length_take in Hc.
  rewrite <- (take_drop n (drop a es)) in Hc. apply event_chain_app in Hc as [Hc _]. eauto.
Qed.
End chains.

Section offline.
Context (num : string → string).
Context (sha256 : string → string) (hmac : string → string → string)
        (other : string → option Z) (cfg : ledger_env_vars).
Context (Hproto : currentKeyId cfg ≠ proto_key).

(** A checkpoint this configuration signed, of an event of the range from [from]. *)
Definition cp_in_range (from : Z) (es : list LedgerEvent) (c : LedgerCheckpoint) : Prop :=
  ∃ n e key, es !! n = Some e ∧ cp_sequence c = from + Z.of_nat n ∧
    cp_hash c = hash e ∧ cp_recordedAt c = recordedAt e ∧ keyId c = currentKeyId cfg ∧
    checkpointKey cfg = Some key ∧ mac c = hmac key (checkpoint_preimage c).

Lemma range_checkpoints from prev es o lastSeq cps :
  row_chain sha256 prev from (event_json <$> es) →
  Forall (λ e, Z.abs (sequence e) ≤ max_safe) es →
  checkpointKeys o = verificationKeys cfg ∨ checkpointKeys o = None →
  Forall (cp_in_range from es) cps →
  verify_checkpoints hmac o (verify_walk sha256 other prev from (event_json <$> es)) lastSeq cps = Ok [].
Proof.
  intros Hc Hb Ho HF. induction HF as [|c cps (n & e & key & Hn & Hs & Hh & Hr & Hk & Hkey & Hm) _ IH]; [done|].
  cbn [verify_checkpoints].
  rewrite (cp_mac_verifies hmac cfg Hproto key o); [by rewrite IH|done..|].
  apply (cp_in_chain sha256 other prev from es n e); try done.
  rewrite Forall_forall in Hb. by eapply Hb, list_elem_of_lookup_2.
Qed.

Lemma prop_row e k v :
  k ≠ proto_key → prop (event_json e) k = Some v → canonicalize v = v →
  prop_or_throw (canonicalize (event_json e)) k = Ok (Some v).
Proof.
  intros Hk Hp Hv. unfold prop_or_throw.
  replace (prop (canonicalize (event_json e)) k) with (Some v); [done|].
  rewrite prop_canonicalize, Hp by done. simpl. by rewrite Hv.
Qed.

Lemma range_verifies from prev time es m lost keys :
  event_chain sha256 prev from time es → 0 ≤ from → from + Z.of_nat (length es) ≤ max_safe →
  NoDup (eventId <$> es) → Forall (λ e, natural num (event_json e) = true) es →
  keys = verificationKeys cfg ∨ keys = None →
  mf_anchorHash m = prev → mf_fromSequence m = from → mf_count m = Z.of_nat (length es) →
  mf_headHash m = match last es with Some l => hash l | None => prev end →
  (es ≠ [] → mf_toSequence m = from + Z.of_nat (length es) - 1) →
  mf_bodySha256 m = sha256 (serializeNdjson (event_json <$> es)) →
  mf_schemaVersion m = LEDGER_SCHEMA_VERSION → Forall (cp_in_range from es) (mf_checkpoints m) →
  ∃ r, verifyLedgerExport num sha256 hmac other m (serializeNdjson (event_json <$> es)) keys lost = Ok r ∧
       ok r = true ∧ checkedEvents r = mf_count m.
Proof.
  intros Hc H0 Hmax Hnd Hnat Hkeys Ha Hf Hn Hh Ht Hb Hv Hcp. subst prev from.
  assert (Forall (λ r, natural num r = true) (event_json <$> es)) as Hrows by (by apply Forall_fmap).
  assert (Forall (λ r, json_ok r = true) (event_json <$> es)) as Hok
    by (eapply Forall_impl; [exact Hrows|]; intros r; apply natural_ok).
  assert (w_failures (verify_walk sha256 other (mf_anchorHash m) (mf_fromSequence m) (event_json <$> es)) = []) as Hw.
  { eapply (event_chain_clean sha256 other es _ (mf_anchorHash m) (mf_fromSequence m) time); try done.
    repeat split; try done. by left. }
  pose proof (clean_walk_chain sha256 other _ (walk_init (mf_anchorHash m) (mf_fromSequence m)) Hw) as Hrc.
  assert (Forall (λ e, Z.abs (sequence e) ≤ max_safe) es) as Hbound.
  { apply Forall_forall. intros e [n He]%list_elem_of_lookup. apply lookup_lt_Some in He as Hlt.
    rewrite (event_chain_lookup _ _ _ _ _ _ _ Hc He). lia. }
  set (rows := canonicalize <$> (event_json <$> es)).
  assert (verify_walk sha256 other (mf_anchorHash m) (mf_fromSequence m) rows = verify_walk sha256 other (mf_anchorHash m) (mf_fromSequence m) (event_json <$> es)) as Hwalk
    by (by apply verify_walk_canonicalize).
  unfold verifyLedgerExport. rewrite parseNdjson_body by done. fold rows.
  assert (∃ r, verifyLedgerEvents sha256 hmac other rows (export_options m keys lost) = Ok r ∧
    failures r = [] ∧ ok r = true) as (r & Hr & Hfs & _).
  { apply (verify_clean_intro sha256 hmac other rows (export_options m keys lost)
      (match es with [] => Some JNull | e :: _ => Some (jint (sequence e)) end)
      (match last es with Some l => Some (jint (sequence l)) | None => Some JNull end)
      (match last es with Some l => Some (JStr (hash l)) | None => Some (JStr (mf_anchorHash m)) end));
      cbn [export_options anchorHash startSequence checkpoints checkpointKeys expectedHeadHash
           expectedLastSequence default from_option].
    - destruct es as [|e es]; [done|]. by apply prop_row.
    - unfold rows. rewrite !fmap_last. destruct (last es); [|done]. by apply prop_row.
    - unfold rows. rewrite !fmap_last. destruct (last es); [|done]. by apply prop_row.
    - exact (eq_trans (f_equal w_failures Hwalk) Hw).
    - change (verify_checkpoints hmac (export_options m keys lost)
        (verify_walk sha256 other (mf_anchorHash m) (mf_fromSequence m) rows)
        (match last es with Some l => Some (jint (sequence l)) | None => Some JNull end) (mf_checkpoints m) = Ok []).
      rewrite Hwalk. by apply range_checkpoints.
    - intros h [= <-]. rewrite Hh. by destruct (last es).
    - intros z [= <-]. rewrite Hn. destruct (last es) as [l|] eqn:El.
      + destruct (event_chain_last _ _ _ _ _ _ Hc El) as [Hs _].
        assert (es ≠ []) as Hne by (by intros ->). rewrite Ht by done.
        destruct (Z.eqb_spec (Z.of_nat (length es)) 0) as [Hz|Hz]; [by destruct es|].
        rewrite <- Hs. unfold jint, or_zero. apply int_of_jint. lia.
      + apply last_None in El as ->. done. }
  rewrite Hr. cbn [mbind result_bind]. eexists. split; [reflexivity|]. cbn [ok checkedEvents].
  rewrite Hfs. assert (length rows = length es) as Hlen by (unfold rows; by rewrite !length_fmap).
  split.
  - apply bool_decide_eq_true. unfold manifest_failures. cbn zeta.
    rewrite Hb, bool_decide_true, Hlen, Hn, Z.eqb_refl, Hv by done. done.
  - assert (checkedEvents r = Z.of_nat (length rows)) as ->; [|by rewrite Hlen, Hn].
    unfold verifyLedgerEvents in Hr.
    apply bind_ok in Hr as (? & _ & Hr). apply bind_ok in Hr as (? & _ & Hr).
    apply bind_ok in Hr as (? & _ & Hr). apply bind_ok in Hr as (? & _ & Hr). by injection Hr as <-.
Qed.
End offline.

Section properties.
Context (num : string → string).
Context (sha256 : string → string) (hmac : string → string → string)
        (other : string → option Z) (cfg : ledger_env_vars).
Context {σ : Type} `{Hlaws : LedgerStoreLaws σ}.
Context (Hproto : currentKeyId cfg ≠ proto_key).

Lemma checkpoints_in_range es from to cps :
  1 ≤ from → to ≤ Z.of_nat (length es) → Forall (cp_ok hmac cfg es) cps →
  Forall (cp_in_range hmac cfg from (take (Z.to_nat (to - (from - 1))) (drop (Z.to_nat (from - 1)) es)))
    (filter (λ c, from ≤ cp_sequence c ∧ cp_sequence c ≤ to) cps).
Proof.
  intros Hf Ht HF. rewrite Forall_forall in HF. apply Forall_forall. intros c [[Hc1 Hc2] Hc]%list_elem_of_filter.
  destruct (HF c Hc) as (n & e & key & Hn & Hs & Hrest).
  exists (n - Z.to_nat (from - 1))%nat, e, key. split; [|split; [lia|done]].
  rewrite lookup_take_lt, lookup_drop by lia. rewrite <- Hn. f_equal. lia.
Qed.

Lemma export_shape env env2 used es w fromSequence toSequence by_ w' m body :
  inv_at sha256 hmac cfg used es w (σ := σ) →
  export sha256 hmac other cfg env env2 w fromSequence toSequence by_ = (w', Ok (m, body)) →
  let from := default 1 fromSequence in
  let to := Z.min (default (Z.of_nat (length es)) toSequence) (Z.of_nat (length es)) in
  let sub := take (Z.to_nat (to - (from - 1))) (drop (Z.to_nat (from - 1)) es) in
  1 ≤ from ∧ (es ≠ [] → from ≤ to) ∧ body = serializeNdjson (event_json <$> sub) ∧
  ∃ w1, sv_events (w_svc w1) = event_json <$> es ∧ Forall (cp_ok hmac cfg es) (sv_checkpoints (w_svc w1)) ∧
    m = export_manifest sha256 env w1 from to by_ (event_json <$> sub) (σ := σ).
Proof.
  intros Hinv. unfold export. destruct (ensureLoaded _ _ _ _ env w) as [w1 loaded] eqn:El.
  destruct (ensureLoaded_inv sha256 hmac other cfg Hproto env used es w w1 loaded Hinv El)
    as (Hinv1 & _ & [[-> Hready]|[-> _]]); [|done].
  destruct Hinv1 as (_ & _ & _ & Hseal & Hrows). destruct (Hrows Hready) as [Ev Hcps].
  rewrite Ev, Hseal, length_fmap. cbn zeta. set (from := default 1 fromSequence).
  set (to := Z.min _ _). unfold throw_if. cbn [mbind result_bind].
  destruct (Z.ltb_spec from 1); [done|]. cbn [mbind result_bind].
  destruct ((0 <? Z.of_nat (length es)) && (to <? from)) eqn:Er; [done|]. cbn [mbind result_bind].
  destruct (MAX_EXPORT_EVENTS <? _); [done|]. cbn [mbind result_bind].
  case_bool_decide; [done|].
  assert ((if Z.of_nat (length es) =? 0 then []
    else take (Z.to_nat (to - (from - 1))) (drop (Z.to_nat (from - 1)) (event_json <$> es))) =
    event_json <$> take (Z.to_nat (to - (from - 1))) (drop (Z.to_nat (from - 1)) es)) as ->.
  { rewrite fmap_take, fmap_drop. destruct (Z.eqb_spec (Z.of_nat (length es)) 0) as [Hz|]; [|done].
    destruct es; [|done]. simpl. by rewrite drop_nil, take_nil. }
  destruct (appendNow _ _ _ _ _ _ _) as [w2 [ev|x]]; [|done]. intros [= _ <- <-].
  split; [done|]. split; [|split; [done|by exists w1]].
  intros Hne. apply andb_false_iff in Er as [Er|Er]; [|lia]. by destruct es.
Qed.

(** C27: an export verifies offline.  Whatever range the service exports of a
    ledger it wrote, whose payloads are JSON data, the verifier, given only the
    manifest and the body, accepts it, with the keys of the configuration or
    without keys: its lines parse back, hash and link as the live events do,
    reach the manifest's head, and the checkpoints in range are accepted. *)
Theorem export_verifies_offline env env2 used es w fromSequence toSequence by_ w' m body keys lost :
  inv_at sha256 hmac cfg used es w (σ := σ) →
  Forall (λ e, natural num (event_json e) = true) es →
  keys = verificationKeys cfg ∨ keys = None →
  export sha256 hmac other cfg env env2 w fromSequence toSequence by_ = (w', Ok (m, body)) →
  ∃ r, verifyLedgerExport num sha256 hmac other m body keys lost = Ok r ∧
       ok r = true ∧ checkedEvents r = mf_count m.
Proof.
  intros Hinv Hnat Hkeys Hexp. pose proof Hinv as ((Hc & Hnd & _ & Hmax) & _).
  destruct (export_shape _ _ _ _ _ _ _ _ _ _ _ Hinv Hexp) as (Hf & Ht & -> & w1 & Ev & Hcps & ->).
  set (from := default 1 fromSequence) in *. set (to := Z.min _ _) in *. set (sub := take _ _) in *.
  destruct (decide (es = [])) as [->|Hne].
  { assert (sub = []) as -> by (unfold sub; by rewrite drop_nil, take_nil).
    apply (range_verifies num sha256 hmac other cfg Hproto 0 LEDGER_GENESIS_HASH 0 []); try done; simpl; rewrite ?Ev; try done;
      try (by constructor).
    apply Forall_forall. intros c [[? ?] _]%list_elem_of_filter. unfold to in *. simpl in *. lia. }
  assert (length sub = Z.to_nat (to - from + 1)) as Hlen
    by (unfold sub; rewrite length_take, length_drop; lia).
  assert (to ≤ Z.of_nat (length es)) as Hto by lia. specialize (Ht Hne).
  destruct (event_chain_range sha256 _ _ _ es (Z.to_nat (from - 1)) (Z.to_nat (to - (from - 1))) Hc) as (p & t & Hsub).
  fold sub in Hsub.
  replace (1 + Z.of_nat (Nat.min (Z.to_nat (from - 1)) (length es))) with from in Hsub by lia.
  destruct sub as [|e0 rest] eqn:Es; [simpl in Hlen; lia|]. rewrite <- Es in *.
  assert (mf_anchorHash (export_manifest sha256 env w1 from to by_ (event_json <$> sub)) = p) as Ha.
  { rewrite Es in Hsub |- *. by destruct Hsub as (_ & _ & <- & _). }
  eapply (range_verifies num sha256 hmac other cfg Hproto from p t sub); try done.
  - lia.
  - unfold max_safe, MAX_LEDGER_EVENTS in *. lia.
  - rewrite <- (take_drop (Z.to_nat (from - 1)) es), fmap_app in Hnd. apply NoDup_app in Hnd as (_ & _ & Hnd).
    rewrite <- (take_drop (Z.to_nat (to - (from - 1))) (drop _ es)), fmap_app in Hnd.
    by apply NoDup_app in Hnd as (? & _).
  - unfold sub. by apply Forall_take, Forall_drop.
  - by rewrite Es.
  - cbn. by rewrite length_fmap.
  - cbn [export_manifest mf_headHash]. rewrite fmap_last, Es. destruct (last (e0 :: rest)) eqn:El; [done|].
    by apply last_None in El.
  - intros _. rewrite Hlen, Es. cbn. lia.
  - by apply checkpoints_in_range.
Qed.
End properties.

(** ** Tampering with an export *)

Section evidence.
Context (num : string → string) (Hnum : ∀ t, num_text_ok (num t) = true).
Context (sha256 : string → string) (hmac : string → string → string)
        (other : string → option Z).
Notation verifyLedgerExport := (verifyLedgerExport num sha256 hmac other).

(** What an accepted export is. *)
Lemma export_ok_inv m body keys lost r :
  verifyLedgerExport m body keys lost = Ok r → ok r = true →
  ∃ rows, parseNdjson num body = Ok rows ∧ Forall (λ e, json_ok e = true) rows ∧
    mf_count m = Z.of_nat (length rows) ∧ mf_bodySha256 m = sha256 body ∧
    row_chain sha256 (mf_anchorHash m) (mf_fromSequence m) rows ∧
    (rows ≠ [] → chain_head (mf_anchorHash m) rows = mf_headHash m).
Proof.
  unfold LedgerExport.verifyLedgerExport. destruct (parseNdjson num body) as [rows|msg] eqn:Ep; [|by intros [= <-]].
  intros Hv Hok. apply bind_ok in Hv as (r0 & Hr0 & Hv). injection Hv as <-. cbn [ok] in Hok.
  apply bool_decide_eq_true, app_nil in Hok as [Hf Hm]. exists rows. split; [done|].
  split; [by eapply parse_lines_ok|].
  unfold manifest_failures in Hm. cbn zeta in Hm. apply app_nil in Hm as [Hd Hm]. apply app_nil in Hm as [Hc _].
  split; [destruct (Z.eqb_spec (Z.of_nat (length rows)) (mf_count m)); [lia|done]|].
  split; [by case_bool_decide|].
  pose proof (verify_report_failures _ _ _ _ _ _ Hr0 Hf) as Hok0.
  destruct (verify_ok_inv _ _ _ _ _ _ Hr0 Hok0) as (_ & _ & Hchain & Hhead). split; [exact Hchain|].
  intros Hne. specialize (Hhead Hne). cbn [export_options anchorHash default from_option] in Hhead.
  unfold verifyLedgerEvents in Hr0.
  apply bind_ok in Hr0 as (? & _ & Hr0). apply bind_ok in Hr0 as (? & _ & Hr0).
  apply bind_ok in Hr0 as (h & _ & Hr0). apply bind_ok in Hr0 as (? & _ & Hr0). injection Hr0 as <-.
  cbn [failures headHash] in *. apply app_nil in Hf as [_ Hf]. apply app_nil in Hf as [_ Hf].
  apply app_nil in Hf as [Hf _]. cbn [export_options expectedHeadHash] in Hf. apply fail_if_nil in Hf.
  unfold not_text in Hf. apply negb_false_iff, bool_decide_eq_true in Hf. rewrite Hhead in Hf.
  by injection Hf.
Qed.

(** An export cannot be rewritten.  Two exports that verify, with the same
    anchor, first sequence number and head hash in their manifests, carry the same
    canonical events, in the same number and order, or SHA-256 collides: editing,
    dropping, adding or reordering lines, even with the count, the digest and
    every other field of the manifest recomputed, is caught by the head hash.
    With the same digest in the manifests the bodies are the same text. *)
Theorem export_tamper_evident m1 m2 b1 b2 keys1 keys2 lost1 lost2 r1 r2 :
  mf_anchorHash m1 = mf_anchorHash m2 → mf_fromSequence m1 = mf_fromSequence m2 →
  mf_headHash m1 = mf_headHash m2 → 0 < mf_count m1 → 0 < mf_count m2 →
  verifyLedgerExport m1 b1 keys1 lost1 = Ok r1 → ok r1 = true →
  verifyLedgerExport m2 b2 keys2 lost2 = Ok r2 → ok r2 = true →
  ∃ rows1 rows2, parseNdjson num b1 = Ok rows1 ∧ parseNdjson num b2 = Ok rows2 ∧
    (committed <$> rows1 = committed <$> rows2 ∨ collision sha256) ∧
    (mf_bodySha256 m1 = mf_bodySha256 m2 → b1 = b2 ∨ collision sha256).
Proof.
  intros Ha Hs Hh N1 N2 V1 K1 V2 K2.
  destruct (export_ok_inv _ _ _ _ _ V1 K1) as (rows1 & P1 & J1 & L1 & D1 & C1 & H1).
  destruct (export_ok_inv _ _ _ _ _ V2 K2) as (rows2 & P2 & J2 & L2 & D2 & C2 & H2).
  exists rows1, rows2. split; [done|]. split; [done|]. rewrite <- Ha, <- Hs in *.
  assert (rows1 ≠ []) as E1 by (intros ->; simpl in *; lia).
  assert (rows2 ≠ []) as E2 by (intros ->; simpl in *; lia).
  assert (chain_head (mf_anchorHash m1) rows1 = chain_head (mf_anchorHash m1) rows2) as Hc
    by (rewrite H1, H2 by done; done).
  split.
  - destruct (same_head_same_length sha256 _ _ rows1 rows2 E1 E2 C1 C2 J1 J2 Hc) as [|Hl]; [by right|].
    destruct (same_head_same_commitments sha256 _ _ rows1 rows2 Hl C1 C2 J1 J2 Hc); tauto.
  - intros Hd. destruct (decide (b1 = b2)) as [|Hne]; [by left|]. right. exists b1, b2.
    split; [done|congruence].
Qed.
End evidence.

(** ** A concrete export *)

Definition toy_num (t : string) : string := "0".

Definition toy_world : world (σ := InMemoryLedgerStore) :=
  fresh {| ms_events := [event_json toy_1; event_json toy_2]; ms_checkpoints := [] |}.

Lemma toy_inv : inv_at toy_sha256 toy_hmac toy_cfg ["id-1"; "id-2"] [toy_1; toy_2] toy_world.
Proof.
  split; [|split; [reflexivity|split; [constructor|split; [done|by intros [? _]]]]].
  split; [|split; [|split; [by intros x Hx|unfold MAX_LEDGER_EVENTS; simpl; lia]]].
  - do 2 (apply event_chain_cons; do 5 (split; [reflexivity|]);
          eexists; split; [|split; [|split; [reflexivity|]]]; [unfold four_digit_time; lia|unfold time_zero; lia|]).
    done.
  - apply (bool_decide_unpack _). vm_compute. exact I.
Qed.

Definition toy_exported : world (σ := InMemoryLedgerStore) * result ledger_exn (LedgerExportManifest * string) :=
  export toy_sha256 toy_hmac toy_other toy_cfg (toy_env 6000 "u2" Succeed) (toy_env 6001 "u3" Succeed)
    toy_world (Some 2) None "auditor".

Definition toy_manifest : LedgerExportManifest :=
  export_manifest toy_sha256 (toy_env 6000 "u2" Succeed)
    (ensureLoaded toy_sha256 toy_hmac toy_other toy_cfg (toy_env 6000 "u2" Succeed) toy_world).1 2 2 "auditor"
    [event_json toy_2].

Definition toy_body : string := serializeNdjson [event_json toy_2].

Definition toy_verdict : LedgerVerificationReport :=
  match verifyLedgerExport toy_num toy_sha256 toy_hmac toy_other toy_manifest toy_body None [] with
  | Ok r => r
  | Err _ => toy_report [] no_options
  end.

Lemma export_verifies_offline_witness :
  ∃ r, verifyLedgerExport toy_num toy_sha256 toy_hmac toy_other toy_manifest toy_body None [] = Ok r ∧
       ok r = true ∧ checkedEvents r = mf_count toy_manifest.
Proof.
  apply (export_verifies_offline toy_num toy_sha256 toy_hmac toy_other toy_cfg ltac:(discriminate)
    (toy_env 6000 "u2" Succeed) (toy_env 6001 "u3" Succeed) ["id-1"; "id-2"] [toy_1; toy_2] toy_world
    (Some 2) None "auditor" toy_exported.1 toy_manifest toy_body None []).
  - exact toy_inv.
  - repeat constructor; vm_compute; reflexivity.
  - by right.
  - vm_compute. reflexivity.
Defined.

Lemma export_tamper_evident_witness :
  ∃ rows1 rows2, parseNdjson toy_num toy_body = Ok rows1 ∧ parseNdjson toy_num toy_body = Ok rows2 ∧
    (committed <$> rows1 = committed <$> rows2 ∨ collision toy_sha256).
Proof.
  assert (verifyLedgerExport toy_num toy_sha256 toy_hmac toy_other toy_manifest toy_body None [] = Ok toy_verdict) as Hv
    by (vm_compute; reflexivity).
  assert (ok toy_verdict = true) as Hok by (vm_compute; reflexivity).
  assert (0 < mf_count toy_manifest) as Hc by (vm_compute; reflexivity).
  destruct (export_tamper_evident toy_num ltac:(intros; reflexivity) toy_sha256 toy_hmac toy_other
    toy_manifest toy_manifest toy_body toy_body None None [] [] toy_verdict toy_verdict
    eq_refl eq_refl eq_refl Hc Hc Hv Hok Hv Hok) as (rows1 & rows2 & H1 & H2 & H3 & _).
  exists rows1, rows2. split; [exact H1|]. split; [exact H2|exact H3].
Defined.
