(* ===== verification/Fees.v ===== *)
(** * Fee calculation and the fee schedules

    Models [api/src/fees/fee-calculation.ts] (the whole calculation, in BigInt
    minor units) and [api/src/fees/fees.service.ts] (the named schedules and the
    preview).  The theorems show that a breakdown conserves the amount, that
    every line is the half-up rounding of its rate clamped to its bounds, when
    exactly the calculation is refused, and what the shipped schedules charge. *)
From S2P Require Import Prelude.

(** ** Data *)

Record FeeScheduleLine := {
  fsl_code : string;
  fsl_label : string;
  basisPoints : jsnum;
  minFeeMinorUnits : option Z;
  maxFeeMinorUnits : option Z;
}.

Inductive clamp := ClampMin | ClampMax.

Record FeeLineItem := {
  fli_code : string;
  fli_label : string;
  fli_basisPoints : jsnum;
  rawAmountMinorUnits : string;
  amountMinorUnits : string;
  clamped : option clamp;
}.

Record FeeBreakdown := {
  inputAmountMinorUnits : string;
  assetDecimals : jsnum;
  lines : list FeeLineItem;
  totalFeeMinorUnits : string;
  netAmountMinorUnits : string;
}.

(** One constructor per message the code throws. *)
Inductive InvalidFeeInputError :=
| AssetDecimalsInvalid (got : jsnum)
| AmountNotInteger (field got : string)
| AmountNegative (field : string) (got : Z)
| BasisPointsInvalid (code : string) (got : jsnum)
| DuplicateCode (code : string).

(** [bigint | string]. *)
Inductive amount_arg := AmountBigint (z : Z) | AmountString (s : string).

(** ** Operations *)

Definition MAX_ASSET_DECIMALS : Z := 18.

Definition int_in (lo hi : Z) (n : jsnum) : bool :=
  match n with NInt z => (lo <=? z) && (z <=? hi) | NOther _ => false end.

Definition assertValidAssetDecimals (d : jsnum) : result InvalidFeeInputError unit :=
  throw_if (negb (int_in 0 MAX_ASSET_DECIMALS d)) (AssetDecimalsInvalid d).

Definition parseAmount (amount : amount_arg) (field : string) : result InvalidFeeInputError Z :=
  value ← match amount with
          | AmountBigint z => Ok z
          | AmountString s =>
              match BigInt_of_string s with
              | Some z => Ok z
              | None => Err (AmountNotInteger field s)
              end
          end;
  _ ← throw_if (value <? 0) (AmountNegative field value);
  Ok value.

Definition assertValidBasisPoints (line : FeeScheduleLine) : result InvalidFeeInputError unit :=
  throw_if (negb (int_in 0 10000 (basisPoints line)))
    (BasisPointsInvalid (fsl_code line) (basisPoints line)).

(** BigInt division truncates toward zero: [Z.quot]. *)
Definition applyBasisPoints (amount bps : Z) : Z := Z.quot (amount * bps + 5000) 10000.

(** The clamping of one line: the amount charged and which bound changed it. *)
Definition clamp_line (line : FeeScheduleLine) (raw : Z) : Z * option clamp :=
  let '(charged, c) :=
    match minFeeMinorUnits line with
    | Some lo => if raw <? lo then (lo, Some ClampMin) else (raw, None)
    | None => (raw, None)
    end in
  match maxFeeMinorUnits line with
  | Some hi => if hi <? charged then (hi, Some ClampMax) else (charged, c)
  | None => (charged, c)
  end.

(** [BigInt(line.basisPoints)], reached only for a validated integer. *)
Definition bps_value (n : jsnum) : Z := match n with NInt z => z | NOther _ => 0 end.

(** The callback of [schedule.map]; [seenCodes] is the captured [Set]. *)
Definition fee_line (amount : Z) (seenCodes : gset string) (line : FeeScheduleLine) :
    result InvalidFeeInputError (gset string * FeeLineItem) :=
  _ ← assertValidBasisPoints line;
  _ ← throw_if (bool_decide (fsl_code line ∈ seenCodes)) (DuplicateCode (fsl_code line));
  let raw := applyBasisPoints amount (bps_value (basisPoints line)) in
  let '(charged, c) := clamp_line line raw in
  Ok ({[fsl_code line]} ∪ seenCodes,
      {| fli_code := fsl_code line;
         fli_label := fsl_label line;
         fli_basisPoints := basisPoints line;
         rawAmountMinorUnits := Z_to_string raw;
         amountMinorUnits := Z_to_string charged;
         clamped := c |}).

(** [lines.reduce((sum, line) => sum + BigInt(line.amountMinorUnits), 0n)]. *)
Definition line_amount (item : FeeLineItem) : Z :=
  default 0 (BigInt_of_string (amountMinorUnits item)).

Definition sum_lines (items : list FeeLineItem) : Z :=
  foldl (λ sum item, sum + line_amount item) 0 items.

Definition calculateFees (amountArg : amount_arg) (schedule : list FeeScheduleLine)
    (decimals : jsnum) : result InvalidFeeInputError FeeBreakdown :=
  _ ← assertValidAssetDecimals decimals;
  amount ← parseAmount amountArg "amountMinorUnits";
  '(_, items) ← map_st (fee_line amount) ∅ schedule;
  let totalFeeRaw := sum_lines items in
  let totalFee := if amount <? totalFeeRaw then amount else totalFeeRaw in
  let net := amount - totalFee in
  Ok {| inputAmountMinorUnits := Z_to_string amount;
        assetDecimals := decimals;
        lines := items;
        totalFeeMinorUnits := Z_to_string totalFee;
        netAmountMinorUnits := Z_to_string net |}.

(** ** The fee service *)

Inductive SupportedFeeAsset := USDC | XLM.
Inductive ScheduleName := Subscription | Redemption | Marketplace.

Definition ASSET_DECIMALS (a : SupportedFeeAsset) : Z :=
  match a with USDC => 7 | XLM => 7 end.

Definition FEE_SCHEDULES (n : ScheduleName) : list FeeScheduleLine :=
  match n with
  | Subscription =>
      [ {| fsl_code := "platformFee"; fsl_label := "Platform fee"; basisPoints := NInt 50;
           minFeeMinorUnits := None; maxFeeMinorUnits := None |};
        {| fsl_code := "custodyFee"; fsl_label := "Custody & reporting fee";
           basisPoints := NInt 10;
           minFeeMinorUnits := Some 10000; maxFeeMinorUnits := None |} ]
  | Redemption =>
      [ {| fsl_code := "platformFee"; fsl_label := "Platform fee"; basisPoints := NInt 25;
           minFeeMinorUnits := None; maxFeeMinorUnits := None |} ]
  | Marketplace =>
      [ {| fsl_code := "platformFee"; fsl_label := "Platform fee"; basisPoints := NInt 75;
           minFeeMinorUnits := None; maxFeeMinorUnits := None |};
        {| fsl_code := "marketplaceFee"; fsl_label := "Marketplace matching fee";
           basisPoints := NInt 20;
           minFeeMinorUnits := None; maxFeeMinorUnits := Some 5000000 |} ]
  end.

Definition getSchedule (n : option ScheduleName) : list FeeScheduleLine :=
  FEE_SCHEDULES (default Subscription n).

Definition getAssetDecimals (a : SupportedFeeAsset) : jsnum := NInt (ASSET_DECIMALS a).

Definition preview (amount : string) (asset : SupportedFeeAsset) (n : option ScheduleName) :
    result InvalidFeeInputError FeeBreakdown :=
  calculateFees (AmountString amount) (getSchedule n) (getAssetDecimals asset).

(** ** Specification *)

(** What the calculation requires of one schedule line. *)
Definition line_ok (line : FeeScheduleLine) : Prop :=
  ∃ b, basisPoints line = NInt b ∧ 0 ≤ b ≤ 10000.

(** A configured cap is not negative. *)
Definition caps_nonneg (line : FeeScheduleLine) : Prop :=
  match maxFeeMinorUnits line with Some hi => 0 ≤ hi | None => True end.

(** The amount a line charges: half-up rounding of the rate, raised to the
    floor, then cut to the ceiling. *)
Definition spec_charge (amount : Z) (line : FeeScheduleLine) : Z :=
  let raw := (amount * bps_value (basisPoints line) + 5000) / 10000 in
  let floored := match minFeeMinorUnits line with Some lo => Z.max lo raw | None => raw end in
  match maxFeeMinorUnits line with Some hi => Z.min hi floored | None => floored end.

(** The amount text denotes. *)
Definition amount_value (a : amount_arg) : option Z :=
  match a with AmountBigint z => Some z | AmountString s => BigInt_of_string s end.

Definition spec_clamp (amount : Z) (line : FeeScheduleLine) : option clamp :=
  snd (clamp_line line (applyBasisPoints amount (bps_value (basisPoints line)))).

Definition spec_item (amount : Z) (line : FeeScheduleLine) : FeeLineItem :=
  {| fli_code := fsl_code line;
     fli_label := fsl_label line;
     fli_basisPoints := basisPoints line;
     rawAmountMinorUnits :=
       Z_to_string ((amount * bps_value (basisPoints line) + 5000) / 10000);
     amountMinorUnits := Z_to_string (spec_charge amount line);
     clamped := spec_clamp amount line |}.

(** The breakdown as a closed formula, with no state and no text parsing. *)
Definition spec_breakdown (amount : Z) (schedule : list FeeScheduleLine) (d : jsnum) :
    FeeBreakdown :=
  let total := Z.min amount (zsum (spec_charge amount <$> schedule)) in
  {| inputAmountMinorUnits := Z_to_string amount;
     assetDecimals := d;
     lines := spec_item amount <$> schedule;
     totalFeeMinorUnits := Z_to_string total;
     netAmountMinorUnits := Z_to_string (amount - total) |}.

(** ** Lemmas *)

Lemma int_in_spec lo hi n : int_in lo hi n = true ↔ ∃ z, n = NInt z ∧ lo ≤ z ≤ hi.
Proof. destruct n as [z|]; simpl; [rewrite andb_true_iff, !Z.leb_le|]; naive_solver. Qed.

Lemma line_ok_int_in line : int_in 0 10000 (basisPoints line) = true ↔ line_ok line.
Proof. apply int_in_spec. Qed.

Lemma applyBasisPoints_div amount b :
  0 ≤ amount → 0 ≤ b → applyBasisPoints amount b = (amount * b + 5000) / 10000.
Proof. intros. unfold applyBasisPoints. apply Z.quot_div_nonneg; nia. Qed.

Lemma bps_value_nonneg line : line_ok line → 0 ≤ bps_value (basisPoints line).
Proof. intros (b & -> & ?). simpl. lia. Qed.

Lemma clamp_line_charge amount line :
  0 ≤ amount → line_ok line →
  fst (clamp_line line (applyBasisPoints amount (bps_value (basisPoints line)))) =
  spec_charge amount line.
Proof.
  intros Ha Hl. rewrite applyBasisPoints_div by auto using bps_value_nonneg.
  unfold clamp_line, spec_charge.
  set (raw := (_ + _) / _). generalize raw. intros r.
  destruct (minFeeMinorUnits line) as [lo|], (maxFeeMinorUnits line) as [hi|]; simpl;
    repeat match goal with
    | |- context [?x <? ?y] => destruct (Z.ltb_spec x y); simpl
    end; lia.
Qed.

Lemma fee_line_ok amount seen line r :
  0 ≤ amount →
  fee_line amount seen line = Ok r ↔
  line_ok line ∧ fsl_code line ∉ seen ∧
  r = ({[fsl_code line]} ∪ seen, spec_item amount line).
Proof.
  intros Ha. unfold fee_line, assertValidBasisPoints.
  rewrite <- line_ok_int_in. destruct (int_in 0 10000 (basisPoints line)) eqn:Hi; simpl;
    [|naive_solver].
  apply line_ok_int_in in Hi. case_bool_decide; simpl; [naive_solver|].
  pose proof (clamp_line_charge amount line Ha Hi) as Hc.
  unfold spec_item, spec_clamp.
  rewrite <- applyBasisPoints_div by auto using bps_value_nonneg.
  destruct (clamp_line _ _) as [charged c]; simpl in *. subst. naive_solver.
Qed.

Lemma map_fee_line_ok amount schedule seen s items :
  0 ≤ amount →
  map_st (fee_line amount) seen schedule = Ok (s, items) ↔
  Forall line_ok schedule ∧ NoDup (fsl_code <$> schedule) ∧
  (∀ c, c ∈ fsl_code <$> schedule → c ∉ seen) ∧
  s = list_to_set (fsl_code <$> schedule) ∪ seen ∧ items = spec_item amount <$> schedule.
Proof.
  intros Ha. revert seen s items. induction schedule as [|line schedule IH];
    intros seen s items.
  { rewrite map_st_nil. rewrite Forall_nil, fmap_nil, NoDup_nil. split.
    - intros [= -> ->]. repeat split; try done; [set_solver|simpl; set_solver].
    - intros (_ & _ & _ & -> & ->). f_equal. simpl. set_solver. }
  rewrite map_st_cons, Forall_cons, !fmap_cons, NoDup_cons.
  setoid_rewrite (fee_line_ok _ _ _ _ Ha). setoid_rewrite IH. split.
  - intros (s1 & y & ys & (Hl & Hn & [= -> ->]) & (Hf & Hnd & Hs & -> & ->) & ->).
    repeat split; try done; [|set_solver|simpl; set_solver].
    intros Hin. specialize (Hs _ Hin). set_solver.
  - intros ((Hl & Hf) & (Hnin & Hnd) & Hs & -> & ->).
    exists ({[fsl_code line]} ∪ seen), (spec_item amount line), (spec_item amount <$> schedule).
    repeat split; try done; [set_solver| |simpl; set_solver].
    intros c Hc. apply not_elem_of_union. split; [|set_solver].
    intros ->%elem_of_singleton. done.
Qed.

Lemma line_amount_spec amount line :
  line_amount (spec_item amount line) = spec_charge amount line.
Proof. unfold line_amount. simpl. by rewrite BigInt_of_Z_to_string. Qed.

Lemma sum_lines_spec amount schedule :
  sum_lines (spec_item amount <$> schedule) = zsum (spec_charge amount <$> schedule).
Proof.
  unfold sum_lines. enough (∀ acc,
    foldl (λ sum item, sum + line_amount item) acc (spec_item amount <$> schedule) =
    acc + zsum (spec_charge amount <$> schedule)) as H by (rewrite H; lia).
  induction schedule as [|l schedule IH]; intros acc; [cbn; lia|].
  rewrite !fmap_cons. cbn [foldl]. rewrite IH, line_amount_spec.
  unfold zsum. cbn [foldr]. lia.
Qed.

Lemma parseAmount_ok a field z :
  parseAmount a field = Ok z ↔ amount_value a = Some z ∧ 0 ≤ z.
Proof.
  unfold parseAmount. destruct a as [v|t]; simpl; [|destruct (BigInt_of_string t) as [v|]; simpl];
    try (destruct (Z.ltb_spec v 0); simpl); naive_solver lia.
Qed.

Lemma spec_charge_nonneg amount line :
  0 ≤ amount → line_ok line → caps_nonneg line → 0 ≤ spec_charge amount line.
Proof.
  intros Ha Hl Hc. pose proof (bps_value_nonneg line Hl) as Hb.
  assert (0 ≤ (amount * bps_value (basisPoints line) + 5000) / 10000)
    by (apply Z.div_pos; nia).
  unfold spec_charge, caps_nonneg in *.
  destruct (minFeeMinorUnits line), (maxFeeMinorUnits line); lia.
Qed.

Lemma sum_charges_nonneg amount schedule :
  0 ≤ amount → Forall line_ok schedule → Forall caps_nonneg schedule →
  0 ≤ zsum (spec_charge amount <$> schedule).
Proof.
  intros Ha Hl Hc. unfold zsum.
  induction schedule as [|l schedule IH]; [cbn; lia|].
  apply Forall_cons in Hl as [? ?], Hc as [? ?]. rewrite fmap_cons. cbn [foldr].
  pose proof (spec_charge_nonneg amount l). intuition lia.
Qed.

Lemma calculateFees_refines_aux a schedule d b :
  calculateFees a schedule d = Ok b ↔
  (∃ n, d = NInt n ∧ 0 ≤ n ≤ MAX_ASSET_DECIMALS) ∧
  ∃ amount, amount_value a = Some amount ∧ 0 ≤ amount ∧
    Forall line_ok schedule ∧ NoDup (fsl_code <$> schedule) ∧
    b = spec_breakdown amount schedule d.
Proof.
  unfold calculateFees, assertValidAssetDecimals. rewrite <- int_in_spec.
  destruct (int_in 0 MAX_ASSET_DECIMALS d); simpl; [|naive_solver].
  rewrite bind_ok. setoid_rewrite parseAmount_ok. setoid_rewrite bind_ok. split.
  - intros (amount & (Hv & Ha) & [s items] & Hm & Hr).
    apply map_fee_line_ok in Hm as (? & ? & _ & _ & ->); [|done].
    split; [done|]. exists amount. repeat split; try done.
    injection Hr as <-. unfold spec_breakdown. rewrite sum_lines_spec.
    destruct (Z.ltb_spec amount (zsum (spec_charge amount <$> schedule))).
    + by rewrite Z.min_l by lia.
    + by rewrite Z.min_r by lia.
  - intros (_ & amount & Hv & Ha & Hl & Hn & ->). exists amount. split; [done|].
    exists (list_to_set (fsl_code <$> schedule) ∪ ∅, spec_item amount <$> schedule). split.
    { apply map_fee_line_ok; [done|]. repeat split; done. }
    unfold spec_breakdown. rewrite sum_lines_spec.
    destruct (Z.ltb_spec amount (zsum (spec_charge amount <$> schedule))).
    + by rewrite Z.min_l by lia.
    + by rewrite Z.min_r by lia.
Qed.

(** ** Properties *)

(** C9: [calculateFees] returns a breakdown exactly when the decimals are an
    integer in [0, 18], the amount is a non-negative integer, every rate is an
    integer in [0, 10000] and the codes are distinct; the breakdown is then the
    closed formula [spec_breakdown]: every line charged at the half-up rounded
    rate raised to its floor and cut to its ceiling, and the total the sum of
    the lines cut to the amount. *)
Theorem calculateFees_refines_spec a schedule d b :
  calculateFees a schedule d = Ok b ↔
  (∃ n, d = NInt n ∧ 0 ≤ n ≤ MAX_ASSET_DECIMALS) ∧
  ∃ amount, amount_value a = Some amount ∧ 0 ≤ amount ∧
    Forall line_ok schedule ∧ NoDup (fsl_code <$> schedule) ∧
    b = spec_breakdown amount schedule d.
Proof. apply calculateFees_refines_aux. Qed.

(** C38: no fee schedule with non-negative caps can take more than the amount or
    pay anything out: the total and the net are non-negative, add up to the
    amount, and are what [BigInt] reads back from the reported text. *)
Theorem fees_conserve_amount a schedule d b :
  calculateFees a schedule d = Ok b →
  Forall caps_nonneg schedule →
  ∃ amount total net,
    amount_value a = Some amount ∧
    BigInt_of_string (inputAmountMinorUnits b) = Some amount ∧
    BigInt_of_string (totalFeeMinorUnits b) = Some total ∧
    BigInt_of_string (netAmountMinorUnits b) = Some net ∧
    0 ≤ total ≤ amount ∧ 0 ≤ net ∧ total + net = amount.
Proof.
  intros (_ & amount & Hv & Ha & Hl & _ & ->)%calculateFees_refines_aux Hc.
  pose proof (sum_charges_nonneg amount schedule Ha Hl Hc).
  exists amount, (Z.min amount (zsum (spec_charge amount <$> schedule))),
    (amount - Z.min amount (zsum (spec_charge amount <$> schedule))).
  unfold spec_breakdown; simpl. rewrite !BigInt_of_Z_to_string. repeat split; try done; lia.
Qed.

Lemma fees_conserve_amount_witness :
  ∃ b, calculateFees (AmountString "1000000") (FEE_SCHEDULES Marketplace) (NInt 7) = Ok b ∧
  ∃ amount total net, amount_value (AmountString "1000000") = Some amount ∧
    BigInt_of_string (inputAmountMinorUnits b) = Some amount ∧
    BigInt_of_string (totalFeeMinorUnits b) = Some total ∧
    BigInt_of_string (netAmountMinorUnits b) = Some net ∧
    0 ≤ total ≤ amount ∧ 0 ≤ net ∧ total + net = amount.
Proof.
  eexists. split; [reflexivity|].
  apply (fees_conserve_amount _ (FEE_SCHEDULES Marketplace) (NInt 7)); [reflexivity|].
  repeat constructor. vm_compute. discriminate.
Defined.

(** The raw charge of a line is the nearest integer to the exact rate
    [amount * bps / 10000], ties rounded up, and never more than the amount. *)
Lemma applyBasisPoints_nearest amount b :
  0 ≤ amount → 0 ≤ b ≤ 10000 →
  let raw := applyBasisPoints amount b in
  2 * Z.abs (10000 * raw - amount * b) ≤ 10000 ∧
  (2 * (10000 * raw - amount * b) = -10000 → False) ∧ 0 ≤ raw ≤ amount.
Proof.
  intros Ha Hb raw. unfold raw. rewrite applyBasisPoints_div by lia.
  pose proof (Z.div_mod (amount * b + 5000) 10000 ltac:(lia)).
  pose proof (Z.mod_pos_bound (amount * b + 5000) 10000 ltac:(lia)).
  assert (0 ≤ amount * b ≤ amount * 10000) by nia. lia.
Qed.

(** The shipped schedules are valid, so a preview succeeds for every
    non-negative integer amount, and on at most 10000 minor units the
    subscription schedule leaves the investor nothing, the custody floor being
    cut to the whole amount. *)
Lemma preview_total asset n amount :
  0 ≤ amount →
  preview (Z_to_string amount) asset n =
    Ok (spec_breakdown amount (getSchedule n) (getAssetDecimals asset)) ∧
  (getSchedule n = FEE_SCHEDULES Subscription → amount ≤ 10000 →
   netAmountMinorUnits (spec_breakdown amount (getSchedule n) (getAssetDecimals asset)) = "0").
Proof.
  intros Ha. split.
  - apply calculateFees_refines_aux. split; [by destruct asset; eexists|].
    exists amount. simpl. rewrite BigInt_of_Z_to_string. repeat split; try done.
    + destruct n as [[]|]; repeat constructor; eexists; split; try reflexivity; lia.
    + destruct n as [[]|]; simpl; apply (bool_decide_unpack _); vm_compute; exact I.
  - intros -> Hle. unfold spec_breakdown, zsum, spec_charge. simpl.
    assert (0 ≤ (amount * 50 + 5000) / 10000) by (apply Z.div_pos; lia).
    rewrite Z.min_l by lia. by rewrite Z.sub_diag.
Qed.

(** The total is documented as the sum of the lines, but it is cut to the
    amount: on a zero amount the custody line still reports 10000. *)
Lemma total_is_not_sum_of_lines :
  ∃ b, preview "0" USDC None = Ok b ∧ totalFeeMinorUnits b = "0" ∧ sum_lines (lines b) = 10000.
Proof. eexists. split; [reflexivity|]. split; reflexivity. Qed.

(** A negative cap is accepted and makes the fee a payment to the payer. *)
Lemma negative_cap_pays_out :
  ∃ b, calculateFees (AmountBigint 100)
         [ {| fsl_code := "x"; fsl_label := "x"; basisPoints := NInt 0;
              minFeeMinorUnits := None; maxFeeMinorUnits := Some (-5) |} ] (NInt 7) = Ok b ∧
       netAmountMinorUnits b = "105".
Proof. eexists. split; reflexivity. Qed.
