(* ===== verification/StateMachines.v ===== *)
(** * Bond, coupon and settlement life cycles

    Models [api/src/bonds/bond.state-machine.ts]: the transition tables of the
    three machines, the transition functions with their exception, the queries
    and the transition history of the bond machine.  A machine is an instance of
    the class [Machine] (its table and its terminal set); the laws the shared
    results need are the class [MachineLaws], discharged by each table. *)
From S2P Require Import Prelude.

(** ** The three machines' data *)

Inductive BondState :=
| DRAFT | ISSUED | ACTIVE | SUSPENDED | DEFAULTED | RESTRUCTURED
| MATURED | CANCELLED | LIQUIDATED.

Inductive BondEvent :=
| PUBLISH | CANCEL | FUND | SUSPEND | RESUME | MISS_PAYMENT
| CURE_DEFAULT | RESTRUCTURE | LIQUIDATE | REPAY_FULL.

Inductive CouponState :=
| SCHEDULED | ORACLE_VERIFYING | VERIFIED | DISTRIBUTING | DISTRIBUTED
| CHALLENGED | RECONCILED | FAILED.

Inductive CouponEvent :=
| TRIGGER_VERIFICATION | CONFIRM_ORACLE | START_DISTRIBUTION | COMPLETE_DISTRIBUTION
| CHALLENGE | RESOLVE_CHALLENGE | FAIL | RETRY.

Inductive SettlementState :=
| PROPOSED | ESCROW_LOCKED | SETTLING | SETTLED | DISPUTED | REVERSED.

Inductive SettlementEvent :=
| LOCK_ESCROW | CANCEL_ORDER | EXECUTE_SETTLEMENT | CONFIRM_RECEIPT
| DISPUTE | RESOLVE_ROLLBACK.

#[export] Instance BondState_eq_dec : EqDecision BondState.
Proof. solve_decision. Defined.
#[export] Instance BondEvent_eq_dec : EqDecision BondEvent.
Proof. solve_decision. Defined.
#[export] Instance CouponState_eq_dec : EqDecision CouponState.
Proof. solve_decision. Defined.
#[export] Instance CouponEvent_eq_dec : EqDecision CouponEvent.
Proof. solve_decision. Defined.
#[export] Instance SettlementState_eq_dec : EqDecision SettlementState.
Proof. solve_decision. Defined.
#[export] Instance SettlementEvent_eq_dec : EqDecision SettlementEvent.
Proof. solve_decision. Defined.

Definition bond_transitions (s : BondState) : list (BondEvent * BondState) :=
  match s with
  | DRAFT => [(PUBLISH, ISSUED); (CANCEL, CANCELLED)]
  | ISSUED => [(FUND, ACTIVE); (CANCEL, CANCELLED)]
  | ACTIVE => [(SUSPEND, SUSPENDED); (MISS_PAYMENT, DEFAULTED); (REPAY_FULL, MATURED)]
  | SUSPENDED => [(RESUME, ACTIVE); (MISS_PAYMENT, DEFAULTED)]
  | DEFAULTED => [(CURE_DEFAULT, ACTIVE); (RESTRUCTURE, RESTRUCTURED); (LIQUIDATE, LIQUIDATED)]
  | RESTRUCTURED => [(RESUME, ACTIVE); (REPAY_FULL, MATURED); (MISS_PAYMENT, DEFAULTED)]
  | MATURED => []
  | CANCELLED => []
  | LIQUIDATED => []
  end.

Definition bond_terminalStates : list BondState := [MATURED; CANCELLED; LIQUIDATED].

Definition coupon_transitions (s : CouponState) : list (CouponEvent * CouponState) :=
  match s with
  | SCHEDULED => [(TRIGGER_VERIFICATION, ORACLE_VERIFYING); (FAIL, FAILED)]
  | ORACLE_VERIFYING => [(CONFIRM_ORACLE, VERIFIED); (CHALLENGE, CHALLENGED); (FAIL, FAILED)]
  | VERIFIED => [(START_DISTRIBUTION, DISTRIBUTING); (CHALLENGE, CHALLENGED)]
  | DISTRIBUTING => [(COMPLETE_DISTRIBUTION, DISTRIBUTED); (FAIL, FAILED)]
  | CHALLENGED => [(RESOLVE_CHALLENGE, RECONCILED); (FAIL, FAILED)]
  | RECONCILED => [(START_DISTRIBUTION, DISTRIBUTING)]
  | FAILED => [(RETRY, SCHEDULED)]
  | DISTRIBUTED => []
  end.

Definition coupon_terminalStates : list CouponState := [DISTRIBUTED].

Definition settlement_transitions (s : SettlementState) :
    list (SettlementEvent * SettlementState) :=
  match s with
  | PROPOSED => [(LOCK_ESCROW, ESCROW_LOCKED); (CANCEL_ORDER, REVERSED)]
  | ESCROW_LOCKED => [(EXECUTE_SETTLEMENT, SETTLING); (CANCEL_ORDER, REVERSED)]
  | SETTLING => [(CONFIRM_RECEIPT, SETTLED); (DISPUTE, DISPUTED)]
  | DISPUTED => [(RESOLVE_ROLLBACK, REVERSED); (CONFIRM_RECEIPT, SETTLED)]
  | SETTLED => []
  | REVERSED => []
  end.

Definition settlement_terminalStates : list SettlementState := [SETTLED; REVERSED].

(** ** The machine interface *)

Class Machine (S E : Type) := {
  transitions : S → list (E * S);
  terminalStates : list S;
}.

(** The payload of [InvalidStateTransitionException]. *)
Record InvalidStateTransition (S E : Type) := {
  fromState : S;
  byEvent : E;
  allowedEvents : list E;
  wasTerminal : bool;
}.
Arguments fromState {S E} _.
Arguments byEvent {S E} _.
Arguments allowedEvents {S E} _.
Arguments wasTerminal {S E} _.

Section machine.
Context {S E : Type} `{EqDecision S, EqDecision E} `{M : Machine S E}.

(** [transitions[state][event]]. *)
Fixpoint assoc (e : E) (l : list (E * S)) : option S :=
  match l with
  | [] => None
  | (e', s) :: l => if decide (e = e') then Some s else assoc e l
  end.

Definition isTerminal (s : S) : bool := bool_decide (s ∈ terminalStates).

Definition getAllowedEvents (s : S) : list E := (transitions s).*1.

Definition canTransition (s : S) (e : E) : bool :=
  match assoc e (transitions s) with Some _ => true | None => false end.

Definition transition (s : S) (e : E) : result (InvalidStateTransition S E) S :=
  match assoc e (transitions s) with
  | Some next => Ok next
  | None => Err {| fromState := s; byEvent := e;
                   allowedEvents := getAllowedEvents s; wasTerminal := isTerminal s |}
  end.

(** A sequence of events fed to the machine, stopping at the first refusal. *)
Fixpoint run (s : S) (es : list E) : result (InvalidStateTransition S E) S :=
  match es with
  | [] => Ok s
  | e :: es => s' ← transition s e; run s' es
  end.

(** The step relation and the traces it generates. *)
Inductive trace (s0 : S) : list E → S → Prop :=
| trace_nil : trace s0 [] s0
| trace_snoc es s e s' : trace s0 es s → transition s e = Ok s' → trace s0 (es ++ [e]) s'.
End machine.

(** What the shared theorems need of a table. *)
Class MachineLaws (S E : Type) `{EqDecision S, EqDecision E, Machine S E} := {
  events_distinct s : NoDup (transitions s).*1;
  terminal_iff_stuck s : s ∈ terminalStates ↔ transitions s = [];
}.

#[export] Instance BondMachine : Machine BondState BondEvent :=
  {| transitions := bond_transitions; terminalStates := bond_terminalStates |}.
#[export] Instance CouponMachine : Machine CouponState CouponEvent :=
  {| transitions := coupon_transitions; terminalStates := coupon_terminalStates |}.
#[export] Instance SettlementMachine : Machine SettlementState SettlementEvent :=
  {| transitions := settlement_transitions; terminalStates := settlement_terminalStates |}.

(** ** The bond machine's history *)

Record TransitionRecord := {
  timestamp : Z;
  rec_fromState : BondState;
  rec_toState : BondState;
  rec_event : BondEvent;
  rec_actor : option string;
  rec_reason : option string;
}.

(** [BondStateMachine.transition]: [now] is [new Date()], [history] the private
    array, returned after the call whether it throws or not. *)
Definition bond_transition (history : list TransitionRecord) (now : Z)
    (currentState : BondState) (event : BondEvent) (actor reason : option string) :
    list TransitionRecord * result (InvalidStateTransition BondState BondEvent) BondState :=
  match transition currentState event with
  | Err e => (history, Err e)
  | Ok nextState =>
      (history ++ [ {| timestamp := now; rec_fromState := currentState;
                       rec_toState := nextState; rec_event := event;
                       rec_actor := actor; rec_reason := reason |} ],
       Ok nextState)
  end.

Definition getHistory (history : list TransitionRecord) : list TransitionRecord := history.
Definition clearHistory (history : list TransitionRecord) : list TransitionRecord := [].

(** One bond driven through a list of calls, the refused ones ignored by the
    caller, which keeps the state it had. *)
Fixpoint drive (history : list TransitionRecord) (s : BondState)
    (calls : list (Z * BondEvent * option string * option string)) :
    list TransitionRecord * BondState :=
  match calls with
  | [] => (history, s)
  | (now, e, actor, reason) :: calls =>
      match bond_transition history now s e actor reason with
      | (h, Ok s') => drive h s' calls
      | (h, Err _) => drive h s calls
      end
  end.

(** Each record of a history leads from the state the previous one reached. *)
Fixpoint linked (s : BondState) (h : list TransitionRecord) : option BondState :=
  match h with
  | [] => Some s
  | r :: h =>
      if decide (rec_fromState r = s ∧
                 assoc (rec_event r) (bond_transitions s) = Some (rec_toState r))
      then linked (rec_toState r) h else None
  end.

(** Whether a coupon has been verified, or its challenge resolved, since the
    last time it entered verification. *)
Definition verified_step (v : bool) (e : CouponEvent) : bool :=
  match e with
  | CONFIRM_ORACLE | RESOLVE_CHALLENGE => true
  | TRIGGER_VERIFICATION => false
  | _ => v
  end.
Definition verified_since (es : list CouponEvent) : bool := foldl verified_step false es.

(** ** The laws of the three tables *)

Ltac table_laws :=
  split;
  [ intros []; apply (bool_decide_unpack _); vm_compute; exact I
  | intros s; unfold terminalStates, transitions, BondMachine, CouponMachine,
      SettlementMachine, bond_terminalStates, coupon_terminalStates,
      settlement_terminalStates;
    rewrite !elem_of_cons, elem_of_nil; destruct s; simpl; naive_solver ].

#[export] Instance BondLaws : MachineLaws BondState BondEvent.
Proof. table_laws. Qed.
#[export] Instance CouponLaws : MachineLaws CouponState CouponEvent.
Proof. table_laws. Qed.
#[export] Instance SettlementLaws : MachineLaws SettlementState SettlementEvent.
Proof. table_laws. Qed.

(** ** Lemmas *)

Section machine_lemmas.
Context {S E : Type} `{EqDecision S, EqDecision E} `{M : Machine S E}.

Lemma assoc_elem e (l : list (E * S)) s : assoc e l = Some s → (e, s) ∈ l.
Proof.
  induction l as [|[e' s'] l IH]; simpl; [done|].
  case_decide; intros; simplify_eq; set_solver.
Qed.

Lemma assoc_None e (l : list (E * S)) : assoc e l = None ↔ e ∉ l.*1.
Proof.
  induction l as [|[e' s'] l IH]; simpl; [set_solver|].
  case_decide; simplify_eq; [|rewrite IH]; set_solver.
Qed.

Lemma assoc_Some e (l : list (E * S)) s :
  NoDup l.*1 → assoc e l = Some s ↔ (e, s) ∈ l.
Proof.
  intros Hnd. split; [apply assoc_elem|].
  induction l as [|[e' s'] l IH]; [by intros ?%elem_of_nil|].
  apply NoDup_cons in Hnd as [Hnin Hnd]. simpl in *.
  rewrite elem_of_cons. intros [[= -> ->]|Hin]; [by rewrite decide_True|].
  rewrite decide_False; [auto|]. intros ->. apply Hnin.
  apply list_elem_of_fmap. by exists (e', s).
Qed.

Lemma transition_Ok s e s' : transition s e = Ok s' ↔ assoc e (transitions s) = Some s'.
Proof. unfold transition. destruct (assoc e (transitions s)); naive_solver. Qed.

Lemma run_app s es1 es2 :
  run s (es1 ++ es2) = (s' ← run s es1; run s' es2).
Proof.
  revert s. induction es1 as [|e es1 IH]; intros s; simpl; [done|].
  destruct (transition s e); simpl; [apply IH|done].
Qed.

Lemma trace_run s es s' : trace s es s' ↔ run s es = Ok s'.
Proof.
  split.
  - induction 1 as [|es s1 e s2 _ IH Ht]; [done|].
    rewrite run_app, IH. simpl. by rewrite Ht.
  - revert s'. induction es as [|e es IH] using rev_ind; intros s'.
    { simpl. intros [= ->]. constructor. }
    rewrite run_app. intros (s1 & Hs1 & Ht)%bind_ok. simpl in Ht.
    apply bind_ok in Ht as (s2 & Ht & [= ->]). econstructor; eauto.
Qed.
End machine_lemmas.

Create HintDb machines.
#[export] Hint Constructors trace : machines.

(** Take one step backwards in a table: [transition s e = Ok s'] with all three
    the constructors of a finite machine. *)
Ltac table_step H :=
  match type of H with
  | transition ?s ?e = Ok ?s' =>
      destruct s, e; vm_compute in H; try discriminate H; injection H as <-
  end.

Lemma coupon_verified_inv es s :
  trace SCHEDULED es s →
  s ∈ [VERIFIED; RECONCILED; DISTRIBUTING; DISTRIBUTED] → verified_since es = true.
Proof.
  unfold verified_since.
  induction 1 as [|es s e s' _ IH Ht]; [set_solver|].
  rewrite foldl_app. simpl. table_step Ht; set_solver.
Qed.

Lemma settlement_steps_inv es s :
  trace PROPOSED es s →
  (s ∈ [ESCROW_LOCKED; SETTLING; DISPUTED; SETTLED] → LOCK_ESCROW ∈ es) ∧
  (s ∈ [SETTLING; DISPUTED; SETTLED] → EXECUTE_SETTLEMENT ∈ es) ∧
  (s = SETTLED → CONFIRM_RECEIPT ∈ es) ∧
  (s = SETTLED → CANCEL_ORDER ∉ es ∧ RESOLVE_ROLLBACK ∉ es) ∧
  (s ≠ REVERSED → CANCEL_ORDER ∉ es ∧ RESOLVE_ROLLBACK ∉ es).
Proof.
  induction 1 as [|es s e s' _ IH Ht]; [set_solver|].
  table_step Ht; set_solver.
Qed.

Lemma linked_app s h1 h2 : linked s (h1 ++ h2) = (s' ← linked s h1; linked s' h2).
Proof.
  revert s. induction h1 as [|r h1 IH]; intros s; simpl; [done|].
  case_decide; [apply IH|done].
Qed.

Lemma drive_linked calls h0 s0 h s :
  linked s0 h = Some s →
  ∃ h', drive (h0 ++ h) s calls = (h0 ++ h ++ h', snd (drive (h0 ++ h) s calls)) ∧
        linked s0 (h ++ h') = Some (snd (drive (h0 ++ h) s calls)).
Proof.
  revert h s. induction calls as [|[[[now e] a] r] calls IH]; intros h s Hl; simpl.
  { exists []. rewrite !app_nil_r. done. }
  unfold bond_transition. destruct (transition s e) as [s'|] eqn:Ht; [|eauto].
  set (rec := {| timestamp := now |}).
  rewrite <- app_assoc.
  destruct (IH (h ++ [rec]) s') as (h' & Hd & Hk).
  { rewrite linked_app, Hl. simpl. apply transition_Ok in Ht. rewrite decide_True; done. }
  exists (rec :: h'). rewrite <- app_assoc in Hd, Hk. simpl in *. split; [|done].
  rewrite app_assoc in Hd |- *. done.
Qed.

(** ** Properties *)

(** A transition succeeds exactly on the entries of the table, and a
    refusal reports the table's events for that state and the terminal flag,
    which is set exactly when there are none. *)
Lemma transition_complete {S E} `{MachineLaws S E} (s : S) (e : E) :
  (∀ s', transition s e = Ok s' ↔ (e, s') ∈ transitions s) ∧
  (∀ err, transition s e = Err err →
     fromState err = s ∧ byEvent err = e ∧ allowedEvents err = getAllowedEvents s ∧
     e ∉ allowedEvents err ∧ (wasTerminal err = true ↔ allowedEvents err = [])) ∧
  canTransition s e = bool_decide (e ∈ getAllowedEvents s).
Proof.
  split; [|split].
  - intros s'. rewrite transition_Ok. apply assoc_Some, events_distinct.
  - intros err. unfold transition. destruct (assoc e (transitions s)) eqn:Ha; [done|].
    intros [= <-]. simpl. repeat split; try done; [by apply assoc_None|..];
      unfold isTerminal; rewrite bool_decide_eq_true, terminal_iff_stuck;
      unfold getAllowedEvents; destruct (transitions s); done.
  - unfold canTransition. destruct (assoc e (transitions s)) eqn:Ha; symmetry.
    + apply bool_decide_eq_true. apply assoc_elem in Ha.
      apply list_elem_of_fmap. by exists (e, s0).
    + by apply bool_decide_eq_false, assoc_None.
Qed.

(** A terminal state is final: every non-empty sequence of events is
    refused, at its first event, with the terminal flag set. *)
Lemma terminal_absorbing {S E} `{MachineLaws S E} (s : S) (e : E) es :
  isTerminal s = true →
  ∃ err, run s (e :: es) = Err err ∧ fromState err = s ∧ wasTerminal err = true.
Proof.
  intros Ht. pose proof Ht as Hs. unfold isTerminal in Hs.
  apply bool_decide_eq_true, terminal_iff_stuck in Hs. simpl. unfold transition.
  rewrite Hs. simpl. eexists. split; [reflexivity|]. by rewrite Ht.
Qed.

(** No life cycle can get stuck: from every state of each machine some
    sequence of at most five events reaches a terminal state. *)
Theorem machines_can_finish :
  (∀ s : BondState, ∃ es s', run s es = Ok s' ∧ isTerminal s' = true ∧ (length es ≤ 4)%nat) ∧
  (∀ s : CouponState, ∃ es s', run s es = Ok s' ∧ isTerminal s' = true ∧ (length es ≤ 5)%nat) ∧
  (∀ s : SettlementState, ∃ es s',
     run s es = Ok s' ∧ isTerminal s' = true ∧ (length es ≤ 2)%nat).
Proof.
  split; [|split].
  - intros s. exists (match s with
      | DRAFT => [CANCEL] | ISSUED => [CANCEL] | ACTIVE => [REPAY_FULL]
      | SUSPENDED => [RESUME; REPAY_FULL] | DEFAULTED => [LIQUIDATE]
      | RESTRUCTURED => [REPAY_FULL] | _ => [] end).
    destruct s; (eexists; split; [reflexivity|]; split; [reflexivity|simpl; lia]).
  - intros s. exists (match s with
      | SCHEDULED =>
          [TRIGGER_VERIFICATION; CONFIRM_ORACLE; START_DISTRIBUTION; COMPLETE_DISTRIBUTION]
      | ORACLE_VERIFYING => [CONFIRM_ORACLE; START_DISTRIBUTION; COMPLETE_DISTRIBUTION]
      | VERIFIED | RECONCILED => [START_DISTRIBUTION; COMPLETE_DISTRIBUTION]
      | DISTRIBUTING => [COMPLETE_DISTRIBUTION]
      | CHALLENGED => [RESOLVE_CHALLENGE; START_DISTRIBUTION; COMPLETE_DISTRIBUTION]
      | FAILED => [RETRY; TRIGGER_VERIFICATION; CONFIRM_ORACLE; START_DISTRIBUTION;
                   COMPLETE_DISTRIBUTION]
      | DISTRIBUTED => [] end).
    destruct s; (eexists; split; [reflexivity|]; split; [reflexivity|simpl; lia]).
  - intros s. exists (match s with
      | PROPOSED | ESCROW_LOCKED => [CANCEL_ORDER] | SETTLING => [CONFIRM_RECEIPT]
      | DISPUTED => [RESOLVE_ROLLBACK] | _ => [] end).
    destruct s; (eexists; split; [reflexivity|]; split; [reflexivity|simpl; lia]).
Qed.

(** Coupon safety: on every run from SCHEDULED that reaches distribution,
    the oracle confirmed the report, or a challenge was resolved, after the last
    time verification was triggered. *)
Theorem coupon_distribution_verified es s :
  run SCHEDULED es = Ok s → s = DISTRIBUTING ∨ s = DISTRIBUTED → verified_since es = true.
Proof. intros Hr%trace_run Hs. apply (coupon_verified_inv es s Hr). set_solver. Qed.

Lemma coupon_distribution_verified_witness :
  verified_since [TRIGGER_VERIFICATION; FAIL; RETRY; TRIGGER_VERIFICATION; CHALLENGE;
                  RESOLVE_CHALLENGE; START_DISTRIBUTION] = true.
Proof.
  apply (coupon_distribution_verified _ DISTRIBUTING); [reflexivity|]. left. reflexivity.
Defined.

(** Settlement safety: a settlement that ends SETTLED went through escrow,
    execution and a receipt, and was neither cancelled nor rolled back; so no
    run settles and reverses. *)
Theorem settlement_settled_path es :
  run PROPOSED es = Ok SETTLED →
  LOCK_ESCROW ∈ es ∧ EXECUTE_SETTLEMENT ∈ es ∧ CONFIRM_RECEIPT ∈ es ∧
  CANCEL_ORDER ∉ es ∧ RESOLVE_ROLLBACK ∉ es.
Proof. intros Hr%trace_run. pose proof (settlement_steps_inv es _ Hr). set_solver. Qed.

Lemma settlement_settled_path_witness :
  let es := [LOCK_ESCROW; EXECUTE_SETTLEMENT; DISPUTE; CONFIRM_RECEIPT] in
  LOCK_ESCROW ∈ es ∧ EXECUTE_SETTLEMENT ∈ es ∧ CONFIRM_RECEIPT ∈ es ∧
  CANCEL_ORDER ∉ es ∧ RESOLVE_ROLLBACK ∉ es.
Proof. apply settlement_settled_path. reflexivity. Defined.

(** The history of a bond is faithful: whatever calls are made, the
    records appended are a linked path of table transitions from the initial
    state to the current one, and earlier records are untouched. *)
Theorem history_is_linked_path h0 s0 calls :
  ∃ h, drive h0 s0 calls = (h0 ++ h, snd (drive h0 s0 calls)) ∧
       linked s0 h = Some (snd (drive h0 s0 calls)).
Proof.
  destruct (drive_linked calls h0 s0 [] s0 eq_refl) as (h & Hd & Hl).
  rewrite app_nil_r in *. simpl in *. eauto.
Qed.
