(* ===== verification/PartialFailures.v ===== *)
(** * The partial-failure board

    Models [api/src/failures/partial-failure.service.ts] and the types of
    [partial-failure.interface.ts]: recording failures with scrubbed metadata,
    resolving, retrying, archiving and restoring them, the filtered list, the
    grouped dashboard, the trend export and the dependency graph.  Archiving goes
    through the lifecycle of [Lifecycle].

    The service keeps a [Map] from id to a mutable record; here the map is the
    list of its entries in insertion order and an operation returns the new map.
    [resolve] and [markRetried] assign before they print the time, so they return
    the changed map also when the time does not print.  The random part of an id
    and the current time are arguments; metadata is JSON data. *)
From S2P Require Import Prelude JsDate Json Lifecycle.

Inductive PartialFailureStatus := open_ | retrying | resolved.
Inductive PartialFailureSeverity := info | warning | critical.

#[export] Instance PartialFailureStatus_eq_dec : EqDecision PartialFailureStatus.
Proof. solve_decision. Defined.
#[export] Instance PartialFailureSeverity_eq_dec : EqDecision PartialFailureSeverity.
Proof. solve_decision. Defined.

Record PartialFailure := {
  id : string;
  operationType : string;
  externalRef : option string;
  message : string;
  severity : PartialFailureSeverity;
  retryable : bool;
  status : PartialFailureStatus;
  createdAt : string;
  lastFailureAt : string;
  retryCount : Z;
  metadata : json;
  resolvedAt : option string;
  resolvedNote : option string;
  pf_lifecycle : RecordLifecycle;
}.

#[export] Instance PartialFailure_archivable : IsArchivable PartialFailure :=
  λ f, {| lifecycle := Some (pf_lifecycle f); rec_id := Some (id f) |}.

Definition archived_pf (f : PartialFailure) : bool := isArchived (as_archivable f).

Record PartialFailureInput := {
  pi_operationType : string;
  pi_externalRef : option string;
  pi_message : string;
  pi_severity : option PartialFailureSeverity;
  pi_retryable : option bool;
  pi_metadata : option json;
}.

Record PartialFailureListFilter := {
  pf_operationType : option string;
  pf_status : option PartialFailureStatus;
  pf_severity : option PartialFailureSeverity;
  pf_retryable : option bool;
  pf_externalRef : option string;
  pf_text : option string;
  pf_staleOnly : bool;
  pf_minRetryCount : option Z;
  pf_createdAfter : option string;
  pf_createdBefore : option string;
  pf_includeArchived : bool;
}.

Definition no_filter : PartialFailureListFilter :=
  {| pf_operationType := None; pf_status := None; pf_severity := None; pf_retryable := None;
     pf_externalRef := None; pf_text := None; pf_staleOnly := false; pf_minRetryCount := None;
     pf_createdAfter := None; pf_createdBefore := None; pf_includeArchived := false |}.

Definition DEFAULT_STALE_AFTER_MS : Z := 24 * 60 * 60 * 1000.

Inductive failure_exn :=
| RequiredMissing
| NoSuchFailure (id : string)
| Lifecycle_exn (e : lifecycle_exn)
| TimeOutOfRange.

(** ** Scrubbing *)

Definition secret_words : list string :=
  [ "secret"; "password"; "passphrase"; "privatekey"; "private_key"; "seed"; "mnemonic";
    "token"; "apikey"; "api_key" ].

(** [SECRET_KEY_PATTERN.test(key)]: a word occurs in the key, case ignored. *)
Definition is_secret_key (key : string) : bool :=
  existsb (λ w, includes w (to_lower key)) secret_words.

(** Assigning [clean['__proto__']] adds no property. *)
Fixpoint scrub (v : json) (depth : nat) : json :=
  if (6 <? depth)%nat then JStr "[truncated]"
  else match v with
       | JArr l => JArr (map (λ x, scrub x (S depth)) l)
       | JObj l =>
           JObj (filter (λ kv, kv.1 ≠ proto_key)
                   (map (λ kv, (fst kv, if is_secret_key (fst kv) then JStr "[redacted]"
                                        else scrub (snd kv) (S depth))) l))
       | _ => v
       end.

(** ** Work on single failures *)

Definition failures := list (string * PartialFailure).

Record notification := {
  n_userId : string;
  n_type : string;
  n_message : string;
  n_eventId : string;
  n_link : string;
}.

(** [new Date(now).toISOString()]. *)
Definition printed (now : Z) : result failure_exn string :=
  match toISOString now with Ok s => Ok s | Err _ => Err TimeOutOfRange end.

(** [x || d] on an optional text. *)
Definition or_text (x : option string) (d : string) : string :=
  match x with Some EmptyString | None => d | Some s => s end.

Definition notification_of (f : PartialFailure) : option notification :=
  if bool_decide (severity f = warning) || bool_decide (severity f = critical)
  then Some {| n_userId := "admin"; n_type := "PARTIAL_FAILURE";
               n_message := "Partial failure in " +:+ operationType f +:+ ": " +:+ message f;
               n_eventId := "pf_" +:+ operationType f +:+ "_" +:+ or_text (externalRef f) (id f);
               n_link := "/admin/failures/" +:+ id f |}
  else None.

(** [record], with the random suffix of the id. *)
Definition record (m : failures) (input : PartialFailureInput) (now : Z) (rand : string) :
    result failure_exn (failures * PartialFailure * option notification) :=
  _ ← throw_if (bool_decide (pi_operationType input = EmptyString) ||
                bool_decide (pi_message input = EmptyString)) RequiredMissing;
  t ← printed now;
  let md := match pi_metadata input with None | Some JNull => JObj [] | Some v => v end in
  let f :=
    {| id := "pf_" +:+ pi_operationType input +:+ "_" +:+ radix36 now +:+ "_" +:+ rand;
       operationType := pi_operationType input; externalRef := pi_externalRef input;
       message := pi_message input; severity := default warning (pi_severity input);
       retryable := default true (pi_retryable input); status := open_; createdAt := t;
       lastFailureAt := t; retryCount := 0;
       metadata := match scrub md 0 with JNull => JObj [] | v => v end;
       resolvedAt := None; resolvedNote := None; pf_lifecycle := activeLifecycle |} in
  Ok (aput (id f) f m, f, notification_of f).

Definition countExternalRetries (m : failures) (op ref : string) : Z :=
  foldl (λ count kv,
           if bool_decide (operationType kv.2 = op) && bool_decide (externalRef kv.2 = Some ref)
           then count + retryCount kv.2 else count) 0 m.

Definition get (m : failures) (i : string) : result failure_exn PartialFailure :=
  match aget i m with Some f => Ok f | None => Err (NoSuchFailure i) end.

Definition requireLive (m : failures) (i : string) : result failure_exn PartialFailure :=
  f ← get m i;
  match assertNotArchived (as_archivable f) with
  | Ok _ => Ok f
  | Err e => Err (Lifecycle_exn e)
  end.

Definition set_work (f : PartialFailure) (s : PartialFailureStatus) (count : Z) (last : string)
    (at_ note : option string) : PartialFailure :=
  {| id := id f; operationType := operationType f; externalRef := externalRef f;
     message := message f; severity := severity f; retryable := retryable f; status := s;
     createdAt := createdAt f; lastFailureAt := last; retryCount := count;
     metadata := metadata f; resolvedAt := at_; resolvedNote := note;
     pf_lifecycle := pf_lifecycle f |}.

Definition set_lifecycle (f : PartialFailure) (l : RecordLifecycle) : PartialFailure :=
  {| id := id f; operationType := operationType f; externalRef := externalRef f;
     message := message f; severity := severity f; retryable := retryable f;
     status := status f; createdAt := createdAt f; lastFailureAt := lastFailureAt f;
     retryCount := retryCount f; metadata := metadata f; resolvedAt := resolvedAt f;
     resolvedNote := resolvedNote f; pf_lifecycle := l |}.

(** [resolve]: the status is assigned before the time is printed. *)
Definition resolve (m : failures) (i : string) (note : option string) (now : Z) :
    failures * result failure_exn PartialFailure :=
  match requireLive m i with
  | Err e => (m, Err e)
  | Ok f =>
      match printed now with
      | Ok t =>
          let f' := set_work f resolved (retryCount f) (lastFailureAt f) (Some t) note in
          (aput i f' m, Ok f')
      | Err e =>
          (aput i (set_work f resolved (retryCount f) (lastFailureAt f) (resolvedAt f)
                     (resolvedNote f)) m, Err e)
      end
  end.

Definition markRetried (m : failures) (i : string) (now : Z) :
    failures * result failure_exn PartialFailure :=
  match requireLive m i with
  | Err e => (m, Err e)
  | Ok f =>
      match printed now with
      | Ok t =>
          let f' := set_work f retrying (retryCount f + 1) t (resolvedAt f) (resolvedNote f) in
          (aput i f' m, Ok f')
      | Err e =>
          (aput i (set_work f retrying (retryCount f + 1) (lastFailureAt f) (resolvedAt f)
                     (resolvedNote f)) m, Err e)
      end
  end.

Definition archive (m : failures) (i : string) (actor : option string) (reason : option string)
    (now : Z) : failures * result failure_exn PartialFailure :=
  match get m i with
  | Err e => (m, Err e)
  | Ok f =>
      match archiveRecord now (pf_lifecycle f)
              {| Lifecycle.actor := actor; Lifecycle.reason := reason; Lifecycle.now := Some now |} with
      | Ok l => (aput i (set_lifecycle f l) m, Ok (set_lifecycle f l))
      | Err e => (m, Err (Lifecycle_exn e))
      end
  end.

Definition restore (m : failures) (i : string) (actor : option string) (now : Z) :
    failures * result failure_exn PartialFailure :=
  match get m i with
  | Err e => (m, Err e)
  | Ok f =>
      match restoreRecord now (pf_lifecycle f)
              {| Lifecycle.actor := actor; Lifecycle.reason := None; Lifecycle.now := Some now |} with
      | Ok l => (aput i (set_lifecycle f l) m, Ok (set_lifecycle f l))
      | Err e => (m, Err (Lifecycle_exn e))
      end
  end.

Definition clear (m : failures) : failures := [].

(** ** Reading *)

(** A time difference or a parsed time, [None] standing for [NaN]. *)
Definition lt_time (a b : option Z) : bool :=
  match a, b with Some x, Some y => x <? y | _, _ => false end.

(** [filter.k && failure.k !== filter.k], for an enumeration and for a text. *)
Definition differs {A} `{EqDecision A} (want : option A) (have : A) : bool :=
  match want with Some w => negb (bool_decide (have = w)) | None => false end.
Definition text_differs (want : option string) (have : option string) : bool :=
  match want with
  | Some EmptyString | None => false
  | Some w => negb (bool_decide (have = Some w))
  end.

Inductive doc_link := DocPath (path : string) | InheritedProperty (name : string).

Definition REMEDIATION_DOCS : list (string * string) :=
  [ ("stellar.settlement", "docs/runbook-degraded-providers.md#stellar-settlement");
    ("oracle.ingestion", "docs/oracle-challenge-lifecycle.md#failed-ingestion");
    ("bond.issuance", "docs/runbook-admin-intent.md#bond-issuance");
    ("marketplace.order", "docs/runbook-marketplace-reconciliation.md") ].

(** An indexed read of an object literal also finds inherited properties. *)
Definition remediationDoc (op : string) : doc_link :=
  match aget op REMEDIATION_DOCS with
  | Some d => DocPath d
  | None => if bool_decide (op ∈ inherited_names) then InheritedProperty op
            else DocPath "docs/runbook-marketplace-reconciliation.md"
  end.

Record PartialFailureLinks := {
  l_retry : option string;
  l_inspect : string;
  l_remediationDoc : doc_link;
}.

Definition linksFor (f : PartialFailure) : PartialFailureLinks :=
  {| l_retry := if retryable f && negb (bool_decide (status f = resolved))
                then Some ("POST /api/v1/operations/failures/" +:+ id f +:+ "/retry") else None;
     l_inspect := "GET /api/v1/operations/failures/" +:+ id f;
     l_remediationDoc := remediationDoc (operationType f) |}.

Record row := {
  r_failure : PartialFailure;
  r_ageMs : option Z;
  r_stale : bool;
  r_links : PartialFailureLinks;
}.

Record PartialFailureGroup := {
  g_operationType : string;
  g_total : Z;
  g_open : Z; g_retrying : Z; g_resolved : Z;
  g_info : Z; g_warning : Z; g_critical : Z;
  g_archived : Z;
  g_retryable : Z;
  g_oldestAgeMs : option (option Z);
  g_rows : list row;
}.

Record PartialFailureDashboard := {
  d_generatedAt : string;
  d_unresolved : Z;
  d_staleAfterMs : Z;
  d_archived : Z;
  d_groups : list PartialFailureGroup;
}.

(** The counters of one bucket of the dashboard. *)
Record tally := {
  t_open : Z; t_retrying : Z; t_resolved : Z;
  t_info : Z; t_warning : Z; t_critical : Z;
  t_retryable : Z; t_unresolved : Z;
  t_oldest : option (option Z);
}.
Definition no_tally : tally :=
  {| t_open := 0; t_retrying := 0; t_resolved := 0; t_info := 0; t_warning := 0;
     t_critical := 0; t_retryable := 0; t_unresolved := 0; t_oldest := None |}.

(** [if (c) n += 1]. *)
Definition bump (c : bool) (n : Z) : Z := if c then n + 1 else n.

Definition tally_one (age : option Z) (t : tally) (f : PartialFailure) : tally :=
  {| t_open := bump (bool_decide (status f = open_)) (t_open t);
     t_retrying := bump (bool_decide (status f = retrying)) (t_retrying t);
     t_resolved := bump (bool_decide (status f = resolved)) (t_resolved t);
     t_info := bump (bool_decide (severity f = info)) (t_info t);
     t_warning := bump (bool_decide (severity f = warning)) (t_warning t);
     t_critical := bump (bool_decide (severity f = critical)) (t_critical t);
     t_retryable := bump (retryable f) (t_retryable t);
     t_unresolved := bump (negb (bool_decide (status f = resolved))) (t_unresolved t);
     t_oldest := match t_oldest t with
                 | None => Some age
                 | Some o => if lt_time o age then Some age else Some o
                 end |}.

Inductive export_format := FmtJson | FmtCsv.
#[export] Instance export_format_eq_dec : EqDecision export_format.
Proof. solve_decision. Defined.

Record FailureTrendBucket := {
  b_start : string; b_end : string;
  b_total : Z; b_unresolved : Z; b_archived : Z; b_retryable : Z;
  b_info : Z; b_warning : Z; b_critical : Z;
  b_open : Z; b_retrying : Z; b_resolved : Z;
}.

Record FailureTrendExport := {
  x_generatedAt : string;
  x_format : export_format;
  x_bucketMs : Z;
  x_buckets : list FailureTrendBucket;
  x_csv : option string;
}.

Record graph_node := {
  gn_id : string; gn_kind : string; gn_label : string;
  gn_status : option PartialFailureStatus; gn_severity : option PartialFailureSeverity;
}.
Record graph_edge := { ge_from : string; ge_to : string; ge_relation : string }.
Record DependencyGraph := {
  dg_generatedAt : string;
  dg_nodes : list graph_node;
  dg_edges : list graph_edge;
  dg_impactedFailures : list string;
}.

Section reads.
Context (other : string → option Z).
Notation parse := (Date_parse other).

Definition created (f : PartialFailure) : option Z := parse (createdAt f).
Definition age (now : Z) (f : PartialFailure) : option Z := (λ c, now - c) <$> created f.

Definition haystack (f : PartialFailure) : string :=
  to_lower (operationType f +:+ " " +:+ default EmptyString (externalRef f) +:+ " " +:+
            message f +:+ " " +:+ JSON_stringify (metadata f)).

(** The [continue] conditions of [list]. *)
Definition keeps (q : PartialFailureListFilter) (now : Z) (f : PartialFailure) : bool :=
  negb (text_differs (pf_operationType q) (Some (operationType f))) &&
  negb (differs (pf_status q) (status f)) &&
  negb (differs (pf_severity q) (severity f)) &&
  negb (differs (pf_retryable q) (retryable f)) &&
  negb (text_differs (pf_externalRef q) (externalRef f)) &&
  negb (match pf_minRetryCount q with Some n => retryCount f <? n | None => false end) &&
  negb (match pf_createdAfter q with
        | Some EmptyString | None => false
        | Some t => lt_time (created f) (parse t)
        end) &&
  negb (match pf_createdBefore q with
        | Some EmptyString | None => false
        | Some t => lt_time (parse t) (created f)
        end) &&
  negb (pf_staleOnly q && lt_time (age now f) (Some DEFAULT_STALE_AFTER_MS)) &&
  match pf_text q with
  | Some EmptyString | None => true
  | Some t => includes (to_lower t) (haystack f)
  end.

Definition list_ (m : failures) (q : PartialFailureListFilter) (now : Z) : list PartialFailure :=
  filter (λ f, keeps q now f = true) (includeArchived m.*2 (pf_includeArchived q)).

Definition with_archived (q : PartialFailureListFilter) : PartialFailureListFilter :=
  {| pf_operationType := pf_operationType q; pf_status := pf_status q;
     pf_severity := pf_severity q; pf_retryable := pf_retryable q;
     pf_externalRef := pf_externalRef q; pf_text := pf_text q; pf_staleOnly := pf_staleOnly q;
     pf_minRetryCount := pf_minRetryCount q; pf_createdAfter := pf_createdAfter q;
     pf_createdBefore := pf_createdBefore q; pf_includeArchived := true |}.

Definition with_status (q : PartialFailureListFilter) (s : PartialFailureStatus) :
    PartialFailureListFilter :=
  {| pf_operationType := pf_operationType q; pf_status := Some s;
     pf_severity := pf_severity q; pf_retryable := pf_retryable q;
     pf_externalRef := pf_externalRef q; pf_text := pf_text q; pf_staleOnly := pf_staleOnly q;
     pf_minRetryCount := pf_minRetryCount q; pf_createdAfter := pf_createdAfter q;
     pf_createdBefore := pf_createdBefore q; pf_includeArchived := pf_includeArchived q |}.

Definition listStale (m : failures) (now staleAfterMs : Z) : list PartialFailure :=
  filter (λ f, match age now f with Some a => staleAfterMs <=? a | None => false end = true)
    (list_ m (with_status no_filter open_) now).

(** *** The dashboard *)

(** [const b = map.get(k) ?? []; b.push(x); map.set(k, b)]. *)
Definition push_at {A} (k : string) (x : A) (m : list (string * list A)) :
    list (string * list A) :=
  aput k (default [] (aget k m) ++ [x]) m.

(** The first loop: live failures and archived ones by operation type. *)
Definition partition (all : list PartialFailure) :
    list (string * list PartialFailure) * list (string * list PartialFailure) * Z :=
  foldl (λ '(live, arch, n) f,
           if archived_pf f then (live, push_at (operationType f) f arch, n + 1)
           else (push_at (operationType f) f live, arch, n)) ([], [], 0) all.

(** The second: a type with archived failures only gets an empty bucket. *)
Definition add_missing (arch live : list (string * list PartialFailure)) :
    list (string * list PartialFailure) :=
  foldl (λ m k, match aget k m with Some _ => m | None => aput k [] m end) live arch.*1.

Definition sort_key (t : option Z) : Z := default 0 t.

Definition live_row (now staleAfterMs : Z) (f : PartialFailure) : row :=
  {| r_failure := f; r_ageMs := age now f;
     r_stale := negb (bool_decide (status f = resolved)) &&
                match age now f with Some a => staleAfterMs <=? a | None => false end;
     r_links := linksFor f |}.

Definition archived_row (now : Z) (f : PartialFailure) : row :=
  {| r_failure := f; r_ageMs := age now f; r_stale := false; r_links := linksFor f |}.

(** Most recently archived first. *)
Definition archived_key (f : PartialFailure) : Z :=
  - sort_key (parse (default (createdAt f) (archivedAt (pf_lifecycle f)))).

Definition group_tally (now : Z) (bucket : list PartialFailure) : tally :=
  foldl (λ t f, tally_one (age now f) t f) no_tally bucket.

Definition group_of (now staleAfterMs : Z) (showArchived : bool)
    (arch : list (string * list PartialFailure)) (kv : string * list PartialFailure) :
    PartialFailureGroup :=
  let bucket := sort_by (λ f, sort_key (created f)) kv.2 in
  let t := group_tally now bucket in
  let archivedRows := default [] (aget kv.1 arch) in
  {| g_operationType := kv.1; g_total := Z.of_nat (length bucket);
     g_open := t_open t; g_retrying := t_retrying t; g_resolved := t_resolved t;
     g_info := t_info t; g_warning := t_warning t; g_critical := t_critical t;
     g_archived := Z.of_nat (length archivedRows); g_retryable := t_retryable t;
     g_oldestAgeMs := t_oldest t;
     g_rows := (live_row now staleAfterMs <$> bucket) ++
               (if showArchived : bool
                then archived_row now <$> sort_by archived_key archivedRows else []) |}.

Definition group_key (g : PartialFailureGroup) : Z :=
  - match g_oldestAgeMs g with Some a => sort_key a | None => 0 end.

Definition dashboard (m : failures) (q : PartialFailureListFilter) (now staleAfterMs : Z) :
    result failure_exn PartialFailureDashboard :=
  let all := list_ m (with_archived q) now in
  let '(live, arch, archivedCount) := partition all in
  let byType := add_missing arch live in
  let groups := group_of now staleAfterMs (pf_includeArchived q) arch <$> byType in
  let unresolved :=
    foldl (λ n kv, n + t_unresolved (group_tally now (sort_by (λ f, sort_key (created f)) kv.2)))
      0 byType in
  t ← printed now;
  Ok {| d_generatedAt := t; d_unresolved := unresolved; d_staleAfterMs := staleAfterMs;
        d_archived := archivedCount; d_groups := sort_by group_key groups |}.

(** *** The trend export *)

Definition new_bucket (start bucketMs : Z) : result failure_exn FailureTrendBucket :=
  s ← printed start;
  e ← printed (start + bucketMs);
  Ok {| b_start := s; b_end := e; b_total := 0; b_unresolved := 0; b_archived := 0;
        b_retryable := 0; b_info := 0; b_warning := 0; b_critical := 0; b_open := 0;
        b_retrying := 0; b_resolved := 0 |}.

Definition bucket_add (b : FailureTrendBucket) (f : PartialFailure) : FailureTrendBucket :=
  let live := negb (archived_pf f) in
  {| b_start := b_start b; b_end := b_end b; b_total := b_total b + 1;
     b_unresolved := bump (live && negb (bool_decide (status f = resolved))) (b_unresolved b);
     b_archived := bump (archived_pf f) (b_archived b);
     b_retryable := bump (retryable f) (b_retryable b);
     b_info := bump (live && bool_decide (severity f = info)) (b_info b);
     b_warning := bump (live && bool_decide (severity f = warning)) (b_warning b);
     b_critical := bump (live && bool_decide (severity f = critical)) (b_critical b);
     b_open := bump (live && bool_decide (status f = open_)) (b_open b);
     b_retrying := bump (live && bool_decide (status f = retrying)) (b_retrying b);
     b_resolved := bump (live && bool_decide (status f = resolved)) (b_resolved b) |}.

(** [Math.floor(created / bucketMs) * bucketMs], exact on safe integers. A
    division by zero or a [NaN] makes [new Date(start).toISOString()] throw. *)
Definition bucket_start (bucketMs : Z) (f : PartialFailure) : result failure_exn Z :=
  match created f with
  | Some c => if bucketMs =? 0 then Err TimeOutOfRange else Ok (c / bucketMs * bucketMs)
  | None => Err TimeOutOfRange
  end.

Definition trend_step (bucketMs : Z) (bs : list (Z * FailureTrendBucket)) (f : PartialFailure) :
    result failure_exn (list (Z * FailureTrendBucket)) :=
  start ← bucket_start bucketMs f;
  b ← match aget start bs with Some b => Ok b | None => new_bucket start bucketMs end;
  Ok (aput start (bucket_add b f) bs).

Fixpoint trend_loop (bucketMs : Z) (bs : list (Z * FailureTrendBucket)) (fs : list PartialFailure) :
    result failure_exn (list (Z * FailureTrendBucket)) :=
  match fs with
  | [] => Ok bs
  | f :: fs => bs' ← trend_step bucketMs bs f; trend_loop bucketMs bs' fs
  end.

Definition in_range (from to : option Z) (f : PartialFailure) : bool :=
  negb (match from with Some t => lt_time (created f) (Some t) | None => false end) &&
  negb (match to with Some t => lt_time (Some t) (created f) | None => false end).

Definition csv_line (b : FailureTrendBucket) : string :=
  join "," ([b_start b; b_end b] ++
            (Z_to_string <$> [b_total b; b_unresolved b; b_archived b; b_retryable b; b_info b;
                              b_warning b; b_critical b; b_open b; b_retrying b; b_resolved b])).

Definition csv_header : string :=
  "bucketStart,bucketEnd,total,unresolved,archived,retryable,info,warning,critical,open,retrying,resolved".

Definition trendExport (m : failures) (bucketMs : option Z) (format : option export_format)
    (from to : option Z) (now : Z) : result failure_exn FailureTrendExport :=
  let bucketMs := default (24 * 60 * 60 * 1000) bucketMs in
  let format := default FmtJson format in
  bs ← trend_loop bucketMs [] (filter (λ f, in_range from to f = true) m.*2);
  let sorted := (sort_by fst bs).*2 in
  t ← printed now;
  Ok {| x_generatedAt := t; x_format := format; x_bucketMs := bucketMs; x_buckets := sorted;
        x_csv := if bool_decide (format = FmtCsv)
                 then Some (join (String "010" EmptyString) (csv_header :: (csv_line <$> sorted)))
                 else None |}.
End reads.

(** *** The dependency graph *)

Definition add_node (n : graph_node) (nodes : list (string * graph_node)) :
    list (string * graph_node) :=
  match aget (gn_id n) nodes with Some _ => nodes | None => aput (gn_id n) n nodes end.

Definition plain_node (i kind label : string) : graph_node :=
  {| gn_id := i; gn_kind := kind; gn_label := label; gn_status := None; gn_severity := None |}.

(** [set.add(x)]. *)
Definition set_add (x : string) (s : list string) : list string :=
  if bool_decide (x ∈ s) then s else s ++ [x].

(** [!rootId]: absent or empty. *)
Definition no_root (rootId : option string) : bool :=
  match rootId with Some EmptyString | None => true | Some _ => false end.

Record graph_state := {
  gs_nodes : list (string * graph_node);
  gs_edges : list graph_edge;
  gs_impacted : list string;
}.

Definition dependencies (f : PartialFailure) : list json :=
  match metadata f with
  | JObj l => match jget "dependsOn" l with Some (JArr ds) => ds | _ => [] end
  | _ => []
  end.

Definition graph_dependency (rootId : option string) (f : PartialFailure) (g : graph_state)
    (d : json) : graph_state :=
  let i := js_String d in
  let node := "resource:" +:+ i in
  {| gs_nodes := add_node (plain_node node "resource" i) (gs_nodes g);
     gs_edges := gs_edges g ++
       [{| ge_from := "failure:" +:+ id f; ge_to := node; ge_relation := "depends_on" |}];
     gs_impacted :=
       if no_root rootId || bool_decide (rootId = Some node) || bool_decide (rootId = Some i)
       then set_add (id f) (gs_impacted g) else gs_impacted g |}.

Definition graph_step (rootId : option string) (g : graph_state) (f : PartialFailure) :
    graph_state :=
  let failureNode := "failure:" +:+ id f in
  let operationNode := "operation:" +:+ operationType f in
  let nodes := add_node {| gn_id := failureNode; gn_kind := "failure"; gn_label := message f;
                           gn_status := Some (status f); gn_severity := Some (severity f) |}
                 (gs_nodes g) in
  let nodes := add_node (plain_node operationNode "operation" (operationType f)) nodes in
  let edges := gs_edges g ++
    [{| ge_from := operationNode; ge_to := failureNode; ge_relation := "has_failure" |}] in
  let '(nodes, edges) :=
    match externalRef f with
    | Some EmptyString | None => (nodes, edges)
    | Some r =>
        (add_node (plain_node ("external:" +:+ r) "external_ref" r) nodes,
         edges ++ [{| ge_from := failureNode; ge_to := "external:" +:+ r;
                      ge_relation := "references" |}])
    end in
  let g1 := foldl (graph_dependency rootId f)
              {| gs_nodes := nodes; gs_edges := edges; gs_impacted := gs_impacted g |}
              (dependencies f) in
  {| gs_nodes := gs_nodes g1; gs_edges := gs_edges g1;
     gs_impacted :=
       if no_root rootId || bool_decide (rootId = Some failureNode) ||
          bool_decide (rootId = Some operationNode) ||
          (negb (no_root rootId) && bool_decide (externalRef f = rootId))
       then set_add (id f) (gs_impacted g1) else gs_impacted g1 |}.

Definition dependencyGraph (m : failures) (rootId : option string) (now : Z) :
    result failure_exn DependencyGraph :=
  let g := foldl (graph_step rootId) {| gs_nodes := []; gs_edges := []; gs_impacted := [] |}
             (visibleOnly m.*2) in
  t ← printed now;
  Ok {| dg_generatedAt := t; dg_nodes := (gs_nodes g).*2; dg_edges := gs_edges g;
        dg_impactedFailures := gs_impacted g |}.

(** *** Rejected operations *)

Record explanation := {
  ex_code : string; ex_title : string; ex_userMessage : string;
  ex_nextActions : list string; ex_retryable : bool;
}.

Definition known_rejections : list (string * explanation) :=
  [ ("kyc_required",
     {| ex_code := "kyc_required"; ex_title := "Identity verification is required";
        ex_userMessage := "This operation cannot continue until the account completes identity verification.";
        ex_nextActions := ["Complete verification from account settings.";
                           "Retry the operation after verification is approved."];
        ex_retryable := true |});
    ("insufficient_balance",
     {| ex_code := "insufficient_balance"; ex_title := "Insufficient balance";
        ex_userMessage := "The wallet does not have enough spendable balance for this operation and network fees.";
        ex_nextActions := ["Add funds to the wallet.";
                           "Confirm no pending operation is reserving the same balance.";
                           "Retry after the ledger reflects the new balance."];
        ex_retryable := true |});
    ("policy_denied",
     {| ex_code := "policy_denied"; ex_title := "Operation rejected by policy";
        ex_userMessage := "A protocol policy prevented this request from being accepted.";
        ex_nextActions := ["Review the request details.";
                           "Contact support if the policy result looks incorrect."];
        ex_retryable := false |}) ].

(** The explanation of a code; [None] when spreading an inherited property
    leaves every field of it undefined. *)
Definition explainRejectedOperation (code : string) : option explanation :=
  let normalized := to_lower (or_text (Some code) "unknown") in
  match aget normalized known_rejections with
  | Some e => Some e
  | None =>
      if bool_decide (normalized ∈ inherited_names) then None
      else Some {| ex_code := normalized; ex_title := "Operation rejected";
                   ex_userMessage := "The operation was rejected before it could be submitted.";
                   ex_nextActions := ["Review the request details.";
                                      "Retry only after correcting the highlighted issue."];
                   ex_retryable := false |}
  end.

(** ** Lemmas: grouping *)

(** Every failure sits under its own operation type. *)
Definition keyed (m : list (string * list PartialFailure)) : Prop :=
  Forall (λ kv, Forall (λ f, operationType f = kv.1) kv.2) m.

Lemma push_at_concat {A} k (x : A) m : concat (push_at k x m).*2 ≡ₚ concat m.*2 ++ [x].
Proof.
  unfold push_at. induction m as [|[k1 v1] m IH]; simpl; [done|].
  case_decide as Hk; simpl; [solve_Permutation|]. rewrite IH. solve_Permutation.
Qed.

Lemma push_at_keyed f m : keyed m → keyed (push_at (operationType f) f m).
Proof.
  unfold keyed, push_at. induction 1 as [|[k1 v1] m H1 Hm IH]; simpl.
  { repeat constructor. }
  case_decide as Hk; constructor; simpl in *; try done.
  apply Forall_app. split; [done|]. by repeat constructor.
Qed.

Lemma push_at_NoDup {A} k (x : A) m : NoDup m.*1 → NoDup (push_at k x m).*1.
Proof. apply aput_keys_NoDup. Qed.

Definition is_live (f : PartialFailure) : bool := negb (archived_pf f).

Definition grouping (m : list (string * list PartialFailure)) (fs : list PartialFailure) : Prop :=
  concat m.*2 ≡ₚ fs ∧ keyed m ∧ NoDup m.*1.

Lemma push_at_grouping f m fs :
  grouping m fs → grouping (push_at (operationType f) f m) (fs ++ [f]).
Proof.
  intros (Hc & Hk & Hn). split; [by rewrite push_at_concat, Hc|].
  split; [by apply push_at_keyed|by apply push_at_NoDup].
Qed.

Lemma partition_spec all :
  ∃ live arch, partition all = (live, arch, count archived_pf all) ∧
    grouping live (filter (λ f, is_live f = true) all) ∧
    grouping arch (filter (λ f, archived_pf f = true) all).
Proof.
  induction all as [|f all IH] using rev_ind.
  { exists [], []. split; [done|]. split; (split; [done|split; [constructor|constructor]]). }
  destruct IH as (live & arch & Hp & Hl & Ha). unfold partition in *.
  rewrite foldl_app, Hp. cbn [foldl]. rewrite count_app, count_cons, !filter_app, !filter_cons.
  unfold is_live in *. destruct (archived_pf f) eqn:E; cbn [negb].
  - exists live, (push_at (operationType f) f arch). split; [done|].
    rewrite decide_False by done. rewrite decide_True by done. rewrite !filter_nil, app_nil_r.
    split; [done|]. by apply push_at_grouping.
  - exists (push_at (operationType f) f live), arch. split; [by rewrite Z.add_0_r|].
    rewrite decide_True by done. rewrite decide_False by done. rewrite !filter_nil, app_nil_r.
    split; [by apply push_at_grouping|done].
Qed.

Lemma add_missing_spec arch live fs :
  grouping live fs → grouping (add_missing arch live) fs ∧
  arch.*1 ⊆ (add_missing arch live).*1 ∧ live.*1 ⊆ (add_missing arch live).*1.
Proof.
  unfold add_missing. generalize arch.*1. intros ks. revert live.
  induction ks as [|k ks IH]; intros live Hg; simpl.
  { split; [done|]. split; [apply list_subseteq_nil|done]. }
  destruct (aget k live) as [v|] eqn:Hk.
  - destruct (IH live Hg) as (Hg' & Hs & Hl). split; [done|]. split; [|done].
    intros x [-> |Hx]%elem_of_cons; [|by apply Hs]. apply Hl.
    destruct (decide (k ∈ live.*1)) as [|Hn]; [done|]. apply aget_None in Hn. congruence.
  - assert (grouping (aput k [] live) fs) as Hg1.
    { destruct Hg as (Hc & Hkd & Hn). split; [|split].
      - rewrite aput_new by done. by rewrite fmap_app, concat_app, app_nil_r.
      - rewrite aput_new by done. apply Forall_app. split; [done|]. by repeat constructor.
      - by apply aput_keys_NoDup. }
    destruct (IH _ Hg1) as (Hg' & Hs & Hl). split; [done|].
    assert (live.*1 ⊆ (aput k [] live).*1 ∧ k ∈ (aput k [] live).*1) as [H1 H2].
    { rewrite aput_new, fmap_app by done. set_solver. }
    split; [|by etrans]. intros x [-> |Hx]%elem_of_cons; [by apply Hl|by apply Hs].
Qed.

(** Reading every bucket of [arch] through the keys of a larger map. *)
Lemma lookup_all_perm {A} ks (arch : list (string * list A)) :
  NoDup ks → NoDup arch.*1 → arch.*1 ⊆ ks →
  concat ((λ k, default [] (aget k arch)) <$> ks) ≡ₚ concat arch.*2.
Proof.
  revert ks. induction arch as [|[k v] arch IH]; intros ks Hks Ha Hs.
  { clear. induction ks as [|k ks IH]; [done|]. done. }
  cbn [fmap list_fmap fst] in Ha, Hs. apply NoDup_cons in Ha as [Hni Ha].
  assert (k ∈ ks) as Hk by (apply Hs, list_elem_of_here).
  apply elem_of_Permutation in Hk as [ks' Hp].
  rewrite (concat_perm _ ((λ k0, default [] (aget k0 ((k, v) :: arch))) <$> k :: ks'))
    by (by rewrite Hp).
  rewrite Hp in Hks. apply NoDup_cons in Hks as [Hk' Hks]. rewrite fmap_cons. cbn [concat].
  cbn [aget]. rewrite decide_True by done. cbn [default from_option]. apply Permutation_app_head.
  rewrite <- (IH ks'); [|done|done|].
  - apply reflexive_eq. f_equal. apply list_fmap_ext. intros i x Hx.
    rewrite decide_False; [done|]. intros ->. by apply Hk', list_elem_of_lookup_2 with i.
  - intros x Hx. assert (x ∈ ks) as Hin by (by apply Hs, list_elem_of_further).
    rewrite Hp in Hin. apply elem_of_cons in Hin as [-> |]; done.
Qed.

(** ** Lemmas: tallies *)

Section tallies.
Context (other : string → option Z).

Lemma group_tally_snoc now bucket f :
  group_tally other now (bucket ++ [f]) = tally_one (age other now f) (group_tally other now bucket) f.
Proof. unfold group_tally. by rewrite foldl_app. Qed.

Lemma bump_count (c : bool) n : bump c n = n + (if c then 1 else 0).
Proof. destruct c; simpl; lia. Qed.

(** The counters are counts. *)
Lemma group_tally_counts now bucket :
  let t := group_tally other now bucket in
  t_open t = count (λ f, bool_decide (status f = open_)) bucket ∧
  t_retrying t = count (λ f, bool_decide (status f = retrying)) bucket ∧
  t_resolved t = count (λ f, bool_decide (status f = resolved)) bucket ∧
  t_info t = count (λ f, bool_decide (severity f = info)) bucket ∧
  t_warning t = count (λ f, bool_decide (severity f = warning)) bucket ∧
  t_critical t = count (λ f, bool_decide (severity f = critical)) bucket ∧
  t_retryable t = count retryable bucket ∧
  t_unresolved t = count (λ f, negb (bool_decide (status f = resolved))) bucket.
Proof.
  induction bucket as [|f bucket IH] using rev_ind; [done|]. intros t. subst t.
  rewrite group_tally_snoc, !count_app, !count_cons. unfold tally_one. cbn -[count].
  rewrite !bump_count. destruct IH as (-> & -> & -> & -> & -> & -> & -> & ->).
  repeat split; unfold count; simpl; lia.
Qed.

End tallies.

(** ** Lemmas: the dashboard *)

Section board.
Context (other : string → option Z).

Lemma fmap_rows (g : PartialFailure → row) (l : list PartialFailure) :
  (∀ f, r_failure (g f) = f) → r_failure <$> (g <$> l) = l.
Proof. intros H. induction l as [|f l IH]; [done|]. rewrite !fmap_cons, IH. by rewrite H. Qed.

(** The failures of the rows of one group. *)
Lemma group_rows_perm now stale show arch kv :
  r_failure <$> g_rows (group_of other now stale show arch kv) ≡ₚ
  kv.2 ++ (if show then default [] (aget kv.1 arch) else []).
Proof.
  unfold group_of. cbn [g_rows]. rewrite fmap_app, fmap_rows by done.
  rewrite sort_by_perm. apply Permutation_app_head. destruct show; [|done].
  rewrite fmap_rows by done. apply sort_by_perm.
Qed.

Lemma statuses_cover l :
  Z.of_nat (length l) =
  count (λ f, bool_decide (status f = open_)) l + count (λ f, bool_decide (status f = retrying)) l
  + count (λ f, bool_decide (status f = resolved)) l.
Proof.
  induction l as [|f l IH]; [done|]. rewrite !count_cons. destruct (status f); simpl; lia.
Qed.

Lemma severities_cover l :
  Z.of_nat (length l) =
  count (λ f, bool_decide (severity f = info)) l + count (λ f, bool_decide (severity f = warning)) l
  + count (λ f, bool_decide (severity f = critical)) l.
Proof.
  induction l as [|f l IH]; [done|]. rewrite !count_cons. destruct (severity f); simpl; lia.
Qed.

Lemma sum_counts {A B} (P : B → bool) (g : A → list B) l acc :
  foldl (λ n x, n + count P (g x)) acc l = acc + count P (concat (g <$> l)).
Proof.
  revert acc. induction l as [|x l IH]; intros acc.
  - change (acc = acc + 0). lia.
  - cbn [foldl]. rewrite IH, fmap_cons. cbn [concat]. rewrite count_app. lia.
Qed.

Lemma zsum_lengths {A B} (g : A → list B) l :
  zsum ((λ x, Z.of_nat (length (g x))) <$> l) = Z.of_nat (length (concat (g <$> l))).
Proof.
  induction l as [|x l IH]; [done|]. rewrite !fmap_cons. cbn [concat zsum foldr].
  rewrite length_app. fold (zsum ((λ x, Z.of_nat (length (g x))) <$> l)). rewrite IH. lia.
Qed.

(** The groups of a dashboard before sorting. *)
Lemma dashboard_groups m q now stale d :
  dashboard other m q now stale = Ok d →
  let all := list_ other m (with_archived q) now in
  ∃ byType arch,
    grouping byType (filter (λ f, is_live f = true) all) ∧
    grouping arch (filter (λ f, archived_pf f = true) all) ∧ arch.*1 ⊆ byType.*1 ∧
    d_groups d ≡ₚ group_of other now stale (pf_includeArchived q) arch <$> byType ∧
    d_archived d = count archived_pf all ∧
    d_unresolved d = count (λ f, negb (bool_decide (status f = resolved)))
                       (filter (λ f, is_live f = true) all).
Proof.
  unfold dashboard. set (all := list_ _ _ _ _).
  destruct (partition_spec all) as (live & arch & -> & Hl & Ha). intros H. inv_ok.
  destruct (add_missing_spec arch live _ Hl) as (Hg & Hs & _).
  exists (add_missing arch live), arch. split; [done|]. split; [done|]. split; [done|].
  split; [apply sort_by_perm|]. split; [done|]. cbn [d_unresolved].
  rewrite <- (count_perm _ _ _ (proj1 Hg)).
  rewrite (foldl_eq _ (λ n kv, n + count (λ f, negb (bool_decide (status f = resolved)))
    (sort_by (λ f, sort_key (created other f)) kv.2)));
    [|intros n kv; by destruct (group_tally_counts other now
        (sort_by (λ f, sort_key (created other f)) kv.2)) as (_ & _ & _ & _ & _ & _ & _ & ->)].
  rewrite sum_counts. rewrite Z.add_0_l. apply count_perm, concat_fmap_perm.
  intros kv. apply sort_by_perm.
Qed.
End board.

(** ** Lemmas: the trend export *)

Section trend.
Context (other : string → option Z).

Lemma aput_zsum (proj : FailureTrendBucket → Z) (k : Z) b m :
  zsum (proj <$> (aput k b m).*2) =
  zsum (proj <$> m.*2) + proj b - match aget k m with Some b' => proj b' | None => 0 end.
Proof.
  induction m as [|[k1 b1] m IH]; [simpl; lia|]. cbn [aput aget].
  case_decide; rewrite !fmap_cons; cbn [zsum foldr snd].
  - lia.
  - fold (zsum (proj <$> (aput k b m).*2)) (zsum (proj <$> m.*2)). rewrite IH. lia.
Qed.

(** A counter of the buckets sums to a count over the failures. *)
Lemma trend_loop_counts (proj : FailureTrendBucket → Z) (P : PartialFailure → bool) ms fs bs bs' :
  (∀ b f, proj (bucket_add b f) = proj b + (if P f then 1 else 0)) →
  (∀ start b, new_bucket start ms = Ok b → proj b = 0) →
  trend_loop other ms bs fs = Ok bs' →
  zsum (proj <$> bs'.*2) = zsum (proj <$> bs.*2) + count P fs.
Proof.
  intros Hadd Hnew. revert bs. induction fs as [|f fs IH]; intros bs H.
  { injection H as <-. change (count P []) with 0. lia. }
  cbn [trend_loop] in H. apply bind_ok in H as (bs1 & Hs & H). rewrite (IH _ H), count_cons.
  unfold trend_step in Hs. apply bind_ok in Hs as (start & _ & Hs).
  apply bind_ok in Hs as (b & Hb & [= <-]). rewrite aput_zsum, Hadd.
  destruct (aget start bs); simplify_eq; [lia|]. rewrite (Hnew _ _ Hb). lia.
Qed.

(** Each bucket starts at a multiple of its width and says so. *)
Definition bucket_at (ms : Z) (kb : Z * FailureTrendBucket) : Prop :=
  (ms | kb.1) ∧ printed kb.1 = Ok (b_start kb.2) ∧ printed (kb.1 + ms) = Ok (b_end kb.2).

Lemma trend_loop_buckets ms fs bs bs' :
  Forall (bucket_at ms) bs → NoDup bs.*1 → trend_loop other ms bs fs = Ok bs' →
  Forall (bucket_at ms) bs' ∧ NoDup bs'.*1.
Proof.
  revert bs. induction fs as [|f fs IH]; intros bs Hb Hn H; [by injection H as <-|].
  cbn [trend_loop] in H. apply bind_ok in H as (bs1 & Hs & H). apply (IH bs1); [| |done].
  2: { unfold trend_step in Hs. apply bind_ok in Hs as (? & _ & Hs).
       apply bind_ok in Hs as (? & _ & [= <-]). by apply aput_keys_NoDup. }
  unfold trend_step in Hs. apply bind_ok in Hs as (start & Hst & Hs).
  apply bind_ok in Hs as (b & Hbk & [= <-]).
  assert (bucket_at ms (start, bucket_add b f)) as Hat.
  { destruct (aget start bs) as [b0|] eqn:Hg.
    - injection Hbk as ->. apply aget_Some_elem in Hg.
      rewrite Forall_forall in Hb. by apply Hb in Hg.
    - unfold new_bucket in Hbk. apply bind_ok in Hbk as (s & Hps & Hbk).
      apply bind_ok in Hbk as (e & Hpe & [= <-]). split; [|done]. simpl.
      unfold bucket_start in Hst. destruct (created other f) as [c|]; [|done].
      destruct (ms =? 0); [done|]. injection Hst as <-. apply Z.divide_factor_r. }
  by apply Forall_aput.
Qed.
End trend.

(** ** Lemmas: scrubbing *)

(** Every secret-looking key holds the redaction mark, at any depth. *)
Fixpoint no_secrets (v : json) : bool :=
  match v with
  | JArr l => forallb no_secrets l
  | JObj l => forallb (λ kv, if is_secret_key (fst kv)
                             then match snd kv with JStr s => bool_decide (s = "[redacted]")
                                                  | _ => false end
                             else no_secrets (snd kv)) l
  | _ => true
  end.

(** Nesting of arrays and objects. *)
Fixpoint height (v : json) : nat :=
  match v with
  | JArr l => S (foldr (λ x n, Nat.max (height x) n) 0%nat l)
  | JObj l => S (foldr (λ kv n, Nat.max (height (snd kv)) n) 0%nat l)
  | _ => 0
  end.

Fixpoint no_proto (v : json) : bool :=
  match v with
  | JArr l => forallb no_proto l
  | JObj l => forallb (λ kv, negb (bool_decide (fst kv = proto_key)) && no_proto (snd kv)) l
  | _ => true
  end.

Lemma foldr_max_le {A} (h : A → nat) l n :
  Forall (λ x, (h x ≤ n)%nat) l ↔ (foldr (λ x m, Nat.max (h x) m) 0 l ≤ n)%nat.
Proof.
  induction l as [|x l IH]; simpl; [split; [lia|constructor]|]. rewrite Forall_cons, IH. lia.
Qed.

Lemma scrub_no_secrets v d : no_secrets (scrub v d) = true.
Proof.
  revert d. induction v as [|b|t|s|l IH|l IH] using json_ind_nested; intros d; cbn [scrub];
    destruct (6 <? d)%nat; try done; cbn [no_secrets].
  - induction IH as [|x l Hx _ IHl]; [done|]. cbn [map forallb]. by rewrite Hx, IHl.
  - apply Is_true_true, forallb_True, Forall_forall. intros [k v] [_ Hin]%list_elem_of_filter.
    apply list_elem_of_fmap in Hin as ([k0 v0] & [= -> ->] & Hin). simpl. apply Is_true_true.
    destruct (is_secret_key k0) eqn:Hs; [done|]. rewrite Forall_forall in IH.
    by rewrite (IH _ Hin).
Qed.

Lemma scrub_height v d : (d ≤ 7 → height (scrub v d) ≤ 7 - d)%nat.
Proof.
  revert d. induction v as [|b|t|s|l IH|l IH] using json_ind_nested; intros d Hd; cbn [scrub];
    destruct (Nat.ltb_spec 6 d); cbn [height]; try lia; rewrite Forall_forall in IH.
  - assert (foldr (λ x n, Nat.max (height x) n) 0 (map (λ x, scrub x (S d)) l) ≤ 6 - d)%nat; [|lia].
    apply foldr_max_le, Forall_forall. intros x (y & -> & Hy)%list_elem_of_fmap.
    specialize (IH y Hy (S d)). lia.
  - match goal with |- (S (foldr _ _ ?l') ≤ _)%nat =>
      assert (foldr (λ kv n, Nat.max (height (snd kv)) n) 0 l' ≤ 6 - d)%nat; [|lia] end.
    apply (foldr_max_le (λ kv, height (snd kv))), Forall_forall.
    intros [k v] [_ Hin]%list_elem_of_filter.
    apply list_elem_of_fmap in Hin as ([k0 v0] & [= -> ->] & Hin). simpl.
    destruct (is_secret_key k0); [simpl; lia|]. specialize (IH _ Hin (S d)). simpl in IH. lia.
Qed.

(** Clean, shallow data is kept as it is. *)
Lemma scrub_id v d :
  no_secrets v = true → no_proto v = true → (height v + d ≤ 6)%nat → scrub v d = v.
Proof.
  revert d. induction v as [|b|t|s|l IH|l IH] using json_ind_nested; intros d Hs Hp Hh;
    cbn [scrub]; destruct (Nat.ltb_spec 6 d); cbn [height] in Hh; try lia; try done.
  - f_equal. cbn [no_secrets no_proto] in *.
    induction IH as [|x l Hx Hl IHl]; [done|]. cbn [map forallb foldr] in *. bool_to_prop.
    f_equal; [apply Hx; [done|done|lia]|apply IHl; [done|done|lia]].
  - f_equal. cbn [no_secrets no_proto] in *.
    induction IH as [|[k x] l Hx Hl IHl]; [done|]. cbn [map forallb foldr fst snd] in *.
    bool_to_prop. rewrite filter_cons. cbn [fst].
    rewrite decide_True by done. f_equal; [|apply IHl; [done|done|lia]]. f_equal.
    destruct (is_secret_key k); [destruct x; try done; by bool_to_prop; subst|].
    apply Hx; [done|done|lia].
Qed.

(** ** Runs of the service *)

Inductive failure_op :=
| OpRecord (input : PartialFailureInput) (now : Z) (rand : string)
| OpResolve (i : string) (note : option string) (now : Z)
| OpRetry (i : string) (now : Z)
| OpArchiveFailure (i : string) (actor reason : option string) (now : Z)
| OpRestoreFailure (i : string) (actor : option string) (now : Z)
| OpClear.

Definition step (m : failures) (o : failure_op) : failures :=
  match o with
  | OpRecord input now rand => match record m input now rand with Ok (m', _, _) => m' | Err _ => m end
  | OpResolve i note now => fst (resolve m i note now)
  | OpRetry i now => fst (markRetried m i now)
  | OpArchiveFailure i a r now => fst (archive m i a r now)
  | OpRestoreFailure i a now => fst (restore m i a now)
  | OpClear => clear m
  end.

Definition run (m : failures) (ops : list failure_op) : failures := foldl step m ops.

(** What holds of every entry of the board. *)
Definition failure_ok (kf : string * PartialFailure) : Prop :=
  let f := kf.2 in
  kf.1 = id f ∧ lifecycle_inv (pf_lifecycle f) ∧ no_secrets (metadata f) = true ∧
  (height (metadata f) ≤ 7)%nat ∧ (∃ t, printed t = Ok (createdAt f)) ∧ 0 ≤ retryCount f ∧
  (status f = open_ → retryCount f = 0 ∧ resolvedAt f = None).

Definition board_inv (m : failures) : Prop := NoDup m.*1 ∧ Forall failure_ok m.

(** Work and lifecycle may change, the rest of a failure may not; the archive
    history only grows. *)
Definition same_failure (f f' : PartialFailure) : Prop :=
  id f' = id f ∧ operationType f' = operationType f ∧ externalRef f' = externalRef f ∧
  message f' = message f ∧ severity f' = severity f ∧ retryable f' = retryable f ∧
  createdAt f' = createdAt f ∧ metadata f' = metadata f ∧
  (∃ h, history (pf_lifecycle f') = history (pf_lifecycle f) ++ h) ∧
  retryCount f ≤ retryCount f'.

(** An operation that changes the entry [i] only: to [f'], which is [f] with
    other work fields, or [f] with a longer lifecycle. *)
Inductive touches (m : failures) : failures → Prop :=
| touch_none : touches m m
| touch_work i f s n last at_ note :
    aget i m = Some f → archived_pf f = false → s ≠ open_ → retryCount f ≤ n →
    touches m (aput i (set_work f s n last at_ note) m)
| touch_lifecycle i f o l :
    aget i m = Some f → apply_op (pf_lifecycle f) o = Ok l →
    touches m (aput i (set_lifecycle f l) m).

Lemma requireLive_ok m i f : requireLive m i = Ok f → aget i m = Some f ∧ archived_pf f = false.
Proof.
  unfold requireLive, get, assertNotArchived. destruct (aget i m) as [g|]; [|done]. simpl.
  destruct (isArchived (as_archivable g)) eqn:E; [done|]. intros [= ->]. done.
Qed.

Lemma step_touches m o :
  match o with
  | OpRecord _ _ _ | OpClear => True
  | _ => touches m (step m o)
  end.
Proof.
  destruct o as [input now rand|i note now|i now|i a r now|i a now|]; try done; cbn [step].
  - unfold resolve. destruct (requireLive m i) as [f|] eqn:Hl; [|constructor].
    apply requireLive_ok in Hl as [Hg Ha]. destruct (printed now); by constructor.
  - unfold markRetried. destruct (requireLive m i) as [f|] eqn:Hl; [|constructor].
    apply requireLive_ok in Hl as [Hg Ha].
    destruct (printed now); constructor; try done; lia.
  - unfold archive, get. destruct (aget i m) as [f|] eqn:Hg; [|constructor].
    destruct (archiveRecord _ _ _) as [l|] eqn:Hl; [|constructor].
    eapply (touch_lifecycle m i f (OpArchive _ _)); [done|exact Hl].
  - unfold restore, get. destruct (aget i m) as [f|] eqn:Hg; [|constructor].
    destruct (restoreRecord _ _ _) as [l|] eqn:Hl; [|constructor].
    eapply (touch_lifecycle m i f (OpRestore _ _)); [done|exact Hl].
Qed.

Lemma touches_inv m m' : board_inv m → touches m m' → board_inv m'.
Proof.
  intros [Hn Hf] Ht. destruct Ht as [|i f s n last at_ note Hg Ha Hs Hc|i f o l Hg Ho]; [done|..].
  all: split; [by apply aput_keys_NoDup|]; apply Forall_aput; [done|].
  all: rewrite Forall_forall in Hf; apply aget_Some_elem in Hg; apply Hf in Hg;
       destruct Hg as (Hk & Hi & Hm & Hh & Ht & Hr & Hop).
  - do 5 (split; [done|]). split; [simpl in *; lia|]. intros Hso. by destruct Hs.
  - split; [done|]. split; [by eapply apply_op_inv|]. done.
Qed.

Lemma record_inv m input now rand m' f n :
  board_inv m → record m input now rand = Ok (m', f, n) →
  m' = aput (id f) f m ∧ failure_ok (id f, f) ∧ n = notification_of f.
Proof.
  intros [Hn Hf] H. unfold record in H. apply bind_ok in H as ([] & _ & H).
  apply bind_ok in H as (t & Ht & H). injection H as <- <- <-. split; [done|].
  split; [|done]. set (md := match pi_metadata input with
    | None | Some JNull => JObj [] | Some v => v end).
  pose proof (scrub_no_secrets md 0) as Hs. pose proof (scrub_height md 0 ltac:(lia)) as Hh.
  split; [done|]. split; [done|]. simpl.
  split; [by destruct (scrub md 0)|]. split; [destruct (scrub md 0); simpl in *; lia|].
  split; [by eexists|]. done.
Qed.

Lemma step_board_inv m o : board_inv m → board_inv (step m o).
Proof.
  intros Hm. pose proof (step_touches m o) as Ht.
  destruct o as [input now rand|i note now|i now|i a r now|i a now|];
    try (by eapply touches_inv).
  - cbn [step]. destruct (record m input now rand) as [[[m' f] n]|] eqn:Hr; [|done].
    destruct (record_inv _ _ _ _ _ _ _ Hm Hr) as (-> & Hok & _). destruct Hm as [Hn Hf].
    split; [by apply aput_keys_NoDup|by apply Forall_aput].
  - split; constructor.
Qed.

Lemma run_board_inv ops m : board_inv m → board_inv (run m ops).
Proof.
  revert m. induction ops as [|o ops IH]; intros m Hm; [done|]. apply IH. by apply step_board_inv.
Qed.

(** ** Lemmas: the dependency graph *)

Definition edges_closed (nodes : list (string * graph_node)) (edges : list graph_edge) : Prop :=
  Forall (λ e, ge_from e ∈ nodes.*1 ∧ ge_to e ∈ nodes.*1) edges.

Definition nodes_ok (nodes : list (string * graph_node)) : Prop :=
  NoDup nodes.*1 ∧ Forall (λ kn, kn.1 = gn_id kn.2) nodes.

Lemma add_node_spec n nodes :
  nodes_ok nodes →
  nodes_ok (add_node n nodes) ∧ nodes.*1 ⊆ (add_node n nodes).*1 ∧ gn_id n ∈ (add_node n nodes).*1.
Proof.
  intros [Hn Hk]. unfold add_node. destruct (aget (gn_id n) nodes) as [v|] eqn:Hg.
  - split; [done|]. split; [done|]. destruct (decide (gn_id n ∈ nodes.*1)) as [|Hni]; [done|].
    apply aget_None in Hni. congruence.
  - split; [split; [by apply aput_keys_NoDup|by apply Forall_aput]|].
    rewrite aput_new, fmap_app by done. set_solver.
Qed.

Lemma edges_closed_mono nodes nodes' edges :
  nodes.*1 ⊆ nodes'.*1 → edges_closed nodes edges → edges_closed nodes' edges.
Proof. intros Hs He. eapply Forall_impl; [exact He|]. intros e [? ?]. split; by apply Hs. Qed.

Lemma edges_closed_snoc nodes edges e :
  edges_closed nodes edges → ge_from e ∈ nodes.*1 → ge_to e ∈ nodes.*1 →
  edges_closed nodes (edges ++ [e]).
Proof. intros. apply Forall_app. split; [done|]. by repeat constructor. Qed.

Lemma elem_of_set_add x y s : x ∈ set_add y s ↔ x = y ∨ x ∈ s.
Proof.
  unfold set_add. destruct (bool_decide (y ∈ s)) eqn:E; bool_to_prop.
  - naive_solver.
  - rewrite elem_of_app, list_elem_of_singleton. naive_solver.
Qed.

(** The failures a root concerns. *)
Definition impacted_by (rootId : option string) (f : PartialFailure) : bool :=
  no_root rootId || bool_decide (rootId = Some ("failure:" +:+ id f)) ||
  bool_decide (rootId = Some ("operation:" +:+ operationType f)) ||
  bool_decide (externalRef f = rootId) ||
  existsb (λ d, bool_decide (rootId = Some ("resource:" +:+ js_String d)) ||
                bool_decide (rootId = Some (js_String d))) (dependencies f).

Definition graph_ok (g : graph_state) : Prop :=
  nodes_ok (gs_nodes g) ∧ edges_closed (gs_nodes g) (gs_edges g).

Lemma graph_dependencies_spec rootId f ds g :
  graph_ok g → "failure:" +:+ id f ∈ (gs_nodes g).*1 →
  let g' := foldl (graph_dependency rootId f) g ds in
  graph_ok g' ∧
  (∀ i, i ∈ gs_impacted g' ↔ i ∈ gs_impacted g ∨
     i = id f ∧ existsb (λ d, no_root rootId || bool_decide (rootId = Some ("resource:" +:+ js_String d)) ||
                              bool_decide (rootId = Some (js_String d))) ds = true).
Proof.
  revert g. induction ds as [|d ds IH]; intros g [Hn He] Hf; cbn [foldl existsb].
  { split; [done|]. naive_solver. }
  destruct (add_node_spec (plain_node ("resource:" +:+ js_String d) "resource" (js_String d))
    (gs_nodes g) Hn) as (Hn' & Hs & Hin).
  destruct (IH (graph_dependency rootId f g d)) as [Hg Hi].
  - split; [done|]. cbn [graph_dependency gs_edges gs_nodes]. apply edges_closed_snoc; [|by apply Hs|done].
    by eapply edges_closed_mono.
  - by apply Hs.
  - split; [done|]. intros i. rewrite Hi. cbn [graph_dependency gs_impacted].
    destruct (_ || _ || _) eqn:E; simpl; rewrite ?elem_of_set_add; naive_solver.
Qed.

Lemma graph_step_spec rootId g f :
  graph_ok g →
  graph_ok (graph_step rootId g f) ∧
  (∀ i, i ∈ gs_impacted (graph_step rootId g f) ↔
        i ∈ gs_impacted g ∨ i = id f ∧ impacted_by rootId f = true).
Proof.
  intros [Hn He]. unfold graph_step.
  set (fn := {| gn_id := "failure:" +:+ id f; gn_kind := _; gn_label := _; gn_status := _;
                gn_severity := _ |}).
  destruct (add_node_spec fn _ Hn) as (Hn1 & Hs1 & Hi1).
  set (on := plain_node ("operation:" +:+ operationType f) _ _).
  destruct (add_node_spec on _ Hn1) as (Hn2 & Hs2 & Hi2).
  set (nodes2 := add_node on (add_node fn (gs_nodes g))) in *.
  set (edges2 := gs_edges g ++ _).
  assert (graph_ok {| gs_nodes := nodes2; gs_edges := edges2; gs_impacted := gs_impacted g |}) as [_ He2].
  { split; [done|]. apply edges_closed_snoc; [|done|by apply Hs2].
    eapply edges_closed_mono; [|done]. by etrans. }
  match goal with |- context [let '(_, _) := ?p in _] => destruct p as [nodes3 edges3] eqn:Hp end.
  assert (nodes_ok nodes3 ∧ edges_closed nodes3 edges3 ∧ "failure:" +:+ id f ∈ nodes3.*1)
    as (Hn3 & He3 & Hi3).
  { destruct (externalRef f) as [[|c r]|]; injection Hp as <- <-;
      try (split; [done|]; split; [done|]; by apply Hs2).
    destruct (add_node_spec (plain_node ("external:" +:+ String c r) "external_ref" (String c r))
      nodes2 Hn2) as (Hn3 & Hs3 & Hi3).
    split; [done|]. split; [|by apply Hs3, Hs2].
    apply edges_closed_snoc; [by eapply edges_closed_mono|by apply Hs3, Hs2|done]. }
  destruct (graph_dependencies_spec rootId f (dependencies f)
    {| gs_nodes := nodes3; gs_edges := edges3; gs_impacted := gs_impacted g |} (conj Hn3 He3) Hi3)
    as [Hg4 Hi4].
  split; [done|]. intros i. cbn [gs_impacted]. unfold impacted_by.
  match goal with |- context [if ?c then _ else _] => destruct c eqn:Hc end.
  - rewrite elem_of_set_add, Hi4. cbn [gs_impacted].
    assert ((no_root rootId || bool_decide (rootId = Some ("failure:" +:+ id f)) ||
      bool_decide (rootId = Some ("operation:" +:+ operationType f)) ||
      bool_decide (externalRef f = rootId)) = true) as Hc'.
    { destruct (no_root rootId); [done|]. simpl in *. done. }
    rewrite Hc'. naive_solver.
  - rewrite Hi4. cbn [gs_impacted].
    destruct (no_root rootId) eqn:Hr; [done|]. cbn [orb negb andb] in Hc |- *. by rewrite Hc.
Qed.

Lemma graph_fold_spec rootId fs g :
  graph_ok g →
  graph_ok (foldl (graph_step rootId) g fs) ∧
  (∀ i, i ∈ gs_impacted (foldl (graph_step rootId) g fs) ↔
        i ∈ gs_impacted g ∨ ∃ f, f ∈ fs ∧ id f = i ∧ impacted_by rootId f = true).
Proof.
  revert g. induction fs as [|f fs IH]; intros g Hg; simpl.
  { split; [done|]. intros i. split; [by left|]. intros [|(f & ?%not_elem_of_nil & _)]; done. }
  destruct (graph_step_spec rootId g f Hg) as [Hg1 Hi1]. destruct (IH _ Hg1) as [Hg2 Hi2].
  split; [done|]. intros i. rewrite Hi2, Hi1. split.
  - intros [[|[-> ?]]|(f' & ? & ? & ?)]; [by left|right; exists f|right; exists f'];
      rewrite elem_of_cons; auto.
  - intros [|(f' & [-> |?]%elem_of_cons & <- & ?)]; [by left; left|by left; right|right; eauto].
Qed.

Lemma nodes_ids nodes : Forall (λ kn, kn.1 = gn_id kn.2) nodes → gn_id <$> nodes.*2 = nodes.*1.
Proof. induction 1 as [|[k n] nodes Hk _ IH]; [done|]. rewrite !fmap_cons, IH. by rewrite Hk. Qed.

(** The board's three totals. *)
Lemma dashboard_counts other m q now stale d :
  dashboard other m q now stale = Ok d →
  let all := list_ other m (with_archived q) now in
  let live := filter (λ f, is_live f = true) all in
  d_unresolved d = count (λ f, negb (bool_decide (status f = resolved))) live ∧
  d_archived d = count archived_pf all ∧
  zsum (g_total <$> d_groups d) = Z.of_nat (length live).
Proof.
  intros Hd all live.
  destruct (dashboard_groups other m q now stale d Hd) as
    (byType & arch & (Hc & _ & _) & _ & _ & Hg & Ha & Hu).
  split; [done|]. split; [done|].
  rewrite (zsum_perm _ _ (fmap_Permutation _ _ _ Hg)), <- list_fmap_compose.
  etrans; [exact (zsum_lengths (λ kv, sort_by (λ f, sort_key (created other f)) kv.2) byType)|].
  f_equal. rewrite (concat_fmap_perm _ snd) by (intros; apply sort_by_perm). by rewrite Hc.
Qed.

Lemma count_total (m : list PartialFailure) :
  count (λ _, true) m =
  Z.of_nat (length (filter (λ f, is_live f = true) m)) + count archived_pf m.
Proof.
  change (Z.of_nat (length (filter (λ f, is_live f = true) m))) with (count is_live m).
  induction m as [|f m IH]; [done|]. rewrite !count_cons, IH. unfold is_live.
  destruct (archived_pf f); simpl; lia.
Qed.

Lemma sorted_keys (bs : list (Z * FailureTrendBucket)) :
  NoDup bs.*1 → StronglySorted Z.lt (sort_by fst bs).*1.
Proof.
  intros Hn. assert (NoDup (sort_by fst bs).*1) as Hn' by (by rewrite sort_by_perm).
  pose proof (sort_by_sorted fst bs) as Hs. revert Hn' Hs. generalize (sort_by fst bs).
  induction l as [|b l IH]; [constructor|]. intros [Hni Hn']%NoDup_cons [Hs Hb]%StronglySorted_inv.
  constructor; [auto|]. apply Forall_fmap. apply Forall_forall. intros c Hc.
  rewrite Forall_forall in Hb. specialize (Hb c Hc). simpl in Hb.
  assert (b.1 ≠ c.1); [|simpl; lia]. intros Heq. apply Hni. rewrite Heq.
  by apply list_elem_of_fmap_2.
Qed.

Lemma buckets_forall2 w (bs : list (Z * FailureTrendBucket)) :
  Forall (bucket_at w) bs →
  Forall2 (λ start b, (w | start) ∧ printed start = Ok (b_start b) ∧
                      printed (start + w) = Ok (b_end b)) bs.*1 bs.*2.
Proof. induction 1; simpl; by constructor. Qed.

Lemma group_rows_keyed other now stale show arch byType kv :
  keyed byType → keyed arch → kv ∈ byType →
  Forall (λ r, operationType (r_failure r) = kv.1) (g_rows (group_of other now stale show arch kv)).
Proof.
  intros Hk Ha Hin. apply (Forall_fmap r_failure (λ f, operationType f = kv.1)).
  rewrite group_rows_perm. unfold keyed in *. rewrite Forall_forall in Hk, Ha.
  apply Forall_app. split; [by apply Hk|]. destruct show; [|constructor].
  destruct (aget kv.1 arch) as [v|] eqn:Hg; [|constructor].
  apply aget_Some_elem in Hg. by apply Ha in Hg.
Qed.

Lemma list_all other m now q :
  pf_operationType q = None → pf_status q = None → pf_severity q = None → pf_retryable q = None →
  pf_externalRef q = None → pf_text q = None → pf_staleOnly q = false →
  pf_minRetryCount q = None → pf_createdAfter q = None → pf_createdBefore q = None →
  list_ other m (with_archived q) now = m.*2.
Proof.
  intros H1 H2 H3 H4 H5 H6 H7 H8 H9 H10. unfold list_. cbn [with_archived pf_includeArchived].
  unfold includeArchived. apply filter_all. intros f.
  unfold keeps. cbn [with_archived pf_operationType pf_status pf_severity pf_retryable
    pf_externalRef pf_text pf_staleOnly pf_minRetryCount pf_createdAfter pf_createdBefore].
  by rewrite H1, H2, H3, H4, H5, H6, H7, H8, H9, H10.
Qed.

(** ** A concrete board *)

(** Four failures: one retried, one resolved, one open, one archived. *)
Definition toy_failure (op : string) (sev : PartialFailureSeverity) : PartialFailureInput :=
  {| pi_operationType := op; pi_externalRef := Some "tx1"; pi_message := "stuck";
     pi_severity := Some sev; pi_retryable := None;
     pi_metadata := Some (JObj [("dependsOn", JArr [JStr "pool"]); ("apiKey", JStr "k")]) |}.

Definition toy_board : failures :=
  run []
    [ OpRecord (toy_failure "bond.issuance" critical) 1000 "a";
      OpRecord (toy_failure "stellar.settlement" warning) 2000 "b";
      OpRecord (toy_failure "bond.issuance" info) 90000000 "c";
      OpRecord (toy_failure "oracle.ingestion" warning) 90000001 "d";
      OpRetry "pf_bond.issuance_rs_a" 5000;
      OpResolve "pf_stellar.settlement_1jk_b" (Some "done") 6000;
      OpArchiveFailure "pf_oracle.ingestion_1hl0g1_d" (Some "GA1") (Some "noise") 90000002;
      OpResolve "pf_oracle.ingestion_1hl0g1_d" None 90000003 ].

Lemma toy_board_inv : board_inv toy_board.
Proof.
  apply (run_board_inv _ []). split; constructor.
Qed.

(** ** Theorems *)

(** Scrubbing leaves no secret and bounds depth.  In scrubbed metadata every
    key that looks like a secret holds the redaction mark, at any depth, and
    nesting is at most seven levels; data with no such key, at most six levels
    deep, is kept as it is. *)
Theorem scrub_exact v :
  no_secrets (scrub v 0) = true ∧ (height (scrub v 0) ≤ 7)%nat ∧
  (no_secrets v = true → no_proto v = true → (height v ≤ 6)%nat → scrub v 0 = v).
Proof.
  split; [apply scrub_no_secrets|]. split; [apply (scrub_height v 0); lia|].
  intros Hs Hp Hh. apply scrub_id; [done|done|lia].
Qed.

Lemma scrub_exact_witness :
  let v := JObj [("user", JObj [("name", JStr "ann"); ("tries", JNum "3")])] in scrub v 0 = v.
Proof.
  intros v. apply (scrub_exact v); [reflexivity|reflexivity|]. vm_compute. lia.
Defined.

(** Whatever is done to the board, each entry is stored once, under its own
    id, its lifecycle agrees with its history, its metadata is scrubbed, its
    creation time is a printed time, its retry count is not negative, and a
    failure still open was never retried or resolved. *)
Theorem board_invariant ops : board_inv (run [] ops).
Proof. apply run_board_inv. split; constructor. Qed.

(** No failure is lost or rewritten.  Any operation but [clear], a new record
    not reusing an id, keeps every failure with its identity, description and
    metadata, with the archive history only extended and the retry count not
    decreased; and no work is done on an archived failure. *)
Theorem failure_never_lost m o i f :
  board_inv m → o ≠ OpClear →
  (∀ input now rand m' g n, o = OpRecord input now rand →
     record m input now rand = Ok (m', g, n) → aget (id g) m = None) →
  aget i m = Some f →
  ∃ f', aget i (step m o) = Some f' ∧ same_failure f f' ∧
    (archived_pf f = true →
     status f' = status f ∧ retryCount f' = retryCount f ∧ resolvedAt f' = resolvedAt f).
Proof.
  intros Hm Hc Hnew Hg.
  assert (same_failure f f) as Hrefl.
  { repeat split; try done. exists []. by rewrite app_nil_r. }
  assert (∃ f', aget i m = Some f' ∧ same_failure f f' ∧ (archived_pf f = true →
    status f' = status f ∧ retryCount f' = retryCount f ∧ resolvedAt f' = resolvedAt f)) as Hsame
    by (exists f; done).
  assert (∀ m', touches m m' → ∃ f', aget i m' = Some f' ∧ same_failure f f' ∧
    (archived_pf f = true →
     status f' = status f ∧ retryCount f' = retryCount f ∧ resolvedAt f' = resolvedAt f)) as HT.
  { intros m' Ht. destruct Ht as [|j g s n last at_ note Hj Ha Hs Hn|j g op l Hj Ho]; [done|..].
    all: rewrite aget_aput; case_decide as Hij; [|done].
    all: subst j; rewrite Hg in Hj; injection Hj as <-; eexists; split; [done|].
    - split; [|congruence]. repeat split; try done. exists []. by rewrite app_nil_r.
    - split; [|done]. repeat split; try done.
      destruct (apply_ops_prefix (pf_lifecycle f) [op]) as [h Hh]. simpl in Hh.
      rewrite Ho in Hh. by exists h. }
  pose proof (step_touches m o) as Ht.
  destruct o as [input now rand|j note now|j now|j a r now|j a now|]; try (by apply HT).
  cbn [step]. destruct (record m input now rand) as [[[m' g] n]|] eqn:Hr; [|done].
  destruct (record_inv _ _ _ _ _ _ _ Hm Hr) as (-> & _ & _).
  rewrite aget_aput. case_decide as Hij; [|done].
  subst i. by rewrite (Hnew _ _ _ _ _ _ eq_refl Hr) in Hg.
Qed.

(** The dashboard accounts for every failure the filter selects.  Each
    selected live failure is in exactly one row of exactly one group, the group
    of its operation type, and so is each selected archived one when archived
    rows are asked for; groups are per type; the counters by status and by
    severity each add up to the group's total; the board's [unresolved] and
    [archived] are the numbers of such failures, and totals and archived counts
    together are all that was selected. *)
Theorem dashboard_accounts other m q now stale d :
  dashboard other m q now stale = Ok d →
  let all := list_ other m (with_archived q) now in
  let live := filter (λ f, is_live f = true) all in
  concat ((λ g, r_failure <$> g_rows g) <$> d_groups d) ≡ₚ
    (if pf_includeArchived q then live ++ filter (λ f, archived_pf f = true) all else live) ∧
  NoDup (g_operationType <$> d_groups d) ∧
  Forall (λ g, Forall (λ r, operationType (r_failure r) = g_operationType g) (g_rows g) ∧
               g_total g = g_open g + g_retrying g + g_resolved g ∧
               g_total g = g_info g + g_warning g + g_critical g) (d_groups d) ∧
  d_unresolved d = count (λ f, negb (bool_decide (status f = resolved))) live ∧
  d_archived d = count archived_pf all ∧
  zsum (g_total <$> d_groups d) = Z.of_nat (length live) ∧
  zsum (g_archived <$> d_groups d) = d_archived d.
Proof.
  intros Hd all live.
  destruct (dashboard_groups other m q now stale d Hd) as
    (byType & arch & (Hc & Hk & Hn) & (Hca & Hka & Hna) & Hs & Hg & Ha & Hu).
  fold all in Hc, Hca, Ha, Hu. fold live in Hc, Hu.
  assert (concat ((λ kv : string * list PartialFailure, default [] (aget kv.1 arch)) <$> byType) ≡ₚ
          filter (λ f, archived_pf f = true) all) as Harch.
  { rewrite <- Hca, <- (lookup_all_perm byType.*1 arch Hn Hna Hs).
    by rewrite <- list_fmap_compose. }
  split.
  { rewrite (concat_perm _ _ (fmap_Permutation _ _ _ Hg)), <- list_fmap_compose.
    rewrite (concat_fmap_perm _ _ _ (group_rows_perm other now stale (pf_includeArchived q) arch)).
    rewrite concat_perm_app, Hc. destruct (pf_includeArchived q); [by rewrite Harch|].
    replace (concat _) with (@nil PartialFailure); [by rewrite app_nil_r|].
    clear. by induction byType. }
  split. { rewrite Hg, <- list_fmap_compose. exact Hn. }
  split.
  { rewrite Hg. apply Forall_fmap, Forall_forall. intros kv Hin.
    split; [by apply (group_rows_keyed _ _ _ _ _ byType)|]. cbn.
    destruct (group_tally_counts other now (sort_by (λ f, sort_key (created other f)) kv.2))
      as (-> & -> & -> & -> & -> & -> & _). split; [apply statuses_cover|apply severities_cover]. }
  split; [done|]. split; [done|]. split.
  - by destruct (dashboard_counts other m q now stale d Hd) as (_ & _ & ->).
  - rewrite (zsum_perm _ _ (fmap_Permutation _ _ _ Hg)), <- list_fmap_compose.
    etrans; [exact (zsum_lengths (λ kv, default [] (aget kv.1 arch)) byType)|].
    by rewrite Harch, Ha.
Qed.

Lemma failure_never_lost_witness :
  ∃ f', aget "pf_oracle.ingestion_1hl0g1_d"
          (step toy_board (OpRetry "pf_oracle.ingestion_1hl0g1_d" 95000000)) = Some f' ∧
  archived_pf f' = true ∧ status f' = open_ ∧ retryCount f' = 0.
Proof.
  destruct (aget "pf_oracle.ingestion_1hl0g1_d" toy_board) as [f|] eqn:Hf; [|vm_compute in Hf; discriminate].
  destruct (failure_never_lost toy_board (OpRetry "pf_oracle.ingestion_1hl0g1_d" 95000000)
    "pf_oracle.ingestion_1hl0g1_d" f) as (f' & Hf' & Hs & Ha).
  - apply toy_board_inv.
  - discriminate.
  - discriminate.
  - exact Hf.
  - exists f'. split; [exact Hf'|]. vm_compute in Hf. injection Hf as <-.
    destruct Ha as (H1 & H2 & _); [reflexivity|].
    vm_compute in Hf'. injection Hf' as <-. repeat split; reflexivity.
Defined.

Lemma dashboard_accounts_witness :
  ∃ d, dashboard (λ _, None) toy_board no_filter 100000000 1000 = Ok d ∧
    d_unresolved d = 2 ∧ d_archived d = 1 ∧ zsum (g_total <$> d_groups d) = 3.
Proof.
  destruct (dashboard (λ _, None) toy_board no_filter 100000000 1000) as [d|] eqn:Hd;
    [|vm_compute in Hd; discriminate Hd].
  destruct (dashboard_accounts (λ _, None) toy_board no_filter 100000000 1000 d Hd)
    as (_ & _ & _ & Hu & Ha & Ht & _).
  exists d. split; [reflexivity|]. rewrite Hu, Ha, Ht. vm_compute. repeat split.
Defined.

(** The board and the trend export describe the same failures.  Over the same
    map, with no filter and no time range, the export's buckets together hold as
    many failures as the board shows live and archived together, as many archived
    ones as the board counts, and as many unresolved ones; and the buckets start at
    distinct multiples of the bucket width, in increasing order. *)
Theorem export_matches_board other m show now stale d ms fmt now' x :
  dashboard other m (if show : bool then with_archived no_filter else no_filter) now stale = Ok d →
  trendExport other m ms fmt None None now' = Ok x →
  zsum (b_total <$> x_buckets x) = zsum (g_total <$> d_groups d) + d_archived d ∧
  zsum (b_archived <$> x_buckets x) = d_archived d ∧
  zsum (b_unresolved <$> x_buckets x) = d_unresolved d ∧
  ∃ starts, StronglySorted Z.lt starts ∧
    Forall2 (λ start b, (x_bucketMs x | start) ∧ printed start = Ok (b_start b) ∧
                        printed (start + x_bucketMs x) = Ok (b_end b)) starts (x_buckets x).
Proof.
  intros Hd Hx.
  destruct (dashboard_counts other m _ now stale d Hd) as (Hu & Ha & Ht).
  rewrite (list_all other m now) in Hu, Ha, Ht by (by destruct show).
  unfold trendExport in Hx. apply bind_ok in Hx as (bs & Hb & Hx).
  apply bind_ok in Hx as (t & _ & [= <-]). cbn [x_buckets x_bucketMs].
  rewrite filter_all in Hb by done. set (w := default _ ms) in *.
  assert (∀ proj : FailureTrendBucket → Z,
    zsum (proj <$> (sort_by fst bs).*2) = zsum (proj <$> bs.*2)) as Hperm.
  { intros proj. apply zsum_perm, fmap_Permutation, fmap_Permutation, sort_by_perm. }
  rewrite !Hperm, Ht, Hu, Ha.
  assert (∀ start b, new_bucket start w = Ok b →
    b_total b = 0 ∧ b_archived b = 0 ∧ b_unresolved b = 0) as Hnew.
  { intros start b Hn. unfold new_bucket in Hn. inv_ok. done. }
  split; [|split; [|split]].
  - rewrite (trend_loop_counts other b_total (λ _, true) w m.*2 [] bs);
      [apply count_total|done|by intros ?? []%Hnew|done].
  - rewrite (trend_loop_counts other b_archived archived_pf w m.*2 [] bs);
      [done|intros; apply bump_count|by intros ?? (_ & ? & _)%Hnew|done].
  - rewrite (trend_loop_counts other b_unresolved
      (λ f, is_live f && negb (bool_decide (status f = resolved))) w m.*2 [] bs);
      [by rewrite count_filter|intros; apply bump_count|by intros ?? (_ & _ & ?)%Hnew|done].
  - destruct (trend_loop_buckets other w m.*2 [] bs) as [Hat Hn]; [constructor|constructor|exact Hb|].
    exists (sort_by fst bs).*1. split; [by apply sorted_keys|].
    apply buckets_forall2. by rewrite sort_by_perm.
Qed.

Lemma export_matches_board_witness :
  ∃ d x, dashboard (λ _, None) toy_board no_filter 100000000 1000 = Ok d ∧
    trendExport (λ _, None) toy_board None (Some FmtCsv) None None 100000000 = Ok x ∧
    length (x_buckets x) = 2%nat ∧ zsum (b_archived <$> x_buckets x) = d_archived d ∧
    zsum (b_total <$> x_buckets x) = zsum (g_total <$> d_groups d) + d_archived d.
Proof.
  destruct (dashboard (λ _, None) toy_board no_filter 100000000 1000) as [d|] eqn:Hd;
    [|vm_compute in Hd; discriminate Hd].
  destruct (trendExport (λ _, None) toy_board None (Some FmtCsv) None None 100000000) as [x|] eqn:Hx;
    [|vm_compute in Hx; discriminate Hx].
  exists d, x. split; [reflexivity|]. split; [reflexivity|].
  destruct (export_matches_board (λ _, None) toy_board false 100000000 1000 d None (Some FmtCsv)
    100000000 x Hd Hx) as (Ht & Ha & _).
  split; [vm_compute in Hx; injection Hx as <-; reflexivity|]. split; [exact Ha|exact Ht].
Defined.

(** The dependency graph is closed and its impact set exact: every edge joins
    two listed nodes, node ids are distinct, and the impacted failures are exactly
    the live ones the root names, through their id, operation type, external
    reference or a declared dependency (all live ones without a root). *)
Lemma dependencyGraph_exact m rootId now g :
  dependencyGraph m rootId now = Ok g →
  Forall (λ e, ge_from e ∈ gn_id <$> dg_nodes g ∧ ge_to e ∈ gn_id <$> dg_nodes g) (dg_edges g) ∧
  NoDup (gn_id <$> dg_nodes g) ∧
  (∀ i, i ∈ dg_impactedFailures g ↔
     ∃ f, f ∈ visibleOnly m.*2 ∧ id f = i ∧ impacted_by rootId f = true).
Proof.
  unfold dependencyGraph. set (g0 := {| gs_nodes := []; gs_edges := []; gs_impacted := [] |}).
  intros H. apply bind_ok in H as (t & _ & [= <-]). cbn [dg_nodes dg_edges dg_impactedFailures].
  destruct (graph_fold_spec rootId (visibleOnly m.*2) g0) as [[[Hn Hk] He] Hi];
    [split; [split; constructor|constructor]|].
  rewrite (nodes_ids _ Hk). split; [done|]. split; [done|]. intros i. rewrite Hi.
  split; [|naive_solver]. intros [?%not_elem_of_nil|]; done.
Qed.

(** ** Behaviour worth knowing *)

(** Explaining the code [constructor] returns an object with none of the
    explanation's fields. *)
Lemma explain_inherited_code : explainRejectedOperation "Constructor" = None.
Proof. reflexivity. Qed.

(** The pattern for secret keys matches parts of a key, not the whole key. *)
Lemma secret_pattern_matches_parts :
  is_secret_key "tokenizedAmount" = true ∧ is_secret_key "seedling_count" = true.
Proof. split; reflexivity. Qed.

(** Retrying a resolved failure is accepted and leaves the resolution in place:
    the record then says [retrying] and carries a [resolvedAt]. *)
Lemma retry_keeps_resolution :
  ∃ f, aget "pf_stellar.settlement_1jk_b"
         (step toy_board (OpRetry "pf_stellar.settlement_1jk_b" 7000)) = Some f ∧
    status f = retrying ∧ resolvedAt f = Some "1970-01-01T00:00:06.000Z".
Proof. eexists. split; [reflexivity|]. split; reflexivity. Qed.
