(* ===== verification/Redis.v ===== *)
(** * Redis and the service that wraps it

    [api/src/common/services/redis.service.ts] turns Redis commands into calls
    that either degrade silently ([get], [set], [sAdd], ...: a failed command is
    logged and looks like a missing key or an ignored write) or throw
    ([getOrThrow], [sMembersOrThrow], the lock calls).

    The Redis server is not part of the program.  It is the argument [σ] of the
    class [RedisServer]: an execution function whose law is the documented effect
    of each command ([documented]) on the keyspace, and the lapse of keys that
    have a time to live.  [KeyspaceServer] is an instance.

    A call is a computation [M]: it may return, throw, or die with its process.
    What befalls each command is read off a list of fates: it succeeds, fails
    without effect, fails after its effect, or the process dies before it. *)
From S2P Require Import Prelude.

Inductive rvalue := RStr (s : string) | RSet (members : list string).

Record rentry := { r_value : rvalue; r_ttl : bool }.

(** The live keys. *)
Notation keyspace := (gmap string rentry).

Inductive command :=
| GET (k : string)
| SET (k v : string) (nx : bool) (ttl : bool)
| DEL (k : string)
| GETDEL (k : string)
| SADD (k m : string)
| SREM (k m : string)
| SMEMBERS (k : string)
| EXPIRE (k : string)
| COMPARE_DEL (k token : string).

Inductive reply := Nil | Bulk (s : string) | OK | Int (n : Z) | Members (l : list string).

Definition plain (v : rvalue) : rentry := {| r_value := v; r_ttl := false |}.

(** A set without members is no key. *)
Definition put_set (k : string) (l : list string) (t : bool) (ks : keyspace) : keyspace :=
  match l with [] => delete k ks | _ => <[k := {| r_value := RSet l; r_ttl := t |}]> ks end.

(** The documented effect of a command and its reply; no entry for a command
    that Redis answers with a [WRONGTYPE] error.  [SET] discards a time to live
    unless it sets one; removing the last member removes the key; the order of
    [SMEMBERS] is not specified. *)
Inductive documented (ks : keyspace) : command → keyspace → reply → Prop :=
| doc_get_none k : ks !! k = None → documented ks (GET k) ks Nil
| doc_get k s t : ks !! k = Some {| r_value := RStr s; r_ttl := t |} →
    documented ks (GET k) ks (Bulk s)
| doc_set k v nx t : (nx = true → ks !! k = None) →
    documented ks (SET k v nx t) (<[k := {| r_value := RStr v; r_ttl := t |}]> ks) OK
| doc_set_taken k v t e : ks !! k = Some e → documented ks (SET k v true t) ks Nil
| doc_del k n : documented ks (DEL k) (delete k ks) (Int n)
| doc_getdel_none k : ks !! k = None → documented ks (GETDEL k) ks Nil
| doc_getdel k s t : ks !! k = Some {| r_value := RStr s; r_ttl := t |} →
    documented ks (GETDEL k) (delete k ks) (Bulk s)
| doc_sadd_new k m : ks !! k = None → documented ks (SADD k m) (<[k := plain (RSet [m])]> ks) (Int 1)
| doc_sadd k m l l' t n : ks !! k = Some {| r_value := RSet l; r_ttl := t |} →
    NoDup l' → (∀ x, x ∈ l' ↔ x = m ∨ x ∈ l) →
    documented ks (SADD k m) (<[k := {| r_value := RSet l'; r_ttl := t |}]> ks) (Int n)
| doc_srem_none k m : ks !! k = None → documented ks (SREM k m) ks (Int 0)
| doc_srem k m l l' t n : ks !! k = Some {| r_value := RSet l; r_ttl := t |} →
    NoDup l' → (∀ x, x ∈ l' ↔ x ≠ m ∧ x ∈ l) →
    documented ks (SREM k m) (put_set k l' t ks) (Int n)
| doc_smembers_none k : ks !! k = None → documented ks (SMEMBERS k) ks (Members [])
| doc_smembers k l l' t : ks !! k = Some {| r_value := RSet l; r_ttl := t |} → l' ≡ₚ l →
    documented ks (SMEMBERS k) ks (Members l')
| doc_expire_none k : ks !! k = None → documented ks (EXPIRE k) ks (Int 0)
| doc_expire k e : ks !! k = Some e →
    documented ks (EXPIRE k) (<[k := {| r_value := r_value e; r_ttl := true |}]> ks) (Int 1)
| doc_compare_hit k s t : ks !! k = Some {| r_value := RStr s; r_ttl := t |} →
    documented ks (COMPARE_DEL k s) (delete k ks) (Int 1)
| doc_compare_miss k token : (∀ t, ks !! k ≠ Some {| r_value := RStr token; r_ttl := t |}) →
    documented ks (COMPARE_DEL k token) ks (Int 0).

(** Time passes and those keys of [lapsed] that have a time to live are gone. *)
Definition lapse_keys (lapsed : list string) (ks : keyspace) : keyspace :=
  filter (λ ke, ¬ (ke.1 ∈ lapsed ∧ r_ttl ke.2 = true)) ks.

Definition holds_string (ks : keyspace) (k : string) : Prop :=
  match ks !! k with Some e => ∃ s, r_value e = RStr s | None => True end.
Definition holds_set (ks : keyspace) (k : string) : Prop :=
  match ks !! k with Some e => ∃ l, r_value e = RSet l | None => True end.

(** The key holds the kind of value the command works on. *)
Definition fits (ks : keyspace) (c : command) : Prop :=
  match c with
  | GET k | GETDEL k | COMPARE_DEL k _ => holds_string ks k
  | SADD k _ | SREM k _ | SMEMBERS k => holds_set ks k
  | SET _ _ _ _ | DEL _ | EXPIRE _ => True
  end.

Class RedisServer (σ : Type) := {
  keys_of : σ → keyspace;
  exec : σ → command → σ * option reply;
  lapse : σ → list string → σ;
}.

Class RedisLaws (σ : Type) `{RedisServer σ} := {
  exec_reply s c r : (exec s c).2 = Some r → documented (keys_of s) c (keys_of (exec s c).1) r;
  exec_error s c : (exec s c).2 = None → keys_of (exec s c).1 = keys_of s;
  exec_fits s c : fits (keys_of s) c → (exec s c).2 ≠ None;
  lapse_law s l : keys_of (lapse s l) = lapse_keys l (keys_of s);
}.

(** ** An instance *)

Definition set_add (m : string) (l : list string) : list string :=
  if decide (m ∈ l) then l else l ++ [m].
Definition set_remove (m : string) (l : list string) : list string := filter (λ x, x ≠ m) l.

Definition ks_exec (ks : keyspace) (c : command) : keyspace * option reply :=
  match c with
  | GET k => match ks !! k with
             | None => (ks, Some Nil)
             | Some {| r_value := RStr s |} => (ks, Some (Bulk s))
             | Some _ => (ks, None)
             end
  | SET k v nx t =>
      match nx, ks !! k with
      | true, Some _ => (ks, Some Nil)
      | _, _ => (<[k := {| r_value := RStr v; r_ttl := t |}]> ks, Some OK)
      end
  | DEL k => (delete k ks, Some (Int (match ks !! k with Some _ => 1 | None => 0 end)))
  | GETDEL k => match ks !! k with
                | None => (ks, Some Nil)
                | Some {| r_value := RStr s |} => (delete k ks, Some (Bulk s))
                | Some _ => (ks, None)
                end
  | SADD k m => match ks !! k with
                | None => (<[k := plain (RSet [m])]> ks, Some (Int 1))
                | Some {| r_value := RSet l; r_ttl := t |} =>
                    (<[k := {| r_value := RSet (remove_dups (set_add m l)); r_ttl := t |}]> ks,
                     Some (Int (if decide (m ∈ l) then 0 else 1)))
                | Some _ => (ks, None)
                end
  | SREM k m => match ks !! k with
                | None => (ks, Some (Int 0))
                | Some {| r_value := RSet l; r_ttl := t |} =>
                    (put_set k (remove_dups (set_remove m l)) t ks,
                     Some (Int (if decide (m ∈ l) then 1 else 0)))
                | Some _ => (ks, None)
                end
  | SMEMBERS k => match ks !! k with
                  | None => (ks, Some (Members []))
                  | Some {| r_value := RSet l |} => (ks, Some (Members l))
                  | Some _ => (ks, None)
                  end
  | EXPIRE k => match ks !! k with
                | None => (ks, Some (Int 0))
                | Some e => (<[k := {| r_value := r_value e; r_ttl := true |}]> ks, Some (Int 1))
                end
  | COMPARE_DEL k token =>
      match ks !! k with
      | Some {| r_value := RStr s |} => if decide (s = token) then (delete k ks, Some (Int 1))
                                        else (ks, Some (Int 0))
      | Some {| r_value := RSet _ |} => (ks, None)
      | None => (ks, Some (Int 0))
      end
  end.

#[export] Instance KeyspaceServer : RedisServer keyspace :=
  {| keys_of := λ ks, ks; exec := ks_exec; lapse := λ ks l, lapse_keys l ks |}.

#[export] Instance KeyspaceLaws : RedisLaws keyspace.
Proof.
  split; [| | |done].
  - intros ks c r. cbn [exec KeyspaceServer keys_of]. destruct c as [k|k v nx t|k|k|k m|k m|k|k|k token];
      cbn [ks_exec].
    + destruct (ks !! k) as [[[s|l] t]|] eqn:E; simpl; intros [= <-]; econstructor; eauto.
    + destruct nx, (ks !! k) eqn:E; simpl; intros [= <-]; econstructor; eauto; done.
    + simpl. intros [= <-]. constructor.
    + destruct (ks !! k) as [[[s|l] t]|] eqn:E; simpl; intros [= <-]; econstructor; eauto.
    + destruct (ks !! k) as [[[s|l] t]|] eqn:E; simpl; intros [= <-]; econstructor; eauto.
      * apply NoDup_remove_dups.
      * intros x. rewrite elem_of_remove_dups. unfold set_add. case_decide; [naive_solver|].
        rewrite elem_of_app, list_elem_of_singleton. naive_solver.
    + destruct (ks !! k) as [[[s|l] t]|] eqn:E; simpl; intros [= <-]; econstructor; eauto.
      * apply NoDup_remove_dups.
      * intros x. rewrite elem_of_remove_dups. unfold set_remove. by rewrite list_elem_of_filter.
    + destruct (ks !! k) as [[[s|l] t]|] eqn:E; simpl; intros [= <-]; econstructor; eauto.
    + destruct (ks !! k) as [e|] eqn:E; simpl; intros [= <-]; econstructor; eauto.
    + destruct (ks !! k) as [[[s|l] t]|] eqn:E; simpl; [|done|].
      * case_decide as Hs; simpl; intros [= <-]; [subst; econstructor; eauto|].
        constructor. intros t' Ht. rewrite E in Ht. by injection Ht as -> _.
      * intros [= <-]. constructor. intros t'. by rewrite E.
  - intros ks c. cbn [exec KeyspaceServer keys_of]. destruct c; cbn [ks_exec];
      repeat case_match; done.
  - intros ks c. cbn [exec KeyspaceServer keys_of]. unfold fits, holds_string, holds_set.
    destruct c; cbn [ks_exec]; intros Hf; repeat case_match; simplify_eq; try done;
      by destruct Hf as [? [=]].
Qed.

(** ** Calls *)

(** What befalls a command. *)
Inductive fate := Succeeds | Fails | FailsApplied | Dies.

Section calls.
Context {σ : Type} `{RedisServer σ}.

Record st := { server : σ; fates : list fate; healthy : bool }.

Definition M (A : Type) : Type := st → st * exit A.

#[global] Instance M_ret : MRet M := λ A a s, (s, Returned a).
#[global] Instance M_bind : MBind M := λ A B f m s,
  match m s with
  | (s', Returned a) => f a s'
  | (s', Threw e) => (s', Threw e)
  | (s', Died) => (s', Died)
  end.

Definition throw {A} (e : string) : M A := λ s, (s, Threw e).

(** [m.catch(() => d)]. *)
Definition catch {A} (m : M A) (d : A) : M A := λ s,
  match m s with (s', Threw _) => (s', Returned d) | r => r end.

(** [try { m } finally { await f }] where [f] does not throw. *)
Definition finally {A} (m : M A) (f : M unit) : M A := λ s,
  match m s with
  | (s', Died) => (s', Died)
  | (s', x) => match f s' with (s'', Died) => (s'', Died) | (s'', _) => (s'', x) end
  end.

(** One command of the client: [None] when it failed. *)
Definition cmd (c : command) : M (option reply) := λ s,
  let f := default Succeeds (head (fates s)) in
  let rest := tail (fates s) in
  match f with
  | Succeeds => let '(sv, r) := exec (server s) c in
                ({| server := sv; fates := rest; healthy := healthy s |}, Returned r)
  | Fails => ({| server := server s; fates := rest; healthy := healthy s |}, Returned None)
  | FailsApplied => ({| server := (exec (server s) c).1; fates := rest; healthy := healthy s |},
                     Returned None)
  | Dies => ({| server := server s; fates := rest; healthy := healthy s |}, Died)
  end.

Definition logDegraded : M unit := λ s,
  ({| server := server s; fates := fates s; healthy := false |}, Returned tt).
Definition throwUnavailable {A} : M A := _ ← logDegraded; throw "ServiceUnavailable".

(** A command whose failure is logged and answered with [d]. *)
Definition degrading {A} (c : command) (f : reply → A) (d : A) : M A :=
  r ← cmd c;
  match r with Some r => mret (f r) | None => _ ← logDegraded; mret d end.

(** A command whose failure is thrown. *)
Definition throwing {A} (c : command) (f : reply → A) : M A :=
  r ← cmd c;
  match r with Some r => mret (f r) | None => throwUnavailable end.

Definition bulk_of (r : reply) : option string := match r with Bulk s => Some s | _ => None end.
Definition is_OK (r : reply) : bool := match r with OK => true | _ => false end.
Definition members_of (r : reply) : list string := match r with Members l => l | _ => [] end.

Definition get (k : string) : M (option string) := degrading (GET k) bulk_of None.
(** [set(key, value)]: whether it answered ['OK']. *)
Definition set (k v : string) : M bool := degrading (SET k v false false) is_OK false.
Definition setEx (k v : string) : M unit := degrading (SET k v false true) (λ _, tt) tt.
Definition del (k : string) : M unit := degrading (DEL k) (λ _, tt) tt.
Definition getDel (k : string) : M (option string) := throwing (GETDEL k) bulk_of.
Definition sAdd (k m : string) : M unit := degrading (SADD k m) (λ _, tt) tt.
Definition sRem (k m : string) : M unit := degrading (SREM k m) (λ _, tt) tt.
Definition sMembers (k : string) : M (list string) := degrading (SMEMBERS k) members_of [].
Definition sMembersOrThrow (k : string) : M (list string) := throwing (SMEMBERS k) members_of.
Definition getOrThrow (k : string) : M (option string) := throwing (GET k) bulk_of.
Definition setOrThrow (k v : string) : M unit := throwing (SET k v false false) (λ _, tt).
Definition acquireLockOrThrow (k token : string) : M bool := throwing (SET k token true true) is_OK.
Definition releaseLockOrThrow (k token : string) : M unit :=
  throwing (COMPARE_DEL k token) (λ _, tt).
Definition expire (k : string) : M bool :=
  degrading (EXPIRE k) (λ r, match r with Int n => negb (n =? 0) | _ => false end) false.
Definition setNx (k : string) : M bool := degrading (SET k "1" true true) is_OK false.
Definition setNxValue (k v : string) : M bool := degrading (SET k v true true) is_OK false.

(** [for (const x of l) await f(x)]. *)
Fixpoint for_each {A} (f : A → M unit) (l : list A) : M unit :=
  match l with [] => mret tt | x :: l => _ ← f x; for_each f l end.

Definition cacheSet (k v : string) (tags : list string) : M unit :=
  _ ← setEx k v; for_each (λ tag, sAdd ("cache-index:" +:+ tag) k) tags.

Definition invalidateTag (tag : string) : M unit :=
  let indexKey := "cache-index:" +:+ tag in
  keys ← sMembers indexKey;
  _ ← for_each del keys;
  del indexKey.
End calls.
Arguments st σ : clear implicits.
Arguments M σ A : clear implicits.

(** ** A Hoare logic for calls

    [triple I P m Q]: from a keyspace satisfying [P], if [m] returns [a] the
    keyspace satisfies [Q a], and if it throws or its process dies it satisfies the
    crash invariant [I]. *)
Section logic.
Context {σ : Type} `{RedisLaws σ}.
Context (I : keyspace → Prop).

Definition ks_of (s : st σ) : keyspace := keys_of (server s).

Definition triple {A} (P : keyspace → Prop) (m : M σ A) (Q : A → keyspace → Prop) : Prop :=
  ∀ s, P (ks_of s) →
    match (m s).2 with
    | Returned a => Q a (ks_of (m s).1)
    | Threw _ | Died => I (ks_of (m s).1)
    end.

Lemma triple_ret {A} P (a : A) Q : (∀ ks, P ks → Q a ks) → triple P (mret a) Q.
Proof. intros HP s Hs. by apply HP. Qed.

Lemma triple_bind {A B} P (m : M σ A) (f : A → M σ B) R Q :
  triple P m R → (∀ a, triple (R a) (f a) Q) → triple P (m ≫= f) Q.
Proof.
  intros Hm Hf s Hs. specialize (Hm s Hs). unfold mbind, M_bind.
  destruct (m s) as [s' [a|e|]]; simpl in *; [by apply Hf|done|done].
Qed.

Lemma triple_weaken {A} (P P' : keyspace → Prop) (m : M σ A) (Q Q' : A → keyspace → Prop) :
  triple P' m Q' → (∀ ks, P ks → P' ks) → (∀ a ks, Q' a ks → Q a ks) → triple P m Q.
Proof.
  intros Hm HP HQ s Hs. specialize (Hm s (HP _ Hs)). destruct (m s).2; [by apply HQ|done|done].
Qed.

Lemma triple_pre {A} (P P' : keyspace → Prop) (m : M σ A) Q :
  triple P' m Q → (∀ ks, P ks → P' ks) → triple P m Q.
Proof. intros Hm HP. eapply triple_weaken; eauto. Qed.

Lemma triple_throw {A} P e (Q : A → keyspace → Prop) : (∀ ks, P ks → I ks) → triple P (throw e) Q.
Proof. intros HP s Hs. by apply HP. Qed.

Lemma triple_cmd P c Q :
  (∀ ks, P ks → I ks ∧ Q None ks ∧
     ∀ ks' r, documented ks c ks' r → Q (Some r) ks' ∧ Q None ks') →
  triple P (cmd c) Q.
Proof.
  intros HP s Hs. destruct (HP _ Hs) as (HI & HN & HD). unfold cmd, ks_of in *.
  pose proof (exec_reply (server s) c) as Hr. pose proof (exec_error (server s) c) as He.
  destruct (default Succeeds (head (fates s))); simpl; [| |..]; try done.
  - destruct (exec (server s) c) as [sv [r|]]; simpl in *; [by eapply HD, Hr|by rewrite He].
  - destruct (exec (server s) c) as [sv [r|]]; simpl in *; [by eapply HD, Hr|by rewrite He].
Qed.

Lemma triple_degrading {A} P c (f : reply → A) d Q :
  (∀ ks, P ks → I ks ∧ Q d ks ∧ ∀ ks' r, documented ks c ks' r → Q (f r) ks' ∧ Q d ks') →
  triple P (degrading c f d) Q.
Proof.
  intros HP. unfold degrading.
  apply (triple_bind _ _ _ (λ x ks, match x with Some r => Q (f r) ks | None => Q d ks end)).
  - apply triple_cmd. intros ks Hks. destruct (HP ks Hks) as (HI & HN & HD).
    split; [done|]. split; [done|]. intros ks' r Hd. by apply HD.
  - intros [r|]; [by apply triple_ret|].
    apply (triple_bind _ _ _ (λ _, Q d)); [by intros s Hs|]. intros _. by apply triple_ret.
Qed.

Lemma triple_throwing {A} P c (f : reply → A) Q :
  (∀ ks, P ks → I ks ∧ ∀ ks' r, documented ks c ks' r → Q (f r) ks' ∧ I ks') →
  triple P (throwing c f) Q.
Proof.
  intros HP. unfold throwing.
  apply (triple_bind _ _ _ (λ x ks, match x with Some r => Q (f r) ks | None => I ks end)).
  - apply triple_cmd. intros ks Hks. destruct (HP ks Hks) as (HI & HD).
    split; [done|]. split; [done|]. intros ks' r Hd. by apply HD.
  - intros [r|]; [by apply triple_ret|]. by intros s Hs.
Qed.

Lemma triple_catch {A} P (m : M σ A) d Q :
  triple P m Q → (∀ ks, I ks → Q d ks) → triple P (catch m d) Q.
Proof.
  intros Hm HI s Hs. specialize (Hm s Hs). unfold catch.
  destruct (m s) as [s' [a|e|]]; simpl in *; auto.
Qed.

Definition never_throws {A} (m : M σ A) : Prop := ∀ s e, (m s).2 ≠ Threw e.

Lemma catch_never_throws {A} (m : M σ A) d : never_throws (catch m d).
Proof. intros s e. unfold catch. by destruct (m s) as [s' [a|e'|]]. Qed.

Lemma triple_finally {A} P (m : M σ A) f Q :
  triple P m Q → never_throws f → (∀ a, triple (Q a) f (λ _, Q a)) → triple I f (λ _, I) →
  triple P (finally m f) Q.
Proof.
  intros Hm Hnt Hf HfI s Hs. specialize (Hm s Hs). unfold finally.
  destruct (m s) as [s' [a|e|]]; simpl in *; [| |done].
  - specialize (Hf a s' Hm). specialize (Hnt s').
    destruct (f s') as [s'' [u|e|]]; simpl in *; [done|by destruct (Hnt e)|done].
  - specialize (HfI s' Hm). by destruct (f s') as [s'' [u|e'|]].
Qed.

(** Facts that do not depend on the keyspace, and values a condition speaks of. *)
Lemma triple_pure {A} (φ : Prop) P (m : M σ A) Q :
  (φ → triple P m Q) → triple (λ ks, φ ∧ P ks) m Q.
Proof. intros Hm s [Hφ Hs]. by apply Hm. Qed.

Lemma triple_exists {A B} (P : B → keyspace → Prop) (m : M σ A) Q :
  (∀ x, triple (P x) m Q) → triple (λ ks, ∃ x, P x ks) m Q.
Proof. intros Hm s [x Hs]. by eapply Hm. Qed.

(** A loop keeps what every round keeps. *)
Lemma triple_for_each {A} (R : keyspace → Prop) (f : A → M σ unit) l :
  (∀ x, x ∈ l → triple R (f x) (λ _, R)) → triple R (for_each f l) (λ _, R).
Proof.
  induction l as [|x l IH]; intros Hf; cbn [for_each]; [by apply triple_ret|].
  apply (triple_bind _ _ _ (λ _, R)); [apply Hf, list_elem_of_here|].
  intros _. apply IH. intros y Hy. by apply Hf, list_elem_of_further.
Qed.
End logic.

Lemma triple_crash {σ} `{RedisLaws σ} {A} (I I' P : keyspace → Prop) (m : M σ A) Q :
  triple I P m Q → (∀ ks, I ks → I' ks) → triple I' P m Q.
Proof. intros Hm HI s Hs. specialize (Hm s Hs). destruct (m s).2; auto. Qed.

(** ** Calls that send only some commands

    [only C m]: whatever the fates, [m] keeps every condition that the commands in
    [C] keep, so no other command reaches the server. *)
Section only.
Context {σ : Type} `{RedisLaws σ}.
Context (C : command → Prop).

Definition keeps_ (I : keyspace → Prop) : Prop :=
  ∀ c ks ks' r, C c → documented ks c ks' r → I ks → I ks'.

Definition only {A} (m : M σ A) : Prop := ∀ I, keeps_ I → triple I I m (λ _, I).

Lemma only_ret {A} (a : A) : only (mret a).
Proof. intros I _. by apply triple_ret. Qed.

Lemma only_throw {A} e : only (throw (A := A) e).
Proof. intros I _. by apply triple_throw. Qed.

Lemma only_bind {A B} (m : M σ A) (f : A → M σ B) : only m → (∀ a, only (f a)) → only (m ≫= f).
Proof. intros Hm Hf I HI. apply (triple_bind _ _ _ _ (λ _, I)); [by apply Hm|]. intros a. by apply Hf. Qed.

Lemma only_degrading {A} c (f : reply → A) d : C c → only (degrading c f d).
Proof.
  intros Hc I HI. apply triple_degrading. intros ks Hk. split; [done|]. split; [done|].
  intros ks' r Hd. split; by eapply HI.
Qed.

Lemma only_throwing {A} c (f : reply → A) : C c → only (throwing c f).
Proof.
  intros Hc I HI. apply triple_throwing. intros ks Hk. split; [done|].
  intros ks' r Hd. split; by eapply HI.
Qed.

Lemma only_catch {A} (m : M σ A) d : only m → only (catch m d).
Proof. intros Hm I HI. apply triple_catch; [by apply Hm|done]. Qed.

Lemma only_finally {A} (m : M σ A) f : only m → never_throws f → only f → only (finally m f).
Proof.
  intros Hm Hn Hf I HI. apply triple_finally; [by apply Hm|done| |]; [intros _|]; by apply Hf.
Qed.

Lemma only_for_each {A} (f : A → M σ unit) l : (∀ x, x ∈ l → only (f x)) → only (for_each f l).
Proof. intros Hf I HI. apply triple_for_each. intros x Hx. by apply Hf. Qed.
End only.

(** ** Calls that succeed

    [live P m Q]: from a keyspace satisfying [P], with no command failing, [m]
    returns, and what it returns satisfies [Q]. *)
Section live.
Context {σ : Type} `{RedisLaws σ}.

Definition live {A} (P : keyspace → Prop) (m : M σ A) (Q : A → keyspace → Prop) : Prop :=
  ∀ s, fates s = [] → P (ks_of s) →
    ∃ s' a, m s = (s', Returned a) ∧ fates s' = [] ∧ Q a (ks_of s').

Lemma live_ret {A} P (a : A) Q : (∀ ks, P ks → Q a ks) → live P (mret a) Q.
Proof. intros HP s Hf Hs. exists s, a. split; [done|]. split; [done|]. by apply HP. Qed.

Lemma live_bind {A B} P (m : M σ A) (f : A → M σ B) R Q :
  live P m R → (∀ a, live (R a) (f a) Q) → live P (m ≫= f) Q.
Proof.
  intros Hm Hf s Hs HP. destruct (Hm s Hs HP) as (s' & a & E & Hs' & HR).
  destruct (Hf a s' Hs' HR) as (s'' & b & E' & ? & ?). exists s'', b.
  split; [|done]. unfold mbind, M_bind. by rewrite E.
Qed.

Lemma live_weaken {A} (P P' : keyspace → Prop) (m : M σ A) (Q Q' : A → keyspace → Prop) :
  live P' m Q' → (∀ ks, P ks → P' ks) → (∀ a ks, Q' a ks → Q a ks) → live P m Q.
Proof.
  intros Hm HP HQ s Hs Hp. destruct (Hm s Hs (HP _ Hp)) as (s' & a & ? & ? & ?).
  exists s', a. auto.
Qed.

Lemma live_pre {A} (P P' : keyspace → Prop) (m : M σ A) Q :
  live P' m Q → (∀ ks, P ks → P' ks) → live P m Q.
Proof. intros Hm HP. eapply live_weaken; eauto. Qed.

Lemma live_degrading {A} P c (f : reply → A) d Q :
  (∀ ks, P ks → (fits ks c ∨ Q d ks) ∧ ∀ ks' r, documented ks c ks' r → Q (f r) ks') →
  live P (degrading c f d) Q.
Proof.
  intros HP s Hs Hp. destruct (HP _ Hp) as [Hfit Hd]. unfold degrading, cmd, mbind, M_bind.
  rewrite Hs. simpl. pose proof (exec_reply (server s) c) as Hr.
  pose proof (exec_error (server s) c) as He. pose proof (exec_fits (server s) c) as Hx.
  unfold ks_of in *. destruct (exec (server s) c) as [sv [r|]]; simpl in *.
  - eexists _, _. split; [done|]. split; [done|]. by apply Hd, Hr.
  - destruct Hfit as [Hfit|Hq]; [by destruct (Hx Hfit)|].
    eexists _, _. split; [done|]. split; [done|]. simpl. by rewrite He.
Qed.

Lemma live_throwing {A} P c (f : reply → A) Q :
  (∀ ks, P ks → fits ks c ∧ ∀ ks' r, documented ks c ks' r → Q (f r) ks') →
  live P (throwing c f) Q.
Proof.
  intros HP s Hs Hp. destruct (HP _ Hp) as [Hfit Hd]. unfold throwing, cmd, mbind, M_bind.
  rewrite Hs. simpl. pose proof (exec_reply (server s) c) as Hr.
  pose proof (exec_fits (server s) c Hfit) as Hx.
  unfold ks_of in *. destruct (exec (server s) c) as [sv [r|]]; simpl in *; [|done].
  eexists _, _. split; [done|]. split; [done|]. by apply Hd, Hr.
Qed.

Lemma live_catch {A} P (m : M σ A) d Q : live P m Q → live P (catch m d) Q.
Proof.
  intros Hm s Hs Hp. destruct (Hm s Hs Hp) as (s' & a & E & ? & ?). exists s', a.
  split; [|done]. unfold catch. by rewrite E.
Qed.

Lemma live_finally {A} P (m : M σ A) f Q R :
  live P m R → (∀ a, live (R a) f (λ _, Q a)) → live P (finally m f) Q.
Proof.
  intros Hm Hf s Hs Hp. destruct (Hm s Hs Hp) as (s' & a & E & Hs' & HR).
  destruct (Hf a s' Hs' HR) as (s'' & u & E' & ? & ?). exists s'', a.
  split; [|done]. unfold finally. by rewrite E, E'.
Qed.

Lemma live_pure {A} (φ : Prop) P (m : M σ A) Q :
  (φ → live P m Q) → live (λ ks, φ ∧ P ks) m Q.
Proof. intros Hm s Hs [Hφ Hp]. by apply Hm. Qed.
End live.
