(* ===== verification/Threads.v ===== *)
(** * Requests that interleave at every command

    [Redis] runs one call at a time.  Here a request is a tree of the commands it
    sends ([prog]): every [await] of a Redis call of
    [api/src/common/services/redis.service.ts] is a node with a continuation for
    each reply, and so is every effect outside Redis (running a handler).  Any
    number of requests run against one server under a scheduler that picks, command
    by command, whose turn it is and what befalls the command: it succeeds, fails,
    fails after taking effect, or its process dies; keys with a time to live may
    lapse in between.

    [protocol_run] is a rely-guarantee rule: a condition on what each request knows
    and on the keyspace, which every command of every request re-establishes,
    holds throughout every run. *)
From S2P Require Import Prelude Redis.

(** [X] the effects outside Redis, [Y] what they answer. *)
Inductive prog (X Y A : Type) : Type :=
| Ret (a : A)
| Throw (e : string)
| Ask (c : command) (k : option reply → prog X Y A)
| Do (x : X) (k : Y → prog X Y A).
Arguments Ret {X Y A} a.
Arguments Throw {X Y A} e.
Arguments Ask {X Y A} c k.
Arguments Do {X Y A} x k.

Fixpoint prog_bind {X Y A B} (f : A → prog X Y B) (p : prog X Y A) : prog X Y B :=
  match p with
  | Ret a => f a
  | Throw e => Throw e
  | Ask c k => Ask c (λ r, prog_bind f (k r))
  | Do x k => Do x (λ y, prog_bind f (k y))
  end.

#[export] Instance prog_ret {X Y} : MRet (prog X Y) := λ A a, Ret a.
#[export] Instance prog_mbind {X Y} : MBind (prog X Y) := λ A B f p, prog_bind f p.

(** ** The calls of the Redis service, as programs *)
Section calls.
Context {X Y : Type}.

(** A command whose failure is answered with [d]; the log line is left out. *)
Definition degrading {A} (c : command) (f : reply → A) (d : A) : prog X Y A :=
  Ask c (λ r, Ret (match r with Some r => f r | None => d end)).

Definition get (k : string) : prog X Y (option string) := degrading (GET k) bulk_of None.
Definition set (k v : string) (ttl : bool) : prog X Y bool := degrading (SET k v false ttl) is_OK false.
Definition setEx (k v : string) : prog X Y unit := degrading (SET k v false true) (λ _, tt) tt.
Definition del (k : string) : prog X Y unit := degrading (DEL k) (λ _, tt) tt.
Definition setNx (k : string) : prog X Y bool := degrading (SET k "1" true true) is_OK false.
Definition setNxValue (k v : string) : prog X Y bool := degrading (SET k v true true) is_OK false.
End calls.

(** The key a command names. *)
Definition key_of (c : command) : string :=
  match c with
  | GET k | SET k _ _ _ | DEL k | GETDEL k | SADD k _ | SREM k _ | SMEMBERS k | EXPIRE k
  | COMPARE_DEL k _ => k
  end.

Lemma documented_frame ks c ks' r key : documented ks c ks' r → key_of c ≠ key → ks' !! key = ks !! key.
Proof.
  destruct 1; simpl; intros Hk; try done; rewrite ?lookup_insert_ne, ?lookup_delete_ne by done; try done.
  unfold put_set. destruct l'; [by rewrite lookup_delete_ne|by rewrite lookup_insert_ne].
Qed.

(** Every command and effect of a program satisfies [C] and [E]. *)
Fixpoint sends {X Y A} (C : command → Prop) (E : X → Prop) (p : prog X Y A) : Prop :=
  match p with
  | Ret _ | Throw _ => True
  | Ask c k => C c ∧ ∀ r, sends C E (k r)
  | Do x k => E x ∧ ∀ y, sends C E (k y)
  end.

Lemma sends_bind {X Y A B} C E (p : prog X Y A) (f : A → prog X Y B) :
  sends C E p → (∀ a, sends C E (f a)) → sends C E (p ≫= f).
Proof.
  intros Hp Hf. change (sends C E (prog_bind f p)).
  induction p as [a|e|c k IH|x k IH]; simpl in *; [apply Hf|done| |];
    destruct Hp as [? Hk]; split; try done; intros y; apply IH, Hk.
Qed.

(** ** Interleavings *)
Section sched.
Context {σ : Type} `{RedisServer σ} {X Y A : Type}.

Inductive thread := Running (p : prog X Y A) | Dead.

Record config := { cf_server : σ; cf_threads : list thread; cf_log : list (nat * X * Y) }.

Inductive event :=
| Turn (i : nat) (f : fate)
| Answer (i : nat) (y : Y)
| Expire (l : list string).

Definition put_thread (cf : config) (i : nat) (sv : σ) (t : thread) : config :=
  {| cf_server := sv; cf_threads := <[i := t]> (cf_threads cf); cf_log := cf_log cf |}.

(** One step; an event that does not fit leaves the configuration alone. *)
Definition tick (cf : config) (ev : event) : config :=
  match ev with
  | Turn i f =>
      match cf_threads cf !! i with
      | Some (Running (Ask c k)) =>
          match f with
          | Succeeds => let '(sv, r) := exec (cf_server cf) c in put_thread cf i sv (Running (k r))
          | Fails => put_thread cf i (cf_server cf) (Running (k None))
          | FailsApplied => put_thread cf i (exec (cf_server cf) c).1 (Running (k None))
          | Dies => put_thread cf i (cf_server cf) Dead
          end
      | _ => cf
      end
  | Answer i y =>
      match cf_threads cf !! i with
      | Some (Running (Do x k)) =>
          {| cf_server := cf_server cf; cf_threads := <[i := Running (k y)]> (cf_threads cf);
             cf_log := cf_log cf ++ [(i, x, y)] |}
      | _ => cf
      end
  | Expire l => {| cf_server := lapse (cf_server cf) l; cf_threads := cf_threads cf; cf_log := cf_log cf |}
  end.

Definition run (cf : config) (evs : list event) : config := foldl tick cf evs.

Definition starts (sv : σ) (ps : list (prog X Y A)) : config :=
  {| cf_server := sv; cf_threads := Running <$> ps; cf_log := [] |}.

(** A program on its own, none of whose commands fails; [h] answers its effects.
    The result is the server, how the program ended, and the effects it had. *)
Fixpoint alone (h : X → Y) (sv : σ) (p : prog X Y A) : σ * exit A * list X :=
  match p with
  | Ret a => (sv, Returned a, [])
  | Throw e => (sv, Threw e, [])
  | Ask c k => let '(sv', r) := exec sv c in alone h sv' (k r)
  | Do x k => let '(sv', e, xs) := alone h sv (k (h x)) in (sv', e, x :: xs)
  end.
End sched.
Arguments thread X Y A : clear implicits.
Arguments config σ X Y A : clear implicits.
Arguments event Y : clear implicits.

(** ** A rely-guarantee rule

    [K] is what a request knows.  [holds] relates what all requests know to the
    keyspace and the log, [fine] a request's knowledge to the rest of its program,
    [allowed] the events of the runs considered. *)
Class Protocol (X Y A K : Type) := {
  holds : list K → keyspace → list (nat * X * Y) → Prop;
  fine : nat → K → prog X Y A → Prop;
  allowed : nat → X → Y → Prop;
  stable : string → Prop;
}.

Class ProtocolLaws (X Y A K : Type) `{Protocol X Y A K} := {
  reply_law kns ks l i kn c k ks' r :
    holds kns ks l → kns !! i = Some kn → fine i kn (Ask c k) → documented ks c ks' r →
    (∃ kn', holds (<[i := kn']> kns) ks' l ∧ fine i kn' (k (Some r))) ∧
    (∃ kn', holds (<[i := kn']> kns) ks' l ∧ fine i kn' (k None));
  failed_law kns ks l i kn c k :
    holds kns ks l → kns !! i = Some kn → fine i kn (Ask c k) →
    ∃ kn', holds (<[i := kn']> kns) ks l ∧ fine i kn' (k None);
  effect_law kns ks l i kn x k y :
    holds kns ks l → kns !! i = Some kn → fine i kn (Do x k) → allowed i x y →
    ∃ kn', holds (<[i := kn']> kns) ks (l ++ [(i, x, y)]) ∧ fine i kn' (k y);
  lapse_stable kns ks l keys :
    holds kns ks l → Forall (λ k, ¬ stable k) keys → holds kns (lapse_keys keys ks) l;
}.

Section rule.
Context {σ : Type} `{RedisLaws σ} {X Y A K : Type} `{ProtocolLaws X Y A K}.
Implicit Types cf : config σ X Y A.

Definition sound (ks : keyspace) (ts : list (thread X Y A)) (l : list (nat * X * Y)) : Prop :=
  ∃ kns, length kns = length ts ∧ holds kns ks l ∧
    ∀ i kn p, kns !! i = Some kn → ts !! i = Some (Running p) → fine i kn p.

Definition sound_at cf : Prop := sound (keys_of (cf_server cf)) (cf_threads cf) (cf_log cf).

(** The events of a run that the protocol speaks of. *)
Definition permitted cf (ev : event Y) : Prop :=
  match ev with
  | Turn _ _ => True
  | Answer i y => ∀ x k, cf_threads cf !! i = Some (Running (Do x k)) → allowed i x y
  | Expire l => Forall (λ k, ¬ stable k) l
  end.

(** The requests come one at a time, each event permitted when it happens. *)
Fixpoint all_permitted cf (evs : list (event Y)) : Prop :=
  match evs with [] => True | ev :: evs => permitted cf ev ∧ all_permitted (tick cf ev) evs end.

Lemma sound_put kns ks ts l i t kn' :
  length kns = length ts →
  (∀ i kn p, kns !! i = Some kn → ts !! i = Some (Running p) → fine i kn p) →
  holds (<[i := kn']> kns) ks l → (∀ p, t = Running p → fine i kn' p) → sound ks (<[i := t]> ts) l.
Proof.
  intros Hl Hf Hh Ht. exists (<[i := kn']> kns). rewrite !length_insert. split; [done|].
  split; [done|]. intros j kn p. destruct (decide (i = j)) as [<-|Hij].
  - intros Hk Hp. apply list_lookup_insert_Some in Hk as [(_ & <- & Hi)|[? _]]; [|done].
    rewrite list_lookup_insert_eq in Hp by lia. injection Hp as ->. by apply Ht.
  - rewrite !list_lookup_insert_ne by done. by apply Hf.
Qed.

Lemma tick_sound cf ev : sound_at cf → permitted cf ev → sound_at (tick cf ev).
Proof.
  intros (kns & Hl & Hh & Hf) Hp. unfold sound_at.
  assert (Hget : ∀ i t, cf_threads cf !! i = Some t → ∃ kn, kns !! i = Some kn).
  { intros i t Ht. apply lookup_lt_is_Some_2. rewrite Hl. by eapply lookup_lt_Some. }
  destruct ev as [i f|i y|keys]; simpl in *.
  - destruct (cf_threads cf !! i) as [[[?|?|c k|? ?]|]|] eqn:Ht; try by exists kns.
    destruct (Hget _ _ Ht) as [kn Hkn]. pose proof (Hf i kn _ Hkn Ht) as Hfi.
    destruct (failed_law _ _ _ _ _ _ _ Hh Hkn Hfi) as (kf & Hhf & Hff).
    pose proof (exec_reply (cf_server cf) c) as Hr. pose proof (exec_error (cf_server cf) c) as He.
    destruct (exec (cf_server cf) c) as [sv [r|]]; simpl in *.
    + destruct (reply_law _ _ _ _ _ _ _ _ _ Hh Hkn Hfi (Hr r eq_refl)) as [(k1 & Hh1 & Hf1) (k2 & Hh2 & Hf2)].
      destruct f; simpl; [apply (sound_put kns _ _ _ _ _ k1)|apply (sound_put kns _ _ _ _ _ kf)
        |apply (sound_put kns _ _ _ _ _ k2)|apply (sound_put kns _ _ _ _ _ kf)]; try done; intros ? Ht2; by simplify_eq.
    + specialize (He eq_refl). destruct f; simpl; rewrite ?He; apply (sound_put kns _ _ _ _ _ kf); try done;
        intros ? Ht2; by simplify_eq.
  - destruct (cf_threads cf !! i) as [[[?|?|? ?|x k]|]|] eqn:Ht; try by exists kns.
    destruct (Hget _ _ Ht) as [kn Hkn].
    destruct (effect_law _ _ _ _ _ x k y Hh Hkn (Hf _ _ _ Hkn Ht) (Hp _ _ eq_refl)) as (kn' & Hh' & Hf').
    simpl. apply (sound_put kns _ _ _ _ _ kn'); try done. intros ? Ht2; by simplify_eq.
  - exists kns. split; [done|]. split; [|done]. rewrite lapse_law. by apply lapse_stable.
Qed.

Lemma protocol_run cf evs : sound_at cf → all_permitted cf evs → sound_at (run cf evs).
Proof.
  revert cf. induction evs as [|ev evs IH]; intros cf Hs Hp; [done|].
  destruct Hp as [Hp Hps]. apply IH; [by apply tick_sound|done].
Qed.
End rule.

(** ** Programs on their own

    [yields h sv p Q]: run without interference or failure, [p] ends, and how it
    ends, with the effects it had, satisfies [Q]. *)
Section alone.
Context {σ : Type} `{RedisLaws σ} {X Y : Type} (h : X → Y).

Definition yields {A} (sv : σ) (p : prog X Y A) (Q : σ → exit A → list X → Prop) : Prop :=
  let '(sv', e, xs) := alone h sv p in Q sv' e xs.

Lemma yields_weaken {A} sv (p : prog X Y A) (Q Q' : σ → exit A → list X → Prop) :
  yields sv p Q' → (∀ sv' e xs, Q' sv' e xs → Q sv' e xs) → yields sv p Q.
Proof. unfold yields. destruct (alone h sv p) as [[sv' e] xs]. auto. Qed.

Lemma yields_ask {A} sv c (k : option reply → prog X Y A) Q :
  fits (keys_of sv) c →
  (∀ sv' r, documented (keys_of sv) c (keys_of sv') r → yields sv' (k (Some r)) Q) →
  yields sv (Ask c k) Q.
Proof.
  intros Hf HQ. unfold yields. cbn [alone]. pose proof (exec_fits sv c Hf) as Hn.
  pose proof (exec_reply sv c) as Hr. destruct (exec sv c) as [sv' [r|]]; [|done]. by apply HQ, Hr.
Qed.

Lemma yields_do {A} sv x (k : Y → prog X Y A) Q :
  yields sv (k (h x)) (λ sv' e xs, Q sv' e (x :: xs)) → yields sv (Do x k) Q.
Proof. unfold yields. cbn [alone]. by destruct (alone h sv (k (h x))) as [[sv' e] xs]. Qed.

Section rules.
Context {A : Type} (sv : σ) (k : string) (Q : σ → exit A → list X → Prop).

Lemma yields_get_none (f : option string → prog X Y A) :
  keys_of sv !! k = None → (∀ sv', keys_of sv' = keys_of sv → yields sv' (f None) Q) →
  yields sv (get k ≫= f) Q.
Proof.
  intros Hk HQ. apply yields_ask; [unfold fits, holds_string; by rewrite Hk|].
  intros sv' r Hd. inversion Hd; simplify_eq. by apply HQ.
Qed.

Lemma yields_get v t (f : option string → prog X Y A) :
  keys_of sv !! k = Some {| r_value := RStr v; r_ttl := t |} →
  (∀ sv', keys_of sv' = keys_of sv → yields sv' (f (Some v)) Q) → yields sv (get k ≫= f) Q.
Proof.
  intros Hk HQ. apply yields_ask; [unfold fits, holds_string; rewrite Hk; by exists v|].
  intros sv' r Hd. inversion Hd; simplify_eq. by apply HQ.
Qed.

Lemma yields_setNx_free v (f : bool → prog X Y A) :
  keys_of sv !! k = None →
  (∀ sv', keys_of sv' = <[k := {| r_value := RStr v; r_ttl := true |}]> (keys_of sv) → yields sv' (f true) Q) →
  yields sv (setNxValue k v ≫= f) Q.
Proof.
  intros Hk HQ. apply yields_ask; [done|]. intros sv' r Hd. inversion Hd; simplify_eq. by apply HQ.
Qed.

Lemma yields_setNx_taken v e (f : bool → prog X Y A) :
  keys_of sv !! k = Some e → (∀ sv', keys_of sv' = keys_of sv → yields sv' (f false) Q) →
  yields sv (setNxValue k v ≫= f) Q.
Proof.
  intros Hk HQ. apply yields_ask; [done|]. intros sv' r Hd. inversion Hd; simplify_eq; [naive_solver|].
  by apply HQ.
Qed.

Lemma yields_setEx v (f : unit → prog X Y A) :
  (∀ sv', keys_of sv' = <[k := {| r_value := RStr v; r_ttl := true |}]> (keys_of sv) → yields sv' (f tt) Q) →
  yields sv (setEx k v ≫= f) Q.
Proof. intros HQ. apply yields_ask; [done|]. intros sv' r Hd. inversion Hd; simplify_eq. by apply HQ. Qed.

Lemma yields_del (f : unit → prog X Y A) :
  (∀ sv', keys_of sv' = delete k (keys_of sv) → yields sv' (f tt) Q) → yields sv (del k ≫= f) Q.
Proof. intros HQ. apply yields_ask; [done|]. intros sv' r Hd. inversion Hd; simplify_eq. by apply HQ. Qed.
End rules.
End alone.

(** ** One program, with crashes

    [solo] runs one program whose fortune is a list of decisions, one per command or
    effect: the fate of the command, or what is left open of the effect's answer,
    which [answer] computes from the effects so far.  Out of decisions, the process
    has died. *)
Section solo.
Context {σ : Type} `{RedisLaws σ} {X Y D : Type} (answer : list (X * Y) → X → D → Y).

Fixpoint solo {A} (sv : σ) (l : list (X * Y)) (ds : list (fate + D)) (p : prog X Y A)
    {struct p} : σ * list (X * Y) * exit A :=
  match p with
  | Ret a => (sv, l, Returned a)
  | Throw e => (sv, l, Threw e)
  | Ask c k =>
      match ds with
      | inl Succeeds :: ds => let '(sv', r) := exec sv c in solo sv' l ds (k r)
      | inl Fails :: ds => solo sv l ds (k None)
      | inl FailsApplied :: ds => solo (exec sv c).1 l ds (k None)
      | _ => (sv, l, Died)
      end
  | Do x k =>
      match ds with
      | inr d :: ds => let y := answer l x d in solo sv (l ++ [(x, y)]) ds (k y)
      | _ => (sv, l, Died)
      end
  end.

(** Commands are not refused and do not fail; the process may still die. *)
Definition steady (d : fate + D) : Prop := match d with inl Fails | inl FailsApplied => False | _ => True end.

(** [safe I p Q ks l]: started on [ks] after the effects [l], with no command failing,
    [p] keeps [I] wherever it dies or throws, and what it returns satisfies [Q]. *)
Fixpoint safe {A} (I : keyspace → list (X * Y) → Prop) (p : prog X Y A)
    (Q : A → keyspace → list (X * Y) → Prop) (ks : keyspace) (l : list (X * Y)) : Prop :=
  match p with
  | Ret a => Q a ks l
  | Throw _ => I ks l
  | Ask c k => I ks l ∧ fits ks c ∧ ∀ ks' r, documented ks c ks' r → safe I (k (Some r)) Q ks' l
  | Do x k => I ks l ∧ ∀ d, let y := answer l x d in safe I (k y) Q ks (l ++ [(x, y)])
  end.

Lemma safe_bind {A B} I (p : prog X Y A) (f : A → prog X Y B) Q R ks l :
  safe I p R ks l → (∀ a ks l, R a ks l → safe I (f a) Q ks l) → safe I (p ≫= f) Q ks l.
Proof.
  intros Hp Hf. change (safe I (prog_bind f p) Q ks l). revert ks l Hp.
  induction p as [a|e|c k IH|x k IH]; intros ks l; simpl; [apply Hf|done|..].
  - intros (HI & Hfit & Hk). split; [done|]. split; [done|]. intros ks' r Hd. by apply IH, Hk.
  - intros (HI & Hk). split; [done|]. intros d. apply IH, Hk.
Qed.

Lemma safe_solo {A} I (p : prog X Y A) Q sv l ds :
  safe I p Q (keys_of sv) l → Forall steady ds →
  let '(sv', l', e) := solo sv l ds p in
  match e with Returned a => Q a (keys_of sv') l' | _ => I (keys_of sv') l' end.
Proof.
  revert sv l ds. induction p as [a|e|c k IH|x k IH]; intros sv l ds Hs Hd; simpl in *; [done|done|..].
  - destruct Hs as (HI & Hfit & Hk). destruct Hd as [|[[]|d] ds Hd Hds]; try done.
    pose proof (exec_fits sv c Hfit) as Hn. pose proof (exec_reply sv c) as Hr.
    destruct (exec sv c) as [sv' [r|]]; [|done]. apply (IH _ sv' l ds); [by apply Hk, Hr|done].
  - destruct Hs as (HI & Hk). destruct Hd as [|[f|d] ds Hd Hds]; try done.
    apply (IH _ sv _ ds); [apply Hk|done].
Qed.
End solo.
