(* ===== verification/Idempotency.v ===== *)
(** * Idempotency keys

    Models [api/src/common/services/idempotency.service.ts] and
    [api/src/common/interceptors/idempotency.interceptor.ts]: a mutation submitted
    under an [Idempotency-Key] is run once, and retries get its stored result.

    A request is a program of [Threads], so requests interleave at every Redis
    command.  Running the handler is the effect [Some key], or [None] for a request
    that is not deduplicated; its answer is what the handler returned or threw.
    Random owners and clock readings are fields of the request; the digest of a
    request is [sha256] of the text the code hashes.

    The interceptor does not wait for [complete]; here a request ends once it is
    through, and other requests may run at any of its commands.

    Not modelled: the log lines, and a result that [JSON.stringify] refuses. *)
From S2P Require Import Prelude Json JsonParse Redis Threads.

(** ** Requests and records *)

Record request := {
  rq_idempotent : bool;
  rq_key : option string;
  rq_method : string;
  rq_originalUrl : option string;
  rq_url : string;
  rq_body : option json;
  rq_owner : string;
  rq_pendingAt : Z;
  rq_retryAt : Z;
  rq_completeAt : Z;
}.

(** What a handler came to, with the status code of the response then. *)
Inductive handled :=
| HReturned (result : option json) (statusCode : Z)
| HThrew (message : option string) (statusCode : Z).

Inductive answer :=
| Handled (h : handled)
| Replayed (statusCode : option json) (result : option json).

Notation flow := (prog (option string) handled).

Definition keyOf (key : string) : string := "idem:" +:+ key.
Definition retryClaimOf (key : string) : string := "idem:" +:+ key +:+ ":retry".

(** The value, unless it is falsy. *)
Definition present (o : option json) : option json :=
  match o with Some v => if falsy v then None else Some v | None => None end.

Definition status_is (e : option json) (s : string) : bool :=
  bool_decide (string_of (opt_prop e "status") = Some s).

Section service.
Context (num : string → string) (sha256 : string → string).

Definition getRecord (key : string) : flow (option json) :=
  raw ← get (keyOf key);
  Ret (match truthy raw with Some raw => JSON_parse num raw | None => None end).

Definition pending_record (fingerprint owner : string) (clock : Z) : json :=
  JObj [("status", JStr "pending"); ("fingerprint", JStr fingerprint); ("owner", JStr owner);
        ("createdAt", jint clock)].

Definition markPending (key fingerprint owner : string) (clock : Z) : flow bool :=
  reserved ← setNxValue (keyOf key) (JSON_stringify (pending_record fingerprint owner clock));
  if reserved : bool then Ret true
  else
    current ← getRecord key;
    Ret (status_is current "pending" && bool_decide (string_of (opt_prop current "owner") = Some owner)).

Definition retry_record (fingerprint : string) (clock : Z) : json :=
  JObj [("status", JStr "pending"); ("fingerprint", JStr fingerprint); ("createdAt", jint clock)].

Definition claimRetry (key fingerprint : string) (clock : Z) : flow bool :=
  claimed ← setNxValue (retryClaimOf key) "1";
  if negb claimed then Ret false
  else
    current ← getRecord key;
    if negb (status_is current "error") ||
       negb (bool_decide (string_of (opt_prop current "fingerprint") = Some fingerprint))
    then _ ← del (retryClaimOf key); Ret false
    else _ ← setEx (keyOf key) (JSON_stringify (retry_record fingerprint clock)); Ret true.

Definition final_record (status fingerprint : string) (result : option json) (statusCode : Z)
    (existing : option json) (clock : Z) : list (string * json) :=
  [("status", JStr status); ("fingerprint", JStr fingerprint)] ++
  jfield "result" result ++
  jfield "transactionHash"
    (coalesce (opt_prop result "transactionHash") (coalesce (opt_prop existing "transactionHash") None)) ++
  [("statusCode", jint statusCode);
   ("createdAt", default (jint clock) (coalesce (opt_prop existing "createdAt") None))].

Definition complete (key status : string) (result : option json) (statusCode : Z) (fingerprint : string)
    (clock : Z) : flow unit :=
  existing ← getRecord key;
  _ ← setEx (keyOf key)
        (JSON_stringify (JObj (final_record status fingerprint result statusCode existing clock)));
  del (retryClaimOf key).

Definition fingerprintOf (method path : string) (body : option json) : string :=
  sha256 (JSON_stringify (JObj [("method", JStr method); ("path", JStr path); ("body", default JNull body)])).

(** ** The interceptor *)

Definition conflict_payload : string := "Idempotency-Key reused with a different request payload".
Definition conflict_pending : string := "Request with this Idempotency-Key is already in progress".
Definition conflict_unavailable : string :=
  "Idempotency state unavailable; retry with the same Idempotency-Key".

Definition replay (e : json) : answer :=
  Replayed (match prop e "statusCode" with Some (JNum t) => Some (JNum t) | _ => None end) (prop e "result").

Definition fingerprint_of (rq : request) : string :=
  fingerprintOf (rq_method rq) (default (rq_url rq) (truthy (rq_originalUrl rq))) (rq_body rq).

(** [next.handle().pipe(tap(...))]. *)
Definition execute (rq : request) (key : string) : flow answer :=
  Do (Some key) (λ h,
    _ ← match h with
        | HReturned result code => complete key "success" result code (fingerprint_of rq) (rq_completeAt rq)
        | HThrew message code =>
            complete key "error" (Some (JObj (jfield "message" (JStr <$> message)))) code
              (fingerprint_of rq) (rq_completeAt rq)
        end;
    Ret (Handled h)).

(** A key that could not be reserved. *)
Definition contended (rq : request) (key : string) : flow answer :=
  again ← getRecord key;
  match present again with
  | None => Throw conflict_unavailable
  | Some a =>
      if negb (bool_decide (string_of (prop a "fingerprint") = Some (fingerprint_of rq))) then Throw conflict_payload
      else if status_is (Some a) "success" then Ret (replay a)
      else if status_is (Some a) "pending" then Throw conflict_pending
      else
        claimed ← claimRetry key (fingerprint_of rq) (rq_retryAt rq);
        if negb claimed then Throw conflict_pending else execute rq key
  end.

Definition reserve (rq : request) (key : string) : flow answer :=
  acquired ← markPending key (fingerprint_of rq) (rq_owner rq) (rq_pendingAt rq);
  if acquired : bool then execute rq key else contended rq key.

Definition intercept (rq : request) : flow answer :=
  if negb (rq_idempotent rq) then Do None (λ h, Ret (Handled h))
  else match truthy (rq_key rq) with
  | None => Do None (λ h, Ret (Handled h))
  | Some key =>
      existing ← getRecord key;
      match present existing with
      | None => reserve rq key
      | Some e =>
          if negb (bool_decide (string_of (prop e "fingerprint") = Some (fingerprint_of rq))) then Throw conflict_payload
          else if status_is (Some e) "success" then Ret (replay e)
          else if status_is (Some e) "pending" then Throw conflict_pending
          else reserve rq key
      end
  end.
End service.

(** ** The protocol of one key

    What a request knows: it has not reserved the key; it may have (the reply was
    lost); it holds it; it has run its handler. *)
Inductive knows := Fresh | Tried | Holder | Ran.
#[export] Instance knows_eq_dec : EqDecision knows.
Proof. solve_decision. Defined.

Definition low (kn : knows) : Prop := kn = Fresh ∨ kn = Tried.

(** How often the handler of a request under [key] was run. *)
Definition runs (key : string) (l : list (nat * option string * handled)) : nat :=
  length (filter (λ e, e.1.2 = Some key) l).

Lemma runs_snoc key l i x y :
  runs key (l ++ [(i, x, y)]) = (runs key l + if decide (x = Some key) then 1 else 0)%nat.
Proof.
  unfold runs. rewrite filter_app, length_app, filter_cons, filter_nil. simpl. by case_decide.
Qed.

Section natural_values.
Context (num : string → string).

Lemma natural_opt_prop o k v :
  (∀ e, o = Some e → natural num e = true) → opt_prop o k = Some v → natural num v = true.
Proof.
  destruct o as [[| | | | |l]|]; simpl; try done. intros He. apply natural_jget.
  by apply (He (JObj l)).
Qed.

Lemma coalesce_natural a b v :
  (∀ x, a = Some x → natural num x = true) → (∀ x, b = Some x → natural num x = true) →
  coalesce a b = Some v → natural num v = true.
Proof. destruct a as [[]|]; simpl; intros Ha Hb Hv; try (by apply Hb); apply Ha; congruence. Qed.

End natural_values.

Section protocol.
Context (num : string → string) (sha256 : string → string) (K : string) (rqs : list request).
Notation rkey := (keyOf K).

Definition own (rq : request) : json := pending_record (fingerprint_of sha256 rq) (rq_owner rq) (rq_pendingAt rq).
Definition own_text (rq : request) : string := JSON_stringify (own rq).

(** The text of a stored success. *)
Definition success_text (v : string) : Prop :=
  ∃ l, v = JSON_stringify (JObj l) ∧ natural_obj num l ∧ jget "status" l = Some (JStr "success").

Definition on_key (rq : request) : Prop := rq_idempotent rq = true ∧ truthy (rq_key rq) = Some K.

(** What the key may hold when a request that knows [kn] reads it. *)
Definition readable (rq : request) (kn : knows) (v : string) : Prop :=
  match kn with
  | Fresh => success_text v ∨ ∃ rq', rq' ∈ rqs ∧ on_key rq' ∧ v = own_text rq' ∧ rq_owner rq' ≠ rq_owner rq
  | Tried => success_text v ∨ ∃ rq', rq' ∈ rqs ∧ on_key rq' ∧ v = own_text rq'
  | Holder => v = own_text rq
  | Ran => success_text v ∨ v = own_text rq
  end.

Definition learns (rq : request) (kn : knows) (v : string) : knows :=
  if decide (kn = Tried ∧ v = own_text rq) then Holder else kn.

(** The handler of the key returns, with JSON data. *)
Definition returns (x : option string) (y : handled) : Prop :=
  x = Some K → ∃ result code, y = HReturned result code ∧
    (∀ v, result = Some v → natural num v = true) ∧ Z.abs code ≤ 9007199254740992.

Fixpoint obeys (rq : request) (kn : knows) (p : flow answer) : Prop :=
  match p with
  | Ret _ | Throw _ => True
  | Do x k => (x = Some K → kn = Holder) ∧
              ∀ y, returns x y → obeys rq (if decide (x = Some K) then Ran else kn) (k y)
  | Ask c k =>
      (key_of c ≠ rkey ∧ ∀ r, obeys rq kn (k r)) ∨
      match c with
      | GET key =>
          key = rkey ∧ obeys rq kn (k None) ∧ (low kn → obeys rq kn (k (Some Nil))) ∧
          ∀ v, readable rq kn v → obeys rq (learns rq kn v) (k (Some (Bulk v)))
      | SET key v true true =>
          key = rkey ∧ on_key rq ∧ kn = Fresh ∧ v = own_text rq ∧ obeys rq Holder (k (Some OK)) ∧
          obeys rq Fresh (k (Some Nil)) ∧ obeys rq Tried (k None)
      | SET key v false true => key = rkey ∧ kn = Ran ∧ success_text v ∧ ∀ r, obeys rq Ran (k r)
      | _ => False
      end
  end.

(** The state of the key: free, or reserved by a winner [w], who alone may have run. *)
Definition key_state (kns : list knows) (ks : keyspace) (l : list (nat * option string * handled)) : Prop :=
  match ks !! rkey with
  | None => runs K l = 0%nat ∧ ∀ i kn, kns !! i = Some kn → low kn
  | Some e =>
      ∃ w rq kw, rqs !! w = Some rq ∧ on_key rq ∧ kns !! w = Some kw ∧
        (∀ i kn, i ≠ w → kns !! i = Some kn → low kn) ∧
        ((r_value e = RStr (own_text rq) ∧ kw ≠ Fresh ∧ runs K l = if decide (kw = Ran) then 1%nat else 0%nat) ∨
         (∃ v, success_text v ∧ r_value e = RStr v ∧ kw = Ran ∧ runs K l = 1%nat))
  end.

#[local] Instance key_protocol : Protocol (option string) handled answer knows := {|
  holds := key_state;
  fine i kn p := match rqs !! i with Some rq => obeys rq kn p | None => False end;
  allowed _ x y := returns x y;
  stable k := k = rkey;
|}.

(** Owners are random: distinct requests have distinct ones. *)
Hypothesis owners : ∀ i j rq rq', rqs !! i = Some rq → rqs !! j = Some rq' →
  rq_owner rq = rq_owner rq' → i = j.

Lemma own_text_inj rq rq' : own_text rq = own_text rq' → rq_owner rq = rq_owner rq'.
Proof.
  intros Ho. assert (own rq = own rq') as E; [|by injection E].
  apply JSON_stringify_inj; [| |done]; cbn [own pending_record json_ok forallb snd];
    by rewrite jint_ok.
Qed.

Lemma own_text_index i j rq rq' :
  rqs !! i = Some rq → rqs !! j = Some rq' → own_text rq = own_text rq' → i = j.
Proof. intros ?? ?%own_text_inj. by eapply owners. Qed.

Lemma own_not_success rq : ¬ success_text (own_text rq).
Proof.
  intros (l & E & Hn & Hs). assert (own rq = JObj l) as [= <-]; [|by cbn in Hs].
  apply JSON_stringify_inj; [|by apply (natural_ok num)|done].
  cbn [own pending_record json_ok forallb snd]. by rewrite jint_ok.
Qed.

Lemma low_not kn : low kn → kn ≠ Holder ∧ kn ≠ Ran.
Proof. by intros [-> | ->]. Qed.

(** Knowledge that stays among the low levels keeps the state of the key. *)
Lemma key_state_low kns ks l i kn kn' :
  key_state kns ks l → kns !! i = Some kn → (kn = Fresh ∧ kn' = Tried ∨ kn' = kn) →
  key_state (<[i := kn']> kns) ks l.
Proof.
  intros Hk Hi [[-> ->] | ->]; [|by rewrite list_insert_id].
  unfold key_state in *. destruct (ks !! rkey) as [e|].
  - destruct Hk as (w & rq & kw & Hw & Ho & Hkw & Hlow & Hst). exists w, rq, kw.
    assert (i ≠ w) as Hiw.
    { intros ->. rewrite Hi in Hkw. injection Hkw as <-. destruct Hst as [(_ & ? & _)|(v & _ & _ & ? & _)]; done. }
    split; [done|]. split; [done|]. split; [by rewrite list_lookup_insert_ne|]. split; [|done].
    intros j kn Hj. destruct (decide (i = j)) as [<-|Hij]; [|rewrite list_lookup_insert_ne by done; by apply Hlow].
    intros [(_ & <- & _)|[? _]]%list_lookup_insert_Some; [by right|done].
  - destruct Hk as [Hr Hlow]. split; [done|]. intros j kn.
    intros [(_ & <- & _)|[_ ?]]%list_lookup_insert_Some; [by right|by eapply Hlow].
Qed.
Lemma RStr_inj s s' : RStr s = RStr s' → s = s'.
Proof. by intros [= ->]. Qed.

(** The others stay low when the winner's knowledge changes. *)
Lemma low_others (kns : list knows) w kw :
  (∀ i kn, i ≠ w → kns !! i = Some kn → low kn) →
  ∀ i kn, i ≠ w → <[w := kw]> kns !! i = Some kn → low kn.
Proof. intros Hl i kn Hi. rewrite list_lookup_insert_ne by done. by apply Hl. Qed.

Lemma key_state_read kns ks l i rq kn v t :
  key_state kns ks l → kns !! i = Some kn → rqs !! i = Some rq →
  ks !! rkey = Some {| r_value := RStr v; r_ttl := t |} →
  readable rq kn v ∧ key_state (<[i := learns rq kn v]> kns) ks l.
Proof.
  intros Hk Hi Hrq Hv. pose proof Hk as Hk0. unfold key_state in Hk. rewrite Hv in Hk.
  destruct Hk as (w & rqw & kw & Hw & Ho & Hkw & Hlow & Hst). cbn [r_value] in Hst.
  assert (Hin : rqw ∈ rqs) by by eapply list_elem_of_lookup_2.
  destruct (decide (i = w)) as [->|Hiw].
  - rewrite Hi in Hkw. injection Hkw as <-. rewrite Hrq in Hw. injection Hw as <-.
    destruct Hst as [(Ev & Hnf & Hr)|(v' & Hv' & Ev & -> & Hr)]; apply RStr_inj in Ev as ->.
    + split; [destruct kn; simpl; try done; [right; by exists rq|by right]|].
      unfold learns. destruct (decide (kn = Tried ∧ own_text rq = own_text rq)) as [[-> _]|_]; [|by rewrite list_insert_id].
      unfold key_state. rewrite Hv. exists w, rq, Holder.
      split; [done|]. split; [done|]. split; [apply list_lookup_insert_eq; by eapply lookup_lt_Some|].
      split; [by apply low_others|]. left. by rewrite Hr.
    + split; [by left|]. unfold learns. rewrite decide_False by (by intros [? _]). by rewrite list_insert_id.
  - assert (learns rq kn v = kn) as ->.
    { unfold learns. rewrite decide_False; [done|]. intros [_ ->].
      destruct Hst as [(Ev & _)|(v' & Hv' & Ev & _)]; apply RStr_inj in Ev;
        [|rewrite <- Ev in Hv'; by destruct (own_not_success rq)]. apply Hiw. by apply (own_text_index _ _ rq rqw). }
    rewrite list_insert_id by done. split; [|done].
    assert (Hkn := Hlow i kn Hiw Hi).
    destruct Hst as [(Ev & _)|(v' & Hv' & Ev & _)]; apply RStr_inj in Ev as ->;
      [|destruct Hkn as [-> | ->]; by left].
    destruct Hkn as [-> | ->]; right; exists rqw; [|done]. split; [done|]. split; [done|]. split; [done|].
    intros Ho'. apply Hiw. by apply (owners _ _ rq rqw).
Qed.

Lemma key_state_reserve kns ks l i rq t kn' :
  key_state kns ks l → kns !! i = Some Fresh → rqs !! i = Some rq → on_key rq → ks !! rkey = None →
  kn' = Holder ∨ kn' = Tried →
  key_state (<[i := kn']> kns) (<[rkey := {| r_value := RStr (own_text rq); r_ttl := t |}]> ks) l.
Proof.
  intros Hk Hi Hrq Ho Hv Hkn. unfold key_state in *. rewrite Hv in Hk. destruct Hk as [Hr Hlow].
  rewrite lookup_insert_eq. exists i, rq, kn'. split; [done|]. split; [done|].
  split; [apply list_lookup_insert_eq; by eapply lookup_lt_Some|]. split.
  - apply low_others. intros j kn _. by apply Hlow.
  - left. rewrite Hr. by destruct Hkn as [-> | ->].
Qed.

Lemma key_state_ran kns ks l i v t :
  key_state kns ks l → kns !! i = Some Ran → success_text v →
  key_state kns (<[rkey := {| r_value := RStr v; r_ttl := t |}]> ks) l.
Proof.
  intros Hk Hi Hv. unfold key_state in *. rewrite lookup_insert_eq.
  destruct (ks !! rkey) as [e|]; [|destruct Hk as [_ Hlow]; by destruct (low_not _ (Hlow _ _ Hi))].
  destruct Hk as (w & rq & kw & Hw & Ho & Hkw & Hlow & Hst). exists w, rq, kw.
  destruct (decide (i = w)) as [->|Hiw]; [|by destruct (low_not _ (Hlow _ _ Hiw Hi))].
  rewrite Hi in Hkw. injection Hkw as <-. repeat (split; [done|]). right. exists v.
  split; [done|]. split; [done|]. split; [done|]. by destruct Hst as [(_ & _ & Hr)|(v' & _ & _ & _ & ?)].
Qed.

Lemma key_state_handled kns ks l i x y :
  key_state kns ks l → kns !! i = Some Holder → x = Some K →
  key_state (<[i := Ran]> kns) ks (l ++ [(i, x, y)]).
Proof.
  intros Hk Hi ->. unfold key_state in *. rewrite runs_snoc, decide_True by done.
  destruct (ks !! rkey) as [e|]; [|destruct Hk as [_ Hlow]; by destruct (low_not _ (Hlow _ _ Hi))].
  destruct Hk as (w & rq & kw & Hw & Ho & Hkw & Hlow & Hst).
  destruct (decide (i = w)) as [->|Hiw]; [|by destruct (low_not _ (Hlow _ _ Hiw Hi))].
  rewrite Hi in Hkw. injection Hkw as <-. exists w, rq, Ran. split; [done|]. split; [done|].
  split; [apply list_lookup_insert_eq; by eapply lookup_lt_Some|]. split; [by apply low_others|].
  destruct Hst as [(? & _ & Hr)|(v' & _ & _ & ? & _)]; [left|done]. by rewrite Hr.
Qed.

#[local] Instance key_protocol_laws : ProtocolLaws (option string) handled answer knows.
Proof.
  split.
  - intros kns ks l i kn c k ks' r Hk Hi Hf Hd. simpl in Hf. destruct (rqs !! i) as [rq|] eqn:Hrq; [|done].
    simpl in Hf |- *. rewrite Hrq. destruct Hf as [[Hne Hf]|Hf].
    { assert (key_state kns ks' l) as Hk'.
      { unfold key_state. by rewrite (documented_frame _ _ _ _ _ Hd Hne). }
      split; exists kn; rewrite list_insert_id by done; done. }
    destruct c as [key|key v [] []| | | | | | |]; try done.
    + destruct Hf as (-> & Hn & Hnil & Hb). split; [|exists kn; by rewrite list_insert_id; inversion Hd; subst].
      inversion Hd as [? Hl| ? s t Hl| | | | | | | | | | | | | | |]; subst; simplify_eq.
      * exists kn. rewrite list_insert_id by done. split; [done|]. apply Hnil.
        cbn [holds key_protocol] in Hk. unfold key_state in Hk. rewrite Hl in Hk. destruct Hk as [_ Hlow]. by eapply Hlow.
      * destruct (key_state_read _ _ _ _ _ _ _ _ Hk Hi Hrq Hl) as [Hread Hk'].
        exists (learns rq kn s). split; [done|]. by apply Hb.
    + destruct Hf as (-> & Ho & -> & -> & Hok & Hnil & Hn).
      inversion Hd as [| |? ? ? ? Hl|? ? ? e Hl| | | | | | | | | | | | |]; subst; simplify_eq.
      * split; [exists Holder|exists Tried]; (split; [|done]); apply key_state_reserve; auto.
      * split; [exists Fresh; by rewrite list_insert_id|exists Tried]. split; [|done].
        apply (key_state_low _ _ _ _ Fresh); auto.
    + destruct Hf as (-> & -> & Hv & Hr). inversion Hd; subst; simplify_eq.
      split; exists Ran; rewrite list_insert_id by done; (split; [|done]); by eapply key_state_ran.
  - intros kns ks l i kn c k Hk Hi Hf. simpl in Hf |- *. destruct (rqs !! i) as [rq|] eqn:Hrq; [|done].
    simpl in Hf. destruct Hf as [[_ Hf]|Hf]; [exists kn; by rewrite list_insert_id|].
    destruct c as [key|key v [] []| | | | | | |]; try done.
    + exists kn. rewrite list_insert_id by done. by destruct Hf as (_ & ? & _).
    + destruct Hf as (_ & _ & -> & _ & _ & _ & Hn). exists Tried. split; [|done].
      apply (key_state_low _ _ _ _ Fresh); auto.
    + destruct Hf as (_ & -> & _ & Hr). exists Ran. by rewrite list_insert_id.
  - intros kns ks l i kn x k y Hk Hi Hf Hy. simpl in Hf, Hy |- *. destruct (rqs !! i) as [rq|] eqn:Hrq; [|done].
    simpl in Hf. destruct Hf as [Hx Hf]. specialize (Hf y Hy). case_decide as HxK.
    + rewrite (Hx HxK) in Hi. exists Ran. split; [|done]. by apply key_state_handled.
    + exists kn. rewrite list_insert_id by done. split; [|done]. cbn [holds key_protocol] in *. unfold key_state in *.
      rewrite runs_snoc, decide_False, Nat.add_0_r by done. done.
  - intros kns ks l keys Hk Hs. simpl in *. unfold key_state in *.
    assert (lapse_keys keys ks !! rkey = ks !! rkey) as ->; [|done].
    unfold lapse_keys. destruct (ks !! rkey) as [e|] eqn:E.
    + apply map_lookup_filter_Some. split; [done|]. intros [Hin _].
      rewrite Forall_forall in Hs. by apply (Hs rkey).
    + apply map_lookup_filter_None. by left.
Qed.
(** The clocks of the requests of the key are safe integers. *)
Hypothesis clocks : ∀ rq, rq ∈ rqs → on_key rq →
  Z.abs (rq_pendingAt rq) ≤ 9007199254740992 ∧ Z.abs (rq_completeAt rq) ≤ 9007199254740992.

Lemma own_natural rq : rq ∈ rqs → on_key rq →
  natural_obj num [("status", JStr "pending"); ("fingerprint", JStr (fingerprint_of sha256 rq));
    ("owner", JStr (rq_owner rq)); ("createdAt", jint (rq_pendingAt rq))].
Proof.
  intros Hin Ho. destruct (clocks rq Hin Ho) as [Hc _].
  apply natural_literal; [by apply (bool_decide_unpack _)|].
  repeat constructor. by apply natural_jint.
Qed.

(** What a request of the key reads is a reservation or a success. *)
Lemma readable_parse rq kn v : rq ∈ rqs → on_key rq → readable rq kn v →
  ∃ l, truthy (Some v) = Some v ∧ JSON_parse num v = Some (JObj l) ∧ natural_obj num l ∧
    (jget "status" l = Some (JStr "success") ∨
     ∃ rq', JObj l = own rq' ∧ v = own_text rq' ∧ (kn = Fresh → rq_owner rq' ≠ rq_owner rq)).
Proof.
  intros Hin Ho Hr.
  assert (success_text v ∨ ∃ rq', rq' ∈ rqs ∧ on_key rq' ∧ v = own_text rq' ∧
    (kn = Fresh → rq_owner rq' ≠ rq_owner rq)) as [(l & -> & Hn & Hs)|(rq' & Hin' & Ho' & -> & Hne)].
  { destruct kn; simpl in Hr; naive_solver. }
  - exists l. split; [done|]. split; [by apply parse_stringify|]. auto.
  - eexists. split; [done|]. split; [by apply parse_stringify, own_natural|].
    split; [by apply own_natural|]. right. exists rq'. auto.
Qed.

Lemma obeys_getRecord rq kn (f : option json → flow answer) :
  rq ∈ rqs → on_key rq → obeys rq kn (f None) →
  (∀ v l, readable rq kn v → natural_obj num l →
     jget "status" l = Some (JStr "success") ∨
     (∃ rq', JObj l = own rq' ∧ v = own_text rq' ∧ (kn = Fresh → rq_owner rq' ≠ rq_owner rq)) →
     obeys rq (learns rq kn v) (f (Some (JObj l)))) →
  obeys rq kn (getRecord num K ≫= f).
Proof.
  intros Hin Ho HN HS. right. split; [done|]. split; [done|]. split; [done|].
  intros v Hv. destruct (readable_parse rq kn v Hin Ho Hv) as (l & Ht & Hp & Hn & Hs).
  cbn -[truthy]. unfold bulk_of. rewrite Ht, Hp. by apply HS.
Qed.
Lemma retry_not_record : retryClaimOf K ≠ rkey.
Proof.
  unfold retryClaimOf, keyOf. intros E%str_app_inj. apply (f_equal String.length) in E.
  rewrite length_str_app in E. simpl in E. lia.
Qed.

Lemma final_natural fp result code existing clock :
  (∀ v, result = Some v → natural num v = true) → (∀ v, existing = Some v → natural num v = true) →
  Z.abs code ≤ 9007199254740992 → Z.abs clock ≤ 9007199254740992 →
  natural_obj num (final_record "success" fp result code existing clock).
Proof.
  intros Hr He Hc Ht. unfold final_record.
  assert (∀ v, coalesce (opt_prop result "transactionHash")
    (coalesce (opt_prop existing "transactionHash") None) = Some v → natural num v = true) as Hh.
  { intros v. apply coalesce_natural; [intros ?; by apply natural_opt_prop|]. intros x.
    apply coalesce_natural; [intros ?; by apply natural_opt_prop|done]. }
  assert (natural num (default (jint clock) (coalesce (opt_prop existing "createdAt") None)) = true) as Hd.
  { destruct (coalesce (opt_prop existing "createdAt") None) as [x|] eqn:E; [|by apply natural_jint].
    revert E. apply coalesce_natural; [intros ?; by apply natural_opt_prop|done]. }
  apply natural_literal.
  - destruct result, (coalesce _ (coalesce _ None)); by apply (bool_decide_unpack _).
  - rewrite !Forall_app. split; [by repeat constructor|]. split; [|split].
    + destruct result as [v|]; constructor; [|done]. split; [done|]. by apply Hr.
    + destruct (coalesce _ _) as [v|]; constructor; [|done]. split; [done|]. by apply Hh.
    + repeat constructor; [by apply natural_jint|done].
Qed.

Lemma obeys_execute rq : rq ∈ rqs → on_key rq → obeys rq Holder (execute num sha256 rq K).
Proof.
  intros Hin Ho. destruct (clocks rq Hin Ho) as [_ Hc]. split; [done|]. intros y Hy.
  rewrite decide_True by done. destruct (Hy eq_refl) as (result & code & -> & Hr & Hcode).
  assert (∀ ex, (∀ v, ex = Some v → natural num v = true) →
    success_text (JSON_stringify (JObj
      (final_record "success" (fingerprint_of sha256 rq) result code ex (rq_completeAt rq))))) as Hs.
  { intros ex He. eexists. split; [done|]. split; [by apply final_natural|done]. }
  assert (∀ ex, (∀ v, ex = Some v → natural num v = true) →
    obeys rq Ran ((_ ← (_ ← setEx rkey (JSON_stringify (JObj
      (final_record "success" (fingerprint_of sha256 rq) result code ex (rq_completeAt rq))));
      del (retryClaimOf K)); Ret (Handled (HReturned result code))) : flow answer)) as Hw.
  { intros ex He. right. split; [done|]. split; [done|]. split; [by apply Hs|].
    intros r. left. split; [apply retry_not_record|done]. }
  assert (∀ (f : unit → flow answer) p, (getRecord num K ≫= p) ≫= f =
    getRecord num K ≫= (λ x, p x ≫= f)) as Hassoc by done.
  unfold complete. rewrite Hassoc. apply obeys_getRecord; [done|done|by apply Hw|].
  intros v l Hv Hn _. unfold learns. rewrite decide_False by (by intros [? _]).
  apply Hw. intros ? [= <-]. done.
Qed.
(** A stored reservation or success is answered without running anything. *)
Lemma settled_obeys rq kn fp l p :
  jget "status" l = Some (JStr "success") ∨ (∃ rq', JObj l = own rq') →
  obeys rq kn (if negb (bool_decide (string_of (prop (JObj l) "fingerprint") = Some fp)) then Throw conflict_payload
    else if status_is (Some (JObj l)) "success" then Ret (replay (JObj l))
    else if status_is (Some (JObj l)) "pending" then Throw conflict_pending else p).
Proof.
  intros Hl. destruct (negb _); [done|]. unfold status_is. cbn [opt_prop prop].
  destruct Hl as [->|[rq' [= ->]]]; [|done]. by rewrite bool_decide_true.
Qed.

Lemma obeys_contended rq kn : rq ∈ rqs → on_key rq → obeys rq kn (contended num sha256 rq K).
Proof.
  intros Hin Ho. apply obeys_getRecord; [done|done|done|]. intros v l _ _ Hl.
  apply settled_obeys. destruct Hl as [?|(rq' & ? & _)]; eauto.
Qed.

Lemma obeys_reserve rq : rq ∈ rqs → on_key rq → obeys rq Fresh (reserve num sha256 rq K).
Proof.
  intros Hin Ho. right. split; [done|]. split; [done|]. split; [done|]. split; [done|].
  split; [by apply obeys_execute|].
  assert (∀ kn, low kn → obeys rq kn ((acquired ← (current ← getRecord num K;
    Ret (status_is current "pending" && bool_decide (string_of (opt_prop current "owner") = Some (rq_owner rq))));
    if acquired : bool then execute num sha256 rq K else contended num sha256 rq K) : flow answer)) as Hl.
  { intros kn Hkn.
    assert (∀ (f : bool → flow answer) p, (getRecord num K ≫= p) ≫= f =
      getRecord num K ≫= (λ x, p x ≫= f)) as -> by done.
    apply obeys_getRecord; [done|done|by apply obeys_contended|]. intros v l Hv Hn Hs.
    cbn [mbind prog_mbind prog_bind]. unfold status_is. cbn [opt_prop prop].
    destruct Hs as [->|(rq' & [= ->] & -> & Hne)]; [by apply obeys_contended|]. cbn [jget decide].
    rewrite (bool_decide_true (string_of _ = Some "pending")) by done. cbn [andb].
    case_bool_decide as Hw; [|by apply obeys_contended].
    change (Some (rq_owner rq') = Some (rq_owner rq)) in Hw. injection Hw as Hw.
    destruct Hkn as [-> | ->]; [by destruct (Hne eq_refl)|].
    unfold learns. rewrite decide_True; [by apply obeys_execute|]. split; [done|].
    destruct Hv as [Hv|(rq2 & Hin2 & _ & Heq)]; [by destruct (own_not_success rq')|].
    rewrite Heq. apply own_text_inj in Heq.
    apply list_elem_of_lookup_1 in Hin as [i Hi]. apply list_elem_of_lookup_1 in Hin2 as [j Hj].
    assert (i = j) as <- by (apply (owners i j rq rq2); [done|done|congruence]).
    by simplify_eq. }
  split; apply Hl; [by left|by right].
Qed.

Lemma obeys_intercept rq : rq ∈ rqs → on_key rq → obeys rq Fresh (intercept num sha256 rq).
Proof.
  intros Hin Ho. unfold intercept. destruct Ho as [Hi Hk]. rewrite Hi, Hk. cbn [negb].
  apply obeys_getRecord; [done|done|by apply obeys_reserve|]. intros v l _ _ Hl.
  apply settled_obeys. destruct Hl as [?|(rq' & ? & _)]; eauto.
Qed.

(** A request that stays away from the key. *)
Lemma obeys_elsewhere rq kn (p : flow answer) :
  sends (λ c, key_of c ≠ rkey) (λ x, x ≠ Some K) p → obeys rq kn p.
Proof.
  induction p as [a|e|c k IH|x k IH]; simpl; [done|done| |]; intros [H1 H2].
  - left. split; [done|]. intros r. by apply IH.
  - split; [by intros ?|]. intros y _. rewrite decide_False by done. by apply IH.
Qed.
End protocol.

(** ** Requests under other keys *)
Section elsewhere.
Context (num : string → string) (sha256 : string → string).

(** The commands of a request name its record or its retry claim. *)
Definition about (key : string) (c : command) : Prop := key_of c = keyOf key ∨ key_of c = retryClaimOf key.

Lemma intercept_sends rq key :
  rq_idempotent rq = true → truthy (rq_key rq) = Some key →
  sends (about key) (λ x, x = Some key) (intercept num sha256 rq).
Proof.
  intros Hi Hk. unfold intercept. rewrite Hi, Hk. cbn [negb].
  assert (sends (about key) (λ x, x = Some key) (getRecord num key)) as Hget by (split; [by left|done]).
  assert (∀ s r c f t, sends (about key) (λ x, x = Some key) (complete num key s r c f t)) as Hcomplete.
  { intros. apply sends_bind; [done|]. intros ex. split; [by left|]. intros rep. split; [by right|done]. }
  assert (sends (about key) (λ x, x = Some key) (execute num sha256 rq key)) as Hexec.
  { split; [done|]. intros []; (apply sends_bind; [apply Hcomplete|done]). }
  assert (∀ f t, sends (about key) (λ x, x = Some key) (claimRetry num key f t)) as Hclaim.
  { intros. apply sends_bind; [split; [by right|done]|]. intros []; [|done]. apply sends_bind; [done|].
    intros cur. destruct (_ || _); (apply sends_bind; [split; [first [by left|by right]|done]|done]). }
  assert (sends (about key) (λ x, x = Some key) (contended num sha256 rq key)) as Hcont.
  { apply sends_bind; [done|]. intros cur. destruct (present cur); [|done].
    repeat (case_match; try done). apply sends_bind; [apply Hclaim|]. by intros []. }
  assert (sends (about key) (λ x, x = Some key) (reserve num sha256 rq key)) as Hres.
  { apply sends_bind.
    - apply sends_bind; [split; [by left|done]|]. intros []; [done|]. by apply sends_bind.
    - by intros []. }
  apply sends_bind; [done|]. intros cur. destruct (present cur); [|done]. repeat (case_match; try done).
Qed.
End elsewhere.

Lemma sends_mono {X Y A} (C C' : command → Prop) (E E' : X → Prop) (p : prog X Y A) :
  (∀ c, C c → C' c) → (∀ x, E x → E' x) → sends C E p → sends C' E' p.
Proof. intros HC HE. induction p; simpl; naive_solver. Qed.

(** ** Properties *)

(** The other requests do not take this key for their retry claim. *)
Definition apart (K : string) (rq : request) : Prop :=
  ∀ k, truthy (rq_key rq) = Some k → K ≠ k +:+ ":retry".

(** What a run does to the requests under [K]: their handlers do not throw and return
    JSON data, and the record does not lapse. *)
Definition calm {σ} `{RedisServer σ} num (K : string) (cf : config σ (option string) handled answer)
    (ev : event handled) : Prop :=
  match ev with
  | Turn _ _ => True
  | Answer i y => ∀ x k, cf_threads cf !! i = Some (Running (Do x k)) → returns num K x y
  | Expire l => keyOf K ∉ l
  end.

Fixpoint all_calm {σ} `{RedisServer σ} num K (cf : config σ (option string) handled answer)
    (evs : list (event handled)) : Prop :=
  match evs with [] => True | ev :: evs => calm num K cf ev ∧ all_calm num K (tick cf ev) evs end.

Definition at_handler {σ} K (cf : config σ (option string) handled answer) (i : nat) : Prop :=
  ∃ k, cf_threads cf !! i = Some (Running (Do (Some K) k)).

(** *** Runs of interleaved requests *)
Section interleaved.
Context {σ : Type} `{RedisLaws σ} (num : string → string) (sha256 : string → string).
Context (K : string) (rqs : list request).
Hypothesis owners : ∀ i j rq rq', rqs !! i = Some rq → rqs !! j = Some rq' →
  rq_owner rq = rq_owner rq' → i = j.
Hypothesis clocks : ∀ rq, rq ∈ rqs →
  Z.abs (rq_pendingAt rq) ≤ 9007199254740992 ∧ Z.abs (rq_completeAt rq) ≤ 9007199254740992.
Hypothesis others : Forall (apart K) rqs.

#[local] Instance P : Protocol (option string) handled answer knows := key_protocol num sha256 K rqs.
#[local] Instance PL : ProtocolLaws (option string) handled answer knows :=
  key_protocol_laws num sha256 K rqs owners.

Lemma intercept_obeys rq : rq ∈ rqs → obeys num sha256 K rqs rq Fresh (intercept num sha256 rq).
Proof.
  intros Hin.
  destruct (decide (rq_idempotent rq = true ∧ truthy (rq_key rq) = Some K)) as [Ho|Hno].
  { apply obeys_intercept; auto. }
  apply obeys_elsewhere. destruct (rq_idempotent rq) eqn:Hid; [|by unfold intercept; rewrite Hid].
  destruct (truthy (rq_key rq)) as [key|] eqn:Hkey; [|by unfold intercept; rewrite Hid, Hkey].
  eapply sends_mono; [| |by apply intercept_sends].
  - intros c [-> | ->].
    + unfold keyOf. intros E%str_app_inj. subst key. by apply Hno.
    + unfold retryClaimOf, keyOf. intros E%str_app_inj.
      rewrite Forall_forall in others. by apply (others rq Hin key).
  - intros x -> [= ->]. by apply Hno.
Qed.

Lemma start_sound (sv : σ) :
  keys_of sv !! keyOf K = None → sound_at (starts sv (intercept num sha256 <$> rqs)).
Proof.
  intros Hfree. exists (replicate (length rqs) Fresh). simpl. rewrite length_replicate, !length_fmap.
  split; [done|]. split; [unfold key_state; rewrite Hfree; split; [done|]|].
  - intros i kn [-> _]%lookup_replicate. by left.
  - intros i kn p [-> _]%lookup_replicate Hp. rewrite !list_lookup_fmap in Hp.
    destruct (rqs !! i) as [rq|] eqn:Hi; [|done]. injection Hp as <-.
    by apply intercept_obeys, list_elem_of_lookup_2 with i.
Qed.

Lemma calm_permitted evs (cf : config σ (option string) handled answer) :
  all_calm num K cf evs → all_permitted cf evs.
Proof.
  revert cf. induction evs as [|ev evs IH]; intros cf; [done|].
  intros [Hc Hcs]. split; [|by apply IH]. destruct ev as [| |l]; [done|done|]. simpl in *.
  rewrite Forall_forall. by intros k Hk ->.
Qed.

Lemma sound_runs_once (cf : config σ (option string) handled answer) :
  sound_at cf →
  (runs K (cf_log cf) ≤ 1)%nat ∧
  ∀ i, at_handler K cf i → runs K (cf_log cf) = 0%nat ∧ ∀ j, at_handler K cf j → j = i.
Proof.
  intros (kns & Hl & Hst & Hf).
  change (key_state num sha256 K rqs kns (keys_of (cf_server cf)) (cf_log cf)) in Hst.
  assert (∀ i, at_handler K cf i → kns !! i = Some Holder) as Hh.
  { intros i [k Hk]. destruct (lookup_lt_is_Some_2 kns i) as [kn Hkn];
      [rewrite Hl; by eapply lookup_lt_Some|].
    specialize (Hf i kn _ Hkn Hk). simpl in Hf. destruct (rqs !! i); [|done]. destruct Hf as [Hf _].
    by rewrite (Hf eq_refl) in Hkn. }
  unfold key_state in Hst. destruct (keys_of (cf_server cf) !! keyOf K) as [e|].
  - destruct Hst as (w & rq & kw & _ & _ & Hkw & Hlow & Hr).
    assert (∀ i, at_handler K cf i → i = w ∧ kw = Holder) as Hw.
    { intros i Hi%Hh. destruct (decide (i = w)) as [->|Hiw]; [by simplify_eq|].
      by destruct (low_not _ (Hlow _ _ Hiw Hi)). }
    split; [destruct Hr as [(_ & _ & ->)|(v & _ & _ & _ & ->)]; [by case_decide; lia|done]|].
    intros i Hi. destruct (Hw i Hi) as [-> ->]. split.
    + by destruct Hr as [(_ & _ & ->)|(v & _ & _ & ? & _)].
    + intros j Hj. by apply Hw.
  - destruct Hst as [Hr Hlow]. split; [lia|]. intros i Hi%Hh. by destruct (low_not _ (Hlow _ _ Hi)).
Qed.
End interleaved.

(** C8: a mutation runs at most once.  Let any number of requests with distinct owner
    marks and safe-integer clocks, under this key and any others but the one that
    becomes this key with the suffix ":retry" (whose retry lock overwrites this key's
    record: [retry_suffix_collides]), interleave at every Redis command, with commands
    that fail, that fail after taking effect, and processes that die, starting with no
    record of the key.  As long as every handler of the key returns, with JSON data, and
    the record does not expire, at most one of its requests runs its handler, and while one is about to
    run it no other is and none has. *)
Theorem mutation_runs_once {σ} `{RedisLaws σ} num sha256 (K : string) (rqs : list request) (sv : σ) evs :
  (∀ i j rq rq', rqs !! i = Some rq → rqs !! j = Some rq' → rq_owner rq = rq_owner rq' → i = j) →
  (∀ rq, rq ∈ rqs → Z.abs (rq_pendingAt rq) ≤ 9007199254740992 ∧ Z.abs (rq_completeAt rq) ≤ 9007199254740992) →
  Forall (apart K) rqs →
  keys_of sv !! keyOf K = None →
  all_calm num K (starts sv (intercept num sha256 <$> rqs)) evs →
  let cf := run (starts sv (intercept num sha256 <$> rqs)) evs in
  (runs K (cf_log cf) ≤ 1)%nat ∧
  ∀ i, at_handler K cf i → runs K (cf_log cf) = 0%nat ∧ ∀ j, at_handler K cf j → j = i.
Proof.
  intros Hown Hclk Hap Hfree Hcalm cf. eapply (sound_runs_once num sha256 K rqs).
  pose proof (PL num sha256 K rqs Hown). apply protocol_run; [by apply start_sound|by apply calm_permitted].
Qed.

(** *** One request after another *)
Section replay.
Context {σ : Type} `{RedisLaws σ} (num : string → string) (sha256 : string → string) (K : string).
Notation rkey := (keyOf K).
Implicit Types (rq : request) (h : option string → handled) (sv : σ).

Lemma yields_getRecord_none {A} h sv (f : option json → flow A) Q :
  keys_of sv !! rkey = None → (∀ sv', keys_of sv' = keys_of sv → yields h sv' (f None) Q) →
  yields h sv (getRecord num K ≫= f) Q.
Proof.
  intros Hk HQ. by apply (yields_get_none h sv rkey Q (λ raw,
    Ret (match truthy raw with Some raw => JSON_parse num raw | None => None end) ≫= f)).
Qed.

Lemma yields_getRecord {A} h sv l t (f : option json → flow A) Q :
  keys_of sv !! rkey = Some {| r_value := RStr (JSON_stringify (JObj l)); r_ttl := t |} → natural_obj num l →
  (∀ sv', keys_of sv' = keys_of sv → yields h sv' (f (Some (JObj l))) Q) →
  yields h sv (getRecord num K ≫= f) Q.
Proof.
  intros Hk Hn HQ. eapply (yields_get h sv rkey Q _ t (λ raw,
    Ret (match truthy raw with Some raw => JSON_parse num raw | None => None end) ≫= f)); [done|].
  intros sv' E. change (truthy (Some (JSON_stringify (JObj l)))) with (Some (JSON_stringify (JObj l))).
  cbv iota. rewrite parse_stringify by done. by apply HQ.
Qed.

(** What is stored for the outcome of a handler. *)
Definition outcome_record rq (y : handled) (existing : option json) : list (string * json) :=
  match y with
  | HReturned result code => final_record "success" (fingerprint_of sha256 rq) result code existing (rq_completeAt rq)
  | HThrew message code =>
      final_record "error" (fingerprint_of sha256 rq) (Some (JObj (jfield "message" (JStr <$> message)))) code
        existing (rq_completeAt rq)
  end.

Lemma yields_complete {A} h sv status fp result code clock l t (f : unit → flow A) Q :
  keys_of sv !! rkey = Some {| r_value := RStr (JSON_stringify (JObj l)); r_ttl := t |} → natural_obj num l →
  (∀ sv', keys_of sv' = delete (retryClaimOf K) (<[rkey := {| r_value := RStr (JSON_stringify (JObj
      (final_record status fp result code (Some (JObj l)) clock))); r_ttl := true |}]> (keys_of sv)) →
    yields h sv' (f tt) Q) →
  yields h sv (complete num K status result code fp clock ≫= f) Q.
Proof.
  intros Hk Hn HQ. eapply (yields_getRecord h sv l t (λ ex,
    (_ ← setEx rkey (JSON_stringify (JObj (final_record status fp result code ex clock)));
     del (retryClaimOf K)) ≫= f)); [done|done|]. intros sv1 E1.
  apply (yields_setEx h sv1 rkey _ _ (λ _, del (retryClaimOf K) ≫= f)). intros sv2 E2.
  apply yields_del. intros sv3 E3. apply HQ. by rewrite E3, E2, E1.
Qed.

Lemma execute_stores h sv rq l t :
  keys_of sv !! rkey = Some {| r_value := RStr (JSON_stringify (JObj l)); r_ttl := t |} → natural_obj num l →
  yields h sv (execute num sha256 rq K) (λ sv' e xs,
    e = Returned (Handled (h (Some K))) ∧ xs = [Some K] ∧
    keys_of sv' = delete (retryClaimOf K) (<[rkey := {| r_value := RStr (JSON_stringify (JObj
      (outcome_record rq (h (Some K)) (Some (JObj l))))); r_ttl := true |}]> (keys_of sv))).
Proof.
  intros Hk Hn. apply yields_do. destruct (h (Some K)) as [result code|message code];
    (eapply yields_complete; [done|done|]; intros sv' E; split; [done|]; split; [done|exact E]).
Qed.

Lemma first_attempt h sv rq :
  on_key K rq → keys_of sv !! rkey = None → Z.abs (rq_pendingAt rq) ≤ 9007199254740992 →
  yields h sv (intercept num sha256 rq) (λ sv' e xs,
    e = Returned (Handled (h (Some K))) ∧ xs = [Some K] ∧
    keys_of sv' = delete (retryClaimOf K) (<[rkey := {| r_value := RStr (JSON_stringify (JObj
      (outcome_record rq (h (Some K)) (Some (own sha256 rq))))); r_ttl := true |}]> (keys_of sv))).
Proof.
  intros [Hi Hkey] Hk Hc. unfold intercept. rewrite Hi, Hkey. cbn [negb].
  apply yields_getRecord_none; [done|]. intros sv1 E1. cbn [present].
  apply (yields_setNx_free h sv1 rkey _ _ (λ reserved : bool, (if reserved then Ret true else _) ≫= λ acquired : bool, _));
    [by rewrite E1|]. intros sv2 E2.
  eapply yields_weaken; [eapply execute_stores with (t := true)|].
  - by rewrite E2, lookup_insert_eq.
  - apply natural_literal; [by apply (bool_decide_unpack _)|]. repeat constructor. by apply natural_jint.
  - intros sv3 e xs (-> & -> & ->). split; [done|]. split; [done|]. by rewrite E2, E1, insert_insert_eq.
Qed.
(** The outcome is JSON data with a status code that is a safe integer. *)
Definition outcome_ok (y : handled) : Prop :=
  match y with
  | HReturned result code => (∀ v, result = Some v → natural num v = true) ∧ Z.abs code ≤ 9007199254740992
  | HThrew _ code => Z.abs code ≤ 9007199254740992
  end.

Lemma outcome_natural rq y :
  Z.abs (rq_pendingAt rq) ≤ 9007199254740992 → Z.abs (rq_completeAt rq) ≤ 9007199254740992 → outcome_ok y →
  natural_obj num (outcome_record rq y (Some (own sha256 rq))).
Proof.
  intros Hp Hc Hy.
  assert (∀ v, Some (own sha256 rq) = Some v → natural num v = true) as He.
  { intros v [= <-]. apply natural_literal; [by apply (bool_decide_unpack _)|].
    repeat constructor. by apply natural_jint. }
  destruct y as [result code|message code]; simpl in Hy |- *.
  - destruct Hy. by apply final_natural.
  - apply final_natural; [|done|done|done]. intros v [= <-]. by destruct message.
Qed.

Lemma mismatch_refused h sv rq l t fp :
  on_key K rq → keys_of sv !! rkey = Some {| r_value := RStr (JSON_stringify (JObj l)); r_ttl := t |} →
  natural_obj num l → jget "fingerprint" l = Some (JStr fp) → fp ≠ fingerprint_of sha256 rq →
  yields h sv (intercept num sha256 rq) (λ _ e xs, e = Threw conflict_payload ∧ xs = []).
Proof.
  intros [Hi Hkey] Hk Hn Hf Hne. unfold intercept. rewrite Hi, Hkey. cbn [negb].
  eapply yields_getRecord; [done|done|]. intros sv1 _. cbn [present falsy prop]. rewrite Hf.
  cbn [string_of]. rewrite bool_decide_false by congruence. done.
Qed.

Lemma success_replayed h sv rq l t :
  on_key K rq → keys_of sv !! rkey = Some {| r_value := RStr (JSON_stringify (JObj l)); r_ttl := t |} →
  natural_obj num l → jget "fingerprint" l = Some (JStr (fingerprint_of sha256 rq)) →
  jget "status" l = Some (JStr "success") →
  yields h sv (intercept num sha256 rq) (λ _ e xs, e = Returned (replay (JObj l)) ∧ xs = []).
Proof.
  intros [Hi Hkey] Hk Hn Hf Hs. unfold intercept. rewrite Hi, Hkey. cbn [negb].
  eapply yields_getRecord; [done|done|]. intros sv1 _. unfold status_is. cbn [present falsy prop opt_prop].
  rewrite Hf, Hs. cbn [string_of]. by rewrite !bool_decide_true.
Qed.

Section taken.
Context {A : Type} (h : option string → handled) (sv : σ) (l : list (string * json)) (t : bool) (fp : string).
Hypothesis Hk : keys_of sv !! rkey = Some {| r_value := RStr (JSON_stringify (JObj l)); r_ttl := t |}.
Hypothesis Hn : natural_obj num l.
Hypothesis Hs : jget "status" l = Some (JStr "error").

Lemma yields_markPending owner clock (f : bool → flow A) Q :
  (∀ sv', keys_of sv' = keys_of sv → yields h sv' (f false) Q) →
  yields h sv (markPending num K fp owner clock ≫= f) Q.
Proof.
  intros HQ.
  set (check := λ current : option json, status_is current "pending" &&
    bool_decide (string_of (opt_prop current "owner") = Some owner)).
  eapply (yields_setNx_taken h sv rkey _ _ _ (λ reserved : bool,
    (if reserved then Ret true else (current ← getRecord num K; Ret (check current))) ≫= f)); [done|].
  intros sv1 E1. eapply (yields_getRecord h sv1 l t (λ current, Ret (check current) ≫= f)); [by rewrite E1|done|].
  intros sv2 E2. assert (check (Some (JObj l)) = false) as ->; [|apply HQ; by rewrite E2].
  unfold check, status_is. cbn [opt_prop prop]. by rewrite Hs.
Qed.

Lemma yields_claimRetry clock (f : bool → flow A) Q :
  jget "fingerprint" l = Some (JStr fp) → keys_of sv !! retryClaimOf K = None →
  (∀ sv' t', keys_of sv' !! rkey = Some {| r_value := RStr (JSON_stringify (retry_record fp clock)); r_ttl := t' |} →
    yields h sv' (f true) Q) →
  yields h sv (claimRetry num K fp clock ≫= f) Q.
Proof.
  intros Hf Hr HQ.
  set (go := λ current : option json,
    if negb (status_is current "error") || negb (bool_decide (string_of (opt_prop current "fingerprint") = Some fp))
    then _ ← del (retryClaimOf K); Ret false
    else _ ← setEx rkey (JSON_stringify (retry_record fp clock)); Ret true : flow bool).
  eapply (yields_setNx_free h sv (retryClaimOf K) _ "1" (λ claimed : bool,
    (if negb claimed then Ret false else (current ← getRecord num K; go current)) ≫= f)); [done|].
  intros sv1 E1. eapply (yields_getRecord h sv1 l t (λ current, go current ≫= f)); [|done|].
  { rewrite E1, lookup_insert_ne; [done|]. apply retry_not_record. }
  intros sv2 E2. unfold go, status_is. cbn [opt_prop prop]. rewrite Hs, Hf. cbn [string_of].
  rewrite !bool_decide_true by done. cbn [negb orb].
  apply (yields_setEx h sv2 rkey _ _ (λ _, Ret true ≫= f)). intros sv3 E3.
  apply (HQ sv3 true). by rewrite E3, lookup_insert_eq.
Qed.
End taken.

Lemma error_retried h sv rq l t :
  on_key K rq → keys_of sv !! rkey = Some {| r_value := RStr (JSON_stringify (JObj l)); r_ttl := t |} →
  natural_obj num l → jget "fingerprint" l = Some (JStr (fingerprint_of sha256 rq)) →
  jget "status" l = Some (JStr "error") → keys_of sv !! retryClaimOf K = None →
  Z.abs (rq_retryAt rq) ≤ 9007199254740992 →
  yields h sv (intercept num sha256 rq) (λ _ e xs, e = Returned (Handled (h (Some K))) ∧ xs = [Some K]).
Proof.
  intros [Hi Hkey] Hk Hn Hf Hs Hr Hc. unfold intercept. rewrite Hi, Hkey. cbn [negb].
  assert (∀ P Q R, (if negb (bool_decide (string_of (prop (JObj l) "fingerprint") = Some (fingerprint_of sha256 rq)))
    then P else if status_is (Some (JObj l)) "success" then Q
    else if status_is (Some (JObj l)) "pending" then Throw conflict_pending else R) = R :> flow answer) as Hgo.
  { intros P Q R. unfold status_is. cbn [prop opt_prop]. rewrite Hf, Hs. cbn [string_of].
    by rewrite bool_decide_true. }
  eapply yields_getRecord; [done|done|]. intros sv1 E1. cbn [present falsy]. rewrite Hgo.
  eapply yields_markPending; [by rewrite E1|done|done|]. intros sv2 E2.
  eapply (yields_getRecord h sv2 l t); [by rewrite E2, E1|done|]. intros sv3 E3. cbn [present falsy]. rewrite Hgo.
  assert (keys_of sv3 = keys_of sv) as E by by rewrite E3, E2.
  eapply yields_claimRetry; rewrite ?E; [done|done|done|done|done|]. intros sv4 t' H4.
  eapply yields_weaken; [eapply execute_stores; [done|]|].
  - apply natural_literal; [by apply (bool_decide_unpack _)|]. repeat constructor. by apply natural_jint.
  - naive_solver.
Qed.
End replay.

(** A retry gets the original answer.  A first request under a key, whose
    commands do not fail, runs its handler.  A later request under the key is
    refused when its method, path or body differ (their digests do); otherwise it
    is answered with the very result and status code of the first run, which is not
    repeated; and if the first run threw, the retry does run. *)
Theorem retry_replays {σ} `{RedisLaws σ} num sha256 (K : string) (rq1 rq2 : request) (sv : σ) h1 h2 :
  on_key K rq1 → on_key K rq2 → keys_of sv !! keyOf K = None → outcome_ok num (h1 (Some K)) →
  Forall (λ t, Z.abs t ≤ 9007199254740992) [rq_pendingAt rq1; rq_completeAt rq1; rq_retryAt rq2] →
  let '(sv1, e1, xs1) := alone h1 sv (intercept num sha256 rq1) in
  let '(_, e2, xs2) := alone h2 sv1 (intercept num sha256 rq2) in
  e1 = Returned (Handled (h1 (Some K))) ∧ xs1 = [Some K] ∧
  if decide (fingerprint_of sha256 rq1 = fingerprint_of sha256 rq2) then
    match h1 (Some K) with
    | HReturned result code => e2 = Returned (Replayed (Some (jint code)) result) ∧ xs2 = []
    | HThrew _ _ => e2 = Returned (Handled (h2 (Some K))) ∧ xs2 = [Some K]
    end
  else e2 = Threw conflict_payload ∧ xs2 = [].
Proof.
  intros Ho1 Ho2 Hfree Hok Ht. rewrite !Forall_cons in Ht. destruct Ht as (Hp & Hc & Hr & _).
  pose proof (first_attempt num sha256 K h1 sv rq1 Ho1 Hfree Hp) as H1. unfold yields in H1.
  destruct (alone h1 sv (intercept num sha256 rq1)) as [[sv1 e1] xs1]. destruct H1 as (-> & -> & E1).
  pose proof (outcome_natural num sha256 rq1 _ Hp Hc Hok) as Hn.
  assert (∃ l, l = outcome_record sha256 rq1 (h1 (Some K)) (Some (own sha256 rq1))) as [l El] by eauto.
  rewrite <- El in E1, Hn.
  assert (keys_of sv1 !! keyOf K = Some {| r_value := RStr (JSON_stringify (JObj l)); r_ttl := true |}) as Hk.
  { rewrite E1, lookup_delete_ne, lookup_insert_eq; [done|]. apply retry_not_record. }
  assert (keys_of sv1 !! retryClaimOf K = None) as Hcl by by rewrite E1, lookup_delete_eq.
  assert (jget "fingerprint" l = Some (JStr (fingerprint_of sha256 rq1))) as Hf by (rewrite El; by destruct (h1 (Some K))).
  case_decide as Hfp.
  - rewrite Hfp in Hf. destruct (h1 (Some K)) as [result code|message code] eqn:Eh.
    + pose proof (success_replayed num sha256 K h2 sv1 rq2 l true Ho2 Hk Hn Hf) as H2. unfold yields in H2.
      destruct (alone h2 sv1 _) as [[sv2 e2] xs2]. rewrite El in H2. destruct H2 as [-> ->]; [done|].
      split; [done|]. split; [done|]. split; [|done]. f_equal. unfold replay, outcome_record, final_record.
      cbn [prop]. f_equal; destruct result as [v|]; try done; simpl; by destruct (coalesce _ _).
    + pose proof (error_retried num sha256 K h2 sv1 rq2 l true Ho2 Hk Hn Hf) as H2. unfold yields in H2.
      destruct (alone h2 sv1 _) as [[sv2 e2] xs2]. destruct H2 as [-> ->]; by rewrite ?El.
  - pose proof (mismatch_refused num sha256 K h2 sv1 rq2 l true _ Ho2 Hk Hn Hf Hfp) as H2. unfold yields in H2.
    destruct (alone h2 sv1 _) as [[sv2 e2] xs2]. by destruct H2 as [-> ->].
Qed.

(** ** Witnesses *)

Definition sample_rq (key owner : string) (t : Z) : request :=
  {| rq_idempotent := true; rq_key := Some key; rq_method := "POST"; rq_originalUrl := Some "/bonds/7/claim";
     rq_url := "/bonds/7/claim"; rq_body := Some (JObj [("amount", JStr "5")]); rq_owner := owner;
     rq_pendingAt := t; rq_retryAt := t + 1; rq_completeAt := t + 2 |}.

Definition sample_ok : handled := HReturned (Some (JObj [("transactionHash", JStr "ab")])) 201.

Definition sample_h (x : option string) : handled := sample_ok.

(** Two requests under one key: the first loses the reply to its reservation, finds
    it is its own, and runs; the second comes in between and is refused. *)
Definition sample_race : list (event handled) :=
  [Turn 0 Succeeds; Turn 1 Succeeds; Turn 0 FailsApplied; Turn 1 Succeeds; Turn 1 Succeeds; Turn 0 Succeeds;
   Turn 1 Succeeds; Answer 0 sample_ok; Turn 0 Succeeds; Turn 0 Succeeds; Turn 0 Succeeds].

Notation idt := (λ s : string, s).
Definition sample_cf : config keyspace (option string) handled answer :=
  starts ∅ (intercept idt idt <$> [sample_rq "k" "o-1" 100; sample_rq "k" "o-2" 200]).

Lemma mutation_runs_once_witness :
  let cf := run sample_cf sample_race in
  runs "k" (cf_log cf) = 1%nat ∧ (runs "k" (cf_log cf) ≤ 1)%nat.
Proof.
  split; [by vm_compute|].
  apply (mutation_runs_once (σ := keyspace) idt idt "k"
    [sample_rq "k" "o-1" 100; sample_rq "k" "o-2" 200] ∅ sample_race).
  - intros [|[|i]] [|[|j]] rq rq' [= <-] [= <-]; done.
  - intros rq [->|[->|[]%not_elem_of_nil]%elem_of_cons]%elem_of_cons; simpl; lia.
  - repeat constructor; intros k [= <-]; done.
  - done.
  - repeat (split; [done|]). split; [|by repeat split]. intros x k _ _.
    eexists _, _. split; [done|]. split; [by intros v [= <-]|done].
Defined.

Lemma retry_replays_witness :
  let '(sv1, e1, xs1) := alone sample_h (∅ : keyspace) (intercept idt idt (sample_rq "k" "o-1" 100)) in
  let '(_, e2, xs2) := alone sample_h sv1 (intercept idt idt (sample_rq "k" "o-2" 200)) in
  e2 = Returned (Replayed (Some (jint 201)) (Some (JObj [("transactionHash", JStr "ab")]))) ∧ xs2 = [].
Proof.
  pose proof (retry_replays (σ := keyspace) idt idt "k" (sample_rq "k" "o-1" 100) (sample_rq "k" "o-2" 200) ∅
    sample_h sample_h) as Hr.
  destruct (alone _ ∅ _) as [[sv1 e1] xs1]. destruct (alone _ sv1 _) as [[sv2 e2] xs2].
  destruct Hr as (_ & _ & Hr); [done|done|done|..].
  - split; [by intros v [= <-]|done].
  - repeat constructor; done.
  - rewrite decide_True in Hr by done. apply Hr.
Defined.

(** ** What the keys do not promise *)

(** A failed attempt can be retried twice at once: the first attempt deletes the
    retry claim after it has published its error, and by then the claim may be
    another request's. *)
Definition double_retry : list (event handled) :=
  [Turn 0 Succeeds; Turn 0 Succeeds; Answer 0 (HThrew None 500); Turn 0 Succeeds; Turn 0 Succeeds] ++
  replicate 6 (Turn 1 Succeeds) ++ [Turn 0 Succeeds] ++ replicate 7 (Turn 2 Succeeds) ++ [Turn 1 Succeeds].

Lemma retries_can_run_twice :
  let cf := run (starts (∅ : keyspace) (intercept idt idt <$>
    [sample_rq "k" "o-1" 100; sample_rq "k" "o-2" 200; sample_rq "k" "o-3" 300]))
    (double_retry ++ [Answer 1 sample_ok; Answer 2 sample_ok]) in
  (λ e, (e.1.1, e.2)) <$> cf_log cf = [(0%nat, HThrew None 500); (1%nat, sample_ok); (2%nat, sample_ok)].
Proof. by vm_compute. Qed.

(** The retry claim of a key is the record of the key with [:retry] after it, and
    completing a request under the first deletes it: the second runs again. *)
Lemma retry_suffix_collides :
  retryClaimOf "k" = keyOf "k:retry" ∧
  let '(sv1, _, xs1) := alone sample_h (∅ : keyspace) (intercept idt idt (sample_rq "k:retry" "o-1" 100)) in
  let '(sv2, _, _) := alone sample_h sv1 (intercept idt idt (sample_rq "k" "o-2" 200)) in
  let '(_, _, xs3) := alone sample_h sv2 (intercept idt idt (sample_rq "k:retry" "o-3" 300)) in
  xs1 = [Some "k:retry"] ∧ xs3 = [Some "k:retry"].
Proof. by vm_compute. Qed.
