(* ===== verification/AdminIntents.v ===== *)
(** * Step-up intents of administrators

    Models [api/src/common/services/intent.service.ts] (verifying a signed intent and
    spending its nonce), [api/src/common/guards/intent.guard.ts] (finding the intent
    and the target of a request, and opening its receipt) and
    [api/src/intent-receipts/intent-receipt.interceptor.ts] (closing it), composed as
    NestJS composes them: guard, interceptor, handler.

    A request is a program of [Threads]: the nonce is spent by a Redis command, and
    the calls of the receipt service and of the handler are effects, whose answer is
    what they returned or threw.  Checking an Ed25519 signature is the argument
    [verify_sig] ([None] when the SDK or [Buffer.from] throws).  An intent is the
    JSON value of a header or of the body, so its fields may have any type.  The
    first reading of the clock is a field of the request; the second only enters the
    time to live of the nonce ([nonce_ttl]), which the scheduler of [Threads] does not
    measure. *)
From S2P Require Import Prelude Json JsonParse Redis Threads.

(** ** Numbers of an intent

    The order of a JSON number and an integer, read off the number's text: the text
    [Number.prototype.toString] gives a double compares with a safe integer as the
    double does. *)
Fixpoint take_digits (s : string) : string * string :=
  match s with
  | String c r => if is_digit c then let '(d, t) := take_digits r in (String c d, t) else (EmptyString, s)
  | EmptyString => (EmptyString, EmptyString)
  end.

Definition digits_value (s : string) : Z := default 0 (decimal_val s).

(** Mantissa and decimal exponent of a number's text. *)
Definition scientific (t : string) : Z * Z :=
  let '(neg, u) := match t with
                   | String c u => if Ascii.eqb c "-"%char then (true, u) else (false, t)
                   | EmptyString => (false, t)
                   end in
  let '(whole, r) := take_digits u in
  let '(frac, r) := match r with String "." r => take_digits r | r => (EmptyString, r) end in
  let e := match r with
           | String "e" (String "-" r) => - digits_value r
           | String "e" (String "+" r) => digits_value r
           | String "e" r => digits_value r
           | _ => 0
           end in
  let m := digits_value (whole +:+ frac) in
  (if neg : bool then - m else m, e - Z.of_nat (String.length frac)).

Definition num_lt (t : string) (z : Z) : bool :=
  let '(m, e) := scientific t in
  if 0 <=? e then m * 10 ^ e <? z else m <? z * 10 ^ (- e).

(** ** Requests *)

Record RequireIntentMeta := { mt_action : string; mt_targetKey : option string; mt_fixedTarget : option string }.

Record request := {
  rq_meta : option RequireIntentMeta;
  rq_header : option (string + json);  (* x-admin-intent: text, or another value *)
  rq_params : option json;
  rq_body : option json;
  rq_method : option string;
  rq_httpCode : option Z;              (* @HttpCode on the handler *)
  rq_now : Z;
}.

Record VerifiedIntent := {
  vi_action : string;
  vi_target : string;
  vi_chain : json;
  vi_expiry : string;
  vi_nonce : json;
  vi_signature : json;
}.

(** [String(v)] of a value that may be [undefined]. *)
Definition text_of (v : option json) : string := match v with Some v => js_String v | None => "undefined" end.

Definition missing (v : option json) : bool := match v with Some v => falsy v | None => true end.
Definition nullish (v : option json) : bool := match v with Some JNull | None => true | _ => false end.

Definition canonical (action target chain expiry nonce : string) : string :=
  action +:+ "|" +:+ target +:+ "|" +:+ chain +:+ "|" +:+ expiry +:+ "|" +:+ nonce.

(** ** Effects *)

(** A text between double quotes, not escaped. *)
Definition quoted (s : string) : string := String dquote (s +:+ String dquote EmptyString).

Inductive effect :=
| Authorize (i : VerifiedIntent)
| Reject (expectedAction expectedTarget : string) (raw : option json) (error : string)
| Handle
| Complete (receiptId : string) (result : Z * string + string).  (* status and body, or error *)

(** Returned, or thrown. *)
Notation reaction := (string + string)%type.
Notation flow := (prog effect reaction).

Section verify.
Context (num : string → string) (verify_sig : string → string → json → option bool) (adminKey : option string).

(** The checks of [verify], up to the nonce. *)
Definition check (raw : option json) (expectedAction expectedTarget : string) (now : Z) :
    result string VerifiedIntent :=
  match raw with
  | Some (JObj _ as o) | Some (JArr _ as o) =>
      let f := prop o in
      _ ← throw_if (missing (f "action") || nullish (f "target") || missing (f "chain") ||
                    bool_decide (f "expiry" = None) || missing (f "nonce") || missing (f "signature"))
            "Admin intent is incomplete (action, target, chain, expiry, nonce, signature required)";
      _ ← throw_if (negb (bool_decide (string_of (f "action") = Some expectedAction)))
            ("Admin intent action mismatch: expected " +:+ quoted expectedAction);
      _ ← throw_if (negb (bool_decide (text_of (f "target") = expectedTarget)))
            ("Admin intent target mismatch: expected " +:+ quoted expectedTarget);
      expiry ← match f "expiry" with
               | Some (JNum t) => if num_lt t now then Err "Admin intent expired" else Ok t
               | _ => Err "Admin intent expired"
               end;
      key ← match truthy adminKey with Some k => Ok k | None => Err "Admin key not configured" end;
      let chain := default JNull (f "chain") in
      let nonce := default JNull (f "nonce") in
      let signature := default JNull (f "signature") in
      let message := canonical expectedAction (text_of (f "target")) (js_String chain) expiry (js_String nonce) in
      _ ← throw_if (negb (default false (verify_sig key message signature))) "Invalid admin intent signature";
      Ok {| vi_action := expectedAction; vi_target := text_of (f "target"); vi_chain := chain;
            vi_expiry := expiry; vi_nonce := nonce; vi_signature := signature |}
  | _ => Err "Admin intent required"
  end.
Definition nonce_key (nonce : string) : string := "admin-intent:" +:+ nonce.

(** Seconds for which a nonce stays spent. *)
Definition nonce_ttl (expiry now : Z) : Z := Z.max 60 (- ((now - expiry) / 1000) + 300).

Definition verify (raw : option json) (expectedAction expectedTarget : string) (now : Z) :
    flow (result string VerifiedIntent) :=
  match check raw expectedAction expectedTarget now with
  | Err e => Ret (Err e)
  | Ok i =>
      reserved ← setNx (nonce_key (js_String (vi_nonce i)));
      Ret (if reserved : bool then Ok i else Err "Admin intent nonce already used (replay rejected)")
  end.

Definition bodyIntent (rq : request) : option json :=
  match rq_body rq with
  | Some b => match prop b "adminIntent" with Some v => if falsy v then None else Some v | None => None end
  | None => None
  end.

Definition extractIntent (rq : request) : result string (option json) :=
  match rq_header rq with
  | Some (inl (String _ _ as h)) =>
      match JSON_parse num h with
      | Some v => Ok (Some v)
      | None => Err "Admin intent header is not valid JSON"
      end
  | Some (inr v) => if falsy v then Ok (bodyIntent rq) else Ok (Some v)
  | _ => Ok (bodyIntent rq)
  end.

(** [meta.fixedTarget ?? String(params?.[k] ?? body?.[k] ?? 'global')]. *)
Definition target_of (m : RequireIntentMeta) (rq : request) : string :=
  match mt_fixedTarget m with
  | Some t => t
  | None =>
      let k := default "id" (mt_targetKey m) in
      let at_ (o : option json) := match o with Some v => prop v k | None => None end in
      match at_ (rq_params rq) with
      | Some JNull | None => match at_ (rq_body rq) with Some JNull | None => "global" | Some v => js_String v end
      | Some v => js_String v
      end
  end.

(** [canActivate]: the receipt it opened, if receipts are kept ([kept]). *)
Definition refuse (kept : bool) (m : RequireIntentMeta) (rq : request) (raw : option json) (e : string) :
    flow (option string) :=
  if kept then _ ← Do (Reject (mt_action m) (target_of m rq) raw e) Ret; Throw e else Throw e.

Definition canActivate (kept : bool) (rq : request) : flow (option string) :=
  match rq_meta rq with
  | None => Ret None
  | Some m =>
      match extractIntent rq with
      | Err e => refuse kept m rq None e
      | Ok raw =>
          v ← verify raw (mt_action m) (target_of m rq) (rq_now rq);
          match v with
          | Err e => refuse kept m rq raw e
          | Ok i =>
              if kept then
                y ← Do (Authorize i) Ret;
                match y with inl id => Ret (Some id) | inr e => Throw e end
              else Ret None
          end
      end
  end.

(** A declared status of zero is not used. *)
Definition successStatus (rq : request) : Z :=
  let implied := if bool_decide (rq_method rq = Some "POST") then 201 else 200 in
  match rq_httpCode rq with Some z => if z =? 0 then implied else z | None => implied end.

(** The interceptor around the handler. *)
Definition intercept (kept : bool) (rq : request) (receipt : option string) : flow string :=
  match kept, receipt with
  | true, Some id =>
      y ← Do Handle Ret;
      _ ← Do (Complete id (match y with inl body => inl (successStatus rq, body) | inr e => inr e end)) Ret;
      match y with inl body => Ret body | inr e => Throw e end
  | _, _ => y ← Do Handle Ret; match y with inl body => Ret body | inr e => Throw e end
  end.

Definition respond (kept : bool) (rq : request) : flow string :=
  receipt ← canActivate kept rq; intercept kept rq receipt.
End verify.

(** ** One nonce *)
Section nonce.
Context (num : string → string) (verify_sig : string → string → json → option bool) (adminKey : option string).
Context (kept : bool) (N : string) (rqs : list request).
Notation nkey := (nonce_key N).

(** The intent a request passes all checks with, nonce apart. *)
Definition valid_intent (rq : request) : option VerifiedIntent :=
  match rq_meta rq with
  | None => None
  | Some m =>
      match extractIntent num rq with
      | Err _ => None
      | Ok raw => match check verify_sig adminKey raw (mt_action m) (target_of m rq) (rq_now rq) with
                  | Ok i => Some i
                  | Err _ => None
                  end
      end
  end.

Definition nonce_of (rq : request) : option string := js_String ∘ vi_nonce <$> valid_intent rq.

Definition is_handle (x : effect) : bool := match x with Handle => true | _ => false end.

(** A run of the handler of a request with this nonce. *)
Definition ran_with (e : nat * effect * reaction) : Prop :=
  is_handle e.1.2 = true ∧ (rqs !! e.1.1 ≫= nonce_of) = Some N.
#[local] Instance ran_with_dec e : Decision (ran_with e).
Proof. unfold ran_with. apply _. Defined.

Definition runs (l : list (nat * effect * reaction)) : nat := length (filter ran_with l).

(** A protected request runs its handler only with a valid intent. *)
Definition warranted (e : nat * effect * reaction) : Prop :=
  is_handle e.1.2 = true → ∀ rq, rqs !! e.1.1 = Some rq → is_Some (rq_meta rq) → is_Some (valid_intent rq).

Inductive knows := Unused | Won | Spent.

Fixpoint obeys (rq : request) (kn : knows) (p : flow string) : Prop :=
  match p with
  | Ret _ | Throw _ => True
  | Do x k =>
      (is_handle x = true → (nonce_of rq = Some N → kn = Won) ∧ (is_Some (rq_meta rq) → is_Some (valid_intent rq))) ∧
      ∀ y, obeys rq (if decide (is_handle x = true ∧ nonce_of rq = Some N) then Spent else kn) (k y)
  | Ask c k =>
      (key_of c ≠ nkey ∧ ∀ r, obeys rq kn (k r)) ∨
      (c = SET nkey "1" true true ∧ kn = Unused ∧ obeys rq Won (k (Some OK)) ∧
       obeys rq Unused (k (Some Nil)) ∧ obeys rq Unused (k None))
  end.

Definition nonce_state (kns : list knows) (ks : keyspace) (l : list (nat * effect * reaction)) : Prop :=
  (ks !! nkey = None → ∀ i kn, kns !! i = Some kn → kn = Unused) ∧
  (∀ i j ki kj, kns !! i = Some ki → kns !! j = Some kj → ki ≠ Unused → kj ≠ Unused → i = j) ∧
  ((runs l = 0%nat ∧ ∀ i, kns !! i ≠ Some Spent) ∨ (runs l = 1%nat ∧ ∃ i, kns !! i = Some Spent)) ∧
  Forall warranted l.

#[local] Instance nonce_protocol : Protocol effect reaction string knows := {|
  holds := nonce_state;
  fine i kn p := match rqs !! i with Some rq => obeys rq kn p | None => False end;
  allowed _ _ _ := True;
  stable k := k = nkey;
|}.

Lemma nonce_runs_snoc l e : runs (l ++ [e]) = (runs l + if decide (ran_with e) then 1 else 0)%nat.
Proof. unfold runs. rewrite filter_app, length_app, filter_cons, filter_nil. by case_decide. Qed.

Lemma insert_self (kns : list knows) i kn : kns !! i = Some kn → <[i := kn]> kns = kns.
Proof. apply list_insert_id. Qed.

(** The winner of a free nonce. *)
Lemma nonce_won kns ks l i ks' :
  nonce_state kns ks l → kns !! i = Some Unused → ks !! nkey = None → is_Some (ks' !! nkey) →
  nonce_state (<[i := Won]> kns) ks' l.
Proof.
  intros (Hfree & Huniq & Hr & Hw) Hi Hk [e He]. specialize (Hfree Hk). repeat split.
  - by rewrite He.
  - intros a b ka kb [(<- & <- & _)|[? Ha]]%list_lookup_insert_Some
      [(<- & <- & _)|[? Hb]]%list_lookup_insert_Some; try done; naive_solver.
  - left. destruct Hr as [[? Hn]|[_ [j Hj]]]; [split; [done|]|by apply Hfree in Hj].
    intros j [(_ & ? & _)|[_ Hj]]%list_lookup_insert_Some; [done|by apply (Hn j)].
  - done.
Qed.

Lemma nonce_spent kns ks l i y rq :
  nonce_state kns ks l → kns !! i = Some Won → rqs !! i = Some rq → nonce_of rq = Some N →
  is_Some (valid_intent rq) → nonce_state (<[i := Spent]> kns) ks (l ++ [(i, Handle, y)]).
Proof.
  intros (Hfree & Huniq & Hr & Hw) Hi Hrq Hn Hv.
  assert (ran_with (i, Handle, y)) as Hran by (split; [done|]; simpl; by rewrite Hrq).
  repeat split.
  - intros Hk. by specialize (Hfree Hk i Won Hi).
  - intros a b ka kb [(<- & <- & _)|[? Ha]]%list_lookup_insert_Some
      [(<- & <- & _)|[? Hb]]%list_lookup_insert_Some; try done; intros; eapply Huniq; eauto; done.
  - right. rewrite nonce_runs_snoc, decide_True by done. split.
    + destruct Hr as [[-> _]|[_ [j Hj]]]; [done|].
      assert (i = j) as <- by (eapply (Huniq i j); done). congruence.
    + exists i. apply list_lookup_insert_eq. by eapply lookup_lt_Some.
  - apply Forall_app. split; [done|]. constructor; [|done]. intros _ rq' Hrq'. simpl in Hrq'. by simplify_eq.
Qed.
(** Steps that leave the knowledge of everyone as it is. *)
Lemma nonce_kept kns ks ks' l :
  nonce_state kns ks l → (ks' !! nkey = None → ks !! nkey = None) → nonce_state kns ks' l.
Proof. intros (Hfree & Hrest) Hk. split; [|done]. intros H. apply Hfree. by apply Hk. Qed.

Lemma nonce_logged kns ks l e :
  nonce_state kns ks l → ¬ ran_with e → warranted e → nonce_state kns ks (l ++ [e]).
Proof.
  intros (Hfree & Huniq & Hr & Hw) Hn Hwe. split; [done|]. split; [done|].
  rewrite nonce_runs_snoc, decide_False, Nat.add_0_r by done. split; [done|]. apply Forall_app. by repeat constructor.
Qed.

#[local] Instance nonce_protocol_laws : ProtocolLaws effect reaction string knows.
Proof.
  split.
  - intros kns ks l i kn c k ks' r Hst Hi Hf Hd. simpl in Hf |- *. destruct (rqs !! i) as [rq|] eqn:Hrq; [|done].
    destruct Hf as [[Hne Hf]|(-> & -> & Hok & Hnil & Hn)].
    + assert (nonce_state kns ks' l) as Hst'.
      { eapply nonce_kept; [done|]. by rewrite (documented_frame _ _ _ _ _ Hd Hne). }
      split; exists kn; by rewrite insert_self.
    + inversion Hd as [| |? ? ? ? Hl|? ? ? e Hl| | | | | | | | | | | | |]; subst; simplify_eq.
      * split; [exists Won|exists Unused; rewrite insert_self by done]; (split; [|done]).
        { eapply nonce_won; [done|done|by apply Hl|]. by rewrite lookup_insert_eq. }
        eapply nonce_kept; [done|]. by rewrite lookup_insert_eq.
      * split; exists Unused; by rewrite insert_self.
  - intros kns ks l i kn c k Hst Hi Hf. simpl in Hf |- *. destruct (rqs !! i) as [rq|] eqn:Hrq; [|done].
    destruct Hf as [[_ Hf]|(_ & -> & _ & _ & Hn)]; [exists kn|exists Unused]; by rewrite insert_self.
  - intros kns ks l i kn x k y Hst Hi Hf _. simpl in Hf |- *. destruct (rqs !! i) as [rq|] eqn:Hrq; [|done].
    destruct Hf as [Hx Hf]. specialize (Hf y). case_decide as Hd.
    + destruct Hd as [Hh Hn]. destruct (Hx Hh) as [HW _]. rewrite (HW Hn) in Hi. exists Spent. split; [|done].
      destruct x; try done. eapply nonce_spent; [done|done|done|done|].
      unfold nonce_of in Hn. by destruct (valid_intent rq).
    + exists kn. rewrite insert_self by done. split; [|done]. apply nonce_logged; [done| |].
      * intros [Hh Hn]. simpl in Hn. rewrite Hrq in Hn. by apply Hd.
      * intros Hh rq' Hrq'. simpl in Hrq', Hh. simplify_eq. by apply Hx.
  - intros kns ks l keys Hst Hs. simpl in *. eapply nonce_kept; [done|].
    intros Hn. unfold lapse_keys in Hn. apply map_lookup_filter_None in Hn as [?|Hn]; [done|].
    destruct (ks !! nkey) as [e|] eqn:E; [|done]. exfalso. apply (Hn e eq_refl). intros [Hin _].
    rewrite Forall_forall in Hs. by apply (Hs nkey).
Qed.

Notation respond := (respond num verify_sig adminKey kept).

(** What follows the guard. *)
Lemma guarded_obeys rq kn receipt :
  (nonce_of rq = Some N → kn = Won) → (is_Some (rq_meta rq) → is_Some (valid_intent rq)) →
  obeys rq kn (intercept kept rq receipt).
Proof.
  intros Hn Hv. unfold intercept.
  assert (∀ (f : reaction → flow string), (∀ y kn', obeys rq kn' (f y)) → obeys rq kn (Do Handle f)) as Hd.
  { intros f Hf. split; [done|]. intros y. apply Hf. }
  destruct kept, receipt; apply Hd; intros [] kn'; try done; (split; [done|]); by intros [].
Qed.

Lemma refuse_obeys rq kn m raw e (f : option string → flow string) :
  obeys rq kn (refuse kept m rq raw e ≫= f).
Proof. unfold refuse. destruct kept; [|done]. split; [done|]. by intros []. Qed.

Lemma respond_obeys rq : obeys rq Unused (respond rq).
Proof.
  unfold AdminIntents.respond, canActivate, nonce_of.
  destruct (rq_meta rq) as [m|] eqn:Hm.
  2: { apply guarded_obeys; [|rewrite Hm; by intros [? [=]]]. unfold nonce_of, valid_intent. by rewrite Hm. }
  destruct (extractIntent num rq) as [raw|e] eqn:Hx; [|apply refuse_obeys].
  unfold verify. destruct (check _ _ _ _ _ _) as [i|e] eqn:Hc; [|apply refuse_obeys].
  assert (valid_intent rq = Some i) as Hv by (unfold valid_intent; by rewrite Hm, Hx, Hc).
  assert (nonce_of rq = Some (js_String (vi_nonce i))) as Hn by (unfold nonce_of; by rewrite Hv).
  assert (∀ kn, (nonce_of rq = Some N → kn = Won) → obeys rq kn
    ((if kept then y ← Do (Authorize i) Ret; match y with inl id => Ret (Some id) | inr e => Throw e end
      else Ret None) ≫= intercept kept rq)) as Hgo.
  { intros kn Hkn. destruct kept eqn:Hk; [|rewrite <- Hk; by apply guarded_obeys].
    split; [done|]. rewrite decide_False by (by intros [? _]). intros [id|e]; [|done].
    rewrite <- Hk. by apply guarded_obeys. }
  destruct (decide (js_String (vi_nonce i) = N)) as [HN|HN].
  - right. split; [by rewrite <- HN|]. split; [done|].
    split; [by apply Hgo|]. split; apply refuse_obeys.
  - left. split; [simpl; intros E%str_app_inj; done|]. intros r. cbn [mbind prog_mbind prog_bind].
    destruct (match r with Some r => is_OK r | None => false end); [|apply refuse_obeys].
    apply Hgo. rewrite Hn. intros [= ?]. done.
Qed.
End nonce.

(** ** What the checks establish *)
Section checks.
Context (verify_sig : string → string → json → option bool) (adminKey : option string).

Lemma check_ok raw action target now i :
  check verify_sig adminKey raw action target now = Ok i →
  vi_action i = action ∧ vi_target i = target ∧ num_lt (vi_expiry i) now = false ∧
  (∃ o, raw = Some o ∧ prop o "expiry" = Some (JNum (vi_expiry i))) ∧
  ∃ k, truthy adminKey = Some k ∧
    verify_sig k (canonical action target (js_String (vi_chain i)) (vi_expiry i) (js_String (vi_nonce i)))
      (vi_signature i) = Some true.
Proof.
  intros Hc.
  destruct raw as [o|]; [|done].
  unfold check in Hc. destruct o; try done; apply bind_ok in Hc as ([] & Hmiss%throw_if_ok & Hc);
    cbn [prop] in *.
  apply bind_ok in Hc as ([] & Ha%throw_if_ok & Hc). apply bind_ok in Hc as ([] & Ht%throw_if_ok & Hc).
  apply negb_false_iff, bool_decide_eq_true in Ht.
  apply bind_ok in Hc as (x & Hx & Hc). apply bind_ok in Hc as (k & Hk & Hc).
  apply bind_ok in Hc as ([] & Hs%throw_if_ok & Hc). injection Hc as <-. simpl.
  destruct (jget "expiry" l) as [[| |t| | |]|] eqn:He; try done.
  destruct (num_lt t now) eqn:Hlt; [done|]. injection Hx as <-.
  destruct (truthy adminKey) as [k'|]; [|done]. injection Hk as ->. rewrite Ht in Hs.
  split; [done|]. split; [done|]. split; [done|]. split; [by exists (JObj l)|].
  exists k. split; [done|]. destruct (verify_sig _ _ _) as [[]|]; try done.
Qed.
End checks.

(** *** Integers as number texts *)

Lemma take_digits_all s : str_forall is_digit s = true → take_digits s = (s, EmptyString).
Proof.
  induction s as [|c s IH]; [done|]. cbn [str_forall take_digits]. intros [-> Hs]%andb_true_iff.
  by rewrite IH.
Qed.

Lemma digits_scientific u (neg : bool) :
  u ≠ Decimal.Nil →
  let s := DecimalString.NilZero.string_of_uint u in
  scientific (if neg then String "-" s else s) = (if neg then - Z.of_uint u else Z.of_uint u, 0).
Proof.
  intros Hu s. unfold scientific. subst s.
  pose proof (string_of_uint0_digits u) as Hd. pose proof (decimal_val_of_uint u Hu) as Hv.
  destruct (string_of_uint0_cons u) as (c & s & Hs & Hc). rewrite Hs in *.
  destruct (digit_not_sign c Hc) as [Hm _].
  destruct neg; cbv beta iota; rewrite ?Hm, ?Ascii.eqb_refl; rewrite take_digits_all by done; unfold digits_value;
    rewrite str_app_nil_r, Hv; simpl; f_equal; lia.
Qed.

Lemma num_lt_int x z : num_lt (Z_to_string x) z = (x <? z).
Proof.
  assert (scientific (Z_to_string x) = (x, 0)) as Hx.
  { unfold Z_to_string. pose proof (DecimalZ.of_to x) as Hz. destruct x as [|p|p]; simpl in *; [done|..].
    - rewrite (digits_scientific _ false) by apply pos_to_uint_nonnil. f_equal. apply Hz.
    - rewrite (digits_scientific _ true) by apply pos_to_uint_nonnil. f_equal. apply Hz. }
  unfold num_lt. rewrite Hx. simpl. by rewrite Z.mul_1_r.
Qed.

(** ** Properties *)

(** C28: an intent is used once, and only if it is valid.  Let any number of requests
    interleave at every Redis command, with failures and crashes, and the nonce not
    lapse.  At most one handler is run for an intent with that nonce; and no
    protected handler is run without an intent for its very action and target, not
    expired when it was checked, that the configured administrator key signed. *)
Theorem intent_single_use {σ} `{RedisLaws σ} num verify_sig adminKey kept N (rqs : list request) (sv : σ) evs :
  Forall (λ ev, match ev with Expire l => nonce_key N ∉ l | _ => True end) evs →
  let cf := run (starts sv (respond num verify_sig adminKey kept <$> rqs)) evs in
  (runs num verify_sig adminKey N rqs (cf_log cf) ≤ 1)%nat ∧
  ∀ i y rq m, (i, Handle, y) ∈ cf_log cf → rqs !! i = Some rq → rq_meta rq = Some m →
    ∃ v k, vi_action v = mt_action m ∧ vi_target v = target_of m rq ∧
      num_lt (vi_expiry v) (rq_now rq) = false ∧ truthy adminKey = Some k ∧
      verify_sig k (canonical (mt_action m) (target_of m rq) (js_String (vi_chain v)) (vi_expiry v)
        (js_String (vi_nonce v))) (vi_signature v) = Some true.
Proof.
  intros Hev cf.
  pose (P := nonce_protocol num verify_sig adminKey N rqs).
  pose proof (nonce_protocol_laws num verify_sig adminKey N rqs) as PL.
  assert (sound_at cf) as (kns & _ & Hst & _).
  { apply protocol_run.
    - exists (replicate (length rqs) Unused). simpl. rewrite length_replicate, !length_fmap. split; [done|]. split.
      + repeat split; try done.
        * by intros _ i kn [-> _]%lookup_replicate.
        * by intros i j ki kj [-> _]%lookup_replicate.
        * left. split; [done|]. by intros i [? _]%lookup_replicate.
      + intros i kn p [-> _]%lookup_replicate Hp. rewrite !list_lookup_fmap in Hp.
        destruct (rqs !! i) as [rq|] eqn:Hi; [|done]. injection Hp as <-. apply respond_obeys.
    - subst cf. generalize (starts sv (respond num verify_sig adminKey kept <$> rqs)).
      induction Hev as [|ev evs Hev _ IH]; intros cf; [done|]. split; [|apply IH].
      destruct ev; try done. simpl in *. rewrite Forall_forall. by intros k Hk ->. }
  destruct Hst as (_ & _ & Hr & Hw). split; [destruct Hr as [[-> _]|[-> _]]; lia|].
  intros i y rq m Hin Hrq Hm. rewrite Forall_forall in Hw.
  destruct (Hw _ Hin eq_refl rq Hrq) as [v Hv]; [by exists m|]. unfold valid_intent in Hv. rewrite Hm in Hv.
  destruct (extractIntent num rq) as [raw|]; [|done]. destruct (check _ _ _ _ _ _) as [v'|] eqn:Hc; [|done].
  injection Hv as ->. apply check_ok in Hc as (? & ? & ? & _ & k & ? & ?). by exists v, k.
Qed.

(** The specification of a protected request that runs alone with receipts kept,
    [h] answering its effects: how it ends, the effects it has, in order, and the
    keys. *)
Definition action_spec num verify_sig adminKey (h : effect → reaction) (m : RequireIntentMeta) (rq : request)
    (ks ks' : keyspace) (e : exit string) (xs : list effect) : Prop :=
  let a := mt_action m in
  let t := target_of m rq in
  let refused raw e0 := e = Threw e0 ∧ xs = [Reject a t raw e0] ∧ ks' = ks in
  match extractIntent num rq with
  | Err e0 => refused None e0
  | Ok raw =>
      match check verify_sig adminKey raw a t (rq_now rq) with
      | Err e0 => refused raw e0
      | Ok i =>
          let key := nonce_key (js_String (vi_nonce i)) in
          if decide (ks !! key = None) then
            ks' = <[key := {| r_value := RStr "1"; r_ttl := true |}]> ks ∧
            match h (Authorize i) with
            | inr e0 => e = Threw e0 ∧ xs = [Authorize i]
            | inl id =>
                match h Handle with
                | inl body => e = Returned body ∧ xs = [Authorize i; Handle; Complete id (inl (successStatus rq, body))]
                | inr e0 => e = Threw e0 ∧ xs = [Authorize i; Handle; Complete id (inr e0)]
                end
            end
          else refused raw "Admin intent nonce already used (replay rejected)"
      end
  end.

(** C29: what a protected request does, on every branch, when it runs alone and its
    commands do not fail: without a readable intent, with one that fails a check, or
    with a spent nonce it is refused with that error, after a rejection receipt and
    without running anything; otherwise the nonce is spent and the receipt opened
    first, if it cannot be the handler does not run, and if it can the handler runs
    and the receipt is closed with its outcome before the response. *)
Theorem protected_action_exact {σ} `{RedisLaws σ} num verify_sig adminKey (sv : σ) h rq m :
  rq_meta rq = Some m →
  let '(sv', e, xs) := alone h sv (respond num verify_sig adminKey true rq) in
  action_spec num verify_sig adminKey h m rq (keys_of sv) (keys_of sv') e xs.
Proof.
  intros Hm.
  enough (yields h sv (respond num verify_sig adminKey true rq) (λ sv' e xs,
    action_spec num verify_sig adminKey h m rq (keys_of sv) (keys_of sv') e xs)) as Hy by exact Hy.
  unfold respond, canActivate, action_spec. rewrite Hm. destruct (extractIntent num rq) as [raw|e0]; [|done].
  unfold verify. destruct (check _ _ _ _ _ _) as [i|e0]; [|done].
  set (key := nonce_key (js_String (vi_nonce i))).
  apply yields_ask; [done|]. intros sv1 r Hd.
  inversion Hd as [| |? ? ? ? Hl Hks|? ? ? e Hl Hks| | | | | | | | | | | | |]; subst.
  - specialize (Hl eq_refl). unfold yields. cbn [alone mbind prog_mbind prog_bind is_OK].
    destruct (h (Authorize i)) as [id|e0] eqn:Ha; cbn [alone prog_bind intercept mbind prog_mbind];
      rewrite ?Ha; [destruct (h Handle) as [body|e0] eqn:Hh; cbn [alone prog_bind]|]; by rewrite decide_True.
  - unfold yields. cbn. by rewrite decide_False by by rewrite Hl.
Qed.

(** A nonce stays spent for as long as its intent could be presented.  When the
    reservation made on accepting an intent may have lapsed, that intent, presented
    for any action and target, is no longer accepted. *)
Theorem nonce_outlives_intent verify_sig adminKey raw action target now i expiry reserved later action' target' :
  check verify_sig adminKey raw action target now = Ok i → vi_expiry i = Z_to_string expiry →
  reserved + 1000 * nonce_ttl expiry reserved ≤ later →
  ∀ i', check verify_sig adminKey raw action' target' later ≠ Ok i'.
Proof.
  intros Hc He Hl i' Hc'.
  apply check_ok in Hc as (_ & _ & _ & (o & -> & Hx) & _).
  apply check_ok in Hc' as (_ & _ & Hlt & (o' & [= <-] & Hx') & _).
  assert (vi_expiry i' = Z_to_string expiry) as E by congruence. rewrite E, num_lt_int in Hlt.
  apply Z.ltb_ge in Hlt. unfold nonce_ttl in Hl.
  pose proof (Z.mul_div_le (reserved - expiry) 1000 ltac:(lia)).
  lia.
Qed.

(** ** Witnesses *)

Definition sample_meta : RequireIntentMeta :=
  {| mt_action := "pause"; mt_targetKey := Some "id"; mt_fixedTarget := None |}.
Definition sample_intent : json :=
  JObj [("action", JStr "pause"); ("target", JNum "7"); ("chain", JStr "testnet"); ("expiry", JNum "5000");
        ("nonce", JStr "n-1"); ("signature", JStr "c2ln")].
Definition sample_request : request :=
  {| rq_meta := Some sample_meta; rq_header := Some (inl (JSON_stringify sample_intent));
     rq_params := Some (JObj [("id", JStr "7")]); rq_body := None; rq_method := Some "POST";
     rq_httpCode := None; rq_now := 1000 |}.
Definition sample_sig (key message : string) (sig : json) : option bool :=
  Some (bool_decide (key = "GADMIN" ∧ message = "pause|7|testnet|5000|n-1" ∧ string_of (Some sig) = Some "c2ln")).
Definition sample_answer (x : effect) : reaction := inl "r-1".
Notation idt := (λ s : string, s).
Notation sample_respond := (respond idt sample_sig (Some "GADMIN")).

(** The same intent presented twice at once; one of the two loses its reply. *)
Definition sample_race : list (event reaction) :=
  [Turn 0 FailsApplied; Turn 1 Succeeds; Answer 1 (inl "r-1"); Answer 0 (inl "r-2"); Answer 1 (inl "done");
   Expire ["other"]].

Lemma intent_single_use_witness :
  let cf := run (starts (∅ : keyspace) (sample_respond true <$> [sample_request; sample_request])) sample_race in
  (runs idt sample_sig (Some "GADMIN") "n-1" [sample_request; sample_request] (cf_log cf) ≤ 1)%nat.
Proof.
  apply (intent_single_use (σ := keyspace) idt sample_sig (Some "GADMIN") true "n-1"
    [sample_request; sample_request] ∅ sample_race).
  repeat constructor. by apply (bool_decide_unpack _).
Defined.

Lemma protected_action_exact_witness :
  let '(ks', e, xs) := alone sample_answer (∅ : keyspace) (sample_respond true sample_request) in
  length xs = 3%nat ∧ action_spec idt sample_sig (Some "GADMIN") sample_answer sample_meta sample_request ∅ ks' e xs.
Proof.
  pose proof (protected_action_exact (σ := keyspace) idt sample_sig (Some "GADMIN") ∅ sample_answer
    sample_request sample_meta eq_refl) as Hx.
  split; [by vm_compute|exact Hx].
Defined.

Lemma nonce_outlives_intent_witness :
  let c := check sample_sig (Some "GADMIN") (Some sample_intent) "pause" "7" 305001 in
  c = Err "Admin intent expired" ∧ ¬ ∃ i', c = Ok i'.
Proof.
  intros c. split; [by vm_compute|]. intros [i' Hi'].
  eapply (nonce_outlives_intent sample_sig (Some "GADMIN") (Some sample_intent) "pause" "7" 1000 _ 5000 1001 305001);
    [by vm_compute|done|by vm_compute|exact Hi'].
Defined.
