(* ===== verification/SideEffects.v ===== *)
(** * Checkpoints around external side effects

    Models [api/src/recovery/side-effect-checkpoint.service.ts]: a checkpoint is
    recorded before an effect runs and again once its outcome is known, in the
    process and in Redis, so that an interrupted effect can be resumed without being
    applied twice.

    An operation is a program of [Threads] that passes the in-process map along; the
    map is lost when the process dies.  Executing and probing are effects outside the
    program.  Executing may take effect or not, and may return or throw; it does take
    effect if it returns.  A probe that answers tells the truth.  A checkpoint is the
    object the code keeps, in memory or parsed from Redis; a count of attempts that is
    not an integer reads as [NaN].  Clock readings are fields of the operation.

    Not modelled: [list] and [getPending], which scan the keys of Redis, and the log
    lines. *)
From S2P Require Import Prelude JsDate Json JsonParse Redis Threads.

Inductive SideEffectState := started | applied | failed | unknown | verified.
#[export] Instance SideEffectState_eq_dec : EqDecision SideEffectState.
Proof. solve_decision. Defined.

Definition state_text (s : SideEffectState) : string :=
  match s with
  | started => "started" | applied => "applied" | failed => "failed" | unknown => "unknown"
  | verified => "verified"
  end.

(** The object of a checkpoint, its properties in order of creation. *)
Notation checkpoint := (list (string * json)).
Notation memory := (list (string * json)).

Record SideEffectRunOptions := {
  op_key : string;
  op_description : option string;
  op_probe : bool;  (* whether a probe is given *)
  op_context : option json;
}.

Record times := { t_now : Z; t_applied : Z; t_mark : Z }.

(** ** Effects *)

Inductive effect := Execute (key : string) | Probe (key : string).
#[export] Instance effect_eq_dec : EqDecision effect.
Proof. solve_decision. Defined.

Record reaction := {
  took : bool;              (* the effect was applied *)
  error : option string;    (* what was thrown *)
  yes : bool;               (* what a probe answered *)
}.

(** What is left open: whether an execution that threw had taken effect, and what
    was thrown. *)
Record decision := { d_took : bool; d_threw : option string }.

Definition is_execution (key : string) (e : effect * reaction) : Prop := e.1 = Execute key ∧ took e.2 = true.
#[export] Instance is_execution_dec key e : Decision (is_execution key e).
Proof. unfold is_execution. destruct e as [[k|k] y]; [destruct (decide (k = key))|]; [|right..]; try (by intros [[= ?] _]).
  destruct (took y) eqn:E; [left|right]; simpl; [by subst|]. rewrite E. by intros [_ ?].
Defined.

(** How often the effect under [key] was applied. *)
Definition times_applied (key : string) (l : list (effect * reaction)) : nat :=
  length (filter (is_execution key) l).

Definition answer (l : list (effect * reaction)) (x : effect) (d : decision) : reaction :=
  match x with
  | Execute _ =>
      {| took := match d_threw d with None => true | Some _ => d_took d end; error := d_threw d; yes := false |}
  | Probe key =>
      {| took := false; error := d_threw d; yes := bool_decide (times_applied key l ≠ 0%nat) |}
  end.

Notation flow := (prog effect reaction).

(** ** The service *)
Section service.
Context (num : string → string).

Definition KEY_PREFIX : string := "sideeffect:".

(** The part of [get] that reads Redis. *)
Definition fetch (key : string) (mem : memory) : flow (option json * memory) :=
  raw ← get (KEY_PREFIX +:+ key);
  Ret (match truthy raw with
       | None => (None, mem)
       | Some raw => match JSON_parse num raw with
                     | Some v => (Some v, aput key v mem)
                     | None => (None, mem)
                     end
       end).

Definition getCheckpoint (key : string) (mem : memory) : flow (option json * memory) :=
  match aget key mem with
  | Some v => if falsy v then fetch key mem else Ret (Some v, mem)
  | None => fetch key mem
  end.

(** [`${checkpoint.key}`]. *)
Definition key_text (c : checkpoint) : string :=
  match jget "key" c with Some v => js_String v | None => "undefined" end.

Definition persist (c : checkpoint) (mem : memory) : flow memory :=
  _ ← set (KEY_PREFIX +:+ key_text c) (JSON_stringify (JObj c)) true;
  Ret (aput (key_text c) (JObj c) mem).

Definition assign_opt (k : string) (v : option string) (c : checkpoint) : checkpoint :=
  match v with Some s => aput k (JStr s) c | None => c end.

Definition marked (c : checkpoint) (s : SideEffectState) (lastError appliedAt : option string) (now : Z) :
    checkpoint :=
  let c := aput "state" (JStr (state_text s)) c in
  let c := aput "updatedAt" (JStr (iso_text now)) c in
  let c := assign_opt "lastError" lastError c in
  let c := assign_opt "appliedAt" appliedAt c in
  if bool_decide (s = verified) && match jget "appliedAt" c with Some v => falsy v | None => true end
  then aput "appliedAt" (JStr (iso_text now)) c else c.

Definition mark (c : checkpoint) (s : SideEffectState) (lastError appliedAt : option string) (tm : times)
    (mem : memory) : flow (checkpoint * memory) :=
  let c := marked c s lastError appliedAt (t_mark tm) in
  mem ← persist c mem; Ret (c, mem).

(** [(existing?.attempts ?? 0) + 1]. *)
Definition next_attempt (existing : option json) : json :=
  match coalesce (opt_prop existing "attempts") None with
  | None => jint 1
  | v => match int_of v with Some n => jint (n + 1) | None => JNull end
  end.

Definition new_checkpoint (o : SideEffectRunOptions) (existing : option json) (now : Z) : checkpoint :=
  [ ("key", JStr (op_key o)); ("description", JStr (default (op_key o) (op_description o)));
    ("state", JStr (state_text started)); ("attempts", next_attempt existing);
    ("startedAt", default (JStr (iso_text now)) (coalesce (opt_prop existing "startedAt") None));
    ("updatedAt", JStr (iso_text now)) ] ++
  jfield "context" (coalesce (op_context o) (opt_prop existing "context")).

(** [resolveAmbiguous]. *)
Definition resolveAmbiguous (key : string) (c : checkpoint) (message : string) (tm : times) (mem : memory) :
    flow (checkpoint * memory) :=
  y ← Do (Probe key) Ret;
  match error y with
  | Some e => mark c unknown (Some (message +:+ " (probe failed: " +:+ e +:+ ")")) None tm mem
  | None =>
      if yes y then mark c verified (Some message) (Some (iso_text (t_applied tm))) tm mem
      else mark c failed (Some message) None tm mem
  end.

Definition run_ (o : SideEffectRunOptions) (tm : times) (mem : memory) : flow (checkpoint * memory) :=
  '(existing, mem) ← getCheckpoint (op_key o) mem;
  let c := new_checkpoint o existing (t_now tm) in
  mem ← persist c mem;
  y ← Do (Execute (op_key o)) Ret;
  match error y with
  | None => mark c applied None (Some (iso_text (t_now tm))) tm mem
  | Some message =>
      if op_probe o then resolveAmbiguous (op_key o) c message tm mem
      else mark c failed (Some message) None tm mem
  end.

Definition state_is (v : json) (s : SideEffectState) : bool :=
  bool_decide (string_of (prop v "state") = Some (state_text s)).

Definition text_prop (c : checkpoint) (k : string) : option string := string_of (jget k c).

(** [run] as [resume] calls it, under the key and with the description and context
    the checkpoint carries. *)
Definition rerun (c : checkpoint) (probe : bool) (tm : times) (mem : memory) : flow (checkpoint * memory) :=
  run_ {| op_key := key_text c; op_description := text_prop c "description"; op_probe := probe;
          op_context := jget "context" c |} tm mem.

Definition resume (key : string) (probe : bool) (tm : times) (mem : memory) :
    flow (option checkpoint * memory) :=
  '(existing, mem) ← getCheckpoint key mem;
  match existing with
  | Some (JObj c) =>
      if state_is (JObj c) applied || state_is (JObj c) verified then Ret (Some c, mem)
      else if state_is (JObj c) started || state_is (JObj c) unknown then
        if negb probe then
          '(c, mem) ← mark c unknown
            (Some (default "outcome unknown; provide a probe to resolve" (text_prop c "lastError"))) None tm mem;
          Ret (Some c, mem)
        else
          y ← Do (Probe key) Ret;
          match error y with
          | Some e => '(c, mem) ← mark c unknown (Some ("probe failed: " +:+ e)) None tm mem; Ret (Some c, mem)
          | None =>
              if yes y then
                '(c, mem) ← mark c verified (text_prop c "lastError") (Some (iso_text (t_applied tm))) tm mem;
                Ret (Some c, mem)
              else
                let c := aput "state" (JStr (state_text failed)) c in
                '(c, mem) ← rerun c probe tm (aput key (JObj c) mem); Ret (Some c, mem)
          end
      else '(c, mem) ← rerun c probe tm mem; Ret (Some c, mem)
  | _ => Ret (None, mem)  (* throws SideEffectError: no checkpoint *)
  end.

(** ** Processes *)

Inductive op :=
| ORun (o : SideEffectRunOptions) (tm : times)
| OResume (key : string) (probe : bool) (tm : times).

Fixpoint process (ops : list op) (mem : memory) : flow unit :=
  match ops with
  | [] => Ret tt
  | ORun o tm :: ops => '(_, mem) ← run_ o tm mem; process ops mem
  | OResume key probe tm :: ops => '(_, mem) ← resume key probe tm mem; process ops mem
  end.
End service.

(** ** One effect *)
Section one_key.
Context (num : string → string) (K : string).
Notation rkey := (KEY_PREFIX +:+ K).
Notation log := (list (effect * reaction)).

(** A state says what is known of how often the effect was applied. *)
Definition agrees (s : SideEffectState) (a : nat) : Prop :=
  match s with applied | verified => a = 1%nat | failed => a = 0%nat | started | unknown => (a ≤ 1)%nat end.

Definition good (c : checkpoint) (a : nat) : Prop :=
  natural_obj num c ∧ jget "key" c = Some (JStr K) ∧
  ∃ s, jget "state" c = Some (JStr (state_text s)) ∧ agrees s a.

Definition stored (c : checkpoint) (ks : keyspace) : Prop :=
  ∃ t, ks !! rkey = Some {| r_value := RStr (JSON_stringify (JObj c)); r_ttl := t |}.

(** What holds whenever the process dies. *)
Definition durable (ks : keyspace) (l : log) : Prop :=
  (ks !! rkey = None ∧ times_applied K l = 0%nat) ∨ ∃ c, stored c ks ∧ good c (times_applied K l).

Definition remembered (mem : memory) (a : nat) : Prop :=
  ∀ v, aget K mem = Some v → ∃ c, v = JObj c ∧ good c a.

Lemma good_le c a : good c a → (a ≤ 1)%nat.
Proof. intros (_ & _ & s & _ & Ha). destruct s; simpl in Ha; lia. Qed.

Lemma durable_le ks l : durable ks l → (times_applied K l ≤ 1)%nat.
Proof. intros [[_ ->]|(c & _ & Hg%good_le)]; lia. Qed.

Lemma good_key c a : good c a → key_text c = K.
Proof. intros (_ & Hk & _). unfold key_text. by rewrite Hk. Qed.

Lemma good_fits c a ks : stored c ks → good c a → holds_string ks rkey.
Proof. intros [t Ht] _. unfold holds_string. rewrite Ht. by eexists. Qed.

Lemma durable_fits ks l : durable ks l → holds_string ks rkey.
Proof.
  intros [[Hn _]|(c & Hs & Hg)]; [unfold holds_string; by rewrite Hn|by eapply good_fits].
Qed.

Lemma jget_aput k k' v (c : checkpoint) :
  jget k (aput k' v c) = if decide (k = k') then Some v else jget k c.
Proof. rewrite !jget_aget. rewrite aget_aput. by repeat case_decide; subst. Qed.

(** Marking a checkpoint. *)
Lemma marked_good c s e at_ now a a' :
  good c a → agrees s a' → good (marked c s e at_ now) a'.
Proof.
  intros (Hn & Hk & _) Ha.
  assert (∀ k v c0, natural_obj num c0 ∧ jget "key" c0 = Some (JStr K) ∧ jget "state" c0 = Some (JStr (state_text s)) →
    is_index k = false → k ≠ "key" → k ≠ "state" →
    natural_obj num (aput k (JStr v) c0) ∧ jget "key" (aput k (JStr v) c0) = Some (JStr K) ∧
    jget "state" (aput k (JStr v) c0) = Some (JStr (state_text s))) as Hput.
  { intros k v c0 (H1 & H2 & H3) Hi Hkk Hks. split; [by apply natural_aput|].
    rewrite !jget_aput, !decide_False by done. done. }
  set (P := λ c0, natural_obj num c0 ∧ jget "key" c0 = Some (JStr K) ∧
    jget "state" c0 = Some (JStr (state_text s))).
  assert (∀ k v c0, P c0 → is_index k = false → k ≠ "key" → k ≠ "state" → P (assign_opt k v c0)) as Hopt.
  { intros k [v|] c0 Hc0 Hi Hkk Hks; [|done]. by apply Hput. }
  enough (P (marked c s e at_ now)) as (? & ? & ?) by (split; [done|]; split; [done|]; eauto).
  assert (P (aput "state" (JStr (state_text s)) c)) as H1.
  { split; [by apply natural_aput|]. rewrite !jget_aput. rewrite decide_False, decide_True by done. done. }
  assert (P (assign_opt "appliedAt" at_ (assign_opt "lastError" e
    (aput "updatedAt" (JStr (iso_text now)) (aput "state" (JStr (state_text s)) c))))) as H2.
  { apply Hopt; try done. apply Hopt; try done. by apply Hput. }
  unfold marked. case_match; [by apply Hput|done].
Qed.

Notation sf := (safe answer durable).

(** [persist] of a good checkpoint. *)
Lemma persist_safe c mem ks l Q :
  durable ks l → good c (times_applied K l) →
  (∀ ks', stored c ks' → Q (aput K (JObj c) mem) ks' l) → sf (persist c mem) Q ks l.
Proof.
  intros Hd Hg HQ. unfold persist. rewrite (good_key c _ Hg).
  split; [done|]. split; [done|]. intros ks' r Hx. inversion Hx; simplify_eq. apply HQ.
  exists true. by rewrite lookup_insert_eq.
Qed.

Lemma remembered_put c mem a : good c a → remembered (aput K (JObj c) mem) a.
Proof. intros Hg v. rewrite aget_aput, decide_True by done. intros [= <-]. eauto. Qed.

Lemma mark_safe c s e at_ tm mem a0 ks l (Q : checkpoint * memory → keyspace → log → Prop) :
  durable ks l → good c a0 → agrees s (times_applied K l) →
  (∀ c' mem' ks', durable ks' l → remembered mem' (times_applied K l) → Q (c', mem') ks' l) →
  sf (mark c s e at_ tm mem) Q ks l.
Proof.
  intros Hd Hg Ha HQ. pose proof (marked_good c s e at_ (t_mark tm) a0 _ Hg Ha) as Hg'.
  unfold mark. apply (safe_bind _ _ _ _ _ (λ mem' ks' l', l' = l ∧ durable ks' l ∧
    remembered mem' (times_applied K l))).
  - apply persist_safe; [done|done|]. intros ks' Hs. split; [done|]. split; [right; by eexists|].
    by apply remembered_put.
  - intros mem' ks' l' (-> & ? & ?). by apply HQ.
Qed.

(** What [get] finds. *)
Lemma get_safe mem ks l (Q : option json * memory → keyspace → log → Prop) :
  durable ks l → remembered mem (times_applied K l) →
  (aget K mem = None → ks !! rkey = None → Q (None, mem) ks l) →
  (∀ c mem', good c (times_applied K l) → remembered mem' (times_applied K l) →
     ¬ (aget K mem = None ∧ ks !! rkey = None) → Q (Some (JObj c), mem') ks l) →
  sf (getCheckpoint num K mem) Q ks l.
Proof.
  intros Hd Hm HN HS. unfold getCheckpoint. destruct (aget K mem) as [v|] eqn:Hv.
  { destruct (Hm v Hv) as (c & -> & Hg). simpl. apply HS; [done|done|]. by intros []. }
  split; [done|]. split; [by apply durable_fits in Hd|]. intros ks' r Hx.
  inversion Hx as [? Hn|? s t Hs| | | | | | | | | | | | | | |]; simplify_eq; [by apply HN|].
  destruct Hd as [[Hn _]|(c & [t' Hst] & Hg)]; [congruence|].
  assert (s = JSON_stringify (JObj c)) as -> by congruence. simpl. unfold bulk_of.
  change (truthy (Some (JSON_stringify (JObj c)))) with (Some (JSON_stringify (JObj c))). cbv iota.
  rewrite parse_stringify by apply Hg. apply HS; [done|by apply remembered_put|].
  intros [_ ?]. congruence.
Qed.

Lemma times_applied_snoc l x y :
  times_applied K (l ++ [(x, y)]) = (times_applied K l + if decide (is_execution K (x, y)) then 1 else 0)%nat.
Proof.
  unfold times_applied. rewrite filter_app, length_app, filter_cons, filter_nil. by case_decide.
Qed.

Lemma times_applied_probe l y : times_applied K (l ++ [(Probe K, y)]) = times_applied K l.
Proof. rewrite times_applied_snoc, decide_False, Nat.add_0_r; [done|]. by intros [? _]. Qed.

Lemma durable_probe ks l y : durable ks l → durable ks (l ++ [(Probe K, y)]).
Proof. unfold durable. by rewrite times_applied_probe. Qed.

(** The states in which the effect may be executed. *)
Definition settled (mem : memory) (ks : keyspace) (l : log) : Prop :=
  durable ks l ∧ remembered mem (times_applied K l).

Lemma mark_settled c s e at_ tm mem a0 ks l (Q : checkpoint * memory → keyspace → log → Prop) :
  durable ks l → good c a0 → agrees s (times_applied K l) →
  (∀ c' mem' ks' l', settled mem' ks' l' → Q (c', mem') ks' l') →
  sf (mark c s e at_ tm mem) Q ks l.
Proof. intros Hd Hg Ha HQ. eapply mark_safe; [done|done|done|]. intros. by apply HQ. Qed.

Lemma new_checkpoint_good o existing now a :
  op_key o = K → (∀ v, op_context o = Some v → natural num v = true) →
  (∀ v, existing = Some v → natural num v = true) → (a ≤ 1)%nat → good (new_checkpoint o existing now) a.
Proof.
  intros Hk Hc He Ha.
  assert (∀ k v, opt_prop existing k = Some v → natural num v = true) as Hp.
  { intros k v. destruct existing as [[| | | | |l]|]; simpl; try done. apply natural_jget. by apply (He (JObj l)). }
  split; [|split; [simpl; by rewrite Hk|exists started; by split]].
  apply natural_literal.
  - unfold new_checkpoint. by destruct (coalesce (op_context o) _); apply (bool_decide_unpack _).
  - unfold new_checkpoint. apply Forall_app. split.
    + repeat constructor.
      * unfold next_attempt. destruct (coalesce _ _) as [v|]; [|by apply natural_jint].
        unfold int_of. destruct v as [| |t| | |]; try done. destruct (BigInt_of_string t) as [z|]; [|done]. simpl.
        destruct (bool_decide _ && _) eqn:E; [|done]. bool_to_prop. unfold max_safe in *.
        apply natural_jint. lia.
      * destruct (opt_prop existing "startedAt") as [v|] eqn:E; [|done].
        pose proof (Hp _ _ E). by destruct v.
    + destruct (coalesce (op_context o) _) as [v|] eqn:E; constructor; [|done]. split; [done|].
      simpl. destruct (op_context o) as [w|]; [destruct w; simpl in E|simpl in E];
        first [by eapply Hp|apply Hc; congruence].
Qed.
Definition settles (Q : checkpoint * memory → keyspace → log → Prop) : Prop :=
  ∀ c mem ks l, settled mem ks l → Q (c, mem) ks l.

(** Asking the probe, which tells the truth, and marking what it answers. *)
Lemma resolve_safe c message tm mem ks l Q :
  durable ks l → good c (times_applied K l) → settles Q →
  sf (resolveAmbiguous K c message tm mem) Q ks l.
Proof.
  intros Hd Hg HQ. split; [done|]. intros d.
  pose proof (durable_probe ks l (answer l (Probe K) d) Hd) as Hd'.
  pose proof (durable_le _ _ Hd) as Hle. cbn [mbind prog_mbind prog_bind].
  assert (∀ s e at_, agrees s (times_applied K l) →
    sf (mark c s e at_ tm mem) Q ks (l ++ [(Probe K, answer l (Probe K) d)])) as Hmark.
  { intros s e at_ Ha. eapply mark_settled; [done|done|by rewrite times_applied_probe|done]. }
  destruct (error _); [by apply Hmark|]. destruct (yes _) eqn:Hy; apply Hmark; simpl in Hy |- *.
  - apply bool_decide_eq_true in Hy. lia.
  - by apply bool_decide_eq_false, dec_stable in Hy.
Qed.

(** Executing the effect when it has not been applied. *)
Lemma run_safe o tm mem ks l Q :
  op_key o = K → op_probe o = true → (∀ v, op_context o = Some v → natural num v = true) →
  settled mem ks l → times_applied K l = 0%nat → settles Q → sf (run_ num o tm mem) Q ks l.
Proof.
  intros Hk Hp Hc [Hd Hm] Ha HQ. unfold run_. rewrite Hk, Hp.
  assert (∀ existing mem', (∀ v, existing = Some v → natural num v = true) →
    sf (mem ← persist (new_checkpoint o existing (t_now tm)) mem';
        y ← Do (Execute K) Ret;
        match error y with
        | None => mark (new_checkpoint o existing (t_now tm)) applied None (Some (iso_text (t_now tm))) tm mem
        | Some message => resolveAmbiguous K (new_checkpoint o existing (t_now tm)) message tm mem
        end) Q ks l) as Hgo.
  { intros existing mem' He. set (c := new_checkpoint o existing (t_now tm)).
    assert (∀ a, (a ≤ 1)%nat → good c a) as Hg by (intros a Hle; by apply new_checkpoint_good).
    apply (safe_bind _ _ _ _ _ (λ _ ks' l', l' = l ∧ stored c ks')).
    { apply persist_safe; [done|apply Hg; lia|]. done. }
    intros mem1 ks1 l1 [-> Hs1]. split; [right; exists c; split; [done|apply Hg; lia]|]. intros d.
    set (y := answer l (Execute K) d). cbn [mbind prog_mbind prog_bind].
    assert (times_applied K (l ++ [(Execute K, y)]) = if took y then 1%nat else 0%nat) as Ha'.
    { rewrite times_applied_snoc, Ha. destruct (decide (is_execution K (Execute K, y))) as [[_ Ht]|Hn];
        [change (took y = true) in Ht; by rewrite Ht|]. destruct (took y) eqn:E; [|done]. by destruct Hn. }
    assert (durable ks1 (l ++ [(Execute K, y)])) as Hd1.
    { right. exists c. split; [done|]. apply Hg. rewrite Ha'. destruct (took y); lia. }
    destruct (error y) as [e|] eqn:Ey.
    - apply resolve_safe; [done|apply Hg; rewrite Ha'; destruct (took y); lia|done].
    - eapply (mark_settled _ _ _ _ _ _ 0%nat); [done|apply Hg; lia| |done].
      rewrite Ha'. subst y. simpl in *. by rewrite Ey. }
  apply (safe_bind _ _ _ _ _ (λ em ks' l', l' = l ∧ ks' = ks ∧ ∀ v, em.1 = Some v → natural num v = true)).
  { apply get_safe; [done|done|done|]. intros c mem' Hg _ _. split; [done|]. split; [done|].
    intros v [= <-]. apply Hg. }
  intros [existing mem'] ks' l' (-> & -> & He). by apply Hgo.
Qed.

Lemma resume_safe tm mem ks l (Q : option checkpoint * memory → keyspace → log → Prop) :
  settled mem ks l → (∀ c mem ks l, settled mem ks l → Q (c, mem) ks l) →
  sf (resume num K true tm mem) Q ks l.
Proof.
  intros [Hd Hm] HQ. unfold resume.
  apply (safe_bind _ _ _ _ _ (λ em ks' l', l' = l ∧ ks' = ks ∧
    ((em.1 = None ∧ remembered em.2 (times_applied K l)) ∨
     ∃ c, em.1 = Some (JObj c) ∧ good c (times_applied K l) ∧ remembered em.2 (times_applied K l)))).
  { apply get_safe; [done|done|by auto|]. intros c mem' Hg Hm' _.
    split; [done|]. split; [done|]. right. by exists c. }
  intros [existing mem'] ks' l' (-> & -> & [[He Hm']|(c & He & Hg & Hm')]); simpl in He, Hm'; subst existing;
    [by apply HQ|].
  assert (Hmk : settles (λ cm ks l, ∃ c mem, cm = (c, mem) ∧ settled mem ks l)) by (intros ? ? ? ? ?; eauto).
  assert (∀ (p : flow (checkpoint * memory)) l0, (∀ Q, settles Q → sf p Q ks l0) →
    sf ('(c, mem) ← p; Ret (Some c, mem)) Q ks l0) as Hwrap.
  { intros p l0 Hp. eapply safe_bind; [by apply Hp|]. intros ? ks1 l1 (c1 & m1 & -> & ?). by apply HQ. }
  destruct Hg as (Hn & Hkey & s & Hst & Ha).
  assert (∀ s', state_is (JObj c) s' = bool_decide (s = s')) as Hs.
  { intros s'. unfold state_is. simpl. rewrite Hst. simpl. apply bool_decide_ext. by destruct s, s'. }
  assert (good c (times_applied K l)) as Hg by (split; [done|]; split; [done|]; eauto). rewrite !Hs.
  assert (key_text c = K) as Hkt by by eapply good_key.
  assert (∀ c0 mem0 l0 Q0, (∀ k, k ≠ "state" → jget k c0 = jget k c) → natural_obj num c0 → settled mem0 ks l0 →
    times_applied K l0 = 0%nat → settles Q0 → sf (rerun num c0 true tm mem0) Q0 ks l0) as Hrerun.
  { intros c0 mem0 l0 Q0 Hc0 Hn0 Hset H0 HQ0. apply run_safe; try done; simpl.
    - unfold key_text. by rewrite Hc0, Hkey.
    - intros v Hv. by eapply natural_jget. }
  destruct (bool_decide (s = applied) || bool_decide (s = verified)) eqn:Hdone; [by apply HQ|].
  destruct (bool_decide (s = started) || bool_decide (s = unknown)) eqn:Hopen; cbn [negb].
  - split; [done|]. intros d. pose proof (durable_probe ks l (answer l (Probe K) d) Hd) as Hd'.
    pose proof (durable_le _ _ Hd) as Hle. cbn [mbind prog_mbind prog_bind].
    set (l1 := l ++ [(Probe K, answer l (Probe K) d)]) in *.
    assert (times_applied K l1 = times_applied K l) as El by apply times_applied_probe.
    assert (∀ st e at_, agrees st (times_applied K l) →
      sf ('(c, mem) ← mark c st e at_ tm mem'; Ret (Some c, mem)) Q ks l1) as Hmark.
    { intros st e at_ Hag. apply Hwrap. intros Q0 HQ0. eapply mark_settled; [done|done|by rewrite El|done]. }
    destruct (error _); [by apply Hmark|]. destruct (yes _) eqn:Hy.
    { apply Hmark. simpl in Hy. apply bool_decide_eq_true in Hy. simpl. lia. }
    simpl in Hy. apply bool_decide_eq_false, dec_stable in Hy.
    set (c0 := aput "state" (JStr (state_text failed)) c). apply Hwrap. intros Q0 HQ0.
    assert (∀ k, k ≠ "state" → jget k c0 = jget k c) as Hc0.
    { intros k Hk. unfold c0. by rewrite jget_aput, decide_False. }
    assert (natural_obj num c0) as Hn0 by by apply natural_aput.
    apply Hrerun; [done|done| |by rewrite El|done]. split; [done|]. rewrite El. apply remembered_put.
    split; [done|]. split; [by rewrite Hc0|]. exists failed. split; [|done].
    unfold c0. by rewrite jget_aput, decide_True.
  - apply Hwrap. intros Q0 HQ0. apply Hrerun; [done|done|done| |done].
    destruct s; first [done|by vm_compute in Hdone|by vm_compute in Hopen].
Qed.

(** *** Histories *)

(** Operations under the key: runs with a probe and a context that is JSON data, and
    resumptions with a probe. *)
Definition careful (o : op) : Prop :=
  match o with
  | ORun o _ => op_key o = K ∧ op_probe o = true ∧ ∀ v, op_context o = Some v → natural num v = true
  | OResume key probe _ => key = K ∧ probe = true
  end.

Definition is_run (o : op) : Prop := match o with ORun _ _ => True | _ => False end.
#[export] Instance is_run_dec o : Decision (is_run o).
Proof. destruct o; apply _. Defined.

(** Nothing was recorded or applied. *)
Definition untouched (mem : memory) (ks : keyspace) (l : log) : Prop :=
  ks !! rkey = None ∧ times_applied K l = 0%nat ∧ aget K mem = None.

Lemma untouched_settled mem ks l : untouched mem ks l → settled mem ks l.
Proof. intros (? & ? & Hm). split; [by left|]. intros v. by rewrite Hm. Qed.

Lemma resume_untouched (I : keyspace → log → Prop) tm mem ks l Q :
  I ks l → untouched mem ks l → Q (None, mem) ks l →
  safe answer I (resume num K true tm mem) Q ks l.
Proof.
  intros HI (Hn & Ha & Hmem) HQ. unfold resume, getCheckpoint. rewrite Hmem.
  split; [done|]. split; [unfold fits, holds_string; simpl; by rewrite Hn|].
  intros ks' r Hx. inversion Hx; simplify_eq. done.
Qed.

(** A process that runs the effect at most once: from nothing, or only resuming. *)
Lemma process_safe ops mem ks l :
  Forall careful ops →
  (settled mem ks l ∧ filter is_run ops = [] ∨ untouched mem ks l ∧ (length (filter is_run ops) ≤ 1)%nat) →
  sf (process num ops mem) (λ _ ks l, durable ks l) ks l.
Proof.
  intros Hc. revert mem ks l. induction Hc as [|o ops Ho Hc IH]; intros mem ks l Hpre.
  { destruct Hpre as [[[Hd _] _]|[[Hd _]%untouched_settled _]]; done. }
  destruct o as [o tm|key probe tm]; cbn [process]; destruct Ho as (-> & ->) || destruct Ho as (Hk & Hp & Hctx).
  - destruct Hpre as [[_ Hf]|[Hu Hf]]; [by rewrite filter_cons, decide_True in Hf|].
    rewrite filter_cons, decide_True in Hf by done. simpl in Hf.
    eapply (safe_bind _ _ _ _ _ (λ cm ks l, settled cm.2 ks l)).
    + apply run_safe; [done|done|done|by apply untouched_settled|apply Hu|]. by intros ? ? ? ?.
    + intros [c mem'] ks' l' Hs. apply IH. left. split; [done|]. apply length_zero_iff_nil. lia.
  - assert (filter is_run (OResume K true tm :: ops) = filter is_run ops) as Er by reflexivity.
    rewrite Er in Hpre. destruct Hpre as [[Hs Hf]|[Hu Hf]].
    + eapply (safe_bind _ _ _ _ _ (λ cm ks l, settled cm.2 ks l)); [by apply resume_safe|].
      intros [c mem'] ks' l' Hs'. apply IH. by left.
    + eapply (safe_bind _ _ _ _ _ (λ cm ks l, untouched cm.2 ks l));
        [apply resume_untouched; [by apply (untouched_settled mem)|done|done]|].
      intros [c mem'] ks' l' Hu'. apply IH. by right.
Qed.

(** Without a run, nothing happens. *)
Definition blank (ks : keyspace) (l : log) : Prop := untouched [] ks l.

Lemma process_blank ops mem ks l :
  Forall careful ops → filter is_run ops = [] → untouched mem ks l →
  safe answer blank (process num ops mem) (λ _, blank) ks l.
Proof.
  intros Hc. revert mem. induction Hc as [|o ops Ho Hc IH]; intros mem Hf Hu.
  { destruct Hu as (? & ? & _). done. }
  destruct o as [o tm|key probe tm]; cbn [process]; [done|]. destruct Ho as (-> & ->).
  eapply (safe_bind _ _ _ _ _ (λ cm ks' l', ks' = ks ∧ l' = l ∧ untouched cm.2 ks l)).
  - apply resume_untouched; [|done|done]. by destruct Hu as (? & ? & _).
  - intros [c mem'] ks' l' (-> & -> & Hu'). by apply IH.
Qed.
End one_key.

(** A history: the process runs some operations, dies or is stopped, and is started
    again with an empty memory. *)
Section history.
Context {σ : Type} `{RedisLaws σ} (num : string → string).

Notation session := (list op * list (fate + decision))%type.

Definition session_ (st : σ * list (effect * reaction)) (s : session) : σ * list (effect * reaction) :=
  (solo answer st.1 st.2 s.2 (process num s.1 [])).1.

Definition history (sv : σ) (ss : list session) : σ * list (effect * reaction) :=
  foldl session_ (sv, []) ss.

Definition runs (ss : list session) : nat := length (filter is_run (concat ss.*1)).

Lemma session_keeps (I : keyspace → list (effect * reaction) → Prop) st s :
  safe answer I (process num s.1 []) (λ _, I) (keys_of st.1) st.2 → Forall steady s.2 →
  let st' := session_ st s in I (keys_of st'.1) st'.2.
Proof.
  intros Hp Hs. pose proof (safe_solo answer I _ _ _ _ _ Hp Hs) as Hx. unfold session_.
  by destruct (solo _ _ _ _ _) as [[sv' l'] []].
Qed.

Lemma history_durable K ss st :
  Forall (λ s, Forall (careful num K) s.1 ∧ Forall steady s.2) ss →
  (durable num K (keys_of st.1) st.2 ∧ runs ss = 0%nat ∨
   blank K (keys_of st.1) st.2 ∧ (runs ss ≤ 1)%nat) →
  let st' := foldl session_ st ss in durable num K (keys_of st'.1) st'.2.
Proof.
  intros Hss. revert st. induction Hss as [|s ss [Hc Hs] Hss IH]; intros st Hpre; simpl.
  { destruct Hpre as [[? _]|[[? [? _]] _]]; [done|]. by left. }
  assert (runs (s :: ss) = length (filter is_run s.1) + runs ss)%nat as Hr.
  { unfold runs. simpl. by rewrite filter_app, length_app. }
  rewrite Hr in Hpre. apply IH. destruct Hpre as [[Hd Hz]|[Hb Hle]].
  - left. split; [|lia]. apply session_keeps, Hs. apply process_safe; [done|left].
    split; [by split|]. apply length_zero_iff_nil. lia.
  - destruct (decide (filter is_run s.1 = [])) as [Ef|Ef].
    + right. rewrite Ef in Hle. split; [|done]. apply session_keeps, Hs. by apply process_blank.
    + destruct (filter is_run s.1) eqn:E; [done|]. simpl in Hle. left. split; [|lia].
      apply session_keeps, Hs. apply process_safe; [done|right]. split; [done|]. rewrite E. simpl. lia.
Qed.

(** ** Finishing an effect *)

(** How the world answers when nothing throws. *)
Definition cooperates (l : list (effect * reaction)) (x : effect) : reaction :=
  answer l x {| d_took := true; d_threw := None |}.

Lemma yields_persist {B} h sv c mem (f : memory → flow B) Q :
  (∀ sv', stored (key_text c) c (keys_of sv') → yields h sv' (f (aput (key_text c) (JObj c) mem)) Q) →
  yields h sv (persist c mem ≫= f) Q.
Proof.
  intros HQ. apply yields_ask; [done|]. intros sv' r Hd. inversion Hd; simplify_eq. apply HQ.
  exists true. match goal with E : _ = keys_of sv' |- _ => rewrite <-E end. by rewrite lookup_insert_eq.
Qed.

Definition in_state (c : checkpoint) (s : SideEffectState) : Prop := jget "state" c = Some (JStr (state_text s)).

Lemma marked_state c s e at_ now : in_state (marked c s e at_ now) s.
Proof.
  unfold marked, in_state. case_match; destruct e, at_; simpl; rewrite ?jget_aput; by repeat (case_decide; try done).
Qed.

Lemma yields_mark {B} h sv c s e at_ tm mem (f : checkpoint * memory → flow B) Q :
  (∀ sv' c' mem', in_state c' s → yields h sv' (f (c', mem')) Q) →
  yields h sv (mark c s e at_ tm mem ≫= f) Q.
Proof.
  intros HQ. apply (yields_persist h sv (marked c s e at_ (t_mark tm)) mem (λ mem, f (_, mem))).
  intros sv' _. apply HQ, marked_state.
Qed.

(** Executing under a key that is remembered. *)
Lemma yields_run {B} h sv o tm mem c0 (f : checkpoint * memory → flow B) Q :
  aget (op_key o) mem = Some (JObj c0) → error (h (Execute (op_key o))) = None →
  (∀ sv' c' mem', in_state c' applied →
     yields h sv' (f (c', mem')) (λ sv e xs, Q sv e (Execute (op_key o) :: xs))) →
  yields h sv (run_ num o tm mem ≫= f) Q.
Proof.
  intros Hm Hh HQ. unfold run_, getCheckpoint. rewrite Hm.
  apply (yields_persist h sv (new_checkpoint o (Some (JObj c0)) (t_now tm)) mem (λ mem,
    (y ← Do (Execute (op_key o)) Ret; _) ≫= f)).
  intros sv' _. apply yields_do. cbn [prog_bind]. rewrite Hh. by apply yields_mark.
Qed.

Definition finished (c : checkpoint) : Prop := in_state c applied ∨ in_state c verified.

(** The log after a program that the world cooperates with. *)
Definition logged (l : list (effect * reaction)) (xs : list effect) : list (effect * reaction) :=
  l ++ ((λ x, (x, cooperates l x)) <$> xs).

Lemma times_applied_logged K l xs :
  times_applied K (logged l xs) = (times_applied K l + length (filter (λ x, x = Execute K) xs))%nat.
Proof.
  unfold logged, times_applied. rewrite filter_app, length_app. f_equal.
  induction xs as [|x xs IH]; [done|]. rewrite fmap_cons, !filter_cons.
  assert (is_execution K (x, cooperates l x) ↔ x = Execute K) as Hx.
  { unfold is_execution. destruct x; simpl; naive_solver. }
  by rewrite (decide_ext _ _ _ _ Hx); case_decide; simpl; rewrite IH.
Qed.

Lemma resume_completes K sv l c tm :
  stored K c (keys_of sv) → good num K c (times_applied K l) →
  yields (cooperates l) sv (resume num K true tm []) (λ _ e xs,
    (∃ c' mem, e = Returned (Some c', mem) ∧ finished c') ∧ times_applied K (logged l xs) = 1%nat).
Proof.
  intros [t Hst] Hg. pose proof (good_le _ _ _ _ Hg) as Hle.
  destruct Hg as (Hn & Hkey & s & Hs & Ha).
  assert (∀ s', state_is (JObj c) s' = bool_decide (s = s')) as Hi.
  { intros s'. unfold state_is. simpl. rewrite Hs. simpl. apply bool_decide_ext. by destruct s, s'. }
  unfold resume, getCheckpoint. simpl aget. cbv iota. unfold fetch.
  apply yields_ask; [unfold fits, holds_string; rewrite Hst; by eexists|]. intros sv' r Hr.
  inversion Hr as [|? s' t' Hst'| | | | | | | | | | | | | | |]; simplify_eq. unfold bulk_of.
  change (truthy (Some (JSON_stringify (JObj c)))) with (Some (JSON_stringify (JObj c))). cbv iota.
  rewrite parse_stringify by done. cbn [mbind prog_mbind prog_bind]. rewrite !Hi.
  assert (∀ c1 mem1 sv1 Q, jget "key" c1 = Some (JStr K) → aget K mem1 = Some (JObj c1) →
    (∀ sv2 c2 mem2, finished c2 → Q sv2 (Returned (Some c2, mem2)) [Execute K]) →
    yields (cooperates l) sv1 ('(c, mem) ← rerun num c1 true tm mem1; Ret (Some c, mem)) Q) as Hrerun.
  { intros c1 mem1 sv1 Q H1 Hm1 HQ. unfold rerun, key_text. rewrite H1. simpl js_String.
    eapply yields_run; [done|done|].
    intros sv2 c2 mem2 Hc2. apply HQ. by left. }
  destruct (bool_decide (s = applied) || bool_decide (s = verified)) eqn:Hdone.
  { split; [exists c, (aput K (JObj c) []); split; [done|]; destruct s; try done; by (left + right)|].
    rewrite times_applied_logged. destruct s; simpl in *; try done; lia. }
  destruct (bool_decide (s = started) || bool_decide (s = unknown)) eqn:Hopen; cbn [negb].
  - apply yields_do. cbn [prog_bind cooperates answer error yes d_threw].
    destruct (bool_decide (times_applied K l ≠ 0%nat)) eqn:Hy.
    + apply yields_mark. intros sv2 c' mem' Hc'. split; [exists c', mem'; split; [done|by right]|].
      rewrite times_applied_logged. bool_to_prop. simpl. lia.
    + apply bool_decide_eq_false, dec_stable in Hy. apply Hrerun;
        [by rewrite jget_aput, decide_False|by rewrite aget_aput, decide_True|].
      intros sv2 c2 mem2 Hc2. split; [by eauto|]. rewrite times_applied_logged, Hy.
      by rewrite filter_cons_False, filter_cons_True.
  - apply Hrerun; [done|by rewrite aget_aput, decide_True|].
    intros sv2 c2 mem2 Hc2. split; [by eauto|]. rewrite times_applied_logged, filter_cons_True by done.
    destruct s; simpl in *; try done. lia.
Qed.

(** C26: an effect that is run once with a probe, and resumed with a probe any number
    of times, by processes that may die at any command or effect and are started
    again with an empty memory, is applied at most once, provided no command to Redis
    fails: however executions and probes turn out, and wherever a process dies.  And
    once a checkpoint was recorded, a resumption during which nothing fails ends with
    the effect applied exactly once and its checkpoint marked as applied or
    verified. *)
Theorem effect_at_most_once K sv ss :
  keys_of sv !! (KEY_PREFIX +:+ K) = None →
  Forall (λ s, Forall (careful num K) s.1 ∧ Forall steady s.2) ss → (runs ss ≤ 1)%nat →
  let '(sv', l) := history sv ss in
  (times_applied K l ≤ 1)%nat ∧
  (keys_of sv' !! (KEY_PREFIX +:+ K) ≠ None → ∀ tm,
     let '(_, e, xs) := alone (cooperates l) sv' (resume num K true tm []) in
     (∃ c mem, e = Returned (Some c, mem) ∧ finished c) ∧ times_applied K (logged l xs) = 1%nat).
Proof.
  intros Hn Hss Hr. pose proof (history_durable K ss (sv, []) Hss) as Hd. simpl in Hd.
  fold (history sv ss) in Hd. destruct (history sv ss) as [sv' l]. simpl in Hd.
  destruct Hd as [[? Hz]|(c & Hst & Hg)]; [right; by repeat split|split; [lia|done]|].
  split; [by eapply good_le|]. intros _ tm. pose proof (resume_completes K sv' l c tm Hst Hg) as Hy.
  unfold yields in Hy. by destruct (alone _ _ _) as [[sv'' e] xs].
Qed.
End history.

(** ** A payout *)

Definition payout (probe : bool) : SideEffectRunOptions :=
  {| op_key := "payout:7"; op_description := None; op_probe := probe; op_context := None |}.
Definition clock : times := {| t_now := 1704067200000; t_applied := 1704067201000; t_mark := 1704067202000 |}.

Notation ok := (inl Succeeds).
Notation done_ := (inr {| d_took := true; d_threw := None |}).
Notation lost := (inr {| d_took := true; d_threw := Some "timeout" |}).

(** The process dies once the payout went through; the probe is down at the first
    resumption and answers at the second. *)
Definition interrupted : list (list op * list (fate + decision)) :=
  [ ([ORun (payout true) clock], [ok; ok; lost]);
    ([OResume "payout:7" true clock], [ok; lost; ok]);
    ([OResume "payout:7" true clock], [ok; done_]) ].

Lemma effect_at_most_once_witness :
  let '(sv', l) := history (λ s, s) (∅ : keyspace) interrupted in
  times_applied "payout:7" l = 1%nat ∧
  let '(_, e, xs) := alone (cooperates l) sv' (resume (λ s, s) "payout:7" true clock []) in
  times_applied "payout:7" (logged l xs) = 1%nat.
Proof.
  pose proof (effect_at_most_once (σ := keyspace) (λ s, s) "payout:7" ∅ interrupted) as Ht.
  destruct (history _ ∅ interrupted) as [sv' l] eqn:E. split.
  { change l with (sv', l).2. rewrite <-E. by vm_compute. }
  destruct Ht as [_ Ht]; [done| |by vm_compute|].
  - repeat constructor; simpl; try done.
  - specialize (Ht ltac:(change sv' with (sv', l).1; rewrite <-E; by vm_compute) clock).
    destruct (alone _ _ _) as [[sv2 e] xs]. apply Ht.
Defined.

(** [run] does not look at the state of an existing checkpoint: called again, it
    executes an effect whose checkpoint says [applied]. *)
Lemma run_repeats_applied :
  let '(_, l) := history (λ s, s) (∅ : keyspace)
    [([ORun (payout true) clock; ORun (payout true) clock], [ok; ok; done_; ok; ok; done_; ok])] in
  times_applied "payout:7" l = 2%nat.
Proof. by vm_compute. Qed.

(** Without a probe an execution that threw is marked [failed], whether or not it had
    taken effect, and resuming executes it again. *)
Lemma unprobed_failure_repeats :
  let '(_, l) := history (λ s, s) (∅ : keyspace)
    [([ORun (payout false) clock; OResume "payout:7" false clock], [ok; ok; lost; ok; ok; done_; ok])] in
  times_applied "payout:7" l = 2%nat.
Proof. by vm_compute. Qed.

(** A resumption whose [started] record does not reach Redis, because the command
    failed, executes all the same: when the process dies then, Redis still says
    [failed], and the next resumption executes again without asking the probe. *)
Lemma lost_started_record_repeats :
  let '(_, l) := history (λ s, s) (∅ : keyspace)
    [ ([ORun (payout true) clock],
       [ok; ok; inr {| d_took := false; d_threw := Some "refused" |}; done_; ok]);
      ([OResume "payout:7" true clock], [ok; inl Fails; done_]);
      ([OResume "payout:7" true clock], [ok; ok; done_; ok]) ] in
  times_applied "payout:7" l = 2%nat.
Proof. by vm_compute. Qed.
