(* ===== verification/JobQueue.v ===== *)
(** * The background job queue

    Models [api/src/workers/services/job-queue.service.ts], the admission rule of
    [queue-backpressure.ts] and the types of [job.interface.ts], over the calls of
    [Redis].  A stored job is its JSON text; the service parses it, reads and
    assigns properties of the parsed object, and writes the text back, and so does
    the model.  A counter that is not a JSON integer reads as [NaN].  A payload's
    type is one of the five job types, as its TypeScript type says.

    Shown with a Hoare logic for calls that may die at any command ([triple]): no
    command failure and no crash loses a queued job, a claim is exclusive, and an
    admission never takes the queue over its bound. *)
From S2P Require Import Prelude JsDate Json JsonParse Redis.

Inductive JobType :=
| RECONCILIATION | DATA_EXPORT | COUPON_DISTRIBUTION | ORACLE_SYNC | PORTFOLIO_REBALANCE.

Definition type_text (t : JobType) : string :=
  match t with
  | RECONCILIATION => "reconciliation" | DATA_EXPORT => "data_export"
  | COUPON_DISTRIBUTION => "coupon_distribution" | ORACLE_SYNC => "oracle_sync"
  | PORTFOLIO_REBALANCE => "portfolio_rebalance"
  end.

Definition all_types : list JobType :=
  [RECONCILIATION; DATA_EXPORT; COUPON_DISTRIBUTION; ORACLE_SYNC; PORTFOLIO_REBALANCE].

Inductive JobStatus := PENDING | PROCESSING | SUCCESS | FAILED | DEAD_LETTER.

Definition status_text (s : JobStatus) : string :=
  match s with
  | PENDING => "pending" | PROCESSING => "processing" | SUCCESS => "success"
  | FAILED => "failed" | DEAD_LETTER => "dead_letter"
  end.

Record JobPayload := {
  pl_type : JobType;
  pl_data : json;
  pl_userId : option string;
  pl_correlationId : option string;
}.

Definition DEFAULT_MAX_RETRIES : Z := 3.

(** ** Admission *)

Record QueueTypeLimit := {
  maxDepth : Z;
  perUserMaxDepth : Z;
  adminReserve : Z;
  retryAfterSeconds : Z;
}.

Record QueueLimits := {
  enabled : bool;
  globalMaxDepth : Z;
  globalAdminReserve : Z;
  types : JobType → QueueTypeLimit;
}.

Definition DEFAULT_QUEUE_LIMITS : QueueLimits :=
  {| enabled := true; globalMaxDepth := 1000; globalAdminReserve := 50;
     types := λ t,
       match t with
       | DATA_EXPORT => {| maxDepth := 100; perUserMaxDepth := 3; adminReserve := 10; retryAfterSeconds := 60 |}
       | RECONCILIATION => {| maxDepth := 5; perUserMaxDepth := 1; adminReserve := 2; retryAfterSeconds := 300 |}
       | PORTFOLIO_REBALANCE => {| maxDepth := 200; perUserMaxDepth := 5; adminReserve := 10; retryAfterSeconds := 30 |}
       | ORACLE_SYNC => {| maxDepth := 50; perUserMaxDepth := 5; adminReserve := 10; retryAfterSeconds := 60 |}
       | COUPON_DISTRIBUTION => {| maxDepth := 500; perUserMaxDepth := 50; adminReserve := 50; retryAfterSeconds := 30 |}
       end |}.

Definition ADMISSION_LOCK_ATTEMPTS : nat := 5.

(** [Number(raw)]: [fl] reads the texts that are not integer literals. *)
Definition Number_of (fl : string → jsnum) (raw : option string) : jsnum :=
  match raw with
  | None => NOther "NaN"
  | Some s => match BigInt_of_string s with
              | Some z => if Z.abs z <=? max_safe then NInt z else fl s
              | None => fl s
              end
  end.

Definition positiveInt (fl : string → jsnum) (raw : option string) (fallback : Z) : Z :=
  match Number_of fl raw with
  | NInt z => if 0 <=? z then z else fallback
  | NOther _ => fallback
  end.

(** [type.toUpperCase()] of a job type. *)
Definition type_suffix (t : JobType) : string :=
  match t with
  | RECONCILIATION => "RECONCILIATION" | DATA_EXPORT => "DATA_EXPORT"
  | COUPON_DISTRIBUTION => "COUPON_DISTRIBUTION" | ORACLE_SYNC => "ORACLE_SYNC"
  | PORTFOLIO_REBALANCE => "PORTFOLIO_REBALANCE"
  end.

Definition resolveQueueLimits (fl : string → jsnum) (env : string → option string) : QueueLimits :=
  {| enabled := negb (bool_decide (env "JOB_QUEUE_BACKPRESSURE" = Some "off"));
     globalMaxDepth :=
       positiveInt fl (env "JOB_QUEUE_MAX_DEPTH") (globalMaxDepth DEFAULT_QUEUE_LIMITS);
     globalAdminReserve :=
       positiveInt fl (env "JOB_QUEUE_ADMIN_RESERVE") (globalAdminReserve DEFAULT_QUEUE_LIMITS);
     types := λ t,
       let base := types DEFAULT_QUEUE_LIMITS t in
       {| maxDepth := positiveInt fl (env ("JOB_QUEUE_MAX_DEPTH_" +:+ type_suffix t)) (maxDepth base);
          perUserMaxDepth :=
            positiveInt fl (env ("JOB_QUEUE_USER_MAX_DEPTH_" +:+ type_suffix t)) (perUserMaxDepth base);
          adminReserve := adminReserve base; retryAfterSeconds := retryAfterSeconds base |} |}.

Inductive BackpressureScope := ScopeGlobal | ScopeType | ScopeUser | ScopeContended.

Record QueueDepths := { q_global : Z; q_type : Z; q_user : Z }.

Inductive BackpressureDecision :=
| Admission
| Refused (scope : BackpressureScope) (depth limit : Z).

Definition decideAdmission (limits : QueueLimits) (type : JobType) (depths : QueueDepths)
    (privileged : bool) : BackpressureDecision :=
  let typeLimit := types limits type in
  if negb privileged && (perUserMaxDepth typeLimit <=? q_user depths)
  then Refused ScopeUser (q_user depths) (perUserMaxDepth typeLimit)
  else
    let typeBound := maxDepth typeLimit + (if privileged then adminReserve typeLimit else 0) in
    if typeBound <=? q_type depths then Refused ScopeType (q_type depths) typeBound
    else
      let globalBound := globalMaxDepth limits + (if privileged then globalAdminReserve limits else 0) in
      if globalBound <=? q_global depths then Refused ScopeGlobal (q_global depths) globalBound
      else Admission.

(** ** The queue *)

Definition QUEUE_KEY : string := "job:queue".
Definition job_key (i : string) : string := "job:" +:+ i.
Definition processing_key (i : string) : string := "job:processing:" +:+ i.
Definition DEAD_LETTER_KEY : string := "job:dead-letter".
Definition type_index (t : string) : string := "job:queue:type:" +:+ t.
Definition user_index (u : string) : string := "job:queue:user:" +:+ u.
Definition ADMISSION_LOCK_KEY : string := "job:admission:lock".

(** [job.k = v] on a parsed value, in strict code. *)
Definition assign (k : string) (v : json) (job : json) : result string json :=
  match job with
  | JObj l => Ok (JObj (aput k v l))
  | JArr l => Ok (JArr l)
  | _ => Err "TypeError"
  end.

Definition has_status (job : json) (s : JobStatus) : bool :=
  bool_decide (string_of (prop job "status") = Some (status_text s)).

Definition isTerminal (job : json) : bool := has_status job SUCCESS || has_status job DEAD_LETTER.

Section queue.
Context {σ : Type} `{RedisServer σ} (num : string → string) (limits : QueueLimits).
Notation M := (M σ).

Definition lift {A} (r : result string A) : M A :=
  match r with Ok a => mret a | Err e => throw e end.

Definition parse_job (raw : string) : M json :=
  match JSON_parse num raw with Some j => mret j | None => throw "SyntaxError" end.

(** [job.k] on a parsed value. *)
Definition read (job : json) (k : string) : M (option json) :=
  match job with JNull => throw "TypeError" | _ => mret (prop job k) end.

Definition assigns (l : list (string * json)) (job : json) : M json :=
  lift (foldl (λ r kv, j ← r; assign kv.1 kv.2 j) (Ok job) l).

Definition time_text (clock : Z) : json := JStr (iso_text clock).

(** The result of [persist]: whether the write answered ['OK']. *)
Definition persist (jobKey : string) (job : json) : M bool := set jobKey (JSON_stringify job).

(** [String(v)] in a template literal, for a property of a stored job. *)
Definition template (v : option json) : string :=
  match v with Some v => js_String v | None => "undefined" end.

Definition removeFromIndexes (job : json) : M unit :=
  _ ← sRem (type_index (template (prop job "type"))) (template (prop job "id"));
  match prop job "admittedFor" with
  | Some v => if falsy v then mret tt
              else sRem (user_index (js_String v)) (template (prop job "id"))
  | None => mret tt
  end.

Definition payload_json (p : JobPayload) : json :=
  JObj ([("type", JStr (type_text (pl_type p))); ("data", pl_data p)] ++
        match pl_userId p with Some u => [("userId", JStr u)] | None => [] end ++
        match pl_correlationId p with Some c => [("correlationId", JStr c)] | None => [] end).

Definition new_job (p : JobPayload) (maxRetries : Z) (admittedFor : option string)
    (jobId uuid : string) (clock : Z) : json :=
  JObj ([("id", JStr jobId); ("type", JStr (type_text (pl_type p)));
         ("status", JStr (status_text PENDING)); ("payload", payload_json p);
         ("retries", jint 0); ("maxRetries", jint maxRetries);
         ("correlationId", JStr (default uuid (pl_correlationId p)));
         ("createdAt", time_text clock)] ++
        match truthy admittedFor with Some u => [("admittedFor", JStr u)] | None => [] end).

Definition persistNewJob (p : JobPayload) (maxRetries : Z) (admittedFor : option string)
    (jobId uuid : string) (clock : Z) : M json :=
  let job := new_job p maxRetries admittedFor jobId uuid clock in
  _ ← set (job_key jobId) (JSON_stringify job);
  _ ← expire (job_key jobId);
  _ ← sAdd QUEUE_KEY jobId;
  _ ← sAdd (type_index (type_text (pl_type p))) jobId;
  _ ← match truthy admittedFor with Some u => sAdd (user_index u) jobId | None => mret tt end;
  mret job.

Fixpoint acquireAdmission (attempts : nat) (token : string) : M bool :=
  match attempts with
  | O => mret false
  | S n => got ← acquireLockOrThrow ADMISSION_LOCK_KEY token;
           if got : bool then mret true else acquireAdmission n token
  end.

Definition size (l : list string) : Z := Z.of_nat (length l).

Definition readDepths (t : JobType) (userId : option string) : M QueueDepths :=
  g ← sMembersOrThrow QUEUE_KEY;
  ty ← sMembersOrThrow (type_index (type_text t));
  u ← match truthy userId with
      | Some u => l ← sMembersOrThrow (user_index u); mret (size l)
      | None => mret 0
      end;
  mret {| q_global := size g; q_type := size ty; q_user := u |}.

(** One id of one index. *)
Definition prune_one (key jobId : string) : M unit :=
  raw ← getOrThrow (job_key jobId);
  job ← match truthy raw with Some raw => parse_job raw | None => mret JNull end;
  if negb (falsy job) && negb (isTerminal job) then mret tt
  else
    _ ← (if has_status job DEAD_LETTER then sAdd DEAD_LETTER_KEY jobId else mret tt);
    sRem key jobId.

Definition prune_key (key : string) : M unit :=
  ids ← sMembersOrThrow key; for_each (prune_one key) ids.

Definition pruneIndexes (t : JobType) (userId : option string) : M unit :=
  for_each prune_key
    ([QUEUE_KEY; type_index (type_text t)] ++
     match truthy userId with Some u => [user_index u] | None => [] end).

Definition refuse {A} (d : BackpressureDecision) (k : M A) : M A :=
  match d with Admission => k | Refused _ _ _ => throw "QueueBackpressure" end.

(** [enqueue], with the token of its lock, the new ids and the time. *)
Definition enqueue (p : JobPayload) (maxRetries : Z) (privileged : bool)
    (token jobId uuid : string) (clock : Z) : M json :=
  if negb (enabled limits) then persistNewJob p maxRetries None jobId uuid clock
  else
    got ← acquireAdmission ADMISSION_LOCK_ATTEMPTS token;
    if negb got then throw "QueueBackpressure"
    else
      finally
        (let userId := if privileged then None else pl_userId p in
         depths ← readDepths (pl_type p) userId;
         match decideAdmission limits (pl_type p) depths privileged with
         | Admission => persistNewJob p maxRetries userId jobId uuid clock
         | Refused _ _ _ =>
             _ ← pruneIndexes (pl_type p) userId;
             depths ← readDepths (pl_type p) userId;
             refuse (decideAdmission limits (pl_type p) depths privileged)
               (persistNewJob p maxRetries userId jobId uuid clock)
         end)
        (catch (releaseLockOrThrow ADMISSION_LOCK_KEY token) tt).

Fixpoint dequeue_loop (clock : Z) (members : list string) : M (option (string * json)) :=
  match members with
  | [] => mret None
  | jobId :: members =>
      jobData ← getOrThrow (job_key jobId);
      match truthy jobData with
      | None => _ ← sRem QUEUE_KEY jobId; dequeue_loop clock members
      | Some raw =>
          job ← parse_job raw;
          _ ← read job "status";
          if isTerminal job then
            _ ← (if has_status job DEAD_LETTER then sAdd DEAD_LETTER_KEY jobId else mret tt);
            _ ← sRem QUEUE_KEY jobId;
            _ ← removeFromIndexes job;
            dequeue_loop clock members
          else
            claimed ← setNx (processing_key jobId);
            if negb claimed then dequeue_loop clock members
            else
              job ← assigns [("status", JStr (status_text PROCESSING));
                             ("startedAt", time_text clock)] job;
              _ ← set (job_key jobId) (JSON_stringify job);
              mret (Some (jobId, job))
      end
  end.

Definition dequeue (clock : Z) : M (option (string * json)) :=
  members ← sMembers QUEUE_KEY; dequeue_loop clock members.

Definition markSuccess (jobId : string) (result : option json) (clock : Z) : M unit :=
  jobData ← get (job_key jobId);
  match truthy jobData with
  | None => mret tt
  | Some raw =>
      job ← parse_job raw;
      _ ← read job "status";
      if isTerminal job then mret tt
      else
        job ← assigns ([("status", JStr (status_text SUCCESS)); ("completedAt", time_text clock)] ++
                       match result with
                       | Some r => if falsy r then [] else [("result", r)]
                       | None => []
                       end) job;
        written ← persist (job_key jobId) job;
        if negb written then mret tt
        else
          _ ← sRem QUEUE_KEY jobId;
          _ ← removeFromIndexes job;
          del (processing_key jobId)
  end.

(** [job.retries++] and the test [job.retries >= job.maxRetries]. *)
Definition next_retries (job : json) : option Z := (λ r, r + 1) <$> int_of (prop job "retries").
Definition exhausted (job : json) : bool :=
  match next_retries job, int_of (prop job "maxRetries") with
  | Some r, Some m => m <=? r
  | _, _ => false
  end.

Definition markFailure (jobId error : string) (clock : Z) : M bool :=
  jobData ← get (job_key jobId);
  match truthy jobData with
  | None => mret false
  | Some raw =>
      job ← parse_job raw;
      _ ← read job "status";
      if isTerminal job then mret false
      else
        let counted := [("retries", match next_retries job with Some r => jint r | None => JNull end);
                        ("lastError", JStr error); ("lastErrorAt", time_text clock)] in
        if exhausted job then
          job ← assigns (counted ++ [("status", JStr (status_text DEAD_LETTER));
                                     ("completedAt", time_text clock)]) job;
          written ← persist (job_key jobId) job;
          if negb written then mret false
          else
            _ ← sAdd DEAD_LETTER_KEY jobId;
            _ ← sRem QUEUE_KEY jobId;
            _ ← removeFromIndexes job;
            _ ← del (processing_key jobId);
            mret false
        else
          job ← assigns (counted ++ [("status", JStr (status_text PENDING))]) job;
          written ← persist (job_key jobId) job;
          if negb written then mret false
          else
            _ ← sAdd QUEUE_KEY jobId;
            _ ← del (processing_key jobId);
            mret true
  end.

Definition getJob (jobId : string) : M (option json) :=
  jobData ← get (job_key jobId);
  match truthy jobData with
  | Some raw => j ← parse_job raw; mret (Some j)
  | None => mret None
  end.

Fixpoint dead_letters (ids : list string) : M (list json) :=
  match ids with
  | [] => mret []
  | i :: ids =>
      j ← getJob i;
      rest ← dead_letters ids;
      mret (match j with
            | Some j => if negb (falsy j) && has_status j DEAD_LETTER then j :: rest else rest
            | None => rest
            end)
  end.

(** [l.slice(0, limit)]. *)
Definition slice0 (limit : Z) (l : list string) : list string :=
  take (Z.to_nat (if limit <? 0 then size l + limit else limit)) l.

Definition getDeadLetterJobs (limit : Z) : M (list json) :=
  members ← sMembers DEAD_LETTER_KEY; dead_letters (slice0 limit members).

Definition getQueueSize : M Z := members ← sMembers QUEUE_KEY; mret (size members).

Definition getBackpressureStatus : M (Z * bool * list (JobType * Z * bool)) :=
  g ← sMembers QUEUE_KEY;
  (fix go (ts : list JobType) (acc : list (JobType * Z * bool)) :=
     match ts with
     | [] => mret (size g, globalMaxDepth limits <=? size g, acc)
     | t :: ts =>
         l ← sMembers (type_index (type_text t));
         go ts (acc ++ [(t, size l, maxDepth (types limits t) <=? size l)])
     end) all_types [].
End queue.

(** ** Runs of the queue

    Calls are atomic with respect to each other here: the interleaving of two
    workers inside one call is not modelled. *)

Inductive queue_op :=
| OEnqueue (p : JobPayload) (maxRetries : Z) (privileged : bool) (token jobId uuid : string) (clock : Z)
| ODequeue (clock : Z)
| OSuccess (jobId : string) (result : option json) (clock : Z)
| OFailure (jobId error : string) (clock : Z)
| OLapse (lapsed : list string).

Section runs.
Context {σ : Type} `{RedisServer σ} (num : string → string) (limits : QueueLimits).

Definition call {A} (m : M σ A) (fs : list fate) (sv : σ) : σ :=
  server (m {| server := sv; fates := fs; healthy := true |}).1.

(** One operation on the server, its commands meeting the fates [fs]. *)
Definition step (sv : σ) (fo : list fate * queue_op) : σ :=
  match fo.2 with
  | OEnqueue p n pr token jobId uuid clock =>
      call (enqueue num limits p n pr token jobId uuid clock) fo.1 sv
  | ODequeue clock => call (dequeue num clock) fo.1 sv
  | OSuccess jobId r clock => call (markSuccess num jobId r clock) fo.1 sv
  | OFailure jobId e clock => call (markFailure num jobId e clock) fo.1 sv
  | OLapse lapsed => lapse sv lapsed
  end.

Definition run (sv : σ) (ops : list (list fate * queue_op)) : σ := foldl step sv ops.
End runs.

(** ** Keys *)

(** An id with no colon, such as a UUID, that is not one of the two words used
    for other keys. *)
Definition id_ok (i : string) : bool :=
  str_forall (λ c, negb (Ascii.eqb c ":")) i && negb (bool_decide (i = "queue")) &&
  negb (bool_decide (i = "dead-letter")).

Lemma job_key_inj i k : job_key i = job_key k → i = k.
Proof. unfold job_key. rewrite !str_app_cons, !str_app_nil. congruence. Qed.

(** A key with a colon in its tail is no job's key. *)
Lemma colon_key i pre post :
  id_ok i = true → str_forall (λ c, negb (Ascii.eqb c ":")) (pre +:+ String ":" post) = false →
  job_key i ≠ "job:" +:+ (pre +:+ String ":" post).
Proof.
  unfold id_ok. intros Hi Hc E%job_key_inj. subst i. by rewrite Hc in Hi.
Qed.

Lemma no_colon_app pre post :
  str_forall (λ c, negb (Ascii.eqb c ":")) (pre +:+ String ":" post) = false.
Proof. rewrite str_forall_app. simpl. by rewrite andb_false_r. Qed.

Lemma job_key_not_queue i : id_ok i = true → job_key i ≠ QUEUE_KEY.
Proof.
  unfold id_ok. intros Hi E. change QUEUE_KEY with (job_key "queue") in E.
  apply job_key_inj in E as ->. by vm_compute in Hi.
Qed.

Lemma job_key_not_dead i : id_ok i = true → job_key i ≠ DEAD_LETTER_KEY.
Proof.
  unfold id_ok. intros Hi E. change DEAD_LETTER_KEY with (job_key "dead-letter") in E.
  apply job_key_inj in E as ->. by vm_compute in Hi.
Qed.

Lemma job_key_not_lock i : id_ok i = true → job_key i ≠ ADMISSION_LOCK_KEY.
Proof.
  intros Hi. apply (colon_key i "admission" "lock" Hi). reflexivity.
Qed.

Lemma job_key_not_processing i k : id_ok i = true → job_key i ≠ processing_key k.
Proof. intros Hi. apply (colon_key i "processing" k Hi), no_colon_app. Qed.

Lemma job_key_not_type i t : id_ok i = true → job_key i ≠ type_index t.
Proof. intros Hi. apply (colon_key i "queue" ("type:" +:+ t) Hi), no_colon_app. Qed.

Lemma job_key_not_user i u : id_ok i = true → job_key i ≠ user_index u.
Proof. intros Hi. apply (colon_key i "queue" ("user:" +:+ u) Hi), no_colon_app. Qed.

(** ** Job objects *)

Lemma next_retries_bound job r : next_retries job = Some r → Z.abs r ≤ 9007199254740992.
Proof.
  unfold next_retries, int_of. destruct (prop job "retries") as [[| |t| | |]|]; try done.
  destruct (BigInt_of_string t) as [z|]; [|done]. simpl.
  destruct (bool_decide _ && _) eqn:E; [|done]. intros [= <-]. bool_to_prop.
  unfold max_safe in *. apply Z.leb_le in H0. lia.
Qed.

Lemma stringify_truthy l : truthy (Some (JSON_stringify (JObj l))) = Some (JSON_stringify (JObj l)).
Proof. reflexivity. Qed.

Lemma assigns_obj {σ} `{RedisServer σ} kvs l (s : st σ) :
  assigns kvs (JObj l) s = (s, Returned (JObj (updated l kvs))).
Proof.
  unfold assigns, updated, lift.
  assert (foldl (λ r kv, j ← r; assign kv.1 kv.2 j) (Ok (JObj l)) kvs =
          Ok (JObj (foldl (λ m kv, aput kv.1 kv.2 m) l kvs))) as ->; [|done].
  revert l. induction kvs as [|[k v] kvs IH]; intros l; [done|]. simpl. apply IH.
Qed.

(** ** No job is lost *)

Section kept.
Context {σ : Type} `{RedisLaws σ} (num : string → string) (limits : QueueLimits).
Context (j : string) (Hj : id_ok j = true).
(** The object of a finished job whose record is to stay as it is. *)
Context (final : option (list (string * json))).

(** The queue is a set without a time to live, of proper ids. *)
Definition queue_ok (ks : keyspace) : Prop :=
  ∀ e, ks !! QUEUE_KEY = Some e →
    ∃ l, e = plain (RSet l) ∧ Forall (λ i, id_ok i = true) l.

Definition queued (ks : keyspace) : Prop :=
  ∃ l, ks !! QUEUE_KEY = Some (plain (RSet l)) ∧ j ∈ l.

(** The record of [j] is the text of the object [l]. *)
Definition record_is (l : list (string * json)) (ks : keyspace) : Prop :=
  ∃ t, ks !! job_key j = Some {| r_value := RStr (JSON_stringify (JObj l)); r_ttl := t |}.

(** A record of [j], if there is one, is a job's text, and a job that is not
    finished is queued. *)
Definition kept (ks : keyspace) : Prop :=
  queue_ok ks ∧
  (ks !! job_key j = None ∨
   ∃ l, record_is l ks ∧ natural_obj num l ∧ (isTerminal (JObj l) = false → queued ks) ∧
        (∀ lf, final = Some lf → l = lf ∧ isTerminal (JObj lf) = true)).

(** The job is finished, or its record has expired. *)
Definition done_ (ks : keyspace) : Prop :=
  kept ks ∧ (ks !! job_key j = None ∨ ∃ l, record_is l ks ∧ natural_obj num l ∧ isTerminal (JObj l) = true).

(** Commands that leave the record of [j] alone; of the queue they remove only
    other ids, or [j] too when [fin]. *)
Definition safe (fin : bool) (c : command) : Prop :=
  match c with
  | GET _ | SMEMBERS _ => True
  | SET k _ _ _ | DEL k | GETDEL k | EXPIRE k | COMPARE_DEL k _ => k ≠ QUEUE_KEY ∧ k ≠ job_key j
  | SADD k m => k ≠ job_key j ∧ (k = QUEUE_KEY → id_ok m = true)
  | SREM k m => k ≠ job_key j ∧ (k = QUEUE_KEY → fin = false → m ≠ j)
  end.

Lemma safe_record fin c ks ks' r :
  safe fin c → documented ks c ks' r → ks' !! job_key j = ks !! job_key j.
Proof.
  intros Hs Hd. destruct Hd; simpl in Hs; unfold put_set; repeat case_match;
    rewrite ?lookup_insert_ne, ?lookup_delete_ne by (by destruct Hs); done.
Qed.

Lemma safe_queue_ok fin c ks ks' r :
  safe fin c → documented ks c ks' r → queue_ok ks → queue_ok ks'.
Proof.
  intros Hs Hd Hq e. destruct Hd; simpl in Hs; try (apply Hq);
    try (by rewrite lookup_insert_ne by naive_solver; apply Hq);
    try (by rewrite lookup_delete_ne by naive_solver; apply Hq).
  - destruct (decide (k = QUEUE_KEY)) as [->|]; [|by rewrite lookup_insert_ne by done; apply Hq].
    rewrite lookup_insert_eq. intros [= <-]. exists [m]. split; [done|]. repeat constructor. naive_solver.
  - destruct (decide (k = QUEUE_KEY)) as [->|]; [|by rewrite lookup_insert_ne by done; apply Hq].
    rewrite lookup_insert_eq. intros [= <-]. destruct (Hq _ H1) as (l0 & [= -> ->] & Hl).
    exists l'. split; [done|]. apply Forall_forall. intros x [->|Hx]%H3; [naive_solver|].
    rewrite Forall_forall in Hl. by apply Hl.
  - destruct (decide (k = QUEUE_KEY)) as [->|].
    + destruct (Hq _ H1) as (l0 & [= -> ->] & Hl). rewrite Forall_forall in Hl.
      unfold put_set. destruct l' as [|y l']; [by rewrite lookup_delete_eq|].
      rewrite lookup_insert_eq. intros [= <-]. exists (y :: l'). split; [done|].
      apply Forall_forall. intros x Hx. by apply Hl, H3.
    + unfold put_set. destruct l'; [rewrite lookup_delete_ne by done|rewrite lookup_insert_ne by done];
        apply Hq.
Qed.

Lemma safe_queued c ks ks' r :
  safe false c → documented ks c ks' r → queue_ok ks → queued ks → queued ks'.
Proof.
  intros Hs Hd Hq (l0 & Hl & Hin). destruct Hd; simpl in Hs; try (by exists l0);
    try (exists l0; by rewrite lookup_insert_ne by naive_solver);
    try (exists l0; by rewrite lookup_delete_ne by naive_solver).
  - destruct (decide (k = QUEUE_KEY)) as [->|]; [|exists l0; by rewrite lookup_insert_ne].
    rewrite Hl in H1. injection H1 as <- <-. exists l'. rewrite lookup_insert_eq. split; [done|].
    apply H3. by right.
  - destruct (decide (k = QUEUE_KEY)) as [->|].
    + rewrite Hl in H1. injection H1 as <- <-.
      assert (j ∈ l') as Hj' by (apply H3; naive_solver).
      unfold put_set. destruct l' as [|y l']; [by apply not_elem_of_nil in Hj'|].
      exists (y :: l'). by rewrite lookup_insert_eq.
    + exists l0. unfold put_set. destruct l'; [by rewrite lookup_delete_ne|by rewrite lookup_insert_ne].
Qed.

(** A condition that implies [kept] and that safe commands do not disturb. *)
Definition stable (fin : bool) (X : keyspace → Prop) : Prop :=
  (∀ ks, X ks → kept ks) ∧
  ∀ c ks ks' r, safe fin c → documented ks c ks' r → X ks → X ks'.

Lemma record_stable fin c ks ks' r l :
  safe fin c → documented ks c ks' r → record_is l ks → record_is l ks'.
Proof. intros Hs Hd. unfold record_is. by rewrite (safe_record fin c ks ks' r). Qed.

Lemma stable_kept : stable false kept.
Proof.
  split; [done|]. intros c ks ks' r Hs Hd [Hq Hr]. split; [by eapply safe_queue_ok|].
  destruct Hr as [Hn|(l & Hl & Hnat & Ht & Hf)].
  - left. by rewrite (safe_record false c ks ks' r).
  - right. exists l. split; [by eapply record_stable|]. split; [done|]. split; [|done].
    intros Hterm. eapply safe_queued; eauto.
Qed.

Lemma record_inj l1 l2 ks :
  natural_obj num l1 → natural_obj num l2 → record_is l1 ks → record_is l2 ks → l1 = l2.
Proof.
  intros Hn1 Hn2 [t1 H1] [t2 H2].
  assert (JSON_stringify (JObj l1) = JSON_stringify (JObj l2)) as Heq by congruence.
  apply (f_equal (JSON_parse num)) in Heq. rewrite !parse_stringify in Heq by done. congruence.
Qed.

Lemma stable_done : stable true done_.
Proof.
  split; [by intros ks [? _]|]. intros c ks ks' r Hs Hd [[Hq Hk] Hr].
  assert (queue_ok ks') as Hq' by (by eapply safe_queue_ok).
  destruct Hr as [Hn|(l & Hl & Hnat & Ht)].
  - assert (ks' !! job_key j = None) by (by rewrite (safe_record true c ks ks' r)).
    split; [split; [done|by left]|by left].
  - assert (record_is l ks') by (by eapply record_stable).
    split; [split; [done|]|]; right; exists l; (split; [done|]); (split; [done|]); [|done].
    split; [by rewrite Ht|]. destruct Hk as [Hn|(l1 & Hl1 & Hnat1 & _ & Hf)].
    { destruct Hl as [t Hl]. congruence. }
    rewrite (record_inj l l1 ks) by done. exact Hf.
Qed.

Definition kept_record (l : list (string * json)) (ks : keyspace) : Prop :=
  kept ks ∧ record_is l ks.

Lemma stable_record l : stable false (kept_record l).
Proof.
  split; [by intros ks [? _]|]. intros c ks ks' r Hs Hd [Hk Hl].
  split; [by eapply (proj2 stable_kept)|by eapply record_stable].
Qed.

Notation tr := (triple kept).

Lemma stable_degrading {A} fin X c (f : reply → A) d :
  stable fin X → safe fin c → tr X (degrading (σ := σ) c f d) (λ _, X).
Proof.
  intros [HK HX] Hs. apply triple_degrading. intros ks Hks.
  split; [by apply HK|]. split; [done|]. intros ks' r Hd. split; by eapply HX.
Qed.

Lemma stable_throwing {A} fin X c (f : reply → A) :
  stable fin X → safe fin c → tr X (throwing (σ := σ) c f) (λ _, X).
Proof.
  intros [HK HX] Hs. apply triple_throwing. intros ks Hks.
  split; [by apply HK|]. intros ks' r Hd. split; [by eapply HX|]. by eapply HK, HX.
Qed.

Lemma stable_parse {A} fin X raw (f : json → M σ A) Q :
  stable fin X → (∀ job, JSON_parse num raw = Some job → tr X (f job) Q) →
  tr X (parse_job num raw ≫= f) Q.
Proof.
  intros [HK _] Hf. unfold parse_job. destruct (JSON_parse num raw) as [job|].
  - apply (triple_bind _ _ _ _ (λ a ks, a = job ∧ X ks)); [by apply triple_ret|].
    intros a. apply triple_pure. intros ->. by apply Hf.
  - apply (triple_bind _ _ _ _ (λ _ _, False)); [by apply triple_throw|]. by intros ? s [].
Qed.

Lemma stable_removeFromIndexes fin X job :
  stable fin X → tr X (removeFromIndexes (σ := σ) job) (λ _, X).
Proof.
  intros HX. unfold removeFromIndexes. apply (triple_bind _ _ _ _ (λ _, X)).
  - apply (stable_degrading fin); [done|]. split; [by apply not_eq_sym, job_key_not_type|done].
  - intros _. destruct (prop job "admittedFor") as [v|]; [|by apply triple_ret].
    destruct (falsy v); [by apply triple_ret|].
    apply (stable_degrading fin); [done|]. split; [by apply not_eq_sym, job_key_not_user|done].
Qed.

Lemma stable_dead_letter fin X jobId : stable fin X → tr X (sAdd (σ := σ) DEAD_LETTER_KEY jobId) (λ _, X).
Proof.
  intros HX. apply (stable_degrading fin); [done|].
  split; [by apply not_eq_sym, job_key_not_dead|done].
Qed.

Lemma stable_unlock fin X jobId : stable fin X → tr X (del (σ := σ) (processing_key jobId)) (λ _, X).
Proof.
  intros HX. apply (stable_degrading fin); [done|].
  split; [discriminate|by apply not_eq_sym, job_key_not_processing].
Qed.

(** What reading the record of [j] tells. *)
Definition seen (x : option string) (ks : keyspace) : Prop :=
  match x with
  | None => done_ ks
  | Some raw => ∃ l, (raw = JSON_stringify (JObj l) ∧ natural_obj num l) ∧ kept_record l ks
  end.

Lemma documented_get ks ks' r :
  kept ks → documented ks (GET (job_key j)) ks' r → ks' = ks ∧ seen (bulk_of r) ks.
Proof.
  intros Hk Hd. inversion Hd as [k Hn|k s t Hs|k|k|k|k|k|k|k|k|k|k|k|k|k|k|k]; subst;
    (split; [done|]); simpl; [by split; [|left]|].
  destruct (proj2 Hk) as [Hn|(l & [t' Hl] & Hnat & _)]; [by rewrite Hn in Hs|].
  rewrite Hs in Hl. injection Hl as -> ->. exists l. split; [done|]. split; [done|].
  by exists t'.
Qed.

Lemma observe_throwing : tr kept (getOrThrow (σ := σ) (job_key j)) seen.
Proof.
  apply triple_throwing. intros ks Hk. split; [done|]. intros ks' r Hd.
  destruct (documented_get _ _ _ Hk Hd) as [-> Hs]. done.
Qed.

Lemma observe_degrading :
  tr kept (get (σ := σ) (job_key j))
    (λ x ks, match x with None => kept ks | Some _ => seen x ks end).
Proof.
  apply triple_degrading. intros ks Hk. split; [done|]. split; [done|]. intros ks' r Hd.
  destruct (documented_get _ _ _ Hk Hd) as [-> Hs]. split; [|done].
  destruct (bulk_of r); [done|]. by destruct Hs.
Qed.

(** Writing a new record for a [j] that is not finished. *)
Lemma write_record l l' :
  natural_obj num l → natural_obj num l' → isTerminal (JObj l) = false →
  tr (kept_record l) (persist (σ := σ) (job_key j) (JObj l'))
    (λ ok ks, if ok : bool then kept_record l' ks else kept ks).
Proof.
  intros Hl Hl' Hterm. apply triple_degrading. intros ks [[Hq Hr] Hrec].
  split; [done|]. split; [done|]. intros ks' r Hd.
  assert (kept_record l' ks') as Hk.
  { inversion Hd; subst. assert (record_is l' (<[job_key j := {| r_value := RStr (JSON_stringify (JObj l'));
      r_ttl := false |}]> ks)) as Hrec' by (exists false; by rewrite lookup_insert_eq).
    split; [|done]. pose proof (job_key_not_queue j Hj). split.
    - intros e. rewrite lookup_insert_ne by done. apply Hq.
    - right. exists l'. split; [done|]. split; [done|].
      destruct Hr as [Hn|(l0 & Hl0 & Hnat & Hqd & Hf)]; [destruct Hrec as [t Hrec]; congruence|].
      rewrite (record_inj l0 l ks) in * by done. split.
      + intros _. destruct (Hqd Hterm) as (lq & Hlq & Hin). exists lq. by rewrite lookup_insert_ne.
      + intros lf Hlf. destruct (Hf lf Hlf) as [-> ?]. congruence. }
  split; [by destruct (is_OK r); [|destruct Hk]|by destruct Hk].
Qed.

Lemma kept_record_done l ks :
  natural_obj num l → isTerminal (JObj l) = true → kept_record l ks → done_ ks.
Proof. intros Hl Ht [Hk Hr]. split; [done|]. right. eauto. Qed.

(** The rest of finishing a job: out of the queue and the indexes, claim gone. *)
Lemma finish_done job :
  tr done_ (_ ← sRem QUEUE_KEY j; _ ← removeFromIndexes (σ := σ) job; del (processing_key j))
    (λ _, done_).
Proof.
  apply (triple_bind _ _ _ _ (λ _, done_)).
  - apply (stable_degrading true _ _ _ _ stable_done). split; [|done].
    by apply not_eq_sym, job_key_not_queue.
  - intros _. apply (triple_bind _ _ _ _ (λ _, done_)); [by apply (stable_removeFromIndexes true), stable_done|].
    intros _. by apply (stable_unlock true), stable_done.
Qed.

Lemma done_kept {A} (m : M σ A) P : tr P m (λ _, done_) → tr P m (λ _, kept).
Proof. intros Hm. eapply triple_weaken; [exact Hm|done|]. by intros ? ks [? _]. Qed.
End kept.

(** Steps through a call all of whose commands are safe. *)
Ltac side_keys :=
  cbn [safe]; repeat match goal with
  | |- _ ∧ _ => split
  | |- _ → _ => intros ?
  | |- job_key ?i ≠ job_key ?k => intros ?%job_key_inj; congruence
  | |- ?k ≠ job_key ?i => apply not_eq_sym
  end;
  first [ done | discriminate | congruence
        | by apply job_key_not_queue | by apply job_key_not_dead | by apply job_key_not_lock
        | by apply job_key_not_processing | by apply job_key_not_type | by apply job_key_not_user ].

Ltac safe_walk :=
  repeat match goal with
  | |- triple _ _ (mret _) _ => by apply triple_ret
  | |- triple _ _ (throw _) _ => by apply triple_throw
  | |- triple _ _ (lift ?r) _ => destruct r; unfold lift
  | |- triple _ _ (parse_job ?num ?raw) _ => unfold parse_job; destruct (JSON_parse num raw)
  | |- triple _ _ (read ?job _) _ => unfold read; destruct job
  | |- triple ?I _ (mbind _ _) _ => apply (triple_bind _ _ _ _ (λ _, I)); [|intros ?]
  | |- triple _ _ (removeFromIndexes _) _ => eapply stable_removeFromIndexes; [done|by apply stable_kept]
  | |- triple _ _ (assigns _ _) _ => unfold assigns
  | |- triple _ _ (match ?x with _ => _ end) _ => destruct x
  | |- triple _ _ (throwing _ _) _ => eapply stable_throwing with (fin := false); [by apply stable_kept|side_keys]
  | |- triple _ _ (degrading _ _ _) _ => eapply stable_degrading with (fin := false); [by apply stable_kept|side_keys]
  | |- triple _ _ (get _) _ => unfold get
  | |- triple _ _ (set _ _) _ => unfold set
  | |- triple _ _ (persist _ _) _ => unfold persist
  | |- triple _ _ (expire _) _ => unfold expire
  | |- triple _ _ (sAdd _ _) _ => unfold sAdd
  | |- triple _ _ (sRem _ _) _ => unfold sRem
  | |- triple _ _ (sMembers _) _ => unfold sMembers
  | |- triple _ _ (sMembersOrThrow _) _ => unfold sMembersOrThrow
  | |- triple _ _ (getOrThrow _) _ => unfold getOrThrow
  | |- triple _ _ (setNx _) _ => unfold setNx
  | |- triple _ _ (del _) _ => unfold del
  | |- triple _ _ (acquireLockOrThrow _ _) _ => unfold acquireLockOrThrow
  | |- triple _ _ (releaseLockOrThrow _ _) _ => unfold releaseLockOrThrow
  end.

Section ops.
Context {σ : Type} `{RedisLaws σ} (num : string → string) (limits : QueueLimits).
Context (j : string) (Hj : id_ok j = true) (final : option (list (string * json))).
Notation kept := (kept num j final).
Notation tr := (triple kept).

Lemma markSuccess_other k r clock :
  id_ok k = true → k ≠ j → tr kept (markSuccess (σ := σ) num k r clock) (λ _, kept).
Proof. intros Hk Hne. unfold markSuccess. safe_walk. Qed.

Lemma markFailure_other k e clock :
  id_ok k = true → k ≠ j → tr kept (markFailure (σ := σ) num k e clock) (λ _, kept).
Proof. intros Hk Hne. unfold markFailure. safe_walk. Qed.

Lemma safe_for_each {A} (f : A → M σ unit) l :
  (∀ x, tr kept (f x) (λ _, kept)) → tr kept (for_each f l) (λ _, kept).
Proof. intros Hf. apply triple_for_each. intros x _. apply Hf. Qed.

(** What follows the reading of a record of [j], for each thing it can be. *)
Lemma after_seen {A} (f : option string → M σ A) Q :
  tr (done_ num j final) (f None) Q →
  (∀ l, natural_obj num l → tr (kept_record num j final l) (f (Some (JSON_stringify (JObj l)))) Q) →
  ∀ x, tr (seen num j final x) (f x) Q.
Proof.
  intros Hn Hs [raw|]; [|done]. simpl. apply triple_exists. intros l.
  apply triple_pure. intros [-> Hl]. by apply Hs.
Qed.

Lemma prune_one_kept key k :
  key ≠ job_key j → tr kept (prune_one (σ := σ) num key k) (λ _, kept).
Proof.
  intros Hkey. destruct (decide (key = QUEUE_KEY ∧ k = j)) as [[-> ->]|Hne].
  2: { unfold prune_one. safe_walk. all: try (by unfold sRem; eapply stable_degrading with (fin := false); [by apply stable_kept|]; split; [done|naive_solver]). }
  unfold prune_one. apply (triple_bind _ _ _ _ (seen num j final)); [by apply observe_throwing|].
  apply after_seen.
  - cbn [truthy]. apply (triple_bind _ _ _ _ (λ a ks, a = JNull ∧ done_ num j final ks)); [by apply triple_ret|].
    intros a. apply triple_pure. intros ->. cbn [falsy negb andb].
    change (has_status JNull DEAD_LETTER) with false. cbn iota.
    apply (triple_bind _ _ _ _ (λ _, done_ num j final)); [by apply triple_ret|]. intros _.
    apply done_kept. eapply stable_degrading with (fin := true); [by apply stable_done|]. side_keys.
  - intros l Hl. rewrite stringify_truthy. eapply stable_parse; [by apply stable_record|].
    intros job Hjob. rewrite parse_stringify in Hjob by done. injection Hjob as <-.
    cbn [falsy negb andb]. destruct (isTerminal (JObj l)) eqn:Ht; cbn [negb].
    + apply (triple_pre _ _ (done_ num j final)); [|intros ks Hks; by eapply kept_record_done].
      apply (triple_bind _ _ _ _ (λ _, done_ num j final)).
      { destruct (has_status (JObj l) DEAD_LETTER); [|by apply triple_ret].
        eapply stable_dead_letter; [done|by apply stable_done]. }
      intros _. apply done_kept. eapply stable_degrading with (fin := true); [by apply stable_done|]. side_keys.
    + apply triple_ret. by intros ks [? _].
Qed.

(** Assigning to a parsed job object. *)
Lemma triple_assigns {A} P kvs l (f : json → M σ A) Q :
  tr P (f (JObj (updated l kvs))) Q → tr P (assigns kvs (JObj l) ≫= f) Q.
Proof.
  intros Hf s Hs. unfold mbind, M_bind. rewrite assigns_obj. by apply Hf.
Qed.

Lemma triple_read {A} P l k (f : option json → M σ A) Q :
  (∀ x, tr P (f x) Q) → tr P (read (JObj l) k ≫= f) Q.
Proof. intros Hf s Hs. by apply Hf. Qed.

Lemma status_updated l kvs s :
  aget "status" (updated l kvs) = Some (JStr (status_text s)) →
  isTerminal (JObj (updated l kvs)) = match s with SUCCESS | DEAD_LETTER => true | _ => false end.
Proof.
  rewrite <- jget_aget. unfold isTerminal, has_status. cbn [prop]. intros ->. by destruct s.
Qed.

(** One round of the dequeue loop. *)
Lemma dequeue_loop_kept clock members :
  Forall (λ i, id_ok i = true) members →
  tr kept (dequeue_loop (σ := σ) num clock members) (λ _, kept).
Proof.
  induction 1 as [|k members Hk Hms IH]; [by apply triple_ret|]. cbn [dequeue_loop].
  destruct (decide (k = j)) as [->|Hne].
  2: { safe_walk; exact IH. }
  apply (triple_bind _ _ _ _ (seen num j final)); [by apply observe_throwing|].
  apply after_seen.
  - cbn [truthy]. apply (triple_bind _ _ _ _ (λ _, kept)); [|by intros _].
    apply done_kept. eapply stable_degrading with (fin := true); [by apply stable_done|]. side_keys.
  - intros l Hl. rewrite stringify_truthy. eapply stable_parse; [by apply stable_record|].
    intros job Hjob. rewrite parse_stringify in Hjob by done. injection Hjob as <-.
    apply triple_read. intros _. destruct (isTerminal (JObj l)) eqn:Ht.
    + apply (triple_pre _ _ (done_ num j final)); [|intros ks Hks; by eapply kept_record_done].
      apply (triple_bind _ _ _ _ (λ _, done_ num j final)).
      { destruct (has_status (JObj l) DEAD_LETTER); [|by apply triple_ret].
        eapply stable_dead_letter; [done|by apply stable_done]. }
      intros _. apply (triple_bind _ _ _ _ (λ _, done_ num j final)).
      { eapply stable_degrading with (fin := true); [by apply stable_done|]. side_keys. }
      intros _. apply (triple_bind _ _ _ _ (λ _, kept)); [|by intros _].
      apply done_kept. eapply stable_removeFromIndexes; [done|by apply stable_done].
    + apply (triple_bind _ _ _ _ (λ _, kept_record num j final l)).
      { eapply stable_degrading with (fin := false); [by apply stable_record|]. side_keys. }
      intros [|]; cbn [negb].
      2: { eapply triple_pre; [exact IH|]. by intros ks [? _]. }
      apply triple_assigns.
      apply (triple_bind _ _ _ _ (λ _, kept)); [|intros _; by apply triple_ret].
      eapply triple_weaken; [apply (write_record num j Hj final l (updated l _))| |]; try done.
      * apply natural_updated; [done|]. repeat constructor.
      * by intros [|] ks; [intros [? _]|].
Qed.

Lemma dequeue_kept clock : tr kept (dequeue (σ := σ) num clock) (λ _, kept).
Proof.
  unfold dequeue.
  apply (triple_bind _ _ _ _ (λ ids ks, Forall (λ i, id_ok i = true) ids ∧ kept ks)).
  - apply triple_degrading. intros ks Hk. split; [done|]. split; [done|].
    intros ks' r Hd. split; [|split; [done|exact (proj2 (stable_kept num j Hj final) (SMEMBERS QUEUE_KEY) ks ks' r I Hd Hk)]].
    inversion Hd; subst; simpl; (split; [|done]); [done|].
    match goal with H : _ !! QUEUE_KEY = Some _ |- _ => destruct (proj1 Hk _ H) as (l0 & [= -> ->] & Hl) end.
    match goal with H : _ ≡ₚ _ |- _ => by rewrite H end.
  - intros ids. apply triple_pure. apply dequeue_loop_kept.
Qed.

Lemma markSuccess_kept k r clock :
  id_ok k = true → match r with Some v => natural num v = true | None => True end →
  tr kept (markSuccess (σ := σ) num k r clock) (λ _, kept).
Proof.
  intros Hk Hr. destruct (decide (k = j)) as [->|Hne]; [|by apply markSuccess_other].
  unfold markSuccess.
  apply (triple_bind _ _ _ _ (λ x ks, match x with None => kept ks | Some _ => seen num j final x ks end));
    [by apply observe_degrading|].
  intros [raw|]; [|by apply triple_ret]. cbn [seen]. apply triple_exists. intros l.
  apply triple_pure. intros [-> Hl]. rewrite stringify_truthy.
  eapply stable_parse; [by apply stable_record|].
  intros job Hjob. rewrite parse_stringify in Hjob by done. injection Hjob as <-.
  apply triple_read. intros _. destruct (isTerminal (JObj l)) eqn:Ht.
  { apply triple_ret. by intros ks [? _]. }
  apply triple_assigns. set (kvs := _ ++ _).
  assert (natural_obj num (updated l kvs)) as Hl'.
  { apply natural_updated; [done|]. unfold kvs. apply Forall_app. split; [repeat constructor|].
    destruct r as [v|]; [|constructor]. destruct (falsy v); by repeat constructor. }
  assert (isTerminal (JObj (updated l kvs)) = true) as Ht'.
  { apply (status_updated l kvs SUCCESS). unfold kvs, updated.
    destruct r as [v|]; [destruct (falsy v)|]; cbn [app foldl fst snd];
      rewrite ?aget_aput; repeat (rewrite decide_False by done); by rewrite decide_True. }
  apply (triple_bind _ _ _ _ (λ (ok : bool) ks, if ok then kept_record num j final (updated l kvs) ks else kept ks)).
  { apply write_record; done. }
  intros [|]; cbn [negb]; [|by apply triple_ret].
  apply (triple_pre _ _ (done_ num j final)); [|intros ks Hks; by eapply kept_record_done].
  apply done_kept. by apply finish_done.
Qed.

Lemma markFailure_kept k e clock :
  id_ok k = true → tr kept (markFailure (σ := σ) num k e clock) (λ _, kept).
Proof.
  intros Hk. destruct (decide (k = j)) as [->|Hne]; [|by apply markFailure_other].
  unfold markFailure.
  apply (triple_bind _ _ _ _ (λ x ks, match x with None => kept ks | Some _ => seen num j final x ks end));
    [by apply observe_degrading|].
  intros [raw|]; [|by apply triple_ret]. cbn [seen]. apply triple_exists. intros l.
  apply triple_pure. intros [-> Hl]. rewrite stringify_truthy.
  eapply stable_parse; [by apply stable_record|].
  intros job Hjob. rewrite parse_stringify in Hjob by done. injection Hjob as <-.
  apply triple_read. intros _. destruct (isTerminal (JObj l)) eqn:Ht.
  { apply triple_ret. by intros ks [? _]. }
  set (counted := [_; _; _]).
  assert (Forall (λ kv, natural num kv.2 = true ∧ is_index kv.1 = false) counted) as Hc.
  { unfold counted. constructor; [|repeat constructor]. split; [|done]. cbn [fst snd].
    destruct (next_retries (JObj l)) as [n|] eqn:En; [|done].
    by apply natural_jint, (next_retries_bound _ _ En). }
  destruct (exhausted (JObj l)).
  - apply triple_assigns. set (kvs := counted ++ _).
    assert (natural_obj num (updated l kvs)) as Hl'.
    { apply natural_updated; [done|]. apply Forall_app. split; [done|]. repeat constructor. }
    assert (isTerminal (JObj (updated l kvs)) = true) as Ht'.
    { apply (status_updated l kvs DEAD_LETTER). unfold kvs, counted, updated. cbn [app foldl fst snd].
      rewrite ?aget_aput. repeat (rewrite decide_False by done). by rewrite decide_True. }
    apply (triple_bind _ _ _ _ (λ (ok : bool) ks, if ok then kept_record num j final (updated l kvs) ks else kept ks)).
    { apply write_record; done. }
    intros [|]; cbn [negb]; [|by apply triple_ret].
    apply (triple_pre _ _ (done_ num j final)); [|intros ks Hks; by eapply kept_record_done].
    apply (triple_bind _ _ _ _ (λ _, done_ num j final)).
    { eapply stable_dead_letter; [done|by apply stable_done]. }
    intros _. apply (triple_bind _ _ _ _ (λ _, done_ num j final)).
    { eapply stable_degrading with (fin := true); [by apply stable_done|]. side_keys. }
    intros _. apply (triple_bind _ _ _ _ (λ _, done_ num j final)).
    { eapply stable_removeFromIndexes; [done|by apply stable_done]. }
    intros _. apply (triple_bind _ _ _ _ (λ _, done_ num j final)).
    { eapply stable_unlock; [done|by apply stable_done]. }
    intros _. apply triple_ret. by intros ks [? _].
  - apply triple_assigns. set (kvs := counted ++ _).
    assert (natural_obj num (updated l kvs)) as Hl'.
    { apply natural_updated; [done|]. apply Forall_app. split; [done|]. repeat constructor. }
    apply (triple_bind _ _ _ _ (λ _, kept)).
    { eapply triple_weaken; [apply (write_record num j Hj final l (updated l kvs)); done|done|].
      by intros [|] ks; [intros [? _]|]. }
    intros [|]; cbn [negb]; safe_walk.
Qed.

Lemma acquire_kept n token : tr kept (acquireAdmission (σ := σ) n token) (λ _, kept).
Proof.
  induction n as [|n IH]; cbn [acquireAdmission]; [by apply triple_ret|].
  apply (triple_bind _ _ _ _ (λ _, kept)); [safe_walk|]. intros [|]; [by apply triple_ret|done].
Qed.

Lemma persistNewJob_kept p n a i u clock :
  id_ok i = true → i ≠ j → tr kept (persistNewJob (σ := σ) p n a i u clock) (λ _, kept).
Proof. intros Hi Hne. unfold persistNewJob. safe_walk. Qed.

Lemma readDepths_kept t u : tr kept (readDepths (σ := σ) t u) (λ _, kept).
Proof. unfold readDepths. safe_walk. Qed.

Lemma pruneIndexes_kept t u : tr kept (pruneIndexes (σ := σ) num t u) (λ _, kept).
Proof.
  unfold pruneIndexes. apply triple_for_each. intros key Hkey. unfold prune_key.
  apply (triple_bind _ _ _ _ (λ _, kept)); [safe_walk|]. intros ids.
  apply safe_for_each. intros k. apply prune_one_kept.
  apply elem_of_app in Hkey as [Hkey|Hkey].
  - rewrite !elem_of_cons in Hkey. destruct Hkey as [-> |[-> |[]%not_elem_of_nil]]; side_keys.
  - destruct (truthy u); [|by apply not_elem_of_nil in Hkey].
    apply list_elem_of_singleton in Hkey as ->. side_keys.
Qed.

Lemma enqueue_kept p n pr token i u clock :
  id_ok i = true → i ≠ j →
  tr kept (enqueue (σ := σ) num limits p n pr token i u clock) (λ _, kept).
Proof.
  intros Hi Hne. unfold enqueue.
  destruct (negb (enabled limits)); [by apply persistNewJob_kept|].
  apply (triple_bind _ _ _ _ (λ _, kept)); [apply acquire_kept|]. intros got.
  destruct (negb got); [by apply triple_throw|].
  assert (tr kept (catch (releaseLockOrThrow (σ := σ) ADMISSION_LOCK_KEY token) tt) (λ _, kept)) as Hrel.
  { apply triple_catch; [safe_walk|done]. }
  apply triple_finally; [|apply catch_never_throws|by intros _|done].
  apply (triple_bind _ _ _ _ (λ _, kept)); [apply readDepths_kept|]. intros d.
  destruct (decideAdmission _ _ _ _); [by apply persistNewJob_kept|].
  apply (triple_bind _ _ _ _ (λ _, kept)); [apply pruneIndexes_kept|]. intros _.
  apply (triple_bind _ _ _ _ (λ _, kept)); [apply readDepths_kept|]. intros d'.
  unfold refuse. destruct (decideAdmission _ _ _ _); [by apply persistNewJob_kept|by apply triple_throw].
Qed.
End ops.

(** ** Runs *)

Section survival.
Context {σ : Type} `{RedisLaws σ} (num : string → string) (limits : QueueLimits).
Context (j : string) (Hj : id_ok j = true).

(** Other jobs get other ids; results are JSON data. *)
Definition op_ok (o : queue_op) : Prop :=
  match o with
  | OEnqueue _ _ _ _ i _ _ => id_ok i = true ∧ i ≠ j
  | OSuccess i r _ => id_ok i = true ∧ match r with Some v => natural num v = true | None => True end
  | OFailure i _ _ => id_ok i = true
  | ODequeue _ | OLapse _ => True
  end.

Context (final : option (list (string * json))).

Lemma call_kept {A} (m : M σ A) fs sv :
  triple (kept num j final) (kept num j final) m (λ _, kept num j final) → kept num j final (keys_of sv) →
  kept num j final (keys_of (call m fs sv)).
Proof.
  intros Hm Hk. unfold call.
  specialize (Hm {| server := sv; fates := fs; healthy := true |} Hk).
  destruct (m _) as [s [a|e|]]; done.
Qed.

Lemma lapse_kept lapsed ks : kept num j final ks → kept num j final (lapse_keys lapsed ks).
Proof.
  intros [Hq Hr]. unfold lapse_keys. split.
  { intros e He. apply map_lookup_filter_Some in He as [He _]. by apply Hq. }
  destruct (filter _ ks !! job_key j) as [e|] eqn:He; [|by left]. right.
  apply map_lookup_filter_Some in He as He'. destruct He' as [He' _].
  destruct Hr as [Hn|(l & [t Hl] & Hnat & Ht & Hf)]; [congruence|]. exists l.
  split; [exists t; congruence|]. split; [done|]. split; [|done]. intros Hterm.
  destruct (Ht Hterm) as (lq & Hlq & Hin). exists lq. split; [|done].
  apply map_lookup_filter_Some. split; [done|]. simpl. by intros [_ ?].
Qed.

Lemma step_kept sv fo :
  kept num j final (keys_of sv) → op_ok fo.2 → kept num j final (keys_of (step num limits sv fo)).
Proof.
  intros Hk Ho. destruct fo as [fs o]. unfold step. cbn [fst snd] in *.
  destruct o as [p n pr token i u clock|clock|i r clock|i e clock|lapsed]; simpl in Ho.
  - destruct Ho. apply call_kept; [by apply enqueue_kept|done].
  - apply call_kept; [by apply dequeue_kept|done].
  - destruct Ho. apply call_kept; [by apply markSuccess_kept|done].
  - apply call_kept; [by apply markFailure_kept|done].
  - rewrite lapse_law. by apply lapse_kept.
Qed.

Lemma run_kept sv ops :
  kept num j final (keys_of sv) → Forall (λ fo, op_ok fo.2) ops →
  kept num j final (keys_of (run num limits sv ops)).
Proof.
  unfold run. intros Hk Hops. revert sv Hk.
  induction Hops as [|fo ops Ho _ IH]; intros sv Hk; [done|]. apply IH. by apply step_kept.
Qed.
End survival.

Section jobs.
Context {σ : Type} `{RedisLaws σ} (num : string → string) (limits : QueueLimits).

(** C4: no job is lost.  A job that is queued, whose record is a job's text,
    stays queued through any sequence of operations on any jobs, each
    atomic with respect to the others, until its record says it is finished or
    has expired: whatever commands fail, fail after taking effect, or are never
    sent because the process died, and whichever keys expire. *)
Theorem no_job_lost j sv ops l0 :
  id_ok j = true → queue_ok (keys_of sv) → record_is j l0 (keys_of sv) → natural_obj num l0 →
  queued j (keys_of sv) → Forall (λ fo, op_ok num j fo.2) ops →
  let ks := keys_of (run num limits sv ops) in
  ks !! job_key j = None ∨
  ∃ l, record_is j l ks ∧ (isTerminal (JObj l) = true ∨ queued j ks).
Proof.
  intros Hj Hq Hr Hn Hqd Hops ks.
  destruct (run_kept num limits j Hj None sv ops) as [_ Hk]; [|done|].
  { split; [done|]. right. exists l0. done. }
  fold ks in Hk. destruct Hk as [|(l & Hl & _ & Ht & _)]; [by left|]. right. exists l.
  split; [done|]. destruct (isTerminal (JObj l)); [by left|right; by apply Ht].
Qed.

(** A finished job stays as it is.  Once the record of a job says success or
    dead letter, no sequence of operations, with whatever failures, crashes and
    late workers, rewrites it: it stays as it is until it expires. *)
Theorem finished_is_final j sv ops l0 :
  id_ok j = true → queue_ok (keys_of sv) → record_is j l0 (keys_of sv) → natural_obj num l0 →
  isTerminal (JObj l0) = true → Forall (λ fo, op_ok num j fo.2) ops →
  let ks := keys_of (run num limits sv ops) in
  ks !! job_key j = None ∨ record_is j l0 ks.
Proof.
  intros Hj Hq Hr Hn Ht Hops ks.
  destruct (run_kept num limits j Hj (Some l0) sv ops) as [_ Hk]; [|done|].
  { split; [done|]. right. exists l0. split; [done|]. split; [done|]. split; [by rewrite Ht|].
    by intros lf [= <-]. }
  fold ks in Hk. destruct Hk as [|(l & Hl & _ & _ & Hf)]; [by left|]. right.
  by destruct (Hf l0 eq_refl) as [<- _].
Qed.
End jobs.

(** ** A run *)

Definition sample_payload : JobPayload :=
  {| pl_type := DATA_EXPORT; pl_data := JObj [("bondId", JStr "b-1")];
     pl_userId := Some "u-1"; pl_correlationId := None |}.

Definition sample_fields : list (string * json) :=
  match new_job sample_payload 3 (Some "u-1") "j-1" "c-1" 0 with JObj l => l | _ => [] end.

Definition sample_server : keyspace :=
  run (λ s, s) DEFAULT_QUEUE_LIMITS ∅ [([], OEnqueue sample_payload 3 false "t-1" "j-1" "c-1" 0)].

(** A worker claims the job and dies; its lock lapses; a second worker claims it and
    fails, Redis losing the answer to the write; a third one succeeds. *)
Definition sample_ops : list (list fate * queue_op) :=
  [([], ODequeue 10); ([], OLapse [processing_key "j-1"]); ([Fails], ODequeue 20);
   ([], ODequeue 30); ([Succeeds; FailsApplied], OFailure "j-1" "boom" 40);
   ([], OEnqueue sample_payload 3 true "t-2" "j-2" "c-2" 50)].

Lemma sample_queue_ok : queue_ok (keys_of sample_server).
Proof. intros e He. vm_compute in He. injection He as <-. exists ["j-1"]. by repeat constructor. Qed.

Lemma no_job_lost_witness :
  let ks := keys_of (run (λ s, s) DEFAULT_QUEUE_LIMITS sample_server sample_ops) in
  ks !! job_key "j-1" = None ∨
  ∃ l, record_is "j-1" l ks ∧ (isTerminal (JObj l) = true ∨ queued "j-1" ks).
Proof.
  apply (no_job_lost (σ := keyspace) (λ s, s) DEFAULT_QUEUE_LIMITS "j-1" sample_server sample_ops sample_fields).
  - done.
  - apply sample_queue_ok.
  - exists true. by vm_compute.
  - by vm_compute.
  - exists ["j-1"]. split; [by vm_compute|by left].
  - by repeat constructor.
Defined.

Lemma finished_is_final_witness :
  let sv := run (λ s, s) DEFAULT_QUEUE_LIMITS sample_server
              [([], ODequeue 10); ([], OSuccess "j-1" None 20)] in
  ∃ l0, let ks := keys_of (run (λ s, s) DEFAULT_QUEUE_LIMITS sv [([], OFailure "j-1" "late" 30)]) in
  ks !! job_key "j-1" = None ∨ record_is "j-1" l0 ks.
Proof.
  intros sv. exists (updated sample_fields
    [("status", JStr "processing"); ("startedAt", JStr (iso_text 10));
     ("status", JStr "success"); ("completedAt", JStr (iso_text 20))]).
  apply (finished_is_final (σ := keyspace) (λ s, s) DEFAULT_QUEUE_LIMITS "j-1").
  - done.
  - intros e He. by vm_compute in He.
  - exists false. by vm_compute.
  - by vm_compute.
  - by vm_compute.
  - by repeat constructor.
Defined.
