(* ===== verification/JobClaims.v ===== *)
(** * Claims and admission of jobs

    More of [api/src/workers/services/job-queue.service.ts], on the model of
    [JobQueue]: a claim is exclusive, a waiting job is served, an admission never
    takes an index over its bound, and an accepted job is stored and queued. *)
From S2P Require Import Prelude JsDate Json JsonParse Redis JobQueue.

(** ** Claims *)

(** Commands that leave the claim of job [k] standing and the queue a set of ids. *)
Definition leaves_claim (k : string) (c : command) : Prop :=
  match c with
  | GET _ | SMEMBERS _ => True
  | SET key _ _ _ | EXPIRE key => key ≠ QUEUE_KEY
  | DEL key | GETDEL key | COMPARE_DEL key _ => key ≠ QUEUE_KEY ∧ key ≠ processing_key k
  | SADD key m => key = QUEUE_KEY → id_ok m = true
  | SREM key _ => key ≠ processing_key k
  end.

Definition claimed (k : string) (ks : keyspace) : Prop := is_Some (ks !! processing_key k).

Lemma put_set_lookup_ne k k' l t ks : k ≠ k' → put_set k l t ks !! k' = ks !! k'.
Proof. intros Hne. unfold put_set. destruct l; [by rewrite lookup_delete_ne|by rewrite lookup_insert_ne]. Qed.

Lemma is_Some_insert {V} (m : gmap string V) i k v : is_Some (m !! i) → is_Some (<[k := v]> m !! i).
Proof. intros Hi. destruct (decide (k = i)) as [->|]; [by rewrite lookup_insert_eq|by rewrite lookup_insert_ne]. Qed.

Lemma claim_stands k : keeps_ (leaves_claim k) (claimed k).
Proof.
  intros c ks ks' r Hc Hd Hk. unfold claimed in *. destruct Hd; simpl in Hc;
    rewrite ?put_set_lookup_ne by naive_solver; rewrite ?lookup_delete_ne by naive_solver;
    auto using is_Some_insert.
Qed.

Lemma queue_ok_stands k : keeps_ (leaves_claim k) queue_ok.
Proof.
  intros c ks ks' r Hc Hd Hq. destruct Hd; simpl in Hc; try done;
    try (intros ?; rewrite ?lookup_insert_ne, ?lookup_delete_ne by naive_solver; apply Hq).
  - intros e He. destruct (decide (k0 = QUEUE_KEY)) as [->|]; [|by rewrite lookup_insert_ne in He by done; apply Hq].
    rewrite lookup_insert_eq in He. injection He as <-. exists [m]. repeat constructor. by apply Hc.
  - intros e He. destruct (decide (k0 = QUEUE_KEY)) as [->|]; [|by rewrite lookup_insert_ne in He by done; apply Hq].
    rewrite lookup_insert_eq in He. injection He as <-. destruct (Hq _ H) as (l0 & [= -> ->] & Hl).
    exists l'. split; [done|]. rewrite Forall_forall in Hl |- *. intros x [->|Hx]%H1; auto.
  - intros e He. destruct (decide (k0 = QUEUE_KEY)) as [->|]; [|by rewrite put_set_lookup_ne in He by done; apply Hq].
    destruct (Hq _ H) as (l0 & [= -> ->] & Hl). rewrite Forall_forall in Hl.
    unfold put_set in He. destruct l' as [|y l']; [by rewrite lookup_delete_eq in He|].
    rewrite lookup_insert_eq in He. injection He as <-. exists (y :: l'). split; [done|].
    apply Forall_forall. intros x Hx. by apply Hl, H1.
Qed.

(** Walks through a call, leaving the side conditions of its commands to [side]. *)
Ltac only_walk side :=
  repeat match goal with
  | |- only _ (mret _) => apply only_ret
  | |- only _ (throw _) => apply only_throw
  | |- only _ (lift ?r) => destruct r; unfold lift
  | |- only _ (parse_job ?num ?raw) => unfold parse_job; destruct (JSON_parse num raw)
  | |- only _ (read ?job _) => unfold read; destruct job
  | |- only _ (mbind _ _) => apply only_bind; [|intros ?]
  | |- only _ (finally _ _) => apply only_finally; [|apply catch_never_throws|]
  | |- only _ (catch _ _) => apply only_catch
  | |- only _ (for_each _ _) => apply only_for_each; intros ? ?
  | |- only _ (assigns _ _) => unfold assigns
  | |- only _ (match ?x with _ => _ end) => destruct x
  | |- only _ (throwing _ _) => apply only_throwing; side
  | |- only _ (degrading _ _ _) => apply only_degrading; side
  | |- only _ (get _) => unfold get
  | |- only _ (set _ _) => unfold set
  | |- only _ (persist _ _) => unfold persist
  | |- only _ (expire _) => unfold expire
  | |- only _ (sAdd _ _) => unfold sAdd
  | |- only _ (sRem _ _) => unfold sRem
  | |- only _ (sMembers _) => unfold sMembers
  | |- only _ (sMembersOrThrow _) => unfold sMembersOrThrow
  | |- only _ (getOrThrow _) => unfold getOrThrow
  | |- only _ (setNx _) => unfold setNx
  | |- only _ (del _) => unfold del
  | |- only _ (acquireLockOrThrow _ _) => unfold acquireLockOrThrow
  | |- only _ (releaseLockOrThrow _ _) => unfold releaseLockOrThrow
  | |- only _ (removeFromIndexes _) => unfold removeFromIndexes
  end.

Lemma processing_key_inj i k : processing_key i = processing_key k → i = k.
Proof. unfold processing_key. rewrite !str_app_cons, !str_app_nil. congruence. Qed.

Ltac claim_side :=
  cbn [leaves_claim]; repeat match goal with
  | |- _ ∧ _ => split
  | |- True => exact I
  | |- _ → _ => intros ?
  end;
  first [ done | discriminate | congruence
        | match goal with |- job_key _ ≠ QUEUE_KEY => by apply job_key_not_queue end
        | match goal with |- job_key _ ≠ processing_key _ => by apply job_key_not_processing end
        | by intros ?%processing_key_inj | idtac ].

Section claims.
Context {σ : Type} `{RedisLaws σ} (num : string → string) (limits : QueueLimits).
Context (k : string).

Definition claim_kept (ks : keyspace) : Prop := queue_ok ks ∧ claimed k ks.

Lemma claim_kept_stands : keeps_ (leaves_claim k) claim_kept.
Proof.
  intros c ks ks' r Hc Hd [Hq Hk]. split; [by eapply queue_ok_stands|by eapply claim_stands].
Qed.

Lemma dequeue_loop_leaves clock members :
  Forall (λ i, id_ok i = true) members →
  only (leaves_claim k) (dequeue_loop (σ := σ) num clock members).
Proof.
  induction 1 as [|i members Hi Hms IH]; cbn [dequeue_loop]; [apply only_ret|].
  only_walk claim_side; try exact IH.
Qed.

Lemma members_of_queue I :
  (∀ ks, I ks → queue_ok ks) →
  triple I I (sMembers (σ := σ) QUEUE_KEY) (λ ids ks, Forall (λ i, id_ok i = true) ids ∧ I ks).
Proof.
  intros HI. apply triple_degrading. intros ks Hk. split; [done|]. split; [done|].
  intros ks' r Hd. assert (ks' = ks) as -> by (by inversion Hd).
  split; [|done]. split; [|done]. inversion Hd; subst; simpl; [done|].
  destruct (HI _ Hk _ ltac:(eassumption)) as (l0 & [= -> ->] & Hl).
  match goal with H : _ ≡ₚ _ |- _ => by rewrite H end.
Qed.

Lemma dequeue_claim_kept clock : triple claim_kept claim_kept (dequeue (σ := σ) num clock) (λ _, claim_kept).
Proof.
  unfold dequeue. eapply triple_bind; [apply members_of_queue; by intros ks [? _]|].
  intros ids. apply triple_pure. intros Hids. by apply dequeue_loop_leaves, claim_kept_stands.
Qed.

Lemma markSuccess_leaves i r clock :
  id_ok i = true → i ≠ k → only (leaves_claim k) (markSuccess (σ := σ) num i r clock).
Proof. intros Hi Hne. unfold markSuccess. only_walk claim_side. Qed.

Lemma markFailure_leaves i e clock :
  id_ok i = true → i ≠ k → only (leaves_claim k) (markFailure (σ := σ) num i e clock).
Proof. intros Hi Hne. unfold markFailure. only_walk claim_side. Qed.

Lemma persistNewJob_leaves p n a i u clock :
  id_ok i = true → only (leaves_claim k) (persistNewJob (σ := σ) p n a i u clock).
Proof. intros Hi. unfold persistNewJob. only_walk claim_side. Qed.

Lemma acquire_leaves n token : only (leaves_claim k) (acquireAdmission (σ := σ) n token).
Proof. induction n as [|n IH]; cbn [acquireAdmission]; only_walk claim_side; exact IH. Qed.

Lemma readDepths_leaves t u : only (leaves_claim k) (readDepths (σ := σ) t u).
Proof. unfold readDepths. only_walk claim_side. Qed.

Lemma pruneIndexes_leaves t u : only (leaves_claim k) (pruneIndexes (σ := σ) num t u).
Proof.
  unfold pruneIndexes. apply only_for_each. intros key Hkey.
  assert (key ≠ processing_key k) as Hne.
  { apply elem_of_app in Hkey as [Hkey|Hkey].
    - rewrite !elem_of_cons in Hkey. destruct Hkey as [-> |[-> |[]%not_elem_of_nil]]; discriminate.
    - destruct (truthy u); [|by apply not_elem_of_nil in Hkey].
      apply list_elem_of_singleton in Hkey as ->. discriminate. }
  unfold prune_key, prune_one. only_walk claim_side.
Qed.

Lemma enqueue_leaves p n pr token i u clock :
  id_ok i = true → only (leaves_claim k) (enqueue (σ := σ) num limits p n pr token i u clock).
Proof.
  intros Hi. unfold enqueue, refuse. destruct (negb (enabled limits)); [by apply persistNewJob_leaves|].
  apply only_bind; [apply acquire_leaves|]. intros got. destruct (negb got); [apply only_throw|].
  apply only_finally; [|apply catch_never_throws|only_walk claim_side].
  cbn zeta. apply only_bind; [apply readDepths_leaves|]. intros d.
  destruct (decideAdmission _ _ _ _); [by apply persistNewJob_leaves|].
  apply only_bind; [apply pruneIndexes_leaves|]. intros _.
  apply only_bind; [apply readDepths_leaves|]. intros d'.
  destruct (decideAdmission _ _ _ _); [by apply persistNewJob_leaves|apply only_throw].
Qed.

(** Operations that do not end the claim of [k]. *)
Definition leaves_job (o : queue_op) : Prop :=
  match o with
  | OEnqueue _ _ _ _ i _ _ => id_ok i = true
  | ODequeue _ => True
  | OSuccess i _ _ | OFailure i _ _ => id_ok i = true ∧ i ≠ k
  | OLapse lapsed => processing_key k ∉ lapsed
  end.

Lemma call_keeps {A} (I : keyspace → Prop) (m : M σ A) fs sv :
  triple I I m (λ _, I) → I (keys_of sv) → I (keys_of (call m fs sv)).
Proof.
  intros Hm Hk. unfold call. specialize (Hm {| server := sv; fates := fs; healthy := true |} Hk).
  destruct (m _) as [s [a|e|]]; done.
Qed.

Lemma claim_run sv ops :
  claim_kept (keys_of sv) → Forall (λ fo, leaves_job fo.2) ops →
  claim_kept (keys_of (run num limits sv ops)).
Proof.
  unfold run. intros Hk Hops. revert sv Hk.
  induction Hops as [|[fs o] ops Ho _ IH]; intros sv Hk; [done|]. apply IH. unfold step. cbn [fst snd] in *.
  destruct o as [p n pr token i u clock|clock|i r clock|i e clock|lapsed]; simpl in Ho.
  - apply call_keeps; [by apply enqueue_leaves, claim_kept_stands|done].
  - apply call_keeps; [by apply dequeue_claim_kept|done].
  - destruct Ho. apply call_keeps; [by apply markSuccess_leaves, claim_kept_stands|done].
  - destruct Ho. apply call_keeps; [by apply markFailure_leaves, claim_kept_stands|done].
  - rewrite lapse_law. destruct Hk as [Hq [e He]]. unfold lapse_keys. split.
    + intros e' He'. apply map_lookup_filter_Some in He' as [He' _]. by apply Hq.
    + exists e. apply map_lookup_filter_Some. split; [done|]. simpl. tauto.
Qed.
End claims.

Section exclusion.
Context {σ : Type} `{RedisLaws σ} (num : string → string) (limits : QueueLimits).

(** No claim of [ks0] is gone. *)
Definition claims_grow (ks0 ks : keyspace) : Prop := queue_ok ks ∧ ∀ k, claimed k ks0 → claimed k ks.

Lemma claims_grow_stands ks0 : keeps_ (λ c, ∀ k, leaves_claim k c) (claims_grow ks0).
Proof.
  intros c ks ks' r Hc Hd [Hq Hk]. split; [by eapply (queue_ok_stands "")|].
  intros k Hk0. eapply claim_stands; eauto.
Qed.

Definition newly_claimed (ks0 : keyspace) (o : option (string * json)) (ks : keyspace) : Prop :=
  claims_grow ks0 ks ∧
  match o with Some (k, _) => ¬ claimed k ks0 ∧ claimed k ks | None => True end.

Ltac all_claims := intros ?; claim_side.

Lemma claim_triple ks0 i :
  triple (claims_grow ks0) (claims_grow ks0) (setNx (σ := σ) (processing_key i))
    (λ ok ks, claims_grow ks0 ks ∧ if ok : bool then ¬ claimed i ks0 ∧ claimed i ks else True).
Proof.
  apply triple_degrading. intros ks Hk. split; [done|]. split; [done|].
  intros ks' r Hd. assert (claims_grow ks0 ks') as Hk'.
  { eapply (claims_grow_stands ks0 (SET (processing_key i) "1" true true)); [all_claims|done|done]. }
  split; [|done]. split; [done|]. inversion Hd as [| |? ? ? ? Hfree| | | | | | | | | | | | | |]; subst; simpl; [|done].
  split; [|unfold claimed; by rewrite lookup_insert_eq].
  intros [e He]%(proj2 Hk). rewrite (Hfree eq_refl) in He. discriminate.
Qed.

Lemma dequeue_loop_claims ks0 clock members :
  Forall (λ i, id_ok i = true) members →
  triple (claims_grow ks0) (claims_grow ks0) (dequeue_loop (σ := σ) num clock members) (newly_claimed ks0).
Proof.
  assert (∀ A (m : M σ A), only (λ c, ∀ k, leaves_claim k c) m →
            triple (claims_grow ks0) (claims_grow ks0) m (λ _, claims_grow ks0)) as Hw
    by (intros A m Hm; apply Hm, claims_grow_stands).
  induction 1 as [|i members Hi Hms IH]; cbn [dequeue_loop]; [by apply triple_ret|].
  apply (triple_bind _ _ _ _ (λ _, claims_grow ks0)); [apply Hw; only_walk all_claims|]. intros jobData.
  destruct (truthy jobData) as [raw|].
  2: { apply (triple_bind _ _ _ _ (λ _, claims_grow ks0)); [apply Hw; only_walk all_claims|done]. }
  apply (triple_bind _ _ _ _ (λ _, claims_grow ks0)); [apply Hw; only_walk all_claims|]. intros job.
  apply (triple_bind _ _ _ _ (λ _, claims_grow ks0)); [apply Hw; only_walk all_claims|]. intros _.
  destruct (isTerminal job).
  - do 3 (apply (triple_bind _ _ _ _ (λ _, claims_grow ks0)); [apply Hw; only_walk all_claims|intros _]). done.
  - eapply triple_bind; [apply claim_triple|]. intros [|]; cbn [negb].
    2: { eapply triple_pre; [exact IH|]. by intros ks [? _]. }
    set (R := λ ks, claims_grow ks0 ks ∧ ¬ claimed i ks0 ∧ claimed i ks).
    apply (triple_bind _ _ _ _ (λ _, R)).
    { unfold assigns, lift. destruct (foldl _ _ _); [by apply triple_ret|]. apply triple_throw. by intros ks [? _]. }
    intros job'. apply (triple_bind _ _ _ _ (λ _, R)); [|intros _; by apply triple_ret].
    apply triple_degrading. intros ks (Hk & Hn & Hc). split; [done|]. split; [done|]. intros ks' r Hd.
    assert (∀ k, leaves_claim k (SET (job_key i) (JSON_stringify job') false false)) as Hl by all_claims.
    assert (R ks'); [|done]. split; [by eapply claims_grow_stands|]. split; [done|]. by eapply claim_stands.
Qed.

Lemma dequeue_claims ks0 clock :
  triple (claims_grow ks0) (claims_grow ks0) (dequeue (σ := σ) num clock) (newly_claimed ks0).
Proof.
  unfold dequeue. eapply triple_bind.
  - apply members_of_queue. by intros ks [? _].
  - intros ids. apply triple_pure. apply dequeue_loop_claims.
Qed.

Definition start (sv : σ) (fs : list fate) : st σ := {| server := sv; fates := fs; healthy := true |}.

(** What a dequeue hands out was unclaimed, and is claimed now. *)
Lemma dequeue_returns sv fs clock k job :
  queue_ok (keys_of sv) → (dequeue num clock (start sv fs)).2 = Returned (Some (k, job)) →
  ¬ claimed k (keys_of sv) ∧ claim_kept k (keys_of (call (dequeue num clock) fs sv)).
Proof.
  intros Hq Hd. assert (claims_grow (keys_of sv) (ks_of (start sv fs))) as Hg by done.
  pose proof (dequeue_claims (keys_of sv) clock (start sv fs) Hg) as Hn.
  rewrite Hd in Hn. destruct Hn as [[Hq' _] [Hn Hc]]. done.
Qed.

(** A claim is exclusive.  Once a worker has been handed a job, no dequeue
    hands out that job again, whatever operations on other jobs, claims, failures
    and crashes happen meanwhile, until the job is completed or failed or the
    time to live of its processing lock lapses. *)
Theorem claim_exclusive sv fs clock k job ops fs' clock' k' job' :
  queue_ok (keys_of sv) →
  (dequeue num clock (start sv fs)).2 = Returned (Some (k, job)) →
  Forall (λ fo, leaves_job k fo.2) ops →
  (dequeue num clock' (start (run num limits (call (dequeue num clock) fs sv) ops) fs')).2 =
    Returned (Some (k', job')) →
  k' ≠ k.
Proof.
  intros Hq Hd Hops Hd' ->.
  destruct (dequeue_returns _ _ _ _ _ Hq Hd) as [_ Hc].
  apply (claim_run num limits k _ ops) in Hc; [|done]. destruct Hc as [Hq' Hc].
  by destruct (dequeue_returns _ _ _ _ _ Hq' Hd').
Qed.
End exclusion.

(** ** A waiting job is served *)

Section service.
Context {σ : Type} `{RedisLaws σ} (num : string → string).

(** Each id of the queue has a job's record or none. *)
Definition readable (ids : list string) (ks : keyspace) : Prop :=
  ∀ i, i ∈ ids → id_ok i = true ∧
    (ks !! job_key i = None ∨ ∃ l, record_is i l ks ∧ natural_obj num l).

Definition waits (j : string) (ids : list string) (ks : keyspace) : Prop :=
  j ∈ ids ∧ (∃ l, record_is j l ks ∧ natural_obj num l ∧ isTerminal (JObj l) = false) ∧
  ks !! processing_key j = None.

(** Commands that touch neither a job's record nor the claim of [j]. *)
Definition aside (j : string) (c : command) : Prop :=
  match c with
  | GET _ | SMEMBERS _ => True
  | SET k _ _ _ | DEL k | GETDEL k | EXPIRE k | COMPARE_DEL k _ | SADD k _ | SREM k _ =>
      k ≠ processing_key j ∧ ∀ i, id_ok i = true → k ≠ job_key i
  end.

Lemma aside_lookup j c ks ks' r key :
  aside j c → documented ks c ks' r →
  key = processing_key j ∨ (∃ i, id_ok i = true ∧ key = job_key i) → ks' !! key = ks !! key.
Proof.
  intros Hc Hd Hkey.
  assert (∀ k, (k ≠ processing_key j ∧ ∀ i, id_ok i = true → k ≠ job_key i) → k ≠ key) as Hne.
  { intros k [Hk1 Hk2]. destruct Hkey as [->|(i & Hi & ->)]; auto. }
  destruct Hd; simpl in Hc; try done; apply Hne in Hc;
    rewrite ?put_set_lookup_ne, ?lookup_insert_ne, ?lookup_delete_ne by done; done.
Qed.

Definition ready (j : string) (ids : list string) (ks : keyspace) : Prop :=
  readable ids ks ∧ waits j ids ks.

Lemma ready_aside j ids c ks ks' r :
  id_ok j = true → aside j c → documented ks c ks' r → ready j ids ks → ready j ids ks'.
Proof.
  intros Hj Hc Hd [Hr (Hin & (l & Hl & Hn & Ht) & Hp)].
  assert (∀ i, id_ok i = true → ks' !! job_key i = ks !! job_key i) as Hsame
    by (intros i Hi; eapply aside_lookup; eauto).
  split.
  - intros i Hi. destruct (Hr i Hi) as [Hok Hrec]. split; [done|]. unfold record_is. by rewrite Hsame.
  - split; [done|]. split; [exists l; unfold record_is; by rewrite Hsame|].
    rewrite (aside_lookup j c ks ks' r) by auto. done.
Qed.

Lemma ready_degrading {A} j ids c (f : reply → A) d :
  id_ok j = true → aside j c →
  live (ready j ids) (degrading (σ := σ) c f d) (λ _, ready j ids).
Proof.
  intros Hj Hc. apply live_degrading. intros ks Hk. split; [by right|].
  intros ks' r Hd. by eapply ready_aside.
Qed.

Lemma live_parse {A} P raw job (f : json → M σ A) Q :
  JSON_parse num raw = Some job → live P (f job) Q → live P (parse_job num raw ≫= f) Q.
Proof.
  intros Hp Hf s Hs HP. unfold parse_job, mbind, M_bind. rewrite Hp. by apply Hf.
Qed.

Lemma live_read {A} P l k (f : option json → M σ A) Q :
  (∀ x, live P (f x) Q) → live P (read (JObj l) k ≫= f) Q.
Proof. intros Hf s Hs. by apply Hf. Qed.

Lemma live_assigns {A} P kvs l (f : json → M σ A) Q :
  live P (f (JObj (updated l kvs))) Q → live P (assigns kvs (JObj l) ≫= f) Q.
Proof. intros Hf s Hs. unfold mbind, M_bind. rewrite assigns_obj. by apply Hf. Qed.

Ltac aside_side :=
  cbn [aside]; split; [try discriminate; try congruence|];
  try (intros ? ?; apply not_eq_sym;
       first [ by apply job_key_not_queue | by apply job_key_not_dead | by apply job_key_not_processing
             | by apply job_key_not_type | by apply job_key_not_user ]).

Lemma live_removeFromIndexes j ids job :
  id_ok j = true → live (ready j ids) (removeFromIndexes (σ := σ) job) (λ _, ready j ids).
Proof.
  intros Hj. unfold removeFromIndexes.
  eapply live_bind; [apply ready_degrading; [done|aside_side]|]. intros ?.
  destruct (prop job "admittedFor") as [v|]; [|by apply live_ret].
  destruct (falsy v); [by apply live_ret|]. apply ready_degrading; [done|aside_side].
Qed.

(** What reading a record of a queued id tells. *)
Lemma live_seen {A} j ids i (f : option string → M σ A) Q :
  i ∈ ids → live (λ ks, ready j ids ks ∧ ks !! job_key i = None) (f None) Q →
  (∀ l, id_ok i = true → natural_obj num l →
     live (λ ks, ready j ids ks ∧ record_is i l ks) (f (Some (JSON_stringify (JObj l)))) Q) →
  live (ready j ids) (getOrThrow (job_key i) ≫= f) Q.
Proof.
  intros Hi Hn Hs. eapply live_bind.
  - apply (live_throwing _ _ _ (λ x ks, ready j ids ks ∧ match x with
      | None => ks !! job_key i = None
      | Some raw => ∃ l, raw = JSON_stringify (JObj l) ∧ id_ok i = true ∧ natural_obj num l ∧ record_is i l ks
      end)).
    intros ks Hk. destruct (proj1 Hk i Hi) as [Hok Hrec]. split.
    + simpl. unfold holds_string. destruct Hrec as [E|(l & [ttl E] & _)]; rewrite E; [done|]. simpl. eauto.
    + intros ks' r Hd. assert (ks' = ks) as -> by (by inversion Hd). split; [done|].
      inversion Hd; subst; simpl; [done|].
      destruct Hrec as [E|(l & [ttl E] & Hnat)]; [congruence|]. exists l.
      split; [congruence|]. split; [done|]. split; [done|]. by exists ttl.
  - intros [raw|]; [|done]. intros s Hf (Hk & l & -> & Hok & Hnat & Hl). by apply (Hs l).
Qed.

(** What a dequeue hands out. *)
Definition handed (o : option (string * json)) (ks : keyspace) : Prop :=
  ∃ k l t, o = Some (k, JObj l) ∧
    aget "status" l = Some (JStr (status_text PROCESSING)) ∧
    claimed k ks ∧
    ks !! job_key k = Some {| r_value := RStr (JSON_stringify (JObj l)); r_ttl := t |}.

Lemma hand_out i l clock :
  id_ok i = true →
  live (λ ks, claimed i ks)
    (job ← assigns [("status", JStr (status_text PROCESSING)); ("startedAt", time_text clock)] (JObj l);
     _ ← set (σ := σ) (job_key i) (JSON_stringify job);
     mret (Some (i, job))) handed.
Proof.
  intros Hi. apply live_assigns. set (l' := updated _ _).
  apply (live_bind _ _ _ (λ _ ks, handed (Some (i, JObj l')) ks)).
  - apply live_degrading. intros ks Hk. split; [by left|]. intros ks' r Hd. inversion Hd; subst.
    exists i, l', false. split; [done|]. split.
    { unfold l', updated. simpl. rewrite !aget_aput. by rewrite decide_False, decide_True. }
    rewrite lookup_insert_eq. split; [|done]. by apply is_Some_insert.
  - intros _. by apply live_ret.
Qed.

Lemma ready_tail j i ids ks : i ≠ j → ready j (i :: ids) ks → ready j ids ks.
Proof.
  intros Hne [Hr (Hin & Hw)]. split.
  - intros x Hx. apply Hr. by apply list_elem_of_further.
  - split; [|done]. apply elem_of_cons in Hin as [->|]; done.
Qed.

Lemma claim_live j ids i :
  id_ok j = true → i ≠ j →
  live (ready j ids) (setNx (σ := σ) (processing_key i))
    (λ ok ks, ready j ids ks ∧ (ok = true → claimed i ks)).
Proof.
  intros Hj Hne. apply live_degrading. intros ks Hk. split; [by left|]. intros ks' r Hd. split.
  - eapply ready_aside; [done| |exact Hd|done].
    aside_side. by intros ->%processing_key_inj.
  - inversion Hd; subst; simpl; [|done]. intros ?. unfold claimed. by rewrite lookup_insert_eq.
Qed.

Lemma serve_other j i ids clock :
  id_ok j = true → i ≠ j →
  live (ready j ids) (dequeue_loop (σ := σ) num clock ids) handed →
  live (ready j (i :: ids)) (dequeue_loop (σ := σ) num clock (i :: ids)) handed.
Proof.
  intros Hj Hne IH. cbn [dequeue_loop].
  assert (∀ A (m : M σ A), live (ready j (i :: ids)) m (λ _, ready j (i :: ids)) →
            live (ready j (i :: ids)) (_ ← m; dequeue_loop num clock ids) handed) as Hgo.
  { intros A m Hm. eapply live_bind; [exact Hm|]. intros ?. eapply live_pre; [exact IH|].
    intros ks. by apply ready_tail. }
  apply live_seen; [apply list_elem_of_here| |].
  { cbn [truthy]. eapply live_pre; [|intros ks [Hk _]; exact Hk].
    apply Hgo, ready_degrading; [done|aside_side]. }
  intros l Hok Hnat. rewrite stringify_truthy. eapply live_parse; [by apply parse_stringify|].
  apply live_read. intros ?. eapply live_pre; [|intros ks [Hk _]; exact Hk].
  destruct (isTerminal (JObj l)).
  - eapply live_bind.
    { destruct (has_status _ _); [apply ready_degrading; [done|aside_side]|by apply live_ret]. }
    intros ?. eapply live_bind; [apply ready_degrading; [done|aside_side]|]. intros ?.
    by apply Hgo, live_removeFromIndexes.
  - eapply live_bind; [by apply claim_live|]. intros [|]; cbn [negb].
    + eapply live_pre; [by apply hand_out|]. intros ks [_ Hc]. by apply Hc.
    + eapply live_pre; [exact IH|]. intros ks [Hk _]. by apply ready_tail in Hk.
Qed.

Lemma serve_waiting j ids clock :
  id_ok j = true →
  live (ready j (j :: ids)) (dequeue_loop (σ := σ) num clock (j :: ids)) handed.
Proof.
  intros Hj. cbn [dequeue_loop]. apply live_seen; [apply list_elem_of_here| |].
  { intros s Hs [(_ & _ & (l & [t Hl] & _) & _) Hn]. unfold ks_of in *. congruence. }
  intros l _ Hnat. rewrite stringify_truthy. eapply live_parse; [by apply parse_stringify|].
  apply live_read. intros ?.
  apply (live_pre _ (λ ks, isTerminal (JObj l) = false ∧ ks !! processing_key j = None)).
  - apply live_pure. intros ->. eapply live_bind.
    + apply (live_degrading _ _ _ _ (λ ok ks, ok = true ∧ claimed j ks)). intros ks Hk. split; [by left|].
      intros ks' r Hd. inversion Hd; subst; [|congruence]. split; [done|].
      unfold claimed. by rewrite lookup_insert_eq.
    + intros ok. apply live_pure. intros ->. cbn [negb]. by apply hand_out.
  - intros ks [(_ & _ & (l' & Hl' & Hnat' & Ht) & Hp) Hl]. by rewrite (record_inj num j l l' ks).
Qed.

Lemma dequeue_loop_serves j ids clock :
  id_ok j = true → live (ready j ids) (dequeue_loop (σ := σ) num clock ids) handed.
Proof.
  intros Hj. induction ids as [|i ids IH].
  - intros s Hs (_ & Hin & _). by apply not_elem_of_nil in Hin.
  - destruct (decide (i = j)) as [->|Hne]; [by apply serve_waiting|by apply serve_other].
Qed.

(** C31: a waiting job is served.  If some queued job is not finished and not
    claimed, every queued id having a readable record or none, then a dequeue none
    of whose commands fails does return a job, marked as processing in the answer
    and in the store, and claimed: stale and finished ids and jobs that are in
    flight elsewhere are passed over. *)
Theorem dequeue_serves sv j ids t clock :
  id_ok j = true → keys_of sv !! QUEUE_KEY = Some {| r_value := RSet ids; r_ttl := t |} →
  readable ids (keys_of sv) → waits j ids (keys_of sv) →
  ∃ s' k l t', dequeue num clock (start sv []) = (s', Returned (Some (k, JObj l))) ∧
    aget "status" l = Some (JStr (status_text PROCESSING)) ∧ claimed k (ks_of s') ∧
    ks_of s' !! job_key k = Some {| r_value := RStr (JSON_stringify (JObj l)); r_ttl := t' |}.
Proof.
  intros Hj Hq Hr Hw.
  assert (live (λ ks, ready j ids ks ∧ ks !! QUEUE_KEY = Some {| r_value := RSet ids; r_ttl := t |})
            (dequeue (σ := σ) num clock) handed) as Hl.
  { unfold dequeue. apply (live_bind _ _ _ (λ ids' ks, ready j ids' ks)).
    - apply live_degrading. intros ks [[Hr' (Hin & Hw')] Hq']. split.
      + left. simpl. unfold holds_set. rewrite Hq'. simpl. eauto.
      + intros ks' r Hd. inversion Hd as [| | | | | | | | | | |?  Hn|? l0 l' ? E Hp| | | |]; subst; [congruence|].
        rewrite Hq' in E. injection E as -> _. simpl. split.
        * intros i Hi. apply Hr'. by rewrite <- Hp.
        * split; [by rewrite Hp|done].
    - intros ids'. by apply dequeue_loop_serves. }
  destruct (Hl (start sv []) eq_refl) as (s' & o & E & _ & k & l & t' & -> & Hs & Hc & Hrec); [done|].
  by exists s', k, l, t'.
Qed.
End service.

(** ** Admission *)

Definition depth (K : string) (ks : keyspace) : Z :=
  match ks !! K with Some {| r_value := RSet l |} => size l | _ => 0 end.

Definition member (K m : string) (ks : keyspace) : Prop :=
  ∃ l t, ks !! K = Some {| r_value := RSet l; r_ttl := t |} ∧ m ∈ l.

(** Commands that add only [jobId] to the index [K]. *)
Definition admits (K jobId : string) (c : command) : Prop :=
  match c with
  | GET _ | SMEMBERS _ => True
  | SADD k m => k = K → m = jobId
  | SREM k m => k = K → m ≠ jobId
  | SET k _ _ _ | DEL k | GETDEL k | EXPIRE k | COMPARE_DEL k _ => k ≠ K
  end.

(** Commands that add nothing to the index [K]. *)
Definition shrinks (K : string) (c : command) : Prop :=
  match c with
  | GET _ | SMEMBERS _ | SREM _ _ => True
  | SADD k _ | SET k _ _ _ | DEL k | GETDEL k | EXPIRE k | COMPARE_DEL k _ => k ≠ K
  end.

(** [jobId] is in the index within the bound, or there is room for it. *)
Definition room (K jobId : string) (N : Z) (ks : keyspace) : Prop :=
  (member K jobId ks ∧ depth K ks ≤ N) ∨ depth K ks + 1 ≤ N.

Lemma size_le (l l' : list string) : NoDup l' → (∀ x, x ∈ l' → x ∈ l) → size l' ≤ size l.
Proof.
  intros Hn Hs. unfold size. apply inj_le, submseteq_length, NoDup_submseteq; [done|exact Hs].
Qed.

Lemma depth_eq K ks ks' : ks' !! K = ks !! K → depth K ks' = depth K ks.
Proof. unfold depth. by intros ->. Qed.

Lemma room_stands K jobId N : keeps_ (admits K jobId) (room K jobId N).
Proof.
  intros c ks ks' r Hc Hd Hr.
  assert (ks' !! K = ks !! K → room K jobId N ks') as Hsame.
  { intros E. unfold room, member. rewrite (depth_eq K ks ks' E), E. exact Hr. }
  destruct Hd; simpl in Hc; try done;
    try (by apply Hsame; rewrite ?lookup_insert_ne, ?lookup_delete_ne by done).
  - destruct (decide (k = K)) as [->|]; [|by apply Hsame; rewrite lookup_insert_ne].
    rewrite (Hc eq_refl). left. split; [exists [jobId], false; rewrite lookup_insert_eq; split; [done|by left]|].
    unfold room, member, depth in *. rewrite H in Hr. rewrite lookup_insert_eq. unfold plain. change (size [jobId]) with 1.
    destruct Hr as [[(? & ? & [=] & _) _]|]; lia.
  - destruct (decide (k = K)) as [->|]; [|by apply Hsame; rewrite lookup_insert_ne].
    rewrite (Hc eq_refl) in H1. left.
    split; [exists l', t; rewrite lookup_insert_eq; split; [done|apply H1; by left]|].
    unfold room, member, depth in *. rewrite H in Hr. rewrite lookup_insert_eq.
    destruct Hr as [[(l1 & t1 & [= -> ->] & Hin) Hle]|Hle].
    + pose proof (size_le l1 l' H0). assert (∀ x, x ∈ l' → x ∈ l1) by (intros x [->|?]%H1; done). naive_solver lia.
    + pose proof (size_le (jobId :: l) l' H0) as Hs. assert (size (jobId :: l) = size l + 1) by (unfold size; simpl; lia).
      assert (size l' ≤ size (jobId :: l)); [|lia]. apply Hs. intros x [->|?]%H1; rewrite elem_of_cons; auto.
  - destruct (decide (k = K)) as [->|]; [|by apply Hsame, put_set_lookup_ne].
    unfold room, member, depth in *. rewrite H in Hr.
    assert (size l' ≤ size l) as Hle by (apply size_le; [done|]; by intros x [_ ?]%H1).
    destruct Hr as [[(l1 & t1 & [= -> ->] & Hin) Hle']|Hle'].
    + assert (jobId ∈ l') as Hj by (apply H1; split; [apply not_eq_sym, Hc|]; done).
      unfold put_set. destruct l' as [|y l']; [by apply not_elem_of_nil in Hj|].
      left. rewrite lookup_insert_eq. split; [by exists (y :: l'), t1|lia].
    + right. unfold put_set. destruct l' as [|y l']; [rewrite lookup_delete_eq|rewrite lookup_insert_eq]; unfold size in *; simpl in *; lia.
Qed.

Lemma shrinks_stands K N : keeps_ (shrinks K) (λ ks, depth K ks ≤ N).
Proof.
  intros c ks ks' r Hc Hd Hr.
  assert (ks' !! K = ks !! K → depth K ks' ≤ N) as Hsame by (by intros E; rewrite (depth_eq K ks ks' E)).
  destruct Hd; simpl in Hc; try done;
    try (by apply Hsame; rewrite ?lookup_insert_ne, ?lookup_delete_ne by done).
  destruct (decide (k = K)) as [->|]; [|by apply Hsame, put_set_lookup_ne].
  assert (size l' ≤ size l) as Hle by (apply size_le; [done|]; by intros x [_ ?]%H1).
  unfold depth, put_set in *. rewrite H in Hr.
  destruct l' as [|y l']; [rewrite lookup_delete_eq|rewrite lookup_insert_eq]; unfold size in *; simpl in *; lia.
Qed.

Definition index_key (K : string) : Prop :=
  K = QUEUE_KEY ∨ (∃ t, K = type_index t) ∨ (∃ u, K = user_index u).

Lemma index_key_job K i : index_key K → id_ok i = true → job_key i ≠ K.
Proof.
  intros [->|[[t ->]|[u ->]]] Hi; [by apply job_key_not_queue|by apply job_key_not_type|by apply job_key_not_user].
Qed.

Lemma index_key_lock K : index_key K → ADMISSION_LOCK_KEY ≠ K.
Proof. intros [->|[[t ->]|[u ->]]]; discriminate. Qed.

Lemma index_key_dead K : index_key K → DEAD_LETTER_KEY ≠ K.
Proof. intros [->|[[t ->]|[u ->]]]; discriminate. Qed.

Ltac index_side :=
  cbn [admits shrinks]; repeat match goal with |- _ → _ => intros ? end;
  first [ done | by apply index_key_job | by apply index_key_lock | by apply index_key_dead | idtac ].

Section admission.
Context {σ : Type} `{RedisLaws σ} (num : string → string) (limits : QueueLimits).

Definition bounds_of (t : JobType) (pr : bool) : Z * Z * Z :=
  (globalMaxDepth limits + (if pr then globalAdminReserve limits else 0),
   maxDepth (types limits t) + (if pr then adminReserve (types limits t) else 0),
   perUserMaxDepth (types limits t)).

Lemma admitted_bounds t d pr :
  decideAdmission limits t d pr = Admission →
  q_global d < (bounds_of t pr).1.1 ∧ q_type d < (bounds_of t pr).1.2 ∧
  (pr = false → q_user d < (bounds_of t pr).2).
Proof.
  unfold decideAdmission, bounds_of. cbn zeta. destruct pr; simpl; repeat case_match; intros Ha;
    try discriminate; repeat split; try done; lia.
Qed.

(** A reading of the depths is the depths. *)
Lemma depth_read I K :
  triple I I (sMembersOrThrow (σ := σ) K) (λ l ks, I ks ∧ size l = depth K ks).
Proof.
  apply triple_throwing. intros ks Hk. split; [done|]. intros ks' r Hd.
  assert (ks' = ks) as -> by (by inversion Hd). split; [|done]. split; [done|].
  unfold depth. inversion Hd as [| | | | | | | | | | |? E|? l l' t E Hp| | | |]; subst; rewrite E; [done|].
  simpl. unfold size. by rewrite Hp.
Qed.

Lemma readDepths_reads I t u :
  triple I I (readDepths (σ := σ) t u)
    (λ d ks, I ks ∧ q_global d = depth QUEUE_KEY ks ∧ q_type d = depth (type_index (type_text t)) ks ∧
       ∀ w, truthy u = Some w → q_user d = depth (user_index w) ks).
Proof.
  assert (∀ (R : keyspace → Prop) K, (∀ ks, R ks → I ks) →
    triple I R (sMembersOrThrow (σ := σ) K) (λ l ks, R ks ∧ size l = depth K ks)) as Hd.
  { intros R K HR. eapply triple_crash; [apply depth_read|done]. }
  unfold readDepths. eapply triple_bind; [by apply (Hd I)|]. intros g.
  eapply triple_bind; [apply Hd; by intros ks [? _]|]. intros ty. destruct (truthy u) as [w|].
  - eapply triple_bind.
    + eapply triple_bind; [apply Hd; by intros ks [[? _] _]|]. intros l.
      apply (triple_ret _ _ _ (λ n ks, (I ks ∧ size g = depth QUEUE_KEY ks) ∧
        size ty = depth (type_index (type_text t)) ks ∧ n = depth (user_index w) ks)). naive_solver.
    + intros n. apply triple_ret. intros ks [[? ?] [? ?]]. simpl. repeat split; try done. naive_solver.
  - eapply triple_bind; [apply (triple_ret _ _ 0 (λ n ks, (I ks ∧ size g = depth QUEUE_KEY ks) ∧
        size ty = depth (type_index (type_text t)) ks)); naive_solver|].
    intros n. apply triple_ret. naive_solver.
Qed.

Lemma persistNewJob_room K p n a i u clock :
  index_key K → id_ok i = true → only (admits K i) (persistNewJob (σ := σ) p n a i u clock).
Proof. intros HK Hi. unfold persistNewJob. only_walk index_side. Qed.

Lemma acquire_shrinks K n token : index_key K → only (shrinks K) (acquireAdmission (σ := σ) n token).
Proof. intros HK. induction n as [|n IH]; cbn [acquireAdmission]; only_walk index_side; exact IH. Qed.

Lemma pruneIndexes_shrinks K t u : index_key K → only (shrinks K) (pruneIndexes (σ := σ) num t u).
Proof. intros HK. unfold pruneIndexes, prune_key, prune_one. only_walk index_side. Qed.

Lemma persistNewJob_shrinks w p n i u clock :
  id_ok i = true → only (shrinks (user_index w)) (persistNewJob (σ := σ) p n None i u clock).
Proof.
  intros Hi. assert (index_key (user_index w)) by (right; right; by eexists).
  unfold persistNewJob. cbn [truthy]. only_walk index_side; cbn [shrinks]; discriminate.
Qed.

Lemma privileged_shrinks w p n token i u clock :
  id_ok i = true →
  only (shrinks (user_index w)) (enqueue (σ := σ) num limits p n true token i u clock).
Proof.
  intros Hi. assert (index_key (user_index w)) as HK by (right; right; by eexists).
  unfold enqueue, refuse. destruct (negb (enabled limits)); [by apply persistNewJob_shrinks|].
  apply only_bind; [by apply acquire_shrinks|]. intros got. destruct (negb got); [apply only_throw|].
  apply only_finally; [|apply catch_never_throws|only_walk index_side].
  cbn zeta. apply only_bind; [unfold readDepths; only_walk index_side|]. intros d.
  destruct (decideAdmission _ _ _ _); [by apply persistNewJob_shrinks|].
  apply only_bind; [by apply pruneIndexes_shrinks|]. intros _.
  apply only_bind; [unfold readDepths; only_walk index_side|]. intros d'.
  destruct (decideAdmission _ _ _ _); [by apply persistNewJob_shrinks|apply only_throw].
Qed.

(** One index, whose depth is the component [sel] of a reading. *)
Section one_index.
Context (p : JobPayload) (n : Z) (pr : bool) (i uuid : string) (clock : Z) (Hi : id_ok i = true).
Context (K : string) (sel : QueueDepths → Z) (bound : Z) (HK : index_key K).
Let userId := if pr then None else pl_userId p.
Hypothesis Hsel : ∀ d ks,
  q_global d = depth QUEUE_KEY ks → q_type d = depth (type_index (type_text (pl_type p))) ks →
  (∀ w, truthy userId = Some w → q_user d = depth (user_index w) ks) → sel d = depth K ks.
Hypothesis Hbound : ∀ d, decideAdmission limits (pl_type p) d pr = Admission → sel d < bound.
Context (N : Z) (HN : bound ≤ N).
Let I (ks : keyspace) : Prop := depth K ks ≤ N.

Lemma admit_bounded (m : BackpressureDecision → M σ json) :
  (m Admission = persistNewJob p n userId i uuid clock) →
  (∀ sc d l, triple I I (m (Refused sc d l)) (λ _, I)) →
  triple I I (d ← readDepths (pl_type p) userId; m (decideAdmission limits (pl_type p) d pr)) (λ _, I).
Proof.
  intros Hadm Href. eapply triple_bind; [apply readDepths_reads|]. intros d.
  destruct (decideAdmission limits (pl_type p) d pr) eqn:Ed.
  - rewrite Hadm. assert (∀ ks, room K i N ks → I ks) as Hroom.
    { intros ks [[_ ?]|?]; unfold I; lia. }
    eapply triple_crash; [|exact Hroom].
    eapply triple_weaken; [apply (persistNewJob_room K p n userId i uuid clock HK Hi), room_stands| |auto].
    intros ks (_ & Hg & Ht & Hu). right. specialize (Hbound d Ed). rewrite (Hsel d ks Hg Ht Hu) in Hbound. lia.
  - eapply triple_pre; [apply Href|]. by intros ks [? _].
Qed.

Lemma enqueue_index_bounded token :
  enabled limits = true → triple I I (enqueue (σ := σ) num limits p n pr token i uuid clock) (λ _, I).
Proof.
  intros Hen. unfold enqueue. rewrite Hen. cbn [negb].
  apply (triple_bind _ _ _ _ (λ _, I)); [by apply (acquire_shrinks K), shrinks_stands|]. intros got.
  destruct (negb got); [by apply triple_throw|].
  assert (triple I I (catch (releaseLockOrThrow (σ := σ) ADMISSION_LOCK_KEY token) tt) (λ _, I)) as Hrel.
  { assert (only (shrinks K) (catch (releaseLockOrThrow (σ := σ) ADMISSION_LOCK_KEY token) tt)) as Ho
      by only_walk index_side. by apply Ho, shrinks_stands. }
  apply triple_finally; [|apply catch_never_throws|by intros _|done]. cbn zeta. fold userId.
  apply (admit_bounded (λ dec, match dec with
    | Admission => persistNewJob p n userId i uuid clock
    | Refused _ _ _ => _ ← pruneIndexes num (pl_type p) userId;
        d ← readDepths (pl_type p) userId;
        refuse (decideAdmission limits (pl_type p) d pr) (persistNewJob p n userId i uuid clock)
    end)); [done|]. intros _ _ _.
  apply (triple_bind _ _ _ _ (λ _, I)); [by apply (pruneIndexes_shrinks K), shrinks_stands|]. intros _.
  apply (admit_bounded (λ dec, refuse dec (persistNewJob p n userId i uuid clock))); [done|].
  intros ? ? ?. by apply triple_throw.
Qed.
End one_index.

(** C39: admission is bounded.  With backpressure on, an enqueue, whatever its
    commands meet and wherever it stops, never takes the queue, the index of the
    job's type, or the index of the submitting user over its bound: a depth
    afterwards is at most the larger of the depth before and the bound, which for
    a privileged submission includes the reserve.  Privileged submissions are not
    counted against a user. *)
Theorem admission_bounded p n pr token i uuid clock fs sv :
  enabled limits = true → id_ok i = true →
  let ks := keys_of sv in
  let ks' := keys_of (call (enqueue num limits p n pr token i uuid clock) fs sv) in
  let '(g, t, u) := bounds_of (pl_type p) pr in
  let K := type_index (type_text (pl_type p)) in
  depth QUEUE_KEY ks' ≤ Z.max (depth QUEUE_KEY ks) g ∧ depth K ks' ≤ Z.max (depth K ks) t ∧
  ∀ w, w ≠ "" → pl_userId p = Some w →
    depth (user_index w) ks' ≤ if pr then depth (user_index w) ks else Z.max (depth (user_index w) ks) u.
Proof.
  intros Hen Hi ks ks'. cbn [bounds_of]. cbn zeta. split; [|split].
  - apply call_keeps; [|unfold ks; lia].
    eapply enqueue_index_bounded with (sel := q_global); [done|by left|done| |apply Z.le_max_r|done].
    intros d Hd. by apply admitted_bounds in Hd as [? _].
  - apply call_keeps; [|unfold ks; lia].
    eapply enqueue_index_bounded with (sel := q_type); [done|by right; left; eexists|done| |apply Z.le_max_r|done].
    intros d Hd. by apply admitted_bounds in Hd as (_ & ? & _).
  - intros w Hw Hu. destruct pr.
    + apply (call_keeps (λ ks0, depth (user_index w) ks0 ≤ depth (user_index w) ks)); [|unfold ks; lia].
      apply (privileged_shrinks w p n token i uuid clock Hi), shrinks_stands.
    + apply call_keeps; [|unfold ks; lia].
      eapply enqueue_index_bounded with (sel := q_user); [done|by right; right; eexists| | |apply Z.le_max_r|done].
      * intros d ks0 _ _ Hq. apply Hq. rewrite Hu. by destruct w.
      * intros d Hd. apply admitted_bounds in Hd as (_ & _ & Hd). by apply Hd.
Qed.
End admission.

Section acceptance.
Context {σ : Type} `{RedisLaws σ} (num : string → string) (limits : QueueLimits).
Context (p : JobPayload) (n : Z) (pr : bool) (token i uuid : string) (clock : Z) (Hi : id_ok i = true).
Let userId := if pr then None else pl_userId p.
Let TYPE_KEY := type_index (type_text (pl_type p)).

(** The indexes of the submission, which no string occupies. *)
Definition index_of (K : string) : Prop :=
  K = QUEUE_KEY ∨ K = TYPE_KEY ∨ ∃ w, truthy userId = Some w ∧ K = user_index w.
Definition open_indexes (ks : keyspace) : Prop := ∀ K, index_of K → holds_set ks K.

Lemma index_of_key K : index_of K → index_key K.
Proof. intros [->|[->|(w & _ & ->)]]; [by left|by right; left; eexists|by right; right; eexists]. Qed.

Definition lock_is (v : option string) (ks : keyspace) : Prop :=
  match v with
  | None => ks !! ADMISSION_LOCK_KEY = None
  | Some s => ∃ t, ks !! ADMISSION_LOCK_KEY = Some {| r_value := RStr s; r_ttl := t |}
  end.

Definition stored (ks : keyspace) : Prop :=
  ks !! job_key i = Some {| r_value := RStr (JSON_stringify (new_job p n userId i uuid clock)); r_ttl := true |}.

(** The state of a submission that has added [i] to the indexes [Ks]. *)
Definition submitting (Ks : list string) (ks : keyspace) : Prop :=
  open_indexes ks ∧ lock_is (Some token) ks ∧ stored ks ∧ ∀ K, K ∈ Ks → member K i ks.

Lemma live_add K Ks :
  index_of K → live (submitting Ks) (sAdd (σ := σ) K i) (λ _, submitting (K :: Ks)).
Proof.
  intros HK. pose proof (index_of_key K HK) as HKk. apply live_degrading.
  intros ks (Ho & Hl & Hs & Hm). split; [left; by apply Ho|]. intros ks' r Hd.
  assert (∀ k, k ≠ K → ks' !! k = ks !! k) as Hne
    by (intros k Hk; inversion Hd; subst; by rewrite lookup_insert_ne by congruence).
  assert (member K i ks' ∧ (∀ m, member K m ks → member K m ks')) as [Hadd Hkeep].
  { inversion Hd as [| | | | | | |? ? E|? ? l l' t ? E Hn Hin| | | | | | | |]; subst.
    - split; [exists [i], false; rewrite lookup_insert_eq; split; [done|by left]|].
      intros m (l & t & E' & _). congruence.
    - split; [exists l', t; rewrite lookup_insert_eq; split; [done|apply Hin; by left]|].
      intros m (l0 & t0 & E' & Hm'). rewrite E in E'. injection E' as <- <-.
      exists l', t. rewrite lookup_insert_eq. split; [done|]. apply Hin. by right. }
  split; [|split; [|split]].
  - intros K' HK'. destruct (decide (K' = K)) as [->|Hk]; [|unfold holds_set; rewrite Hne by done; by apply Ho].
    destruct Hadd as (l & t & E & _). unfold holds_set. rewrite E. simpl. eauto.
  - unfold lock_is. rewrite Hne; [done|by apply index_key_lock].
  - unfold stored. rewrite Hne; [done|by apply index_key_job].
  - intros K' [->|HK']%elem_of_cons; [done|]. specialize (Hm K' HK').
    destruct (decide (K' = K)) as [->|Hk]; [by apply Hkeep|]. unfold member in *. by rewrite Hne.
Qed.

Lemma live_persistNewJob :
  live (λ ks, open_indexes ks ∧ lock_is (Some token) ks) (persistNewJob (σ := σ) p n userId i uuid clock)
    (λ job ks, job = new_job p n userId i uuid clock ∧ lock_is (Some token) ks ∧ stored ks ∧
       ∀ K, index_of K → member K i ks).
Proof.
  assert (∀ K, index_of K → K ≠ job_key i) as Hne 
    by (intros K HK; apply not_eq_sym, index_key_job; [by apply index_of_key|done]).
  unfold persistNewJob. eapply (live_bind _ _ _ (λ _ ks, (open_indexes ks ∧ lock_is (Some token) ks) ∧
    ∃ t, ks !! job_key i = Some {| r_value := RStr (JSON_stringify (new_job p n userId i uuid clock)); r_ttl := t |})).
  { apply live_degrading. intros ks [Ho [t Hl]]. split; [by left|]. intros ks' r Hd. inversion Hd; subst. split; [split|].
    - intros K HK. unfold holds_set. rewrite lookup_insert_ne by (apply not_eq_sym; auto). by apply Ho.
    - exists t. by rewrite lookup_insert_ne by (by apply job_key_not_lock).
    - exists false. by rewrite lookup_insert_eq. }
  intros _. eapply (live_bind _ _ _ (λ _, submitting [])).
  { apply live_degrading. intros ks ([Ho [t Hl]] & [t' Hs]). split; [by left|]. intros ks' r Hd.
    inversion Hd as [| | | | | | | | | | | | |? E|? e E| |]; subst; [congruence|].
    rewrite Hs in E. injection E as <-. split; [|split; [|split]].
    - intros K HK. unfold holds_set. rewrite lookup_insert_ne by (apply not_eq_sym; auto). by apply Ho.
    - exists t. by rewrite lookup_insert_ne by (by apply job_key_not_lock).
    - unfold stored. by rewrite lookup_insert_eq.
    - by intros K ?%not_elem_of_nil. }
  intros _. eapply live_bind; [apply live_add; by left|]. intros ?.
  eapply live_bind; [apply live_add; right; by left|]. intros ?.
  apply (live_bind _ _ _ (λ _ ks, lock_is (Some token) ks ∧ stored ks ∧ ∀ K, index_of K → member K i ks)).
  - destruct (truthy userId) as [w|] eqn:Ew.
    + eapply live_weaken; [apply live_add; right; right; by eexists|done|].
      intros _ ks (_ & Hl & Hs & Hm). split; [done|]. split; [done|].
      intros K [->|[->|(w' & E & ->)]]; apply Hm; rewrite !elem_of_cons; [tauto|tauto|].
      rewrite Ew in E. injection E as <-. tauto.
    + apply live_ret. intros ks (_ & Hl & Hs & Hm). split; [done|]. split; [done|].
      intros K [->|[->|(w' & E & ->)]]; [| |congruence]; apply Hm; rewrite !elem_of_cons; tauto.
  - intros ?. apply live_ret. done.
Qed.

Definition has_room (ks : keyspace) : Prop :=
  depth QUEUE_KEY ks < (bounds_of limits (pl_type p) pr).1.1 ∧
  depth TYPE_KEY ks < (bounds_of limits (pl_type p) pr).1.2 ∧
  (∀ w, truthy userId = Some w → depth (user_index w) ks < (bounds_of limits (pl_type p) pr).2) ∧
  (pr = false → 0 < (bounds_of limits (pl_type p) pr).2).

Definition admissible (ks : keyspace) : Prop := open_indexes ks ∧ has_room ks.

Lemma admissible_lookup ks ks' :
  (∀ K, index_of K → ks' !! K = ks !! K) → admissible ks → admissible ks'.
Proof.
  intros E [Ho (Hg & Ht & Hu & H0')]. split; [intros K HK; unfold holds_set; rewrite E by done; by apply Ho|].
  split; [|split; [|split; [|done]]].
  - rewrite (depth_eq _ ks) by (apply E; by left). done.
  - rewrite (depth_eq _ ks) by (apply E; right; by left). done.
  - intros w Hw. rewrite (depth_eq _ ks) by (apply E; right; right; eauto). by apply Hu.
Qed.

Lemma live_acquire m :
  live (λ ks, admissible ks ∧ lock_is None ks) (acquireAdmission (σ := σ) (S m) token)
    (λ got ks, got = true ∧ admissible ks ∧ lock_is (Some token) ks).
Proof.
  cbn [acquireAdmission].
  apply (live_bind _ _ _ (λ got ks, got = true ∧ admissible ks ∧ lock_is (Some token) ks)).
  - apply live_throwing. intros ks [Ha Hl]. split; [done|]. intros ks' r Hd. inversion Hd; subst.
    + split; [done|]. split; [|exists true; by rewrite lookup_insert_eq].
      eapply admissible_lookup; [|exact Ha]. intros K HK. rewrite lookup_insert_ne; [done|].
      by apply index_key_lock, index_of_key.
    + simpl in Hl. congruence.
  - intros got. apply live_pure. intros ->. by apply live_ret.
Qed.

Lemma live_depth (R : keyspace → Prop) K :
  (∀ ks, R ks → holds_set ks K) →
  live R (sMembersOrThrow (σ := σ) K) (λ l ks, R ks ∧ size l = depth K ks).
Proof.
  intros HR. apply live_throwing. intros ks Hk. split; [by apply HR|]. intros ks' r Hd.
  assert (ks' = ks) as -> by (by inversion Hd). split; [done|].
  unfold depth. inversion Hd as [| | | | | | | | | | |? E|? l l' t E Hp| | | |]; subst; rewrite E; [done|].
  simpl. unfold size. by rewrite Hp.
Qed.

Lemma live_readDepths (R : keyspace → Prop) :
  (∀ ks, R ks → admissible ks) →
  live R (readDepths (σ := σ) (pl_type p) userId)
    (λ d ks, R ks ∧ decideAdmission limits (pl_type p) d pr = Admission).
Proof.
  intros HR. unfold readDepths.
  eapply live_bind; [apply (live_depth R); intros ks Hk; apply HR in Hk as [Ho _]; apply Ho; by left|]. intros g.
  eapply live_bind; [apply live_depth; intros ks [Hk _]; apply HR in Hk as [Ho _]; apply Ho; right; by left|].
  intros ty.
  apply (live_bind _ _ _ (λ u ks, ((R ks ∧ size g = depth QUEUE_KEY ks) ∧ size ty = depth TYPE_KEY ks) ∧
    (pr = false → u < (bounds_of limits (pl_type p) pr).2))).
  - destruct (truthy userId) as [w|] eqn:Ew.
    + eapply live_bind; [apply live_depth; intros ks [[Hk _] _]; apply HR in Hk as [Ho _]; apply Ho; right; right; eauto|].
      intros l. apply live_ret. intros ks [[[Hk Hg] Ht] Hu]. split; [done|]. intros _. rewrite Hu.
      by apply HR in Hk as [_ (_ & _ & Hw & _)]; apply Hw.
    + apply live_ret. intros ks [[Hk Hg] Ht]. split; [done|]. by apply HR in Hk as [_ (_ & _ & _ & ?)].
  - intros u. apply live_ret. intros ks [[[Hk Hg] Ht] Hu]. split; [done|].
    apply HR in Hk as [_ (Hg' & Ht' & _)]. unfold bounds_of in *. unfold decideAdmission. cbn zeta.
    cbn [q_user q_type q_global fst snd] in *. rewrite Hg, Ht.
    replace (negb pr && _) with false.
    2: { destruct (negb pr) eqn:Epr; [|done]. apply negb_true_iff in Epr. specialize (Hu Epr).
         simpl. symmetry. apply Z.leb_gt. lia. }
    repeat case_match; try done; lia.
Qed.

Lemma live_release :
  live (λ ks, stored ks ∧ (∀ K, index_of K → member K i ks) ∧ lock_is (Some token) ks)
    (catch (releaseLockOrThrow (σ := σ) ADMISSION_LOCK_KEY token) tt)
    (λ _ ks, stored ks ∧ (∀ K, index_of K → member K i ks) ∧ lock_is None ks).
Proof.
  apply live_catch, live_throwing. intros ks (Hs & Hm & t & Hl). split.
  - simpl. unfold holds_string. rewrite Hl. simpl. eauto.
  - intros ks' r Hd. inversion Hd as [| | | | | | | | | | | | | | | |? ? Hmiss]; subst; [|by destruct (Hmiss t)].
    unfold stored, member, lock_is. rewrite lookup_delete_eq. split; [|split; [|done]].
    + rewrite lookup_delete_ne; [done|]. by apply not_eq_sym, job_key_not_lock.
    + intros K HK. rewrite lookup_delete_ne; [by apply Hm|]. by apply index_key_lock, index_of_key.
Qed.

(** An accepted job is queued.  When no command fails, the lock is free and
    every depth is under its bound, an enqueue does return: the new job, pending;
    it is stored under its key with a time to live, is a member of the queue and
    of the indexes it is counted in, and the lock is free again. *)
Theorem enqueue_accepts sv :
  enabled limits = true → lock_is None (keys_of sv) → open_indexes (keys_of sv) →
  has_room (keys_of sv) →
  ∃ s', enqueue num limits p n pr token i uuid clock (start sv []) =
      (s', Returned (new_job p n userId i uuid clock)) ∧
    stored (ks_of s') ∧ (∀ K, index_of K → member K i (ks_of s')) ∧ lock_is None (ks_of s').
Proof.
  intros Hen Hl Ho Hr.
  assert (live (λ ks, admissible ks ∧ lock_is None ks) (enqueue (σ := σ) num limits p n pr token i uuid clock)
    (λ job ks, job = new_job p n userId i uuid clock ∧
       stored ks ∧ (∀ K, index_of K → member K i ks) ∧ lock_is None ks)) as Hlive.
  { unfold enqueue. rewrite Hen. cbn [negb]. eapply live_bind; [apply live_acquire|]. intros got.
    apply live_pure. intros ->. cbn [negb].
    apply (live_finally _ _ _ _ (λ job ks, job = new_job p n userId i uuid clock ∧
      lock_is (Some token) ks ∧ stored ks ∧ ∀ K, index_of K → member K i ks)).
    - eapply live_bind; [apply (live_readDepths _); by intros ks [? _]|]. intros d.
      intros s Hs [[Ha Hk] Hd]. fold userId. rewrite Hd. apply live_persistNewJob; [done|].
      split; [by destruct Ha|done].
    - intros job s Hs (Hj & Hk & Hst & Hm). destruct (live_release s Hs) as (s' & u & E & Hf & HQ); [done|].
      by exists s', u. }
  destruct (Hlive (start sv []) eq_refl) as (s' & job & E & _ & -> & ?); [done|]. by exists s'.
Qed.
End acceptance.

(** ** Runs *)

Definition idn (s : string) : string := s.

Definition two_jobs : keyspace :=
  run idn DEFAULT_QUEUE_LIMITS sample_server
    [([], OEnqueue sample_payload 3 false "t-2" "j-2" "c-2" 5)].

Definition other_ops : list (list fate * queue_op) :=
  [([], OEnqueue sample_payload 3 true "t-3" "j-3" "c-3" 20); ([], OLapse [job_key "j-3"])].

Lemma two_jobs_ok : queue_ok (keys_of two_jobs).
Proof.
  intros e He. vm_compute in He. injection He as <-. exists ["j-1"; "j-2"]. by repeat constructor.
Qed.

Lemma claim_exclusive_witness : ∃ job', "j-2" ≠ "j-1" ∧
  (dequeue idn 30 (start (run idn DEFAULT_QUEUE_LIMITS (call (dequeue idn 10) [] two_jobs) other_ops) [])).2 =
    Returned (Some ("j-2", job')).
Proof.
  eexists. split; [|by vm_compute].
  eapply (claim_exclusive (σ := keyspace) idn DEFAULT_QUEUE_LIMITS two_jobs [] 10 "j-1" _ other_ops [] 30 "j-2").
  - apply two_jobs_ok.
  - by vm_compute.
  - repeat constructor. simpl. by rewrite list_elem_of_singleton.
  - by vm_compute.
Defined.

Lemma dequeue_serves_witness :
  ∃ s' k l t', dequeue idn 10 (start two_jobs []) = (s', Returned (Some (k, JObj l))) ∧
    aget "status" l = Some (JStr (status_text PROCESSING)) ∧ claimed k (ks_of s') ∧
    ks_of s' !! job_key k = Some {| r_value := RStr (JSON_stringify (JObj l)); r_ttl := t' |}.
Proof.
  apply (dequeue_serves (σ := keyspace) idn two_jobs "j-2" ["j-1"; "j-2"] false 10).
  - done.
  - by vm_compute.
  - intros i Hi. rewrite !elem_of_cons in Hi. destruct Hi as [->|[->|[]%not_elem_of_nil]]; (split; [done|right]).
    + exists sample_fields. split; [exists true; by vm_compute|by vm_compute].
    + exists (match new_job sample_payload 3 (Some "u-1") "j-2" "c-2" 5 with JObj l => l | _ => [] end).
      split; [exists true; by vm_compute|by vm_compute].
  - split; [right; by left|]. split; [|by vm_compute].
    exists (match new_job sample_payload 3 (Some "u-1") "j-2" "c-2" 5 with JObj l => l | _ => [] end).
    split; [exists true; by vm_compute|]. split; by vm_compute.
Defined.

Lemma admission_bounded_witness :
  let ks' := keys_of (call (enqueue idn DEFAULT_QUEUE_LIMITS sample_payload 3 false "t" "j-9" "c" 0) 
               [Succeeds; FailsApplied] two_jobs) in
  depth QUEUE_KEY ks' ≤ Z.max (depth QUEUE_KEY (keys_of two_jobs)) (globalMaxDepth DEFAULT_QUEUE_LIMITS + 0).
Proof.
  pose proof (admission_bounded (σ := keyspace) idn DEFAULT_QUEUE_LIMITS sample_payload 3 false "t" "j-9" "c" 0
    [Succeeds; FailsApplied] two_jobs eq_refl eq_refl) as Hb.
  cbn [bounds_of] in Hb. exact (proj1 Hb).
Defined.

Lemma enqueue_accepts_witness :
  ∃ s', enqueue idn DEFAULT_QUEUE_LIMITS sample_payload 3 false "t" "j-9" "c" 0 (start two_jobs []) =
    (s', Returned (new_job sample_payload 3 (Some "u-1") "j-9" "c" 0)) ∧
    lock_is None (ks_of s').
Proof.
  destruct (enqueue_accepts (σ := keyspace) idn DEFAULT_QUEUE_LIMITS sample_payload 3 false "t" "j-9" "c" 0
              ltac:(done) two_jobs) as (s' & E & _ & _ & Hl).
  - done.
  - by vm_compute.
  - intros K [->|[->|(w & [= <-] & ->)]]; vm_compute; eauto.
  - split; [by vm_compute|]. split; [by vm_compute|]. split; [|done]. intros w [= <-]. by vm_compute.
  - exists s'. split; [exact E|exact Hl].
Defined.

(** ** What the queue does not promise *)

(** The writes of a new job degrade silently, so a submission can be answered with
    a job of which nothing was stored. *)
Lemma enqueue_can_lose_silently :
  let fs := [Succeeds; Succeeds; Succeeds; Succeeds; Fails; Fails; Fails; Fails; Fails] in
  let '(s', r) := enqueue idn DEFAULT_QUEUE_LIMITS sample_payload 3 false "t" "j" "c" 0 (start (∅ : keyspace) fs) in
  r = Returned (new_job sample_payload 3 (Some "u-1") "j" "c" 0) ∧ ks_of s' = ∅.
Proof. by vm_compute. Qed.

(** An empty limit in the environment is not malformed to [Number]: it is zero. *)
Lemma empty_limit_is_zero fl :
  globalMaxDepth (resolveQueueLimits fl (λ k, if decide (k = "JOB_QUEUE_MAX_DEPTH") then Some "" else None)) = 0.
Proof. by vm_compute. Qed.

(** Claiming a job rewrites its record without the time to live it was given. *)
Lemma claim_drops_ttl :
  r_ttl <$> sample_server !! job_key "j-1" = Some true ∧
  r_ttl <$> call (dequeue idn 10) [] sample_server !! job_key "j-1" = Some false.
Proof. by vm_compute. Qed.
