(* ===== verification/JobRace.v ===== *)
(** * Workers that race for a job

    [JobQueue] and [JobClaims] run one call at a time.  Here [dequeue] of
    [api/src/workers/services/job-queue.service.ts] is the tree of the commands it sends
    ([Threads]), and any number of workers run it against one server, command by command,
    among any other programs.

    Shown: a job is handed to one worker at most, as long as its processing lock is neither
    deleted nor lapses ([one_worker_per_job]); under every list of fates the tree does what
    the call of [JobQueue] does ([dequeue_agrees]).  Reading the lock and writing it in two
    commands would hand a job out twice ([two_commands_race]). *)
From S2P Require Import Prelude JsDate Json JsonParse Redis Threads JobQueue.

Section programs.
Context {X Y : Type} (num : string → string).
Notation prog := (prog X Y).

(** ** The calls of the Redis service that [Threads] does not have *)

Definition throwing {A} (c : command) (f : reply → A) : prog A :=
  Ask c (λ r, match r with Some r => Ret (f r) | None => Throw "ServiceUnavailable" end).

Definition getOrThrow (k : string) : prog (option string) := throwing (GET k) bulk_of.
Definition sMembers (k : string) : prog (list string) := degrading (SMEMBERS k) members_of [].
Definition sAdd (k m : string) : prog unit := degrading (SADD k m) (λ _, tt) tt.
Definition sRem (k m : string) : prog unit := degrading (SREM k m) (λ _, tt) tt.

(** ** The worker's call *)

Definition parse_job (raw : string) : prog json :=
  match JSON_parse num raw with Some j => Ret j | None => Throw "SyntaxError" end.

Definition read (job : json) (k : string) : prog (option json) :=
  match job with JNull => Throw "TypeError" | _ => Ret (prop job k) end.

Definition assigns (l : list (string * json)) (job : json) : prog json :=
  match foldl (λ r kv, j ← r; assign kv.1 kv.2 j) (Ok job) l with Ok a => Ret a | Err e => Throw e end.

Definition removeFromIndexes (job : json) : prog unit :=
  _ ← sRem (type_index (template (prop job "type"))) (template (prop job "id"));
  match prop job "admittedFor" with
  | Some v => if falsy v then Ret tt
              else sRem (user_index (js_String v)) (template (prop job "id"))
  | None => Ret tt
  end.

Fixpoint dequeue_loop (clock : Z) (members : list string) : prog (option (string * json)) :=
  match members with
  | [] => Ret None
  | jobId :: members =>
      jobData ← getOrThrow (job_key jobId);
      match truthy jobData with
      | None => _ ← sRem QUEUE_KEY jobId; dequeue_loop clock members
      | Some raw =>
          job ← parse_job raw;
          _ ← read job "status";
          if isTerminal job then
            _ ← (if has_status job DEAD_LETTER then sAdd DEAD_LETTER_KEY jobId else Ret tt);
            _ ← sRem QUEUE_KEY jobId;
            _ ← removeFromIndexes job;
            dequeue_loop clock members
          else
            claimed ← setNx (processing_key jobId);
            if negb claimed then dequeue_loop clock members
            else
              job ← assigns [("status", JStr (status_text PROCESSING)); ("startedAt", time_text clock)] job;
              _ ← set (job_key jobId) (JSON_stringify job) false;
              Ret (Some (jobId, job))
      end
  end.

Definition dequeue (clock : Z) : prog (option (string * json)) :=
  members ← sMembers QUEUE_KEY; dequeue_loop clock members.
End programs.

(** ** The tree and the call *)

Section agreement.
Context {σ : Type} `{RedisServer σ} {X Y : Type} (num : string → string).

(** A tree run on its own, each command meeting the next fate; commands beyond the list
    succeed.  It has no effects outside Redis. *)
Fixpoint under {A} (fs : list fate) (sv : σ) (p : prog X Y A) : σ * list fate * exit A :=
  match p with
  | Ret a => (sv, fs, Returned a)
  | Throw e => (sv, fs, Threw e)
  | Ask c k =>
      match default Succeeds (head fs) with
      | Succeeds => let '(sv', r) := exec sv c in under (tail fs) sv' (k r)
      | Fails => under (tail fs) sv (k None)
      | FailsApplied => under (tail fs) (exec sv c).1 (k None)
      | Dies => (sv, tail fs, Died)
      end
  | Do _ _ => (sv, fs, Died)
  end.

Definition agrees {A} (m : M σ A) (p : prog X Y A) : Prop :=
  ∀ s, under (fates s) (server s) p = (server (m s).1, fates (m s).1, (m s).2).

Lemma agrees_ret {A} (a : A) : agrees (mret a) (Ret a).
Proof. done. Qed.
Lemma agrees_throw {A} e : agrees (throw (A := A) e) (Throw e).
Proof. done. Qed.

Lemma under_bind {A B} (f : A → prog X Y B) p fs sv :
  under fs sv (prog_bind f p) =
  match under fs sv p with
  | (sv', fs', Returned a) => under fs' sv' (f a)
  | (sv', fs', Threw e) => (sv', fs', Threw e)
  | (sv', fs', Died) => (sv', fs', Died)
  end.
Proof.
  revert fs sv. induction p as [a|e|c k IH|x k IH]; intros fs sv; cbn [prog_bind under]; [done|done| |done].
  destruct (default Succeeds (head fs)); [destruct (exec sv c); apply IH|apply IH|apply IH|done].
Qed.

Lemma agrees_bind {A B} (m : M σ A) (p : prog X Y A) (f : A → M σ B) (g : A → prog X Y B) :
  agrees m p → (∀ a, agrees (f a) (g a)) → agrees (m ≫= f) (p ≫= g).
Proof.
  intros Hm Hf s. change (under (fates s) (server s) (prog_bind g p) = (server ((m ≫= f) s).1, fates ((m ≫= f) s).1, ((m ≫= f) s).2)).
  rewrite under_bind, (Hm s). unfold mbind, M_bind. destruct (m s) as [s' [a|e|]]; cbn [fst snd]; [apply Hf|done|done].
Qed.

Lemma agrees_degrading {A} c (f : reply → A) d : agrees (Redis.degrading c f d) (Threads.degrading c f d).
Proof.
  intros s. unfold Redis.degrading, Threads.degrading, cmd, logDegraded, mbind, M_bind, mret, M_ret. cbn [under].
  destruct (default Succeeds (head (fates s))); [|done..]. destruct (exec (server s) c) as [sv [r|]]; done.
Qed.
Lemma agrees_throwing {A} c (f : reply → A) : agrees (Redis.throwing c f) (throwing c f).
Proof.
  intros s. unfold Redis.throwing, throwing, throwUnavailable, throw, cmd, logDegraded, mbind, M_bind, mret, M_ret. cbn [under].
  destruct (default Succeeds (head (fates s))); [|done..]. destruct (exec (server s) c) as [sv [r|]]; done.
Qed.

Lemma agrees_removeFromIndexes job : agrees (JobQueue.removeFromIndexes job) (removeFromIndexes job).
Proof.
  apply agrees_bind; [apply agrees_degrading|]. intros _. destruct (prop job "admittedFor") as [v|]; [|apply agrees_ret].
  destruct (falsy v); [apply agrees_ret|apply agrees_degrading].
Qed.

Lemma agrees_loop clock members : agrees (JobQueue.dequeue_loop num clock members) (dequeue_loop num clock members).
Proof.
  induction members as [|i members IH]; [apply agrees_ret|]. cbn [JobQueue.dequeue_loop dequeue_loop].
  apply agrees_bind; [apply agrees_throwing|]. intros d. destruct (truthy d) as [raw|].
  2: { apply agrees_bind; [apply agrees_degrading|done]. }
  apply agrees_bind; [unfold JobQueue.parse_job, parse_job; by destruct (JSON_parse num raw)|]. intros job.
  apply agrees_bind; [unfold JobQueue.read, read; by destruct job|]. intros _. destruct (isTerminal job).
  - apply agrees_bind; [destruct (has_status job DEAD_LETTER); [apply agrees_degrading|apply agrees_ret]|]. intros _.
    apply agrees_bind; [apply agrees_degrading|]. intros _. apply agrees_bind; [apply agrees_removeFromIndexes|done].
  - apply agrees_bind; [apply agrees_degrading|]. intros []; [|exact IH]. cbn [negb].
    apply agrees_bind; [unfold JobQueue.assigns, lift, assigns; by destruct (foldl _ _ _)|]. intros job'.
    apply agrees_bind; [apply agrees_degrading|]. intros _. apply agrees_ret.
Qed.

(** Whatever befalls its commands, the tree of [dequeue] does what the call does. *)
Theorem dequeue_agrees clock : agrees (JobQueue.dequeue num clock) (dequeue num clock).
Proof. apply agrees_bind; [apply agrees_degrading|]. intros members. apply agrees_loop. Qed.
End agreement.

(** ** One worker per job *)

Section race.
Context {X Y : Type} (num : string → string) (k : string).
Notation prog := (prog X Y (option (string * json))).

(** Commands that leave the processing lock of [k] in place, if it is there. *)
Definition spares (c : command) : Prop :=
  match c with
  | DEL k' | GETDEL k' | SREM k' _ | COMPARE_DEL k' _ => k' ≠ processing_key k
  | _ => True
  end.

Definition claims (c : command) : bool :=
  match c with SET k' _ true _ => bool_decide (k' = processing_key k) | _ => false end.

(** [b]: the program has set the processing lock of [k].  It hands out [k] only then. *)
Fixpoint careful (b : bool) (p : prog) : Prop :=
  match p with
  | Ret a => ∀ job, a = Some (k, job) → b = true
  | Throw _ => True
  | Ask c f => spares c ∧ ∀ r, careful (b || claims c && bool_decide (is_OK <$> r = Some true)) (f r)
  | Do _ f => ∀ y, careful b (f y)
  end.

Lemma spares_kept ks c ks' r :
  documented ks c ks' r → spares c → is_Some (ks !! processing_key k) → is_Some (ks' !! processing_key k).
Proof.
  intros Hd Hs Hk. destruct (decide (key_of c = processing_key k)) as [E|E]; [|by rewrite (documented_frame _ _ _ _ _ Hd E)].
  destruct Hd; cbn in *; try done; subst; by rewrite lookup_insert_eq.
Qed.

Lemma claims_free ks c ks' r :
  documented ks c ks' r → claims c && is_OK r = true →
  ks !! processing_key k = None ∧ is_Some (ks' !! processing_key k).
Proof.
  intros Hd [Hc Hr]%andb_true_iff. destruct Hd; cbn in Hc, Hr; try done. destruct nx; [|done].
  apply bool_decide_eq_true in Hc as ->. split; [by auto|by rewrite lookup_insert_eq].
Qed.

(** At most one thread has set the lock, and while one has, the lock is there. *)
#[local] Instance lock_protocol : Protocol X Y (option (string * json)) bool := {|
  holds kns ks _ := (∀ i j, kns !! i = Some true → kns !! j = Some true → i = j) ∧
                    (∀ i, kns !! i = Some true → is_Some (ks !! processing_key k));
  fine _ b p := careful b p;
  allowed _ _ _ := True;
  Threads.stable key := key = processing_key k;
|}.

#[local] Instance lock_laws : ProtocolLaws X Y (option (string * json)) bool.
Proof.
  assert (∀ (kns : list bool) i b, kns !! i = Some b → <[i := b]> kns = kns) as Hid
    by (intros; by apply list_insert_id).
  split; cbn [holds fine allowed Threads.stable lock_protocol].
  - intros kns ks l i b c f ks' r [H1 H2] Hi [Hs Hf] Hd.
    assert ((∀ i j, kns !! i = Some true → kns !! j = Some true → i = j) ∧
      (∀ i, kns !! i = Some true → is_Some (ks' !! processing_key k))) as Hkeep.
    { split; [done|]. intros j Hj. eapply spares_kept; [done|done|by eapply H2]. }
    split.
    + destruct (claims c && is_OK r) eqn:Ec.
      * destruct (claims_free _ _ _ _ Hd Ec) as [Hnone Hsome]. exists true. apply andb_true_iff in Ec as [Ec Er].
        assert (∀ j, kns !! j ≠ Some true) as Hno by (intros j Hj; destruct (H2 j Hj) as [e He]; congruence).
        split; [split|].
        -- intros j1 j2 [(<- & _ & _)|[_ ?]]%list_lookup_insert_Some [(<- & _ & _)|[_ ?]]%list_lookup_insert_Some;
             [done|by destruct (Hno j2)|by destruct (Hno j1)|by destruct (Hno j1)].
        -- done.
        -- specialize (Hf (Some r)). cbn in Hf. rewrite Ec, Er, bool_decide_eq_true_2, orb_true_r in Hf by done. done.
      * exists b. rewrite (Hid _ _ _ Hi). split; [done|]. specialize (Hf (Some r)). cbn in Hf.
        assert (claims c && bool_decide (Some (is_OK r) = Some true) = false) as E.
        { apply andb_false_iff in Ec as [->|Ec]; [done|]. rewrite Ec, bool_decide_eq_false_2 by done. apply andb_false_r. }
        by rewrite E, orb_false_r in Hf.
    + exists b. rewrite (Hid _ _ _ Hi). split; [done|]. specialize (Hf None). cbn in Hf. by rewrite andb_false_r, orb_false_r in Hf.
  - intros kns ks l i b c f Hh Hi [Hs Hf]. exists b. rewrite (Hid _ _ _ Hi). split; [done|].
    specialize (Hf None). cbn in Hf. by rewrite andb_false_r, orb_false_r in Hf.
  - intros kns ks l i b x f y Hh Hi Hf _. exists b. rewrite (Hid _ _ _ Hi). done.
  - intros kns ks l keys [H1 H2] Hk. split; [done|]. intros i Hi. destruct (H2 i Hi) as [e He]. exists e.
    apply map_lookup_filter_Some. split; [done|]. cbn. intros [Hin _]. rewrite Forall_forall in Hk. by apply (Hk _ Hin).
Qed.

(** What runs: a worker that asks for a job, or anything else. *)
Inductive actor := Worker (clock : Z) | Other (p : Threads.prog X Y unit).
Definition program (a : actor) : prog :=
  match a with Worker clock => dequeue num clock | Other p => prog_bind (λ _, Ret None) p end.
Definition lawful (a : actor) : Prop :=
  match a with Worker _ => True | Other p => sends spares (λ _, True) p end.

Lemma careful_ask b {B} c (f : reply → B) d (g : B → prog) :
  spares c → claims c = false → (∀ y, careful b (g y)) → careful b (Threads.degrading c f d ≫= g).
Proof. intros Hs Hc Hg. split; [done|]. intros r. rewrite Hc. cbn [andb]. rewrite orb_false_r. apply Hg. Qed.

Lemma careful_throwing b {B} c (f : reply → B) (g : B → prog) :
  spares c → claims c = false → (∀ y, careful b (g y)) → careful b (throwing c f ≫= g).
Proof.
  intros Hs Hc Hg. split; [done|]. intros r. rewrite Hc. cbn [andb]. rewrite orb_false_r. destruct r; [apply Hg|done].
Qed.

(** A step without a command: it goes on with some value or throws. *)
Definition pure {B} (p : Threads.prog X Y B) : Prop := match p with Ret _ | Throw _ => True | _ => False end.
Lemma careful_pure b {B} (p : Threads.prog X Y B) (g : B → prog) :
  pure p → (∀ y, careful b (g y)) → careful b (p ≫= g).
Proof. intros Hp Hg. destruct p; [apply Hg|done..]. Qed.

Lemma careful_assoc b {B C} (p : Threads.prog X Y B) (f : B → Threads.prog X Y C) (g : C → prog) :
  careful b (p ≫= λ y, f y ≫= g) → careful b ((p ≫= f) ≫= g).
Proof.
  change (careful b (prog_bind (λ y, prog_bind g (f y)) p) → careful b (prog_bind g (prog_bind f p))). revert b.
  induction p as [a|e|c h IH|x h IH]; intros b; cbn [prog_bind careful]; [done|done| |].
  - intros [Hs Hr]. split; [done|]. intros r. by apply IH.
  - intros Hy y. by apply IH.
Qed.

Lemma other_careful p b : sends spares (λ _, True) p → careful b (prog_bind (λ _ : unit, Ret None) p).
Proof.
  intros Hp. revert b.
  induction p as [a|e|c f IH|x f IH]; intros b; cbn in *; [done|done| |].
  - destruct Hp as [Hc Hf]. split; [done|]. intros r. by apply IH.
  - intros y. by apply IH, Hp.
Qed.

Lemma removal_careful b job (g : unit → prog) : (∀ u, careful b (g u)) → careful b (removeFromIndexes job ≫= g).
Proof.
  intros Hg. apply careful_assoc. apply careful_ask; [done|done|]. intros _.
  destruct (prop job "admittedFor") as [v|]; [|by apply careful_pure]. destruct (falsy v); [by apply careful_pure|by apply careful_ask].
Qed.

(** The claim: whoever goes on has set the lock. *)
Lemma claim_careful i (g : bool → prog) :
  careful false (g false) → (∀ b, (i = k → b = true) → careful b (g true)) → careful false (setNx (processing_key i) ≫= g).
Proof.
  intros Hno Hyes. split; [done|]. intros r. cbn [claims orb]. destruct (bool_decide (is_OK <$> r = Some true)) eqn:Er.
  - apply bool_decide_eq_true in Er. destruct r as [r|]; [|done]. cbn in Er. injection Er as Er. rewrite Er, andb_true_r.
    apply Hyes. intros ->. by apply bool_decide_eq_true.
  - apply bool_decide_eq_false in Er. rewrite andb_false_r.
    assert (match r with Some r => is_OK r | None => false end = false) as ->; [|exact Hno].
    destruct r as [r|]; [|done]. destruct (is_OK r) eqn:E; [|done]. exfalso. apply Er. cbn. by rewrite E.
Qed.

Lemma dequeue_loop_careful clock members : careful false (dequeue_loop num clock members).
Proof.
  induction members as [|i members IH]; [by intros job|]. cbn [dequeue_loop].
  apply careful_throwing; [done|done|]. intros d. destruct (truthy d) as [raw|]; [|by apply careful_ask].
  apply careful_pure; [unfold parse_job; by destruct (JSON_parse num raw)|]. intros job.
  apply careful_pure; [unfold read; by destruct job|]. intros _. destruct (isTerminal job).
  - assert (∀ g, (∀ u, careful false (g u)) →
      careful false ((if has_status job DEAD_LETTER then sAdd DEAD_LETTER_KEY i else Ret tt) ≫= g)) as Hadd
      by (intros g Hg; destruct (has_status job DEAD_LETTER); [by apply careful_ask|by apply careful_pure]).
    apply Hadd. intros _. apply careful_ask; [done|done|]. intros _. by apply removal_careful.
  - apply claim_careful; [exact IH|]. intros b Hb. cbn [negb].
    apply careful_pure; [unfold assigns; by destruct (foldl _ _ _)|]. intros job'.
    apply careful_ask; [done|done|]. intros _ job'' [= -> _]. by apply Hb.
Qed.

Lemma program_careful a : lawful a → careful false (program a).
Proof.
  destruct a as [clock|p]; cbn [lawful program]; [|apply other_careful]. intros _.
  apply careful_ask; [done|done|]. intros members. apply dequeue_loop_careful.
Qed.

(** C7: a job is handed to one worker at most.  Any number of workers dequeue at the same
    time, interleaved at every Redis command among any other programs that do not delete
    the processing lock of this job; commands fail, with or without effect, processes die
    and keys lapse, but not that lock.  Then no two workers are handed the job, and once
    one has been, the lock is there. *)
Theorem one_worker_per_job {σ} `{RedisLaws σ} (actors : list actor) (sv : σ) evs :
  Forall lawful actors → Forall (λ ev : Threads.event Y, match ev with Expire l => processing_key k ∉ l | _ => True end) evs →
  let cf := Threads.run (starts sv (program <$> actors)) evs in
  ∀ i job, cf_threads cf !! i = Some (Running (Ret (Some (k, job)))) →
    is_Some (keys_of (cf_server cf) !! processing_key k) ∧
    ∀ j job', cf_threads cf !! j = Some (Running (Ret (Some (k, job')))) → j = i.
Proof.
  intros Ha He cf.
  assert (sound_at cf) as (kns & Hl & [H1 H2] & Hf).
  { apply protocol_run.
    - exists (replicate (length actors) false). cbn. split; [by rewrite length_replicate, !length_fmap|].
      split; [split; [intros i j Hi|intros i Hi]; by apply lookup_replicate_1 in Hi as [? _]|].
      intros i b p Hb Hp. apply lookup_replicate_1 in Hb as [-> _]. rewrite list_lookup_fmap in Hp.
      destruct ((program <$> actors) !! i) as [q|] eqn:Eq; [|done]. injection Hp as <-.
      rewrite list_lookup_fmap in Eq. destruct (actors !! i) as [a|] eqn:Ea; [|done]. injection Eq as <-.
      apply program_careful. rewrite Forall_lookup in Ha. by eapply Ha.
    - generalize (starts sv (program <$> actors)). clear -He.
      induction He as [|ev evs Hev _ IH]; intros cf; [done|]. split; [|apply IH].
      destruct ev as [i f|i y|l]; [done|done|]. cbn. apply Forall_forall. by intros x Hx ->. }
  assert (∀ i job, cf_threads cf !! i = Some (Running (Ret (Some (k, job)))) → kns !! i = Some true) as Hhas.
  { intros i job Hi. destruct (lookup_lt_is_Some_2 kns i) as [b Hb]; [rewrite Hl; by eapply lookup_lt_Some|].
    pose proof (Hf i b _ Hb Hi) as Hc. cbn in Hc. by rewrite (Hc job eq_refl) in Hb. }
  intros i job Hi. split; [by eapply H2, Hhas|]. intros j job' Hj. apply H1; by eapply Hhas.
Qed.
End race.

(** ** Two workers *)

Section samples.
Notation idn := (λ s : string, s).

Definition waiting_job : string :=
  JSON_stringify (JObj [("id", JStr "j-1"); ("type", JStr "oracle_sync"); ("status", JStr "pending")]).
Definition one_waiting : keyspace :=
  <[QUEUE_KEY := plain (RSet ["j-1"])]> {[job_key "j-1" := plain (RStr waiting_job)]}.
Definition two_workers : list (actor (X := Empty_set) (Y := unit)) :=
  [Worker 10; Worker 20; Other (get (job_key "j-1") ≫= λ _, set (job_key "j-2") "{}" false ≫= λ _, Ret tt)].

(** Both workers have read the job before either claims it; the second claims first. *)
Definition overlapping : list (Threads.event unit) :=
  [Turn 0 Succeeds; Turn 1 Succeeds; Turn 0 Succeeds; Turn 1 Succeeds; Turn 2 Fails; Turn 1 Succeeds; Turn 0 Succeeds;
   Turn 2 Succeeds; Turn 1 FailsApplied; Expire [job_key "j-2"]].

Definition raced := Threads.run (starts one_waiting (program idn <$> two_workers)) overlapping.

Lemma one_worker_per_job_witness :
  ∃ job, cf_threads raced !! 1%nat = Some (Running (Ret (Some ("j-1", job)))) ∧
    cf_threads raced !! 0%nat = Some (Running (Ret None)) ∧
    is_Some (keys_of (cf_server raced) !! processing_key "j-1") ∧
    ∀ j job', cf_threads raced !! j = Some (Running (Ret (Some ("j-1", job')))) → j = 1%nat.
Proof.
  eexists. split; [vm_compute; reflexivity|]. split; [vm_compute; reflexivity|].
  eapply (one_worker_per_job idn "j-1" two_workers one_waiting overlapping); [| |vm_compute; reflexivity].
  - repeat constructor; done.
  - repeat constructor. rewrite list_elem_of_singleton. done.
Defined.

(** A claim that looks first and writes afterwards. *)
Definition look_then_claim (i : string) : prog Empty_set unit (option (string * json)) :=
  v ← get (processing_key i);
  match v with
  | Some _ => Ret None
  | None => _ ← set (processing_key i) "1" true; Ret (Some (i, JNull))
  end.

Lemma two_commands_race :
  let cf := Threads.run (starts (∅ : keyspace) [look_then_claim "j-1"; look_then_claim "j-1"])
    [Turn 0 Succeeds; Turn 1 Succeeds; Turn 0 Succeeds; Turn 1 Succeeds] in
  cf_threads cf = [Running (Ret (Some ("j-1", JNull))); Running (Ret (Some ("j-1", JNull)))].
Proof. by vm_compute. Qed.
End samples.
