(* ===== verification/AuditTrail.v ===== *)
(** * The audit trail

    Models [api/src/audit/audit.service.ts]: the append-only, hash-chained change
    history kept per entity, its capacity limits, and its verification.  The digest
    is the argument [sha256], applied to the text the code hashes.

    The states before and after a change are kept as values.  The service keeps the objects it
    was given: a caller that went on changing one would change the trail, and break its hashes.

    [exportEvidenceBundle] is modelled in [EvidenceBundles]; log lines are left out. *)
From S2P Require Import Prelude JsDate Json.

Record AuditRecord := {
  ar_sequence : Z;
  ar_recordId : string;
  ar_entityType : string;
  ar_entityId : string;
  ar_action : string;
  ar_actor : string;
  ar_reason : option string;
  ar_before : json;
  ar_after : json;
  ar_recordedAt : string;
  ar_previousHash : option string;
  ar_hash : string;
}.

Record AuditWrite := {
  aw_entityType : string;
  aw_entityId : string;
  aw_action : string;
  aw_actor : string;
  aw_reason : option string;
  aw_before : option json;
  aw_after : option json;
}.

Inductive AuditWriteResult :=
| Recorded (r : AuditRecord)
| Rejected (rejectReason : string).

Record AuditChainState := {
  lastHash : option string;
  lastSequence : Z;
  entries : list AuditRecord;
  expired : Z;
}.

Record AuditService := {
  chains : list (string * AuditChainState);
  totalEntries : Z;
  totalExpired : Z;
  droppedWrites : Z;
}.

Definition new_chain : AuditChainState := {| lastHash := None; lastSequence := 0; entries := []; expired := 0 |}.
Definition new_audit : AuditService := {| chains := []; totalEntries := 0; totalExpired := 0; droppedWrites := 0 |}.

Record VerificationFailure := {
  failedIndex : Z;
  vf_reason : string;
  vf_expected : option string;
  vf_actual : option string;
}.

Record VerificationReport := {
  vr_ok : bool;
  started : Z;
  finished : Z;
  checkedEntries : Z;
  vr_failures : list VerificationFailure;
}.

Definition MAX_TOTAL_ENTRIES : Z := 10000.
Definition MAX_ENTRIES_PER_ENTITY : Z := 5000.

Definition entityKey (entityType entityId : string) : string := entityType +:+ ":" +:+ entityId.

Definition text_or_null (x : option string) : json :=
  match x with Some s => JStr s | None => JNull end.

Section audit.
Context (sha256 : string → string).

Definition entry_object (e : AuditRecord) : json :=
  JObj [ ("entityType", JStr (ar_entityType e)); ("entityId", JStr (ar_entityId e));
         ("action", JStr (ar_action e)); ("actor", JStr (ar_actor e));
         ("reason", text_or_null (ar_reason e)); ("sequence", jint (ar_sequence e));
         ("previousHash", text_or_null (ar_previousHash e)); ("recordedAt", JStr (ar_recordedAt e));
         ("before", ar_before e); ("after", ar_after e) ].

Definition computeEntryHash (e : AuditRecord) : string := sha256 (stableStringify (entry_object e)).

Definition getOrCreateChain (st : AuditService) (key : string) : AuditService * AuditChainState :=
  match aget key (chains st) with
  | Some c => (st, c)
  | None => ({| chains := aput key new_chain (chains st); totalEntries := totalEntries st;
                totalExpired := totalExpired st; droppedWrites := droppedWrites st |}, new_chain)
  end.

(** The entry a write adds to a chain, before it is hashed. *)
Definition draft (w : AuditWrite) (c : AuditChainState) (uuid : string) (clock : Z) : AuditRecord :=
  {| ar_sequence := lastSequence c + 1; ar_recordId := uuid; ar_entityType := aw_entityType w;
     ar_entityId := aw_entityId w; ar_action := aw_action w; ar_actor := aw_actor w;
     ar_reason := aw_reason w; ar_before := default JNull (aw_before w);
     ar_after := default JNull (aw_after w); ar_recordedAt := iso_text clock;
     ar_previousHash := lastHash c; ar_hash := EmptyString |}.

Definition with_hash (e : AuditRecord) (h : string) : AuditRecord :=
  {| ar_sequence := ar_sequence e; ar_recordId := ar_recordId e; ar_entityType := ar_entityType e;
     ar_entityId := ar_entityId e; ar_action := ar_action e; ar_actor := ar_actor e;
     ar_reason := ar_reason e; ar_before := ar_before e; ar_after := ar_after e;
     ar_recordedAt := ar_recordedAt e; ar_previousHash := ar_previousHash e; ar_hash := h |}.

Definition record (st : AuditService) (w : AuditWrite) (uuid : string) (clock : Z) :
    AuditService * AuditWriteResult :=
  if decide (aw_entityId w = EmptyString) then (st, Rejected "entityId is required")
  else if decide (aw_action w = EmptyString) then (st, Rejected "action is required")
  else if decide (aw_actor w = EmptyString) then (st, Rejected "actor is required")
  else
    let key := entityKey (aw_entityType w) (aw_entityId w) in
    let '(st, c) := getOrCreateChain st key in
    let atEntityCap := MAX_ENTRIES_PER_ENTITY <=? Z.of_nat (length (entries c)) in
    if atEntityCap || (MAX_TOTAL_ENTRIES <=? totalEntries st) then
      ({| chains := chains st; totalEntries := totalEntries st; totalExpired := totalExpired st;
          droppedWrites := droppedWrites st + 1 |}, Rejected "audit chain at capacity")
    else
      let entry := draft w c uuid clock in
      let entry := with_hash entry (computeEntryHash entry) in
      let c' := {| lastHash := Some (ar_hash entry); lastSequence := ar_sequence entry;
                   entries := entries c ++ [entry]; expired := expired c |} in
      ({| chains := aput key c' (chains st); totalEntries := totalEntries st + 1;
          totalExpired := totalExpired st; droppedWrites := droppedWrites st |}, Recorded entry).

Definition fail_when (b : bool) (i : Z) (reason : string) (expected actual : option string) :
    list VerificationFailure :=
  if b then [{| failedIndex := i; vf_reason := reason; vf_expected := expected; vf_actual := actual |}]
  else [].

(** The loop of [verifyEntity] from index [i]; [prev] is the entry before. *)
Fixpoint verify_loop (strict : bool) (i : Z) (prev : option AuditRecord) (es : list AuditRecord) :
    list VerificationFailure :=
  match es with
  | [] => []
  | e :: es =>
      (match prev with
       | Some p => fail_when (negb (bool_decide (ar_previousHash e = Some (ar_hash p)))) i
                     "previous hash mismatch" (Some (ar_hash p)) (ar_previousHash e)
       | None => []
       end) ++
      (if strict then
         match prev with
         | Some p => fail_when (negb (ar_sequence e =? ar_sequence p + 1)) i "sequence break"
                       (Some (Z_to_string (ar_sequence p + 1))) (Some (Z_to_string (ar_sequence e)))
         | None => fail_when (negb (ar_sequence e =? 1)) i "first entry sequence must be 1"
                     (Some "1") (Some (Z_to_string (ar_sequence e)))
         end
       else []) ++
      (let rebuilt := computeEntryHash e in
       fail_when (negb (bool_decide (rebuilt = ar_hash e))) i "content hash mismatch"
         (Some (ar_hash e)) (Some rebuilt)) ++
      verify_loop strict (i + 1) (Some e) es
  end.

Definition verifyEntity (st : AuditService) (entityType entityId : string) (strict : bool) :
    VerificationReport :=
  match aget (entityKey entityType entityId) (chains st) with
  | None => {| vr_ok := true; started := 0; finished := 0; checkedEntries := 0; vr_failures := [] |}
  | Some c =>
      let es := entries c in
      let fs := verify_loop strict 0 None es in
      {| vr_ok := bool_decide (length fs = 0%nat); started := match es with [] => 0 | _ => 1 end;
         finished := Z.of_nat (length es); checkedEntries := Z.of_nat (length es); vr_failures := fs |}
  end.

Definition getEntityHistory (st : AuditService) (entityType entityId : string) : list AuditRecord :=
  match aget (entityKey entityType entityId) (chains st) with Some c => entries c | None => [] end.

Definition getChainHead (st : AuditService) (entityType entityId : string) : option string :=
  match aget (entityKey entityType entityId) (chains st) with Some c => lastHash c | None => None end.

Definition clear (st : AuditService) : AuditService := new_audit.

(** The test seam: [entries.splice(index, 1)]. *)
Definition removeEntryAt (st : AuditService) (entityType entityId : string) (index : Z) :
    AuditService * bool :=
  let key := entityKey entityType entityId in
  match aget key (chains st) with
  | None => (st, false)
  | Some c =>
      if (index <? 0) || (Z.of_nat (length (entries c)) <=? index) then (st, false)
      else
        let c' := {| lastHash := lastHash c; lastSequence := lastSequence c;
                     entries := take (Z.to_nat index) (entries c) ++ drop (S (Z.to_nat index)) (entries c);
                     expired := expired c |} in
        ({| chains := aput key c' (chains st); totalEntries := totalEntries st - 1;
            totalExpired := totalExpired st; droppedWrites := droppedWrites st |}, true)
  end.
End audit.

Inductive audit_op :=
| ARecord (w : AuditWrite) (uuid : string) (clock : Z)
| AClear.

Definition audit_step (sha256 : string → string) (st : AuditService) (o : audit_op) : AuditService :=
  match o with
  | ARecord w uuid clock => (record sha256 st w uuid clock).1
  | AClear => clear st
  end.

Definition audit_run (sha256 : string → string) (st : AuditService) (ops : list audit_op) : AuditService :=
  foldl (audit_step sha256) st ops.

(** ** Invariant *)

Section invariant.
Context (sha256 : string → string).

(** Consecutive entries, each hashed correctly and linked to the one before. *)
Fixpoint linked (prev : option string) (seq : Z) (es : list AuditRecord) : Prop :=
  match es with
  | [] => True
  | e :: es => ar_previousHash e = prev ∧ ar_sequence e = seq ∧ ar_hash e = computeEntryHash sha256 e ∧
               linked (Some (ar_hash e)) (seq + 1) es
  end.

Lemma linked_snoc prev seq es e :
  linked prev seq es →
  ar_previousHash e = match last es with Some l => Some (ar_hash l) | None => prev end →
  ar_sequence e = seq + Z.of_nat (length es) → ar_hash e = computeEntryHash sha256 e →
  linked prev seq (es ++ [e]).
Proof.
  revert prev seq. induction es as [|x es IH]; intros prev seq Hl Hp Hs Hh; simpl in *; [split; [done|]; split; [lia|done]|].
  destruct Hl as (H1 & H2 & H3 & Hl). split; [done|]. split; [done|]. split; [done|].
  apply IH; [done| |lia|done]. rewrite Hp, last_cons. by destruct (last es).
Qed.

Lemma linked_verifies strict i p es :
  linked (Some (ar_hash p)) (ar_sequence p + 1) es → verify_loop sha256 strict i (Some p) es = [].
Proof.
  revert i p. induction es as [|e es IH]; intros i p Hl; [done|]. destruct Hl as (H1 & H2 & H3 & Hl).
  cbn [verify_loop]. rewrite H1, H2, <- H3, !bool_decide_true, Z.eqb_refl by done. cbn.
  rewrite IH; [by destruct strict|]. by rewrite H2.
Qed.

Lemma chain_verifies strict es : linked None 1 es → verify_loop sha256 strict 0 None es = [].
Proof.
  destruct es as [|e es]; [done|]. intros (H1 & H2 & H3 & Hl). cbn [verify_loop].
  rewrite H2, <- H3, bool_decide_true by done. cbn. rewrite linked_verifies; [by destruct strict|]. by rewrite H2.
Qed.

Definition chain_ok (c : AuditChainState) : Prop :=
  linked None 1 (entries c) ∧ lastSequence c = Z.of_nat (length (entries c)) ∧
  lastHash c = ar_hash <$> last (entries c) ∧ Z.of_nat (length (entries c)) ≤ MAX_ENTRIES_PER_ENTITY.

Definition chain_size (kc : string * AuditChainState) : Z := Z.of_nat (length (entries kc.2)).

Definition audit_ok (st : AuditService) : Prop :=
  NoDup (chains st).*1 ∧ Forall (λ kc, chain_ok kc.2) (chains st) ∧
  totalEntries st = zsum (chain_size <$> chains st) ∧ totalEntries st ≤ MAX_TOTAL_ENTRIES.

Lemma new_audit_ok : audit_ok new_audit.
Proof. split; [constructor|]. split; [constructor|]. by split. Qed.

Lemma new_chain_ok : chain_ok new_chain.
Proof. by repeat split. Qed.

Lemma size_aput (k : string) c m :
  NoDup m.*1 →
  zsum (chain_size <$> aput k c m) =
  zsum (chain_size <$> m) - match aget k m with Some c0 => chain_size (k, c0) | None => 0 end + chain_size (k, c).
Proof.
  assert (∀ x l, zsum (x :: l) = x + zsum l) as Hz by done.
  induction m as [|[k1 c1] m IH]; intros Hnd; [cbn; lia|]. rewrite fmap_cons in Hnd.
  apply NoDup_cons in Hnd as [_ Hnd]. cbn [aput aget].
  destruct (decide (k = k1)) as [->|Hne]; rewrite !fmap_cons, !Hz; [lia|]. rewrite IH by done. lia.
Qed.

Lemma getOrCreate_ok st key st' c :
  audit_ok st → getOrCreateChain st key = (st', c) →
  audit_ok st' ∧ aget key (chains st') = Some c ∧ chain_ok c ∧ totalEntries st' = totalEntries st.
Proof.
  intros (Hnd & Hc & Ht & Hm). unfold getOrCreateChain. destruct (aget key (chains st)) as [c0|] eqn:E.
  - intros [= <- <-]. split; [done|]. split; [done|]. split; [|done].
    apply aget_Some_elem in E. rewrite Forall_forall in Hc. by apply (Hc (key, c0)).
  - intros [= <- <-]. cbn [chains totalEntries]. rewrite aget_aput, decide_True by done.
    split; [|split; [done|split; [apply new_chain_ok|done]]].
    split; [by apply aput_keys_NoDup|]. split; [apply Forall_aput; [done|apply new_chain_ok]|].
    cbn [chains totalEntries]. rewrite size_aput, E by done. unfold chain_size at 2. simpl. split; lia.
Qed.

Lemma record_ok st w uuid clock : audit_ok st → audit_ok (record sha256 st w uuid clock).1.
Proof.
  intros Hok. unfold record. repeat (case_decide; [done|]).
  destruct (getOrCreateChain st _) as [st' c] eqn:E.
  destruct (getOrCreate_ok _ _ _ _ Hok E) as (Hok' & Hget & (Hl & Hs & Hh & Hb) & Ht). cbn zeta.
  destruct ((MAX_ENTRIES_PER_ENTITY <=? _) || _) eqn:Ecap; [done|].
  apply orb_false_iff in Ecap as [Ee Et]. destruct Hok' as (Hnd & Hc & Hsum & Hm).
  split; [by apply aput_keys_NoDup|]. split.
  - apply Forall_aput; [done|]. cbn [snd]. split; [|split; [|split]]; cbn [entries lastSequence lastHash].
    + apply linked_snoc; [done| |cbn; lia|done]. cbn. rewrite Hh. by destruct (last (entries c)).
    + rewrite length_app. cbn [length ar_sequence with_hash draft]. lia.
    + by rewrite last_snoc.
    + rewrite length_app. cbn [length ar_sequence with_hash draft]. lia.
  - cbn [fst chains totalEntries]. rewrite size_aput, Hget by done.
    assert (∀ k c0, chain_size (k, c0) = Z.of_nat (length (entries c0))) as Hcs by done. rewrite !Hcs.
    cbn [entries]. rewrite length_app. cbn [length]. split; lia.
Qed.

Lemma audit_run_ok st ops : audit_ok st → audit_ok (audit_run sha256 st ops).
Proof.
  revert st. induction ops as [|o ops IH]; intros st Hst; [done|]. apply IH.
  destruct o; [by apply record_ok|apply new_audit_ok].
Qed.

Lemma audit_ok_verifies st t i strict : audit_ok st → vr_ok (verifyEntity sha256 st t i strict) = true.
Proof.
  intros (_ & Hc & _). unfold verifyEntity. destruct (aget _ _) as [c|] eqn:E; [|done]. cbn.
  apply aget_Some_elem in E. rewrite Forall_forall in Hc. destruct (Hc _ E) as [Hl _].
  by rewrite chain_verifies.
Qed.

(** What a write does to the history of any entity. *)
Lemma record_history st w uuid clock t i :
  let '(st', r) := record sha256 st w uuid clock in
  getEntityHistory st' t i =
    getEntityHistory st t i ++
    match r with
    | Recorded e => if decide (entityKey t i = entityKey (aw_entityType w) (aw_entityId w)) then [e] else []
    | Rejected _ => []
    end.
Proof.
  unfold record. repeat (case_decide; [by rewrite app_nil_r|]).
  destruct (getOrCreateChain st _) as [st' c] eqn:E.
  assert (∀ k, match aget k (chains st') with Some c => entries c | None => [] end =
               match aget k (chains st) with Some c => entries c | None => [] end) as Hsame.
  { unfold getOrCreateChain in E. destruct (aget _ (chains st)) eqn:Eg; injection E as <- <-; [done|].
    intros k. cbn. rewrite aget_aput. case_decide; [|done]. subst. by rewrite Eg. }
  assert (aget (entityKey (aw_entityType w) (aw_entityId w)) (chains st') = Some c) as Hget.
  { unfold getOrCreateChain in E. destruct (aget _ (chains st)) eqn:Eg; injection E as <- <-; [done|].
    cbn. by rewrite aget_aput, decide_True. }
  cbn zeta. destruct (_ || _).
  - unfold getEntityHistory. cbn [chains]. by rewrite Hsame, app_nil_r.
  - unfold getEntityHistory. cbn [chains]. rewrite aget_aput, <- Hsame.
    destruct (decide (entityKey t i = entityKey (aw_entityType w) (aw_entityId w))) as [E1|Hne].
    + by rewrite E1, Hget.
    + by rewrite app_nil_r.
Qed.
End invariant.

(** ** Properties *)

Definition no_clear (o : audit_op) : Prop := match o with AClear => False | _ => True end.

(** C30: the trail is append-only and always verifies.  Whatever is written to a
    fresh service, accepted or refused, every entity's history verifies strictly, the
    caps hold and the total is the number of entries kept; and later writes only
    extend a history at its end. *)
Theorem audit_trail_sound sha256 ops1 ops2 t i :
  let st := audit_run sha256 new_audit ops1 in
  vr_ok (verifyEntity sha256 st t i true) = true ∧
  Z.of_nat (length (getEntityHistory st t i)) ≤ MAX_ENTRIES_PER_ENTITY ∧
  totalEntries st = zsum (chain_size <$> chains st) ∧ totalEntries st ≤ MAX_TOTAL_ENTRIES ∧
  (Forall no_clear ops2 →
   getEntityHistory st t i `prefix_of` getEntityHistory (audit_run sha256 st ops2) t i).
Proof.
  intros st. pose proof (audit_run_ok sha256 _ ops1 (new_audit_ok sha256)) as Hok. fold st in Hok.
  split; [by apply audit_ok_verifies|]. destruct Hok as (_ & Hc & Ht & Hm).
  split; [|split; [done|split; [done|]]].
  - unfold getEntityHistory. destruct (aget _ _) as [c|] eqn:E; [|cbn; unfold MAX_ENTRIES_PER_ENTITY; lia].
    apply aget_Some_elem in E. rewrite Forall_forall in Hc. by destruct (Hc _ E) as (_ & _ & _ & ?).
  - clearbody st. clear Hc Ht Hm. intros H2. revert st.
    induction H2 as [|o ops2 Ho _ IH]; intros st; [done|]. cbn [audit_run foldl].
    etrans; [|apply IH]. destruct o as [w uuid clock|]; [|done]. cbn [audit_step].
    pose proof (record_history sha256 st w uuid clock t i) as Hr.
    destruct (record sha256 st w uuid clock) as [st' r]. cbn. rewrite Hr. by apply prefix_app_r.
Qed.

(** Dropping entries from the end of a history is not detected: no head is pinned
    outside the history. *)
Lemma truncation_undetected sha256 es1 es2 :
  linked sha256 None 1 (es1 ++ es2) → verify_loop sha256 true 0 None es1 = [].
Proof.
  intros Hl. apply chain_verifies. revert Hl. generalize (@None string), 1.
  induction es1 as [|e es1 IH]; intros p z; [done|]. intros (H1 & H2 & H3 & Hl).
  split; [done|]. split; [done|]. split; [done|]. by apply IH.
Qed.

(** The key of a chain does not separate the entity type from its id. *)
Lemma entityKey_ambiguous : entityKey "a:b" "c" = entityKey "a" "b:c".
Proof. reflexivity. Qed.
