(* ===== verification/IntentReceipts.v ===== *)
(** * Signed intent receipts

    Models [api/src/intent-receipts/intent-receipt.service.ts] and the types of
    [intent-receipt.types.ts]: the server's countersigned record of what happened to
    an administrator's signed intent, its life cycle, its reviews, its bounded store
    and its verification, over the audit trail of [AuditTrail].

    The Ed25519 keys of the Stellar SDK are arguments: [sign] is signing with the
    receipt key and encoding in base 64, [verify_sig] checking an encoded signature
    under a public key ([None] when the SDK throws), [publicKey] the receipt key.
    That a signature verifies is the hypothesis [signs].  Texts are hashed by
    [sha256].

    Calls are atomic with respect to each other, and the configured stale window is
    a whole number of milliseconds.  Not modelled: the constructor's choice of key,
    [getStats], the log lines. *)
From S2P Require Import Prelude JsDate Json JsonParse AuditTrail.

Definition INTENT_RECEIPT_VERSION : Z := 1.
Definition lf : string := String "010" EmptyString.
Definition INTENT_RECEIPT_SIGNING_DOMAIN : string := "verdant-intent-receipt:v1" +:+ lf.

Inductive IntentReceiptStatus := authorized | succeeded | failed | rejected.
#[export] Instance IntentReceiptStatus_eq_dec : EqDecision IntentReceiptStatus.
Proof. solve_decision. Defined.

Definition status_text (s : IntentReceiptStatus) : string :=
  match s with
  | authorized => "authorized" | succeeded => "succeeded" | failed => "failed" | rejected => "rejected"
  end.

(** [TERMINAL_STATUSES.has]. *)
Definition terminal (s : IntentReceiptStatus) : bool :=
  match s with authorized => false | _ => true end.

Record IntentReceiptOutcome := {
  httpStatus : Z;
  resultDigest : option string;
  errorCode : option string;
  errorMessage : option string;
  reconciledByReview : option string;
}.

Inductive ReviewDisposition := confirmed | disputed | reconciled_succeeded | reconciled_failed.
#[export] Instance ReviewDisposition_eq_dec : EqDecision ReviewDisposition.
Proof. solve_decision. Defined.

Definition disposition_text (d : ReviewDisposition) : string :=
  match d with
  | confirmed => "confirmed" | disputed => "disputed"
  | reconciled_succeeded => "reconciled_succeeded" | reconciled_failed => "reconciled_failed"
  end.

(** The dispositions a request may name, by their texts. *)
Definition disposition_of (s : string) : option ReviewDisposition :=
  if decide (s = "confirmed") then Some confirmed
  else if decide (s = "disputed") then Some disputed
  else if decide (s = "reconciled_succeeded") then Some reconciled_succeeded
  else if decide (s = "reconciled_failed") then Some reconciled_failed else None.

Record IntentReceiptReview := {
  reviewId : string;
  reviewer : string;
  disposition : ReviewDisposition;
  note : string;
  reviewedAt : string;
  rv_receiptSignature : string;
  rv_signature : string;
}.

Record IntentReceiptSigner := { sg_publicKey : string; sg_ephemeral : bool }.

Record IntentReceipt := {
  version : Z;
  receiptId : string;
  status : IntentReceiptStatus;
  action : string;
  target : string;
  chain : option string;
  nonce : option string;
  intentExpiry : option string;
  intentSignature : option string;
  intentDigest : option string;
  intentSigner : option string;
  actor : string;
  route : string;
  requestId : option string;
  requestDigest : string;
  authorizedAt : string;
  completedAt : option string;
  outcome : option IntentReceiptOutcome;
  rejectionReason : option string;
  auditHash : option string;
  signer : IntentReceiptSigner;
  signature : string;
  reviews : list IntentReceiptReview;
}.

(** [expiry] is the text of the number. *)
Record AdminIntent := {
  in_action : string;
  in_target : string;
  in_chain : string;
  in_expiry : string;
  in_nonce : string;
  in_signature : string;
}.

Record IntentRequestContext := {
  cx_actor : option json;
  cx_route : option json;
  cx_requestId : option json;
  cx_body : option json;
}.

Record IntentReceiptView := { vw_receipt : IntentReceipt; vw_stale : bool; vw_reviewed : bool }.

Record IntentReceiptVerification := {
  vv_receiptId : string;
  receiptSignatureValid : bool;
  intentSignatureValid : option bool;
  reviewSignaturesValid : bool;
  auditChainValid : bool;
  vv_ok : bool;
  problems : list string;
}.

Record IntentReceiptQuery := {
  iq_status : option IntentReceiptStatus;
  iq_action : option string;
  iq_target : option string;
  iq_actor : option string;
  iq_staleOnly : bool;
  iq_limit : option Z;
}.

Definition AUDIT_ENTITY_TYPE : string := "intent-receipt".
Definition DEFAULT_STALE_MS : Z := 15 * 60 * 1000.
Definition MAX_RECEIPTS : Z := 10000.
Definition MAX_LIST_LIMIT : Z := 500.
Definition MAX_FIELD_LENGTH : nat := 200.
Definition MAX_NOTE_LENGTH : nat := 2000.

(** What a handler may throw: an [HttpException], with its response, message and
    class, or something else, with its name. *)
Inductive thrown :=
| HttpExn (st : Z) (response : json) (message cls : string)
| OtherExn (name : option string).

Inductive receipt_exn :=
| ReceiptNotFound | BadDisposition | NoteRequired | NoteTooLong
| AlreadyTerminal (s : IntentReceiptStatus) | StillInFlight | OutcomeUnknown.

(** ** Pure helpers *)

Definition slice_field (s : string) : string := String.substring 0 MAX_FIELD_LENGTH s.

(** [boundedString(value)], [None] standing for [null]. *)
Definition boundedString (v : option json) : option string :=
  match v with
  | Some (JStr s) => Some (slice_field s)
  | Some (JNum t) => Some (slice_field t)
  | _ => None
  end.

(** An element in [array.join]. *)
Definition joined (v : json) : string := match v with JNull => EmptyString | v => js_String v end.

Definition describeError (e : thrown) : IntentReceiptOutcome :=
  match e with
  | HttpExn st response message cls =>
      let raw :=
        match response with
        | JStr s => s
        | _ => match prop response "message" with
               | Some (JArr l) => join "; " (joined <$> l)
               | Some JNull | None => message
               | Some v => js_String v
               end
        end in
      {| httpStatus := st; resultDigest := None; errorCode := Some cls;
         errorMessage := Some (slice_field raw); reconciledByReview := None |}
  | OtherExn name =>
      {| httpStatus := 500; resultDigest := None; errorCode := Some (default "Error" name);
         errorMessage := Some "Internal error"; reconciledByReview := None |}
  end.

(** [stripIntent(body)]. *)
Definition stripIntent (body : option json) : json :=
  match body with
  | None => JNull
  | Some (JObj l) => JObj (adel "adminIntent" l)
  | Some v => v
  end.

Definition intentMessage (action target chain expiry nonce : string) : string :=
  action +:+ "|" +:+ target +:+ "|" +:+ chain +:+ "|" +:+ expiry +:+ "|" +:+ nonce.

(** An optional property of an object literal: absent when [undefined]. *)
Definition opt_field (k : string) (x : option string) : list (string * json) :=
  match x with Some s => [(k, JStr s)] | None => [] end.

(** An outcome as the signing reads it.  The literal of [review] always has the key
    [errorCode], and [canonicalize] writes an undefined one as [null]; the other literals
    have only the keys they give a value. *)
Definition outcome_json (o : IntentReceiptOutcome) : json :=
  JObj ([("httpStatus", jint (httpStatus o))] ++ opt_field "resultDigest" (resultDigest o) ++
        match errorCode o, reconciledByReview o with
        | None, Some _ => [("errorCode", JNull)]
        | c, _ => opt_field "errorCode" c
        end ++ opt_field "errorMessage" (errorMessage o) ++
        opt_field "reconciledByReview" (reconciledByReview o)).

Definition signer_json (s : IntentReceiptSigner) : json :=
  JObj [("algorithm", JStr "ed25519"); ("publicKey", JStr (sg_publicKey s)); ("ephemeral", JBool (sg_ephemeral s))].

(** The signed body of a receipt: every field but its signature, reviews and audit
    link. *)
Definition body_json (r : IntentReceipt) : json :=
  JObj [ ("version", jint (version r)); ("receiptId", JStr (receiptId r));
         ("status", JStr (status_text (status r))); ("action", JStr (action r));
         ("target", JStr (target r)); ("chain", text_or_null (chain r)); ("nonce", text_or_null (nonce r));
         ("intentExpiry", match intentExpiry r with Some t => JNum t | None => JNull end);
         ("intentSignature", text_or_null (intentSignature r));
         ("intentDigest", text_or_null (intentDigest r)); ("intentSigner", text_or_null (intentSigner r));
         ("actor", JStr (actor r)); ("route", JStr (route r)); ("requestId", text_or_null (requestId r));
         ("requestDigest", JStr (requestDigest r)); ("authorizedAt", JStr (authorizedAt r));
         ("completedAt", text_or_null (completedAt r));
         ("outcome", match outcome r with Some o => outcome_json o | None => JNull end);
         ("rejectionReason", text_or_null (rejectionReason r)); ("signer", signer_json (signer r)) ].

Definition receiptMessage (r : IntentReceipt) : string :=
  INTENT_RECEIPT_SIGNING_DOMAIN +:+ stableStringify (body_json r).

Definition review_json (id : string) (v : IntentReceiptReview) : json :=
  JObj [ ("receiptId", JStr id); ("reviewId", JStr (reviewId v)); ("reviewer", JStr (reviewer v));
         ("disposition", JStr (disposition_text (disposition v))); ("note", JStr (note v));
         ("reviewedAt", JStr (reviewedAt v)); ("receiptSignature", JStr (rv_receiptSignature v)) ].

Definition reviewMessage (id : string) (v : IntentReceiptReview) : string :=
  INTENT_RECEIPT_SIGNING_DOMAIN +:+ "review" +:+ lf +:+ stableStringify (review_json id v).

Definition staleMs (configured : option Z) : Z :=
  match configured with Some z => if 0 <? z then z else DEFAULT_STALE_MS | None => DEFAULT_STALE_MS end.

(** ** The service *)

(** [receipts] is a [Map] in insertion order. *)
Record service := {
  receipts : list (string * IntentReceipt);
  evicted : Z;
  auditWriteFailures : Z;
  lateOutcomes : Z;
  audit : AuditService;
}.

Definition new_service : service :=
  {| receipts := []; evicted := 0; auditWriteFailures := 0; lateOutcomes := 0; audit := new_audit |}.

(** The times a call reads and the ids it draws. *)
Record env := {
  t_now : Z;
  t_base : Z;
  t_audit : Z;
  t_view : Z;
  id_new : string;
  id_record : string;
}.

Definition set_receipts (s : service) (m : list (string * IntentReceipt)) : service :=
  {| receipts := m; evicted := evicted s; auditWriteFailures := auditWriteFailures s;
     lateOutcomes := lateOutcomes s; audit := audit s |}.

Definition set_signature (r : IntentReceipt) (g : string) : IntentReceipt :=
  {| version := version r; receiptId := receiptId r; status := status r; action := action r;
     target := target r; chain := chain r; nonce := nonce r; intentExpiry := intentExpiry r;
     intentSignature := intentSignature r; intentDigest := intentDigest r; intentSigner := intentSigner r;
     actor := actor r; route := route r; requestId := requestId r; requestDigest := requestDigest r;
     authorizedAt := authorizedAt r; completedAt := completedAt r; outcome := outcome r;
     rejectionReason := rejectionReason r; auditHash := auditHash r; signer := signer r;
     signature := g; reviews := reviews r |}.

Definition set_auditHash (r : IntentReceipt) (h : option string) : IntentReceipt :=
  {| version := version r; receiptId := receiptId r; status := status r; action := action r;
     target := target r; chain := chain r; nonce := nonce r; intentExpiry := intentExpiry r;
     intentSignature := intentSignature r; intentDigest := intentDigest r; intentSigner := intentSigner r;
     actor := actor r; route := route r; requestId := requestId r; requestDigest := requestDigest r;
     authorizedAt := authorizedAt r; completedAt := completedAt r; outcome := outcome r;
     rejectionReason := rejectionReason r; auditHash := h; signer := signer r;
     signature := signature r; reviews := reviews r |}.

Definition set_outcome (r : IntentReceipt) (st : IntentReceiptStatus) (at_ : string)
    (o : IntentReceiptOutcome) : IntentReceipt :=
  {| version := version r; receiptId := receiptId r; status := st; action := action r;
     target := target r; chain := chain r; nonce := nonce r; intentExpiry := intentExpiry r;
     intentSignature := intentSignature r; intentDigest := intentDigest r; intentSigner := intentSigner r;
     actor := actor r; route := route r; requestId := requestId r; requestDigest := requestDigest r;
     authorizedAt := authorizedAt r; completedAt := Some at_; outcome := Some o;
     rejectionReason := rejectionReason r; auditHash := auditHash r; signer := signer r;
     signature := signature r; reviews := reviews r |}.

Definition push_review (r : IntentReceipt) (v : IntentReceiptReview) : IntentReceipt :=
  {| version := version r; receiptId := receiptId r; status := status r; action := action r;
     target := target r; chain := chain r; nonce := nonce r; intentExpiry := intentExpiry r;
     intentSignature := intentSignature r; intentDigest := intentDigest r; intentSigner := intentSigner r;
     actor := actor r; route := route r; requestId := requestId r; requestDigest := requestDigest r;
     authorizedAt := authorizedAt r; completedAt := completedAt r; outcome := outcome r;
     rejectionReason := rejectionReason r; auditHash := auditHash r; signer := signer r;
     signature := signature r; reviews := reviews r ++ [v] |}.

(** The first terminal receipt in insertion order is dropped. *)
Fixpoint evict_one (m : list (string * IntentReceipt)) : option (list (string * IntentReceipt)) :=
  match m with
  | [] => None
  | (id, r) :: m =>
      if terminal (status r) then Some m
      else (λ m', (id, r) :: m') <$> evict_one m
  end.

Definition store (s : service) (r : IntentReceipt) : service :=
  let '(m, e) :=
    if MAX_RECEIPTS <=? Z.of_nat (length (receipts s)) then
      match evict_one (receipts s) with
      | Some m => (m, evicted s + 1)
      | None => (receipts s, evicted s)
      end
    else (receipts s, evicted s) in
  {| receipts := aput (receiptId r) r m; evicted := e; auditWriteFailures := auditWriteFailures s;
     lateOutcomes := lateOutcomes s; audit := audit s |}.

Definition find (s : service) (id : string) : result receipt_exn IntentReceipt :=
  match aget id (receipts s) with Some r => Ok r | None => Err ReceiptNotFound end.

Section service.
Context (sha256 : string → string) (sign : string → string)
        (verify_sig : string → string → string → option bool) (other : string → option Z).
Context (theSigner : IntentReceiptSigner) (configured : option Z).

Definition isStale (r : IntentReceipt) (now : Z) : bool :=
  bool_decide (status r = authorized) &&
  match Date_parse other (authorizedAt r) with
  | Some t => staleMs configured <? now - t
  | None => false
  end.

Definition view (r : IntentReceipt) (now : Z) : IntentReceiptView :=
  {| vw_receipt := r; vw_stale := isStale r now;
     vw_reviewed := negb (bool_decide (length (reviews r) = 0%nat)) |}.

(** [sign(receipt)]. *)
Definition signed (r : IntentReceipt) : IntentReceipt := set_signature r (sign (receiptMessage r)).

Definition baseReceipt (act tgt : string) (ctx : IntentRequestContext) (e : env) : IntentReceipt :=
  {| version := INTENT_RECEIPT_VERSION; receiptId := id_new e; status := authorized;
     action := default "unknown" (boundedString (Some (JStr act)));
     target := default "unknown" (boundedString (Some (JStr tgt)));
     chain := None; nonce := None; intentExpiry := None; intentSignature := None;
     intentDigest := None; intentSigner := None;
     actor := default "anonymous" (boundedString (cx_actor ctx));
     route := default "unknown" (boundedString (cx_route ctx));
     requestId := boundedString (cx_requestId ctx);
     requestDigest := sha256 (stableStringify (stripIntent (cx_body ctx)));
     authorizedAt := iso_text (t_base e); completedAt := None; outcome := None;
     rejectionReason := None; auditHash := None; signer := theSigner; signature := EmptyString;
     reviews := [] |}.

(** [recordAudit] about a receipt that is in the store. *)
Definition recordAudit (s : service) (r : IntentReceipt) (act : string) (before after : json)
    (by_ : string) (e : env) : service * IntentReceipt :=
  let w := {| aw_entityType := AUDIT_ENTITY_TYPE; aw_entityId := receiptId r; aw_action := act;
              aw_actor := by_; aw_reason := None; aw_before := Some before; aw_after := Some after |} in
  let '(a, res) := record sha256 (audit s) w (id_record e) (t_audit e) in
  match res with
  | Recorded rec =>
      let r := set_auditHash r (Some (ar_hash rec)) in
      ({| receipts := aput (receiptId r) r (receipts s); evicted := evicted s;
          auditWriteFailures := auditWriteFailures s; lateOutcomes := lateOutcomes s; audit := a |}, r)
  | Rejected _ =>
      ({| receipts := receipts s; evicted := evicted s;
          auditWriteFailures := auditWriteFailures s + 1; lateOutcomes := lateOutcomes s; audit := a |}, r)
  end.

Definition status_json (st : IntentReceiptStatus) : json := JObj [("status", JStr (status_text st))].

Definition writeAudit (s : service) (r : IntentReceipt) (previous : option IntentReceiptStatus)
    (act : string) (e : env) : service * IntentReceipt :=
  recordAudit s r act
    (match previous with Some p => status_json p | None => JNull end)
    (JObj [ ("status", JStr (status_text (status r))); ("action", JStr (action r)); ("target", JStr (target r));
            ("intentDigest", text_or_null (intentDigest r)); ("requestDigest", JStr (requestDigest r));
            ("outcome", match outcome r with Some o => outcome_json o | None => JNull end);
            ("receiptSignature", JStr (signature r)) ])
    (actor r) e.

Definition authorize (s : service) (i : AdminIntent) (ctx : IntentRequestContext)
    (adminKey : option string) (e : env) : service * IntentReceipt :=
  let b := baseReceipt (in_action i) (in_target i) ctx e in
  let r := {| version := version b; receiptId := receiptId b; status := authorized; action := action b;
              target := target b; chain := Some (in_chain i); nonce := Some (in_nonce i);
              intentExpiry := Some (in_expiry i); intentSignature := Some (in_signature i);
              intentDigest := Some (sha256 (intentMessage (in_action i) (in_target i) (in_chain i) (in_expiry i) (in_nonce i)));
              intentSigner := adminKey; actor := actor b; route := route b; requestId := requestId b;
              requestDigest := requestDigest b; authorizedAt := authorizedAt b; completedAt := completedAt b;
              outcome := outcome b; rejectionReason := rejectionReason b; auditHash := auditHash b;
              signer := signer b; signature := signature b; reviews := reviews b |} in
  let r := signed r in
  writeAudit (store s r) r None "authorized" e.

Definition reject (s : service) (expectedAction expectedTarget : string) (rawIntent : option json)
    (error : thrown) (ctx : IntentRequestContext) (e : env) : service * IntentReceipt :=
  let raw := default JNull rawIntent in
  let b := baseReceipt expectedAction expectedTarget ctx e in
  let r := {| version := version b; receiptId := receiptId b; status := rejected; action := action b;
              target := target b; chain := boundedString (prop raw "chain");
              nonce := boundedString (prop raw "nonce");
              intentExpiry := match prop raw "expiry" with Some (JNum t) => Some t | _ => None end;
              intentSignature := None; intentDigest := None; intentSigner := None;
              actor := actor b; route := route b; requestId := requestId b;
              requestDigest := requestDigest b; authorizedAt := authorizedAt b;
              completedAt := Some (iso_text (t_now e)); outcome := Some (describeError error);
              rejectionReason := Some (default "intent rejected" (errorMessage (describeError error)));
              auditHash := auditHash b; signer := signer b; signature := signature b; reviews := reviews b |} in
  let r := signed r in
  writeAudit (store s r) r None "rejected" e.

(** What an action came to: [inl] its status and body, [inr] what it threw. *)
Definition outcome_of (result : Z * option json + thrown) : IntentReceiptOutcome :=
  match result with
  | inl (st, body) =>
      {| httpStatus := st; resultDigest := Some (sha256 (stableStringify (default JNull body)));
         errorCode := None; errorMessage := None; reconciledByReview := None |}
  | inr x => describeError x
  end.

Definition result_status (result : Z * option json + thrown) : IntentReceiptStatus :=
  match result with inl _ => succeeded | inr _ => failed end.

Definition complete (s : service) (id : string) (result : Z * option json + thrown) (e : env) :
    service * Prelude.result receipt_exn IntentReceipt :=
  match find s id with
  | Err x => (s, Err x)
  | Ok r =>
      if negb (bool_decide (status r = authorized)) then
        let s := {| receipts := receipts s; evicted := evicted s; auditWriteFailures := auditWriteFailures s;
                    lateOutcomes := lateOutcomes s + 1; audit := audit s |} in
        let '(s, r) := recordAudit s r "late_outcome" (status_json (status r))
          (JObj [("observed", JStr (status_text (result_status result))); ("outcome", outcome_json (outcome_of result))])
          (actor r) e in
        (s, Ok r)
      else
        let r := signed (set_outcome r (result_status result) (iso_text (t_now e)) (outcome_of result)) in
        let s := set_receipts s (aput id r (receipts s)) in
        let '(s, r) := writeAudit s r (Some authorized) (status_text (status r)) e in
        (s, Ok r)
  end.

Definition reconciling (d : ReviewDisposition) : bool :=
  match d with reconciled_succeeded | reconciled_failed => true | _ => false end.

(** The checks of [review], before anything changes. *)
Definition review_guard (r : IntentReceipt) (disp : string) (nt : option string) (now : Z) :
    Prelude.result receipt_exn (ReviewDisposition * string) :=
  match disposition_of disp, nt with
  | None, _ => Err BadDisposition
  | Some _, None => Err NoteRequired
  | Some d, Some n =>
      if decide (trim n = EmptyString) then Err NoteRequired
      else if (MAX_NOTE_LENGTH <? String.length n)%nat then Err NoteTooLong
      else if reconciling d then
        if negb (bool_decide (status r = authorized)) then Err (AlreadyTerminal (status r))
        else if negb (isStale r now) then Err StillInFlight
        else Ok (d, n)
      else if bool_decide (status r = authorized) && negb (bool_decide (d = disputed) && isStale r now)
      then Err OutcomeUnknown
      else Ok (d, n)
  end.

Definition review (s : service) (id who disp : string) (nt : option string) (e : env) :
    service * Prelude.result receipt_exn IntentReceiptView :=
  match (r ← find s id; dn ← review_guard r disp nt (t_base e); Ok (r, dn)) with
  | Err x => (s, Err x)
  | Ok (r, (d, n)) =>
      let v := {| reviewId := id_new e; reviewer := who; disposition := d; note := trim n;
                  reviewedAt := iso_text (t_now e); rv_receiptSignature := signature r;
                  rv_signature := EmptyString |} in
      let v := {| reviewId := reviewId v; reviewer := reviewer v; disposition := disposition v;
                  note := note v; reviewedAt := reviewedAt v; rv_receiptSignature := rv_receiptSignature v;
                  rv_signature := sign (reviewMessage (receiptId r) v) |} in
      let previous := status r in
      let r := push_review r v in
      let r :=
        if reconciling d then
          signed (set_outcome r (match d with reconciled_succeeded => succeeded | _ => failed end)
            (reviewedAt v)
            {| httpStatus := 0; resultDigest := None;
               errorCode := match d with reconciled_failed => Some "RECONCILED_FAILED" | _ => None end;
               errorMessage := None; reconciledByReview := Some (reviewId v) |})
        else r in
      let s := set_receipts s (aput id r (receipts s)) in
      let '(s, r) := recordAudit s r ("review:" +:+ disposition_text d) (status_json previous)
        (JObj [ ("status", JStr (status_text (status r))); ("reviewId", JStr (reviewId v));
                ("reviewSignature", JStr (rv_signature v)); ("receiptSignature", JStr (signature r)) ]) who e in
      (s, Ok (view r (t_view e)))
  end.

(** *** Queries *)

Definition get (s : service) (id : string) (now : Z) : Prelude.result receipt_exn IntentReceiptView :=
  r ← find s id; Ok (view r now).

Definition unwanted {A} `{EqDecision A} (want : option A) (have : A) : bool :=
  match want with Some w => negb (bool_decide (have = w)) | None => false end.

(** A text of a query that is set: the empty text asks for nothing. *)
Definition asked (x : option string) : option string :=
  match x with Some EmptyString => None | x => x end.

Definition wanted (q : IntentReceiptQuery) (r : IntentReceipt) (now : Z) : bool :=
  negb (unwanted (iq_status q) (status r)) && negb (unwanted (asked (iq_action q)) (action r)) &&
  negb (unwanted (asked (iq_target q)) (target r)) && negb (unwanted (asked (iq_actor q)) (actor r)) &&
  negb (iq_staleOnly q && negb (isStale r now)).

Fixpoint list_loop (q : IntentReceiptQuery) (now limit : Z) (rs : list IntentReceipt)
    (out : list IntentReceiptView) : list IntentReceiptView :=
  match rs with
  | [] => out
  | r :: rs =>
      if wanted q r now then
        let out := out ++ [view r now] in
        if limit <=? Z.of_nat (length out) then out else list_loop q now limit rs out
      else list_loop q now limit rs out
  end.

(** [Math.min(Math.max(1, Number(limit) || 100), MAX_LIST_LIMIT)]. *)
Definition list_limit (limit : option Z) : Z :=
  Z.min (Z.max 1 (match limit with Some 0 | None => 100 | Some z => z end)) MAX_LIST_LIMIT.

Definition list_ (s : service) (q : IntentReceiptQuery) (now : Z) : list IntentReceiptView :=
  list_loop q now (list_limit (iq_limit q)) (reverse ((receipts s).*2)) [].

(** *** Verification *)

Definition sig_ok (pk msg sg : string) : bool :=
  match verify_sig pk msg sg with Some b => b | None => false end.

Definition present (x : option string) : option string :=
  match x with Some EmptyString => None | x => x end.

(** The embedded intent, if it is all there. *)
Definition embedded (r : IntentReceipt) : option (string * string * string * string * string) :=
  g ← present (intentSignature r); k ← present (intentSigner r); n ← present (nonce r);
  c ← present (chain r); x ← intentExpiry r; Some (g, k, n, c, x).

Definition intent_check (r : IntentReceipt) : option bool * list string :=
  match embedded r with
  | Some (g, k, n, c, x) =>
      let valid := sig_ok k (intentMessage (action r) (target r) c x n) g in
      (Some valid, if valid then [] else ["embedded admin intent signature is invalid"])
  | None =>
      if bool_decide (status r = rejected) then (None, [])
      else (Some false, ["non-rejected receipt carries no admin intent signature"])
  end.

Definition review_valid (id : string) (v : IntentReceiptReview) : bool :=
  sig_ok (sg_publicKey theSigner) (reviewMessage id v) (rv_signature v).

Definition review_problems (r : IntentReceipt) : list string :=
  (λ v, "review " +:+ reviewId v +:+ " signature is invalid") <$>
  filter (λ v, review_valid (receiptId r) v = false) (reviews r).

(** [entry.after?.receiptSignature === receipt.signature]. *)
Definition anchors (r : IntentReceipt) (a : AuditRecord) : bool :=
  bool_decide (string_of (prop (ar_after a) "receiptSignature") = Some (signature r)).

Definition audit_check (s : service) (r : IntentReceipt) : bool * list string :=
  let report := verifyEntity sha256 (audit s) AUDIT_ENTITY_TYPE (receiptId r) true in
  let history := getEntityHistory (audit s) AUDIT_ENTITY_TYPE (receiptId r) in
  if bool_decide (history = []) then (false, ["no audit-chain history for this receipt"])
  else if negb (vr_ok report) then
    (false, ["audit chain verification failed: " +:+ join ", " (vf_reason <$> vr_failures report)])
  else if negb (existsb (anchors r) history) then
    (false, ["current receipt signature is not anchored in the audit chain"])
  else (true, []).

Definition verifyReceipt (s : service) (r : IntentReceipt) : IntentReceiptVerification :=
  let ours := bool_decide (sg_publicKey (signer r) = sg_publicKey theSigner) in
  let receiptOk := ours && sig_ok (sg_publicKey (signer r)) (receiptMessage r) (signature r) in
  let p1 := if receiptOk then []
            else [if ours then "receipt signature does not match receipt body"
                  else "receipt signed by a key other than the current receipt signing key"] in
  let '(intentOk, p2) := intent_check r in
  let p3 := review_problems r in
  let '(auditOk, p4) := audit_check s r in
  let ps := p1 ++ p2 ++ p3 ++ p4 in
  {| vv_receiptId := receiptId r; receiptSignatureValid := receiptOk; intentSignatureValid := intentOk;
     reviewSignaturesValid := bool_decide (p3 = []); auditChainValid := auditOk;
     vv_ok := bool_decide (ps = []); problems := ps |}.

Definition verify (s : service) (id : string) : Prelude.result receipt_exn IntentReceiptVerification :=
  r ← find s id; Ok (verifyReceipt s r).

Definition clear (s : service) : service :=
  {| receipts := []; evicted := 0; auditWriteFailures := 0; lateOutcomes := 0; audit := audit s |}.

(** *** Runs *)

Inductive op :=
| OAuthorize (i : AdminIntent) (ctx : IntentRequestContext) (adminKey : option string)
| OReject (expectedAction expectedTarget : string) (raw : option json) (error : thrown)
    (ctx : IntentRequestContext)
| OComplete (id : string) (result : Z * option json + thrown)
| OReview (id who disp : string) (nt : option string).

Definition step (s : service) (eo : env * op) : service :=
  match eo.2 with
  | OAuthorize i ctx k => (authorize s i ctx k eo.1).1
  | OReject a t raw x ctx => (reject s a t raw x ctx eo.1).1
  | OComplete id res => (complete s id res eo.1).1
  | OReview id who d n => (review s id who d n eo.1).1
  end.

Definition run (s : service) (ops : list (env * op)) : service := foldl step s ops.
End service.

(** ** The store *)

Lemma evict_one_sub m m' : evict_one m = Some m' → m' ⊆+ m.
Proof.
  revert m'. induction m as [|[k r] m IH]; intros m' H; [done|]. cbn [evict_one] in H.
  destruct (terminal (status r)).
  - injection H as ->. by constructor.
  - apply fmap_Some in H as (m1 & H1 & ->). constructor. by apply IH.
Qed.

Lemma evict_one_keys m m' : evict_one m = Some m' → NoDup m.*1 → NoDup m'.*1.
Proof.
  revert m'. induction m as [|[k r] m IH]; intros m' H Hn; [done|]. rewrite fmap_cons in Hn.
  apply NoDup_cons in Hn as [Hk Hn]. cbn [evict_one] in H. destruct (terminal (status r)).
  - by injection H as ->.
  - apply fmap_Some in H as (m1 & H1 & ->). rewrite fmap_cons. apply NoDup_cons. split; [|by apply IH].
    apply evict_one_sub in H1. intros (x & Ex & Hx)%list_elem_of_fmap. apply Hk. rewrite Ex.
    apply list_elem_of_fmap_2. by eapply elem_of_submseteq.
Qed.

(** A receipt in flight survives an eviction, and so does what else is found. *)
Lemma evict_one_get m m' k r :
  NoDup m.*1 → evict_one m = Some m' →
  (aget k m = Some r → status r = authorized → aget k m' = Some r) ∧
  (aget k m' = Some r → aget k m = Some r).
Proof.
  revert m'. induction m as [|[k1 r1] m IH]; intros m' Hn H; [done|]. rewrite fmap_cons in Hn.
  apply NoDup_cons in Hn as [Hk1 Hn]. cbn [evict_one] in H.
  destruct (terminal (status r1)) eqn:Et.
  - injection H as ->. cbn [aget]. destruct (decide (k = k1)) as [->|Hne]; [|done]. split.
    + intros [= ->] Hs. by rewrite Hs in Et.
    + intros Hg. by apply aget_Some_elem, (list_elem_of_fmap_2 fst) in Hg.
  - apply fmap_Some in H as (m1 & H1 & ->). cbn [aget]. destruct (decide (k = k1)); [done|]. by apply IH.
Qed.

Lemma store_get s r k x :
  NoDup (receipts s).*1 → k ≠ receiptId r →
  (aget k (receipts s) = Some x → status x = authorized → aget k (receipts (store s r)) = Some x) ∧
  (aget k (receipts (store s r)) = Some x → aget k (receipts s) = Some x).
Proof.
  intros Hn Hk. unfold store.
  destruct (MAX_RECEIPTS <=? _); [destruct (evict_one (receipts s)) as [m'|] eqn:E|]; cbn [receipts];
    rewrite aget_aput, decide_False by done; [|done..].
  by apply evict_one_get.
Qed.

Lemma store_new s r : aget (receiptId r) (receipts (store s r)) = Some r.
Proof.
  unfold store. destruct (MAX_RECEIPTS <=? _); [destruct (evict_one _)|]; cbn [receipts];
    by rewrite aget_aput, decide_True.
Qed.

Lemma store_keys s r : NoDup (receipts s).*1 → NoDup (receipts (store s r)).*1.
Proof.
  intros Hn. unfold store. destruct (MAX_RECEIPTS <=? _); [destruct (evict_one _) eqn:E|]; cbn [receipts];
    apply aput_keys_NoDup; try done. by eapply evict_one_keys.
Qed.

Lemma store_others s r :
  audit (store s r) = audit s ∧ auditWriteFailures (store s r) = auditWriteFailures s.
Proof. unfold store. by destruct (MAX_RECEIPTS <=? _); [destruct (evict_one _)|]. Qed.

(** ** Invariant *)

Section invariant.
Context (sha256 : string → string) (sign : string → string) (other : string → option Z).
Context (theSigner : IntentReceiptSigner) (configured : option Z).
Notation recordAudit := (recordAudit sha256).
Notation writeAudit := (writeAudit sha256).

Definition receipt_ok (r : IntentReceipt) : Prop :=
  signer r = theSigner ∧ signature r = sign (receiptMessage r) ∧
  Forall (λ v, rv_signature v = sign (reviewMessage (receiptId r) v)) (reviews r).

(** The audit trail has an entry with the signature of [r]. *)
Definition anchored (s : service) (r : IntentReceipt) : Prop :=
  ∃ a, a ∈ getEntityHistory (audit s) AUDIT_ENTITY_TYPE (receiptId r) ∧ anchors r a = true.

Definition sound (s : service) : Prop :=
  NoDup (receipts s).*1 ∧ audit_ok sha256 (audit s) ∧ 0 ≤ auditWriteFailures s ∧
  (∀ k r, aget k (receipts s) = Some r → k = receiptId r ∧ receipt_ok r).

Definition inv (s : service) : Prop :=
  sound s ∧
  (auditWriteFailures s = 0 → ∀ k r, aget k (receipts s) = Some r → anchored s r).

(** The same receipt up to its audit link. *)
Definition relinked (r r' : IntentReceipt) : Prop := ∃ h, r' = set_auditHash r h.

(** What [recordAudit] about the stored receipt [r] does. *)
Lemma recordAudit_spec s r act before after by_ e s' r' :
  sound s → aget (receiptId r) (receipts s) = Some r →
  recordAudit s r act before after by_ e = (s', r') →
  sound s' ∧ relinked r r' ∧ aget (receiptId r) (receipts s') = Some r' ∧
  (∀ k, k ≠ receiptId r → aget k (receipts s') = aget k (receipts s)) ∧
  (∀ x, anchored s x → anchored s' x) ∧
  (auditWriteFailures s' = 0 → auditWriteFailures s = 0 ∧
     (string_of (prop after "receiptSignature") = Some (signature r) → anchored s' r')).
Proof.
  intros (Hnd & Hok & Hf & Hall) Hget. unfold IntentReceipts.recordAudit. set (w := {| aw_entityType := _ |}).
  pose proof (record_ok sha256 (audit s) w (id_record e) (t_audit e) Hok) as Hok'.
  pose proof (λ i, record_history sha256 (audit s) w (id_record e) (t_audit e) AUDIT_ENTITY_TYPE i) as Hh.
  assert (∀ rec, (record sha256 (audit s) w (id_record e) (t_audit e)).2 = Recorded rec → ar_after rec = after) as Hafter.
  { intros rec. unfold record. repeat (case_decide; [done|]). destruct (getOrCreateChain _ _) as [st c].
    cbn zeta. destruct (_ || _); [done|]. by intros [= <-]. }
  destruct (record sha256 (audit s) w (id_record e) (t_audit e)) as [a [rec|why]].
  - specialize (Hafter rec eq_refl). cbn zeta. intros [= <- <-].
    assert (∀ x, anchored s x → ∃ y, y ∈ getEntityHistory a AUDIT_ENTITY_TYPE (receiptId x) ∧ anchors x y = true) as Hmono.
    { intros x (y & Hy & Hax). exists y. split; [|done]. rewrite Hh. by apply elem_of_app; left. }
    split; [|split; [by eexists|split; [|split; [|split; [exact Hmono|]]]]].
    + split; [by apply aput_keys_NoDup|]. split; [done|]. split; [done|]. cbn [receipts].
      intros k x. rewrite aget_aput. case_decide; [|apply Hall]. intros [= <-]. subst k.
      destruct (Hall _ _ Hget) as [_ Hr]. done.
    + cbn. by rewrite aget_aput, decide_True.
    + intros k Hk. cbn. by rewrite aget_aput, decide_False.
    + cbn [auditWriteFailures]. intros H0. split; [done|]. intros Hs. exists rec.
      cbn [audit]. split; [|unfold anchors; rewrite Hafter; cbn; by rewrite Hs, bool_decide_true].
      change (receiptId (set_auditHash r (Some (ar_hash rec)))) with (receiptId r).
      rewrite Hh. cbn [w aw_entityType aw_entityId]. rewrite decide_True by done.
      apply elem_of_app. right. by apply list_elem_of_singleton.
  - intros [= <- <-]. split; [|split; [by exists (auditHash r); destruct r|split; [done|split; [done|split]]]].
    + split; [done|]. split; [done|]. split; [cbn; lia|done].
    + intros x (y & Hy & Hax). exists y. split; [|done]. cbn. rewrite Hh. by rewrite app_nil_r.
    + cbn. lia.
Qed.

Lemma relinked_anchored s r r' : relinked r r' → anchored s r → anchored s r'.
Proof. by intros [h ->]. Qed.

(** An operation that stores [r] under its id and records it keeps the invariant,
    provided the entry carries the signature of [r] or [r] was anchored before. *)
Lemma recordAudit_inv s r act before after by_ e s' r' :
  sound s → aget (receiptId r) (receipts s) = Some r →
  recordAudit s r act before after by_ e = (s', r') →
  (auditWriteFailures s = 0 → ∀ k x, k ≠ receiptId r → aget k (receipts s) = Some x → anchored s x) →
  string_of (prop after "receiptSignature") = Some (signature r) ∨
    (auditWriteFailures s = 0 → anchored s r) →
  inv s'.
Proof.
  intros Hs Hg Hrec Hoth Hthis.
  destruct (recordAudit_spec _ _ _ _ _ _ _ _ _ Hs Hg Hrec) as (Hs' & Hrel & Hg' & Hne & Hmono & Hfail).
  split; [done|]. intros H0. destruct (Hfail H0) as [H0' Hanch]. intros k x Hx.
  destruct (decide (k = receiptId r)) as [->|Hk].
  - rewrite Hg' in Hx. injection Hx as <-. destruct Hthis as [Ht|Ht]; [by apply Hanch|].
    eapply relinked_anchored; [exact Hrel|]. by apply Hmono, Ht.
  - rewrite Hne in Hx by done. by eapply Hmono, Hoth.
Qed.

Lemma signed_ok r :
  signer r = theSigner → Forall (λ v, rv_signature v = sign (reviewMessage (receiptId r) v)) (reviews r) →
  receipt_ok (signed sign r).
Proof. intros Hs Hr. split; [done|]. by split. Qed.

(** Storing a new receipt. *)
Lemma store_sound s r : sound s → receipt_ok r → sound (store s r).
Proof.
  intros (Hnd & Hok & Hf & Hall) Hr. destruct (store_others s r) as [Ea Ef].
  split; [by apply store_keys|]. rewrite Ea, Ef. split; [done|]. split; [done|].
  intros k x Hx. destruct (decide (k = receiptId r)) as [->|Hk].
  - rewrite store_new in Hx. by injection Hx as <-.
  - apply Hall. by apply (store_get s r k x Hnd Hk).
Qed.

Lemma issue_inv s r prev act e :
  inv s → receipt_ok r → inv (writeAudit (store s r) r prev act e).1.
Proof.
  intros [Hs Ha] Hr. unfold IntentReceipts.writeAudit.
  destruct (IntentReceipts.recordAudit sha256 (store s r) r act _ _ (actor r) e) as [s' r'] eqn:E.
  eapply recordAudit_inv; [by apply store_sound|apply store_new|exact E| |by left].
  destruct (store_others s r) as [Ea Ef]. rewrite Ef. intros H0 k x Hk Hx.
  apply (store_get s r k x (proj1 Hs) Hk) in Hx. destruct (Ha H0 k x Hx) as (a & Hin & Han).
  exists a. by rewrite Ea.
Qed.

(** Replacing a stored receipt. *)
Lemma replace_sound s id r :
  sound s → receiptId r = id → receipt_ok r → sound (set_receipts s (aput id r (receipts s))).
Proof.
  intros (Hnd & Hok & Hf & Hall) Hid Hr. split; [by apply aput_keys_NoDup|]. split; [done|]. split; [done|].
  cbn [receipts set_receipts]. intros k x. rewrite aget_aput. case_decide; [|apply Hall].
  intros [= <-]. by subst.
Qed.

Lemma replace_inv s id r act before after by_ e :
  inv s → receiptId r = id → receipt_ok r →
  string_of (prop after "receiptSignature") = Some (signature r) →
  inv (recordAudit (set_receipts s (aput id r (receipts s))) r act before after by_ e).1.
Proof.
  intros [Hs Ha] Hid Hr Hsig.
  destruct (IntentReceipts.recordAudit sha256 _ r act before after by_ e) as [s' r'] eqn:E.
  eapply recordAudit_inv; [by apply replace_sound| |exact E| |by left].
  - cbn. by rewrite aget_aput, decide_True.
  - cbn [auditWriteFailures set_receipts receipts]. intros H0 k x Hk. rewrite aget_aput, decide_False by congruence.
    by apply Ha.
Qed.
End invariant.

Section runs.
Context (sha256 : string → string) (sign : string → string) (other : string → option Z).
Context (theSigner : IntentReceiptSigner) (configured : option Z).
Notation inv := (inv sha256 sign theSigner).
Notation step := (step sha256 sign other theSigner configured).
Notation run := (run sha256 sign other theSigner configured).

Lemma find_ok s id r : find s id = Ok r → aget id (receipts s) = Some r.
Proof. unfold find. destruct (aget id (receipts s)); [by intros [= ->]|done]. Qed.

Lemma complete_inv s id res e : inv s → inv (complete sha256 sign s id res e).1.
Proof.
  intros [Hs Ha]. pose proof Hs as (_ & _ & _ & Hall). unfold complete.
  destruct (find s id) as [r|x] eqn:Ef; [|done]. apply find_ok in Ef.
  destruct (Hall id r Ef) as [-> (Hsg & Hsig & Hrev)]. case_bool_decide as Hst; cbn [negb].
  - set (r' := signed sign _).
    pose proof (replace_inv sha256 sign theSigner s (receiptId r) r' (status_text (status r'))) as Hi.
    unfold writeAudit.
    match goal with |- context [recordAudit sha256 ?s0 r' ?a ?b ?c ?d e] =>
      specialize (Hi b c d e (conj Hs Ha) eq_refl); destruct (recordAudit sha256 s0 r' a b c d e) end.
    apply Hi; [|done]. by apply signed_ok.
  - set (s1 := {| receipts := receipts s; lateOutcomes := _ |}).
    match goal with |- context [recordAudit sha256 s1 r ?a ?b ?c ?d e] =>
      destruct (recordAudit sha256 s1 r a b c d e) as [s' r'] eqn:E end.
    eapply (recordAudit_inv sha256 sign theSigner s1 r); [done|done|exact E| |].
    + intros H0 k x _ Hx. by apply (Ha H0 k x Hx).
    + right. intros H0. by apply (Ha H0 (receiptId r) r Ef).
Qed.

Lemma review_inv s id who d n e : inv s → inv (review sha256 sign other configured s id who d n e).1.
Proof.
  intros [Hs Ha]. pose proof Hs as (_ & _ & _ & Hall). unfold review.
  destruct (find s id) as [r|x] eqn:Ef; [|done]. apply find_ok in Ef. cbn [mbind result_bind].
  destruct (review_guard _ _ _ _ _ _) as [[d' n']|x]; [|done]. cbn [mbind result_bind].
  destruct (Hall id r Ef) as [-> (Hsg & Hsig & Hrev)]. cbn zeta. set (v := {| rv_signature := sign _ |}).
  set (r1 := push_review r v).
  assert (receipt_ok sign theSigner r1) as H1.
  { split; [done|]. split; [done|]. apply Forall_app. split; [done|]. by constructor. }
  set (r2 := if reconciling d' then _ else r1).
  assert (receipt_ok sign theSigner r2 ∧ receiptId r2 = receiptId r) as [H2 E2].
  { unfold r2. destruct (reconciling d'); [|done]. split; [|done]. destruct H1 as (? & ? & ?). by apply signed_ok. }
  pose proof (replace_inv sha256 sign theSigner s (receiptId r) r2 ("review:" +:+ disposition_text d')) as Hi.
  match goal with |- context [recordAudit sha256 ?s0 r2 ?a ?b ?c ?x e] =>
    specialize (Hi b c x e (conj Hs Ha) E2 H2); destruct (recordAudit sha256 s0 r2 a b c x e) end.
  by apply Hi.
Qed.

Lemma receipt_step_inv s eo : inv s → inv (step s eo).
Proof.
  intros Hs. destruct eo as [e [i ctx k|a t raw x ctx|id res|id who d n]]; unfold IntentReceipts.step; cbn [fst snd].
  - apply issue_inv; [done|]. by apply signed_ok.
  - apply issue_inv; [done|]. by apply signed_ok.
  - by apply complete_inv.
  - by apply review_inv.
Qed.

Lemma run_inv s ops : inv s → inv (run s ops).
Proof. revert s. induction ops as [|o ops IH]; intros s Hs; [done|]. by apply IH, receipt_step_inv. Qed.

Lemma new_inv : inv new_service.
Proof. split; [|done]. split; [constructor|]. split; [apply new_audit_ok|]. done. Qed.

(** The operation is about another receipt: it neither names [id] nor issues it. *)
Definition about_other (id : string) (eo : env * op) : Prop :=
  match eo.2 with
  | OAuthorize _ _ _ | OReject _ _ _ _ _ => id_new eo.1 ≠ id
  | OComplete i _ | OReview i _ _ _ => i ≠ id
  end.

(** The operation does not issue [id]. *)
Definition not_reissued (id : string) (eo : env * op) : Prop :=
  match eo.2 with
  | OAuthorize _ _ _ | OReject _ _ _ _ _ => id_new eo.1 ≠ id
  | _ => True
  end.

(** The signed content of a receipt did not change, and its reviews only grew. *)
Definition same_record (r r' : IntentReceipt) : Prop :=
  body_json r' = body_json r ∧ status r' = status r ∧ signature r' = signature r ∧
  reviews r `prefix_of` reviews r'.

Lemma same_record_trans r1 r2 r3 : same_record r1 r2 → same_record r2 r3 → same_record r1 r3.
Proof. intros (? & ? & ? & ?) (? & ? & ? & ?). repeat split; try congruence. by etrans. Qed.

Lemma relinked_same r r' : relinked r r' → same_record r r'.
Proof. intros [h ->]. done. Qed.

(** Issuing a receipt with another id. *)
Lemma issue_get s r prev act e id :
  inv s → receipt_ok sign theSigner r → receiptId r ≠ id →
  let s' := (writeAudit sha256 (store s r) r prev act e).1 in
  (∀ x, aget id (receipts s) = Some x → status x = authorized → aget id (receipts s') = Some x) ∧
  (∀ x, aget id (receipts s') = Some x → aget id (receipts s) = Some x).
Proof.
  intros [Hs Ha] Hr Hne. unfold writeAudit.
  destruct (recordAudit sha256 (store s r) r act _ _ (actor r) e) as [s' r'] eqn:E.
  destruct (recordAudit_spec sha256 sign theSigner _ _ _ _ _ _ _ _ _ (store_sound _ _ _ _ _ Hs Hr) (store_new s r) E)
    as (_ & _ & _ & Hoth & _). cbn [fst].
  split; intros x; rewrite Hoth by congruence; apply (store_get s r id x (proj1 Hs)); congruence.
Qed.

(** Replacing a stored receipt and recording it. *)
Lemma replace_get s id r act before after by_ e :
  inv s → receiptId r = id → receipt_ok sign theSigner r →
  let s' := (recordAudit sha256 (set_receipts s (aput id r (receipts s))) r act before after by_ e).1 in
  (∀ k, k ≠ id → aget k (receipts s') = aget k (receipts s)) ∧
  ∃ r', aget id (receipts s') = Some r' ∧ same_record r r'.
Proof.
  intros [Hs Ha] <- Hr. destruct (recordAudit sha256 _ r act before after by_ e) as [s' r'] eqn:E.
  destruct (recordAudit_spec sha256 sign theSigner _ _ _ _ _ _ _ _ _ (replace_sound _ _ _ _ _ _ Hs eq_refl Hr)
    ltac:(cbn; by rewrite aget_aput, decide_True) E) as (_ & Hrel & Hget & Hoth & _). cbn [fst]. split.
  - intros k Hk. rewrite Hoth by done. cbn. by rewrite aget_aput, decide_False.
  - exists r'. split; [done|]. by apply relinked_same.
Qed.

Lemma complete_get s id res e :
  inv s →
  let s' := (complete sha256 sign s id res e).1 in
  (∀ k, k ≠ id → aget k (receipts s') = aget k (receipts s)) ∧
  (∀ r, aget id (receipts s) = Some r → status r ≠ authorized →
     ∃ r', aget id (receipts s') = Some r' ∧ same_record r r').
Proof.
  intros Hinv. pose proof Hinv as [Hs _]. pose proof Hs as (_ & _ & _ & Hall). unfold complete.
  destruct (find s id) as [r|x] eqn:Ef.
  2: { split; [done|]. intros r Hr. unfold find in Ef. by rewrite Hr in Ef. }
  apply find_ok in Ef. destruct (Hall id r Ef) as [-> (Hsg & Hsig & Hrev)]. case_bool_decide as Hst; cbn [negb].
  - split; [|intros r0 Hr0; rewrite Ef in Hr0; by injection Hr0 as <-]. set (r' := signed sign _).
    unfold writeAudit. pose proof (replace_get s (receiptId r) r' (status_text (status r'))) as Hi.
    match goal with |- context [recordAudit sha256 ?s0 r' ?a ?b ?c ?d e] =>
      specialize (Hi b c d e Hinv eq_refl); destruct (recordAudit sha256 s0 r' a b c d e) end.
    apply Hi. by apply signed_ok.
  - set (s1 := {| receipts := receipts s; lateOutcomes := _ |}).
    match goal with |- context [recordAudit sha256 s1 r ?a ?b ?c ?d e] =>
      destruct (recordAudit sha256 s1 r a b c d e) as [s' r'] eqn:E end.
    destruct (recordAudit_spec sha256 sign theSigner s1 r _ _ _ _ _ _ _ Hs Ef E) as (_ & Hrel & Hget & Hoth & _).
    split; [done|]. intros r0 Hr0 _. rewrite Ef in Hr0. injection Hr0 as <-. exists r'. split; [done|].
    by apply relinked_same.
Qed.

Lemma review_get s id who d n e :
  inv s →
  let s' := (review sha256 sign other configured s id who d n e).1 in
  (∀ k, k ≠ id → aget k (receipts s') = aget k (receipts s)) ∧
  (∀ r, aget id (receipts s) = Some r → status r ≠ authorized →
     ∃ r', aget id (receipts s') = Some r' ∧ same_record r r').
Proof.
  intros Hinv. pose proof Hinv as [Hs _]. pose proof Hs as (_ & _ & _ & Hall). unfold review.
  assert (∀ r, aget id (receipts s) = Some r → ∃ r', aget id (receipts s) = Some r' ∧ same_record r r') as Hid
    by (intros r Hr; by exists r).
  destruct (find s id) as [r|x] eqn:Ef; [|by split; auto]. apply find_ok in Ef. cbn [mbind result_bind].
  destruct (review_guard _ _ _ _ _ _) as [[d' n']|x] eqn:Eg; [|by split; auto]. cbn [mbind result_bind].
  destruct (Hall id r Ef) as [-> (Hsg & Hsig & Hrev)]. cbn zeta. set (v := {| rv_signature := sign _ |}).
  set (r1 := push_review r v).
  assert (receipt_ok sign theSigner r1) as H1.
  { split; [done|]. split; [done|]. apply Forall_app. split; [done|]. by constructor. }
  set (r2 := if reconciling d' then _ else r1).
  assert (receipt_ok sign theSigner r2 ∧ receiptId r2 = receiptId r) as [H2 E2].
  { unfold r2. destruct (reconciling d'); [|done]. split; [|done]. destruct H1 as (? & ? & ?). by apply signed_ok. }
  pose proof (replace_get s (receiptId r) r2 ("review:" +:+ disposition_text d')) as Hi.
  match goal with |- context [recordAudit sha256 ?s0 r2 ?a ?b ?c ?x e] =>
    specialize (Hi b c x e Hinv E2 H2); destruct (recordAudit sha256 s0 r2 a b c x e) end.
  destruct Hi as [Hoth (r' & Hr' & Hsame)]. split; [exact Hoth|]. intros r0 Hr0 Hterm.
  rewrite Ef in Hr0. injection Hr0 as <-. exists r'. split; [exact Hr'|].
  assert (reconciling d' = false) as Hd.
  { unfold review_guard in Eg. destruct (disposition_of d) as [d0|], n as [n0|]; try done.
    case_decide; [done|]. destruct (_ <? _)%nat; [done|]. destruct (reconciling d0) eqn:Er.
    - rewrite bool_decide_false in Eg by done. done.
    - destruct (_ && _); [done|]. by injection Eg as <- <-. }
  eapply same_record_trans; [|exact Hsame]. unfold r2. rewrite Hd. repeat split. by apply prefix_app_r.
Qed.

Lemma step_other s id r eo :
  inv s → aget id (receipts s) = Some r → status r = authorized → about_other id eo →
  aget id (receipts (step s eo)) = Some r.
Proof.
  intros Hs Hr Hst. destruct eo as [e [i ctx k|a t raw x ctx|i res|i who d n]]; unfold IntentReceipts.step, about_other;
    cbn [fst snd]; intros Ho.
  - apply issue_get; [done|by apply signed_ok|done|done|done].
  - apply issue_get; [done|by apply signed_ok|done|done|done].
  - destruct (complete_get s i res e Hs) as [Hoth _]. by rewrite Hoth by congruence.
  - destruct (review_get s i who d n e Hs) as [Hoth _]. by rewrite Hoth by congruence.
Qed.

Lemma step_final s id r r' eo :
  inv s → (∀ x, aget id (receipts s) = Some x → same_record r x) → status r ≠ authorized →
  not_reissued id eo → aget id (receipts (step s eo)) = Some r' → same_record r r'.
Proof.
  intros Hs Hr Hst. destruct eo as [e [i ctx k|a t raw x ctx|i res|i who d n]]; unfold IntentReceipts.step, not_reissued;
    cbn [fst snd]; intros Ho Hr'.
  - apply Hr. unfold authorize in Hr'. cbn zeta in Hr'. revert Hr'.
    match goal with |- context [store s ?r0] =>
      assert (receipt_ok sign theSigner r0) as Hr0 by (by apply signed_ok);
      by apply (issue_get s r0 _ _ e id Hs Hr0 Ho) end.
  - apply Hr. unfold reject in Hr'. cbn zeta in Hr'. revert Hr'.
    match goal with |- context [store s ?r0] =>
      assert (receipt_ok sign theSigner r0) as Hr0 by (by apply signed_ok);
      by apply (issue_get s r0 _ _ e id Hs Hr0 Ho) end.
  - destruct (complete_get s i res e Hs) as [Hoth Hthis]. destruct (decide (id = i)) as [->|Hne].
    2: { apply Hr. by rewrite <- Hoth. }
    destruct (aget i (receipts s)) as [x|] eqn:E.
    + destruct (Hr x eq_refl) as (Hb & Hsx & ? & ?). destruct (Hthis x eq_refl) as (r1 & E1 & H1); [congruence|].
      rewrite Hr' in E1. injection E1 as <-. eapply same_record_trans; [|exact H1]. done.
    + unfold complete, find in Hr'. rewrite E in Hr'. cbn in Hr'. congruence.
  - destruct (review_get s i who d n e Hs) as [Hoth Hthis]. destruct (decide (id = i)) as [->|Hne].
    2: { apply Hr. by rewrite <- Hoth. }
    destruct (aget i (receipts s)) as [x|] eqn:E.
    + destruct (Hr x eq_refl) as (Hb & Hsx & ? & ?). destruct (Hthis x eq_refl) as (r1 & E1 & H1); [congruence|].
      rewrite Hr' in E1. injection E1 as <-. eapply same_record_trans; [|exact H1]. done.
    + unfold review, find in Hr'. rewrite E in Hr'. cbn in Hr'. congruence.
Qed.
End runs.

(** ** What a signature covers *)

(** The part of a receipt its signature covers. *)
Definition signed_part (r : IntentReceipt) : IntentReceipt :=
  {| version := version r; receiptId := receiptId r; status := status r; action := action r;
     target := target r; chain := chain r; nonce := nonce r; intentExpiry := intentExpiry r;
     intentSignature := intentSignature r; intentDigest := intentDigest r; intentSigner := intentSigner r;
     actor := actor r; route := route r; requestId := requestId r; requestDigest := requestDigest r;
     authorizedAt := authorizedAt r; completedAt := completedAt r; outcome := outcome r;
     rejectionReason := rejectionReason r; auditHash := None; signer := signer r;
     signature := EmptyString; reviews := [] |}.

(** An expiry that is the text of a number. *)
Definition expiry_ok (r : IntentReceipt) : Prop :=
  match intentExpiry r with Some t => num_text_ok t = true | None => True end.

Lemma text_or_null_inj x y : text_or_null x = text_or_null y → x = y.
Proof. by destruct x, y; simpl; try done; intros [= ->]. Qed.

Lemma status_text_inj s1 s2 : status_text s1 = status_text s2 → s1 = s2.
Proof. by destruct s1, s2. Qed.

Lemma text_or_null_ok x : json_ok (text_or_null x) = true.
Proof. by destruct x. Qed.

Lemma outcome_json_ok o : json_ok (outcome_json o) = true.
Proof.
  destruct o as [h [d|] [c|] [m|] [v|]]; unfold outcome_json, opt_field; cbn [json_ok app fst snd forallb];
    rewrite jint_ok; reflexivity.
Qed.

Lemma body_ok r : expiry_ok r → json_ok (body_json r) = true.
Proof.
  intros Hx. unfold body_json. cbn [json_ok]. apply andb_true_iff. split; [reflexivity|].
  cbn [forallb snd]. rewrite jint_ok, !text_or_null_ok.
  assert (json_ok (match intentExpiry r with Some t => JNum t | None => JNull end) = true) as ->
    by (unfold expiry_ok in Hx; by destruct (intentExpiry r)).
  assert (json_ok (match outcome r with Some o => outcome_json o | None => JNull end) = true) as ->
    by (destruct (outcome r); [apply outcome_json_ok|done]).
  reflexivity.
Qed.

(** Equal canonical forms have equal properties. *)
Lemma canonical_prop j1 j2 k :
  canonicalize j1 = canonicalize j2 → k ≠ proto_key →
  canonicalize <$> prop j1 k = canonicalize <$> prop j2 k.
Proof. intros H Hk. rewrite <- !prop_canonicalize by done. by rewrite H. Qed.

Lemma outcome_inj o1 o2 : canonicalize (outcome_json o1) = canonicalize (outcome_json o2) → o1 = o2.
Proof.
  intros H. pose proof (λ k, canonical_prop _ _ k H) as Hp.
  assert (httpStatus o1 = httpStatus o2) as H1.
  { specialize (Hp "httpStatus" ltac:(done)). injection Hp as Hp. by apply Z_to_string_inj. }
  assert (∀ k f, k ≠ proto_key → (∀ o, prop (outcome_json o) k = JStr <$> f o) → f o1 = f o2) as Hf.
  { intros k f Hk Hpk. specialize (Hp k Hk). rewrite !Hpk in Hp. destruct (f o1), (f o2); simpl in Hp; congruence. }
  assert (resultDigest o1 = resultDigest o2 ∧ errorMessage o1 = errorMessage o2 ∧
    reconciledByReview o1 = reconciledByReview o2) as (H2 & H3 & H4).
  { split; [|split];
      [apply (Hf "resultDigest")|apply (Hf "errorMessage")|apply (Hf "reconciledByReview")];
      try done; by intros [h [d|] [c|] [m|] [v|]]. }
  assert (errorCode o1 = errorCode o2) as H5.
  { specialize (Hp "errorCode" ltac:(done)).
    destruct o1 as [? [?|] [?|] [?|] [?|]], o2 as [? [?|] [?|] [?|] [?|]]; simpl in *; congruence. }
  destruct o1, o2; simpl in *. by subst.
Qed.

Lemma signer_inj s1 s2 : canonicalize (signer_json s1) = canonicalize (signer_json s2) → s1 = s2.
Proof.
  intros H. pose proof (λ k, canonical_prop _ _ k H) as Hp.
  pose proof (Hp "publicKey" ltac:(done)) as H1. pose proof (Hp "ephemeral" ltac:(done)) as H2.
  destruct s1, s2. simpl in *. injection H1 as ->. injection H2 as ->. done.
Qed.

Lemma body_inj r1 r2 : canonicalize (body_json r1) = canonicalize (body_json r2) → signed_part r1 = signed_part r2.
Proof.
  intros H. pose proof (λ k, canonical_prop _ _ k H) as Hp.
  assert (∀ k (f : IntentReceipt → string), k ≠ proto_key → (∀ r, prop (body_json r) k = Some (JStr (f r))) → f r1 = f r2) as Hs.
  { intros k f Hk Hpk. specialize (Hp k Hk). rewrite !Hpk in Hp. simpl in Hp. congruence. }
  assert (∀ k (f : IntentReceipt → option string), k ≠ proto_key →
    (∀ r, prop (body_json r) k = Some (text_or_null (f r))) → f r1 = f r2) as Ho.
  { intros k f Hk Hpk. specialize (Hp k Hk). rewrite !Hpk in Hp. apply text_or_null_inj.
    destruct (f r1), (f r2); simpl in Hp; congruence. }
  assert (version r1 = version r2) as E1.
  { specialize (Hp "version" ltac:(done)). injection Hp as Hp. by apply Z_to_string_inj. }
  assert (status r1 = status r2) as E2 by (apply status_text_inj; by apply (Hs "status" (λ r, status_text (status r)))).
  assert (intentExpiry r1 = intentExpiry r2) as E3.
  { specialize (Hp "intentExpiry" ltac:(done)). simpl in Hp.
    destruct (intentExpiry r1), (intentExpiry r2); simpl in Hp; congruence. }
  assert (outcome r1 = outcome r2) as E4.
  { specialize (Hp "outcome" ltac:(done)). apply (f_equal (default JNull)) in Hp. simpl in Hp.
    destruct (outcome r1), (outcome r2); try done. by rewrite (outcome_inj _ _ Hp). }
  assert (signer r1 = signer r2) as E5.
  { apply signer_inj. specialize (Hp "signer" ltac:(done)). exact (f_equal (default JNull) Hp). }
  unfold signed_part. rewrite E1, E2, E3, E4, E5.
  rewrite (Hs "receiptId" receiptId), (Hs "action" action), (Hs "target" target), (Hs "actor" actor),
    (Hs "route" route), (Hs "requestDigest" requestDigest), (Hs "authorizedAt" authorizedAt) by done.
  rewrite (Ho "chain" chain), (Ho "nonce" nonce), (Ho "intentSignature" intentSignature),
    (Ho "intentDigest" intentDigest), (Ho "intentSigner" intentSigner), (Ho "requestId" requestId),
    (Ho "completedAt" completedAt), (Ho "rejectionReason" rejectionReason) by done.
  done.
Qed.

(** ** Properties *)

Section properties.
Context (sha256 : string → string) (sign : string → string)
        (verify_sig : string → string → string → option bool) (other : string → option Z).
Context (theSigner : IntentReceiptSigner) (configured : option Z).
Notation run := (run sha256 sign other theSigner configured).
Notation verifyReceipt := (verifyReceipt sha256 verify_sig theSigner).

(** C5: receipts verify.  After any sequence of operations, every receipt in the
    store verifies: its signature matches its content under the receipt key, so
    does each review's, and if no audit write was refused its history verifies and
    carries its current signature; so verification reports no problem unless the
    embedded intent's own signature is invalid or missing. *)
Theorem receipts_verify ops id r :
  (∀ m, verify_sig (sg_publicKey theSigner) m (sign m) = Some true) →
  let s := run new_service ops in
  aget id (receipts s) = Some r →
  let v := verifyReceipt s r in
  receiptSignatureValid v = true ∧ reviewSignaturesValid v = true ∧
  (auditWriteFailures s = 0 →
   auditChainValid v = true ∧ (intentSignatureValid v ≠ Some false → vv_ok v = true)).
Proof.
  intros Hsign s Hr v. pose proof (run_inv sha256 sign other theSigner configured _ ops (new_inv sha256 sign theSigner)) as [Hs Ha].
  fold s in Hs, Ha. destruct Hs as (_ & Hok & _ & Hall). destruct (Hall id r Hr) as [_ (Hsg & Hsig & Hrev)].
  assert (review_problems verify_sig theSigner r = []) as Hp3.
  { unfold review_problems. rewrite (filter_drop _ (reviews r)); [done|]. intros x Hx.
    rewrite Forall_forall in Hrev. unfold review_valid, sig_ok. by rewrite (Hrev x Hx), Hsign. }
  assert (sig_ok verify_sig (sg_publicKey theSigner) (receiptMessage r) (signature r) = true) as Hso
    by (unfold sig_ok; by rewrite Hsig, Hsign).
  unfold v, IntentReceipts.verifyReceipt. cbn zeta.
  rewrite Hp3, Hsg, (bool_decide_true (sg_publicKey theSigner = _)), Hso by done. cbn [andb].
  destruct (intent_check verify_sig r) as [io p2] eqn:Ei. destruct (audit_check sha256 s r) as [ao p4] eqn:Ea. cbn.
  split; [done|]. split; [done|]. intros H0.
  assert (ao = true ∧ p4 = []) as [-> ->].
  { unfold audit_check in Ea. rewrite audit_ok_verifies in Ea by done.
    destruct (Ha H0 id r Hr) as (a & Hin & Han). rewrite bool_decide_false in Ea by (intros E; rewrite E in Hin; by apply not_elem_of_nil in Hin).
    cbn [negb] in Ea. assert (existsb (anchors r) (getEntityHistory (audit s) AUDIT_ENTITY_TYPE (receiptId r)) = true) as Hex.
    { apply existsb_exists. exists a. split; [by apply list_elem_of_In|done]. }
    rewrite Hex in Ea. by injection Ea as <- <-. }
  split; [done|]. intros Hi. apply bool_decide_eq_true. rewrite app_nil_r.
  unfold intent_check in Ei. destruct (embedded r) as [[[[[g k] nn] c] x]|].
  - injection Ei as <- <-. by destruct (sig_ok verify_sig k _ g).
  - case_bool_decide; injection Ei as <- <-; (done || by destruct Hi).
Qed.

(** An outcome is recorded once.  A receipt in flight stays as it is until an
    operation names it: it is not evicted however full the store is; and once its
    status is final no operation, be it a late outcome or a review, changes what was
    signed, its status or its signature, and reviews are only added. *)
Theorem receipt_lifecycle ops1 ops2 id r :
  let s := run new_service ops1 in
  aget id (receipts s) = Some r →
  (status r = authorized → Forall (about_other id) ops2 → aget id (receipts (run s ops2)) = Some r) ∧
  (status r ≠ authorized → Forall (not_reissued id) ops2 →
   ∀ r', aget id (receipts (run s ops2)) = Some r' → same_record r r').
Proof.
  intros s Hr. assert (IntentReceipts.inv sha256 sign theSigner s) as Hs by apply run_inv, new_inv.
  clearbody s. split.
  - intros Hst HF. revert s Hr Hs. induction HF as [|eo ops Ho HF IH]; intros s Hr Hs; [done|].
    apply IH; [by apply step_other|by apply receipt_step_inv].
  - intros Hst HF r'. assert (∀ x, aget id (receipts s) = Some x → same_record r x) as Hx.
    { intros x E. rewrite Hr in E. by injection E as <-. }
    clear Hr. revert s Hx Hs. induction HF as [|eo ops Ho HF IH]; intros s Hx Hs; [apply Hx|].
    apply IH; [|by apply receipt_step_inv]. intros x. by apply step_final.
Qed.
End properties.

(** A signature covers the whole receipt.  Two receipts have the same signed
    message exactly when they agree on everything but the signature, the reviews and
    the audit link: status, intent, actor, request, times, outcome and signer. *)
Lemma receiptMessage_exact r1 r2 :
  expiry_ok r1 → expiry_ok r2 →
  receiptMessage r1 = receiptMessage r2 ↔ signed_part r1 = signed_part r2.
Proof.
  intros H1 H2. split.
  - intros H. unfold receiptMessage in H. apply str_app_inj, JSON_stringify_inj in H;
      [|by apply canonicalize_ok, body_ok..]. by apply body_inj.
  - intros H. assert (∀ r, receiptMessage (signed_part r) = receiptMessage r) as E by done.
    by rewrite <- (E r1), <- (E r2), H.
Qed.

(** ** A concrete service *)

Definition toy_sign (m : string) : string := "S:" +:+ m.
Definition toy_verify (pk m g : string) : option bool := Some (bool_decide (pk = "GK" ∧ g = toy_sign m)).
Definition toy_signer : IntentReceiptSigner := {| sg_publicKey := "GK"; sg_ephemeral := false |}.
Definition toy_hash (s : string) : string := "#" +:+ s.
Definition toy_date (s : string) : option Z := None.
Definition toy_ctx : IntentRequestContext :=
  {| cx_actor := Some (JStr "admin"); cx_route := Some (JStr "/pause"); cx_requestId := None; cx_body := None |}.
Definition toy_intent : AdminIntent :=
  {| in_action := "pause"; in_target := "bond:1"; in_chain := "testnet"; in_expiry := "1700000000000";
     in_nonce := "n1"; in_signature := "sig" |}.
Definition toy_env (t : Z) (i : string) : env :=
  {| t_now := t; t_base := t; t_audit := t; t_view := t; id_new := i; id_record := i |}.
Definition toy_ops : list (env * op) :=
  [ (toy_env 0 "r1", OAuthorize toy_intent toy_ctx (Some "GADMIN"));
    (toy_env 1000 "r2", OReject "pause" "bond:1" None (OtherExn None) toy_ctx);
    (toy_env 9000000 "v1", OReview "r1" "carol" "reconciled_failed" (Some " never ran ")) ].
Notation toy_run := (run toy_hash toy_sign toy_date toy_signer None).
Definition toy_receipt (ops : list (env * op)) : IntentReceipt :=
  default (baseReceipt toy_hash toy_signer "" "" toy_ctx (toy_env 0 ""))
    (aget "r1" (receipts (toy_run new_service ops))).

Lemma toy_signs m : toy_verify (sg_publicKey toy_signer) m (toy_sign m) = Some true.
Proof. unfold toy_verify. by rewrite bool_decide_true. Qed.

Lemma receipts_verify_witness :
  let s := toy_run new_service toy_ops in
  let v := verifyReceipt toy_hash toy_verify toy_signer s (toy_receipt toy_ops) in
  receiptSignatureValid v = true ∧ reviewSignaturesValid v = true.
Proof.
  intros s v.
  destruct (receipts_verify toy_hash toy_sign toy_verify toy_date toy_signer None toy_ops "r1" (toy_receipt toy_ops)
    toy_signs) as (H1 & H2 & _); [vm_compute; reflexivity|]. split; [exact H1|exact H2].
Defined.

Lemma receipt_lifecycle_witness :
  same_record (toy_receipt toy_ops) (toy_receipt (toy_ops ++ [(toy_env 9000001 "x", OComplete "r1" (inl (200, None)))])).
Proof.
  destruct (receipt_lifecycle toy_hash toy_sign toy_date toy_signer None toy_ops
    [(toy_env 9000001 "x", OComplete "r1" (inl (200, None)))] "r1" (toy_receipt toy_ops)) as [_ H].
  - vm_compute. reflexivity.
  - apply H; [vm_compute; discriminate|by repeat constructor|vm_compute; reflexivity].
Defined.

(** The intent's own message joins its fields with a bar, which fields may contain:
    one signature covers two different intents. *)
Lemma intentMessage_ambiguous :
  intentMessage "pause" "bond|a" "testnet" "1" "n" = intentMessage "pause|bond" "a" "testnet" "1" "n".
Proof. reflexivity. Qed.
