(* ===== verification/Imports.v ===== *)
(** * The import pipeline

    Models [api/src/imports/import-pipeline.service.ts] and the types of
    [import.interface.ts]: a file is previewed without writing anything, the accepted
    rows of the preview are committed, a commit that failed is retried, and what was
    written can be rolled back.

    The destination of an import is the class [ImportSink], over a store of any type;
    what [docs/import-pipeline.md] asks of a sink is the class [ImportSinkLaws].  States
    of records are JSON values, [null] for no record, compared as the code does, by
    their canonical text.

    Every awaited call of the sink is a turn: before it, other requests may have changed
    the store in any way, and the call works or throws before or after taking effect.
    While a commit or rollback runs its batch is locked by its status
    ([locked_batch_refuses]), so that other requests only appear as such changes of the
    store.  A preview is one step on the maps of the pipeline.  An operation reads the
    clock once.  The kill switch is an argument; the
    audit trail is that of [AuditTrail].  Snapshots returned to callers are values. *)
From S2P Require Import Prelude JsDate Json JsonParse Ndjson Csv AuditTrail.

(** ** Data *)

Inductive RowVerdict := accepted | quarantined.
#[export] Instance RowVerdict_eq_dec : EqDecision RowVerdict.
Proof. solve_decision. Defined.

Inductive RowAction := create | update | noop.
#[export] Instance RowAction_eq_dec : EqDecision RowAction.
Proof. solve_decision. Defined.

Definition verdict_text (v : RowVerdict) : string :=
  match v with accepted => "accepted" | quarantined => "quarantined" end.
Definition action_text (a : RowAction) : string :=
  match a with create => "create" | update => "update" | noop => "noop" end.

Definition NormalizedImportRow : Type := list (string * json).

Record PreviewRow := {
  rw_index : Z;
  rw_line : Z;
  rw_fingerprint : string;
  rw_verdict : RowVerdict;
  rw_reasons : list QuarantineReason;
  rw_key : option string;
  rw_action : option RowAction;
  rw_normalized : option NormalizedImportRow;
  rw_before : json;
  rw_after : json;
  rw_raw : option RawImportRow;
}.

Inductive ImportBatchStatus :=
| previewed | committing | committed | partially_committed | rolling_back | rolled_back
| rollback_incomplete | discarded | expired.
#[export] Instance ImportBatchStatus_eq_dec : EqDecision ImportBatchStatus.
Proof. solve_decision. Defined.

Definition batch_text (s : ImportBatchStatus) : string :=
  match s with
  | previewed => "previewed" | committing => "committing" | committed => "committed"
  | partially_committed => "partially_committed" | rolling_back => "rolling_back"
  | rolled_back => "rolled_back" | rollback_incomplete => "rollback_incomplete"
  | discarded => "discarded" | expired => "expired"
  end.

Record ImportTraceEntry := {
  te_batchId : string;
  te_rowIndex : Z;
  te_line : Z;
  te_fingerprint : string;
  te_key : string;
  te_action : RowAction;
  te_before : json;
  te_after : json;
  te_appliedAt : string;
  te_actor : string;
  te_rolledBackAt : option string;
}.

Inductive ConflictKind := Conflict | Failure | Residual.
#[export] Instance ConflictKind_eq_dec : EqDecision ConflictKind.
Proof. solve_decision. Defined.

Record RollbackConflict := { rc_kind : ConflictKind; rc_rowIndex : Z; rc_key : string; rc_message : string }.

Record ImportBatchSummary := {
  sm_total : Z; sm_accepted : Z; sm_quarantined : Z; sm_create : Z; sm_update : Z; sm_noop : Z;
  sm_applied : Z; sm_rolledBack : Z;
}.

Record ImportBatch := {
  ib_id : string;
  ib_kind : string;
  ib_status : ImportBatchStatus;
  ib_actor : string;
  ib_sourceName : option string;
  ib_format : string;
  ib_sourceSha256 : string;
  ib_previewHash : string;
  ib_duplicateOf : option string;
  ib_createdAt : string;
  ib_previewExpiresAt : Z;  (* kept as the time that its text is parsed back to *)
  ib_updatedAt : string;
  ib_rows : list PreviewRow;
  ib_trace : list ImportTraceEntry;
  ib_attempts : list (Z * Z);
  ib_lastError : option (Z * string * string);
  ib_rollbackConflicts : list RollbackConflict;
  ib_summary : ImportBatchSummary;
}.

Inductive ImportPipelineErrorCode :=
| NOT_FOUND | INVALID_REQUEST | INVALID_STATE | PREVIEW_MISMATCH | PREVIEW_EXPIRED
| DUPLICATE_IMPORT | DISABLED | CAPACITY.

(** The error a call ends with: one of the pipeline's own, or whatever a sink threw. *)
Inductive import_error := Refused (code : ImportPipelineErrorCode) (message : string) | Failed (message : string).

Definition PREVIEW_TTL_MS : Z := 30 * 60 * 1000.
Definition MAX_ROW_ATTEMPTS : Z := 3.
Definition MAX_BATCHES : Z := 200.
Definition TERMINAL : list ImportBatchStatus := [committed; rolled_back; discarded; expired].

Record SinkInspection := {
  si_action : RowAction;
  si_before : json;
  si_after : json;
  si_reviewReasons : list QuarantineReason;
}.

Record ApplyContext := { ac_batchId : string; ac_rowIndex : Z; ac_fingerprint : string; ac_actor : string }.

Definition applied_before (a b : ImportTraceEntry) : Prop := str_le (te_appliedAt a) (te_appliedAt b).
#[export] Instance applied_before_dec : RelDecision applied_before.
Proof. intros a b. apply str_le_dec. Defined.

(** ** Sinks *)

Class ImportSink (S : Type) := {
  sink_kind : string;
  sink_fields : list string;
  normalize : Z → RawImportRow → option NormalizedImportRow * list QuarantineReason;
  keyOf : NormalizedImportRow → string;
  inspect : S → NormalizedImportRow → SinkInspection;
  sink_apply : S → NormalizedImportRow → ApplyContext → S * json;
  current : S → string → json;
  revert : S → ImportTraceEntry → string → S;
}.

Definition sameState (a b : json) : Prop := stableStringify a = stableStringify b.
#[export] Instance sameState_dec a b : Decision (sameState a b).
Proof. unfold sameState. apply _. Defined.
#[export] Instance sameState_equiv : Equivalence sameState.
Proof. split; unfold sameState; congruence. Qed.

(** [predictable s row]: applying the row to [s] does what the sink says it does.
    [restorable before after]: the store can go back. *)
Class ImportSinkLaws (S : Type) `{ImportSink S} := {
  predictable : S → NormalizedImportRow → Prop;
  restorable : json → json → Prop;
  normalize_row now raw n : normalize now raw = (n, []) → ∃ row, n = Some row ∧ keyOf row ≠ EmptyString;
  inspect_before s row : sameState (si_before (inspect s row)) (current s (keyOf row));
  apply_result s row ctx : let '(s', after) := sink_apply s row ctx in after = current s' (keyOf row);
  apply_frame s row ctx k : k ≠ keyOf row → current (sink_apply s row ctx).1 k = current s k;
  apply_after s s' row ctx :
    predictable s' row → sameState (current s' (keyOf row)) (si_before (inspect s row)) →
    sameState (current (sink_apply s' row ctx).1 (keyOf row)) (si_after (inspect s row));
  predictable_frame s row ctx row' :
    keyOf row ≠ keyOf row' → predictable s row' → predictable (sink_apply s row ctx).1 row';
  revert_frame s entry actor k : k ≠ te_key entry → current (revert s entry actor) k = current s k;
  revert_before s entry actor :
    restorable (te_before entry) (te_after entry) →
    sameState (current s (te_key entry)) (te_after entry) →
    sameState (current (revert s entry actor) (te_key entry)) (te_before entry);
}.

(** ** The pipeline *)

Section pipeline.
Context {S : Type} `{ImportSink S}.
Context (sha256 : string → string).

(** How an awaited call of the sink goes: what others do to the store before it, and
    whether it throws. *)
Inductive call_outcome := Works | Throws (took_effect : bool) (e : string).
Record turn := { others : S → S; outcome : call_outcome }.
Definition world : Type := S * list turn.

Definition call {A} (p : S → S * A) (w : world) : world * result string A :=
  match w with
  | (s, []) => let '(s, a) := p s in ((s, []), Ok a)
  | (s, t :: ts) =>
      let s := others t s in
      match outcome t with
      | Works => let '(s, a) := p s in ((s, ts), Ok a)
      | Throws took e => ((if took then (p s).1 else s, ts), Err e)
      end
  end.

Definition ask {A} (q : S → A) : world → world * result string A := call (λ s, (s, q s)).

Record pipeline := {
  batches : list (string * ImportBatch);
  committedContent : list (string * string);
  contentHashes : list (string * string);
  audit : AuditService;
}.
Definition new_pipeline : pipeline :=
  {| batches := []; committedContent := []; contentHashes := []; audit := new_audit |}.

(** *** Bookkeeping on a batch *)

Definition quarantine (row : PreviewRow) (r : QuarantineReason) : PreviewRow :=
  {| rw_index := rw_index row; rw_line := rw_line row; rw_fingerprint := rw_fingerprint row;
     rw_verdict := quarantined; rw_reasons := rw_reasons row ++ [r]; rw_key := rw_key row;
     rw_action := rw_action row; rw_normalized := rw_normalized row; rw_before := rw_before row;
     rw_after := rw_after row; rw_raw := rw_raw row |}.

Definition is_accepted (r : PreviewRow) : bool := bool_decide (rw_verdict r = accepted).
Definition action_is (a : RowAction) (r : PreviewRow) : bool := bool_decide (rw_action r = Some a).
Definition is_rolled_back (t : ImportTraceEntry) : bool :=
  match te_rolledBackAt t with Some _ => true | None => false end.

Definition summary_of (rows : list PreviewRow) (trace : list ImportTraceEntry) : ImportBatchSummary :=
  let acc := filter (λ r, is_accepted r = true) rows in
  {| sm_total := Z.of_nat (length rows); sm_accepted := Z.of_nat (length acc);
     sm_quarantined := Z.of_nat (length rows) - Z.of_nat (length acc);
     sm_create := count (action_is create) acc; sm_update := count (action_is update) acc;
     sm_noop := count (action_is noop) acc;
     sm_applied := count (λ t, negb (is_rolled_back t)) trace; sm_rolledBack := count is_rolled_back trace |}.

(** The fields of a batch that operations change, refreshed by [touch]. *)
Definition changed (b : ImportBatch) (status : ImportBatchStatus) (rows : list PreviewRow)
    (trace : list ImportTraceEntry) (attempts : list (Z * Z)) (lastError : option (Z * string * string))
    (conflicts : list RollbackConflict) (now : Z) : ImportBatch :=
  {| ib_id := ib_id b; ib_kind := ib_kind b; ib_status := status; ib_actor := ib_actor b;
     ib_sourceName := ib_sourceName b; ib_format := ib_format b; ib_sourceSha256 := ib_sourceSha256 b;
     ib_previewHash := ib_previewHash b; ib_duplicateOf := ib_duplicateOf b; ib_createdAt := ib_createdAt b;
     ib_previewExpiresAt := ib_previewExpiresAt b; ib_updatedAt := iso_text now; ib_rows := rows;
     ib_trace := trace; ib_attempts := attempts; ib_lastError := lastError;
     ib_rollbackConflicts := conflicts; ib_summary := summary_of rows trace |}.

Definition touch (b : ImportBatch) (status : ImportBatchStatus) (now : Z) : ImportBatch :=
  changed b status (ib_rows b) (ib_trace b) (ib_attempts b) (ib_lastError b) (ib_rollbackConflicts b) now.

Definition expireIfStale (now : Z) (b : ImportBatch) : ImportBatch :=
  if bool_decide (ib_status b = previewed) && (ib_previewExpiresAt b <? now) then touch b expired now else b.

Definition set_batch (st : pipeline) (b : ImportBatch) : pipeline :=
  {| batches := aput (ib_id b) b (batches st); committedContent := committedContent st;
     contentHashes := contentHashes st; audit := audit st |}.

Definition getInternal (st : pipeline) (id : string) : result import_error ImportBatch :=
  match aget id (batches st) with
  | Some b => Ok b
  | None => Err (Refused NOT_FOUND ("no import batch " +:+ id))
  end.

Definition summary_json (m : ImportBatchSummary) : json :=
  JObj [ ("total", jint (sm_total m)); ("accepted", jint (sm_accepted m));
         ("quarantined", jint (sm_quarantined m)); ("create", jint (sm_create m));
         ("update", jint (sm_update m)); ("noop", jint (sm_noop m)); ("applied", jint (sm_applied m));
         ("rolledBack", jint (sm_rolledBack m)) ].

(** A refused write to the audit trail is only logged. *)
Definition recordAudit (st : pipeline) (b : ImportBatch) (action : string) (from : option ImportBatchStatus)
    (actor uuid : string) (now : Z) : pipeline :=
  {| batches := batches st; committedContent := committedContent st; contentHashes := contentHashes st;
     audit := (record sha256 (audit st)
       {| aw_entityType := "import_batch"; aw_entityId := ib_id b; aw_action := action; aw_actor := actor;
          aw_reason := (λ e, e.1.2) <$> ib_lastError b;
          aw_before := (λ s, JObj [("status", JStr (batch_text s))]) <$> from;
          aw_after := Some (JObj
            [ ("status", JStr (batch_text (ib_status b))); ("kind", JStr (ib_kind b));
              ("previewHash", JStr (ib_previewHash b)); ("sourceSha256", JStr (ib_sourceSha256 b));
              ("summary", summary_json (ib_summary b));
              ("rollbackConflicts", jint (Z.of_nat (length (ib_rollbackConflicts b)))) ]) |} uuid now).1 |}.

Definition requirePreviewHash (b : ImportBatch) (h : string) : result import_error unit :=
  throw_if (negb (bool_decide (h = ib_previewHash b)))
    (Refused PREVIEW_MISMATCH "previewHash does not match this batch; re-read the preview before acting on it").

(** *** Capacity *)

(** The first batch with the earliest change. *)
Fixpoint earliest (bs : list ImportBatch) : option ImportBatch :=
  match bs with
  | [] => None
  | b :: bs =>
      match earliest bs with
      | Some b' => if String.leb (ib_updatedAt b) (ib_updatedAt b') then Some b else Some b'
      | None => Some b
      end
  end.

(** What was expired stays expired when the call is refused. *)
Definition ensureCapacity (st : pipeline) (now : Z) : pipeline * result import_error unit :=
  if Z.of_nat (length (batches st)) <? MAX_BATCHES then (st, Ok tt)
  else
    let bs := (λ kb, (kb.1, expireIfStale now kb.2)) <$> batches st in
    match earliest (filter (λ b, ib_status b ∈ TERMINAL) bs.*2) with
    | None =>
        ({| batches := bs; committedContent := committedContent st; contentHashes := contentHashes st;
            audit := audit st |},
         Err (Refused CAPACITY (Z_to_string MAX_BATCHES +:+
           " batches still need commit, retry or rollback; resolve some before importing more")))
    | Some victim =>
        ({| batches := adel (ib_id victim) bs; committedContent := committedContent st;
            contentHashes := adel (ib_id victim) (contentHashes st); audit := audit st |}, Ok tt)
    end.

(** *** Preview *)

Record PreviewInput := {
  pi_kind : string;
  pi_format : string;
  pi_rows : option json;
  pi_csv : option json;
  pi_sourceName : option string;
  pi_actor : string;
}.

Definition json_row (i : nat) (row : json) : ParsedRow :=
  match row with
  | JObj l => {| pr_line := Z.of_nat i + 1; pr_row := Some l; pr_error := None |}
  | _ => {| pr_line := Z.of_nat i + 1; pr_row := None; pr_error := Some "row is not an object" |}
  end.

Definition parse_payload (i : PreviewInput) : result string (list ParsedRow * string) :=
  if bool_decide (pi_format i = "csv") then
    match pi_csv i with
    | Some (JStr csv) => rows ← parseCsv csv; Ok (rows, sha256 csv)
    | _ => Err "csv must be a string when format is csv"
    end
  else if bool_decide (pi_format i = "json") then
    match pi_rows i with
    | Some (JArr rows) =>
        _ ← throw_if (MAX_ROWS <? Z.of_nat (length rows)) ("more than " +:+ Z_to_string MAX_ROWS +:+ " rows");
        let serialized := JSON_stringify (JArr rows) in
        _ ← throw_if (MAX_PAYLOAD_BYTES <? byteLength serialized)
              ("payload exceeds " +:+ Z_to_string MAX_PAYLOAD_BYTES +:+ " bytes");
        Ok (imap json_row rows, sha256 serialized)
    | _ => Err "rows must be an array when format is json"
    end
  else Err "format must be json or csv".

Definition parse (i : PreviewInput) : result import_error (list ParsedRow * string) :=
  match parse_payload i with Ok r => Ok r | Err e => Err (Refused INVALID_REQUEST e) end.

Definition fingerprintRow (v : json) : string := sha256 (stableStringify v).

(** The checks of one row on its own. *)
Definition screen (now : Z) (p : ParsedRow) : list QuarantineReason * option NormalizedImportRow :=
  match pr_row p with
  | Some row =>
      match pr_error p with
      | Some e => ([{| qr_code := MALFORMED_ROW; qr_field := None; qr_message := e |}], None)
      | None =>
          match checkRowSafety row sink_fields with
          | [] => let '(n, reasons) := normalize now row in (reasons, n)
          | reasons => (reasons, None)
          end
      end
  | None =>
      ([{| qr_code := MALFORMED_ROW; qr_field := None;
           qr_message := default "row is not an object" (pr_error p) |}], None)
  end.

Definition stage_row (now : Z) (index : nat) (p : ParsedRow) : PreviewRow :=
  let '(reasons, normalized) := screen now p in
  {| rw_index := Z.of_nat index; rw_line := pr_line p;
     rw_fingerprint :=
       fingerprintRow (match normalized, pr_row p, pr_error p with
                       | Some n, _, _ => JObj n
                       | None, Some r, _ => JObj r
                       | None, None, Some e => JStr e
                       | None, None, None => JNull
                       end);
     rw_verdict := if bool_decide (reasons = []) then accepted else quarantined;
     rw_reasons := reasons; rw_key := keyOf <$> normalized; rw_action := None; rw_normalized := normalized;
     rw_before := JNull; rw_after := JNull;
     rw_raw := if bool_decide (reasons = []) then None else pr_row p |}.

(** [if (row.key)]: a key that is not empty. *)
Definition live_key (r : PreviewRow) : option string := truthy (rw_key r).
Definition key_count (rows : list PreviewRow) (k : string) : Z :=
  count (λ r, bool_decide (live_key r = Some k)) rows.

Definition quarantine_repeats (rows : list PreviewRow) : list PreviewRow :=
  (λ r, match live_key r with
        | Some k =>
            if 1 <? key_count rows k then
              quarantine r {| qr_code := DUPLICATE_IN_BATCH; qr_field := Some "key";
                qr_message := "key appears " +:+ Z_to_string (key_count rows k) +:+ " times in this batch" |}
            else r
        | None => r
        end) <$> rows.

Definition inspected (row : PreviewRow) (i : SinkInspection) : PreviewRow :=
  foldl quarantine
    {| rw_index := rw_index row; rw_line := rw_line row; rw_fingerprint := rw_fingerprint row;
       rw_verdict := rw_verdict row; rw_reasons := rw_reasons row; rw_key := rw_key row;
       rw_action := Some (si_action i); rw_normalized := rw_normalized row; rw_before := si_before i;
       rw_after := si_after i; rw_raw := rw_raw row |} (si_reviewReasons i).

Fixpoint inspect_rows (w : world) (rows : list PreviewRow) : world * result string (list PreviewRow) :=
  match rows with
  | [] => (w, Ok [])
  | row :: rows =>
      match rw_verdict row, rw_normalized row with
      | accepted, Some n =>
          match ask (λ s, inspect s n) w with
          | (w, Ok i) => let '(w, r) := inspect_rows w rows in (w, rs ← r; Ok (inspected row i :: rs))
          | (w, Err e) => (w, Err e)
          end
      | _, _ => let '(w, r) := inspect_rows w rows in (w, rs ← r; Ok (row :: rs))
      end
  end.

Definition content_hash (rows : list PreviewRow) : string :=
  sha256 (stableStringify (JObj
    [ ("kind", JStr sink_kind);
      ("rows", JArr ((λ r, JStr (rw_fingerprint r)) <$> filter (λ r, is_accepted r = true) rows)) ])).

Definition preview_hash (id : string) (rows : list PreviewRow) : string :=
  sha256 (stableStringify (JObj
    [ ("id", JStr id); ("kind", JStr sink_kind);
      ("rows", JArr ((λ r, JArr [jint (rw_index r); JStr (rw_fingerprint r); JStr (verdict_text (rw_verdict r));
                                 match rw_action r with Some a => JStr (action_text a) | None => JNull end])
                     <$> rows)) ])).

Definition new_batch (st : pipeline) (i : PreviewInput) (id sourceSha256 : string) (rows : list PreviewRow)
    (now : Z) : ImportBatch :=
  {| ib_id := id; ib_kind := sink_kind; ib_status := previewed; ib_actor := pi_actor i;
     ib_sourceName := pi_sourceName i; ib_format := pi_format i; ib_sourceSha256 := sourceSha256;
     ib_previewHash := preview_hash id rows;
     ib_duplicateOf := aget (content_hash rows) (committedContent st); ib_createdAt := iso_text now;
     ib_previewExpiresAt := now + PREVIEW_TTL_MS; ib_updatedAt := iso_text now; ib_rows := rows; ib_trace := [];
     ib_attempts := []; ib_lastError := None; ib_rollbackConflicts := [];
     ib_summary := summary_of rows [] |}.

(** [id] is the random id of the batch, [uuid] that of the audit entry. *)
Definition preview (st : pipeline) (w : world) (i : PreviewInput) (id uuid : string) (now : Z) :
    pipeline * world * result import_error ImportBatch :=
  if negb (bool_decide (pi_kind i = sink_kind)) then
    (st, w, Err (Refused INVALID_REQUEST ("unknown import kind " +:+ quoted_name (pi_kind i))))
  else if bool_decide (pi_actor i = EmptyString) then
    (st, w, Err (Refused INVALID_REQUEST "actor is required"))
  else
    match ensureCapacity st now with
    | (st, Err e) => (st, w, Err e)
    | (st, Ok _) =>
        match parse i with
        | Err e => (st, w, Err e)
        | Ok (parsed, sourceSha256) =>
            let rows := quarantine_repeats (imap (stage_row now) parsed) in
            match inspect_rows w rows with
            | (w, Err e) => (st, w, Err (Failed e))
            | (w, Ok rows) =>
                let b := new_batch st i id sourceSha256 rows now in
                let st := {| batches := aput id b (batches st); committedContent := committedContent st;
                             contentHashes := aput id (content_hash rows) (contentHashes st);
                             audit := audit st |} in
                (recordAudit st b "import.previewed" None (ib_actor b) uuid now, w, Ok b)
            end
        end
    end.

(** *** Commit *)

Definition trace_entry (b : ImportBatch) (row : PreviewRow) (after : json) (actor : string) (now : Z) :
    ImportTraceEntry :=
  {| te_batchId := ib_id b; te_rowIndex := rw_index row; te_line := rw_line row;
     te_fingerprint := rw_fingerprint row; te_key := default EmptyString (rw_key row);
     te_action := default update (rw_action row); te_before := rw_before row; te_after := after;
     te_appliedAt := iso_text now; te_actor := actor; te_rolledBackAt := None |}.

(** What the loop changes. *)
Record progress := {
  pg_done : list PreviewRow;  (* the rows passed, as they are now *)
  pg_trace : list ImportTraceEntry;
  pg_attempts : list (Z * Z);
  pg_lastError : option (Z * string * string);
}.

Definition attempts_of (p : progress) (row : PreviewRow) : Z := default 0 (aget (rw_index row) (pg_attempts p)).

Definition pass (p : progress) (row : PreviewRow) : progress :=
  {| pg_done := pg_done p ++ [row]; pg_trace := pg_trace p; pg_attempts := pg_attempts p;
     pg_lastError := pg_lastError p |}.
Definition traced (p : progress) (row : PreviewRow) (t : ImportTraceEntry) : progress :=
  {| pg_done := pg_done p ++ [row]; pg_trace := pg_trace p ++ [t]; pg_attempts := pg_attempts p;
     pg_lastError := pg_lastError p |}.
Definition failed (p : progress) (rows : list PreviewRow) (row : PreviewRow) (e : string) (now : Z) : progress :=
  {| pg_done := pg_done p ++ rows; pg_trace := pg_trace p;
     pg_attempts := aput (rw_index row) (attempts_of p row + 1) (pg_attempts p);
     pg_lastError := Some (rw_index row, e, iso_text now) |}.

Definition drift_reason : QuarantineReason :=
  {| qr_code := STATE_DRIFT; qr_field := Some "key";
     qr_message := "target record changed after preview; review and re-import" |}.
Definition apply_failed_reason : QuarantineReason :=
  {| qr_code := APPLY_FAILED; qr_field := None;
     qr_message := "failed to apply " +:+ Z_to_string MAX_ROW_ATTEMPTS +:+ " times; fix and re-import separately" |}.

(** One row that is neither applied nor skipped: the [try] block. *)
Definition commit_row (b : ImportBatch) (row : PreviewRow) (actor : string) (now : Z) (w : world) :
    world * result string (PreviewRow * option ImportTraceEntry) :=
  match ask (λ s, current s (default EmptyString (rw_key row))) w with
  | (w, Err e) => (w, Err e)
  | (w, Ok cur) =>
      if bool_decide (sameState cur (rw_before row)) then
        match call (λ s, sink_apply s (default [] (rw_normalized row))
                           {| ac_batchId := ib_id b; ac_rowIndex := rw_index row;
                              ac_fingerprint := rw_fingerprint row; ac_actor := actor |}) w with
        | (w, Err e) => (w, Err e)
        | (w, Ok after) => (w, Ok (row, Some (trace_entry b row after actor now)))
        end
      else if bool_decide (sameState cur (rw_after row)) then
        (w, Ok (row, Some (trace_entry b row cur actor now)))
      else (w, Ok (quarantine row drift_reason, None))
  end.

(** The loop over the rows; [skip] holds the indexes traced before it started.  The
    boolean is whether a row failed. *)
Fixpoint commit_rows (b : ImportBatch) (skip : list Z) (actor : string) (now : Z) (w : world) (p : progress)
    (rows : list PreviewRow) : world * progress * bool :=
  match rows with
  | [] => (w, p, false)
  | row :: rest =>
      if negb (is_accepted row) || action_is noop row || bool_decide (rw_index row ∈ skip) then
        commit_rows b skip actor now w (pass p row) rest
      else if MAX_ROW_ATTEMPTS <=? attempts_of p row then
        commit_rows b skip actor now w (pass p (quarantine row apply_failed_reason)) rest
      else
        match commit_row b row actor now w with
        | (w, Ok (row, Some t)) => commit_rows b skip actor now w (traced p row t) rest
        | (w, Ok (row, None)) => commit_rows b skip actor now w (pass p row) rest
        | (w, Err e) => (w, failed p rows row e now, true)
        end
  end.

Record CommitOptions := { co_previewHash : string; co_actor : string; co_allowDuplicate : bool }.

Definition content_of (st : pipeline) (id : string) : string := default EmptyString (aget id (contentHashes st)).

(** What is checked before the first await. *)
Definition commit_guard (st : pipeline) (b : ImportBatch) (o : CommitOptions) : result import_error unit :=
  if bool_decide (ib_status b = expired) then
    Err (Refused PREVIEW_EXPIRED
      "preview expired before commit; submit the file again to get a fresh preview")
  else if negb (bool_decide (ib_status b = previewed)) && negb (bool_decide (ib_status b = partially_committed)) then
    Err (Refused INVALID_STATE ("cannot commit a batch in status " +:+ batch_text (ib_status b)))
  else
    _ ← requirePreviewHash b (co_previewHash o);
    match truthy (aget (content_of st (ib_id b)) (committedContent st)) with
    | Some d =>
        throw_if (negb (bool_decide (d = ib_id b)) && negb (co_allowDuplicate o))
          (Refused DUPLICATE_IMPORT ("identical content was already committed by batch " +:+ d +:+
             "; pass allowDuplicate to import it again"))
    | None => Ok tt
    end.

Definition commit (st : pipeline) (w : world) (id : string) (o : CommitOptions) (off : bool) (uuid : string)
    (now : Z) : pipeline * world * result import_error ImportBatch :=
  if off then
    (st, w, Err (Refused DISABLED
      "import commits are disabled (IMPORT_PIPELINE=off); preview and rollback remain available"))
  else
    match getInternal st id with
    | Err e => (st, w, Err e)
    | Ok b =>
        let b := expireIfStale now b in
        let st := set_batch st b in
        match commit_guard st b o with
        | Err e => (st, w, Err e)
        | Ok _ =>
            let from := ib_status b in
            let p := {| pg_done := []; pg_trace := ib_trace b; pg_attempts := ib_attempts b;
                        pg_lastError := ib_lastError b |} in
            let '(w, p, fail) := commit_rows b (te_rowIndex <$> ib_trace b) (co_actor o) now w p (ib_rows b) in
            let b := changed b (if fail then partially_committed else committed) (pg_done p) (pg_trace p)
                       (pg_attempts p) (if fail then pg_lastError p else None) (ib_rollbackConflicts b) now in
            let st := set_batch st b in
            let st := if fail then st
                      else {| batches := batches st;
                              committedContent := aput (content_of st id) id (committedContent st);
                              contentHashes := contentHashes st; audit := audit st |} in
            (recordAudit st b (if fail then "import.partially_committed" else "import.committed") (Some from)
               (ib_actor b) uuid now, w, Ok b)
        end
    end.

(** *** Rollback *)

Definition undone (t : ImportTraceEntry) (now : Z) : ImportTraceEntry :=
  {| te_batchId := te_batchId t; te_rowIndex := te_rowIndex t; te_line := te_line t;
     te_fingerprint := te_fingerprint t; te_key := te_key t; te_action := te_action t;
     te_before := te_before t; te_after := te_after t; te_appliedAt := te_appliedAt t;
     te_actor := te_actor t; te_rolledBackAt := Some (iso_text now) |}.

Definition conflict_on (k : ConflictKind) (t : ImportTraceEntry) (m : string) : RollbackConflict :=
  {| rc_kind := k; rc_rowIndex := te_rowIndex t; rc_key := te_key t; rc_message := m |}.

Definition residual_message (restored before : json) : string :=
  "reverted, but store state " +:+ stableStringify restored +:+ " differs from pre-import " +:+
  stableStringify before.

(** One entry of the trace: the entry as it is afterwards, and what is reported. *)
Definition rollback_entry (t : ImportTraceEntry) (actor : string) (now : Z) (w : world) :
    world * (ImportTraceEntry * list RollbackConflict) :=
  match ask (λ s, current s (te_key t)) w with
  | (w, Err e) => (w, (t, [conflict_on Failure t e]))
  | (w, Ok cur) =>
      if bool_decide (sameState cur (te_before t)) then (w, (undone t now, []))
      else if negb (bool_decide (sameState cur (te_after t))) then
        (w, (t, [conflict_on Conflict t
          "record changed after import; left as is. Resolve manually, then re-run rollback"]))
      else
        match call (λ s, (revert s t actor, tt)) w with
        | (w, Err e) => (w, (t, [conflict_on Failure t e]))
        | (w, Ok _) =>
            match ask (λ s, current s (te_key t)) w with
            | (w, Err e) => (w, (undone t now, [conflict_on Failure t e]))
            | (w, Ok restored) =>
                (w, (undone t now,
                     if bool_decide (sameState restored (te_before t)) then []
                     else [conflict_on Residual t (residual_message restored (te_before t))]))
            end
        end
  end.

(** The trace, newest first; the result is in the same order. *)
Fixpoint rollback_entries (ts : list ImportTraceEntry) (actor : string) (now : Z) (w : world) :
    world * list ImportTraceEntry * list RollbackConflict :=
  match ts with
  | [] => (w, [], [])
  | t :: ts =>
      let '(w, (t, cs)) := if is_rolled_back t then (w, (t, [])) else rollback_entry t actor now w in
      let '(w, ts, cs') := rollback_entries ts actor now w in
      (w, t :: ts, cs ++ cs')
  end.

Definition rollback (st : pipeline) (w : world) (id previewHash actor uuid : string) (now : Z) :
    pipeline * world * result import_error ImportBatch :=
  match getInternal st id with
  | Err e => (st, w, Err e)
  | Ok b =>
      if negb (bool_decide (ib_status b ∈ [committed; partially_committed; rollback_incomplete])) then
        (st, w, Err (Refused INVALID_STATE ("cannot roll back a batch in status " +:+ batch_text (ib_status b))))
      else
        match requirePreviewHash b previewHash with
        | Err e => (st, w, Err e)
        | Ok _ =>
            let from := ib_status b in
            let kept := filter (λ c, rc_kind c = Residual) (ib_rollbackConflicts b) in
            let '(w, ts, cs) := rollback_entries (reverse (ib_trace b)) actor now w in
            let conflicts := kept ++ cs in
            let blocked := bool_decide (Exists (λ c, rc_kind c ≠ Residual) conflicts) in
            let b := changed b (if blocked then rollback_incomplete else rolled_back) (ib_rows b) (reverse ts)
                       (ib_attempts b) (ib_lastError b) conflicts now in
            let st := set_batch st b in
            let st := if blocked then st
                      else {| batches := batches st;
                              committedContent := adel (content_of st id) (committedContent st);
                              contentHashes := contentHashes st; audit := audit st |} in
            (recordAudit st b (if blocked then "import.rollback_incomplete" else "import.rolled_back") (Some from)
               (ib_actor b) uuid now, w, Ok b)
        end
  end.

(** *** The other operations *)

Definition discard (st : pipeline) (id actor uuid : string) (now : Z) :
    pipeline * result import_error ImportBatch :=
  match getInternal st id with
  | Err e => (st, Err e)
  | Ok b =>
      let b := expireIfStale now b in
      let st := set_batch st b in
      if negb (bool_decide (ib_status b = previewed)) && negb (bool_decide (ib_status b = expired)) then
        (st, Err (Refused INVALID_STATE ("cannot discard a batch in status " +:+ batch_text (ib_status b))))
      else
        let from := ib_status b in
        let b := touch b discarded now in
        (recordAudit (set_batch st b) b "import.discarded" (Some from) actor uuid now, Ok b)
  end.

Definition get (st : pipeline) (id : string) (now : Z) : pipeline * result import_error ImportBatch :=
  match getInternal st id with
  | Err e => (st, Err e)
  | Ok b => let b := expireIfStale now b in (set_batch st b, Ok b)
  end.

Definition list_batches (st : pipeline) (now : Z) : pipeline * list ImportBatch :=
  let bs := (λ kb, (kb.1, expireIfStale now kb.2)) <$> batches st in
  ({| batches := bs; committedContent := committedContent st; contentHashes := contentHashes st;
      audit := audit st |}, bs.*2).

Definition quarantined_rows (st : pipeline) (id : string) (now : Z) : pipeline * result import_error (list PreviewRow) :=
  let '(st, r) := get st id now in
  (st, b ← r; Ok (filter (λ r, rw_verdict r = quarantined) (ib_rows b))).

(** [sort] by [appliedAt] is stable. *)
Definition traceForKey (st : pipeline) (key : string) : list ImportTraceEntry :=
  merge_sort applied_before
    (mjoin ((λ kb, filter (λ t, te_key t = key) (ib_trace kb.2)) <$> batches st)).
End pipeline.

(** ** What a preview stages *)

Section preview.
Context {S : Type} `{ImportSinkLaws S}.
Context (sha256 : string → string).

Definition key_of (row : PreviewRow) : string := default EmptyString (rw_key row).

(** An accepted row says what it will write, and what it will replace; the sink asked for
    no review. *)
Definition row_wf (row : PreviewRow) : Prop :=
  rw_verdict row = accepted →
  ∃ n s, rw_normalized row = Some n ∧ rw_key row = Some (keyOf n) ∧ keyOf n ≠ EmptyString ∧
         rw_before row = si_before (inspect s n) ∧ rw_after row = si_after (inspect s n) ∧
         rw_action row = Some (si_action (inspect s n)) ∧ si_reviewReasons (inspect s n) = [].

Definition accepted_rows (rows : list PreviewRow) : list PreviewRow := filter (λ r, rw_verdict r = accepted) rows.

Definition rows_wf (rows : list PreviewRow) : Prop :=
  Forall row_wf rows ∧ NoDup (rw_index <$> rows) ∧ NoDup (key_of <$> accepted_rows rows).

(** A staged row, before the store is consulted. *)
Definition staged_ok (row : PreviewRow) : Prop :=
  rw_verdict row = accepted →
  rw_reasons row = [] ∧ ∃ n, rw_normalized row = Some n ∧ rw_key row = Some (keyOf n) ∧ keyOf n ≠ EmptyString.

Lemma stage_row_ok now i p : staged_ok (stage_row sha256 now i p).
Proof.
  unfold staged_ok, stage_row. destruct (screen now p) as [reasons n] eqn:E. cbn.
  case_bool_decide as Hr; [|done]. subst reasons. intros _. split; [done|].
  unfold screen in E. destruct (pr_row p) as [row|]; [|done]. destruct (pr_error p); [done|].
  destruct (checkRowSafety row sink_fields); [|done].
  destruct (normalize now row) as [n' rs] eqn:En. injection E as -> ->.
  destruct (normalize_row _ _ _ En) as (x & -> & Hx). eauto.
Qed.

Lemma repeats_ok rows :
  Forall staged_ok rows →
  Forall staged_ok (quarantine_repeats rows) ∧
  NoDup (key_of <$> accepted_rows (quarantine_repeats rows)) ∧
  rw_index <$> quarantine_repeats rows = rw_index <$> rows.
Proof.
  intros Hrows. split; [|split].
  - apply Forall_fmap. eapply Forall_impl; [exact Hrows|]. intros r Hr. cbn.
    destruct (live_key r); [|done]. by destruct (_ <? _).
  - unfold quarantine_repeats. set (f := λ r, match live_key r with Some k => _ | None => r end).
    assert (∀ r, r ∈ rows → rw_verdict (f r) = accepted →
      f r = r ∧ ∃ k, live_key r = Some k ∧ key_of r = k ∧ key_count rows k ≤ 1) as Hf.
    { intros r Hr Ha. unfold f in *. rewrite Forall_forall in Hrows.
      destruct (live_key r) as [k|] eqn:Ek.
      - destruct (Z.ltb_spec 1 (key_count rows k)); [done|]. split; [done|]. exists k. split; [done|].
        split; [|lia]. unfold live_key, truthy, key_of in *. destruct (rw_key r) as [[|]|]; by simplify_eq/=.
      - destruct (Hrows r Hr Ha) as (_ & n & _ & Hk & Hn). unfold live_key, truthy in Ek. rewrite Hk in Ek.
        by destruct (keyOf n). }
    clearbody f. clear Hrows.
    assert (∀ l l0, rows = l0 ++ l → NoDup (key_of <$> accepted_rows (f <$> l))) as HL; [|by apply (HL rows [])].
    induction l as [|r l IH]; intros l0 Hl; [constructor|]. unfold accepted_rows in *. rewrite fmap_cons, filter_cons.
    assert (rows = (l0 ++ [r]) ++ l) as Hl' by (by rewrite <- app_assoc).
    case_decide as Ha; [|by eapply IH]. rewrite fmap_cons. apply NoDup_cons. split; [|by eapply IH].
    destruct (Hf r) as (-> & k & Hk & -> & Hc); [rewrite Hl; apply elem_of_app; right; by left|done|].
    intros (r' & Ek' & (Ha' & (r'' & -> & Hr'')%list_elem_of_fmap)%list_elem_of_filter)%list_elem_of_fmap.
    destruct (Hf r'') as (Ef & k' & Hk'' & Ek'' & _); [rewrite Hl'; apply elem_of_app; by right|done|].
    rewrite Ef, Ek'' in Ek'. subst k'. revert Hc. unfold key_count. rewrite Hl, count_app, count_cons.
    rewrite bool_decide_eq_true_2 by done. apply list_elem_of_split in Hr'' as (l1 & l2 & ->).
    rewrite count_app, count_cons, bool_decide_eq_true_2 by done. unfold count. lia.
  - unfold quarantine_repeats. rewrite <- list_fmap_compose. apply list_fmap_ext. intros i r _. cbn.
    destruct (live_key r); [|done]. by destruct (_ <? _).
Qed.

Lemma foldl_quarantine row rs :
  let row' := foldl quarantine row rs in
  rw_index row' = rw_index row ∧ rw_key row' = rw_key row ∧ rw_normalized row' = rw_normalized row ∧
  rw_before row' = rw_before row ∧ rw_after row' = rw_after row ∧ rw_action row' = rw_action row ∧
  (rw_verdict row' = accepted ↔ rw_verdict row = accepted ∧ rs = []).
Proof.
  cbn zeta. induction rs as [|r rs IH] using rev_ind; [naive_solver|]. rewrite foldl_app. cbn.
  destruct IH as (-> & -> & -> & -> & -> & -> & _). split_and!; [done..|]. split; [done|].
  intros [_ [_ ?]%app_nil]. done.
Qed.

Lemma inspect_rows_ok (w w' : world) rows rows' :
  Forall staged_ok rows → inspect_rows w rows = (w', Ok rows') →
  Forall row_wf rows' ∧ rw_index <$> rows' = rw_index <$> rows ∧
  key_of <$> accepted_rows rows' `sublist_of` key_of <$> accepted_rows rows.
Proof.
  intros Hrows. revert w rows'. induction Hrows as [|row rows Hrow Hrows IH]; intros w rows' E; cbn in E.
  { injection E as <- <-. split; [constructor|done]. }
  assert (∀ w1 row', (let '(w2, r) := inspect_rows w1 rows in (w2, rs ← r; Ok (row' :: rs))) = (w', Ok rows') →
    row_wf row' → rw_index row' = rw_index row → key_of row' = key_of row →
    (rw_verdict row' = accepted → rw_verdict row = accepted) →
    Forall row_wf rows' ∧ rw_index <$> rows' = rw_index <$> row :: rows ∧
    key_of <$> accepted_rows rows' `sublist_of` key_of <$> accepted_rows (row :: rows)) as Hgo.
  { intros w1 row' E1 Hwf Hi Hk Hv. destruct (inspect_rows w1 rows) as [w2 [rs|]] eqn:Er; [|done].
    injection E1 as <- <-. destruct (IH _ _ Er) as (H1 & H2 & H3).
    split; [by constructor|]. split; [rewrite !fmap_cons; by rewrite Hi, H2|].
    unfold accepted_rows in *. rewrite !filter_cons. case_decide as H4.
    - rewrite decide_True by auto. rewrite !fmap_cons, Hk. by apply sublist_skip.
    - case_decide; [|done]. rewrite fmap_cons. by apply sublist_cons. }
  destruct (rw_verdict row) eqn:Ev; [|apply (Hgo _ _ E); [by intros ?; congruence|reflexivity|reflexivity|intros; congruence]].
  destruct (Hrow Ev) as (_ & n & Hn & Hk & Hne). rewrite Hn in E.
  destruct (ask (λ s, inspect s n) w) as [w1 [i|e]] eqn:Ea; [|done].
  assert (∃ s, i = inspect s n) as [s ->].
  { unfold ask, call in Ea. destruct w as [s [|[o []] ts]]; cbn in Ea; simplify_eq; eauto. }
  unfold inspected in E. destruct (foldl_quarantine
    {| rw_index := rw_index row; rw_line := rw_line row; rw_fingerprint := rw_fingerprint row;
       rw_verdict := rw_verdict row; rw_reasons := rw_reasons row; rw_key := rw_key row;
       rw_action := Some (si_action (inspect s n)); rw_normalized := rw_normalized row;
       rw_before := si_before (inspect s n); rw_after := si_after (inspect s n); rw_raw := rw_raw row |}
    (si_reviewReasons (inspect s n))) as (H1 & H2 & H3 & H4 & H5 & H6 & H7).
  apply (Hgo _ _ E); [|done|unfold key_of; by rewrite H2|done].
  intros Hacc. exists n, s. rewrite H2, H3, H4, H5, H6. apply H7 in Hacc as [_ Hrev]. done.
Qed.

Lemma staged_wf (w w' : world) now parsed rows :
  inspect_rows w (quarantine_repeats (imap (stage_row sha256 now) parsed)) = (w', Ok rows) → rows_wf rows.
Proof.
  intros E. set (rows0 := imap (stage_row sha256 now) parsed) in *.
  assert (Forall staged_ok rows0) as H1.
  { apply Forall_lookup. intros i r. unfold rows0. rewrite list_lookup_imap.
    intros (p & _ & ->)%fmap_Some. apply stage_row_ok. }
  destruct (repeats_ok rows0 H1) as (H2 & H3 & H4).
  destruct (inspect_rows_ok _ _ _ _ H2 E) as (H5 & H6 & H7). split; [done|]. split; [|by eapply sublist_NoDup].
  rewrite H6, H4. unfold rows0. assert (rw_index <$> imap (stage_row sha256 now) parsed =
    Z.of_nat <$> seq 0 (length parsed)) as ->.
  { apply list_eq. intros i. rewrite !list_lookup_fmap, list_lookup_imap.
    destruct (parsed !! i) as [p|] eqn:Ep.
    - rewrite lookup_seq_lt by (by eapply lookup_lt_Some). cbn. unfold stage_row. by destruct (screen now p).
    - rewrite lookup_seq_ge by (by apply lookup_ge_None). done. }
  apply NoDup_fmap_2; [apply _|apply NoDup_seq].
Qed.
End preview.

(** ** Commits *)

Section commit.
Context {S : Type} `{ImportSinkLaws S}.
Context (sha256 : string → string).

(** A row that a commit will try, given the rows traced before and the failed attempts. *)
Definition due (skip : list Z) (attempts : list (Z * Z)) (row : PreviewRow) : Prop :=
  rw_verdict row = accepted ∧ rw_action row ≠ Some noop ∧ rw_index row ∉ skip ∧
  default 0 (aget (rw_index row) attempts) < MAX_ROW_ATTEMPTS.

Definition traces (row : PreviewRow) (after : json) (ts : list ImportTraceEntry) : Prop :=
  ∃ t, t ∈ ts ∧ te_rowIndex t = rw_index row ∧ te_key t = key_of row ∧ te_before t = rw_before row ∧
       te_after t = after ∧ te_rolledBackAt t = None.

(** The sink does with the row what it says it does. *)
Definition foreseen (s : S) (row : PreviewRow) : Prop :=
  rw_verdict row = accepted → predictable s (default [] (rw_normalized row)).

(** [fin] is what the sink makes of the row where the record is as it is in [s]. *)
Definition written (s : S) (fin : json) (row : PreviewRow) : Prop :=
  ∃ s1 ctx, current s1 (key_of row) = current s (key_of row) ∧
    fin = current (sink_apply s1 (default [] (rw_normalized row)) ctx).1 (key_of row).

(** What should become of a row that is due, given the store when the commit starts
    ([s]) and the state of its record when it ends ([fin]). *)
Definition row_committed (s : S) (fin : json) (new : list ImportTraceEntry) (row row' : PreviewRow) : Prop :=
  let cur := current s (key_of row) in
  (sameState cur (rw_before row) ∧ written s fin row ∧ (foreseen s row → sameState fin (rw_after row)) ∧
   row' = row ∧ traces row fin new) ∨
  (¬ sameState cur (rw_before row) ∧ sameState cur (rw_after row) ∧ fin = cur ∧ row' = row ∧ traces row cur new) ∨
  (¬ sameState cur (rw_before row) ∧ ¬ sameState cur (rw_after row) ∧ fin = cur ∧ row' = quarantine row drift_reason).

Lemma traces_mono row after ts1 ts2 ts3 : traces row after ts2 → traces row after (ts1 ++ ts2 ++ ts3).
Proof. intros (t & Ht & Hr). exists t. split; [|done]. rewrite !elem_of_app. auto. Qed.

Lemma row_committed_mono s fin new1 new new2 row row' :
  row_committed s fin new row row' → row_committed s fin (new1 ++ new ++ new2) row row'.
Proof.
  unfold row_committed. cbn zeta. intros [(?&?&?&?&?)|[(?&?&?&?&?)|?]]; [left|right; left|by right; right];
    split_and!; eauto using traces_mono.
Qed.

(** The same, from an earlier store with the same record. *)
Lemma row_committed_before s s1 fin new row row' :
  current s1 (key_of row) = current s (key_of row) → (foreseen s row → foreseen s1 row) →
  row_committed s1 fin new row row' → row_committed s fin new row row'.
Proof. unfold row_committed, written. cbn zeta. intros -> Hf [(?&?&?&?&?)|?]; [left; split_and!; auto|by right]. Qed.

(** One row, with nobody else around. *)
Lemma commit_row_calm b row actor now s :
  row_wf row → rw_verdict row = accepted →
  ∃ s' row' t, commit_row b row actor now (s, []) = ((s', []), Ok (row', t)) ∧
    row_committed s (current s' (key_of row)) (option_list t) row row' ∧
    (∀ k, k ≠ key_of row → current s' k = current s k) ∧
    (∀ r, key_of r ≠ key_of row → row_wf r → foreseen s r → foreseen s' r).
Proof.
  intros Hwf Ha. destruct (Hwf Ha) as (n & s0 & Hn & Hk & Hne & Hb & Hf & _).
  unfold row_committed, written, foreseen, commit_row, ask. cbn zeta. cbn [call]. rewrite Hn in *. cbn [default from_option id] in *.
  assert (key_of row = keyOf n) as Ek by (unfold key_of; by rewrite Hk).
  fold (key_of row). rewrite Ek. case_bool_decide as H1.
  - cbn [call]. set (ctx := {| ac_batchId := _ |}). pose proof (apply_result s n ctx) as Hr.
    pose proof (apply_after s0 s n ctx) as Haf. pose proof (apply_frame s n ctx) as Hfr.
    pose proof (predictable_frame s n ctx) as Hpf.
    destruct (sink_apply s n ctx) as [s' after] eqn:Ea. cbn [fst] in *. subst after.
    eexists s', row, (Some _). split; [reflexivity|]. split; [|split; [done|]].
    + left. split; [done|]. split; [exists s, ctx; split; [done|]; by rewrite Ea|].
      split; [intros Hp; rewrite Hb in H1; rewrite Hf; by apply Haf; [apply Hp|]|]. split; [done|].
      eexists. split; [apply list_elem_of_here|]. unfold key_of. by rewrite Hk.
    + intros r Hkr Hwr Hpr Har. destruct (Hwr Har) as (m & _ & Hm & Hmk & _).
      specialize (Hpr Har). rewrite Hm in *. apply Hpf; [|done]. intros E. apply Hkr. unfold key_of. by rewrite Hmk.
  - case_bool_decide as H2.
    + eexists s, row, (Some _). split; [reflexivity|]. split; [|done]. right; left. split_and!; try done.
      eexists. split; [apply list_elem_of_here|]. unfold key_of. by rewrite Hk.
    + eexists s, _, None. split; [reflexivity|]. split; [|done]. by right; right.
Qed.

(** What the loop over [rows] does, from [s] and [p] to [s'] and [p']. *)
Definition rows_committed (skip : list Z) (s : S) (p : progress) (rows : list PreviewRow) (s' : S) (p' : progress) :
    Prop :=
  ∃ rows' new, pg_done p' = pg_done p ++ rows' ∧ pg_trace p' = pg_trace p ++ new ∧
    Forall2 (λ row row', due skip (pg_attempts p) row →
      row_committed s (current s' (key_of row)) new row row') rows rows' ∧
    (∀ k, (∀ row, row ∈ rows → due skip (pg_attempts p) row → key_of row ≠ k) → current s' k = current s k).

Lemma rows_committed_pass skip s p row row1 rows s' p' :
  ¬ due skip (pg_attempts p) row → rows_committed skip s (pass p row1) rows s' p' →
  rows_committed skip s p (row :: rows) s' p'.
Proof.
  intros Hd (rows' & new & Ed & Et & HF & Hfr). exists (row1 :: rows'), new. rewrite Ed. cbn. rewrite <- app_assoc.
  split; [done|]. split; [done|]. split; [by constructor|]. intros k Hk. apply Hfr. intros r Hr. apply Hk. by right.
Qed.

Lemma rows_committed_step skip s s1 p row row1 t rows s' p' :
  row_committed s (current s1 (key_of row)) (option_list t) row row1 →
  due skip (pg_attempts p) row → (∀ k, k ≠ key_of row → current s1 k = current s k) →
  (∀ r, r ∈ rows → key_of r ≠ key_of row → foreseen s r → foreseen s1 r) →
  (∀ r, r ∈ rows → rw_verdict r = accepted → key_of r ≠ key_of row) →
  rows_committed skip s1 (match t with Some t => traced p row1 t | None => pass p row1 end) rows s' p' →
  rows_committed skip s p (row :: rows) s' p'.
Proof.
  intros Hrc Hdue Hfr1 Hfor Hdist (rows' & new & Ed & Et & HF & Hfr).
  assert (pg_attempts (match t with Some t => traced p row1 t | None => pass p row1 end) = pg_attempts p) as Ea
    by (by destruct t).
  rewrite Ea in HF, Hfr. exists (row1 :: rows'), (option_list t ++ new).
  split; [rewrite Ed; destruct t; cbn; by rewrite <- app_assoc|].
  split; [rewrite Et; destruct t; cbn; rewrite <- ?app_assoc; done|]. split.
  - constructor.
    + intros _. rewrite (Hfr (key_of row)) by (intros r Hr [Hra _]; by apply Hdist).
      by apply (row_committed_mono _ _ [] (option_list t) new).
    + rewrite Forall2_lookup in HF |- *. intros i. specialize (HF i).
      destruct (rows !! i) as [r|] eqn:Er, (rows' !! i) as [r'|]; inversion HF as [? ? HR|]; subst; constructor.
      intros Hd. specialize (HR Hd). apply list_elem_of_lookup_2 in Er.
      assert (key_of r ≠ key_of row) by (destruct Hd; by apply Hdist).
      apply (row_committed_before s) in HR; [|by apply Hfr1|by apply Hfor].
      rewrite <- (app_nil_r new). by apply (row_committed_mono _ _ (option_list t)).
  - intros k Hk. rewrite Hfr; [|intros r Hr; apply Hk; by right]. apply Hfr1. intros ->. by apply (Hk row); [left|..].
Qed.

Lemma accepted_distinct row rows :
  NoDup (key_of <$> accepted_rows (row :: rows)) →
  NoDup (key_of <$> accepted_rows rows) ∧
  (rw_verdict row = accepted → ∀ r, r ∈ rows → rw_verdict r = accepted → key_of r ≠ key_of row).
Proof.
  unfold accepted_rows. rewrite filter_cons. case_decide; [|by intros ?].
  rewrite fmap_cons, NoDup_cons. intros [Hnin ?]. split; [done|]. intros _ r Hr Hra Ek. apply Hnin. rewrite <- Ek.
  by apply list_elem_of_fmap_2, list_elem_of_filter.
Qed.

Lemma commit_rows_calm b skip actor now s p rows :
  Forall row_wf rows → NoDup (key_of <$> accepted_rows rows) →
  ∃ s' p', commit_rows b skip actor now (s, []) p rows = ((s', []), p', false) ∧
    rows_committed skip s p rows s' p'.
Proof.
  revert s p. induction rows as [|row rows IH]; intros s p Hwf Hnd.
  { exists s, p. split; [done|]. exists [], []. rewrite !app_nil_r. done. }
  apply Forall_cons in Hwf as [Hw Hws].
  apply accepted_distinct in Hnd as [Hnd Hdist].
  assert (∀ row1, ¬ due skip (pg_attempts p) row → ∃ s' p',
    commit_rows b skip actor now (s, []) (pass p row1) rows = ((s', []), p', false) ∧
    rows_committed skip s p (row :: rows) s' p') as Hpass.
  { intros row1 Hd. destruct (IH s (pass p row1) Hws Hnd) as (s' & p' & E & HR).
    exists s', p'. split; [done|]. by eapply rows_committed_pass. }
  cbn [commit_rows]. unfold is_accepted, action_is.
  destruct (bool_decide_reflect (rw_verdict row = accepted)) as [Ha|Ha]; [|apply Hpass; by intros [? _]].
  destruct (bool_decide_reflect (rw_action row = Some noop)) as [Hno|Hno]; [apply Hpass; by intros (_ & ? & _)|].
  destruct (bool_decide_reflect (rw_index row ∈ skip)) as [Hsk|Hsk]; [apply Hpass; by intros (_ & _ & ? & _)|].
  cbn [negb orb]. destruct (Z.leb_spec MAX_ROW_ATTEMPTS (attempts_of p row)) as [Hat|Hat].
  { apply Hpass. intros (_ & _ & _ & Hlt). unfold attempts_of in Hat. lia. }
  destruct (commit_row_calm b row actor now s Hw Ha) as (s1 & row1 & t & -> & Hrc & Hfr1 & Hp1).
  destruct (IH s1 (match t with Some t => traced p row1 t | None => pass p row1 end) Hws Hnd)
    as (s' & p' & E & HR).
  exists s', p'. split; [by destruct t|]. rewrite Forall_forall in Hws.
  by eapply rows_committed_step; [..|exact HR]; [|split_and!|..]; auto.
Qed.

Lemma fresh_kept now b : (ib_status b = previewed → now ≤ ib_previewExpiresAt b) → expireIfStale now b = b.
Proof.
  intros Hb. unfold expireIfStale. case_bool_decide as Hs; [|done]. cbn.
  by rewrite (proj2 (Z.ltb_ge _ _) (Hb Hs)).
Qed.

Lemma commit_guard_set st b o : commit_guard (set_batch st b) b o = commit_guard st b o.
Proof. reflexivity. Qed.

End commit.

(** C10: what a commit does that is accepted and left alone.  Whatever happened to the
    store since the preview, every accepted row that is still due is decided by the
    state of its own record: unchanged since the preview, the record ends as the sink's
    apply makes it, which is the state the preview announced wherever the sink keeps to
    its announcement (a KYC record of status none with a leftover expiry is where it
    does not); already in the announced state, it is not written again; anything else,
    it is left as it is and the row is quarantined as drift.  The first two kinds are
    traced, with the state they replaced and the state they left.  No other record is
    touched and the batch ends committed. *)
Theorem commit_exact {S} `{ImportSinkLaws S} sha256 (st : pipeline) (s : S) b o uuid now :
  aget (ib_id b) (batches st) = Some b → (ib_status b = previewed → now ≤ ib_previewExpiresAt b) →
  commit_guard st b o = Ok tt → rows_wf (ib_rows b) →
  ∃ st' s' b' new, commit sha256 st (s, []) (ib_id b) o false uuid now = (st', (s', []), Ok b') ∧
    aget (ib_id b) (batches st') = Some b' ∧ ib_status b' = committed ∧ ib_trace b' = ib_trace b ++ new ∧
    Forall2 (λ row row', due (te_rowIndex <$> ib_trace b) (ib_attempts b) row →
      row_committed s (current s' (key_of row)) new row row') (ib_rows b) (ib_rows b') ∧
    (∀ k, (∀ row, row ∈ ib_rows b → due (te_rowIndex <$> ib_trace b) (ib_attempts b) row → key_of row ≠ k) →
      current s' k = current s k).
Proof.
  intros Hb Hfresh Hg (Hwf & _ & Hnd). unfold commit, getInternal. rewrite Hb, fresh_kept by done.
  rewrite commit_guard_set, Hg.
  destruct (commit_rows_calm b (te_rowIndex <$> ib_trace b) (co_actor o) now s
    {| pg_done := []; pg_trace := ib_trace b; pg_attempts := ib_attempts b; pg_lastError := ib_lastError b |}
    (ib_rows b) Hwf Hnd) as (s' & p' & E & rows' & new & Ed & Et & HF & Hfr).
  cbn [pg_done pg_trace pg_attempts app] in *. rewrite E. eexists _, s', _, new. split; [reflexivity|].
  cbn [recordAudit batches set_batch ib_id changed ib_status ib_trace ib_rows].
  rewrite aget_aput, decide_True by done. rewrite Ed, Et. done.
Qed.

(** ** Rolling back

    [tracked] is what the trace of a batch knows about the store while nobody else
    writes to the records of the batch. *)

Section undo.
Context {S : Type} `{ImportSinkLaws S}.
Context (sha256 : string → string).

(** Turns in which others leave the records [ks] alone; unless [late], no call throws
    after it took effect. *)
Definition quiet (ks : list string) (late : bool) (ts : list (turn (S := S))) : Prop :=
  Forall (λ t, (∀ s k, k ∈ ks → current (others t s) k = current s k) ∧
               (late = false → ∀ e, outcome t ≠ Throws true e)) ts.

Lemma call_quiet {A} ks late (p : S → S * A) s ts w' r :
  quiet ks late ts → call p (s, ts) = (w', r) →
  quiet ks late w'.2 ∧
  ∃ s1, (∀ k, k ∈ ks → current s1 k = current s k) ∧
    match r with
    | Ok a => p s1 = (w'.1, a)
    | Err _ => w'.1 = s1 ∨ (late = true ∧ w'.1 = (p s1).1)
    end.
Proof.
  intros Hq E. destruct ts as [|t ts]; cbn in E.
  - destruct (p s) as [s' a] eqn:Ep. injection E as <- <-. split; [constructor|]. by exists s.
  - apply Forall_cons in Hq as [[Ho Hl] Hq]. destruct (outcome t) as [|took e] eqn:Et.
    + destruct (p (others t s)) as [s' a] eqn:Ep. injection E as <- <-. split; [done|]. exists (others t s). auto.
    + injection E as <- <-. split; [done|]. exists (others t s). split; [auto|]. cbn.
      destruct took; [|by left]. right. split; [|done]. destruct late; [done|]. by destruct (Hl eq_refl e).
Qed.

Lemma ask_quiet {A} ks late (q : S → A) s ts w' r :
  quiet ks late ts → ask q (s, ts) = (w', r) →
  quiet ks late w'.2 ∧ (∀ k, k ∈ ks → current w'.1 k = current s k) ∧
  match r with Ok a => a = q w'.1 | Err _ => True end.
Proof.
  intros Hq E. destruct (call_quiet _ _ _ _ _ _ _ Hq E) as (Hq' & s1 & Hs & Hr). split; [done|].
  destruct r as [a|e].
  - by injection Hr as <- <-.
  - by destruct Hr as [->|[_ ->]].
Qed.

Context (targets : list PreviewRow).
Definition target_keys : list string := key_of <$> targets.

(** The store can take back what applying the row to the record it was previewed for
    does. *)
Definition undoable (r : PreviewRow) : Prop :=
  ∀ s ctx, sameState (current s (key_of r)) (rw_before r) →
    restorable (rw_before r) (current (sink_apply s (default [] (rw_normalized r)) ctx).1 (key_of r)).

Definition targets_ok : Prop :=
  Forall row_wf targets ∧ Forall (λ r, rw_verdict r = accepted) targets ∧ NoDup (key_of <$> targets) ∧
  NoDup (rw_index <$> targets) ∧ Forall undoable targets.

Definition entry_tracked (s : S) (t : ImportTraceEntry) : Prop :=
  ∃ r, r ∈ targets ∧ te_rowIndex t = rw_index r ∧ te_key t = key_of r ∧ te_before t = rw_before r ∧
    restorable (te_before t) (te_after t) ∧
    (sameState (current s (te_key t)) (te_before t) ∨
     (is_rolled_back t = false ∧ sameState (current s (te_key t)) (te_after t))).

Definition tracked (s : S) (trace : list ImportTraceEntry) : Prop :=
  NoDup (te_rowIndex <$> trace) ∧ Forall (entry_tracked s) trace ∧
  (∀ r, r ∈ targets → rw_index r ∉ te_rowIndex <$> trace → sameState (current s (key_of r)) (rw_before r)).

Lemma target_key r : r ∈ targets → key_of r ∈ target_keys.
Proof. apply list_elem_of_fmap_2. Qed.

Lemma entry_tracked_same s s' t :
  current s' (te_key t) = current s (te_key t) → entry_tracked s t → entry_tracked s' t.
Proof. intros E (r & H1). exists r. by rewrite E. Qed.

Lemma tracked_same s s' trace :
  (∀ k, k ∈ target_keys → current s' k = current s k) → tracked s trace → tracked s' trace.
Proof.
  intros Hs (Hn & Hf & Hu). split; [done|]. split.
  - eapply Forall_impl; [exact Hf|]. intros t Ht. apply (entry_tracked_same s); [|done].
    destruct Ht as (r & Hr & _ & -> & _). apply Hs, target_key, Hr.
  - intros r Hr Hi. rewrite Hs by (by apply target_key). auto.
Qed.

(** Two rows of the batch with one key are the same row. *)
Lemma target_key_inj r1 r2 : targets_ok → r1 ∈ targets → r2 ∈ targets → key_of r1 = key_of r2 → r1 = r2.
Proof.
  intros (_ & _ & Hk & _) (i & H1)%list_elem_of_lookup (j & H2)%list_elem_of_lookup E.
  assert (i = j) as ->; [|congruence].
  eapply (NoDup_lookup (key_of <$> targets) i j (key_of r1)); [done|..]; rewrite list_lookup_fmap; [by rewrite H1|].
  by rewrite H2, E.
Qed.

Lemma target_index_inj r1 r2 : targets_ok → r1 ∈ targets → r2 ∈ targets → rw_index r1 = rw_index r2 → r1 = r2.
Proof.
  intros (_ & _ & _ & Hk & _) (i & H1)%list_elem_of_lookup (j & H2)%list_elem_of_lookup E.
  assert (i = j) as ->; [|congruence].
  eapply (NoDup_lookup (rw_index <$> targets) i j (rw_index r1)); [done|..]; rewrite list_lookup_fmap; [by rewrite H1|].
  by rewrite H2, E.
Qed.

(** *** Committing *)

Lemma commit_row_tracked b row actor now s ts trace w' r :
  targets_ok → quiet target_keys false ts → row ∈ targets → rw_index row ∉ te_rowIndex <$> trace →
  tracked s trace → commit_row b row actor now (s, ts) = (w', r) →
  quiet target_keys false w'.2 ∧
  match r with
  | Ok (row', Some t) => row' = row ∧ te_rowIndex t = rw_index row ∧ tracked w'.1 (trace ++ [t])
  | Ok (_, None) => False
  | Err _ => tracked w'.1 trace
  end.
Proof.
  intros Ht Hq Hrow Hi Htr E. pose proof Ht as (Hwf & Hacc & _ & _ & Hun). rewrite Forall_forall in Hwf, Hacc, Hun.
  destruct (Hwf row Hrow (Hacc row Hrow)) as (n & s0 & Hn & Hk & _).
  unfold commit_row in E. fold (key_of row) in E.
  destruct (ask _ (s, ts)) as [[s1 ts1] [cur|e]] eqn:Ea; destruct (ask_quiet _ _ _ _ _ _ _ Hq Ea) as (Hq1 & Hs1 & Hc);
    pose proof (tracked_same _ _ _ Hs1 Htr) as Htr1; [|by injection E as <- <-].
  destruct Htr1 as (Hnd & Hent & Hunt). pose proof (Hunt row Hrow Hi) as Hbefore. cbn in Hc. subst cur.
  rewrite bool_decide_eq_true_2 in E by done. set (ctx := {| ac_batchId := _ |}) in E.
  destruct (call _ (s1, ts1)) as [[s2 ts2] [after|e]] eqn:Ec;
    destruct (call_quiet _ _ _ _ _ _ _ Hq1 Ec) as (Hq2 & s1' & Hs1' & Hr); injection E as <- <-; (split; [done|]).
  2:{ cbn in Hr. destruct Hr as [->|[? _]]; [|done]. eapply tracked_same; [exact Hs1'|]. by split. }
  split; [done|]. split; [done|]. cbn [fst] in Hr.
  assert (tracked s1' trace) as (_ & Hent' & Hunt') by (eapply tracked_same; [exact Hs1'|by split]).
  assert (keyOf (default [] (rw_normalized row)) = key_of row) as Ek by (unfold key_of; by rewrite Hn, Hk).
  pose proof (apply_result s1' (default [] (rw_normalized row)) ctx) as Hres. rewrite Hr, Ek in Hres.
  assert (∀ k, k ≠ key_of row → current s2 k = current s1' k) as Hfr.
  { intros k Hne. pose proof (apply_frame s1' (default [] (rw_normalized row)) ctx k) as Hf. rewrite Hr, Ek in Hf. auto. }
  assert (te_rowIndex (trace_entry b row after actor now) = rw_index row) as Eidx by done.
  split; [|split].
  - rewrite fmap_app. apply NoDup_app. split; [done|]. split; [|apply NoDup_singleton].
    intros x Hx ->%list_elem_of_singleton. done.
  - apply Forall_app. split.
    + rewrite Forall_forall in Hent' |- *. intros t Hin. specialize (Hent' t Hin).
      eapply entry_tracked_same; [|exact Hent']. apply Hfr. intros Et. destruct Hent' as (r & Hr1 & Hr2 & Hr3 & _).
      assert (r = row) as -> by (eapply target_key_inj; [done..|congruence]).
      apply Hi. rewrite <- Hr2. by apply list_elem_of_fmap_2.
    + apply Forall_singleton. exists row. cbn. unfold key_of in *. rewrite Hk in *. cbn in *. split_and!; try done.
      * specialize (Hun row Hrow s1' ctx). unfold key_of in Hun. rewrite Hk, Hr in Hun. cbn in Hun. subst after.
        apply Hun. rewrite <- Hs1' in Hbefore; [done|]. apply target_key in Hrow. unfold key_of in Hrow. by rewrite Hk in Hrow.
      * right. split; [done|]. by rewrite Hres.
  - intros r Hr1 Hr2. rewrite fmap_app, elem_of_app in Hr2. rewrite Hfr.
    + apply Hunt'; [done|]. tauto.
    + intros E. assert (r = row) as -> by (by eapply target_key_inj). apply Hr2. right. by left.
Qed.

(** The rows of the batch that may still be written are targets. *)
Definition candidates (rows : list PreviewRow) : Prop :=
  Forall (λ r, rw_verdict r = accepted → rw_action r ≠ Some noop → r ∈ targets) rows.

Lemma candidates_cons row rows :
  candidates (row :: rows) ↔
  (rw_verdict row = accepted → rw_action row ≠ Some noop → row ∈ targets) ∧ candidates rows.
Proof. apply Forall_cons. Qed.

Lemma candidates_one row :
  (rw_verdict row = accepted → rw_action row ≠ Some noop → row ∈ targets) → candidates [row].
Proof. intros ?. by apply Forall_singleton. Qed.

Lemma commit_rows_tracked b skip actor now s ts p rows w' p' fail :
  targets_ok → quiet target_keys false ts → candidates rows → NoDup (rw_index <$> rows) →
  (∀ r, r ∈ rows → rw_index r ∈ te_rowIndex <$> pg_trace p → rw_index r ∈ skip) →
  tracked s (pg_trace p) → commit_rows b skip actor now (s, ts) p rows = (w', p', fail) →
  tracked w'.1 (pg_trace p') ∧
  ∃ rows', pg_done p' = pg_done p ++ rows' ∧ rw_index <$> rows' = rw_index <$> rows ∧ candidates rows'.
Proof.
  intros Hok. revert s ts p. induction rows as [|row rows IH]; intros s ts p Hq Hc Hnd Hsk Htr E.
  { injection E as <- <- <-. split; [done|]. exists []. rewrite app_nil_r. split_and!; [done..|constructor]. }
  pose proof Hc as [Hrow Hrows]%candidates_cons. rewrite fmap_cons, NoDup_cons in Hnd. destruct Hnd as [Hnin Hnd].
  assert (∀ s1 ts1 row1 p1, rw_index row1 = rw_index row → candidates [row1] →
    pg_done p1 = pg_done p ++ [row1] → quiet target_keys false ts1 → tracked s1 (pg_trace p1) →
    (∀ x, x ∈ te_rowIndex <$> pg_trace p1 → x ∈ te_rowIndex <$> pg_trace p ∨ x = rw_index row) →
    commit_rows b skip actor now (s1, ts1) p1 rows = (w', p', fail) →
    tracked w'.1 (pg_trace p') ∧ ∃ rows', pg_done p' = pg_done p ++ rows' ∧
      rw_index <$> rows' = rw_index <$> row :: rows ∧ candidates rows') as Hgo.
  { intros s1 ts1 row1 p1 Hi Hc1 Hd1 Hq1 Htr1 Hx E1.
    destruct (IH s1 ts1 p1 Hq1 Hrows Hnd) as (H1 & rows' & H2 & H3 & H4); [|done..|].
    { intros r Hr Hin. destruct (Hx _ Hin) as [Hin'|Heq]; [apply Hsk; [by right|done]|].
      destruct Hnin. rewrite <- Heq. by apply list_elem_of_fmap_2. }
    split; [done|]. exists (row1 :: rows'). rewrite H2, Hd1, <- app_assoc. split; [done|].
    rewrite !fmap_cons, Hi, H3. split; [done|]. apply candidates_cons. by apply candidates_cons in Hc1 as [? _]. }
  cbn [commit_rows] in E. destruct (_ || _ || _) eqn:Eskip.
  { apply (Hgo s ts row (pass p row)); try done; [by apply candidates_one|auto]. }
  apply orb_false_iff in Eskip as [[Ea%negb_false_iff Eno]%orb_false_iff Eix].
  unfold is_accepted in Ea. unfold action_is in Eno.
  apply bool_decide_eq_true in Ea. apply bool_decide_eq_false in Eno, Eix.
  destruct (MAX_ROW_ATTEMPTS <=? _).
  { apply (Hgo s ts (quarantine row apply_failed_reason) (pass p (quarantine row apply_failed_reason)));
      try done; [by apply candidates_one|auto]. }
  destruct (commit_row b row actor now (s, ts)) as [[s1 ts1] r] eqn:Er.
  destruct (commit_row_tracked b row actor now s ts (pg_trace p) (s1, ts1) r Hok Hq (Hrow Ea Eno))
    as (Hq1 & Hr); [|done..|].
  { intros Hin. apply Eix, Hsk; [by left|done]. }
  destruct r as [[row1 [t|]]|e]; [|done|].
  - destruct Hr as (-> & Hti & Htr1). apply (Hgo s1 ts1 row (traced p row t)); try done.
    + by apply candidates_one.
    + intros x. cbn. rewrite fmap_app, elem_of_app. intros [?|Hx]; [by left|right].
      apply list_elem_of_singleton in Hx. cbn in Hx. congruence.
  - injection E as <- <- <-. split; [done|]. by exists (row :: rows).
Qed.

(** *** Undoing *)

Lemma rollback_entry_tracked t actor now s ts w' t' cs :
  entry_tracked s t → is_rolled_back t = false → quiet target_keys true ts →
  rollback_entry t actor now (s, ts) = (w', (t', cs)) →
  quiet target_keys true w'.2 ∧ entry_tracked w'.1 t' ∧ te_rowIndex t' = te_rowIndex t ∧ te_key t' = te_key t ∧
  ∀ k, k ∈ target_keys → k ≠ te_key t → current w'.1 k = current s k.
Proof.
  intros Ht Hrb Hq E. pose proof Ht as (r & Hr & Hri & Hrk & Hrbf & Hres & _).
  assert (te_key t ∈ target_keys) as Hin by (rewrite Hrk; by apply target_key).
  assert (∀ s1, sameState (current s1 (te_key t)) (te_before t) →
    entry_tracked s1 t ∧ entry_tracked s1 (undone t now)) as Hback.
  { intros s1 H1. split; exists r; split_and!; auto. }
  unfold rollback_entry in E.
  destruct (ask _ (s, ts)) as [[s1 ts1] [cur|e]] eqn:Ea; destruct (ask_quiet _ _ _ _ _ _ _ Hq Ea) as (Hq1 & Hs1 & Hc);
    cbn in Hc, Hs1; pose proof (entry_tracked_same s s1 t (Hs1 _ Hin) Ht) as Ht1;
    [|injection E as <- <- <-; split_and!; auto]. subst cur.
  destruct (bool_decide_reflect (sameState (current s1 (te_key t)) (te_before t))) as [Hb|Hb].
  { injection E as <- <- <-. destruct (Hback s1 Hb). split_and!; auto. }
  destruct (negb _) eqn:Eaf; [injection E as <- <- <-; split_and!; auto|].
  apply negb_false_iff, bool_decide_eq_true in Eaf.
  assert (∀ s2, (∀ k, k ∈ target_keys → current s2 k = current s1 k) →
    entry_tracked (revert s2 t actor) t ∧ entry_tracked (revert s2 t actor) (undone t now) ∧
    ∀ k, k ∈ target_keys → k ≠ te_key t → current (revert s2 t actor) k = current s k) as Hrev.
  { intros s2 Hs2. apply and_assoc. split.
    - apply Hback, revert_before; [done|]. by rewrite Hs2.
    - intros k Hk Hne. rewrite revert_frame, Hs2, Hs1; auto. }
  destruct (call _ (s1, ts1)) as [[s2 ts2] [[]|e]] eqn:Ec;
    destruct (call_quiet _ _ _ _ _ _ _ Hq1 Ec) as (Hq2 & s1' & Hs1' & Hr2).
  - cbn [fst] in Hr2. injection Hr2 as Hr2. destruct (Hrev s1' Hs1') as (_ & Hu & Hf). rewrite Hr2 in Hu, Hf.
    destruct (ask _ (s2, ts2)) as [[s3 ts3] res] eqn:Ea3; destruct (ask_quiet _ _ _ _ _ _ _ Hq2 Ea3) as (Hq3 & Hs3 & _).
    cbn in Hs3. pose proof (entry_tracked_same s2 s3 (undone t now) (Hs3 _ Hin) Hu) as Hu3.
    destruct res; injection E as <- <- <-; (split_and!; [done..|]); intros k Hk Hne; cbn; rewrite Hs3; auto.
  - injection E as <- <- <-. cbn [fst snd] in *. split; [done|]. destruct Hr2 as [->|[_ ->]].
    + split_and!; [|done..|].
      * eapply entry_tracked_same; [|exact Ht1]. auto.
      * intros k Hk Hne. rewrite Hs1', Hs1; auto.
    + destruct (Hrev s1' Hs1') as (Hu & _ & Hf). split_and!; auto.
Qed.

(** Changing an entry and the record of its row, and nothing else. *)
Lemma tracked_swap s s' done t t' ts :
  targets_ok → tracked s (done ++ t :: ts) → entry_tracked s' t' → te_rowIndex t' = te_rowIndex t →
  te_key t' = te_key t → (∀ k, k ∈ target_keys → k ≠ te_key t → current s' k = current s k) →
  tracked s' (done ++ t' :: ts).
Proof.
  intros Hok (Hnd & Hent & Hunt) Ht' Hi Hk Hs.
  assert (te_rowIndex <$> done ++ t' :: ts = te_rowIndex <$> done ++ t :: ts) as Eix
    by (rewrite !fmap_app, !fmap_cons; by rewrite Hi).
  pose proof Hent as [Hd [Ht Hts]%Forall_cons]%Forall_app.
  pose proof Ht as (r & Hr & Hri & Hrk & _).
  assert (∀ e, e ∈ done ++ ts → te_key e ≠ te_key t) as Hne.
  { intros e He Ek. assert (e ∈ done ++ t :: ts) as He'
      by (rewrite elem_of_app, elem_of_cons; apply elem_of_app in He; tauto).
    pose proof (proj1 (Forall_forall _ _) Hent e He') as (r' & Hr' & Hri' & Hrk' & _).
    assert (r' = r) as -> by (eapply target_key_inj; [done..|congruence]).
    rewrite fmap_app, fmap_cons in Hnd. apply NoDup_app in Hnd as (_ & Hdis & [Hnin _]%NoDup_cons).
    apply elem_of_app in He as [He|He].
    - apply (Hdis (te_rowIndex e)); [by apply list_elem_of_fmap_2|]. rewrite Hri', <- Hri. by left.
    - apply Hnin. rewrite Hri, <- Hri'. by apply list_elem_of_fmap_2. }
  assert (∀ e, e ∈ done ++ ts → entry_tracked s e → entry_tracked s' e) as Hkeep.
  { intros e He Hes. eapply entry_tracked_same; [|exact Hes]. apply Hs; [|by apply Hne].
    destruct Hes as (r' & Hr' & _ & -> & _). by apply target_key. }
  split; [by rewrite Eix|]. split.
  - rewrite Forall_forall in Hd, Hts. apply Forall_app. split; [|constructor; [done|]]; apply Forall_forall; intros e He;
      apply Hkeep; [apply elem_of_app; by left|by apply Hd|apply elem_of_app; by right|by apply Hts].
  - intros r' Hr' Hni. rewrite Eix in Hni. rewrite Hs; [by apply Hunt|by apply target_key|].
    intros Ek. apply Hni. assert (r' = r) as -> by (eapply target_key_inj; [done..|congruence]).
    rewrite <- Hri, fmap_app, fmap_cons. apply elem_of_app. right. by left.
Qed.

Lemma rollback_entries_tracked l actor now s ts done w' l' cs :
  targets_ok → quiet target_keys true ts → tracked s (done ++ l) →
  rollback_entries l actor now (s, ts) = (w', l', cs) → tracked w'.1 (done ++ l').
Proof.
  intros Hok. revert s ts done l' cs. induction l as [|t l IH]; intros s ts done l' cs Hq Htr E; cbn in E.
  { by injection E as <- <- <-. }
  destruct (if is_rolled_back t then _ else _) as [[s1 ts1] [t1 c1]] eqn:E1.
  destruct (rollback_entries l actor now (s1, ts1)) as [[w2 l2] c2] eqn:E2. injection E as <- <- <-.
  change (t1 :: l2) with ([t1] ++ l2). rewrite app_assoc.
  assert (quiet target_keys true ts1 ∧ tracked s1 (done ++ t1 :: l)) as [Hq1 Htr1].
  2:{ eapply IH; [exact Hq1| |exact E2]. by rewrite <- app_assoc. }
  destruct (is_rolled_back t) eqn:Erb; [by injection E1 as <- <- <- <-|].
  pose proof Htr as (_ & [_ [Ht _]%Forall_cons]%Forall_app & _).
  destruct (rollback_entry_tracked t actor now s ts _ _ _ Ht Erb Hq E1) as (H1 & H2 & H3 & H4 & H5).
  split; [done|]. by eapply tracked_swap.
Qed.

(** With nobody else around every entry is undone, without a conflict. *)
Lemma rollback_entry_calm t actor now s :
  entry_tracked s t → is_rolled_back t = false →
  ∃ s', rollback_entry t actor now (s, []) = ((s', []), (undone t now, [])) ∧
    sameState (current s' (te_key t)) (te_before t) ∧ (∀ k, k ≠ te_key t → current s' k = current s k).
Proof.
  intros (r & _ & _ & _ & _ & Hres & Hst) Hrb. unfold rollback_entry, ask. cbn [call].
  destruct (bool_decide_reflect (sameState (current s (te_key t)) (te_before t))) as [Hb|Hb]; [by exists s|].
  destruct Hst as [?|[_ Ha]]; [done|]. rewrite bool_decide_eq_true_2 by done. cbn [negb call].
  pose proof (revert_before s t actor Hres Ha) as Hback. exists (revert s t actor).
  rewrite bool_decide_eq_true_2 by done. split; [done|]. split; [done|]. intros k Hk. by apply revert_frame.
Qed.

Lemma rollback_entries_calm l actor now s done :
  targets_ok → tracked s (done ++ l) → Forall (λ t, is_rolled_back t = true) done →
  ∃ s' l', rollback_entries l actor now (s, []) = ((s', []), l', []) ∧
    tracked s' (done ++ l') ∧ Forall (λ t, is_rolled_back t = true) (done ++ l') ∧
    te_rowIndex <$> l' = te_rowIndex <$> l ∧ (∀ k, k ∉ target_keys → current s' k = current s k).
Proof.
  intros Hok. revert s done. induction l as [|t l IH]; intros s done Htr Hd.
  { exists s, []. rewrite app_nil_r in *. done. }
  cbn [rollback_entries].
  pose proof Htr as (_ & [_ [Ht _]%Forall_cons]%Forall_app & _).
  assert (∃ s1 t1, (if is_rolled_back t then ((s, []) : world, (t, [])) else rollback_entry t actor now (s, [])) =
    ((s1, []), (t1, [])) ∧ is_rolled_back t1 = true ∧ te_rowIndex t1 = te_rowIndex t ∧ tracked s1 (done ++ t1 :: l) ∧
    (∀ k, k ∉ target_keys → current s1 k = current s k)) as (s1 & t1 & -> & Hb1 & Hi1 & Htr1 & Hf1).
  { destruct (is_rolled_back t) eqn:Erb; [by exists s, t|].
    destruct (rollback_entry_calm t actor now s Ht Erb) as (s1 & -> & Hb & Hf). exists s1, (undone t now).
    split_and!; [done..| |].
    - eapply tracked_swap; [done..| |done|done|by intros; apply Hf].
      destruct Ht as (r & ? & ? & ? & ? & ? & _). exists r. split_and!; auto.
    - intros k Hk. apply Hf. intros ->. destruct Ht as (r & Hr & _ & E & _). rewrite E in Hk. by apply Hk, target_key. }
  destruct (IH s1 (done ++ [t1])) as (s2 & l2 & -> & Htr2 & Hd2 & Hi2 & Hf2).
  { by rewrite <- app_assoc. }
  { apply Forall_app. split; [done|]. by apply Forall_singleton. }
  exists s2, (t1 :: l2). rewrite <- app_assoc in *. split_and!; [done..| |].
  - by rewrite !fmap_cons, Hi1, Hi2.
  - intros k Hk. rewrite Hf2, Hf1; auto.
Qed.

Lemma tracked_perm s l l' : l ≡ₚ l' → tracked s l → tracked s l'.
Proof.
  intros Hp (Hnd & Hent & Hunt). split; [by rewrite <- Hp|]. split; [by rewrite <- Hp|].
  intros r Hr Hi. apply Hunt; [done|]. by rewrite Hp.
Qed.

(** When the whole trace is rolled back, every target is as it was. *)
Lemma tracked_back s trace :
  tracked s trace → Forall (λ t, is_rolled_back t = true) trace →
  ∀ r, r ∈ targets → targets_ok → sameState (current s (key_of r)) (rw_before r).
Proof.
  intros (_ & Hent & Hunt) Hb r Hr Hok. destruct (decide (rw_index r ∈ te_rowIndex <$> trace)) as [Hin|]; [|by apply Hunt].
  apply list_elem_of_fmap in Hin as (t & Hi & Ht). rewrite Forall_forall in Hent, Hb.
  destruct (Hent t Ht) as (r' & Hr' & Hi' & Hk' & Hb' & _ & Hst).
  assert (r' = r) as -> by (eapply target_index_inj; [done..|congruence]).
  rewrite <- Hk', <- Hb'. destruct Hst as [?|[Hno _]]; [done|]. by rewrite (Hb t Ht) in Hno.
Qed.

(** *** A batch in the pipeline *)

Context (id hash : string).

(** Batches are kept once, under their id. *)
Definition keyed (st : pipeline) : Prop :=
  NoDup (batches st).*1 ∧ Forall (λ kb, ib_id kb.2 = kb.1) (batches st).

(** What stays known of the batch [id], whatever happens to it. *)
Definition known (s : S) (b : ImportBatch) : Prop :=
  ib_previewHash b = hash ∧ tracked s (ib_trace b) ∧ candidates (ib_rows b) ∧ NoDup (rw_index <$> ib_rows b).

Definition holds (s : S) (st : pipeline) : Prop :=
  keyed st ∧ ∀ b, aget id (batches st) = Some b → known s b.

Lemma holds_same s s' st : (∀ k, k ∈ target_keys → current s' k = current s k) → holds s st → holds s' st.
Proof.
  intros Hs [Hk Hst]. split; [done|]. intros b Hb. destruct (Hst b Hb) as (H1 & H2 & H3).
  split; [done|]. split; [|done]. by eapply tracked_same.
Qed.

Lemma keyed_set st b : keyed st → keyed (set_batch st b).
Proof. intros [H1 H2]. split; [by apply aput_keys_NoDup|by apply Forall_aput]. Qed.

Lemma holds_set s st b :
  keyed st → (ib_id b ≠ id → holds s st) → (ib_id b = id → known s b) → holds s (set_batch st b).
Proof.
  intros Hk Hst Hb. split; [by apply keyed_set|]. intros b'. cbn. rewrite aget_aput.
  case_decide as E; [intros [= <-]; auto|]. by apply Hst.
Qed.

Lemma keyed_get st k b : keyed st → getInternal st k = Ok b → ib_id b = k ∧ aget k (batches st) = Some b.
Proof.
  unfold getInternal. intros [_ Hst]. destruct (aget k (batches st)) as [b'|] eqn:E; [|done]. intros [= ->].
  split; [|done]. apply aget_Some_elem in E. apply (proj1 (Forall_forall _ _) Hst (k, b) E).
Qed.

Lemma expire_fields now b :
  ib_id (expireIfStale now b) = ib_id b ∧ ib_previewHash (expireIfStale now b) = ib_previewHash b ∧
  ib_trace (expireIfStale now b) = ib_trace b ∧ ib_rows (expireIfStale now b) = ib_rows b.
Proof. unfold expireIfStale. by destruct (_ && _). Qed.

Lemma known_expire s now b : known s b → known s (expireIfStale now b).
Proof. unfold known. destruct (expire_fields now b) as (_ & -> & -> & ->). done. Qed.

(** Reading a batch may expire it. *)
Lemma read_batch s st k b now :
  holds s st → getInternal st k = Ok b →
  let b' := expireIfStale now b in
  ib_id b' = k ∧ (k = id → known s b') ∧ holds s (set_batch st b').
Proof.
  intros Hst Eg. destruct (keyed_get _ _ _ (proj1 Hst) Eg) as [Hid Hb]. cbn zeta.
  pose proof (expire_fields now b) as (Hid' & _). rewrite Hid in Hid'.
  assert (k = id → known s (expireIfStale now b)) as Hk.
  { intros ->. by apply known_expire, Hst. }
  split; [done|]. split; [done|]. apply holds_set; [apply Hst|done|]. rewrite Hid'. done.
Qed.

Lemma holds_expire_all s st st' now :
  batches st' = (λ kb, (kb.1, expireIfStale now kb.2)) <$> batches st → holds s st → holds s st'.
Proof.
  intros E [[Hn Hf] Hst]. split; [split|].
  - by rewrite E, map_keys.
  - rewrite E. apply Forall_fmap. eapply Forall_impl; [exact Hf|]. intros [k b] Hk. cbn in *.
    by rewrite (proj1 (expire_fields now b)).
  - rewrite E. intros b. rewrite aget_map. intros (b0 & Hb & ->)%fmap_Some. by apply known_expire, Hst.
Qed.

Lemma holds_capacity s st now : holds s st → holds s (ensureCapacity st now).1.
Proof.
  intros Hst. unfold ensureCapacity. destruct (_ <? _); [done|].
  set (bs := _ <$> batches st).
  assert (∀ st', batches st' = bs → holds s st') as Hbs by (intros; by eapply holds_expire_all).
  destruct (earliest _) as [v|]; cbn [fst]; [|by apply Hbs].
  destruct (Hbs {| batches := bs; committedContent := []; contentHashes := []; audit := audit st |} eq_refl)
    as [[Hn Hf] Hk]. cbn in *. split; [split|].
  - by apply adel_keys_NoDup.
  - by apply Forall_adel.
  - cbn. intros b. rewrite aget_adel by done. case_decide; [done|]. apply Hk.
Qed.

Lemma commit_other st w k o off uuid now st' w' r s :
  k ≠ id → holds s st → commit sha256 st w k o off uuid now = (st', w', r) → holds s st'.
Proof.
  intros Hne Hst E. unfold commit in E. destruct off; [by injection E as <- <- <-|].
  destruct (getInternal st k) as [b|] eqn:Eg; [|by injection E as <- <- <-].
  destruct (read_batch s st k b now Hst Eg) as (Hid & _ & Hst1). set (b1 := expireIfStale now b) in *.
  destruct (commit_guard _ b1 o); [|by injection E as <- <- <-].
  destruct (commit_rows _ _ _ _ _ _ _) as [[w1 p] fail]. injection E as <- <- <-.
  set (b2 := changed b1 _ _ _ _ _ _ now).
  assert (holds s (set_batch (set_batch st b1) b2)) as Hst2.
  { apply holds_set; [apply Hst1|done|]. cbn. by rewrite Hid. }
  by destruct fail.
Qed.

Lemma commit_holds st s ts o off uuid now st' w' r :
  targets_ok → holds s st → quiet target_keys false ts →
  commit sha256 st (s, ts) id o off uuid now = (st', w', r) → holds w'.1 st'.
Proof.
  intros Hok Hst Hq E. unfold commit in E. destruct off; [by injection E as <- <- <-|].
  destruct (getInternal st id) as [b|] eqn:Eg; [|by injection E as <- <- <-].
  destruct (read_batch s st id b now Hst Eg) as (Hid & Hk & Hst1). specialize (Hk eq_refl).
  set (b1 := expireIfStale now b) in *.
  destruct (commit_guard _ b1 o); [|by injection E as <- <- <-].
  destruct (commit_rows _ _ _ _ _ _ _) as [[w1 p] fail] eqn:Er. destruct Hk as (Hh & Htr & Hc & Hnd).
  eapply commit_rows_tracked in Er as (Htr' & rows' & Hd & Hi & Hc'); [|done..|by intros|done].
  injection E as <- <- <-. cbn [app pg_done] in Hd.
  set (b2 := changed b1 _ _ _ _ _ _ now).
  assert (holds w1.1 (set_batch (set_batch st b1) b2)) as Hst2.
  { apply holds_set; [apply Hst1|done|]. intros _. split; [done|]. split; [done|]. cbn. rewrite Hd, Hi. done. }
  by destruct fail.
Qed.

Lemma rollback_other st w k h actor uuid now st' w' r s :
  k ≠ id → holds s st → rollback sha256 st w k h actor uuid now = (st', w', r) → holds s st'.
Proof.
  intros Hne Hst E. unfold rollback in E.
  destruct (getInternal st k) as [b|] eqn:Eg; [|by injection E as <- <- <-].
  destruct (keyed_get _ _ _ (proj1 Hst) Eg) as [Hid _].
  destruct (negb _); [by injection E as <- <- <-|]. destruct (requirePreviewHash b h); [|by injection E as <- <- <-].
  destruct (rollback_entries _ _ _ _) as [[w1 ts] cs]. injection E as <- <- <-.
  set (b2 := changed b _ _ _ _ _ _ now).
  assert (holds s (set_batch st b2)) as Hst2 by (apply holds_set; [apply Hst|done|cbn; by rewrite Hid]).
  by destruct (bool_decide _).
Qed.

Lemma rollback_holds st s ts h actor uuid now st' w' r :
  targets_ok → holds s st → quiet target_keys true ts →
  rollback sha256 st (s, ts) id h actor uuid now = (st', w', r) → holds w'.1 st'.
Proof.
  intros Hok Hst Hq E. unfold rollback in E.
  destruct (getInternal st id) as [b|] eqn:Eg; [|by injection E as <- <- <-].
  destruct (keyed_get _ _ _ (proj1 Hst) Eg) as [Hid Hb]. destruct (proj2 Hst b Hb) as (Hh & Htr & Hc & Hnd).
  destruct (negb _); [by injection E as <- <- <-|]. destruct (requirePreviewHash b h); [|by injection E as <- <- <-].
  destruct (rollback_entries _ _ _ _) as [[w1 l] cs] eqn:Er. injection E as <- <- <-.
  eapply (rollback_entries_tracked _ _ _ s ts []) in Er; [|done..|by eapply tracked_perm; [symmetry; apply reverse_Permutation|]].
  set (b2 := changed b _ _ _ _ _ _ now).
  assert (holds w1.1 (set_batch st b2)) as Hst2.
  { apply holds_set; [apply Hst|done|]. intros _. split; [done|]. split; [|done]. cbn.
    eapply tracked_perm; [symmetry; apply reverse_Permutation|done]. }
  by destruct (bool_decide _).
Qed.

Lemma discard_holds st s k actor uuid now : holds s st → holds s (discard sha256 st k actor uuid now).1.
Proof.
  intros Hst. unfold discard. destruct (getInternal st k) as [b|] eqn:Eg; [|done].
  destruct (read_batch s st k b now Hst Eg) as (Hid & Hk & Hst1).
  set (b1 := expireIfStale now b) in *. destruct (negb _ && negb _); [done|].
  assert (holds s (set_batch (set_batch st b1) (touch b1 discarded now))) as Hst2; [|done].
  apply holds_set; [apply Hst1|done|]. cbn. rewrite Hid. done.
Qed.

Lemma get_holds st s k now : holds s st → holds s (get st k now).1.
Proof.
  intros Hst. unfold get. destruct (getInternal st k) as [b|] eqn:Eg; [|done].
  apply (read_batch s st k b now Hst Eg).
Qed.

(** A preview of anything else, whatever the store looks like by then. *)
Lemma preview_other st w i k uuid now st' w' r s :
  k ≠ id → holds s st → preview sha256 st w i k uuid now = (st', w', r) → holds s st'.
Proof.
  intros Hne Hst E. unfold preview in E. destruct (negb _); [by injection E as <- <- <-|].
  destruct (bool_decide (pi_actor i = _)); [by injection E as <- <- <-|].
  pose proof (holds_capacity s st now Hst) as Hc. destruct (ensureCapacity st now) as [st1 [[]|e]];
    [|by injection E as <- <- <-]. cbn [fst] in Hc.
  destruct (parse sha256 i) as [[parsed sha]|]; [|by injection E as <- <- <-].
  destruct (inspect_rows w _) as [w1 [rows|]]; [|by injection E as <- <- <-]. injection E as <- <- <-.
  set (b := new_batch _ _ _ _ _ _ _). assert (holds s (set_batch st1 b)) as H2; [|done].
  apply holds_set; [apply Hc|done|done].
Qed.

(** Requests, while nobody else changes the records of the batch [id].  No write of a
    commit of that batch is reported as failed after it was done. *)
Inductive import_step : pipeline * S → pipeline * S → Prop :=
| step_commit st s ts o off uuid now st' w' r :
    quiet target_keys false ts → commit sha256 st (s, ts) id o off uuid now = (st', w', r) →
    import_step (st, s) (st', w'.1)
| step_rollback st s ts h actor uuid now st' w' r :
    quiet target_keys true ts → rollback sha256 st (s, ts) id h actor uuid now = (st', w', r) →
    import_step (st, s) (st', w'.1)
| step_discard st s k actor uuid now : import_step (st, s) ((discard sha256 st k actor uuid now).1, s)
| step_get st s k now : import_step (st, s) ((get st k now).1, s)
| step_list st s now : import_step (st, s) ((list_batches st now).1, s)
| step_preview st w i k uuid now st' w' r :
    k ≠ id → (∀ k, k ∈ target_keys → current w'.1 k = current w.1 k) →
    preview sha256 st w i k uuid now = (st', w', r) → import_step (st, w.1) (st', w'.1)
| step_commit_other st w k o off uuid now st' w' r :
    k ≠ id → (∀ k, k ∈ target_keys → current w'.1 k = current w.1 k) →
    commit sha256 st w k o off uuid now = (st', w', r) → import_step (st, w.1) (st', w'.1)
| step_rollback_other st w k h actor uuid now st' w' r :
    k ≠ id → (∀ k, k ∈ target_keys → current w'.1 k = current w.1 k) →
    rollback sha256 st w k h actor uuid now = (st', w', r) → import_step (st, w.1) (st', w'.1)
| step_store st s s' :
    (∀ k, k ∈ target_keys → current s' k = current s k) → import_step (st, s) (st, s').

Lemma import_step_holds c c' : targets_ok → import_step c c' → holds c.2 c.1 → holds c'.2 c'.1.
Proof.
  intros Hok Hstep Hh. destruct Hstep; cbn [fst snd] in *.
  - by eapply commit_holds.
  - by eapply rollback_holds.
  - by apply discard_holds.
  - by apply get_holds.
  - by eapply holds_expire_all.
  - eapply holds_same; [done|]. by eapply preview_other.
  - eapply holds_same; [done|]. by eapply commit_other.
  - eapply holds_same; [done|]. by eapply rollback_other.
  - by eapply holds_same.
Qed.

Lemma import_steps_hold c c' : targets_ok → rtc import_step c c' → holds c.2 c.1 → holds c'.2 c'.1.
Proof. intros Hok. induction 1; [done|]. eauto using import_step_holds. Qed.

Lemma rollback_calm st s b actor uuid now :
  targets_ok → holds s st → aget id (batches st) = Some b →
  ib_status b ∈ [committed; partially_committed; rollback_incomplete] →
  ∃ st' s' b', rollback sha256 st (s, []) id hash actor uuid now = (st', (s', []), Ok b') ∧
    ib_status b' = rolled_back ∧ aget id (batches st') = Some b' ∧
    (∀ r, r ∈ targets → sameState (current s' (key_of r)) (rw_before r)) ∧
    (∀ k, k ∉ target_keys → current s' k = current s k).
Proof.
  intros Hok [Hkeyed Hst] Hb Hs. destruct (Hst b Hb) as (Hh & Htr & _).
  assert (getInternal st id = Ok b) as Eg by (unfold getInternal; by rewrite Hb).
  destruct (keyed_get _ _ _ Hkeyed Eg) as [Hid _].
  unfold rollback. rewrite Eg, (bool_decide_eq_true_2 _ Hs). cbn [negb]. unfold requirePreviewHash.
  rewrite Hh, bool_decide_eq_true_2 by done. cbn [negb throw_if].
  destruct (rollback_entries_calm (reverse (ib_trace b)) actor now s []) as (s' & l' & -> & Htr' & Hall & _ & Hf);
    [done|by eapply tracked_perm; [symmetry; apply reverse_Permutation|]|done|].
  rewrite app_nil_r. rewrite bool_decide_eq_false_2.
  2:{ intros (c & [Hk _]%list_elem_of_filter & Hne)%Exists_exists. done. }
  eexists _, s', _. split; [reflexivity|]. split; [done|]. split.
  { cbn. rewrite aget_aput, decide_True; done. }
  split; [|done]. intros r Hr. by eapply tracked_back.
Qed.
End undo.

(** *** From the preview on *)

Section restore.
Context {S : Type} `{ImportSinkLaws S}.
Context (sha256 : string → string).

(** The rows that a commit may write. *)
Definition to_write (rows : list PreviewRow) : list PreviewRow :=
  filter (λ r, rw_verdict r = accepted ∧ rw_action r ≠ Some noop) rows.

Lemma to_write_sublist rows : to_write rows `sublist_of` accepted_rows rows.
Proof.
  unfold to_write, accepted_rows. induction rows as [|r rows IH]; [done|]. rewrite !filter_cons.
  case_decide as H1; [destruct H1; rewrite decide_True by done; by apply sublist_skip|].
  case_decide; [by apply sublist_cons|done].
Qed.

Lemma to_write_ok rows : rows_wf rows → Forall undoable (to_write rows) → targets_ok (to_write rows).
Proof.
  intros (Hwf & Hi & Hk) Hu. rewrite Forall_forall in Hwf.
  split_and!; [| | | |done].
  - apply Forall_forall. intros r [_ Hr]%list_elem_of_filter. by apply Hwf.
  - apply Forall_forall. by intros r [[? _] _]%list_elem_of_filter.
  - eapply sublist_NoDup; [exact Hk|]. apply fmap_sublist, to_write_sublist.
  - eapply sublist_NoDup; [exact Hi|]. apply fmap_sublist. etrans; [apply to_write_sublist|]. apply sublist_filter.
Qed.

(** Inspecting with nobody else around reads the store as it is. *)
Lemma inspect_rows_calm (s : S) rows :
  Forall staged_ok rows →
  ∃ rows', inspect_rows (s, []) rows = ((s, []), Ok rows') ∧
    Forall (λ r, rw_verdict r = accepted → sameState (current s (key_of r)) (rw_before r)) rows'.
Proof.
  induction 1 as [|row rows Hrow Hrows (rows' & IH & HF)]; [by exists []|]. cbn [inspect_rows].
  destruct (rw_verdict row) eqn:Ev.
  - destruct (Hrow Ev) as (_ & n & Hn & Hk & Hne). rewrite Hn. unfold ask. cbn [call]. rewrite IH.
    eexists. split; [reflexivity|]. constructor; [|done]. intros _. unfold inspected, key_of.
    edestruct foldl_quarantine as (_ & -> & _ & -> & _). cbn. rewrite Hk. symmetry. apply inspect_before.
  - rewrite IH. eexists. split; [reflexivity|]. constructor; [congruence|done].
Qed.

Lemma preview_known st s i id uuid now st' w' b :
  keyed st → preview sha256 st (s, []) i id uuid now = (st', w', Ok b) →
  w' = (s, []) ∧ rows_wf (ib_rows b) ∧
  holds (to_write (ib_rows b)) id (ib_previewHash b) s st' ∧ aget id (batches st') = Some b ∧
  ∀ r, r ∈ to_write (ib_rows b) → sameState (current s (key_of r)) (rw_before r).
Proof.
  intros Hk E. unfold preview in E. destruct (negb _); [done|]. destruct (bool_decide (pi_actor i = _)); [done|].
  assert (keyed (ensureCapacity st now).1) as Hc.
  { unfold ensureCapacity. destruct (_ <? _); [done|]. destruct Hk as [Hn Hf].
    assert (keyed {| batches := (λ kb, (kb.1, expireIfStale now kb.2)) <$> batches st; committedContent := [];
      contentHashes := []; audit := audit st |}) as [Hn' Hf'].
    { split; cbn; [by rewrite map_keys|]. apply Forall_fmap. eapply Forall_impl; [exact Hf|]. intros kb Hkb. cbn.
      unfold expireIfStale. by destruct (_ && _). }
    destruct (earliest _); [|done]. split; cbn; [by apply adel_keys_NoDup|by apply Forall_adel]. }
  destruct (ensureCapacity st now) as [st1 [[]|e]]; [|done]. cbn [fst] in Hc.
  destruct (parse sha256 i) as [[parsed sha]|]; [|done].
  set (rows0 := imap _ parsed) in E.
  assert (Forall staged_ok (quarantine_repeats rows0)) as Hs.
  { apply repeats_ok, Forall_lookup. intros j r. unfold rows0. rewrite list_lookup_imap.
    intros (p & _ & ->)%fmap_Some. apply stage_row_ok. }
  destruct (inspect_rows_calm s _ Hs) as (rows & Er & Hrd). rewrite Er in E. injection E as <- <- <-.
  pose proof (staged_wf sha256 _ _ _ _ _ Er) as Hwf. split; [done|]. split; [done|].
  set (b := new_batch _ _ _ _ _ _ _).
  assert (∀ r, r ∈ to_write (ib_rows b) → sameState (current s (key_of r)) (rw_before r)) as Hread.
  { intros r [[Hr _] Hin]%list_elem_of_filter. rewrite Forall_forall in Hrd. by apply Hrd. }
  split; [split|].
  - by apply (keyed_set st1 b).
  - intros b' Hb'. cbn in Hb'. rewrite aget_aput, decide_True in Hb' by done. injection Hb' as <-.
    split; [done|]. split; [|split; [|apply Hwf]].
    + split; [constructor|]. split; [constructor|]. by intros r Hr _; apply Hread.
    + apply Forall_forall. intros r Hr Ha Hno. by apply list_elem_of_filter.
  - cbn. rewrite aget_aput, decide_True; done.
Qed.
End restore.

(** C11: An import can be taken back.  Preview a file, then let any requests follow:
    commits and retries of the batch that fail anywhere, rollbacks of it that fail
    anywhere, even after a write was undone, other batches, discards, reads, other
    writers, as long as nobody else changes the records of the batch and no write of
    its commits fails after it was done.  Let the sink be able to take back what
    applying each row does to the previewed record, which the KYC sink is not for every
    row: the residual of docs/import-pipeline.md ends rolled back with the record
    changed.  While the batch is in a status that can be rolled back, a rollback that is
    left alone succeeds: the batch ends rolled back, every record the batch was to write
    is as it was when the file was previewed, and no other record is touched. *)
Theorem import_rollback_restores {S} `{ImportSinkLaws S} sha256 (st0 st1 st : pipeline) (s0 s : S) w1 i id uuid now b0
    b actor uuid' now' :
  keyed st0 → preview sha256 st0 (s0, []) i id uuid now = (st1, w1, Ok b0) →
  Forall undoable (to_write (ib_rows b0)) →
  rtc (import_step sha256 (to_write (ib_rows b0)) id) (st1, s0) (st, s) →
  aget id (batches st) = Some b → ib_status b ∈ [committed; partially_committed; rollback_incomplete] →
  ∃ st' s' b', rollback sha256 st (s, []) id (ib_previewHash b0) actor uuid' now' = (st', (s', []), Ok b') ∧
    ib_status b' = rolled_back ∧ aget id (batches st') = Some b' ∧
    (∀ r, r ∈ to_write (ib_rows b0) → sameState (current s' (key_of r)) (current s0 (key_of r))) ∧
    (∀ k, k ∉ key_of <$> to_write (ib_rows b0) → current s' k = current s k).
Proof.
  intros Hk E Hu Hsteps Hb Hs. destruct (preview_known _ _ _ _ _ _ _ _ _ _ Hk E) as (-> & Hwf & Hh & _ & Hstart).
  pose proof (to_write_ok _ Hwf Hu) as Hok.
  apply (import_steps_hold _ _ _ (ib_previewHash b0)) in Hsteps; [|done..].
  cbn [fst snd] in Hsteps. destruct (rollback_calm sha256 _ _ _ _ _ _ actor uuid' now' Hok Hsteps Hb Hs) as (st' & s' & b' & -> & H1 & H2 & H3 & H4).
  exists st', s', b'. split_and!; try done. intros r Hr. rewrite Hstart by done. by apply H3.
Qed.

(** ** A sink *)

(** The smallest store that takes imports: a map of notes, one row for each note. *)
Module Notes.
Definition note_key (row : NormalizedImportRow) : string := default EmptyString (string_of (jget "key" row)).
Definition note_after (row : NormalizedImportRow) : json := JObj [("text", default JNull (jget "text" row))].
Definition note (s : gmap string json) (k : string) : json := default JNull (s !! k).

#[export] Instance note_sink : ImportSink (gmap string json) := {
  sink_kind := "notes";
  sink_fields := ["key"; "text"];
  normalize now raw :=
    match string_of (jget "key" raw) with
    | Some (String _ _) => (Some raw, [])
    | _ => (None, [reason_at MISSING_FIELD "key" "key is required"])
    end;
  keyOf := note_key;
  inspect s row :=
    let before := note s (note_key row) in
    {| si_action := if bool_decide (before = JNull) then create
                    else if bool_decide (sameState before (note_after row)) then noop else update;
       si_before := before; si_after := note_after row; si_reviewReasons := [] |};
  sink_apply s row ctx := (<[note_key row := note_after row]> s, note_after row);
  current := note;
  revert s t actor :=
    if bool_decide (te_before t = JNull) then delete (te_key t) s else <[te_key t := te_before t]> s;
}.

#[export] Program Instance note_laws : ImportSinkLaws (gmap string json) := {
  predictable s row := True;
  restorable before after := True;
}.
Next Obligation.
  intros now raw n. cbn. destruct (string_of (jget "key" raw)) as [[|c k]|] eqn:E; intros [= <-].
  exists raw. split; [done|]. unfold note_key. by rewrite E.
Qed.
Next Obligation. done. Qed.
Next Obligation. intros s row ctx. cbn. unfold note. by rewrite lookup_insert_eq. Qed.
Next Obligation. intros s row ctx k Hk. cbn. unfold note. by rewrite lookup_insert_ne. Qed.
Next Obligation. intros s s' row ctx _ _. cbn. unfold note. by rewrite lookup_insert_eq. Qed.
Next Obligation. done. Qed.
Next Obligation.
  intros s t actor k Hk. cbn. unfold note. case_bool_decide; by rewrite ?lookup_delete_ne, ?lookup_insert_ne.
Qed.
Next Obligation.
  intros s t actor _ _. cbn. unfold note. case_bool_decide as E; [by rewrite lookup_delete_eq, E|].
  by rewrite lookup_insert_eq.
Qed.

Definition upload : PreviewInput :=
  {| pi_kind := "notes"; pi_format := "json"; pi_csv := None; pi_sourceName := None; pi_actor := "ann";
     pi_rows := Some (JArr [ JObj [("key", JStr "a"); ("text", JStr "new")];
                             JObj [("key", JStr "b"); ("text", JStr "other")] ]) |}.
Definition before : gmap string json := {["b" := JObj [("text", JStr "old")]]}.
Definition staged := preview (λ s, s) new_pipeline (before, []) upload "1" "u" 0.
Definition batch_in (st : pipeline) : ImportBatch := default (new_batch (λ s, s) st upload "" "" [] 0) (aget "1" (batches st)).
Definition approve (st : pipeline) : CommitOptions :=
  {| co_previewHash := ib_previewHash (batch_in st); co_actor := "bob"; co_allowDuplicate := false |}.
End Notes.

Lemma new_pipeline_keyed : keyed new_pipeline.
Proof. split; constructor. Qed.

Section samples.
Import Notes.

(** Somebody edits one of the two notes between the preview and the commit. *)
Lemma commit_exact_witness :
  let st := staged.1.1 in let b := batch_in st in
  let s := <["b" := JObj [("text", JStr "edited")]]> before in
  (∃ st' s' b' new, commit (λ s, s) st (s, []) (ib_id b) (approve st) false "u2" 1 = (st', (s', []), Ok b') ∧
    aget (ib_id b) (batches st') = Some b' ∧ ib_status b' = committed ∧ ib_trace b' = ib_trace b ++ new ∧
    Forall2 (λ row row', due (te_rowIndex <$> ib_trace b) (ib_attempts b) row →
      row_committed s (current s' (key_of row)) new row row') (ib_rows b) (ib_rows b') ∧
    (∀ k, (∀ row, row ∈ ib_rows b → due (te_rowIndex <$> ib_trace b) (ib_attempts b) row → key_of row ≠ k) →
      current s' k = current s k)) ∧
  rw_verdict <$> ib_rows (batch_in (commit (λ s, s) st (s, []) "1" (approve st) false "u2" 1).1.1) =
    [accepted; quarantined].
Proof.
  intros st b s. split; [|vm_compute; reflexivity].
  apply (commit_exact (λ s, s) st s b (approve st) "u2" 1); [vm_compute; reflexivity|vm_compute; discriminate| |].
  - vm_compute. reflexivity.
  - destruct staged as [[st1 w1] r] eqn:E. destruct r as [b1|]; [|exfalso; vm_compute in E; discriminate].
    destruct (preview_known (λ s, s) new_pipeline before upload "1" "u" 0 st1 w1 b1 new_pipeline_keyed E)
      as (_ & Hwf & _ & Hb). subst b st. cbn [fst]. unfold batch_in. rewrite (proj1 Hb). exact Hwf.
Defined.

Definition after_commit := commit (λ s, s) staged.1.1 (before, []) "1" (approve staged.1.1) false "u2" 1.

Lemma import_rollback_restores_witness :
  let st0 := staged.1.1 in let b0 := batch_in st0 in
  let st := after_commit.1.1 in let s := after_commit.1.2.1 in
  current s "a" = JObj [("text", JStr "new")] ∧
  ∃ st' s' b', rollback (λ s, s) st (s, []) "1" (ib_previewHash b0) "bob" "u3" 2 = (st', (s', []), Ok b') ∧
    ib_status b' = rolled_back ∧ aget "1" (batches st') = Some b' ∧
    (∀ r, r ∈ to_write (ib_rows b0) → sameState (current s' (key_of r)) (current before (key_of r))) ∧
    (∀ k, k ∉ key_of <$> to_write (ib_rows b0) → current s' k = current s k).
Proof.
  intros st0 b0 st s. split; [vm_compute; reflexivity|].
  apply (import_rollback_restores (λ s, s) new_pipeline st0 st before s (before, []) upload "1" "u" 0 b0 (batch_in st)
    "bob" "u3" 2 new_pipeline_keyed).
  - vm_compute. reflexivity.
  - apply Forall_forall. intros r _ s' ctx _. exact I.
  - apply rtc_once. apply (step_commit (λ s, s) (to_write (ib_rows b0)) "1" st0 before [] (approve st0) false "u2" 1
      st after_commit.1.2 after_commit.2); [constructor|].
    by destruct after_commit as [[? ?] ?] eqn:E; subst st; rewrite <- E.
  - vm_compute. reflexivity.
  - vm_compute. left.
Defined.

(** The write of the first row is done and then reported as failed.  The row is not in
    the trace, so the rollback of the batch does not look at it: the write stays, and
    the batch is said to be rolled back. *)
Definition cache_down : list (turn (S := gmap string json)) := [ {| others := λ s, s; outcome := Works |};
                                       {| others := λ s, s; outcome := Throws true "cache is down" |} ].

Lemma rollback_misses_unacknowledged_write :
  let st0 := staged.1.1 in
  let '(st, w, _) := commit (λ s, s) st0 (before, cache_down) "1" (approve st0) false "u2" 1 in
  let '(st', w', r) := rollback (λ s, s) st w "1" (co_previewHash (approve st0)) "bob" "u3" 2 in
  ib_status (batch_in st) = partially_committed ∧ ib_status (batch_in st') = rolled_back ∧
  ib_rollbackConflicts (batch_in st') = [] ∧
  current before "a" = JNull ∧ current w'.1 "a" = JObj [("text", JStr "new")].
Proof. vm_compute. split_and!; reflexivity. Qed.

(** The audit entry of a commit names whoever uploaded the file, not whoever committed. *)
Lemma commit_audited_as_previewer :
  (λ e, (ar_action e, ar_actor e)) <$>
    getEntityHistory (audit after_commit.1.1) "import_batch" "1" =
  [("import.previewed", "ann"); ("import.committed", "ann")].
Proof. vm_compute. reflexivity. Qed.
End samples.

(** ** Locks and capacity *)

Section others.
Context {S : Type} `{ImportSink S}.
Context (sha256 : string → string).

Definition locked (b : ImportBatch) : Prop := ib_status b = committing ∨ ib_status b = rolling_back.

(** The status tests of a locked batch all fail. *)
Ltac refute := repeat (match goal with |- context [bool_decide ?P] => change (bool_decide P) with false end); cbn [negb andb].

(** While a commit or a rollback of a batch is waiting, every other request for the
    batch is refused and changes neither the batch nor the store. *)
Lemma locked_batch_refuses st w id b o h actor off uuid now :
  aget id (batches st) = Some b → ib_id b = id → locked b →
  let refused st' (w' : world (S := S)) r := w' = w ∧ aget id (batches st') = Some b ∧ ∃ e, r = Err e in
  (let '(st', w', r) := commit sha256 st w id o off uuid now in refused st' w' r) ∧
  (let '(st', w', r) := rollback sha256 st w id h actor uuid now in refused st' w' r) ∧
  (let '(st', r) := discard sha256 st id actor uuid now in refused st' w r).
Proof.
  intros Hb Hid Hl refused. unfold refused, commit, rollback, discard, getInternal. rewrite Hb.
  assert (expireIfStale now b = b) as ->.
  { unfold expireIfStale. rewrite bool_decide_eq_false_2; [done|]. by destruct Hl as [->| ->]. }
  assert (aget id (batches (set_batch st b)) = Some b) as Hs by (cbn; by rewrite aget_aput, Hid, decide_True).
  split; [|split].
  - destruct off; [by eauto|]. unfold commit_guard. destruct Hl as [->| ->]; refute; eauto.
  - destruct Hl as [->| ->]; refute; eauto.
  - destruct Hl as [->| ->]; refute; eauto.
Qed.

Lemma earliest_elem bs b : earliest bs = Some b → b ∈ bs.
Proof.
  revert b. induction bs as [|b0 bs IH]; [done|]. cbn. intros b. destruct (earliest bs) as [b'|].
  - destruct (String.leb _ _); intros [= <-]; [by left|right; auto].
  - intros [= <-]. by left.
Qed.

Lemma aput_length (k : string) (b : ImportBatch) m : (length (aput k b m) ≤ Datatypes.S (length m))%nat.
Proof. induction m as [|[k1 b1] m IH]; cbn; [lia|]. case_decide; cbn; lia. Qed.

Lemma adel_length (k : string) (b : ImportBatch) m :
  aget k m = Some b → length m = Datatypes.S (length (adel k m)).
Proof. induction m as [|[k1 b1] m IH]; cbn; [done|]. case_decide; [done|]. intros E. cbn. by rewrite <- IH. Qed.

(** Making room leaves a free place, and only ever takes that of a batch that nobody
    needs to act on. *)
Lemma ensureCapacity_room st now st' :
  keyed st → Z.of_nat (length (batches st)) ≤ MAX_BATCHES → ensureCapacity st now = (st', Ok tt) →
  Z.of_nat (length (batches st')) < MAX_BATCHES ∧
  ∀ id b, aget id (batches st) = Some b →
    aget id (batches st') = Some b ∨
    aget id (batches st') = Some (expireIfStale now b) ∨
    (aget id (batches st') = None ∧ ib_status (expireIfStale now b) ∈ TERMINAL).
Proof.
  intros [Hn Hf] Hle E. unfold ensureCapacity in E.
  destruct (Z.ltb_spec (Z.of_nat (length (batches st))) MAX_BATCHES).
  { injection E as <-. auto. }
  destruct (earliest _) as [v|] eqn:Ev; [|done]. injection E as <-. cbn [batches].
  apply earliest_elem, list_elem_of_filter in Ev as [Ht Hv].
  rewrite <- list_fmap_compose in Hv. apply list_elem_of_fmap in Hv as ([k b] & -> & Hkb). cbn in *.
  set (bs := (λ kb, (kb.1, expireIfStale now kb.2)) <$> batches st).
  assert (NoDup bs.*1) as Hn' by (unfold bs; by rewrite map_keys).
  assert (ib_id (expireIfStale now b) = k) as Hk.
  { rewrite Forall_forall in Hf. specialize (Hf _ Hkb). cbn in Hf. rewrite <- Hf. unfold expireIfStale. by destruct (_ && _). }
  rewrite Hk. pose proof (elem_aget k b _ Hn Hkb) as Hg.
  assert (aget k bs = Some (expireIfStale now b)) as Hg' by (unfold bs; by rewrite aget_map, Hg).
  split.
  - apply adel_length in Hg'. unfold bs in Hg' at 1. rewrite length_fmap in Hg'. lia.
  - intros id b' Hb'. rewrite aget_adel by done. case_decide as Ek.
    + subst id. rewrite Hg in Hb'. injection Hb' as <-. auto.
    + right; left. unfold bs. by rewrite aget_map, Hb'.
Qed.

(** The pipeline never keeps more than [MAX_BATCHES] batches. *)
Lemma preview_bounded st w i id uuid now st' w' r :
  keyed st → Z.of_nat (length (batches st)) ≤ MAX_BATCHES →
  preview sha256 st w i id uuid now = (st', w', r) → Z.of_nat (length (batches st')) ≤ MAX_BATCHES.
Proof.
  intros Hk Hle E. unfold preview in E. destruct (negb _); [by injection E as <- <- <-|].
  destruct (bool_decide (pi_actor i = _)); [by injection E as <- <- <-|].
  destruct (ensureCapacity st now) as [st1 [[]|e]] eqn:Ec.
  - pose proof (proj1 (ensureCapacity_room _ _ _ Hk Hle Ec)) as Hlt.
    destruct (parse sha256 i) as [[parsed sha]|]; [|injection E as <- <- <-; lia].
    destruct (inspect_rows w _) as [w1 [rows|]]; injection E as <- <- <-; cbn [recordAudit batches]; [|lia].
    pose proof (aput_length id (new_batch sha256 st1 i id sha rows now) (batches st1)). lia.
  - injection E as <- <- <-. unfold ensureCapacity in Ec. destruct (_ <? _); [done|].
    destruct (earliest _); [done|]. injection Ec as <- _. cbn. by rewrite length_fmap.
Qed.
End others.
