(* ===== verification/KycImport.v ===== *)
(** * Importing KYC attestations

    Models [api/src/imports/kyc-import.sink.ts], the sink that imports write investors'
    KYC records through.  It is an instance of [ImportSink] over the KYC service of
    [KycStore], and of [ImportSinkLaws].

    The store is the service with the environments of its next transitions.  The check
    of a Stellar key, [StrKey.isValidEd25519PublicKey], is an argument, as is what
    [Date.parse] answers outside the format of [JsDate].

    Shown: which rows are accepted ([kyc_normalize_exact]); a commit never makes an
    investor eligible whose KYC was rejected when it started ([import_keeps_rejections]).
    A commit that is not left alone can ([import_lifts_racing_rejection]): the state of
    the record is read, and written in a later step.  What a rolled back creation leaves
    behind can spoil a later import ([reimport_keeps_stale_expiry]). *)
From S2P Require Import Prelude JsDate Json JsonParse Ndjson JsonIndent Csv KycStore AuditTrail Imports.

Definition IMPORTABLE_STATUSES : list KycStatus := [PENDING; VERIFIED; ACCREDITED; REJECTED; EXPIRED].
Definition ELIGIBLE_STATUSES : list KycStatus := [VERIFIED; ACCREDITED].
Definition MAX_EXPIRY_HORIZON_MS : Z := 5 * 365 * 24 * 60 * 60 * 1000.
Definition MAX_REASON_LENGTH : Z := 256.

(** [/^[A-Za-z0-9._:/-]{1,128}$/.test(s)]. *)
Definition reference_char (c : ascii) : bool :=
  let n := code c in
  ((65 <=? n) && (n <=? 90) || (97 <=? n) && (n <=? 122) || (45 <=? n) && (n <=? 58) || (n =? 95))%N.
Definition PROVIDER_REFERENCE (s : string) : bool :=
  str_forall reference_char s && (1 <=? Z.of_nat (String.length s)) && (Z.of_nat (String.length s) <=? 128).

(** The formats of a time: [/^\d{13}$/], and ISO 8601 with a zone,
    [/^\d{4}-\d{2}-\d{2}T\d{2}:\d{2}(:\d{2}(\.\d+)?)?(Z|[+-]\d{2}:\d{2})$/]. *)
Fixpoint digits_then (n : nat) (s : string) (k : string → bool) : bool :=
  match n, s with
  | O, _ => k s
  | S n, String c s => is_digit c && digits_then n s k
  | S _, EmptyString => false
  end.
Definition char_then (n : N) (s : string) (k : string → bool) : bool :=
  match s with String c s => (code c =? n)%N && k s | EmptyString => false end.

Definition EPOCH_MS (s : string) : bool := digits_then 13 s is_nil.
Definition zone (s : string) : bool :=
  match s with
  | String c r =>
      if (code c =? 90)%N then is_nil r
      else ((code c =? 43) || (code c =? 45))%N && digits_then 2 r (λ r, char_then 58 r (λ r, digits_then 2 r is_nil))
  | EmptyString => false
  end.
Definition ISO_WITH_ZONE (s : string) : bool :=
  digits_then 4 s (λ s, char_then 45 s (λ s, digits_then 2 s (λ s, char_then 45 s (λ s,
  digits_then 2 s (λ s, char_then 84 s (λ s, digits_then 2 s (λ s, char_then 58 s (λ s, digits_then 2 s (λ s,
    match s with
    | String c r =>
        if (code c =? 58)%N then
          digits_then 2 r (λ r,
            match r with
            | String c r' => if (code c =? 46)%N then digits1 r' zone else zone r
            | EmptyString => false
            end)
        else zone s
    | EmptyString => false
    end))))))))).

(** The part of a record that an import can change. *)
Record KycImportState := { ks_status : KycStatus; ks_expiresAt : option Z }.

Definition state_json (s : option KycImportState) : json :=
  match s with
  | Some s => JObj [("status", JStr (kyc_text (ks_status s))); ("expiresAt", nullable jint (ks_expiresAt s))]
  | None => JNull
  end.

Definition project (r : option KycRecord) : option KycImportState :=
  match r with
  | Some r => if bool_decide (kr_status r = NONE) then None
              else Some {| ks_status := kr_status r; ks_expiresAt := kr_expiresAt r |}
  | None => None
  end.

(** [before?.status] and [before?.expiresAt] of a traced state. *)
Definition before_status (j : json) : KycStatus := default NONE (read_status (prop j "status")).
Definition before_expiresAt (j : json) : option Z := read_int (prop j "expiresAt").

(** The fields of a normalized row; its status is one of the importable ones. *)
Definition row_status (row : NormalizedImportRow) : KycStatus := default NONE (read_status (jget "status" row)).
Definition row_text (row : NormalizedImportRow) (k : string) : option string := string_of (jget k row).
Definition row_expiresAt (row : NormalizedImportRow) : option Z := read_int (jget "expiresAt" row).

(** ** Reading a row *)

Section normalize.
Context (validKey : string → bool) (other_dates : string → option Z).

Definition text (raw : RawImportRow) (field : string) : option string :=
  match jget field raw with
  | Some JNull | None => None
  | Some v => match trim (js_String v) with EmptyString => None | t => Some t end
  end.

Definition read_ms (t : string) : option Z :=
  if EPOCH_MS t then nonempty_digits 10 t
  else if ISO_WITH_ZONE t then Date_parse other_dates t
  else None.

(** The statuses are texts here; a text that names none is just not eligible. *)
Definition eligible_text (s : string) : bool := bool_decide (s ∈ kyc_text <$> ELIGIBLE_STATUSES).

Definition parseExpiry (value : option string) (status : option string) (now : Z) :
    option Z * list QuarantineReason :=
  let bad m := (None, [reason_at INVALID_VALUE "expiresAt" m]) in
  match value with
  | None =>
      (None, match status with
             | Some s => if eligible_text s
                         then [reason_at MISSING_FIELD "expiresAt" ("expiresAt is required for status " +:+ s)]
                         else []
             | None => []
             end)
  | Some t =>
      if match status with Some s => negb (eligible_text s) | None => false end then
        bad "expiresAt only applies to verified/accredited"
      else
        match read_ms t with
        | None => bad "expiresAt must be epoch milliseconds or ISO-8601 with a timezone"
        | Some ms =>
            if ms <=? now then bad "expiresAt is in the past"
            else if now + MAX_EXPIRY_HORIZON_MS <? ms then bad "expiresAt is more than 5 years ahead"
            else (Some ms, [])
        end
  end.

Definition address_reasons (a : option string) : list QuarantineReason :=
  match a with
  | None => [reason_at MISSING_FIELD "address" "address is required"]
  | Some a => if validKey a then []
              else [reason_at INVALID_ADDRESS "address" "not a valid Stellar ed25519 public key"]
  end.

Definition status_reasons (s : option string) : list QuarantineReason :=
  match s with
  | None => [reason_at MISSING_FIELD "status" "status is required"]
  | Some s =>
      if bool_decide (s ∈ kyc_text <$> IMPORTABLE_STATUSES) then []
      else [reason_at INVALID_VALUE "status" "status must be one of pending, verified, accredited, rejected, expired"]
  end.

Definition reference_reasons (p : option string) : list QuarantineReason :=
  match p with
  | None => [reason_at MISSING_FIELD "providerReference"
               "providerReference is required for traceability to the KYC provider"]
  | Some p =>
      if PROVIDER_REFERENCE p then []
      else [reason_at INVALID_VALUE "providerReference"
              "providerReference must be 1-128 characters of A-Z a-z 0-9 . _ : / -"]
  end.

Definition reason_reasons (r : option string) : list QuarantineReason :=
  match r with
  | Some r => if MAX_REASON_LENGTH <? Z.of_nat (String.length r)
              then [reason_at FIELD_TOO_LONG "reason" "reason exceeds 256 characters"] else []
  | None => []
  end.

Definition kyc_normalize (now : Z) (raw : RawImportRow) : option NormalizedImportRow * list QuarantineReason :=
  let address := text raw "address" in
  let status := to_lower <$> text raw "status" in
  let providerReference := text raw "providerReference" in
  let reason := text raw "reason" in
  let '(expiresAt, expiry) := parseExpiry (text raw "expiresAt") status now in
  let reasons := address_reasons address ++ status_reasons status ++ reference_reasons providerReference ++
                 reason_reasons reason ++ expiry in
  if bool_decide (reasons = []) then
    (Some [ ("address", nullable JStr address); ("status", nullable JStr status);
            ("providerReference", nullable JStr providerReference); ("expiresAt", nullable jint expiresAt);
            ("reason", nullable JStr reason) ], [])
  else (None, reasons).
End normalize.

(** ** The sink *)

Definition kyc_state : Type := kyc_service * list kyc_env.

(** The environment of the next transition. *)
Definition next_env (s : kyc_state) : kyc_env * list kyc_env :=
  match s.2 with
  | e :: es => (e, es)
  | [] => ({| ev_read := 0; ev_now := 0; ev_id := EmptyString; ev_fate := {| cut := None; renamed := true |};
              ev_redis := [] |}, [])
  end.

Definition transition (s : kyc_state) (i : Transition) : kyc_state * KycRecord :=
  let '(e, es) := next_env s in
  let '(sv, r) := transitionStatus s.1 i e in ((sv, es), r).

Definition record_at (s : kyc_state) (key : string) : option KycRecord := KycStore.get (sv_store s.1) key.

Definition kyc_key (row : NormalizedImportRow) : string := default EmptyString (row_text row "address").

Definition kyc_inspect (s : kyc_state) (row : NormalizedImportRow) : SinkInspection :=
  let before := project (record_at s (kyc_key row)) in
  let after := {| ks_status := row_status row;
                  ks_expiresAt := orelse (row_expiresAt row) (before ≫= ks_expiresAt) |} in
  {| si_action := match before with
                  | None => create
                  | Some b => if bool_decide (ks_status b = ks_status after) &&
                                 bool_decide (ks_expiresAt b = ks_expiresAt after) then noop else update
                  end;
     si_before := state_json before; si_after := state_json (Some after);
     si_reviewReasons :=
       if bool_decide (ks_status <$> before = Some REJECTED) && bool_decide (row_status row ∈ ELIGIBLE_STATUSES)
       then [reason_at REQUIRES_REVIEW "status"
               "a bulk import cannot lift a KYC rejection; re-verify this investor through the provider flow"]
       else [] |}.

Definition import_trace (ctx : ApplyContext) : string :=
  "import " +:+ ac_batchId ctx +:+ " row " +:+ Z_to_string (ac_rowIndex ctx) +:+ " sha256:" +:+
  String.substring 0 16 (ac_fingerprint ctx).

(** What stands between the trace of an import and the reason of the row; the dash of the
    source is outside the characters of the model. *)
Definition dash : string := " - ".
Definition kyc_apply (s : kyc_state) (row : NormalizedImportRow) (ctx : ApplyContext) : kyc_state * json :=
  let '(s, r) := transition s
    {| tr_address := kyc_key row; tr_toStatus := row_status row; tr_source := FromImport;
       tr_actor := Some (ac_actor ctx);
       tr_reason := Some (match row_text row "reason" with
                          | Some r => import_trace ctx +:+ dash +:+ r
                          | None => import_trace ctx
                          end);
       tr_providerReference := row_text row "providerReference"; tr_expiresAt := row_expiresAt row |} in
  (s, state_json (project (Some r))).

Definition kyc_current (s : kyc_state) (key : string) : json := state_json (project (record_at s key)).

Definition kyc_revert (s : kyc_state) (t : ImportTraceEntry) (actor : string) : kyc_state :=
  (transition s
     {| tr_address := te_key t; tr_toStatus := before_status (te_before t); tr_source := FromImport;
        tr_actor := Some actor;
        tr_reason := Some ("rollback of import " +:+ te_batchId t +:+ " row " +:+ Z_to_string (te_rowIndex t));
        tr_providerReference := None; tr_expiresAt := before_expiresAt (te_before t) |}).1.

(** ** It is a sink *)

Lemma transition_record s i a :
  record_at (transition s i).1 a = if decide (a = tr_address i) then Some (transition s i).2 else record_at s a.
Proof.
  unfold transition, record_at. destruct (next_env s) as [e es]. unfold transitionStatus.
  pose proof (applyTransition_get (sv_store s.1) i (ev_id e) (ev_now e) (ev_fate e) a) as Hg.
  destruct (applyTransition _ _ _ _ _) as [st [[r [en|]] nw]]; cbn [fst snd] in *; [|done].
  destruct (invalidateCache _ _ _) as [c fs]. by destruct (writeThroughCache _ _ _) as [c' fs'].
Qed.

Lemma transition_result s i :
  kr_status (transition s i).2 = tr_toStatus i ∧
  kr_expiresAt (transition s i).2 = orelse (tr_expiresAt i) (record_at s (tr_address i) ≫= kr_expiresAt).
Proof.
  unfold transition, record_at. destruct (next_env s) as [e es]. unfold transitionStatus.
  assert (∀ st r en nw, applyTransition (sv_store s.1) i (ev_id e) (ev_now e) (ev_fate e) = (st, (r, en, nw)) →
    kr_status r = tr_toStatus i ∧
    kr_expiresAt r = orelse (tr_expiresAt i) (KycStore.get (sv_store s.1) (tr_address i) ≫= kr_expiresAt)) as HA.
  { intros st r en nw. unfold applyTransition. destruct (KycStore.get _ _) as [r0|] eqn:E.
    - destruct (_ && _) eqn:Eu.
      + intros [= _ <- _ _]. bool_to_prop. cbn. split; [done|]. destruct (tr_expiresAt i); cbn; congruence.
      + intros [= _ <- _ _]. done.
    - intros [= _ <- _ _]. cbn. split; [done|]. by destruct (tr_expiresAt i). }
  destruct (applyTransition _ _ _ _ _) as [st [[r en] nw]] eqn:E. specialize (HA _ _ _ _ eq_refl).
  destruct en as [en|]; [|done].
  destruct (invalidateCache _ _ _) as [c fs]. by destruct (writeThroughCache _ _ _) as [c' fs'].
Qed.

Lemma transition_current s i a :
  tr_toStatus i ≠ NONE → a = tr_address i →
  kyc_current (transition s i).1 a =
  state_json (Some {| ks_status := tr_toStatus i;
                      ks_expiresAt := orelse (tr_expiresAt i) (record_at s (tr_address i) ≫= kr_expiresAt) |}).
Proof.
  intros Hn ->. unfold kyc_current. rewrite transition_record, decide_True by done.
  destruct (transition_result s i) as [Hs Hx]. cbn [project]. rewrite Hs, Hx. by rewrite bool_decide_eq_false_2.
Qed.

Lemma transition_other s i a : a ≠ tr_address i → kyc_current (transition s i).1 a = kyc_current s a.
Proof. intros Hne. unfold kyc_current. by rewrite transition_record, decide_False. Qed.

Lemma state_ok s : json_ok (state_json s) = true.
Proof. destruct s as [[k [x|]]|]; [|done..].
  cbn [state_json ks_status ks_expiresAt nullable json_ok forallb snd]. by rewrite jint_ok. Qed.

(** Two states compare as the same when they are. *)
Lemma state_same a b : sameState (state_json a) (state_json b) → a = b.
Proof.
  intros E. unfold sameState, stableStringify in E.
  apply JSON_stringify_inj in E; [|by apply canonicalize_ok, state_ok..].
  assert (∀ s, match s with
               | Some s => prop (canonicalize (state_json (Some s))) "status" = Some (JStr (kyc_text (ks_status s))) ∧
                           prop (canonicalize (state_json (Some s))) "expiresAt" = Some (nullable jint (ks_expiresAt s))
               | None => True
               end) as Hp.
  { intros [[k x]|]; [|done]. rewrite !prop_canonicalize by done. cbn. split; [done|]. by destruct x. }
  destruct a as [a|], b as [b|]; try done.
  destruct (Hp (Some a)) as [Ha1 Ha2], (Hp (Some b)) as [Hb1 Hb2]. rewrite E in Ha1, Ha2.
  rewrite Ha1 in Hb1. rewrite Ha2 in Hb2. injection Hb1 as Hs. injection Hb2 as Hx.
  apply (f_equal (λ t, read_status (Some (JStr t)))) in Hs. rewrite !read_status_text in Hs. injection Hs as Hs.
  apply (f_equal (λ j, read_nullable read_int (Some j))) in Hx. rewrite !read_nullable_int in Hx. injection Hx as Hx.
  destruct a, b. cbn in *. by subst.
Qed.

Lemma text_nonempty raw f t : text raw f = Some t → t ≠ EmptyString.
Proof. unfold text. intros E ->. repeat case_match; done. Qed.

Lemma eligible_text_spec k : eligible_text (kyc_text k) = bool_decide (k ∈ ELIGIBLE_STATUSES).
Proof. by destruct k. Qed.

Lemma importable_spec t :
  status_reasons t = [] ↔ ∃ k, t = Some (kyc_text k) ∧ k ≠ NONE.
Proof.
  destruct t as [t|]; cbn [status_reasons]; [|naive_solver]. case_bool_decide as Hin; split; try done.
  - intros _. apply list_elem_of_fmap in Hin as (k & -> & Hk). exists k. split; [done|]. intros ->.
    by repeat (apply elem_of_cons in Hk as [?|Hk]; [done|]); apply elem_of_nil in Hk.
  - intros (k & [= ->] & Hk). destruct Hin. apply list_elem_of_fmap_2.
    by destruct k; [done|..]; repeat (first [by apply list_elem_of_here|apply list_elem_of_further]).
Qed.

Lemma expiry_spec other_dates value k now x :
  parseExpiry other_dates value (Some (kyc_text k)) now = (x, []) ↔
  match value, x with
  | None, None => k ∉ ELIGIBLE_STATUSES
  | Some t, Some ms => k ∈ ELIGIBLE_STATUSES ∧ read_ms other_dates t = Some ms ∧ now < ms ≤ now + MAX_EXPIRY_HORIZON_MS
  | _, _ => False
  end.
Proof.
  unfold parseExpiry. rewrite eligible_text_spec. destruct value as [t|].
  - case_bool_decide as He; cbn [negb]; [|destruct x; split; try done; by intros [? _]].
    destruct (read_ms other_dates t) as [ms|]; [|destruct x; split; naive_solver].
    destruct (Z.leb_spec ms now); [destruct x; split; try done; intros (_ & [= ->] & ?); lia|].
    destruct (Z.ltb_spec (now + MAX_EXPIRY_HORIZON_MS) ms);
      [destruct x; split; try done; intros (_ & [= ->] & ?); lia|].
    destruct x; split; try done; [intros [= <-]; split_and!; [done..|lia|lia]|by intros (_ & [= ->] & _)].
  - case_bool_decide; destruct x; split; naive_solver.
Qed.

Section laws.
Context (validKey : string → bool) (other_dates : string → option Z).

#[local] Instance kyc_sink : ImportSink kyc_state := {
  sink_kind := "kyc_attestation";
  sink_fields := ["address"; "status"; "providerReference"; "expiresAt"; "reason"];
  normalize := kyc_normalize validKey other_dates;
  keyOf := kyc_key;
  inspect := kyc_inspect;
  sink_apply := kyc_apply;
  current := kyc_current;
  revert := kyc_revert;
}.

(** What a rolled back creation leaves behind, a record of status [none], may have an
    expiry that the store does not clear. *)
Definition no_leftover (s : kyc_state) (row : NormalizedImportRow) : Prop :=
  match record_at s (kyc_key row) with
  | Some r => kr_status r = NONE → kr_expiresAt r = None ∨ row_expiresAt row ≠ None
  | None => True
  end.
Definition kyc_predictable (s : kyc_state) (row : NormalizedImportRow) : Prop :=
  row_status row ≠ NONE ∧ no_leftover s row.

(** The store does not clear an expiry either when an import is undone. *)
Definition kyc_restorable (before after : json) : Prop :=
  before = JNull ∨
  ∃ b, before = state_json (Some b) ∧ ks_status b ≠ NONE ∧
    (ks_expiresAt b ≠ None ∨ ∃ k, after = state_json (Some {| ks_status := k; ks_expiresAt := None |})).

Lemma project_none_expiry s a k :
  project (record_at s a) = Some {| ks_status := k; ks_expiresAt := None |} → record_at s a ≫= kr_expiresAt = None.
Proof. unfold project. destruct (record_at s a) as [r|]; [|done]. case_bool_decide; [done|]. by intros [= _ ?]. Qed.

Lemma kyc_apply_after s s' row ctx :
  kyc_predictable s' row → sameState (kyc_current s' (kyc_key row)) (si_before (kyc_inspect s row)) →
  sameState (kyc_current (kyc_apply s' row ctx).1 (kyc_key row)) (si_after (kyc_inspect s row)).
Proof.
  intros [Hn Hl] E%state_same. unfold kyc_apply. set (i := {| tr_address := kyc_key row |}).
  pose proof (transition_current s' i (kyc_key row) Hn eq_refl) as Hc. destruct (transition s' i) as [s1 r]. cbn [fst] in *.
  rewrite Hc. cbn [kyc_inspect si_after tr_toStatus tr_expiresAt tr_address i]. rewrite <- E.
  unfold no_leftover in Hl. destruct (record_at s' (kyc_key row)) as [r'|]; [|done]. cbn [project mbind option_bind].
  case_bool_decide as Hr; [|done]. destruct (Hl Hr) as [->|Hx]; [done|]. by destruct (row_expiresAt row).
Qed.

Lemma kyc_revert_before s t actor :
  kyc_restorable (te_before t) (te_after t) → sameState (kyc_current s (te_key t)) (te_after t) →
  sameState (kyc_current (kyc_revert s t actor) (te_key t)) (te_before t).
Proof.
  unfold kyc_revert. intros [->|(b & -> & Hn & Hx)] E; set (i := {| tr_address := te_key t |}).
  - unfold kyc_current. rewrite transition_record, decide_True by done. cbn [project].
    rewrite (proj1 (transition_result s i)). cbn. done.
  - assert (before_status (state_json (Some b)) = ks_status b) as Hs by (cbn; by destruct (ks_status b)).
    assert (before_expiresAt (state_json (Some b)) = ks_expiresAt b) as Hb.
    { unfold before_expiresAt. cbn. destruct (ks_expiresAt b); [|done]. apply read_int_jint. }
    rewrite transition_current; [|cbn [tr_toStatus i]; by rewrite Hs|done].
    cbn [tr_toStatus tr_expiresAt tr_address i]. rewrite Hs, Hb. destruct b as [k [x|]]; [done|].
    destruct Hx as [?|[k' Ha]]; [done|]. rewrite Ha in E. apply state_same, project_none_expiry in E. by rewrite E.
Qed.

#[local] Program Instance kyc_laws : ImportSinkLaws kyc_state := {
  predictable := kyc_predictable;
  restorable := kyc_restorable;
}.
Next Obligation.
  intros now raw n. cbn. unfold kyc_normalize. destruct (parseExpiry _ _ _ _) as [x rs].
  case_bool_decide as Hr; [|intros [= _ ?]; congruence]. intros [= <-]. eexists. split; [reflexivity|].
  unfold kyc_key, row_text. cbn. destruct (text raw "address") as [a|] eqn:Ea; [|by apply app_nil in Hr as [? _]].
  cbn. by eapply text_nonempty.
Qed.
Next Obligation. done. Qed.
Next Obligation.
  intros s row ctx. cbn. unfold kyc_apply. set (i := {| tr_address := kyc_key row |}).
  pose proof (transition_record s i (kyc_key row)) as Hr. destruct (transition s i) as [s' r].
  unfold kyc_current. cbn [fst snd] in Hr. by rewrite Hr, decide_True.
Qed.
Next Obligation.
  intros s row ctx k Hk. cbn. unfold kyc_apply. set (i := {| tr_address := kyc_key row |}).
  pose proof (transition_other s i k Hk) as Hr. by destruct (transition s i).
Qed.
Next Obligation. intros s s' row ctx. apply kyc_apply_after. Qed.
Next Obligation.
  intros s row ctx row' Hk [Hn Hl]. split; [done|]. cbn in Hk. unfold no_leftover in *. cbn. unfold kyc_apply.
  set (i := {| tr_address := kyc_key row |}). pose proof (transition_record s i (kyc_key row')) as Hr.
  rewrite decide_False in Hr by (cbn; congruence). destruct (transition s i) as [s' r]. cbn [fst] in *. by rewrite Hr.
Qed.
Next Obligation. intros s t actor k Hk. by apply transition_other. Qed.
Next Obligation. intros s t actor. apply kyc_revert_before. Qed.

(** *** Which rows are accepted *)

(** A row of an attestation file that means something: who, what, under which reference,
    until when. *)
Record attestation := {
  at_address : string;
  at_status : KycStatus;
  at_reference : string;
  at_expiresAt : option Z;
  at_reason : option string;
}.

Definition attests (now : Z) (raw : RawImportRow) (a : attestation) : Prop :=
  text raw "address" = Some (at_address a) ∧ validKey (at_address a) = true ∧
  to_lower <$> text raw "status" = Some (kyc_text (at_status a)) ∧ at_status a ≠ NONE ∧
  text raw "providerReference" = Some (at_reference a) ∧ PROVIDER_REFERENCE (at_reference a) = true ∧
  text raw "reason" = at_reason a ∧
  match at_reason a with Some r => Z.of_nat (String.length r) ≤ MAX_REASON_LENGTH | None => True end ∧
  match text raw "expiresAt", at_expiresAt a with
  | None, None => at_status a ∉ ELIGIBLE_STATUSES
  | Some t, Some ms => at_status a ∈ ELIGIBLE_STATUSES ∧ read_ms other_dates t = Some ms ∧
                       now < ms ≤ now + MAX_EXPIRY_HORIZON_MS
  | _, _ => False
  end.

Definition attestation_row (a : attestation) : NormalizedImportRow :=
  [ ("address", JStr (at_address a)); ("status", JStr (kyc_text (at_status a)));
    ("providerReference", JStr (at_reference a)); ("expiresAt", nullable jint (at_expiresAt a));
    ("reason", nullable JStr (at_reason a)) ].

(** *** Rejections *)

Definition status_at (s : kyc_state) (k : string) : option KycStatus := kr_status <$> record_at s k.

Lemma status_current s k b : kyc_current s k = state_json (Some b) → status_at s k = Some (ks_status b).
Proof.
  intros E. assert (project (record_at s k) = Some b) as Hp.
  { apply state_same. unfold kyc_current in E. by rewrite E. }
  unfold status_at. destruct (record_at s k) as [r|]; [|done]. cbn in Hp |- *. case_bool_decide; by simplify_eq.
Qed.

Lemma status_same s s' k : kyc_current s' k = kyc_current s k → status_at s k = Some REJECTED → status_at s' k = Some REJECTED.
Proof.
  intros E Hs. destruct (record_at s k) as [r|] eqn:Er; unfold status_at in Hs; rewrite Er in Hs; [|done].
  injection Hs as Hs. change REJECTED with (ks_status {| ks_status := REJECTED; ks_expiresAt := kr_expiresAt r |}).
  apply status_current. rewrite E. unfold kyc_current. rewrite Er. cbn. by rewrite Hs.
Qed.

Lemma rejected_ineligible : REJECTED ∉ ELIGIBLE_STATUSES.
Proof. by apply (bool_decide_eq_false (REJECTED ∈ ELIGIBLE_STATUSES)). Qed.

#[local] Instance due_dec skip attempts row : Decision (due skip attempts row).
Proof. unfold due. apply _. Defined.

(** What a row that is due makes of a rejected record. *)
Lemma row_keeps_rejection s s' new row row' :
  row_wf row → rw_verdict row = accepted → foreseen s row →
  row_committed s (current s' (key_of row)) new row row' →
  status_at s (key_of row) = Some REJECTED →
  ∀ k, status_at s' (key_of row) = Some k → k ∉ ELIGIBLE_STATUSES.
Proof.
  intros Hwf Ha Hf Hrc Hs. destruct (Hwf Ha) as (n & s0 & Hn & Hk & Hne & Hb & Haf & _ & Hrev).
  assert (∀ s2, kyc_current s2 (key_of row) = kyc_current s (key_of row) →
    ∀ k, status_at s2 (key_of row) = Some k → k ∉ ELIGIBLE_STATUSES) as Hsame.
  { intros s2 E k Hk2. rewrite (status_same s s2 _ E Hs) in Hk2. injection Hk2 as <-. apply rejected_ineligible. }
  destruct Hrc as [(Hc & _ & Hfin & _)|[(_ & _ & E & _)|(_ & _ & E & _)]]; [|exact (Hsame s' E)..].
  intros k Hk'. specialize (Hfin Hf). rewrite Hb in Hc. rewrite Haf in Hfin.
  apply (state_same (project (record_at s (key_of row))) (project (record_at s0 (kyc_key n)))) in Hc.
  apply (state_same (project (record_at s' (key_of row)))
    (Some {| ks_status := row_status n;
             ks_expiresAt := orelse (row_expiresAt n) (project (record_at s0 (kyc_key n)) ≫= ks_expiresAt) |})) in Hfin.
  cbn [inspect kyc_sink kyc_inspect si_reviewReasons] in Hrev.
  assert (ks_status <$> project (record_at s (key_of row)) = Some REJECTED) as Hp.
  { unfold status_at in Hs. destruct (record_at s (key_of row)) as [r|]; [|done]. injection Hs as Hs. cbn. by rewrite Hs. }
  rewrite Hc in Hp. rewrite bool_decide_eq_true_2 in Hrev by done.
  assert (status_at s' (key_of row) = Some (row_status n)) as Hst.
  { unfold status_at. destruct (record_at s' (key_of row)) as [r|]; [|done]. cbn [project] in Hfin. cbn.
    destruct (bool_decide (kr_status r = NONE)); [done|]. injection Hfin as Hk2 _. by rewrite Hk2. }
  rewrite Hst in Hk'. injection Hk' as <-. cbn in Hrev. by case_bool_decide.
Qed.

(** Committing an import never makes an investor eligible whose KYC stands rejected
    when the commit starts.  Rows over a rejected record are held back at the preview;
    when the rejection came after the preview, the record no longer is what was
    previewed and the row is set aside. *)
Theorem import_keeps_rejections sha256 (st st' : pipeline) s s' b o off uuid now ts r a :
  aget (ib_id b) (batches st) = Some b → rows_wf (ib_rows b) → Forall (foreseen s) (ib_rows b) →
  commit sha256 st (s, []) (ib_id b) o off uuid now = (st', (s', ts), r) →
  status_at s a = Some REJECTED → ∀ k, status_at s' a = Some k → k ∉ ELIGIBLE_STATUSES.
Proof.
  intros Hb (Hwf & _ & Hnd) Hf E Hrej.
  assert (∀ s2, kyc_current s2 a = kyc_current s a → ∀ k, status_at s2 a = Some k → k ∉ ELIGIBLE_STATUSES) as Hsame.
  { intros s2 Es k Hk. rewrite (status_same s s2 a Es Hrej) in Hk. injection Hk as <-. apply rejected_ineligible. }
  unfold commit, getInternal in E. destruct off; [injection E as _ <- _ _; by apply Hsame|].
  rewrite Hb in E. pose proof (expire_fields now b) as (_ & _ & _ & Hrows). set (b1 := expireIfStale now b) in *.
  destruct (commit_guard _ b1 o); [|injection E as _ <- _ _; by apply Hsame]. rewrite Hrows in E.
  destruct (commit_rows_calm b1 (te_rowIndex <$> ib_trace b1) (co_actor o) now s
    {| pg_done := []; pg_trace := ib_trace b1; pg_attempts := ib_attempts b1; pg_lastError := ib_lastError b1 |}
    (ib_rows b) Hwf Hnd) as (s2 & p' & Er & rows' & new & _ & _ & HF & Hfr).
  rewrite Er in E. injection E as _ <- _ _. cbn [pg_attempts] in *.
  destruct (decide (Exists (λ row, due (te_rowIndex <$> ib_trace b1) (ib_attempts b1) row ∧ key_of row = a) (ib_rows b)))
    as [(row & Hin & Hdue & <-)%Exists_exists|Hno].
  - apply list_elem_of_lookup in Hin as (i & Hi). destruct (Forall2_lookup_l _ _ _ _ _ HF Hi) as (row' & _ & HR).
    rewrite Forall_lookup in Hwf, Hf. destruct Hdue as [Hacc Hdue].
    eapply row_keeps_rejection; [by eapply Hwf|done|by eapply Hf|by apply HR|done].
  - apply Hsame, Hfr. intros row Hin Hdue Hk. apply Hno, Exists_exists. eauto.
Qed.
End laws.

(** An attestation row is accepted exactly when it names a valid key, an importable
    status, a well-formed provider reference and a reason that is not too long, with an
    expiry when and only when the status makes an investor eligible, in the future and at
    most five years ahead; what is imported is then exactly what the row says.  Every
    other row is refused with at least one reason. *)
Theorem kyc_normalize_exact validKey other_dates now raw :
  match kyc_normalize validKey other_dates now raw with
  | (Some row, reasons) => reasons = [] ∧ ∃ a, attests validKey other_dates now raw a ∧ row = attestation_row a
  | (None, reasons) => reasons ≠ [] ∧ ∀ a, ¬ attests validKey other_dates now raw a
  end.
Proof.
  unfold kyc_normalize. destruct (parseExpiry _ _ _ _) as [x rs] eqn:Ex. case_bool_decide as Hr.
  - split; [done|]. apply app_nil in Hr as [Ha [Hs [Hp [Hq ->]%app_nil]%app_nil]%app_nil].
    destruct (text raw "address") as [a|] eqn:Ea; [|done].
    apply importable_spec in Hs as (k & Hk & Hne). rewrite Hk in *.
    destruct (text raw "providerReference") as [p|] eqn:Ep; [|done].
    apply expiry_spec in Ex. cbn in Ha, Hp.
    exists {| at_address := a; at_status := k; at_reference := p; at_expiresAt := x; at_reason := text raw "reason" |}.
    split; [|done]. unfold attests. cbn. rewrite Ea, Hk, Ep. split_and!; try done.
    + by destruct (validKey a).
    + by destruct (PROVIDER_REFERENCE p).
    + unfold reason_reasons in Hq. destruct (text raw "reason") as [r|]; [|done].
      by destruct (Z.ltb_spec MAX_REASON_LENGTH (Z.of_nat (String.length r))).
  - split; [done|]. intros a (Ha & Hv & Hs & Hne & Hp & Hpv & Hre & Hrl & Hx). apply Hr. rewrite Hs in Ex.
    rewrite Ha, Hp, Hre, Hs. cbn [address_reasons reference_reasons]. rewrite Hv, Hpv.
    rewrite (proj2 (importable_spec (Some (kyc_text (at_status a))))) by eauto.
    assert (reason_reasons (at_reason a) = []) as ->.
    { destruct (at_reason a) as [r|]; [|done]. cbn. by rewrite (proj2 (Z.ltb_ge _ _) Hrl). }
    cbn. assert (parseExpiry other_dates (text raw "expiresAt") (Some (kyc_text (at_status a))) now =
      (at_expiresAt a, [])) as E by (by apply expiry_spec). congruence.
Qed.

(** ** Examples *)

Section samples.
Definition any_key (s : string) : bool := true.
Definition no_dates (s : string) : option Z := None.
#[local] Instance sample_sink : ImportSink kyc_state := kyc_sink any_key no_dates.
#[local] Instance sample_laws : ImportSinkLaws kyc_state := kyc_laws any_key no_dates.

Definition attest (address status : string) (expiresAt : option string) : json :=
  JObj ([("address", JStr address); ("status", JStr status); ("providerReference", JStr "ref-1")] ++
        match expiresAt with Some x => [("expiresAt", JStr x)] | None => [] end).
Definition file_of (rows : list json) : PreviewInput :=
  {| pi_kind := "kyc_attestation"; pi_format := "json"; pi_rows := Some (JArr rows); pi_csv := None;
     pi_sourceName := None; pi_actor := "ann" |}.

Definition nobody : kyc_state := (new_service, []).
Definition rejecting (a : string) (s : kyc_state) : kyc_state :=
  (transition s {| tr_address := a; tr_toStatus := REJECTED; tr_source := FromAdmin; tr_actor := None;
                   tr_reason := Some "sanctions"; tr_providerReference := None; tr_expiresAt := None |}).1.

Definition T : Z := 1700000000000.
Definition kyc_staged := preview (λ s, s) new_pipeline (nobody, []) (file_of [attest "GA" "verified" (Some "1710000000000")]) "1" "u" T.
Definition kyc_batch (id : string) (st : pipeline) : ImportBatch :=
  default (new_batch (λ s, s) st (file_of []) "" "" [] 0) (aget id (batches st)).
Definition kyc_approve (id : string) (st : pipeline) : CommitOptions :=
  {| co_previewHash := ib_previewHash (kyc_batch id st); co_actor := "bob"; co_allowDuplicate := true |}.

(** The investor is rejected between the preview and the commit. *)
Lemma import_keeps_rejections_witness :
  let st := kyc_staged.1.1 in let b := kyc_batch "1" st in let s := rejecting "GA" nobody in
  let '(st', (s', ts), r) := commit (λ s, s) st (s, []) (ib_id b) (kyc_approve "1" st) false "u2" T in
  status_at s' "GA" = Some REJECTED ∧ ∀ k, status_at s' "GA" = Some k → k ∉ ELIGIBLE_STATUSES.
Proof.
  intros st b s.
  destruct (commit (λ s, s) st (s, []) (ib_id b) (kyc_approve "1" st) false "u2" T) as [[st' [s' ts]] r] eqn:E.
  split.
  - pose proof (f_equal (λ x, x.1.2.1) E) as Es. cbn [fst snd] in Es. rewrite <- Es. vm_compute. reflexivity.
  - apply (import_keeps_rejections any_key no_dates (λ s, s) st st' s s' b (kyc_approve "1" st) false "u2" T ts r "GA");
      [vm_compute; reflexivity| | |exact E|vm_compute; reflexivity].
    + destruct kyc_staged as [[st1 w1] r1] eqn:E1. destruct r1 as [b1|]; [|exfalso; vm_compute in E1; discriminate].
      destruct (preview_known (λ s, s) new_pipeline nobody _ "1" "u" T st1 w1 b1 new_pipeline_keyed E1)
        as (_ & Hwf & _ & Hb & _). subst b st. cbn [fst]. unfold kyc_batch. rewrite Hb. exact Hwf.
    + assert (ib_rows b = [default (stage_row (λ s, s) 0 0 {| pr_line := 0; pr_row := None; pr_error := None |}) (ib_rows b !! 0%nat)])
        as -> by (vm_compute; reflexivity).
      constructor; [|constructor]. intros _. split; [vm_compute; discriminate|]. vm_compute. intros Habs. discriminate Habs.
Defined.

(** Reading the record and writing it are two steps: an investor who is rejected in
    between is made eligible again, and the batch is reported as committed. *)
Definition rejected_meanwhile : list turn :=
  [ {| others := λ s, s; outcome := Works |}; {| others := rejecting "GA"; outcome := Works |} ].

Lemma import_lifts_racing_rejection :
  let st := kyc_staged.1.1 in
  let '(st', w, _) := commit (λ s, s) st (nobody, rejected_meanwhile) "1" (kyc_approve "1" st) false "u2" T in
  status_at (rejecting "GA" nobody) "GA" = Some REJECTED ∧ status_at w.1 "GA" = Some VERIFIED ∧
  ib_status (kyc_batch "1" st') = committed.
Proof. vm_compute. split_and!; reflexivity. Qed.

(** An investor is imported with an expiry, the import is rolled back, and the investor is
    imported again without one: the preview announces no expiry, and the record keeps
    that of the import that was taken back. *)
Definition kyc_imported := commit (λ s, s) kyc_staged.1.1 (nobody, []) "1" (kyc_approve "1" kyc_staged.1.1) false "u2" T.
Definition kyc_undone :=
  rollback (λ s, s) kyc_imported.1.1 kyc_imported.1.2 "1" (co_previewHash (kyc_approve "1" kyc_staged.1.1)) "bob" "u3" T.
Definition kyc_again := preview (λ s, s) kyc_undone.1.1 kyc_undone.1.2 (file_of [attest "GA" "pending" None]) "2" "u4" T.

Lemma reimport_keeps_stale_expiry :
  let '(st, w, _) := commit (λ s, s) kyc_again.1.1 kyc_again.1.2 "2" (kyc_approve "2" kyc_again.1.1) false "u5" T in
  ib_status (kyc_batch "1" st) = rolled_back ∧ ib_rollbackConflicts (kyc_batch "1" st) = [] ∧
  rw_after <$> ib_rows (kyc_batch "2" st) =
    [state_json (Some {| ks_status := PENDING; ks_expiresAt := None |})] ∧
  kyc_current w.1 "GA" = state_json (Some {| ks_status := PENDING; ks_expiresAt := Some 1710000000000 |}).
Proof. vm_compute. split_and!; reflexivity. Qed.
End samples.
