(* ===== verification/Market.v ===== *)
(** * The secondary market

    Models [api/src/marketplace/]: reading orders from the ledger and listing them
    ([dex.service.ts]), the price impact limits ([price-impact.service.ts]), the quotes
    of [liquidity.service.ts] and the checks a purchase goes through before the contract
    is called ([buyBondTokens], [cancelOrder]).

    The contract is outside: its orders are an argument, [fetch], that may fail on any
    id.  Amounts and prices are the integers their decimal texts stand for; the code
    computes with them as [BigInt], whose division truncates.  A ratio that is turned
    into a [Number] is kept exact: it is only compared with limits far below 2^53, and
    rounding is monotone.  The texts of refusals are kept as data.

    Shown: sweeping the sorted book is the cheapest way to fill an order
    ([sweep_cheapest]); a purchase is allowed exactly when it meets the documented limits
    ([impact_allowed_exact]); the amount suggested to a refused buyer, and anything below
    it, is allowed, and is the most that the limits allow when the price was the reason
    ([suggestion_allowed]); the quote for slippage and the price impact agree
    ([slippage_agrees]); following the cursor lists every matching order once
    ([cursor_lists_all]).  What the checks miss: [partial_order_unbuyable],
    [impact_ignores_chosen_order], [suggestion_beyond_limit]. *)
From S2P Require Import Prelude JsDate.

(** ** Orders *)

Inductive OrderStatus := Open | PartiallyFilled | Filled | Cancelled | Expired.
#[export] Instance OrderStatus_eq_dec : EqDecision OrderStatus.
Proof. solve_decision. Defined.

Record OrderResponse := {
  od_id : Z;
  od_seller : string;
  od_bondId : Z;
  od_amount : Z;
  od_pricePerToken : Z;
  od_quoteAsset : string;
  od_status : OrderStatus;
  od_createdAt : string;
  od_expiresAt : string;
}.

(** An order as the contract returns it. *)
Record ledger_order := {
  lo_id : Z;
  lo_seller : string;
  lo_bondId : Z;
  lo_amount : Z;
  lo_pricePerToken : Z;
  lo_quoteAsset : string;
  lo_status : Z;
  lo_createdAt : Z;
  lo_expiresAt : Z;
}.

Definition orderStatusFromIndex (i : Z) : OrderStatus :=
  match i with 0 => Open | 1 => PartiallyFilled | 2 => Filled | 3 => Cancelled | 4 => Expired | _ => Open end.

Definition deriveEffectiveStatus (now : Z) (raw : OrderStatus) (expiresAtSeconds : Z) : OrderStatus :=
  let isOpenState := bool_decide (raw = Open) || bool_decide (raw = PartiallyFilled) in
  if isOpenState && (expiresAtSeconds <=? now / 1000) then Expired else raw.

Definition decodeOrder (now : Z) (o : ledger_order) : OrderResponse :=
  {| od_id := lo_id o; od_seller := lo_seller o; od_bondId := lo_bondId o; od_amount := lo_amount o;
     od_pricePerToken := lo_pricePerToken o; od_quoteAsset := lo_quoteAsset o;
     od_status := deriveEffectiveStatus now (orderStatusFromIndex (lo_status o)) (lo_expiresAt o);
     od_createdAt := iso_text (lo_createdAt o * 1000); od_expiresAt := iso_text (lo_expiresAt o * 1000) |}.

(** The orders of the contract: how many there are, and what reading one gives. *)
Record ledger := { order_count : Z; fetch : Z → option ledger_order }.

Definition tryGetOrder (now : Z) (l : ledger) (id : Z) : option OrderResponse := decodeOrder now <$> fetch l id.

(** *** Listing *)

Record page_meta := {
  pm_page : option Z; pm_limit : Z; pm_total : Z; pm_nextCursor : option Z; pm_totalPages : Z;
}.
Record order_page := { pg_data : list OrderResponse; pg_meta : page_meta }.

(** [Math.ceil(n / limit) || 1]. *)
Definition page_count (n limit : Z) : Z :=
  let c := - (- n / limit) in if c =? 0 then 1 else c.

(** [!bondId] is true of 0 as well. *)
Definition order_matches (bondId : option Z) (status : option OrderStatus) (o : OrderResponse) : bool :=
  match bondId with Some b => (b =? 0) || (od_bondId o =? b) | None => true end &&
  match status with Some s => bool_decide (od_status o = s) | None => true end.

Section listing.
Context (now : Z) (l : ledger) (bondId : option Z) (status : option OrderStatus).

Definition matching_at (id : Z) : list OrderResponse :=
  match tryGetOrder now l id with
  | Some o => if order_matches bondId status o then [o] else []
  | None => []
  end.

(** The loop from [currentId]; [fuel] counts the ids left. *)
Fixpoint cursor_scan (fuel : nat) (limit currentId : Z) (found : list OrderResponse) : list OrderResponse * Z :=
  match fuel with
  | O => (found, currentId)
  | S fuel =>
      if (Z.of_nat (length found) <? limit) && (currentId <=? order_count l) then
        cursor_scan fuel limit (currentId + 1) (found ++ matching_at currentId)
      else (found, currentId)
  end.

Definition list_from_cursor (cursor limit : Z) : order_page :=
  let '(found, currentId) := cursor_scan (Z.to_nat (order_count l - cursor)) limit (cursor + 1) [] in
  {| pg_data := found;
     pg_meta := {| pm_page := None; pm_limit := limit; pm_total := Z.of_nat (length found);
                   pm_nextCursor := if currentId <=? order_count l then Some (currentId - 1) else None;
                   pm_totalPages := page_count (Z.of_nat (length found)) limit |} |}.

(** [Array.from({ length: total }, (_, i) => i + 1)]. *)
Definition all_ids : list Z := (λ i, Z.of_nat i + 1) <$> seq 0 (Z.to_nat (order_count l)).

Definition all_matching : list OrderResponse := mjoin (matching_at <$> all_ids).

Definition list_page (page limit : Z) : order_page :=
  let start := (page - 1) * limit in
  {| pg_data := take (Z.to_nat limit) (drop (Z.to_nat start) all_matching);
     pg_meta := {| pm_page := Some page; pm_limit := limit; pm_total := Z.of_nat (length all_matching);
                   pm_nextCursor := None; pm_totalPages := page_count (Z.of_nat (length all_matching)) limit |} |}.

(** [cached] is the page found in the cache, if any. *)
Definition listOrders (cached : option order_page) (page limit : Z) (cursor : option Z) : order_page :=
  match cached, cursor with
  | Some p, _ => p
  | None, Some c => list_from_cursor c limit
  | None, None => list_page page limit
  end.
End listing.

(** ** Price impact *)

Inductive LiquidityTier := LIQUID | MODERATE | ILLIQUID.
#[export] Instance LiquidityTier_eq_dec : EqDecision LiquidityTier.
Proof. solve_decision. Defined.

Record PriceImpactConfig := {
  illiquidThresholdAmount : Z;
  moderateThresholdAmount : Z;
  tierImpactLimitsBps : LiquidityTier → Z;
  maxIlliquidDepthConsumptionBps : Z;
}.

Definition DEFAULT_PRICE_IMPACT_CONFIG : PriceImpactConfig :=
  {| illiquidThresholdAmount := 5000; moderateThresholdAmount := 25000;
     tierImpactLimitsBps := λ t, match t with LIQUID => 300 | MODERATE => 600 | ILLIQUID => 1000 end;
     maxIlliquidDepthConsumptionBps := 5000 |}.

(** [inMemoryConfig] and what Redis answers for the bond; a failed read is [None]. *)
Definition getConfig (inMemory : list (Z * PriceImpactConfig)) (cached : option PriceImpactConfig)
    (bondId : option Z) : PriceImpactConfig :=
  match bondId with
  | Some b => match aget b inMemory with
              | Some c => c
              | None => default DEFAULT_PRICE_IMPACT_CONFIG cached
              end
  | None => DEFAULT_PRICE_IMPACT_CONFIG
  end.

Record config_patch := {
  cp_illiquidThresholdAmount : option Z;
  cp_moderateThresholdAmount : option Z;
  cp_tierImpactLimitsBps : LiquidityTier → option Z;
  cp_maxIlliquidDepthConsumptionBps : option Z;
}.

Definition setConfig (inMemory : list (Z * PriceImpactConfig)) (cached : option PriceImpactConfig) (bondId : Z)
    (p : config_patch) : list (Z * PriceImpactConfig) * PriceImpactConfig :=
  let current := getConfig inMemory cached (Some bondId) in
  let updated :=
    {| illiquidThresholdAmount := default (illiquidThresholdAmount current) (cp_illiquidThresholdAmount p);
       moderateThresholdAmount := default (moderateThresholdAmount current) (cp_moderateThresholdAmount p);
       tierImpactLimitsBps := λ t, default (tierImpactLimitsBps current t) (cp_tierImpactLimitsBps p t);
       maxIlliquidDepthConsumptionBps :=
         default (maxIlliquidDepthConsumptionBps current) (cp_maxIlliquidDepthConsumptionBps p) |} in
  (aput bondId updated inMemory, updated).

Definition classifyLiquidityTier (availableDepth : Z) (c : PriceImpactConfig) : LiquidityTier :=
  if availableDepth <? illiquidThresholdAmount c then ILLIQUID
  else if availableDepth <? moderateThresholdAmount c then MODERATE
  else LIQUID.

Inductive impact_reason :=
| EmptyBook
| InsufficientDepth (requested available : Z)
| ImpactExceeded (bps limit : Z) (tier : LiquidityTier)
| DepthExceeded (ratioBps limitBps : Z).

Record PriceImpactEvaluation := {
  ev_bondId : Z;
  ev_requestedAmount : Z;
  ev_quoteAsset : string;
  ev_liquidityTier : LiquidityTier;
  ev_availableDepth : Z;
  ev_bestPrice : Z;
  ev_marginalPrice : Z;
  ev_averageExecutionPrice : Z;
  ev_totalCost : Z;
  ev_priceImpactBps : Z;
  ev_maxAllowedImpactBps : Z;
  ev_isAllowed : bool;
  ev_depthConsumptionRatioBps : Z;
  ev_maxDepthConsumptionBps : Z;
  ev_reason : option impact_reason;
  ev_suggestedMaxAmount : Z;
}.

(** [/^[1-9]\d*$/], read as an integer. *)
Definition positive_integer (s : string) : option Z :=
  match s with
  | String c r => if ((49 <=? code c) && (code c <=? 57))%N && str_forall is_digit r then digits_val 10 0 s else None
  | EmptyString => None
  end.

Definition sort_asks : list OrderResponse → list OrderResponse := sort_by od_pricePerToken.

(** What a loop over the asks keeps. *)
Record sweep_state := { sw_remaining : Z; sw_cost : Z; sw_filled : Z; sw_marginal : Z }.

Fixpoint sweep (asks : list OrderResponse) (s : sweep_state) : sweep_state :=
  match asks with
  | [] => s
  | ask :: asks =>
      if sw_remaining s <=? 0 then s
      else
        let take := if sw_remaining s <? od_amount ask then sw_remaining s else od_amount ask in
        sweep asks {| sw_remaining := sw_remaining s - take; sw_cost := sw_cost s + take * od_pricePerToken ask;
                      sw_filled := sw_filled s + take; sw_marginal := od_pricePerToken ask |}
  end.

Definition sweep_from (asks : list OrderResponse) (amount best : Z) : sweep_state :=
  sweep asks {| sw_remaining := amount; sw_cost := 0; sw_filled := 0; sw_marginal := best |}.

(** How much dearer than the ideal, in parts of [scale]. *)
Definition excess (scale cost ideal : Z) : Z := if 0 <? ideal then Z.quot ((cost - ideal) * scale) ideal else 0.

Definition impact_of (asks : list OrderResponse) (best amount : Z) : Z :=
  excess 10000 (sw_cost (sweep_from asks amount best)) (amount * best).

(** The binary search for the largest amount within the limit. *)
Fixpoint search (fuel : nat) (asks : list OrderResponse) (best limit low high safeAmount : Z) : Z :=
  match fuel with
  | O => safeAmount
  | S fuel =>
      if low <=? high then
        let mid := Z.quot (low + high) 2 in
        if impact_of asks best mid <=? limit then search fuel asks best limit (mid + 1) high mid
        else search fuel asks best limit low (mid - 1) safeAmount
      else safeAmount
  end.

(** Every round halves the range. *)
Definition search_fuel (high : Z) : nat := S (Z.to_nat (Z.log2 (Z.max 1 high))).

Definition evaluate_book (c : PriceImpactConfig) (bondId : Z) (quoteAsset : string) (sortedAsks : list OrderResponse)
    (requestedAmount : Z) : PriceImpactEvaluation :=
  let totalAvailableDepth := zsum (od_amount <$> sortedAsks) in
  let tier := classifyLiquidityTier totalAvailableDepth c in
  let maxAllowedImpactBps := tierImpactLimitsBps c tier in
  match sortedAsks with
  | [] =>
      {| ev_bondId := bondId; ev_requestedAmount := requestedAmount; ev_quoteAsset := quoteAsset;
         ev_liquidityTier := tier; ev_availableDepth := 0; ev_bestPrice := 0; ev_marginalPrice := 0;
         ev_averageExecutionPrice := 0; ev_totalCost := 0; ev_priceImpactBps := 0;
         ev_maxAllowedImpactBps := maxAllowedImpactBps; ev_isAllowed := false;
         ev_depthConsumptionRatioBps := 10000; ev_maxDepthConsumptionBps := maxIlliquidDepthConsumptionBps c;
         ev_reason := Some EmptyBook; ev_suggestedMaxAmount := 0 |}
  | first :: _ =>
      if totalAvailableDepth =? 0 then
        {| ev_bondId := bondId; ev_requestedAmount := requestedAmount; ev_quoteAsset := quoteAsset;
           ev_liquidityTier := tier; ev_availableDepth := 0; ev_bestPrice := 0; ev_marginalPrice := 0;
           ev_averageExecutionPrice := 0; ev_totalCost := 0; ev_priceImpactBps := 0;
           ev_maxAllowedImpactBps := maxAllowedImpactBps; ev_isAllowed := false;
           ev_depthConsumptionRatioBps := 10000; ev_maxDepthConsumptionBps := maxIlliquidDepthConsumptionBps c;
           ev_reason := Some EmptyBook; ev_suggestedMaxAmount := 0 |}
      else
        let bestPrice := od_pricePerToken first in
        let s := sweep_from sortedAsks requestedAmount bestPrice in
        let averageExecutionPrice := if 0 <? sw_filled s then Z.quot (sw_cost s) (sw_filled s) else 0 in
        let priceImpactBps := excess 10000 (sw_cost s) (sw_filled s * bestPrice) in
        let ratio := if 0 <? totalAvailableDepth then Z.quot (requestedAmount * 10000) totalAvailableDepth else 10000 in
        let reason :=
          if 0 <? sw_remaining s then Some (InsufficientDepth requestedAmount totalAvailableDepth)
          else if maxAllowedImpactBps <? priceImpactBps then
            Some (ImpactExceeded priceImpactBps maxAllowedImpactBps tier)
          else if bool_decide (tier = ILLIQUID) && (maxIlliquidDepthConsumptionBps c <? ratio) then
            Some (DepthExceeded ratio (maxIlliquidDepthConsumptionBps c))
          else None in
        let depthCap := Z.quot (totalAvailableDepth * maxIlliquidDepthConsumptionBps c) 10000 in
        let capped :=
          if bool_decide (tier = ILLIQUID) && (depthCap <? totalAvailableDepth) then depthCap
          else totalAvailableDepth in
        let scanAmount := if capped <? requestedAmount then capped else requestedAmount in
        let suggestedMax :=
          if maxAllowedImpactBps <? priceImpactBps then
            search (search_fuel scanAmount) sortedAsks bestPrice maxAllowedImpactBps 1 scanAmount 0
          else capped in
        {| ev_bondId := bondId; ev_requestedAmount := requestedAmount; ev_quoteAsset := quoteAsset;
           ev_liquidityTier := tier; ev_availableDepth := totalAvailableDepth; ev_bestPrice := bestPrice;
           ev_marginalPrice := sw_marginal s; ev_averageExecutionPrice := averageExecutionPrice;
           ev_totalCost := sw_cost s; ev_priceImpactBps := priceImpactBps;
           ev_maxAllowedImpactBps := maxAllowedImpactBps;
           ev_isAllowed := match reason with None => true | Some _ => false end;
           ev_depthConsumptionRatioBps := ratio;
           ev_maxDepthConsumptionBps := maxIlliquidDepthConsumptionBps c; ev_reason := reason;
           ev_suggestedMaxAmount := suggestedMax |}
  end.

Inductive market_error :=
| BadRequest (message : string)
| Conflict (message : string)
| NotFound (message : string)
| PaymentRequired (message : string)
| Unavailable (message : string)
| PriceImpactRefused (e : PriceImpactEvaluation).

(** [open] is the first page of a hundred open orders of the bond. *)
Definition evaluatePriceImpact (c : PriceImpactConfig) (open : list OrderResponse) (bondId : Z) (amount : string)
    (quoteAsset : string) : result market_error PriceImpactEvaluation :=
  match positive_integer amount with
  | None => Err (BadRequest "Amount must be a positive integer string")
  | Some requested =>
      Ok (evaluate_book c bondId quoteAsset (sort_asks (filter (λ o, od_quoteAsset o = quoteAsset) open)) requested)
  end.

Definition assertPriceImpactPermitted (e : PriceImpactEvaluation) : result market_error unit :=
  throw_if (negb (ev_isAllowed e)) (PriceImpactRefused e).

(** ** What sweeping the book costs *)

Definition depth (asks : list OrderResponse) : Z := zsum (od_amount <$> asks).

(** The cost of the first [q] tokens of the book. *)
Fixpoint cost (asks : list OrderResponse) (q : Z) : Z :=
  match asks with
  | [] => 0
  | a :: asks => if q <=? od_amount a then q * od_pricePerToken a
                 else od_amount a * od_pricePerToken a + cost asks (q - od_amount a)
  end.

(** A book: no negative amounts, cheapest first. *)
Definition book (asks : list OrderResponse) : Prop :=
  Forall (λ a, 0 ≤ od_amount a) asks ∧ StronglySorted (λ a b, od_pricePerToken a ≤ od_pricePerToken b) asks.

Lemma book_cons a asks :
  book (a :: asks) → 0 ≤ od_amount a ∧ book asks ∧ Forall (λ b, od_pricePerToken a ≤ od_pricePerToken b) asks.
Proof. intros [[? ?]%Forall_cons [? ?]%StronglySorted_inv]. done. Qed.

Lemma depth_cons a asks : depth (a :: asks) = od_amount a + depth asks.
Proof. done. Qed.

Lemma depth_nonneg asks : book asks → 0 ≤ depth asks.
Proof.
  induction asks as [|a asks IH]; [done|]. intros (H1 & H2 & _)%book_cons. specialize (IH H2).
  rewrite depth_cons. lia.
Qed.

Lemma cost_zero asks : book asks → cost asks 0 = 0.
Proof.
  destruct asks as [|b asks]; [done|]. intros (? & _)%book_cons. cbn. destruct (Z.leb_spec 0 (od_amount b)); lia.
Qed.

(** The loop computes that cost, and fills what the book has. *)
Lemma sweep_spec asks s :
  book asks → 0 ≤ sw_remaining s →
  let q := Z.min (sw_remaining s) (depth asks) in
  let s' := sweep asks s in
  sw_remaining s' = sw_remaining s - q ∧ sw_cost s' = sw_cost s + cost asks q ∧ sw_filled s' = sw_filled s + q.
Proof.
  revert s. induction asks as [|a asks IH]; intros s Hb Hq; cbn zeta.
  { cbn. unfold depth. cbn. rewrite Z.min_r by done. lia. }
  pose proof (book_cons _ _ Hb) as (Ha & Hb' & _). pose proof (depth_nonneg _ Hb') as Hd. rewrite depth_cons.
  cbn [sweep]. destruct (Z.leb_spec (sw_remaining s) 0) as [H0|H0].
  { rewrite Z.min_l by lia. assert (sw_remaining s = 0) as -> by lia. cbn.
    destruct (Z.leb_spec 0 (od_amount a)); lia. }
  destruct (Z.ltb_spec (sw_remaining s) (od_amount a)) as [Hlt|Hge].
  - destruct (IH {| sw_remaining := sw_remaining s - sw_remaining s;
      sw_cost := sw_cost s + sw_remaining s * od_pricePerToken a; sw_filled := sw_filled s + sw_remaining s;
      sw_marginal := od_pricePerToken a |} Hb') as (H1 & H2 & H3); cbn in *; [lia|].
    rewrite H1, H2, H3. assert (Z.min (sw_remaining s - sw_remaining s) (depth asks) = 0) as -> by lia.
    assert (Z.min (sw_remaining s) (od_amount a + depth asks) = sw_remaining s) as -> by lia.
    rewrite cost_zero by done. destruct (Z.leb_spec (sw_remaining s) (od_amount a)); lia.
  - destruct (IH {| sw_remaining := sw_remaining s - od_amount a;
      sw_cost := sw_cost s + od_amount a * od_pricePerToken a; sw_filled := sw_filled s + od_amount a;
      sw_marginal := od_pricePerToken a |} Hb') as (H1 & H2 & H3); cbn in *; [lia|].
    rewrite H1, H2, H3.
    assert (Z.min (sw_remaining s) (od_amount a + depth asks) = od_amount a + Z.min (sw_remaining s - od_amount a) (depth asks))
      as -> by lia.
    set (q := Z.min (sw_remaining s - od_amount a) (depth asks)).
    destruct (Z.leb_spec (od_amount a + q) (od_amount a)).
    + assert (q = 0) as Hq0 by lia. rewrite Hq0, cost_zero by done. lia.
    + rewrite Z.add_simpl_l. lia.
Qed.

(** Every token costs at least the lowest price. *)
Lemma cost_lower b asks q :
  book asks → Forall (λ a, b ≤ od_pricePerToken a) asks → 0 ≤ q ≤ depth asks → b * q ≤ cost asks q.
Proof.
  revert q. induction asks as [|a asks IH]; intros q Hb Hl Hq.
  { unfold depth in Hq. cbn in *. assert (q = 0) as -> by lia. lia. }
  pose proof (book_cons _ _ Hb) as (Ha & Hb' & _). apply Forall_cons in Hl as [Hla Hl]. rewrite depth_cons in Hq. cbn.
  destruct (Z.leb_spec q (od_amount a)); [nia|]. specialize (IH (q - od_amount a) Hb' Hl). nia.
Qed.

(** The price of the last of [q1] tokens separates what they cost from what more cost. *)
Lemma cost_split b asks q1 q2 :
  book asks → Forall (λ a, b ≤ od_pricePerToken a) asks → 0 ≤ q1 ≤ q2 → q2 ≤ depth asks →
  ∃ p, b ≤ p ∧ cost asks q1 ≤ p * q1 ∧ p * (q2 - q1) ≤ cost asks q2 - cost asks q1.
Proof.
  revert b q1 q2. induction asks as [|a asks IH]; intros b q1 q2 Hb Hl Hq Hd.
  { unfold depth in Hd. cbn in *. exists b. assert (q1 = 0 ∧ q2 = 0) as [-> ->] by lia. lia. }
  pose proof (book_cons _ _ Hb) as (Ha & Hb' & Hs). apply Forall_cons in Hl as [Hla Hl]. rewrite depth_cons in Hd. cbn [cost].
  destruct (Z.leb_spec q1 (od_amount a)) as [H1|H1].
  - exists (od_pricePerToken a). split; [done|]. split; [lia|].
    destruct (Z.leb_spec q2 (od_amount a)) as [H2|H2]; [lia|].
    pose proof (cost_lower _ _ (q2 - od_amount a) Hb' Hs) as Hc. specialize (Hc ltac:(lia)). lia.
  - destruct (Z.leb_spec q2 (od_amount a)); [lia|].
    destruct (IH (od_pricePerToken a) (q1 - od_amount a) (q2 - od_amount a) Hb' Hs) as (p & Hp & Hc1 & Hc2); [lia..|].
    exists p. split; [lia|]. split; [nia|]. lia.
Qed.

(** The average price only grows with the amount. *)
Lemma average_grows asks q1 q2 :
  book asks → Forall (λ a, 0 ≤ od_pricePerToken a) asks → 0 ≤ q1 ≤ q2 → q2 ≤ depth asks →
  cost asks q1 * q2 ≤ cost asks q2 * q1.
Proof.
  intros Hb Hl Hq Hd. destruct (cost_split 0 asks q1 q2 Hb Hl Hq Hd) as (p & Hp & H1 & H2).
  assert (cost asks q1 * (q2 - q1) ≤ p * q1 * (q2 - q1)) by (apply Z.mul_le_mono_nonneg_r; lia).
  assert (p * (q2 - q1) * q1 ≤ (cost asks q2 - cost asks q1) * q1) by (apply Z.mul_le_mono_nonneg_r; lia). lia.
Qed.

(** ** The limits *)

Lemma excess_mono scale c1 i1 c2 i2 :
  0 ≤ scale → 0 < i1 → 0 < i2 → i1 ≤ c1 → i2 ≤ c2 → c1 * i2 ≤ c2 * i1 → excess scale c1 i1 ≤ excess scale c2 i2.
Proof.
  intros Hs H1 H2 Hc1 Hc2 H. unfold excess. rewrite !(proj2 (Z.ltb_lt _ _)) by done.
  rewrite !Z.quot_div_nonneg by (try apply Z.mul_nonneg_nonneg; lia).
  apply Z.div_le_lower_bound; [done|].
  assert ((c1 - i1) * scale / i1 * i1 ≤ (c1 - i1) * scale) as Hd
    by (rewrite Z.mul_comm; apply Z.mul_div_le; done).
  apply (Z.mul_le_mono_pos_r _ _ i1); [done|].
  assert ((c1 - i1) * i2 ≤ (c2 - i2) * i1) as Hx by lia.
  apply (Z.mul_le_mono_nonneg_r _ _ scale) in Hx; [|done].
  apply (Z.mul_le_mono_nonneg_r _ _ i2) in Hd; [|lia]. lia.
Qed.

Lemma excess_nonneg scale c i : 0 ≤ scale → i ≤ c → 0 ≤ excess scale c i.
Proof.
  intros Hs Hc. unfold excess. destruct (Z.ltb_spec 0 i); [|done]. apply Z.quot_pos; [|done].
  apply Z.mul_nonneg_nonneg; lia.
Qed.

(** A book of positive prices, [best] the lowest. *)
Definition priced (asks : list OrderResponse) (best : Z) : Prop :=
  book asks ∧ 0 < best ∧ Forall (λ a, best ≤ od_pricePerToken a) asks.

Lemma impact_cost asks best q :
  book asks → 0 ≤ q ≤ depth asks → impact_of asks best q = excess 10000 (cost asks q) (q * best).
Proof.
  intros Hb Hq. unfold impact_of, sweep_from.
  edestruct (sweep_spec asks {| sw_remaining := q; sw_cost := 0; sw_filled := 0; sw_marginal := best |} Hb)
    as (_ & Hc & _); [cbn; lia|].
  cbn in Hc. rewrite Z.min_l in Hc by lia. by rewrite Hc.
Qed.

Lemma impact_grows asks best q1 q2 :
  priced asks best → 0 < q1 ≤ q2 → q2 ≤ depth asks → impact_of asks best q1 ≤ impact_of asks best q2.
Proof.
  intros (Hb & Hp & Hl) Hq Hd. rewrite !impact_cost by (done || lia).
  pose proof (cost_lower best asks q1 Hb Hl). pose proof (cost_lower best asks q2 Hb Hl).
  assert (cost asks q1 * q2 ≤ cost asks q2 * q1) as Hav.
  { apply average_grows; [done| |lia|done]. eapply Forall_impl; [exact Hl|]. intros a. cbn. lia. }
  apply excess_mono; [done|nia|nia|lia|lia|].
  apply (Z.mul_le_mono_nonneg_r _ _ best) in Hav; lia.
Qed.

(** The search finds the largest amount within the limit. *)
Lemma search_spec fuel asks best limit scan low high safe :
  priced asks best → scan ≤ depth asks → 1 ≤ low → high ≤ scan → low ≤ high + 1 → safe = low - 1 →
  high - low + 1 < 2 ^ Z.of_nat fuel →
  (∀ q, 0 < q < low → impact_of asks best q ≤ limit) → (∀ q, high < q ≤ scan → limit < impact_of asks best q) →
  let r := search fuel asks best limit low high safe in
  0 ≤ r ≤ scan ∧ (∀ q, 0 < q ≤ r → impact_of asks best q ≤ limit) ∧
  (∀ q, r < q ≤ scan → limit < impact_of asks best q).
Proof.
  intros Hb Hd. revert low high safe. induction fuel as [|fuel IH]; intros low high safe Hl Hh Hlh -> Hf Hok Hbad.
  { cbn. cbn in Hf. split; [lia|]. split; [intros; apply Hok; lia|intros; apply Hbad; lia]. }
  rewrite Nat2Z.inj_succ, Z.pow_succ_r in Hf by lia. cbn [search].
  destruct (Z.leb_spec low high) as [Hle|Hgt].
  2:{ split; [lia|]. split; [intros; apply Hok; lia|intros; apply Hbad; lia]. }
  rewrite Z.quot_div_nonneg by lia. set (mid := (low + high) / 2).
  assert (low ≤ mid ≤ high ∧ 2 * mid ≤ low + high < 2 * mid + 2) as [Hm Hm2].
  { unfold mid. pose proof (Z.div_mod (low + high) 2 ltac:(lia)). pose proof (Z.mod_pos_bound (low + high) 2 ltac:(lia)). lia. }
  destruct (Z.leb_spec (impact_of asks best mid) limit) as [Hi|Hi].
  - apply IH; try lia; [|done]. intros q Hq.
    etrans; [apply (impact_grows asks best q mid Hb); lia|done].
  - apply IH; try lia; [done|]. intros q Hq. destruct (decide (q ≤ high)).
    + eapply Z.lt_le_trans; [exact Hi|]. apply (impact_grows asks best mid q Hb); lia.
    + apply Hbad. lia.
Qed.

Lemma search_fuel_enough high : 1 - 1 ≤ high → high - 1 + 1 < 2 ^ Z.of_nat (search_fuel high).
Proof.
  intros Hh. unfold search_fuel. rewrite Nat2Z.inj_succ, Z2Nat.id by apply Z.log2_nonneg.
  pose proof (Z.log2_spec (Z.max 1 high) ltac:(lia)). lia.
Qed.

(** The limits as documented: enough depth, a price close enough to the best one, and on
    an illiquid tranche only part of the depth. *)
Definition within_limits (c : PriceImpactConfig) (asks : list OrderResponse) (best q : Z) : Prop :=
  let tier := classifyLiquidityTier (depth asks) c in
  q ≤ depth asks ∧ impact_of asks best q ≤ tierImpactLimitsBps c tier ∧
  (tier = ILLIQUID → q * 10000 / depth asks ≤ maxIlliquidDepthConsumptionBps c).

Definition book_of (asks : list OrderResponse) : Prop :=
  Forall (λ a, 0 < od_amount a ∧ 0 < od_pricePerToken a) asks.

Lemma sort_asks_priced open a asks :
  book_of open → sort_asks open = a :: asks → priced (a :: asks) (od_pricePerToken a).
Proof.
  intros Ho E. assert (book_of (a :: asks)) as Hb.
  { unfold book_of in *. rewrite <- E. by rewrite (sort_by_perm od_pricePerToken). }
  pose proof (sort_by_sorted od_pricePerToken open) as Hs. fold sort_asks in Hs. rewrite E in Hs.
  pose proof Hs as [_ Hf]%StronglySorted_inv. apply Forall_cons in Hb as [[? ?] Hb].
  split; [split; [|done]|].
  - constructor; [lia|]. eapply Forall_impl; [exact Hb|]. intros x [? _]. cbn. lia.
  - split; [done|]. by constructor.
Qed.

Lemma depth_positive a asks : priced (a :: asks) (od_pricePerToken a) → 0 < od_amount a → 0 < depth (a :: asks).
Proof. intros ((_ & Hb & _)%book_cons & _) Ha. rewrite depth_cons. pose proof (depth_nonneg _ Hb). lia. Qed.

(** *** Evaluating a request *)

Section evaluation.
Context (c : PriceImpactConfig) (bondId : Z) (quoteAsset : string) (a : OrderResponse) (rest : list OrderResponse).
Let asks := a :: rest.
Let best := od_pricePerToken a.
Let limit := tierImpactLimitsBps c (classifyLiquidityTier (depth asks) c).
Hypothesis Hpriced : priced asks best.
Hypothesis Hdepth : 0 < depth asks.
Hypothesis Hcap : 0 ≤ maxIlliquidDepthConsumptionBps c.

Let E (q : Z) := evaluate_book c bondId quoteAsset asks q.
Let filled (q : Z) := Z.min q (depth asks).
Let ratio (q : Z) := q * 10000 / depth asks.
Let cap := depth asks * maxIlliquidDepthConsumptionBps c / 10000.
Let capped := if bool_decide (classifyLiquidityTier (depth asks) c = ILLIQUID) && (cap <? depth asks) then cap else depth asks.
Let scan (q : Z) := Z.min capped q.

Lemma evaluate_unfold q :
  0 < q →
  ev_priceImpactBps (E q) = impact_of asks best (filled q) ∧
  ev_reason (E q) =
    (if depth asks <? q then Some (InsufficientDepth q (depth asks))
     else if limit <? impact_of asks best (filled q) then
       Some (ImpactExceeded (impact_of asks best (filled q)) limit (classifyLiquidityTier (depth asks) c))
     else if bool_decide (classifyLiquidityTier (depth asks) c = ILLIQUID) && (maxIlliquidDepthConsumptionBps c <? ratio q) then
       Some (DepthExceeded (ratio q) (maxIlliquidDepthConsumptionBps c))
     else None) ∧
  ev_isAllowed (E q) = match ev_reason (E q) with None => true | Some _ => false end ∧
  ev_suggestedMaxAmount (E q) =
    (if limit <? impact_of asks best (filled q) then search (search_fuel (scan q)) asks best limit 1 (scan q) 0
     else capped).
Proof.
  intros Hq. unfold E, evaluate_book, asks. fold asks. change (zsum (od_amount <$> asks)) with (depth asks).
  rewrite (proj2 (Z.eqb_neq _ _)) by lia. fold best. fold limit.
  destruct Hpriced as (Hb & Hbest & Hl).
  edestruct (sweep_spec asks {| sw_remaining := q; sw_cost := 0; sw_filled := 0; sw_marginal := best |} Hb)
    as (Hr & Hc & Hf); [cbn; lia|]. cbn [sw_remaining sw_cost sw_filled] in Hr, Hc, Hf.
  rewrite !Z.add_0_l in *. fold (sweep_from asks q best) in Hr, Hc, Hf. fold (filled q) in Hr, Hc, Hf.
  assert (excess 10000 (sw_cost (sweep_from asks q best)) (sw_filled (sweep_from asks q best) * best) =
    impact_of asks best (filled q)) as Hi.
  { rewrite Hc, Hf. rewrite impact_cost; [done..|unfold filled; lia]. }
  rewrite Hi. rewrite !(proj2 (Z.ltb_lt 0 (depth asks))) by done.
  rewrite !(Z.quot_div_nonneg (q * 10000)), !(Z.quot_div_nonneg (depth asks * maxIlliquidDepthConsumptionBps c)) by nia.
  fold (ratio q). fold cap. fold capped.
  assert ((if capped <? q then capped else q) = scan q) as -> by (unfold scan; destruct (Z.ltb_spec capped q); lia).
  assert ((0 <? sw_remaining (sweep_from asks q best)) = (depth asks <? q)) as ->.
  { rewrite Hr. unfold filled. destruct (Z.ltb_spec 0 (q - Z.min q (depth asks))), (Z.ltb_spec (depth asks) q); lia. }
  done.
Qed.

Lemma allowed_iff q : 0 < q → ev_isAllowed (E q) = true ↔ within_limits c asks best q.
Proof.
  intros Hq. destruct (evaluate_unfold q Hq) as (_ & Hr & -> & _). rewrite Hr. unfold within_limits. fold limit.
  fold (ratio q). destruct (Z.ltb_spec (depth asks) q) as [H1|H1]; [split; [done|lia]|].
  assert (filled q = q) as -> by (unfold filled; lia).
  destruct (Z.ltb_spec limit (impact_of asks best q)) as [H2|H2]; [split; [done|lia]|].
  case_bool_decide as Ht; cbn [andb].
  - destruct (Z.ltb_spec (maxIlliquidDepthConsumptionBps c) (ratio q)); split; try done.
    intros (_ & _ & H3). specialize (H3 Ht). lia.
  - split; [|done]. intros _. split_and!; [done|done|by intros ?].
Qed.

(** Up to the cap, the share of the depth is not a reason. *)
Lemma capped_ratio q : 0 < q ≤ capped → q ≤ depth asks ∧
  (classifyLiquidityTier (depth asks) c = ILLIQUID → ratio q ≤ maxIlliquidDepthConsumptionBps c).
Proof.
  unfold capped. intros Hq. assert (cap * 10000 ≤ depth asks * maxIlliquidDepthConsumptionBps c) as Hc.
  { unfold cap. rewrite Z.mul_comm. by apply Z.mul_div_le. }
  assert (q ≤ cap → ratio q ≤ maxIlliquidDepthConsumptionBps c) as Hx.
  { intros Hle. unfold ratio. apply Z.div_le_upper_bound; [done|]. lia. }
  case_bool_decide as Ht; cbn [andb] in Hq.
  - destruct (Z.ltb_spec cap (depth asks)); split; try lia; intros _; apply Hx; lia.
  - split; [lia|]. by intros ?.
Qed.

Lemma ratio_over_cap q : 0 < q → maxIlliquidDepthConsumptionBps c < ratio q → cap < q.
Proof.
  clear capped scan. intros Hq Hr. unfold ratio, cap in *. apply Z.div_lt_upper_bound; [done|].
  assert (depth asks * (maxIlliquidDepthConsumptionBps c + 1) ≤ q * 10000) as H1.
  { etrans; [apply Z.mul_le_mono_nonneg_l; [lia|]; apply Z.le_succ_l, Hr|]. by apply Z.mul_div_le. }
  lia.
Qed.

Lemma capped_illiquid : classifyLiquidityTier (depth asks) c = ILLIQUID → capped ≤ cap.
Proof.
  intros Ht. unfold capped. rewrite (bool_decide_eq_true_2 _ Ht). cbn [andb]. destruct (Z.ltb_spec cap (depth asks)); lia.
Qed.

Lemma suggested_spec q :
  0 < q → ev_isAllowed (E q) = false →
  (∀ q', 0 < q' ≤ ev_suggestedMaxAmount (E q) → within_limits c asks best q') ∧
  0 ≤ ev_suggestedMaxAmount (E q) ≤ capped ∧
  (limit < impact_of asks best (filled q) →
   ∀ q', ev_suggestedMaxAmount (E q) < q' ≤ scan q → ¬ within_limits c asks best q').
Proof.
  intros Hq Hno. destruct (evaluate_unfold q Hq) as (_ & Hr & Ha & Hs).
  assert (0 ≤ capped ≤ depth asks) as Hcd.
  { unfold capped, cap. pose proof (Z.div_pos (depth asks * maxIlliquidDepthConsumptionBps c) 10000 ltac:(nia) ltac:(lia)).
    case_bool_decide; cbn [andb]; [|lia]. destruct (Z.ltb_spec (depth asks * maxIlliquidDepthConsumptionBps c / 10000) (depth asks)); lia. }
  rewrite Hs. destruct (Z.ltb_spec limit (impact_of asks best (filled q))) as [Hi|Hi].
  - destruct (search_spec (search_fuel (scan q)) asks best limit (scan q) 1 (scan q) 0) as (Hrange & Hok & Hbad);
      [done|unfold scan; lia|lia|lia|unfold scan; lia|lia|apply search_fuel_enough; unfold scan; lia|intros; lia|intros; lia|].
    assert (scan q ≤ capped) as Hsc by (unfold scan; lia). split; [|split].
    + intros q' Hq'. destruct (capped_ratio q') as [H1 H2]; [lia|]. split_and!; [done| |done].
      apply Hok. done.
    + lia.
    + intros _ q' Hq' (_ & Hi' & _). specialize (Hbad q' Hq'). fold limit in Hi'. lia.
  - assert (∀ q', 0 < q' ≤ capped → q' ≤ filled q) as Hle.
    { intros q' Hq'. pose proof (ratio_over_cap q Hq) as Hover. pose proof capped_illiquid as Hcc. rewrite Ha, Hr in Hno.
      unfold filled. destruct (Z.ltb_spec (depth asks) q); [lia|].
      case_bool_decide as Ht; [|done]. cbn [andb] in Hno.
      destruct (Z.ltb_spec (maxIlliquidDepthConsumptionBps c) (ratio q)); [|done].
      specialize (Hcc Ht). specialize (Hover ltac:(done)). lia. }
    split_and!; [|lia..|intros; lia]. intros q' Hq'. destruct (capped_ratio q' Hq') as [H1 H2]. split_and!; [done| |done].
    fold limit. etrans; [apply (impact_grows asks best q' (filled q) Hpriced)|done]; [|unfold filled; lia].
    split; [lia|by apply Hle].
Qed.
End evaluation.

(** ** The theorems *)

(** Taking less from the cheapest ask does not pay. *)
Lemma cost_exchange a asks q t :
  book (a :: asks) → 0 ≤ t ≤ od_amount a → 0 ≤ q - t ≤ depth asks →
  cost (a :: asks) q ≤ t * od_pricePerToken a + cost asks (q - t).
Proof.
  intros (Ha & Hb & Hs)%book_cons Ht Hq. cbn [cost]. destruct (Z.leb_spec q (od_amount a)).
  - pose proof (cost_lower _ _ (q - t) Hb Hs). lia.
  - destruct (cost_split _ _ (q - od_amount a) (q - t) Hb Hs) as (p & Hp & _ & Hd); [lia..|]. nia.
Qed.

(** A way to fill an order: how much to take from each ask. *)
Definition takes_ok (ot : OrderResponse * Z) : Prop := 0 ≤ ot.2 ≤ od_amount ot.1.
Definition takes_cost (plan : list (OrderResponse * Z)) : Z := zsum ((λ ot, ot.2 * od_pricePerToken ot.1) <$> plan).

Lemma zsum_cons x l : zsum (x :: l) = x + zsum l.
Proof. done. Qed.

Lemma takes_bounds plan : Forall takes_ok plan → 0 ≤ zsum plan.*2 ≤ depth plan.*1.
Proof.
  induction 1 as [|[o t] plan [H1 H2] _ IH]; [by unfold depth|]. rewrite !fmap_cons, depth_cons, zsum_cons.
  cbn [fst snd] in *. lia.
Qed.

Lemma cost_cheapest plan : book plan.*1 → Forall takes_ok plan → cost plan.*1 (zsum plan.*2) ≤ takes_cost plan.
Proof.
  intros Hb Hp. induction Hp as [|[o t] plan Ht Hp IH]; [done|]. cbn [fst] in Ht.
  pose proof (book_cons _ _ Hb) as (_ & Hb' & _). specialize (IH Hb').
  pose proof (takes_bounds _ Hp) as Hbound.
  pose proof (cost_exchange o plan.*1 (zsum ((o, t) :: plan).*2) t Hb Ht) as He.
  assert (zsum ((o, t) :: plan).*2 = t + zsum plan.*2) as Hz by done.
  assert (takes_cost ((o, t) :: plan) = t * od_pricePerToken o + takes_cost plan) as -> by done.
  rewrite Hz in He |- *. rewrite Z.add_simpl_l in He. specialize (He Hbound). rewrite fmap_cons. cbn [fst]. lia.
Qed.

(** C33: Sweeping the sorted book is the cheapest way to fill an order: no choice of how
    much to take from which of the open orders costs less, and as much is filled as the
    book holds. *)
Theorem sweep_cheapest open plan best :
  Forall (λ o, 0 ≤ od_amount o) open → plan.*1 ≡ₚ open → Forall takes_ok plan →
  let s := sweep_from (sort_asks open) (zsum plan.*2) best in
  sw_cost s ≤ takes_cost plan ∧ sw_remaining s = 0 ∧ sw_filled s = zsum plan.*2.
Proof.
  intros Ho Hp Ht. cbn zeta. pose proof (takes_bounds _ Ht) as Hbound.
  assert (book (sort_asks open)) as Hb.
  { split; [|apply sort_by_sorted]. unfold sort_asks. by rewrite sort_by_perm. }
  assert (depth (sort_asks open) = depth plan.*1) as Hd.
  { unfold depth, sort_asks. apply zsum_perm, fmap_Permutation. by rewrite sort_by_perm. }
  edestruct (sweep_spec (sort_asks open)
    {| sw_remaining := zsum plan.*2; sw_cost := 0; sw_filled := 0; sw_marginal := best |} Hb) as (H1 & H2 & H3);
    [cbn; lia|]. cbn in H1, H2, H3. rewrite Hd, Z.min_l in H1, H2, H3 by lia.
  fold (sweep_from (sort_asks open) (zsum plan.*2) best) in H1, H2, H3. rewrite H1, H2, H3. split; [|lia].
  assert (sort_asks open ≡ₚ map fst plan) as (plan' & Hs & Hperm)%Permutation_map_inv.
  { unfold sort_asks. rewrite sort_by_perm. by symmetry. }
  change (sort_asks open = plan'.*1) in Hs. rewrite Hs in Hb |- *.
  assert (zsum plan.*2 = zsum plan'.*2) as -> by (apply zsum_perm; by rewrite Hperm).
  assert (takes_cost plan = takes_cost plan') as -> by (unfold takes_cost; apply zsum_perm; by rewrite Hperm).
  apply cost_cheapest; [done|]. by rewrite <- Hperm.
Qed.

Definition ask (id amount price : Z) (s : OrderStatus) : OrderResponse :=
  {| od_id := id; od_seller := "GS"; od_bondId := 101; od_amount := amount; od_pricePerToken := price;
     od_quoteAsset := "USDC"; od_status := s; od_createdAt := ""; od_expiresAt := "" |}.
Definition three_asks : list OrderResponse := [ask 1 1000 110 Open; ask 2 1000 100 Open; ask 3 1000 150 Open].

Lemma sweep_cheapest_witness :
  let plan := zip three_asks [700; 300; 500] in
  let s := sweep_from (sort_asks three_asks) (zsum plan.*2) 100 in
  (sw_cost s ≤ takes_cost plan ∧ sw_remaining s = 0 ∧ sw_filled s = zsum plan.*2) ∧
  sw_cost s = 155000 ∧ takes_cost plan = 182000.
Proof.
  intros plan s. split; [|vm_compute; done].
  apply (sweep_cheapest three_asks plan 100); [by repeat (constructor; [vm_compute; discriminate|])|done|].
  repeat (constructor; [split; vm_compute; discriminate|]). constructor.
Defined.

Lemma positive_integer_pos s q : positive_integer s = Some q → 0 < q.
Proof.
  destruct s as [|ch r]; [done|]. cbn [positive_integer]. destruct (_ && _) eqn:E; [|done].
  apply andb_true_iff in E as [[E1 E2]%andb_true_iff E3]. apply N.leb_le in E1, E2.
  cbn [digits_val]. destruct (digit_val 10 ch) as [v|] eqn:Ev; [|done]. cbn [mbind option_bind].
  assert (0 < v) as Hv.
  { unfold digit_val in Ev. destruct ((48 <=? Z.of_N (code ch)) && (Z.of_N (code ch) <=? 57)) eqn:Ed.
    - destruct (_ <? 10); [|done]. injection Ev as <-. lia.
    - rewrite (proj2 (Z.leb_le _ _)), (proj2 (Z.leb_le _ _)) in Ed by lia. done. }
  revert v Hv Ev. clear E1 E2. intros v Hv _.
  assert (∀ acc, 0 < acc → digits_val 10 acc r = Some q → 0 < q) as Hgo.
  { induction r as [|c r IH]; cbn [digits_val]; intros acc Ha; [by intros [= <-]|].
    cbn [str_forall] in E3. apply andb_true_iff in E3 as [Hc E3].
    destruct (digit_val 10 c) as [w|] eqn:Ew; [|done]. cbn [mbind option_bind]. apply IH; [done|].
    unfold digit_val in Ew. destruct (_ && _) eqn:Ed in Ew; [|].
    all: repeat case_match; simplify_eq; bool_to_prop; try lia. }
  intros E. apply (Hgo (0 * 10 + v)); [lia|done].
Qed.

(** The asks that an evaluation looks at. *)
Definition asks_for (quoteAsset : string) (open : list OrderResponse) : list OrderResponse :=
  sort_asks (filter (λ o, od_quoteAsset o = quoteAsset) open).

Lemma book_of_filter (P : OrderResponse → Prop) `{∀ o, Decision (P o)} open : book_of open → book_of (filter P open).
Proof. unfold book_of. rewrite !Forall_forall. intros Ho o [_ Hin]%list_elem_of_filter. by apply Ho. Qed.

Lemma asks_for_priced quoteAsset open a rest :
  book_of open → asks_for quoteAsset open = a :: rest →
  priced (a :: rest) (od_pricePerToken a) ∧ 0 < depth (a :: rest).
Proof.
  intros Ho E. pose proof (book_of_filter (λ o, od_quoteAsset o = quoteAsset) open Ho) as Hf.
  pose proof (sort_asks_priced _ _ _ Hf E) as Hp. split; [done|]. apply depth_positive; [done|].
  assert (book_of (a :: rest)) as [[? _] _]%Forall_cons; [|done].
  unfold book_of in *. unfold asks_for, sort_asks in E. rewrite <- E. by rewrite sort_by_perm.
Qed.

(** A purchase passes the price impact check exactly when it is within the limits of
    the tranche: the book holds the amount, the average price is within the limit of the
    liquidity tier, and on an illiquid tranche it takes no more than the allowed share of
    the depth.  With no asks nothing passes. *)
Theorem impact_allowed_exact c open bondId amount quoteAsset q :
  book_of open → 0 ≤ maxIlliquidDepthConsumptionBps c → positive_integer amount = Some q →
  ∃ e, evaluatePriceImpact c open bondId amount quoteAsset = Ok e ∧
    match asks_for quoteAsset open with
    | [] => ev_isAllowed e = false
    | a :: rest => ev_isAllowed e = true ↔ within_limits c (a :: rest) (od_pricePerToken a) q
    end.
Proof.
  intros Ho Hc Hq. unfold evaluatePriceImpact. rewrite Hq. eexists. split; [reflexivity|].
  fold (asks_for quoteAsset open). destruct (asks_for quoteAsset open) as [|a rest] eqn:E; [done|].
  destruct (asks_for_priced _ _ _ _ Ho E) as [Hp Hd]. apply allowed_iff; [done..|]. by apply positive_integer_pos in Hq.
Qed.

Lemma impact_allowed_exact_witness :
  ∃ e, evaluatePriceImpact DEFAULT_PRICE_IMPACT_CONFIG three_asks 101 "1500" "USDC" = Ok e ∧
    match asks_for "USDC" three_asks with
    | [] => ev_isAllowed e = false
    | a :: rest => ev_isAllowed e = true ↔ within_limits DEFAULT_PRICE_IMPACT_CONFIG (a :: rest) (od_pricePerToken a) 1500
    end.
Proof.
  apply (impact_allowed_exact DEFAULT_PRICE_IMPACT_CONFIG three_asks 101 "1500" "USDC" 1500).
  - repeat (constructor; [split; vm_compute; reflexivity|]). constructor.
  - vm_compute. discriminate.
  - vm_compute. reflexivity.
Defined.

(** A buyer who is refused is told an amount that works: the amount suggested, and any
    amount below it, passes the check on the same book.  When the price was the reason,
    no amount up to the one requested passes that is larger than the one suggested and
    within the share of the depth that the limits name. *)
Theorem suggestion_allowed c open bondId amount quoteAsset e q :
  book_of open → 0 ≤ maxIlliquidDepthConsumptionBps c → positive_integer amount = Some q →
  evaluatePriceImpact c open bondId amount quoteAsset = Ok e → ev_isAllowed e = false →
  (∀ q', 0 < q' ≤ ev_suggestedMaxAmount e →
     ev_isAllowed (evaluate_book c bondId quoteAsset (asks_for quoteAsset open) q') = true) ∧
  (ev_maxAllowedImpactBps e < ev_priceImpactBps e →
   ∀ q', ev_suggestedMaxAmount e < q' ≤ q →
     (ev_liquidityTier e = ILLIQUID →
      q' * 10000 ≤ ev_availableDepth e * maxIlliquidDepthConsumptionBps c) →
     ev_isAllowed (evaluate_book c bondId quoteAsset (asks_for quoteAsset open) q') = false).
Proof.
  intros Ho Hc Hq He Hno. unfold evaluatePriceImpact in He. rewrite Hq in He. injection He as <-.
  apply positive_integer_pos in Hq. fold (asks_for quoteAsset open) in Hno |- *.
  destruct (asks_for quoteAsset open) as [|a rest] eqn:E; [split; [cbn; lia|done]|].
  destruct (asks_for_priced _ _ _ _ Ho E) as [Hp Hd].
  destruct (suggested_spec c bondId quoteAsset a rest Hp Hd Hc q Hq Hno) as (H1 & H2 & H3).
  destruct (evaluate_unfold c bondId quoteAsset a rest Hp Hd Hc q Hq) as (Hi & _ & _ & _).
  set (s := ev_suggestedMaxAmount _) in *. split.
  - intros q' Hq'. apply allowed_iff; [done..|lia|]. by apply H1.
  - assert (ev_maxAllowedImpactBps (evaluate_book c bondId quoteAsset (a :: rest) q) =
      tierImpactLimitsBps c (classifyLiquidityTier (depth (a :: rest)) c) ∧
      ev_liquidityTier (evaluate_book c bondId quoteAsset (a :: rest) q) = classifyLiquidityTier (depth (a :: rest)) c ∧
      ev_availableDepth (evaluate_book c bondId quoteAsset (a :: rest) q) = depth (a :: rest)) as (-> & -> & ->).
    { unfold evaluate_book. change (zsum (od_amount <$> a :: rest)) with (depth (a :: rest)).
      rewrite (proj2 (Z.eqb_neq _ _)) by lia. done. }
    rewrite Hi. intros Himp q' Hq' Hcap. apply not_true_iff_false. rewrite allowed_iff; [|done..|lia].
    destruct (decide (q' ≤ depth (a :: rest))) as [Hle|]; [|by intros (? & _)].
    apply H3; [done|]. split; [lia|]. apply Z.min_glb; [|lia].
    case_bool_decide as Ht; cbn [andb]; [|done]. specialize (Hcap Ht).
    destruct (Z.ltb_spec (depth (a :: rest) * maxIlliquidDepthConsumptionBps c / 10000) (depth (a :: rest))); [|done].
    apply Z.div_le_lower_bound; lia.
Qed.

Definition tight_config : PriceImpactConfig :=
  {| illiquidThresholdAmount := 5000; moderateThresholdAmount := 25000; tierImpactLimitsBps := λ _, 200;
     maxIlliquidDepthConsumptionBps := 5000 |}.

Lemma suggestion_allowed_witness :
  let e := evaluate_book tight_config 101 "USDC" (asks_for "USDC" three_asks) 1500 in
  ev_suggestedMaxAmount e = 1251 ∧
  (∀ q', 0 < q' ≤ ev_suggestedMaxAmount e →
     ev_isAllowed (evaluate_book tight_config 101 "USDC" (asks_for "USDC" three_asks) q') = true) ∧
  (ev_maxAllowedImpactBps e < ev_priceImpactBps e →
   ∀ q', ev_suggestedMaxAmount e < q' ≤ 1500 →
     (ev_liquidityTier e = ILLIQUID →
      q' * 10000 ≤ ev_availableDepth e * maxIlliquidDepthConsumptionBps tight_config) →
     ev_isAllowed (evaluate_book tight_config 101 "USDC" (asks_for "USDC" three_asks) q') = false).
Proof.
  intros e. split; [vm_compute; reflexivity|].
  apply (suggestion_allowed tight_config three_asks 101 "1500" "USDC" e 1500).
  - repeat (constructor; [split; vm_compute; reflexivity|]). constructor.
  - vm_compute. discriminate.
  - vm_compute. reflexivity.
  - reflexivity.
  - vm_compute. reflexivity.
Defined.

(** To a buyer who is not refused, the largest amount suggested may be one that is: the
    price is only looked at when the request itself was too dear. *)
Lemma suggestion_beyond_limit :
  let e q := evaluate_book tight_config 101 "USDC" (asks_for "USDC" three_asks) q in
  ev_isAllowed (e 500) = true ∧ ev_suggestedMaxAmount (e 500) = 1500 ∧ ev_isAllowed (e 1500) = false.
Proof. vm_compute. done. Qed.

(** ** Quotes *)

Record PriceFeedResponse := {
  pf_bondId : Z; pf_quoteAsset : string; pf_bestPrice : Z; pf_averagePrice : Z; pf_totalOrders : Z; pf_totalVolume : Z;
}.

Record price_group := {
  gr_bondId : Z; gr_quoteAsset : string; gr_totalAmount : Z; gr_totalQuote : Z; gr_bestPrice : Z; gr_totalOrders : Z;
}.

(** The groups are kept by the text [bondId:quoteAsset]; the number has no colon, so that
    the pair is as good a key. *)
Definition add_to_group (gs : list (Z * string * price_group)) (o : OrderResponse) : list (Z * string * price_group) :=
  let key := (od_bondId o, od_quoteAsset o) in
  let price := od_pricePerToken o in
  let g := default {| gr_bondId := od_bondId o; gr_quoteAsset := od_quoteAsset o; gr_totalAmount := 0;
                      gr_totalQuote := 0; gr_bestPrice := price; gr_totalOrders := 0 |} (aget key gs) in
  aput key {| gr_bondId := gr_bondId g; gr_quoteAsset := gr_quoteAsset g;
              gr_totalAmount := gr_totalAmount g + od_amount o;
              gr_totalQuote := gr_totalQuote g + od_amount o * price;
              gr_bestPrice := if price <? gr_bestPrice g then price else gr_bestPrice g;
              gr_totalOrders := gr_totalOrders g + 1 |} gs.

(** [group.totalQuote / group.totalAmount] throws when the amounts add up to zero. *)
Definition feed_of (g : price_group) : result string PriceFeedResponse :=
  if gr_totalAmount g =? 0 then Err "Division by zero"
  else Ok {| pf_bondId := gr_bondId g; pf_quoteAsset := gr_quoteAsset g; pf_bestPrice := gr_bestPrice g;
             pf_averagePrice := Z.quot (gr_totalQuote g) (gr_totalAmount g); pf_totalOrders := gr_totalOrders g;
             pf_totalVolume := gr_totalQuote g |}.

Fixpoint feeds_of (gs : list (Z * string * price_group)) : result string (list PriceFeedResponse) :=
  match gs with
  | [] => Ok []
  | (_, g) :: gs => f ← feed_of g; fs ← feeds_of gs; Ok (f :: fs)
  end.

Definition feed_groups (quoteAsset : option string) (open : list OrderResponse) : list (Z * string * price_group) :=
  foldl (λ gs o,
    if bool_decide (od_status o = Open) &&
       match quoteAsset with Some a => bool_decide (od_quoteAsset o = a) | None => true end
    then add_to_group gs o else gs) [] open.

Definition getPriceFeed (cached : option (list PriceFeedResponse)) (open : list OrderResponse)
    (quoteAsset : option string) : result string (list PriceFeedResponse) :=
  match cached with Some f => Ok f | None => feeds_of (feed_groups quoteAsset open) end.

Record PriceLevel := { pl_price : Z; pl_amount : Z; pl_total : Z }.

Definition getBestPrice (open : list OrderResponse) (quoteAsset : option string) : PriceLevel :=
  let sorted := sort_asks (match quoteAsset with
                           | Some a => filter (λ o, od_quoteAsset o = a) open
                           | None => open
                           end) in
  match sorted with
  | [] => {| pl_price := 0; pl_amount := 0; pl_total := 0 |}
  | b :: _ => {| pl_price := od_pricePerToken b; pl_amount := od_amount b; pl_total := od_pricePerToken b * od_amount b |}
  end.

Inductive FillabilityStatus := fully_fillable | partially_fillable | unfillable.

Record SlippageResponse := {
  sl_bondId : Z; sl_requestedAmount : Z; sl_fillableAmount : Z; sl_unfilledAmount : Z; sl_averagePrice : Z;
  sl_estimatedTotal : Z; sl_slippagePercent : Z; sl_fillabilityStatus : FillabilityStatus;
}.

Definition calculateSlippage (open : list OrderResponse) (bondId : Z) (amount quoteAsset : string) :
    result market_error SlippageResponse :=
  match positive_integer amount with
  | None => Err (BadRequest "amount must be a positive integer string")
  | Some requested =>
      let sorted := asks_for quoteAsset open in
      let s := sweep_from sorted requested 0 in
      let fillable := requested - sw_remaining s in
      let ideal := match sorted with
                   | a :: _ => if 0 <? fillable then fillable * od_pricePerToken a else 0
                   | [] => 0
                   end in
      Ok {| sl_bondId := bondId; sl_requestedAmount := requested; sl_fillableAmount := fillable;
            sl_unfilledAmount := sw_remaining s;
            sl_averagePrice := if 0 <? sw_filled s then Z.quot (sw_cost s) (sw_filled s) else 0;
            sl_estimatedTotal := sw_cost s; sl_slippagePercent := Z.max 0 (excess 100 (sw_cost s) ideal);
            sl_fillabilityStatus :=
              if sw_remaining s =? 0 then fully_fillable
              else if 0 <? fillable then partially_fillable else unfillable |}
  end.

(** The starting price of a sweep only shows when nothing is taken. *)
Lemma sweep_start asks rem c f m m' :
  let s := sweep asks {| sw_remaining := rem; sw_cost := c; sw_filled := f; sw_marginal := m |} in
  let s' := sweep asks {| sw_remaining := rem; sw_cost := c; sw_filled := f; sw_marginal := m' |} in
  sw_remaining s = sw_remaining s' ∧ sw_cost s = sw_cost s' ∧ sw_filled s = sw_filled s'.
Proof. destruct asks as [|a asks]; cbn; [done|]. by destruct (_ <=? _). Qed.

Lemma excess_scale c i : i ≤ c → excess 100 c i = excess 10000 c i / 100.
Proof.
  intros Hc. unfold excess. destruct (Z.ltb_spec 0 i); [|done].
  rewrite !Z.quot_div_nonneg by (try apply Z.mul_nonneg_nonneg; lia).
  rewrite Z.div_div by lia. replace ((c - i) * 10000) with ((c - i) * 100 * 100) by lia.
  by rewrite Z.div_mul_cancel_r by lia.
Qed.

(** The quote for slippage and the price impact check look at the same trade: on the
    same open orders they report the same cost, the same average price and the same
    fillable amount, and the slippage in percent is the price impact in basis points,
    rounded down. *)
Theorem slippage_agrees c open bondId amount quoteAsset q :
  book_of open → 0 ≤ maxIlliquidDepthConsumptionBps c → positive_integer amount = Some q →
  asks_for quoteAsset open ≠ [] →
  ∃ e sl, evaluatePriceImpact c open bondId amount quoteAsset = Ok e ∧
    calculateSlippage open bondId amount quoteAsset = Ok sl ∧
    sl_estimatedTotal sl = ev_totalCost e ∧ sl_averagePrice sl = ev_averageExecutionPrice e ∧
    sl_slippagePercent sl = ev_priceImpactBps e / 100 ∧
    sl_fillableAmount sl = Z.min q (ev_availableDepth e) ∧
    (sl_fillabilityStatus sl = fully_fillable ↔ q ≤ ev_availableDepth e).
Proof.
  intros Ho Hcap Hq Hne. unfold evaluatePriceImpact, calculateSlippage. rewrite Hq.
  eexists _, _. split; [reflexivity|]. split; [reflexivity|].
  fold (asks_for quoteAsset open). destruct (asks_for quoteAsset open) as [|a rest] eqn:E; [done|].
  destruct (asks_for_priced _ _ _ _ Ho E) as [Hp Hd]. apply positive_integer_pos in Hq as Hq0.
  destruct (evaluate_unfold c bondId quoteAsset a rest Hp Hd Hcap q Hq0) as (Hi & _).
  pose proof Hp as (Hb & Hbest & Hl). cbv iota. set (asks := a :: rest) in *.
  edestruct (sweep_spec asks {| sw_remaining := q; sw_cost := 0; sw_filled := 0; sw_marginal := 0 |} Hb)
    as (Hr & Hc & Hf); [cbn; lia|]. cbn [sw_remaining sw_cost sw_filled] in Hr, Hc, Hf. fold (sweep_from asks q 0) in Hr, Hc, Hf.
  destruct (sweep_start asks q 0 0 (od_pricePerToken a) 0) as (Hr' & Hc' & Hf').
  fold (sweep_from asks q 0) in Hr', Hc', Hf'. fold (sweep_from asks q (od_pricePerToken a)) in Hr', Hc', Hf'.
  cbn [sl_estimatedTotal sl_averagePrice sl_slippagePercent sl_fillableAmount sl_fillabilityStatus]. rewrite Hi.
  assert (ev_totalCost (evaluate_book c bondId quoteAsset asks q) = sw_cost (sweep_from asks q (od_pricePerToken a)) ∧
    ev_averageExecutionPrice (evaluate_book c bondId quoteAsset asks q) =
      (if 0 <? sw_filled (sweep_from asks q (od_pricePerToken a)) then
        Z.quot (sw_cost (sweep_from asks q (od_pricePerToken a))) (sw_filled (sweep_from asks q (od_pricePerToken a))) else 0) ∧
    ev_availableDepth (evaluate_book c bondId quoteAsset asks q) = depth asks) as (-> & -> & ->).
  { unfold evaluate_book, asks. fold asks. change (zsum (od_amount <$> asks)) with (depth asks).
    rewrite (proj2 (Z.eqb_neq _ _)) by lia. done. }
  rewrite Hc', Hf', Hr. assert (q - (q - Z.min q (depth asks)) = Z.min q (depth asks)) as -> by lia.
  split; [done|]. split; [done|]. split; [|split; [done|]].
  - rewrite (proj2 (Z.ltb_lt 0 (Z.min q (depth asks)))) by lia.
    rewrite impact_cost by (done || lia). rewrite Hc.
    pose proof (cost_lower _ asks (Z.min q (depth asks)) Hb Hl ltac:(lia)) as Hlow.
    rewrite Z.add_0_l, excess_scale by lia. apply Z.max_r, Z.div_pos; [|done]. apply excess_nonneg; lia.
  - destruct (Z.eqb_spec (q - Z.min q (depth asks)) 0); [split; [lia|done]|].
    split; [|lia]. by destruct (0 <? _).
Qed.

Lemma slippage_agrees_witness :
  ∃ e sl, evaluatePriceImpact DEFAULT_PRICE_IMPACT_CONFIG three_asks 101 "2500" "USDC" = Ok e ∧
    calculateSlippage three_asks 101 "2500" "USDC" = Ok sl ∧
    sl_estimatedTotal sl = ev_totalCost e ∧ sl_averagePrice sl = ev_averageExecutionPrice e ∧
    sl_slippagePercent sl = ev_priceImpactBps e / 100 ∧
    sl_fillableAmount sl = Z.min 2500 (ev_availableDepth e) ∧
    (sl_fillabilityStatus sl = fully_fillable ↔ 2500 ≤ ev_availableDepth e).
Proof.
  apply (slippage_agrees DEFAULT_PRICE_IMPACT_CONFIG three_asks 101 "2500" "USDC" 2500).
  - repeat (constructor; [split; vm_compute; reflexivity|]). constructor.
  - vm_compute. discriminate.
  - vm_compute. reflexivity.
  - vm_compute. discriminate.
Defined.

(** ** Purchases *)

(** How a call of the contract fails: a mapped contract error, or anything else, with the
    code that its message names and whether it is an HTTP exception itself. *)
Inductive contract_failure :=
| ContractException (rawErrorCode : option Z) (detail : string)
| OtherError (code : option Z) (message : string) (http : option market_error).

Definition InsufficientFunds : Z := 10.
Definition OrderAlreadyFilled : Z := 5.
Definition OrderExpired : Z := 8.
Definition OrderNotFound : Z := 4.

Definition mapDexError (e : contract_failure) : market_error :=
  let funds := PaymentRequired
    "Insufficient escrowed funds. Call POST /marketplace/escrow/deposit before purchasing." in
  match e with
  | ContractException code detail => if bool_decide (code = Some InsufficientFunds) then funds else BadRequest detail
  | OtherError code message http =>
      if bool_decide (code = Some InsufficientFunds) then funds
      else if bool_decide (code = Some OrderAlreadyFilled) || bool_decide (code = Some OrderExpired) then
        Conflict "Order state changed on-chain before this action completed. Refresh to see the latest order list."
      else if bool_decide (code = Some OrderNotFound) then NotFound "Order not found."
      else match http with Some h => h | None => BadRequest message end
  end.

Definition assertOrderIsActionable (o : OrderResponse) : result market_error unit :=
  throw_if (negb (bool_decide (od_status o = Open)) && negb (bool_decide (od_status o = PartiallyFilled)))
    (Conflict "Order is no longer available. Refresh to see the latest order list.").

Record BuyBondDto := { by_orderId : Z; by_amount : Z; by_maxPrice : Z }.

(** What a request asks of the contract and of the holder index. *)
Inductive market_effect :=
| ExecutePurchase (orderId maxPrice amount : Z)
| CancelListing (orderId : Z)
| RecordTransfer (bondId : Z) (from to : string)
| InvalidateOrder (orderId : Z).

Section trading.
(** What the outside answers: the order read from the ledger, the balance in escrow, the
    open orders of the bond with the limits that apply to it, and the contract. *)
Context (enabled : bool) (fetched : result market_error OrderResponse) (escrowed : Z).
Context (impact : option (PriceImpactConfig * list OrderResponse)) (contract : result contract_failure unit).

Definition buy_checks (d : BuyBondDto) : result market_error OrderResponse :=
  _ ← throw_if (negb enabled) (Unavailable "Secondary market trading is currently disabled");
  order ← fetched;
  _ ← assertOrderIsActionable order;
  _ ← throw_if (od_amount order <? by_amount d) (Conflict "Stale quote: fewer tokens remain than requested.");
  _ ← throw_if (by_maxPrice d <? od_pricePerToken order) (Conflict "Stale price: the price exceeds your maximum.");
  let proceeds := od_pricePerToken order * by_amount d in
  _ ← throw_if (escrowed <? proceeds) (BadRequest "Insufficient escrow.");
  _ ← match impact with
      | Some (c, open) =>
          e ← evaluatePriceImpact c open (od_bondId order) (Z_to_string (by_amount d)) (od_quoteAsset order);
          assertPriceImpactPermitted e
      | None => Ok tt
      end;
  Ok order.

Definition buyBondTokens (d : BuyBondDto) (buyer : string) : list market_effect * result market_error unit :=
  match buy_checks d with
  | Err e => ([], Err e)
  | Ok order =>
      let executed := ExecutePurchase (by_orderId d) (by_maxPrice d) (by_amount d) in
      match contract with
      | Err e => ([executed], Err (mapDexError e))
      | Ok _ => ([executed; RecordTransfer (od_bondId order) (od_seller order) buyer; InvalidateOrder (by_orderId d)], Ok tt)
      end
  end.

Definition cancelOrder (orderId : Z) : list market_effect * result market_error unit :=
  match (order ← fetched; assertOrderIsActionable order) with
  | Err e => ([], Err e)
  | Ok _ =>
      match contract with
      | Err e => ([CancelListing orderId], Err (mapDexError e))
      | Ok _ => ([CancelListing orderId; InvalidateOrder orderId], Ok tt)
      end
  end.
End trading.

(** The contract is asked to execute a purchase only for an order that the ledger
    shows as open, for no more than it holds, at no more than the buyer's limit, with the
    cost in escrow, within the price impact limits, and while trading is enabled.  The
    holder index is updated only after the contract agreed. *)
Theorem purchase_guarded enabled fetched escrowed impact contract d buyer :
  let '(effects, r) := buyBondTokens enabled fetched escrowed impact contract d buyer in
  (effects = [] ∧ ∃ e, r = Err e) ∨
  ∃ order, fetched = Ok order ∧ enabled = true ∧ (od_status order = Open ∨ od_status order = PartiallyFilled) ∧
    by_amount d ≤ od_amount order ∧ od_pricePerToken order ≤ by_maxPrice d ∧
    od_pricePerToken order * by_amount d ≤ escrowed ∧
    match impact with
    | Some (c, open) => ∃ e, evaluatePriceImpact c open (od_bondId order) (Z_to_string (by_amount d)) (od_quoteAsset order)
                             = Ok e ∧ ev_isAllowed e = true
    | None => True
    end ∧
    let executed := ExecutePurchase (by_orderId d) (by_maxPrice d) (by_amount d) in
    match contract with
    | Ok _ => r = Ok tt ∧
        effects = [executed; RecordTransfer (od_bondId order) (od_seller order) buyer; InvalidateOrder (by_orderId d)]
    | Err e => r = Err (mapDexError e) ∧ effects = [executed]
    end.
Proof.
  unfold buyBondTokens. destruct (buy_checks enabled fetched escrowed impact d) as [order|e] eqn:E; [|left; eauto].
  unfold buy_checks in E. destruct enabled; [|done]. cbn in E. destruct fetched as [o|]; [|done]. cbn in E.
  unfold assertOrderIsActionable in E. destruct (negb _ && negb _) eqn:Es; [done|]. cbn in E.
  destruct (Z.ltb_spec (od_amount o) (by_amount d)); [done|]. cbn in E.
  destruct (Z.ltb_spec (by_maxPrice d) (od_pricePerToken o)); [done|]. cbn in E.
  destruct (Z.ltb_spec escrowed (od_pricePerToken o * by_amount d)); [done|]. cbn in E.
  assert (od_status o = Open ∨ od_status o = PartiallyFilled) as Hs.
  { apply andb_false_iff in Es as [Es%negb_false_iff|Es%negb_false_iff]; bool_to_prop; auto. }
  assert (order = o ∧ match impact with
    | Some (c, open) => ∃ e, evaluatePriceImpact c open (od_bondId o) (Z_to_string (by_amount d)) (od_quoteAsset o)
                             = Ok e ∧ ev_isAllowed e = true
    | None => True
    end) as [-> Him].
  { destruct impact as [[c open]|]; [|by injection E as ->].
    destruct (evaluatePriceImpact _ _ _ _ _) as [ev|]; [|done]. cbn in E. unfold assertPriceImpactPermitted in E.
    destruct (ev_isAllowed ev) eqn:Ea; [|done]. injection E as ->. eauto. }
  destruct contract as [[]|e]; right; exists o; split_and!; try done; lia.
Qed.

(** An order that was filled in part is open for purchases, but it is not among the orders
    that the price impact check reads, which are those of status [Open]: when it is the
    only offer, nobody can buy it. *)
Lemma partial_order_unbuyable now l d buyer escrowed contract o :
  tryGetOrder now l (by_orderId d) = Some o → od_status o = PartiallyFilled →
  pg_data (listOrders now l (Some (od_bondId o)) (Some Open) None 1 100 None) = [] →
  (positive_integer (Z_to_string (by_amount d)) ≠ None) →
  ∃ e, buyBondTokens true (Ok o) escrowed
         (Some (DEFAULT_PRICE_IMPACT_CONFIG,
                pg_data (listOrders now l (Some (od_bondId o)) (Some Open) None 1 100 None))) contract d buyer =
       ([], Err e).
Proof.
  intros _ Hs Hopen Hq. rewrite Hopen. unfold buyBondTokens, buy_checks, assertOrderIsActionable.
  cbn [negb throw_if mbind result_bind]. rewrite Hs. change (bool_decide (PartiallyFilled = Open)) with false.
  change (bool_decide (PartiallyFilled = PartiallyFilled)) with true. cbn [negb andb throw_if mbind result_bind].
  destruct (od_amount o <? by_amount d); [eexists; reflexivity|].
  destruct (by_maxPrice d <? od_pricePerToken o); [eexists; reflexivity|].
  destruct (escrowed <? od_pricePerToken o * by_amount d); [eexists; reflexivity|].
  unfold evaluatePriceImpact. destruct (positive_integer _) as [q|]; [|done]. eexists; reflexivity.
Qed.

Definition one_partial : ledger :=
  {| order_count := 1;
     fetch := λ _, Some {| lo_id := 1; lo_seller := "GS"; lo_bondId := 101; lo_amount := 400; lo_pricePerToken := 100;
                           lo_quoteAsset := "USDC"; lo_status := 1; lo_createdAt := 0; lo_expiresAt := 100 |} |}.

Example partial_order_refused :
  let o := default (ask 0 0 0 Open) (tryGetOrder 0 one_partial 1) in
  od_status o = PartiallyFilled ∧
  (buyBondTokens true (Ok o) 1000000
    (Some (DEFAULT_PRICE_IMPACT_CONFIG, pg_data (listOrders 0 one_partial (Some 101) (Some Open) None 1 100 None)))
    (Ok tt) {| by_orderId := 1; by_amount := 10; by_maxPrice := 100 |} "GB").1 = [].
Proof. vm_compute. done. Qed.

(** The check prices a sweep of the book, but the contract fills the one order the buyer
    names: the dearest order passes as if it were the cheapest. *)
Lemma impact_ignores_chosen_order :
  let open := [ask 1 1000 100 Open; ask 2 1000 900 Open] in
  (buyBondTokens true (Ok (ask 2 1000 900 Open)) 1000000 (Some (DEFAULT_PRICE_IMPACT_CONFIG, open)) (Ok tt)
     {| by_orderId := 2; by_amount := 500; by_maxPrice := 900 |} "GB").2 = Ok tt ∧
  ev_priceImpactBps (evaluate_book DEFAULT_PRICE_IMPACT_CONFIG 101 "USDC" open 500) = 0 ∧
  excess 10000 (500 * 900) (500 * 100) = 80000.
Proof. vm_compute. done. Qed.

(** A contract error that says the order was just filled is a conflict only when it comes
    as a plain error; the contract client throws a [ContractException], which becomes a
    bad request. *)
Lemma filled_not_conflict m :
  mapDexError (ContractException (Some OrderAlreadyFilled) m) = BadRequest m ∧
  mapDexError (OtherError (Some OrderAlreadyFilled) m None) ≠ BadRequest m.
Proof. split; [done|]. cbn. discriminate. Qed.

(** ** Following the cursor *)

(** The orders that a reading of the ledger shows under an id: the order, unless it cannot
    be read, is of another bond than the one asked for or in another status. *)
Definition asked_for (bondId : option Z) (status : option OrderStatus) (o : OrderResponse) : Prop :=
  match bondId with Some b => b = 0 ∨ od_bondId o = b | None => True end ∧
  match status with Some s => od_status o = s | None => True end.
#[export] Instance asked_for_dec bondId status o : Decision (asked_for bondId status o).
Proof. unfold asked_for. destruct bondId, status; apply _. Defined.
Definition shown (bondId : option Z) (status : option OrderStatus) (v : Z * ledger) (id : Z) : list OrderResponse :=
  match fetch v.2 id with
  | Some r => if decide (asked_for bondId status (decodeOrder v.1 r)) then [decodeOrder v.1 r] else []
  | None => []
  end.

Lemma matching_shown now l bondId status id : matching_at now l bondId status id = shown bondId status (now, l) id.
Proof.
  unfold matching_at, shown, tryGetOrder. cbn [fst snd]. destruct (fetch l id) as [r|]; [|done]. cbn [fmap option_fmap option_map].
  set (o := decodeOrder now r).
  assert (order_matches bondId status o = true ↔ asked_for bondId status o) as Hiff.
  { unfold order_matches, asked_for. rewrite andb_true_iff.
    destruct bondId, status; rewrite ?orb_true_iff, ?Z.eqb_eq, ?bool_decide_eq_true; tauto. }
  case_decide as Hd; [by rewrite (proj2 Hiff Hd)|]. destruct (order_matches _ _ o); [|done]. by destruct Hd; apply Hiff.
Qed.

Section pages.
Context (now : Z) (l : ledger) (bondId : option Z) (status : option OrderStatus) (limit : Z).
Hypothesis Hlimit : 0 < limit.

(** The orders with ids from [a] to [b - 1]. *)
Definition between (a b : Z) : list OrderResponse :=
  mjoin ((λ i, shown bondId status (now, l) (a + Z.of_nat i)) <$> seq 0 (Z.to_nat (b - a))).

Lemma between_nil a b : b ≤ a → between a b = [].
Proof. intros Hb. unfold between. by rewrite Z2Nat.nonpos by lia. Qed.

Lemma between_step a b : a < b → between a b = matching_at now l bondId status a ++ between (a + 1) b.
Proof.
  intros Hb. rewrite matching_shown. unfold between. replace (Z.to_nat (b - a)) with (S (Z.to_nat (b - (a + 1)))) by lia.
  cbn [seq fmap list_fmap]. cbn [mjoin list_join]. rewrite Z.add_0_r. f_equal. f_equal.
  rewrite <- seq_shift. rewrite <- list_fmap_compose. apply list_fmap_ext. intros i x _. cbn. f_equal. lia.
Qed.

Lemma matching_at_short id : (length (matching_at now l bondId status id) ≤ 1)%nat.
Proof. unfold matching_at. destruct (tryGetOrder _ _ _); [|cbn; lia]. destruct (order_matches _ _ _); cbn; lia. Qed.

Lemma scan_spec fuel cur found :
  ((0 < fuel)%nat → cur + Z.of_nat fuel = order_count l + 1) → Z.of_nat (length found) ≤ limit →
  let '(found', next) := cursor_scan now l bondId status fuel limit cur found in
  found' = found ++ between cur next ∧ cur ≤ next ≤ cur + Z.of_nat fuel ∧ Z.of_nat (length found') ≤ limit ∧
  (Z.of_nat (length found) < limit → (0 < fuel)%nat → cur < next).
Proof.
  revert cur found. induction fuel as [|fuel IH]; intros cur found Hf Hl.
  { cbn. rewrite between_nil, app_nil_r by lia. split_and!; try lia; done. }
  specialize (Hf ltac:(lia)).
  cbn [cursor_scan]. destruct (Z.ltb_spec (Z.of_nat (length found)) limit) as [Hlt|Hge]; cbn [andb].
  2:{ rewrite between_nil, app_nil_r by lia. split_and!; try lia; done. }
  rewrite (proj2 (Z.leb_le _ _)) by lia. pose proof (matching_at_short cur) as Hs.
  specialize (IH (cur + 1) (found ++ matching_at now l bondId status cur)). rewrite length_app in IH.
  destruct (cursor_scan _ _ _ _ _ _ _ _) as [found' next]. destruct IH as (-> & H1 & H2 & _); [lia..|].
  rewrite (between_step cur) by lia. rewrite app_assoc. split_and!; [done|lia..|]. intros. lia.
Qed.

(** A page: the orders after the cursor, up to the next cursor or to the last order. *)
Lemma page_spec cursor :
  let p := list_from_cursor now l bondId status cursor limit in
  Z.of_nat (length (pg_data p)) ≤ limit ∧
  match pm_nextCursor (pg_meta p) with
  | Some c => cursor < c < order_count l ∧ pg_data p = between (cursor + 1) (c + 1)
  | None => pg_data p = between (cursor + 1) (order_count l + 1)
  end.
Proof.
  cbn zeta. unfold list_from_cursor.
  pose proof (scan_spec (Z.to_nat (order_count l - cursor)) (cursor + 1) []) as Hs. cbn [length app] in Hs.
  destruct (cursor_scan _ _ _ _ _ _ _ _) as [found next]. destruct Hs as (-> & H1 & H2 & H3); [lia..|].
  cbn [pg_data pg_meta pm_nextCursor]. split; [done|]. destruct (Z.leb_spec next (order_count l)).
  - split; [lia|]. f_equal. lia.
  - destruct (decide (order_count l ≤ cursor)); [rewrite !between_nil by lia; done|]. f_equal. lia.
Qed.
End pages.

Lemma between_shown (view : nat → Z * ledger) bondId status n a k :
  between (view n).1 (view n).2 bondId status a (a + Z.of_nat k) =
  mjoin (imap (λ i m, shown bondId status (view m) (a + Z.of_nat i)) (replicate k n)).
Proof.
  unfold between. rewrite Z.add_simpl_l, Nat2Z.id. f_equal. destruct (view n) as [t l] eqn:Ev. cbn [fst snd].
  apply list_eq. intros i. rewrite list_lookup_fmap, list_lookup_imap.
  destruct (decide (i < k)%nat).
  - rewrite lookup_seq_lt, lookup_replicate_2 by done. cbn. by rewrite Ev.
  - rewrite lookup_seq_ge, (proj1 (lookup_replicate_None _ _ _)) by lia. done.
Qed.

Section following.
Context (view : nat → Z * ledger) (bondId : option Z) (status : option OrderStatus) (limit : Z).
Hypothesis Hlimit : 0 < limit.

(** A client that asks for the next page until there is none.  Its [n]th request gets
    the page that was made from [view n], the clock and the orders as read then: at once,
    or in the last half minute, when the page comes from the cache. *)
Fixpoint follow (fuel n : nat) (cursor : Z) : list order_page :=
  match fuel with
  | O => []
  | S fuel =>
      let p := listOrders (view n).1 (view n).2 bondId status None 1 limit (Some cursor) in
      p :: match pm_nextCursor (pg_meta p) with Some c => follow fuel (S n) c | None => [] end
  end.

Definition ended (pages : list order_page) : Prop := ∃ p, last pages = Some p ∧ pm_nextCursor (pg_meta p) = None.

(** The pages list the ids from [from] on, each as read by one of the requests, the later
    ids by the same request or a later one. *)
Definition covers (first : nat) (from : Z) (pages : list order_page) (ats : list nat) : Prop :=
  StronglySorted Nat.le ats ∧ Forall (λ m, first ≤ m < first + length pages)%nat ats ∧
  order_count (view (first + length pages - 1)%nat).2 < from + Z.of_nat (length ats) ∧
  mjoin (pg_data <$> pages) = mjoin (imap (λ i m, shown bondId status (view m) (from + Z.of_nat i)) ats).

Lemma page_join {A} (x : list A) xs : mjoin (x :: xs) = x ++ mjoin xs.
Proof. done. Qed.

Lemma covers_last n cursor p :
  pg_data p = between (view n).1 (view n).2 bondId status (cursor + 1) (order_count (view n).2 + 1) →
  covers n (cursor + 1) [p] (replicate (Z.to_nat (order_count (view n).2 - cursor)) n).
Proof.
  intros Hp. split_and!.
  - generalize (Z.to_nat (order_count (view n).2 - cursor)). intros k. induction k as [|k IH]; [constructor|].
    constructor; [done|]. apply Forall_replicate. lia.
  - apply Forall_replicate. cbn. lia.
  - rewrite length_replicate. cbn [length]. replace (n + 1 - 1)%nat with n by lia. lia.
  - rewrite fmap_cons, page_join, Hp. cbn [fmap list_fmap mjoin list_join]. rewrite app_nil_r, <- between_shown.
    destruct (decide (order_count (view n).2 ≤ cursor)); [by rewrite !between_nil by lia|]. f_equal. lia.
Qed.

Lemma covers_cons n cursor c p pages ats :
  cursor < c → pages ≠ [] → pg_data p = between (view n).1 (view n).2 bondId status (cursor + 1) (c + 1) →
  covers (S n) (c + 1) pages ats → covers n (cursor + 1) (p :: pages) (replicate (Z.to_nat (c - cursor)) n ++ ats).
Proof.
  intros Hc Hne Hp (Hs & Hf & Hn & Hd). split_and!.
  - generalize (Z.to_nat (c - cursor)). intros k. induction k as [|k IH]; [done|]. cbn. constructor; [done|].
    apply Forall_app_2; [apply Forall_replicate; lia|]. eapply Forall_impl; [exact Hf|]. cbn. lia.
  - apply Forall_app_2; [apply Forall_replicate; cbn; lia|]. eapply Forall_impl; [exact Hf|]. cbn. lia.
  - rewrite length_app, length_replicate. cbn [length]. destruct pages as [|p' pages]; [done|]. cbn [length] in Hn |- *.
    replace (n + S (S (length pages)) - 1)%nat with (S n + S (length pages) - 1)%nat by lia. lia.
  - rewrite fmap_cons, page_join, Hp, Hd, imap_app, join_app. f_equal.
    + rewrite <- between_shown. f_equal. lia.
    + f_equal. apply imap_ext. intros i m _. cbn. rewrite length_replicate. f_equal. lia.
Qed.

Lemma follow_spec (B : Z) fuel n cursor :
  (∀ m, order_count (view m).2 ≤ B) → (0 < fuel)%nat → B - cursor < Z.of_nat fuel →
  let pages := follow fuel n cursor in
  ended pages ∧ Forall (λ p, Z.of_nat (length (pg_data p)) ≤ limit) pages ∧ ∃ ats, covers n (cursor + 1) pages ats.
Proof.
  intros HB. revert n cursor. induction fuel as [|fuel IH]; intros n cursor H0 Hf; [lia|]. cbn [follow listOrders].
  destruct (page_spec (view n).1 (view n).2 bondId status limit Hlimit cursor) as [Hlen Hp].
  set (p := list_from_cursor _ _ _ _ _ _) in *. destruct (pm_nextCursor (pg_meta p)) as [c|] eqn:Ec.
  - destruct Hp as [Hc Hd]. specialize (HB n). destruct (IH (S n) c) as ((q & Hq & Hn) & Hall & ats & Hcov); [lia..|].
    split_and!; [|by constructor|eexists; apply (covers_cons n cursor c); [lia|by intros Hnil; rewrite Hnil in Hq|done|done]].
    exists q. split; [|done]. by destruct (follow fuel (S n) c) as [|p' ps].
  - split_and!; [by exists p|by constructor; [|constructor]|]. eexists. by apply covers_last.
Qed.
End following.

(** C36: a client that follows the cursor from the start comes to a last page, one without a
    next cursor, on pages of at most the size asked for, as long as the number of orders
    stays below some bound.  Every request may meet other orders and another clock than the
    one before, be it that the ledger moved on or that the page was in the cache.  Taken
    together the pages list the ids in order, each once, up to at least the number of
    orders of the last page's reading: under each id the order as one of the requests read
    it, later ids by the same request or a later one, if it matched the filters then.
    Orders whose read failed are left out. *)
Theorem cursor_lists_all view bondId status limit (B : nat) :
  0 < limit → (∀ n, order_count (view n).2 ≤ Z.of_nat B) →
  let pages := follow view bondId status limit (S B) 0 0 in
  ended pages ∧ Forall (λ p, Z.of_nat (length (pg_data p)) ≤ limit) pages ∧
  ∃ ats, covers view bondId status 0 1 pages ats.
Proof. intros Hl HB. apply (follow_spec view bondId status limit Hl (Z.of_nat B)); [exact HB|lia..]. Qed.

(** Orders are added while a client reads the pages; the third order cannot be read. *)
Definition growing (n : nat) : Z * ledger :=
  (0, {| order_count := if (n <? 1)%nat then 5 else 7; fetch := λ id, if id =? 3 then None else fetch one_partial id |}).

Lemma cursor_lists_all_witness :
  let pages := follow growing (Some 101) None 2 8 0 0 in
  (ended pages ∧ Forall (λ p, Z.of_nat (length (pg_data p)) ≤ 2) pages ∧
   ∃ ats, covers growing (Some 101) None 0 1 pages ats) ∧
  (λ p, length (pg_data p)) <$> pages = [2; 2; 2]%nat.
Proof.
  intros pages. split; [|vm_compute; reflexivity].
  apply (cursor_lists_all growing (Some 101) None 2 7); [lia|]. intros n. unfold growing. cbn [snd order_count].
  destruct (n <? 1)%nat; lia.
Defined.

(** ** Price feeds *)

Section feeds.
Context (quoteAsset : option string).

Definition counted (o : OrderResponse) : Prop :=
  od_status o = Open ∧ match quoteAsset with Some a => od_quoteAsset o = a | None => True end.
#[local] Instance counted_dec o : Decision (counted o).
Proof. unfold counted. destruct quoteAsset; apply _. Defined.

(** The orders of one group. *)
Definition in_group (key : Z * string) (open : list OrderResponse) : list OrderResponse :=
  filter (λ o, counted o ∧ (od_bondId o, od_quoteAsset o) = key) open.

Definition group_of (key : Z * string) (os : list OrderResponse) (g : price_group) : Prop :=
  gr_bondId g = key.1 ∧ gr_quoteAsset g = key.2 ∧ gr_totalAmount g = depth os ∧
  gr_totalQuote g = zsum ((λ o, od_amount o * od_pricePerToken o) <$> os) ∧
  gr_totalOrders g = Z.of_nat (length os) ∧
  Exists (λ o, gr_bestPrice g = od_pricePerToken o) os ∧ Forall (λ o, gr_bestPrice g ≤ od_pricePerToken o) os.

Lemma zsum_snoc xs x : zsum (xs ++ [x]) = zsum xs + x.
Proof. rewrite (zsum_perm _ (x :: xs)) by (by rewrite Permutation_app_comm). rewrite zsum_cons. lia. Qed.

Lemma group_snoc key os g o :
  (od_bondId o, od_quoteAsset o) = key →
  match os with [] => g = {| gr_bondId := od_bondId o; gr_quoteAsset := od_quoteAsset o; gr_totalAmount := 0;
                             gr_totalQuote := 0; gr_bestPrice := od_pricePerToken o; gr_totalOrders := 0 |}
              | _ => group_of key os g end →
  group_of key (os ++ [o])
    {| gr_bondId := gr_bondId g; gr_quoteAsset := gr_quoteAsset g; gr_totalAmount := gr_totalAmount g + od_amount o;
       gr_totalQuote := gr_totalQuote g + od_amount o * od_pricePerToken o;
       gr_bestPrice := if od_pricePerToken o <? gr_bestPrice g then od_pricePerToken o else gr_bestPrice g;
       gr_totalOrders := gr_totalOrders g + 1 |}.
Proof.
  intros <- Hg. unfold group_of, depth. cbn [gr_bondId gr_quoteAsset gr_totalAmount gr_totalQuote gr_bestPrice gr_totalOrders].
  rewrite !fmap_app, length_app. cbn [fmap list_fmap length]. rewrite !zsum_snoc.
  destruct os as [|o1 os].
  { subst g. cbn. rewrite Z.ltb_irrefl. split_and!; try done; try lia; [by constructor|by repeat constructor]. }
  destruct Hg as (H1 & H2 & H3 & H4 & H5 & H6 & H7). unfold depth in H3. split_and!; try done; try lia.
  - destruct (_ <? _).
    + apply Exists_app. right. by constructor.
    + apply Exists_app. by left.
  - destruct (Z.ltb_spec (od_pricePerToken o) (gr_bestPrice g)); apply Forall_app; split; try (constructor; [lia|constructor]).
    + eapply Forall_impl; [exact H7|]. intros x. cbn. lia.
    + done.
Qed.

(** A feed tells of every group of open orders how many there are, their volume and their
    lowest price. *)
Lemma feed_groups_exact open key :
  match aget key (feed_groups quoteAsset open) with
  | Some g => in_group key open ≠ [] ∧ group_of key (in_group key open) g
  | None => in_group key open = []
  end.
Proof.
  induction open as [|o open IH] using rev_ind; [done|]. unfold feed_groups in *. rewrite foldl_snoc.
  unfold in_group in *. rewrite filter_app. cbn [filter list_filter].
  set (gs := foldl _ [] open) in *. set (os := filter _ open) in *.
  destruct (bool_decide (od_status o = Open) && _) eqn:Ec.
  - assert (counted o) as Hc.
    { split; [by bool_to_prop|]. destruct quoteAsset; [|done]. by bool_to_prop. }
    unfold add_to_group. rewrite aget_aput. destruct (decide (key = (od_bondId o, od_quoteAsset o))) as [Ek|Ek].
    + rewrite decide_True by (split; [done|congruence]). split; [by destruct os|]. apply group_snoc; [congruence|].
      rewrite Ek in IH. destruct (aget (od_bondId o, od_quoteAsset o) gs) as [g|]; cbn; [|by rewrite IH].
      destruct IH as [Hne Hg]. rewrite Ek. by destruct os.
    + rewrite decide_False by (intros [_ ?]; congruence). rewrite app_nil_r. exact IH.
  - rewrite decide_False; [rewrite app_nil_r; exact IH|]. intros [[H1 H2] _].
    rewrite (bool_decide_eq_true_2 _ H1) in Ec. destruct quoteAsset; [|done]. by rewrite (bool_decide_eq_true_2 _ H2) in Ec.
Qed.
End feeds.
