(* ===== verification/Evidence.v ===== *)
(** * Evidence of oracle reports

    Models [api/src/oracle/manifest-verification.ts] (the schema of a manifest, its
    canonical text, its shared-secret signature and the comparison with the report),
    [api/src/oracle/evidence-verification.ts] (signatures of providers and content fetched
    from a gateway) and [submitReport] of [oracle.service.ts], which runs these checks before
    anything is pinned or sent.

    The digest, the two signature schemes, the gateway, the pinning service and the contract
    are arguments, and so is the reading of dates that are not in ISO form.  A manifest is a
    JSON value; its numbers are texts as [Number.prototype.toString] prints them, so that
    the range of a confidence is read off the text.  Amounts and periods of a report are
    integers.

    Shown: the text that a signature covers determines the manifest up to the order of keys
    ([canonicalJson_exact]); nothing is pinned or sent unless every check passed
    ([report_evidence_checked]); a fetch makes as many attempts as the transient failures
    ask for, never more than allowed, and accepts only content with the digest of the
    reference ([fetch_exact]). *)
From S2P Require Import Prelude JsDate Json JsonParse Cid.

(** ** Canonical text *)

Fixpoint sort_keys (j : json) : json :=
  match j with
  | JArr l => JArr (map sort_keys l)
  | JObj l =>
      let l := map (λ kv, (fst kv, sort_keys (snd kv))) l in
      JObj ((λ k, (k, default JNull (jget k l))) <$> merge_sort str_le l.*1)
  | j => j
  end.

Definition canonicalJson (value : json) : string := JSON_stringify (sort_keys value).

(** ** Manifests *)

Definition is_date_text (s : string) : bool :=
  bool_decide (String.length s = 10%nat) &&
  bool_decide (String.substring 4 1 s = "-") && bool_decide (String.substring 7 1 s = "-") &&
  str_forall is_digit (String.substring 0 4 s +:+ String.substring 5 2 s +:+ String.substring 8 2 s).

Definition nonnegative_text (t : string) : bool := negb (String.prefix "-" t).
(** Between 0 and 1: a number below one is printed with [0.] or a negative exponent. *)
Definition unit_text (t : string) : bool :=
  nonnegative_text t && (bool_decide (t = "0") || bool_decide (t = "1") || String.prefix "0." t || includes "e-" t).

Definition nonempty_string (j : json) : bool := match j with JStr s => negb (bool_decide (s = EmptyString)) | _ => false end.
Definition date_string (j : json) : bool := match j with JStr s => is_date_text s | _ => false end.
Definition number_with (P : string → bool) (j : json) : bool := match j with JNum t => P t | _ => false end.
Definition record_of_unknown (j : json) : bool := match j with JObj _ => true | _ => false end.
Definition scheme_name (j : json) : bool := bool_decide (j = JStr "hmac-sha256") || bool_decide (j = JStr "ed25519").

Definition manifest_fields : list (string * (json → bool)) :=
  [ ("project_id", nonempty_string); ("provider", nonempty_string); ("signer_public_key", nonempty_string);
    ("methodology", nonempty_string); ("period_start", date_string); ("period_end", date_string);
    ("carbon_sequestered", number_with nonnegative_text); ("confidence", number_with unit_text);
    ("raw_observations", record_of_unknown); ("transformation_parameters", record_of_unknown);
    ("generated_at", nonempty_string); ("signature", nonempty_string) ].
Definition optional_fields : list (string * (json → bool)) :=
  [ ("signature_scheme", scheme_name); ("evidence_hash", nonempty_string) ].

Fixpoint required_part (m : json) (fs : list (string * (json → bool))) : option (list (string * json)) :=
  match fs with
  | [] => Some []
  | (k, ok) :: fs => v ← prop m k; if ok v then rest ← required_part m fs; Some ((k, v) :: rest) else None
  end.
Fixpoint optional_part (m : json) (fs : list (string * (json → bool))) : option (list (string * json)) :=
  match fs with
  | [] => Some []
  | (k, ok) :: fs =>
      match prop m k with
      | None => optional_part m fs
      | Some v => if ok v then rest ← optional_part m fs; Some ((k, v) :: rest) else None
      end
  end.

(** [EvidenceManifestSchema.parse]: the fields of the schema and no others. *)
Definition EvidenceManifestSchema (m : json) : option (list (string * json)) :=
  match m with
  | JObj _ => l ← required_part m manifest_fields; r ← optional_part m optional_fields; Some (l ++ r)
  | _ => None
  end.

Definition unsigned_part (l : list (string * json)) : list (string * json) := filter (λ kv, kv.1 ≠ "signature") l.
Definition text_field (k : string) (l : list (string * json)) : string :=
  match jget k l with Some (JStr s) => s | _ => EmptyString end.

Definition DEFAULT_MANIFEST_SECRET : string := "verdant-oracle-provider-secret-key".

Inductive EvidenceVerificationCode :=
| SCHEMA_INVALID | SIGNER_INVALID | SIGNER_UNTRUSTED | SIGNATURE_MALFORMED | SIGNATURE_INVALID | GENERATED_IN_FUTURE
| MANIFEST_EXPIRED | EVIDENCE_BINDING_MISMATCH | LEGACY_SCHEME_REJECTED | MANIFEST_REQUIRED | DIGEST_MISMATCH
| NOT_RETRIEVABLE | TOO_LARGE.

Record submission := {
  sd_projectId : string;
  sd_periodStart : Z;
  sd_periodEnd : Z;
  sd_carbonSequestered : Z;
  sd_methodology : string;
  sd_evidenceHash : option string;
  sd_manifest : option json;
}.

(** [new Date(t * (t < 1e11 ? 1000 : 1)).toISOString().slice(0, 10)]. *)
Definition day_text (t : Z) : result string string :=
  match toISOString (if t <? 100000000000 then t * 1000 else t) with
  | Ok s => Ok (String.substring 0 10 s)
  | Err _ => Err "RangeError"
  end.

Definition verifyManifestMatchesReport (m : json) (d : submission) : result string bool :=
  if negb (bool_decide (prop m "project_id" = Some (JStr (sd_projectId d)))) then Ok false
  else if negb (bool_decide (prop m "methodology" = Some (JStr (sd_methodology d)))) then Ok false
  else
    start ← day_text (sd_periodStart d);
    end_ ← day_text (sd_periodEnd d);
    Ok (bool_decide (prop m "period_start" = Some (JStr start)) && bool_decide (prop m "period_end" = Some (JStr end_)) &&
        bool_decide (prop m "carbon_sequestered" = Some (jint (sd_carbonSequestered d)))).

Inductive EvidenceSignatureMode := legacy | ed25519 | required.
#[export] Instance EvidenceSignatureMode_eq_dec : EqDecision EvidenceSignatureMode.
Proof. solve_decision. Defined.
Definition resolveSignatureMode (raw : option string) : EvidenceSignatureMode :=
  if bool_decide (raw = Some "ed25519") then ed25519 else if bool_decide (raw = Some "required") then required else legacy.

Definition MAX_FUTURE_SKEW_MS : Z := 5 * 60000.

(** *** Signatures in text *)

Definition base64_value (c : ascii) : option Z :=
  index_of c "ABCDEFGHIJKLMNOPQRSTUVWXYZabcdefghijklmnopqrstuvwxyz0123456789+/".
Definition is_base64_char (c : ascii) : bool := match base64_value c with Some _ => true | None => false end.

(** [Buffer.from(s, 'base64')], up to the padding. *)
Fixpoint from_base64 (value bits : Z) (s : string) : list Z :=
  match s with
  | EmptyString => []
  | String c s =>
      match base64_value c with
      | None => []
      | Some v =>
          let value := value * 64 + v in
          let bits := bits + 6 in
          if 8 <=? bits then
            let bits := bits - 8 in value / 2 ^ bits :: from_base64 (value mod 2 ^ bits) bits s
          else from_base64 value bits s
      end
  end.

Definition decodeSignature (s : string) : option (list Z) :=
  if bool_decide (String.length s = 128%nat) && str_forall is_hex_char s then Some (from_hex s)
  else if bool_decide (String.length s = 88%nat) && bool_decide (String.substring 86 2 s = "==") &&
          str_forall is_base64_char (String.substring 0 86 s)
       then Some (from_base64 0 0 (String.substring 0 86 s))
  else None.

Section evidence.
Context (sha256 : string → list Z) (hmac : string → string → string).
Context (isValidEd25519PublicKey : string → bool) (verify_with : string → string → list Z → result string bool).
Context (other_dates : string → option Z).

Definition signEvidence (payload : json) (secret : string) : string := hmac secret (canonicalJson payload).

(** Whether a manifest is acceptable, or why not.  The shared-secret check reports no code;
    the codes only tell its two errors apart. *)
Definition verdict := result EvidenceVerificationCode unit.

Definition verifyManifest (m : json) (expectedSecret : string) : verdict :=
  match EvidenceManifestSchema m with
  | None => Err SCHEMA_INVALID
  | Some l =>
      if bool_decide (text_field "signature" l = signEvidence (JObj (unsigned_part l)) expectedSecret) then Ok tt
      else Err SIGNATURE_INVALID
  end.

Definition delegations := list (string * list string).

Definition parseDelegatedSigners (raw : option json) : delegations :=
  match raw with
  | Some (JObj l) =>
      omap (λ kv : string * json,
        match kv with
        | (provider, JArr signers) =>
            if isValidEd25519PublicKey provider then
              match omap (λ s, match s with JStr s => if isValidEd25519PublicKey s then Some s else None | _ => None end) signers with
              | [] => None
              | valid => Some (provider, valid)
              end
            else None
        | _ => None
        end) l
  | _ => []
  end.

Definition manifestSigningBytes (l : list (string * json)) : string := canonicalJson (JObj (unsigned_part l)).

Record Ed25519VerifyOptions := {
  vo_delegatedSigners : delegations;
  vo_evidenceHash : option string;
  vo_maxAgeSeconds : option Z;
  vo_now : Z;
}.

Definition verifyEd25519Manifest (m : json) (providerAddress : string) (o : Ed25519VerifyOptions) : verdict :=
  match EvidenceManifestSchema m with
  | None => Err SCHEMA_INVALID
  | Some l =>
  let signer := text_field "signer_public_key" l in
  if negb (isValidEd25519PublicKey signer) then Err SIGNER_INVALID
  else if negb (bool_decide (signer = providerAddress)) &&
          negb (bool_decide (signer ∈ default [] (aget providerAddress (vo_delegatedSigners o)))) then Err SIGNER_UNTRUSTED
  else
  match decodeSignature (text_field "signature" l) with
  | None => Err SIGNATURE_MALFORMED
  | Some sig =>
  if negb (bool_decide (verify_with signer (manifestSigningBytes l) sig = Ok true)) then Err SIGNATURE_INVALID
  else
  match Date_parse other_dates (text_field "generated_at" l) with
  | None => Err SCHEMA_INVALID
  | Some generatedAt =>
  if MAX_FUTURE_SKEW_MS <? generatedAt - vo_now o then Err GENERATED_IN_FUTURE
  else if match vo_maxAgeSeconds o with
          | Some a => negb (a =? 0) && (a * 1000 <? vo_now o - generatedAt)
          | None => false
          end then Err MANIFEST_EXPIRED
  else if match jget "evidence_hash" l with
          | Some (JStr h) => negb (bool_decide (vo_evidenceHash o = Some h))
          | _ => false
          end then Err EVIDENCE_BINDING_MISMATCH
  else Ok tt
  end end end.

(** ** Content *)

(** A buffer is a byte string here; one that is no JSON text has no canonical form. *)
Definition digestMatchesReference (num : string → string) (bytes : string) (reference : string) : result string bool :=
  expected ← encodeCid reference;
  Ok (bool_decide (sha256 bytes = expected) ||
      match JSON_parse num bytes with
      | Some v => bool_decide (sha256 (canonicalJson v) = expected)
      | None => false
      end).

(** What one request to the gateway gives. *)
Inductive response :=
| Body (declared : option Z) (bytes : string)
| Status (status : Z)
| Failed (message : string).

Definition RETRYABLE_STATUS : list Z := [408; 425; 429; 500; 502; 503; 504].

(** One attempt: a verdict, or the reason to try again.  A reference that is no CID makes the
    comparison throw, which is caught as a failure of the attempt. *)
Definition attempt_once (num : string → string) (reference : string) (maxBytes : Z) (r : response) : option verdict :=
  match r with
  | Failed _ => None
  | Status s => if bool_decide (s ∈ RETRYABLE_STATUS) then None else Some (Err NOT_RETRIEVABLE)
  | Body declared bytes =>
      if match declared with Some d => maxBytes <? d | None => false end then Some (Err TOO_LARGE)
      else if maxBytes <? Z.of_nat (String.length bytes) then Some (Err TOO_LARGE)
      else match digestMatchesReference num bytes reference with
           | Ok true => Some (Ok tt)
           | Ok false => Some (Err DIGEST_MISMATCH)
           | Err _ => None
           end
  end.

(** The attempts from [attempt] on; [gateway n] is the answer to the [n]-th. *)
Fixpoint attempts_from (num : string → string) (gateway : nat → response) (reference : string) (maxBytes : Z)
    (attempt remaining : nat) : verdict * nat :=
  match remaining with
  | O => (Err NOT_RETRIEVABLE, Nat.pred attempt)
  | S remaining =>
      match attempt_once num reference maxBytes (gateway attempt) with
      | None => attempts_from num gateway reference maxBytes (S attempt) remaining
      | Some v => (v, attempt)
      end
  end.
Definition fetchAndVerifyEvidence (num : string → string) (gateway : nat → response) (reference : string) (maxBytes : Z)
    (maxAttempts : nat) : verdict * nat :=
  attempts_from num gateway reference maxBytes 1 maxAttempts.

(** ** Submitting a report *)

Record evidence_config := {
  cf_mode : option string;
  cf_delegatedSigners : option json;
  cf_maxAgeSeconds : option Z;
  cf_verifyContent : bool;
  cf_verifyRetrievability : bool;
  cf_maxAttempts : nat;
  cf_maxBytes : Z;
}.

(** What a submission does to the outside, in order. *)
Inductive effect :=
| Pinned (d : submission) (providerAddress : string)
| SentReport (providerAddress : string) (d : submission) (evidence : list Z)
| DroppedCache (projectId : string).

(** What the outside answers. *)
Record outside := {
  os_gateway : nat → response;
  os_pin : result string string;
  os_send : result string Z;
}.

Definition verifyManifestSignature (c : evidence_config) (now : Z) (d : submission) (m : json) (providerAddress : string) :
    verdict :=
  if bool_decide (prop m "signature_scheme" = Some (JStr "ed25519")) then
    verifyEd25519Manifest m providerAddress
      {| vo_delegatedSigners := parseDelegatedSigners (cf_delegatedSigners c); vo_evidenceHash := sd_evidenceHash d;
         vo_maxAgeSeconds := cf_maxAgeSeconds c; vo_now := now |}
  else if negb (bool_decide (resolveSignatureMode (cf_mode c) = legacy)) then Err LEGACY_SCHEME_REJECTED
  else verifyManifest m DEFAULT_MANIFEST_SECRET.

(** The checks of the manifest, an exception being its text. *)
Definition manifest_checks (c : evidence_config) (now : Z) (d : submission) (providerAddress : string) : result string unit :=
  match sd_manifest d with
  | None => throw_if (bool_decide (resolveSignatureMode (cf_mode c) = required)) "Evidence Verification Failed"
  | Some m =>
      match verifyManifestSignature c now d m providerAddress with
      | Err _ => Err "Evidence Verification Failed"
      | Ok _ =>
          matches ← verifyManifestMatchesReport m d;
          throw_if (negb matches) "Manifest values do not match report submission"
      end
  end.

(** Hex digests name no object of the gateway. *)
Definition assertEvidenceContentMatches (num : string → string) (c : evidence_config) (w : outside) (h : string) :
    result string unit :=
  if negb (String.prefix "Qm" h) then Ok tt
  else
    match (fetchAndVerifyEvidence num (os_gateway w) h (cf_maxBytes c) (cf_maxAttempts c)).1 with
    | Ok _ => Ok tt
    | Err _ => Err "Evidence Verification Failed"
    end.

Definition assertEvidenceRetrievable (w : outside) (h : string) : result string unit :=
  if negb (String.prefix "Qm" h) then Ok tt
  else
    match os_gateway w 1%nat with
    | Body _ _ => Ok tt
    | Status _ => Err "not retrievable from the configured IPFS gateway"
    | Failed m => Err ("could not be retrieved from the configured IPFS gateway: " +:+ m)
    end.

Definition content_checks (num : string → string) (c : evidence_config) (d : submission) (w : outside) : result string unit :=
  match truthy (sd_evidenceHash d) with
  | None => Ok tt
  | Some h =>
      if cf_verifyContent c then assertEvidenceContentMatches num c w h
      else if cf_verifyRetrievability c then assertEvidenceRetrievable w h
      else Ok tt
  end.

Definition submitReport (num : string → string) (c : evidence_config) (now : Z) (d : submission) (providerAddress : string)
    (w : outside) : list effect * result string Z :=
  match manifest_checks c now d providerAddress with
  | Err e => ([], Err e)
  | Ok _ =>
  match content_checks num c d w with
  | Err e => ([], Err e)
  | Ok _ =>
  let pinned := [Pinned d providerAddress] in
  match os_pin w with
  | Err e => (pinned, Err e)
  | Ok hash =>
  match encodeCid (default hash (sd_evidenceHash d)) with
  | Err e => (pinned, Err e)
  | Ok evidence =>
  let sent := pinned ++ [SentReport providerAddress d evidence] in
  match os_send w with
  | Err e => (sent, Err e)
  | Ok id => (sent ++ [DroppedCache (sd_projectId d)], Ok id)
  end end end end end.
End evidence.

(** ** What a signature covers *)

Lemma sort_keys_keys (l : list (string * json)) : (map (λ kv, (fst kv, sort_keys (snd kv))) l).*1 = l.*1.
Proof. induction l as [|[k v] l IH]; [done|]. cbn [map fmap list_fmap fst snd]. f_equal. exact IH. Qed.

Lemma sort_keys_ok j : json_ok j = true → json_ok (sort_keys j) = true.
Proof.
  induction j as [|b|t|s|l IH|l IH] using json_ind_nested; try done; cbn [sort_keys json_ok]; intros Hok.
  - rewrite forallb_forall in *. intros x (y & <- & Hy)%in_map_iff. rewrite Forall_forall in IH. apply IH; [|by apply Hok].
    by apply list_elem_of_In.
  - apply andb_true_iff in Hok as [Hnd%bool_decide_eq_true Hok]. rewrite sort_keys_keys. apply andb_true_iff. split.
    + apply bool_decide_eq_true. rewrite <- list_fmap_compose. cbn. rewrite list_fmap_id, merge_sort_Permutation. done.
    + apply forallb_forall. intros [k v] Hin%list_elem_of_In. apply list_elem_of_fmap in Hin as (k' & [= -> ->] & _). cbn [snd].
      rewrite jget_map_snd. destruct (jget k' l) as [v|] eqn:E; [|done]. cbn. apply jget_Some_elem in E.
      rewrite Forall_forall in IH. apply (IH (k', v) E). rewrite forallb_forall in Hok. by apply (Hok (k', v)), list_elem_of_In.
Qed.

Lemma prop_sort_keys e k : prop (sort_keys e) k = sort_keys <$> prop e k.
Proof.
  destruct e as [| | | |l|l]; try done. cbn [sort_keys prop]. rewrite sort_keys_keys, <- jget_map_snd.
  set (l' := map _ l). destruct (decide (k ∈ l.*1)) as [Hk|Hk].
  - rewrite (jget_fmap (λ k, default JNull (jget k l'))) by (by rewrite merge_sort_Permutation).
    destruct (jget k l') eqn:E; [done|]. apply jget_None in E. unfold l' in E. by rewrite sort_keys_keys in E.
  - trans (@None json); [|symmetry]; apply jget_None; [|unfold l'; by rewrite sort_keys_keys].
    rewrite <- list_fmap_compose. cbn. by rewrite list_fmap_id, merge_sort_Permutation.
Qed.

Lemma canonicalJson_exact j1 j2 :
  json_ok j1 = true → json_ok j2 = true → canonicalJson j1 = canonicalJson j2 ↔ sort_keys j1 = sort_keys j2.
Proof. intros H1 H2. unfold canonicalJson. split; [|congruence]. apply JSON_stringify_inj; by apply sort_keys_ok. Qed.

(** A signed text fixes every field but the signature. *)
Lemma signature_covers_manifest l1 l2 k :
  json_ok (JObj (unsigned_part l1)) = true → json_ok (JObj (unsigned_part l2)) = true →
  manifestSigningBytes l1 = manifestSigningBytes l2 → k ≠ "signature" →
  sort_keys <$> jget k l1 = sort_keys <$> jget k l2.
Proof.
  intros H1 H2 E Hk. apply canonicalJson_exact in E; [|done..].
  apply (f_equal (λ j, prop j k)) in E. rewrite !prop_sort_keys in E. cbn [prop] in E.
  assert (∀ l, jget k (unsigned_part l) = jget k l) as Hu; [|by rewrite !Hu in E].
  induction l as [|[k' v] l IH]; [done|]. unfold unsigned_part. rewrite filter_cons. case_decide as Hd; cbn [fst] in Hd.
  - cbn [jget]. case_decide; [done|apply IH].
  - cbn [jget]. rewrite decide_False by congruence. apply IH.
Qed.

(** ** Checks before effects *)

Section checked.
Context (sha256 : string → list Z) (hmac : string → string → string).
Context (isValidEd25519PublicKey : string → bool) (verify_with : string → string → list Z → result string bool).
Context (other_dates : string → option Z) (num : string → string).

Lemma attempts_from_spec gateway reference maxBytes remaining attempt :
  let '(v, n) := attempts_from sha256 num gateway reference maxBytes attempt remaining in
  (∃ i, (attempt ≤ i < attempt + remaining)%nat ∧ n = i ∧
        attempt_once sha256 num reference maxBytes (gateway i) = Some v ∧
        ∀ j, (attempt ≤ j < i)%nat → attempt_once sha256 num reference maxBytes (gateway j) = None) ∨
  (v = Err NOT_RETRIEVABLE ∧ n = Nat.pred (attempt + remaining) ∧
   ∀ j, (attempt ≤ j < attempt + remaining)%nat → attempt_once sha256 num reference maxBytes (gateway j) = None).
Proof.
  revert attempt. induction remaining as [|r IH]; intros a; cbn [attempts_from].
  - right. split_and!; [done|f_equal; lia|intros; lia].
  - destruct (attempt_once sha256 num reference maxBytes (gateway a)) as [v|] eqn:E.
    + left. exists a. split_and!; [lia..|done|intros; lia].
    + specialize (IH (S a)). destruct (attempts_from _ _ _ _ _ (S a) r) as [v n].
      assert (∀ hi, (∀ j, (S a ≤ j < hi)%nat → attempt_once sha256 num reference maxBytes (gateway j) = None) →
                    ∀ j, (a ≤ j < hi)%nat → attempt_once sha256 num reference maxBytes (gateway j) = None) as Hext.
      { intros hi H j Hj. destruct (decide (j = a)) as [->|]; [done|]. apply H. lia. }
      destruct IH as [(i & Hi & -> & Hv & Hb)|(-> & -> & Hb)].
      * left. exists i. split_and!; [lia..|done|by apply Hext].
      * right. split_and!; [done|f_equal; lia|]. replace (a + S r)%nat with (S a + r)%nat by lia. by apply Hext.
Qed.

(** The content of an answer has the digest that the reference names. *)
Definition names_content (reference bytes : string) : Prop :=
  ∃ d, encodeCid reference = Ok d ∧
       (sha256 bytes = d ∨ ∃ v, JSON_parse num bytes = Some v ∧ sha256 (canonicalJson v) = d).

Lemma attempt_once_ok reference maxBytes r :
  attempt_once sha256 num reference maxBytes r = Some (Ok tt) ↔
  ∃ declared bytes, r = Body declared bytes ∧ (∀ d, declared = Some d → d ≤ maxBytes) ∧
    Z.of_nat (String.length bytes) ≤ maxBytes ∧ names_content reference bytes.
Proof.
  destruct r as [declared bytes|st|msg]; cbn [attempt_once].
  2: { case_bool_decide; split; [done|by intros (? & ? & ? & _)|done|by intros (? & ? & ? & _)]. }
  2: { split; [done|by intros (? & ? & ? & _)]. }
  split.
  - intros H. exists declared, bytes. split; [done|].
    destruct (match declared with Some d => _ | None => _ end) eqn:Ed; [done|].
    destruct (Z.ltb_spec maxBytes (Z.of_nat (String.length bytes))) as [|Hl]; [done|].
    split_and!; [intros d ->; by apply Z.ltb_ge in Ed|done|].
    unfold digestMatchesReference in H. destruct (encodeCid reference) as [d|] eqn:Ec; [|done]. exists d. split; [done|].
    cbn [mbind result_bind] in H. destruct (bool_decide (sha256 bytes = d)) eqn:E1; [left; by apply bool_decide_eq_true in E1|].
    cbn [orb] in H. destruct (JSON_parse num bytes) as [v|]; [|done]. right. exists v. split; [done|].
    case_bool_decide; done.
  - intros (d' & b' & [= -> ->] & Hd & Hl & x & Hx & Hs). destruct d' as [d'|].
    + rewrite (proj2 (Z.ltb_ge _ _)) by (by apply Hd). rewrite (proj2 (Z.ltb_ge _ _)) by done.
      unfold digestMatchesReference. rewrite Hx. cbn [mbind result_bind].
      destruct Hs as [Hs|(v & Hv & Hs)]; [by rewrite bool_decide_eq_true_2|].
      rewrite Hv, (bool_decide_eq_true_2 _ Hs), orb_true_r. done.
    + rewrite (proj2 (Z.ltb_ge _ _)) by done.
      unfold digestMatchesReference. rewrite Hx. cbn [mbind result_bind].
      destruct Hs as [Hs|(v & Hv & Hs)]; [by rewrite bool_decide_eq_true_2|].
      rewrite Hv, (bool_decide_eq_true_2 _ Hs), orb_true_r. done.
Qed.

(** Evidence is accepted exactly when some attempt within the allowed number answers
    with content whose digest is the one of the reference, within the size limit, and every
    attempt before it failed in a way that may pass; the attempts made never exceed the
    allowed number, and after a final answer there is no other attempt. *)
Lemma fetch_exact gateway reference maxBytes maxAttempts :
  let '(v, n) := fetchAndVerifyEvidence sha256 num gateway reference maxBytes maxAttempts in
  (n ≤ maxAttempts)%nat ∧
  (∀ j, (1 ≤ j < n)%nat → attempt_once sha256 num reference maxBytes (gateway j) = None) ∧
  (v = Ok tt ↔
   ∃ i declared bytes, (1 ≤ i ≤ maxAttempts)%nat ∧
     (∀ j, (1 ≤ j < i)%nat → attempt_once sha256 num reference maxBytes (gateway j) = None) ∧
     gateway i = Body declared bytes ∧ (∀ d, declared = Some d → d ≤ maxBytes) ∧
     Z.of_nat (String.length bytes) ≤ maxBytes ∧ names_content reference bytes).
Proof.
  unfold fetchAndVerifyEvidence. pose proof (attempts_from_spec gateway reference maxBytes maxAttempts 1) as H.
  destruct (attempts_from _ _ _ _ _ _ _) as [v n]. destruct H as [(i & Hi & -> & Hv & Hb)|(-> & -> & Hb)].
  - split_and!; [lia|done|]. split.
    + intros ->. apply attempt_once_ok in Hv as (d & b & H). exists i, d, b. destruct H as (? & ? & ? & ?). split_and!; try done; lia.
    + intros (i' & d & b & Hi' & Hb' & H). assert (i' = i) as ->.
      { destruct (lt_eq_lt_dec i i') as [[Hlt| ->]|Hlt]; [|done|].
        - rewrite Hb' in Hv by lia. done.
        - assert (attempt_once sha256 num reference maxBytes (gateway i') = Some (Ok tt)) as Hc
            by (apply attempt_once_ok; by exists d, b). rewrite Hb in Hc by lia. done. }
      assert (attempt_once sha256 num reference maxBytes (gateway i) = Some (Ok tt)) as Hc
        by (apply attempt_once_ok; by exists d, b). congruence.
  - split_and!; [lia|intros; apply Hb; lia|]. split; [done|]. intros (i & d & b & Hi & _ & H).
    assert (attempt_once sha256 num reference maxBytes (gateway i) = Some (Ok tt)) as Hc
      by (apply attempt_once_ok; by exists d, b). rewrite Hb in Hc by lia. done.
Qed.

(** A manifest that a provider stands for: signed with its key or a delegated one, neither
    from the future nor too old, and for this evidence if it names any. *)
Definition stands_for (o : Ed25519VerifyOptions) (providerAddress : string) (m : json) : Prop :=
  ∃ l sig generatedAt, EvidenceManifestSchema m = Some l ∧
    let signer := text_field "signer_public_key" l in
    isValidEd25519PublicKey signer = true ∧
    (signer = providerAddress ∨ signer ∈ default [] (aget providerAddress (vo_delegatedSigners o))) ∧
    decodeSignature (text_field "signature" l) = Some sig ∧ verify_with signer (manifestSigningBytes l) sig = Ok true ∧
    Date_parse other_dates (text_field "generated_at" l) = Some generatedAt ∧
    generatedAt ≤ vo_now o + MAX_FUTURE_SKEW_MS ∧
    (∀ a, vo_maxAgeSeconds o = Some a → a ≠ 0 → vo_now o ≤ generatedAt + a * 1000) ∧
    (∀ h, jget "evidence_hash" l = Some (JStr h) → vo_evidenceHash o = Some h).

Lemma verifyEd25519Manifest_spec m p o :
  verifyEd25519Manifest isValidEd25519PublicKey verify_with other_dates m p o = Ok tt ↔ stands_for o p m.
Proof.
  unfold verifyEd25519Manifest, stands_for. destruct (EvidenceManifestSchema m) as [l|]; [|naive_solver].
  set (signer := text_field "signer_public_key" l).
  destruct (isValidEd25519PublicKey signer) eqn:E1; cbn [negb]; [|split; [done|intros (l' & ? & ? & [= <-] & H & _); cbv zeta in H; fold signer in H; congruence]].
  destruct (negb (bool_decide (signer = p)) && _) eqn:E2.
  { split; [done|]. intros (l' & ? & ? & [= <-] & _ & H & _). fold signer in H. bool_to_prop. tauto. }
  assert (signer = p ∨ signer ∈ default [] (aget p (vo_delegatedSigners o))) as H2.
  { apply andb_false_iff in E2 as [E2|E2]; bool_to_prop; tauto. }
  destruct (decodeSignature _) as [sig|] eqn:E3; [|naive_solver].
  destruct (bool_decide (verify_with _ _ _ = _)) eqn:E4; cbn [negb]; [apply bool_decide_eq_true in E4|apply bool_decide_eq_false in E4; naive_solver].
  destruct (Date_parse _ _) as [g|] eqn:E5; [|naive_solver].
  destruct (Z.ltb_spec MAX_FUTURE_SKEW_MS (g - vo_now o)) as [H6|H6].
  { split; [done|]. intros (l' & ? & g' & [= <-] & _ & _ & _ & _ & H & Hf & _). rewrite E5 in H. injection H as <-. lia. }
  destruct (match vo_maxAgeSeconds o with Some a => _ | None => _ end) eqn:E7.
  { split; [done|]. intros (l' & ? & g' & [= <-] & _ & _ & _ & _ & H & _ & Ha & _). rewrite E5 in H. injection H as <-.
    destruct (vo_maxAgeSeconds o) as [a|]; [|done]. bool_to_prop. specialize (Ha a eq_refl). lia. }
  assert (∀ a, vo_maxAgeSeconds o = Some a → a ≠ 0 → vo_now o ≤ g + a * 1000) as H7.
  { intros a Ho Ha. rewrite Ho in E7. apply andb_false_iff in E7 as [E7|E7]; bool_to_prop; lia. }
  destruct (match jget "evidence_hash" l with Some (JStr h) => _ | _ => _ end) eqn:E8.
  { split; [done|]. intros (l' & ? & ? & [= <-] & _ & _ & _ & _ & _ & _ & _ & Hh).
    destruct (jget "evidence_hash" l) as [[| | |h| |]|]; try done. bool_to_prop. by specialize (Hh h eq_refl). }
  split; [|done]. intros _. exists l, sig, g. fold signer. split_and!; try done; [lia|].
  intros h Hh. rewrite Hh in E8. by bool_to_prop.
Qed.

(** The values of a report and of its manifest. *)
Definition same_values (m : json) (d : submission) : Prop :=
  prop m "project_id" = Some (JStr (sd_projectId d)) ∧ prop m "methodology" = Some (JStr (sd_methodology d)) ∧
  (∃ s e, day_text (sd_periodStart d) = Ok s ∧ day_text (sd_periodEnd d) = Ok e ∧
          prop m "period_start" = Some (JStr s) ∧ prop m "period_end" = Some (JStr e)) ∧
  prop m "carbon_sequestered" = Some (jint (sd_carbonSequestered d)).

Lemma verifyManifestMatchesReport_spec m d : verifyManifestMatchesReport m d = Ok true ↔ same_values m d.
Proof.
  unfold verifyManifestMatchesReport, same_values. destruct (bool_decide (prop m "project_id" = _)) eqn:E1; cbn [negb];
    [|split; [done|intros (H & _); bool_to_prop; done]].
  destruct (bool_decide (prop m "methodology" = _)) eqn:E2; cbn [negb]; [|split; [done|intros (_ & H & _); bool_to_prop; done]].
  bool_to_prop. destruct (day_text (sd_periodStart d)) as [s|]; [|naive_solver].
  destruct (day_text (sd_periodEnd d)) as [e|]; [|naive_solver]. cbn [mbind result_bind]. split.
  - intros [= H]. bool_to_prop. split_and!; try done. by exists s, e.
  - intros (_ & _ & (s' & e' & [= <-] & [= <-] & H3 & H4) & H5). by rewrite !bool_decide_eq_true_2.
Qed.

(** C35: nothing is pinned and nothing is sent unless every check that the configuration asks
    for passed: a manifest is there when one is required; a manifest that is there has the
    values of the report and is signed by the provider or one of its delegates (or, in
    legacy mode only, with the shared secret); and for a reference that starts with "Qm" (one
    of any other form is not looked up at all), with content verification on, the gateway
    served content with the digest of the reference, and with only the retrievability check on,
    it answered the one request.  What happens is pinning, sending and dropping the cached
    project, in this order, up to the first that fails; what is sent is the digest, of 32
    bytes, of the reference, or of what was pinned when the report has none; and only a report
    that got through all three succeeds. *)
Theorem report_evidence_checked c now d p w :
  let mode := resolveSignatureMode (cf_mode c) in
  let '(effects, r) := submitReport sha256 hmac isValidEd25519PublicKey verify_with other_dates num c now d p w in
  (effects ≠ [] →
    (sd_manifest d = None → mode ≠ required) ∧
    (∀ m, sd_manifest d = Some m → same_values m d ∧
      (prop m "signature_scheme" = Some (JStr "ed25519") ∧
       stands_for {| vo_delegatedSigners := parseDelegatedSigners isValidEd25519PublicKey (cf_delegatedSigners c);
                     vo_evidenceHash := sd_evidenceHash d; vo_maxAgeSeconds := cf_maxAgeSeconds c; vo_now := now |} p m ∨
       mode = legacy ∧ verifyManifest hmac m DEFAULT_MANIFEST_SECRET = Ok tt)) ∧
    (∀ h, truthy (sd_evidenceHash d) = Some h → cf_verifyContent c = true → String.prefix "Qm" h = true →
      ∃ i declared bytes, (i ≤ cf_maxAttempts c)%nat ∧ os_gateway w i = Body declared bytes ∧ names_content h bytes) ∧
    (∀ h, truthy (sd_evidenceHash d) = Some h → cf_verifyContent c = false → cf_verifyRetrievability c = true →
      String.prefix "Qm" h = true → ∃ declared bytes, os_gateway w 1 = Body declared bytes)) ∧
  ∃ e, effects `prefix_of` [Pinned d p; SentReport p d e; DroppedCache (sd_projectId d)] ∧
    ((2 ≤ length effects)%nat → length e = 32%nat ∧
     ∃ hash, os_pin w = Ok hash ∧ encodeCid (default hash (sd_evidenceHash d)) = Ok e) ∧
    ∀ id, r = Ok id → length effects = 3%nat ∧ os_send w = Ok id.
Proof.
  intros mode. unfold submitReport. destruct (manifest_checks _ _ _ _ _ _ _ _) as [[]|] eqn:Em;
    [|split; [done|]; exists []; split_and!; [apply prefix_nil|cbn; lia|done]].
  destruct (content_checks _ _ _ _ _) as [[]|] eqn:Ec; [|split; [done|]; exists []; split_and!; [apply prefix_nil|cbn; lia|done]].
  match goal with |- let '(effects, r) := ?X in _ => enough (let '(effects, r) := X in
     ∃ e, effects `prefix_of` [Pinned d p; SentReport p d e; DroppedCache (sd_projectId d)] ∧
      ((2 ≤ length effects)%nat → length e = 32%nat ∧
       ∃ hash, os_pin w = Ok hash ∧ encodeCid (default hash (sd_evidenceHash d)) = Ok e) ∧
      ∀ id, r = Ok id → length effects = 3%nat ∧ os_send w = Ok id) as Hsent; [|clear Em Ec] end.
  - destruct (match os_pin w with Ok _ => _ | Err _ => _ end) as [effects r]. split; [|exact Hsent]. intros _. clear Hsent.
    unfold manifest_checks in Em. fold mode in Em. split_and!.
    + intros Hn. rewrite Hn in Em. apply throw_if_ok in Em. by bool_to_prop.
    + intros m Hm. rewrite Hm in Em. destruct (verifyManifestSignature _ _ _ _ _ _ _ _ _) as [[]|] eqn:Ev; [|done].
      apply bind_ok in Em as (b & Eb & Hb%throw_if_ok). apply negb_false_iff in Hb as ->.
      split; [by apply verifyManifestMatchesReport_spec|]. unfold verifyManifestSignature in Ev. fold mode in Ev.
      case_bool_decide as Hs; [left; split; [done|]; by apply verifyEd25519Manifest_spec|right].
      destruct (decide (mode = legacy)) as [Hl|Hl]; [split; [done|]|].
      * by rewrite Hl in Ev.
      * rewrite (bool_decide_eq_false_2 _ Hl) in Ev. done.
    + intros h Hh Hv Hq. unfold content_checks in Ec. rewrite Hh, Hv in Ec.
      unfold assertEvidenceContentMatches in Ec. rewrite Hq in Ec. cbn [negb] in Ec.
      pose proof (fetch_exact (os_gateway w) h (cf_maxBytes c) (cf_maxAttempts c)) as Hf.
      destruct (fetchAndVerifyEvidence _ _ _ _ _ _) as [v n]. cbn [fst] in Ec. destruct v as [[]|]; [|done].
      destruct Hf as (_ & _ & Hf). destruct (proj1 Hf eq_refl) as (i & dcl & b & ? & ? & ? & ? & ? & ?). exists i, dcl, b. split_and!; [lia|done..].
    + intros h Hh Hv Hr Hq. unfold content_checks in Ec. rewrite Hh, Hv, Hr in Ec.
      unfold assertEvidenceRetrievable in Ec. rewrite Hq in Ec. cbn [negb] in Ec. destruct (os_gateway w 1); [eauto|done..].
  - destruct (os_pin w) as [hash|]; [|exists []; split_and!; [by eexists|cbn; lia|done]].
    destruct (encodeCid (default hash (sd_evidenceHash d))) as [ev|] eqn:Ev; [|exists []; split_and!; [by eexists|cbn; lia|done]].
    destruct (os_send w) as [id|err]; exists ev; (split_and!; [by eexists| |]); try (intros _; split; [by eapply encodeCid_length|by exists hash]).
    + by intros id' [= <-].
    + done.
Qed.
End checked.
