(* ===== verification/Oracle.v ===== *)
(** * Oracle reports

    Models the reports of [api/src/oracle/oracle.service.ts]: decoding what the contract
    stores, the cached list of a project's reports, whether a coupon may be paid on them
    ([getCouponEligibility]), challenging a report, and the dispute bundles of
    [interfaces/dispute-bundle.interface.ts].

    The contract is an argument: what it answers for a project and for a report, both of
    which may throw.  A report arrives as a record with the contract's fields, its numbers
    being integers.  The cache holds lists of reports; writing and reading them as JSON gives
    back the same list, and an entry may lapse at any moment.

    Shown: a coupon is payable exactly when some report is verified, none is challenged or
    rejected, and no two of one provider and methodology overlap, and the verdict names the
    reports that stand in the way ([coupon_eligible_exact]); a bundle that verifies under a
    digest has the content it was issued with, or SHA-256 collides, and its reference resolves
    to that digest ([bundle_tamper_evident]).  Where the code falls short: a challenge leaves
    the cached list in place, so that the project stays eligible
    ([challenged_report_still_eligible]), and a report that cannot be read is left out, so
    that it blocks nothing ([unreadable_report_ignored]). *)
From S2P Require Import Prelude JsDate Json JsonParse Cid Evidence.

(** ** Reports *)

Inductive ReportStatus := Pending | Verified | Challenged | Rejected.
#[export] Instance ReportStatus_eq_dec : EqDecision ReportStatus.
Proof. solve_decision. Defined.

Definition status_text (s : ReportStatus) : string :=
  match s with Pending => "Pending" | Verified => "Verified" | Challenged => "Challenged" | Rejected => "Rejected" end.

Record ReportResponse := {
  rp_id : Z;
  rp_projectId : string;
  rp_periodStart : Z;
  rp_periodEnd : Z;
  rp_carbonSequestered : string;
  rp_methodology : string;
  rp_ipfsHash : string;
  rp_providerAddress : string;
  rp_status : ReportStatus;
  rp_createdAt : string;
  rp_verifiedAt : option string;
  rp_providerStakeAtVerification : option string;
}.

(** A report as the contract returns it. *)
Record raw_report := {
  rr_id : Z;
  rr_provider : string;
  rr_project_id : list Z;
  rr_period_start : Z;
  rr_period_end : Z;
  rr_carbon_sequestered : Z;
  rr_methodology : string;
  rr_ipfs_evidence_hash : list Z;
  rr_status : Z;
  rr_submitted_at : Z;
  rr_verified_at : Z;
  rr_provider_stake : option Z;
}.

(** [buffer.toString('hex')]. *)
Definition to_hex (bytes : list Z) : string :=
  String.concat "" ((λ b, String (hex_digit (Z.to_N (b / 16))) (String (hex_digit (Z.to_N (b mod 16))) EmptyString)) <$> bytes).

Definition reportStatusFromIndex (index : Z) : ReportStatus :=
  if index =? 1 then Verified else if index =? 2 then Challenged else if index =? 3 then Rejected else Pending.

Definition iso_of_seconds (s : Z) : result string string :=
  match toISOString (s * 1000) with Ok t => Ok t | Err _ => Err "RangeError: Invalid time value" end.

Definition decodeReport (d : raw_report) : result string ReportResponse :=
  createdAt ← iso_of_seconds (rr_submitted_at d);
  verifiedAt ← (if 0 <? rr_verified_at d then t ← iso_of_seconds (rr_verified_at d); Ok (Some t) else Ok None);
  Ok {| rp_id := rr_id d; rp_projectId := to_hex (rr_project_id d); rp_periodStart := rr_period_start d;
        rp_periodEnd := rr_period_end d; rp_carbonSequestered := Z_to_string (rr_carbon_sequestered d);
        rp_methodology := rr_methodology d; rp_ipfsHash := to_hex (rr_ipfs_evidence_hash d);
        rp_providerAddress := rr_provider d; rp_status := reportStatusFromIndex (rr_status d);
        rp_createdAt := createdAt; rp_verifiedAt := verifiedAt;
        rp_providerStakeAtVerification := Z_to_string <$> rr_provider_stake d |}.

(** What the contract answers. *)
Record contract := {
  ct_project_reports : string → result string (list Z);
  ct_report : Z → result string raw_report;
}.

Definition reports_cache := list (string * list ReportResponse).

Definition getReport (c : contract) (reportId : Z) : result string ReportResponse :=
  raw ← ct_report c reportId; decodeReport raw.

Definition readable (c : contract) (id : Z) : option ReportResponse :=
  match getReport c id with Ok r => Some r | Err _ => None end.

Definition getProjectReports (c : contract) (cache : reports_cache) (projectId : string) :
    reports_cache * result string (list ReportResponse) :=
  match aget projectId cache with
  | Some reports => (cache, Ok reports)
  | None =>
      match ct_project_reports c projectId with
      | Err e => (cache, Err e)
      | Ok ids => let reports := omap (readable c) ids in (aput projectId reports cache, Ok reports)
      end
  end.

(** ** Paying a coupon *)

Record CouponEligibility := {
  ce_projectId : string;
  ce_eligible : bool;
  ce_reasons : list string;
  ce_blockedByReportIds : list Z;
}.

Definition overlapping (l r : ReportResponse) : bool :=
  bool_decide (rp_providerAddress l = rp_providerAddress r) &&
  bool_decide (rp_methodology l = rp_methodology r) &&
  (rp_periodStart l <? rp_periodEnd r) && (rp_periodStart r <? rp_periodEnd l).

Definition add_id (ids : list Z) (id : Z) : list Z := if bool_decide (id ∈ ids) then ids else ids ++ [id].

(** The inner loop, then the outer one. *)
Definition conflicts_with (l : ReportResponse) (ids : list Z) (rest : list ReportResponse) : list Z :=
  foldl (λ ids r, if overlapping l r then add_id (add_id ids (rp_id l)) (rp_id r) else ids) ids rest.
Fixpoint conflicting (ids : list Z) (reports : list ReportResponse) : list Z :=
  match reports with
  | [] => ids
  | l :: rest => conflicting (conflicts_with l ids rest) rest
  end.

Definition is_blocking (r : ReportResponse) : bool :=
  bool_decide (rp_status r = Challenged) || bool_decide (rp_status r = Rejected).

Definition eligibility_of (projectId : string) (reports : list ReportResponse) : CouponEligibility :=
  let hasVerified := existsb (λ r, bool_decide (rp_status r = Verified)) reports in
  let blocking := filter (λ r, is_blocking r = true) reports in
  let conflictingIds := conflicting [] reports in
  let reasons :=
    (if hasVerified then [] else ["No verified oracle report exists for this project"]) ++
    (match blocking with
     | [] => []
     | _ => [Z_to_string (Z.of_nat (length blocking)) +:+ " report(s) are challenged or rejected and must be resolved first"]
     end) ++
    (match conflictingIds with
     | [] => []
     | _ => ["Overlapping oracle report periods must be resolved before coupon distribution"]
     end) in
  let eligible := hasVerified && bool_decide (length blocking = 0%nat) && bool_decide (length conflictingIds = 0%nat) in
  {| ce_projectId := projectId; ce_eligible := eligible;
     ce_reasons := if negb eligible && bool_decide (length reasons = 0%nat)
                   then ["Coupon distribution is not eligible for this project"] else reasons;
     ce_blockedByReportIds := (rp_id <$> blocking) ++ conflictingIds |}.

Definition getCouponEligibility (c : contract) (cache : reports_cache) (projectId : string) :
    reports_cache * result string CouponEligibility :=
  let '(cache, r) := getProjectReports c cache projectId in (cache, reports ← r; Ok (eligibility_of projectId reports)).

(** ** Challenges *)

(** The keys of the cache that the service drops: the list of providers after a challenge,
    the reports of a project after a submission. *)
Record oracle_cache := { oc_reports : reports_cache; oc_providers : option (list string) }.

(** [challenge_report] changes the contract to [after] or throws. *)
Definition challengeReport (after : result string contract) (cache : oracle_cache) (before : contract) :
    contract * oracle_cache * result string unit :=
  match after with
  | Err e => (before, cache, Err e)
  | Ok c => (c, {| oc_reports := oc_reports cache; oc_providers := None |}, Ok tt)
  end.

(** ** Lemmas *)

Lemma elem_of_add_id x ids id : x ∈ add_id ids id ↔ x ∈ ids ∨ x = id.
Proof. unfold add_id. case_bool_decide; [naive_solver|]. rewrite elem_of_app, list_elem_of_singleton. done. Qed.

Lemma elem_of_conflicts_with x l ids rest :
  x ∈ conflicts_with l ids rest ↔
  x ∈ ids ∨ ∃ r, r ∈ rest ∧ overlapping l r = true ∧ (x = rp_id l ∨ x = rp_id r).
Proof.
  unfold conflicts_with. revert ids. induction rest as [|r rest IH]; intros ids; cbn [foldl].
  - split; [by left|]. intros [?|(? & []%elem_of_nil & _)]; done.
  - rewrite IH. setoid_rewrite elem_of_cons. destruct (overlapping l r) eqn:E.
    + rewrite !elem_of_add_id. naive_solver.
    + naive_solver congruence.
Qed.

Lemma overlapping_sym l r : overlapping l r = overlapping r l.
Proof.
  unfold overlapping. rewrite (bool_decide_ext (rp_providerAddress l = _) (rp_providerAddress r = rp_providerAddress l)) by done.
  rewrite (bool_decide_ext (rp_methodology l = _) (rp_methodology r = rp_methodology l)) by done.
  rewrite <- !andb_assoc. do 2 f_equal. apply andb_comm.
Qed.

(** Reports of one provider and methodology on periods that have an instant in common. *)
Definition overlap (l r : ReportResponse) : Prop :=
  rp_providerAddress l = rp_providerAddress r ∧ rp_methodology l = rp_methodology r ∧
  rp_periodStart l < rp_periodEnd r ∧ rp_periodStart r < rp_periodEnd l.

Lemma overlapping_spec l r : overlapping l r = true ↔ overlap l r.
Proof.
  unfold overlapping, overlap. rewrite !andb_true_iff, !bool_decide_eq_true, !Z.ltb_lt. tauto.
Qed.

(** A report overlaps another one of the list. *)
Definition in_conflict (reports : list ReportResponse) (r : ReportResponse) : Prop :=
  ∃ i j other, i ≠ j ∧ reports !! i = Some r ∧ reports !! j = Some other ∧ overlap r other.

Lemma in_conflict_cons l rest r :
  in_conflict (l :: rest) r ↔
  (r = l ∧ ∃ o, o ∈ rest ∧ overlapping l o = true) ∨ (r ∈ rest ∧ overlapping l r = true) ∨ in_conflict rest r.
Proof.
  unfold in_conflict. setoid_rewrite <- overlapping_spec. split.
  - intros ([|i] & [|j] & o & Hij & Hi & Hj & Ho); [done|..]; cbn in Hi, Hj.
    + injection Hi as ->. left. split; [done|]. exists o. split; [by eapply list_elem_of_lookup_2|done].
    + injection Hj as ->. right. left. split; [by eapply list_elem_of_lookup_2|]. by rewrite overlapping_sym.
    + right. right. exists i, j, o. split_and!; [congruence|done..].
  - intros [(-> & o & [j Hj]%list_elem_of_lookup & Ho)|[([i Hi]%list_elem_of_lookup & Ho)|(i & j & o & Hij & Hi & Hj & Ho)]].
    + exists O, (S j), o. done.
    + exists (S i), O, l. split_and!; try done. by rewrite overlapping_sym.
    + exists (S i), (S j), o. split_and!; try done. congruence.
Qed.

Lemma elem_of_conflicting x ids reports :
  x ∈ conflicting ids reports ↔ x ∈ ids ∨ ∃ r, in_conflict reports r ∧ x = rp_id r.
Proof.
  revert ids. induction reports as [|l rest IH]; intros ids; cbn [conflicting].
  - split; [by left|]. intros [?|(r & (i & j & o & _ & Hi & _) & _)]; done.
  - rewrite IH, elem_of_conflicts_with. setoid_rewrite in_conflict_cons. split.
    + intros [[?|(r & Hr & Ho & [-> | -> ])]|(r & Hr & ->)]; [by left|right..].
      * exists l. split; [left; split; [done|]; by exists r|done].
      * exists r. split; [by right; left|done].
      * exists r. split; [by right; right|done].
    + intros [?|(r & [(-> & o & Ho & Hov)|[(Hr & Ho)|Hr]] & ->)]; [by left; left|left; right..|right].
      * exists o. split_and!; [done..|by left].
      * exists r. split_and!; [done..|by right].
      * by exists r.
Qed.

Lemma empty_iff {A} (l : list A) : length l = 0%nat ↔ ∀ x, x ∉ l.
Proof. split; [intros ->%nil_length_inv x []%elem_of_nil|]. destruct l as [|x l]; [done|]. intros H. destruct (H x). by left. Qed.

(** A coupon is payable exactly when some report of the project is verified, none is
    challenged or rejected, and no two reports of one provider and methodology overlap in
    time; a refusal always gives a reason, an approval none; and the reports named as
    blocking are exactly those that are challenged, rejected or overlapping. *)
Theorem coupon_eligible_exact projectId reports :
  let e := eligibility_of projectId reports in
  (ce_eligible e = true ↔
    (∃ r, r ∈ reports ∧ rp_status r = Verified) ∧
    (∀ r, r ∈ reports → rp_status r ≠ Challenged ∧ rp_status r ≠ Rejected) ∧
    (∀ r, ¬ in_conflict reports r)) ∧
  (ce_eligible e = true ↔ ce_reasons e = []) ∧
  (∀ id, id ∈ ce_blockedByReportIds e ↔
    ∃ r, id = rp_id r ∧
      (r ∈ reports ∧ (rp_status r = Challenged ∨ rp_status r = Rejected) ∨ in_conflict reports r)).
Proof.
  intros e. unfold e, eligibility_of. cbn [ce_eligible ce_reasons ce_blockedByReportIds]. clear e.
  set (hasVerified := existsb _ reports). set (blocking := filter _ reports). set (ids := conflicting [] reports).
  assert (hasVerified = true ↔ ∃ r, r ∈ reports ∧ rp_status r = Verified) as HV.
  { unfold hasVerified. rewrite existsb_exists. setoid_rewrite <- list_elem_of_In. by setoid_rewrite bool_decide_eq_true. }
  assert (∀ r, r ∈ blocking ↔ r ∈ reports ∧ (rp_status r = Challenged ∨ rp_status r = Rejected)) as HB.
  { intros r. unfold blocking. rewrite list_elem_of_filter. unfold is_blocking. rewrite orb_true_iff, !bool_decide_eq_true. tauto. }
  assert (∀ x, x ∈ ids ↔ ∃ r, in_conflict reports r ∧ x = rp_id r) as HI.
  { intros x. unfold ids. rewrite elem_of_conflicting, elem_of_nil. naive_solver. }
  clearbody hasVerified blocking ids. split_and!.
  - rewrite !andb_true_iff, !bool_decide_eq_true, !empty_iff, HV. setoid_rewrite HB. setoid_rewrite HI.
    split; [intros [[? H1] H2]|intros (? & H1 & H2)]; split_and!; try done; try (split_and!; done); naive_solver.
  - destruct hasVerified, blocking, ids; done.
  - intros id. rewrite elem_of_app, list_elem_of_fmap, HI. setoid_rewrite HB. naive_solver.
Qed.

(** ** Dispute bundles *)

Definition DISPUTE_BUNDLE_SCHEMA_VERSION : Z := 1.

Record ChallengeRecord := {
  ch_reportId : Z;
  ch_challengerAddress : string;
  ch_counterEvidenceHash : string;
  ch_submittedAt : string;
  ch_resolved : bool;
  ch_resolution : option ReportStatus;
}.

Definition challenge_json (c : ChallengeRecord) : json :=
  JObj [ ("reportId", jint (ch_reportId c)); ("challengerAddress", JStr (ch_challengerAddress c));
         ("counterEvidenceHash", JStr (ch_counterEvidenceHash c)); ("submittedAt", JStr (ch_submittedAt c));
         ("resolved", JBool (ch_resolved c));
         ("resolution", from_option (λ s, JStr (status_text s)) JNull (ch_resolution c)) ].

(** [canonicalStringify], which is the function [canonicalJson] of the manifests again. *)
Definition canonicalStringify (value : json) : string := canonicalJson value.

Section bundles.
Context (sha256_hex : string → string).

Definition computeBundleDigest (bundle : list (string * json)) : string :=
  sha256_hex (canonicalStringify (JObj (filter (λ kv, kv.1 ≠ "digest" ∧ kv.1 ≠ "cid") bundle))).

(** The bundle without its digest and reference. *)
Definition bundlePayload (reportId : Z) (report : ReportResponse) (challenges : list ChallengeRecord) (generatedAt : string) :
    list (string * json) :=
  let primary := head challenges in
  [ ("schemaVersion", jint DISPUTE_BUNDLE_SCHEMA_VERSION);
    ("bundleId", JStr ("deb-" +:+ Z_to_string reportId +:+ "-" +:+ from_option ch_counterEvidenceHash "initial" primary));
    ("reportId", jint reportId); ("projectId", JStr (rp_projectId report));
    ("providerAddress", JStr (rp_providerAddress report));
    ("contestation", JObj
      [ ("status", JStr (status_text (rp_status report)));
        ("activeChallengesCount", jint (Z.of_nat (length (filter (λ c, ch_resolved c = false) challenges))));
        ("challenges", JArr (challenge_json <$> challenges));
        ("primaryChallenge", from_option challenge_json JNull primary) ]);
    ("performanceReport", JObj
      [ ("periodStart", jint (rp_periodStart report)); ("periodEnd", jint (rp_periodEnd report));
        ("carbonSequestered", JStr (rp_carbonSequestered report)); ("methodology", JStr (rp_methodology report));
        ("ipfsEvidenceHash", JStr (rp_ipfsHash report)); ("providerSignature", JStr EmptyString) ]);
    ("evidenceLinkage", JObj
      [ ("originalEvidenceHash", JStr (rp_ipfsHash report));
        ("counterEvidenceHashes", JArr (JStr <$> filter (λ h, h ≠ EmptyString) (ch_counterEvidenceHash <$> challenges)));
        ("integrityVerified", JBool (negb (bool_decide (rp_ipfsHash report = EmptyString)))) ]);
    ("generatedAt", JStr generatedAt) ].

Definition getDisputeEvidenceBundle (c : contract) (history : string → result string (list ChallengeRecord))
    (cached : option (list (string * json))) (reportId : Z) : result string (list (string * json)) :=
  match cached with
  | Some bundle => Ok bundle
  | None =>
      report ← getReport c reportId;
      all ← history (rp_providerAddress report);
      let challenges := filter (λ ch, ch_reportId ch = reportId) all in
      _ ← throw_if (negb (is_blocking report) && bool_decide (length challenges = 0%nat)) "not currently contested";
      generatedAt ← match challenges with ch :: _ => Ok (ch_submittedAt ch) | [] => iso_of_seconds (rp_periodEnd report) end;
      let payload := bundlePayload reportId report challenges generatedAt in
      let digest := computeBundleDigest payload in
      Ok (payload ++ [("digest", JStr digest); ("cid", JStr (computeBundleCid digest))])
  end.

(** [!bundle.k]. *)
Definition lacks (b : json) (k : string) : bool := match prop b k with Some v => falsy v | None => true end.

Definition verifyDisputeEvidenceBundle (b : json) : bool :=
  match b with
  | JObj l =>
      bool_decide (prop b "schemaVersion" = Some (jint DISPUTE_BUNDLE_SCHEMA_VERSION)) &&
      negb (lacks b "reportId") && negb (lacks b "projectId") &&
      (let expected := computeBundleDigest l in
       bool_decide (prop b "digest" = Some (JStr expected)) &&
       bool_decide (prop b "cid" = Some (JStr (computeBundleCid expected))))
  | _ => false
  end.

Lemma jget_filter (P : string * json → Prop) `{∀ x, Decision (P x)} k l :
  (∀ v, P (k, v)) → jget k (filter P l) = jget k l.
Proof.
  intros HP. induction l as [|[k' v] l IH]; [done|]. rewrite filter_cons. case_decide as Hd; cbn [jget].
  - case_decide; [done|apply IH].
  - rewrite decide_False; [apply IH|]. intros ->. by apply Hd.
Qed.

Lemma jget_app k l tail : jget k tail = None → jget k (l ++ tail) = jget k l.
Proof. intros H. induction l as [|[k' v] l IH]; [done|]. cbn [app jget]. case_decide; [done|apply IH]. Qed.

Lemma filter_ok (P : string * json → Prop) `{∀ x, Decision (P x)} l :
  json_ok (JObj l) = true → json_ok (JObj (filter P l)) = true.
Proof.
  cbn [json_ok]. rewrite !andb_true_iff, !bool_decide_eq_true, !forallb_forall. intros [Hn Hf]. split.
  - eapply sublist_NoDup; [exact Hn|]. apply fmap_sublist, sublist_filter.
  - intros x Hx. apply Hf. apply list_elem_of_In, list_elem_of_filter in Hx as [_ Hx]. by apply list_elem_of_In.
Qed.

(** The content of a bundle, up to the order of keys inside of it. *)
Definition same_content (l1 l2 : list (string * json)) : Prop :=
  ∀ k, k ≠ "digest" → k ≠ "cid" → sort_keys <$> jget k l1 = sort_keys <$> jget k l2.

Lemma digest_content l1 l2 :
  json_ok (JObj l1) = true → json_ok (JObj l2) = true → computeBundleDigest l1 = computeBundleDigest l2 →
  collision sha256_hex ∨ same_content l1 l2.
Proof.
  intros H1 H2 [|E]%digest_eq; [by left|right]. intros k Hd Hc.
  apply canonicalJson_exact in E; [|by apply filter_ok..]. apply (f_equal (λ j, prop j k)) in E.
  rewrite !prop_sort_keys in E. cbn [prop] in E. by rewrite !jget_filter in E by done.
Qed.

Lemma bundlePayload_digest n r cs g d c :
  computeBundleDigest (bundlePayload n r cs g ++ [("digest", d); ("cid", c)]) = computeBundleDigest (bundlePayload n r cs g).
Proof. done. Qed.

Lemma ok_inj {E A} (a b : A) : @Ok E A a = Ok b → a = b.
Proof. by intros [=]. Qed.

(** A bundle that the service issues verifies; its reference resolves to its digest; and
    any bundle that verifies under the same digest has the same content, up to the order of
    keys, or SHA-256 collides: an edited bundle is noticed by whoever holds the reference. *)
Theorem bundle_tamper_evident c history reportId report bundle other :
  (∀ s, is_hex64 (sha256_hex s) = true) →
  getReport c reportId = Ok report → reportId ≠ 0 → rp_projectId report ≠ EmptyString →
  getDisputeEvidenceBundle c history None reportId = Ok bundle →
  json_ok (JObj bundle) = true → json_ok (JObj other) = true →
  verifyDisputeEvidenceBundle (JObj bundle) = true ∧
  (∃ digest cid, jget "digest" bundle = Some (JStr digest) ∧ jget "cid" bundle = Some (JStr cid) ∧
                 encodeCid cid = Ok (from_hex digest)) ∧
  (verifyDisputeEvidenceBundle (JObj other) = true → jget "digest" other = jget "digest" bundle →
   collision sha256_hex ∨ same_content other bundle).
Proof.
  intros Hhex Hr Hid Hpid. unfold getDisputeEvidenceBundle. rewrite Hr. cbn [mbind result_bind].
  rewrite bind_ok. intros (all & _ & H). apply bind_ok in H as ([] & _ & H). apply bind_ok in H as (g & _ & H).
  apply ok_inj in H. subst bundle. set (cs := filter _ all). set (dg := computeBundleDigest (bundlePayload reportId report cs g)). intros Hok Hok'.
  assert (∀ v w k, k ≠ "digest" → k ≠ "cid" →
    jget k (bundlePayload reportId report cs g ++ [("digest", v); ("cid", w)]) = jget k (bundlePayload reportId report cs g)) as Hg.
  { intros v w k Hk1 Hk2. apply jget_app. cbn [jget]. by rewrite !decide_False. }
  split_and!.
  - unfold verifyDisputeEvidenceBundle, lacks. cbn [prop]. rewrite !Hg by done. rewrite bundlePayload_digest. fold dg.
    rewrite !andb_true_iff, !negb_true_iff, !bool_decide_eq_true. split_and!; try reflexivity.
    + cbn. apply bool_decide_eq_false_2. intros E. apply Hid. by apply (Z_to_string_inj reportId 0).
    + cbn. by apply bool_decide_eq_false_2.
  - exists dg, (computeBundleCid dg). split_and!; [reflexivity..|]. apply bundle_cid_names_digest, Hhex.
  - unfold verifyDisputeEvidenceBundle. rewrite !andb_true_iff, !bool_decide_eq_true. cbn [prop].
    intros (_ & Hd & _) E. rewrite E in Hd. cbn in Hd. injection Hd as Hd. apply digest_content; [done..|].
    by rewrite <- Hd, bundlePayload_digest.
Qed.
End bundles.

(** ** Examples *)

Definition sample_raw (id status : Z) : raw_report :=
  {| rr_id := id; rr_provider := "GP"; rr_project_id := [171; 205]; rr_period_start := 1000 * id; rr_period_end := 1000 * id + 900;
     rr_carbon_sequestered := 12; rr_methodology := "VERRA-VCS"; rr_ipfs_evidence_hash := [18]; rr_status := status;
     rr_submitted_at := 5; rr_verified_at := 0; rr_provider_stake := None |}.
(** Reports 1 and 2 of one project, the second in the given status. *)
Definition sample_contract (second : Z) : contract :=
  {| ct_project_reports := λ _, Ok [1; 2];
     ct_report := λ id, if id =? 1 then Ok (sample_raw 1 1) else if id =? 2 then Ok (sample_raw 2 second) else Err "missing" |}.
Definition sample_history (_ : string) : result string (list ChallengeRecord) :=
  Ok [ {| ch_reportId := 2; ch_challengerAddress := "GC"; ch_counterEvidenceHash := "ee"; ch_submittedAt := "2026-01-01T00:00:00.000Z";
          ch_resolved := false; ch_resolution := None |} ].
Definition zero_digest (_ : string) : string := "0000000000000000000000000000000000000000000000000000000000000000".
Definition sample_bundle : list (string * json) :=
  match getDisputeEvidenceBundle zero_digest (sample_contract 2) sample_history None 2 with Ok b => b | Err _ => [] end.

Lemma bundle_tamper_evident_witness :
  verifyDisputeEvidenceBundle zero_digest (JObj sample_bundle) = true ∧
  (∃ digest cid, jget "digest" sample_bundle = Some (JStr digest) ∧ jget "cid" sample_bundle = Some (JStr cid) ∧
                 encodeCid cid = Ok (from_hex digest)) ∧
  (verifyDisputeEvidenceBundle zero_digest (JObj []) = true → jget "digest" [] = jget "digest" sample_bundle →
   collision zero_digest ∨ same_content [] sample_bundle).
Proof.
  assert (∃ r, getReport (sample_contract 2) 2 = Ok r ∧ rp_projectId r ≠ EmptyString) as (r & Hr & Hp).
  { eexists. split; [vm_compute; reflexivity|discriminate]. }
  apply (bundle_tamper_evident zero_digest (sample_contract 2) sample_history 2 r); try done; by vm_compute.
Defined.

(** A coupon is payable, the list of reports is cached, a report is challenged: the coupon
    still is payable, on the cached list. *)
Lemma challenged_report_still_eligible :
  let '(reports, before) := getCouponEligibility (sample_contract 1) [] "P" in
  let '(c, cache, r) := challengeReport (Ok (sample_contract 2)) {| oc_reports := reports; oc_providers := None |}
                          (sample_contract 1) in
  r = Ok tt ∧
  (ce_eligible <$> before) = Ok true ∧
  (ce_eligible <$> (getCouponEligibility c (oc_reports cache) "P").2) = Ok true ∧
  (ce_eligible <$> (getCouponEligibility c [] "P").2) = Ok false.
Proof. by vm_compute. Qed.

(** A challenged report that cannot be read does not block. *)
Lemma unreadable_report_ignored :
  let broken := {| ct_project_reports := λ _, Ok [1; 2];
                   ct_report := λ id, if id =? 1 then Ok (sample_raw 1 1) else Err "timeout" |} in
  (ce_eligible <$> (getCouponEligibility (sample_contract 2) [] "P").2) = Ok false ∧
  (ce_eligible <$> (getCouponEligibility broken [] "P").2) = Ok true.
Proof. by vm_compute. Qed.
