(* ===== verification/Breakers.v ===== *)
(** * Pausing a project and waiting for its oracle

    Models [api/src/oracle/circuit-breaker.service.ts] and
    [api/src/oracle/grace-period.service.ts].

    Floating-point numbers and their operations are an interface ([Floats]); nothing is
    assumed of them.  The state of grace periods is kept in Redis: writing and reading a
    record as JSON gives it back, and a record may lapse at any moment.

    Shown: whatever is evaluated or triggered, a paused project stays paused until somebody
    with two signatures resumes it ([pause_holds]), and the trailing history never exceeds
    twenty values ([history_bounded]); a grace period is extended no more often than
    allowed, whatever the order of operations and lapses ([extensions_bounded]).  Where the
    code falls short: [scope_keys_collide], [signatures_not_checked],
    [expired_period_extended], [restart_resets_extensions], [partial_config_resets]. *)
From S2P Require Import Prelude.

(** ** The circuit breaker *)

Class Floats (F : Type) := {
  f_zero : F;
  f_of_nat : nat → F;
  f_add : F → F → F;
  f_sub : F → F → F;
  f_div : F → F → F;
  f_square : F → F;
  f_sqrt : F → F;
  f_abs : F → F;
  f_gt : F → F → bool;
}.

Section breaker.
Context {F : Type} `{Floats F}.

Record CircuitBreakerState := {
  cb_projectId : string;
  cb_tranche : option string;
  cb_isPaused : bool;
  cb_pausedAt : Z;
  cb_triggerReason : string;
  cb_anomalyKind : string;
  cb_zScore : option F;
  cb_resumedAt : option Z;
  cb_resumedBy : option string;
  cb_resumptionReason : option string;
}.

Record AnomalyDetectionConfig := { ac_zScoreThreshold : F; ac_minHistorySamples : nat }.

Record breaker := {
  br_paused : list (string * CircuitBreakerState);
  br_history : list (string * list F);
}.
Definition new_breaker : breaker := {| br_paused := []; br_history := [] |}.

(** An empty tranche counts as none. *)
Definition scope_tranche (t : option string) : option string := match t with Some EmptyString => None | t => t end.
Definition getScopeKey (projectId : string) (tranche : option string) : string :=
  match scope_tranche tranche with Some t => projectId +:+ ":" +:+ t | None => projectId end.

Definition paused_at (b : breaker) (key : string) : bool :=
  match aget key (br_paused b) with Some s => cb_isPaused s | None => false end.

Definition isProjectPaused (b : breaker) (projectId : string) (tranche : option string) : bool :=
  paused_at b (getScopeKey projectId None) ||
  match scope_tranche tranche with Some _ => paused_at b (getScopeKey projectId tranche) | None => false end.

Definition triggerScopedPause (b : breaker) (now : Z) (projectId : string) (tranche : option string) (reason kind : string)
    (zScore : option F) : breaker :=
  let state := {| cb_projectId := projectId; cb_tranche := tranche; cb_isPaused := true; cb_pausedAt := now;
                  cb_triggerReason := reason; cb_anomalyKind := kind; cb_zScore := zScore; cb_resumedAt := None;
                  cb_resumedBy := None; cb_resumptionReason := None |} in
  {| br_paused := aput (getScopeKey projectId tranche) state (br_paused b); br_history := br_history b |}.

(** The deviation from the trailing history, when there is enough of it. *)
Definition z_score (c : AnomalyDetectionConfig) (history : list F) (value : F) : option F :=
  if (ac_minHistorySamples c <=? length history)%nat then
    let n := f_of_nat (length history) in
    let mean := f_div (foldl f_add f_zero history) n in
    let variance := f_div (foldl (λ sum v, f_add sum (f_square (f_sub v mean))) f_zero history) n in
    let stdDev := f_sqrt variance in
    if f_gt stdDev f_zero then Some (f_div (f_abs (f_sub value mean)) stdDev) else None
  else None.

(** [critical]: the cross-source assessment came with, and is critical.  The texts of the
    reasons that name numbers are the argument [say]. *)
Definition evaluateOracleReport (say : F → option F → string) (c : AnomalyDetectionConfig) (b : breaker) (now : Z)
    (projectId : string) (tranche : option string) (value : F) (critical : option string) : breaker * bool :=
  if isProjectPaused b projectId tranche then (b, true)
  else
    let history := default [] (aget projectId (br_history b)) in
    let z := z_score c history value in
    let statistical := match z with Some z => f_gt z (ac_zScoreThreshold c) | None => false end in
    if statistical then
      (triggerScopedPause b now projectId tranche (say value z) "STATISTICAL_ZSCORE_DEVIATION" z, true)
    else
      match critical with
      | Some reason =>
          (triggerScopedPause b now projectId tranche ("Critical cross-source oracle anomaly: " +:+ reason)
             "CROSS_SOURCE_CRITICAL" z, true)
      | None =>
          let history := history ++ [value] in
          let history := if (20 <? length history)%nat then tail history else history in
          ({| br_paused := br_paused b; br_history := aput projectId history (br_history b) |}, false)
      end.

Definition resumeProject (b : breaker) (now : Z) (projectId : string) (tranche : option string) (governanceActor : string)
    (multisigSignatures : list string) (resumptionReason : string) : breaker * result string CircuitBreakerState :=
  let key := getScopeKey projectId tranche in
  match aget key (br_paused b) with
  | Some s =>
      if negb (cb_isPaused s) then (b, Err "Circuit breaker is not active")
      else if (length multisigSignatures <? 2)%nat then (b, Err "Governance resumption requires at least 2 valid multisig signatures")
      else if (String.length (trim resumptionReason) <? 10)%nat then (b, Err "Detailed resumption reason is required for governance audit")
      else
        let s := {| cb_projectId := cb_projectId s; cb_tranche := cb_tranche s; cb_isPaused := false; cb_pausedAt := cb_pausedAt s;
                    cb_triggerReason := cb_triggerReason s; cb_anomalyKind := cb_anomalyKind s; cb_zScore := cb_zScore s;
                    cb_resumedAt := Some now; cb_resumedBy := Some governanceActor;
                    cb_resumptionReason := Some resumptionReason |} in
        ({| br_paused := aput key s (br_paused b); br_history := br_history b |}, Ok s)
  | None => (b, Err "Circuit breaker is not active")
  end.

(** *** Sequences of calls *)

Inductive breaker_call :=
| Evaluate (now : Z) (projectId : string) (tranche : option string) (value : F) (critical : option string)
| Trigger (now : Z) (projectId : string) (tranche : option string) (reason kind : string) (zScore : option F)
| Resume (now : Z) (projectId : string) (tranche : option string) (actor : string) (signatures : list string) (reason : string).

Definition breaker_step (say : F → option F → string) (c : AnomalyDetectionConfig) (b : breaker) (o : breaker_call) : breaker :=
  match o with
  | Evaluate now p t v k => (evaluateOracleReport say c b now p t v k).1
  | Trigger now p t r k z => triggerScopedPause b now p t r k z
  | Resume now p t a sigs r => (resumeProject b now p t a sigs r).1
  end.
Definition breaker_run (say : F → option F → string) (c : AnomalyDetectionConfig) (b : breaker) (os : list breaker_call) : breaker :=
  foldl (breaker_step say c) b os.

(** A call that governance makes to lift the pause of a scope. *)
Definition lifts (key : string) (o : breaker_call) : Prop :=
  match o with
  | Resume _ p t _ sigs r => getScopeKey p t = key ∧ (2 ≤ length sigs)%nat ∧ (10 ≤ String.length (trim r))%nat
  | _ => False
  end.

Lemma paused_at_put b key s k h :
  paused_at {| br_paused := aput key s (br_paused b); br_history := h |} k = if decide (k = key) then cb_isPaused s else paused_at b k.
Proof. unfold paused_at. cbn. rewrite aget_aput. by case_decide. Qed.

Lemma paused_at_step say c b o k : paused_at b k = true → ¬ lifts k o → paused_at (breaker_step say c b o) k = true.
Proof.
  intros Hp Hl. destruct o as [now p t v cr|now p t r kd z|now p t a sigs r]; cbn [breaker_step].
  - unfold evaluateOracleReport. destruct (isProjectPaused b p t); [done|].
    destruct (match z_score _ _ _ with Some _ => _ | None => _ end); [|destruct cr]; cbn [fst]; try done;
      unfold triggerScopedPause; rewrite paused_at_put; by case_decide.
  - unfold triggerScopedPause. rewrite paused_at_put. by case_decide.
  - unfold resumeProject. destruct (aget (getScopeKey p t) (br_paused b)) as [s|]; [|done].
    destruct (cb_isPaused s); [|done]. cbn [negb]. destruct (Nat.ltb_spec (length sigs) 2); [done|].
    destruct (Nat.ltb_spec (String.length (trim r)) 10); [done|]. cbn [fst]. rewrite paused_at_put.
    case_decide as Hk; [|done]. exfalso. apply Hl. cbn. split_and!; [done|lia..].
Qed.

(** A pause holds.  Whatever reports are evaluated, whatever pauses are triggered and
    whoever tries to resume, a project that is paused stays paused as long as nobody with at
    least two signatures and a reason of ten characters resumes the very scope that is
    paused; no passage of time lifts it. *)
Theorem pause_holds say c b os projectId tranche :
  isProjectPaused b projectId tranche = true →
  Forall (λ o, ¬ lifts (getScopeKey projectId None) o ∧ ¬ lifts (getScopeKey projectId tranche) o) os →
  isProjectPaused (breaker_run say c b os) projectId tranche = true.
Proof.
  assert (∀ key os b, Forall (λ o, ¬ lifts key o) os → paused_at b key = true → paused_at (breaker_run say c b os) key = true) as Hrun.
  { intros key os' b' Ho. revert b'. induction Ho as [|o os' Hl _ IH]; intros b' Hp; [done|]. cbn. apply IH. by apply paused_at_step. }
  unfold isProjectPaused. rewrite !orb_true_iff. intros Hp Ho. destruct Hp as [Hp|Hp]; [left|right].
  - apply Hrun; [|done]. eapply List.Forall_impl; [|exact Ho]. by intros o [? _].
  - destruct (scope_tranche tranche); [|done]. apply Hrun; [|done]. eapply List.Forall_impl; [|exact Ho]. by intros o [_ ?].
Qed.

(** The trailing history of a project has at most twenty values. *)
Lemma history_bounded say c b os :
  Forall (λ kv, (length kv.2 ≤ 20)%nat) (br_history b) →
  Forall (λ kv, (length kv.2 ≤ 20)%nat) (br_history (breaker_run say c b os)).
Proof.
  revert b. induction os as [|o os IH]; intros b Hb; [done|]. cbn. apply IH. clear IH.
  destruct o as [now p t v cr|now p t r kd z|now p t a sigs r]; cbn [breaker_step]; [|done|].
  - unfold evaluateOracleReport. destruct (isProjectPaused b p t); [done|].
    destruct (match z_score _ _ _ with Some _ => _ | None => _ end); [done|]. destruct cr; [done|].
    set (l := default [] (aget p (br_history b))).
    assert (length l ≤ 20)%nat as Hl.
    { unfold l. destruct (aget p (br_history b)) as [x|] eqn:E; cbn; [|lia]. apply aget_Some_elem in E.
      rewrite Forall_forall in Hb. by apply Hb in E. }
    cbn [fst br_history]. apply Forall_aput; [done|]. cbn [snd]. destruct (Nat.ltb_spec 20 (length (l ++ [v]))) as [Hgt|Hle]; [|done].
    rewrite length_app in Hgt. cbn in Hgt. destruct (l ++ [v]) eqn:E; [cbn; lia|]. apply (f_equal length) in E.
    rewrite length_app in E. cbn in *. lia.
  - unfold resumeProject. destruct (aget (getScopeKey p t) (br_paused b)) as [s|]; [|done].
    destruct (cb_isPaused s); [|done]. cbn [negb]. do 2 (case_match; [done|]). done.
Qed.
End breaker.
Arguments breaker F : clear implicits.
Arguments breaker_call F : clear implicits.

(** Whole numbers, for examples. *)
#[export] Instance whole_numbers : Floats Z := {
  f_zero := 0; f_of_nat := Z.of_nat; f_add := Z.add; f_sub := Z.sub; f_div := Z.div; f_square x := x * x;
  f_sqrt := Z.sqrt; f_abs := Z.abs; f_gt x y := y <? x;
}.
Definition sample_config : AnomalyDetectionConfig (F := Z) := {| ac_zScoreThreshold := 3; ac_minHistorySamples := 3 |}.
Definition say_nothing (v : Z) (z : option Z) : string := EmptyString.
Definition calm_run (p : string) : list (breaker_call Z) :=
  (λ v, Evaluate 0 p None v None) <$> [10; 12; 14; 60].

(** A value far from the trailing ones pauses the project. *)
Example outlier_pauses :
  isProjectPaused (breaker_run say_nothing sample_config new_breaker (take 3 (calm_run "P"))) "P" None = false ∧
  isProjectPaused (breaker_run say_nothing sample_config new_breaker (calm_run "P")) "P" None = true.
Proof. by vm_compute. Qed.

Lemma pause_holds_witness :
  isProjectPaused (breaker_run say_nothing sample_config (breaker_run say_nothing sample_config new_breaker (calm_run "P"))
    [Resume 9 "P" None "GGOV" ["one"] "a long enough reason"; Evaluate 9 "P" None 12 None]) "P" (Some "A") = true.
Proof.
  apply (pause_holds say_nothing sample_config); [by vm_compute|].
  repeat constructor; cbn; try tauto; intros (_ & ? & _); lia.
Defined.

(** The scope of a tranche is that of a project with a colon in its name. *)
Lemma scope_keys_collide :
  isProjectPaused (triggerScopedPause (F := Z) new_breaker 0 "forest:A" None "r" "k" None) "forest" (Some "A") = true.
Proof. by vm_compute. Qed.

(** Signatures are counted, not verified. *)
Lemma signatures_not_checked :
  let b := triggerScopedPause (F := Z) new_breaker 0 "P" None "r" "k" None in
  isProjectPaused (resumeProject b 1 "P" None "anybody" ["x"; "x"] "no reason at all").1 "P" None = false.
Proof. by vm_compute. Qed.

(** ** Grace periods *)

Inductive GracePeriodStatus := NoGracePeriod | Active | Extended | Expired.
#[export] Instance GracePeriodStatus_eq_dec : EqDecision GracePeriodStatus.
Proof. solve_decision. Defined.

Record GracePeriodConfig := {
  gc_gracePeriodDurationSeconds : Z;
  gc_maxExtensions : Z;
  gc_conservatismDiscountPercent : Z;
  gc_lastKnownGoodPerformanceScoreAllowed : bool;
}.
Definition DEFAULT_CONFIG : GracePeriodConfig :=
  {| gc_gracePeriodDurationSeconds := 3600; gc_maxExtensions := 3; gc_conservatismDiscountPercent := 5;
     gc_lastKnownGoodPerformanceScoreAllowed := true |}.

Record CouponPaymentGraceState := {
  gs_bondId : Z;
  gs_couponPeriodIndex : Z;
  gs_status : GracePeriodStatus;
  gs_gracePeriodStartedAt : Z;
  gs_extensionCount : Z;
  gs_oracleDownSince : Z;
  gs_lastKnownGoodScore : string;
  gs_conservatismDiscountApplied : Z;
}.

Record delayed_payment := {
  dp_bondId : Z;
  dp_couponPeriodIndex : Z;
  dp_status : GracePeriodStatus;
  dp_extensionsUsed : Z;
  dp_conservatismDiscount : Z;
  dp_delayedAt : Z;
}.

(** The keys that the service writes to Redis. *)
Record grace_store := {
  gr_states : list ((Z * Z) * CouponPaymentGraceState);
  gr_config : option GracePeriodConfig;
  gr_events : option (list delayed_payment);
}.

Definition grace_config (st : grace_store) : GracePeriodConfig := default DEFAULT_CONFIG (gr_config st).
Definition getState (st : grace_store) (bondId period : Z) : option CouponPaymentGraceState := aget (bondId, period) (gr_states st).

Definition saveState (st : grace_store) (s : CouponPaymentGraceState) : grace_store :=
  {| gr_states := aput (gs_bondId s, gs_couponPeriodIndex s) s (gr_states st); gr_config := gr_config st; gr_events := gr_events st |}.

Definition initiateGracePeriod (st : grace_store) (now : Z) (bondId period : Z) (lastKnownGoodScore : string) :
    grace_store * result string CouponPaymentGraceState :=
  let config := grace_config st in
  if negb (gc_lastKnownGoodPerformanceScoreAllowed config) then (st, Err "Grace period not allowed")
  else
    let s := {| gs_bondId := bondId; gs_couponPeriodIndex := period; gs_status := Active; gs_gracePeriodStartedAt := now;
                gs_extensionCount := 0; gs_oracleDownSince := now; gs_lastKnownGoodScore := lastKnownGoodScore;
                gs_conservatismDiscountApplied := gc_conservatismDiscountPercent config |} in
    (saveState st s, Ok s).

Definition with_status (s : CouponPaymentGraceState) (status : GracePeriodStatus) (startedAt count : Z) : CouponPaymentGraceState :=
  {| gs_bondId := gs_bondId s; gs_couponPeriodIndex := gs_couponPeriodIndex s; gs_status := status;
     gs_gracePeriodStartedAt := startedAt; gs_extensionCount := count; gs_oracleDownSince := gs_oracleDownSince s;
     gs_lastKnownGoodScore := gs_lastKnownGoodScore s; gs_conservatismDiscountApplied := gs_conservatismDiscountApplied s |}.

Definition extendGracePeriod (st : grace_store) (now : Z) (bondId period : Z) : grace_store * result string CouponPaymentGraceState :=
  match getState st bondId period with
  | None => (st, Err "No grace period in progress")
  | Some s =>
      if gc_maxExtensions (grace_config st) <=? gs_extensionCount s then (st, Err "Grace period extension limit exceeded")
      else let s := with_status s Extended now (gs_extensionCount s + 1) in (saveState st s, Ok s)
  end.

(** The elapsed milliseconds against the seconds of the configuration. *)
Definition isGracePeriodActive (st : grace_store) (now : Z) (bondId period : Z) : bool :=
  match getState st bondId period with
  | None => false
  | Some s =>
      negb (bool_decide (gs_status s = Expired)) &&
      (now - gs_gracePeriodStartedAt s <=? gc_gracePeriodDurationSeconds (grace_config st) * 1000)
  end.

Definition listDelayedPaymentEvents (st : grace_store) (limit : nat) : list delayed_payment := take limit (default [] (gr_events st)).

Definition recordDelayedPaymentEvent (st : grace_store) (now : Z) (bondId period : Z) (s : CouponPaymentGraceState) : grace_store :=
  let event := {| dp_bondId := bondId; dp_couponPeriodIndex := period; dp_status := gs_status s;
                  dp_extensionsUsed := gs_extensionCount s; dp_conservatismDiscount := gs_conservatismDiscountApplied s;
                  dp_delayedAt := now |} in
  {| gr_states := gr_states st; gr_config := gr_config st;
     gr_events := Some (take 200 (event :: listDelayedPaymentEvents st 200)) |}.

Definition expireGracePeriod (st : grace_store) (now : Z) (bondId period : Z) : grace_store * bool :=
  match getState st bondId period with
  | None => (st, false)
  | Some s =>
      let st := saveState st (with_status s Expired (gs_gracePeriodStartedAt s) (gs_extensionCount s)) in
      (recordDelayedPaymentEvent st now bondId period s, true)
  end.

Definition resolveGracePeriod (st : grace_store) (bondId period : Z) : grace_store :=
  {| gr_states := adel (bondId, period) (gr_states st); gr_config := gr_config st; gr_events := gr_events st |}.

(** A change lists the fields it sets. *)
Record config_change := {
  gch_duration : option Z;
  gch_maxExtensions : option Z;
  gch_discount : option Z;
  gch_allowed : option bool;
}.
Definition setConfig (st : grace_store) (c : config_change) : grace_store :=
  {| gr_states := gr_states st;
     gr_config := Some {| gc_gracePeriodDurationSeconds := default (gc_gracePeriodDurationSeconds DEFAULT_CONFIG) (gch_duration c);
                          gc_maxExtensions := default (gc_maxExtensions DEFAULT_CONFIG) (gch_maxExtensions c);
                          gc_conservatismDiscountPercent := default (gc_conservatismDiscountPercent DEFAULT_CONFIG) (gch_discount c);
                          gc_lastKnownGoodPerformanceScoreAllowed :=
                            default (gc_lastKnownGoodPerformanceScoreAllowed DEFAULT_CONFIG) (gch_allowed c) |};
     gr_events := gr_events st |}.

(** *** Sequences of calls *)

Inductive grace_call :=
| Initiate (now bondId period : Z) (score : string)
| Extend (now bondId period : Z)
| Expire (now bondId period : Z)
| Resolve (bondId period : Z).

Definition grace_step (st : grace_store) (o : grace_call) : grace_store :=
  match o with
  | Initiate now b p s => (initiateGracePeriod st now b p s).1
  | Extend now b p => (extendGracePeriod st now b p).1
  | Expire now b p => (expireGracePeriod st now b p).1
  | Resolve b p => resolveGracePeriod st b p
  end.

(** The extensions that succeed for a period in the course of some calls. *)
Fixpoint extensions (st : grace_store) (bondId period : Z) (os : list grace_call) : Z :=
  match os with
  | [] => 0
  | o :: os =>
      (match o with
       | Extend now b p =>
           if bool_decide (b = bondId ∧ p = period) then
             match (extendGracePeriod st now b p).2 with Ok _ => 1 | Err _ => 0 end
           else 0
       | _ => 0
       end) + extensions (grace_step st o) bondId period os
  end.

Definition initiates (bondId period : Z) (o : grace_call) : Prop :=
  match o with Initiate _ b p _ => b = bondId ∧ p = period | _ => False end.

Definition count_of (st : grace_store) (bondId period : Z) : Z :=
  from_option gs_extensionCount (gc_maxExtensions (grace_config st)) (getState st bondId period).
Definition keyed (st : grace_store) : Prop :=
  NoDup (gr_states st).*1 ∧ Forall (λ kv, kv.1 = (gs_bondId kv.2, gs_couponPeriodIndex kv.2)) (gr_states st).

Lemma getState_save st s b p :
  getState (saveState st s) b p = if decide ((b, p) = (gs_bondId s, gs_couponPeriodIndex s)) then Some s else getState st b p.
Proof. unfold getState, saveState. cbn. apply aget_aput. Qed.

Lemma grace_keyed_get st b p s : keyed st → getState st b p = Some s → (gs_bondId s, gs_couponPeriodIndex s) = (b, p).
Proof.
  intros [_ Hk] E. apply aget_Some_elem in E. rewrite Forall_forall in Hk. by apply Hk in E.
Qed.

Lemma keyed_save st s : keyed st → keyed (saveState st s).
Proof. intros [Hn Hk]. split; [by apply aput_keys_NoDup|by apply Forall_aput]. Qed.

Lemma keyed_step st o : keyed st → keyed (grace_step st o).
Proof.
  intros Hk. destruct o as [now b p s|now b p|now b p|b p]; cbn [grace_step].
  - unfold initiateGracePeriod. destruct (negb _); [done|]. by apply keyed_save.
  - unfold extendGracePeriod. destruct (getState st b p); [|done]. destruct (_ <=? _); [done|]. by apply keyed_save.
  - unfold expireGracePeriod. destruct (getState st b p) as [s|]; [|done]. cbn [fst].
    by apply (keyed_save st (with_status s Expired (gs_gracePeriodStartedAt s) (gs_extensionCount s))).
  - destruct Hk as [Hn Hk]. split; cbn; [by apply adel_keys_NoDup|by apply Forall_adel].
Qed.

Lemma grace_config_step st o : grace_config (grace_step st o) = grace_config st.
Proof.
  unfold grace_config. f_equal. destruct o as [now b p s|now b p|now b p|b p]; cbn [grace_step]; [..|done].
  - unfold initiateGracePeriod. by destruct (negb _).
  - unfold extendGracePeriod. destruct (getState st b p); [|done]. by destruct (_ <=? _).
  - unfold expireGracePeriod. by destruct (getState st b p).
Qed.

(** How one call changes the number of extensions of a period: not at all, or by one when it
    extends it, or the period is over. *)
Lemma count_step st o bondId period :
  keyed st → ¬ initiates bondId period o →
  let added := extensions st bondId period [o] in
  added ≤ Z.max 0 (gc_maxExtensions (grace_config st) - count_of st bondId period) ∧
  (count_of st bondId period + added ≤ count_of (grace_step st o) bondId period ∨
   count_of (grace_step st o) bondId period = gc_maxExtensions (grace_config st)).
Proof.
  intros Hk Hi. unfold count_of at 2 3. rewrite grace_config_step. cbn [extensions]. rewrite Z.add_0_r.
  destruct o as [now b p s|now b p|now b p|b p]; cbn [grace_step initiates] in *.
  - split; [lia|left]. rewrite Z.add_0_r. unfold count_of, initiateGracePeriod. destruct (negb _); [done|]. cbn [fst].
    rewrite getState_save. cbn [gs_bondId gs_couponPeriodIndex]. rewrite decide_False; [done|]. intros [= -> ->]. by apply Hi.
  - unfold extendGracePeriod. destruct (getState st b p) as [s|] eqn:E.
    + pose proof (grace_keyed_get _ _ _ _ Hk E) as [= Hb Hp].
      destruct (Z.leb_spec (gc_maxExtensions (grace_config st)) (gs_extensionCount s)) as [Hle|Hlt]; cbn [fst snd].
      * rewrite Tauto.if_same. split; [lia|left]. unfold count_of. lia.
      * rewrite getState_save. cbn [gs_bondId gs_couponPeriodIndex with_status]. rewrite Hb, Hp.
        case_bool_decide as Hbp.
        -- destruct Hbp as [-> ->]. rewrite decide_True by done. cbn [from_option gs_extensionCount with_status].
           unfold count_of. rewrite E. cbn [from_option]. split; [lia|left; lia].
        -- rewrite decide_False by (intros [= -> ->]; by apply Hbp). split; [lia|left]. unfold count_of. lia.
    + cbn [fst snd]. rewrite Tauto.if_same. split; [lia|left]. unfold count_of. lia.
  - split; [lia|left]. unfold expireGracePeriod, count_of. destruct (getState st b p) as [s|] eqn:E; cbn [fst]; [|lia].
    pose proof (grace_keyed_get _ _ _ _ Hk E) as [= Hb Hp].
    change (getState (recordDelayedPaymentEvent ?x now b p s) bondId period) with (getState x bondId period).
    rewrite getState_save. cbn [gs_bondId gs_couponPeriodIndex with_status]. rewrite Hb, Hp.
    case_decide as Hd; [|lia]. injection Hd as -> ->. rewrite E. cbn. lia.
  - split; [lia|]. unfold count_of, getState, resolveGracePeriod. cbn [gr_states]. rewrite aget_adel by apply Hk.
    case_decide; [by right|left; lia].
Qed.

(** A grace period is extended no more often than the configuration allows: counting from
    its state, whatever calls follow and in whatever order (records that lapse included),
    the extensions that succeed never exceed the allowed number less those already used,
    unless the period is initiated anew. *)
Theorem extensions_bounded st bondId period os :
  keyed st → Forall (λ o, ¬ initiates bondId period o) os →
  extensions st bondId period os ≤ Z.max 0 (gc_maxExtensions (grace_config st) - count_of st bondId period).
Proof.
  intros Hk Ho. revert st Hk. induction Ho as [|o os Hi _ IH]; intros st Hk; [cbn; lia|].
  destruct (count_step st o bondId period Hk Hi) as [Ha Hc]. specialize (IH _ (keyed_step st o Hk)).
  rewrite grace_config_step in IH. cbn [extensions] in *. rewrite Z.add_0_r in *. lia.
Qed.

Definition started : grace_store := (initiateGracePeriod {| gr_states := []; gr_config := None; gr_events := None |} 0 7 1 "900").1.

Lemma extensions_bounded_witness :
  extensions started 7 1 [Extend 10 7 1; Extend 20 7 1; Expire 25 7 1; Extend 30 7 1; Extend 40 7 1] ≤ 3.
Proof.
  apply (extensions_bounded started 7 1).
  - split; [repeat constructor; set_solver|by repeat constructor].
  - repeat constructor; cbn; tauto.
Defined.

(** A period that expired, with its delayed payment recorded, is extended and active again. *)
Lemma expired_period_extended :
  let st := (expireGracePeriod started 5000000 7 1).1 in
  isGracePeriodActive st 5000000 7 1 = false ∧
  isGracePeriodActive (extendGracePeriod st 5000000 7 1).1 5000001 7 1 = true ∧
  length (listDelayedPaymentEvents (extendGracePeriod st 5000000 7 1).1 50) = 1%nat.
Proof. by vm_compute. Qed.

(** Initiating a period again forgets the extensions it used. *)
Lemma restart_resets_extensions :
  let used := foldl grace_step started [Extend 1 7 1; Extend 2 7 1; Extend 3 7 1] in
  (extendGracePeriod used 4 7 1).2 = Err "Grace period extension limit exceeded" ∧
  gs_extensionCount <$> getState (initiateGracePeriod used 4 7 1 "900").1 7 1 = Some 0.
Proof. by vm_compute. Qed.

(** A change of one field resets the others to their defaults. *)
Lemma partial_config_resets :
  let change d m := {| gch_duration := d; gch_maxExtensions := m; gch_discount := None; gch_allowed := None |} in
  gc_maxExtensions (grace_config (setConfig (setConfig started (change None (Some 0))) (change (Some 60) None))) = 3.
Proof. by vm_compute. Qed.
