(* ===== verification/Grants.v ===== *)
(** * Delegated authorizations

    Models [api/src/authorizations/authorization.service.ts]: grants that expire, are renewed
    and revoked.  Times are stored as ISO texts and compared by [Date.parse]; here they are the
    instants that the texts stand for.  Identifiers are arguments and have not been used
    before.

    Shown: a grant that was revoked never authorizes again, its terms never change and its
    history only grows ([grants_final]), and cleaning up changes no decision
    ([cleanup_transparent]).  Where the code falls short: [renewal_escapes_grantor],
    [superseded_grant_active]. *)
From S2P Require Import Prelude.

Inductive AuthorizationStatus := Active | Expired | Revoked.
#[export] Instance AuthorizationStatus_eq_dec : EqDecision AuthorizationStatus.
Proof. solve_decision. Defined.

Inductive grant_event := granted | renewed | revoked | expired.

Record AuthorizationAuditEntry := { au_at : Z; au_event : grant_event; au_actor : string; au_note : option string }.

Record AuthorizationGrant := {
  ag_id : string;
  ag_subjectAddress : string;
  ag_scope : string;
  ag_grantedBy : string;
  ag_grantedAt : Z;
  ag_expiresAt : Z;
  ag_status : AuthorizationStatus;
  ag_renewedFromId : option string;
  ag_renewedById : option string;
  ag_revokedAt : option Z;
  ag_revokedBy : option string;
  ag_audit : list AuthorizationAuditEntry;
}.

Inductive grant_error := not_found | already_revoked | not_active | unauthorized_actor | invalid_expiry.

Definition grants := list (string * AuthorizationGrant).

Definition new_grant (id subject scope by_ : string) (now ttlMs : Z) (from : option string) : AuthorizationGrant :=
  {| ag_id := id; ag_subjectAddress := subject; ag_scope := scope; ag_grantedBy := by_; ag_grantedAt := now;
     ag_expiresAt := now + ttlMs; ag_status := Active; ag_renewedFromId := from; ag_renewedById := None;
     ag_revokedAt := None; ag_revokedBy := None;
     ag_audit := [{| au_at := now; au_event := granted; au_actor := by_; au_note := String.append "renewed from " <$> from |}] |}.

Definition grant (gs : grants) (id subject scope grantedBy : string) (ttlMs now : Z) : grants * result grant_error AuthorizationGrant :=
  if ttlMs <=? 0 then (gs, Err invalid_expiry)
  else let g := new_grant id subject scope grantedBy now ttlMs None in (aput id g gs, Ok g).

Definition find (gs : grants) (id : string) : result grant_error AuthorizationGrant :=
  match aget id gs with Some g => Ok g | None => Err not_found end.

Definition effectiveStatus (g : AuthorizationGrant) (now : Z) : AuthorizationStatus :=
  if decide (ag_status g = Revoked) then Revoked else if ag_expiresAt g <=? now then Expired else ag_status g.

Definition isActive (gs : grants) (id : string) (now : Z) : bool :=
  match aget id gs with Some g => bool_decide (effectiveStatus g now = Active) | None => false end.

Definition with_status (g : AuthorizationGrant) (s : AuthorizationStatus) (renewedBy : option string) (revokedAt : option Z)
    (revokedBy : option string) (e : list AuthorizationAuditEntry) : AuthorizationGrant :=
  {| ag_id := ag_id g; ag_subjectAddress := ag_subjectAddress g; ag_scope := ag_scope g; ag_grantedBy := ag_grantedBy g;
     ag_grantedAt := ag_grantedAt g; ag_expiresAt := ag_expiresAt g; ag_status := s; ag_renewedFromId := ag_renewedFromId g;
     ag_renewedById := renewedBy; ag_revokedAt := revokedAt; ag_revokedBy := revokedBy; ag_audit := ag_audit g ++ e |}.

Definition stale (g : AuthorizationGrant) (now : Z) : bool :=
  bool_decide (ag_status g = Active) && bool_decide (effectiveStatus g now = Expired).
Definition cleaned (now : Z) (g : AuthorizationGrant) : AuthorizationGrant :=
  if stale g now then
    with_status g Expired (ag_renewedById g) (ag_revokedAt g) (ag_revokedBy g)
      [{| au_at := now; au_event := expired; au_actor := "system:cleanup"; au_note := None |}]
  else g.
Definition cleanupExpired (gs : grants) (now : Z) : grants * list string :=
  ((λ kv, (kv.1, cleaned now kv.2)) <$> gs, kv ← gs; if stale kv.2 now then [ag_id kv.2] else []).

Definition renew (gs : grants) (id actor newId : string) (ttlMs now : Z) : grants * result grant_error AuthorizationGrant :=
  match find gs id with
  | Err e => (gs, Err e)
  | Ok g =>
      if decide (ag_status g = Revoked) then (gs, Err already_revoked)
      else if decide (ag_renewedById g ≠ None) then (gs, Err not_active)
      else if negb (bool_decide (actor = ag_grantedBy g)) && negb (bool_decide (actor = ag_subjectAddress g)) then
        (gs, Err unauthorized_actor)
      else if ttlMs <=? 0 then (gs, Err invalid_expiry)
      else
        let r := new_grant newId (ag_subjectAddress g) (ag_scope g) actor now ttlMs (Some id) in
        let g := with_status g (effectiveStatus g now) (Some newId) (ag_revokedAt g) (ag_revokedBy g)
                   [{| au_at := now; au_event := renewed; au_actor := actor; au_note := Some newId |}] in
        (aput newId r (aput id g gs), Ok r)
  end.

Definition revoke (gs : grants) (id actor : string) (now : Z) : grants * result grant_error AuthorizationGrant :=
  match find gs id with
  | Err e => (gs, Err e)
  | Ok g =>
      if decide (ag_status g = Revoked) then (gs, Err already_revoked)
      else if negb (bool_decide (actor = ag_grantedBy g)) then (gs, Err unauthorized_actor)
      else
        let g := with_status g Revoked (ag_renewedById g) (Some now) (Some actor)
                   [{| au_at := now; au_event := revoked; au_actor := actor; au_note := None |}] in
        (aput id g gs, Ok g)
  end.

Definition listForSubject (gs : grants) (subject : string) (includeInactive : bool) (now : Z) :
    list (AuthorizationGrant * AuthorizationStatus) :=
  filter (λ gv, includeInactive = true ∨ gv.2 = Active)
    ((λ g, (g, effectiveStatus g now)) <$> filter (λ g, ag_subjectAddress g = subject) gs.*2).

(** *** Sequences of calls *)

Inductive grant_call :=
| Grant (id subject scope grantedBy : string) (ttlMs now : Z)
| Renew (id actor newId : string) (ttlMs now : Z)
| Revoke (id actor : string) (now : Z)
| Cleanup (now : Z).

Definition grant_step (gs : grants) (o : grant_call) : grants :=
  match o with
  | Grant id s c b ttl now => (grant gs id s c b ttl now).1
  | Renew id a n ttl now => (renew gs id a n ttl now).1
  | Revoke id a now => (revoke gs id a now).1
  | Cleanup now => (cleanupExpired gs now).1
  end.
Definition fresh_call (gs : grants) (o : grant_call) : Prop :=
  match o with
  | Grant id _ _ _ _ _ => aget id gs = None
  | Renew _ _ newId _ _ => aget newId gs = None
  | _ => True
  end.
(** Calls with identifiers that are not in use. *)
Inductive grant_run : grants → grants → Prop :=
| grant_run_nil gs : grant_run gs gs
| grant_run_step gs o gs' : fresh_call gs o → grant_run (grant_step gs o) gs' → grant_run gs gs'.

(** What stays of a grant. *)
Definition kept (g g' : AuthorizationGrant) : Prop :=
  ag_id g' = ag_id g ∧ ag_subjectAddress g' = ag_subjectAddress g ∧ ag_scope g' = ag_scope g ∧
  ag_grantedBy g' = ag_grantedBy g ∧ ag_expiresAt g' = ag_expiresAt g ∧ (ag_status g = Revoked → ag_status g' = Revoked) ∧
  ag_audit g `prefix_of` ag_audit g'.

#[export] Instance kept_preorder : PreOrder kept.
Proof.
  split.
  - intros g. by repeat split.
  - intros g1 g2 g3 (H1 & H2 & H3 & H4 & H5 & H6 & H7) (H1' & H2' & H3' & H4' & H5' & H6' & H7').
    split_and!; try congruence; [tauto|]. by etrans.
Qed.

Lemma with_status_kept g s rb ra ry e : (ag_status g = Revoked → s = Revoked) → kept g (with_status g s rb ra ry e).
Proof. intros Hs. split_and!; try done. cbn. by apply prefix_app_r. Qed.

Lemma aput_kept (gs : grants) (id : string) g g' (id' : string) h :
  aget id gs = Some g → kept g g' → aget id' gs = Some h → ∃ h', aget id' (aput id g' gs) = Some h' ∧ kept h h'.
Proof.
  intros Hg Hk Hh. rewrite aget_aput. case_decide as Hd; [|by exists h]. subst. rewrite Hg in Hh. injection Hh as <-. by exists g'.
Qed.

Lemma grant_step_kept gs o id g :
  fresh_call gs o → aget id gs = Some g → ∃ g', aget id (grant_step gs o) = Some g' ∧ kept g g'.
Proof.
  intros Hf Hg. destruct o as [i s c b ttl now|i a n ttl now|i a now|now]; cbn [grant_step fresh_call] in *.
  - unfold grant. destruct (ttl <=? 0); [by exists g|]. cbn. rewrite aget_aput, decide_False by congruence. by exists g.
  - unfold renew, find. destruct (aget i gs) as [r|] eqn:E; [|by exists g].
    do 2 (case_decide; [by exists g|]). destruct (_ && _); [by exists g|]. destruct (ttl <=? 0); [by exists g|].
    cbn [fst]. rewrite aget_aput, decide_False by congruence. eapply aput_kept; [exact E| |exact Hg].
    apply with_status_kept. intros. congruence.
  - unfold revoke, find. destruct (aget i gs) as [r|] eqn:E; [|by exists g].
    case_decide; [by exists g|]. destruct (negb _); [by exists g|]. cbn [fst]. eapply aput_kept; [exact E| |exact Hg].
    by apply with_status_kept.
  - cbn [cleanupExpired fst]. exists (cleaned now g). split.
    + pose proof (aget_map (cleaned now) id gs) as Hm. unfold fmap in *. rewrite Hg in Hm. exact Hm.
    + unfold cleaned, stale. destruct (_ && _) eqn:E; [|done]. apply with_status_kept. bool_to_prop. congruence.
Qed.

(** Whatever is granted, renewed, revoked and cleaned up: the terms of a grant never change,
    its history only grows, and once revoked it never authorizes anything again, at any
    time. *)
Lemma grants_final gs gs' id g now :
  grant_run gs gs' → aget id gs = Some g →
  ∃ g', aget id gs' = Some g' ∧ kept g g' ∧ (ag_status g = Revoked → isActive gs' id now = false) ∧
        (ag_expiresAt g ≤ now → isActive gs' id now = false).
Proof.
  intros Hr. revert g. induction Hr as [gs|gs o gs' Hf Hr IH]; intros g Hg.
  - exists g. split_and!; [done..| |].
    + intros Hs. unfold isActive. rewrite Hg. unfold effectiveStatus. by rewrite decide_True.
    + intros Hx. unfold isActive. rewrite Hg. unfold effectiveStatus. case_decide; [done|]. by rewrite (proj2 (Z.leb_le _ _)).
  - destruct (grant_step_kept gs o id g Hf Hg) as (g1 & Hg1 & Hk1). destruct (IH g1 Hg1) as (g' & Hg' & Hk & Hs & Hx).
    exists g'. split_and!; [done|by etrans| |].
    + intros E. apply Hs. by apply Hk1.
    + intros E. apply Hx. destruct Hk1 as (_ & _ & _ & _ & -> & _). done.
Qed.

(** Cleaning up changes no decision from then on. *)
Lemma cleanup_transparent gs id now now' :
  now ≤ now' → isActive (cleanupExpired gs now).1 id now' = isActive gs id now'.
Proof.
  intros Hn. unfold isActive. cbn [cleanupExpired fst]. pose proof (aget_map (cleaned now) id gs) as Hm. unfold fmap in *.
  rewrite Hm. clear Hm. destruct (aget id gs) as [g|]; [|done]. cbn [option_fmap option_map]. unfold cleaned.
  destruct (stale g now) eqn:E; [|done]. unfold stale in E. bool_to_prop.
  assert (ag_expiresAt g ≤ now) as Hx.
  { unfold effectiveStatus in *. case_decide; [done|]. destruct (Z.leb_spec (ag_expiresAt g) now); [lia|congruence]. }
  apply bool_decide_ext. unfold effectiveStatus. cbn. rewrite decide_False by done. rewrite (decide_False (P := ag_status g = Revoked)) by congruence.
  by rewrite (proj2 (Z.leb_le _ _)) by lia.
Qed.

(** The subject renews the grant, and the one who granted it cannot revoke the renewal. *)
Lemma renewal_escapes_grantor :
  let gs := (grant [] "g1" "GSUBJECT" "scope" "GISSUER" 1000 0).1 in
  let gs := (renew gs "g1" "GSUBJECT" "g2" 1000000 500).1 in
  let gs := (revoke gs "g1" "GISSUER" 600).1 in
  (revoke gs "g2" "GISSUER" 700).2 = Err unauthorized_actor ∧ isActive gs "g2" 900000 = true.
Proof. by vm_compute. Qed.

(** A grant that was superseded by its renewal still authorizes until it expires. *)
Lemma superseded_grant_active :
  let gs := (grant [] "g1" "GSUBJECT" "scope" "GISSUER" 1000 0).1 in
  let gs := (renew gs "g1" "GISSUER" "g2" 1000 500).1 in
  let gs := (revoke gs "g2" "GISSUER" 600).1 in
  isActive gs "g1" 700 = true.
Proof. by vm_compute. Qed.
