(* ===== verification/Invitations.v ===== *)
(** * Invitations and roles

    Models [api/src/invitations/invitation.service.ts]: roles in a scope, given directly or by
    invitation.  Times are stored as ISO texts and compared by [Date.parse]; here they are the
    instants that the texts stand for.  The identifier of an invitation is an argument.  The
    map from addresses to maps from scopes to roles is one association list.

    Shown: roles only grow, an invitation that is accepted in time gives the role it names
    ([accept_grants]), and no inviter creates more than five invitations an hour
    ([invitations_throttled]).  Where the code falls short: [anyone_becomes_admin],
    [peer_invited]. *)
From S2P Require Import Prelude.

Inductive InvitationStatus := pending | accepted | revoked | expired.
#[export] Instance InvitationStatus_eq_dec : EqDecision InvitationStatus.
Proof. solve_decision. Defined.

Inductive CollaboratorRole := viewer | contributor | project_admin | issuer_admin.
#[export] Instance CollaboratorRole_eq_dec : EqDecision CollaboratorRole.
Proof. solve_decision. Defined.

Definition ROLE_RANK (r : CollaboratorRole) : Z :=
  match r with viewer => 0 | contributor => 1 | project_admin => 2 | issuer_admin => 3 end.

Record Invitation := {
  iv_id : string;
  iv_scope : string;
  iv_inviterAddress : string;
  iv_inviteeAddress : string;
  iv_role : CollaboratorRole;
  iv_status : InvitationStatus;
  iv_createdAt : Z;
  iv_expiresAt : Z;
  iv_acceptedAt : option Z;
  iv_revokedAt : option Z;
}.

Inductive invitation_error :=
| role_escalation_rejected | invitation_not_found | invitation_not_pending | invitation_expired | invitation_revoked
| already_a_collaborator | rate_limited | invalid_input.

Definition DEFAULT_INVITATION_TTL_MS : Z := 7 * 24 * 60 * 60 * 1000.
Definition INVITES_PER_WINDOW : nat := 5.
Definition INVITE_WINDOW_MS : Z := 60 * 60 * 1000.

(** The roles are keyed by address and scope. *)
Record state := {
  st_invitations : list (string * Invitation);
  st_roles : list ((string * string) * CollaboratorRole);
  st_creationLog : list (string * list Z);
}.
Definition new_state : state := {| st_invitations := []; st_roles := []; st_creationLog := [] |}.

Definition rankOf (st : state) (address scope : string) : Z := from_option ROLE_RANK (-1) (aget (address, scope) (st_roles st)).

Definition set_role (st : state) (address scope : string) (r : CollaboratorRole) : state :=
  {| st_invitations := st_invitations st; st_roles := aput (address, scope) r (st_roles st); st_creationLog := st_creationLog st |}.
Definition set_invitation (st : state) (i : Invitation) : state :=
  {| st_invitations := aput (iv_id i) i (st_invitations st); st_roles := st_roles st; st_creationLog := st_creationLog st |}.

Definition grantRole (st : state) (actor scope target : string) (role : CollaboratorRole) : state * result invitation_error unit :=
  let actorRank := rankOf st actor scope in
  if (0 <=? actorRank) && (actorRank <? ROLE_RANK role) then (st, Err role_escalation_rejected)
  else if (actorRank <? 0) && negb (bool_decide (role = issuer_admin)) then (st, Err role_escalation_rejected)
  else
    match aget (target, scope) (st_roles st) with
    | Some existing => if ROLE_RANK role <=? ROLE_RANK existing then (st, Ok tt) else (set_role st target scope role, Ok tt)
    | None => (set_role st target scope role, Ok tt)
    end.

Definition recent (now : Z) (log : list Z) : list Z := filter (λ ts, now - INVITE_WINDOW_MS ≤ ts) log.

Definition enforceThrottle (st : state) (inviter : string) (now : Z) : result invitation_error state :=
  let log := recent now (default [] (aget inviter (st_creationLog st))) in
  if (INVITES_PER_WINDOW <=? length log)%nat then Err rate_limited
  else Ok {| st_invitations := st_invitations st; st_roles := st_roles st;
             st_creationLog := aput inviter (log ++ [now]) (st_creationLog st) |}.

Record CreateInvitationInput := {
  ci_scope : string;
  ci_inviterAddress : string;
  ci_inviteeAddress : string;
  ci_role : CollaboratorRole;
  ci_ttlMs : option Z;
}.

Definition create (st : state) (i : CreateInvitationInput) (id : string) (now : Z) : state * result invitation_error Invitation :=
  let scope := ci_scope i in
  let inviter := ci_inviterAddress i in
  let invitee := ci_inviteeAddress i in
  if bool_decide (scope = EmptyString) || bool_decide (inviter = EmptyString) || bool_decide (invitee = EmptyString) then
    (st, Err invalid_input)
  else if bool_decide (inviter = invitee) then (st, Err invalid_input)
  else
    match enforceThrottle st inviter now with
    | Err e => (st, Err e)
    | Ok st =>
        let rank := rankOf st inviter scope in
        if (rank <? ROLE_RANK (ci_role i)) || (rank <? ROLE_RANK contributor) then (st, Err role_escalation_rejected)
        else if ROLE_RANK (ci_role i) <=? rankOf st invitee scope then (st, Err already_a_collaborator)
        else
          let ttl := match ci_ttlMs i with
                     | Some t => if 0 <? t then t else DEFAULT_INVITATION_TTL_MS
                     | None => DEFAULT_INVITATION_TTL_MS
                     end in
          let v := {| iv_id := id; iv_scope := scope; iv_inviterAddress := inviter; iv_inviteeAddress := invitee;
                      iv_role := ci_role i; iv_status := pending; iv_createdAt := now; iv_expiresAt := now + ttl;
                      iv_acceptedAt := None; iv_revokedAt := None |} in
          (set_invitation st v, Ok v)
    end.

Definition with_status (i : Invitation) (s : InvitationStatus) (acceptedAt revokedAt : option Z) : Invitation :=
  {| iv_id := iv_id i; iv_scope := iv_scope i; iv_inviterAddress := iv_inviterAddress i; iv_inviteeAddress := iv_inviteeAddress i;
     iv_role := iv_role i; iv_status := s; iv_createdAt := iv_createdAt i; iv_expiresAt := iv_expiresAt i;
     iv_acceptedAt := acceptedAt; iv_revokedAt := revokedAt |}.

Definition accept (st : state) (id caller : string) (now : Z) : state * result invitation_error Invitation :=
  match aget id (st_invitations st) with
  | None => (st, Err invitation_not_found)
  | Some i =>
      if negb (bool_decide (iv_inviteeAddress i = caller)) then (st, Err invitation_not_pending)
      else if bool_decide (iv_status i = revoked) then (st, Err invitation_revoked)
      else if bool_decide (iv_status i = expired) || (iv_expiresAt i <=? now) then
        (set_invitation st (with_status i expired (iv_acceptedAt i) (iv_revokedAt i)), Err invitation_expired)
      else
        let i := with_status i accepted (Some now) (iv_revokedAt i) in
        let st := set_invitation st i in
        match grantRole st (iv_inviterAddress i) (iv_scope i) caller (iv_role i) with
        | (st, Ok _) => (st, Ok i)
        | (st, Err e) => (st, Err e)
        end
  end.

Definition revoke (st : state) (id caller : string) (now : Z) : state * result invitation_error Invitation :=
  match aget id (st_invitations st) with
  | None => (st, Err invitation_not_found)
  | Some i =>
      if negb (bool_decide (iv_inviterAddress i = caller)) && (rankOf st caller (iv_scope i) <=? ROLE_RANK (iv_role i)) then
        (st, Err role_escalation_rejected)
      else if negb (bool_decide (iv_status i = pending)) then (st, Err invitation_not_pending)
      else let i := with_status i revoked (iv_acceptedAt i) (Some now) in (set_invitation st i, Ok i)
  end.

Definition lapsed (now : Z) (i : Invitation) : Invitation :=
  if bool_decide (iv_status i = pending) && (iv_expiresAt i <=? now)
  then with_status i expired (iv_acceptedAt i) (iv_revokedAt i) else i.

(** A filter that is absent or empty matches everything. *)
Definition passes (f : option string) (x : string) : bool :=
  match f with None | Some EmptyString => true | Some a => bool_decide (x = a) end.
Definition list_invitations (st : state) (invitee scope : option string) (now : Z) : state * list Invitation :=
  let l := (λ kv, (kv.1, lapsed now kv.2)) <$> st_invitations st in
  ({| st_invitations := l; st_roles := st_roles st; st_creationLog := st_creationLog st |},
   filter (λ i, passes invitee (iv_inviteeAddress i) && passes scope (iv_scope i) = true) l.*2).

Definition get_invitation (st : state) (id : string) (now : Z) : state * result invitation_error Invitation :=
  match aget id (st_invitations st) with
  | None => (st, Err invitation_not_found)
  | Some i => (set_invitation st (lapsed now i), Ok (lapsed now i))
  end.

(** *** Sequences of calls *)

Inductive invitation_call :=
| GrantRole (actor scope target : string) (role : CollaboratorRole)
| Create (i : CreateInvitationInput) (id : string) (now : Z)
| Accept (id caller : string) (now : Z)
| Revoke (id caller : string) (now : Z)
| List (now : Z)
| Get (id : string) (now : Z).

Definition invitation_step (st : state) (o : invitation_call) : state :=
  match o with
  | GrantRole a s t r => (grantRole st a s t r).1
  | Create i id now => (create st i id now).1
  | Accept id c now => (accept st id c now).1
  | Revoke id c now => (revoke st id c now).1
  | List now => (list_invitations st None None now).1
  | Get id now => (get_invitation st id now).1
  end.
Definition invitation_run (st : state) (os : list invitation_call) : state := foldl invitation_step st os.

(** Roles only grow. *)
Definition roles_grow (st st' : state) : Prop := ∀ a s, rankOf st a s ≤ rankOf st' a s.

#[export] Instance roles_grow_refl : Reflexive roles_grow.
Proof. intros st a s. reflexivity. Qed.

Lemma rankOf_set st a s r a' s' : rankOf (set_role st a s r) a' s' = if decide ((a', s') = (a, s)) then ROLE_RANK r else rankOf st a' s'.
Proof. unfold rankOf, set_role. cbn. rewrite aget_aput. by case_decide. Qed.

Lemma rank_bounds st a s : -1 ≤ rankOf st a s ≤ 3.
Proof. unfold rankOf. destruct (aget (a, s) (st_roles st)) as [r|]; cbn; [destruct r; cbn|]; lia. Qed.

Lemma grantRole_grows st a s t r : roles_grow st (grantRole st a s t r).1.
Proof.
  intros a' s'. unfold grantRole. destruct (_ && _); [done|]. destruct (_ && _); [done|].
  destruct (aget (t, s) (st_roles st)) as [e|] eqn:E.
  - destruct (Z.leb_spec (ROLE_RANK r) (ROLE_RANK e)); [done|]. cbn [fst]. rewrite rankOf_set. case_decide as Hd; [|done].
    injection Hd as -> ->. unfold rankOf. rewrite E. cbn. lia.
  - cbn [fst]. rewrite rankOf_set. case_decide as Hd; [|done]. injection Hd as -> ->. unfold rankOf. rewrite E.
    destruct r; cbn; lia.
Qed.

(** The one who invited has a role at least as high as the one they gave away, in every
    invitation there is. *)
Definition invited_ok (st : state) : Prop :=
  Forall (λ kv, kv.1 = iv_id kv.2 ∧ ROLE_RANK (iv_role kv.2) ≤ rankOf st (iv_inviterAddress kv.2) (iv_scope kv.2)) (st_invitations st).

Lemma invited_ok_grow st st' : st_invitations st' = st_invitations st → roles_grow st st' → invited_ok st → invited_ok st'.
Proof.
  intros E Hg H. unfold invited_ok. rewrite E. eapply List.Forall_impl; [|exact H]. intros [k i] [Hk Hr]. split; [done|].
  etrans; [exact Hr|apply Hg].
Qed.

Lemma set_invitation_ok st i :
  ROLE_RANK (iv_role i) ≤ rankOf st (iv_inviterAddress i) (iv_scope i) → invited_ok st → invited_ok (set_invitation st i).
Proof. intros Hr H. unfold invited_ok, set_invitation. cbn. by apply Forall_aput. Qed.

Lemma grantRole_invitations st a s t r : st_invitations (grantRole st a s t r).1 = st_invitations st.
Proof.
  unfold grantRole. destruct (_ && _); [done|]. destruct (_ && _); [done|]. destruct (aget _ _); [|done]. by destruct (_ <=? _).
Qed.

Lemma invited_get st id i : invited_ok st → aget id (st_invitations st) = Some i →
  id = iv_id i ∧ ROLE_RANK (iv_role i) ≤ rankOf st (iv_inviterAddress i) (iv_scope i).
Proof. intros H E. apply aget_Some_elem in E. unfold invited_ok in H. rewrite Forall_forall in H. by apply H in E. Qed.

Lemma throttle_roles st a now st' : enforceThrottle st a now = Ok st' → st_roles st' = st_roles st ∧ st_invitations st' = st_invitations st.
Proof. unfold enforceThrottle. destruct (_ <=? _)%nat; [done|]. by intros [= <-]. Qed.

Lemma invitation_step_ok st o : invited_ok st → invited_ok (invitation_step st o) ∧ roles_grow st (invitation_step st o).
Proof.
  intros H. destruct o as [a s t r|i id now|id c now|id c now|now|id now]; cbn [invitation_step].
  - split; [|apply grantRole_grows]. eapply invited_ok_grow; [apply grantRole_invitations|apply grantRole_grows|done].
  - unfold create. destruct (_ || _); [by split|]. case_bool_decide; [by split|].
    destruct (enforceThrottle _ _ _) as [st1|] eqn:E; [|done]. apply throttle_roles in E as [Er Ei].
    assert (∀ a s, rankOf st1 a s = rankOf st a s) as Hr by (intros; unfold rankOf; by rewrite Er).
    assert (invited_ok st1) as H1 by (eapply invited_ok_grow; [exact Ei|intros a s; by rewrite Hr|done]).
    destruct (Z.ltb_spec (rankOf st1 (ci_inviterAddress i) (ci_scope i)) (ROLE_RANK (ci_role i))) as [|Hle]; cbn [orb fst].
    { split; [done|]. intros a s. by rewrite Hr. }
    destruct (_ <? _); cbn [fst]; [split; [done|]; intros a s; by rewrite Hr|].
    destruct (_ <=? _); cbn [fst]; [split; [done|]; intros a s; by rewrite Hr|].
    split; [by apply set_invitation_ok|]. intros a s. change (rankOf st a s ≤ rankOf st1 a s). by rewrite Hr.
  - unfold accept. destruct (aget id (st_invitations st)) as [i|] eqn:E; [|done]. destruct (invited_get _ _ _ H E) as [_ Hr].
    destruct (negb _); [by split|]. case_bool_decide; [by split|]. destruct (_ || _); [split; [by apply set_invitation_ok|intros a s; reflexivity]|].
    set (i' := with_status i accepted (Some now) (iv_revokedAt i)). set (st1 := set_invitation st i').
    assert (invited_ok st1) as H1 by (by apply set_invitation_ok).
    assert (roles_grow st (grantRole st1 (iv_inviterAddress i') (iv_scope i') c (iv_role i')).1) as Hg
      by (intros a s; apply (grantRole_grows st1)).
    pose proof (invited_ok_grow _ _ (grantRole_invitations st1 (iv_inviterAddress i') (iv_scope i') c (iv_role i'))
      (grantRole_grows st1 _ _ _ _) H1) as H2.
    destruct (grantRole st1 _ _ _ _) as [st2 [[]|e]]; by split.
  - unfold revoke. destruct (aget id (st_invitations st)) as [i|] eqn:E; [|done]. destruct (invited_get _ _ _ H E) as [_ Hr].
    destruct (_ && _); [by split|]. destruct (negb _); [by split|]. split; [by apply set_invitation_ok|intros a s; reflexivity].
  - split; [|intros a s; reflexivity]. unfold invited_ok in *. cbn. apply Forall_fmap. eapply List.Forall_impl; [|exact H].
    intros [k i] [Hk Hr]. cbn in *. unfold lapsed. by destruct (_ && _).
  - unfold get_invitation. destruct (aget id (st_invitations st)) as [i|] eqn:E; [|done]. destruct (invited_get _ _ _ H E) as [_ Hr].
    split; [apply set_invitation_ok; [|done]; unfold lapsed; by destruct (_ && _)|intros a s; reflexivity].
Qed.

Lemma invitation_run_ok os st : invited_ok st → invited_ok (invitation_run st os) ∧ roles_grow st (invitation_run st os).
Proof.
  revert st. induction os as [|o os IH]; intros st H; [done|]. cbn. destruct (invitation_step_ok st o H) as [H1 G1].
  destruct (IH _ H1) as [H2 G2]. split; [done|]. intros a s. etrans; [apply G1|apply G2].
Qed.

(** An invitation that is accepted in time by the one it was sent to gives exactly the
    role that it names, or leaves a higher one: whatever roles were granted, invitations
    created, accepted, revoked and listed since, accepting cannot fail half way, because the
    one who invited still has at least that role. *)
Theorem accept_grants os id caller now i :
  let st := invitation_run new_state os in
  aget id (st_invitations st) = Some i → iv_inviteeAddress i = caller → now < iv_expiresAt i →
  iv_status i = pending →
  let '(st', r) := accept st id caller now in
  (∃ i', r = Ok i' ∧ iv_status i' = accepted ∧ iv_role i' = iv_role i) ∧
  rankOf st' caller (iv_scope i) = Z.max (rankOf st caller (iv_scope i)) (ROLE_RANK (iv_role i)) ∧
  (∀ a s, (a, s) ≠ (caller, iv_scope i) → rankOf st' a s = rankOf st a s).
Proof.
  intros st Hi Hc Hn Hs. destruct (invitation_run_ok os new_state) as [Hok _]; [by constructor|]. fold st in Hok.
  destruct (invited_get _ _ _ Hok Hi) as [_ Hr]. unfold accept. rewrite Hi, Hc, Hs. rewrite (bool_decide_eq_true_2 (caller = caller)) by done.
  cbn [negb]. rewrite !bool_decide_eq_false_2 by done. rewrite (proj2 (Z.leb_gt _ _)) by done. cbn [orb].
  set (i' := with_status i accepted (Some now) (iv_revokedAt i)). set (st1 := set_invitation st i').
  change (iv_inviterAddress i') with (iv_inviterAddress i). change (iv_scope i') with (iv_scope i). change (iv_role i') with (iv_role i).
  unfold grantRole. change (rankOf st1 (iv_inviterAddress i) (iv_scope i)) with (rankOf st (iv_inviterAddress i) (iv_scope i)).
  change (st_roles st1) with (st_roles st). assert (0 ≤ ROLE_RANK (iv_role i)) as H0 by (destruct (iv_role i); cbn; lia).
  rewrite (proj2 (Z.ltb_ge _ (ROLE_RANK (iv_role i)))) by done. rewrite andb_false_r. rewrite (proj2 (Z.ltb_ge _ 0)) by lia. cbn [andb].
  destruct (aget (caller, iv_scope i) (st_roles st)) as [e|] eqn:E.
  - assert (rankOf st caller (iv_scope i) = ROLE_RANK e) as He by (unfold rankOf; by rewrite E).
    destruct (Z.leb_spec (ROLE_RANK (iv_role i)) (ROLE_RANK e)).
    + split; [by exists i'|]. split; [|done]. change (rankOf st1 caller (iv_scope i)) with (rankOf st caller (iv_scope i)). lia.
    + split; [by exists i'|]. rewrite rankOf_set, decide_True by done. split; [lia|].
      intros a s Hd. rewrite rankOf_set, decide_False by done. done.
  - assert (rankOf st caller (iv_scope i) = -1) as He by (unfold rankOf; by rewrite E).
    split; [by exists i'|]. rewrite rankOf_set, decide_True by done. split; [lia|].
    intros a s Hd. rewrite rankOf_set, decide_False by done. done.
Qed.

Definition founded : list invitation_call :=
  [ GrantRole "GA" "forest" "GA" issuer_admin;
    Create {| ci_scope := "forest"; ci_inviterAddress := "GA"; ci_inviteeAddress := "GB"; ci_role := project_admin; ci_ttlMs := None |} "i1" 0 ].
Definition first_invitation : Invitation :=
  {| iv_id := "i1"; iv_scope := "forest"; iv_inviterAddress := "GA"; iv_inviteeAddress := "GB"; iv_role := project_admin;
     iv_status := pending; iv_createdAt := 0; iv_expiresAt := DEFAULT_INVITATION_TTL_MS; iv_acceptedAt := None; iv_revokedAt := None |}.

Lemma accept_grants_witness :
  let st := invitation_run new_state founded in
  let '(st', r) := accept st "i1" "GB" 5 in
  (∃ i', r = Ok i' ∧ iv_status i' = accepted ∧ iv_role i' = project_admin) ∧
  rankOf st' "GB" "forest" = Z.max (rankOf st "GB" "forest") 2 ∧
  (∀ a s, (a, s) ≠ ("GB", "forest") → rankOf st' a s = rankOf st a s).
Proof. apply (accept_grants founded "i1" "GB" 5 first_invitation); by vm_compute. Defined.

(** Anybody without a role makes themselves an administrator, of a scope that has one. *)
Lemma anyone_becomes_admin :
  let st := invitation_run new_state founded in
  rankOf st "GA" "forest" = 3 ∧ rankOf (grantRole st "GMALLORY" "forest" "GMALLORY" issuer_admin).1 "GMALLORY" "forest" = 3.
Proof. by vm_compute. Qed.

(** A role is given to a peer, although it must be strictly below the inviter's. *)
Lemma peer_invited :
  let st := invitation_run new_state founded in
  ∃ i, (create st {| ci_scope := "forest"; ci_inviterAddress := "GA"; ci_inviteeAddress := "GB"; ci_role := issuer_admin;
                     ci_ttlMs := None |} "i2" 1).2 = Ok i.
Proof. eexists. by vm_compute. Qed.


(** *** Throttling *)

(** The times at which an inviter created invitations. *)
Fixpoint creations (st : state) (inviter : string) (os : list invitation_call) : list Z :=
  match os with
  | [] => []
  | o :: os =>
      (match o with
       | Create i id now =>
           if bool_decide (ci_inviterAddress i = inviter) then
             match (create st i id now).2 with Ok _ => [now] | Err _ => [] end
           else []
       | _ => []
       end) ++ creations (invitation_step st o) inviter os
  end.

Definition created_at (o : invitation_call) : option Z := match o with Create _ _ now => Some now | _ => None end.

Definition in_window (t : Z) (C : list Z) : list Z := filter (λ x : Z, t ≤ x ≤ t + INVITE_WINDOW_MS) C.
Definition bounded (C : list Z) : Prop := ∀ t, (length (in_window t C) ≤ INVITES_PER_WINDOW)%nat.

Definition log_of (st : state) (inviter : string) : list Z := default [] (aget inviter (st_creationLog st)).

(** The log of an inviter against the times [A] of all attempts that passed the throttle. *)
Definition logged (st : state) (inviter : string) (A : list Z) (m : Z) : Prop :=
  bounded A ∧ Forall (λ x, x ≤ m) A ∧ ∃ m0, m0 ≤ m ∧ log_of st inviter = recent m0 A.

Lemma in_window_app t C D : in_window t (C ++ D) = in_window t C ++ in_window t D.
Proof. apply filter_app. Qed.

Lemma recent_recent m0 now A : m0 ≤ now → recent now (recent m0 A) = recent now A.
Proof.
  intros H. unfold recent. rewrite list_filter_filter. apply list_filter_iff. intros x. lia.
Qed.

Lemma throttle_logged st inviter A m now st1 :
  logged st inviter A m → m ≤ now → enforceThrottle st inviter now = Ok st1 → logged st1 inviter (A ++ [now]) now.
Proof.
  intros (Hb & Hm & m0 & Hm0 & Hl) Hn. unfold enforceThrottle. fold (log_of st inviter). rewrite Hl, recent_recent by lia.
  destruct (Nat.leb_spec INVITES_PER_WINDOW (length (recent now A))) as [|Hlen]; [done|]. intros [= <-]. split_and!.
  - intros t. rewrite in_window_app, length_app. unfold in_window at 2. rewrite filter_cons, filter_nil. case_decide as Hd.
    + assert (length (in_window t A) ≤ length (recent now A))%nat.
      { apply sublist_length. unfold in_window, recent. erewrite (list_filter_iff _ (λ x : Z, t ≤ x ≤ t + INVITE_WINDOW_MS ∧ now - INVITE_WINDOW_MS ≤ x)).
        - rewrite <- list_filter_filter. apply sublist_filter.
        - intros x. lia. }
      cbn. lia.
    + cbn. specialize (Hb t). lia.
  - apply Forall_app. split; [|by repeat constructor]. eapply List.Forall_impl; [|exact Hm]. intros; cbn in *; lia.
  - exists now. split; [done|]. unfold log_of. cbn. rewrite aget_aput, decide_True by done. cbn.
    unfold recent. rewrite filter_app, filter_cons, filter_nil, decide_True; [done|]. unfold INVITE_WINDOW_MS. lia.
Qed.

(** What creating does to the logs. *)
Lemma create_log st i id now :
  (st_creationLog (create st i id now).1 = st_creationLog st ∧ ∀ v, (create st i id now).2 ≠ Ok v) ∨
  (∃ st1, enforceThrottle st (ci_inviterAddress i) now = Ok st1 ∧
          st_creationLog (create st i id now).1 = st_creationLog st1).
Proof.
  unfold create. destruct (_ || _); [by left|]. case_bool_decide; [by left|].
  destruct (enforceThrottle _ _ _) as [st1|]; [|by left]. right. exists st1. split; [done|].
  destruct (_ || _); [done|]. by destruct (_ <=? _).
Qed.

Lemma other_log st inviter A m o :
  logged st inviter A m → created_at o = None → logged (invitation_step st o) inviter A m.
Proof.
  intros H Ho. assert (st_creationLog (invitation_step st o) = st_creationLog st) as E; [|unfold logged, log_of in *; by rewrite E].
  destruct o as [a s t r|i id now|id c now|id c now|now|id now]; try done; cbn [invitation_step].
  - unfold grantRole. destruct (_ && _); [done|]. destruct (_ && _); [done|]. destruct (aget _ _); [|done]. by destruct (_ <=? _).
  - unfold accept. destruct (aget id _) as [i|]; [|done]. destruct (negb _); [done|]. case_bool_decide; [done|].
    destruct (_ || _); [done|]. unfold grantRole. destruct (_ && _); [done|]. destruct (_ && _); [done|].
    destruct (aget _ _); [|done]. by destruct (_ <=? _).
  - unfold revoke. destruct (aget id _); [|done]. destruct (_ && _); [done|]. by destruct (negb _).
  - unfold get_invitation. by destruct (aget id _).
Qed.

Lemma in_window_sublist t C A : C `sublist_of` A → in_window t C `sublist_of` in_window t A.
Proof.
  unfold in_window. induction 1 as [|x C A _ IH|x C A _ IH]; [done|..]; rewrite ?filter_cons.
  - case_decide; [by apply sublist_skip|done].
  - case_decide; [by apply sublist_cons|done].
Qed.

Lemma creations_bounded os st inviter C A m :
  logged st inviter A m → C `sublist_of` A →
  Sorted Z.le (m :: omap created_at os) → bounded (C ++ creations st inviter os).
Proof.
  revert st C A m. induction os as [|o os IH]; intros st C A m Hl HC Hs; cbn [creations].
  - rewrite app_nil_r. intros t. etrans; [|apply (proj1 Hl t)]. apply sublist_length. by apply in_window_sublist.
  - destruct o as [a s t r|i id now|id c now|id c now|now|id now]; try (cbn [app]; apply (IH _ C A m); [by apply other_log|done|exact Hs]).
    cbn [omap list_omap created_at] in Hs. apply Sorted_inv in Hs as [Hs1 Hmn]. inversion Hmn as [|? ? Hmn']; subst.
    assert (logged st inviter A now) as Hl'.
    { destruct Hl as (Hb & Hf & m0 & Hm0 & E). split_and!; [done| |exists m0; split; [lia|done]].
      eapply List.Forall_impl; [|exact Hf]. intros; cbn in *; lia. }
    cbn [invitation_step]. destruct (create_log st i id now) as [[E Hno]|(st1 & Et & E)].
    + assert (logged (create st i id now).1 inviter A now) as Hl2 by (unfold logged, log_of in *; by rewrite E).
      destruct (create st i id now) as [st2 r]. cbn [fst snd] in *.
      assert ((if bool_decide (ci_inviterAddress i = inviter) then match r with Ok _ => [now] | Err _ => [] end else []) = @nil Z) as ->.
      { case_bool_decide; [|done]. destruct r as [v|]; [|done]. by destruct (Hno v). }
      cbn [app]. by apply (IH _ C A now).
    + destruct (create st i id now) as [st2 r]. cbn [fst snd] in *. case_bool_decide as Hi.
      * subst inviter. assert (logged st2 (ci_inviterAddress i) (A ++ [now]) now) as Hl2.
        { eapply throttle_logged in Et; [|exact Hl'|done]. unfold logged, log_of in *. by rewrite E. }
        destruct r as [v|e].
        -- rewrite (app_assoc C [now]). apply (IH _ (C ++ [now]) (A ++ [now]) now); [done|by apply sublist_app|done].
        -- cbn [app]. apply (IH _ C (A ++ [now]) now); [done|by apply sublist_inserts_r|done].
      * cbn [app]. apply (IH _ C A now); [|done..]. unfold logged, log_of in *. rewrite E.
        unfold enforceThrottle in Et. destruct (_ <=? _)%nat; [done|]. injection Et as <-. cbn. by rewrite aget_aput, decide_False.
Qed.

(** Nobody creates more than five invitations within an hour, in any hour, whatever else
    is called in between and however many attempts fail, as long as the clock does not run
    backwards. *)
Theorem invitations_throttled inviter os t :
  Sorted Z.le (omap created_at os) →
  (length (in_window t (creations new_state inviter os)) ≤ 5)%nat.
Proof.
  intros Hs. destruct (omap created_at os) as [|x l] eqn:E.
  - apply (creations_bounded os new_state inviter [] [] 0); [|done|rewrite E; by repeat constructor].
    split_and!; [by intros ?; cbn; lia|done|]. by exists 0.
  - apply (creations_bounded os new_state inviter [] [] x); [|done|].
    + split_and!; [by intros ?; cbn; lia|done|]. by exists x.
    + rewrite E. constructor; [done|]. constructor. done.
Qed.

Definition busy : list invitation_call :=
  GrantRole "GA" "s" "GA" issuer_admin ::
  ((λ n, Create {| ci_scope := "s"; ci_inviterAddress := "GA"; ci_inviteeAddress := "G" +:+ Z_to_string n; ci_role := viewer;
                   ci_ttlMs := None |} (Z_to_string n) (n * 1000)) <$> [1; 2; 3; 4; 5; 6; 7; 3700; 3701]).
Lemma invitations_throttled_witness :
  creations new_state "GA" busy = [1000; 2000; 3000; 4000; 5000; 3700000; 3701000] ∧
  (length (in_window 1000 (creations new_state "GA" busy)) ≤ 5)%nat.
Proof.
  split; [by vm_compute|]. apply invitations_throttled. vm_compute. repeat constructor; done.
Defined.
