(* ===== verification/Impersonation.v ===== *)
(** * Impersonation

    Models [api/src/impersonation/impersonation.service.ts]: a maintainer acts as a user for a
    while, within a list of operations.  Times are stored as ISO texts and compared by
    [Date.parse]; here they are the instants that the texts stand for.  Identifiers are
    arguments; [wall] is the clock of the audit events.  The requested duration is a number
    other than [NaN] (for which [toISOString] throws).  The ledger that events are also written
    to cannot change a decision and is left out.

    Shown: an operation is allowed exactly in a session that the administrator started less
    than half an hour ago, that nothing has ended, and within its scope
    ([impersonation_confined]); the audit list is bounded ([audit_bounded]).  Where the code
    falls short: [unknown_session_silent]. *)
From Stdlib Require QArith_base Qround.
From S2P Require Import Prelude JsDate.

Definition MAX_SESSION_TTL_SECONDS : Z := 30 * 60.
Definition DEFAULT_SESSION_TTL_SECONDS : Z := 15 * 60.
Definition MAX_AUDIT_EVENTS : nat := 5000.

Inductive ImpersonationEndReason := explicit_end | ran_out | was_revoked.

Record ImpersonationScope := { is_allowedOperations : list string; is_allowDangerousMutations : bool }.

Record ImpersonationSession := {
  im_sessionId : string;
  im_maintainerAddress : string;
  im_targetAddress : string;
  im_scope : ImpersonationScope;
  im_reason : string;
  im_startedAt : Z;
  im_expiresAt : Z;
  im_ended : option (Z * ImpersonationEndReason);
}.

Inductive audit_event := started | operation_allowed | operation_denied | ended | expired | revoked.

Record ImpersonationAuditEvent := {
  ie_sessionId : string;
  ie_event : audit_event;
  ie_at : Z;
  ie_maintainerAddress : string;
  ie_targetAddress : string;
  ie_operation : option string;
  ie_detail : option string;
}.

Inductive denial :=
| no_active_session | d_expired | d_revoked | session_ended | operation_not_in_scope | dangerous_mutation_blocked.

Record ImpersonationDecision := { allowed : bool; denialReason : option denial; reason : option string }.

Record state := { st_sessions : list (string * ImpersonationSession); st_auditEvents : list ImpersonationAuditEvent }.
Definition new_state : state := {| st_sessions := []; st_auditEvents := [] |}.

Definition js_text (t : Z) : string := match toISOString t with Ok s => s | Err _ => "Invalid Date" end.

Definition endedDenial (s : ImpersonationSession) : denial * string :=
  match im_ended s with
  | Some (_, ran_out) => (d_expired, "session expired at " +:+ js_text (im_expiresAt s))
  | Some (_, was_revoked) => (d_revoked, "session was revoked")
  | _ => (session_ended, "session has ended")
  end.

Definition end_reason_text (r : ImpersonationEndReason) : string :=
  match r with explicit_end => "explicit_end" | ran_out => "expired" | was_revoked => "revoked" end.

(** The audit list keeps the last 5000 events; [wall] is the clock. *)
Definition audit (st : state) (s : ImpersonationSession) (e : audit_event) (operation detail : option string) (wall : Z) : state :=
  let kept := if (MAX_AUDIT_EVENTS <=? length (st_auditEvents st))%nat then tail (st_auditEvents st) else st_auditEvents st in
  {| st_sessions := st_sessions st;
     st_auditEvents := kept ++ [{| ie_sessionId := im_sessionId s; ie_event := e; ie_at := wall;
                                   ie_maintainerAddress := im_maintainerAddress s; ie_targetAddress := im_targetAddress s;
                                   ie_operation := operation; ie_detail := detail |}] |}.

Definition put_session (st : state) (s : ImpersonationSession) : state :=
  {| st_sessions := aput (im_sessionId s) s (st_sessions st); st_auditEvents := st_auditEvents st |}.

Definition endInternal (s : ImpersonationSession) (r : ImpersonationEndReason) (now : Z) : ImpersonationSession :=
  match im_ended s with
  | Some _ => s
  | None => {| im_sessionId := im_sessionId s; im_maintainerAddress := im_maintainerAddress s; im_targetAddress := im_targetAddress s;
               im_scope := im_scope s; im_reason := im_reason s; im_startedAt := im_startedAt s; im_expiresAt := im_expiresAt s;
               im_ended := Some (now, r) |}
  end.

Record StartInput := {
  si_maintainerAddress : string;
  si_targetAddress : string;
  si_allowedOperations : option (list string);
  si_allowDangerousMutations : option bool;
  si_reason : option string;
  si_ttlSeconds : option QArith_base.Q;
}.

Inductive start_error := AdminKeyNotConfigured | AdminAccessRequired | TargetRequired | ReasonRequired | OperationsRequired.

Section Service.
(** [process.env.STELLAR_PUBLIC_KEY]. *)
Variable adminKey : option string.

Definition clamp_ttl (requested : option QArith_base.Q) : Z :=
  Z.min (Z.max 1 (match requested with Some q => Qround.Qfloor q | None => DEFAULT_SESSION_TTL_SECONDS end)) MAX_SESSION_TTL_SECONDS.

(** The session that [start] makes, or why it refuses. *)
Definition start_session (i : StartInput) (id : string) (now : Z) : result start_error ImpersonationSession :=
  match adminKey with
  | None | Some EmptyString => Err AdminKeyNotConfigured
  | Some key =>
      if negb (bool_decide (si_maintainerAddress i = key)) then Err AdminAccessRequired
      else if decide (si_targetAddress i = EmptyString) then Err TargetRequired
      else if decide (trim (default EmptyString (si_reason i)) = EmptyString) then Err ReasonRequired
      else match si_allowedOperations i with
           | None => Err OperationsRequired
           | Some ops =>
               Ok {| im_sessionId := id; im_maintainerAddress := si_maintainerAddress i; im_targetAddress := si_targetAddress i;
                     im_scope := {| is_allowedOperations := js_set ops;
                                    is_allowDangerousMutations := default false (si_allowDangerousMutations i) |};
                     im_reason := trim (default EmptyString (si_reason i)); im_startedAt := now;
                     im_expiresAt := now + clamp_ttl (si_ttlSeconds i) * 1000; im_ended := None |}
           end
  end.

Definition start (st : state) (i : StartInput) (id : string) (now wall : Z) : state * result start_error ImpersonationSession :=
  match start_session i id now with
  | Err e => (st, Err e)
  | Ok s =>
      (audit (put_session st s) s started None
         (Some ("scope: " +:+ String.concat ", " (is_allowedOperations (im_scope s)))) wall, Ok s)
  end.

Definition deny (d : denial) (why : string) : ImpersonationDecision :=
  {| allowed := false; denialReason := Some d; reason := Some why |}.

Definition performOperation (st : state) (id operation : string) (dangerous : bool) (now wall : Z) : state * ImpersonationDecision :=
  match aget id (st_sessions st) with
  | None => (st, deny no_active_session "no such impersonation session")
  | Some s =>
      match im_ended s with
      | Some (_, r) =>
          (audit st s operation_denied (Some operation) (Some ("session already " +:+ end_reason_text r)) wall,
           let '(d, why) := endedDenial s in deny d why)
      | None =>
          if im_expiresAt s <=? now then
            let s' := endInternal s ran_out now in
            (audit (put_session st s') s' expired (Some operation) None wall,
             deny d_expired ("session expired at " +:+ js_text (im_expiresAt s)))
          else if negb (bool_decide (operation ∈ is_allowedOperations (im_scope s))) then
            (audit st s operation_denied (Some operation) (Some "operation not in scope") wall,
             deny operation_not_in_scope ("operation '" +:+ operation +:+ "' is not in the session scope"))
          else if dangerous && negb (is_allowDangerousMutations (im_scope s)) then
            (audit st s operation_denied (Some operation) (Some "dangerous mutation blocked") wall,
             deny dangerous_mutation_blocked "dangerous mutations require an explicit session grant")
          else
            (audit st s operation_allowed (Some operation) None wall, {| allowed := true; denialReason := None; reason := None |})
      end
  end.

Definition endBy (st : state) (id byAddress : string) (r : ImpersonationEndReason) (e : audit_event) (now wall : Z) : state * bool :=
  match aget id (st_sessions st) with
  | None => (st, false)
  | Some s =>
      if negb (bool_decide (im_maintainerAddress s = byAddress)) then (st, false)
      else match im_ended s with
           | Some _ => (st, true)
           | None => let s' := endInternal s r now in (audit (put_session st s') s' e None None wall, true)
           end
  end.

Definition end_session (st : state) (id byAddress : string) (now wall : Z) : state * bool :=
  endBy st id byAddress explicit_end ended now wall.
Definition revoke_session (st : state) (id byAddress : string) (now wall : Z) : state * bool :=
  endBy st id byAddress was_revoked revoked now wall.

Definition live (now : Z) (s : ImpersonationSession) : bool := bool_decide (im_ended s = None) && (now <? im_expiresAt s).

Definition getSessionsForTarget (st : state) (target : string) (now : Z) : list ImpersonationSession :=
  filter (λ s, bool_decide (im_targetAddress s = target) && live now s = true) (st_sessions st).*2.
Definition getActiveSessionCount (st : state) (now : Z) : nat :=
  length (filter (λ s, live now s = true) (st_sessions st).*2).

(** *** Sequences of calls *)

Inductive call :=
| Start (i : StartInput) (id : string) (now wall : Z)
| Perform (id operation : string) (dangerous : bool) (now wall : Z)
| End_ (id by_ : string) (now wall : Z)
| Revoke (id by_ : string) (now wall : Z).

Definition step (st : state) (o : call) : state :=
  match o with
  | Start i id now wall => (start st i id now wall).1
  | Perform id op d now wall => (performOperation st id op d now wall).1
  | End_ id b now wall => (end_session st id b now wall).1
  | Revoke id b now wall => (revoke_session st id b now wall).1
  end.
Definition run (st : state) (os : list call) : state := foldl step st os.

(** A call that takes a session with this maintainer and expiry out of use. *)
Definition closes (s : ImpersonationSession) (o : call) : bool :=
  match o with
  | Start i id now _ => bool_decide (id = im_sessionId s) && match start_session i id now with Ok _ => true | Err _ => false end
  | Perform id _ _ now _ => bool_decide (id = im_sessionId s) && (im_expiresAt s <=? now)
  | End_ id b _ _ | Revoke id b _ _ => bool_decide (id = im_sessionId s) && bool_decide (b = im_maintainerAddress s)
  end.

(** What a call does to one session. *)
Definition advance (id : string) (x : option ImpersonationSession) (o : call) : option ImpersonationSession :=
  match o with
  | Start i id' now _ => if decide (id' = id) then match start_session i id now with Ok s => Some s | Err _ => x end else x
  | Perform id' _ _ now _ =>
      if decide (id' = id) then (λ s, if im_expiresAt s <=? now then endInternal s ran_out now else s) <$> x else x
  | End_ id' b now _ =>
      if decide (id' = id) then (λ s, if decide (im_maintainerAddress s = b) then endInternal s explicit_end now else s) <$> x else x
  | Revoke id' b now _ =>
      if decide (id' = id) then (λ s, if decide (im_maintainerAddress s = b) then endInternal s was_revoked now else s) <$> x else x
  end.

Definition keyed (st : state) : Prop := ∀ id s, aget id (st_sessions st) = Some s → im_sessionId s = id.

Lemma put_session_keyed st s : keyed st → keyed (put_session st s).
Proof. intros H id s'. cbn. rewrite aget_aput. case_decide; [by intros [= <-]|apply H]. Qed.

Lemma start_session_Ok i id now s : start_session i id now = Ok s →
  adminKey = Some (si_maintainerAddress i) ∧ si_targetAddress i ≠ EmptyString ∧ im_sessionId s = id ∧ im_ended s = None ∧
  im_maintainerAddress s = si_maintainerAddress i ∧ now + 1000 ≤ im_expiresAt s ≤ now + 1800000 ∧
  ∃ ops, si_allowedOperations i = Some ops ∧
         im_scope s = {| is_allowedOperations := js_set ops; is_allowDangerousMutations := default false (si_allowDangerousMutations i) |}.
Proof.
  unfold start_session. destruct adminKey as [[|c key]|]; [done| |done]. case_bool_decide as Hk; [|done]. cbn [negb].
  case_decide; [done|]. case_decide; [done|]. destruct (si_allowedOperations i) as [ops|]; [|done]. intros [= <-]. cbn.
  unfold clamp_ttl, MAX_SESSION_TTL_SECONDS. split_and!; [by rewrite Hk|done..|lia|lia|]. by exists ops.
Qed.

Lemma endInternal_id s r now : im_sessionId (endInternal s r now) = im_sessionId s.
Proof. unfold endInternal. by destruct (im_ended s). Qed.

Lemma endBy_advance st id b r e now wall id' : keyed st →
  keyed (endBy st id b r e now wall).1 ∧
  aget id' (st_sessions (endBy st id b r e now wall).1) =
    if decide (id = id') then (λ s, if decide (im_maintainerAddress s = b) then endInternal s r now else s) <$> aget id' (st_sessions st)
    else aget id' (st_sessions st).
Proof.
  intros H. unfold endBy. destruct (aget id (st_sessions st)) as [s|] eqn:E.
  2:{ split; [done|]. case_decide; [subst; by rewrite E|done]. }
  case_bool_decide as Hb; cbn [negb].
  2:{ split; [done|]. case_decide; [subst id'; rewrite E; cbn; by rewrite decide_False|done]. }
  destruct (im_ended s) as [x|] eqn:Ex.
  { split; [done|]. case_decide; [subst id'; rewrite E; cbn; rewrite decide_True by done; unfold endInternal; by rewrite Ex|done]. }
  split; [by apply (put_session_keyed st)|]. cbn. rewrite endInternal_id, (H _ _ E), aget_aput.
  case_decide as H1; case_decide as H2; try congruence. subst id'. rewrite E. cbn. by rewrite decide_True.
Qed.

Lemma perform_advance st id op d now wall id' : keyed st →
  keyed (performOperation st id op d now wall).1 ∧
  aget id' (st_sessions (performOperation st id op d now wall).1) = advance id' (aget id' (st_sessions st)) (Perform id op d now wall).
Proof.
  intros H. unfold performOperation. cbn [advance]. destruct (aget id (st_sessions st)) as [s|] eqn:E.
  2:{ split; [done|]. case_decide; [subst; by rewrite E|done]. }
  destruct (im_ended s) as [[t r]|] eqn:Ex.
  { split; [done|]. case_decide; [|done]. subst id'. cbn. rewrite E. cbn. unfold endInternal. rewrite Ex. by destruct (_ <=? _). }
  destruct (im_expiresAt s <=? now) eqn:En.
  - split; [by apply (put_session_keyed st)|]. cbn. rewrite endInternal_id, (H _ _ E), aget_aput.
    case_decide as H1; case_decide as H2; try congruence. subst id'. rewrite E. cbn. by rewrite En.
  - assert (st_sessions st = st_sessions st ∧ aget id' (st_sessions st) =
      (if decide (id = id') then (λ s0, if im_expiresAt s0 <=? now then endInternal s0 ran_out now else s0) <$> aget id' (st_sessions st)
       else aget id' (st_sessions st))) as [_ Hsame].
    { split; [done|]. case_decide; [|done]. subst id'. rewrite E. cbn. by rewrite En. }
    destruct (negb _); [by split|]. by destruct (_ && _); split.
Qed.

Lemma step_advance st o id : keyed st →
  keyed (step st o) ∧ aget id (st_sessions (step st o)) = advance id (aget id (st_sessions st)) o.
Proof.
  intros H. destruct o as [i id' now wall|id' op d now wall|id' b now wall|id' b now wall]; cbn [step].
  - unfold start. cbn [advance]. destruct (start_session i id' now) as [s|e] eqn:E.
    + pose proof (start_session_Ok _ _ _ _ E) as (_ & _ & Hid & _). split; [by apply (put_session_keyed st)|].
      cbn. rewrite Hid, aget_aput. case_decide as H1; case_decide as H2; try congruence. by rewrite <- H2, E.
    + split; [done|]. case_decide; [subst; by rewrite E|done].
  - by apply perform_advance.
  - by apply endBy_advance.
  - by apply endBy_advance.
Qed.

Lemma run_keyed os : keyed (run new_state os).
Proof.
  unfold run. assert (keyed new_state) as H by done. revert H. generalize new_state.
  induction os as [|o os IH]; intros st H; [done|]. cbn. apply IH. by apply (step_advance st o EmptyString).
Qed.

(** A call that ends the session it names, if a condition holds. *)
Lemma closing id id' x s (c : ImpersonationSession → bool) r now :
  (∀ s0, x = Some s0 → im_sessionId s0 = id) →
  (if decide (id' = id) then (λ s, if c s then endInternal s r now else s) <$> x else x) = Some s ∧ im_ended s = None ↔
  x = Some s ∧ im_ended s = None ∧ bool_decide (id' = im_sessionId s) && c s = false.
Proof.
  intros Hid. case_decide as Hd.
  - destruct x as [s0|]; [|by split; intros [? _]]. cbn. specialize (Hid s0 eq_refl). split.
    + intros [Hs He]. injection Hs as Hs. destruct (c s0) eqn:Ec; [|subst s0; by rewrite Ec, andb_false_r].
      subst s. unfold endInternal in He. by destruct (im_ended s0) eqn:E0; [rewrite E0 in He|].
    + intros ([= ->] & He & Hc). rewrite bool_decide_eq_true_2 in Hc by congruence. cbn in Hc. by rewrite Hc.
  - split; [|by intros (? & ? & _)]. intros [-> He]. rewrite bool_decide_eq_false_2; [done|]. by rewrite (Hid s).
Qed.

Lemma closing_by id id' x s b r now :
  (∀ s0, x = Some s0 → im_sessionId s0 = id) →
  (if decide (id' = id) then (λ s, if decide (im_maintainerAddress s = b) then endInternal s r now else s) <$> x else x) = Some s ∧ im_ended s = None ↔
  x = Some s ∧ im_ended s = None ∧ bool_decide (id' = im_sessionId s) && bool_decide (b = im_maintainerAddress s) = false.
Proof.
  intros Hid. rewrite <- (closing id id' x s (λ s, bool_decide (b = im_maintainerAddress s)) r now Hid).
  assert ((λ s, if decide (im_maintainerAddress s = b) then endInternal s r now else s) <$> x =
          (λ s, if bool_decide (b = im_maintainerAddress s) then endInternal s r now else s) <$> x) as ->; [|done].
  destruct x as [s0|]; [|done]. cbn. by case_decide; case_bool_decide; subst.
Qed.

(** One call decides whether a session is open. *)
Lemma advance_open id x o s : (∀ s0, x = Some s0 → im_sessionId s0 = id) →
  advance id x o = Some s ∧ im_ended s = None ↔
  (∃ i now wall, o = Start i id now wall ∧ start_session i id now = Ok s) ∨
  (x = Some s ∧ im_ended s = None ∧ closes s o = false).
Proof.
  intros Hid. destruct o as [i id' now wall|id' op d now wall|id' b now wall|id' b now wall]; cbn [advance closes].
  - case_decide as Hd.
    + subst id'. destruct (start_session i id now) as [s1|] eqn:E.
      * pose proof (start_session_Ok _ _ _ _ E) as (_ & _ & _ & He & _). split.
        -- intros [[= <-] _]. left. eauto 6.
        -- intros [(i' & n' & w' & [= <- <- <-] & E')|(-> & _ & Hc)]; [by rewrite E in E'; injection E' as <-|].
           rewrite (bool_decide_eq_true_2 (id = _)) in Hc by (symmetry; by apply Hid). done.
      * rewrite andb_false_r. split; [intros [-> ?]; by right|].
        intros [(i' & n' & w' & [= <- <- <-] & E')|(-> & ? & _)]; [by rewrite E in E'|done].
    + split.
      * intros [-> ?]. right. rewrite (bool_decide_eq_false_2 (id' = _)); [done|]. by rewrite (Hid s).
      * intros [(i' & n' & w' & [= <- -> <- <-] & E')|(-> & ? & _)]; done.
  - rewrite (closing id id' x s (λ s, im_expiresAt s <=? now)) by done. split; [by right|]. by intros [(? & ? & ? & [=] & _)|?].
  - rewrite (closing_by id id' x s b) by done. split; [by right|]. by intros [(? & ? & ? & [=] & _)|?].
  - rewrite (closing_by id id' x s b) by done. split; [by right|]. by intros [(? & ? & ? & [=] & _)|?].
Qed.

(** A session is open exactly when it was started and no call has closed it since. *)
Lemma open_history os id s :
  aget id (st_sessions (run new_state os)) = Some s ∧ im_ended s = None ↔
  ∃ os1 i t w os2, os = os1 ++ Start i id t w :: os2 ∧ start_session i id t = Ok s ∧ Forall (λ o, closes s o = false) os2.
Proof.
  induction os as [|o os IH] using rev_ind.
  - split; [by intros [? _]|]. intros (os1 & i & t & w & os2 & E & _). by destruct os1.
  - pose proof (run_keyed os) as Hk. unfold run in *. rewrite foldl_app. cbn [foldl].
    rewrite (proj2 (step_advance _ o id Hk)), advance_open by (by apply Hk). split.
    + intros [(i & now & wall & -> & E)|(Hx & He & Hc)].
      * by exists os, i, now, wall, [].
      * destruct (proj1 IH (conj Hx He)) as (os1 & i & t & w & os2 & -> & E & Hf). exists os1, i, t, w, (os2 ++ [o]).
        rewrite <- app_assoc. split_and!; [done..|]. apply Forall_app. split; [done|]. by constructor.
    + intros (os1 & i & t & w & os2 & E & Hs & Hf). destruct os2 as [|o2 os2 _] using rev_ind.
      * apply app_inj_tail in E as [-> ->]. left. eauto 6.
      * rewrite app_comm_cons, app_assoc in E. apply app_inj_tail in E as [-> ->]. apply Forall_app in Hf as [Hf Hc].
        right. inversion Hc; subst. destruct (proj2 IH) as [Hx He]; [by exists os1, i, t, w, os2|done].
Qed.

(** C37: an impersonated operation is allowed exactly when the configured administrator started
    the session with a list that names the operation (and, for a dangerous one, with the
    explicit grant), the expiry of at most thirty minutes later has not come, and since then
    the maintainer has neither ended nor revoked the session and no call has found it expired,
    in every sequence of calls. *)
Theorem impersonation_confined os id op dangerous now wall :
  allowed (performOperation (run new_state os) id op dangerous now wall).2 = true ↔
  ∃ os1 i t w os2 s ops,
    os = os1 ++ Start i id t w :: os2 ∧ start_session i id t = Ok s ∧
    adminKey = Some (si_maintainerAddress i) ∧ im_maintainerAddress s = si_maintainerAddress i ∧
    si_allowedOperations i = Some ops ∧ op ∈ ops ∧
    (dangerous = true → si_allowDangerousMutations i = Some true) ∧
    t + 1000 ≤ im_expiresAt s ≤ t + 1800000 ∧ now < im_expiresAt s ∧
    Forall (λ o, closes s o = false) os2.
Proof.
  unfold performOperation. split.
  - destruct (aget id _) as [s|] eqn:E; [|done]. destruct (im_ended s) as [[]|] eqn:Ee.
    { cbn. by destruct (endedDenial s). }
    destruct (Z.leb_spec (im_expiresAt s) now) as [|Hn]; [done|].
    destruct (proj1 (open_history os id s) (conj E Ee)) as (os1 & i & t & w & os2 & -> & Hs & Hf).
    destruct (start_session_Ok _ _ _ _ Hs) as (Hk & _ & _ & _ & Hm & Hx & ops & Ho & Hsc). rewrite Hsc. cbn [is_allowedOperations is_allowDangerousMutations].
    case_bool_decide as Hop; cbn [negb]; [|done]. destruct (_ && _) eqn:Hd; [done|]. intros _.
    exists os1, i, t, w, os2, s, ops. split_and!; try (done || lia); [by apply elem_of_js_set|].
    intros ->. cbn in Hd. by destruct (si_allowDangerousMutations i) as [[]|].
  - intros (os1 & i & t & w & os2 & s & ops & Eo & Hs & _ & _ & Ho & Hop & Hd & _ & Hn & Hf).
    destruct (proj2 (open_history os id s)) as [E Ee]; [by exists os1, i, t, w, os2|]. rewrite E, Ee.
    rewrite (proj2 (Z.leb_gt _ _)) by done. destruct (start_session_Ok _ _ _ _ Hs) as (_ & _ & _ & _ & _ & _ & ops' & Ho' & Hsc).
    rewrite Ho in Ho'. injection Ho' as <-. rewrite Hsc. cbn [is_allowedOperations is_allowDangerousMutations].
    rewrite bool_decide_eq_true_2 by (by apply elem_of_js_set). cbn [negb].
    destruct dangerous; cbn [andb]; [|done]. by rewrite (Hd eq_refl).
Qed.

(** The audit list never holds more than 5000 events. *)
Lemma audit_bounded st s e op detail wall :
  (length (st_auditEvents st) ≤ MAX_AUDIT_EVENTS → length (st_auditEvents (audit st s e op detail wall)) ≤ MAX_AUDIT_EVENTS)%nat.
Proof.
  intros H. unfold audit. cbn [st_auditEvents]. rewrite length_app. cbn [length].
  destruct (Nat.leb_spec MAX_AUDIT_EVENTS (length (st_auditEvents st))); [destruct (st_auditEvents st); cbn in *|]; unfold MAX_AUDIT_EVENTS in *; lia.
Qed.

(** The denial of an operation in a session that does not exist leaves no trace, although
    every denial is to be audited. *)
Lemma unknown_session_silent st op d now wall : aget "none" (st_sessions st) = None →
  performOperation st "none" op d now wall = (st, deny no_active_session "no such impersonation session").
Proof. unfold performOperation. by intros ->. Qed.
End Service.

Example session_lifetime :
  let i := {| si_maintainerAddress := "GADMIN"; si_targetAddress := "GUSER"; si_allowedOperations := Some ["portfolio.read"];
              si_allowDangerousMutations := None; si_reason := Some "ticket 7"; si_ttlSeconds := Some (QArith_base.Qmake 1000000 3) |} in
  let may os now := allowed (performOperation (run (Some "GADMIN") new_state os) "s1" "portfolio.read" false now now).2 in
  let opened := Start i "s1" 0 0 in
  may [opened] 1799999 = true ∧ may [opened] 1800000 = false ∧ may [opened; End_ "s1" "GUSER" 5 5] 6 = true ∧
  may [opened; Revoke "s1" "GADMIN" 5 5] 6 = false.
Proof. by vm_compute. Qed.
