(* ===== verification/Compliance.v ===== *)
(** * Investor eligibility

    Models [api/src/compliance/]: sanctions screening ([sanctions.service.ts]), the
    versioned rulesets and their evaluation ([rules/default-ruleset.ts],
    [compliance-rules.engine.ts]), signed eligibility attestations
    ([compliance-attestation.service.ts]), with the check that a subscription goes through
    in [bonds/bonds.service.ts].

    The hash, the signature scheme and the clock are arguments; Ed25519 is assumed only
    to accept what it signed.  Jurisdiction codes are none of the names that every object
    has.  An amount that is no integer makes [BigInt] throw, which is an error here.

    Shown: who is eligible, and that a refusal names the first rule that failed
    ([eligibility_exact]); a transfer needs both ends to be clean
    ([transfer_exact]); a holder who a rule change makes non-compliant has the whole
    grace period ([grace_period_exact]); an attestation that the service issued is
    accepted until it expires and only for what it was issued for
    ([attestation_roundtrip]).  Where the code falls short:
    [forged_attestation_accepted], [forged_subscription_accepted],
    [minimum_kyc_ignored], [expiry_instant_eligible], [canonical_rules_differ]. *)
From S2P Require Import Prelude JsDate Json JsonParse Ndjson JsonIndent KycStore.

(** ** Data *)

Inductive TrancheType := STANDARD | RESTRICTED_ACCREDITED | GREEN_INSTITUTIONAL.
#[export] Instance TrancheType_eq_dec : EqDecision TrancheType.
Proof. solve_decision. Defined.

Definition tranche_text (t : TrancheType) : string :=
  match t with
  | STANDARD => "STANDARD" | RESTRICTED_ACCREDITED => "RESTRICTED_ACCREDITED"
  | GREEN_INSTITUTIONAL => "GREEN_INSTITUTIONAL"
  end.

(** [jr_capAppended]: the cap was added to a rule that had none, so that it is the last
    property of the object. *)
Record JurisdictionRule := {
  jr_jurisdiction : string;
  jr_name : string;
  jr_allowedTranches : list TrancheType;
  jr_minimumKycStatus : KycStatus;
  jr_requireAccreditationForRestricted : bool;
  jr_maxRetailOfferingCap : option string;
  jr_requiresSanctionsCheck : bool;
  jr_isSanctionedOrEmbargoed : bool;
  jr_capAppended : bool;
}.

Record VersionedRuleset := {
  vr_version : string;
  vr_effectiveDate : string;
  vr_auditHash : string;
  vr_jurisdictions : list (string * JurisdictionRule);
  vr_defaultRule : JurisdictionRule;
}.

Record kyc_view := { kv_status : KycStatus; kv_expiresAt : option Z }.

Record EligibilityEvaluationContext := {
  cx_investorAddress : string;
  cx_jurisdiction : string;
  cx_tranche : option TrancheType;
  cx_bondId : Z;
  cx_purchaseAmount : option string;
  cx_kycRecord : option kyc_view;
}.

Record EvaluatedRuleResult := { er_ruleName : string; er_passed : bool; er_reason : option string }.

Inductive eligibility_code :=
| ELIGIBLE | ACCREDITATION_REQUIRED | SANCTIONED_ADDRESS | SANCTIONED_JURISDICTION | KYC_REQUIRED | KYC_EXPIRED
| OFFERING_CAP_EXCEEDED | TRANCHE_NOT_PERMITTED.
#[export] Instance eligibility_code_eq_dec : EqDecision eligibility_code.
Proof. solve_decision. Defined.

Record EligibilityDecision := {
  de_eligible : bool;
  de_code : eligibility_code;
  de_reason : option string;
  de_rulesetVersion : string;
  de_jurisdiction : string;
  de_tranche : TrancheType;
  de_requiresAttestation : bool;
  de_evaluatedRules : list EvaluatedRuleResult;
}.

(** ** Sanctions *)

Record sanctions := {
  sn_addresses : list string;
  sn_countries : list string;
  sn_lastRefreshedAt : Z;
  sn_maxStalenessHours : Z;
  sn_alertRaised : bool;
}.

Definition SEED_SANCTIONED_COUNTRIES : list string := ["KP"; "IR"; "CU"; "SY"; "RU-DNR"; "RU-LNR"].

Definition isStale (now : Z) (s : sanctions) : bool :=
  sn_maxStalenessHours s * 3600000 <=? now - sn_lastRefreshedAt s.

Definition set_alert (s : sanctions) (b : bool) : sanctions :=
  {| sn_addresses := sn_addresses s; sn_countries := sn_countries s; sn_lastRefreshedAt := sn_lastRefreshedAt s;
     sn_maxStalenessHours := sn_maxStalenessHours s; sn_alertRaised := b |}.

Definition checkAndAlertStaleness (now : Z) (s : sanctions) : sanctions * bool :=
  let stale := isStale now s in (set_alert s stale, stale).

(** The list a hit is on: that of addresses or that of countries. *)
Inductive sanctions_hit := SdnAddress | Comprehensive.

Definition checkSanctions (now : Z) (s : sanctions) (address country : string) : sanctions * option (sanctions_hit * string) :=
  let s := (checkAndAlertStaleness now s).1 in
  (s,
   if bool_decide (address ∈ sn_addresses s) then
     Some (SdnAddress, "Wallet address " +:+ address +:+ " is listed on active sanctions lists.")
   else if negb (bool_decide (country = EmptyString)) && bool_decide (toUpperCase country ∈ sn_countries s) then
     Some (Comprehensive, "Jurisdiction " +:+ toUpperCase country +:+
                          " is subject to comprehensive international sanctions/embargo.")
   else None).

Definition isSanctioned (s : sanctions) (address : string) : bool := bool_decide (address ∈ sn_addresses s).

Definition set_add (x : string) (l : list string) : list string := if bool_decide (x ∈ l) then l else l ++ [x].

Definition addSanctionedAddress (s : sanctions) (a : string) : sanctions :=
  {| sn_addresses := set_add a (sn_addresses s); sn_countries := sn_countries s;
     sn_lastRefreshedAt := sn_lastRefreshedAt s; sn_maxStalenessHours := sn_maxStalenessHours s;
     sn_alertRaised := sn_alertRaised s |}.

Definition refreshSanctionsList (now : Z) (s : sanctions) (addresses countries : list string) (at_ : option Z) : sanctions :=
  {| sn_addresses := foldl (λ l a, set_add a l) (sn_addresses s) addresses;
     sn_countries := foldl (λ l c, set_add (toUpperCase c) l) (sn_countries s) countries;
     sn_lastRefreshedAt := default now at_; sn_maxStalenessHours := sn_maxStalenessHours s; sn_alertRaised := false |}.

(** ** Rulesets *)

Definition rule_json (r : JurisdictionRule) : json :=
  let cap := jfield "maxRetailOfferingCap" (JStr <$> jr_maxRetailOfferingCap r) in
  JObj ([ ("jurisdiction", JStr (jr_jurisdiction r)); ("name", JStr (jr_name r));
          ("allowedTranches", JArr ((λ t, JStr (tranche_text t)) <$> jr_allowedTranches r));
          ("minimumKycStatus", JStr (kyc_text (jr_minimumKycStatus r)));
          ("requireAccreditationForRestricted", JBool (jr_requireAccreditationForRestricted r)) ] ++
        (if jr_capAppended r then [] else cap) ++
        [ ("requiresSanctionsCheck", JBool (jr_requiresSanctionsCheck r));
          ("isSanctionedOrEmbargoed", JBool (jr_isSanctionedOrEmbargoed r)) ] ++
        (if jr_capAppended r then cap else [])).

Section engine.
Context (sha256 : string → string).

Definition computeRulesetAuditHash (version effectiveDate : string) (js : list (string * JurisdictionRule))
    (d : JurisdictionRule) : string :=
  sha256 (JSON_stringify (JObj
    [ ("version", JStr version); ("effectiveDate", JStr effectiveDate);
      ("jurisdictions", JObj ((λ k, (k, from_option rule_json JNull (aget k js))) <$> merge_sort str_le js.*1));
      ("defaultRule", rule_json d) ])).

Definition retail_rule (code name : string) (green : bool) (cap : string) : JurisdictionRule :=
  {| jr_jurisdiction := code; jr_name := name;
     jr_allowedTranches := [STANDARD; RESTRICTED_ACCREDITED] ++ (if green then [GREEN_INSTITUTIONAL] else []);
     jr_minimumKycStatus := VERIFIED; jr_requireAccreditationForRestricted := true;
     jr_maxRetailOfferingCap := Some cap; jr_requiresSanctionsCheck := true; jr_isSanctionedOrEmbargoed := false;
     jr_capAppended := false |}.
Definition embargo_rule (code name : string) : JurisdictionRule :=
  {| jr_jurisdiction := code; jr_name := name; jr_allowedTranches := []; jr_minimumKycStatus := ACCREDITED;
     jr_requireAccreditationForRestricted := true; jr_maxRetailOfferingCap := None;
     jr_requiresSanctionsCheck := true; jr_isSanctionedOrEmbargoed := true; jr_capAppended := false |}.

Definition JURISDICTIONS : list (string * JurisdictionRule) :=
  [ ("US", retail_rule "US" "United States (SEC Reg D / Reg S)" false "10000");
    ("EU", retail_rule "EU" "European Union (MiFID II / Prospectus Reg)" true "25000");
    ("SG", retail_rule "SG" "Singapore (MAS SFA Regulated)" false "20000");
    ("GB", retail_rule "GB" "United Kingdom (FCA FSMA)" true "25000");
    ("KP", embargo_rule "KP" "North Korea (OFAC Embargoed)");
    ("IR", embargo_rule "IR" "Iran (OFAC Embargoed)") ].

Definition DEFAULT_RULE : JurisdictionRule :=
  retail_rule "GLOBAL" "Standard International Jurisdiction Fallback" false "10000".

Definition CANONICAL_RULESET_V2026_1 : VersionedRuleset :=
  {| vr_version := "2026.1"; vr_effectiveDate := "2026-09-01T00:00:00.000Z";
     vr_auditHash := computeRulesetAuditHash "2026.1" "2026-09-01T00:00:00.000Z" JURISDICTIONS DEFAULT_RULE;
     vr_jurisdictions := JURISDICTIONS; vr_defaultRule := DEFAULT_RULE |}.

Record engine := {
  en_rulesets : list (string * VersionedRuleset);
  en_activeVersion : string;
  en_sanctions : sanctions;
}.

Definition registerRuleset (e : engine) (r : VersionedRuleset) : engine :=
  {| en_rulesets := aput (vr_version r) r (en_rulesets e); en_activeVersion := en_activeVersion e;
     en_sanctions := en_sanctions e |}.

Definition new_engine (s : sanctions) : engine :=
  {| en_rulesets := [("2026.1", CANONICAL_RULESET_V2026_1)]; en_activeVersion := "2026.1"; en_sanctions := s |}.

(** The active version always is a registered one ([engine_ok]). *)
Definition getActiveRuleset (e : engine) : VersionedRuleset :=
  default CANONICAL_RULESET_V2026_1 (aget (en_activeVersion e) (en_rulesets e)).

Definition getRuleset (e : engine) (version : option string) : VersionedRuleset :=
  match truthy version with
  | Some v => default (getActiveRuleset e) (aget v (en_rulesets e))
  | None => getActiveRuleset e
  end.

Definition getJurisdictionRule (e : engine) (jurisdiction : string) (version : option string) : JurisdictionRule :=
  let r := getRuleset e version in default (vr_defaultRule r) (aget (toUpperCase jurisdiction) (vr_jurisdictions r)).

(** *** Evaluating an investor *)

Definition pass (name : string) : EvaluatedRuleResult :=
  {| er_ruleName := name; er_passed := true; er_reason := None |}.
Definition fail (name reason : string) : EvaluatedRuleResult :=
  {| er_ruleName := name; er_passed := false; er_reason := Some reason |}.

Definition decided (e : engine) (jurisdiction : string) (tranche : TrancheType) (code : eligibility_code)
    (reason : option string) (requiresAttestation : bool) (rules : list EvaluatedRuleResult) : EligibilityDecision :=
  {| de_eligible := bool_decide (code = ELIGIBLE); de_code := code; de_reason := reason;
     de_rulesetVersion := vr_version (getActiveRuleset e); de_jurisdiction := jurisdiction; de_tranche := tranche;
     de_requiresAttestation := requiresAttestation; de_evaluatedRules := rules |}.

Definition verified_or_better (k : KycStatus) : bool := bool_decide (k = VERIFIED) || bool_decide (k = ACCREDITED).

(** The offering cap: [None] when there is nothing to compare, otherwise whether the
    amount is above the cap. *)
Definition over_cap (rule : JurisdictionRule) (k : KycStatus) (amount : option string) :
    result string (option (Z * Z * bool)) :=
  match bool_decide (k = ACCREDITED), truthy (jr_maxRetailOfferingCap rule), truthy amount with
  | false, Some cap, Some a =>
      match BigInt_of_string cap, BigInt_of_string a with
      | Some c, Some n => Ok (Some (n, c, c <? n))
      | _, _ => Err "SyntaxError: Cannot convert to a BigInt"
      end
  | _, _, _ => Ok None
  end.

(** The rules in order, each with what passed before it. *)
Definition check_rules (e : engine) (now : Z) (hit : option (sanctions_hit * string)) (cx : EligibilityEvaluationContext)
    (jurisdiction : string) (tranche : TrancheType) (rule : JurisdictionRule) : result string EligibilityDecision :=
  let refuse code reason rules := Ok (decided e jurisdiction tranche code (Some reason) false rules) in
  match hit with
  | Some (list, reason) =>
      refuse (match list with Comprehensive => SANCTIONED_JURISDICTION | SdnAddress => SANCTIONED_ADDRESS end) reason
        [fail "SANCTIONS_SCREENING" reason]
  | None =>
  let rules := [pass "SANCTIONS_SCREENING"] in
  if jr_isSanctionedOrEmbargoed rule then
    refuse SANCTIONED_JURISDICTION ("Jurisdiction " +:+ jurisdiction +:+ " is blocked under international sanctions.")
      (rules ++ [fail "EMBARGOED_JURISDICTION_CHECK" ("Jurisdiction " +:+ jurisdiction +:+ " is blocked from all offerings.")])
  else
  let rules := rules ++ [pass "EMBARGOED_JURISDICTION_CHECK"] in
  if negb (bool_decide (tranche ∈ jr_allowedTranches rule)) then
    refuse TRANCHE_NOT_PERMITTED
      ("Tranche " +:+ tranche_text tranche +:+ " cannot be offered to investors in " +:+ jurisdiction +:+ ".")
      (rules ++ [fail "TRANCHE_ALLOWED_FOR_JURISDICTION"
        ("Tranche " +:+ tranche_text tranche +:+ " is not permitted for offering in jurisdiction " +:+ jurisdiction +:+ ".")])
  else
  let rules := rules ++ [pass "TRANCHE_ALLOWED_FOR_JURISDICTION"] in
  let kycStatus := from_option kv_status NONE (cx_kycRecord cx) in
  let expired := match cx_kycRecord cx ≫= kv_expiresAt with
                 | Some x => negb (x =? 0) && (x <? now)
                 | None => false
                 end in
  if expired then
    let reason := "KYC verification has expired; re-verification is required." in
    refuse KYC_EXPIRED reason (rules ++ [fail "KYC_EXPIRATION_CHECK" reason])
  else
  let rules := rules ++ [pass "KYC_EXPIRATION_CHECK"] in
  if negb (verified_or_better kycStatus) then
    refuse KYC_REQUIRED ("KYC verification is required before investing in bond " +:+ Z_to_string (cx_bondId cx) +:+ ".")
      (rules ++ [fail "MINIMUM_KYC_STATUS_CHECK"
        ("Requires completed KYC verification (Current: " +:+ kyc_text kycStatus +:+ ").")])
  else
  let rules := rules ++ [pass "MINIMUM_KYC_STATUS_CHECK"] in
  let restricted := bool_decide (tranche = RESTRICTED_ACCREDITED) in
  if restricted && jr_requireAccreditationForRestricted rule && negb (bool_decide (kycStatus = ACCREDITED)) then
    Ok (decided e jurisdiction tranche ACCREDITATION_REQUIRED
      (Some ("Investor does not have accredited status required for restricted tranche " +:+ tranche_text tranche +:+
             " in " +:+ jurisdiction +:+ ".")) true
      (rules ++ [fail "ACCREDITED_INVESTOR_REQUIREMENT"
        ("Tranche " +:+ tranche_text tranche +:+ " in jurisdiction " +:+ jurisdiction +:+
         " requires accredited investor status.")]))
  else
  let rules := rules ++ (if restricted && jr_requireAccreditationForRestricted rule
                         then [pass "ACCREDITED_INVESTOR_REQUIREMENT"] else []) in
  cap ← over_cap rule kycStatus (cx_purchaseAmount cx);
  match cap with
  | Some (amount, cap, true) =>
      refuse OFFERING_CAP_EXCEEDED
        ("Investment amount " +:+ Z_to_string amount +:+ " exceeds the non-accredited investor cap of " +:+
         Z_to_string cap +:+ " for " +:+ jurisdiction +:+ ".")
        (rules ++ [fail "RETAIL_OFFERING_CAP_CHECK"
          ("Purchase amount " +:+ Z_to_string amount +:+ " exceeds jurisdiction retail cap " +:+ Z_to_string cap +:+ ".")])
  | Some (_, _, false) =>
      Ok (decided e jurisdiction tranche ELIGIBLE None restricted (rules ++ [pass "RETAIL_OFFERING_CAP_CHECK"]))
  | None => Ok (decided e jurisdiction tranche ELIGIBLE None restricted rules)
  end
  end.

Definition with_sanctions (e : engine) (s : sanctions) : engine :=
  {| en_rulesets := en_rulesets e; en_activeVersion := en_activeVersion e; en_sanctions := s |}.

Definition evaluateEligibility (now : Z) (e : engine) (cx : EligibilityEvaluationContext) :
    engine * result string EligibilityDecision :=
  let jurisdiction := toUpperCase (default "GLOBAL" (truthy (Some (cx_jurisdiction cx)))) in
  let tranche := default STANDARD (cx_tranche cx) in
  let rule := getJurisdictionRule e jurisdiction (Some (vr_version (getActiveRuleset e))) in
  let '(s, hit) := checkSanctions now (en_sanctions e) (cx_investorAddress cx) jurisdiction in
  (with_sanctions e s, check_rules e now hit cx jurisdiction tranche rule).

(** *** Changing the rules *)

Record rule_patch := {
  rp_name : option string;
  rp_allowedTranches : option (list TrancheType);
  rp_minimumKycStatus : option KycStatus;
  rp_requireAccreditationForRestricted : option bool;
  rp_maxRetailOfferingCap : option string;
  rp_requiresSanctionsCheck : option bool;
  rp_isSanctionedOrEmbargoed : option bool;
}.

Definition patched (r : JurisdictionRule) (p : rule_patch) (upper : string) : JurisdictionRule :=
  {| jr_jurisdiction := upper; jr_name := default (jr_name r) (rp_name p);
     jr_allowedTranches := default (jr_allowedTranches r) (rp_allowedTranches p);
     jr_minimumKycStatus := default (jr_minimumKycStatus r) (rp_minimumKycStatus p);
     jr_requireAccreditationForRestricted :=
       default (jr_requireAccreditationForRestricted r) (rp_requireAccreditationForRestricted p);
     jr_maxRetailOfferingCap := orelse (rp_maxRetailOfferingCap p) (jr_maxRetailOfferingCap r);
     jr_requiresSanctionsCheck := default (jr_requiresSanctionsCheck r) (rp_requiresSanctionsCheck p);
     jr_isSanctionedOrEmbargoed := default (jr_isSanctionedOrEmbargoed r) (rp_isSanctionedOrEmbargoed p);
     jr_capAppended := match jr_maxRetailOfferingCap r with
                       | None => match rp_maxRetailOfferingCap p with Some _ => true | None => jr_capAppended r end
                       | Some _ => jr_capAppended r
                       end |}.

Definition updateJurisdictionRule (now : Z) (e : engine) (jurisdiction : string) (p : rule_patch) :
    engine * VersionedRuleset :=
  let active := getActiveRuleset e in
  let upper := toUpperCase jurisdiction in
  let rule := getJurisdictionRule e upper (Some (vr_version active)) in
  let js := aput upper (patched rule p upper) (vr_jurisdictions active) in
  let version := vr_version active +:+ ".upd" in
  let r := {| vr_version := version; vr_effectiveDate := iso_text now;
              vr_auditHash := computeRulesetAuditHash version (iso_text now) js (vr_defaultRule active);
              vr_jurisdictions := js; vr_defaultRule := vr_defaultRule active |} in
  let e := registerRuleset e r in
  ({| en_rulesets := en_rulesets e; en_activeVersion := version; en_sanctions := en_sanctions e |}, r).

(** *** Transfers and holders *)

Record TransferEligibilityContext := {
  tc_fromAddress : string;
  tc_toAddress : string;
  tc_fromJurisdiction : string;
  tc_toJurisdiction : string;
  tc_bondId : Z;
  tc_tranche : TrancheType;
  tc_amount : string;
  tc_toKycRecord : option kyc_view;
}.

Definition recipient_context (c : TransferEligibilityContext) : EligibilityEvaluationContext :=
  {| cx_investorAddress := tc_toAddress c; cx_jurisdiction := tc_toJurisdiction c; cx_tranche := Some (tc_tranche c);
     cx_bondId := tc_bondId c; cx_purchaseAmount := Some (tc_amount c); cx_kycRecord := tc_toKycRecord c |}.

Definition evaluateTransferEligibility (now : Z) (e : engine) (c : TransferEligibilityContext) :
    engine * result string EligibilityDecision :=
  match evaluateEligibility now e (recipient_context c) with
  | (e, Err x) => (e, Err x)
  | (e, Ok d) =>
      if negb (de_eligible d) then
        (e, Ok {| de_eligible := false; de_code := de_code d;
                  de_reason := Some ("Secondary transfer recipient non-compliant: " +:+
                                     default "undefined" (de_reason d));
                  de_rulesetVersion := de_rulesetVersion d; de_jurisdiction := de_jurisdiction d;
                  de_tranche := de_tranche d; de_requiresAttestation := de_requiresAttestation d;
                  de_evaluatedRules := de_evaluatedRules d |})
      else
        let '(s, hit) := checkSanctions now (en_sanctions e) (tc_fromAddress c) (tc_fromJurisdiction c) in
        (with_sanctions e s,
         match hit with
         | Some (_, reason) =>
             Ok {| de_eligible := false; de_code := SANCTIONED_ADDRESS;
                   de_reason := Some ("Secondary transfer sender is sanctioned: " +:+ reason);
                   de_rulesetVersion := en_activeVersion e; de_jurisdiction := tc_fromJurisdiction c;
                   de_tranche := tc_tranche c; de_requiresAttestation := false;
                   de_evaluatedRules := [fail "SENDER_SANCTIONS_CHECK" reason] |}
         | None => Ok d
         end)
  end.

Inductive PostRuleChangeComplianceStatus := COMPLIANT | NON_COMPLIANT_GRACE_PERIOD | NON_COMPLIANT_EXPIRED.

Record PostRuleChangeComplianceCheck := {
  pc_status : PostRuleChangeComplianceStatus;
  pc_gracePeriodExpiresAt : option Z;
  pc_forcedSaleWindowDays : option Z;
  pc_violations : list EvaluatedRuleResult;
}.

Record holder_context := {
  hc_holderAddress : string;
  hc_jurisdiction : string;
  hc_bondId : Z;
  hc_tranche : TrancheType;
  hc_holdingAmount : string;
  hc_acquired : Z;
  hc_ruleChanged : option Z;
  hc_gracePeriodDays : option Z;
  hc_kycRecord : option kyc_view;
}.

Definition evaluatePostRuleChangeCompliance (now : Z) (e : engine) (h : holder_context) :
    engine * result string PostRuleChangeComplianceCheck :=
  let '(e, r) := evaluateEligibility now e
    {| cx_investorAddress := hc_holderAddress h; cx_jurisdiction := hc_jurisdiction h; cx_tranche := Some (hc_tranche h);
       cx_bondId := hc_bondId h; cx_purchaseAmount := Some (hc_holdingAmount h); cx_kycRecord := hc_kycRecord h |} in
  (e,
   d ← r;
   if de_eligible d then
     Ok {| pc_status := COMPLIANT; pc_gracePeriodExpiresAt := None; pc_forcedSaleWindowDays := None; pc_violations := [] |}
   else
     let graceDays := default 30 (hc_gracePeriodDays h) in
     let expires := default (hc_acquired h) (hc_ruleChanged h) + graceDays * 86400 * 1000 in
     Ok {| pc_status := if now <? expires then NON_COMPLIANT_GRACE_PERIOD else NON_COMPLIANT_EXPIRED;
           pc_gracePeriodExpiresAt := Some expires; pc_forcedSaleWindowDays := Some graceDays;
           pc_violations := filter (λ r, er_passed r = false) (de_evaluatedRules d) |}).
End engine.

(** ** Attestations *)

Record EligibilityAttestationPayload := {
  ap_investorAddress : string;
  ap_bondId : Z;
  ap_tranche : TrancheType;
  ap_jurisdiction : string;
  ap_kycStatus : KycStatus;
  ap_rulesetVersion : string;
  ap_issuedAt : Z;
  ap_expiresAt : Z;
  ap_nonce : string;
}.

Record SignedEligibilityAttestation := {
  sa_payload : EligibilityAttestationPayload;
  sa_signature : string;
  sa_signerPublicKey : string;
}.

(** The signature scheme.  Checking a signature throws on a malformed public key. *)
Class SignatureScheme := {
  public_key : string → string;
  sign : string → string → string;
  verify_signature : string → string → string → result string bool;
}.
Class SignatureLaws `{SignatureScheme} := {
  sign_verifies sk m : verify_signature (public_key sk) m (sign sk m) = Ok true;
  public_key_nonempty sk : public_key sk ≠ EmptyString;
  sign_nonempty sk m : sign sk m ≠ EmptyString;
}.

Section attestations.
Context (sha256 : string → string) `{SignatureScheme}.

Definition attestationTtlSeconds : Z := 3600.

Definition serializePayload (p : EligibilityAttestationPayload) : string :=
  JSON_stringify (JObj
    [ ("bondId", jint (ap_bondId p)); ("expiresAt", jint (ap_expiresAt p));
      ("investorAddress", JStr (ap_investorAddress p)); ("issuedAt", jint (ap_issuedAt p));
      ("jurisdiction", JStr (ap_jurisdiction p)); ("kycStatus", JStr (kyc_text (ap_kycStatus p)));
      ("nonce", JStr (ap_nonce p)); ("rulesetVersion", JStr (ap_rulesetVersion p));
      ("tranche", JStr (tranche_text (ap_tranche p))) ]).

Record attestation_request := {
  rq_investorAddress : string;
  rq_bondId : Z;
  rq_tranche : option TrancheType;
  rq_jurisdiction : option string;
  rq_purchaseAmount : option string;
}.

Definition issueAttestation (secret : string) (now : Z) (e : engine) (kyc : option KycRecord) (i : attestation_request)
    (nonce : string) : engine * result string SignedEligibilityAttestation :=
  let tranche := default STANDARD (rq_tranche i) in
  let jurisdiction := toUpperCase (default "US" (truthy (rq_jurisdiction i))) in
  match kyc with
  | None => (e, Err ("No KYC record found for address: " +:+ rq_investorAddress i))
  | Some k =>
      let '(e, r) := evaluateEligibility sha256 now e
        {| cx_investorAddress := rq_investorAddress i; cx_jurisdiction := jurisdiction; cx_tranche := Some tranche;
           cx_bondId := rq_bondId i; cx_purchaseAmount := rq_purchaseAmount i;
           cx_kycRecord := Some {| kv_status := kr_status k; kv_expiresAt := kr_expiresAt k |} |} in
      (e,
       d ← r;
       if negb (de_eligible d) then Err "Investor eligibility evaluation failed"
       else
         let p := {| ap_investorAddress := rq_investorAddress i; ap_bondId := rq_bondId i; ap_tranche := tranche;
                     ap_jurisdiction := jurisdiction; ap_kycStatus := kr_status k;
                     ap_rulesetVersion := de_rulesetVersion d; ap_issuedAt := now / 1000;
                     ap_expiresAt := now / 1000 + attestationTtlSeconds; ap_nonce := nonce |} in
         Ok {| sa_payload := p; sa_signature := sign secret (serializePayload p);
               sa_signerPublicKey := public_key secret |})
  end.

Record verification_context := {
  vc_expectedInvestor : string;
  vc_expectedBondId : Z;
  vc_expectedTranche : option TrancheType;
}.

Definition verifyAttestation (secret : string) (now : Z) (a : SignedEligibilityAttestation) (c : verification_context) :
    result string unit :=
  let p := sa_payload a in
  if bool_decide (sa_signature a = EmptyString) then Err "Attestation payload or signature is missing"
  else if negb (bool_decide (ap_investorAddress p = vc_expectedInvestor c)) then Err "Attestation investor does not match"
  else if negb (ap_bondId p =? vc_expectedBondId c) then Err "Attestation bondId does not match"
  else if match vc_expectedTranche c with Some t => negb (bool_decide (ap_tranche p = t)) | None => false end then
    Err "Attestation tranche does not match"
  else if ap_expiresAt p <=? now / 1000 then Err "Attestation expired"
  else
    match verify_signature (default (public_key secret) (truthy (Some (sa_signerPublicKey a)))) (serializePayload p)
            (sa_signature a) with
    | Ok true => Ok tt
    | Ok false => Err "Cryptographic signature verification failed"
    | Err m => Err ("Signature verification error: " +:+ m)
    end.

(** *** The check of a subscription *)

Record SubscribeDto := {
  sb_amount : Z;
  sb_investorAddress : string;
  sb_tranche : option TrancheType;
  sb_jurisdiction : option string;
  sb_attestation : option SignedEligibilityAttestation;
}.

Definition verifySubscriptionEligibility (secret : string) (now : Z) (e : engine) (bondId : Z) (d : SubscribeDto) :
    engine * result string unit :=
  let cx := {| vc_expectedInvestor := sb_investorAddress d; vc_expectedBondId := bondId;
               vc_expectedTranche := sb_tranche d |} in
  if isSanctioned (en_sanctions e) (sb_investorAddress d) then (e, Err "Investor address is blocked under active sanctions screening")
  else
    match (match sb_attestation d with
           | None => throw_if (bool_decide (sb_tranche d = Some RESTRICTED_ACCREDITED))
                       "Restricted tranche requires a signed eligibility attestation issued after KYC completion"
           | Some a => verifyAttestation secret now a cx
           end) with
    | Err m => (e, Err m)
    | Ok _ =>
        match truthy (sb_jurisdiction d), sb_attestation d with
        | None, None => (e, Ok tt)
        | j, a =>
            let jurisdiction := default (default "GLOBAL" (truthy ((λ a, ap_jurisdiction (sa_payload a)) <$> a))) j in
            let '(e, r) := evaluateEligibility sha256 now e
              {| cx_investorAddress := sb_investorAddress d; cx_jurisdiction := jurisdiction;
                 cx_tranche := Some (default STANDARD (sb_tranche d)); cx_bondId := bondId;
                 cx_purchaseAmount := Some (Z_to_string (sb_amount d));
                 cx_kycRecord := (λ a, {| kv_status := ap_kycStatus (sa_payload a); kv_expiresAt := None |}) <$> a |} in
            (e, d ← r; throw_if (negb (de_eligible d)) "Investor eligibility check failed")
        end
    end.
End attestations.

(** ** Who is eligible *)

Section rules.
Context (sha256 : string → string).

(** The active version is that of a registered ruleset. *)
Definition engine_ok (e : engine) : Prop :=
  ∃ r, aget (en_activeVersion e) (en_rulesets e) = Some r ∧ vr_version r = en_activeVersion e.

Lemma engine_ok_kept now e jurisdiction p r s :
  engine_ok (new_engine sha256 s) ∧
  (engine_ok e → engine_ok (registerRuleset e r)) ∧
  engine_ok (updateJurisdictionRule sha256 now e jurisdiction p).1.
Proof.
  split_and!.
  - by eexists.
  - intros (a & Ha & Hv). unfold engine_ok. cbn. rewrite aget_aput. case_decide as Hd; [by exists r|by exists a].
  - eexists. cbn. rewrite aget_aput, decide_True by done. done.
Qed.

Definition asked_jurisdiction (cx : EligibilityEvaluationContext) : string :=
  toUpperCase (default "GLOBAL" (truthy (Some (cx_jurisdiction cx)))).
Definition asked_tranche (cx : EligibilityEvaluationContext) : TrancheType := default STANDARD (cx_tranche cx).
Definition applicable_rule (e : engine) (cx : EligibilityEvaluationContext) : JurisdictionRule :=
  getJurisdictionRule sha256 e (asked_jurisdiction cx) (Some (vr_version (getActiveRuleset sha256 e))).
Definition kyc_status_of (cx : EligibilityEvaluationContext) : KycStatus := from_option kv_status NONE (cx_kycRecord cx).

Definition clean (s : sanctions) (address country : string) : Prop :=
  address ∉ sn_addresses s ∧ (country ≠ EmptyString → toUpperCase country ∉ sn_countries s).

(** What the rules ask of an investor, apart from the cap. *)
Definition meets_rules (now : Z) (e : engine) (cx : EligibilityEvaluationContext) : Prop :=
  let rule := applicable_rule e cx in
  clean (en_sanctions e) (cx_investorAddress cx) (asked_jurisdiction cx) ∧
  jr_isSanctionedOrEmbargoed rule = false ∧ asked_tranche cx ∈ jr_allowedTranches rule ∧
  match cx_kycRecord cx ≫= kv_expiresAt with Some x => x = 0 ∨ now ≤ x | None => True end ∧
  (kyc_status_of cx = VERIFIED ∨ kyc_status_of cx = ACCREDITED) ∧
  (asked_tranche cx = RESTRICTED_ACCREDITED → jr_requireAccreditationForRestricted rule = true →
   kyc_status_of cx = ACCREDITED).

Definition within_cap (e : engine) (cx : EligibilityEvaluationContext) : Prop :=
  kyc_status_of cx = ACCREDITED ∨ truthy (jr_maxRetailOfferingCap (applicable_rule e cx)) = None ∨
  truthy (cx_purchaseAmount cx) = None ∨
  ∃ cap amount c n, truthy (jr_maxRetailOfferingCap (applicable_rule e cx)) = Some cap ∧
    truthy (cx_purchaseAmount cx) = Some amount ∧ BigInt_of_string cap = Some c ∧ BigInt_of_string amount = Some n ∧ n ≤ c.

(** A check of the ruleset: its name, what it asks, and how its failure is reported. *)
Record rule_check := { rc_name : string; rc_holds : Prop; rc_code : eligibility_code }.

(** A restricted tranche may be for accredited investors only. *)
Definition accreditation_checks (e : engine) (cx : EligibilityEvaluationContext) : list rule_check :=
  if decide (asked_tranche cx = RESTRICTED_ACCREDITED ∧ jr_requireAccreditationForRestricted (applicable_rule e cx) = true) then
    [ {| rc_name := "ACCREDITED_INVESTOR_REQUIREMENT"; rc_holds := kyc_status_of cx = ACCREDITED;
         rc_code := ACCREDITATION_REQUIRED |} ]
  else [].

(** A cap applies to investors who are not accredited, where there is an amount. *)
Definition cap_checks (e : engine) (cx : EligibilityEvaluationContext) : list rule_check :=
  if decide (kyc_status_of cx = ACCREDITED) then []
  else match truthy (jr_maxRetailOfferingCap (applicable_rule e cx)), truthy (cx_purchaseAmount cx) with
       | Some cap, Some amount =>
           [ {| rc_name := "RETAIL_OFFERING_CAP_CHECK";
                rc_holds := ∃ c n, BigInt_of_string cap = Some c ∧ BigInt_of_string amount = Some n ∧ n ≤ c;
                rc_code := OFFERING_CAP_EXCEEDED |} ]
       | _, _ => []
       end.

(** The checks that an investor has to pass, in order. *)
Definition rule_checks (now : Z) (e : engine) (cx : EligibilityEvaluationContext) : list rule_check :=
  let rule := applicable_rule e cx in
  [ {| rc_name := "SANCTIONS_SCREENING"; rc_holds := clean (en_sanctions e) (cx_investorAddress cx) (asked_jurisdiction cx);
       rc_code := if decide (cx_investorAddress cx ∈ sn_addresses (en_sanctions e)) then SANCTIONED_ADDRESS
                  else SANCTIONED_JURISDICTION |};
    {| rc_name := "EMBARGOED_JURISDICTION_CHECK"; rc_holds := jr_isSanctionedOrEmbargoed rule = false;
       rc_code := SANCTIONED_JURISDICTION |};
    {| rc_name := "TRANCHE_ALLOWED_FOR_JURISDICTION"; rc_holds := asked_tranche cx ∈ jr_allowedTranches rule;
       rc_code := TRANCHE_NOT_PERMITTED |};
    {| rc_name := "KYC_EXPIRATION_CHECK";
       rc_holds := ∀ x, cx_kycRecord cx ≫= kv_expiresAt = Some x → x = 0 ∨ now ≤ x; rc_code := KYC_EXPIRED |};
    {| rc_name := "MINIMUM_KYC_STATUS_CHECK"; rc_holds := kyc_status_of cx = VERIFIED ∨ kyc_status_of cx = ACCREDITED;
       rc_code := KYC_REQUIRED |} ] ++
  accreditation_checks e cx ++ cap_checks e cx.

(** What a run through the checks lists, up to the first that fails, and how it ends. *)
Inductive verdict : list rule_check → list (string * bool) → eligibility_code → Prop :=
| verdict_end : verdict [] [] ELIGIBLE
| verdict_pass c cs l code : rc_holds c → verdict cs l code → verdict (c :: cs) ((rc_name c, true) :: l) code
| verdict_fail c cs : ¬ rc_holds c → verdict (c :: cs) [(rc_name c, false)] (rc_code c).

Definition rules_listed (rules : list EvaluatedRuleResult) : list (string * bool) := (λ r, (er_ruleName r, er_passed r)) <$> rules.

(** An amount or a cap that should be compared and is no number. *)
Definition not_comparable (e : engine) (cx : EligibilityEvaluationContext) : Prop :=
  kyc_status_of cx ≠ ACCREDITED ∧
  ∃ cap amount, truthy (jr_maxRetailOfferingCap (applicable_rule e cx)) = Some cap ∧
    truthy (cx_purchaseAmount cx) = Some amount ∧ (BigInt_of_string cap = None ∨ BigInt_of_string amount = None).

(** A refusal lists the rules that passed and, last, the one that did not. *)
Definition refused_by_last (rules : list EvaluatedRuleResult) : Prop :=
  ∃ passed r, rules = passed ++ [r] ∧ Forall (λ r, er_passed r = true) passed ∧ er_passed r = false ∧ er_reason r ≠ None.

Definition hit_spec (s : sanctions) (address country : string) (hit : option (sanctions_hit * string)) : Prop :=
  match hit with
  | None => clean s address country
  | Some (SdnAddress, _) => address ∈ sn_addresses s
  | Some (Comprehensive, _) => address ∉ sn_addresses s ∧ country ≠ EmptyString ∧ toUpperCase country ∈ sn_countries s
  end.

Lemma checkSanctions_hit now s a c : hit_spec s a c (checkSanctions now s a c).2.
Proof.
  unfold checkSanctions, hit_spec, clean. cbn. case_bool_decide as H1; [done|].
  case_bool_decide as H2; cbn; [by split|]. by case_bool_decide as H3.
Qed.

Lemma hit_clean s a c hit : hit_spec s a c hit → hit = None ↔ clean s a c.
Proof. destruct hit as [[[] ?]|]; [| |done]; cbn; unfold clean; naive_solver. Qed.

Lemma checkSanctions_spec now s a c :
  match (checkSanctions now s a c).2 with None => clean s a c | Some _ => ¬ clean s a c end.
Proof.
  unfold checkSanctions, clean. cbn. case_bool_decide as H1; [by intros []|].
  case_bool_decide as H2; cbn; [split; [done|by intros []]|].
  case_bool_decide as H3; [by intros [_ H]; apply H|]. done.
Qed.

Lemma over_cap_spec e cx :
  match over_cap (applicable_rule e cx) (kyc_status_of cx) (cx_purchaseAmount cx) with
  | Ok None => cap_checks e cx = []
  | Ok (Some (_, _, above)) => ∃ P, cap_checks e cx =
      [{| rc_name := "RETAIL_OFFERING_CAP_CHECK"; rc_holds := P; rc_code := OFFERING_CAP_EXCEEDED |}] ∧
      if above then ¬ P else P
  | Err _ => not_comparable e cx
  end.
Proof.
  unfold over_cap, cap_checks, not_comparable. case_decide as Ha; [by rewrite bool_decide_eq_true_2|].
  rewrite bool_decide_eq_false_2 by done. destruct (truthy (jr_maxRetailOfferingCap _)) as [cap|]; [|done].
  destruct (truthy (cx_purchaseAmount cx)) as [amount|]; [|done].
  destruct (BigInt_of_string cap) as [c|] eqn:E1, (BigInt_of_string amount) as [n|] eqn:E2;
    [|split; [done|]; exists cap, amount; auto..].
  eexists. split; [done|]. destruct (Z.ltb_spec c n); [|by eauto]. intros (? & ? & [= <-] & [= <-] & ?). lia.
Qed.

Lemma verdict_passed pre suf l code :
  Forall rc_holds pre → verdict suf l code → verdict (pre ++ suf) (((λ c, (rc_name c, true)) <$> pre) ++ l) code.
Proof. induction 1; [done|]. intros Hs. by constructor; [|auto]. Qed.

Lemma verdict_eligible cs l code :
  verdict cs l code → Forall (λ c, rc_code c ≠ ELIGIBLE) cs → code = ELIGIBLE ↔ Forall rc_holds cs.
Proof.
  induction 1 as [|c cs l code Hc _ IH|c cs Hc]; intros Hne; inversion_clear Hne as [|? ? H1 H2]; rewrite ?Forall_cons, ?IH by done.
  - done.
  - naive_solver.
  - naive_solver.
Qed.

Lemma verdict_shape rules cs l code :
  verdict cs l code → l = rules_listed rules → Forall (λ c, rc_code c ≠ ELIGIBLE) cs →
  Forall (λ r, er_passed r = false → er_reason r ≠ None) rules →
  if decide (code = ELIGIBLE) then Forall (λ r, er_passed r = true) rules else refused_by_last rules.
Proof.
  intros Hv. revert rules. induction Hv as [|c cs l code Hc _ IH|c cs Hc]; intros [|r rules] [=] Hne Hr;
    inversion_clear Hne; inversion_clear Hr; subst.
  - by rewrite decide_True.
  - specialize (IH rules eq_refl). case_decide; [by constructor; auto|].
    destruct IH as (passed & r' & -> & ? & ? & ?); [done|done|]. exists (r :: passed), r'. split_and!; try done. by constructor.
  - rewrite decide_False by done. destruct rules; [|done]. exists [], r. split_and!; auto. 
Qed.

Lemma rule_checks_codes now e cx : Forall (λ c, rc_code c ≠ ELIGIBLE) (rule_checks now e cx).
Proof.
  unfold rule_checks, accreditation_checks, cap_checks. repeat apply Forall_app_2.
  - repeat constructor; try done. cbn. by case_decide.
  - case_decide; by repeat constructor.
  - case_decide; [done|]. destruct (truthy (jr_maxRetailOfferingCap (applicable_rule e cx))), (truthy (cx_purchaseAmount cx)); by repeat constructor.
Qed.

Lemma rule_checks_hold now e cx :
  Forall rc_holds (rule_checks now e cx) ↔ meets_rules now e cx ∧ within_cap e cx.
Proof.
  unfold rule_checks. rewrite !Forall_app, !Forall_cons, Forall_nil. cbn [rc_holds].
  assert (Forall rc_holds (cap_checks e cx) ↔ within_cap e cx) as ->.
  { unfold cap_checks, within_cap. case_decide as Ha; [split; [by left|by constructor]|].
    destruct (truthy (jr_maxRetailOfferingCap _)) as [cap|]; [|split; [by right; left|by constructor]].
    destruct (truthy (cx_purchaseAmount cx)) as [amount|]; [|split; [by right; right; left|by constructor]].
    rewrite Forall_singleton. cbn [rc_holds]. naive_solver. }
  assert (Forall rc_holds (accreditation_checks e cx)
    ↔ (asked_tranche cx = RESTRICTED_ACCREDITED → jr_requireAccreditationForRestricted (applicable_rule e cx) = true → kyc_status_of cx = ACCREDITED)) as ->.
  { unfold accreditation_checks. case_decide; [rewrite Forall_singleton; cbn; tauto|]. rewrite Forall_nil. tauto. }
  assert ((∀ x, cx_kycRecord cx ≫= kv_expiresAt = Some x → x = 0 ∨ now ≤ x) ↔
    match cx_kycRecord cx ≫= kv_expiresAt with Some x => x = 0 ∨ now ≤ x | None => True end) as ->
    by (destruct (cx_kycRecord cx ≫= kv_expiresAt); naive_solver).
  unfold meets_rules. tauto.
Qed.

(** The rules are checked in order, and the first that fails decides. *)
Lemma check_rules_verdict now e cx hit :
  hit_spec (en_sanctions e) (cx_investorAddress cx) (asked_jurisdiction cx) hit →
  match check_rules sha256 e now hit cx (asked_jurisdiction cx) (asked_tranche cx) (applicable_rule e cx) with
  | Ok d => verdict (rule_checks now e cx) (rules_listed (de_evaluatedRules d)) (de_code d) ∧
      (de_eligible d = true ↔ de_code d = ELIGIBLE) ∧
      Forall (λ r, er_passed r = false → er_reason r ≠ None) (de_evaluatedRules d)
  | Err _ => meets_rules now e cx ∧ not_comparable e cx
  end.
Proof.
  intros Hhit. unfold check_rules. fold (kyc_status_of cx).
  assert (∀ code reason b rules, verdict (rule_checks now e cx) (rules_listed rules) code →
    Forall (λ r, er_passed r = false → er_reason r ≠ None) rules →
    let d := decided sha256 e (asked_jurisdiction cx) (asked_tranche cx) code reason b rules in
    verdict (rule_checks now e cx) (rules_listed (de_evaluatedRules d)) (de_code d) ∧ (de_eligible d = true ↔ de_code d = ELIGIBLE) ∧
      Forall (λ r, er_passed r = false → er_reason r ≠ None) (de_evaluatedRules d)) as Hgo.
  { intros code reason b rules Hv Hr. split_and!; [done|cbn; by rewrite bool_decide_eq_true|done]. }
  destruct hit as [[list reason]|].
  { apply Hgo; [|by repeat constructor]. unfold rule_checks. cbn [app].
    assert (∀ cs c, ¬ rc_holds c → ∀ code, code = rc_code c → verdict (c :: cs) [(rc_name c, false)] code) as Hf
      by (intros cs c Hc code ->; by constructor).
    apply (Hf _ {| rc_name := "SANCTIONS_SCREENING" |}); cbn [rc_holds rc_code].
    - intros Hc%(hit_clean _ _ _ _ Hhit). done.
    - destruct list; cbn in Hhit; [by rewrite decide_True|by rewrite decide_False by apply Hhit]. }
  cbn in Hhit. destruct (jr_isSanctionedOrEmbargoed (applicable_rule e cx)) eqn:Hemb.
  { apply Hgo; [|by repeat constructor]. unfold rule_checks. apply verdict_pass; [done|]. apply (verdict_fail {| rc_name := _ |}). cbn [rc_holds]. congruence. }
  case_bool_decide as Htr; cbn [negb].
  2:{ apply Hgo; [|by repeat constructor]. unfold rule_checks. do 2 (apply verdict_pass; [done|]). by apply (verdict_fail {| rc_name := _ |}). }
  destruct (match cx_kycRecord cx ≫= kv_expiresAt with Some x => _ | None => false end) eqn:Hexp.
  { apply Hgo; [|by repeat constructor]. unfold rule_checks. do 3 (apply verdict_pass; [done|]). apply (verdict_fail {| rc_name := _ |}).
    cbn [rc_holds]. destruct (cx_kycRecord cx ≫= kv_expiresAt) as [x|]; [|done]. intros Hx. specialize (Hx x eq_refl). bool_to_prop. lia. }
  assert (∀ x, cx_kycRecord cx ≫= kv_expiresAt = Some x → x = 0 ∨ now ≤ x) as Hx.
  { intros x Ex. rewrite Ex in Hexp. bool_to_prop. lia. }
  destruct (verified_or_better (kyc_status_of cx)) eqn:Hver; cbn [negb].
  2:{ apply Hgo; [|by repeat constructor]. unfold rule_checks. do 4 (apply verdict_pass; [done|]). apply (verdict_fail {| rc_name := _ |}).
      cbn [rc_holds]. unfold verified_or_better in Hver. intros [Hv|Hv]; rewrite Hv in Hver; vm_compute in Hver; done. }
  assert (kyc_status_of cx = VERIFIED ∨ kyc_status_of cx = ACCREDITED) as Hv.
  { unfold verified_or_better in Hver. apply orb_true_iff in Hver as [?|?]; bool_to_prop; auto. }
  set (acc := accreditation_checks e cx).
  destruct (bool_decide (asked_tranche cx = RESTRICTED_ACCREDITED) && jr_requireAccreditationForRestricted (applicable_rule e cx) &&
    negb (bool_decide (kyc_status_of cx = ACCREDITED))) eqn:Hacc.
  { apply andb_true_iff in Hacc as [[Hr%bool_decide_eq_true Hq]%andb_true_iff Ha%negb_true_iff%bool_decide_eq_false]. apply Hgo; [|by repeat constructor]. unfold rule_checks. do 5 (apply verdict_pass; [done|]).
    unfold acc, accreditation_checks. rewrite decide_True by done. by apply (verdict_fail {| rc_name := _ |}). }
  set (more := if _ && _ then [pass "ACCREDITED_INVESTOR_REQUIREMENT"] else []).
  assert (rules_listed more = (λ c, (rc_name c, true)) <$> acc ∧ Forall rc_holds acc ∧
    Forall (λ r, er_passed r = false → er_reason r ≠ None) more) as (Hm1 & Hm2 & Hm3).
  { unfold more, acc, accreditation_checks.
    destruct (decide (asked_tranche cx = RESTRICTED_ACCREDITED ∧ jr_requireAccreditationForRestricted (applicable_rule e cx) = true))
      as [[Hr Hq]|Hd].
    - rewrite (bool_decide_eq_true_2 _ Hr), Hq in Hacc |- *. cbn [andb] in Hacc |- *.
      case_bool_decide; [|done]. by repeat constructor.
    - destruct (bool_decide (asked_tranche cx = RESTRICTED_ACCREDITED) && jr_requireAccreditationForRestricted (applicable_rule e cx)) eqn:Hb; [|done].
      bool_to_prop. tauto. }
  assert (∀ rest l code reason b, verdict (cap_checks e cx) (rules_listed rest) code →
    Forall (λ r, er_passed r = false → er_reason r ≠ None) rest →
    l = [pass "SANCTIONS_SCREENING"; pass "EMBARGOED_JURISDICTION_CHECK"; pass "TRANCHE_ALLOWED_FOR_JURISDICTION";
         pass "KYC_EXPIRATION_CHECK"; pass "MINIMUM_KYC_STATUS_CHECK"] ++ more ++ rest →
    let d := decided sha256 e (asked_jurisdiction cx) (asked_tranche cx) code reason b l in
    verdict (rule_checks now e cx) (rules_listed (de_evaluatedRules d)) (de_code d) ∧ (de_eligible d = true ↔ de_code d = ELIGIBLE) ∧
      Forall (λ r, er_passed r = false → er_reason r ≠ None) (de_evaluatedRules d)) as Hend.
  { intros rest l code reason b Hvr Hr ->. apply Hgo; [|apply Forall_app_2; [by repeat constructor|by apply Forall_app]]. unfold rule_checks. fold acc.
    do 5 (apply verdict_pass; [done|]). change (verdict (acc ++ cap_checks e cx) (rules_listed (more ++ rest)) code).
    assert (rules_listed (more ++ rest) = rules_listed more ++ rules_listed rest) as -> by apply fmap_app. rewrite Hm1. by apply verdict_passed. }
  pose proof (over_cap_spec e cx) as Hcap. destruct (over_cap _ _ _) as [[[[n c] []]|]|]; cbn [mbind result_bind].
  - destruct Hcap as (P & Hc & HP). eapply (Hend [fail "RETAIL_OFFERING_CAP_CHECK" _]); [|by repeat constructor|reflexivity].
    rewrite Hc. by apply (verdict_fail {| rc_name := _ |}).
  - destruct Hcap as (P & Hc & HP). eapply (Hend [pass "RETAIL_OFFERING_CAP_CHECK"]); [|by repeat constructor|reflexivity].
    rewrite Hc. apply verdict_pass; [done|constructor].
  - eapply (Hend []); [|done|by rewrite app_nil_r]. rewrite Hcap. constructor.
  - split; [|done]. split_and!; try done; [by destruct (cx_kycRecord cx ≫= kv_expiresAt); auto|].
    intros Hr Hq. rewrite (bool_decide_eq_true_2 _ Hr), Hq in Hacc. cbn in Hacc. by case_bool_decide.
Qed.

Lemma check_rules_error now e cx :
  meets_rules now e cx → not_comparable e cx →
  ∃ x, check_rules sha256 e now None cx (asked_jurisdiction cx) (asked_tranche cx) (applicable_rule e cx) = Err x.
Proof.
  intros (_ & Hemb & Htr & Hx & Hv & Ha) (Hna & cap & amount & Hc & Hm & Hn). unfold check_rules. fold (kyc_status_of cx).
  rewrite Hemb, (bool_decide_eq_true_2 _ Htr). cbn [negb].
  assert (match cx_kycRecord cx ≫= kv_expiresAt with Some x => negb (x =? 0) && (x <? now) | None => false end = false) as ->.
  { destruct (cx_kycRecord cx ≫= kv_expiresAt) as [x|]; [|done]. apply andb_false_iff. bool_to_prop. lia. }
  assert (verified_or_better (kyc_status_of cx) = true) as -> by (unfold verified_or_better; destruct Hv as [-> | ->]; done).
  cbn [negb]. assert (bool_decide (asked_tranche cx = RESTRICTED_ACCREDITED) && jr_requireAccreditationForRestricted (applicable_rule e cx) = false)
    as -> by (apply not_true_iff_false; intros H; bool_to_prop; naive_solver).
  cbn [andb]. unfold over_cap. rewrite (bool_decide_eq_false_2 _ Hna), Hc, Hm.
  destruct Hn as [-> | ->]; [by eexists|]. destruct (BigInt_of_string cap); by eexists.
Qed.

Lemma not_comparable_over e cx : not_comparable e cx → ¬ within_cap e cx.
Proof.
  intros (Ha & cap & amount & Hc & Hm & Hn) [?|[?|[?|(? & ? & c & n & H1 & H2 & H3 & H4 & _)]]]; [done|congruence..|].
  rewrite Hc in H1. rewrite Hm in H2. injection H1 as <-. injection H2 as <-. destruct Hn; congruence.
Qed.

Lemma check_rules_spec now e cx hit :
  hit_spec (en_sanctions e) (cx_investorAddress cx) (asked_jurisdiction cx) hit →
  match check_rules sha256 e now hit cx (asked_jurisdiction cx) (asked_tranche cx) (applicable_rule e cx) with
  | Ok d => (de_eligible d = true ↔ meets_rules now e cx ∧ within_cap e cx) ∧
      (de_eligible d = false → refused_by_last (de_evaluatedRules d))
  | Err _ => ¬ within_cap e cx
  end.
Proof.
  intros Hh%(check_rules_verdict now). destruct (check_rules _ _ _ _ _ _ _ _) as [d|].
  - destruct Hh as (Hv & He & Hr). pose proof (rule_checks_codes now e cx) as Hne.
    rewrite He, (verdict_eligible _ _ _ Hv Hne), rule_checks_hold. split; [done|]. intros Hf.
    pose proof (verdict_shape _ _ _ _ Hv eq_refl Hne Hr) as Hs. case_decide as Hd; [|done]. apply He in Hd. congruence.
  - destruct Hh as [_ Hh]. by apply not_comparable_over.
Qed.
End rules.

(** C34: an investor is found eligible exactly when neither the address nor the
    jurisdiction is sanctioned, the jurisdiction is open and offers the tranche, the KYC
    record is verified or accredited and not expired, accredited where a restricted
    tranche asks for it, and the amount is within the cap for those who are not
    accredited.  These checks are made in this order, the first that fails decides: the
    decision lists by name the checks that passed and last the one that failed, with a
    reason, its code is that of the check that failed, and an eligible decision lists
    every check that applies.  It is an error exactly when all other checks hold and the
    cap or the amount that would be compared is no number.  Nothing but the staleness
    alert changes. *)
Theorem eligibility_exact sha256 now e cx :
  let '(e', r) := evaluateEligibility sha256 now e cx in
  e' = with_sanctions e (set_alert (en_sanctions e) (isStale now (en_sanctions e))) ∧
  match r with
  | Ok d =>
      (de_eligible d = true ↔ meets_rules sha256 now e cx ∧ within_cap sha256 e cx) ∧
      (de_eligible d = true ↔ de_code d = ELIGIBLE) ∧
      verdict (rule_checks sha256 now e cx) (rules_listed (de_evaluatedRules d)) (de_code d) ∧
      Forall (λ r, er_passed r = false → er_reason r ≠ None) (de_evaluatedRules d) ∧
      ¬ (meets_rules sha256 now e cx ∧ not_comparable sha256 e cx)
  | Err _ => meets_rules sha256 now e cx ∧ not_comparable sha256 e cx
  end.
Proof.
  unfold evaluateEligibility. fold (asked_jurisdiction cx). fold (asked_tranche cx). fold (applicable_rule sha256 e cx).
  pose proof (checkSanctions_hit now (en_sanctions e) (cx_investorAddress cx) (asked_jurisdiction cx)) as Hs.
  destruct (checkSanctions _ _ _ _) as [s hit] eqn:E. unfold checkSanctions in E. injection E as <- _. cbn [snd] in Hs.
  split; [done|]. pose proof Hs as Hs0. pose proof (check_rules_verdict sha256 now e cx hit Hs) as Hv. apply (check_rules_spec sha256 now) in Hs.
  destruct (check_rules _ _ _ _ _ _ _ _) as [d|] eqn:Ed; [|done]. destruct Hv as (H1 & H2 & H3), Hs as [H4 _].
  split_and!; try done. intros [Hm Hn]. assert (hit = None) as -> by (by apply (hit_clean sha256 _ _ _ _ Hs0), Hm).
  destruct (check_rules_error sha256 now e cx Hm Hn) as [x Hx]. congruence.
Qed.

(** A transfer passes exactly when the recipient could invest the amount and the
    sender is not sanctioned, by address or by jurisdiction. *)
Theorem transfer_exact sha256 now e c :
  match (evaluateTransferEligibility sha256 now e c).2 with
  | Ok d =>
      de_eligible d = true ↔
      meets_rules sha256 now e (recipient_context c) ∧ within_cap sha256 e (recipient_context c) ∧
      clean (en_sanctions e) (tc_fromAddress c) (tc_fromJurisdiction c)
  | Err _ => ¬ within_cap sha256 e (recipient_context c)
  end.
Proof.
  unfold evaluateTransferEligibility. unfold evaluateEligibility.
  set (cx := recipient_context c). fold (asked_jurisdiction cx). fold (asked_tranche cx). fold (applicable_rule sha256 e cx).
  pose proof (checkSanctions_hit now (en_sanctions e) (cx_investorAddress cx) (asked_jurisdiction cx)) as Hs.
  destruct (checkSanctions now (en_sanctions e) (cx_investorAddress cx) _) as [s hit] eqn:E.
  unfold checkSanctions in E. injection E as <- _. cbn [snd] in Hs. apply (check_rules_spec sha256 now e cx) in Hs.
  destruct (check_rules _ _ _ _ _ _ _ _) as [d|]; cbn [snd]; [|done].
  destruct Hs as [Hd _]. destruct (de_eligible d) eqn:Ed; cbn [negb].
  - pose proof (checkSanctions_spec now (en_sanctions (with_sanctions e (set_alert (en_sanctions e) (isStale now (en_sanctions e)))))
      (tc_fromAddress c) (tc_fromJurisdiction c)) as Hf.
    destruct (checkSanctions _ _ (tc_fromAddress c) _) as [s' [[l reason]|]]; cbn [snd] in Hf |- *.
    + split; [done|]. by intros (_ & _ & ?).
    + rewrite Ed. apply proj1 in Hd. specialize (Hd eq_refl) as [? ?]. done.
  - cbn. split; [done|]. intros (? & ? & _). by apply Hd.
Qed.

(** A holder who could not buy the position today is never cut off at once: until the
    end of the grace period, counted from the rule change where it is known, the position
    is only marked for sale, with the rule that is broken; from then on it counts as
    expired.  Every other holder is compliant. *)
Theorem grace_period_exact sha256 now e h :
  let cx := {| cx_investorAddress := hc_holderAddress h; cx_jurisdiction := hc_jurisdiction h;
               cx_tranche := Some (hc_tranche h); cx_bondId := hc_bondId h;
               cx_purchaseAmount := Some (hc_holdingAmount h); cx_kycRecord := hc_kycRecord h |} in
  let deadline := default (hc_acquired h) (hc_ruleChanged h) + default 30 (hc_gracePeriodDays h) * 86400000 in
  match (evaluatePostRuleChangeCompliance sha256 now e h).2 with
  | Ok p =>
      match pc_status p with
      | COMPLIANT => meets_rules sha256 now e cx ∧ within_cap sha256 e cx ∧ pc_violations p = []
      | NON_COMPLIANT_GRACE_PERIOD => now < deadline ∧ ¬ (meets_rules sha256 now e cx ∧ within_cap sha256 e cx)
      | NON_COMPLIANT_EXPIRED => deadline ≤ now ∧ ¬ (meets_rules sha256 now e cx ∧ within_cap sha256 e cx)
      end ∧
      (pc_status p ≠ COMPLIANT → pc_gracePeriodExpiresAt p = Some deadline ∧
         ∃ r, pc_violations p = [r] ∧ er_passed r = false ∧ er_reason r ≠ None)
  | Err _ => ¬ within_cap sha256 e cx
  end.
Proof.
  intros cx deadline. unfold evaluatePostRuleChangeCompliance. fold cx. unfold evaluateEligibility.
  fold (asked_jurisdiction cx). fold (asked_tranche cx). fold (applicable_rule sha256 e cx).
  pose proof (checkSanctions_hit now (en_sanctions e) (cx_investorAddress cx) (asked_jurisdiction cx)) as Hs.
  destruct (checkSanctions now (en_sanctions e) (cx_investorAddress cx) _) as [s hit]. cbn [snd] in Hs.
  apply (check_rules_spec sha256 now e cx) in Hs.
  destruct (check_rules _ _ _ _ _ _ _ _) as [d|]; cbn [snd mbind result_bind]; [|done].
  destruct Hs as [Hd Hr]. destruct (de_eligible d) eqn:Ed.
  { cbn. apply proj1 in Hd. specialize (Hd eq_refl) as [? ?]. split; [done|]. by intros []. }
  assert (¬ (meets_rules sha256 now e cx ∧ within_cap sha256 e cx)) as Hno by (intros H; by apply Hd in H).
  destruct (Hr eq_refl) as (passed & r & Hrules & Hp & Hf & Hwhy). cbn [pc_status pc_gracePeriodExpiresAt pc_violations].
  rewrite Hrules, filter_app, filter_cons, decide_True, filter_nil by done.
  assert (filter (λ r, er_passed r = false) passed = []) as ->.
  { clear -Hp. induction Hp as [|x xs Hx _ IH]; [done|]. rewrite filter_cons, decide_False by congruence. done. }
  assert (default (hc_acquired h) (hc_ruleChanged h) + default 30 (hc_gracePeriodDays h) * 86400 * 1000 = deadline)
    as -> by (unfold deadline; lia).
  split; [by destruct (Z.ltb_spec now deadline)|]. intros _. split; [done|]. by exists r.
Qed.

(** ** Attestations *)

Section signed.
Context (sha256 : string → string) `{SignatureLaws}.

(** An attestation that the service issues says that the investor met the rules when it
    was issued, and from then on verifies exactly while it has not expired, for that
    investor, that bond and that tranche. *)
Theorem attestation_roundtrip secret now e kyc i nonce e' a now' c :
  issueAttestation sha256 secret now e kyc i nonce = (e', Ok a) →
  (∃ k, kyc = Some k ∧
    let cx := {| cx_investorAddress := rq_investorAddress i;
                 cx_jurisdiction := toUpperCase (default "US" (truthy (rq_jurisdiction i)));
                 cx_tranche := Some (default STANDARD (rq_tranche i)); cx_bondId := rq_bondId i;
                 cx_purchaseAmount := rq_purchaseAmount i;
                 cx_kycRecord := Some {| kv_status := kr_status k; kv_expiresAt := kr_expiresAt k |} |} in
    meets_rules sha256 now e cx ∧ within_cap sha256 e cx) ∧
  (verifyAttestation secret now' a c = Ok tt ↔
   vc_expectedInvestor c = rq_investorAddress i ∧ vc_expectedBondId c = rq_bondId i ∧
   (∀ t, vc_expectedTranche c = Some t → t = default STANDARD (rq_tranche i)) ∧ now' / 1000 < now / 1000 + 3600).
Proof.
  unfold issueAttestation. destruct kyc as [k|]; [|done]. intros E. set (cx := {| cx_investorAddress := _ |}) in E.
  unfold evaluateEligibility in E. fold (asked_jurisdiction cx) in E. fold (asked_tranche cx) in E.
  fold (applicable_rule sha256 e cx) in E.
  pose proof (checkSanctions_hit now (en_sanctions e) (cx_investorAddress cx) (asked_jurisdiction cx)) as Hs.
  destruct (checkSanctions now (en_sanctions e) (cx_investorAddress cx) _) as [s hit]. cbn [snd] in Hs.
  apply (check_rules_spec sha256 now e cx) in Hs. destruct (check_rules _ _ _ _ _ _ _ _) as [d|]; [|done].
  cbn [mbind result_bind] in E. destruct (de_eligible d) eqn:Ed; [|done]. cbn [negb] in E. injection E as _ <-.
  split; [exists k; split; [done|]; by apply Hs|].
  unfold verifyAttestation. cbn [sa_payload sa_signature sa_signerPublicKey ap_investorAddress ap_bondId ap_tranche ap_expiresAt].
  rewrite bool_decide_eq_false_2 by apply sign_nonempty. unfold truthy. destruct (public_key secret) as [|ch pk] eqn:Epk.
  { by destruct (public_key_nonempty secret). }
  rewrite <- Epk. cbn [default from_option id]. rewrite sign_verifies. unfold attestationTtlSeconds.
  case_bool_decide as H1; cbn [negb]; [|split; [done|intros (? & _); congruence]].
  destruct (Z.eqb_spec (rq_bondId i) (vc_expectedBondId c)) as [H2|H2]; cbn [negb]; [|split; [done|intros (_ & ? & _); congruence]].
  destruct (match vc_expectedTranche c with Some t => _ | None => false end) eqn:H3.
  { split; [done|]. intros (_ & _ & Ht & _). destruct (vc_expectedTranche c) as [t|]; [|done]. specialize (Ht t eq_refl).
    bool_to_prop. congruence. }
  destruct (Z.leb_spec (now / 1000 + 3600) (now' / 1000)); [split; [done|intros (_ & _ & _ & ?); lia]|].
  split; [|done]. intros _. split_and!; [done..| |done]. intros t Ht. rewrite Ht in H3. bool_to_prop. congruence.
Qed.

(** Anybody can sign: the key that a signature is checked with is the one that the
    attestation brings along.  Whoever has any key pair makes an attestation that passes,
    for any investor, status and tranche. *)
Lemma forged_attestation_accepted secret own now p :
  now / 1000 < ap_expiresAt p →
  verifyAttestation secret now
    {| sa_payload := p; sa_signature := sign own (serializePayload p); sa_signerPublicKey := public_key own |}
    {| vc_expectedInvestor := ap_investorAddress p; vc_expectedBondId := ap_bondId p;
       vc_expectedTranche := Some (ap_tranche p) |} = Ok tt.
Proof.
  intros Hx. unfold verifyAttestation. cbn [sa_payload sa_signature sa_signerPublicKey vc_expectedInvestor vc_expectedBondId vc_expectedTranche].
  rewrite bool_decide_eq_false_2 by apply sign_nonempty. rewrite !bool_decide_eq_true_2, Z.eqb_refl by done. cbn [negb].
  rewrite (proj2 (Z.leb_gt _ _)) by done. unfold truthy. destruct (public_key own) as [|ch pk] eqn:Epk.
  { by destruct (public_key_nonempty own). }
  rewrite <- Epk. cbn [default from_option id]. by rewrite sign_verifies.
Qed.
End signed.

(** *** Examples *)

(** A scheme that signs with the key itself. *)
#[export] Instance plain_scheme : SignatureScheme := {
  public_key sk := "P" +:+ sk;
  sign sk m := "S" +:+ sk +:+ m;
  verify_signature pk m sig :=
    match pk with
    | String _ sk => Ok (bool_decide (sig = "S" +:+ sk +:+ m))
    | EmptyString => Err "invalid public key"
    end;
}.
#[export] Instance plain_laws : SignatureLaws.
Proof. split; [|done..]. intros sk m. cbv beta iota delta [verify_signature public_key sign plain_scheme].
  change ("P" +:+ sk) with (String "P" sk). cbv beta iota. f_equal. by apply bool_decide_eq_true_2. Qed.

Definition listed (addresses : list string) : sanctions :=
  {| sn_addresses := addresses; sn_countries := SEED_SANCTIONED_COUNTRIES; sn_lastRefreshedAt := 0;
     sn_maxStalenessHours := 24; sn_alertRaised := false |}.
Definition sample_engine : engine := new_engine (λ s, s) (listed ["GBAD"]).
Definition kyc_of (k : KycStatus) (x : option Z) : KycRecord :=
  {| kr_address := "GA"; kr_status := k; kr_source := FromProvider; kr_actor := None; kr_reason := None;
     kr_providerReference := None; kr_createdAt := 0; kr_updatedAt := 0; kr_expiresAt := x |}.
Definition sample_request : attestation_request :=
  {| rq_investorAddress := "GA"; rq_bondId := 7; rq_tranche := Some RESTRICTED_ACCREDITED; rq_jurisdiction := Some "us";
     rq_purchaseAmount := Some "50000" |}.
Definition sample_attestation : SignedEligibilityAttestation :=
  let p := {| ap_investorAddress := "GA"; ap_bondId := 7; ap_tranche := RESTRICTED_ACCREDITED; ap_jurisdiction := "US";
              ap_kycStatus := ACCREDITED; ap_rulesetVersion := "2026.1"; ap_issuedAt := 1; ap_expiresAt := 3601;
              ap_nonce := "n" |} in
  {| sa_payload := p; sa_signature := sign "k" (serializePayload p); sa_signerPublicKey := public_key "k" |}.

Lemma attestation_roundtrip_witness :
  let c := {| vc_expectedInvestor := "GA"; vc_expectedBondId := 7; vc_expectedTranche := None |} in
  (∃ k, Some (kyc_of ACCREDITED (Some 9000)) = Some k ∧
    let cx := {| cx_investorAddress := rq_investorAddress sample_request;
                 cx_jurisdiction := toUpperCase (default "US" (truthy (rq_jurisdiction sample_request)));
                 cx_tranche := Some (default STANDARD (rq_tranche sample_request)); cx_bondId := rq_bondId sample_request;
                 cx_purchaseAmount := rq_purchaseAmount sample_request;
                 cx_kycRecord := Some {| kv_status := kr_status k; kv_expiresAt := kr_expiresAt k |} |} in
    meets_rules (λ s, s) 1000 sample_engine cx ∧ within_cap (λ s, s) sample_engine cx) ∧
  (verifyAttestation "k" 3600999 sample_attestation c = Ok tt ↔
   vc_expectedInvestor c = "GA" ∧ vc_expectedBondId c = 7 ∧
   (∀ t, vc_expectedTranche c = Some t → t = RESTRICTED_ACCREDITED) ∧ 3600999 / 1000 < 1000 / 1000 + 3600).
Proof.
  intros c.
  apply (attestation_roundtrip (λ s, s) "k" 1000 sample_engine (Some (kyc_of ACCREDITED (Some 9000))) sample_request "n"
    (with_sanctions sample_engine (listed ["GBAD"])) sample_attestation 3600999 c).
  vm_compute. reflexivity.
Defined.

(** An investor without any KYC record signs an attestation with a key of their own and
    subscribes to a restricted tranche: the check of the subscription passes. *)
Lemma forged_subscription_accepted :
  let p := {| ap_investorAddress := "GMALLORY"; ap_bondId := 7; ap_tranche := RESTRICTED_ACCREDITED;
              ap_jurisdiction := "US"; ap_kycStatus := ACCREDITED; ap_rulesetVersion := "2026.1"; ap_issuedAt := 1;
              ap_expiresAt := 9999; ap_nonce := "n" |} in
  let own := {| sa_payload := p; sa_signature := sign "mallory" (serializePayload p);
                sa_signerPublicKey := public_key "mallory" |} in
  let attempt a := (verifySubscriptionEligibility (λ s, s) "service" 1000 sample_engine 7
    {| sb_amount := 1000000; sb_investorAddress := "GMALLORY"; sb_tranche := Some RESTRICTED_ACCREDITED;
       sb_jurisdiction := None; sb_attestation := a |}).2 in
  attempt (Some own) = Ok tt ∧ attempt None ≠ Ok tt.
Proof. vm_compute. split; [reflexivity|discriminate]. Qed.

(** The minimum KYC status of a rule is never read. *)
Lemma minimum_kyc_ignored :
  let stricter := {| rp_name := None; rp_allowedTranches := None; rp_minimumKycStatus := Some ACCREDITED;
                     rp_requireAccreditationForRestricted := None; rp_maxRetailOfferingCap := None;
                     rp_requiresSanctionsCheck := None; rp_isSanctionedOrEmbargoed := None |} in
  let '(e, r) := updateJurisdictionRule (λ s, s) 0 sample_engine "US" stricter in
  jr_minimumKycStatus <$> aget "US" (vr_jurisdictions r) = Some ACCREDITED ∧
  match (evaluateEligibility (λ s, s) 0 e
    {| cx_investorAddress := "GA"; cx_jurisdiction := "US"; cx_tranche := None; cx_bondId := 1;
       cx_purchaseAmount := None; cx_kycRecord := Some {| kv_status := VERIFIED; kv_expiresAt := None |} |}).2 with
  | Ok d => de_eligible d = true
  | Err _ => False
  end.
Proof. vm_compute. done. Qed.

(** At the instant a verification expires, the KYC service no longer accepts it and the
    rules still do. *)
Lemma expiry_instant_eligible :
  isExpired 1000 (kyc_of VERIFIED (Some 1000)) = true ∧
  match (evaluateEligibility (λ s, s) 1000 sample_engine
    {| cx_investorAddress := "GA"; cx_jurisdiction := "US"; cx_tranche := None; cx_bondId := 1;
       cx_purchaseAmount := None; cx_kycRecord := Some {| kv_status := VERIFIED; kv_expiresAt := Some 1000 |} |}).2 with
  | Ok d => de_eligible d = true
  | Err _ => False
  end.
Proof. vm_compute. done. Qed.

(** The rules in force are not those of [docs/investor-eligibility-rules.md], which lists no
    cap for the US, caps of 100000000 for the EU and GB, no accreditation for their
    restricted tranches, rules for CH, and only the standard tranche elsewhere. *)
Lemma canonical_rules_differ :
  let rule k := aget k JURISDICTIONS in
  jr_maxRetailOfferingCap <$> rule "US" = Some (Some "10000") ∧
  jr_maxRetailOfferingCap <$> rule "EU" = Some (Some "25000") ∧
  jr_requireAccreditationForRestricted <$> rule "EU" = Some true ∧
  rule "CH" = None ∧ RESTRICTED_ACCREDITED ∈ jr_allowedTranches DEFAULT_RULE.
Proof. split_and!; try reflexivity. right. left. Qed.
