(* ===== verification/Snapshots.v ===== *)
(** * Snapshots of critical events

    Models [api/src/compliance/services/compliance-snapshot.service.ts] without a database:
    what is kept of a critical event is its data and the ruleset in force, under a digest
    of the whole.

    The digest and the reading of numbers are arguments.  Shown: a snapshot that was taken
    stays what it is whatever is captured later, its digest is right, and a snapshot with
    other content does not verify under the same digest, or SHA-256 collides
    ([snapshots_immutable]). *)
From S2P Require Import Prelude JsDate Json JsonParse Ndjson JsonIndent KycStore Compliance.

Definition COMPLIANCE_SNAPSHOT_SCHEMA_VERSION : Z := 1.

Inductive CriticalLifecycleEvent := BOND_ISSUED | BOND_SUBSCRIBED | COUPON_DISTRIBUTED | BOND_MATURED.
Definition critical_text (t : CriticalLifecycleEvent) : string :=
  match t with
  | BOND_ISSUED => "BOND_ISSUED" | BOND_SUBSCRIBED => "BOND_SUBSCRIBED"
  | COUPON_DISTRIBUTED => "COUPON_DISTRIBUTED" | BOND_MATURED => "BOND_MATURED"
  end.

Record ComplianceSnapshot := {
  cs_eventId : string;
  cs_eventType : CriticalLifecycleEvent;
  cs_bondId : Z;
  cs_schemaVersion : Z;
  cs_capturedAt : string;
  cs_payload : json;
  cs_hash : string;
}.

Definition content_json (s : ComplianceSnapshot) : json :=
  JObj [ ("eventId", JStr (cs_eventId s)); ("eventType", JStr (critical_text (cs_eventType s)));
         ("bondId", jint (cs_bondId s)); ("schemaVersion", jint (cs_schemaVersion s));
         ("capturedAt", JStr (cs_capturedAt s)); ("payload", cs_payload s) ].

Definition ruleset_json (r : VersionedRuleset) : json :=
  JObj [ ("version", JStr (vr_version r)); ("effectiveDate", JStr (vr_effectiveDate r));
         ("auditHash", JStr (vr_auditHash r));
         ("jurisdictions", JObj ((λ kr, (kr.1, rule_json kr.2)) <$> vr_jurisdictions r));
         ("defaultRule", rule_json (vr_defaultRule r)) ].

Section snapshots.
Context (num sha256 : string → string).

Definition snapshotHash (s : ComplianceSnapshot) : string := sha256 (stableStringify (content_json s)).

Definition with_hash (s : ComplianceSnapshot) (h : string) : ComplianceSnapshot :=
  {| cs_eventId := cs_eventId s; cs_eventType := cs_eventType s; cs_bondId := cs_bondId s;
     cs_schemaVersion := cs_schemaVersion s; cs_capturedAt := cs_capturedAt s; cs_payload := cs_payload s; cs_hash := h |}.

Definition snapshot_store := list (string * ComplianceSnapshot).

Definition snapshot_get (st : snapshot_store) (eventId : string) : option ComplianceSnapshot := aget eventId st.

Definition capture (st : snapshot_store) (e : engine) (now : Z) (eventId : string) (eventType : CriticalLifecycleEvent)
    (bondId : Z) (eventData : json) : snapshot_store * result string ComplianceSnapshot :=
  if bool_decide (eventId = EmptyString) || negb (Z.abs bondId <=? max_safe) || (bondId <? 1) then
    (st, Err "Valid event and bond IDs required")
  else
    match snapshot_get st eventId with
    | Some existing => (st, Ok existing)
    | None =>
        match JSON_parse num (stableStringify
                (JObj [("eventData", eventData); ("ruleset", ruleset_json (getActiveRuleset sha256 e))])) with
        | None => (st, Err "SyntaxError")
        | Some payload =>
            let content := {| cs_eventId := eventId; cs_eventType := eventType; cs_bondId := bondId;
                              cs_schemaVersion := COMPLIANCE_SNAPSHOT_SCHEMA_VERSION; cs_capturedAt := iso_text now;
                              cs_payload := payload; cs_hash := EmptyString |} in
            let snapshot := with_hash content (snapshotHash content) in
            (aput eventId snapshot st, Ok snapshot)
        end
    end.

Definition verify_snapshot (s : ComplianceSnapshot) : bool := bool_decide (cs_hash s = snapshotHash s).

(** *** Sequences of captures *)

Record capture_call := {
  cc_engine : engine;
  cc_now : Z;
  cc_eventId : string;
  cc_eventType : CriticalLifecycleEvent;
  cc_bondId : Z;
  cc_eventData : json;
}.
Definition capture_step (st : snapshot_store) (c : capture_call) : snapshot_store :=
  (capture st (cc_engine c) (cc_now c) (cc_eventId c) (cc_eventType c) (cc_bondId c) (cc_eventData c)).1.
Definition capture_run (st : snapshot_store) (cs : list capture_call) : snapshot_store := foldl capture_step st cs.

(** What the canonical text shows of a snapshot. *)
Definition canonical_content (s : ComplianceSnapshot) :=
  (cs_eventId s, cs_eventType s, cs_bondId s, cs_schemaVersion s, cs_capturedAt s, canonicalize (cs_payload s)).

Definition kept_ok (kv : string * ComplianceSnapshot) : Prop :=
  kv.1 = cs_eventId kv.2 ∧ cs_hash kv.2 = snapshotHash kv.2 ∧ json_ok (cs_payload kv.2) = true.

(** The reading of a number is the text of a number. *)
Context (Hnum : ∀ t, num_text_ok (num t) = true).

Lemma capture_step_cases st c :
  capture_step st c = st ∨
  ∃ s, aget (cs_eventId s) st = None ∧ capture_step st c = aput (cs_eventId s) s st ∧ kept_ok (cs_eventId s, s).
Proof.
  unfold capture_step, capture, snapshot_get. destruct (_ || _); [by left|].
  destruct (aget (cc_eventId c) st) eqn:E; [by left|].
  destruct (JSON_parse _ _) as [p|] eqn:Ep; [|by left]. right. cbn [fst].
  match goal with |- context [aput _ ?s _] => exists s end.
  split; [exact E|]. split; [reflexivity|]. split; [reflexivity|]. split; [reflexivity|].
  cbn [snd cs_payload with_hash]. exact (JSON_parse_ok num Hnum _ _ Ep).
Qed.

Lemma capture_run_ok st cs :
  Forall kept_ok st → Forall kept_ok (capture_run st cs) ∧
  ∀ k s, aget k st = Some s → aget k (capture_run st cs) = Some s.
Proof.
  revert st. induction cs as [|c cs IH]; intros st Hok; [done|]. cbn [capture_run foldl].
  destruct (capture_step_cases st c) as [->|(s & Hn & -> & Hs)]; [by apply IH|].
  destruct (IH (aput (cs_eventId s) s st)) as [H1 H2]; [apply Forall_aput; [exact Hok|exact Hs]|]. split; [done|].
  intros k s' Hk. apply H2. rewrite aget_aput. case_decide; [|done]. congruence.
Qed.

Lemma content_json_ok s : json_ok (cs_payload s) = true → json_ok (content_json s) = true.
Proof.
  intros H. unfold content_json. cbn [json_ok forallb fst snd]. rewrite !jint_ok, H. vm_compute. reflexivity.
Qed.

Lemma content_json_inj s1 s2 :
  canonicalize (content_json s1) = canonicalize (content_json s2) → canonical_content s1 = canonical_content s2.
Proof.
  intros E.
  assert (∀ k, k ≠ proto_key → canonicalize <$> prop (content_json s1) k = canonicalize <$> prop (content_json s2) k) as G.
  { intros k Hk. rewrite <- !prop_canonicalize by done. by rewrite E. }
  pose proof (G "eventId" ltac:(done)) as [= G1]. pose proof (G "eventType" ltac:(done)) as [= G2].
  pose proof (G "bondId" ltac:(done)) as [= G3%Z_to_string_inj].
  pose proof (G "schemaVersion" ltac:(done)) as [= G4%Z_to_string_inj].
  pose proof (G "capturedAt" ltac:(done)) as [= G5]. pose proof (G "payload" ltac:(done)) as [= G6].
  unfold canonical_content. rewrite G1, G3, G4, G5, G6.
  assert (cs_eventType s1 = cs_eventType s2) as ->; [|reflexivity].
  revert G2. clear. destruct (cs_eventType s1), (cs_eventType s2); cbn; intros G2; try reflexivity; try discriminate G2.
Qed.

(** A snapshot that was captured is never replaced, whatever is captured afterwards;
    it verifies; and any snapshot that verifies under its digest has its content, up to
    the order of keys, unless SHA-256 collides.  So that a stored snapshot which was
    edited without a new digest is found. *)
Theorem snapshots_immutable before after id s s' :
  snapshot_get (capture_run [] before) id = Some s →
  json_ok (cs_payload s') = true →
  snapshot_get (capture_run (capture_run [] before) after) id = Some s ∧
  verify_snapshot s = true ∧
  (cs_hash s' = cs_hash s → verify_snapshot s' = true →
   collision sha256 ∨ canonical_content s' = canonical_content s).
Proof.
  intros Hs Hok'. destruct (capture_run_ok [] before) as [Hok _]; [done|].
  destruct (capture_run_ok _ after Hok) as [_ Hkeep]. split; [by apply Hkeep|].
  apply aget_Some_elem in Hs. rewrite Forall_forall in Hok. destruct (Hok _ Hs) as (_ & Hh & Hj). cbn [snd] in Hh, Hj.
  unfold verify_snapshot. split; [by apply bool_decide_eq_true_2|]. intros E Hv%bool_decide_eq_true.
  rewrite Hv, Hh in E. apply digest_eq in E as [|E]; [by left|]. right.
  apply content_json_inj. apply stableStringify_exact in E; [done|by apply content_json_ok..].
Qed.
End snapshots.

Definition zero_num (t : string) : string := "0".
Definition sample_capture (data : json) : capture_call :=
  {| cc_engine := new_engine (λ s, s) (listed []); cc_now := 0; cc_eventId := "e1"; cc_eventType := BOND_ISSUED;
     cc_bondId := 7; cc_eventData := data |}.
Definition sample_snapshot : option ComplianceSnapshot :=
  snapshot_get (capture_run zero_num (λ s, s) [] [sample_capture (JStr "x")]) "e1".

Lemma snapshots_immutable_witness :
  match sample_snapshot with
  | Some s =>
      let forged := {| cs_eventId := cs_eventId s; cs_eventType := cs_eventType s; cs_bondId := 8;
                       cs_schemaVersion := 1; cs_capturedAt := cs_capturedAt s; cs_payload := cs_payload s;
                       cs_hash := cs_hash s |} in
      snapshot_get (capture_run zero_num (λ s, s) (capture_run zero_num (λ s, s) [] [sample_capture (JStr "x")])
        [sample_capture (JStr "y")]) "e1" = Some s ∧
      verify_snapshot (λ s, s) s = true ∧
      (cs_hash forged = cs_hash s → verify_snapshot (λ s, s) forged = true →
       collision (λ s, s) ∨ canonical_content forged = canonical_content s)
  | None => False
  end.
Proof.
  destruct sample_snapshot as [s|] eqn:E; [|by vm_compute in E].
  intros forged. apply (snapshots_immutable zero_num (λ s, s) ltac:(intros; reflexivity)); [exact E|]. vm_compute in E. injection E as <-. by vm_compute.
Defined.
