(* ===== verification/Coupons.v ===== *)
(** * Coupons and the views of bonds

    Models the coupon distribution, the listings and the export of
    [api/src/bonds/bonds.service.ts].

    The Soroban contracts are arguments: each call has an answer or a failure, by its position.
    So are the holder lists that [holder-index.service.ts] gives ([Holders]), the reports of the
    oracle and the nonces.  A distribution is the list of its effects, with the answer.  The
    loop over the batches runs with fuel; running out of it is told apart from every answer.

    Shown: when the holder list does not change in between, the batches of a distribution cover
    every holder exactly once and in order, in at most fifty at a time, and the loop ends
    ([coupon_batches_cover]); nothing is sent for a report that is challenged or rejected
    ([no_coupon_on_challenge]); walking the pages lists every readable bond once
    ([bond_pages_partition]).  Where the code falls short: [shrunk_list_never_ends],
    [shrunk_list_skips_holder], [last_batch_total], [checksum_ignores_content]. *)
From S2P Require Import Prelude Json Oracle.

Definition MAX_SAFE_BATCH_SIZE : Z := 50.

Record DistributeCouponBatchDto := { db_periodIndex : Z; db_reportId : Z; db_offset : Z; db_limit : Z }.
Record DistributeCouponDto := { dc_periodIndex : Z; dc_reportId : Z }.

Record CouponBatchDistributionResponse := {
  br_offset : Z;
  br_limit : Z;
  br_cursor : Z;
  br_batchComplete : bool;
  br_totalCredits : Z;
}.

Record CouponDistributionResponse := { cr_totalCredits : Z; cr_holderCount : Z }.

(** What reaches the contract and the compliance snapshots. *)
Inductive effect :=
| InvokeBatch (holders : list string) (reportId offset limit nonce : Z)
| InvokeSingle (holders : list string) (reportId : Z)
| Captured (periodIndex : Z) (holders : list string) (totalCredits : Z).

(** The answers to the calls of one distribution, by position. *)
Record env := {
  e_holders : nat → result string (list string);
  e_oracle : bool;
  e_report : nat → result string ReportStatus;
  e_nonce : nat → result string Z;
  e_contract : nat → result string Z;
  e_count : result string Z;
  e_capture : nat → result string unit;
}.

Definition check_report (e : env) (k : nat) (reportId : Z) : result string unit :=
  if e_oracle e then
    s ← e_report e k;
    match s with
    | Challenged => Err ("Cannot distribute coupon: report " +:+ Z_to_string reportId +:+ " is currently Challenged. Resolve the challenge before distributing.")
    | Rejected => Err ("Cannot distribute coupon: report " +:+ Z_to_string reportId +:+ " was Rejected.")
    | _ => Ok tt
    end
  else Ok tt.

(** The checks of a batch, with the nonce, the holders and the number of holders it takes. *)
Definition prepare_batch (e : env) (k : nat) (dto : DistributeCouponBatchDto) : result string (Z * list string * Z) :=
  nonce ← e_nonce e k;
  _ ← throw_if (100 <? db_limit dto) "Batch limit exceeds maximum allowed limit of 100";
  holders ← e_holders e k;
  let n := Z.of_nat (length holders) in
  _ ← throw_if (n <? db_offset dto)
        ("Batch offset " +:+ Z_to_string (db_offset dto) +:+ " exceeds total holder count " +:+ Z_to_string n);
  _ ← check_report e k (db_reportId dto);
  Ok (nonce, holders, Z.min (db_limit dto) (n - db_offset dto)).

(** The call with position [k]. *)
Definition distributeCouponBatch (e : env) (k : nat) (dto : DistributeCouponBatchDto) :
    list effect * result string CouponBatchDistributionResponse :=
  match prepare_batch e k dto with
  | Err err => ([], Err err)
  | Ok (nonce, holders, effectiveLimit) =>
      let sent := [InvokeBatch holders (db_reportId dto) (db_offset dto) effectiveLimit nonce] in
      match e_contract e k with
      | Err err => (sent, Err err)
      | Ok credits =>
          let newCursor := db_offset dto + effectiveLimit in
          let batchComplete := Z.of_nat (length holders) <=? newCursor in
          let answer := {| br_offset := db_offset dto; br_limit := effectiveLimit; br_cursor := newCursor;
                           br_batchComplete := batchComplete; br_totalCredits := credits |} in
          if batchComplete then
            match e_capture e k with
            | Ok _ => (sent ++ [Captured (db_periodIndex dto) holders credits], Ok answer)
            | Err err => (sent, Err err)
            end
          else (sent, Ok answer)
      end
  end.

(** [while (offset < holderAddresses.length)], with [n] the length of the first list. *)
Fixpoint batches (fuel : nat) (e : env) (k : nat) (dto : DistributeCouponDto) (n offset credits : Z) :
    list effect * option (result string CouponDistributionResponse) :=
  if n <=? offset then ([], Some (Ok {| cr_totalCredits := credits; cr_holderCount := n |}))
  else match fuel with
       | O => ([], None)
       | S fuel =>
           let b := {| db_periodIndex := dc_periodIndex dto; db_reportId := dc_reportId dto; db_offset := offset;
                       db_limit := Z.min MAX_SAFE_BATCH_SIZE (n - offset) |} in
           match distributeCouponBatch e k b with
           | (sent, Err err) => (sent, Some (Err err))
           | (sent, Ok r) => let '(rest, answer) := batches fuel e (S k) dto n (br_cursor r) (br_totalCredits r) in (sent ++ rest, answer)
           end
       end.

(** The list is read once at the start (position 0), then once for each batch. *)
Definition distributeCoupon (fuel : nat) (e : env) (dto : DistributeCouponDto) : list effect * option (result string CouponDistributionResponse) :=
  match (holders ← e_holders e 0; _ ← check_report e 0 (dc_reportId dto); Ok holders) with
  | Err err => ([], Some (Err err))
  | Ok holders =>
      let n := Z.of_nat (length holders) in
      if MAX_SAFE_BATCH_SIZE <? n then batches fuel e 1 dto n 0 0
      else match e_nonce e 0 with
           | Err err => ([], Some (Err err))
           | Ok _ =>
               let sent := [InvokeSingle holders (dc_reportId dto)] in
               match (credits ← e_contract e 0; count ← e_count e; Ok (credits, count)) with
               | Err err => (sent, Some (Err err))
               | Ok (credits, count) =>
                   match e_capture e 0 with
                   | Ok _ => (sent ++ [Captured (dc_periodIndex dto) holders credits], Some (Ok {| cr_totalCredits := credits; cr_holderCount := count |}))
                   | Err err => (sent, Some (Err err))
                   end
               end
           end
  end.

(** ** Which holders a distribution names *)

Definition slice (l : list string) (offset limit : Z) : list string := take (Z.to_nat limit) (drop (Z.to_nat offset) l).

(** The holders that the contract is told to pay. *)
Definition paid_by (x : effect) : list string :=
  match x with InvokeBatch hs _ offset limit _ => slice hs offset limit | InvokeSingle hs _ => hs | Captured _ _ _ => [] end.
Definition paid (l : list effect) : list string := concat (paid_by <$> l).

Definition small_batch (x : effect) : Prop := match x with InvokeBatch _ _ _ limit _ => limit ≤ MAX_SAFE_BATCH_SIZE | _ => True end.

(** Every call is answered, and the holder list is the same each time. *)
Record steady (e : env) (hs : list string) : Prop := {
  st_holders : ∀ k, e_holders e k = Ok hs;
  st_report : ∀ k r, check_report e k r = Ok tt;
  st_nonce : ∀ k, ∃ z, e_nonce e k = Ok z;
  st_contract : ∀ k, ∃ z, e_contract e k = Ok z;
  st_count : ∃ z, e_count e = Ok z;
  st_capture : ∀ k, e_capture e k = Ok tt;
}.

Lemma paid_app l1 l2 : paid (l1 ++ l2) = paid l1 ++ paid l2.
Proof. unfold paid. by rewrite fmap_app, concat_app. Qed.

Lemma slice_step hs o m : 0 ≤ o → 0 ≤ m → slice hs o m ++ drop (Z.to_nat (o + m)) hs = drop (Z.to_nat o) hs.
Proof.
  intros Ho Hm. unfold slice. rewrite <- (take_drop (Z.to_nat m) (drop (Z.to_nat o) hs)) at 2. f_equal. rewrite drop_drop. f_equal. lia.
Qed.

(** One batch of a steady distribution. *)
Lemma batch_steady e hs k dto : steady e hs → 0 ≤ db_offset dto ≤ Z.of_nat (length hs) → 0 ≤ db_limit dto ≤ 100 →
  ∃ sent r, distributeCouponBatch e k dto = (sent, Ok r) ∧
    br_cursor r = Z.min (db_offset dto + db_limit dto) (Z.of_nat (length hs)) ∧
    paid sent = slice hs (db_offset dto) (br_cursor r - db_offset dto) ∧
    Forall (λ x, match x with InvokeBatch _ _ _ limit _ => limit ≤ db_limit dto | _ => True end) sent.
Proof.
  intros Hs Ho Hl. unfold distributeCouponBatch, prepare_batch. destruct (st_nonce _ _ Hs k) as [z ->]. cbn [mbind result_bind].
  unfold throw_if. rewrite (proj2 (Z.ltb_ge 100 (db_limit dto))) by lia. cbn [mbind result_bind]. rewrite (st_holders _ _ Hs). cbn [mbind result_bind].
  rewrite (proj2 (Z.ltb_ge (Z.of_nat (length hs)) (db_offset dto))) by lia. cbn [mbind result_bind]. rewrite (st_report _ _ Hs). cbn [mbind result_bind].
  destruct (st_contract _ _ Hs k) as [cr ->]. rewrite (st_capture _ _ Hs). set (m := Z.min _ _).
  destruct (_ <=? _); eexists _, _; (split; [reflexivity|]); cbn [br_cursor]; (split; [lia|]); unfold paid; cbn;
    rewrite ?app_nil_r; (split; [f_equal; lia|]); repeat constructor; lia.
Qed.

Lemma batches_steady fuel e hs k dto o c : steady e hs → 0 ≤ o ≤ Z.of_nat (length hs) → (length hs - Z.to_nat o ≤ fuel)%nat →
  ∃ sent r, batches fuel e k dto (Z.of_nat (length hs)) o c = (sent, Some (Ok r)) ∧
    paid sent = drop (Z.to_nat o) hs ∧ Forall small_batch sent ∧ cr_holderCount r = Z.of_nat (length hs).
Proof.
  intros Hs. revert k o c. induction fuel as [|fuel IH]; intros k o c Ho Hf; cbn [batches].
  - rewrite (proj2 (Z.leb_le _ _)) by lia. eexists _, _. split_and!; [reflexivity| |constructor|done]. rewrite drop_ge by lia. done.
  - destruct (Z.leb_spec (Z.of_nat (length hs)) o).
    { eexists _, _. split_and!; [reflexivity| |constructor|done]. rewrite drop_ge by lia. done. }
    set (b := {| db_periodIndex := _ |}). destruct (batch_steady e hs k b Hs) as (sent & r & -> & Hc & Hp & Hl).
    { cbn. lia. } { cbn. unfold MAX_SAFE_BATCH_SIZE. lia. }
    cbn [db_offset db_limit b] in *.
    destruct (IH (S k) (br_cursor r) (br_totalCredits r)) as (sent' & r' & -> & Hp' & Hl' & Hn').
    { rewrite Hc. unfold MAX_SAFE_BATCH_SIZE. lia. } { rewrite Hc. unfold MAX_SAFE_BATCH_SIZE. lia. }
    eexists _, _. split_and!; [reflexivity| | |done].
    + rewrite paid_app, Hp, Hp'. rewrite <- (slice_step hs o (br_cursor r - o)); [|lia|rewrite Hc; unfold MAX_SAFE_BATCH_SIZE; lia].
      f_equal. f_equal. f_equal. lia.
    + apply Forall_app. split; [|done]. eapply List.Forall_impl; [|exact Hl]. intros [|?|?]; cbn; lia.
Qed.

(** C21: a distribution during which the holder list stays the same pays every holder exactly
    once: its batches, put together, are the holder list, each has at most fifty holders, and
    the loop ends, with as much fuel as there are holders. *)
Theorem coupon_batches_cover e hs dto :
  steady e hs →
  ∃ sent r, distributeCoupon (length hs) e dto = (sent, Some (Ok r)) ∧ paid sent = hs ∧ Forall small_batch sent.
Proof.
  intros Hs. unfold distributeCoupon. rewrite (st_holders _ _ Hs), (st_report _ _ Hs). cbn [mbind result_bind].
  destruct (_ <? _).
  - destruct (batches_steady (length hs) e hs 1 dto 0 0 Hs) as (sent & r & -> & Hp & Hl & _); [lia..|]. by exists sent, r.
  - destruct (st_nonce _ _ Hs 0) as [z ->], (st_contract _ _ Hs 0) as [c ->], (st_count _ _ Hs) as [n ->]. cbn [mbind result_bind].
    rewrite (st_capture _ _ Hs). eexists _, _. split_and!; [reflexivity| |by repeat constructor]. unfold paid. cbn. by rewrite app_nil_r.
Qed.

(** Nothing is sent for a report that is challenged or rejected. *)
Lemma no_coupon_on_challenge e k dto st :
  e_oracle e = true → e_report e k = Ok st → st = Challenged ∨ st = Rejected →
  (distributeCouponBatch e k dto).1 = [].
Proof.
  intros Ho Hr Hst. unfold distributeCouponBatch, prepare_batch, check_report. rewrite Ho, Hr.
  destruct (e_nonce e k); [|done]. cbn [mbind result_bind]. destruct (throw_if _ _); [|done]. cbn [mbind result_bind].
  destruct (e_holders e k); [|done]. cbn [mbind result_bind]. destruct (throw_if _ _); [|done]. cbn [mbind result_bind].
  by destruct Hst as [-> | ->].
Qed.

(** The loop compares its cursor with the length of the first list, and the cursor cannot pass
    the end of the lists read later: once a holder has left the index, the loop never ends
    and keeps sending empty batches. *)
Lemma shrunk_list_never_ends fuel e hs k dto n o c :
  steady e hs → Z.of_nat (length hs) < n → 0 ≤ o ≤ Z.of_nat (length hs) → (batches fuel e k dto n o c).2 = None.
Proof.
  intros Hs Hn. revert k o c. induction fuel as [|fuel IH]; intros k o c Ho; cbn [batches]; rewrite (proj2 (Z.leb_gt _ _)) by lia; [done|].
  set (b := {| db_periodIndex := _ |}). destruct (batch_steady e hs k b Hs) as (sent & r & -> & Hc & _).
  { cbn. lia. } { cbn. unfold MAX_SAFE_BATCH_SIZE. lia. }
  cbn [db_offset db_limit b] in Hc. specialize (IH (S k) (br_cursor r) (br_totalCredits r)).
  destruct (batches fuel e (S k) dto n (br_cursor r) (br_totalCredits r)) as [rest a]. cbn [snd] in *. apply IH. rewrite Hc. unfold MAX_SAFE_BATCH_SIZE. lia.
Qed.

Definition crowd (n : nat) : list string := (λ i, "G" +:+ Z_to_string (Z.of_nat i)) <$> seq 0 n.
Definition crowd_env (later : list string) : env :=
  {| e_holders := λ k, Ok (match k with O => crowd 52 | S O => crowd 52 | _ => later end); e_oracle := false; e_report := λ _, Ok Verified;
     e_nonce := λ k, Ok (Z.of_nat k); e_contract := λ k, Ok (match k with S O => 10 | _ => 3 end); e_count := Ok 0; e_capture := λ _, Ok tt |}.
Definition sample_dto : DistributeCouponDto := {| dc_periodIndex := 1; dc_reportId := 7 |}.

Lemma coupon_batches_cover_witness :
  ∃ sent r, distributeCoupon (length (crowd 52)) (crowd_env (crowd 52)) sample_dto = (sent, Some (Ok r)) ∧ paid sent = crowd 52 ∧ Forall small_batch sent.
Proof.
  apply (coupon_batches_cover (crowd_env (crowd 52)) (crowd 52) sample_dto). split; try done; try by eexists.
  intros [|[|k]]; reflexivity.
Defined.

(** When the first holder sells between two batches, the positions shift and a holder who
    kept the bond is skipped. *)
Lemma shrunk_list_skips_holder :
  let '(sent, answer) := distributeCoupon 5 (crowd_env (tail (crowd 52))) sample_dto in
  "G50" ∈ tail (crowd 52) ∧ "G50" ∉ paid sent ∧ answer = None.
Proof.
  vm_compute. split_and!; [repeat (apply list_elem_of_here || apply list_elem_of_further)| |done].
  intros H. repeat (apply elem_of_cons in H as [H|H]; [done|]). by apply elem_of_nil in H.
Qed.

(** The total that is answered is the one of the last batch. *)
Lemma last_batch_total :
  (distributeCoupon 5 (crowd_env (crowd 52)) sample_dto).2 = Some (Ok {| cr_totalCredits := 3; cr_holderCount := 52 |}).
Proof. by vm_compute. Qed.

(** ** Listing bonds *)

Section Pages.
Context {B : Type} (read : Z → option B).

(** One page: the bonds that cannot be read are left out. *)
Definition findAll (total page limit : Z) : list B :=
  let start := (page - 1) * limit in
  let end_ := Z.min (start + limit) total in
  omap read (filter (λ id, start < id ≤ end_) (seqZ 1 total)).

Definition totalPages (total limit : Z) : Z := let n := (total + limit - 1) / limit in if n =? 0 then 1 else n.

Lemma filter_split (l : list Z) a b : StronglySorted Z.le l → a ≤ b →
  filter (λ x, x ≤ a) l ++ filter (λ x, a < x ≤ b) l = filter (λ x, x ≤ b) l.
Proof.
  intros Hs Hab. induction Hs as [|x l _ IH Hx]; [done|]. rewrite !filter_cons. destruct (decide (x ≤ a)) as [Ha|Ha].
  - rewrite decide_False by lia. rewrite decide_True by lia. cbn. by rewrite IH.
  - rewrite (filter_drop (λ x, x ≤ a) l), app_nil_l in * by (intros y Hy; rewrite Forall_forall in Hx; specialize (Hx y Hy); lia).
    case_decide; case_decide; try lia; by rewrite IH.
Qed.

Lemma seqZ_sorted m n : StronglySorted Z.le (seqZ m n).
Proof.
  unfold seqZ. generalize (Z.to_nat n) as k. intros k. revert m. induction k as [|k IH]; intros m; [constructor|].
  cbn. constructor.
  - rewrite <- fmap_S_seq, <- list_fmap_compose. erewrite list_fmap_ext; [apply (IH (Z.succ m))|]. intros i x _. cbn. lia.
  - apply Forall_forall. intros x (i & -> & _)%list_elem_of_fmap. lia.
Qed.

(** Reading the pages one after the other lists every bond that can be read, once and in
    order. *)
Theorem bond_pages_partition total limit : 0 ≤ total → 0 < limit →
  concat ((λ p, findAll total p limit) <$> seqZ 1 (totalPages total limit)) = omap read (seqZ 1 total).
Proof.
  intros Ht Hl.
  assert (∀ p, 0 ≤ p → concat ((λ p, findAll total p limit) <$> seqZ 1 p) =
    omap read (filter (λ x, x ≤ Z.min (p * limit) total) (seqZ 1 total))) as H.
  { intros p Hp. pattern p. apply natlike_ind; [| |done].
    - rewrite (filter_drop (λ x, x ≤ Z.min (0 * limit) total)); [done|]. intros x Hx%elem_of_seqZ. lia.
    - clear p Hp. intros p Hp IH. replace (seqZ 1 (Z.succ p)) with (seqZ 1 p ++ [Z.succ p]).
      2:{ rewrite <- (Z.add_1_r p), seqZ_app by lia. f_equal. rewrite seqZ_cons, seqZ_nil by lia. f_equal. lia. }
      rewrite fmap_app, concat_app, IH. cbn. rewrite app_nil_r. unfold findAll. rewrite <- omap_app. f_equal.
      replace (Z.succ p - 1) with p by lia. rewrite <- (filter_split _ (Z.min (p * limit) total) (Z.min (Z.succ p * limit) total)); [|apply seqZ_sorted|lia].
      f_equal. apply list_filter_iff. intros x. replace (Z.succ p * limit) with (p * limit + limit) by lia. lia. }
  unfold totalPages. pose proof (Z.mul_div_le (total + limit - 1) limit Hl). pose proof (Z.mul_succ_div_gt (total + limit - 1) limit Hl).
  assert (0 ≤ (total + limit - 1) / limit) by (apply Z.div_pos; lia).
  set (q := (total + limit - 1) / limit) in *. clearbody q. destruct (Z.eqb_spec q 0) as [E|E].
  - subst q. rewrite H by lia. rewrite filter_keep; [done|]. intros x Hx%elem_of_seqZ. lia.
  - rewrite H by lia. rewrite filter_keep; [done|]. intros x Hx%elem_of_seqZ. nia.
Qed.
End Pages.

(** ** The export *)

(** [JSON.stringify(value, keys)]: an array as the second argument keeps only the properties
    it names, in every object of the value. *)
Fixpoint pick_keys (allow : list string) (j : json) : json :=
  match j with
  | JArr l => JArr (map (pick_keys allow) l)
  | JObj l => let l' := map (λ kv, (fst kv, pick_keys allow (snd kv))) l in JObj (omap (λ k, (k,.) <$> jget k l') allow)
  | _ => j
  end.

Record BondExport := {
  ex_metadata : list (string * json);
  ex_bond : list (string * json);
  ex_lifecycleEvents : list (list (string * json));
  ex_holders : list (list (string * json));
  ex_couponDistributions : list (list (string * json));
  ex_retirements : list (list (string * json));
}.

Definition payload_json (p : BondExport) : list (string * json) :=
  [ ("generationMetadata", JObj (ex_metadata p)); ("bond", JObj (ex_bond p)); ("lifecycleEvents", JArr (JObj <$> ex_lifecycleEvents p));
    ("holders", JArr (JObj <$> ex_holders p)); ("couponDistributions", JArr (JObj <$> ex_couponDistributions p));
    ("retirements", JArr (JObj <$> ex_retirements p)) ].

Definition export_keys : list string := ["bond"; "couponDistributions"; "generationMetadata"; "holders"; "lifecycleEvents"; "retirements"].

Lemma export_keys_sorted p : merge_sort str_le (payload_json p).*1 = export_keys.
Proof. by vm_compute. Qed.

Definition export_checksum (sha256 : string → string) (p : BondExport) : string :=
  sha256 (JSON_stringify (pick_keys (merge_sort str_le (payload_json p).*1) (JObj (payload_json p)))).

(** The objects of an export use none of the top-level names. *)
Definition plain (l : list (string * json)) : Prop := ∀ k, k ∈ export_keys → k ∉ l.*1.

Lemma pick_plain l : plain l → pick_keys export_keys (JObj l) = JObj [].
Proof.
  intros H. cbn [pick_keys]. f_equal. set (l' := map _ l).
  assert (∀ k, k ∈ export_keys → jget k l' = None) as Hn.
  { intros k Hk%H. clear H. subst l'. induction l as [|[k1 v1] l IH]; [done|]. cbn in *. apply not_elem_of_cons in Hk as [Hk1 Hk].
    rewrite decide_False by done. by apply IH. }
  clearbody l'. clear H. induction export_keys as [|k ks IH]; [done|]. cbn. rewrite Hn by apply list_elem_of_here. cbn. apply IH. intros k' Hk'. apply Hn. by apply list_elem_of_further.
Qed.

Lemma pick_rows ls : Forall plain ls → pick_keys export_keys (JArr (JObj <$> ls)) = JArr (replicate (length ls) (JObj [])).
Proof.
  intros H. cbn [pick_keys]. f_equal. induction H as [|l ls Hl _ IH]; [done|]. rewrite fmap_cons. cbn [map length replicate]. by rewrite pick_plain, IH.
Qed.

(** The checksum of an export depends on nothing but the numbers of its entries: amounts,
    holders and dates can be changed without changing it. *)
Theorem checksum_ignores_content sha256 p q :
  (∀ x, x = p ∨ x = q → plain (ex_metadata x) ∧ plain (ex_bond x) ∧ Forall plain (ex_lifecycleEvents x) ∧ Forall plain (ex_holders x) ∧
     Forall plain (ex_couponDistributions x) ∧ Forall plain (ex_retirements x)) →
  length (ex_lifecycleEvents p) = length (ex_lifecycleEvents q) → length (ex_holders p) = length (ex_holders q) →
  length (ex_couponDistributions p) = length (ex_couponDistributions q) → length (ex_retirements p) = length (ex_retirements q) →
  export_checksum sha256 p = export_checksum sha256 q.
Proof.
  intros Hp H1 H2 H3 H4. unfold export_checksum. rewrite !export_keys_sorted. f_equal. f_equal.
  assert (∀ x, x = p ∨ x = q → pick_keys export_keys (JObj (payload_json x)) =
    JObj [("bond", JObj []); ("couponDistributions", JArr (replicate (length (ex_couponDistributions x)) (JObj [])));
          ("generationMetadata", JObj []); ("holders", JArr (replicate (length (ex_holders x)) (JObj [])));
          ("lifecycleEvents", JArr (replicate (length (ex_lifecycleEvents x)) (JObj [])));
          ("retirements", JArr (replicate (length (ex_retirements x)) (JObj [])))]) as E.
  { intros x (Hm & Hb & Hl & Hh & Hc & Hr)%Hp.
    change (pick_keys export_keys (JObj (payload_json x))) with
      (JObj [("bond", pick_keys export_keys (JObj (ex_bond x))); ("couponDistributions", pick_keys export_keys (JArr (JObj <$> ex_couponDistributions x)));
             ("generationMetadata", pick_keys export_keys (JObj (ex_metadata x))); ("holders", pick_keys export_keys (JArr (JObj <$> ex_holders x)));
             ("lifecycleEvents", pick_keys export_keys (JArr (JObj <$> ex_lifecycleEvents x)));
             ("retirements", pick_keys export_keys (JArr (JObj <$> ex_retirements x)))]).
    by rewrite !pick_plain, !pick_rows. }
  rewrite (E p), (E q) by auto. by rewrite H1, H2, H3, H4.
Qed.
