(* ===== verification/PolicyConfig.v ===== *)
(** * Changes of the policy configuration

    Models [api/src/policy/policy-config-change.service.ts] over [AuditTrail], with
    [getPolicyConfiguration] and [updatePolicyConfiguration] of
    [api/src/policy/policy.service.ts]: parsing a change, recording it before it takes effect,
    retries, rejections and rollback.

    A configuration is an object whose values are big integers, JSON values (those loaded from
    the environment) or [undefined].  An undefined setting is left out of a snapshot, where the
    code keeps its key and hashes it as [null]: the two are told apart by nothing but a setting
    the environment gives as [null].  [above_100] is the comparison of a number with 100 and
    [mixed_gt] the comparison of a big integer with a value from the environment.
    Operations are serialised by the service; other services write to the audit trail in
    between, under other keys.

    Shown: the configuration in force is the one of the last recorded change, and the
    recorded changes join without a gap, in every sequence of changes, refusals, rollbacks and
    foreign writes ([policy_changes_evidenced]); a rollback gives back to the keys of its
    target the values from before, and touches no other key ([policy_rollback_exact]); a retry
    is answered as before ([policy_retry]).  Where the code falls short:
    [rollback_breaks_bounds], [rejections_exhaust_audit]. *)
From S2P Require Import Prelude JsDate Json AuditTrail.

Definition POLICY_CONFIG_ENTITY_TYPE : string := "admin-config".
Definition POLICY_CONFIG_ENTITY_ID : string := "policy".

Inductive PolicyConfigAction := Updated | RejectedChange | RolledBack.
Definition action_text (a : PolicyConfigAction) : string :=
  match a with
  | Updated => "policy.config.updated"
  | RejectedChange => "policy.config.rejected"
  | RolledBack => "policy.config.rolled_back"
  end.

Inductive setting := SBig (z : Z) | SJson (j : json) | SUndefined.
#[export] Instance setting_eq_dec : EqDecision setting.
Proof. solve_decision. Defined.
Definition PolicyConfiguration := list (string * setting).

Record PolicyConfigChangeRequest := { pr_changeId : string; pr_actor : string; pr_reason : string; pr_updates : json }.

Record PolicyConfigChangeOutcome := {
  po_changeId : string;
  po_applied : bool;
  po_changedKeys : list string;
  po_config : json;
  po_evidence : option (Z * string);
}.

Definition BIGINT_KEYS : list string := ["minSubscriptionAmount"; "maxSubscriptionAmount"; "maxTotalHoldings"].
Definition NUMBER_KEYS : list string := ["redeemptionPenaltyPercentage"; "earlyRedemptionMinDaysRemaining"; "maturityWarningDays"].
Definition LIST_KEYS : list string := ["restrictedJurisdictions"; "allowedTransitoryStates"].

Definition MAX_CHANGE_ID_LENGTH : nat := 128.
Definition MAX_REASON_LENGTH : nat := 500.
Definition MAX_REMEMBERED_CHANGES : Z := 5000.

Record state := {
  policyConfig : PolicyConfiguration;
  trail : AuditService;
  outcomes : list (string * (string * PolicyConfigChangeOutcome));
}.

(** [config[key]]. *)
Definition setting_of (c : PolicyConfiguration) (k : string) : setting := default SUndefined (aget k c).

(** [{ ...c, ...u }]. *)
Definition spread (c u : PolicyConfiguration) : PolicyConfiguration := foldl (λ c kv, aput kv.1 kv.2 c) c u.

Definition toJsonSafe (s : setting) : option json :=
  match s with SBig z => Some (JStr (Z_to_string z)) | SJson j => Some j | SUndefined => None end.

(** An [undefined] property is in no text and reads like a missing one. *)
Definition toSnapshot (c : PolicyConfiguration) : json := JObj (omap (λ kv, (kv.1,.) <$> toJsonSafe kv.2) c).

(** [stableStringify(snapshot[key])]. *)
Definition text_at (c : PolicyConfiguration) (k : string) : option string := stableStringify <$> toJsonSafe (setting_of c k).

Definition is_string (j : option json) : option string := match j with Some (JStr s) => Some s | _ => None end.

(** [fromSnapshot(snapshot)[key]]. *)
Definition from_snapshot_at (snapshot : json) (k : string) : result string setting :=
  match prop snapshot k with
  | None => Ok SUndefined
  | Some (JStr s) =>
      if decide (k ∈ BIGINT_KEYS) then
        match BigInt_of_string s with Some z => Ok (SBig z) | None => Err "SyntaxError: Cannot convert to a BigInt" end
      else Ok (SJson (JStr s))
  | Some j => Ok (SJson j)
  end.

(** [fromSnapshot] converts all three amounts, so it throws when any of them is no integer. *)
Definition fromSnapshot_ok (snapshot : json) : result string unit :=
  foldr (λ k r, _ ← from_snapshot_at snapshot k; r) (Ok tt) BIGINT_KEYS.

Fixpoint from_keys (snapshot : json) (ks : list string) : result string PolicyConfiguration :=
  match ks with
  | [] => Ok []
  | k :: ks => s ← from_snapshot_at snapshot k; r ← from_keys snapshot ks; Ok ((k, s) :: r)
  end.

Definition all_strings (l : list json) : option (list string) := mapM (λ j, is_string (Some j)) l.
Definition is_letter (c : ascii) : bool := ((65 <=? code c) && (code c <=? 90) || (97 <=? code c) && (code c <=? 122))%N.
Definition JURISDICTION (s : string) : bool := (2 <=? String.length s)%nat && (String.length s <=? 16)%nat && str_forall is_letter s.
Definition INTEGER_STRING (s : string) : bool := negb (bool_decide (s = EmptyString)) && str_forall is_digit s.
Definition negative (t : string) : bool := match t with String "-" _ => true | _ => false end.

Section Service.
Context (sha256 : string → string) (above_100 : string → bool) (mixed_gt : setting → setting → bool).

(** One entry of the change. *)
Definition parse_update (k : string) (v : json) : result string setting :=
  if decide (k ∈ BIGINT_KEYS) then
    match v with
    | JStr s => if INTEGER_STRING s then Ok (SBig (default 0 (decimal_val s))) else Err (k +:+ " must be a non-negative integer string")
    | _ => Err (k +:+ " must be a non-negative integer string")
    end
  else if decide (k ∈ NUMBER_KEYS) then
    match v with
    | JNum t =>
        if negative t then Err (k +:+ " must be a non-negative number")
        else if bool_decide (k = "redeemptionPenaltyPercentage") && above_100 t then Err (k +:+ " must be at most 100")
        else Ok (SJson (JNum t))
    | _ => Err (k +:+ " must be a non-negative number")
    end
  else if decide (k ∈ LIST_KEYS) then
    match v with
    | JArr l =>
        match all_strings l with
        | None => Err (k +:+ " must be an array of strings")
        | Some ss =>
            if bool_decide (k = "restrictedJurisdictions") && negb (forallb JURISDICTION ss) then
              Err (k +:+ " entries must be letter-only jurisdiction codes")
            else
              let items := if bool_decide (k = "restrictedJurisdictions") then toUpperCase <$> ss else ss in
              Ok (SJson (JArr (JStr <$> merge_sort str_le (js_set items))))
        end
    | _ => Err (k +:+ " must be an array of strings")
    end
  else Err ("Unknown policy setting: " +:+ k).

Fixpoint parse_entries (l : list (string * json)) : result string PolicyConfiguration :=
  match l with
  | [] => Ok []
  | (k, v) :: l => s ← parse_update k v; r ← parse_entries l; Ok ((k, s) :: r)
  end.

(** [a > b] for two amounts. *)
Definition exceeds (a b : setting) : bool :=
  match a, b with
  | SBig a, SBig b => b <? a
  | SUndefined, _ | _, SUndefined => false
  | a, b => mixed_gt a b
  end.

Definition parseUpdates (raw : json) (current : PolicyConfiguration) : result string PolicyConfiguration :=
  match raw with
  | JObj [] => Err "updates must be a non-empty object"
  | JObj l =>
      updates ← parse_entries l;
      let merged := spread current updates in
      if exceeds (setting_of merged "minSubscriptionAmount") (setting_of merged "maxSubscriptionAmount") then
        Err "minSubscriptionAmount must not exceed maxSubscriptionAmount"
      else Ok updates
  | _ => Err "updates must be a non-empty object"
  end.

Definition fingerprintOf (rq : PolicyConfigChangeRequest) (a : PolicyConfigAction) : string :=
  sha256 (stableStringify (JObj [("action", JStr (action_text a)); ("actor", JStr (pr_actor rq));
                                 ("reason", JStr (pr_reason rq)); ("updates", pr_updates rq)])).

Definition replayed (st : state) (rq : PolicyConfigChangeRequest) (a : PolicyConfigAction) :
    result string (option PolicyConfigChangeOutcome) :=
  if bool_decide (trim (pr_changeId rq) = EmptyString) || (MAX_CHANGE_ID_LENGTH <? String.length (pr_changeId rq))%nat then
    Err "changeId is required (at most 128 characters)"
  else if bool_decide (trim (pr_reason rq) = EmptyString) || (MAX_REASON_LENGTH <? String.length (pr_reason rq))%nat then
    Err "reason is required (at most 500 characters)"
  else match aget (pr_changeId rq) (outcomes st) with
       | None => Ok None
       | Some (fp, o) =>
           if decide (fp = fingerprintOf rq a) then Ok (Some o)
           else Err ("changeId " +:+ pr_changeId rq +:+ " was already used for a different change")
       end.

Definition changed_keys (before after : PolicyConfiguration) : list string :=
  merge_sort str_le (filter (λ k, text_at after k ≠ text_at before k) after.*1).

Definition change_write (rq : PolicyConfigChangeRequest) (a : PolicyConfigAction) (before after : json) (changedKeys : list string)
    (extra : list (string * json)) : AuditWrite :=
  {| aw_entityType := POLICY_CONFIG_ENTITY_TYPE; aw_entityId := POLICY_CONFIG_ENTITY_ID; aw_action := action_text a;
     aw_actor := pr_actor rq; aw_reason := Some (pr_reason rq); aw_before := Some (JObj [("config", before)]);
     aw_after := Some (JObj ([("config", after); ("changeId", JStr (pr_changeId rq)); ("changedKeys", JArr (JStr <$> changedKeys))] ++ extra)) |}.

(** Keep the outcome for retries, dropping the oldest one beyond the limit. *)
Definition remember (l : list (string * (string * PolicyConfigChangeOutcome))) (id fp : string) (o : PolicyConfigChangeOutcome) :
    list (string * (string * PolicyConfigChangeOutcome)) :=
  let l := aput id (fp, o) l in
  if MAX_REMEMBERED_CHANGES <? Z.of_nat (length l) then tail l else l.

Definition commit (st : state) (rq : PolicyConfigChangeRequest) (a : PolicyConfigAction) (updates : PolicyConfiguration)
    (extra : list (string * json)) (uuid : string) (clock : Z) : state * result string PolicyConfigChangeOutcome :=
  let before := policyConfig st in
  let after := spread before updates in
  let ks := changed_keys before after in
  let finish st evidence :=
    let o := {| po_changeId := pr_changeId rq; po_applied := negb (bool_decide (ks = [])); po_changedKeys := ks;
                po_config := toSnapshot after; po_evidence := evidence |} in
    ({| policyConfig := policyConfig st; trail := trail st;
        outcomes := remember (outcomes st) (pr_changeId rq) (fingerprintOf rq a) o |}, Ok o) in
  if decide (ks = []) then finish st None
  else match record sha256 (trail st) (change_write rq a (toSnapshot before) (toSnapshot after) ks extra) uuid clock with
       | (trail', Rejected why) =>
           ({| policyConfig := policyConfig st; trail := trail'; outcomes := outcomes st |},
            Err ("Audit evidence could not be recorded (" +:+ why +:+ "); change not applied"))
       | (trail', Recorded e) =>
           finish {| policyConfig := after; trail := trail'; outcomes := outcomes st |} (Some (ar_sequence e, ar_hash e))
       end.

Definition recordRejection (st : state) (rq : PolicyConfigChangeRequest) (error : string) (uuid : string) (clock : Z) : state :=
  let w := {| aw_entityType := POLICY_CONFIG_ENTITY_TYPE; aw_entityId := POLICY_CONFIG_ENTITY_ID;
              aw_action := action_text RejectedChange; aw_actor := pr_actor rq; aw_reason := Some (pr_reason rq);
              aw_before := Some (JObj [("config", toSnapshot (policyConfig st))]);
              aw_after := Some (JObj [("changeId", JStr (pr_changeId rq)); ("error", JStr error); ("attempted", pr_updates rq)]) |} in
  {| policyConfig := policyConfig st; trail := (record sha256 (trail st) w uuid clock).1; outcomes := outcomes st |}.

Definition apply (st : state) (rq : PolicyConfigChangeRequest) (uuid : string) (clock : Z) : state * result string PolicyConfigChangeOutcome :=
  match replayed st rq Updated with
  | Err e => (st, Err e)
  | Ok (Some o) => (st, Ok o)
  | Ok None =>
      match parseUpdates (pr_updates rq) (policyConfig st) with
      | Err e => (recordRejection st rq e uuid clock, Err e)
      | Ok updates => commit st rq Updated updates [] uuid clock
      end
  end.

(** The recorded change that a rollback undoes. *)
Definition is_target (target : string) (e : AuditRecord) : bool :=
  negb (bool_decide (ar_action e = action_text RejectedChange)) && bool_decide (prop (ar_after e) "changeId" = Some (JStr target)).

Definition changedKeys_of (e : AuditRecord) : list string :=
  match prop (ar_after e) "changedKeys" with Some (JArr l) => default [] (all_strings l) | _ => [] end.
Definition config_before (e : AuditRecord) : json := default JNull (prop (ar_before e) "config").
Definition config_after (e : AuditRecord) : json := default JNull (prop (ar_after e) "config").

Definition history (st : state) : list AuditRecord := getEntityHistory (trail st) POLICY_CONFIG_ENTITY_TYPE POLICY_CONFIG_ENTITY_ID.

Definition rollback_request (rq : PolicyConfigChangeRequest) (target : string) : PolicyConfigChangeRequest :=
  {| pr_changeId := pr_changeId rq; pr_actor := pr_actor rq; pr_reason := pr_reason rq;
     pr_updates := JObj [("targetChangeId", JStr target)] |}.

Definition rollback (st : state) (rq : PolicyConfigChangeRequest) (target : string) (uuid : string) (clock : Z) :
    state * result string PolicyConfigChangeOutcome :=
  let rq := rollback_request rq target in
  match replayed st rq RolledBack with
  | Err e => (st, Err e)
  | Ok (Some o) => (st, Ok o)
  | Ok None =>
      if negb (vr_ok (verifyEntity sha256 (trail st) POLICY_CONFIG_ENTITY_TYPE POLICY_CONFIG_ENTITY_ID true)) then
        (st, Err "Policy configuration audit chain failed verification; rollback refused")
      else match List.find (is_target target) (history st) with
           | None => (st, Err ("No applied policy change " +:+ target +:+ " to roll back"))
           | Some e =>
               match (_ ← fromSnapshot_ok (config_before e); from_keys (config_before e) (changedKeys_of e)) with
               | Err err => (st, Err err)
               | Ok restored => commit st rq RolledBack restored [("rolledBack", JStr target)] uuid clock
               end
           end
  end.

(** *** Sequences of calls *)

Inductive call :=
| Apply (rq : PolicyConfigChangeRequest) (uuid : string) (clock : Z)
| Rollback (rq : PolicyConfigChangeRequest) (target uuid : string) (clock : Z)
| Foreign (w : AuditWrite) (uuid : string) (clock : Z).

Definition step (st : state) (o : call) : state :=
  match o with
  | Apply rq uuid clock => (apply st rq uuid clock).1
  | Rollback rq target uuid clock => (rollback st rq target uuid clock).1
  | Foreign w uuid clock =>
      {| policyConfig := policyConfig st; trail := (record sha256 (trail st) w uuid clock).1; outcomes := outcomes st |}
  end.
Definition run (st : state) (os : list call) : state := foldl step st os.

End Service.

(** A foreign write goes to another history. *)
Definition foreign_ok (o : call) : Prop :=
  match o with
  | Foreign w _ _ => entityKey (aw_entityType w) (aw_entityId w) ≠ entityKey POLICY_CONFIG_ENTITY_TYPE POLICY_CONFIG_ENTITY_ID
  | _ => True
  end.

Definition started_with (c : PolicyConfiguration) (a : AuditService) : state := {| policyConfig := c; trail := a; outcomes := [] |}.

Section proofs.
Context (sha256 : string → string) (above_100 : string → bool) (mixed_gt : setting → setting → bool).
Notation commit := (commit sha256).
Notation apply := (apply sha256 above_100 mixed_gt).
Notation rollback := (rollback sha256).
Notation recordRejection := (recordRejection sha256).
Notation step := (step sha256 above_100 mixed_gt).
Notation run := (run sha256 above_100 mixed_gt).
Notation parseUpdates := (parseUpdates above_100 mixed_gt).

Definition applied (st : state) : list AuditRecord := filter (λ e, ar_action e ≠ action_text RejectedChange) (history st).

(** Each change starts from the configuration that the one before left. *)
Fixpoint joined (c : json) (es : list AuditRecord) (c' : json) : Prop :=
  match es with [] => c = c' | e :: es => config_before e = c ∧ joined (config_after e) es c' end.

Lemma joined_snoc c es e c' : joined c es (config_before e) → config_after e = c' → joined c (es ++ [e]) c'.
Proof.
  revert c. induction es as [|x es IH]; intros c H E; cbn in *; [by split|]. destruct H as [Hx H]. split; [done|]. by apply IH.
Qed.

(** What a recorded entry holds. *)
Lemma record_entry t w uuid clock t' e : record sha256 t w uuid clock = (t', Recorded e) →
  ar_action e = aw_action w ∧ ar_before e = default JNull (aw_before w) ∧ ar_after e = default JNull (aw_after w).
Proof.
  unfold record. repeat (case_decide; [done|]). destruct (getOrCreateChain _ _) as [t1 c]. cbn zeta. destruct (_ || _); [done|].
  by intros [= <- <-].
Qed.

Lemma history_record st w uuid clock t' r o :
  record sha256 (trail st) w uuid clock = (t', r) →
  entityKey (aw_entityType w) (aw_entityId w) = entityKey POLICY_CONFIG_ENTITY_TYPE POLICY_CONFIG_ENTITY_ID →
  ∀ c, history {| policyConfig := c; trail := t'; outcomes := o |} = history st ++ match r with Recorded e => [e] | Rejected _ => [] end.
Proof.
  intros E Hk c. unfold history. cbn [trail].
  pose proof (record_history sha256 (trail st) w uuid clock POLICY_CONFIG_ENTITY_TYPE POLICY_CONFIG_ENTITY_ID) as H.
  rewrite E in H. rewrite H. destruct r; [|done]. by rewrite decide_True.
Qed.

(** The three ways a commit ends. *)
Lemma commit_cases st rq a updates extra uuid clock :
  let after := spread (policyConfig st) updates in
  let ks := changed_keys (policyConfig st) after in
  let '(st', r) := commit st rq a updates extra uuid clock in
  (ks = [] ∧ policyConfig st' = policyConfig st ∧ trail st' = trail st ∧ ∃ o, r = Ok o ∧ po_changedKeys o = []) ∨
  (∃ why e, record sha256 (trail st) (change_write rq a (toSnapshot (policyConfig st)) (toSnapshot after) ks extra) uuid clock =
            (trail st', Rejected why) ∧ policyConfig st' = policyConfig st ∧ r = Err e) ∨
  (∃ e o, record sha256 (trail st) (change_write rq a (toSnapshot (policyConfig st)) (toSnapshot after) ks extra) uuid clock =
            (trail st', Recorded e) ∧ policyConfig st' = after ∧ r = Ok o ∧ po_changedKeys o = ks ∧
            po_config o = toSnapshot after ∧ po_evidence o = Some (ar_sequence e, ar_hash e)).
Proof.
  cbn zeta. unfold PolicyConfig.commit. case_decide as Hk.
  - cbv beta iota zeta. left. split_and!; [done..|]. rewrite Hk. eauto.
  - destruct (record _ _ _ _ _) as [t' [e|why]]; cbv beta iota zeta; right; [right|left]; cbn [trail policyConfig].
    + eexists _, _. split_and!; [reflexivity..|]. done.
    + by eexists _, _.
Qed.

(** Amounts are big integers, or numbers from the environment. *)
Definition typed (c : PolicyConfiguration) : Prop :=
  NoDup c.*1 ∧ ∀ k t, k ∈ BIGINT_KEYS → aget k c ≠ Some (SJson (JStr t)).

(** No text is put where an amount belongs. *)
Definition well_typed (u : PolicyConfiguration) : Prop :=
  ∀ kv, kv ∈ u → kv.1 ∈ BIGINT_KEYS → ∀ t, kv.2 ≠ SJson (JStr t).

Lemma spread_NoDup c u : NoDup c.*1 → NoDup (spread c u).*1.
Proof. unfold spread. revert c. induction u as [|kv u IH]; intros c H; [done|]. cbn. apply IH. by apply aput_keys_NoDup. Qed.

Lemma spread_typed c u : typed c → well_typed u → typed (spread c u).
Proof.
  intros [Hn Ht] Hu. split; [by apply spread_NoDup|]. unfold spread. clear Hn. revert c Ht.
  induction u as [|[k1 s1] u IH]; intros c Ht; [done|]. cbn [foldl fst snd]. apply IH.
  - intros kv Hkv. apply Hu. by apply list_elem_of_further.
  - intros k t Hk. rewrite aget_aput. case_decide as E; [|by apply Ht]. subst k1. intros [= E].
    by apply (Hu (k, s1) ltac:(apply list_elem_of_here) Hk t).
Qed.

Lemma parse_update_typed k v s : parse_update above_100 k v = Ok s → k ∈ BIGINT_KEYS → ∀ t, s ≠ SJson (JStr t).
Proof.
  unfold parse_update. intros E Hk t. rewrite decide_True in E by done. destruct v; try done. destruct (INTEGER_STRING _); [|done].
  by injection E as <-.
Qed.

Lemma parse_entries_typed l u : parse_entries above_100 l = Ok u → well_typed u.
Proof.
  revert u. induction l as [|[k v] l IH]; intros u; cbn [parse_entries]; [intros [= <-] kv ?%elem_of_nil; done|].
  intros (s & Hs & (r & Hr & [= <-])%bind_ok)%bind_ok kv [-> |Hkv]%elem_of_cons; [by apply parse_update_typed with v|by apply (IH r)].
Qed.

Lemma parseUpdates_typed raw c u : parseUpdates raw c = Ok u → well_typed u.
Proof.
  unfold PolicyConfig.parseUpdates. destruct raw as [| | | | |[|kv l]]; try done. intros (u' & Hu & H)%bind_ok.
  destruct (exceeds _ _ _); [done|]. injection H as <-. by eapply parse_entries_typed.
Qed.

Lemma from_keys_spec snapshot ks u : from_keys snapshot ks = Ok u →
  u.*1 = ks ∧ ∀ kv, kv ∈ u → from_snapshot_at snapshot kv.1 = Ok kv.2.
Proof.
  revert u. induction ks as [|k ks IH]; intros u; cbn [from_keys]; [intros [= <-]; split; [done|by intros kv ?%elem_of_nil]|].
  intros (s & Hs & (r & Hr & [= <-])%bind_ok)%bind_ok. destruct (IH r Hr) as [Hk Hf]. split; [by rewrite fmap_cons, Hk|].
  intros kv [-> |Hkv]%elem_of_cons; [done|by apply Hf].
Qed.

Lemma from_keys_typed snapshot ks u : from_keys snapshot ks = Ok u → well_typed u.
Proof.
  intros [_ H]%from_keys_spec kv Hkv Hk t E. specialize (H kv Hkv). revert H. unfold from_snapshot_at.
  destruct (prop snapshot kv.1) as [[| | |x| |]|]; rewrite E; try done. rewrite decide_True by done. by destruct (BigInt_of_string x).
Qed.

(** The recorded changes lead from the first configuration to the one in force. *)
Definition evidenced (c0 : PolicyConfiguration) (st : state) : Prop :=
  audit_ok sha256 (trail st) ∧ joined (toSnapshot c0) (applied st) (toSnapshot (policyConfig st)) ∧
  (typed c0 → typed (policyConfig st) ∧ Forall (λ e, ∃ cb, typed cb ∧ config_before e = toSnapshot cb) (applied st)).

Lemma record_audit_ok t w uuid clock t' r : audit_ok sha256 t → record sha256 t w uuid clock = (t', r) → audit_ok sha256 t'.
Proof. intros H E. pose proof (record_ok sha256 t w uuid clock H) as H'. by rewrite E in H'. Qed.

Lemma commit_evidenced c0 st rq a updates extra uuid clock :
  a ≠ RejectedChange → well_typed updates → evidenced c0 st → evidenced c0 (commit st rq a updates extra uuid clock).1.
Proof.
  intros Ha Hu (Hok & Hj & Hty). pose proof (commit_cases st rq a updates extra uuid clock) as H. cbn zeta in H.
  destruct (commit st rq a updates extra uuid clock) as [st' r]. cbn [fst]. destruct st' as [c' t' o'].
  destruct H as [(Hks & Hc & Ht & _)|[(why & e & Er & Hc & _)|(e & o & Er & Hc & _)]]; cbn [policyConfig trail] in *; subst c'.
  - subst t'. by split.
  - split; [by eapply record_audit_ok|]. unfold applied. rewrite (history_record st _ _ _ _ _ _ Er), app_nil_r by done. done.
  - split; [by eapply record_audit_ok|]. unfold applied. rewrite (history_record st _ _ _ _ _ _ Er) by done.
    destruct (record_entry _ _ _ _ _ _ Er) as (Eact & Eb & Ea). rewrite filter_app, filter_cons, filter_nil, decide_True.
    2:{ rewrite Eact. destruct a; done. }
    assert (config_before e = toSnapshot (policyConfig st)) as Hb by (unfold config_before; by rewrite Eb).
    split; [apply joined_snoc; [by rewrite Hb|unfold config_after; by rewrite Ea]|]. intros [Hc Hf]%Hty.
    split; [by apply spread_typed|]. apply Forall_app. split; [done|]. constructor; [by exists (policyConfig st)|constructor].
Qed.

Lemma rejection_evidenced c0 st rq e uuid clock : evidenced c0 st → evidenced c0 (recordRejection st rq e uuid clock).
Proof.
  intros (Hok & Hj & Ht). unfold PolicyConfig.recordRejection. cbn zeta. destruct (record _ _ _ _ _) as [t' r] eqn:Er. split; [by eapply record_audit_ok|]. cbn [fst policyConfig].
  unfold applied. rewrite (history_record st _ _ _ _ _ _ Er) by done. rewrite filter_app. destruct r as [en|]; [|by rewrite filter_nil, app_nil_r].
  destruct (record_entry _ _ _ _ _ _ Er) as (Eact & _). rewrite filter_cons, filter_nil, decide_False; [by rewrite app_nil_r|].
  rewrite Eact. intros H. by apply H.
Qed.

Lemma step_evidenced c0 st o : foreign_ok o → evidenced c0 st → evidenced c0 (step st o).
Proof.
  intros Hf H. destruct o as [rq uuid clock|rq target uuid clock|w uuid clock]; cbn [step].
  - unfold PolicyConfig.apply. destruct (replayed _ _ _) as [[]|]; [done| |done]. destruct (parseUpdates _ _) as [u|e] eqn:E; [|by apply rejection_evidenced].
    apply commit_evidenced; [done|by eapply parseUpdates_typed|done].
  - unfold PolicyConfig.rollback. destruct (replayed _ _ _) as [[]|]; [done| |done]. destruct (negb _); [done|]. destruct (List.find _ _) as [e|]; [|done].
    destruct (_ ≫= _) as [u|] eqn:E; [|done]. apply bind_ok in E as ([] & _ & E).
    apply commit_evidenced; [done|by eapply from_keys_typed|done].
  - destruct (record sha256 (trail st) w uuid clock) as [t' r] eqn:Er. destruct H as (Hok & Hj & Ht).
    split; [by eapply record_audit_ok|]. cbn [fst policyConfig]. unfold applied, history. cbn [trail].
    pose proof (record_history sha256 (trail st) w uuid clock POLICY_CONFIG_ENTITY_TYPE POLICY_CONFIG_ENTITY_ID) as Hh.
    rewrite Er in Hh. rewrite Hh. destruct r; [|by rewrite app_nil_r]. rewrite decide_False by (cbn in Hf; congruence). by rewrite app_nil_r.
Qed.

(** A call that changes the configuration adds one entry, which holds both configurations. *)
Lemma change_recorded st o : foreign_ok o → policyConfig (step st o) ≠ policyConfig st →
  ∃ e, history (step st o) = history st ++ [e] ∧ ar_action e ≠ action_text RejectedChange ∧
       config_before e = toSnapshot (policyConfig st) ∧ config_after e = toSnapshot (policyConfig (step st o)).
Proof.
  assert (∀ rq a u extra uuid clock, a ≠ RejectedChange → let st' := (commit st rq a u extra uuid clock).1 in
    policyConfig st' ≠ policyConfig st →
    ∃ e, history st' = history st ++ [e] ∧ ar_action e ≠ action_text RejectedChange ∧
         config_before e = toSnapshot (policyConfig st) ∧ config_after e = toSnapshot (policyConfig st')) as Hcommit.
  { intros rq a u extra uuid clock Ha. pose proof (commit_cases st rq a u extra uuid clock) as H. cbn zeta in *.
    destruct (commit st rq a u extra uuid clock) as [[c' t' o'] r]. cbn [fst policyConfig trail] in *. intros Hne.
    destruct H as [(_ & ? & _)|[(why & e & _ & ? & _)|(e & o1 & Er & -> & _)]]; [done..|]. exists e.
    destruct (record_entry _ _ _ _ _ _ Er) as (Eact & Eb & Ea). split_and!; [by apply (history_record st _ _ _ _ _ _ Er)|..].
    - rewrite Eact. by destruct a.
    - unfold config_before. by rewrite Eb.
    - unfold config_after. by rewrite Ea. }
  intros _. destruct o as [rq uuid clock|rq target uuid clock|w uuid clock]; cbn [PolicyConfig.step]; [..|done].
  - unfold PolicyConfig.apply. destruct (replayed _ _ _) as [[]|]; [done| |done]. destruct (parseUpdates _ _) as [u|e]; [|done].
    by apply Hcommit.
  - unfold PolicyConfig.rollback. destruct (replayed _ _ _) as [[]|]; [done| |done]. destruct (negb _); [done|].
    destruct (List.find _ _) as [e|]; [|done]. destruct (_ ≫= _) as [u|]; [|done]. by apply Hcommit.
Qed.

Lemma run_evidenced c0 os st : Forall foreign_ok os → evidenced c0 st → evidenced c0 (run st os).
Proof.
  intros Hf. revert st. induction Hf as [|o os Ho _ IH]; intros st H; [done|]. cbn. apply IH. by apply step_evidenced.
Qed.

(** Refused changes use up the room for evidence: once the history is full, no call changes
    the configuration any more, not even to undo a change. *)
Lemma rejections_exhaust_audit c0 st o :
  evidenced c0 st → foreign_ok o → Z.of_nat (length (history st)) = MAX_ENTRIES_PER_ENTITY →
  policyConfig (step st o) = policyConfig st.
Proof.
  intros He Ho Hl. destruct (decide (policyConfig (step st o) = policyConfig st)) as [|Hne]; [done|]. exfalso.
  destruct (change_recorded st o Ho Hne) as (e & Eh & _). destruct (step_evidenced c0 st o Ho He) as ((_ & Hc & _) & _).
  assert (Z.of_nat (length (history (step st o))) ≤ MAX_ENTRIES_PER_ENTITY) as Hle.
  { unfold history, getEntityHistory. destruct (aget _ _) as [c|] eqn:E; [|cbn; unfold MAX_ENTRIES_PER_ENTITY; lia].
    apply aget_Some_elem in E. rewrite Forall_forall in Hc. by destruct (Hc _ E) as (_ & _ & _ & ?). }
  rewrite Eh, length_app in Hle. cbn in Hle. lia.
Qed.

(** C15: no change without evidence.  After any sequence of changes, refused changes,
    rollbacks, retries and writes of other services to the audit trail, the configuration in
    force is the one in the last recorded change (the first configuration, if there is none),
    every recorded change starts from the configuration that the one before it left, and the
    history verifies; and a call that changes the configuration adds exactly one entry, with
    the configurations before and after. *)
Theorem policy_changes_evidenced c0 os :
  Forall foreign_ok os →
  let st := run (started_with c0 new_audit) os in
  vr_ok (verifyEntity sha256 (trail st) POLICY_CONFIG_ENTITY_TYPE POLICY_CONFIG_ENTITY_ID true) = true ∧
  joined (toSnapshot c0) (applied st) (toSnapshot (policyConfig st)) ∧
  ∀ o, foreign_ok o → policyConfig (step st o) ≠ policyConfig st →
    ∃ e, history (step st o) = history st ++ [e] ∧ ar_action e ≠ action_text RejectedChange ∧
         config_before e = toSnapshot (policyConfig st) ∧ config_after e = toSnapshot (policyConfig (step st o)).
Proof.
  intros Hf st. destruct (run_evidenced c0 os (started_with c0 new_audit) Hf) as (Hok & Hj & _).
  { split_and!; [apply new_audit_ok|reflexivity|]. by intros ?. }
  split_and!; [by apply audit_ok_verifies|done|]. intros o. apply change_recorded.
Qed.

(** *** Rollback *)

Lemma aget_spread c u (f : string → setting) k : (∀ kv, kv ∈ u → kv.2 = f kv.1) →
  aget k (spread c u) = if decide (k ∈ u.*1) then Some (f k) else aget k c.
Proof.
  unfold spread. revert c. induction u as [|[k1 s1] u IH]; intros c Hf; cbn [foldl].
  { rewrite decide_False; [done|]. apply not_elem_of_nil. }
  rewrite IH by (intros kv Hkv; apply Hf; by apply list_elem_of_further). rewrite aget_aput, fmap_cons. cbn [fst snd].
  pose proof (Hf (k1, s1) ltac:(apply list_elem_of_here)) as E. cbn in E. subst s1.
  destruct (decide (k ∈ u.*1)) as [Hin|Hin].
  - by rewrite decide_True by (by apply list_elem_of_further).
  - destruct (decide (k = k1)) as [-> |Hne].
    + by rewrite decide_True by apply list_elem_of_here.
    + rewrite decide_False; [done|]. rewrite elem_of_cons. naive_solver.
Qed.

Lemma spread_keys c u k : k ∈ u.*1 → k ∈ (spread c u).*1.
Proof.
  unfold spread. assert (∀ u c : PolicyConfiguration, k ∈ c.*1 → k ∈ (foldl (λ c kv, aput kv.1 kv.2 c) c u).*1) as Hkeep.
  { clear. induction u as [|kv u IH]; intros c H; [done|]. cbn. apply IH. rewrite aput_keys. case_decide; [done|]. apply elem_of_app. by left. }
  revert c. induction u as [|[k1 s1] u IH]; intros c; [by intros ?%elem_of_nil|]. rewrite fmap_cons. intros [-> |H]%elem_of_cons; cbn [foldl]; [|by apply IH].
  apply Hkeep. cbn [fst snd]. rewrite aput_keys. case_decide; [done|]. apply elem_of_app. right. by apply list_elem_of_singleton.
Qed.

Lemma prop_snapshot c k : NoDup c.*1 → prop (toSnapshot c) k = toJsonSafe (setting_of c k).
Proof.
  unfold setting_of, toSnapshot. cbn [prop]. induction c as [|[k1 s1] c IH]; intros Hn; [done|]. rewrite fmap_cons in Hn.
  apply NoDup_cons in Hn as [Hk Hn]. cbn [aget]. cbn [omap list_omap fst snd]. destruct (decide (k = k1)) as [-> |Hne].
  - destruct (toJsonSafe s1) eqn:E; cbn; [by rewrite decide_True, E|]. rewrite E. specialize (IH Hn).
    assert (aget k1 c = None) as Hc by (by apply aget_None). by rewrite Hc in IH.
  - destruct (toJsonSafe s1) as [j|]; cbn; [rewrite decide_False by done|]; by apply IH.
Qed.

Definition restored_at (snapshot : json) (k : string) : setting :=
  match from_snapshot_at snapshot k with Ok s => s | Err _ => SUndefined end.

Lemma from_snapshot_typed c k : typed c →
  ∃ s, from_snapshot_at (toSnapshot c) k = Ok s ∧ toJsonSafe s = prop (toSnapshot c) k.
Proof.
  intros [Hn Ht]. unfold from_snapshot_at. rewrite prop_snapshot by done. unfold setting_of.
  destruct (aget k c) as [[z|j|]|] eqn:E; cbn.
  - case_decide; [rewrite BigInt_of_Z_to_string|]; by eexists.
  - destruct j as [| | |t| |]; try by eexists. case_decide as Hk; [by destruct (Ht k t Hk)|by eexists].
  - by eexists.
  - by eexists.
Qed.

Lemma fromSnapshot_ok_typed c : typed c → fromSnapshot_ok (toSnapshot c) = Ok tt.
Proof.
  intros H. unfold fromSnapshot_ok. induction BIGINT_KEYS as [|k ks IH]; [done|]. cbn.
  destruct (from_snapshot_typed c k H) as (s & -> & _). cbn. exact IH.
Qed.

Lemma from_keys_typed_ok c ks : typed c → ∃ u, from_keys (toSnapshot c) ks = Ok u.
Proof.
  intros H. induction ks as [|k ks [u IH]]; [by exists []|]. cbn. destruct (from_snapshot_typed c k H) as (s & -> & _). cbn.
  rewrite IH. cbn. eauto.
Qed.

Lemma changed_keys_nil before after k : changed_keys before after = [] → k ∈ after.*1 → text_at after k = text_at before k.
Proof.
  intros E Hk. destruct (decide (text_at after k = text_at before k)) as [|Hne]; [done|]. exfalso.
  assert (k ∈ changed_keys before after) as H; [|rewrite E in H; by apply elem_of_nil in H].
  unfold changed_keys. rewrite merge_sort_Permutation. by apply list_elem_of_filter.
Qed.

(** What a rollback does to one key, when it is committed. *)
Lemma restore_at c cb u ks k : typed cb → from_keys (toSnapshot cb) ks = Ok u →
  text_at (spread c u) k = if decide (k ∈ ks) then stableStringify <$> prop (toSnapshot cb) k else text_at c k.
Proof.
  intros Hcb [Hk Hf]%from_keys_spec. unfold text_at, setting_of. rewrite (aget_spread c u (restored_at (toSnapshot cb))), Hk.
  - case_decide; [|done]. cbn. unfold restored_at. by destruct (from_snapshot_typed cb k Hcb) as (s & -> & ->).
  - intros kv Hkv. unfold restored_at. by rewrite (Hf kv Hkv).
Qed.

(** A rollback that is accepted gives every key that the target had changed the value it
    had before the target, and leaves every other key as it is, whatever changes came after
    the target; the only other way it can end, for a recorded target and a new identifier, is
    that the audit trail refuses the evidence, and then nothing changes. *)
Theorem policy_rollback_exact c0 os rq target uuid clock e :
  typed c0 → Forall foreign_ok os →
  let st := run (started_with c0 new_audit) os in
  replayed sha256 st (rollback_request rq target) RolledBack = Ok None →
  List.find (is_target target) (history st) = Some e →
  let '(st', r) := rollback st rq target uuid clock in
  match r with
  | Ok o => po_changeId o = pr_changeId rq ∧
      ∀ k, text_at (policyConfig st') k =
             if decide (k ∈ changedKeys_of e) then stableStringify <$> prop (config_before e) k else text_at (policyConfig st) k
  | Err _ => policyConfig st' = policyConfig st ∧ history st' = history st
  end.
Proof.
  intros Hc0 Hf st Hr He. destruct (run_evidenced c0 os (started_with c0 new_audit) Hf) as (Hok & _ & Hty).
  { split_and!; [apply new_audit_ok|reflexivity|]. by intros ?. }
  fold st in Hok, Hty. destruct (Hty Hc0) as [_ Hb]. unfold PolicyConfig.rollback. rewrite Hr, audit_ok_verifies by done. cbn [negb].
  rewrite He. apply List.find_some in He as [Hin Ht]. apply andb_prop in Ht as [Hact _]. apply negb_true_iff, bool_decide_eq_false in Hact.
  assert (e ∈ applied st) as Ha by (apply list_elem_of_filter; split; [done|by apply list_elem_of_In]).
  rewrite Forall_forall in Hb. destruct (Hb e Ha) as (cb & Hcb & Eb). rewrite Eb.
  destruct (from_keys_typed_ok cb (changedKeys_of e) Hcb) as [u Eu]. rewrite fromSnapshot_ok_typed by done. cbn [mbind result_bind]. rewrite Eu.
  pose proof (commit_cases st (rollback_request rq target) RolledBack u [("rolledBack", JStr target)] uuid clock) as H. cbn zeta in H.
  assert (∀ o, (commit st (rollback_request rq target) RolledBack u [("rolledBack", JStr target)] uuid clock).2 = Ok o →
    po_changeId o = pr_changeId rq) as Hid.
  { unfold PolicyConfig.commit. case_decide; [by intros o [= <-]|]. destruct (record _ _ _ _ _) as [t' [|]]; [by intros o [= <-]|done]. }
  destruct (commit _ _ _ _ _ _ _) as [[c' t' o'] r]. cbn [snd policyConfig trail] in *.
  destruct H as [(Hks & -> & -> & o & -> & _)|[(why & err & Er & -> & ->)|(en & o & Er & -> & -> & _)]].
  - split; [by apply Hid|]. intros k. rewrite <- (restore_at (policyConfig st) cb u (changedKeys_of e) k Hcb Eu).
    destruct (decide (k ∈ changedKeys_of e)) as [Hk|Hk].
    + symmetry. apply changed_keys_nil; [done|]. apply spread_keys. by rewrite (proj1 (from_keys_spec _ _ _ Eu)).
    + rewrite (restore_at _ cb u (changedKeys_of e) k Hcb Eu). by rewrite decide_False.
  - split; [done|]. rewrite (history_record st _ _ _ _ _ _ Er) by done. by rewrite app_nil_r.
  - split; [by apply Hid|]. intros k. by apply restore_at.
Qed.

(** A retry of a remembered change is answered with its outcome and does nothing. *)
Lemma policy_retry st rq uuid clock o :
  replayed sha256 st rq Updated = Ok (Some o) → apply st rq uuid clock = (st, Ok o).
Proof. unfold PolicyConfig.apply. by intros ->. Qed.

Lemma remembered st rq uuid clock o : (apply st rq uuid clock).2 = Ok o → outcomes st = [] →
  ∀ uuid' clock', apply (apply st rq uuid clock).1 rq uuid' clock' = ((apply st rq uuid clock).1, Ok o).
Proof.
  intros E Ho uuid' clock'. apply policy_retry. revert E. unfold PolicyConfig.apply.
  assert (∀ st', aget (pr_changeId rq) (outcomes st') = Some (fingerprintOf sha256 rq Updated, o) →
    replayed sha256 st rq Updated = Ok None → replayed sha256 st' rq Updated = Ok (Some o)) as Hre.
  { intros st' Hg. unfold replayed. destruct (_ || _); [done|]. destruct (_ || _); [done|]. intros _. rewrite Hg. by rewrite decide_True. }
  destruct (replayed sha256 st rq Updated) as [[x|]|] eqn:Er; [| |done].
  { exfalso. revert Er. unfold replayed. rewrite Ho. destruct (_ || _); [done|]. by destruct (_ || _). }
  destruct (parseUpdates _ _) as [u|]; [|done]. intros E. apply Hre; [|done]. revert E. unfold PolicyConfig.commit.
  case_decide; [intros [= <-]|destruct (record _ _ _ _ _) as [t' [|]]; [intros [= <-]|done]]; cbn [fst outcomes]; rewrite Ho;
    unfold remember; cbn [aput length]; change (MAX_REMEMBERED_CHANGES <? Z.of_nat 1) with false; cbn [aget]; by rewrite decide_True.
Qed.
End proofs.

(** ** A concrete run *)

Definition default_config : PolicyConfiguration :=
  [ ("maxSubscriptionAmount", SBig 1000000000000); ("minSubscriptionAmount", SBig 1000); ("maxTotalHoldings", SBig 5000000000000);
    ("restrictedJurisdictions", SJson (JArr [])); ("maturityWarningDays", SJson (jint 7));
    ("redeemptionPenaltyPercentage", SJson (jint 5)); ("earlyRedemptionMinDaysRemaining", SJson (jint 30)) ].

Definition toy_digest (s : string) : string := s.
Definition change (id : string) (u : list (string * json)) : PolicyConfigChangeRequest :=
  {| pr_changeId := id; pr_actor := "GADMIN"; pr_reason := "review"; pr_updates := JObj u |}.
Definition two_changes : list call :=
  [ Apply (change "a" [("minSubscriptionAmount", JStr "10")]) "u1" 0;
    Apply (change "b" [("maxSubscriptionAmount", JStr "500")]) "u2" 1;
    Apply (change "c" [("minSubscriptionAmount", JStr "501")]) "u3" 2 ].
Definition after_two : state := run toy_digest (λ _, false) (λ _ _, false) (started_with default_config new_audit) two_changes.

Example two_changes_recorded :
  length (history after_two) = 3%nat ∧ length (applied after_two) = 2%nat ∧
  setting_of (policyConfig after_two) "minSubscriptionAmount" = SBig 10.
Proof. by vm_compute. Qed.

(** A rollback is not checked like a change: it can leave the minimum above the maximum,
    after which no subscription is possible. *)
Lemma rollback_breaks_bounds :
  let st := (rollback toy_digest after_two (change "r" []) "a" "u4" 3).1 in
  setting_of (policyConfig st) "minSubscriptionAmount" = SBig 1000 ∧ setting_of (policyConfig st) "maxSubscriptionAmount" = SBig 500 ∧
  parseUpdates (λ _, false) (λ _ _, false) (JObj [("minSubscriptionAmount", JStr "1000")]) (policyConfig after_two) =
    Err "minSubscriptionAmount must not exceed maxSubscriptionAmount".
Proof. by vm_compute. Qed.

Lemma policy_changes_evidenced_witness :
  vr_ok (verifyEntity toy_digest (trail after_two) POLICY_CONFIG_ENTITY_TYPE POLICY_CONFIG_ENTITY_ID true) = true ∧
  joined (toSnapshot default_config) (applied after_two) (toSnapshot (policyConfig after_two)) ∧
  ∀ o, foreign_ok o → policyConfig (step toy_digest (λ _, false) (λ _ _, false) after_two o) ≠ policyConfig after_two →
    ∃ e, history (step toy_digest (λ _, false) (λ _ _, false) after_two o) = history after_two ++ [e] ∧
         ar_action e ≠ action_text RejectedChange ∧ config_before e = toSnapshot (policyConfig after_two) ∧
         config_after e = toSnapshot (policyConfig (step toy_digest (λ _, false) (λ _ _, false) after_two o)).
Proof. apply (policy_changes_evidenced toy_digest (λ _, false) (λ _ _, false) default_config two_changes). by repeat constructor. Defined.

Lemma default_typed : typed default_config.
Proof.
  split; [cbn; repeat (constructor; [set_solver|]); constructor|]. intros k t Hk. unfold BIGINT_KEYS in Hk.
  repeat (apply elem_of_cons in Hk as [-> |Hk]; [by vm_compute|]). by apply elem_of_nil in Hk.
Qed.

Lemma policy_rollback_exact_witness :
  ∃ e, let '(st', r) := rollback toy_digest after_two (change "r" []) "a" "u4" 3 in
  match r with
  | Ok o => po_changeId o = "r" ∧
      ∀ k, text_at (policyConfig st') k =
             if decide (k ∈ changedKeys_of e) then stableStringify <$> prop (config_before e) k else text_at (policyConfig after_two) k
  | Err _ => policyConfig st' = policyConfig after_two ∧ history st' = history after_two
  end.
Proof.
  eexists. apply (policy_rollback_exact toy_digest (λ _, false) (λ _ _, false) default_config two_changes (change "r" []) "a" "u4" 3).
  - exact default_typed.
  - by repeat constructor.
  - by vm_compute.
  - vm_compute. reflexivity.
Defined.
