(* ===== verification/Webhooks.v ===== *)
(** * Webhooks

    Models [api/src/webhooks/webhook-verification.service.ts]: the signature and timestamp of a
    delivery, the memory of processed events and the middleware around a handler.

    [hmac] is the HMAC of Node and is an argument.  The clock is read up to three times in one
    delivery, and each reading is an argument.  A handler that was started ends with one
    [Settle]; deliveries and ends come in any order.

    Shown: a handler runs again for an event only after it failed, after the dedupe window, or
    after a hundred thousand other calls ([webhook_handled_once]), and it runs only for a
    delivery that is signed with the secret and in time ([handled_authentic]).  Where the code
    falls short: [anonymous_event_refused]. *)
From S2P Require Import Prelude Json.

Record WebhookVerificationConfig := {
  secret : string;
  replayWindowMs : Z;
  dedupeWindowMs : option Z;
}.

Record WebhookEvent := { we_id : json; we_timestamp : option Z; we_payload : json; we_signature : option string }.

Definition DEFAULT_REPLAY_WINDOW : Z := 5 * 60 * 1000.
Definition DEFAULT_DEDUPE_WINDOW : Z := 72 * 60 * 60 * 1000.
Definition MAX_REMEMBERED_EVENTS : Z := 100000.

Record state := { processedEvents : list (string * Z); inFlightEvents : gset string }.
Definition new_state : state := {| processedEvents := []; inFlightEvents := ∅ |}.

Definition set_processed (st : state) (l : list (string * Z)) : state :=
  {| processedEvents := l; inFlightEvents := inFlightEvents st |}.

(** Equal lengths first, then the bytes. *)
Definition secureCompare (a b : string) : bool :=
  if negb (String.length a =? String.length b)%nat then false else bool_decide (a = b).

(** Whether the event is a known one; a lapsed entry is dropped. *)
Definition isReplayedEvent (l : list (string * Z)) (id : string) (now : Z) : list (string * Z) * bool :=
  match aget id l with
  | None => (l, false)
  | Some acceptableUntil => if acceptableUntil <? now then (adel id l, false) else (l, true)
  end.

(** The loop that drops old entries from the front. *)
Fixpoint evict (now : Z) (l : list (string * Z)) : list (string * Z) :=
  match l with
  | [] => []
  | (_, until) :: l' =>
      if (now <=? until) && (Z.of_nat (length l) <=? MAX_REMEMBERED_EVENTS) then l else evict now l'
  end.

Definition markEventProcessed (l : list (string * Z)) (id : string) (acceptableUntil now : Z) : list (string * Z) :=
  evict now (aput id acceptableUntil l).

Definition releaseEvent (st : state) (id : string) : state := set_processed st (adel id (processedEvents st)).

Inductive verification := Valid | Invalid (error : string) | Duplicate.

Definition replay_window (c : WebhookVerificationConfig) : Z :=
  if replayWindowMs c =? 0 then DEFAULT_REPLAY_WINDOW else replayWindowMs c.
Definition dedupe_window (c : WebhookVerificationConfig) : Z := default DEFAULT_DEDUPE_WINDOW (dedupeWindowMs c).

(** How long an accepted event is remembered. *)
Definition remember_until (c : WebhookVerificationConfig) (timestamp now : Z) : Z :=
  Z.max (timestamp + replay_window c) (now + dedupe_window c).

Definition validateEventStructure (e : WebhookEvent) : option (string * Z) :=
  match we_id e, we_timestamp e with
  | JStr (String c s), Some t => if (t =? 0) || falsy (we_payload e) then None else Some (String c s, t)
  | _, _ => None
  end.

Section Service.
Variable hmac : string → string → string.

Definition signedPayload (id : string) (timestamp : Z) (payload : json) : string :=
  id +:+ "." +:+ Z_to_string timestamp +:+ "." +:+ JSON_stringify payload.
Definition computeSignature (id : string) (timestamp : Z) (payload : json) (secret : string) : string :=
  hmac secret (signedPayload id timestamp payload).

(** The clock shows [now], then [now2] when the memory is looked up and [now3] when it is
    cleaned. *)
Definition verifyWebhook (st : state) (id : string) (timestamp : Z) (payload : json) (signature : option string)
    (c : WebhookVerificationConfig) (now now2 now3 : Z) : state * verification :=
  if replay_window c <? Z.abs (now - timestamp) then (st, Invalid "Event timestamp outside replay window")
  else match signature with
       | None | Some EmptyString => (st, Invalid "Missing signature")
       | Some s =>
           if negb (secureCompare s (computeSignature id timestamp payload (secret c))) then (st, Invalid "Invalid signature")
           else
             let '(l, replayed) := isReplayedEvent (processedEvents st) id now2 in
             if replayed then (set_processed st l, Duplicate)
             else (set_processed st (markEventProcessed l id (remember_until c timestamp now) now3), Valid)
       end.

(** *** The middleware *)

Record request := { rq_signature : option string; rq_timestamp : option Z; rq_body : json; rq_random : string }.

Definition event_of (rq : request) : WebhookEvent :=
  {| we_id := match prop (rq_body rq) "id" with Some v => if falsy v then JStr (rq_random rq) else v | None => JStr (rq_random rq) end;
     we_timestamp := rq_timestamp rq; we_payload := rq_body rq; we_signature := rq_signature rq |}.

Inductive response := BadRequest400 | Conflict409 | Acknowledged200 | Unauthorized401 (error : string) | Next (id : string).

Definition middleware (st : state) (c : WebhookVerificationConfig) (rq : request) (now now2 now3 : Z) : state * response :=
  match validateEventStructure (event_of rq) with
  | None => (st, BadRequest400)
  | Some (id, timestamp) =>
      match verifyWebhook st id timestamp (rq_body rq) (rq_signature rq) c now now2 now3 with
      | (st, Duplicate) => (st, if decide (id ∈ inFlightEvents st) then Conflict409 else Acknowledged200)
      | (st, Invalid e) => (st, Unauthorized401 e)
      | (st, Valid) => ({| processedEvents := processedEvents st; inFlightEvents := {[id]} ∪ inFlightEvents st |}, Next id)
      end
  end.

(** The first of [finish] and [close]. *)
Definition settle (st : state) (id : string) (succeeded : bool) : state :=
  let st := {| processedEvents := processedEvents st; inFlightEvents := inFlightEvents st ∖ {[id]} |} in
  if succeeded then st else releaseEvent st id.

(** *** Sequences of calls *)

Inductive call :=
| Deliver (c : WebhookVerificationConfig) (rq : request) (now now2 now3 : Z)
| Settle (id : string) (succeeded : bool)
| Release (id : string).

Definition step (st : state) (o : call) : state :=
  match o with
  | Deliver c rq now now2 now3 => (middleware st c rq now now2 now3).1
  | Settle id ok => settle st id ok
  | Release id => releaseEvent st id
  end.
Definition run (st : state) (os : list call) : state := foldl step st os.

(** The event whose handler a call starts. *)
Definition handles (st : state) (o : call) : option string :=
  match o with
  | Deliver c rq now now2 now3 => match (middleware st c rq now now2 now3).2 with Next id => Some id | _ => None end
  | _ => None
  end.

(** A call that lets the event [id] be handled again. *)
Definition releases (id : string) (o : call) : Prop :=
  match o with Settle id' ok => id' = id ∧ ok = false | Release id' => id' = id | Deliver _ _ _ _ _ => False end.

Definition readings (o : call) : list Z := match o with Deliver _ _ now now2 now3 => [now; now2; now3] | _ => [] end.

Lemma secureCompare_eq a b : secureCompare a b = true ↔ a = b.
Proof.
  unfold secureCompare. destruct (Nat.eqb_spec (String.length a) (String.length b)) as [|Hn]; cbn [negb].
  - apply bool_decide_eq_true.
  - split; [done|]. by intros ->.
Qed.

(** What it takes for a handler to run, and what is remembered then. *)
Lemma handles_Some st c rq now now2 now3 id : handles st (Deliver c rq now now2 now3) = Some id →
  ∃ t, validateEventStructure (event_of rq) = Some (id, t) ∧ Z.abs (now - t) ≤ replay_window c ∧
       rq_signature rq = Some (computeSignature id t (rq_body rq) (secret c)) ∧
       (∀ u, aget id (processedEvents st) = Some u → u < now2) ∧
       processedEvents (step st (Deliver c rq now now2 now3)) =
         markEventProcessed (match aget id (processedEvents st) with Some _ => adel id (processedEvents st) | None => processedEvents st end)
           id (remember_until c t now) now3.
Proof.
  cbn [handles step]. unfold middleware. destruct (validateEventStructure (event_of rq)) as [[id' t]|]; [|done].
  unfold verifyWebhook. destruct (Z.ltb_spec (replay_window c) (Z.abs (now - t))); [done|].
  destruct (rq_signature rq) as [[|ch s]|]; [done| |done]. destruct (secureCompare _ _) eqn:Es; [|done]. apply secureCompare_eq in Es.
  cbn [negb]. unfold isReplayedEvent. destruct (aget id' (processedEvents st)) as [u|] eqn:E.
  - destruct (Z.ltb_spec u now2); [|by cbn; destruct (decide _)]. intros [= <-]. exists t. rewrite E. split_and!; try done; [by rewrite Es|].
    by intros ? [= <-].
  - intros [= <-]. exists t. rewrite E. split_and!; try done. by rewrite Es.
Qed.

(** A call that starts no handler forgets nothing, unless it says so. *)
Lemma idle_processed st o id : handles st o = None → ¬ releases id o →
  processedEvents (step st o) = processedEvents st ∨
  ∃ k, k ≠ id ∧ processedEvents (step st o) = adel k (processedEvents st).
Proof.
  destruct o as [c rq now now2 now3|k ok|k]; cbn [handles step releases].
  - intros H _. left. revert H. unfold middleware. destruct (validateEventStructure _) as [[k t]|]; [|done]. unfold verifyWebhook.
    destruct (_ <? _); [done|]. destruct (rq_signature rq) as [[|ch s]|]; [done| |done]. destruct (negb _); [done|].
    unfold isReplayedEvent. destruct (aget k _) as [u|]; [|done]. destruct (u <? now2); [done|reflexivity].
  - intros _ Hr. unfold settle. destruct ok; [by left|]. right. exists k. split; [|done]. intros ->. by apply Hr.
  - intros _ Hr. right. exists k. split; [|done]. by intros ->.
Qed.

(** *** The memory of one event *)

(** The event [id] is remembered until [u], with at most [n] younger entries. *)
Definition holds (id : string) (u : Z) (n : nat) (l : list (string * Z)) : Prop :=
  ∃ pre post, l = pre ++ (id, u) :: post ∧ id ∉ pre.*1 ∧ (length post ≤ n)%nat.

Lemma holds_aget id u n l : holds id u n l → aget id l = Some u.
Proof.
  intros (pre & post & -> & Hn & _). induction pre as [|[k v] pre IH]; cbn; [by rewrite decide_True|].
  rewrite fmap_cons in Hn. apply not_elem_of_cons in Hn as [Hk Hn]. rewrite decide_False by done. by apply IH.
Qed.

Lemma holds_mono id u n m l : (n ≤ m)%nat → holds id u n l → holds id u m l.
Proof. intros H (pre & post & -> & Hn & Hl). exists pre, post. split_and!; [done..|lia]. Qed.

Lemma holds_cons id u n k v l : k ≠ id → holds id u n l → holds id u n ((k, v) :: l).
Proof.
  intros Hk (pre & post & -> & Hn & Hl). exists ((k, v) :: pre), post. split_and!; [done| |done].
  rewrite fmap_cons. apply not_elem_of_cons. by split.
Qed.

Lemma holds_cases id u n k v l : holds id u n ((k, v) :: l) →
  (k = id ∧ v = u ∧ (length l ≤ n)%nat) ∨ (k ≠ id ∧ holds id u n l).
Proof.
  intros ([|[k' v'] pre] & post & E & Hn & Hl); cbn in E; injection E as -> -> ->; [by left|]. right.
  rewrite fmap_cons in Hn. apply not_elem_of_cons in Hn as [Hk Hn]. split; [by intros ->|]. by exists pre, post.
Qed.

Lemma length_aput k v (l : list (string * Z)) : (length (aput k v l) ≤ S (length l))%nat.
Proof. induction l as [|[k' v'] l IH]; cbn; [lia|]. case_decide; cbn; lia. Qed.

Lemma length_adel k (l : list (string * Z)) : (length (adel k l) ≤ length l)%nat.
Proof. apply sublist_length, adel_sublist. Qed.

Lemma holds_aput id u n k v l : k ≠ id → holds id u n l → holds id u (S n) (aput k v l).
Proof.
  intros Hk. induction l as [|[k' v'] l IH]; [by intros ([] & post & [=] & _)|].
  intros [(-> & -> & Hl)|[Hne H]]%holds_cases; cbn [aput].
  - rewrite decide_False by done. exists [], (aput k v l). split_and!; [done|apply not_elem_of_nil|].
    pose proof (length_aput k v l). lia.
  - case_decide as E; [|by apply holds_cons, IH]. subst k'. apply holds_cons; [done|]. eapply holds_mono; [|exact H]. lia.
Qed.

Lemma holds_adel id u n k l : k ≠ id → holds id u n l → holds id u n (adel k l).
Proof.
  intros Hk. induction l as [|[k' v'] l IH]; [by intros ([] & post & [=] & _)|].
  intros [(-> & -> & Hl)|[Hne H]]%holds_cases; cbn [adel].
  - rewrite decide_False by done. exists [], (adel k l). split_and!; [done|apply not_elem_of_nil|].
    pose proof (length_adel k l). lia.
  - case_decide; [done|]. by apply holds_cons, IH.
Qed.

Lemma holds_evict id u n now l :
  now ≤ u → Z.of_nat n < MAX_REMEMBERED_EVENTS → holds id u n l → holds id u n (evict now l).
Proof.
  intros Hu Hn. induction l as [|[k v] l IH]; [done|]. intros H. cbn [evict].
  destruct ((now <=? v) && _) eqn:E; [done|]. destruct (holds_cases _ _ _ _ _ _ H) as [(-> & -> & Hl)|[Hne Hl]]; [|by apply IH].
  exfalso. apply andb_false_iff in E as [E|E]; apply Z.leb_gt in E; [lia|]. cbn [length] in E. lia.
Qed.

Lemma evict_suffix now l : ∃ pre, l = pre ++ evict now l.
Proof.
  induction l as [|[k v] l [pre IH]]; [by exists []|]. cbn [evict]. destruct (_ && _); [by exists []|].
  exists ((k, v) :: pre). cbn. by rewrite <- IH.
Qed.

Lemma evict_NoDup now l : NoDup l.*1 → NoDup (evict now l).*1.
Proof. destruct (evict_suffix now l) as [pre E]. rewrite E at 1. rewrite fmap_app. by intros (_ & _ & ?)%NoDup_app. Qed.

Lemma step_NoDup st o : NoDup (processedEvents st).*1 → NoDup (processedEvents (step st o)).*1.
Proof.
  intros H. destruct (handles st o) as [id|] eqn:E.
  - destruct o as [c rq now now2 now3| |]; [|done..]. destruct (handles_Some _ _ _ _ _ _ _ E) as (t & _ & _ & _ & _ & ->).
    apply evict_NoDup, aput_keys_NoDup. destruct (aget _ _); [by apply adel_keys_NoDup|done].
  - destruct o as [c rq now now2 now3|k ok|k].
    + destruct (idle_processed st (Deliver c rq now now2 now3) EmptyString E) as [-> |(k & _ & ->)]; [by intros []|done|by apply adel_keys_NoDup].
    + cbn. unfold settle. destruct ok; [done|]. by apply adel_keys_NoDup.
    + cbn. by apply adel_keys_NoDup.
Qed.

Lemma run_NoDup os st : NoDup (processedEvents st).*1 → NoDup (processedEvents (run st os)).*1.
Proof. revert st. induction os as [|o os IH]; intros st H; [done|]. cbn. apply IH. by apply step_NoDup. Qed.

(** The memory lasts until the clock has passed [u]. *)
Lemma step_holds st o id u n :
  holds id u n (processedEvents st) → ¬ releases id o → Z.of_nat (S n) < MAX_REMEMBERED_EVENTS →
  holds id u (S n) (processedEvents (step st o)) ∨ Exists (λ r, u < r) (readings o).
Proof.
  intros H Hr Hn. destruct (handles st o) as [k|] eqn:E.
  - destruct o as [c rq now now2 now3| |]; [|done..].
    destruct (handles_Some _ _ _ _ _ _ _ E) as (t & _ & _ & _ & Hlapsed & ->). cbn [readings].
    destruct (decide (k = id)) as [-> |Hk].
    { right. apply Exists_cons_tl, Exists_cons_hd, Hlapsed. by eapply holds_aget. }
    destruct (Z.le_gt_cases now3 u) as [Hu|Hu]; [|right; by apply Exists_cons_tl, Exists_cons_tl, Exists_cons_hd]. left.
    apply holds_evict; [done..|]. apply holds_aput; [done|]. destruct (aget k _); [by apply holds_adel|done].
  - left. apply (holds_mono _ _ n); [lia|]. destruct (idle_processed st o id E Hr) as [-> |(k & Hk & ->)]; [done|by apply holds_adel].
Qed.

Lemma run_holds os st id u n :
  holds id u n (processedEvents st) → Forall (λ o, ¬ releases id o) os →
  Z.of_nat (n + length os) < MAX_REMEMBERED_EVENTS →
  holds id u (n + length os) (processedEvents (run st os)) ∨ Exists (λ r, u < r) (concat (readings <$> os)).
Proof.
  revert st n. induction os as [|o os IH]; intros st n H Hf Hn; [rewrite Nat.add_0_r; by left|].
  inversion Hf as [|? ? Ho Hf']; subst. cbn [length] in *. rewrite fmap_cons. cbn [concat].
  destruct (step_holds st o id u n H Ho) as [H1|H1]; [lia| |right; apply Exists_app; by left].
  destruct (IH (step st o) (S n) H1 Hf') as [H2|H2]; [lia| |right; apply Exists_app; by right].
  left. by rewrite Nat.add_succ_r.
Qed.

Lemma handled_holds st c rq now now2 now3 id t :
  NoDup (processedEvents st).*1 → handles st (Deliver c rq now now2 now3) = Some id →
  validateEventStructure (event_of rq) = Some (id, t) →
  holds id (remember_until c t now) 0 (processedEvents (step st (Deliver c rq now now2 now3))) ∨ remember_until c t now < now3.
Proof.
  intros Hnd H Hv. destruct (handles_Some _ _ _ _ _ _ _ H) as (t' & Hv' & _ & _ & _ & ->). rewrite Hv in Hv'. injection Hv' as <-.
  destruct (Z.le_gt_cases now3 (remember_until c t now)) as [Hu|Hu]; [left|by right].
  unfold markEventProcessed. set (l := match aget id _ with Some _ => _ | None => _ end).
  assert (aget id l = None) as Hl.
  { subst l. destruct (aget id (processedEvents st)) eqn:E; [|done]. by rewrite aget_adel, decide_True. }
  rewrite aput_new by done. apply holds_evict; [done|done|]. exists l, []. split_and!; [done|by apply aget_None|done].
Qed.

(** C19: the handler runs a second time for an event only after somebody released the event,
    or after the memory of it has lapsed: as long as fewer than a hundred thousand calls come
    in between and the clock does not run backwards, a second run for the same identifier
    comes after both the dedupe window of the first delivery and the last moment its
    timestamp was acceptable, whatever else is delivered, fails or is released. *)
Theorem webhook_handled_once os1 c rq now now2 now3 os2 c' rq' now' now2' now3' id t :
  let st1 := run new_state os1 in
  let d1 := Deliver c rq now now2 now3 in
  let d2 := Deliver c' rq' now' now2' now3' in
  handles st1 d1 = Some id → validateEventStructure (event_of rq) = Some (id, t) →
  handles (run (step st1 d1) os2) d2 = Some id →
  Forall (λ o, ¬ releases id o) os2 → Z.of_nat (length os2) < MAX_REMEMBERED_EVENTS →
  Sorted Z.le (concat (readings <$> d1 :: os2 ++ [d2])) →
  now + dedupe_window c < now2' ∧ t + replay_window c < now2'.
Proof.
  intros st1 d1 d2 H1 Hv H2 Hf Hn Hs. assert (NoDup (processedEvents st1).*1) as Hnd by (apply run_NoDup; constructor).
  assert (remember_until c t now < now2'); [|unfold remember_until in *; lia].
  destruct (handles_Some _ _ _ _ _ _ _ H2) as (t2 & _ & _ & _ & Hlapsed & _).
  apply Sorted_StronglySorted in Hs; [|intros ?; lia]. rewrite app_comm_cons, fmap_app, concat_app in Hs.
  assert (∀ r, r ∈ concat (readings <$> d1 :: os2) → r ≤ now2') as Hle.
  { intros r Hr. eapply StronglySorted_app_1_elem_of; [exact Hs|done|]. cbn. apply list_elem_of_further, list_elem_of_here. }
  destruct (handled_holds st1 c rq now now2 now3 id t Hnd H1 Hv) as [Hh|Hlt].
  2:{ assert (now3 ≤ now2'); [|lia]. apply Hle. rewrite fmap_cons. cbn. do 2 apply list_elem_of_further. apply list_elem_of_here. }
  destruct (run_holds os2 _ id _ 0 Hh Hf) as [H|H]; [done| |].
  - apply Hlapsed. by eapply holds_aget.
  - apply Exists_exists in H as (r & Hr & Hlt). assert (r ≤ now2'); [|lia]. apply Hle. rewrite fmap_cons. cbn [concat].
    apply elem_of_app. by right.
Qed.

(** A handler runs only for a delivery that is signed with the secret and in time. *)
Theorem handled_authentic st c rq now now2 now3 id :
  handles st (Deliver c rq now now2 now3) = Some id →
  ∃ t, validateEventStructure (event_of rq) = Some (id, t) ∧ Z.abs (now - t) ≤ replay_window c ∧
       rq_signature rq = Some (hmac (secret c) (signedPayload id t (rq_body rq))).
Proof. intros (t & ? & ? & ? & _)%handles_Some. by exists t. Qed.

(** An event without an identifier gets a random one, which is part of what must have been
    signed: the sender cannot know it, and a request that is accepted under two of them has
    one HMAC for two texts. *)
Lemma anonymous_event_refused st st' c sig t body r r' now now2 now3 now' now2' now3' id id' :
  let rq r := {| rq_signature := sig; rq_timestamp := t; rq_body := body; rq_random := r |} in
  prop body "id" = None → r ≠ r' →
  handles st (Deliver c (rq r) now now2 now3) = Some id → handles st' (Deliver c (rq r') now' now2' now3') = Some id' →
  ∃ m m', m ≠ m' ∧ hmac (secret c) m = hmac (secret c) m'.
Proof.
  cbn zeta. intros Hb Hr (ts & Hv & _ & Hs)%handled_authentic (ts' & Hv' & _ & Hs')%handled_authentic. cbn in *. rewrite Hs in Hs'. injection Hs' as Hh.
  unfold validateEventStructure in Hv, Hv'. cbn in Hv, Hv'. rewrite Hb in Hv, Hv'.
  destruct r as [|ch s]; [done|]. destruct r' as [|ch' s']; [done|]. destruct t as [t|]; [|done].
  destruct (_ || _); [done|]. injection Hv as <- <-. injection Hv' as <- <-.
  exists (signedPayload (String ch s) t body), (signedPayload (String ch' s') t body). split; [|done].
  intros E. apply Hr. unfold signedPayload in E. by apply str_app_inj_r in E.
Qed.

End Service.

(** A concrete run, with a toy HMAC. *)
Definition toy_hmac (k m : string) : string := k +:+ "|" +:+ m.
Definition toy_config : WebhookVerificationConfig := {| secret := "s"; replayWindowMs := 0; dedupeWindowMs := None |}.
Definition toy_request (t : Z) : request :=
  let body := JObj [("id", JStr "evt")] in
  {| rq_signature := Some (computeSignature toy_hmac "evt" t body "s"); rq_timestamp := Some t; rq_body := body; rq_random := "r" |}.

Example redelivered :
  let deliver t := Deliver toy_config (toy_request t) t t t in
  let st := run toy_hmac new_state [deliver 1000] in
  handles toy_hmac new_state (deliver 1000) = Some "evt" ∧
  (middleware toy_hmac st toy_config (toy_request 5000) 5000 5000 5000).2 = Conflict409 ∧
  (middleware toy_hmac (settle st "evt" true) toy_config (toy_request 5000) 5000 5000 5000).2 = Acknowledged200 ∧
  (middleware toy_hmac (settle st "evt" false) toy_config (toy_request 5000) 5000 5000 5000).2 = Next "evt".
Proof. by vm_compute. Qed.

Lemma webhook_handled_once_witness :
  let later := 259201001 in
  1000 + dedupe_window toy_config < later ∧ 1000 + replay_window toy_config < later.
Proof.
  apply (webhook_handled_once toy_hmac [] toy_config (toy_request 1000) 1000 1000 1000 [Settle "evt" true]
    toy_config (toy_request 259201001) 259201001 259201001 259201001 "evt" 1000); try by vm_compute.
  - constructor; [|constructor]. by intros [_ ?].
  - vm_compute. repeat constructor; done.
Defined.
