(* ===== verification/DomainInvariants.v ===== *)
(** * Domain invariants and reconciliation

    Models [api/src/reconciliation/services/domain-invariants.service.ts] (the five checks
    over bonds, holders, orders, settlements and KYC records, the readers of Redis and the
    validation that runs the checks) and
    [api/src/reconciliation/services/reconciliation.service.ts].

    A drift keeps its type, severity, entity and description; the lists of affected fields,
    the expected and actual values and the repair hints repeat them and are left out.  The
    content of Redis is an argument: what a scan answers, what a key holds, and how a value
    reads as the record it was written from; the wrapper answers nothing when Redis cannot be
    reached.  The store does not change during one validation.  An amount that is no
    integer makes [BigInt] throw.

    Shown: a validation is HEALTHY exactly when the data satisfy the invariants, written here
    without the loops ([healthy_exact]); books that do not balance are always CRITICAL
    ([books_critical]).  Where the code falls short: [unreachable_store_healthy],
    [repeated_scan_key_alarm], [set_of_holders_alarm], [bad_settlement_hides_all],
    [statuses_disagree]. *)
From S2P Require Import Prelude JsDate Cid KycStore.

(** ** Data *)

Inductive drift_type := missing | orphaned | duplicate | stale | inconsistent.
Inductive severity := LOW | MEDIUM | HIGH | CRITICAL.
#[export] Instance drift_type_eq_dec : EqDecision drift_type.
Proof. solve_decision. Defined.
#[export] Instance severity_eq_dec : EqDecision severity.
Proof. solve_decision. Defined.

Record ReconciliationDrift := {
  d_type : drift_type;
  d_severity : option severity;
  d_entityType : string;
  d_entityId : string;
  d_description : string;
}.

Definition drift (t : drift_type) (s : severity) (entityType entityId description : string) : ReconciliationDrift :=
  {| d_type := t; d_severity := Some s; d_entityType := entityType; d_entityId := entityId; d_description := description |}.

Record Bond := {
  b_id : Z;
  b_projectId : string;
  b_totalSupply : option string;
  b_totalSubscribed : option string;
  b_status : string;
  b_maturityDate : option Z;
  b_earlyMatured : bool;
}.
Record Project := { p_id : string; p_name : option string }.
Record Order := {
  o_id : Z;
  o_bondId : Z;
  o_amount : option string;
  o_status : string;
  o_expiresAt : option string;
}.
Record Holder := { h_address : string; h_balance : option string }.
Record Settlement := { s_txHash : string; s_entityType : string; s_entityId : string }.
(** A KYC record whose status may be any text. *)
Record RawKyc := { k_address : string; k_status : string; k_expiresAt : option Z }.

(** What one validation looks at. [v_audit] is [None] where the log cannot be read. *)
Record view := {
  v_bonds : list Bond;
  v_projects : list Project;
  v_orders : list Order;
  v_holders : Z → list Holder;
  v_settlements : list Settlement;
  v_kyc : list RawKyc;
  v_audit : string → option (list Z);
}.

(** [BigInt(x ?? 0)]. *)
Definition big (x : option string) : result string Z :=
  match x with
  | None => Ok 0
  | Some s => match BigInt_of_string s with Some z => Ok z | None => Err ("Cannot convert " +:+ s +:+ " to a BigInt") end
  end.

Definition when {A} (b : bool) (x : A) : list A := if b then [x] else [].

(** ** The checks *)

Fixpoint bond_references (projectIds : list string) (seen : list Z) (bonds : list Bond) : list ReconciliationDrift :=
  match bonds with
  | [] => []
  | b :: bonds =>
      let id := Z_to_string (b_id b) in
      when (bool_decide (b_id b ∈ seen)) (drift duplicate CRITICAL "bond" id ("Duplicate bond ID detected: " +:+ id)) ++
      when (negb (bool_decide (b_projectId b ∈ projectIds)))
        (drift orphaned HIGH "bond" id ("Bond " +:+ id +:+ " references missing or un-restored project " +:+ b_projectId b)) ++
      bond_references projectIds (b_id b :: seen) bonds
  end.

Definition unnamed (p : Project) : bool :=
  match p_name p with Some n => bool_decide (trim n = "") | None => true end.

Definition getBondProjectIntegrityInvariant (v : view) : result string (list ReconciliationDrift) :=
  Ok (bond_references (p_id <$> v_projects v) [] (v_bonds v) ++
      concat ((λ p, when (unnamed p) (drift missing MEDIUM "project" (p_id p)
        ("Project " +:+ p_id p +:+ " is missing required name or metadata"))) <$> v_projects v)).

Fixpoint check_holders (bondId : string) (seen : list string) (holders : list Holder) : result string (list ReconciliationDrift * Z) :=
  match holders with
  | [] => Ok ([], 0)
  | h :: holders =>
      balance ← big (h_balance h);
      '(ds, sum) ← check_holders bondId (h_address h :: seen) holders;
      let id := bondId +:+ ":" +:+ h_address h in
      Ok (when (bool_decide (h_address h ∈ seen)) (drift duplicate HIGH "holder" id
            ("Duplicate holder entry for address " +:+ h_address h +:+ " on bond " +:+ bondId)) ++
          when (balance <? 0) (drift inconsistent CRITICAL "holder" id
            ("Holder " +:+ h_address h +:+ " on bond " +:+ bondId +:+ " has negative balance: " +:+ Z_to_string balance)) ++ ds,
          balance + sum)
  end.

Definition matured_early (now : Z) (b : Bond) : bool :=
  bool_decide (b_status b = "Matured") &&
  match b_maturityDate b with Some d => negb (d =? 0) && (now / 1000 <? d) | None => false end &&
  negb (b_earlyMatured b).

Definition check_bond (now : Z) (holders : list Holder) (b : Bond) : result string (list ReconciliationDrift) :=
  let id := Z_to_string (b_id b) in
  totalSupply ← big (b_totalSupply b);
  totalSubscribed ← big (b_totalSubscribed b);
  '(ds, sum) ← check_holders id [] holders;
  Ok (when (totalSupply <? totalSubscribed) (drift inconsistent CRITICAL "bond" id
        ("Bond " +:+ id +:+ " totalSubscribed (" +:+ Z_to_string totalSubscribed +:+ ") exceeds authorized totalSupply (" +:+
         Z_to_string totalSupply +:+ ")")) ++ ds ++
      when (negb (sum =? totalSubscribed)) (drift inconsistent CRITICAL "bond" id
        ("Bond " +:+ id +:+ " holder balance sum (" +:+ Z_to_string sum +:+ ") does not match recorded totalSubscribed (" +:+
         Z_to_string totalSubscribed +:+ ")")) ++
      when (matured_early now b) (drift inconsistent MEDIUM "bond" id
        ("Bond " +:+ id +:+ " marked as Matured before its maturity date without early-redemption record"))).

(** A loop whose body may throw and pushes drifts. *)
Fixpoint push_all {A} (f : A → result string (list ReconciliationDrift)) (l : list A) : result string (list ReconciliationDrift) :=
  match l with [] => Ok [] | x :: l => ds ← f x; rest ← push_all f l; Ok (ds ++ rest) end.

Definition getBondSupplyAccountingInvariant (now : Z) (v : view) : result string (list ReconciliationDrift) :=
  push_all (λ b, check_bond now (v_holders v (b_id b)) b) (v_bonds v).

Section Checks.
(** How the engine reads the dates that are not ISO texts. *)
Context (other : string → option Z).

Definition expired_open (now : Z) (o : Order) : bool :=
  bool_decide (o_status o = "Open") &&
  match o_expiresAt o with
  | Some t => negb (bool_decide (t = "")) &&
      match Date_parse other t with Some ms => (0 <? ms / 1000) && (ms / 1000 <? now / 1000) | None => false end
  | None => false
  end.

Fixpoint check_orders (now : Z) (bondIds seen : list Z) (orders : list Order) : result string (list ReconciliationDrift) :=
  match orders with
  | [] => Ok []
  | o :: orders =>
      let id := Z_to_string (o_id o) in
      amount ← big (o_amount o);
      rest ← check_orders now bondIds (o_id o :: seen) orders;
      Ok (when (bool_decide (o_id o ∈ seen)) (drift duplicate HIGH "order" id ("Duplicate order ID detected: " +:+ id)) ++
          when (negb (bool_decide (o_bondId o ∈ bondIds))) (drift orphaned HIGH "order" id
            ("Order " +:+ id +:+ " references non-existent bond " +:+ Z_to_string (o_bondId o))) ++
          when (amount <=? 0) (drift inconsistent HIGH "order" id
            ("Order " +:+ id +:+ " has invalid non-positive amount: " +:+ Z_to_string amount)) ++
          when (expired_open now o) (drift stale LOW "order" id
            ("Order " +:+ id +:+ " is marked Open but expired at " +:+ default "" (o_expiresAt o))) ++ rest)
  end.

Definition getMarketplaceOrderIntegrityInvariant (now : Z) (v : view) : result string (list ReconciliationDrift) :=
  check_orders now (b_id <$> v_bonds v) [] (v_orders v).

Fixpoint check_settlements (seen : list (string * (string * string))) (txs : list Settlement) : list ReconciliationDrift :=
  match txs with
  | [] => []
  | t :: txs =>
      let name := s_entityType t +:+ " " +:+ s_entityId t in
      if decide (s_txHash t = "") then
        drift missing HIGH (s_entityType t) (s_entityId t) (name +:+ " has missing on-chain settlement transaction hash")
          :: check_settlements seen txs
      else
        when (negb (is_hex64 (s_txHash t))) (drift inconsistent CRITICAL (s_entityType t) (s_entityId t)
          ("Malformed transaction hash '" +:+ s_txHash t +:+ "' on " +:+ name +:+ " (must be 64-char hex)")) ++
        match aget (s_txHash t) seen with
        | Some original =>
            when (negb (bool_decide (original = (s_entityType t, s_entityId t))))
              (drift duplicate CRITICAL "settlement_reference" (s_txHash t)
                ("Transaction hash " +:+ s_txHash t +:+ " shared by multiple distinct operations (" +:+ original.1 +:+ " " +:+
                 original.2 +:+ " and " +:+ name +:+ ")")) ++ check_settlements seen txs
        | None => check_settlements (aput (s_txHash t) (s_entityType t, s_entityId t) seen) txs
        end
  end.

Definition getSettlementReferenceIntegrityInvariant (v : view) : result string (list ReconciliationDrift) :=
  Ok (check_settlements [] (v_settlements v)).

Definition validStatuses : list string := kyc_text <$> [NONE; PENDING; VERIFIED; ACCREDITED; EXPIRED; REJECTED].

(** A verified or accredited record whose time has passed. *)
Definition lapsed (now : Z) (r : RawKyc) : option Z :=
  if bool_decide (k_status r = kyc_text VERIFIED) || bool_decide (k_status r = kyc_text ACCREDITED) then
    match k_expiresAt r with Some x => if negb (x =? 0) && (x <? now) then Some x else None | None => None end
  else None.

Fixpoint non_monotonic (l : list Z) : bool :=
  match l with
  | a :: (b :: _) as t => (b <? a) || non_monotonic t
  | _ => false
  end.

Fixpoint check_kyc (now : Z) (audit : string → option (list Z)) (seen : list string) (records : list RawKyc) :
    result string (list ReconciliationDrift) :=
  match records with
  | [] => Ok []
  | r :: records =>
      let a := k_address r in
      expired ← match lapsed now r with
                | Some x =>
                    match toISOString x with
                    | Ok t => Ok [drift stale MEDIUM "kyc_record" a
                        ("KYC record for " +:+ a +:+ " is marked " +:+ k_status r +:+ " but expired at " +:+ t)]
                    | Err _ => Err "Invalid time value"
                    end
                | None => Ok []
                end;
      rest ← check_kyc now audit (a :: seen) records;
      Ok (when (bool_decide (a ∈ seen)) (drift duplicate HIGH "kyc_record" a
            ("Duplicate KYC record found for wallet address: " +:+ a)) ++
          when (negb (bool_decide (k_status r ∈ validStatuses))) (drift inconsistent HIGH "kyc_record" a
            ("KYC record for " +:+ a +:+ " has unrecognized status: " +:+ k_status r)) ++ expired ++
          match audit a with
          | Some ts => when (non_monotonic ts) (drift inconsistent MEDIUM "kyc_audit" a
              ("Non-monotonic timestamp detected in KYC audit trail for " +:+ a))
          | None => []
          end ++ rest)
  end.

Definition getKycComplianceIntegrityInvariant (now : Z) (v : view) : result string (list ReconciliationDrift) :=
  check_kyc now (v_audit v) [] (v_kyc v).

(** ** Running the checks *)

Definition getAllInvariants (now : Z) (v : view) : list (string * result string (list ReconciliationDrift)) :=
  [ ("BOND_PROJECT_INTEGRITY", getBondProjectIntegrityInvariant v);
    ("BOND_SUPPLY_ACCOUNTING", getBondSupplyAccountingInvariant now v);
    ("MARKETPLACE_ORDER_INTEGRITY", getMarketplaceOrderIntegrityInvariant now v);
    ("SETTLEMENT_REFERENCE_INTEGRITY", getSettlementReferenceIntegrityInvariant v);
    ("KYC_COMPLIANCE_INTEGRITY", getKycComplianceIntegrityInvariant now v) ].

Inductive health := HEALTHY | DEGRADED | CRITICAL_STATE.
Record Summary := { missingCount : Z; orphanedCount : Z; duplicateCount : Z; staleCount : Z; inconsistentCount : Z }.
Record ReconciliationReport := { rr_status : health; rr_driftsFound : list ReconciliationDrift; rr_summary : Summary }.

Definition of_type (t : drift_type) (d : ReconciliationDrift) : bool := bool_decide (d_type d = t).
Definition is_critical (d : ReconciliationDrift) : bool := bool_decide (d_severity d = Some CRITICAL).

Definition summary_of (ds : list ReconciliationDrift) : Summary :=
  {| missingCount := count (of_type missing) ds; orphanedCount := count (of_type orphaned) ds;
     duplicateCount := count (of_type duplicate) ds; staleCount := count (of_type stale) ds;
     inconsistentCount := count (of_type inconsistent) ds |}.

Definition validate_drifts (checks : list (string * result string (list ReconciliationDrift))) : list ReconciliationDrift :=
  concat ((λ c, match c.2 with
                | Ok ds => ds
                | Err e => [drift inconsistent CRITICAL c.1 "SYSTEM_ERROR" ("Invariant check failed: " +:+ e)]
                end) <$> checks).

Definition status_of (critical : ReconciliationDrift → bool) (ds : list ReconciliationDrift) : health :=
  match ds with [] => HEALTHY | _ => if existsb critical ds then CRITICAL_STATE else DEGRADED end.

Definition validateDomainInvariants (now : Z) (v : view) : ReconciliationReport :=
  let ds := validate_drifts (getAllInvariants now v) in
  {| rr_status := status_of is_critical ds; rr_driftsFound := ds; rr_summary := summary_of ds |}.

(** [ReconciliationService.reconcile] over the registered invariants. *)
Definition bump (s : Summary) (d : ReconciliationDrift) : Summary :=
  match d_type d with
  | missing => {| missingCount := missingCount s + 1; orphanedCount := orphanedCount s; duplicateCount := duplicateCount s;
                  staleCount := staleCount s; inconsistentCount := inconsistentCount s |}
  | orphaned => {| missingCount := missingCount s; orphanedCount := orphanedCount s + 1; duplicateCount := duplicateCount s;
                   staleCount := staleCount s; inconsistentCount := inconsistentCount s |}
  | duplicate => {| missingCount := missingCount s; orphanedCount := orphanedCount s; duplicateCount := duplicateCount s + 1;
                    staleCount := staleCount s; inconsistentCount := inconsistentCount s |}
  | stale => {| missingCount := missingCount s; orphanedCount := orphanedCount s; duplicateCount := duplicateCount s;
                staleCount := staleCount s + 1; inconsistentCount := inconsistentCount s |}
  | inconsistent => {| missingCount := missingCount s; orphanedCount := orphanedCount s; duplicateCount := duplicateCount s;
                       staleCount := staleCount s; inconsistentCount := inconsistentCount s + 1 |}
  end.

Fixpoint reconcile_loop (ds : list ReconciliationDrift) (s : Summary) (checks : list (string * result string (list ReconciliationDrift))) :
    list ReconciliationDrift * Summary :=
  match checks with
  | [] => (ds, s)
  | (_, Ok found) :: checks => reconcile_loop (ds ++ found) (foldl bump s found) checks
  | (name, Err e) :: checks =>
      let d := {| d_type := inconsistent; d_severity := None; d_entityType := name; d_entityId := "error";
                  d_description := "Failed to check invariant: " +:+ e |} in
      reconcile_loop (ds ++ [d]) (bump s d) checks
  end.

Definition reconcile (checks : list (string * result string (list ReconciliationDrift))) : ReconciliationReport :=
  let '(ds, s) := reconcile_loop [] (summary_of []) checks in
  {| rr_status := status_of (λ d, is_critical d || of_type inconsistent d) ds; rr_driftsFound := ds; rr_summary := s |}.

End Checks.

(** ** Reading the store *)

Section Store.
Context (scanKeys : string → list string) (get : string → option string).

(** The values of the keys of one shape, without the ones that do not parse. *)
Definition load {A} (pattern : string) (matches : string → bool) (parse : string → option A) : list A :=
  omap (λ k, get k ≫= parse) (filter (λ k, matches k = true) (scanKeys pattern)).

(** [/^bond:\d+$/] and the like: a prefix and then only such characters, at least one. *)
Definition shaped (prefix : string) (ok : ascii → bool) (k : string) : bool :=
  let n := String.length prefix in
  let rest := String.substring n (String.length k - n) k in
  bool_decide (String.substring 0 n k = prefix) && negb (bool_decide (rest = "")) && str_forall ok rest.

Definition loadBondsFromStore (parse : string → option Bond) : list Bond := load "bond:*" (shaped "bond:" is_digit) parse.
Definition loadProjectsFromStore (parse : string → option Project) : list Project :=
  load "project:*" (shaped "project:" (λ c, negb (code c =? 58)%N)) parse.
Definition loadOrdersFromStore (parse : string → option Order) : list Order := load "order:*" (shaped "order:" is_digit) parse.

Definition loadHoldersForBond (parse : string → option (list Holder)) (bondId : Z) : list Holder :=
  match get ("bond:" +:+ Z_to_string bondId +:+ ":holders") with Some raw => default [] (parse raw) | None => [] end.

(** One value that does not parse ends the whole reading. *)
Definition settlement_of (parse : string → option (option string * option string)) (k : string) : option Settlement :=
  let hash := String.substring 11 (String.length k - 11) k in
  p ← match get k with Some raw => if decide (raw = "") then Some (None, None) else parse raw | None => Some (None, None) end;
  Some {| s_txHash := hash; s_entityType := default "settlement" p.1; s_entityId := default hash p.2 |}.

Definition loadSettlementTransactions (parse : string → option (option string * option string)) : list Settlement :=
  default [] (mapM (settlement_of parse) (scanKeys "stellar:tx:*")).

(** The context of a validation: what the caller supplies, otherwise the store is read. *)
Record ValidationContext := {
  c_bonds : option (list Bond);
  c_projects : option (list Project);
  c_orders : option (list Order);
  c_kycRecords : option (list RawKyc);
  c_holdersByBond : Z → option (list Holder);
  c_settlementTransactions : option (list Settlement);
}.

Context (parse_bond : string → option Bond) (parse_project : string → option Project) (parse_order : string → option Order)
  (parse_holders : string → option (list Holder)) (parse_settlement : string → option (option string * option string)).

Definition view_of (c : ValidationContext) (kyc : list RawKyc) (audit : string → option (list Z)) : view :=
  {| v_bonds := default (loadBondsFromStore parse_bond) (c_bonds c);
     v_projects := default (loadProjectsFromStore parse_project) (c_projects c);
     v_orders := default (loadOrdersFromStore parse_order) (c_orders c);
     v_holders := λ id, default (loadHoldersForBond parse_holders id) (c_holdersByBond c id);
     v_settlements := default (loadSettlementTransactions parse_settlement) (c_settlementTransactions c);
     v_kyc := default kyc (c_kycRecords c);
     v_audit := audit |}.
End Store.

(** ** The invariants, without the loops *)

(** The books of one bond. *)
Definition balanced (holders : list Holder) (b : Bond) : Prop :=
  ∃ supply subscribed balances,
    big (b_totalSupply b) = Ok supply ∧ big (b_totalSubscribed b) = Ok subscribed ∧
    Forall2 (λ h z, big (h_balance h) = Ok z ∧ 0 ≤ z) holders balances ∧
    zsum balances = subscribed ∧ subscribed ≤ supply.

Record consistent (other : string → option Z) (now : Z) (v : view) : Prop := {
  bonds_unique : NoDup (b_id <$> v_bonds v);
  bonds_have_projects : ∀ b, b ∈ v_bonds v → b_projectId b ∈ p_id <$> v_projects v;
  projects_named : ∀ p, p ∈ v_projects v → ∃ n, p_name p = Some n ∧ trim n ≠ "";
  books_balanced : ∀ b, b ∈ v_bonds v → balanced (v_holders v (b_id b)) b;
  holders_unique : ∀ b, b ∈ v_bonds v → NoDup (h_address <$> v_holders v (b_id b));
  maturity_reached : ∀ b d, b ∈ v_bonds v → b_status b = "Matured" → b_earlyMatured b = false →
    b_maturityDate b = Some d → d = 0 ∨ 1000 * d ≤ now;
  orders_unique : NoDup (o_id <$> v_orders v);
  orders_have_bonds : ∀ o, o ∈ v_orders v → o_bondId o ∈ b_id <$> v_bonds v;
  orders_positive : ∀ o, o ∈ v_orders v → ∃ z, big (o_amount o) = Ok z ∧ 0 < z;
  orders_live : ∀ o t ms, o ∈ v_orders v → o_status o = "Open" → o_expiresAt o = Some t → t ≠ "" →
    Date_parse other t = Some ms → ms < 1000 ∨ 1000 * (now / 1000) ≤ ms;
  hashes_well_formed : ∀ t, t ∈ v_settlements v → String.length (s_txHash t) = 64%nat ∧
    String.list_ascii_of_string (s_txHash t) ⊆ String.list_ascii_of_string "0123456789ABCDEFabcdef";
  hashes_unshared : ∀ t t', t ∈ v_settlements v → t' ∈ v_settlements v → s_txHash t = s_txHash t' →
    s_entityType t = s_entityType t' ∧ s_entityId t = s_entityId t';
  kyc_unique : NoDup (k_address <$> v_kyc v);
  kyc_statuses : ∀ r, r ∈ v_kyc v → k_status r ∈ ["none"; "pending"; "verified"; "accredited"; "expired"; "rejected"];
  kyc_unexpired : ∀ r x, r ∈ v_kyc v → k_status r ∈ ["verified"; "accredited"] → k_expiresAt r = Some x → x = 0 ∨ now ≤ x;
  kyc_audit_ordered : ∀ r ts, r ∈ v_kyc v → v_audit v (k_address r) = Some ts → StronglySorted Z.le ts;
}.

(** ** Lemmas *)

Lemma when_nil {A} b (x : A) : when b x = [] ↔ b = false.
Proof. destruct b; naive_solver. Qed.

Lemma concat_nil {A} (ls : list (list A)) : concat ls = [] ↔ ∀ l, l ∈ ls → l = [].
Proof.
  induction ls as [|l ls IH]; cbn; [split; [intros _ l H; by apply elem_of_nil in H|done]|].
  rewrite app_nil, IH. setoid_rewrite elem_of_cons. naive_solver.
Qed.

(** The identifiers of the rest are new: what the loops with a set of seen ones check. *)
Lemma fresh_cons {A} `{EqDecision A} (x : A) l (seen : list A) :
  (NoDup (x :: l) ∧ ∀ y, y ∈ x :: l → y ∉ seen) ↔ x ∉ seen ∧ NoDup l ∧ ∀ y, y ∈ l → y ∉ x :: seen.
Proof. rewrite NoDup_cons. setoid_rewrite elem_of_cons. naive_solver. Qed.

Lemma bond_references_nil ids seen bonds :
  bond_references ids seen bonds = [] ↔
  (NoDup (b_id <$> bonds) ∧ ∀ y, y ∈ b_id <$> bonds → y ∉ seen) ∧ ∀ b, b ∈ bonds → b_projectId b ∈ ids.
Proof.
  revert seen. induction bonds as [|b bonds IH]; intros seen; cbn.
  { split; [|done]. intros _. split; [split; [constructor|]|]; intros ? ?%elem_of_nil; done. }
  rewrite !app_nil, !when_nil, IH, fresh_cons, bool_decide_eq_false, negb_false_iff, bool_decide_eq_true.
  split.
  - intros (H1 & H2 & H3 & H4). split_and!; try tauto. by intros b' [->|?]%elem_of_cons; auto.
  - intros ((H1 & H2 & H3) & H4). split_and!; try done; intros; apply H4; [apply list_elem_of_here|by apply list_elem_of_further].
Qed.

Lemma check_holders_ok id seen hs ds sum :
  check_holders id seen hs = Ok (ds, sum) →
  ∃ balances, Forall2 (λ h z, big (h_balance h) = Ok z) hs balances ∧ zsum balances = sum ∧
    (ds = [] ↔ (NoDup (h_address <$> hs) ∧ ∀ y, y ∈ h_address <$> hs → y ∉ seen) ∧ Forall (λ z, 0 ≤ z) balances).
Proof.
  revert seen ds sum. induction hs as [|h hs IH]; intros seen ds sum; cbn.
  { intros [= <- <-]. exists []. split_and!; [done..|]. split; [|done]. intros _.
    split; [split; [constructor|]|constructor]; intros ? ?%elem_of_nil; done. }
  intros (z & Hz & ([ds' sum'] & Hr & [= <- <-])%bind_ok)%bind_ok.
  destruct (IH _ _ _ Hr) as (bs & Hbs & <- & Hnil). exists (z :: bs). split_and!; [by constructor|done|].
  rewrite !app_nil, !when_nil, Hnil, fresh_cons, bool_decide_eq_false, Z.ltb_ge, Forall_cons. tauto.
Qed.

Lemma check_holders_total id seen hs balances :
  Forall2 (λ h z, big (h_balance h) = Ok z) hs balances → ∃ r, check_holders id seen hs = Ok r.
Proof.
  intros H. revert seen. induction H as [|h z hs bs Hz _ IH]; intros seen; cbn; [by eexists|].
  rewrite Hz. cbn. destruct (IH (h_address h :: seen)) as [[ds sum] ->]. by eexists.
Qed.

Lemma check_bond_nil now hs b :
  check_bond now hs b = Ok [] ↔ balanced hs b ∧ NoDup (h_address <$> hs) ∧ matured_early now b = false.
Proof.
  unfold check_bond, balanced. split.
  - intros (sup & Hs & (sub & Hu & ([ds sum] & Hh & H)%bind_ok)%bind_ok)%bind_ok.
    destruct (check_holders_ok _ _ _ _ _ Hh) as (bs & Hbs & Hsum & Hnil). injection H as H.
    rewrite !app_nil, !when_nil, Hnil, negb_false_iff, Z.eqb_eq, Z.ltb_ge in H. destruct H as (H1 & ((H2 & _) & H3) & H4 & H5).
    split_and!; [|done..]. exists sup, sub, bs. split_and!; try done; [|congruence].
    clear -Hbs H3. induction Hbs; inversion_clear H3; constructor; auto.
  - intros ((sup & sub & bs & Hs & Hu & Hbs & Hsum & Hle) & Hnd & Hm). rewrite Hs, Hu. cbn.
    assert (Forall2 (λ h z, big (h_balance h) = Ok z) hs bs) as Hbs' by (eapply Forall2_impl; [exact Hbs|naive_solver]).
    destruct (check_holders_total (Z_to_string (b_id b)) [] hs bs Hbs') as [[ds sum] E]. rewrite E. cbn.
    destruct (check_holders_ok _ _ _ _ _ E) as (bs' & Hbs2 & Hsum2 & Hnil).
    assert (bs' = bs) as -> by (clear -Hbs' Hbs2; revert bs' Hbs2; induction Hbs' as [|h z hs bs Hz _ IH];
      intros bs' H2; inversion H2; subst; f_equal; [congruence|auto]).
    f_equal. rewrite !app_nil, !when_nil, Hnil, negb_false_iff, Z.eqb_eq, Z.ltb_ge. split_and!; try lia; try done.
    + intros y _. apply not_elem_of_nil.
    + clear -Hbs. induction Hbs; constructor; naive_solver.
Qed.

Lemma push_all_nil {A} (f : A → result string (list ReconciliationDrift)) l :
  push_all f l = Ok [] ↔ ∀ x, x ∈ l → f x = Ok [].
Proof.
  induction l as [|x l IH]; cbn.
  { split; [intros _ x ?%elem_of_nil; done|done]. }
  rewrite bind_ok. setoid_rewrite bind_ok. setoid_rewrite elem_of_cons. split.
  - intros (ds & Hf & rest & Hr & H). injection H as [-> ->]%app_nil. intros y [->|Hy]; [done|]. by apply IH.
  - intros H. exists []. split; [by apply H; left|]. exists []. split; [|done]. apply IH. intros y Hy. apply H. by right.
Qed.

Section Exactness.
Context (other : string → option Z).

Lemma check_orders_nil now ids seen os :
  check_orders other now ids seen os = Ok [] ↔
  (NoDup (o_id <$> os) ∧ ∀ y, y ∈ o_id <$> os → y ∉ seen) ∧
  ∀ o, o ∈ os → o_bondId o ∈ ids ∧ (∃ z, big (o_amount o) = Ok z ∧ 0 < z) ∧ expired_open other now o = false.
Proof.
  revert seen. induction os as [|o os IH]; intros seen; cbn.
  { split; [|done]. intros _. split; [split; [constructor|]|]; intros ? ?%elem_of_nil; done. }
  rewrite fresh_cons. setoid_rewrite elem_of_cons at 2. split.
  - intros (z & Hz & (rest & Hr & H)%bind_ok)%bind_ok. injection H as H.
    rewrite !app_nil, !when_nil, bool_decide_eq_false, negb_false_iff, bool_decide_eq_true, Z.leb_gt in H.
    destruct H as (H1 & H2 & H3 & H4 & ->). apply IH in Hr as [[H5 H6] H7]. split_and!; [done..|].
    intros o' [->|Ho]; [|by apply H7]. eauto.
  - intros [(H1 & H2 & H3) H4]. destruct (H4 o (or_introl eq_refl)) as (H5 & (z & Hz & Hp) & H6). rewrite Hz. cbn.
    assert (check_orders other now ids (o_id o :: seen) os = Ok []) as ->.
    { apply IH. split; [done|]. intros o' Ho. apply H4. by right. }
    cbn. f_equal. rewrite !app_nil, !when_nil, bool_decide_eq_false, negb_false_iff, bool_decide_eq_true, Z.leb_gt. done.
Qed.

Definition entity (t : Settlement) : string * string := (s_entityType t, s_entityId t).

Lemma check_settlements_nil seen ts :
  check_settlements seen ts = [] ↔
  ∀ t, t ∈ ts → is_hex64 (s_txHash t) = true ∧ (∀ e, aget (s_txHash t) seen = Some e → e = entity t) ∧
    ∀ t', t' ∈ ts → s_txHash t = s_txHash t' → entity t = entity t'.
Proof.
  revert seen. induction ts as [|t ts IH]; intros seen; cbn.
  { split; [intros _ t ?%elem_of_nil; done|done]. }
  case_decide as E0.
  { split; [done|]. intros H. destruct (H t (list_elem_of_here _ _)) as [H1 _]. by rewrite E0 in H1. }
  rewrite app_nil, when_nil, negb_false_iff. destruct (aget (s_txHash t) seen) as [e|] eqn:E.
  - rewrite app_nil, when_nil, negb_false_iff, bool_decide_eq_true, IH. split.
    + intros (H1 & -> & H3) t1 [->|H4]%elem_of_cons.
      * split_and!; [done|naive_solver|]. intros t' [->|H5]%elem_of_cons Hh; [done|].
        destruct (H3 t' H5) as (_ & H6 & _). apply H6. by rewrite <- Hh.
      * destruct (H3 t1 H4) as (H5 & H6 & H7). split_and!; [done..|]. intros t' [->|H8]%elem_of_cons Hh; [|by apply H7].
        symmetry. apply H6. by rewrite Hh.
    + intros H. split_and!.
      * by apply (H t (list_elem_of_here _ _)).
      * by apply (H t (list_elem_of_here _ _)).
      * intros t1 H1. destruct (H t1 (list_elem_of_further _ _ _ H1)) as (H2 & H3 & H4). split_and!; [done..|].
        intros t' Ht'. apply H4. by apply list_elem_of_further.
  - rewrite IH. split.
    + intros (H1 & H3) t1 [->|H4]%elem_of_cons.
      * split_and!; [done|naive_solver|]. intros t' [->|H5]%elem_of_cons Hh; [done|].
        destruct (H3 t' H5) as (_ & H6 & _). apply H6. rewrite aget_aput, <- Hh. by rewrite decide_True.
      * destruct (H3 t1 H4) as (H5 & H6 & H7). split_and!; [done| |].
        -- intros e He. apply H6. rewrite aget_aput. case_decide as Ed; [|done]. rewrite Ed in He. congruence.
        -- intros t' [->|H8]%elem_of_cons Hh; [|by apply H7]. symmetry. apply H6. rewrite aget_aput, Hh. by rewrite decide_True.
    + intros H. split; [by apply (H t (list_elem_of_here _ _))|].
      intros t1 H1. destruct (H t1 (list_elem_of_further _ _ _ H1)) as (H2 & H3 & H4). split_and!; [done| |].
      * intros e. rewrite aget_aput. case_decide as Ed; [|apply H3]. intros [= <-]. symmetry. by apply (H4 t (list_elem_of_here _ _)).
      * intros t' Ht'. apply H4. by apply list_elem_of_further.
Qed.

Lemma non_monotonic_false l : non_monotonic l = false ↔ StronglySorted Z.le l.
Proof.
  split.
  - intros H. apply Sorted_StronglySorted; [intros ???; lia|]. revert H. induction l as [|a [|b l] IH]; intros H; [constructor|by constructor|].
    cbn in H. apply orb_false_iff in H as [H1%Z.ltb_ge H2]. constructor; [by apply IH|by constructor].
  - intros H. apply StronglySorted_Sorted in H. induction H as [|a [|b l] _ IH Ha]; [done..|].
    cbn. inversion_clear Ha. apply orb_false_iff. split; [by apply Z.ltb_ge|done].
Qed.

Lemma check_kyc_nil now audit seen rs :
  check_kyc now audit seen rs = Ok [] ↔
  (NoDup (k_address <$> rs) ∧ ∀ y, y ∈ k_address <$> rs → y ∉ seen) ∧
  ∀ r, r ∈ rs → k_status r ∈ validStatuses ∧ lapsed now r = None ∧ ∀ ts, audit (k_address r) = Some ts → StronglySorted Z.le ts.
Proof.
  revert seen. induction rs as [|r rs IH]; intros seen; cbn -[validStatuses].
  { split; [|done]. intros _. split; [split; [constructor|]|]; intros ? ?%elem_of_nil; done. }
  rewrite fresh_cons. split.
  - intros (ex & Hex & (rest & Hr & H)%bind_ok)%bind_ok. injection H as H.
    rewrite !app_nil, !when_nil, bool_decide_eq_false, negb_false_iff, bool_decide_eq_true in H.
    destruct H as (H1 & H2 & -> & H4 & ->). apply IH in Hr as [[H5 H6] H7]. split_and!; [done..|].
    intros r' [->|Hr']%elem_of_cons; [|by apply H7]. split_and!; [done| |].
    + destruct (lapsed now r); [|done]. by destruct (toISOString z).
    + intros ts Hts. rewrite Hts, when_nil in H4. by apply non_monotonic_false.
  - intros [(H1 & H2 & H3) H4]. destruct (H4 r (list_elem_of_here _ _)) as (H5 & H6 & H7). rewrite H6. cbn -[validStatuses].
    assert (check_kyc now audit (k_address r :: seen) rs = Ok []) as ->.
    { apply IH. split; [done|]. intros r' Hr'. apply H4. by apply list_elem_of_further. }
    cbn -[validStatuses]. f_equal. rewrite !app_nil, !when_nil, bool_decide_eq_false, negb_false_iff, bool_decide_eq_true. split_and!; try done.
    destruct (audit (k_address r)) as [ts|]; [|done]. rewrite when_nil, non_monotonic_false. by apply H7.
Qed.

Lemma status_healthy c ds : status_of c ds = HEALTHY ↔ ds = [].
Proof. unfold status_of. destruct ds; [done|]. destruct (existsb _ _); done. Qed.

Lemma validate_nil checks : validate_drifts checks = [] ↔ ∀ c, c ∈ checks → c.2 = Ok [].
Proof.
  unfold validate_drifts. rewrite concat_nil. setoid_rewrite list_elem_of_fmap. split.
  - intros H [n r] Hc. specialize (H _ (ex_intro _ _ (conj eq_refl Hc))). cbn in *. by destruct r; [subst|].
  - intros H l (c & -> & Hc). by rewrite (H c Hc).
Qed.

Lemma unnamed_false p : unnamed p = false ↔ ∃ n, p_name p = Some n ∧ trim n ≠ "".
Proof. unfold unnamed. destruct (p_name p); [rewrite bool_decide_eq_false|]; naive_solver. Qed.

Lemma matured_early_false now b : matured_early now b = false ↔
  (∀ d, b_status b = "Matured" → b_earlyMatured b = false → b_maturityDate b = Some d → d = 0 ∨ 1000 * d ≤ now).
Proof.
  unfold matured_early. rewrite !andb_false_iff, bool_decide_eq_false, negb_false_iff.
  destruct (b_maturityDate b) as [d|]; [|split; [done|by intros _; left; right]].
  rewrite andb_false_iff, negb_false_iff, Z.eqb_eq, Z.ltb_ge. split.
  - intros [[?|[?|?]]|?] d' ? ? [= <-]; [done|by left|right; Z.to_euclidean_division_equations; lia|congruence].
  - intros H. destruct (decide (b_status b = "Matured")) as [Hs|]; [|auto]. destruct (b_earlyMatured b) eqn:He; [by right|].
    destruct (H d Hs eq_refl eq_refl) as [?|?]; [auto|]. left. right. right. Z.to_euclidean_division_equations; lia.
Qed.

Lemma expired_open_false now o : expired_open other now o = false ↔
  (∀ t ms, o_status o = "Open" → o_expiresAt o = Some t → t ≠ "" → Date_parse other t = Some ms →
    ms < 1000 ∨ 1000 * (now / 1000) ≤ ms).
Proof.
  unfold expired_open. rewrite andb_false_iff, bool_decide_eq_false. destruct (o_expiresAt o) as [t|]; [|split; [done|by right]].
  rewrite andb_false_iff, negb_false_iff, bool_decide_eq_true. destruct (Date_parse other t) as [ms|] eqn:Ep.
  - rewrite andb_false_iff, !Z.ltb_ge. split.
    + intros [?|[?|[?|?]]] t' ms' ? [= <-] ? Hp; [done|done|left|right]; assert (ms' = ms) as -> by congruence; Z.to_euclidean_division_equations; lia.
    + intros H. destruct (decide (o_status o = "Open")) as [Hs|]; [|auto]. destruct (decide (t = "")) as [|Ht]; [auto|].
      right. right. destruct (H t ms Hs eq_refl Ht Ep); [left|right]; Z.to_euclidean_division_equations; lia.
  - split; [|by auto]. intros _ t' ms' _ [= <-] _ ?. congruence.
Qed.

Lemma is_hex_char_listed c : is_hex_char c = true ↔ c ∈ String.list_ascii_of_string "0123456789ABCDEFabcdef".
Proof. destruct c as [[] [] [] [] [] [] [] []]; vm_compute; split; intros; first [done|set_solver]. Qed.

Lemma is_hex64_spec s : is_hex64 s = true ↔
  String.length s = 64%nat ∧ String.list_ascii_of_string s ⊆ String.list_ascii_of_string "0123456789ABCDEFabcdef".
Proof.
  unfold is_hex64. rewrite andb_true_iff, bool_decide_eq_true. apply and_iff_compat_l.
  induction s as [|c s IH]; [split; [by intros _ c ?%elem_of_nil|done]|].
  cbn [str_forall String.list_ascii_of_string]. rewrite andb_true_iff, is_hex_char_listed, IH.
  unfold subseteq, list_subseteq. setoid_rewrite elem_of_cons. naive_solver.
Qed.

Lemma lapsed_none now r : lapsed now r = None ↔
  (∀ x, k_status r ∈ ["verified"; "accredited"] → k_expiresAt r = Some x → x = 0 ∨ now ≤ x).
Proof.
  unfold lapsed. destruct (bool_decide (k_status r = _) || _) eqn:Es.
  - assert (k_status r ∈ ["verified"; "accredited"]) as Hs
      by (rewrite orb_true_iff, !bool_decide_eq_true in Es; cbn in Es; set_solver).
    destruct (k_expiresAt r) as [x|]; [|done]. destruct (negb (x =? 0) && (x <? now)) eqn:Ex.
    + split; [done|]. intros H. rewrite andb_true_iff, negb_true_iff, Z.eqb_neq, Z.ltb_lt in Ex. destruct (H x Hs eq_refl); lia.
    + split; [|done]. intros _ x' _ [= <-]. rewrite andb_false_iff, negb_false_iff, Z.eqb_eq, Z.ltb_ge in Ex. done.
  - split; [|done]. intros _ x Hs. rewrite orb_false_iff, !bool_decide_eq_false in Es. cbn in Es. set_solver.
Qed.

Lemma fresh_nil {A} (l : list A) : (NoDup l ∧ ∀ y, y ∈ l → y ∉ []) ↔ NoDup l.
Proof. split; [by intros []|]. intros H. split; [done|]. intros y _. apply not_elem_of_nil. Qed.

(** C17: a validation reports HEALTHY exactly when the data it has read satisfy the domain
    invariants: bond and order identifiers, the holders of a bond and the KYC addresses are
    unique; every bond has its project and every order its bond; projects have names that are
    not blank; the numbers of every bond can be read, its balances are not negative, add up to
    what was subscribed and stay within the supply; a bond that is matured and not marked early
    has reached its maturity date; orders have positive amounts, and the expiry of an open one
    lies in this second or later; transaction hashes are 64 hexadecimal digits, each of one
    entity; KYC records have known statuses, verified and accredited ones are not past their
    expiry, and readable audit histories are in order.  (Data that cannot be read count as
    none: [unreachable_store_healthy].) *)
Theorem healthy_exact now v :
  rr_status (validateDomainInvariants other now v) = HEALTHY ↔ consistent other now v.
Proof.
  unfold validateDomainInvariants. cbn [rr_status]. rewrite status_healthy, validate_nil. unfold getAllInvariants.
  rewrite <- Forall_forall, !Forall_cons, Forall_nil. cbn [snd].
  unfold getBondProjectIntegrityInvariant, getBondSupplyAccountingInvariant, getMarketplaceOrderIntegrityInvariant,
    getSettlementReferenceIntegrityInvariant, getKycComplianceIntegrityInvariant.
  rewrite push_all_nil, check_orders_nil, check_kyc_nil, !fresh_nil. setoid_rewrite check_bond_nil. split.
  - intros ([= [H1 H2]%app_nil] & H3 & [H4 H5] & [= H6] & [H7 H8] & _). rewrite concat_nil in H2.
    rewrite bond_references_nil, fresh_nil in H1. destruct H1 as [H1 H1']. rewrite check_settlements_nil in H6.
    constructor; try done; try (intros; by apply H3); try (intros; by apply H5); try (intros; by eapply H8); try (intros; by apply H6).
    + intros p Hp. apply unnamed_false. specialize (H2 _ (list_elem_of_fmap_2 _ _ _ Hp)). by apply when_nil in H2.
    + intros b d Hb. apply matured_early_false. by apply H3.
    + intros o t ms Ho. apply expired_open_false. by apply H5.
    + intros t Ht. apply is_hex64_spec. by apply H6.
    + intros t t' Ht Ht' Hh. destruct (H6 t Ht) as (_ & _ & H). by injection (H t' Ht' Hh).
    + intros r x Hr. apply lapsed_none. by apply H8.
  - intros []. split_and!; try done.
    + f_equal. apply app_nil. split; [by rewrite bond_references_nil, fresh_nil|]. apply concat_nil.
      intros l (p & -> & Hp)%list_elem_of_fmap. apply when_nil, unnamed_false. auto.
    + intros b Hb. split_and!; [by apply books_balanced0|by apply holders_unique0|]. apply matured_early_false. by intros d; apply maturity_reached0.
    + intros o Ho. split_and!; [by apply orders_have_bonds0|by apply orders_positive0|]. apply expired_open_false. by intros t ms; apply orders_live0.
    + f_equal. apply check_settlements_nil. intros t Ht. split_and!; [by apply is_hex64_spec, hashes_well_formed0|done|]. intros t' Ht' Hh. unfold entity.
      f_equal; by apply hashes_unshared0.
    + intros r Hr. split_and!; [by apply kyc_statuses0|apply lapsed_none; by intros x; apply kyc_unexpired0|]. intros ts. by apply kyc_audit_ordered0.
Qed.

(** *** Books that do not balance *)

Lemma existsb_elem {A} (f : A → bool) l x : x ∈ l → f x = true → existsb f l = true.
Proof. intros Hx Hf. apply existsb_exists. exists x. by rewrite <- list_elem_of_In. Qed.

Lemma status_critical c ds : existsb c ds = true → status_of c ds = CRITICAL_STATE.
Proof. unfold status_of. destruct ds; [done|]. by intros ->. Qed.

Lemma check_holders_critical id seen hs ds sum balances :
  check_holders id seen hs = Ok (ds, sum) → Forall2 (λ h z, big (h_balance h) = Ok z) hs balances →
  existsb is_critical ds = false → Forall (λ z, 0 ≤ z) balances.
Proof.
  intros H Hb. revert seen ds sum H. induction Hb as [|h z hs bs Hz _ IH]; intros seen ds sum; cbn; [by constructor|].
  rewrite Hz. cbn. intros ([ds' sum'] & Hr & [= <- <-])%bind_ok. rewrite !existsb_app, !orb_false_iff. intros (_ & H2 & H3).
  constructor; [|by eapply IH]. destruct (Z.ltb_spec z 0); [|lia]. by cbn in H2.
Qed.

Lemma check_bond_critical now hs b ds : check_bond now hs b = Ok ds → existsb is_critical ds = false → balanced hs b.
Proof.
  unfold check_bond. intros (sup & Hs & (sub & Hu & ([hds sum] & Hh & [= <-])%bind_ok)%bind_ok)%bind_ok.
  destruct (check_holders_ok _ _ _ _ _ Hh) as (bs & Hbs & Hsum & _). rewrite !existsb_app, !orb_false_iff.
  intros (H1 & H2 & H3 & _). pose proof (check_holders_critical _ _ _ _ _ _ Hh Hbs H2) as Hp.
  exists sup, sub, bs. split_and!; try done.
  - clear -Hbs Hp. induction Hbs; inversion_clear Hp; constructor; auto.
  - destruct (Z.eqb_spec sum sub); [congruence|]. by cbn in H3.
  - destruct (Z.ltb_spec sup sub); [by cbn in H1|lia].
Qed.

Lemma push_all_elem {A} (f : A → result string (list ReconciliationDrift)) l ds x :
  push_all f l = Ok ds → x ∈ l → ∃ d, f x = Ok d ∧ d ⊆ ds.
Proof.
  revert ds. induction l as [|y l IH]; intros ds; cbn; [by intros _ ?%elem_of_nil|].
  intros (d & Hd & (rest & Hr & [= <-])%bind_ok)%bind_ok [-> |Hx]%elem_of_cons.
  - exists d. split; [done|]. intros z Hz. apply elem_of_app. by left.
  - destruct (IH _ Hr Hx) as (d' & Hd' & Hs). exists d'. split; [done|]. intros z Hz. apply elem_of_app. right. by apply Hs.
Qed.

(** Books that do not balance are never reported as less than CRITICAL: when an amount of a bond
    or of one of its holders cannot be read, a balance is negative, the balances do not add up to
    what was subscribed, or more was subscribed than the supply, the status of the validation is
    CRITICAL, whatever the other records hold. *)
Theorem books_critical now v b :
  b ∈ v_bonds v → ¬ balanced (v_holders v (b_id b)) b →
  rr_status (validateDomainInvariants other now v) = CRITICAL_STATE.
Proof.
  intros Hb Hn. unfold validateDomainInvariants. cbn [rr_status]. apply status_critical.
  unfold validate_drifts, getAllInvariants. cbn [fmap list_fmap concat snd fst]. rewrite existsb_app, orb_true_iff. right.
  rewrite existsb_app, orb_true_iff. left. unfold getBondSupplyAccountingInvariant.
  destruct (push_all _ _) as [ds|e] eqn:E; [|done]. destruct (push_all_elem _ _ _ _ E Hb) as (d & Hd & Hs). cbn in Hd.
  destruct (existsb is_critical d) eqn:Ec; [|by destruct Hn; eapply check_bond_critical].
  apply existsb_exists in Ec as (x & Hx & Hc). apply (existsb_elem _ _ x); [|done]. apply Hs. by rewrite list_elem_of_In.
Qed.

End Exactness.

(** *** Both services count drifts alike *)

Lemma summary_snoc ds d : bump (summary_of ds) d = summary_of (ds ++ [d]).
Proof.
  unfold bump, summary_of, of_type. rewrite !count_app, !count_cons. destruct d as [t]. cbn [d_type].
  destruct t; f_equal; case_bool_decide; try done; unfold count; cbn; lia.
Qed.

Lemma reconcile_loop_summary ds checks :
  (reconcile_loop ds (summary_of ds) checks).2 = summary_of (reconcile_loop ds (summary_of ds) checks).1.
Proof.
  revert ds. induction checks as [|[n [found|e]] checks IH]; intros ds; cbn [reconcile_loop]; [done| |by rewrite summary_snoc].
  replace (foldl bump (summary_of ds) found) with (summary_of (ds ++ found)); [done|].
  revert ds. induction found as [|d found IHf]; intros ds; cbn [foldl]; [by rewrite app_nil_r|].
  rewrite summary_snoc, <- IHf, <- app_assoc. done.
Qed.

(** The counters that [reconcile] keeps are the numbers of drifts of each type. *)
Theorem reconcile_counts checks : rr_summary (reconcile checks) = summary_of (rr_driftsFound (reconcile checks)).
Proof.
  unfold reconcile. pose proof (reconcile_loop_summary [] checks) as H. destruct (reconcile_loop _ _ _) as [ds s]. done.
Qed.

(** ** Concrete runs *)

Definition no_dates (s : string) : option Z := None.
Definition good_hash : string := "0123456789abcdef0123456789abcdef0123456789abcdef0123456789abcdef".
Definition sample_bond (subscribed : string) : Bond :=
  {| b_id := 1; b_projectId := "p"; b_totalSupply := Some "100"; b_totalSubscribed := Some subscribed; b_status := "Active";
     b_maturityDate := Some 2000000000; b_earlyMatured := false |}.
Definition sample_holders : list Holder := [{| h_address := "GA"; h_balance := Some "4" |}; {| h_address := "GB"; h_balance := Some "6" |}].
Definition sample_view (bonds : list Bond) (holders : list Holder) : view :=
  {| v_bonds := bonds; v_projects := [{| p_id := "p"; p_name := Some "Mangroves" |}];
     v_orders := [{| o_id := 7; o_bondId := 1; o_amount := Some "3"; o_status := "Open"; o_expiresAt := Some "2030-01-01T00:00:00.000Z" |}];
     v_holders := λ _, holders;
     v_settlements := [{| s_txHash := good_hash; s_entityType := "settlement"; s_entityId := "1" |}];
     v_kyc := [{| k_address := "GA"; k_status := "verified"; k_expiresAt := Some 1900000000000 |}];
     v_audit := λ _, Some [1; 2; 2] |}.
Definition sample_now : Z := 1700000000000.

Example sample_healthy : rr_status (validateDomainInvariants no_dates sample_now (sample_view [sample_bond "10"] sample_holders)) = HEALTHY.
Proof. by vm_compute. Qed.
Example sample_critical : rr_status (validateDomainInvariants no_dates sample_now (sample_view [sample_bond "11"] sample_holders)) = CRITICAL_STATE.
Proof. by vm_compute. Qed.

Lemma books_critical_witness :
  rr_status (validateDomainInvariants no_dates sample_now (sample_view [sample_bond "11"] sample_holders)) = CRITICAL_STATE.
Proof.
  apply (books_critical no_dates sample_now _ (sample_bond "11")); [apply list_elem_of_here|].
  intros (sup & sub & bs & Hs & Hu & Hb & Hsum & _). vm_compute in Hu. injection Hu as <-.
  cbn in Hb. inversion Hb as [|?? ? ? [H1 _] Hb2]; subst. inversion Hb2 as [|?? ? ? [H2 _] Hb3]; subst. inversion Hb3; subst.
  vm_compute in H1, H2. injection H1 as <-. injection H2 as <-. vm_compute in Hsum. done.
Defined.

(** *** Where the checks fall short *)

Definition unreachable_view : view :=
  view_of (λ _, []) (λ _, None) (λ _, None) (λ _, None) (λ _, None) (λ _, None) (λ _, None)
    {| c_bonds := None; c_projects := None; c_orders := None; c_kycRecords := None; c_holdersByBond := λ _, None;
       c_settlementTransactions := None |} [] (λ _, None).

(** When Redis cannot be reached there is nothing to check, and the validation is HEALTHY. *)
Lemma unreachable_store_healthy now : rr_status (validateDomainInvariants no_dates now unreachable_view) = HEALTHY.
Proof. by vm_compute. Qed.

(** A scan may answer a key twice: the bond is then reported as a critical duplicate. *)
Definition repeating_store : view :=
  view_of (λ p, if bool_decide (p = "bond:*") then ["bond:1"; "bond:1"] else if bool_decide (p = "project:*") then ["project:p"] else [])
    (λ k, Some k) (λ _, Some (sample_bond "0")) (λ _, Some {| p_id := "p"; p_name := Some "Mangroves" |}) (λ _, None) (λ _, Some [])
    (λ _, Some (None, None))
    {| c_bonds := None; c_projects := None; c_orders := None; c_kycRecords := None; c_holdersByBond := λ _, None;
       c_settlementTransactions := None |} [] (λ _, None).
Lemma repeated_scan_key_alarm :
  rr_status (validateDomainInvariants no_dates sample_now repeating_store) = CRITICAL_STATE ∧
  (d_description <$> rr_driftsFound (validateDomainInvariants no_dates sample_now repeating_store)) = ["Duplicate bond ID detected: 1"].
Proof. by vm_compute. Qed.

(** The holder index keeps [bond:N:holders] as a set, which the string read cannot return: a
    bond with holders is then reported as out of balance. *)
Lemma set_of_holders_alarm :
  let v := sample_view [sample_bond "10"] (loadHoldersForBond (λ _, None) (λ _, Some sample_holders) 1) in
  rr_status (validateDomainInvariants no_dates sample_now v) = CRITICAL_STATE.
Proof. by vm_compute. Qed.

(** One settlement value that does not parse hides all the others. *)
Lemma bad_settlement_hides_all :
  loadSettlementTransactions (λ _, ["stellar:tx:aa"; "stellar:tx:zz"]) (λ k, Some k)
    (λ raw, if bool_decide (raw = "stellar:tx:aa") then None else Some (None, None)) = [].
Proof. by vm_compute. Qed.

(** The same drifts are DEGRADED to the one service and CRITICAL to the other. *)
Lemma statuses_disagree :
  let early := {| b_id := 1; b_projectId := "p"; b_totalSupply := Some "100"; b_totalSubscribed := Some "10"; b_status := "Matured";
                  b_maturityDate := Some 2000000000; b_earlyMatured := false |} in
  let v := sample_view [early] sample_holders in
  rr_driftsFound (reconcile (getAllInvariants no_dates sample_now v)) = rr_driftsFound (validateDomainInvariants no_dates sample_now v) ∧
  rr_status (validateDomainInvariants no_dates sample_now v) = DEGRADED ∧
  rr_status (reconcile (getAllInvariants no_dates sample_now v)) = CRITICAL_STATE.
Proof. by vm_compute. Qed.
