(* ===== verification/Similarity.v ===== *)
(** * Similarity of records

    Models [api/src/deduplication/similarity-scoring.ts]: the edit distance with its two
    rotating rows, the trigram sets, the order-independent candidate id and the order of
    candidates.  Ratios are rounded to four decimals by the code, so that a score is a number of
    ten-thousandths here; the two roundings, [Number((n / d).toFixed(4))] and
    [Number(Math.max(0, 1 - n / d).toFixed(4))], are arguments, and so are the text normalisation (Unicode tables) and [localeCompare] (collation
    tables).  The trigonometry of [haversineDistanceKm] is left out.

    Shown: the two-row loop computes the least number of single-character insertions, deletions
    and replacements that lead from one text to the other, whatever the rows held before
    ([levenshtein_least]); candidate ids do not depend on the order of the pair
    ([candidate_id_symmetric]). *)
From S2P Require Import Prelude Json.
From Stdlib Require Import Lia.

(** ** Edit distance *)

Local Open Scope nat_scope.

(** The body of the inner loop: one cell of the current row. *)
Definition cell (charA : ascii) (b : list ascii) (prevRow currRow : list nat) (j : nat) : list nat :=
  let cost := if decide (b !! (j - 1) = Some charA) then 0 else 1 in
  <[j := Nat.min (currRow !!! (j - 1) + 1) (Nat.min (prevRow !!! j + 1) (prevRow !!! (j - 1) + cost))]> currRow.

(** The body of the outer loop, which ends by swapping the rows. *)
Definition row (a b : list ascii) (rows : list nat * list nat) (i : nat) : list nat * list nat :=
  let '(prevRow, currRow) := rows in
  match a !! (i - 1) with
  | Some charA => (foldl (cell charA b prevRow) (<[0 := i]> currRow) (seq 1 (length b)), prevRow)
  | None => rows
  end.

(** [junk] is what the second array holds before it is written. *)
Definition levenshtein_rows (junk : list nat) (a b : list ascii) : nat :=
  (foldl (row a b) (seq 0 (length b + 1), junk) (seq 1 (length a))).1 !!! length b.

Definition levenshteinDistance (junk : list nat) (a b : string) : nat :=
  let a := String.list_ascii_of_string a in
  let b := String.list_ascii_of_string b in
  if decide (a = b) then 0
  else if decide (length a = 0) then length b
  else if decide (length b = 0) then length a
  else levenshtein_rows junk a b.

(** ** Trigrams *)

Definition trigrams (s : list ascii) : gset (list ascii) :=
  list_to_set ((λ i, take 3 (drop i s)) <$> seq 0 (length s - 2)).

Section Scores.
Context (ratio4 one_minus4 : nat → nat → Z) (normalize : string → string) (localeCompare : string → string → Z) (sha256 : string → string).

Definition levenshteinSimilarity (junk : list nat) (a b : string) : Z :=
  let normA := normalize a in
  let normB := normalize b in
  if decide (normA = normB) then 10000%Z
  else
    let maxLen := Nat.max (String.length normA) (String.length normB) in
    if decide (maxLen = 0) then 10000%Z
    else one_minus4 (levenshteinDistance junk normA normB) maxLen.

Definition jaccardTrigramSimilarity (junk : list nat) (a b : string) : Z :=
  let normA := normalize a in
  let normB := normalize b in
  if decide (normA = normB) then 10000%Z
  else if decide (String.length normA < 3 ∨ String.length normB < 3) then levenshteinSimilarity junk normA normB
  else
    let ta := trigrams (String.list_ascii_of_string normA) in
    let tb := trigrams (String.list_ascii_of_string normB) in
    let intersectionCount := size (ta ∩ tb) in
    let unionSize := size ta + size tb - intersectionCount in
    if decide (unionSize = 0) then 10000%Z else ratio4 intersectionCount unionSize.

(** [[a, b].sort(localeCompare)]: two elements are swapped only when the second comes first. *)
Definition sorted_pair (a b : string) : string * string := if decide (localeCompare a b <= 0)%Z then (a, b) else (b, a).

Definition deterministicCandidateId (entityType idA idB : string) : string :=
  let '(x, y) := sorted_pair idA idB in sha256 (entityType +:+ ":" +:+ x +:+ ":" +:+ y).

End Scores.

(** ** Digests *)

(** [stableJsonStringify]: the keys of an object are printed in order. *)
Fixpoint stableJsonStringify (j : json) : string :=
  match j with
  | JArr l => "[" +:+ join "," (map stableJsonStringify l) +:+ "]"
  | JObj l =>
      let texts := map (λ kv, (fst kv, stableJsonStringify (snd kv))) l in
      "{" +:+ join "," ((λ k, JSON_stringify (JStr k) +:+ ":" +:+ default "" (aget k texts)) <$> merge_sort str_le l.*1) +:+ "}"
  | _ => JSON_stringify j
  end.

Definition computeCanonicalDigest (sha256 : string → string) (data : json) : string :=
  match data with JNull => "null" | _ => sha256 (stableJsonStringify data) end.

(** ** The least number of edits *)

Inductive one_edit : list ascii → list ascii → Prop :=
| Insert p x s : one_edit (p ++ s) (p ++ x :: s)
| Delete p x s : one_edit (p ++ x :: s) (p ++ s)
| Replace p x y s : one_edit (p ++ x :: s) (p ++ y :: s).

(** An alignment of two texts and its cost. *)
Inductive align : list ascii → list ascii → nat → Prop :=
| a_nil : align [] [] 0
| a_ins y a b n : align a b n → align a (y :: b) (S n)
| a_del x a b n : align a b n → align (x :: a) b (S n)
| a_sub x y a b n : align a b n → align (x :: a) (y :: b) (if decide (x = y) then n else S n).

Lemma align_refl a : align a a 0.
Proof. induction a as [|x a IH]; [constructor|]. pose proof (a_sub x x a a 0 IH) as H. by rewrite decide_True in H. Qed.

(** Alignments compose, at most at the sum of the costs. *)
Lemma align_trans a b c n m : align a b n → align b c m → ∃ k, k <= n + m ∧ align a c k.
Proof.
  intros H. revert c m. induction H as [|y a b n H IH|x a b n H IH|x y a b n H IH]; intros c m H2.
  - exists m. by split.
  - remember (y :: b) as yb eqn:E. induction H2 as [|z b' c m H2 IH2|x' b' c m H2|x' z b' c m H2]; simplify_eq.
    + destruct (IH2 eq_refl) as (k & Hk & Hal). exists (S k). split; [lia|by constructor].
    + destruct (IH _ _ H2) as (k & Hk & Hal). exists k. split; [lia|done].
    + destruct (IH _ _ H2) as (k & Hk & Hal). exists (S k). split; [case_decide; lia|by constructor].
  - destruct (IH _ _ H2) as (k & Hk & Hal). exists (S k). split; [lia|by constructor].
  - remember (y :: b) as yb eqn:E. induction H2 as [|z b' c m H2 IH2|x' b' c m H2|x' z b' c m H2]; simplify_eq.
    + destruct (IH2 eq_refl) as (k & Hk & Hal). exists (S k). split; [lia|by constructor].
    + destruct (IH _ _ H2) as (k & Hk & Hal). exists (S k). split; [case_decide; lia|by constructor].
    + destruct (IH _ _ H2) as (k & Hk & Hal). exists (if decide (x = z) then k else S k). split; [|by constructor].
      repeat case_decide; subst; try lia; done.
Qed.

Lemma align_app p a b n : align a b n → align (p ++ a) (p ++ b) n.
Proof.
  intros H. induction p as [|x p IH]; [done|]. pose proof (a_sub x x _ _ _ IH) as H1. by rewrite decide_True in H1.
Qed.

Lemma one_edit_align a b : one_edit a b → ∃ k, k <= 1 ∧ align a b k.
Proof.
  intros []; [exists 1|exists 1|exists (if decide (x = y) then 0 else 1)]; (split; [case_decide || idtac; lia|apply align_app]).
  - constructor. apply align_refl.
  - constructor. apply align_refl.
  - constructor. apply align_refl.
Qed.

Lemma edits_align n a b : nsteps one_edit n a b → ∃ k, k <= n ∧ align a b k.
Proof.
  induction 1 as [a|n a b c H _ (k & Hk & IH)].
  - exists 0. split; [lia|apply align_refl].
  - destruct (one_edit_align _ _ H) as (k1 & Hk1 & H1). destruct (align_trans _ _ _ _ _ H1 IH) as (k2 & Hk2 & H2).
    exists k2. split; [lia|done].
Qed.

Lemma one_edit_cons x a b : one_edit a b → one_edit (x :: a) (x :: b).
Proof. intros []; [apply (Insert (x :: p))|apply (Delete (x :: p))|apply (Replace (x :: p))]. Qed.

Lemma align_edits a b n : align a b n → nsteps one_edit n a b.
Proof.
  assert (∀ x n a b, nsteps one_edit n a b → nsteps one_edit n (x :: a) (x :: b)) as Hcons.
  { intros x k c d. induction 1 as [|k c1 c2 c3 H _ IH]; [constructor|]. econstructor; [by apply one_edit_cons|done]. }
  induction 1 as [|y a b n H IH|x a b n H IH|x y a b n H IH].
  - constructor.
  - eapply nsteps_r; [done|]. apply (Insert []).
  - econstructor; [apply (Delete [])|done].
  - case_decide; [subst; by apply Hcons|]. econstructor; [apply (Replace [])|by apply Hcons].
Qed.

Lemma align_snoc x y a b n : align a b n → align (a ++ [x]) (b ++ [y]) (if decide (x = y) then n else S n).
Proof.
  induction 1 as [|y' a b n H IH|x' a b n H IH|x' y' a b n H IH]; cbn.
  - constructor. constructor.
  - replace (if decide (x = y) then S n else S (S n)) with (S (if decide (x = y) then n else S n)) by by case_decide.
    by constructor.
  - replace (if decide (x = y) then S n else S (S n)) with (S (if decide (x = y) then n else S n)) by by case_decide.
    by constructor.
  - pose proof (a_sub x' y' _ _ _ IH) as H1. repeat case_decide; done.
Qed.

Lemma align_ins_end y a b n : align a b n → align a (b ++ [y]) (S n).
Proof.
  induction 1 as [|y' a b n H IH|x' a b n H IH|x' y' a b n H IH]; cbn; [repeat constructor|by constructor..|].
  pose proof (a_sub x' y' _ _ _ IH) as H1. repeat case_decide; done.
Qed.

Lemma align_del_end x a b n : align a b n → align (a ++ [x]) b (S n).
Proof.
  induction 1 as [|y' a b n H IH|x' a b n H IH|x' y' a b n H IH]; cbn; [repeat constructor|by constructor..|].
  pose proof (a_sub x' y' _ _ _ IH) as H1. repeat case_decide; done.
Qed.

Lemma align_rev a b n : align a b n → align (reverse a) (reverse b) n.
Proof.
  induction 1 as [|y a b n H IH|x a b n H IH|x y a b n H IH]; rewrite ?reverse_cons.
  - constructor.
  - by apply align_ins_end.
  - by apply align_del_end.
  - by apply align_snoc.
Qed.

(** The last column of an alignment. *)
Lemma align_snoc_inv x y a b n : align (a ++ [x]) (b ++ [y]) n →
  (∃ m, n = S m ∧ align (a ++ [x]) b m) ∨ (∃ m, n = S m ∧ align a (b ++ [y]) m) ∨
  (∃ m, n = (if decide (x = y) then m else S m) ∧ align a b m).
Proof.
  intros H%align_rev. rewrite !reverse_snoc in H.
  inversion H as [|? ? ? m H1|? ? ? m H1|? ? ? ? m H1]; subst; apply align_rev in H1.
  - left. exists m. split; [done|]. by rewrite reverse_involutive, reverse_cons, reverse_involutive in H1.
  - right; left. exists m. split; [done|]. by rewrite reverse_involutive, reverse_cons, reverse_involutive in H1.
  - right; right. exists m. split; [done|]. by rewrite !reverse_involutive in H1.
Qed.

Definition least (a b : list ascii) (d : nat) : Prop := align a b d ∧ ∀ n, align a b n → d <= n.

Lemma align_length a b n : align a b n → length a <= length b + n ∧ length b <= length a + n.
Proof. induction 1; cbn; try case_decide; lia. Qed.

Lemma align_nil_l b : align [] b (length b).
Proof. induction b; cbn; by constructor. Qed.
Lemma align_nil_r a : align a [] (length a).
Proof. induction a; cbn; by constructor. Qed.

Lemma least_nil_l b : least [] b (length b).
Proof. split; [apply align_nil_l|]. intros n H%align_length. cbn in H. lia. Qed.
Lemma least_nil_r a : least a [] (length a).
Proof. split; [apply align_nil_r|]. intros n H%align_length. cbn in H. lia. Qed.
Lemma least_refl a : least a a 0.
Proof. split; [apply align_refl|lia]. Qed.

Lemma least_snoc x y a b d1 d2 d3 :
  least (a ++ [x]) b d1 → least a (b ++ [y]) d2 → least a b d3 →
  least (a ++ [x]) (b ++ [y]) (Nat.min (d1 + 1) (Nat.min (d2 + 1) (d3 + (if decide (x = y) then 0 else 1)))).
Proof.
  intros [H1 L1] [H2 L2] [H3 L3]. split.
  - pose proof (align_ins_end y _ _ _ H1) as A1. pose proof (align_del_end x _ _ _ H2) as A2. pose proof (align_snoc x y _ _ _ H3) as A3.
    destruct (Nat.min_spec (d1 + 1) (Nat.min (d2 + 1) (d3 + (if decide (x = y) then 0 else 1)))) as [[_ ->]|[_ ->]].
    { by rewrite Nat.add_1_r. }
    destruct (Nat.min_spec (d2 + 1) (d3 + (if decide (x = y) then 0 else 1))) as [[_ ->]|[_ ->]].
    { by rewrite Nat.add_1_r. }
    case_decide; [by rewrite Nat.add_0_r|by rewrite Nat.add_1_r].
  - intros n [(m & -> & H)|[(m & -> & H)|(m & -> & H)]]%align_snoc_inv.
    + specialize (L1 _ H). lia.
    + specialize (L2 _ H). lia.
    + specialize (L3 _ H). case_decide; lia.
Qed.

(** ** The rows *)

(** Cells [0 .. k] of a row hold the distances of prefixes. *)
Definition holds (a b : list ascii) (i k : nat) (l : list nat) : Prop :=
  ∀ j, j <= k → least (take i a) (take j b) (l !!! j).

Lemma cells_hold a b i charA prev :
  a !! i = Some charA → length prev = length b + 1 → holds a b i (length b) prev →
  ∀ k curr, k <= length b → length curr = length b + 1 → holds a b (S i) 0 curr →
  let curr' := foldl (cell charA b prev) curr (seq 1 k) in length curr' = length b + 1 ∧ holds a b (S i) k curr'.
Proof.
  intros Ha Hp Hprev k. induction k as [|k IH]; intros curr Hk Hc H0; [done|].
  rewrite seq_S, foldl_app. cbn [foldl]. change (1 + k) with (S k). destruct (IH curr ltac:(lia) Hc H0) as [Hl Hh]. clear IH.
  set (c := foldl _ _ _) in *. clearbody c. unfold cell. rewrite length_insert. split; [done|]. intros j Hj.
  destruct (decide (j = S k)) as [->|Hne]; [|rewrite list_lookup_total_insert_ne by done; apply Hh; lia].
  rewrite list_lookup_total_insert_eq by lia. replace (S k - 1) with k by lia.
  destruct (lookup_lt_is_Some_2 b k ltac:(lia)) as [y Hy]. rewrite Hy.
  rewrite (take_S_r a i charA Ha), (take_S_r b k y Hy).
  assert ((if decide (Some y = Some charA) then 0 else 1) = (if decide (charA = y) then 0 else 1)) as ->.
  { repeat case_decide; naive_solver. }
  apply least_snoc.
  - rewrite <- (take_S_r a i charA Ha). apply Hh. lia.
  - rewrite <- (take_S_r b k y Hy). apply Hprev. lia.
  - apply Hprev. lia.
Qed.

Lemma rows_hold a b junk k :
  length junk = length b + 1 → k <= length a →
  let '(prev, curr) := foldl (row a b) (seq 0 (length b + 1), junk) (seq 1 k) in
  length prev = length b + 1 ∧ length curr = length b + 1 ∧ holds a b k (length b) prev.
Proof.
  intros Hj. induction k as [|k IH]; intros Hk.
  - cbn. rewrite length_seq. split_and!; [done..|]. intros j Hle.
    rewrite list_lookup_total_alt, lookup_seq_lt by lia. cbn. rewrite <- (firstn_length_le b Hle) at 2. apply least_nil_l.
  - rewrite seq_S, foldl_app. cbn [foldl]. change (1 + k) with (S k). specialize (IH ltac:(lia)). destruct (foldl _ _ _) as [prev curr].
    destruct IH as (H1 & H2 & H3). unfold row. replace (S k - 1) with k by lia.
    destruct (lookup_lt_is_Some_2 a k ltac:(lia)) as [x Hx]. rewrite Hx.
    destruct (cells_hold a b k x prev Hx H1 H3 (length b) (<[0:=S k]> curr)) as [H4 H5]; [lia|by rewrite length_insert| |done].
    intros j Hj0. assert (j = 0) as -> by lia. rewrite list_lookup_total_insert_eq by lia. cbn.
    pose proof (least_nil_r (take (S k) a)) as H. by rewrite firstn_length_le in H by lia.
Qed.

Lemma levenshtein_rows_least junk a b : length junk = length b + 1 → least a b (levenshtein_rows junk a b).
Proof.
  intros Hj. unfold levenshtein_rows. pose proof (rows_hold a b junk (length a) Hj (le_n _)) as H.
  destruct (foldl _ _ _) as [prev curr]. destruct H as (_ & _ & H). specialize (H (length b) (le_n _)).
  by rewrite !firstn_all in H.
Qed.

(** C22: The two-row loop computes the edit distance: [levenshteinDistance] edits, each the insertion,
    deletion or replacement of one character, lead from the one text to the other, and fewer do
    not.  What the array of the second row held before makes no difference. *)
Theorem levenshtein_least junk a b :
  length junk = String.length b + 1 →
  nsteps one_edit (levenshteinDistance junk a b) (String.list_ascii_of_string a) (String.list_ascii_of_string b) ∧
  ∀ n, nsteps one_edit n (String.list_ascii_of_string a) (String.list_ascii_of_string b) → levenshteinDistance junk a b <= n.
Proof.
  intros Hj. assert (least (String.list_ascii_of_string a) (String.list_ascii_of_string b) (levenshteinDistance junk a b)) as [H1 H2].
  { assert (length (String.list_ascii_of_string b) = String.length b) as Hb by (clear; induction b; cbn; congruence).
    rewrite <- Hb in Hj. unfold levenshteinDistance. set (la := String.list_ascii_of_string a) in *.
    set (lb := String.list_ascii_of_string b) in *. clearbody la lb. clear Hb.
    repeat case_decide; subst.
    - apply least_refl.
    - destruct la; [apply least_nil_l|done].
    - destruct lb; [apply least_nil_r|done].
    - by apply levenshtein_rows_least. }
  split; [by apply align_edits|]. intros n (k & Hk & Hal)%edits_align. specialize (H2 _ Hal). lia.
Qed.

(** Candidate ids do not depend on the order of the pair, when the collation tells the two
    ids apart and is antisymmetric. *)
Theorem candidate_id_symmetric localeCompare sha256 t a b :
  (localeCompare b a = - localeCompare a b)%Z → localeCompare a b ≠ 0%Z →
  deterministicCandidateId localeCompare sha256 t a b = deterministicCandidateId localeCompare sha256 t b a.
Proof. intros H1 H2. unfold deterministicCandidateId, sorted_pair. repeat case_decide; try lia; done. Qed.

Example kitten : levenshteinDistance (replicate 8 99) "kitten" "sitting" = 3.
Proof. by vm_compute. Qed.

Lemma levenshtein_least_witness :
  nsteps one_edit 3 (String.list_ascii_of_string "kitten") (String.list_ascii_of_string "sitting") ∧
  ∀ n, nsteps one_edit n (String.list_ascii_of_string "kitten") (String.list_ascii_of_string "sitting") → 3 <= n.
Proof. apply (levenshtein_least (replicate 8 99) "kitten" "sitting"). vm_compute. reflexivity. Defined.
