(* ===== verification/Deduplication.v ===== *)
(** * Duplicate records: scan, review, merge and reversal

    Models [api/src/deduplication/deduplication.service.ts] with its types, the interface of
    [adapters/deduplication-adapter.interface.ts] as a record of operations
    ([DeduplicationAdapter]), and the two adapters: [adapters/kyc-deduplication.adapter.ts] over
    the KYC records of [KycStore], and [adapters/project-deduplication.adapter.ts].

    The service runs over one adapter; candidates of the two entity types have different
    ids and do not meet.  Scores are an operation of the interface.  The lists of rule
    evaluations and field differences of a candidate, which are only displayed, and the copy of the
    strategies in the journal are left out.  [auditService.record] is a list of the calls made; it never throws.
    Operations run one at a time; [merge_plan] and [merge_commit] are the halves of
    [executeMerge] before and after its writes, which other calls can separate
    ([racing_merges]).

    Shown: when a merge is executed and what it does ([merge_exact]); the active merges
    form a forest in every history: an entity is absorbed at most once and never, over several
    merges, into itself ([absorbed_forest]); reversing a merge restores the states that the digests
    cover and touches no other record ([merge_reverse_roundtrip], against the law [Restores]
    that both adapters satisfy, the KYC adapter where the merge fills in no field that
    was empty).  Where the code falls short: [reversal_keeps_expiry], [merge_drops_reference],
    [never_expiring_expires], [primary_wins_ignored], [first_merge_blinds_scan],
    [merged_candidate_reopens], [same_instant_reversal], [racing_merges]. *)
From S2P Require Import Prelude Json KycStore Similarity.

(** ** Data *)

Inductive CandidateStatus := PENDING_REVIEW | APPROVED | C_REJECTED | DISMISSED | C_MERGED | C_REVERSED.
Inductive MergeStatus := MERGED | REVERSED.
Inductive FieldResolutionStrategy := PRIMARY_WINS | SECONDARY_WINS | UNION | LATEST | MANUAL.
Inductive decision := approved | rejected | dismissed.
#[export] Instance CandidateStatus_eq_dec : EqDecision CandidateStatus.
Proof. solve_decision. Defined.
#[export] Instance MergeStatus_eq_dec : EqDecision MergeStatus.
Proof. solve_decision. Defined.
#[export] Instance FieldResolutionStrategy_eq_dec : EqDecision FieldResolutionStrategy.
Proof. solve_decision. Defined.

Definition status_text (s : CandidateStatus) : string :=
  match s with
  | PENDING_REVIEW => "pending_review" | APPROVED => "approved" | C_REJECTED => "rejected"
  | DISMISSED => "dismissed" | C_MERGED => "merged" | C_REVERSED => "reversed"
  end.

Record CandidateReview (X : Type) := {
  cv_reviewer : string;
  cv_decision : decision;
  cv_reason : string;
  cv_fieldStrategies : option X;
  cv_reviewedAt : Z;
}.
Arguments cv_reviewer {X}. Arguments cv_decision {X}. Arguments cv_reason {X}.
Arguments cv_fieldStrategies {X}. Arguments cv_reviewedAt {X}.

Record CandidateDuplicate (T X : Type) := {
  cd_id : string;
  cd_primaryId : string;
  cd_secondaryId : string;
  cd_confidenceScore : Z;
  cd_status : CandidateStatus;
  cd_detectedAt : Z;
  cd_primarySnapshot : T;
  cd_secondarySnapshot : T;
  cd_primaryDigest : string;
  cd_secondaryDigest : string;
  cd_review : option (CandidateReview X);
  cd_mergeId : option string;
}.
Arguments cd_id {T X}. Arguments cd_primaryId {T X}. Arguments cd_secondaryId {T X}.
Arguments cd_confidenceScore {T X}. Arguments cd_status {T X}. Arguments cd_detectedAt {T X}.
Arguments cd_primarySnapshot {T X}. Arguments cd_secondarySnapshot {T X}. Arguments cd_primaryDigest {T X}.
Arguments cd_secondaryDigest {T X}. Arguments cd_review {T X}. Arguments cd_mergeId {T X}.

Definition with_status {T X} (c : CandidateDuplicate T X) (s : CandidateStatus) (rv : option (CandidateReview X))
    (m : option string) : CandidateDuplicate T X :=
  {| cd_id := cd_id c; cd_primaryId := cd_primaryId c; cd_secondaryId := cd_secondaryId c;
     cd_confidenceScore := cd_confidenceScore c; cd_status := s; cd_detectedAt := cd_detectedAt c;
     cd_primarySnapshot := cd_primarySnapshot c; cd_secondarySnapshot := cd_secondarySnapshot c;
     cd_primaryDigest := cd_primaryDigest c; cd_secondaryDigest := cd_secondaryDigest c; cd_review := rv; cd_mergeId := m |}.

Record MergeJournalEntry (T : Type) := {
  mj_id : string;
  mj_candidateId : string;
  mj_primaryId : string;
  mj_secondaryId : string;
  mj_preMergePrimary : T;
  mj_preMergeSecondary : T;
  mj_postMergePrimary : T;
  mj_postMergeSecondary : T;
  mj_executedBy : string;
  mj_executedAt : Z;
  mj_status : MergeStatus;
  mj_reversed : option (string * Z * string);
}.
Arguments mj_id {T}. Arguments mj_candidateId {T}. Arguments mj_primaryId {T}. Arguments mj_secondaryId {T}.
Arguments mj_preMergePrimary {T}. Arguments mj_preMergeSecondary {T}. Arguments mj_postMergePrimary {T}.
Arguments mj_postMergeSecondary {T}. Arguments mj_executedBy {T}. Arguments mj_executedAt {T}.
Arguments mj_status {T}. Arguments mj_reversed {T}.

(** [reversedBy], [reversedAt] and [reversalReason] are set together. *)
Definition reversed {T} (j : MergeJournalEntry T) (actor : string) (at_ : Z) (reason : string) : MergeJournalEntry T :=
  {| mj_id := mj_id j; mj_candidateId := mj_candidateId j; mj_primaryId := mj_primaryId j; mj_secondaryId := mj_secondaryId j;
     mj_preMergePrimary := mj_preMergePrimary j; mj_preMergeSecondary := mj_preMergeSecondary j;
     mj_postMergePrimary := mj_postMergePrimary j; mj_postMergeSecondary := mj_postMergeSecondary j;
     mj_executedBy := mj_executedBy j; mj_executedAt := mj_executedAt j; mj_status := REVERSED;
     mj_reversed := Some (actor, at_, reason) |}.

(** ** The interface of the adapters

    [T] are the entities, [St] what the adapter reads and writes, [X] the strategies of a review,
    and [E] what its calls take from outside (clocks, ids, failures of files). *)
Record DeduplicationAdapter (T St X E : Type) := {
  entityType : string;
  fetchEntities : St → list T;
  getEntity : St → string → option T;
  idOf : T → string;
  evaluateCandidate : T → T → Z;
  computeMergedState : T → T → option X → E → T * T;
  applyMerge : St → T → T → T → T → string → string → E → St;
  applyReversal : St → string → string → T → T → string → string → E → St;
  computeStateDigest : T → string;
}.
Arguments entityType {T St X E}. Arguments fetchEntities {T St X E}. Arguments getEntity {T St X E}.
Arguments idOf {T St X E}. Arguments evaluateCandidate {T St X E}. Arguments computeMergedState {T St X E}.
Arguments applyMerge {T St X E}. Arguments applyReversal {T St X E}. Arguments computeStateDigest {T St X E}.

(** What the service relies on: a merge followed by its reversal gives both entities back, up to
    the digest, and leaves the others alone; [restorable] says of which merges. *)
Class Restores {T St X E} (A : DeduplicationAdapter T St X E) (known : St → Prop) (restorable : T → T → Prop) := {
  restores_primary st p s mp ms actor reason actor' reason' e e' :
    known st → getEntity A st (idOf A p) = Some p → getEntity A st (idOf A s) = Some s → idOf A p ≠ idOf A s → restorable p mp →
    ∃ p', getEntity A (applyReversal A (applyMerge A st p s mp ms actor reason e) (idOf A p) (idOf A s) p s actor' reason' e') (idOf A p)
      = Some p' ∧ computeStateDigest A p' = computeStateDigest A p;
  restores_secondary st p s mp ms actor reason actor' reason' e e' :
    known st → getEntity A st (idOf A p) = Some p → getEntity A st (idOf A s) = Some s → idOf A p ≠ idOf A s →
    ∃ s', getEntity A (applyReversal A (applyMerge A st p s mp ms actor reason e) (idOf A p) (idOf A s) p s actor' reason' e') (idOf A s)
      = Some s' ∧ computeStateDigest A s' = computeStateDigest A s;
  restores_others st p s mp ms actor reason actor' reason' e e' id :
    getEntity A st (idOf A p) = Some p → getEntity A st (idOf A s) = Some s → idOf A p ≠ idOf A s → id ≠ idOf A p → id ≠ idOf A s →
    getEntity A (applyReversal A (applyMerge A st p s mp ms actor reason e) (idOf A p) (idOf A s) p s actor' reason' e') id
      = getEntity A st id;
  get_id st id x : known st → getEntity A st id = Some x → idOf A x = id;
}.

(** ** The service *)

Inductive audit_call :=
| ScanCompleted (scanned found : nat)
| CandidateReviewed (candidateId : string) (before after : CandidateStatus) (actor reason : string)
| MergeExecuted (mergeId actor reason : string)
| MergeReversed (mergeId actor reason : string).

Record service (T St X : Type) := {
  candidates : list (string * CandidateDuplicate T X);
  mergeJournals : list (string * MergeJournalEntry T);
  entities : St;
  audited : list audit_call;
}.
Arguments candidates {T St X}. Arguments mergeJournals {T St X}. Arguments entities {T St X}. Arguments audited {T St X}.

Section Service.
Context {T St X E : Type} (A : DeduplicationAdapter T St X E).
Context (localeCompare : string → string → Z) (sha256 : string → string).
Notation service := (service T St X).
Notation CandidateDuplicate := (CandidateDuplicate T X).
Notation MergeJournalEntry := (MergeJournalEntry T).
Notation CandidateReview := (CandidateReview X).

Definition put_candidate (st : service) (c : CandidateDuplicate) (call : list audit_call) : service :=
  {| candidates := aput (cd_id c) c (candidates st); mergeJournals := mergeJournals st; entities := entities st;
     audited := audited st ++ call |}.

(** *** Scanning *)

(** The pairs (i, j) with i < j, in the order of the loops. *)
Fixpoint pairs {B} (l : list B) : list (B * B) :=
  match l with [] => [] | x :: l => ((x,.) <$> l) ++ pairs l end.

(** What a pair that is alike becomes, given what is known of it. *)
Definition rescanned (existing : option CandidateDuplicate) (a b : T) (confidence scannedAt : Z) : CandidateDuplicate :=
  let '(primary, secondary) := if decide (localeCompare (idOf A a) (idOf A b) ≤ 0) then (a, b) else (b, a) in
  let pd := computeStateDigest A primary in
  let sd := computeStateDigest A secondary in
  let '(status, review) :=
    match existing with
    | Some x =>
        if decide (cd_primaryDigest x = pd ∧ cd_secondaryDigest x = sd) then (cd_status x, cd_review x)
        else if decide (cd_status x ≠ C_MERGED) then (PENDING_REVIEW, None)
        else (PENDING_REVIEW, cd_review x)
    | None => (PENDING_REVIEW, None)
    end in
  {| cd_id := deterministicCandidateId localeCompare sha256 (entityType A) (idOf A a) (idOf A b);
     cd_primaryId := idOf A primary; cd_secondaryId := idOf A secondary; cd_confidenceScore := confidence; cd_status := status;
     cd_detectedAt := default scannedAt (cd_detectedAt <$> existing); cd_primarySnapshot := primary; cd_secondarySnapshot := secondary;
     cd_primaryDigest := pd; cd_secondaryDigest := sd; cd_review := review; cd_mergeId := existing ≫= cd_mergeId |}.

Definition scan_pair (minConfidence scannedAt : Z) (acc : list (string * CandidateDuplicate) * list CandidateDuplicate) (ab : T * T) :
    list (string * CandidateDuplicate) * list CandidateDuplicate :=
  let '(cs, found) := acc in
  let '(a, b) := ab in
  if decide (idOf A a = idOf A b) then acc
  else
    let confidence := evaluateCandidate A a b in
    if decide (minConfidence ≤ confidence) then
      let id := deterministicCandidateId localeCompare sha256 (entityType A) (idOf A a) (idOf A b) in
      let c := rescanned (aget id cs) a b confidence scannedAt in
      (aput id c cs, found ++ [c])
    else acc.

(** The order of [stableSortCandidates]: [true] when the first stays before the second. *)
Definition comes_first (a b : CandidateDuplicate) : bool :=
  if decide (cd_confidenceScore b = cd_confidenceScore a) then
    let c := localeCompare (cd_primaryId a) (cd_primaryId b) in
    if decide (c = 0) then localeCompare (cd_secondaryId a) (cd_secondaryId b) <=? 0 else c <=? 0
  else cd_confidenceScore b <=? cd_confidenceScore a.
Fixpoint insert_candidate (x : CandidateDuplicate) (l : list CandidateDuplicate) : list CandidateDuplicate :=
  match l with [] => [x] | y :: t => if comes_first x y then x :: l else y :: insert_candidate x t end.
Definition stableSortCandidates (l : list CandidateDuplicate) : list CandidateDuplicate := foldr insert_candidate [] l.

(** [options.limit] of 0 is no limit. *)
Definition scan (st : service) (minConfidence : option Z) (limit : option nat) (now : Z) : service * list CandidateDuplicate :=
  let es := fetchEntities A (entities st) in
  let '(cs, found) := foldl (scan_pair (default 6500 minConfidence) now) (candidates st, []) (pairs es) in
  let sorted := stableSortCandidates found in
  ({| candidates := cs; mergeJournals := mergeJournals st; entities := entities st;
      audited := audited st ++ match found with [] => [] | _ => [ScanCompleted (length es) (length found)] end |},
   match limit with Some (S n) => take (S n) sorted | _ => sorted end).

Definition passes (status : option CandidateStatus) (minConfidence : option Z) (c : CandidateDuplicate) : bool :=
  match status with Some s => bool_decide (cd_status c = s) | None => true end &&
  match minConfidence with Some m => m <=? cd_confidenceScore c | None => true end.

Definition listCandidates (st : service) (status : option CandidateStatus) (minConfidence : option Z) (offset limit : option nat) :
    list CandidateDuplicate * nat :=
  let l := filter (λ c, passes status minConfidence c = true) (snd <$> candidates st) in
  let sorted := stableSortCandidates l in
  (take (default 50%nat limit) (drop (default 0%nat offset) sorted), length sorted).

Definition getCandidate (st : service) (id : string) : result string CandidateDuplicate :=
  match aget id (candidates st) with Some c => Ok c | None => Err ("Candidate duplicate " +:+ id +:+ " not found") end.

(** *** Reviewing *)

Definition target_status (d : decision) : CandidateStatus :=
  match d with approved => APPROVED | rejected => C_REJECTED | dismissed => DISMISSED end.

Definition reviewCandidate (st : service) (candidateId reviewer : string) (d : decision) (reason : string) (strategies : option X) (now : Z) :
    service * result string CandidateDuplicate :=
  match getCandidate st candidateId with
  | Err e => (st, Err e)
  | Ok c =>
      if decide (cd_status c = C_MERGED) then
        (st, Err ("Candidate " +:+ candidateId +:+ " has already been merged; review is immutable"))
      else
        let review := {| cv_reviewer := reviewer; cv_decision := d; cv_reason := reason; cv_fieldStrategies := strategies; cv_reviewedAt := now |} in
        let c' := with_status c (target_status d) (Some review) (cd_mergeId c) in
        ({| candidates := aput candidateId c' (candidates st); mergeJournals := mergeJournals st; entities := entities st;
            audited := audited st ++ [CandidateReviewed candidateId (cd_status c) (target_status d) reviewer reason] |}, Ok c')
  end.

(** *** Merging *)

(** The first active merge that has absorbed one of the two. *)
Fixpoint conflict (c : CandidateDuplicate) (js : list (string * MergeJournalEntry)) : option string :=
  match js with
  | [] => None
  | (_, j) :: js =>
      if decide (mj_status j = MERGED) then
        if decide (mj_secondaryId j = cd_secondaryId c) then
          Some ("Transitive conflict: secondary entity " +:+ cd_secondaryId c +:+ " was already merged in merge " +:+ mj_id j)
        else if decide (mj_secondaryId j = cd_primaryId c) then
          Some ("Transitive conflict: primary entity " +:+ cd_primaryId c +:+ " was already merged into " +:+ mj_primaryId j +:+
                " in merge " +:+ mj_id j)
        else conflict c js
      else conflict c js
  end.

Definition boolean_text (b : bool) : string := if b then "true" else "false".

(** The guards of [executeMerge] and the entities it read. *)
Definition merge_plan (st : service) (candidateId : string) : result string (CandidateDuplicate * T * T) :=
  c ← getCandidate st candidateId;
  _ ← throw_if (negb (bool_decide (cd_status c = APPROVED)))
        ("Candidate " +:+ candidateId +:+ " cannot be merged in status '" +:+ status_text (cd_status c) +:+
         "'. Candidate must be 'approved' first.");
  _ ← throw_if (bool_decide (cd_primaryId c = cd_secondaryId c))
        ("Self-merge invariant violation: primary and secondary IDs are identical (" +:+ cd_primaryId c +:+ ")");
  _ ← match conflict c (mergeJournals st) with Some e => Err e | None => Ok tt end;
  match getEntity A (entities st) (cd_primaryId c), getEntity A (entities st) (cd_secondaryId c) with
  | Some p, Some s =>
      _ ← throw_if (negb (bool_decide (computeStateDigest A p = cd_primaryDigest c) && bool_decide (computeStateDigest A s = cd_secondaryDigest c)))
            "STATE_DRIFT: One or both candidate entities changed since review. Re-run scan to review updated states.";
      Ok (c, p, s)
  | p, s => Err ("Target entities no longer exist (primary: " +:+ boolean_text (bool_decide (is_Some p)) +:+ ", secondary: " +:+
                 boolean_text (bool_decide (is_Some s)) +:+ ")")
  end.

Definition merge_reason (c : CandidateDuplicate) (reason : option string) : string :=
  let truthy o := match o with Some s => if decide (s = "") then None else Some s | None => None end in
  match truthy reason with
  | Some r => r
  | None => default "Approved duplicate merge" (truthy (cv_reason <$> cd_review c))
  end.

Definition merge_id (candidateId : string) (now : Z) (uuid : string) : string :=
  sha256 ("merge:" +:+ candidateId +:+ ":" +:+ Z_to_string now +:+ ":" +:+ uuid).

(** The writes of [executeMerge]. *)
Definition merge_commit (st : service) (plan : CandidateDuplicate * T * T) (candidateId actor : string) (reason : option string)
    (now : Z) (uuid : string) (e : E) : service * MergeJournalEntry :=
  let '(c, p, s) := plan in
  let '(mp, ms) := computeMergedState A p s (cd_review c ≫= cv_fieldStrategies) e in
  let mergeReason := merge_reason c reason in
  let mergeId := merge_id candidateId now uuid in
  let j := {| mj_id := mergeId; mj_candidateId := candidateId; mj_primaryId := cd_primaryId c; mj_secondaryId := cd_secondaryId c;
              mj_preMergePrimary := p; mj_preMergeSecondary := s; mj_postMergePrimary := mp; mj_postMergeSecondary := ms;
              mj_executedBy := actor; mj_executedAt := now; mj_status := MERGED; mj_reversed := None |} in
  ({| candidates := aput candidateId (with_status c C_MERGED (cd_review c) (Some mergeId)) (candidates st);
      mergeJournals := aput mergeId j (mergeJournals st);
      entities := applyMerge A (entities st) p s mp ms actor mergeReason e;
      audited := audited st ++ [MergeExecuted mergeId actor mergeReason] |}, j).

Definition executeMerge (st : service) (candidateId actor : string) (reason : option string) (now : Z) (uuid : string) (e : E) :
    service * result string MergeJournalEntry :=
  match merge_plan st candidateId with
  | Err err => (st, Err err)
  | Ok plan => let '(st', j) := merge_commit st plan candidateId actor reason now uuid e in (st', Ok j)
  end.

(** *** Reversing *)

Definition blocks (mergeId : string) (j other : MergeJournalEntry) : bool :=
  negb (bool_decide (mj_id other = mergeId)) && bool_decide (mj_status other = MERGED) && (mj_executedAt j <? mj_executedAt other) &&
  (bool_decide (mj_primaryId other = mj_primaryId j) || bool_decide (mj_secondaryId other = mj_primaryId j)).

Definition reverseMerge (st : service) (mergeId actor reason : string) (now : Z) (e : E) : service * result string MergeJournalEntry :=
  match aget mergeId (mergeJournals st) with
  | None => (st, Err ("Merge journal entry " +:+ mergeId +:+ " not found"))
  | Some j =>
      if decide (mj_status j = REVERSED) then (st, Err ("Merge " +:+ mergeId +:+ " has already been reversed"))
      else match List.find (blocks mergeId j) (snd <$> mergeJournals st) with
           | Some other =>
               (st, Err ("Cannot reverse merge " +:+ mergeId +:+ ": entity " +:+ mj_primaryId j +:+
                         " was involved in subsequent active merge " +:+ mj_id other +:+ ". Reverse subsequent merges first."))
           | None =>
               let j' := reversed j actor now reason in
               ({| candidates :=
                     match aget (mj_candidateId j) (candidates st) with
                     | Some c => aput (cd_id c) (with_status c C_REVERSED (cd_review c) (cd_mergeId c)) (candidates st)
                     | None => candidates st
                     end;
                   mergeJournals := aput mergeId j' (mergeJournals st);
                   entities := applyReversal A (entities st) (mj_primaryId j) (mj_secondaryId j) (mj_preMergePrimary j)
                                 (mj_preMergeSecondary j) actor reason e;
                   audited := audited st ++ [MergeReversed mergeId actor reason] |}, Ok j')
           end
  end.

Definition getMerge (st : service) (mergeId : string) : result string MergeJournalEntry :=
  match aget mergeId (mergeJournals st) with Some j => Ok j | None => Err ("Merge journal entry " +:+ mergeId +:+ " not found") end.
Definition listMerges (st : service) : list MergeJournalEntry := snd <$> mergeJournals st.

(** *** Sequences of calls *)

Inductive call :=
| Scan (minConfidence : option Z) (limit : option nat) (now : Z)
| Review (candidateId reviewer : string) (d : decision) (reason : string) (strategies : option X) (now : Z)
| Merge (candidateId actor : string) (reason : option string) (now : Z) (uuid : string) (e : E)
| Reverse (mergeId actor reason : string) (now : Z) (e : E)
| Elsewhere (f : St → St).  (* the records change outside the service *)

Definition step (st : service) (o : call) : service :=
  match o with
  | Scan m l now => (scan st m l now).1
  | Review c r d why x now => (reviewCandidate st c r d why x now).1
  | Merge c actor why now uuid e => (executeMerge st c actor why now uuid e).1
  | Reverse m actor why now e => (reverseMerge st m actor why now e).1
  | Elsewhere f => {| candidates := candidates st; mergeJournals := mergeJournals st; entities := f (entities st); audited := audited st |}
  end.

(** The random part of a merge id makes it new. *)
Definition fresh (st : service) (o : call) : Prop :=
  match o with Merge c _ _ now uuid _ => merge_id c now uuid ∉ (mergeJournals st).*1 | _ => True end.

Inductive reaches (s0 : St) : service → Prop :=
| reaches_start : reaches s0 {| candidates := []; mergeJournals := []; entities := s0; audited := [] |}
| reaches_step st o : reaches s0 st → fresh st o → reaches s0 (step st o).

(** ** The forest of active merges *)

Definition active (st : service) : list MergeJournalEntry := filter (λ j, mj_status j = MERGED) (snd <$> mergeJournals st).

(** [absorbed st s p]: an active merge took the entity [s] into [p]. *)
Definition absorbed (st : service) (s p : string) : Prop :=
  ∃ j, j ∈ active st ∧ mj_secondaryId j = s ∧ mj_primaryId j = p.
End Service.

Section Merges.
Context {T St X E : Type} (A : DeduplicationAdapter T St X E).
Context (sha256 : string → string).
Notation service := (service T St X).
Notation MergeJournalEntry := (MergeJournalEntry T).
Notation executeMerge := (executeMerge A sha256).
Notation reverseMerge := (reverseMerge A).
Notation merge_plan := (merge_plan A).

(** A later merge involves nothing that an earlier one has absorbed. *)
Definition spares (j1 j2 : MergeJournalEntry) : Prop :=
  mj_secondaryId j1 ≠ mj_secondaryId j2 ∧ mj_secondaryId j1 ≠ mj_primaryId j2.

Record forest (st : service) : Prop := {
  ids_unique : NoDup (mergeJournals st).*1;
  ids_own : ∀ k j, (k, j) ∈ mergeJournals st → mj_id j = k;
  merges_spare : StronglySorted spares (active st);
  no_self : ∀ j, j ∈ active st → mj_secondaryId j ≠ mj_primaryId j;
}.

Lemma conflict_None (c : CandidateDuplicate T X) js :
  conflict c js = None ↔
  ∀ j, j ∈ filter (λ j : MergeJournalEntry, mj_status j = MERGED) (snd <$> js) →
    mj_secondaryId j ≠ cd_secondaryId c ∧ mj_secondaryId j ≠ cd_primaryId c.
Proof.
  induction js as [|[k j] js IH]; [split; [intros _ j ?%elem_of_nil; done|done]|].
  cbn [conflict]. rewrite fmap_cons, filter_cons. cbn [snd]. destruct (decide (mj_status j = MERGED)); [|done].
  setoid_rewrite elem_of_cons. repeat case_decide; [naive_solver..|]. rewrite IH. naive_solver.
Qed.

Lemma merge_plan_ok st cid c p s :
  merge_plan st cid = Ok (c, p, s) ↔
  aget cid (candidates st) = Some c ∧ cd_status c = APPROVED ∧ cd_primaryId c ≠ cd_secondaryId c ∧
  (∀ j, j ∈ active st → mj_secondaryId j ≠ cd_secondaryId c ∧ mj_secondaryId j ≠ cd_primaryId c) ∧
  getEntity A (entities st) (cd_primaryId c) = Some p ∧ getEntity A (entities st) (cd_secondaryId c) = Some s ∧
  computeStateDigest A p = cd_primaryDigest c ∧ computeStateDigest A s = cd_secondaryDigest c.
Proof.
  unfold Deduplication.merge_plan, getCandidate, active. split.
  - destruct (aget cid _) as [c'|]; [|done]. cbn. intros (? & H1%throw_if_ok & H)%bind_ok.
    apply bind_ok in H as (? & H2%throw_if_ok & H). destruct (conflict c' _) eqn:Ec; [done|]. cbn in H.
    destruct (getEntity A _ (cd_primaryId c')) as [p'|] eqn:Ep, (getEntity A _ (cd_secondaryId c')) as [s'|] eqn:Es; try done.
    apply bind_ok in H as (? & H3%throw_if_ok & H). injection H as -> -> ->.
    apply negb_false_iff, bool_decide_eq_true in H1. apply bool_decide_eq_false in H2.
    apply negb_false_iff, andb_true_iff in H3 as [H3%bool_decide_eq_true H4%bool_decide_eq_true].
    pose proof (proj1 (conflict_None _ _) Ec) as Hfree. by split_and!.
  - intros (-> & H1 & H2 & H3 & H4 & H5 & H6 & H7). cbn. rewrite bool_decide_eq_true_2 by done. cbn.
    rewrite bool_decide_eq_false_2 by done. cbn. rewrite (proj2 (conflict_None c _) H3). cbn. rewrite H4, H5.
    by rewrite !bool_decide_eq_true_2 by done.
Qed.

Lemma executeMerge_ok st cid actor reason now uuid e st' j :
  executeMerge st cid actor reason now uuid e = (st', Ok j) ↔
  ∃ c p s, merge_plan st cid = Ok (c, p, s) ∧ merge_commit A sha256 st (c, p, s) cid actor reason now uuid e = (st', j).
Proof.
  unfold Deduplication.executeMerge. destruct (merge_plan st cid) as [[[c p] s]|err] eqn:Ep.
  - destruct (merge_commit _ _ _ _ _ _ _ _ _ _) as [st1 j1] eqn:Em. split.
    + intros [= <- <-]. exists c, p, s. by rewrite Em.
    + intros (c' & p' & s' & [= <- <- <-] & H). rewrite Em in H. injection H as -> ->. done.
  - split; [done|]. intros (? & ? & ? & ? & _). done.
Qed.

Lemma merge_commit_spec st c p s cid actor reason now uuid e st' j :
  merge_commit A sha256 st (c, p, s) cid actor reason now uuid e = (st', j) →
  mj_id j = merge_id sha256 cid now uuid ∧ mj_status j = MERGED ∧ mj_primaryId j = cd_primaryId c ∧ mj_secondaryId j = cd_secondaryId c ∧
  mj_preMergePrimary j = p ∧ mj_preMergeSecondary j = s ∧ mj_executedAt j = now ∧ mj_candidateId j = cid ∧
  (mj_postMergePrimary j, mj_postMergeSecondary j) = computeMergedState A p s (cd_review c ≫= cv_fieldStrategies) e ∧
  mergeJournals st' = aput (mj_id j) j (mergeJournals st) ∧
  candidates st' = aput cid (with_status c C_MERGED (cd_review c) (Some (mj_id j))) (candidates st) ∧
  entities st' = applyMerge A (entities st) p s (mj_postMergePrimary j) (mj_postMergeSecondary j) actor (merge_reason c reason) e.
Proof.
  unfold merge_commit. destruct (computeMergedState _ _ _ _ _) as [mp ms]. intros [= <- <-]. cbn. by split_and!.
Qed.

Lemma snoc_sorted {B} (R : B → B → Prop) l x : StronglySorted R l → (∀ y, y ∈ l → R y x) → StronglySorted R (l ++ [x]).
Proof.
  induction 1 as [|y l _ IH Hy]; intros H; cbn; [repeat constructor|]. constructor.
  - apply IH. intros z Hz. apply H. by apply list_elem_of_further.
  - apply Forall_app. split; [done|]. constructor; [|done]. apply H, list_elem_of_here.
Qed.

Lemma aput_filtered (P : MergeJournalEntry → Prop) `{∀ x, Decision (P x)} (k : string) j l :
  ¬ P j → filter P (snd <$> aput k j l) `sublist_of` filter P (snd <$> l).
Proof.
  intros Hj. induction l as [|[k' j'] l IH]; cbn [aput].
  { rewrite fmap_cons, filter_cons. cbn [snd]. by rewrite decide_False. }
  case_decide; rewrite !fmap_cons, !filter_cons; cbn [snd].
  - rewrite (decide_False (P := P j)) by done. case_decide; [by apply sublist_cons|done].
  - case_decide; [by apply sublist_skip|done].
Qed.

Lemma sorted_sublist {B} (R : B → B → Prop) l1 l2 : l1 `sublist_of` l2 → StronglySorted R l2 → StronglySorted R l1.
Proof.
  induction 1 as [|x l1 l2 Hs IH|x l1 l2 Hs IH]; intros H; [done| |]; inversion_clear H as [|? ? H1 H2].
  - constructor; [by apply IH|]. rewrite Forall_forall in *. intros y Hy. apply H2. by eapply elem_of_sublist.
  - by apply IH.
Qed.

Lemma active_snoc (st st' : service) j :
  mj_id j ∉ (mergeJournals st).*1 → mergeJournals st' = aput (mj_id j) j (mergeJournals st) → mj_status j = MERGED →
  mergeJournals st' = mergeJournals st ++ [(mj_id j, j)] ∧ active st' = active st ++ [j].
Proof.
  intros Hf E0 Hm. assert (aput (mj_id j) j (mergeJournals st) = mergeJournals st ++ [(mj_id j, j)]) as E1.
  { apply aput_new. by apply aget_None. }
  rewrite E1 in E0. split; [done|]. unfold active. rewrite E0, fmap_app, filter_app. f_equal. rewrite fmap_cons, filter_cons. by rewrite decide_True by done.
Qed.

Lemma forest_merge st cid actor reason now uuid e :
  forest st → merge_id sha256 cid now uuid ∉ (mergeJournals st).*1 → forest (executeMerge st cid actor reason now uuid e).1.
Proof.
  intros [Hu Ho Hs Hn] Hf. destruct (executeMerge _ _ _ _ _ _ _) as [st' [j|err]] eqn:Em; cbn.
  - apply executeMerge_ok in Em as (c & p & s & Hp & Hc). apply merge_plan_ok in Hp as (_ & _ & Hne & Hfree & _).
    apply merge_commit_spec in Hc as (H1 & H2 & H3 & H4 & _ & _ & _ & _ & _ & H5 & _). rewrite <- H1 in Hf.
    destruct (active_snoc _ _ _ Hf H5 H2) as [E1 E2]. split.
    + rewrite E1, fmap_app. apply NoDup_app. split_and!; [done| |apply NoDup_singleton].
      intros k Hk ?%list_elem_of_singleton. subst. done.
    + intros k j'. rewrite E1, elem_of_app, list_elem_of_singleton. intros [H|[= -> ->]]; [by apply Ho|done].
    + rewrite E2. apply snoc_sorted; [done|]. intros y Hy. unfold spares. rewrite H3, H4. by apply Hfree.
    + intros y. rewrite E2, elem_of_app, list_elem_of_singleton. intros [H| ->]; [by apply Hn|]. rewrite H3, H4. done.
  - unfold Deduplication.executeMerge in Em. destruct (merge_plan st cid) as [plan|]; [by destruct (merge_commit _ _ _ _ _ _ _ _ _ _)|].
    injection Em as <- _. by split.
Qed.

Lemma forest_same (st st' : service) : mergeJournals st' = mergeJournals st → forest st → forest st'.
Proof. intros E1 []. split; unfold active in *; by rewrite E1. Qed.

Lemma forest_reverse st m actor reason now e : forest st → forest (reverseMerge st m actor reason now e).1.
Proof.
  intros Hforest. pose proof Hforest as [Hu Ho Hs Hn]. unfold Deduplication.reverseMerge.
  destruct (aget m _) as [j|] eqn:Ej; [|done]. case_decide; [done|].
  destruct (List.find _ _); [done|]. cbn. apply aget_Some_elem in Ej.
  assert (filter (λ j, mj_status j = MERGED) (snd <$> aput m (reversed j actor now reason) (mergeJournals st)) `sublist_of` active st) as Hsub
    by (by apply aput_filtered).
  split; unfold active in *; cbn.
  - by apply aput_keys_NoDup.
  - intros k j' Hk. pose proof (Forall_aput (λ kj : string * MergeJournalEntry, mj_id kj.2 = kj.1) m (reversed j actor now reason) (mergeJournals st)) as H1.
    rewrite Forall_forall in H1. rewrite Forall_forall in H1. apply (H1 ltac:(intros [] ?; by apply Ho) ltac:(cbn; by apply Ho) (k, j') Hk).
  - by eapply sorted_sublist.
  - intros j' Hj'. apply Hn. by eapply elem_of_sublist.
Qed.

Lemma sorted_at {B} (R : B → B → Prop) l i1 i2 x y : StronglySorted R l → l !! i1 = Some x → l !! i2 = Some y → (i1 < i2)%nat → R x y.
Proof.
  intros H. revert i1 i2. induction H as [|z l _ IH Hz]; intros i1 i2 H1 H2 Hlt; [done|].
  destruct i2 as [|i2]; [lia|]. destruct i1 as [|i1]; cbn in *.
  - injection H1 as ->. rewrite Forall_forall in Hz. apply Hz. by eapply list_elem_of_lookup_2.
  - apply (IH i1 i2); [done..|lia].
Qed.

(** The merge that absorbed the survivor of another one comes after it. *)
Lemma chain_order (st : service) i1 i2 j1 j2 :
  forest st → active st !! i1 = Some j1 → active st !! i2 = Some j2 → mj_secondaryId j2 = mj_primaryId j1 → (i1 < i2)%nat.
Proof.
  intros [_ _ Hs Hn] H1 H2 He. destruct (lt_eq_lt_dec i1 i2) as [[Hlt| ->]|Hgt]; [done| |].
  - rewrite H1 in H2. injection H2 as ->. exfalso. by apply (Hn j2); [eapply list_elem_of_lookup_2|].
  - destruct (sorted_at _ _ _ _ _ _ Hs H2 H1 Hgt) as [_ H]. done.
Qed.

Lemma chain_span (st : service) s t : forest st → tc (absorbed st) s t →
  ∃ i1 i2 j1 j2, active st !! i1 = Some j1 ∧ active st !! i2 = Some j2 ∧ mj_secondaryId j1 = s ∧ mj_primaryId j2 = t ∧ (i1 ≤ i2)%nat.
Proof.
  intros Hf. induction 1 as [s t (j & Hj & H1 & H2)|s m t (j & Hj & H1 & H2) _ IH].
  - apply list_elem_of_lookup in Hj as [i Hi]. exists i, i, j, j. by split_and!.
  - destruct IH as (i1 & i2 & j1 & j2 & Hi1 & Hi2 & E1 & E2 & Hle). apply list_elem_of_lookup in Hj as [i Hi].
    assert (i < i1)%nat by (eapply chain_order; [done..|congruence]). exists i, i2, j, j2. split_and!; try done. lia.
Qed.

(** When a merge is executed. *)
Definition mergeable (st : service) (cid : string) : Prop :=
  ∃ c p s, aget cid (candidates st) = Some c ∧ cd_status c = APPROVED ∧ cd_primaryId c ≠ cd_secondaryId c ∧
    (∀ q, ¬ absorbed st (cd_primaryId c) q) ∧ (∀ q, ¬ absorbed st (cd_secondaryId c) q) ∧
    getEntity A (entities st) (cd_primaryId c) = Some p ∧ getEntity A (entities st) (cd_secondaryId c) = Some s ∧
    computeStateDigest A p = cd_primaryDigest c ∧ computeStateDigest A s = cd_secondaryDigest c.

(** A merge is executed exactly when its candidate is approved, the two entities differ, exist,
    are absorbed by no active merge and have the states that were reviewed.  It then adds one
    active merge of the two, marks the candidate, and a refused one changes nothing. *)
Theorem merge_exact st cid actor reason now uuid e :
  merge_id sha256 cid now uuid ∉ (mergeJournals st).*1 →
  match executeMerge st cid actor reason now uuid e with
  | (st', Ok j) =>
      mergeable st cid ∧ active st' = active st ++ [j] ∧
      (∃ c, aget cid (candidates st) = Some c ∧ mj_primaryId j = cd_primaryId c ∧ mj_secondaryId j = cd_secondaryId c) ∧
      (∃ c', aget cid (candidates st') = Some c' ∧ cd_status c' = C_MERGED ∧ cd_mergeId c' = Some (mj_id j)) ∧
      (∀ cid', cid' ≠ cid → aget cid' (candidates st') = aget cid' (candidates st))
  | (st', Err _) => ¬ mergeable st cid ∧ st' = st
  end.
Proof.
  intros Hf. destruct (executeMerge _ _ _ _ _ _ _) as [st' [j|err]] eqn:Em.
  - apply executeMerge_ok in Em as (c & p & s & Hp & Hc). apply merge_plan_ok in Hp as (Hc1 & Hst & Hne & Hfree & Hg1 & Hg2 & Hd1 & Hd2).
    apply merge_commit_spec in Hc as (H1 & H2 & H3 & H4 & _ & _ & _ & _ & _ & H5 & H6 & _). rewrite <- H1 in Hf.
    destruct (active_snoc _ _ _ Hf H5 H2) as [_ E2]. split_and!.
    + exists c, p, s. split_and!; try done; intros q (j' & Hj' & He & _); by destruct (Hfree _ Hj').
    + done.
    + by exists c.
    + eexists. rewrite H6, aget_aput, decide_True by done. split; [done|]. cbn. done.
    + intros cid' Hcid. rewrite H6, aget_aput. by rewrite decide_False.
  - unfold Deduplication.executeMerge in Em. destruct (merge_plan st cid) as [plan|err'] eqn:Ep; [by destruct (merge_commit _ _ _ _ _ _ _ _ _ _)|].
    injection Em as <- _. split; [|done]. intros (c & p & s & Hc & Hst & Hne & Hf1 & Hf2 & Hg1 & Hg2 & Hd1 & Hd2).
    assert (merge_plan st cid = Ok (c, p, s)) as Hok; [|by rewrite Ep in Hok].
    apply merge_plan_ok. split_and!; try done.
    intros j Hj; split; intros He; [eapply Hf2|eapply Hf1]; exists j; by split_and!.
Qed.

(** ** Reversal *)

Lemma aput_aput (k : string) (j j' : MergeJournalEntry) l : aput k j' (aput k j l) = aput k j' l.
Proof. induction l as [|[k' x] l IH]; cbn; repeat case_decide; cbn; repeat case_decide; try done; by rewrite IH. Qed.

Context (known : St → Prop) (restorable : T → T → Prop) `{!Restores A known restorable}.

(** Reversing a merge that was just executed gives every record the state digest it had before the
    merge, and the active merges are the ones before it, whoever reverses and whatever happens to the
    files meanwhile. *)
Theorem merge_reverse_roundtrip st cid actor reason now uuid e st1 j actor' reason' now' e' :
  known (entities st) → merge_id sha256 cid now uuid ∉ (mergeJournals st).*1 → (∀ o, o ∈ active st → mj_executedAt o ≤ now) →
  executeMerge st cid actor reason now uuid e = (st1, Ok j) → restorable (mj_preMergePrimary j) (mj_postMergePrimary j) →
  ∃ st2 j', reverseMerge st1 (mj_id j) actor' reason' now' e' = (st2, Ok j') ∧
    (∀ id, computeStateDigest A <$> getEntity A (entities st2) id = computeStateDigest A <$> getEntity A (entities st) id) ∧
    active st2 = active st.
Proof.
  intros Hk Hf Hclock Em Hr. apply executeMerge_ok in Em as (c & p & s & Hp & Hc).
  apply merge_plan_ok in Hp as (_ & _ & Hne & _ & Hg1 & Hg2 & _).
  apply merge_commit_spec in Hc as (H1 & H2 & H3 & H4 & H5 & H6 & H7 & H8 & _ & H9 & _ & H11). rewrite <- H1 in Hf.
  destruct (active_snoc _ _ _ Hf H9 H2) as [E1 E2]. pose proof (get_id _ _ _ Hk Hg1) as I1. pose proof (get_id _ _ _ Hk Hg2) as I2.
  unfold Deduplication.reverseMerge. rewrite H9, aget_aput, decide_True by done. rewrite decide_False by (by rewrite H2).
  destruct (List.find _ _) as [o|] eqn:Ef.
  { exfalso. apply List.find_some in Ef as [Ho Hb]. unfold blocks in Hb. rewrite !andb_true_iff, Z.ltb_lt in Hb.
    destruct Hb as [[[Hb1 Hb2%bool_decide_eq_true] Hb3] _]. apply negb_true_iff, bool_decide_eq_false in Hb1.
    rewrite <- H9 in Ho. apply list_elem_of_In in Ho.
    assert (o ∈ active st1) as Ho' by (by apply list_elem_of_filter). rewrite E2, elem_of_app, list_elem_of_singleton in Ho'.
    destruct Ho' as [Ho'| ->]; [|done]. specialize (Hclock _ Ho'). rewrite H7 in Hb3. lia. }
  eexists _, _. split; [reflexivity|]. cbn [entities]. split.
  - intros id. rewrite H11, H3, H4, H5, H6. rewrite <- I1, <- I2 in *. rewrite H5 in Hr.
    destruct (decide (id = idOf A p)) as [->|Hn1].
    { rewrite Hg1. edestruct (restores_primary (A := A)) as (p' & -> & Hd); [done..|]. cbn. by rewrite Hd. }
    destruct (decide (id = idOf A s)) as [->|Hn2].
    { rewrite Hg2. edestruct (restores_secondary (A := A)) as (s' & -> & Hd); [done..|]. cbn. by rewrite Hd. }
    by rewrite restores_others.
  - unfold active. cbn [mergeJournals]. rewrite aput_aput, aput_new by (by apply aget_None).
    rewrite fmap_app, filter_app, fmap_cons, filter_cons, decide_False by done. apply app_nil_r.
Qed.
End Merges.

Section Histories.
Context {T St X E : Type} (A : DeduplicationAdapter T St X E).
Context (localeCompare : string → string → Z) (sha256 : string → string).
Notation reaches := (reaches A localeCompare sha256).

Lemma reaches_forest s0 st : reaches s0 st → forest st.
Proof.
  induction 1 as [|st o _ IH Hf].
  - split; cbn; [constructor|by intros ? ? ?%elem_of_nil|constructor|by intros ? ?%elem_of_nil].
  - destruct o; cbn in *.
    + eapply forest_same; [|done]. unfold Deduplication.scan. by destruct (foldl _ _ _).
    + eapply forest_same; [|done]. unfold reviewCandidate. destruct (getCandidate _ _); [|done]. by case_decide.
    + apply forest_merge; done.
    + apply forest_reverse; done.
    + apply (forest_same st); done.
Qed.

(** C14: The active merges form a forest, in every history in which scans, reviews, merges and reversals
    run one at a time, each to its end, among changes of the records from outside: an entity is absorbed into at
    most one other, and no chain of active merges leads from an entity back to itself.  (Two merges
    that overlap at their awaits can absorb an entity twice: [racing_merges].) *)
Theorem absorbed_forest s0 st :
  reaches s0 st →
  (∀ s p p', absorbed st s p → absorbed st s p' → p = p') ∧ ∀ s, ¬ tc (absorbed st) s s.
Proof.
  intros Hf%reaches_forest. split.
  - intros s p p' (j & Hj & <- & <-) (j' & Hj' & He & <-).
    apply list_elem_of_lookup in Hj as [i Hi]. apply list_elem_of_lookup in Hj' as [i' Hi'].
    destruct (lt_eq_lt_dec i i') as [[Hlt| ->]|Hgt]; [|congruence|].
    + by destruct (sorted_at _ _ _ _ _ _ (merges_spare _ Hf) Hi Hi' Hlt) as [H _].
    + by destruct (sorted_at _ _ _ _ _ _ (merges_spare _ Hf) Hi' Hi Hgt) as [H _].
  - intros s Hc. destruct (chain_span _ _ _ Hf Hc) as (i1 & i2 & j1 & j2 & H1 & H2 & E1 & E2 & Hle).
    assert (i2 < i1)%nat by (eapply chain_order; [done..|congruence]). lia.
Qed.

End Histories.

(** ** The KYC adapter *)

Definition STATUS_RANKS (s : KycStatus) : Z :=
  match s with ACCREDITED => 5 | VERIFIED => 4 | PENDING => 3 | EXPIRED => 2 | REJECTED => 1 | NONE => 0 end.

(** A strategy and its manual value, for each field that has one. *)
Record kyc_strategies := {
  ks_status : option (FieldResolutionStrategy * option KycStatus);
  ks_expiresAt : option (FieldResolutionStrategy * option Z);
  ks_providerReference : option (FieldResolutionStrategy * option string);
}.
(** The clock of [computeMergedState] and what the two transitions take from outside. *)
Record kyc_call := { kc_now : Z; kc_first : kyc_env; kc_second : kyc_env }.

Definition merged_status (p s : KycRecord) (x : option (FieldResolutionStrategy * option KycStatus)) : KycStatus :=
  match x with
  | Some (MANUAL, Some v) => v
  | Some (SECONDARY_WINS, _) => kr_status s
  | _ => if STATUS_RANKS (kr_status p) <? STATUS_RANKS (kr_status s) then kr_status s else kr_status p
  end.

Definition merged_expiresAt (p s : KycRecord) (x : option (FieldResolutionStrategy * option Z)) : option Z :=
  match x with
  | Some (MANUAL, v) => v
  | Some (SECONDARY_WINS, _) => kr_expiresAt s
  | Some (PRIMARY_WINS, _) => kr_expiresAt p
  | _ => let m := Z.max (default 0 (kr_expiresAt p)) (default 0 (kr_expiresAt s)) in if m =? 0 then None else Some m
  end.

Definition truthy_text (x : option string) : option string :=
  match x with Some t => if decide (t = "") then None else x | None => None end.

Definition merged_reference (p s : KycRecord) (x : option (FieldResolutionStrategy * option string)) : option string :=
  match x with
  | Some (MANUAL, v) => v
  | Some (SECONDARY_WINS, _) => kr_providerReference s
  | _ => match truthy_text (kr_providerReference p), truthy_text (kr_providerReference s) with
         | None, Some r => Some r
         | _, _ => kr_providerReference p
         end
  end.

Definition kyc_computeMergedState (p s : KycRecord) (x : option kyc_strategies) (e : kyc_call) : KycRecord * KycRecord :=
  ({| kr_address := kr_address p; kr_status := merged_status p s (x ≫= ks_status); kr_source := kr_source p; kr_actor := kr_actor p;
      kr_reason := Some (trim ("Merged with duplicate account " +:+ kr_address s +:+ ". " +:+ default "" (kr_reason p)));
      kr_providerReference := merged_reference p s (x ≫= ks_providerReference); kr_createdAt := kr_createdAt p;
      kr_updatedAt := kc_now e; kr_expiresAt := merged_expiresAt p s (x ≫= ks_expiresAt) |},
   {| kr_address := kr_address s; kr_status := NONE; kr_source := kr_source s; kr_actor := kr_actor s;
      kr_reason := Some ("Merged into primary account " +:+ kr_address p); kr_providerReference := kr_providerReference s;
      kr_createdAt := kr_createdAt s; kr_updatedAt := kc_now e; kr_expiresAt := kr_expiresAt s |}).

Definition admin_transition (address : string) (to : KycStatus) (actor reason : string) (reference : option string) (expiresAt : option Z) : Transition :=
  {| tr_address := address; tr_toStatus := to; tr_source := FromAdmin; tr_actor := Some actor; tr_reason := Some reason;
     tr_providerReference := reference; tr_expiresAt := expiresAt |}.

Definition kyc_applyMerge (sv : kyc_service) (p s mp ms : KycRecord) (actor reason : string) (e : kyc_call) : kyc_service :=
  let sv1 := (transitionStatus sv (admin_transition (kr_address p) (kr_status mp) actor
      ("Merge executed: primary " +:+ kr_address p +:+ " absorbed duplicate " +:+ kr_address s +:+ " — " +:+ reason)
      (kr_providerReference mp) (kr_expiresAt mp)) (kc_first e)).1 in
  (transitionStatus sv1 (admin_transition (kr_address s) NONE actor
      ("Merge executed: secondary " +:+ kr_address s +:+ " merged into primary " +:+ kr_address p +:+ " — " +:+ reason)
      (kr_providerReference s) None) (kc_second e)).1.

Definition kyc_applyReversal (sv : kyc_service) (primaryId secondaryId : string) (p s : KycRecord) (actor reason : string) (e : kyc_call) :
    kyc_service :=
  let sv1 := (transitionStatus sv (admin_transition secondaryId (kr_status s) actor
      ("Merge rollback: restored secondary " +:+ secondaryId +:+ " to pre-merge state — " +:+ reason)
      (kr_providerReference s) (kr_expiresAt s)) (kc_first e)).1 in
  (transitionStatus sv1 (admin_transition primaryId (kr_status p) actor
      ("Merge rollback: restored primary " +:+ primaryId +:+ " to pre-merge state — " +:+ reason)
      (kr_providerReference p) (kr_expiresAt p)) (kc_second e)).1.

Definition kyc_digest (sha256 : string → string) (r : KycRecord) : string :=
  computeCanonicalDigest sha256 (JObj
    [ ("address", JStr (kr_address r)); ("status", JStr (kyc_text (kr_status r)));
      ("providerReference", match kr_providerReference r with Some t => JStr t | None => JNull end);
      ("expiresAt", match kr_expiresAt r with Some t => jint t | None => JNull end) ]).

Definition kyc_adapter (sha256 : string → string) (score : KycRecord → KycRecord → Z) :
    DeduplicationAdapter KycRecord kyc_service kyc_strategies kyc_call :=
  {| entityType := "kyc_record";
     fetchEntities := λ sv, filter (λ r, kr_status r ≠ NONE) (snd <$> records (sv_store sv));
     getEntity := λ sv address, get (sv_store sv) address;
     idOf := kr_address;
     evaluateCandidate := score;
     computeMergedState := kyc_computeMergedState;
     applyMerge := kyc_applyMerge;
     applyReversal := kyc_applyReversal;
     computeStateDigest := kyc_digest sha256 |}.

(** The store keeps every record under its address. *)
Definition kyc_known (sv : kyc_service) : Prop := ∀ a r, get (sv_store sv) a = Some r → kr_address r = a.

(** The merge fills in no field that was empty: a transition never clears one. *)
Definition kyc_restorable (p mp : KycRecord) : Prop :=
  (kr_expiresAt p = None ↔ kr_expiresAt mp = None) ∧ (kr_providerReference p = None → kr_providerReference mp = None).

(** What the digest covers. *)
Definition same_state (r r' : KycRecord) : Prop :=
  kr_address r = kr_address r' ∧ kr_status r = kr_status r' ∧ kr_providerReference r = kr_providerReference r' ∧
  kr_expiresAt r = kr_expiresAt r'.

Lemma same_state_digest sha256 r r' : same_state r r' → kyc_digest sha256 r = kyc_digest sha256 r'.
Proof. intros (H1 & H2 & H3 & H4). unfold kyc_digest. by rewrite H1, H2, H3, H4. Qed.

(** A transition of a record that exists. *)
Definition transitioned (r : KycRecord) (i : Transition) (now : Z) : KycRecord :=
  if decide (kr_status r = tr_toStatus i ∧ kr_expiresAt r = tr_expiresAt i) then r
  else moved (Some r) (tr_address i) (tr_toStatus i) (tr_source i) (tr_actor i) (tr_reason i) (tr_providerReference i) (tr_expiresAt i) now.

Lemma get_transition sv i e r a :
  get (sv_store sv) (tr_address i) = Some r →
  get (sv_store (transitionStatus sv i e).1) a =
    if decide (a = tr_address i) then Some (transitioned r i (ev_now e)) else get (sv_store sv) a.
Proof.
  intros Hr. unfold transitionStatus, applyTransition, transitioned. rewrite Hr.
  destruct (decide (kr_status r = tr_toStatus i ∧ kr_expiresAt r = tr_expiresAt i)) as [[H1 H2]|Hn].
  - rewrite !bool_decide_eq_true_2 by done. cbn. case_decide; [by subst|done].
  - assert (bool_decide (kr_status r = tr_toStatus i) && bool_decide (kr_expiresAt r = tr_expiresAt i) = false) as ->.
    { apply andb_false_iff. rewrite !bool_decide_eq_false. destruct (decide (kr_status r = tr_toStatus i)); [right|by left]. naive_solver. }
    destruct (invalidateCache _ _ _) as [c fs]. destruct (writeThroughCache _ _ _) as [c' fs']. cbn [fst sv_store].
    unfold get, persist, writeSnapshot. destruct (renamed _); cbn [records appendAuditLine]; by rewrite aget_aput.
Qed.

(** There and back. *)
Lemma transitioned_back r i1 i2 now1 now2 :
  tr_toStatus i2 = kr_status r → tr_expiresAt i2 = kr_expiresAt r → tr_providerReference i2 = kr_providerReference r →
  (kr_expiresAt r = None ↔ tr_expiresAt i1 = None) → (kr_providerReference r = None → tr_providerReference i1 = None) →
  same_state (transitioned (transitioned r i1 now1) i2 now2) r.
Proof.
  intros H1 H2 H3 H4 H5. unfold transitioned at 1. rewrite H1, H2. destruct (decide (_ ∧ _)) as [[E1 E2]|Hn].
  - unfold transitioned in *. destruct (decide (_ ∧ _)) as [|Hm]; [done|]. cbn in E1, E2. exfalso. apply Hm.
    split; [done|]. destruct (tr_expiresAt i1) as [x|] eqn:Ex; cbn in E2; [done|]. by apply H4.
  - unfold same_state, transitioned. destruct (decide (_ ∧ _)) as [|Hm]; cbn; rewrite ?H1, ?H2, ?H3.
    + split_and!; [done..|by destruct (kr_providerReference r)|by destruct (kr_expiresAt r)].
    + split_and!; [done..| |].
      * destruct (kr_providerReference r) as [t|]; [done|]. by rewrite H5.
      * destruct (kr_expiresAt r) as [t|] eqn:Et; [done|]. by rewrite (proj1 H4).
Qed.

(** The secondary record keeps its reference and its expiry, so that only its status moves. *)
Lemma secondary_back r i1 i2 now1 now2 :
  tr_toStatus i1 = NONE → tr_expiresAt i1 = None → tr_providerReference i1 = kr_providerReference r →
  tr_toStatus i2 = kr_status r → tr_expiresAt i2 = kr_expiresAt r → tr_providerReference i2 = kr_providerReference r →
  same_state (transitioned (transitioned r i1 now1) i2 now2) r.
Proof.
  intros H1 H2 H3 H4 H5 H6. unfold same_state.
  assert (∀ x, transitioned r i1 x = r ∨ (kr_address (transitioned r i1 x) = kr_address r ∧
    kr_providerReference (transitioned r i1 x) = kr_providerReference r ∧ kr_expiresAt (transitioned r i1 x) = kr_expiresAt r)) as Hfirst.
  { intros x. unfold transitioned. case_decide; [by left|right]. cbn. rewrite H2, H3.
    split_and!; [done|by destruct (kr_providerReference r)|done]. }
  destruct (Hfirst now1) as [Er|(Ha & Hp & He)].
  - rewrite Er. unfold transitioned. by rewrite decide_True.
  - generalize dependent (transitioned r i1 now1). intros r1 Ha Hp He. unfold transitioned. case_decide as Hd.
    + destruct Hd as [Hd _]. split_and!; congruence.
    + cbn. rewrite H4, H5, H6, Ha, Hp, He. split_and!; [done..|by destruct (kr_providerReference r)|by destruct (kr_expiresAt r)].
Qed.

(** Two transitions of different records. *)
Lemma get_two sv i1 e1 i2 e2 r1 r2 a :
  get (sv_store sv) (tr_address i1) = Some r1 → get (sv_store sv) (tr_address i2) = Some r2 → tr_address i1 ≠ tr_address i2 →
  get (sv_store (transitionStatus (transitionStatus sv i1 e1).1 i2 e2).1) a =
    if decide (a = tr_address i1) then Some (transitioned r1 i1 (ev_now e1))
    else if decide (a = tr_address i2) then Some (transitioned r2 i2 (ev_now e2)) else get (sv_store sv) a.
Proof.
  intros H1 H2 Hne.
  rewrite (get_transition _ i2 e2 r2) by (rewrite (get_transition sv i1 e1 r1) by done; by rewrite decide_False).
  rewrite (get_transition sv i1 e1 r1) by done. repeat case_decide; congruence.
Qed.

(** The records after a merge and its reversal. *)
Lemma kyc_there_and_back sv p s mp ms actor reason actor' reason' e e' :
  get (sv_store sv) (kr_address p) = Some p → get (sv_store sv) (kr_address s) = Some s → kr_address p ≠ kr_address s →
  ∃ i1 i2 i3 i4 n1 n2 n3 n4, ∀ a,
    get (sv_store (kyc_applyReversal (kyc_applyMerge sv p s mp ms actor reason e) (kr_address p) (kr_address s) p s actor' reason' e')) a =
      (if decide (a = kr_address p) then
        Some (transitioned (transitioned p (admin_transition (kr_address p) (kr_status mp) actor i1 (kr_providerReference mp) (kr_expiresAt mp)) n1)
          (admin_transition (kr_address p) (kr_status p) actor' i4 (kr_providerReference p) (kr_expiresAt p)) n4)
      else if decide (a = kr_address s) then
        Some (transitioned (transitioned s (admin_transition (kr_address s) NONE actor i2 (kr_providerReference s) None) n2)
          (admin_transition (kr_address s) (kr_status s) actor' i3 (kr_providerReference s) (kr_expiresAt s)) n3)
      else get (sv_store sv) a).
Proof.
  intros Hp Hs Hne. unfold kyc_applyReversal. set (sv1 := kyc_applyMerge _ _ _ _ _ _ _ _).
  assert (∃ i1 i2 n1 n2, ∀ a, get (sv_store sv1) a =
    if decide (a = kr_address p) then
      Some (transitioned p (admin_transition (kr_address p) (kr_status mp) actor i1 (kr_providerReference mp) (kr_expiresAt mp)) n1)
    else if decide (a = kr_address s) then Some (transitioned s (admin_transition (kr_address s) NONE actor i2 (kr_providerReference s) None) n2)
    else get (sv_store sv) a) as (i1 & i2 & n1 & n2 & H1).
  { eexists _, _, _, _. intros a. unfold sv1, kyc_applyMerge. by erewrite get_two. }
  eexists i1, i2, _, _, n1, n2, _, _. intros a. erewrite get_two.
  - cbn [tr_address admin_transition]. rewrite H1. repeat case_decide; subst; try done.
  - cbn [tr_address admin_transition]. rewrite H1, decide_False, decide_True by done. reflexivity.
  - cbn [tr_address admin_transition]. rewrite H1, decide_True by done. reflexivity.
  - cbn [tr_address admin_transition]. done.
Qed.

#[export] Instance kyc_restores sha256 score : Restores (kyc_adapter sha256 score) kyc_known kyc_restorable.
Proof.
  split; cbn [kyc_adapter getEntity idOf applyMerge applyReversal computeStateDigest].
  - intros sv p s mp ms actor reason actor' reason' e e' _ Hp Hs Hne [He Hr].
    destruct (kyc_there_and_back sv p s mp ms actor reason actor' reason' e e' Hp Hs Hne) as (i1 & i2 & i3 & i4 & n1 & n2 & n3 & n4 & H).
    rewrite H, decide_True by done. eexists. split; [done|]. apply same_state_digest. by apply transitioned_back.
  - intros sv p s mp ms actor reason actor' reason' e e' _ Hp Hs Hne.
    destruct (kyc_there_and_back sv p s mp ms actor reason actor' reason' e e' Hp Hs Hne) as (i1 & i2 & i3 & i4 & n1 & n2 & n3 & n4 & H).
    rewrite H, decide_False, decide_True by done. eexists. split; [done|]. apply same_state_digest. by apply secondary_back.
  - intros sv p s mp ms actor reason actor' reason' e e' id Hp Hs Hne Hn1 Hn2.
    destruct (kyc_there_and_back sv p s mp ms actor reason actor' reason' e e' Hp Hs Hne) as (i1 & i2 & i3 & i4 & n1 & n2 & n3 & n4 & H).
    by rewrite H, !decide_False.
  - intros sv id x Hk Hg. by apply Hk.
Qed.

(** ** The project adapter *)

Inductive ProjectStatusEnum := P_Pending | P_Approved | P_Rejected | P_Inactive.
#[export] Instance ProjectStatusEnum_eq_dec : EqDecision ProjectStatusEnum.
Proof. solve_decision. Defined.
Definition project_status_text (s : ProjectStatusEnum) : string :=
  match s with P_Pending => "Pending" | P_Approved => "Approved" | P_Rejected => "Rejected" | P_Inactive => "Inactive" end.

Record ProjectResponse := {
  pj_id : Z;
  pj_name : string;
  pj_status : ProjectStatusEnum;
  pj_methodology : string;
  pj_country : string;
  pj_metadataIpfsHash : string;
  pj_ownerAddress : string;
  pj_totalAreaHa : Z;
  pj_carbonSequestrationEstimate : Z;
}.

Record project_strategies := {
  ps_estimate : option (FieldResolutionStrategy * Z);
  ps_area : option (FieldResolutionStrategy * Z);
}.

Definition merged_number (p s : Z) (x : option (FieldResolutionStrategy * Z)) : Z :=
  match x with Some (MANUAL, v) => v | Some (SECONDARY_WINS, _) => s | _ => Z.max p s end.

Definition project_computeMergedState (p s : ProjectResponse) (x : option project_strategies) (_ : unit) : ProjectResponse * ProjectResponse :=
  ({| pj_id := pj_id p; pj_name := pj_name p; pj_status := pj_status p; pj_methodology := pj_methodology p; pj_country := pj_country p;
      pj_metadataIpfsHash := pj_metadataIpfsHash p; pj_ownerAddress := pj_ownerAddress p;
      pj_totalAreaHa := merged_number (pj_totalAreaHa p) (pj_totalAreaHa s) (x ≫= ps_area);
      pj_carbonSequestrationEstimate := merged_number (pj_carbonSequestrationEstimate p) (pj_carbonSequestrationEstimate s) (x ≫= ps_estimate) |},
   {| pj_id := pj_id s; pj_name := pj_name s; pj_status := P_Inactive; pj_methodology := pj_methodology s; pj_country := pj_country s;
      pj_metadataIpfsHash := pj_metadataIpfsHash s; pj_ownerAddress := pj_ownerAddress s; pj_totalAreaHa := pj_totalAreaHa s;
      pj_carbonSequestrationEstimate := pj_carbonSequestrationEstimate s |}).

Definition project_id (p : ProjectResponse) : string := Z_to_string (pj_id p).
Definition live (l : list ProjectResponse) : list ProjectResponse := filter (λ p, pj_status p ≠ P_Inactive) l.

(** [findAll] is the answer of [projectsService.findAll(1, 100)], empty when there is no service or
    it fails, and [findOne] the one of [findOne]. *)
Section Projects.
Context (sha256 : string → string) (score : ProjectResponse → ProjectResponse → Z).
Context (findAll : list ProjectResponse) (findOne : string → option ProjectResponse).

Definition project_fetchEntities (localStore : list (string * ProjectResponse)) : list ProjectResponse :=
  match localStore with [] => live findAll | _ => live (snd <$> localStore) end.

Definition project_getEntity (localStore : list (string * ProjectResponse)) (id : string) : option ProjectResponse :=
  match aget id localStore with Some p => Some p | None => findOne id end.

Definition project_applyMerge (localStore : list (string * ProjectResponse)) (p s mp ms : ProjectResponse) (_ _ : string) (_ : unit) :
    list (string * ProjectResponse) :=
  aput (project_id s) ms (aput (project_id p) mp localStore).

Definition project_applyReversal (localStore : list (string * ProjectResponse)) (primaryId secondaryId : string) (p s : ProjectResponse)
    (_ _ : string) (_ : unit) : list (string * ProjectResponse) :=
  aput secondaryId s (aput primaryId p localStore).

Definition project_digest (p : ProjectResponse) : string :=
  computeCanonicalDigest sha256 (JObj
    [ ("id", jint (pj_id p)); ("name", JStr (pj_name p)); ("status", JStr (project_status_text (pj_status p)));
      ("country", JStr (pj_country p)); ("carbonSequestrationEstimate", jint (pj_carbonSequestrationEstimate p));
      ("totalAreaHa", jint (pj_totalAreaHa p)); ("metadataIpfsHash", JStr (pj_metadataIpfsHash p)) ]).

Definition project_adapter : DeduplicationAdapter ProjectResponse (list (string * ProjectResponse)) project_strategies unit :=
  {| entityType := "project"; fetchEntities := project_fetchEntities; getEntity := project_getEntity; idOf := project_id;
     evaluateCandidate := score; computeMergedState := project_computeMergedState; applyMerge := project_applyMerge;
     applyReversal := project_applyReversal; computeStateDigest := project_digest |}.

Definition project_known (localStore : list (string * ProjectResponse)) : Prop :=
  ∀ id p, project_getEntity localStore id = Some p → project_id p = id.

#[export] Instance project_restores : Restores project_adapter project_known (λ _ _, True).
Proof.
  split; cbn [project_adapter getEntity idOf applyMerge applyReversal computeStateDigest];
    unfold project_getEntity, project_applyReversal, project_applyMerge; intros.
  - rewrite !aget_aput, decide_False, decide_True by done. by eexists.
  - rewrite aget_aput, decide_True by done. by eexists.
  - by rewrite !aget_aput, !decide_False.
  - by eauto.
Qed.
End Projects.

(** ** Concrete runs *)

Definition toy_digest (s : string) : string := s.
Definition compare_text (a b : string) : Z := if String.ltb a b then -1 else if String.ltb b a then 1 else 0.
Definition always (_ _ : KycRecord) : Z := 9000.
Definition calm : kyc_call :=
  let e := {| ev_read := 5; ev_now := 5; ev_id := "id"; ev_fate := {| cut := None; renamed := true |}; ev_redis := [] |} in
  {| kc_now := 5; kc_first := e; kc_second := e |}.
Definition account (a : string) (s : KycStatus) (reference : option string) (expiresAt : option Z) : KycRecord :=
  {| kr_address := a; kr_status := s; kr_source := FromProvider; kr_actor := None; kr_reason := None; kr_providerReference := reference;
     kr_createdAt := 1; kr_updatedAt := 1; kr_expiresAt := expiresAt |}.
Definition accounts (l : list KycRecord) : kyc_service :=
  {| sv_store := {| records := (λ r, (kr_address r, r)) <$> l; snapshot := None; audit := None |}; sv_cache := ∅ |}.
Definition toy_adapter := kyc_adapter toy_digest always.
Notation toy_service := (service KycRecord kyc_service kyc_strategies).
Definition start (l : list KycRecord) : toy_service := {| candidates := []; mergeJournals := []; entities := accounts l; audited := [] |}.
Definition pair_id : string := deterministicCandidateId compare_text toy_digest "kyc_record" "GA" "GB".
Definition reviewed (l : list KycRecord) (x : option kyc_strategies) : toy_service :=
  step toy_adapter compare_text toy_digest (step toy_adapter compare_text toy_digest (start l) (Scan None None 1))
    (Review pair_id "GREVIEWER" approved "same person" x 2).
Definition toy_merge (st : toy_service) : toy_service * result string (MergeJournalEntry KycRecord) :=
  executeMerge toy_adapter toy_digest st pair_id "GADMIN" None 3 "u1" calm.
Definition toy_merge_id : string := merge_id toy_digest pair_id 3 "u1".

Definition two_accounts : list KycRecord := [account "GA" PENDING (Some "r1") (Some 10); account "GB" VERIFIED (Some "r2") (Some 20)].

Example merged_accounts :
  let '(st, _) := toy_merge (reviewed two_accounts None) in
  (kr_status <$> get (sv_store (entities st)) "GA") = Some VERIFIED ∧ (kr_status <$> get (sv_store (entities st)) "GB") = Some NONE.
Proof. by vm_compute. Qed.

Lemma absorbed_forest_witness :
  let st := (toy_merge (reviewed two_accounts None)).1 in
  absorbed st "GB" "GA" ∧ (∀ s p p', absorbed st s p → absorbed st s p' → p = p') ∧ ∀ s, ¬ tc (absorbed st) s s.
Proof.
  split; [|apply (absorbed_forest toy_adapter compare_text toy_digest (accounts two_accounts))].
  - eexists. split; [vm_compute; apply list_elem_of_here|by split].
  - apply (reaches_step _ _ _ _ _ (Merge pair_id "GADMIN" None 3 "u1" calm)); [|intros H; vm_compute in H; inversion H].
    apply (reaches_step _ _ _ _ _ (Review pair_id "GREVIEWER" approved "same person" None 2)); [|done].
    apply (reaches_step _ _ _ _ _ (Scan None None 1)); [|done]. apply reaches_start.
Defined.

Lemma merge_exact_witness :
  mergeable toy_adapter (reviewed two_accounts None) pair_id.
Proof.
  assert (merge_id toy_digest pair_id 3 "u1" ∉ (mergeJournals (reviewed two_accounts None)).*1) as Hf
    by (intros H; vm_compute in H; inversion H).
  pose proof (merge_exact toy_adapter toy_digest (reviewed two_accounts None) pair_id "GADMIN" None 3 "u1" calm Hf) as H.
  destruct (executeMerge _ _ _ _ _ _ _ _ _) as [st [j|e]] eqn:E; [apply H|exfalso; vm_compute in E; discriminate].
Defined.

Lemma merge_reverse_roundtrip_witness :
  ∃ st2 j', reverseMerge toy_adapter (toy_merge (reviewed two_accounts None)).1 toy_merge_id "GADMIN" "mistake" 4 calm = (st2, Ok j') ∧
    (∀ id, kyc_digest toy_digest <$> get (sv_store (entities st2)) id =
           kyc_digest toy_digest <$> get (sv_store (accounts two_accounts)) id) ∧
    active st2 = [].
Proof.
  assert (∃ j, toy_merge (reviewed two_accounts None) = ((toy_merge (reviewed two_accounts None)).1, Ok j) ∧ mj_id j = toy_merge_id ∧
    kyc_restorable (mj_preMergePrimary j) (mj_postMergePrimary j)) as (j & E & <- & Hr).
  { eexists. split_and!; [vm_compute; reflexivity|vm_compute; reflexivity|split; done]. }
  destruct (merge_reverse_roundtrip toy_adapter toy_digest kyc_known kyc_restorable (reviewed two_accounts None)
    pair_id "GADMIN" None 3 "u1" calm (toy_merge (reviewed two_accounts None)).1 j "GADMIN" "mistake" 4 calm) as (st2 & j' & H1 & H2 & H3).
  - intros a r. change (entities (reviewed two_accounts None)) with (accounts two_accounts). cbn. repeat case_decide; subst; intros [= <-]; done.
  - intros H. vm_compute in H. inversion H.
  - intros o H. vm_compute in H. inversion H.
  - exact E.
  - exact Hr.
  - exists st2, j'. split_and!; [exact H1|exact H2|exact H3].
Defined.

(** *** Where the code falls short *)

Definition after_reversal (l : list KycRecord) (x : option kyc_strategies) : toy_service :=
  (reverseMerge toy_adapter (toy_merge (reviewed l x)).1 toy_merge_id "GADMIN" "mistake" 4 calm).1.

(** An account that never expires gets the expiry of its duplicate: [null] counts as the earliest. *)
Lemma never_expiring_expires :
  (kr_expiresAt <$> get (sv_store (entities (toy_merge (reviewed [account "GA" VERIFIED (Some "r") None; account "GB" PENDING (Some "r") (Some 20)] None)).1)) "GA")
  = Some (Some 20).
Proof. by vm_compute. Qed.

(** The reversal does not take that expiry back: a transition never clears a field. *)
Lemma reversal_keeps_expiry :
  (kr_expiresAt <$> get (sv_store (entities (after_reversal [account "GA" VERIFIED (Some "r") None; account "GB" PENDING (Some "r") (Some 20)] None))) "GA")
  = Some (Some 20).
Proof. by vm_compute. Qed.

(** When status and expiry stay the same the transition does nothing, and the provider reference
    that the journal reports as merged is not stored. *)
Lemma merge_drops_reference :
  let '(st, r) := toy_merge (reviewed [account "GA" VERIFIED None (Some 20); account "GB" PENDING (Some "r") (Some 10)] None) in
  match r with Ok j => kr_providerReference (mj_postMergePrimary j) | Err _ => None end = Some "r" ∧
  (kr_providerReference <$> get (sv_store (entities st)) "GA") = Some None.
Proof. by vm_compute. Qed.

(** A reviewer who lets the status of the primary win still gets the higher one. *)
Lemma primary_wins_ignored :
  let x := {| ks_status := Some (PRIMARY_WINS, None); ks_expiresAt := None; ks_providerReference := None |} in
  (kr_status <$> get (sv_store (entities (toy_merge (reviewed two_accounts (Some x))).1)) "GA") = Some VERIFIED.
Proof. by vm_compute. Qed.

(** A merged pair that is scanned again after the merge is pending, though still merged. *)
Lemma merged_candidate_reopens (c : CandidateDuplicate KycRecord kyc_strategies) a b confidence now :
  cd_status c = C_MERGED → cd_primaryDigest c ≠ cd_primaryDigest (rescanned toy_adapter compare_text toy_digest (Some c) a b confidence now) →
  cd_status (rescanned toy_adapter compare_text toy_digest (Some c) a b confidence now) = PENDING_REVIEW.
Proof.
  intros Hm. unfold rescanned. destruct (decide _) as [_|_].
  - destruct (decide (_ ∧ _)) as [[H1 _]|_]; cbn; [done|]. case_decide; done.
  - destruct (decide (_ ∧ _)) as [[H1 _]|_]; cbn; [done|]. case_decide; done.
Qed.

(** Two calls that both passed the guards before either wrote: one record is absorbed twice. *)
Definition three_accounts : list KycRecord :=
  [account "GA" PENDING (Some "r") (Some 10); account "GB" VERIFIED (Some "r") (Some 20); account "GC" VERIFIED (Some "r") (Some 20)].
Definition id_of (a b : string) : string := deterministicCandidateId compare_text toy_digest "kyc_record" a b.
Definition all_approved : toy_service :=
  foldl (step toy_adapter compare_text toy_digest) (start three_accounts)
    [ Scan None None 1; Review (id_of "GA" "GC") "GR" approved "same" None 2; Review (id_of "GB" "GC") "GR" approved "same" None 2;
      Review (id_of "GA" "GB") "GR" approved "same" None 2 ].
Lemma racing_merges :
  match merge_plan toy_adapter all_approved (id_of "GA" "GC"), merge_plan toy_adapter all_approved (id_of "GB" "GC") with
  | Ok plan1, Ok plan2 =>
      let st1 := (merge_commit toy_adapter toy_digest all_approved plan1 (id_of "GA" "GC") "GADMIN" None 3 "u1" calm).1 in
      let st2 := (merge_commit toy_adapter toy_digest st1 plan2 (id_of "GB" "GC") "GADMIN" None 3 "u2" calm).1 in
      (λ j, (mj_secondaryId j, mj_primaryId j)) <$> active st2 = [("GC", "GA"); ("GC", "GB")]
  | _, _ => False
  end.
Proof. by vm_compute. Qed.

(** Two merges into one account in the same millisecond: the first can be reversed before the second
    and takes the effect of the second with it, while the second stays active. *)
Definition ranked_accounts : list KycRecord :=
  [account "GA" PENDING (Some "r") (Some 10); account "GB" VERIFIED (Some "r") (Some 20); account "GC" ACCREDITED (Some "r") (Some 30)].
Lemma same_instant_reversal :
  let merges :=
    [ Scan None None 1; Review (id_of "GA" "GB") "GR" approved "same" None 2; Merge (id_of "GA" "GB") "GADMIN" None 3 "u1" calm;
      Scan None None 3; Review (id_of "GA" "GC") "GR" approved "same" None 3; Merge (id_of "GA" "GC") "GADMIN" None 3 "u2" calm ] in
  let st := foldl (step toy_adapter compare_text toy_digest) (start ranked_accounts) merges in
  let st' := step toy_adapter compare_text toy_digest st (Reverse (merge_id toy_digest (id_of "GA" "GB") 3 "u1") "GADMIN" "mistake" 4 calm) in
  (kr_status <$> get (sv_store (entities st)) "GA") = Some ACCREDITED ∧
  (kr_status <$> get (sv_store (entities st')) "GA") = Some PENDING ∧
  (λ j, (mj_secondaryId j, mj_primaryId j)) <$> active st' = [("GC", "GA")].
Proof. by vm_compute. Qed.

(** The first merge fills the local store of the project adapter, and the next scans see nothing else. *)
Definition toy_project (id area : Z) : ProjectResponse :=
  {| pj_id := id; pj_name := "Mangroves"; pj_status := P_Approved; pj_methodology := "VM0033"; pj_country := "KE"; pj_metadataIpfsHash := "h";
     pj_ownerAddress := "GO"; pj_totalAreaHa := area; pj_carbonSequestrationEstimate := 5 |}.
Definition three_projects : list ProjectResponse := [toy_project 1 10; toy_project 2 20; toy_project 3 30].
Definition projects : DeduplicationAdapter ProjectResponse (list (string * ProjectResponse)) project_strategies unit :=
  project_adapter toy_digest (λ _ _, 9000) three_projects (λ id, List.find (λ p, bool_decide (project_id p = id)) three_projects).
Definition project_pair (a b : string) : string := deterministicCandidateId compare_text toy_digest "project" a b.
Definition merge_projects (calls : list call) : service ProjectResponse (list (string * ProjectResponse)) project_strategies :=
  foldl (step projects compare_text toy_digest) {| candidates := []; mergeJournals := []; entities := []; audited := [] |} calls.
Definition approve_and_merge (a b uuid : string) : list (call (St := list (string * ProjectResponse)) (X := project_strategies) (E := unit)) :=
  [ Review (project_pair a b) "GR" approved "same" None 2; Merge (project_pair a b) "GADMIN" None 3 uuid () ].

Lemma first_merge_blinds_scan :
  length (fetchEntities projects (entities (merge_projects [Scan None None 1]))) = 3%nat ∧
  (project_id <$> fetchEntities projects (entities (merge_projects (Scan None None 1 :: approve_and_merge "1" "2" "u1")))) = ["1"].
Proof. by vm_compute. Qed.

