(* ===== verification/EvidenceBundles.v ===== *)
(** * Audit evidence bundles

    Models [api/src/audit/evidence-bundle.ts] (the redaction rules, the walk over a record, the bundle,
    its offline verification and the confirmation of a value) and [exportEvidenceBundle] of
    [api/src/audit/audit.service.ts].  HMAC-SHA256 and SHA-256 are the arguments [hmac] and
    [sha256]; the two key checks of the Stellar SDK are the arguments [is_seed] and
    [is_account].  The regular expressions over key names are lists of the texts they look for.

    Shown: apart from the hashes it copies, a bundle does not depend on what it redacts: two
    histories that differ only in secret values, and in personal values with equal keyed digests,
    give the same records and redactions ([bundle_hides]); no string value that is left is a seed, a token, an e-mail address
    or an account ([walk_clean]); the bundle of a history the audit trail wrote verifies offline
    ([bundle_verifies]).  Where the code falls short: the entry hashes are copied, and they are
    digests without a key over the values that were redacted, so that a guess is confirmed with
    nothing but the bundle ([hash_confirms_guess]); object keys are not redacted
    ([account_as_key_stays]). *)
From S2P Require Import Prelude JsDate Json Cid AuditTrail.

Inductive RedactionRule := Secret | Pii | FreeText | AccountRule | ActorRule.
#[export] Instance RedactionRule_eq_dec : EqDecision RedactionRule.
Proof. solve_decision. Defined.
Definition rule_text (r : RedactionRule) : string :=
  match r with Secret => "secret" | Pii => "pii" | FreeText => "free-text" | AccountRule => "account" | ActorRule => "actor" end.

Definition EVIDENCE_BUNDLE_SCHEMA_VERSION : Z := 1.
Definition MIN_PEPPER_LENGTH : nat := 32.

(** [a[-_]?b]. *)
Definition spaced (a b : string) : list string := [a +:+ b; a +:+ "-" +:+ b; a +:+ "_" +:+ b].
Definition contains_one (needles : list string) (s : string) : bool := existsb (λ n, includes n s) needles.

Definition SECRET_KEY (key : string) : bool :=
  let k := to_lower key in
  contains_one (["secret"; "password"; "passphrase"] ++ spaced "api" "key" ++ spaced "private" "key" ++
    ["seed"; "mnemonic"; "credential"; "authorization"] ++
    concat ((λ a, spaced a "token") <$> ["access"; "refresh"; "auth"; "bearer"; "session"; "reset"])) k
  || bool_decide (k = "token").

Definition PII_KEY (key : string) : bool :=
  let k := to_lower key in
  contains_one (["email"; "phone"; "mobile"] ++ concat ((λ a, spaced a "name") <$> ["first"; "last"; "full"; "legal"]) ++
    ["dob"; "birth"; "ssn"; "passport"] ++ spaced "national" "id" ++ spaced "tax" "id" ++ ["iban"] ++ spaced "account" "number" ++
    ["street"; "postal"; "zip"; "document"; "selfie"] ++ spaced "ip" "address") k
  || bool_decide (k = "name").

Definition FREE_TEXT_KEY (key : string) : bool :=
  bool_decide (to_lower key ∈ ["reason"; "note"; "notes"; "comment"; "comments"; "description"; "message"; "memo"]).

(** [[^\s@]+@[^\s@]+\.[^\s@]+]: one [@], no space, and a dot inside the second part. *)
Definition has_inner_dot (s : string) : bool := includes "." (String.substring 1 (String.length s - 2) s).
Definition EMAIL (s : string) : bool :=
  no_space s && match split_on "@" s with [a; b] => negb (bool_decide (a = "")) && has_inner_dot b | _ => false end.

Definition is_word (c : ascii) : bool :=
  (is_digit c || ((65 <=? code c) && (code c <=? 90)) || ((97 <=? code c) && (code c <=? 122)) || (code c =? 95))%N.
Definition word_or_dash (c : ascii) : bool := is_word c || (code c =? 45)%N.
(** [eyJ[\w-]+\.[\w-]+\.[\w-]*]. *)
Definition JWT (s : string) : bool :=
  match split_on "." s with
  | [a; b; c] => bool_decide (String.substring 0 3 a = "eyJ") && (3 <? String.length a)%nat && negb (bool_decide (b = "")) &&
                 str_forall word_or_dash a && str_forall word_or_dash b && str_forall word_or_dash c
  | _ => false
  end.

Record RedactedValue := { rv_rule : RedactionRule; rv_digest : option string }.
Definition redacted_json (v : RedactedValue) : json :=
  JObj (("redacted", JStr (rule_text (rv_rule v))) :: match rv_digest v with Some d => [("digest", JStr d)] | None => [] end).

Definition redaction : Type := string * RedactionRule.

(** Either the text or what stands for it. *)
Inductive shown := Plain (s : string) | Hidden (v : RedactedValue).
Definition shown_json (x : shown) : json := match x with Plain s => JStr s | Hidden v => redacted_json v end.

Record EvidenceRecord := {
  er_sequence : Z;
  er_recordId : string;
  er_entityType : string;
  er_entityId : shown;
  er_action : string;
  er_actor : RedactedValue;
  er_reason : option RedactedValue;
  er_before : json;
  er_after : json;
  er_recordedAt : string;
  er_previousHash : option string;
  er_hash : string;
}.

Record EvidenceBundle := {
  eb_schemaVersion : Z;
  eb_bundleId : string;
  eb_caseId : string;
  eb_generatedAt : string;
  eb_generatedBy : string;
  eb_pepperId : string;
  eb_subject : string * shown;
  eb_chainHead : option string;
  eb_sourceOk : bool;
  eb_checkedEntries : Z;
  eb_failures : list (Z * string);
  eb_records : list EvidenceRecord;
  eb_redactions : list redaction;
  eb_digest : string;
}.

Section Redactor.
Context (hmac : string → string → string) (sha256 : string → string) (is_seed is_account : string → bool).

Definition digestOf (pepper : string) (value : json) : string := hmac pepper (stableStringify value).

Definition scalarRule (s : string) : option RedactionRule :=
  if is_seed s || JWT s then Some Secret else if EMAIL s then Some Pii else if is_account s then Some AccountRule else None.

Definition replace (pepper : string) (rule : RedactionRule) (value : json) : RedactedValue :=
  {| rv_rule := rule; rv_digest := if decide (rule = Secret) then None else Some (digestOf pepper value) |}.

(** [scalar] on a text; other scalars are shown. *)
Definition scalar (pepper path s : string) : shown * list redaction :=
  match scalarRule s with Some r => (Hidden (replace pepper r (JStr s)), [(path, r)]) | None => (Plain s, []) end.

(** The rule a property falls under by its name. *)
Definition key_rule (key : string) (value : json) : option RedactionRule :=
  if SECRET_KEY key then Some Secret
  else if PII_KEY key then Some Pii
  else if FREE_TEXT_KEY key then match value with JStr _ => Some FreeText | _ => None end
  else None.

(** What the walk makes of one property. *)
Definition visit (pepper path key : string) (value : json) (inner : string → json * list redaction) : json * list redaction :=
  let child := path +:+ "." +:+ key in
  match key_rule key value with
  | Some r => (redacted_json (replace pepper r value), [(child, r)])
  | None => inner child
  end.

(** The object that the loop over the sorted keys builds; [__proto__] adds no property. *)
Definition assemble (outs : list (string * (json * list redaction))) : json * list redaction :=
  (JObj ((λ k, (k, default JNull (fst <$> aget k outs))) <$> canonical_keys outs.*1),
   concat ((λ k, default [] (snd <$> aget k outs)) <$> merge_sort str_le outs.*1)).

Fixpoint walk (pepper : string) (value : json) (path : string) : json * list redaction :=
  match value with
  | JStr s => let '(x, rs) := scalar pepper path s in (shown_json x, rs)
  | JArr l =>
      let parts := imap (λ i f, f (path +:+ "[" +:+ Z_to_string (Z.of_nat i) +:+ "]")) (map (walk pepper) l) in
      (JArr (fst <$> parts), concat (snd <$> parts))
  | JObj l => assemble (map (λ kv, (fst kv, visit pepper path (fst kv) (snd kv) (walk pepper (snd kv)))) l)
  | _ => (value, [])
  end.

Definition path_of (i : nat) (field : string) : string := "records[" +:+ Z_to_string (Z.of_nat i) +:+ "]." +:+ field.

Definition truthy (x : option string) : option string := match x with Some s => if decide (s = "") then None else x | None => None end.

Definition actor_rule (s : string) : RedactionRule := if decide (scalarRule s = Some Secret) then Secret else ActorRule.

Definition evidence_record (pepper : string) (i : nat) (e : AuditRecord) : EvidenceRecord * list redaction :=
  let '(id, r1) := scalar pepper (path_of i "entityId") (ar_entityId e) in
  let '(before, r4) := walk pepper (ar_before e) (path_of i "before") in
  let '(after, r5) := walk pepper (ar_after e) (path_of i "after") in
  ({| er_sequence := ar_sequence e; er_recordId := ar_recordId e; er_entityType := ar_entityType e; er_entityId := id;
      er_action := ar_action e; er_actor := replace pepper (actor_rule (ar_actor e)) (JStr (ar_actor e));
      er_reason := (λ s, replace pepper FreeText (JStr s)) <$> truthy (ar_reason e); er_before := before; er_after := after;
      er_recordedAt := ar_recordedAt e; er_previousHash := ar_previousHash e; er_hash := ar_hash e |},
   r1 ++ [(path_of i "actor", actor_rule (ar_actor e))] ++
   match truthy (ar_reason e) with Some _ => [(path_of i "reason", FreeText)] | None => [] end ++ r4 ++ r5).

Definition opt_text (x : option string) : json := match x with Some s => JStr s | None => JNull end.

Definition record_json (r : EvidenceRecord) : json :=
  JObj [ ("sequence", jint (er_sequence r)); ("recordId", JStr (er_recordId r)); ("entityType", JStr (er_entityType r));
         ("entityId", shown_json (er_entityId r)); ("action", JStr (er_action r)); ("actor", redacted_json (er_actor r));
         ("reason", match er_reason r with Some v => redacted_json v | None => JNull end); ("before", er_before r); ("after", er_after r);
         ("recordedAt", JStr (er_recordedAt r)); ("previousHash", opt_text (er_previousHash r)); ("hash", JStr (er_hash r)) ].

(** The bundle without its digest. *)
Definition body_json (b : EvidenceBundle) : json :=
  JObj [ ("schemaVersion", jint (eb_schemaVersion b)); ("bundleId", JStr (eb_bundleId b)); ("caseId", JStr (eb_caseId b));
         ("generatedAt", JStr (eb_generatedAt b)); ("generatedBy", JStr (eb_generatedBy b)); ("pepperId", JStr (eb_pepperId b));
         ("subject", JObj [("entityType", JStr (eb_subject b).1); ("entityId", shown_json (eb_subject b).2)]);
         ("chainHead", opt_text (eb_chainHead b));
         ("sourceVerification", JObj [("ok", JBool (eb_sourceOk b)); ("checkedEntries", jint (eb_checkedEntries b));
           ("failures", JArr ((λ f, JObj [("failedIndex", jint f.1); ("reason", JStr f.2)]) <$> eb_failures b))]);
         ("records", JArr (record_json <$> eb_records b));
         ("redactions", JArr ((λ r, JObj [("path", JStr r.1); ("rule", JStr (rule_text r.2))]) <$> eb_redactions b)) ].

Definition bundleDigest (b : EvidenceBundle) : string := sha256 (stableStringify (body_json b)).

Definition sealed (b : EvidenceBundle) : EvidenceBundle :=
  {| eb_schemaVersion := eb_schemaVersion b; eb_bundleId := eb_bundleId b; eb_caseId := eb_caseId b; eb_generatedAt := eb_generatedAt b;
     eb_generatedBy := eb_generatedBy b; eb_pepperId := eb_pepperId b; eb_subject := eb_subject b; eb_chainHead := eb_chainHead b;
     eb_sourceOk := eb_sourceOk b; eb_checkedEntries := eb_checkedEntries b; eb_failures := eb_failures b; eb_records := eb_records b;
     eb_redactions := eb_redactions b; eb_digest := bundleDigest b |}.

Record BuildEvidenceOptions := {
  op_caseId : string;
  op_generatedBy : string;
  op_pepper : string;
  op_pepperId : string;
  op_source : VerificationReport;
  op_now : Z;
  op_uuid : string;
}.

Definition buildEvidenceBundle (entityType entityId : string) (history : list AuditRecord) (o : BuildEvidenceOptions) :
    result string EvidenceBundle :=
  _ ← throw_if (String.length (op_pepper o) <? MIN_PEPPER_LENGTH)%nat "evidence pepper must be at least 32 characters";
  _ ← throw_if (bool_decide (op_caseId o = "")) "caseId is required: every bundle is tied to an investigation";
  let parts := imap (evidence_record (op_pepper o)) history in
  let '(subject, rs) := scalar (op_pepper o) "subject.entityId" entityId in
  Ok (sealed
    {| eb_schemaVersion := EVIDENCE_BUNDLE_SCHEMA_VERSION; eb_bundleId := op_uuid o; eb_caseId := op_caseId o;
       eb_generatedAt := iso_text (op_now o); eb_generatedBy := op_generatedBy o; eb_pepperId := op_pepperId o;
       eb_subject := (entityType, subject); eb_chainHead := ar_hash <$> last history; eb_sourceOk := vr_ok (op_source o);
       eb_checkedEntries := checkedEntries (op_source o);
       eb_failures := (λ f, (failedIndex f, vf_reason f)) <$> vr_failures (op_source o);
       eb_records := fst <$> parts; eb_redactions := concat (snd <$> parts) ++ rs; eb_digest := "" |}).

(** The checks of each record against the one before it. *)
Fixpoint link_problems (i : Z) (prev : option EvidenceRecord) (l : list EvidenceRecord) : list string :=
  match l with
  | [] => []
  | r :: l =>
      let at_ := "records[" +:+ Z_to_string i +:+ "]: " in
      match prev with
      | None => if bool_decide (er_sequence r = 1) then [] else ["records[0]: chain does not start at sequence 1"]
      | Some p =>
          (if bool_decide (er_sequence r = er_sequence p + 1) then [] else [at_ +:+ "sequence gap"]) ++
          (if bool_decide (er_previousHash r = Some (er_hash p)) then [] else [at_ +:+ "previousHash does not link"]) ++
          (if String.ltb (er_recordedAt r) (er_recordedAt p) then [at_ +:+ "timestamp goes backwards"] else [])
      end ++ link_problems (i + 1) (Some r) l
  end.

Definition verifyEvidenceBundle (b : EvidenceBundle) : list string :=
  (if bool_decide (eb_schemaVersion b = EVIDENCE_BUNDLE_SCHEMA_VERSION) then []
   else ["unsupported schemaVersion " +:+ Z_to_string (eb_schemaVersion b)]) ++
  (if bool_decide (bundleDigest b = eb_digest b) then [] else ["bundle digest mismatch (modified after export)"]) ++
  (if eb_sourceOk b then [] else ["source chain failed verification at export time"]) ++
  link_problems 0 None (eb_records b) ++
  (if bool_decide (er_hash <$> last (eb_records b) = eb_chainHead b) then [] else ["chainHead does not match last record"]).

Definition matchesRedacted (pepper : string) (v : RedactedValue) (candidate : json) : bool :=
  match rv_digest v with Some d => bool_decide (d = digestOf pepper candidate) | None => false end.

(** [exportEvidenceBundle]: the export is itself recorded. *)
Definition exportEvidenceBundle (st : AuditService) (entityType entityId caseId generatedBy pepper pepperId : string) (uuid recordUuid : string)
    (now clock : Z) : AuditService * result string EvidenceBundle :=
  if (String.length pepper <? MIN_PEPPER_LENGTH)%nat then (st, Err "Evidence export is not configured (AUDIT_EVIDENCE_PEPPER)")
  else if decide (trim caseId = "") then (st, Err "caseId is required")
  else
    match buildEvidenceBundle entityType entityId (getEntityHistory st entityType entityId)
            {| op_caseId := caseId; op_generatedBy := generatedBy; op_pepper := pepper; op_pepperId := pepperId;
               op_source := verifyEntity sha256 st entityType entityId true; op_now := now; op_uuid := uuid |} with
    | Err e => (st, Err e)
    | Ok b =>
        ((record sha256 st {| aw_entityType := "evidence-bundle"; aw_entityId := caseId; aw_action := "export"; aw_actor := generatedBy;
            aw_reason := None; aw_before := None;
            aw_after := Some (JObj [("bundleId", JStr (eb_bundleId b)); ("subjectType", JStr entityType);
              ("chainHead", opt_text (eb_chainHead b)); ("digest", JStr (eb_digest b))]) |} recordUuid clock).1, Ok b)
    end.

End Redactor.

(** ** What a bundle hides *)

(** The names under which nothing of a value may be kept, and those of personal data. *)
Definition secret_words : list string :=
  [ "secret"; "password"; "passphrase"; "apikey"; "api-key"; "api_key"; "privatekey"; "private-key"; "private_key"; "seed";
    "mnemonic"; "credential"; "authorization"; "accesstoken"; "access-token"; "access_token"; "refreshtoken"; "refresh-token";
    "refresh_token"; "authtoken"; "auth-token"; "auth_token"; "bearertoken"; "bearer-token"; "bearer_token"; "sessiontoken";
    "session-token"; "session_token"; "resettoken"; "reset-token"; "reset_token" ].
Definition personal_words : list string :=
  [ "email"; "phone"; "mobile"; "firstname"; "first-name"; "first_name"; "lastname"; "last-name"; "last_name"; "fullname"; "full-name";
    "full_name"; "legalname"; "legal-name"; "legal_name"; "dob"; "birth"; "ssn"; "passport"; "nationalid"; "national-id";
    "national_id"; "taxid"; "tax-id"; "tax_id"; "iban"; "accountnumber"; "account-number"; "account_number"; "street"; "postal";
    "zip"; "document"; "selfie"; "ipaddress"; "ip-address"; "ip_address" ].
Definition occurs (w s : string) : Prop := ∃ a b, s = a +:+ w +:+ b.
Definition secret_name (k : string) : Prop := to_lower k = "token" ∨ ∃ w, w ∈ secret_words ∧ occurs w (to_lower k).
Definition personal_name (k : string) : Prop := to_lower k = "name" ∨ ∃ w, w ∈ personal_words ∧ occurs w (to_lower k).
Definition comment_name (k : string) : Prop :=
  to_lower k ∈ ["reason"; "note"; "notes"; "comment"; "comments"; "description"; "message"; "memo"].

(** A web token: three parts, the first of which starts like a JSON object in base 64. *)
Definition token_shape (s : string) : Prop :=
  ∃ a b c, s = "eyJ" +:+ a +:+ "." +:+ b +:+ "." +:+ c ∧ a ≠ "" ∧ b ≠ "" ∧
    str_forall word_or_dash a = true ∧ str_forall word_or_dash b = true ∧ str_forall word_or_dash c = true.

Lemma prefix_spec w s : String.prefix w s = true ↔ ∃ b, s = w +:+ b.
Proof.
  revert s. induction w as [|c w IH]; intros [|d s]; cbn [String.prefix].
  - split; [by exists ""|done].
  - split; [by exists (String d s)|done].
  - split; [done|by intros [b Hb]].
  - destruct (ascii_dec c d) as [->|Hne]; [|split; [done|intros [b Hb]; by injection Hb as <- _]].
    rewrite IH. split; intros [b Hb]; exists b; [by rewrite Hb|by injection Hb as ->].
Qed.

Lemma includes_spec w s : includes w s = true ↔ occurs w s.
Proof.
  induction s as [|c s IH]; cbn [includes]; rewrite orb_true_iff, prefix_spec; unfold occurs.
  - split; [intros [[b Hb]|?]; [by exists "", b|done]|]. intros (a & b & H). left. destruct a; [by exists b|done].
  - rewrite IH. split.
    + intros [[b Hb]|(a & b & ->)]; [by exists "", b|by exists (String c a), b].
    + intros ([|d a] & b & H); [left; by exists b|right]. injection H as _ H. by exists a, b.
Qed.

Lemma contains_spec ws s : contains_one ws s = true ↔ ∃ w, w ∈ ws ∧ occurs w s.
Proof.
  unfold contains_one. rewrite existsb_exists. split; intros (w & Hw & Ho); exists w; (split; [by apply list_elem_of_In|]); by apply includes_spec.
Qed.

Lemma SECRET_KEY_spec k : SECRET_KEY k = true ↔ secret_name k.
Proof.
  unfold SECRET_KEY, secret_name. rewrite orb_true_iff, bool_decide_eq_true.
  change (concat _) with (drop 13 secret_words). change (_ ++ _) with secret_words. rewrite contains_spec. tauto.
Qed.
Lemma PII_KEY_spec k : PII_KEY k = true ↔ personal_name k.
Proof.
  unfold PII_KEY, personal_name. rewrite orb_true_iff, bool_decide_eq_true. change (_ ++ _) with personal_words. rewrite contains_spec. tauto.
Qed.
Lemma FREE_TEXT_KEY_spec k : FREE_TEXT_KEY k = true ↔ comment_name k.
Proof. apply bool_decide_eq_true. Qed.

Lemma split_on_none c s : str_forall (λ d, negb (Ascii.eqb d c)) s = true → split_on c s = [s].
Proof.
  induction s as [|d s IH]; cbn; [done|]. rewrite andb_true_iff, negb_true_iff. intros [-> H]. by rewrite IH.
Qed.

Lemma split_on_first c s rest :
  str_forall (λ d, negb (Ascii.eqb d c)) s = true → split_on c (s +:+ String c rest) = s :: split_on c rest.
Proof.
  induction s as [|d s IH]; intros H.
  - change ("" +:+ String c rest) with (String c rest). cbn [split_on]. by rewrite Ascii.eqb_refl.
  - cbn [str_forall] in H. rewrite andb_true_iff, negb_true_iff in H. destruct H as [Hd H].
    change (String d s +:+ String c rest) with (String d (s +:+ String c rest)). cbn [split_on]. by rewrite Hd, IH.
Qed.

Lemma join_split c s : join (String c "") (split_on c s) = s.
Proof.
  assert (∀ s, split_on c s ≠ []) as Hne by (intros [|d s']; cbn; [done|]; destruct (Ascii.eqb d c), (split_on c s'); done).
  induction s as [|d s IH]; [done|]. cbn [split_on]. specialize (Hne s). destruct (Ascii.eqb_spec d c) as [->|].
  - destruct (split_on c s) as [|p ps]; [done|]. change (String c (join (String c "") (p :: ps)) = String c s). by rewrite IH.
  - destruct (split_on c s) as [|p [|q ps]]; [done|by rewrite <- IH|].
    change (String d (p +:+ String c "" +:+ join (String c "") (q :: ps)) = String d s). by rewrite <- IH.
Qed.

Lemma word_no_dot s : str_forall word_or_dash s = true → str_forall (λ d, negb (Ascii.eqb d ".")) s = true.
Proof. apply str_forall_impl. intros c. by_ascii c. Qed.

Lemma JWT_spec s : JWT s = true ↔ token_shape s.
Proof.
  unfold JWT, token_shape. split.
  - pose proof (join_split "." s) as Hj. destruct (split_on "." s) as [|a [|b [|c [|d l]]]]; try done. cbn [join] in Hj. subst s.
    rewrite !andb_true_iff, bool_decide_eq_true, negb_true_iff, bool_decide_eq_false, Nat.ltb_lt. intros (((((H1 & H2) & H3) & H4) & H5) & H6).
    destruct a as [|x [|y [|z a]]]; cbn in H2; try lia. injection H1 as -> -> ->. exists a, b, c. split; [done|].
    split_and!; try done. intros ->. cbn in H2. lia.
  - intros (a & b & c & -> & Ha & Hb & H1 & H2 & H3).
    assert (str_forall word_or_dash ("eyJ" +:+ a) = true) as H0 by by rewrite str_forall_app, H1.
    change (split_on "." _) with (split_on "." (("eyJ" +:+ a) +:+ String "." (b +:+ String "." c))).
    rewrite (split_on_first "." ("eyJ" +:+ a)), (split_on_first "." b), (split_on_none "." c) by by apply word_no_dot.
    rewrite H0, H2, H3, !andb_true_r. apply andb_true_iff. split; [|by rewrite bool_decide_eq_false_2].
    apply andb_true_iff. split; [by destruct a|]. apply Nat.ltb_lt. destruct a as [|x a]; [done|]. change (3 < S (S (S (S (String.length a)))))%nat. lia.
Qed.

Section Hiding.
Context (sha256 : string → string) (is_seed is_account : string → bool).
(** Two keyed digests: nothing but what [hmac] and [hmac'] answer is known of either. *)
Context (hmac hmac' : string → string → string) (pepper : string).
Notation scalarRule := (scalarRule is_seed is_account).
Notation evidence_record hmac := (evidence_record hmac is_seed is_account pepper).

(** The digest of one value under the one looks like that of the other under the other. *)
Definition same_digest (v v' : json) : Prop := digestOf hmac pepper v = digestOf hmac' pepper v'.

Definition secret_text (s : string) : Prop := is_seed s = true ∨ token_shape s.

(** Equal up to what is redacted, at any depth: values under secret names and texts that are seeds
    or tokens are arbitrary; personal data and comments look alike. *)
Inductive alike : json → json → Prop :=
| alike_text s : same_digest (JStr s) (JStr s) → alike (JStr s) (JStr s)
| alike_secret s s' : secret_text s → secret_text s' → alike (JStr s) (JStr s')
| alike_scalar v : match v with JNull | JBool _ | JNum _ => True | _ => False end → alike v v
| alike_arr l l' : Forall2 alike l l' → alike (JArr l) (JArr l')
| alike_obj l l' : Forall2 (λ p q, fst p = fst q ∧ alike_at (fst p) (snd p) (snd q)) l l' → alike (JObj l) (JObj l')
with alike_at : string → json → json → Prop :=
| at_secret k v v' : secret_name k → alike_at k v v'
| at_personal k v v' : personal_name k → same_digest v v' → alike_at k v v'
| at_comment k s s' : comment_name k → same_digest (JStr s) (JStr s') → alike_at k (JStr s) (JStr s')
| at_other k v v' : ¬ personal_name k → (comment_name k → ∀ s, v ≠ JStr s ∧ v' ≠ JStr s) → alike v v' → alike_at k v v'.

Lemma replace_alike r v v' : (r ≠ Secret → same_digest v v') → replace hmac pepper r v = replace hmac' pepper r v'.
Proof. intros H. unfold replace. f_equal. case_decide; [done|]. by rewrite H. Qed.

Lemma secret_text_rule s : scalarRule s = Some Secret ↔ secret_text s.
Proof.
  unfold EvidenceBundles.scalarRule, secret_text. rewrite <- JWT_spec. destruct (is_seed s), (JWT s); cbn; try (split; [|done]; tauto).
  split; [|by intros []]. destruct (EMAIL s); [done|]. by destruct (is_account s).
Qed.

Lemma alike_scalars path s s' : alike (JStr s) (JStr s') →
  scalar hmac is_seed is_account pepper path s = scalar hmac' is_seed is_account pepper path s'.
Proof.
  intros H. unfold scalar. inversion H as [? Hd|? ? H1%secret_text_rule H2%secret_text_rule|v Hv| |]; subst; [|by rewrite H1, H2|done].
  destruct (scalarRule _) as [r|]; [|done]. by rewrite (replace_alike r _ _ (λ _, Hd)).
Qed.

Lemma visit_alike path k v v' inner inner' : alike_at k v v' → (alike v v' → ∀ p, inner p = inner' p) →
  visit hmac pepper path k v inner = visit hmac' pepper path k v' inner'.
Proof.
  intros H Hi. unfold visit, key_rule. pose proof (SECRET_KEY_spec k) as HS. pose proof (PII_KEY_spec k) as HP. pose proof (FREE_TEXT_KEY_spec k) as HF.
  destruct (SECRET_KEY k); [by rewrite (replace_alike Secret v v')|].
  destruct H as [k v v' Hk|k v v' Hk Hd|k s s' Hk Hd|k v v' Hp Hc Ha]; [by apply HS in Hk| | |].
  - rewrite (proj2 HP Hk). by rewrite (replace_alike Pii v v').
  - rewrite (proj2 HF Hk). destruct (PII_KEY k); [by rewrite (replace_alike Pii (JStr s) (JStr s'))|]. by rewrite (replace_alike FreeText (JStr s) (JStr s')).
  - destruct (PII_KEY k); [by destruct Hp; apply HP|]. destruct (FREE_TEXT_KEY k); [|by apply Hi].
    destruct v, v'; try (by destruct (Hc (proj1 HF eq_refl) s)); try (by apply Hi). all: by destruct (Hc (proj1 HF eq_refl) s0).
Qed.

Lemma walk_alike v : ∀ v' path, alike v v' →
  walk hmac is_seed is_account pepper v path = walk hmac' is_seed is_account pepper v' path.
Proof.
  induction v as [|b|n|s|l IH|l IH] using json_ind_nested; intros v' path H.
  - by inversion H.
  - by inversion H.
  - by inversion H.
  - assert (∃ s', v' = JStr s') as [s' ->] by (inversion H; subst; eauto; done). cbn [walk]. by rewrite (alike_scalars path s s' H).
  - assert (∃ l', v' = JArr l' ∧ Forall2 alike l l') as (l' & -> & Hl) by (inversion H; subst; eauto; done). cbn [walk].
    assert (∀ f g : nat → string, (∀ i, f i = g i) →
      imap (λ i w, w (f i)) (map (walk hmac is_seed is_account pepper) l) = imap (λ i w, w (g i)) (map (walk hmac' is_seed is_account pepper) l')) as Heq;
      [|by rewrite (Heq (λ i, _) (λ i, _) (λ i, eq_refl))].
    clear H. induction Hl as [|x x' l l' Hx Hl IHl]; intros f g Hfg; [done|]. inversion_clear IH as [|? ? Hw IH']. cbn [map].
    rewrite !imap_cons. f_equal; [rewrite (Hw x' _ Hx); by rewrite Hfg|]. apply (IHl IH' (f ∘ S) (g ∘ S)). intros i. apply Hfg.
  - assert (∃ l', v' = JObj l' ∧ Forall2 (λ p q, fst p = fst q ∧ alike_at (fst p) (snd p) (snd q)) l l') as (l' & -> & Hl)
      by (inversion H; subst; eauto; done). cbn [walk]. f_equal. clear H.
    induction Hl as [|[k x] [k' x'] l l' [Hk Hx] Hl IHl]; [done|].
    inversion_clear IH as [|? ? Hw IH']. cbn in Hk, Hw, Hx. subst k'. cbn [map fst snd]. f_equal; [|by apply IHl]. f_equal.
    apply visit_alike; [done|]. intros Ha q. by apply Hw.
Qed.

(** Entries that differ only in what a bundle redacts, and in their hashes. *)
Record alike_entry (e e' : AuditRecord) : Prop := {
  same_sequence : ar_sequence e = ar_sequence e';
  same_recordId : ar_recordId e = ar_recordId e';
  same_entityType : ar_entityType e = ar_entityType e';
  same_action : ar_action e = ar_action e';
  same_recordedAt : ar_recordedAt e = ar_recordedAt e';
  like_entityId : alike (JStr (ar_entityId e)) (JStr (ar_entityId e'));
  like_actor : (secret_text (ar_actor e) ∧ secret_text (ar_actor e')) ∨
    (¬ secret_text (ar_actor e) ∧ ¬ secret_text (ar_actor e') ∧ same_digest (JStr (ar_actor e)) (JStr (ar_actor e')));
  like_reason : match truthy (ar_reason e), truthy (ar_reason e') with
    | Some s, Some s' => same_digest (JStr s) (JStr s') | None, None => True | _, _ => False end;
  like_before : alike (ar_before e) (ar_before e');
  like_after : alike (ar_after e) (ar_after e');
}.

(** A record and a bundle without the hashes they copy. *)
Definition unhashed_record (r : EvidenceRecord) : EvidenceRecord :=
  {| er_sequence := er_sequence r; er_recordId := er_recordId r; er_entityType := er_entityType r; er_entityId := er_entityId r;
     er_action := er_action r; er_actor := er_actor r; er_reason := er_reason r; er_before := er_before r; er_after := er_after r;
     er_recordedAt := er_recordedAt r; er_previousHash := None; er_hash := "" |}.
Definition unhashed (b : EvidenceBundle) : EvidenceBundle :=
  {| eb_schemaVersion := eb_schemaVersion b; eb_bundleId := eb_bundleId b; eb_caseId := eb_caseId b; eb_generatedAt := eb_generatedAt b;
     eb_generatedBy := eb_generatedBy b; eb_pepperId := eb_pepperId b; eb_subject := eb_subject b; eb_chainHead := None;
     eb_sourceOk := eb_sourceOk b; eb_checkedEntries := eb_checkedEntries b; eb_failures := eb_failures b;
     eb_records := unhashed_record <$> eb_records b; eb_redactions := eb_redactions b; eb_digest := "" |}.

Lemma evidence_record_alike i e e' : alike_entry e e' →
  unhashed_record (evidence_record hmac i e).1 = unhashed_record (evidence_record hmac' i e').1 ∧
  (evidence_record hmac i e).2 = (evidence_record hmac' i e').2.
Proof.
  intros [H1 H2 H3 H4 H5 H6 H7 H8 H9 H10]. unfold EvidenceBundles.evidence_record.
  assert (actor_rule is_seed is_account (ar_actor e) = actor_rule is_seed is_account (ar_actor e') ∧
    replace hmac pepper (actor_rule is_seed is_account (ar_actor e)) (JStr (ar_actor e)) =
    replace hmac' pepper (actor_rule is_seed is_account (ar_actor e')) (JStr (ar_actor e'))) as [Ha Hr].
  { unfold actor_rule. rewrite <- !secret_text_rule in H7. destruct H7 as [[Ha Hb]|(Ha & Hb & Hd)].
    - rewrite !decide_True by done. split; [done|]. by apply replace_alike.
    - rewrite !decide_False by done. split; [done|]. by apply replace_alike. }
  rewrite (alike_scalars _ _ _ H6), (walk_alike _ _ _ H9), (walk_alike _ _ _ H10), Hr, Ha.
  destruct (scalar _ _ _ _ _ _) as [id r1], (walk _ _ _ _ (ar_before e') _) as [b r4], (walk _ _ _ _ (ar_after e') _) as [a r5].
  unfold unhashed_record. cbn. rewrite H1, H2, H3, H4, H5.
  destruct (truthy (ar_reason e)) as [s|], (truthy (ar_reason e')) as [s'|]; try done. cbn. by rewrite (replace_alike FreeText (JStr s) (JStr s')).
Qed.

(** C20: apart from the hashes it copies, a bundle does not depend on what it redacts.  Take two
    histories of the same shape that differ arbitrarily under names that contain one of the secret
    words, whatever their case, in texts that are seeds or web tokens, and in their hashes; and in
    values under names of personal data, comments, reasons and actors, as long as the keyed digests,
    of two functions that may be different, look the same.  Then the two exports, with the same
    options, end alike: both are refused with the same message, or give the same bundle but for the
    hashes of the entries, the chain head and the digest.  (The entry hashes are digests without a
    key of what was redacted: [hash_confirms_guess].) *)
Theorem bundle_hides entityType entityId entityId' h h' o :
  op_pepper o = pepper → alike (JStr entityId) (JStr entityId') → Forall2 alike_entry h h' →
  match buildEvidenceBundle hmac sha256 is_seed is_account entityType entityId h o,
        buildEvidenceBundle hmac' sha256 is_seed is_account entityType entityId' h' o with
  | Ok b, Ok b' => unhashed b = unhashed b'
  | Err e, Err e' => e = e'
  | _, _ => False
  end.
Proof.
  intros Hp Hid Hh. unfold buildEvidenceBundle, throw_if. rewrite Hp. destruct (String.length pepper <? MIN_PEPPER_LENGTH)%nat; [done|].
  destruct (bool_decide (op_caseId o = "")); [done|]. cbn [mbind result_bind].
  rewrite (alike_scalars "subject.entityId" _ _ Hid). destruct (scalar _ _ _ _ _ _) as [subject rs].
  assert (∀ f : nat → nat,
    unhashed_record <$> (fst <$> imap (λ i, evidence_record hmac (f i)) h) = unhashed_record <$> (fst <$> imap (λ i, evidence_record hmac' (f i)) h') ∧
    snd <$> imap (λ i, evidence_record hmac (f i)) h = snd <$> imap (λ i, evidence_record hmac' (f i)) h') as Heq.
  { induction Hh as [|e e' h h' He Hh IH]; intros f; [done|]. rewrite !imap_cons, !fmap_cons.
    destruct (IH (f ∘ S)) as [IH1 IH2]. destruct (evidence_record_alike (f 0%nat) e e' He) as [E1 E2]. split; by f_equal. }
  destruct (Heq id) as [E1 E2]. unfold unhashed. cbn -[imap]. f_equal; [exact E1|]. f_equal. f_equal. exact E2.
Qed.

End Hiding.

(** ** What is left is clean *)

Fixpoint string_values (j : json) : list string :=
  match j with
  | JStr s => [s]
  | JArr l => concat (map string_values l)
  | JObj l => concat (map (λ kv, string_values (snd kv)) l)
  | _ => []
  end.

Section Clean.
Context (hmac : string → string → string) (is_seed is_account : string → bool).
(** The keys of Stellar have 56 characters, and an HMAC-SHA256 is 64 hexadecimal digits. *)
Context (Hseed : ∀ s, is_seed s = true → String.length s = 56%nat) (Haccount : ∀ s, is_account s = true → String.length s = 56%nat)
  (Hhmac : ∀ k m, is_hex64 (hmac k m) = true).
Notation scalarRule := (scalarRule is_seed is_account).

Lemma plain_text s : String.length s ≠ 56%nat → JWT s = false → EMAIL s = false → scalarRule s = None.
Proof.
  intros Hl Hj He. unfold EvidenceBundles.scalarRule. rewrite Hj, He.
  destruct (is_seed s) eqn:E1; [by apply Hseed in E1|]. destruct (is_account s) eqn:E2; [by apply Haccount in E2|]. done.
Qed.

Lemma rule_text_plain r : scalarRule (rule_text r) = None.
Proof. by destruct r; apply plain_text. Qed.

Lemma hex_plain s : is_hex64 s = true → scalarRule s = None.
Proof.
  unfold is_hex64. intros [Hl%bool_decide_eq_true Hc]%andb_true_iff. apply plain_text; [by rewrite Hl| |].
  - unfold JWT. rewrite split_on_none; [done|]. eapply str_forall_impl; [|exact Hc]. intros c. by_ascii c.
  - unfold EMAIL. rewrite (split_on_none "@"); [by rewrite andb_false_r|]. eapply str_forall_impl; [|exact Hc]. intros c. by_ascii c.
Qed.

Lemma redacted_clean pepper r v : Forall (λ s, scalarRule s = None) (string_values (redacted_json (replace hmac pepper r v))).
Proof.
  unfold redacted_json, replace. cbn. case_decide; cbn; constructor; [apply rule_text_plain|constructor|apply rule_text_plain|].
  constructor; [apply hex_plain, Hhmac|constructor].
Qed.

Lemma forall_concat {B} (P : B → Prop) (ls : list (list B)) : (∀ l, l ∈ ls → Forall P l) → Forall P (concat ls).
Proof.
  induction ls as [|l ls IH]; intros H; cbn; [constructor|]. apply Forall_app. split; [apply H, list_elem_of_here|].
  apply IH. intros l' Hl'. apply H. by apply list_elem_of_further.
Qed.

(** No string value of a redacted record is a seed, a token, an e-mail address or an account. *)
Theorem walk_clean pepper v path :
  Forall (λ s, scalarRule s = None) (string_values (walk hmac is_seed is_account pepper v path).1).
Proof.
  revert path. induction v as [|b|t|s|l IH|l IH] using json_ind_nested; intros path; try constructor.
  - cbn. unfold scalar. destruct (scalarRule s) eqn:E; cbn [fst shown_json]; [apply redacted_clean|]. by repeat constructor.
  - cbn [walk fst string_values]. apply forall_concat. intros x Hx. apply list_elem_of_In, in_map_iff in Hx as (j & <- & Hj).
    apply list_elem_of_In, list_elem_of_fmap in Hj as ([j' rs] & -> & Hj). apply elem_of_lookup_imap in Hj as (i & f & Hf & Hin).
    apply list_elem_of_lookup_2, list_elem_of_In, in_map_iff in Hin as (x & <- & Hx). apply list_elem_of_In in Hx.
    rewrite Forall_forall in IH. specialize (IH x Hx (path +:+ "[" +:+ Z_to_string (Z.of_nat i) +:+ "]")). by rewrite <- Hf in IH.
  - cbn [walk]. unfold assemble. cbn [fst string_values]. apply forall_concat. intros x Hx.
    apply list_elem_of_In, in_map_iff in Hx as (kv & <- & Hkv). apply list_elem_of_In, list_elem_of_fmap in Hkv as (k & -> & _). cbn [snd].
    destruct (aget k _) as [[j rs]|] eqn:E; cbn; [|constructor]. apply aget_Some_elem, list_elem_of_In, in_map_iff in E as ([k' x] & [= -> E] & Hx).
    apply list_elem_of_In in Hx. unfold visit in E. cbn [fst snd] in E. destruct (key_rule k x).
    + injection E as <- _. apply redacted_clean.
    + rewrite Forall_forall in IH. specialize (IH (k, x) Hx (path +:+ "." +:+ k)). cbn in IH. by rewrite E in IH.
Qed.
End Clean.

(** ** Offline verification *)

Section Verify.
Context (hmac : string → string → string) (sha256 : string → string) (is_seed is_account : string → bool).
Notation evidence_record := (evidence_record hmac is_seed is_account).
Notation buildEvidenceBundle := (buildEvidenceBundle hmac sha256 is_seed is_account).

(** The clock did not go back between the entries. *)
Fixpoint forward (prev : option AuditRecord) (h : list AuditRecord) : Prop :=
  match h with
  | [] => True
  | e :: h => match prev with Some p => String.ltb (ar_recordedAt e) (ar_recordedAt p) = false | None => True end ∧ forward (Some e) h
  end.

(** What [evidence_record] copies. *)
Lemma evidence_copies pepper i e :
  let r := (evidence_record pepper i e).1 in
  er_sequence r = ar_sequence e ∧ er_hash r = ar_hash e ∧ er_previousHash r = ar_previousHash e ∧ er_recordedAt r = ar_recordedAt e.
Proof.
  cbv zeta. unfold EvidenceBundles.evidence_record.
  destruct (scalar _ _ _ _ _ _), (walk _ _ _ _ (ar_before e) _), (walk _ _ _ _ (ar_after e) _). done.
Qed.

Lemma links_hold pepper h : ∀ (f : nat → nat) i prev p seq,
  er_sequence p = ar_sequence prev ∧ er_hash p = ar_hash prev ∧ er_recordedAt p = ar_recordedAt prev →
  linked sha256 (Some (ar_hash prev)) seq h → seq = ar_sequence prev + 1 → forward (Some prev) h →
  link_problems i (Some p) (fst <$> imap (λ n, evidence_record pepper (f n)) h) = [].
Proof.
  induction h as [|e h IH]; intros f i prev p seq (Hs & Hh & Hr) Hl Hseq Hf; [done|]. destruct Hl as (H1 & H2 & _ & Hl). destruct Hf as [Hf1 Hf2].
  rewrite imap_cons, fmap_cons. cbn [link_problems]. destruct (evidence_copies pepper (f 0%nat) e) as (E1 & E2 & E3 & E4).
  rewrite E1, E3, E4, Hs, Hh, Hr, H1, Hf1, !bool_decide_eq_true_2 by (done || lia). cbn [app].
  apply (IH (f ∘ S) (i + 1) e _ (seq + 1)); [by rewrite E1, E2, E4|done|lia|done].
Qed.

Lemma chain_links pepper h : linked sha256 None 1 h → forward None h → link_problems 0 None (fst <$> imap (evidence_record pepper) h) = [].
Proof.
  destruct h as [|e h]; [done|]. intros (H1 & H2 & H3 & Hl) [_ Hf]. rewrite imap_cons, fmap_cons. cbn [link_problems].
  destruct (evidence_copies pepper 0 e) as (E1 & E2 & E3 & E4). rewrite E1, bool_decide_eq_true_2 by lia. cbn [app].
  apply (links_hold pepper h S (0 + 1) e _ (1 + 1)); [by rewrite E1, E2, E4|done|lia|done].
Qed.

Lemma last_hash pepper h : ∀ f : nat → nat, er_hash <$> last (fst <$> imap (λ n, evidence_record pepper (f n)) h) = ar_hash <$> last h.
Proof.
  induction h as [|e h IH]; intros f; [done|]. rewrite imap_cons, fmap_cons, !last_cons.
  specialize (IH (f ∘ S)). unfold compose in IH. destruct (last (fst <$> _)) as [r|] eqn:E1, (last h) as [x|] eqn:E2; try done.
  cbn. f_equal. apply (evidence_copies pepper (f 0%nat) e).
Qed.

Lemma bundle_digest_sealed b : bundleDigest sha256 (sealed sha256 b) = eb_digest (sealed sha256 b).
Proof. done. Qed.

Lemma built_verifies t i h o b :
  linked sha256 None 1 h → forward None h → vr_ok (op_source o) = true →
  buildEvidenceBundle t i h o = Ok b → verifyEvidenceBundle sha256 b = [].
Proof.
  intros Hl Hf Hs. unfold EvidenceBundles.buildEvidenceBundle. intros (? & _ & (? & _ & H)%bind_ok)%bind_ok.
  destruct (scalar _ _ _ _ _ _) as [subject rs]. injection H as <-. unfold verifyEvidenceBundle.
  rewrite bundle_digest_sealed, !bool_decide_eq_true_2 by done. cbn [sealed eb_schemaVersion eb_sourceOk eb_records eb_chainHead].
  rewrite Hs, (chain_links _ _ Hl Hf), bool_decide_eq_true_2; [done|]. apply (last_hash (op_pepper o) h id).
Qed.

(** What the service exports verifies offline.  For every history that was written to the audit
    trail, with a long enough pepper, a case and a clock that did not go back between the entries, the
    export succeeds, and the received bundle shows no problem to [verifyEvidenceBundle], which needs no
    secret. *)
Theorem bundle_verifies ops t i caseId by_ pepper pepperId uuid recordUuid now clock :
  (MIN_PEPPER_LENGTH ≤ String.length pepper)%nat → trim caseId ≠ "" →
  forward None (getEntityHistory (audit_run sha256 new_audit ops) t i) →
  ∃ b, (exportEvidenceBundle hmac sha256 is_seed is_account (audit_run sha256 new_audit ops) t i caseId by_ pepper pepperId uuid recordUuid now clock).2 = Ok b ∧
    verifyEvidenceBundle sha256 b = [].
Proof.
  intros Hp Hc Hf. set (st := audit_run sha256 new_audit ops) in *.
  assert (audit_ok sha256 st) as Hok by (apply audit_run_ok, new_audit_ok).
  assert (linked sha256 None 1 (getEntityHistory st t i)) as Hl.
  { unfold getEntityHistory. destruct (aget _ _) as [c|] eqn:E; [|done]. apply aget_Some_elem in E. destruct Hok as (_ & Hc' & _).
    rewrite Forall_forall in Hc'. by destruct (Hc' _ E). }
  pose proof (audit_ok_verifies sha256 st t i true Hok) as Hv. unfold exportEvidenceBundle.
  rewrite (proj2 (Nat.ltb_ge _ _) Hp). rewrite decide_False by done.
  destruct (EvidenceBundles.buildEvidenceBundle _ _ _ _ _ _ _ _) as [b|e] eqn:E; cbn [snd].
  - exists b. split; [done|]. eapply built_verifies; [exact Hl|exact Hf| |exact E]. exact Hv.
  - exfalso. unfold EvidenceBundles.buildEvidenceBundle in E. cbn [op_pepper op_caseId] in E. rewrite (proj2 (Nat.ltb_ge _ _) Hp) in E. cbn in E.
    rewrite bool_decide_eq_false_2 in E; [cbn in E; by destruct (scalar _ _ _ _ _ _)|]. by intros ->.
Qed.

(** *** A guess is confirmed by the bundle alone *)

(** The entry that a record of a bundle stands for, if nothing but the actor was redacted and the actor
    is [guess]. *)
Definition rebuilt (r : EvidenceRecord) (guess : string) : AuditRecord :=
  {| ar_sequence := er_sequence r; ar_recordId := er_recordId r; ar_entityType := er_entityType r;
     ar_entityId := match er_entityId r with Plain s => s | Hidden _ => "" end; ar_action := er_action r; ar_actor := guess;
     ar_reason := None; ar_before := er_before r; ar_after := er_after r; ar_recordedAt := er_recordedAt r;
     ar_previousHash := er_previousHash r; ar_hash := er_hash r |}.

(** Where only the actor of an entry was redacted, the unkeyed entry hash, which the bundle contains,
    tells whether a guess of the actor is right; no pepper is needed. *)
Theorem hash_confirms_guess pepper i e guess :
  let r := (evidence_record pepper i e).1 in
  ar_hash e = computeEntryHash sha256 e → ar_reason e = None → scalarRule is_seed is_account (ar_entityId e) = None →
  er_before r = ar_before e → er_after r = ar_after e → json_ok (entry_object e) = true →
  (guess = ar_actor e → computeEntryHash sha256 (rebuilt r guess) = er_hash r) ∧
  (computeEntryHash sha256 (rebuilt r guess) = er_hash r → collision sha256 ∨ guess = ar_actor e).
Proof.
  intros r Hh Hr Hid Hb Ha Hok.
  assert (entry_object (rebuilt r guess) = entry_object
    {| ar_sequence := ar_sequence e; ar_recordId := ar_recordId e; ar_entityType := ar_entityType e; ar_entityId := ar_entityId e;
       ar_action := ar_action e; ar_actor := guess; ar_reason := ar_reason e; ar_before := ar_before e; ar_after := ar_after e;
       ar_recordedAt := ar_recordedAt e; ar_previousHash := ar_previousHash e; ar_hash := ar_hash e |}) as Eo.
  { unfold entry_object, rebuilt. rewrite Hb, Ha, Hr. subst r. unfold EvidenceBundles.evidence_record, scalar. rewrite Hid.
    by destruct (walk _ _ _ _ (ar_before e) _), (walk _ _ _ _ (ar_after e) _). }
  assert (er_hash r = ar_hash e) as Eh by apply evidence_copies. unfold computeEntryHash in *. rewrite Eh, Hh, Eo. split.
  - by intros ->.
  - intros [H|H]%digest_eq; [by left|right]. apply stableStringify_exact in H; [|by unfold entry_object in *|done].
    assert (prop (canonicalize (entry_object e)) "actor" = Some (JStr (ar_actor e))) as E1 by by rewrite prop_canonicalize.
    rewrite <- H, prop_canonicalize in E1 by done.
    assert (∀ x, prop (entry_object x) "actor" = Some (JStr (ar_actor x))) as Hp by done. rewrite Hp in E1. by injection E1.
Qed.
End Verify.

(** ** Concrete runs *)

Definition toy_hmac (k m : string) : string := k +:+ m.
Definition toy_pepper : string := "0123456789abcdef0123456789abcdef".
Definition no_key (s : string) : bool := false.
Definition toy_account (s : string) : bool := bool_decide (s = "GALICE").
Definition toy_write (after : json) : audit_op :=
  ARecord {| aw_entityType := "bond"; aw_entityId := "7"; aw_action := "update"; aw_actor := "GALICE"; aw_reason := None; aw_before := None;
            aw_after := Some after |} "u" 0.
Definition toy_trail : AuditService :=
  audit_run (λ s, s) new_audit [toy_write (JObj [("apiKey", JStr "k1"); ("amount", jint 5)]); toy_write (JObj [("email", JStr "a@b.co")])].
Definition toy_options : BuildEvidenceOptions :=
  {| op_caseId := "case"; op_generatedBy := "support"; op_pepper := toy_pepper; op_pepperId := "v1";
     op_source := verifyEntity (λ s, s) toy_trail "bond" "7" true; op_now := 0; op_uuid := "b" |}.

Example toy_walk :
  (walk toy_hmac no_key toy_account toy_pepper (JObj [("owner", JStr "GALICE"); ("apiKey", JStr "k1"); ("amount", jint 5)]) "p").1 =
  JObj [("amount", jint 5); ("apiKey", JObj [("redacted", JStr "secret")]);
        ("owner", JObj [("redacted", JStr "account"); ("digest", JStr (toy_pepper +:+ JSON_stringify (JStr "GALICE")))])].
Proof. by vm_compute. Qed.

(** An account that is used as a key of an object stays readable, in the record and in the paths. *)
Lemma account_as_key_stays :
  walk toy_hmac no_key toy_account toy_pepper (JObj [("balances", JObj [("GALICE", jint 5)])]) "after" =
  (JObj [("balances", JObj [("GALICE", jint 5)])], []).
Proof. by vm_compute. Qed.

Definition toy_entry (secret email hash : string) : AuditRecord :=
  {| ar_sequence := 1; ar_recordId := "u"; ar_entityType := "bond"; ar_entityId := "7"; ar_action := "update"; ar_actor := "GALICE"; ar_reason := None;
     ar_before := JNull; ar_after := JObj [("apiKey", JStr secret); ("email", JStr email); ("amount", jint 5)]; ar_recordedAt := "t";
     ar_previousHash := None; ar_hash := hash |}.
(** The same digests, but for two addresses whose digests are exchanged. *)
Definition other_hmac (k m : string) : string :=
  if bool_decide (m = JSON_stringify (JStr "z@y.co")) then toy_hmac k (JSON_stringify (JStr "a@b.co")) else toy_hmac k m.

Lemma bundle_hides_witness :
  match buildEvidenceBundle toy_hmac (λ s, s) no_key toy_account "bond" "7" [toy_entry "k1" "a@b.co" "h1"] toy_options,
        buildEvidenceBundle other_hmac (λ s, s) no_key toy_account "bond" "7" [toy_entry "another" "z@y.co" "h2"] toy_options with
  | Ok b, Ok b' => unhashed b = unhashed b'
  | Err e, Err e' => e = e'
  | _, _ => False
  end.
Proof.
  apply (bundle_hides (λ s, s) no_key toy_account toy_hmac other_hmac toy_pepper); [done|by apply alike_text; vm_compute|].
  constructor; [|constructor].
  assert (∀ s, ¬ secret_text no_key s ∨ JWT s = true) as Hn.
  { intros s. destruct (JWT s) eqn:E; [by right|left]. intros [?|H%JWT_spec]; [done|congruence]. }
  split; try done; [by apply alike_text; vm_compute| |by apply alike_scalar|].
  - right. destruct (Hn "GALICE"); [by split_and!; [..|vm_compute]|done].
  - apply alike_obj. constructor; [|constructor; [|constructor; [|constructor]]]; (split; [done|]).
    + apply at_secret. by apply SECRET_KEY_spec; vm_compute.
    + apply at_personal; [by apply PII_KEY_spec; vm_compute|by vm_compute].
    + apply at_other; [by rewrite <- PII_KEY_spec; vm_compute|by rewrite <- FREE_TEXT_KEY_spec; vm_compute|by apply alike_scalar].
Defined.

Lemma bundle_verifies_witness :
  ∃ b, (exportEvidenceBundle toy_hmac (λ s, s) no_key toy_account toy_trail "bond" "7" "case" "support" toy_pepper "v1" "b" "r" 0 0).2 = Ok b ∧
    verifyEvidenceBundle (λ s, s) b = [].
Proof.
  apply (bundle_verifies toy_hmac (λ s, s) no_key toy_account
    [toy_write (JObj [("apiKey", JStr "k1"); ("amount", jint 5)]); toy_write (JObj [("email", JStr "a@b.co")])]).
  - vm_compute. lia.
  - vm_compute. discriminate.
  - vm_compute. repeat split.
Defined.
