(* ===== verification/Auth.v ===== *)
(** * Logging in with a Stellar key

    Models [api/src/auth/auth.service.ts] (challenges, the verification of a signed challenge, tokens and their
    refresh, profiles), [api/src/auth/rbac.ts] and [api/src/auth/rbac.service.ts] (roles and permissions),
    and [api/src/auth/jwt.strategy.ts].

    The Stellar SDK is an argument: building a challenge transaction, reading one back, deriving the
    public key of a secret and checking a signature.  So are the signing and checking of JSON web tokens
    ([sign], [verify_token]).  Redis keeps one challenge per address; a key may lapse at any
    time, a write may be lost (the wrapper ignores that), and [getDel] takes a key
    atomically or throws.  A stored text that does not parse is [None].

    Shown: a login needs a challenge of its own ([login_needs_challenge]): there are never more logins of an address
    than challenges stored for it, and each one presents the very challenge that was issued last, not older than five minutes, that
    nobody has tried since, signed by the server and by the owner of the address.
    Permissions are those of the roles ([permissions_exact]).  Where the code falls short: a refresh copies the
    KYC status of the old token ([refresh_keeps_kyc]), and anyone can use up the challenge of
    another ([anyone_burns_challenge]). *)
From S2P Require Import Prelude.

(** ** Roles *)

Inductive Role := MAINTAINER | ISSUER | INVESTOR | SETTLEMENT_MANAGER.
Inductive Permission :=
| CREATE_BOND | DISTRIBUTE_COUPON | MATURE_BOND | SUBSCRIBE_BOND | CLAIM_CREDITS | TRANSFER_BOND | RECONCILE_HOLDERS
| REINDEX_HOLDERS | SWEEP_UNDISTRIBUTED | EXPORT_BOND | APPROVE_INVESTOR | REGISTER_PROVIDER | MANAGE_INCIDENTS
| APPROVE_PROJECT | REJECT_PROJECT.
#[export] Instance Role_eq_dec : EqDecision Role.
Proof. solve_decision. Defined.
#[export] Instance Permission_eq_dec : EqDecision Permission.
Proof. solve_decision. Defined.

(** [Object.values(Permission)]. *)
Definition all_permissions : list Permission :=
  [ CREATE_BOND; DISTRIBUTE_COUPON; MATURE_BOND; SUBSCRIBE_BOND; CLAIM_CREDITS; TRANSFER_BOND; RECONCILE_HOLDERS; REINDEX_HOLDERS;
    SWEEP_UNDISTRIBUTED; EXPORT_BOND; APPROVE_INVESTOR; REGISTER_PROVIDER; MANAGE_INCIDENTS; APPROVE_PROJECT; REJECT_PROJECT ].

Definition RolePermissions (r : Role) : list Permission :=
  match r with
  | MAINTAINER => all_permissions
  | ISSUER => [CREATE_BOND; DISTRIBUTE_COUPON; MATURE_BOND; EXPORT_BOND; APPROVE_PROJECT; REJECT_PROJECT]
  | INVESTOR => [SUBSCRIBE_BOND; CLAIM_CREDITS; TRANSFER_BOND]
  | SETTLEMENT_MANAGER => [RECONCILE_HOLDERS; REINDEX_HOLDERS; SWEEP_UNDISTRIBUTED; REGISTER_PROVIDER; MANAGE_INCIDENTS]
  end.

(** The environment variables that name addresses; empty texts count as absent. *)
Record rbac_env := { adminKey : string; issuerKeys : string; settlementKeys : string }.

Definition listed (keys address : string) : bool := bool_decide (address ∈ filter (λ k, k ≠ "") (split_on "," keys)).

Definition getUserRoles (v : rbac_env) (address : string) : list Role :=
  (if negb (bool_decide (adminKey v = "")) && bool_decide (address = adminKey v) then [MAINTAINER] else []) ++
  (if listed (issuerKeys v) address then [ISSUER] else []) ++
  (if listed (settlementKeys v) address then [SETTLEMENT_MANAGER] else []) ++
  [INVESTOR].

(** [perms.add]. *)
Definition add_permission (l : list Permission) (p : Permission) : list Permission := if decide (p ∈ l) then l else l ++ [p].

Definition getUserPermissions (v : rbac_env) (address : string) : list Permission :=
  foldl (λ l r, foldl add_permission l (RolePermissions r)) [] (getUserRoles v address).

(** ** Challenges and tokens *)

Definition CHALLENGE_TTL_SECONDS : Z := 300.

Record StoredChallenge := { sc_challenge : string; sc_nonce : string; sc_address : string; sc_timestamp : Z; sc_audience : string }.

(** What is read from a transaction envelope. *)
Record transaction := {
  tx_hash : string;
  tx_source : string;
  tx_operations : list (option string);  (* the source of each operation *)
  tx_signatures : list string;
  tx_feeBump : bool;
}.

Record VerifySignatureDto := { vd_address : string; vd_signedChallenge : string; vd_originalChallenge : string }.

Record token_payload := {
  tp_sub : string;
  tp_kycStatus : string;
  tp_roles : list Role;
  tp_permissions : list Permission;
  tp_tokenType : option string;
}.

Record AuthTokenResponse := { at_accessToken : string; at_refreshToken : option string; at_expiresIn : string; at_refreshExpiresIn : option string }.

Record AuthenticatedUser := { au_walletAddress : string; au_kycStatus : string; au_roles : list Role; au_permissions : list Permission }.

Definition validate (p : token_payload) : AuthenticatedUser :=
  {| au_walletAddress := tp_sub p; au_kycStatus := tp_kycStatus p; au_roles := tp_roles p; au_permissions := tp_permissions p |}.

Record auth_config := {
  jwtSecret : string;
  refreshTokenSecret : string;
  accessTokenExpiry : string;
  refreshTokenExpiry : string;
  serverSecretKey : option string;
  audience : string;
  rbac : rbac_env;
}.

(** Redis: the challenge of each address. *)
Definition store := list (string * option StoredChallenge).

Section Auth.
Context (isValidPublicKey : string → bool) (public_of : string → option string).
Context (build_challenge : string → string → string → Z → string) (fromXDR : string → option transaction).
Context (valid_signature : string → string → string → bool).
Context (sign : string → token_payload → string → string) (verify_token : string → string → option token_payload).
Context (cf : auth_config).

Definition generateChallenge (st : store) (address nonce : string) (timestamp : Z) (written : bool) : store * result string (string * string) :=
  if negb (isValidPublicKey address) then (st, Err "Invalid Stellar address")
  else match serverSecretKey cf with
       | None => (st, Err "Missing Stellar authentication signing key")
       | Some key =>
           match public_of key with
           | None => (st, Err "Invalid Stellar authentication signing key")
           | Some server =>
               let challenge := build_challenge server address nonce timestamp in
               let stored := {| sc_challenge := challenge; sc_nonce := nonce; sc_address := address; sc_timestamp := timestamp;
                                sc_audience := audience cf |} in
               (if written then aput address (Some stored) st else st, Ok (challenge, nonce))
           end
       end.

(** [hasSignature]: one of the signatures was made with the key. *)
Definition hasSignature (t : transaction) (key : string) : bool := existsb (λ s, valid_signature key (tx_hash t) s) (tx_signatures t).

(** The checks of the two transactions; any exception in them is an invalid signature. *)
Definition transaction_ok (server : string) (dto : VerifySignatureDto) : bool :=
  match fromXDR (vd_originalChallenge dto), fromXDR (vd_signedChallenge dto) with
  | Some original, Some signed =>
      negb (tx_feeBump signed) && bool_decide (tx_hash original = tx_hash signed) && bool_decide (tx_source signed = server) &&
      bool_decide (tx_operations signed = [Some (vd_address dto)]) && hasSignature signed server && hasSignature signed (vd_address dto)
  | _, _ => false
  end.

Definition check_challenge (raw : option StoredChallenge) (dto : VerifySignatureDto) (now : Z) : result string unit :=
  match raw with
  | None => Err "Challenge record is malformed. Please request a fresh challenge."
  | Some stored =>
      _ ← throw_if (negb (bool_decide (sc_address stored = vd_address dto)))
            "Challenge was not issued for this address. Please request a fresh challenge.";
      _ ← throw_if (negb (bool_decide (sc_challenge stored = vd_originalChallenge dto)))
            "Challenge content does not match issued challenge. Please request a fresh challenge.";
      _ ← throw_if (sc_timestamp stored <? now - CHALLENGE_TTL_SECONDS * 1000) "Challenge has expired. Please request a fresh challenge.";
      match serverSecretKey cf with
      | None => Err "Missing Stellar authentication signing key"
      | Some key =>
          match public_of key with
          | Some server => throw_if (negb (transaction_ok server dto)) "Invalid signature"
          | None => Err "Invalid signature"
          end
      end
  end.

Definition payload_for (address kycStatus : string) : token_payload :=
  {| tp_sub := address; tp_kycStatus := kycStatus; tp_roles := getUserRoles (rbac cf) address;
     tp_permissions := getUserPermissions (rbac cf) address; tp_tokenType := None |}.

Definition as_refresh (p : token_payload) : token_payload :=
  {| tp_sub := tp_sub p; tp_kycStatus := tp_kycStatus p; tp_roles := tp_roles p; tp_permissions := tp_permissions p;
     tp_tokenType := Some "refresh" |}.

Definition issue_tokens (p : token_payload) : AuthTokenResponse :=
  {| at_accessToken := sign (jwtSecret cf) p (accessTokenExpiry cf);
     at_refreshToken := Some (sign (refreshTokenSecret cf) (as_refresh p) (refreshTokenExpiry cf));
     at_expiresIn := accessTokenExpiry cf; at_refreshExpiresIn := Some (refreshTokenExpiry cf) |}.

(** [kyc] is the answer of the KYC service; [reachable] whether [getDel] works. *)
Definition verifySignature (st : store) (dto : VerifySignatureDto) (now : Z) (kyc : string → string) (reachable : bool) :
    store * result string AuthTokenResponse :=
  if negb reachable then (st, Err "Challenge consumption is unavailable")
  else match aget (vd_address dto) st with
       | None => (st, Err "Challenge not found, expired, or already consumed. Please request a fresh challenge.")
       | Some raw =>
           let st' := adel (vd_address dto) st in
           match check_challenge raw dto now with
           | Err e => (st', Err e)
           | Ok _ => (st', Ok (issue_tokens (payload_for (vd_address dto) (kyc (vd_address dto)))))
           end
       end.

Definition refreshToken (token : string) : result string AuthTokenResponse :=
  match verify_token (refreshTokenSecret cf) token with
  | Some p =>
      if decide (tp_tokenType p = Some "refresh") then
        Ok {| at_accessToken := sign (jwtSecret cf) (payload_for (tp_sub p) (tp_kycStatus p)) (accessTokenExpiry cf);
              at_refreshToken := None; at_expiresIn := accessTokenExpiry cf; at_refreshExpiresIn := None |}
      else Err "Invalid or expired token"
  | None => Err "Invalid or expired token"
  end.

Definition getProfile (userId : string) (kyc : string → string) : AuthenticatedUser :=
  {| au_walletAddress := userId; au_kycStatus := kyc userId; au_roles := getUserRoles (rbac cf) userId;
     au_permissions := getUserPermissions (rbac cf) userId |}.

(** ** Histories *)

Inductive call :=
| Ask (address nonce : string) (timestamp : Z) (written : bool)
| Login (dto : VerifySignatureDto) (now : Z) (kyc : string → string) (reachable : bool)
| Lapse (address : string).

Definition step (st : store) (o : call) : store :=
  match o with
  | Ask a n t w => (generateChallenge st a n t w).1
  | Login dto now kyc r => (verifySignature st dto now kyc r).1
  | Lapse a => adel a st
  end.
Definition run (os : list call) : store := foldl step [] os.

(** A challenge that was stored, and a login that was granted. *)
Definition asks (a : string) (o : call) : bool :=
  match o with
  | Ask a' n t w => bool_decide (a' = a) && w && match (generateChallenge [] a' n t w).2 with Ok _ => true | Err _ => false end
  | _ => false
  end.
Definition tries (a : string) (o : call) : bool := match o with Login dto _ _ r => bool_decide (vd_address dto = a) && r | _ => false end.

(** The number of logins of an address that were granted along a history. *)
Fixpoint logins (a : string) (st : store) (os : list call) : nat :=
  match os with
  | [] => 0
  | o :: os =>
      match o with
      | Login dto now kyc r =>
          if decide (vd_address dto = a) then match (verifySignature st dto now kyc r).2 with Ok _ => 1 | Err _ => 0 end else 0
      | _ => 0
      end + logins a (step st o) os
  end%nat.
Definition asked (a : string) (os : list call) : nat := length (filter (λ o, asks a o = true) os).

(** ** Lemmas *)

Lemma generate_cases st a n t w :
  (asks a (Ask a n t w) = false ∧ (generateChallenge st a n t w).1 = st) ∨
  (asks a (Ask a n t w) = true ∧ w = true ∧ ∃ server key, serverSecretKey cf = Some key ∧ public_of key = Some server ∧
   (generateChallenge st a n t w).1 = aput a (Some {| sc_challenge := build_challenge server a n t; sc_nonce := n; sc_address := a;
     sc_timestamp := t; sc_audience := audience cf |}) st).
Proof.
  unfold asks, generateChallenge. rewrite bool_decide_eq_true_2 by done. destruct (isValidPublicKey a), w; cbn [negb andb]; try by left.
  all: destruct (serverSecretKey cf) as [key|]; [|by left]; destruct (public_of key) as [server|] eqn:E; [|by left].
  - right. split_and!; [done..|]. by exists server, key.
  - by left.
Qed.

Lemma asks_other a a' n t w : a' ≠ a → asks a (Ask a' n t w) = false.
Proof. intros H. unfold asks. by rewrite bool_decide_eq_false_2. Qed.

Lemma login_store st dto now kyc r :
  (verifySignature st dto now kyc r).1 = if r then match aget (vd_address dto) st with Some _ => adel (vd_address dto) st | None => st end else st.
Proof. unfold verifySignature. destruct r; [|done]. cbn. destruct (aget _ _); [|done]. by destruct (check_challenge _ _ _). Qed.

Lemma step_keys st o : NoDup st.*1 → NoDup (step st o).*1.
Proof.
  intros Hn. destruct o as [a n t w|dto now kyc r|a]; cbn [step].
  - destruct (generate_cases st a n t w) as [[_ ->]|(_ & _ & server & key & _ & _ & ->)]; [done|]. by apply aput_keys_NoDup.
  - rewrite login_store. destruct r; [|done]. destruct (aget _ _); [|done]. by apply adel_keys_NoDup.
  - by apply adel_keys_NoDup.
Qed.

Lemma run_keys os : NoDup (run os).*1.
Proof.
  unfold run. assert (NoDup ([] : store).*1) as H by constructor. revert H. generalize ([] : store) as st.
  induction os as [|o os IH]; intros st Hst; [done|]. cbn. apply IH. by apply step_keys.
Qed.

(** What one call does to the challenge of an address. *)
Lemma step_get st o a raw :
  NoDup st.*1 → aget a (step st o) = Some raw →
  (asks a o = false ∧ tries a o = false ∧ aget a st = Some raw) ∨
  (asks a o = true ∧ ∃ n t server key, o = Ask a n t true ∧ serverSecretKey cf = Some key ∧ public_of key = Some server ∧
    raw = Some {| sc_challenge := build_challenge server a n t; sc_nonce := n; sc_address := a; sc_timestamp := t; sc_audience := audience cf |}).
Proof.
  intros Hn. destruct o as [a' n t w|dto now kyc r|a']; cbn [step].
  - destruct (generate_cases st a' n t w) as [[Ha ->]|(Ha & -> & server & key & Hk & Hp & ->)].
    + intros H. left. split_and!; [|done..]. destruct (decide (a' = a)) as [->|]; [done|by apply asks_other].
    + rewrite aget_aput. case_decide as E; [subst a'|].
      * intros [= <-]. right. split; [done|]. by exists n, t, server, key.
      * intros H. left. split_and!; [by apply asks_other|done..].
  - rewrite login_store. unfold tries. destruct r; [|rewrite andb_false_r; by left].
    destruct (aget (vd_address dto) st) eqn:E.
    + rewrite aget_adel by done. case_decide as Ed; [done|]. rewrite bool_decide_eq_false_2 by done. by left.
    + intros H. rewrite bool_decide_eq_false_2 by (intros <-; congruence). by left.
  - rewrite aget_adel by done. case_decide; [done|]. by left.
Qed.

(** The challenge of an address is the one stored last, and nobody has tried it since. *)
Lemma stored_since os a raw :
  aget a (run os) = Some raw →
  ∃ os1 n t os2 server key c, os = os1 ++ Ask a n t true :: os2 ∧ Forall (λ o, asks a o = false ∧ tries a o = false) os2 ∧
    raw = Some c ∧ serverSecretKey cf = Some key ∧ public_of key = Some server ∧
    sc_challenge c = build_challenge server a n t ∧ sc_timestamp c = t.
Proof.
  revert raw. induction os as [|o os IH] using rev_ind; intros raw; [done|]. unfold run. rewrite foldl_app. cbn. fold (run os).
  intros [(H1 & H2 & H3)|(_ & n & t & server & key & -> & Hk & Hp & ->)]%step_get; [| |apply run_keys].
  - destruct (IH raw H3) as (os1 & n & t & os2 & server & key & c & -> & Hf & Hrest).
    exists os1, n, t, (os2 ++ [o]), server, key, c. split; [by rewrite <- app_assoc|]. split; [|exact Hrest].
    apply Forall_app. split; [done|]. by repeat constructor.
  - exists os, n, t, [], server, key. eexists. by split_and!.
Qed.

Lemma check_challenge_ok raw dto now u :
  check_challenge raw dto now = Ok u →
  ∃ c server key, raw = Some c ∧ serverSecretKey cf = Some key ∧ public_of key = Some server ∧ sc_address c = vd_address dto ∧
    sc_challenge c = vd_originalChallenge dto ∧ now - CHALLENGE_TTL_SECONDS * 1000 ≤ sc_timestamp c ∧ transaction_ok server dto = true.
Proof.
  unfold check_challenge. destruct raw as [c|]; [|done].
  intros (? & H1%throw_if_ok & (? & H2%throw_if_ok & (? & H3%throw_if_ok & H)%bind_ok)%bind_ok)%bind_ok.
  destruct (serverSecretKey cf) as [key|]; [|done]. destruct (public_of key) as [server|] eqn:E; [|done]. apply throw_if_ok in H.
  apply negb_false_iff, bool_decide_eq_true in H1, H2. apply negb_false_iff in H. apply Z.ltb_ge in H3. exists c, server, key. by split_and!.
Qed.

(** The transaction carries the signatures of the server and of the owner of the address over the hash of the challenge. *)
Definition signed_by_both (server : string) (dto : VerifySignatureDto) : Prop :=
  ∃ original signed s1 s2, fromXDR (vd_originalChallenge dto) = Some original ∧ fromXDR (vd_signedChallenge dto) = Some signed ∧
    s1 ∈ tx_signatures signed ∧ s2 ∈ tx_signatures signed ∧
    valid_signature server (tx_hash original) s1 = true ∧ valid_signature (vd_address dto) (tx_hash original) s2 = true.

Lemma transaction_ok_signed server dto : transaction_ok server dto = true → signed_by_both server dto.
Proof.
  unfold transaction_ok, signed_by_both, hasSignature. destruct (fromXDR (vd_originalChallenge dto)) as [o|]; [|done].
  destruct (fromXDR (vd_signedChallenge dto)) as [t|]; [|done]. rewrite !andb_true_iff, !existsb_exists.
  intros [[[[[_ Hh%bool_decide_eq_true] _] _] (s1 & H1 & V1)] (s2 & H2 & V2)]. exists o, t, s1, s2. rewrite Hh, !list_elem_of_In. by split_and!.
Qed.

Lemma logins_bounded a st os : NoDup st.*1 →
  (logins a st os ≤ asked a os + (if aget a st then 1 else 0))%nat.
Proof.
  revert st. induction os as [|o os IH]; intros st Hn; cbn [logins]; [lia|]. specialize (IH (step st o) (step_keys st o Hn)).
  assert (asked a (o :: os) = (if asks a o then 1 else 0) + asked a os)%nat as ->.
  { unfold asked. rewrite filter_cons. destruct (asks a o) eqn:E; [by rewrite decide_True|by rewrite decide_False by congruence]. }
  revert IH. destruct (aget a (step st o)) as [raw|] eqn:E; intros IH.
  - apply step_get in E as [(H1 & H2 & H3)|(H1 & n & t & server & key & -> & _)]; [| |done].
    + rewrite H1, H3. destruct o as [| |]; [lia| |lia]. case_decide as Ed; [|lia]. unfold tries in H2. rewrite bool_decide_eq_true_2 in H2 by done.
      cbn in H2. subst. cbn in IH |- *. lia.
    + rewrite H1. cbn -[step asked logins] in *. destruct (aget a st); lia.
  - destruct o as [a' n t w|dto now kyc r|a']; [lia| |lia]. case_decide as Ed; [|lia].
    assert (match (verifySignature st dto now kyc r).2 with Ok _ => 1 | Err _ => 0 end ≤ if aget a st then 1 else 0)%nat; [|lia].
    unfold verifySignature. destruct r; cbn [negb snd]; [|lia]. rewrite Ed. destruct (aget a st); cbn [snd]; [|lia].
    destruct (check_challenge _ _ _); cbn [snd]; lia.
Qed.

(** C16: A login needs a challenge of its own.  In every history of requests, logins and expiries of keys, an address
    logs in at most as often as a challenge was stored for it; and a login that is granted presents the challenge that was
    stored last for the address, at most five minutes old, which nobody has tried since it was stored, in a transaction that
    carries the signatures of the server and of the address over the hash of that challenge. *)
Theorem login_needs_challenge os dto now kyc reachable r :
  (verifySignature (run os) dto now kyc reachable).2 = Ok r →
  (logins (vd_address dto) [] (os ++ [Login dto now kyc reachable]) ≤ asked (vd_address dto) os)%nat ∧
  ∃ os1 n t os2 server key, os = os1 ++ Ask (vd_address dto) n t true :: os2 ∧
    Forall (λ o, asks (vd_address dto) o = false ∧ tries (vd_address dto) o = false) os2 ∧
    serverSecretKey cf = Some key ∧ public_of key = Some server ∧ vd_originalChallenge dto = build_challenge server (vd_address dto) n t ∧
    now - 300000 ≤ t ∧ signed_by_both server dto.
Proof.
  intros H. split.
  - pose proof (logins_bounded (vd_address dto) [] (os ++ [Login dto now kyc reachable]) ltac:(constructor)) as Hb. cbn in Hb.
    unfold asked in *. rewrite filter_app in Hb. cbn in Hb. rewrite app_nil_r in Hb. lia.
  - unfold verifySignature in H. destruct reachable; [|done]. cbn in H. destruct (aget _ _) as [raw|] eqn:E; [|done].
    destruct (check_challenge raw dto now) as [u|] eqn:Ec; [|done].
    apply check_challenge_ok in Ec as (c & server & key & -> & Hk & Hp & _ & Hc & Ht & Htx).
    destruct (stored_since _ _ _ E) as (os1 & n & t & os2 & server' & key' & c' & -> & Hf & [= <-] & Hk' & Hp' & Hc' & Ht').
    assert (key' = key) as -> by congruence. assert (server' = server) as -> by congruence.
    exists os1, n, t, os2, server, key. split_and!; try done; [congruence|unfold CHALLENGE_TTL_SECONDS in Ht; lia|by apply transaction_ok_signed].
Qed.

End Auth.

(** ** Permissions *)

Lemma elem_add_permission l p q : q ∈ add_permission l p ↔ q ∈ l ∨ q = p.
Proof. unfold add_permission. case_decide; [naive_solver|]. rewrite elem_of_app, list_elem_of_singleton. done. Qed.

Lemma elem_add_all ps : ∀ l q, q ∈ foldl add_permission l ps ↔ q ∈ l ∨ q ∈ ps.
Proof.
  induction ps as [|p ps IH]; intros l q; cbn; [rewrite elem_of_nil; tauto|]. rewrite IH, elem_add_permission, elem_of_cons. tauto.
Qed.

(** An address has exactly the permissions of its roles, each once. *)
Theorem permissions_exact v a p : p ∈ getUserPermissions v a ↔ ∃ r, r ∈ getUserRoles v a ∧ p ∈ RolePermissions r.
Proof.
  unfold getUserPermissions. generalize (getUserRoles v a) as rs. intros rs.
  assert (∀ l, p ∈ foldl (λ l r, foldl add_permission l (RolePermissions r)) l rs ↔ p ∈ l ∨ ∃ r, r ∈ rs ∧ p ∈ RolePermissions r) as H.
  { induction rs as [|r rs IH]; intros l; cbn.
    - split; [by left|]. intros [H|(r & Hr & _)]; [done|by apply elem_of_nil in Hr].
    - rewrite IH, elem_add_all. setoid_rewrite elem_of_cons. naive_solver. }
  rewrite H, elem_of_nil. tauto.
Qed.

(** ** Concrete runs *)

Definition toy_rbac : rbac_env := {| adminKey := "GADMIN"; issuerKeys := "GI1,,GI2"; settlementKeys := "" |}.
Definition toy_config : auth_config :=
  {| jwtSecret := "a"; refreshTokenSecret := "r"; accessTokenExpiry := "15m"; refreshTokenExpiry := "7d"; serverSecretKey := Some "SSERVER";
     audience := "verdant-bond-protocol"; rbac := toy_rbac |}.
(** A signature is the key and the hash; the signed text of a challenge lists its signers. *)
Definition toy_public (s : string) : option string := if decide (s = "SSERVER") then Some "GSERVER" else None.
Definition toy_challenge (server address nonce : string) (t : Z) : string := server +:+ "/" +:+ address +:+ "/" +:+ nonce +:+ "/" +:+ Z_to_string t.
Definition toy_xdr (s : string) : option transaction :=
  match split_on "/" s with
  | server :: address :: nonce :: t :: signers =>
      let h := server +:+ "/" +:+ address +:+ "/" +:+ nonce +:+ "/" +:+ t in
      Some {| tx_hash := h; tx_source := server; tx_operations := [Some address]; tx_signatures := (λ k, k +:+ "|" +:+ h) <$> signers; tx_feeBump := false |}
  | _ => None
  end.
Definition toy_valid (key hash sig : string) : bool := bool_decide (sig = key +:+ "|" +:+ hash).
Definition toy_sign (secret : string) (p : token_payload) (expiry : string) : string :=
  secret +:+ "." +:+ tp_sub p +:+ "." +:+ tp_kycStatus p.
Definition toy_kyc (a : string) : string := "verified".
Notation toy_login := (verifySignature toy_public toy_xdr toy_valid toy_sign toy_config).
Notation toy_run := (run (λ _, true) toy_public toy_challenge toy_xdr toy_valid toy_sign toy_config).
Definition asked_once : list call := [Ask "GI1" "n1" 1000 true].
Definition good_dto : VerifySignatureDto :=
  {| vd_address := "GI1"; vd_signedChallenge := "GSERVER/GI1/n1/1000/GSERVER/GI1"; vd_originalChallenge := "GSERVER/GI1/n1/1000" |}.

Example login_works : ∃ r, (toy_login (toy_run asked_once) good_dto 2000 toy_kyc true).2 = Ok r ∧ at_accessToken r = "a.GI1.verified".
Proof. eexists. by vm_compute. Qed.
Example login_twice_refused :
  (toy_login (toy_run (asked_once ++ [Login good_dto 2000 toy_kyc true])) good_dto 2001 toy_kyc true).2 =
  Err "Challenge not found, expired, or already consumed. Please request a fresh challenge.".
Proof. by vm_compute. Qed.
Example issuer_permissions : getUserRoles toy_rbac "GI2" = [ISSUER; INVESTOR] ∧ length (getUserPermissions toy_rbac "GADMIN") = 15%nat.
Proof. by vm_compute. Qed.

Lemma login_needs_challenge_witness :
  ∃ os1 n t os2 server key, asked_once = os1 ++ Ask "GI1" n t true :: os2 ∧
    Forall (λ o, asks (λ _, true) toy_public toy_challenge toy_config "GI1" o = false ∧ tries "GI1" o = false) os2 ∧
    serverSecretKey toy_config = Some key ∧ toy_public key = Some server ∧ vd_originalChallenge good_dto = toy_challenge server "GI1" n t ∧
    2000 - 300000 ≤ t ∧ signed_by_both toy_xdr toy_valid server good_dto.
Proof.
  destruct (login_needs_challenge (λ _, true) toy_public toy_challenge toy_xdr toy_valid toy_sign toy_config asked_once good_dto 2000 toy_kyc true
    {| at_accessToken := "a.GI1.verified"; at_refreshToken := Some "r.GI1.verified"; at_expiresIn := "15m"; at_refreshExpiresIn := Some "7d" |})
    as [_ H]; [vm_compute; reflexivity|exact H].
Defined.

(** The KYC status of a refreshed token is the one of the old token, whatever the KYC service says now. *)
Lemma refresh_keeps_kyc sign verify_token cf token p :
  verify_token (refreshTokenSecret cf) token = Some p → tp_tokenType p = Some "refresh" →
  refreshToken sign verify_token cf token =
  Ok {| at_accessToken := sign (jwtSecret cf) (payload_for cf (tp_sub p) (tp_kycStatus p)) (accessTokenExpiry cf);
        at_refreshToken := None; at_expiresIn := accessTokenExpiry cf; at_refreshExpiresIn := None |}.
Proof. intros H1 H2. unfold refreshToken. by rewrite H1, decide_True. Qed.

(** A login with any text uses up the challenge of the address it names. *)
Lemma anyone_burns_challenge :
  let bad := {| vd_address := "GI1"; vd_signedChallenge := "x"; vd_originalChallenge := "x" |} in
  toy_run (asked_once ++ [Login bad 1500 toy_kyc true]) = [] ∧
  (toy_login (toy_run (asked_once ++ [Login bad 1500 toy_kyc true])) good_dto 2000 toy_kyc true).2 =
  Err "Challenge not found, expired, or already consumed. Please request a fresh challenge.".
Proof. by vm_compute. Qed.
