(* ===== verification/Notifications.v ===== *)
(** * Notifications

    Models [api/src/notifications/notifications.service.ts]: preferences and their history, the decision whether an
    event is delivered to a user, inboxes and read receipts, and the restart from Postgres.

    The rows of the database are part of the state; a write of a decision or of the history may fail, which the code
    logs and ignores, and the statements that create tables are left out.  Clock readings and random ids are arguments.

    Shown: every pair of a user and an event is decided once, and the inbox holds exactly the decided
    deliveries, each once, whatever is read, redelivered or changed in between ([notified_once]); a mandatory notification is delivered
    whatever the preferences say, an optional one as they say when it arrives ([delivery_exact]).  Where the code falls
    short: inboxes are not restored, but decisions are, so that a redelivery after a restart does not bring
    a lost mandatory notification back ([restart_loses_inbox]); the routing table answers to inherited names
    ([inherited_type_suppressed]). *)
From S2P Require Import Prelude JsDate Json.

Inductive NotificationCategory := bond_updates | coupon_updates | project_reports | compliance | security | settlement_failure.
#[export] Instance NotificationCategory_eq_dec : EqDecision NotificationCategory.
Proof. solve_decision. Defined.

Definition OPTIONAL_NOTIFICATION_CATEGORIES : list string := ["bond_updates"; "coupon_updates"; "project_reports"].
Definition MANDATORY_NOTIFICATION_CATEGORIES : list string := ["compliance"; "security"; "settlement_failure"].
Definition category_text (c : NotificationCategory) : string :=
  match c with
  | bond_updates => "bond_updates" | coupon_updates => "coupon_updates" | project_reports => "project_reports"
  | compliance => "compliance" | security => "security" | settlement_failure => "settlement_failure"
  end.

Definition TYPE_CATEGORY : list (string * NotificationCategory) :=
  [ ("BOND_ISSUED", bond_updates); ("COUPON_DISTRIBUTED", coupon_updates); ("PROJECT_REPORT", project_reports);
    ("RECOVERY_INTERRUPTED", settlement_failure); ("PARTIAL_FAILURE", settlement_failure); ("COMPLIANCE_ALERT", compliance);
    ("SECURITY_ALERT", security) ].

(** [TYPE_CATEGORY[type] ?? 'bond_updates']; an inherited name finds a function, [None] here, which is no category. *)
Definition category_of (type : string) : option NotificationCategory :=
  match aget type TYPE_CATEGORY with
  | Some c => Some c
  | None => if decide (type ∈ inherited_names) then None else Some bond_updates
  end.

Definition DEDUPE_RESTORE_WINDOW_DAYS : Z := 30.

Definition decisionKey (userId eventId : string) : string := userId +:+ String (ascii_of_N 0) eventId.

Record preferences := { p_bond_updates : bool; p_coupon_updates : bool; p_project_reports : bool }.
Definition default_preferences : preferences := {| p_bond_updates := true; p_coupon_updates := true; p_project_reports := true |}.

Record NotificationDecision := {
  nd_userId : string;
  nd_eventId : string;
  nd_type : string;
  nd_category : option NotificationCategory;
  nd_delivered : bool;
  nd_mandatory : bool;
  nd_decidedAt : Z;
}.

Record Notification := {
  nt_id : string;
  nt_userId : string;
  nt_type : string;
  nt_message : string;
  nt_readAt : option Z;  (* [read] is [true] with it *)
  nt_link : option string;
  nt_eventId : string;
  nt_createdAt : Z;
  nt_category : option NotificationCategory;
  nt_mandatory : bool;
}.
Definition read (n : Notification) : bool := bool_decide (is_Some (nt_readAt n)).

Record PreferenceHistoryEntry := {
  ph_id : string;
  ph_userId : string;
  ph_changedAt : Z;
  ph_before : preferences;
  ph_after : preferences;
  ph_reason : string;
}.

(** [pool]: whether a database is configured. The rows of its three tables survive a restart. *)
Record service := {
  notifications : list Notification;
  prefs : list (string * preferences);
  decisions : list NotificationDecision;
  decidedEvents : gset string;
  preferenceHistory : list PreferenceHistoryEntry;
  pool : bool;
  db_preferences : list (string * preferences);
  db_decisions : list NotificationDecision;
  db_history : list PreferenceHistoryEntry;
}.
Definition new_service (pool : bool) : service :=
  {| notifications := []; prefs := []; decisions := []; decidedEvents := ∅; preferenceHistory := []; pool := pool;
     db_preferences := []; db_decisions := []; db_history := [] |}.

Definition msPerWindow : Z := DEDUPE_RESTORE_WINDOW_DAYS * 86400000.

(** [onModuleInit] of a new process. *)
Definition onModuleInit (st : service) (now : Z) : service :=
  if pool st then
    {| notifications := []; prefs := db_preferences st; decisions := [];
       decidedEvents := list_to_set ((λ d, decisionKey (nd_userId d) (nd_eventId d)) <$>
         filter (λ d, now - msPerWindow < nd_decidedAt d) (db_decisions st));
       preferenceHistory := []; pool := true; db_preferences := db_preferences st; db_decisions := db_decisions st; db_history := db_history st |}
  else new_service false.

Definition getPreferences (st : service) (userId : string) : preferences := default default_preferences (aget userId (prefs st)).

(** The guards of [setPreferences], and the object it merges. *)
Fixpoint check_updates (l : list (string * json)) : result string unit :=
  match l with
  | [] => Ok tt
  | (key, value) :: l =>
      if decide (key ∈ MANDATORY_NOTIFICATION_CATEGORIES) then Err ("Cannot change mandatory notification category: " +:+ key)
      else if decide (key ∈ OPTIONAL_NOTIFICATION_CATEGORIES) then
        match value with JBool _ => check_updates l | _ => Err ("Invalid optional notification preference: " +:+ key) end
      else Err ("Invalid optional notification preference: " +:+ key)
  end.

Definition bool_at (l : list (string * json)) (key : string) (old : bool) : bool := match jget key l with Some (JBool b) => b | _ => old end.
Definition merge_preferences (p : preferences) (l : list (string * json)) : preferences :=
  {| p_bond_updates := bool_at l "bond_updates" (p_bond_updates p); p_coupon_updates := bool_at l "coupon_updates" (p_coupon_updates p);
     p_project_reports := bool_at l "project_reports" (p_project_reports p) |}.

(** [saved]: the write of the preferences works, otherwise the call throws before it changes anything; [logged]: the row of the
    history is written. *)
Definition setPreferences (st : service) (userId : string) (updates : json) (reason uuid : string) (now : Z) (saved logged : bool) :
    service * result string preferences :=
  match updates with
  | JObj l =>
      match check_updates l with
      | Err e => (st, Err e)
      | Ok _ =>
          let before := getPreferences st userId in
          let next := merge_preferences before l in
          if pool st && negb saved then (st, Err "database error")
          else
            let entry := {| ph_id := uuid; ph_userId := userId; ph_changedAt := now; ph_before := before; ph_after := next; ph_reason := reason |} in
            ({| notifications := notifications st; prefs := aput userId next (prefs st); decisions := decisions st;
                decidedEvents := decidedEvents st; preferenceHistory := preferenceHistory st ++ [entry]; pool := pool st;
                db_preferences := if pool st then aput userId next (db_preferences st) else db_preferences st;
                db_decisions := db_decisions st;
                db_history := if pool st && logged then db_history st ++ [entry] else db_history st |}, Ok next)
      end
  | _ => (st, Err "Preferences must be an object")
  end.

(** Newest first. *)
Definition getPreferenceHistory (st : service) (userId : string) : list PreferenceHistoryEntry :=
  reverse (filter (λ e, ph_userId e = userId) (if pool st then db_history st else preferenceHistory st)).

Definition getDecisions (st : service) (userId : string) : list NotificationDecision :=
  if pool st then reverse (filter (λ d, nd_userId d = userId) (db_decisions st)) else filter (λ d, nd_userId d = userId) (decisions st).

Record NotificationInput := { ni_userId : string; ni_type : string; ni_message : string; ni_link : option string; ni_eventId : string }.

Definition is_mandatory (c : option NotificationCategory) : bool :=
  match c with Some c => bool_decide (category_text c ∈ MANDATORY_NOTIFICATION_CATEGORIES) | None => false end.

Definition preference (p : preferences) (c : option NotificationCategory) : bool :=
  match c with
  | Some bond_updates => p_bond_updates p | Some coupon_updates => p_coupon_updates p | Some project_reports => p_project_reports p
  | _ => false
  end.

(** [ON CONFLICT DO NOTHING]. *)
Definition insert_decision (d : NotificationDecision) (rows : list NotificationDecision) : list NotificationDecision :=
  if decide ((nd_userId d, nd_eventId d) ∈ (λ r, (nd_userId r, nd_eventId r)) <$> rows) then rows else rows ++ [d].

Definition decide_on (st : service) (data : NotificationInput) (now : Z) : NotificationDecision :=
  let category := category_of (ni_type data) in
  {| nd_userId := ni_userId data; nd_eventId := ni_eventId data; nd_type := ni_type data; nd_category := category;
     nd_delivered := is_mandatory category || preference (getPreferences st (ni_userId data)) category;
     nd_mandatory := is_mandatory category; nd_decidedAt := now |}.

Definition createNotification (st : service) (data : NotificationInput) (uuid : string) (now : Z) (logged : bool) : service * option Notification :=
  let key := decisionKey (ni_userId data) (ni_eventId data) in
  if decide (key ∈ decidedEvents st) then (st, None)
  else
    let d := decide_on st data now in
    let n := {| nt_id := uuid; nt_userId := ni_userId data; nt_type := ni_type data; nt_message := ni_message data; nt_readAt := None;
                nt_link := ni_link data; nt_eventId := ni_eventId data; nt_createdAt := now; nt_category := nd_category d;
                nt_mandatory := nd_mandatory d |} in
    ({| notifications := if nd_delivered d then notifications st ++ [n] else notifications st; prefs := prefs st;
        decisions := decisions st ++ [d]; decidedEvents := {[key]} ∪ decidedEvents st; preferenceHistory := preferenceHistory st; pool := pool st;
        db_preferences := db_preferences st; db_decisions := if pool st && logged then insert_decision d (db_decisions st) else db_decisions st;
        db_history := db_history st |},
     if nd_delivered d then Some n else None).

Definition matches (userId : string) (unreadOnly : bool) (type : option string) (n : Notification) : bool :=
  bool_decide (nt_userId n = userId) && (negb unreadOnly || negb (read n)) &&
  match type with Some t => bool_decide (t = "") || bool_decide (nt_type n = t) | None => true end.

(** Newest first; the sort is stable. *)
Definition getNotifications (st : service) (userId : string) (unreadOnly : bool) (type : option string) : list Notification :=
  sort_by (λ n, - nt_createdAt n) (filter (λ n, matches userId unreadOnly type n = true) (notifications st)).

Definition countUnread (st : service) (userId : string) : nat :=
  length (filter (λ n, nt_userId n = userId ∧ read n = false) (notifications st)).

Definition with_notifications (st : service) (l : list Notification) : service :=
  {| notifications := l; prefs := prefs st; decisions := decisions st; decidedEvents := decidedEvents st;
     preferenceHistory := preferenceHistory st; pool := pool st; db_preferences := db_preferences st; db_decisions := db_decisions st;
     db_history := db_history st |}.

Definition mark (now : Z) (n : Notification) : Notification :=
  if read n then n
  else {| nt_id := nt_id n; nt_userId := nt_userId n; nt_type := nt_type n; nt_message := nt_message n; nt_readAt := Some now; nt_link := nt_link n;
          nt_eventId := nt_eventId n; nt_createdAt := nt_createdAt n; nt_category := nt_category n; nt_mandatory := nt_mandatory n |}.

(** Only the first that matches. *)
Fixpoint mark_first (userId id : string) (now : Z) (l : list Notification) : list Notification :=
  match l with
  | [] => []
  | n :: l => if decide (nt_id n = id ∧ nt_userId n = userId) then mark now n :: l else n :: mark_first userId id now l
  end.

Definition markAsRead (st : service) (userId id : string) (now : Z) : service * option Notification :=
  (with_notifications st (mark_first userId id now (notifications st)),
   mark now <$> List.find (λ n, bool_decide (nt_id n = id) && bool_decide (nt_userId n = userId)) (notifications st)).

Definition markAllAsRead (st : service) (userId : string) (now : Z) : service * nat :=
  (with_notifications st ((λ n, if decide (nt_userId n = userId) then mark now n else n) <$> notifications st), countUnread st userId).

(** ** Histories of one process *)

Inductive call :=
| Create (data : NotificationInput) (uuid : string) (now : Z) (logged : bool)
| Prefer (userId : string) (updates : json) (reason uuid : string) (now : Z) (saved logged : bool)
| MarkOne (userId id : string) (now : Z)
| MarkAll (userId : string) (now : Z).

Definition step (st : service) (o : call) : service :=
  match o with
  | Create data uuid now l => (createNotification st data uuid now l).1
  | Prefer u up r id now s l => (setPreferences st u up r id now s l).1
  | MarkOne u id now => (markAsRead st u id now).1
  | MarkAll u now => (markAllAsRead st u now).1
  end.
Definition run (st : service) (os : list call) : service := foldl step st os.

Definition note_key (n : Notification) : string := decisionKey (nt_userId n) (nt_eventId n).
Definition decision_key (d : NotificationDecision) : string := decisionKey (nd_userId d) (nd_eventId d).

Record sound (st : service) : Prop := {
  decided_once : NoDup (decision_key <$> decisions st);
  decided_known : ∀ d, d ∈ decisions st → decision_key d ∈ decidedEvents st;
  inbox_decided : note_key <$> notifications st = decision_key <$> filter (λ d, nd_delivered d = true) (decisions st);
  mandatory_delivered : ∀ d, d ∈ decisions st → nd_mandatory d = true → nd_delivered d = true;
}.

Lemma mark_key now n : note_key (mark now n) = note_key n.
Proof. unfold mark. by destruct (read n). Qed.

Lemma sound_marked st l : sound st → note_key <$> l = note_key <$> notifications st → sound (with_notifications st l).
Proof. intros [] H. split; try done. cbn. by rewrite H. Qed.

Lemma mark_first_keys u id now l : note_key <$> mark_first u id now l = note_key <$> l.
Proof. induction l as [|n l IH]; [done|]. cbn [mark_first]. case_decide; rewrite !fmap_cons; [by rewrite mark_key|by rewrite IH]. Qed.

Lemma step_sound st o : sound st → sound (step st o).
Proof.
  intros Hs. destruct o as [data uuid now l|u up r id now s l|u id now|u now]; cbn [step].
  - unfold createNotification. case_decide as Hk; [done|]. destruct Hs as [H1 H2 H3 H4]. cbn [fst]. remember (decide_on st data now) as d eqn:Ed.
    assert (decision_key d = decisionKey (ni_userId data) (ni_eventId data)) as Hd by (by subst d).
    split; cbn [notifications decisions decidedEvents].
    + rewrite fmap_app. apply NoDup_app. split_and!; [done| |apply NoDup_singleton].
      intros k (d' & -> & Hd')%list_elem_of_fmap Hin%list_elem_of_singleton. apply Hk. rewrite <- Hd, <- Hin. by apply H2.
    + intros d'. rewrite elem_of_app, list_elem_of_singleton, elem_of_union, elem_of_singleton. intros [Hin| ->]; [right; by apply H2|by left].
    + rewrite filter_app, fmap_app, <- H3, filter_cons. destruct (nd_delivered d) eqn:E.
      * rewrite decide_True by done. rewrite fmap_app. f_equal. rewrite !fmap_cons, Hd. done.
      * rewrite decide_False by done. by rewrite app_nil_r.
    + intros d'. rewrite elem_of_app, list_elem_of_singleton. intros [Hin| ->] Hm; [by apply H4|]. subst d. cbn in *. by rewrite Hm.
  - unfold setPreferences. destruct up; try done. destruct (check_updates l0); [|done]. destruct (pool st && negb s); [done|].
    destruct Hs. by split.
  - apply sound_marked; [done|]. apply mark_first_keys.
  - apply sound_marked; [done|]. rewrite <- list_fmap_compose. apply list_fmap_ext. intros i n _. cbn. case_decide; [apply mark_key|done].
Qed.

Lemma run_sound st os : sound st → sound (run st os).
Proof. revert st. induction os as [|o os IH]; intros st H; [done|]. cbn. apply IH. by apply step_sound. Qed.

(** A process that has just started, from whatever the database holds. *)
Definition started (st : service) : Prop := notifications st = [] ∧ decisions st = [].

Lemma started_sound st : started st → sound st.
Proof. intros [H1 H2]. split; rewrite ?H1, ?H2; [constructor|by intros ? ?%elem_of_nil|done|by intros ? ?%elem_of_nil]. Qed.

(** An event is decided once per user, and delivered at most once.  In every history of one process, however
    often events are redelivered, preferences change and messages are read, no pair of a user and an event has two
    decisions, the inbox holds exactly the deliveries that were decided, in their order, and every
    mandatory notification that was decided was delivered. *)
Theorem notified_once st os :
  started st →
  NoDup (decision_key <$> decisions (run st os)) ∧ NoDup (note_key <$> notifications (run st os)) ∧
  note_key <$> notifications (run st os) = decision_key <$> filter (λ d, nd_delivered d = true) (decisions (run st os)) ∧
  ∀ d, d ∈ decisions (run st os) → nd_mandatory d = true → nd_delivered d = true.
Proof.
  intros [H1 H2 H3 H4]%started_sound%(run_sound _ os). split_and!; try done. rewrite H3.
  eapply sublist_NoDup; [exact H1|]. apply fmap_sublist, sublist_filter.
Qed.

(** What is delivered: a mandatory notification always, an optional one when the user wants its category, and nothing that was decided. *)
Theorem delivery_exact st data uuid now logged :
  (∃ n, (createNotification st data uuid now logged).2 = Some n) ↔
  decisionKey (ni_userId data) (ni_eventId data) ∉ decidedEvents st ∧
  (is_mandatory (category_of (ni_type data)) = true ∨ preference (getPreferences st (ni_userId data)) (category_of (ni_type data)) = true).
Proof.
  unfold createNotification, decide_on. case_decide; cbn; [split; [by intros []|tauto]|].
  destruct (is_mandatory _), (preference _ _); cbn; naive_solver.
Qed.

(** ** Concrete runs *)

Definition alert : NotificationInput := {| ni_userId := "u"; ni_type := "SECURITY_ALERT"; ni_message := "m"; ni_link := None; ni_eventId := "e1" |}.
Definition typed (type : string) : NotificationInput := {| ni_userId := "u"; ni_type := type; ni_message := "m"; ni_link := None; ni_eventId := "e2" |}.

Lemma notified_once_witness :
  let st := run (new_service true) [Create alert "n1" 1 true; Create alert "n2" 2 true; MarkAll "u" 3] in
  NoDup (decision_key <$> decisions st) ∧ NoDup (note_key <$> notifications st) ∧
  note_key <$> notifications st = decision_key <$> filter (λ d, nd_delivered d = true) (decisions st) ∧
  ∀ d, d ∈ decisions st → nd_mandatory d = true → nd_delivered d = true.
Proof. apply (notified_once (new_service true)). split; reflexivity. Defined.

Example opted_out :
  let st := (setPreferences (new_service false) "u" (JObj [("bond_updates", JBool false)]) "user_request" "h" 0 true true).1 in
  (createNotification st (typed "BOND_ISSUED") "n" 1 true).2 = None ∧ is_Some (createNotification st (typed "SECURITY_ALERT") "n" 1 true).2.
Proof. split; [by vm_compute|]. eexists. by vm_compute. Qed.

(** After a restart the inbox is gone, and the event that filled it is a duplicate. *)
Lemma restart_loses_inbox :
  let st := onModuleInit (run (new_service true) [Create alert "n1" 1 true]) 2 in
  notifications st = [] ∧ (createNotification st alert "n2" 3 true).2 = None.
Proof. by vm_compute. Qed.

(** A type with the name of an inherited property has no category: it is never delivered. *)
Lemma inherited_type_suppressed :
  (createNotification (new_service false) (typed "constructor") "n" 1 true).2 = None ∧
  is_Some (createNotification (new_service false) (typed "anything else") "n" 1 true).2.
Proof. split; [by vm_compute|]. eexists. by vm_compute. Qed.
