(* ===== verification/Policy.v ===== *)
(** * Policy evaluation and simulation

    Models [evaluateSubscriptionEligibility], [evaluateBondRedemptionEligibility], [evaluateMaturityApproaching] and the loading of
    the configuration of [api/src/policy/policy.service.ts], and [api/src/policy/policy-simulation.service.ts].  The configuration is
    the one of [PolicyConfig]; an amount of a configuration that is no bigint (one that came from the environment as a
    number) compares by the arguments [mixed_lt] and [mixed_gt], prints by [mixed_text] and turns into a bigint by [big_json]; [percent] is the
    rounded percentage, a floating-point division.  [calculateRedemptionPenalty], which is floating-point arithmetic, is left out.

    Shown: a subscription is allowed exactly when its jurisdiction is not restricted and its amount within the limits
    that are set ([subscription_policy_exact]); the outcome a simulation reports for a record is the one the service gives once the
    proposal is its configuration, and the counts add up ([simulation_predicts]).  Where the code falls short: a record that
    breaks another rule than before counts as unaffected ([swapped_rule_unaffected]); a proposal that could never be
    applied is simulated ([unappliable_simulated]). *)
From S2P Require Import Prelude Json PolicyConfig.

Inductive severity := error | warning | info.
#[export] Instance severity_eq_dec : EqDecision severity.
Proof. solve_decision. Defined.
Record PolicyViolation := { vi_rule : string; vi_severity : severity; vi_message : string }.
Record PolicyEvaluationResult := { pe_allowed : bool; pe_code : string; pe_message : string; pe_violations : list PolicyViolation }.

(** [cx_amount]: [BigInt(amount)], [None] where it throws. *)
Record PolicyEvaluationContext := {
  cx_id : option string;
  cx_bondId : Z;
  cx_investorAddress : string;
  cx_amount : option Z;
  cx_jurisdiction : option string;
}.

Section Evaluate.
Context (mixed_lt mixed_gt : Z → json → bool) (mixed_text : json → string) (big_json : json → option Z) (percent : nat → nat → Z).

(** [!!x] of a setting. *)
Definition truthy (s : setting) : bool :=
  match s with
  | SBig z => negb (z =? 0)
  | SJson JNull | SJson (JBool false) | SJson (JStr "") | SJson (JNum "0") => false
  | SJson _ => true
  | SUndefined => false
  end.

Definition amount_lt (a : Z) (s : setting) : bool := match s with SBig z => a <? z | SJson j => mixed_lt a j | SUndefined => false end.
Definition amount_gt (a : Z) (s : setting) : bool := match s with SBig z => z <? a | SJson j => mixed_gt a j | SUndefined => false end.

Definition setting_text (s : setting) : string :=
  match s with SBig z => Z_to_string z | SJson (JStr t) => t | SJson j => mixed_text j | SUndefined => "undefined" end.

(** [some] stops at the first match; an element that is no string throws when it is reached. *)
Fixpoint some_jurisdiction (l : list json) (jurisdiction : string) : result string bool :=
  match l with
  | [] => Ok false
  | JStr s :: l => if decide (toUpperCase s = toUpperCase jurisdiction) then Ok true else some_jurisdiction l jurisdiction
  | _ :: _ => Err "TypeError: j.toUpperCase is not a function"
  end.

Definition isRestrictedJurisdiction (c : PolicyConfiguration) (jurisdiction : string) : result string bool :=
  let restricted := setting_of c "restrictedJurisdictions" in
  if negb (truthy restricted) then Ok false
  else match restricted with
       | SJson (JArr l) => some_jurisdiction l jurisdiction
       | _ => Err "TypeError: restrictedJurisdictions.some is not a function"
       end.

Definition flag (b : bool) (rule message : string) : list PolicyViolation :=
  if b then [{| vi_rule := rule; vi_severity := error; vi_message := message |}] else [].

Definition jurisdiction_violation (c : PolicyConfiguration) (jurisdiction : option string) : result string (list PolicyViolation) :=
  match jurisdiction with
  | None | Some "" => Ok []
  | Some j =>
      restricted ← isRestrictedJurisdiction c j;
      Ok (flag restricted "jurisdiction_restricted" ("Investor in jurisdiction " +:+ j +:+ " is not eligible for this bond"))
  end.

Definition amount_violations (c : PolicyConfiguration) (amount : Z) : list PolicyViolation :=
  let min := setting_of c "minSubscriptionAmount" in
  let max := setting_of c "maxSubscriptionAmount" in
  flag (truthy min && amount_lt amount min) "minimum_subscription_amount" ("Subscription amount must be at least " +:+ setting_text min) ++
  flag (truthy max && amount_gt amount max) "maximum_subscription_amount" ("Subscription amount cannot exceed " +:+ setting_text max).

Definition evaluateSubscriptionEligibility (c : PolicyConfiguration) (cx : PolicyEvaluationContext) : result string PolicyEvaluationResult :=
  match cx_amount cx with
  | None => Err "SyntaxError: Cannot convert to a BigInt"
  | Some amount =>
      jv ← jurisdiction_violation c (cx_jurisdiction cx);
      let vs := jv ++ amount_violations c amount in
      let errors := filter (λ v, vi_severity v = error) vs in
      Ok {| pe_allowed := bool_decide (errors = []);
            pe_code := match errors with [] => "APPROVED" | _ => "SUBSCRIPTION_POLICY_VIOLATION" end;
            pe_message := match errors with [] => "Subscription is policy-compliant"
              | _ => "Subscription violates " +:+ Z_to_string (Z.of_nat (length errors)) +:+ " policy rule(s)" end;
            pe_violations := vs |}
  end.

(** [days_lt] compares the days with the setting, a number. *)
Definition evaluateBondRedemptionEligibility (c : PolicyConfiguration) (days_lt : setting → bool) (score_negative : bool) : PolicyEvaluationResult :=
  let days := setting_of c "earlyRedemptionMinDaysRemaining" in
  let vs :=
    (if truthy days && days_lt days then
       [{| vi_rule := "early_redemption_window"; vi_severity := info;
           vi_message := "Bond is in final " +:+ setting_text days +:+ " days, early redemption is limited" |}] else []) ++
    (if score_negative then
       [{| vi_rule := "underperformance_penalty"; vi_severity := warning; vi_message := "Project underperformance will reduce redemption value" |}] else []) in
  {| pe_allowed := true; pe_code := "REDEMPTION_ELIGIBLE";
     pe_message := match vs with [] => "Redemption eligible" | _ => "Redemption eligible with conditions" end; pe_violations := vs |}.

(** Whole days of warning. *)
Definition evaluateMaturityApproaching (warningDays : option Z) (maturityDate now_ms : Z) : bool :=
  match warningDays with
  | None => false
  | Some d => if d =? 0 then false else (maturityDate - d * 86400 <=? now_ms / 1000) && (now_ms / 1000 <? maturityDate)
  end.

(** [POLICY_CONFIG] of the environment, parsed, over the defaults. *)
Definition loadPolicyConfiguration (custom : PolicyConfiguration) : PolicyConfiguration := spread default_config custom.

(** ** Simulation *)

Record AffectedRecordExample := {
  ae_recordId : string;
  ae_previousOutcome : PolicyEvaluationResult;
  ae_simulatedOutcome : PolicyEvaluationResult;
  ae_changes : list string;
}.
Record PolicySimulationResult := {
  sr_totalEvaluated : nat;
  sr_affectedCount : nat;
  sr_unaffectedCount : nat;
  sr_affectedExamples : list AffectedRecordExample;
  sr_riskWarnings : list string;
}.

(** [BigInt(x)]. *)
Definition bigint_of (s : setting) : result string Z :=
  match s with
  | SBig z => Ok z
  | SJson (JStr t) => match BigInt_of_string t with Some z => Ok z | None => Err ("SyntaxError: Cannot convert " +:+ t +:+ " to a BigInt") end
  | SJson j => match big_json j with Some z => Ok z | None => Err "Cannot convert to a BigInt" end
  | SUndefined => Err "TypeError: Cannot convert undefined to a BigInt"
  end.

Definition validateProposedConfig (proposed : PolicyConfiguration) : result string unit :=
  match setting_of proposed "minSubscriptionAmount", setting_of proposed "maxSubscriptionAmount" with
  | SUndefined, _ | _, SUndefined => Ok tt
  | min, max =>
      min ← bigint_of min;
      max ← bigint_of max;
      throw_if (max <? min) "Invalid policy configuration: minSubscriptionAmount cannot exceed maxSubscriptionAmount"
  end.

(** A service of its own, with the configuration on top of what it loads. *)
Definition evaluateWithConfig (custom config : PolicyConfiguration) (cx : PolicyEvaluationContext) : result string PolicyEvaluationResult :=
  evaluateSubscriptionEligibility (spread (loadPolicyConfiguration custom) config) cx.

Definition hasChanged (previous simulated : PolicyEvaluationResult) : bool :=
  negb (eqb (pe_allowed previous) (pe_allowed simulated)) ||
  negb (length (pe_violations previous) =? length (pe_violations simulated))%nat.

Definition changes_of (previous simulated : PolicyEvaluationResult) : list string :=
  (if pe_allowed previous && negb (pe_allowed simulated) then ["Status changed from APPROVED to DISAPPROVED"]
   else if negb (pe_allowed previous) && pe_allowed simulated then ["Status changed from DISAPPROVED to APPROVED"] else []) ++
  let added := filter (λ r, r ∉ vi_rule <$> pe_violations previous) (vi_rule <$> pe_violations simulated) in
  match added with [] => [] | _ => ["Triggered new violation rules: " +:+ join ", " added] end.

Definition record_id (cx : PolicyEvaluationContext) : string :=
  match cx_id cx with
  | Some id => if decide (id = "") then "bond_" +:+ Z_to_string (cx_bondId cx) +:+ "_" +:+ cx_investorAddress cx else id
  | None => "bond_" +:+ Z_to_string (cx_bondId cx) +:+ "_" +:+ cx_investorAddress cx
  end.

Fixpoint simulate_records (custom current simulated : PolicyConfiguration) (l : list PolicyEvaluationContext) :
    result string (list (option AffectedRecordExample)) :=
  match l with
  | [] => Ok []
  | cx :: l =>
      previous ← evaluateSubscriptionEligibility current cx;
      outcome ← evaluateWithConfig custom simulated cx;
      rest ← simulate_records custom current simulated l;
      Ok ((if hasChanged previous outcome then
             Some {| ae_recordId := record_id cx; ae_previousOutcome := previous; ae_simulatedOutcome := outcome; ae_changes := changes_of previous outcome |}
           else None) :: rest)
  end.

(** What stands between the items of [join]. *)
Definition item_text (j : json) : string := match j with JStr s => s | JNull => "" | j => mixed_text j end.

Definition risk_warnings (proposed : PolicyConfiguration) (affected total : nat) : result string (list string) :=
  let impact :=
    if (0 <? affected)%nat && (20 <=? percent affected total) then
      ["High Impact Warning: " +:+ Z_to_string (percent affected total) +:+ "% of evaluated records will be affected by this policy change."]
    else [] in
  match setting_of proposed "restrictedJurisdictions" with
  | SJson (JArr (j :: l)) =>
      Ok (impact ++ ["Jurisdiction Restriction: Adding " +:+ join ", " (item_text <$> (j :: l)) +:+ " will block investors in those regions."])
  | SJson (JStr (String _ _)) => Err "TypeError: restrictedJurisdictions.join is not a function"
  | _ => Ok impact
  end.

Definition getDefaultSimulationDataset : list PolicyEvaluationContext :=
  [{| cx_id := Some "rec_US_1000"; cx_bondId := 1; cx_investorAddress := "GBRPYHIZ2AA323456789012345678901234567890123456789012345";
      cx_amount := Some 10000; cx_jurisdiction := Some "US" |};
   {| cx_id := Some "rec_EU_500"; cx_bondId := 1; cx_investorAddress := "GCSOMESUBSCRIBERADDRESS234567890123456789012345678901";
      cx_amount := Some 500; cx_jurisdiction := Some "EU" |};
   {| cx_id := Some "rec_KY_2000000000000"; cx_bondId := 2; cx_investorAddress := "GCLARGEINVESTORADDRESS2345678901234567890123456789012";
      cx_amount := Some 2000000000000; cx_jurisdiction := Some "KY" |}].

(** The service's own configuration is only read, so the final comparison of it with itself always holds. *)
Definition simulatePolicyChange (custom current proposed : PolicyConfiguration) (userRole : string)
    (records : option (list PolicyEvaluationContext)) : result string PolicySimulationResult :=
  _ ← throw_if (negb (bool_decide (userRole = "MAINTAINER")) && negb (bool_decide (userRole = "ADMIN")))
        "Only maintainers or admins can run policy simulations";
  _ ← validateProposedConfig proposed;
  let records := default getDefaultSimulationDataset records in
  outcomes ← simulate_records custom current (spread current proposed) records;
  let affected := omap id outcomes in
  warnings ← risk_warnings proposed (length affected) (length records);
  Ok {| sr_totalEvaluated := length records; sr_affectedCount := length affected; sr_unaffectedCount := length outcomes - length affected;
        sr_affectedExamples := affected; sr_riskWarnings := warnings |}.

(** ** Properties *)

Lemma flag_errors b rule message : filter (λ v, vi_severity v = error) (flag b rule message) = [] ↔ b = false.
Proof. destruct b; unfold flag; [|done]. by rewrite filter_cons, decide_True by done. Qed.

(** A subscription is allowed exactly when its jurisdiction is not restricted and its amount within the limits that are set. *)
Theorem subscription_policy_exact c cx amount r :
  cx_amount cx = Some amount → evaluateSubscriptionEligibility c cx = Ok r →
  pe_allowed r = true ↔
  (∀ j, cx_jurisdiction cx = Some j → j ≠ "" → isRestrictedJurisdiction c j = Ok false) ∧
  (truthy (setting_of c "minSubscriptionAmount") = true → amount_lt amount (setting_of c "minSubscriptionAmount") = false) ∧
  (truthy (setting_of c "maxSubscriptionAmount") = true → amount_gt amount (setting_of c "maxSubscriptionAmount") = false).
Proof.
  intros Ha H. unfold evaluateSubscriptionEligibility in H. rewrite Ha in H. apply bind_ok in H as (jv & Hj & [= <-]). cbn [pe_allowed].
  rewrite bool_decide_eq_true. unfold amount_violations. rewrite !filter_app, !app_nil, !flag_errors, !andb_false_iff.
  assert (filter (λ v, vi_severity v = error) jv = [] ↔
    ∀ j, cx_jurisdiction cx = Some j → j ≠ "" → isRestrictedJurisdiction c j = Ok false) as ->.
  { unfold jurisdiction_violation in Hj. destruct (cx_jurisdiction cx) as [[|x j]|].
    - injection Hj as <-. split; [by intros _ j [= <-]|done].
    - apply bind_ok in Hj as (b & Hb & [= <-]). rewrite flag_errors. split; [by intros -> j' [= <-]|].
      intros H. specialize (H _ eq_refl ltac:(done)). congruence.
    - injection Hj as <-. by split. }
  destruct (truthy _), (truthy _); naive_solver.
Qed.

(** The evaluation looks at three settings. *)
Lemma evaluate_settings c c' cx :
  (∀ k, k ∈ ["restrictedJurisdictions"; "minSubscriptionAmount"; "maxSubscriptionAmount"] → setting_of c k = setting_of c' k) →
  evaluateSubscriptionEligibility c cx = evaluateSubscriptionEligibility c' cx.
Proof.
  intros H. unfold evaluateSubscriptionEligibility, amount_violations, jurisdiction_violation, isRestrictedJurisdiction.
  by rewrite (H "minSubscriptionAmount"), (H "maxSubscriptionAmount"), (H "restrictedJurisdictions") by repeat constructor.
Qed.

Lemma aget_spread_last (c : PolicyConfiguration) (u : PolicyConfiguration) k :
  NoDup u.*1 → aget k (spread c u) = match aget k u with Some v => Some v | None => aget k c end.
Proof.
  revert c. induction u as [|[k' v] u IH]; intros c Hn; [done|]. inversion_clear Hn as [|? ? Hk Hn']. cbn. fold (spread (aput k' v c) u).
  rewrite IH by done. rewrite aget_aput. destruct (decide (k = k')) as [->|]; [|by destruct (aget k u)].
  by rewrite (proj2 (aget_None k' u)).
Qed.

(** What the service has loaded is part of its configuration, whatever was changed since. *)
Definition grown_from (custom current : PolicyConfiguration) : Prop :=
  NoDup current.*1 ∧ ∀ k, k ∈ (loadPolicyConfiguration custom).*1 → k ∈ current.*1.

Lemma with_config_outcome custom current proposed cx :
  grown_from custom current → NoDup proposed.*1 →
  evaluateWithConfig custom (spread current proposed) cx = evaluateSubscriptionEligibility (spread current proposed) cx.
Proof.
  intros [Hn Hk] Hp. apply evaluate_settings. intros k _. unfold setting_of. f_equal.
  rewrite aget_spread_last by (by apply spread_NoDup). destruct (aget k (spread current proposed)) as [v|] eqn:E; [done|].
  apply aget_None. intros Hin%Hk. rewrite aget_spread_last in E by done. destruct (aget k proposed); [done|]. by apply aget_None in E.
Qed.

Lemma simulate_records_ok custom current proposed l outcomes :
  grown_from custom current → NoDup proposed.*1 →
  simulate_records custom current (spread current proposed) l = Ok outcomes →
  Forall2 (λ cx o, ∃ before after, evaluateSubscriptionEligibility current cx = Ok before ∧
    evaluateSubscriptionEligibility (spread current proposed) cx = Ok after ∧
    match o with
    | Some x => hasChanged before after = true ∧ ae_previousOutcome x = before ∧ ae_simulatedOutcome x = after ∧ ae_recordId x = record_id cx
    | None => pe_allowed before = pe_allowed after ∧ length (pe_violations before) = length (pe_violations after)
    end) l outcomes.
Proof.
  intros Hg Hp. revert outcomes. induction l as [|cx l IH]; intros outcomes; cbn; [by intros [= <-]|].
  intros (b & Hb & (a & Ha & (rest & Hr & [= <-])%bind_ok)%bind_ok)%bind_ok. rewrite with_config_outcome in Ha by done.
  constructor; [|by apply IH]. exists b, a. split_and!; [done..|]. destruct (hasChanged b a) eqn:E; [done|].
  unfold hasChanged in E. apply orb_false_iff in E as [E1%negb_false_iff E2%negb_false_iff]. by apply eqb_prop in E1; apply Nat.eqb_eq in E2.
Qed.

(** A simulation tells what a change would do.  For a service whose configuration has grown from what it loaded, the simulated
    outcome of every affected record is the outcome the service gives once the proposal is merged into its configuration; a
    record that is not listed keeps its decision and its number of violations; and the counts add up. *)
Theorem simulation_predicts custom current proposed role records r :
  grown_from custom current → NoDup proposed.*1 →
  simulatePolicyChange custom current proposed role records = Ok r →
  let records := default getDefaultSimulationDataset records in
  sr_totalEvaluated r = length records ∧ (sr_affectedCount r + sr_unaffectedCount r = length records)%nat ∧
  ∃ outcomes, sr_affectedExamples r = omap id outcomes ∧
  Forall2 (λ cx o, ∃ before after, evaluateSubscriptionEligibility current cx = Ok before ∧
    evaluateSubscriptionEligibility (spread current proposed) cx = Ok after ∧
    match o with
    | Some x => hasChanged before after = true ∧ ae_previousOutcome x = before ∧ ae_simulatedOutcome x = after ∧ ae_recordId x = record_id cx
    | None => pe_allowed before = pe_allowed after ∧ length (pe_violations before) = length (pe_violations after)
    end) records outcomes.
Proof.
  intros Hg Hp. unfold simulatePolicyChange. intros (? & _ & (? & _ & (outcomes & Ho & (ws & _ & [= <-])%bind_ok)%bind_ok)%bind_ok)%bind_ok.
  cbn zeta. cbn [sr_totalEvaluated sr_affectedCount sr_unaffectedCount sr_affectedExamples].
  pose proof (simulate_records_ok _ _ _ _ _ Hg Hp Ho) as Hf. pose proof (Forall2_length _ _ _ Hf) as Hl. split; [done|].
  split; [|by exists outcomes]. rewrite Hl. assert (∀ l : list (option AffectedRecordExample), length (omap id l) ≤ length l)%nat as H; [|specialize (H outcomes); lia].
  clear. intros l. induction l as [|[x|] l IH]; cbn; lia.
Qed.
End Evaluate.

(** ** Concrete runs *)

Definition no_mix (_ : Z) (_ : json) : bool := false.
Definition no_big (_ : json) : option Z := None.
Definition floor_percent (a n : nat) : Z := 100 * Z.of_nat a / Z.of_nat n.
Notation evaluate := (evaluateSubscriptionEligibility no_mix no_mix JSON_stringify).
Notation simulate := (simulatePolicyChange no_mix no_mix JSON_stringify no_big floor_percent []).
Definition subscriber (amount : Z) (j : string) : PolicyEvaluationContext :=
  {| cx_id := Some "rec"; cx_bondId := 1; cx_investorAddress := "GA"; cx_amount := Some amount; cx_jurisdiction := Some j |}.
Definition stricter : PolicyConfiguration := [("minSubscriptionAmount", SBig 20000)].

Lemma simulation_predicts_witness :
  ∃ r, simulate default_config stricter "ADMIN" (Some [subscriber 10000 "US"; subscriber 30000 "KY"]) = Ok r ∧
    sr_affectedCount r = 1%nat ∧ (sr_affectedCount r + sr_unaffectedCount r = 2)%nat.
Proof.
  eexists. split; [reflexivity|]. split; [by vm_compute|].
  eapply (simulation_predicts no_mix no_mix JSON_stringify no_big floor_percent [] default_config stricter "ADMIN" (Some [subscriber 10000 "US"; subscriber 30000 "KY"])).
  - split; [|done]. apply (bool_decide_unpack _). by vm_compute.
  - apply (bool_decide_unpack _). by vm_compute.
  - reflexivity.
Defined.

(** Another rule is broken than before, and the record counts as unaffected. *)
Lemma swapped_rule_unaffected :
  let proposed := [("minSubscriptionAmount", SBig 1); ("restrictedJurisdictions", SJson (JArr [JStr "US"]))] in
  (match evaluate default_config (subscriber 500 "US") with Ok r => vi_rule <$> pe_violations r | Err _ => [] end)
    = ["minimum_subscription_amount"] ∧
  (match evaluate (spread default_config proposed) (subscriber 500 "US") with Ok r => vi_rule <$> pe_violations r | Err _ => [] end)
    = ["jurisdiction_restricted"] ∧
  (match simulate default_config proposed "ADMIN" (Some [subscriber 500 "US"]) with Ok r => sr_affectedCount r | Err _ => 9%nat end) = 0%nat.
Proof. by vm_compute. Qed.

(** A lower limit above the upper limit in force is simulated, though no change could set it. *)
Lemma unappliable_simulated :
  (∃ r, simulate default_config [("minSubscriptionAmount", SBig 2000000000000)] "ADMIN" (Some []) = Ok r) ∧
  parseUpdates (λ _, false) (λ _ _, false) (JObj [("minSubscriptionAmount", JStr "2000000000000")]) default_config =
    Err "minSubscriptionAmount must not exceed maxSubscriptionAmount".
Proof. split; [by eexists|by vm_compute]. Qed.
