(* ===== verification/BoundedCache.v ===== *)
(** * The bounded cache

    Models [api/src/common/services/bounded-cache.service.ts]: a map of bounded size whose entries expire, with eviction of
    the least recently used entry and explicit invalidation.  Every reading of the clock is an argument, and so is the engine
    of regular expressions ([regexp]).  The hit rate, a floating-point quotient of two counters, and the metadata of an entry, which
    nothing reads, are left out.

    Shown: the cache refines a map without bound ([cache_refines]): an answer is always the value that was set last, not
    deleted or invalidated since, and not expired.  Eviction takes an entry that was not used more recently than any other
    ([evicts_least]), and on a clock that moves between calls the size stays within the bound
    ([cache_bounded]).  Where the code falls short: entries used at the very instant of the eviction are never evicted
    ([same_instant_overflow]), nor is the empty key ([empty_key_overflow]); a prefix is taken for a regular expression
    ([prefix_is_pattern]); and a refresh revives what has expired ([refresh_revives]). *)
From S2P Require Import Prelude.

Record CacheEntry (V : Type) := {
  ce_key : string;
  ce_value : V;
  ce_createdAt : Z;
  ce_expiresAt : Z;
  ce_accessCount : Z;
  ce_lastAccessedAt : Z;
}.
Arguments ce_key {V}. Arguments ce_value {V}. Arguments ce_createdAt {V}. Arguments ce_expiresAt {V}.
Arguments ce_accessCount {V}. Arguments ce_lastAccessedAt {V}.

Record cache (V : Type) := {
  entries : list (string * CacheEntry V);
  hitCount : Z;
  missCount : Z;
  evictionCount : Z;
  expiredCount : Z;
  staleDetections : Z;
}.
Arguments entries {V}. Arguments hitCount {V}. Arguments missCount {V}. Arguments evictionCount {V}.
Arguments expiredCount {V}. Arguments staleDetections {V}.

Record BoundedCacheStats := { bs_totalEntries : nat; bs_maxSize : nat; bs_evictionCount : Z; bs_expiredCount : Z; bs_staleDetections : Z }.

Section Cache.
Context {V : Type} (regexp : string → option (string → bool)).
Context (maxSize : nat) (defaultTtlMs staleThresholdMs : Z).

Notation cache := (cache V).
Notation CacheEntry := (CacheEntry V).

Definition new_cache : cache :=
  {| entries := []; hitCount := 0; missCount := 0; evictionCount := 0; expiredCount := 0; staleDetections := 0 |}.

Definition with_entries (c : cache) (l : list (string * CacheEntry)) : cache :=
  {| entries := l; hitCount := hitCount c; missCount := missCount c; evictionCount := evictionCount c;
     expiredCount := expiredCount c; staleDetections := staleDetections c |}.

Definition expired (now : Z) (e : CacheEntry) : bool := ce_expiresAt e <? now.

Definition cleanExpired (c : cache) (now : Z) : cache :=
  let gone := filter (λ kv, expired now kv.2 = true) (entries c) in
  {| entries := filter (λ kv, expired now kv.2 = false) (entries c); hitCount := hitCount c; missCount := missCount c;
     evictionCount := evictionCount c; expiredCount := expiredCount c + Z.of_nat (length gone); staleDetections := staleDetections c |}.

(** The loop that looks for the entry used least recently, and before [now]. *)
Definition lru_step (best : option string * Z) (kv : string * CacheEntry) : option string * Z :=
  if ce_lastAccessedAt kv.2 <? best.2 then (Some kv.1, ce_lastAccessedAt kv.2) else best.

Definition evictLRU (c : cache) (now : Z) : cache :=
  match (foldl lru_step (None, now) (entries c)).1 with
  | None | Some EmptyString => c
  | Some k =>
      {| entries := adel k (entries c); hitCount := hitCount c; missCount := missCount c;
         evictionCount := evictionCount c + 1; expiredCount := expiredCount c; staleDetections := staleDetections c |}
  end.

(** The clock is read at the start, while cleaning and while evicting. *)
Definition set (c : cache) (key : string) (value : V) (ttlMs : option Z) (now now2 now3 : Z) : cache :=
  let c := cleanExpired c now2 in
  let c := if (maxSize <=? length (entries c))%nat && negb (bool_decide (key ∈ (entries c).*1)) then evictLRU c now3 else c in
  with_entries c (aput key {| ce_key := key; ce_value := value; ce_createdAt := now; ce_expiresAt := now + default defaultTtlMs ttlMs;
                              ce_accessCount := 0; ce_lastAccessedAt := now |} (entries c)).

Definition touched (e : CacheEntry) (now : Z) : CacheEntry :=
  {| ce_key := ce_key e; ce_value := ce_value e; ce_createdAt := ce_createdAt e; ce_expiresAt := ce_expiresAt e;
     ce_accessCount := ce_accessCount e + 1; ce_lastAccessedAt := now |}.

Definition get (c : cache) (key : string) (now : Z) : cache * option V :=
  match aget key (entries c) with
  | None => ({| entries := entries c; hitCount := hitCount c; missCount := missCount c + 1; evictionCount := evictionCount c;
                expiredCount := expiredCount c; staleDetections := staleDetections c |}, None)
  | Some e =>
      if expired now e then
        ({| entries := adel key (entries c); hitCount := hitCount c; missCount := missCount c + 1; evictionCount := evictionCount c;
            expiredCount := expiredCount c + 1; staleDetections := staleDetections c |}, None)
      else
        ({| entries := aput key (touched e now) (entries c); hitCount := hitCount c + 1; missCount := missCount c;
            evictionCount := evictionCount c; expiredCount := expiredCount c;
            staleDetections := staleDetections c + if staleThresholdMs <? now - ce_createdAt e then 1 else 0 |}, Some (ce_value e))
  end.

Definition getEntry (c : cache) (key : string) : option CacheEntry := aget key (entries c).

Definition has (c : cache) (key : string) (now : Z) : cache * bool :=
  match aget key (entries c) with
  | None => (c, false)
  | Some e => if expired now e then (with_entries c (adel key (entries c)), false) else (c, true)
  end.

Definition delete (c : cache) (key : string) : cache * bool := (with_entries c (adel key (entries c)), bool_decide (key ∈ (entries c).*1)).

Definition invalidatePattern (c : cache) (pattern : string → bool) : cache * nat :=
  (with_entries c (filter (λ kv, pattern kv.1 = false) (entries c)), length (filter (λ kv, pattern kv.1 = true) (entries c))).

(** A prefix that is no valid expression throws. *)
Definition invalidatePrefix (c : cache) (prefix : string) : cache * result string nat :=
  match regexp ("^" +:+ prefix) with
  | Some pattern => let '(c, n) := invalidatePattern c pattern in (c, Ok n)
  | None => (c, Err "SyntaxError: Invalid regular expression")
  end.

Definition clear (c : cache) : cache := with_entries c [].

Definition getStats (c : cache) (now : Z) : cache * BoundedCacheStats :=
  let c := cleanExpired c now in
  (c, {| bs_totalEntries := length (entries c); bs_maxSize := maxSize; bs_evictionCount := evictionCount c;
         bs_expiredCount := expiredCount c; bs_staleDetections := staleDetections c |}).

Definition keys (c : cache) : list string := (entries c).*1.
Definition size (c : cache) : nat := length (entries c).

Definition getStaleEntries (c : cache) (now : Z) : list CacheEntry :=
  filter (λ e, (staleThresholdMs <? now - ce_createdAt e) && negb (expired now e) = true) (snd <$> entries c).

Definition refreshed (e : CacheEntry) (ttlMs : option Z) (now now2 : Z) : CacheEntry :=
  {| ce_key := ce_key e; ce_value := ce_value e; ce_createdAt := ce_createdAt e; ce_expiresAt := now + default defaultTtlMs ttlMs;
     ce_accessCount := ce_accessCount e; ce_lastAccessedAt := now2 |}.

Definition refresh (c : cache) (key : string) (newTtlMs : option Z) (now now2 : Z) : cache * bool :=
  match aget key (entries c) with
  | None => (c, false)
  | Some e => (with_entries c (aput key (refreshed e newTtlMs now now2) (entries c)), true)
  end.

(** ** Sequences of calls *)

Inductive call :=
| Set_ (key : string) (value : V) (ttlMs : option Z) (now now2 now3 : Z)
| Get (key : string) (now : Z)
| Has (key : string) (now : Z)
| Delete (key : string)
| InvalidatePattern (pattern : string → bool)
| InvalidatePrefix (prefix : string)
| Clear
| GetStats (now : Z)
| Refresh (key : string) (ttlMs : option Z) (now now2 : Z).

Definition step (c : cache) (o : call) : cache :=
  match o with
  | Set_ key value ttl now now2 now3 => set c key value ttl now now2 now3
  | Get key now => (get c key now).1
  | Has key now => (has c key now).1
  | Delete key => (delete c key).1
  | InvalidatePattern p => (invalidatePattern c p).1
  | InvalidatePrefix p => (invalidatePrefix c p).1
  | Clear => clear c
  | GetStats now => (getStats c now).1
  | Refresh key ttl now now2 => (refresh c key ttl now now2).1
  end.
Definition run (os : list call) : cache := foldl step new_cache os.

(** *** The abstract map: keys with a value and an expiry, without a bound *)

Definition spec := string → option (V * Z).

Definition spec_step (m : spec) (o : call) : spec :=
  match o with
  | Set_ key value ttl now _ _ => λ k, if decide (k = key) then Some (value, now + default defaultTtlMs ttl) else m k
  | Delete key => λ k, if decide (k = key) then None else m k
  | InvalidatePattern p => λ k, if p k then None else m k
  | InvalidatePrefix p => λ k, match regexp ("^" +:+ p) with Some q => if q k then None else m k | None => m k end
  | Clear => λ _, None
  | Refresh key ttl now _ => λ k, if decide (k = key) then (λ x, (x.1, now + default defaultTtlMs ttl)) <$> m k else m k
  | Get _ _ | Has _ _ | GetStats _ => m
  end.
Definition spec_run (os : list call) : spec := foldl spec_step (λ _, None) os.

Definition spec_get (m : spec) (key : string) (now : Z) : option V :=
  match m key with Some (v, expiry) => if expiry <? now then None else Some v | None => None end.

(** What the cache holds is what the map holds. *)
Record refines (c : cache) (m : spec) : Prop := {
  keys_distinct : NoDup (entries c).*1;
  agrees : ∀ k e, aget k (entries c) = Some e → m k = Some (ce_value e, ce_expiresAt e);
}.
End Cache.

Section Properties.
Context {V : Type} (regexp : string → option (string → bool)).
Context (maxSize : nat) (defaultTtlMs staleThresholdMs : Z).

Notation cache := (cache V).
Notation set := (set maxSize defaultTtlMs).
Notation get := (get staleThresholdMs).
Notation step := (@step V regexp maxSize defaultTtlMs staleThresholdMs).
Notation run := (@run V regexp maxSize defaultTtlMs staleThresholdMs).
Notation spec_step := (@spec_step V regexp defaultTtlMs).
Notation spec_run := (@spec_run V regexp defaultTtlMs).

(** *** Part of a map *)

Lemma aget_filter (P : string * CacheEntry V → Prop) `{∀ x, Decision (P x)} k e l :
  NoDup l.*1 → aget k (filter P l) = Some e → aget k l = Some e ∧ P (k, e).
Proof.
  intros Hn H1%aget_Some_elem. apply list_elem_of_filter in H1 as [Hp Hin]. split; [by apply elem_aget|done].
Qed.

Lemma filter_keys_NoDup (P : string * CacheEntry V → Prop) `{∀ x, Decision (P x)} l : NoDup l.*1 → NoDup (filter P l).*1.
Proof. intros Hn. eapply sublist_NoDup; [exact Hn|]. apply fmap_sublist, sublist_filter. Qed.

Lemma refines_sub (c c' : cache) m :
  refines c m → NoDup (entries c').*1 → (∀ k e, aget k (entries c') = Some e → aget k (entries c) = Some e) → refines c' m.
Proof. intros [H1 H2] Hn H. split; [done|]. intros k e He. by apply H2, H. Qed.

Lemma adel_Some k k' (l : list (string * CacheEntry V)) e : NoDup l.*1 → aget k' (adel k l) = Some e → aget k' l = Some e.
Proof. intros Hn. rewrite aget_adel by done. by case_decide. Qed.

Lemma refines_clean (c : cache) m now : refines c m → refines (cleanExpired c now) m.
Proof.
  intros H. eapply refines_sub; [done|apply filter_keys_NoDup, H|]. intros k e [He _]%aget_filter; [done|apply H].
Qed.

Lemma refines_evict (c : cache) m now : refines c m → refines (evictLRU c now) m.
Proof.
  intros H. unfold evictLRU. destruct (foldl _ _ _).1 as [[|a s]|]; [done| |done].
  eapply refines_sub; [done|apply adel_keys_NoDup, H|]. intros k e. apply adel_Some, H.
Qed.

Lemma refines_put (c : cache) m key e m' :
  refines c m → m' key = Some (ce_value e, ce_expiresAt e) → (∀ k, k ≠ key → m' k = m k) →
  refines (with_entries c (aput key e (entries c))) m'.
Proof.
  intros [H1 H2] Hk Ho. split; [by apply aput_keys_NoDup|]. intros k e'. cbn. rewrite aget_aput.
  case_decide; [by intros [= <-]; subst|]. intros He. rewrite Ho by done. by apply H2.
Qed.

Lemma refines_step c m o : refines c m → refines (step c o) (spec_step m o).
Proof.
  intros H. destruct o as [key value ttl now now2 now3|key now|key now|key|p|p| |now|key ttl now now2]; cbn [BoundedCache.step BoundedCache.spec_step].
  - unfold BoundedCache.set. eapply refines_put.
    + destruct (_ && _); [apply refines_evict|]; apply refines_clean, H.
    + cbn. by rewrite decide_True.
    + intros k Hk. by rewrite decide_False.
  - unfold BoundedCache.get. destruct (aget key (entries c)) as [e|] eqn:E; [|by eapply refines_sub; [done|apply H|]].
    destruct (expired now e).
    + eapply refines_sub; [done|apply adel_keys_NoDup, H|]. intros k e'. apply adel_Some, H.
    + split; [apply aput_keys_NoDup, H|]. intros k e'. cbn. rewrite aget_aput. case_decide; [subst; intros [= <-]; by rewrite (agrees _ _ H _ _ E)|by apply H].
  - unfold has. destruct (aget key (entries c)) as [e|]; [|done]. destruct (expired now e); [|done].
    eapply refines_sub; [done|apply adel_keys_NoDup, H|]. intros k e'. apply adel_Some, H.
  - split; [apply adel_keys_NoDup, H|]. intros k e'. cbn. rewrite aget_adel by apply H. case_decide; [done|]. by apply H.
  - split; [apply filter_keys_NoDup, H|]. intros k e' [He Hp]%aget_filter; [|apply H]. cbn in Hp. rewrite Hp. by apply H.
  - unfold invalidatePrefix. destruct (regexp _) as [q|]; [|done].
    split; [apply filter_keys_NoDup, H|]. intros k e' [He Hp]%aget_filter; [|apply H]. cbn in Hp. rewrite Hp. by apply H.
  - split; [constructor|done].
  - by apply refines_clean.
  - unfold refresh. destruct (aget key (entries c)) as [e|] eqn:E; cbn [fst].
    + eapply refines_put; [done| |].
      * rewrite decide_True by done. by rewrite (agrees _ _ H _ _ E).
      * intros k Hk. by rewrite decide_False.
    + split; [apply H|]. intros k e' He. case_decide as Hk; [congruence|]. by apply H.
Qed.

Lemma refines_run os : refines (run os) (spec_run os).
Proof.
  unfold BoundedCache.run, BoundedCache.spec_run. assert (refines (@new_cache V) (λ _, None)) as H by (split; [constructor|done]).
  revert H. generalize (@new_cache V) (λ _ : string, @None (V * Z)). induction os as [|o os IH]; intros c m H; [done|]. cbn.
  by apply IH, refines_step.
Qed.

(** The cache refines a map without bound.  After any calls, an answer is the value that the map has for the key: the one
    that was set last, not deleted, invalidated or cleared since, whose expiry, as set or refreshed last, has not passed; and what
    the cache says it has, the map has. *)
Theorem cache_refines os key now :
  (∀ v, (get (run os) key now).2 = Some v → spec_get (spec_run os) key now = Some v) ∧
  ((has (run os) key now).2 = true → is_Some (spec_get (spec_run os) key now)).
Proof.
  destruct (refines_run os) as [_ H]. unfold BoundedCache.get, has, spec_get.
  destruct (aget key (entries (run os))) as [e|] eqn:E; [|done]. rewrite (H _ _ E). unfold expired.
  destruct (ce_expiresAt e <? now); cbn; [done|]. split; [done|by eexists].
Qed.

(** *** Eviction *)

Lemma lru_least (l : list (string * CacheEntry V)) best :
  let r := foldl lru_step best l in
  r.2 ≤ best.2 ∧ (∀ kv, kv ∈ l → r.2 ≤ ce_lastAccessedAt kv.2) ∧
  (r = best ∨ ∃ kv, kv ∈ l ∧ r = (Some kv.1, ce_lastAccessedAt kv.2) ∧ ce_lastAccessedAt kv.2 < best.2).
Proof.
  revert best. induction l as [|kv l IH]; intros best; cbn.
  { split_and!; [lia| |by left]. by intros ? ?%elem_of_nil. }
  destruct (IH (lru_step best kv)) as (H1 & H2 & H3). unfold lru_step in *. destruct (Z.ltb_spec (ce_lastAccessedAt kv.2) best.2) as [Hlt|Hge].
  - cbn in *. split_and!; [lia| |right].
    + intros kv' [-> |?]%elem_of_cons; [done|by apply H2].
    + destruct H3 as [-> |(kv' & Hin & -> & Hlt')]; [exists kv|exists kv']; split_and!; [by apply elem_of_cons; left|done|done|by apply elem_of_cons; right|done|lia].
  - split_and!; [done| |].
    + intros kv' [-> |?]%elem_of_cons; [lia|by apply H2].
    + destruct H3 as [H3|(kv' & Hin & H3)]; [by left|]. right. exists kv'. split; [by apply elem_of_cons; right|done].
Qed.

(** Eviction takes an entry that was not used more recently than any other. *)
Theorem evicts_least (c : cache) now k e :
  NoDup (entries c).*1 → aget k (entries c) = Some e → aget k (entries (evictLRU c now)) = None →
  ∀ k' e', aget k' (entries c) = Some e' → ce_lastAccessedAt e ≤ ce_lastAccessedAt e'.
Proof.
  intros Hn He Hgone k' e' He'. unfold evictLRU in Hgone. destruct (lru_least (entries c) (None, now)) as (_ & Hle & Hc).
  destruct (foldl _ _ _) as [best t]. cbn in *.
  destruct best as [[|a s]|]; cbn in Hgone; [congruence| |congruence]. rewrite aget_adel in Hgone by done.
  case_decide as Hk; [subst k|congruence]. destruct Hc as [[=]|(kv & Hin & [= Hk Ht] & _)]. subst t.
  destruct kv as [k0 e0]. cbn in *. subst k0. apply elem_aget in Hin; [|done]. rewrite Hin in He. injection He as ->.
  by apply (Hle (k', e')), aget_Some_elem.
Qed.

(** What the bound needs: a cache of at least one entry, no empty key, and an eviction later than every use. *)
Record timely (c : cache) (o : call (V := V)) : Prop := {
  keys_named : match o with Set_ key _ _ _ _ _ => key ≠ "" | _ => True end;
  clock_moved : match o with Set_ _ _ _ _ _ now3 => ∀ kv, kv ∈ entries c → ce_lastAccessedAt kv.2 < now3 | _ => True end;
}.

Inductive timely_run : list (@call V) → Prop :=
| timely_nil : timely_run []
| timely_snoc os o : timely_run os → timely (run os) o → timely_run (os ++ [o]).

Lemma evict_shrinks (c : cache) now :
  "" ∉ (entries c).*1 → entries c ≠ [] → (∀ kv, kv ∈ entries c → ce_lastAccessedAt kv.2 < now) →
  S (length (entries (evictLRU c now))) = length (entries c).
Proof.
  intros Hk Hne Hl. unfold evictLRU. destruct (lru_least (entries c) (None, now)) as (_ & Hle & Hc).
  destruct Hc as [Hc|(kv & Hin & Hc & _)]; rewrite Hc in *.
  - exfalso. destruct (entries c) as [|kv l]; [done|]. specialize (Hl kv ltac:(constructor)). specialize (Hle kv ltac:(constructor)). cbn in Hle. lia.
  - cbn. destruct kv as [k e]. cbn in *. assert (k ∈ (entries c).*1) as Hkin by (apply list_elem_of_fmap; by exists (k, e)).
    destruct k as [|a s]; [done|]. clear -Hkin. cbn. induction (entries c) as [|[k' e'] l IH]; [by apply elem_of_nil in Hkin|]. cbn.
    case_decide as Hd; [done|]. rewrite fmap_cons in Hkin. apply elem_of_cons in Hkin as [?|Hkin]; [done|]. cbn. by rewrite IH.
Qed.

Lemma cache_aput_length (k : string) (e : CacheEntry V) l : length (aput k e l) = (if decide (k ∈ l.*1) then length l else S (length l))%nat.
Proof.
  rewrite <- (length_fmap fst (aput k e l)), aput_keys. case_decide; rewrite ?length_app, length_fmap; cbn; lia.
Qed.

Lemma sublist_keys (k : string) (l l' : list (string * CacheEntry V)) : l `sublist_of` l' → k ∈ l.*1 → k ∈ l'.*1.
Proof. intros H Hk. eapply elem_of_sublist; [done|]. by apply fmap_sublist. Qed.

(** What a call other than [set] leaves of the entries: no new key, and no more of them. *)
Lemma others_shrink (c : cache) o :
  NoDup (entries c).*1 → match o with Set_ _ _ _ _ _ _ => False | _ => True end →
  (∀ k, k ∈ (entries (step c o)).*1 → k ∈ (entries c).*1) ∧ (length (entries (step c o)) ≤ length (entries c))%nat.
Proof.
  intros Hn Ho. assert (∀ l : list (string * CacheEntry V), l `sublist_of` entries c →
    (∀ k, k ∈ l.*1 → k ∈ (entries c).*1) ∧ (length l ≤ length (entries c))%nat) as Hsub.
  { intros l Hl. split; [intros k; by apply sublist_keys|by apply sublist_length]. }
  assert (∀ k e e', aget k (entries c) = Some e → (∀ k', k' ∈ (aput k e' (entries c)).*1 → k' ∈ (entries c).*1) ∧
    (length (aput k e' (entries c)) ≤ length (entries c))%nat) as Hput.
  { intros k e e' He%aget_Some_elem. assert (k ∈ (entries c).*1) by (apply list_elem_of_fmap; by exists (k, e)).
    rewrite cache_aput_length, aput_keys, !decide_True by done. done. }
  destruct o as [| key now|key now|key|p|p| |now|key ttl now now2]; [done|..]; cbn [BoundedCache.step].
  - unfold BoundedCache.get. destruct (aget key (entries c)) as [e|] eqn:E; [|by apply Hsub].
    destruct (expired now e); cbn; [apply Hsub, adel_sublist|by eapply Hput].
  - unfold has. destruct (aget key (entries c)) as [e|]; [|by apply Hsub]. destruct (expired now e); [apply Hsub, adel_sublist|by apply Hsub].
  - apply Hsub, adel_sublist.
  - apply Hsub, sublist_filter.
  - unfold invalidatePrefix. destruct (regexp _); [apply Hsub, sublist_filter|by apply Hsub].
  - apply Hsub, sublist_nil_l.
  - apply Hsub, sublist_filter.
  - unfold refresh. destruct (aget key (entries c)) as [e|] eqn:E; [by eapply Hput|by apply Hsub].
Qed.

Lemma set_bounded (c : cache) key value ttl now now2 now3 :
  (1 ≤ maxSize)%nat → (length (entries c) ≤ maxSize)%nat → "" ∉ (entries c).*1 →
  (∀ kv, kv ∈ entries c → ce_lastAccessedAt kv.2 < now3) →
  (length (entries (set c key value ttl now now2 now3)) ≤ maxSize)%nat ∧
  ∀ k, k ∈ (entries (set c key value ttl now now2 now3)).*1 → k = key ∨ k ∈ (entries c).*1.
Proof.
  intros Hm Hl Hk Ht. unfold BoundedCache.set. set (c1 := cleanExpired c now2).
  assert (entries c1 `sublist_of` entries c) as Hs by apply sublist_filter. pose proof (sublist_length _ _ Hs) as Hlen.
  assert (entries (evictLRU c1 now3) `sublist_of` entries c1) as He.
  { unfold evictLRU. destruct (foldl _ _ _).1 as [[|a s]|]; [done|apply adel_sublist|done]. }
  set (c2 := if (maxSize <=? length (entries c1))%nat && negb (bool_decide (key ∈ (entries c1).*1)) then evictLRU c1 now3 else c1).
  cbn [entries with_entries]. rewrite cache_aput_length, aput_keys.
  assert (entries c2 `sublist_of` entries c1) as Hs2 by (unfold c2; by destruct (_ && _)). split.
  - destruct (decide (key ∈ (entries c2).*1)); [apply sublist_length in Hs2; lia|]. unfold c2 in *.
    destruct (Nat.leb_spec maxSize (length (entries c1))) as [Hfull|]; cbn [andb] in *; [|lia].
    destruct (bool_decide_reflect (key ∈ (entries c1).*1)) as [|_]; cbn [negb] in *; [done|].
    rewrite evict_shrinks; [lia| | |].
    + intros H. apply Hk. by eapply sublist_keys.
    + intros E. rewrite E in Hfull. cbn in Hfull. lia.
    + intros kv Hkv. apply Ht. by eapply elem_of_sublist.
  - intros k. assert (k ∈ (entries c2).*1 → k ∈ (entries c).*1) as H by (intros H; do 2 (eapply sublist_keys; [done|]); done).
    case_decide; [by right; apply H|]. rewrite elem_of_app, list_elem_of_singleton. tauto.
Qed.

(** On a clock that moves between calls, and without empty keys, the cache never holds more entries than its bound. *)
Theorem cache_bounded os : (1 ≤ maxSize)%nat → timely_run os → (size (run os) ≤ maxSize)%nat.
Proof.
  intros Hm Ht. unfold size. assert ((length (entries (run os)) ≤ maxSize)%nat ∧ "" ∉ (entries (run os)).*1) as [H _]; [|done].
  induction Ht as [|os o Hr [IH1 IH2] Ho]; [split; [cbn; lia|by apply not_elem_of_nil]|].
  unfold BoundedCache.run. rewrite foldl_app. cbn [foldl]. fold (run os). destruct (refines_run os) as [Hn _]. destruct Ho as [Hk Hc].
  destruct o as [key value ttl now now2 now3| | | | | | | |].
  1: { destruct (set_bounded (run os) key value ttl now now2 now3) as [H1 H2]; [done..|]. split; [done|].
       intros [E|H]%H2; [by apply Hk|done]. }
  all: match goal with |- context [BoundedCache.step _ _ _ _ _ ?o] =>
    destruct (others_shrink (run os) o Hn I) as [H1 H2]; split; [lia|]; intros H; by apply IH2, H1 end.
Qed.
End Properties.

(** ** Concrete runs *)

Definition no_regexp (_ : string) : option (string → bool) := None.
Notation toy_run := (run (V := Z) no_regexp 2 1000 100).
Definition put (k : string) (v t : Z) : call (V := Z) := Set_ k v None t t t.

Lemma cache_refines_witness :
  (get (V := Z) 100 (toy_run [put "a" 1 0; put "b" 2 1; put "a" 3 2]) "a" 3).2 = Some 3 ∧
  spec_get (spec_run (V := Z) no_regexp 1000 [put "a" 1 0; put "b" 2 1; put "a" 3 2]) "a" 3 = Some 3.
Proof.
  split; [by vm_compute|]. apply (cache_refines no_regexp 2 1000 100 [put "a" 1 0; put "b" 2 1; put "a" 3 2] "a" 3). by vm_compute.
Defined.

(** The least recently used of three goes, and the bound holds. *)
Example evicts_oldest :
  keys (toy_run [put "a" 1 0; put "b" 2 1; Get "a" 2; put "c" 3 3]) = ["a"; "c"].
Proof. by vm_compute. Qed.

(** Entries used at the instant of the eviction are not evicted, and the cache outgrows its bound. *)
Lemma same_instant_overflow : size (toy_run [put "a" 1 0; put "b" 2 0; put "c" 3 0; put "d" 4 0]) = 4%nat.
Proof. by vm_compute. Qed.

(** The empty key is never evicted, and nothing else in its place. *)
Lemma empty_key_overflow : size (toy_run [put "" 1 0; put "b" 2 1; put "c" 3 2; put "d" 4 3]) = 4%nat.
Proof. by vm_compute. Qed.

(** A prefix is taken for a regular expression: the dot of a prefix matches any character, so with an engine that does so
    other keys are invalidated too. *)
Lemma prefix_is_pattern :
  let engine := λ s, if decide (s = "^a.b") then Some (λ k, bool_decide (String.get 0 k = Some "a"%char) && bool_decide (String.get 2 k = Some "b"%char)) else None in
  keys (invalidatePrefix (V := Z) engine (toy_run [put "a.b1" 1 0; put "axb1" 2 1]) "a.b").1 = [].
Proof. by vm_compute. Qed.

(** A refresh revives an entry that has expired and was not cleaned yet. *)
Lemma refresh_revives :
  (get (V := Z) 100 (toy_run [put "a" 1 0; Refresh "a" None 5000 5000]) "a" 5001).2 = Some 1 ∧
  (get (V := Z) 100 (toy_run [put "a" 1 0]) "a" 5001).2 = None.
Proof. by vm_compute. Qed.
