(* ===== verification/Keyring.v ===== *)
(** * Signing keys of the oracle

    Models [oracle/keyring.ts], the keys an oracle signs with, their windows and their rotation, with [canonicalJson] and
    [signEvidence] of [ipfs/evidence.ts].  [hmac] is the HMAC of Node; the schema check is what the zod schema of a key
    documents.

    Shown: what is signed verifies ([sign_verifies]); and what a rotation does ([rotation_exact]): afterwards a signature is
    accepted exactly when it is one of the new key in its window, or was accepted before and either lies before the end
    of the overlap or belongs to a key that starts after the new one, and within the window of the new key it is the new key that
    signs.  Where the code falls short: the timestamp is not part of what is signed, so whoever has a retired key signs
    with a date of its window for ever ([retired_key_backdates]); a rotation does not extend a window that ends before the new
    key starts, and nothing can be signed in between ([rotation_gap]). *)
From S2P Require Import Prelude Json.

(** ** Evidence *)

Fixpoint canonicalJson (j : json) : string :=
  match j with
  | JArr l => "[" +:+ join "," (map canonicalJson l) +:+ "]"
  | JObj l =>
      let texts := map (λ kv, (fst kv, canonicalJson (snd kv))) l in
      "{" +:+ join "," ((λ k, JSON_stringify (JStr k) +:+ ":" +:+ default "" (aget k texts)) <$> merge_sort str_le l.*1) +:+ "}"
  | _ => JSON_stringify j
  end.

Section Keyring.
Context (hmac : string → string → string).

Definition signEvidence (payload : json) (secret : string) : string := hmac secret (canonicalJson payload).

(** ** Keys *)

Record OracleKey := { keyId : string; secret : string; validFromMs : Z; validUntilMs : option Z }.
Record SignedOraclePayload := { sp_keyId : string; sp_timestampMs : Z; sp_signature : string }.
Record VerifyResult := { vr_valid : bool; vr_keyId : option string; vr_error : option string }.

Definition OracleKeySchema (k : OracleKey) : result string OracleKey :=
  if negb (bool_decide (keyId k = "")) && negb (bool_decide (secret k = "")) && (0 <=? validFromMs k) &&
     match validUntilMs k with None => true | Some u => (0 <=? u) && (validFromMs k <? u) end
  then Ok k else Err "ZodError".

Definition isKeyValidAt (k : OracleKey) (timestampMs : Z) : bool :=
  if timestampMs <? validFromMs k then false
  else match validUntilMs k with Some u => negb (u <=? timestampMs) | None => true end.

Notation keyring := (list OracleKey).

Fixpoint parse_keys (keys : list OracleKey) : result string (list OracleKey) :=
  match keys with
  | [] => Ok []
  | k :: keys => k ← OracleKeySchema k; keys ← parse_keys keys; Ok (k :: keys)
  end.

Fixpoint check_distinct (seen : list string) (keys : list OracleKey) : result string unit :=
  match keys with
  | [] => Ok tt
  | k :: keys => if decide (keyId k ∈ seen) then Err ("Duplicate oracle key id: " +:+ keyId k) else check_distinct (keyId k :: seen) keys
  end.

Definition OracleKeyring (keys : list OracleKey) : result string keyring :=
  parsed ← parse_keys keys;
  _ ← check_distinct [] parsed;
  Ok parsed.

Definition list_ (r : keyring) : list OracleKey := r.
Definition keysValidAt (r : keyring) (timestampMs : Z) : list OracleKey := filter (λ k, isKeyValidAt k timestampMs = true) r.
Definition resolveKey (r : keyring) (timestampMs : Z) : option OracleKey := last (keysValidAt r timestampMs).
Definition withKey (r : keyring) (k : OracleKey) : result string keyring := OracleKeyring (r ++ [k]).

(** Whether the rotation sets a new end for the key. *)
Definition rebound (newFrom overlapUntil : Z) (k : OracleKey) : bool :=
  (validFromMs k <=? newFrom) && match validUntilMs k with Some u => overlapUntil <? u | None => true end.

Definition rebind (newFrom overlapUntil : Z) (k : OracleKey) : OracleKey :=
  if rebound newFrom overlapUntil k then {| keyId := keyId k; secret := secret k; validFromMs := validFromMs k; validUntilMs := Some overlapUntil |}
  else k.

Definition rotateKey (r : keyring) (newKey : OracleKey) (overlapMs : Z) : result string (keyring * list OracleKey) :=
  _ ← throw_if (overlapMs <? 0) "overlapMs must be non-negative";
  parsedNew ← OracleKeySchema newKey;
  let overlapUntil := validFromMs parsedNew + overlapMs in
  ring ← OracleKeyring ((rebind (validFromMs parsedNew) overlapUntil <$> r) ++ [parsedNew]);
  Ok (ring, rebind (validFromMs parsedNew) overlapUntil <$> filter (λ k, rebound (validFromMs parsedNew) overlapUntil k = true) r).

(** An empty [keyId] counts as none. *)
Definition sign (r : keyring) (payload : json) (timestampMs : Z) (kid : option string) : result string SignedOraclePayload :=
  let key := match kid with
             | Some (String _ _ as id) => List.find (λ k, bool_decide (keyId k = id)) (keysValidAt r timestampMs)
             | _ => resolveKey r timestampMs
             end in
  match key with
  | None => Err ("No oracle key valid at " +:+ Z_to_string timestampMs +:+
                 match kid with Some (String _ _ as id) => " with id " +:+ id | _ => "" end)
  | Some k => Ok {| sp_keyId := keyId k; sp_timestampMs := timestampMs; sp_signature := signEvidence payload (secret k) |}
  end.

Definition verify (r : keyring) (payload : json) (s : SignedOraclePayload) : VerifyResult :=
  match List.find (λ k, bool_decide (keyId k = sp_keyId s)) r with
  | None => {| vr_valid := false; vr_keyId := None; vr_error := Some ("Unknown oracle key id: " +:+ sp_keyId s) |}
  | Some k =>
      if negb (isKeyValidAt k (sp_timestampMs s)) then
        {| vr_valid := false; vr_keyId := Some (keyId k);
           vr_error := Some ("Key " +:+ keyId k +:+ " was not valid at " +:+ Z_to_string (sp_timestampMs s)) |}
      else if decide (signEvidence payload (secret k) = sp_signature s) then {| vr_valid := true; vr_keyId := Some (keyId k); vr_error := None |}
      else {| vr_valid := false; vr_keyId := Some (keyId k); vr_error := Some "Signature verification failed" |}
  end.

Fixpoint verify_each (r : keyring) (payload : json) (errors : list string) (l : list SignedOraclePayload) : VerifyResult :=
  match l with
  | [] => {| vr_valid := false; vr_keyId := None; vr_error := Some (join "; " errors) |}
  | s :: l =>
      let v := verify r payload s in
      if vr_valid v then v else verify_each r payload (errors ++ match vr_error v with Some e => [e] | None => [] end) l
  end.

Definition verifyAny (r : keyring) (payload : json) (signatures : list SignedOraclePayload) : VerifyResult :=
  match signatures with
  | [] => {| vr_valid := false; vr_keyId := None; vr_error := Some "No signatures supplied" |}
  | _ => verify_each r payload [] signatures
  end.

(** [None] for an end is infinity. *)
Definition overlapWindow (a b : OracleKey) : option (Z * option Z) :=
  let startMs := Z.max (validFromMs a) (validFromMs b) in
  let endMs := match validUntilMs a, validUntilMs b with
               | Some x, Some y => Some (Z.min x y) | Some x, None => Some x | None, y => y end in
  match endMs with
  | Some e => if e <=? startMs then None else Some (startMs, Some e)
  | None => Some (startMs, None)
  end.

(** ** Properties *)

Lemma parse_keys_ok l r : parse_keys l = Ok r → r = l ∧ Forall (λ k, OracleKeySchema k = Ok k) l.
Proof.
  revert r. induction l as [|k l IH]; intros r; cbn; [by intros [= <-]|].
  intros (k' & Hk & (r' & Hr & [= <-])%bind_ok)%bind_ok. destruct (IH _ Hr) as [-> Hf].
  assert (k' = k) as -> by (unfold OracleKeySchema in Hk; destruct (_ && _); congruence). by split; [|constructor].
Qed.

Lemma check_distinct_ok seen l : check_distinct seen l = Ok tt → NoDup (keyId <$> l) ∧ ∀ k, k ∈ l → keyId k ∉ seen.
Proof.
  revert seen. induction l as [|k l IH]; intros seen; cbn [check_distinct]; [split; [constructor|by intros ? ?%elem_of_nil]|].
  case_decide; [done|]. intros [H1 H2]%IH. rewrite fmap_cons. split.
  - constructor; [|done]. intros (k' & E & Hk')%list_elem_of_fmap. apply (H2 k' Hk'). rewrite <- E. by constructor.
  - intros k' [-> |Hk']%elem_of_cons; [done|]. intros Hs. apply (H2 k' Hk'). by constructor.
Qed.

(** A keyring is what it was built from, with distinct identifiers. *)
Lemma keyring_ok l r : OracleKeyring l = Ok r → r = l ∧ NoDup (keyId <$> l).
Proof.
  unfold OracleKeyring. intros (p & [-> _]%parse_keys_ok & ([] & [H _]%check_distinct_ok & [= <-])%bind_ok)%bind_ok. done.
Qed.

Lemma find_key (r : keyring) k id : NoDup (keyId <$> r) → k ∈ r → keyId k = id → List.find (λ k, bool_decide (keyId k = id)) r = Some k.
Proof.
  intros Hn Hk Hid. induction r as [|k' r IH]; [by apply elem_of_nil in Hk|]. cbn. rewrite fmap_cons in Hn. inversion_clear Hn as [|? ? Hni Hn'].
  apply elem_of_cons in Hk as [-> |Hk]; [by rewrite bool_decide_eq_true_2|].
  rewrite bool_decide_eq_false_2; [by apply IH|]. intros E. apply Hni, list_elem_of_fmap. exists k. by rewrite Hid.
Qed.

Lemma found_key (r : keyring) k id : List.find (λ k, bool_decide (keyId k = id)) r = Some k → k ∈ r ∧ keyId k = id.
Proof. intros [H1%list_elem_of_In H2%bool_decide_eq_true]%List.find_some. done. Qed.

(** When a signature is accepted. *)
Lemma verify_exact (r : keyring) payload s : NoDup (keyId <$> r) →
  vr_valid (verify r payload s) = true ↔
  ∃ k, k ∈ r ∧ keyId k = sp_keyId s ∧ isKeyValidAt k (sp_timestampMs s) = true ∧ signEvidence payload (secret k) = sp_signature s.
Proof.
  intros Hn. unfold verify. split.
  - destruct (List.find _ r) as [k|] eqn:E; [|done]. apply found_key in E as [Hk He].
    destruct (isKeyValidAt k (sp_timestampMs s)) eqn:Ev; cbn [negb]; [|done]. case_decide; [|done]. intros _. by exists k.
  - intros (k & Hk & He & Hv & Hs). rewrite (find_key r k) by done. rewrite Hv. cbn [negb]. by rewrite decide_True.
Qed.

(** What a keyring signs, it verifies, as the key it names and at the time it states. *)
Theorem sign_verifies l r payload t kid s :
  OracleKeyring l = Ok r → sign r payload t kid = Ok s →
  vr_valid (verify r payload s) = true ∧ sp_timestampMs s = t ∧ match kid with Some (String _ _ as id) => sp_keyId s = id | _ => True end.
Proof.
  intros [-> Hn]%keyring_ok Hs. unfold sign in Hs. destruct (match kid with Some (String _ _ as id) => _ | _ => _ end) as [k|] eqn:E; [|done].
  injection Hs as <-. assert (k ∈ keysValidAt l t) as Hk.
  { destruct kid as [[|a x]|]; [by apply last_Some_elem_of|by apply found_key in E as [? _]|by apply last_Some_elem_of]. }
  apply list_elem_of_filter in Hk as [Hv Hk]. split_and!; [|done|].
  - apply verify_exact; [done|]. by exists k.
  - destruct kid as [[|a x]|]; [done| |done]. by apply found_key in E as [_ ?].
Qed.

Lemma rebind_id f u k : keyId (rebind f u k) = keyId k.
Proof. unfold rebind. by destruct (rebound f u k). Qed.
Lemma rebind_secret f u k : secret (rebind f u k) = secret k.
Proof. unfold rebind. by destruct (rebound f u k). Qed.

Lemma rebind_valid f u k t :
  isKeyValidAt (rebind f u k) t = true ↔ isKeyValidAt k t = true ∧ (t < u ∨ f < validFromMs k).
Proof.
  unfold rebind, rebound, isKeyValidAt. destruct (Z.leb_spec (validFromMs k) f) as [Hf|Hf]; cbn [andb].
  - destruct (validUntilMs k) as [v|] eqn:Ev.
    + destruct (Z.ltb_spec u v) as [Hu|Hu]; cbn; [|rewrite Ev]; destruct (Z.ltb_spec t (validFromMs k)); rewrite ?negb_true_iff, ?Z.leb_gt; [naive_solver|..|naive_solver|]; [lia|lia].
    + cbn. destruct (Z.ltb_spec t (validFromMs k)); rewrite ?negb_true_iff, ?Z.leb_gt; [naive_solver|lia].
  - naive_solver.
Qed.

(** What a rotation does.  A signature is accepted afterwards exactly when it is one of the new key within its window, or
    was accepted before and lies before the end of the overlap or belongs to a key that starts after the new one.  Within the
    window of the new key it is the new key that signs. *)
Theorem rotation_exact l r newKey overlapMs ring extended :
  OracleKeyring l = Ok r → rotateKey r newKey overlapMs = Ok (ring, extended) →
  (∀ payload s, vr_valid (verify ring payload s) = true ↔
     (sp_keyId s = keyId newKey ∧ isKeyValidAt newKey (sp_timestampMs s) = true ∧ signEvidence payload (secret newKey) = sp_signature s) ∨
     (vr_valid (verify r payload s) = true ∧
      (sp_timestampMs s < validFromMs newKey + overlapMs ∨ ∃ k, k ∈ r ∧ keyId k = sp_keyId s ∧ validFromMs newKey < validFromMs k))) ∧
  ∀ payload t, isKeyValidAt newKey t = true →
    sign ring payload t None = Ok {| sp_keyId := keyId newKey; sp_timestampMs := t; sp_signature := signEvidence payload (secret newKey) |}.
Proof.
  intros [-> Hn]%keyring_ok. unfold rotateKey. intros (? & _ & (new & Hnew & (ring' & [-> Hd]%keyring_ok & [= <- _])%bind_ok)%bind_ok)%bind_ok.
  assert (new = newKey) as -> by (unfold OracleKeySchema in Hnew; destruct (_ && _); congruence). split.
  - intros payload s. rewrite !verify_exact by done. split.
    + intros (k & [(k' & -> & Hk')%list_elem_of_fmap| ->%list_elem_of_singleton]%elem_of_app & Hid & Hv & Hs); [right|by left].
      rewrite rebind_id in Hid. rewrite rebind_secret in Hs. apply rebind_valid in Hv as [Hv Ht]. split; [by exists k'|].
      destruct Ht as [Ht|Ht]; [by left|]. right. by exists k'.
    + intros [(Hid & Hv & Hs)|[(k & Hk & Hid & Hv & Hs) Ht]].
      * exists newKey. split_and!; try done. apply elem_of_app. right. by apply list_elem_of_singleton.
      * exists (rebind (validFromMs newKey) (validFromMs newKey + overlapMs) k). rewrite rebind_id, rebind_secret, rebind_valid. split_and!; try done.
        { apply elem_of_app. left. by apply list_elem_of_fmap_2. }
        destruct Ht as [Ht|(k' & Hk' & Hid' & Ht)]; [by left|]. right. assert (k' = k) as ->; [|done].
        pose proof (find_key l k _ Hn Hk Hid) as E. pose proof (find_key l k' _ Hn Hk' Hid') as E'. congruence.
  - intros payload t Hv. unfold sign, resolveKey, keysValidAt. rewrite filter_app, filter_cons, decide_True by done.
    by rewrite filter_nil, last_snoc.
Qed.
End Keyring.

(** ** Concrete runs *)

Definition toy_hmac (k m : string) : string := k +:+ "|" +:+ m.
Definition old_key : OracleKey := {| keyId := "k1"; secret := "s1"; validFromMs := 0; validUntilMs := None |}.
Definition new_key : OracleKey := {| keyId := "k2"; secret := "s2"; validFromMs := 100; validUntilMs := None |}.
Definition closed_key : OracleKey := {| keyId := "k1"; secret := "s1"; validFromMs := 0; validUntilMs := Some 50 |}.
Definition rotated : list OracleKey := [{| keyId := "k1"; secret := "s1"; validFromMs := 0; validUntilMs := Some 110 |}; new_key].

Lemma sign_verifies_witness :
  ∃ s, sign toy_hmac [old_key] (JStr "p") 5 None = Ok s ∧ vr_valid (verify toy_hmac [old_key] (JStr "p") s) = true.
Proof. eexists. split; [reflexivity|]. apply (sign_verifies toy_hmac [old_key] [old_key] (JStr "p") 5 None); reflexivity. Defined.

Lemma rotation_exact_witness :
  rotateKey [old_key] new_key 10 = Ok (rotated, [{| keyId := "k1"; secret := "s1"; validFromMs := 0; validUntilMs := Some 110 |}]) ∧
  ∀ payload s, vr_valid (verify toy_hmac rotated payload s) = true → sp_timestampMs s < 110 ∨ sp_keyId s = "k2".
Proof.
  split; [reflexivity|]. intros payload s H.
  apply (rotation_exact toy_hmac [old_key] [old_key] new_key 10 rotated _ eq_refl eq_refl) in H as [(H & _)|[_ [H|(k & Hk & _ & H)]]]; [by right|by left|].
  apply list_elem_of_singleton in Hk as ->. by cbn in H.
Defined.

(** The timestamp is not part of what is signed: after the old key was retired, whoever has its secret signs any payload
    with a date of its window, and one signature verifies under every date of the window. *)
Lemma retired_key_backdates payload t :
  0 ≤ t < 110 → vr_valid (verify toy_hmac rotated payload {| sp_keyId := "k1"; sp_timestampMs := t; sp_signature := signEvidence toy_hmac payload "s1" |}) = true.
Proof.
  intros Ht. apply verify_exact; [apply (bool_decide_unpack _); by vm_compute|].
  eexists. split; [by constructor|]. split_and!; [done| |done]. unfold isKeyValidAt. cbn.
  destruct (Z.ltb_spec t 0); [lia|]. destruct (Z.leb_spec 110 t); [lia|done].
Qed.

(** A key that ends before the new one starts is not extended, whatever the overlap: in between nothing can be signed. *)
Lemma rotation_gap :
  rotateKey [closed_key] new_key 1000 = Ok ([closed_key; new_key], []) ∧
  sign toy_hmac [closed_key; new_key] JNull 70 None = Err "No oracle key valid at 70".
Proof. by vm_compute. Qed.
