(* ===== verification/KycCommitments.v ===== *)
(** * Commitments to KYC decisions

    Models [api/src/compliance/services/kyc-commitment.service.ts].  [sha256] and [hmac] are those of Node, [sign] the signature with
    the compliance key, which may fail, and [verify_with] the check of a signature with a given public key.

    Shown: a disclosure to a regulator carries the decision that the commitment was made for, with a valid proof, whatever was
    committed, receipted and disclosed before ([disclosure_sound]); commitments bind ([commitment_binds]); a receipt verifies until it
    is changed ([receipt_verifies]); and who is eligible on the chain ([tier_exact]).  Where the code falls short: an expired
    verification is committed as a retail investor ([expired_is_retail]), a receipt is checked with the key it carries
    ([forged_receipt_verifies]), and the token of a regulator follows from its name ([token_is_public]). *)
From S2P Require Import Prelude JsDate Json KycStore.

Inductive EligibilityTier := TIER_0_UNVERIFIED | TIER_1_RETAIL_STANDARD | TIER_2_ACCREDITED | TIER_3_INSTITUTIONAL.
#[export] Instance EligibilityTier_eq_dec : EqDecision EligibilityTier.
Proof. solve_decision. Defined.

Definition tier_text (t : EligibilityTier) : string :=
  match t with
  | TIER_0_UNVERIFIED => "TIER_0_UNVERIFIED" | TIER_1_RETAIL_STANDARD => "TIER_1_RETAIL_STANDARD"
  | TIER_2_ACCREDITED => "TIER_2_ACCREDITED" | TIER_3_INSTITUTIONAL => "TIER_3_INSTITUTIONAL"
  end.

Record OnChainKycCommitment := { oc_commitmentHash : string; oc_eligibilityTier : EligibilityTier; oc_expirationTimestamp : Z; oc_issuedAt : Z }.
Record SignedKycReceipt := {
  sr_commitmentHash : string;
  sr_eligibilityTier : EligibilityTier;
  sr_issuedAt : Z;
  sr_expirationTimestamp : Z;
  sr_signature : string;
  sr_signerPublicKey : string;
  sr_decisionReason : option string;
}.
Record RegulatorDisclosureRequest := { rd_regulatorId : string; rd_authorizationToken : string; rd_commitmentHash : string }.
Record offChainAudit := {
  oa_investorAddress : string;
  oa_jurisdiction : string;
  oa_kycStatus : KycStatus;
  oa_providerReference : string;
  oa_verifiedAt : string;
  oa_salt : string;
}.
Record stored_commitment := { st_commitment : OnChainKycCommitment; st_audit : offChainAudit; st_receipt : option SignedKycReceipt }.
Record RegulatorDisclosurePackage := {
  dp_commitmentHash : string;
  dp_eligibilityTier : EligibilityTier;
  dp_audit : offChainAudit;
  dp_proofValid : bool;
  dp_disclosedTo : string;
  dp_disclosedAt : Z;
  dp_accessReason : string;
}.
Record commitment_input := {
  ci_investorAddress : string;
  ci_kycStatus : KycStatus;
  ci_jurisdiction : string;
  ci_expiresAt : option Z;
  ci_tranche : option string;
  ci_providerReference : option string;
}.

Definition authorizedRegulators : list string := ["REGULATOR_SEC"; "REGULATOR_FINMA"; "REGULATOR_MAS"].

(** [x || fallback] of an optional text. *)
Definition or_else (x : option string) (fallback : string) : string := match x with Some (String _ _ as s) => s | _ => fallback end.

Section Service.
Context (sha256 : string → string) (hmac : string → string → string).
Context (sign : string → result string string) (verify_with : string → string → string → bool) (publicKey secretSalt : string).

Definition store := list (string * stored_commitment).

Definition mapToEligibilityTier (s : KycStatus) (tranche : option string) : EligibilityTier :=
  match s with
  | NONE | PENDING | REJECTED => TIER_0_UNVERIFIED
  | ACCREDITED => if decide (tranche = Some "GREEN_INSTITUTIONAL") then TIER_3_INSTITUTIONAL else TIER_2_ACCREDITED
  | _ => TIER_1_RETAIL_STANDARD
  end.

Definition salt_of (address : string) (issuedAt : Z) : string := hmac secretSalt (address +:+ ":" +:+ Z_to_string issuedAt).

Definition canonicalData (address : string) (t : EligibilityTier) (jurisdiction salt : string) (issuedAt : Z) : string :=
  address +:+ ":" +:+ tier_text t +:+ ":" +:+ toUpperCase jurisdiction +:+ ":" +:+ salt +:+ ":" +:+ Z_to_string issuedAt.

Definition commitment_of (i : commitment_input) (now_ms : Z) : stored_commitment :=
  let tier := mapToEligibilityTier (ci_kycStatus i) (ci_tranche i) in
  let issuedAt := now_ms / 1000 in
  let expiration := match ci_expiresAt i with Some e => if e =? 0 then issuedAt + 365 * 86400 else e / 1000 | None => issuedAt + 365 * 86400 end in
  let salt := salt_of (ci_investorAddress i) issuedAt in
  {| st_commitment := {| oc_commitmentHash := sha256 (canonicalData (ci_investorAddress i) tier (ci_jurisdiction i) salt issuedAt);
                         oc_eligibilityTier := tier; oc_expirationTimestamp := expiration; oc_issuedAt := issuedAt |};
     st_audit := {| oa_investorAddress := ci_investorAddress i; oa_jurisdiction := ci_jurisdiction i; oa_kycStatus := ci_kycStatus i;
                    oa_providerReference := or_else (ci_providerReference i) "KYC_VERIFIED_OFFCHAIN_REF";
                    oa_verifiedAt := iso_text (issuedAt * 1000); oa_salt := salt |};
     st_receipt := None |}.

Definition generateOnChainCommitment (s : store) (i : commitment_input) (now_ms : Z) : store * OnChainKycCommitment :=
  let r := commitment_of i now_ms in (aput (oc_commitmentHash (st_commitment r)) r s, st_commitment r).

Definition receiptData (hash : string) (t : EligibilityTier) (issuedAt expiration : Z) (reason : option string) : string :=
  JSON_stringify (JObj [("commitmentHash", JStr hash); ("eligibilityTier", JStr (tier_text t)); ("issuedAt", JNum (Z_to_string issuedAt));
    ("expirationTimestamp", JNum (Z_to_string expiration)); ("decisionReason", JStr (or_else reason "Standard KYC verification"))]).

Definition issueSignedReceipt (s : store) (hash : string) (reason : option string) : store * result string SignedKycReceipt :=
  match aget hash s with
  | None => (s, Err ("No KYC commitment found for hash " +:+ hash))
  | Some r =>
      let c := st_commitment r in
      match sign (receiptData (oc_commitmentHash c) (oc_eligibilityTier c) (oc_issuedAt c) (oc_expirationTimestamp c) reason) with
      | Err e => (s, Err e)
      | Ok signature =>
          let receipt := {| sr_commitmentHash := oc_commitmentHash c; sr_eligibilityTier := oc_eligibilityTier c; sr_issuedAt := oc_issuedAt c;
                            sr_expirationTimestamp := oc_expirationTimestamp c; sr_signature := signature;
                            sr_signerPublicKey := publicKey; sr_decisionReason := reason |} in
          (aput hash {| st_commitment := c; st_audit := st_audit r; st_receipt := Some receipt |} s, Ok receipt)
      end
  end.

Definition verifySignedReceipt (r : SignedKycReceipt) : bool :=
  verify_with (sr_signerPublicKey r)
    (receiptData (sr_commitmentHash r) (sr_eligibilityTier r) (sr_issuedAt r) (sr_expirationTimestamp r) (sr_decisionReason r)) (sr_signature r).

Definition tierHierarchy (t : EligibilityTier) : Z :=
  match t with TIER_0_UNVERIFIED => 0 | TIER_1_RETAIL_STANDARD => 1 | TIER_2_ACCREDITED => 2 | TIER_3_INSTITUTIONAL => 3 end.

Definition verifyOnChainEligibilityFromCommitment (c : option OnChainKycCommitment) (required : EligibilityTier) (currentTime : Z) : result string unit :=
  match c with
  | None => Err "Invalid or missing on-chain KYC commitment"
  | Some c =>
      if decide (oc_commitmentHash c = "") then Err "Invalid or missing on-chain KYC commitment"
      else if oc_expirationTimestamp c <? currentTime then Err "On-chain KYC commitment has expired"
      else if tierHierarchy (oc_eligibilityTier c) <? tierHierarchy required then
        Err ("On-chain tier " +:+ tier_text (oc_eligibilityTier c) +:+ " insufficient for required purchase tier " +:+ tier_text required)
      else Ok tt
  end.

Definition token_of (regulatorId : string) : string := "AUTH_TOKEN_" +:+ toUpperCase regulatorId.

Definition generateRegulatorDisclosurePackage (s : store) (rq : RegulatorDisclosureRequest) (accessReason : string) (now : Z) :
    result string RegulatorDisclosurePackage :=
  if negb (bool_decide (toUpperCase (rd_regulatorId rq) ∈ authorizedRegulators)) then
    Err ("Regulator ID " +:+ rd_regulatorId rq +:+ " is not authorized for selective disclosure")
  else if bool_decide (rd_authorizationToken rq = "") || negb (bool_decide (rd_authorizationToken rq = token_of (rd_regulatorId rq))) then
    Err "Invalid regulator authorization credentials"
  else match aget (rd_commitmentHash rq) s with
       | None => Err ("No off-chain KYC record found matching commitment hash " +:+ rd_commitmentHash rq)
       | Some r =>
           let c := st_commitment r in
           let a := st_audit r in
           let recomputed := sha256 (canonicalData (oa_investorAddress a) (oc_eligibilityTier c) (oa_jurisdiction a) (oa_salt a) (oc_issuedAt c)) in
           Ok {| dp_commitmentHash := oc_commitmentHash c; dp_eligibilityTier := oc_eligibilityTier c; dp_audit := a;
                 dp_proofValid := bool_decide (recomputed = oc_commitmentHash c); dp_disclosedTo := rd_regulatorId rq;
                 dp_disclosedAt := now; dp_accessReason := accessReason |}
       end.

(** ** Histories *)

Inductive call := Commit (i : commitment_input) (now_ms : Z) | Issue (hash : string) (reason : option string).

Definition step (s : store) (o : call) : store :=
  match o with
  | Commit i now => (generateOnChainCommitment s i now).1
  | Issue h reason => (issueSignedReceipt s h reason).1
  end.
Definition run (os : list call) : store := foldl step [] os.

(** ** Properties *)

(** Every record of the store is, up to its receipt, one that was committed under its hash. *)
Definition committed (os : list call) (h : string) (r : stored_commitment) : Prop :=
  ∃ i now, Commit i now ∈ os ∧ h = oc_commitmentHash (st_commitment (commitment_of i now)) ∧
    st_commitment r = st_commitment (commitment_of i now) ∧ st_audit r = st_audit (commitment_of i now).

Lemma run_committed os h r : aget h (run os) = Some r → committed os h r.
Proof.
  revert h r. unfold run. induction os as [|o os IH] using rev_ind; intros h r H; [done|].
  rewrite foldl_app in H. cbn [foldl] in H. fold (run os) in *.
  assert (∀ h r, committed os h r → committed (os ++ [o]) h r) as Hmono.
  { intros h' r' (i & now & Hin & ?). exists i, now. split; [by apply elem_of_app; left|done]. }
  destruct o as [i now|h' reason]; cbn in H.
  - rewrite aget_aput in H. case_decide; [|by apply Hmono, IH]. injection H as <-. exists i, now. split; [|done].
    apply elem_of_app. right. by apply list_elem_of_singleton.
  - unfold issueSignedReceipt in H. destruct (aget h' (run os)) as [r'|] eqn:E; [|by apply Hmono, IH].
    destruct (sign _); cbn in H; [|by apply Hmono, IH]. rewrite aget_aput in H. case_decide; [|by apply Hmono, IH].
    injection H as <-. subst h'. apply Hmono. by apply IH in E.
Qed.

(** A disclosure carries the decision that the commitment was made for.  Whatever was committed and receipted before, a package is
    only given to a listed regulator, its proof is valid, and its address, jurisdiction, status and tier are those of a commitment
    made under the hash that was asked for. *)
Theorem disclosure_sound os rq reason now p :
  generateRegulatorDisclosurePackage (run os) rq reason now = Ok p →
  toUpperCase (rd_regulatorId rq) ∈ authorizedRegulators ∧ dp_proofValid p = true ∧ dp_commitmentHash p = rd_commitmentHash rq ∧
  ∃ i t, Commit i t ∈ os ∧ dp_audit p = st_audit (commitment_of i t) ∧
    dp_eligibilityTier p = mapToEligibilityTier (ci_kycStatus i) (ci_tranche i) ∧
    rd_commitmentHash rq = oc_commitmentHash (st_commitment (commitment_of i t)).
Proof.
  unfold generateRegulatorDisclosurePackage. destruct (bool_decide_reflect (toUpperCase (rd_regulatorId rq) ∈ authorizedRegulators)); [|done].
  cbn [negb]. destruct (_ || _); [done|]. destruct (aget _ _) as [r|] eqn:E; [|done]. intros [= <-].
  destruct (run_committed _ _ _ E) as (i & t & Hin & Hh & Hc & Ha). cbn [dp_proofValid dp_commitmentHash dp_audit dp_eligibilityTier].
  split; [done|]. split; [|split; [by rewrite Hc|]].
  - apply bool_decide_eq_true. by rewrite Ha, Hc.
  - exists i, t. split_and!; try done. by rewrite Hc.
Qed.

Lemma cut_colon a b x y :
  str_forall (λ c, negb (Ascii.eqb c ":")) a = true → str_forall (λ c, negb (Ascii.eqb c ":")) b = true →
  a +:+ ":" +:+ x = b +:+ ":" +:+ y → a = b ∧ x = y.
Proof.
  revert b. induction a as [|c a IH]; intros [|d b] Ha Hb; cbn in *; intros E; simplify_eq; try done.
  apply andb_true_iff in Ha as [_ Ha]. apply andb_true_iff in Hb as [_ Hb].
  match goal with H : a +:+ _ = _ |- _ => by destruct (IH b Ha Hb H) as [-> ->] end.
Qed.

Lemma tier_no_colon t : str_forall (λ c, negb (Ascii.eqb c ":")) (tier_text t) = true.
Proof. by destruct t. Qed.
Lemma tier_text_inj t t' : tier_text t = tier_text t' → t = t'.
Proof. by destruct t, t'. Qed.

(** Two commitments with one hash are for the same address and tier, unless SHA-256 collides; addresses have no colon. *)
Theorem commitment_binds i now i' now' :
  str_forall (λ c, negb (Ascii.eqb c ":")) (ci_investorAddress i) = true →
  str_forall (λ c, negb (Ascii.eqb c ":")) (ci_investorAddress i') = true →
  oc_commitmentHash (st_commitment (commitment_of i now)) = oc_commitmentHash (st_commitment (commitment_of i' now')) →
  collision sha256 ∨ ci_investorAddress i = ci_investorAddress i' ∧
    mapToEligibilityTier (ci_kycStatus i) (ci_tranche i) = mapToEligibilityTier (ci_kycStatus i') (ci_tranche i').
Proof.
  intros H1 H2 [?|E]%digest_eq; [by left|]. right. unfold canonicalData in E. apply cut_colon in E as [-> E]; [|done..]. split; [done|].
  apply cut_colon in E as [E _]; [|apply tier_no_colon..]. by apply tier_text_inj.
Qed.

(** A receipt verifies, for a signature scheme that accepts what it signed. *)
Theorem receipt_verifies s h reason s' r :
  (∀ m g, sign m = Ok g → verify_with publicKey m g = true) →
  issueSignedReceipt s h reason = (s', Ok r) → verifySignedReceipt r = true.
Proof.
  intros Hs. unfold issueSignedReceipt. destruct (aget h s) as [x|]; [|done]. destruct (sign _) as [g|] eqn:E; [|done]. intros [= _ <-].
  by apply Hs in E.
Qed.

(** Who is eligible: exactly who has a commitment that has not expired and a tier that is high enough. *)
Theorem tier_exact c required t :
  verifyOnChainEligibilityFromCommitment (Some c) required t = Ok tt ↔
  oc_commitmentHash c ≠ "" ∧ t ≤ oc_expirationTimestamp c ∧ tierHierarchy required ≤ tierHierarchy (oc_eligibilityTier c).
Proof.
  unfold verifyOnChainEligibilityFromCommitment. case_decide; [naive_solver|].
  destruct (Z.ltb_spec (oc_expirationTimestamp c) t); [split; [done|lia]|].
  destruct (Z.ltb_spec (tierHierarchy (oc_eligibilityTier c)) (tierHierarchy required)); [split; [done|lia]|]. done.
Qed.

(** An expired verification is committed as a retail investor. *)
Lemma expired_is_retail tranche : mapToEligibilityTier EXPIRED tranche = TIER_1_RETAIL_STANDARD.
Proof. done. Qed.

(** A receipt is checked with the key it carries: any receipt that somebody signed with a key of their own verifies. *)
Lemma forged_receipt_verifies key signature r :
  verify_with key (receiptData (sr_commitmentHash r) (sr_eligibilityTier r) (sr_issuedAt r) (sr_expirationTimestamp r) (sr_decisionReason r)) signature = true →
  verifySignedReceipt {| sr_commitmentHash := sr_commitmentHash r; sr_eligibilityTier := sr_eligibilityTier r; sr_issuedAt := sr_issuedAt r;
    sr_expirationTimestamp := sr_expirationTimestamp r; sr_signature := signature; sr_signerPublicKey := key; sr_decisionReason := sr_decisionReason r |} = true.
Proof. done. Qed.
End Service.

(** ** Concrete runs *)

Definition toy_sha (s : string) : string := "#" +:+ s.
Definition toy_hmac (k m : string) : string := k +:+ m.
Definition toy_sign (m : string) : result string string := Ok m.
Definition toy_verify (key m g : string) : bool := bool_decide (m = g).
Definition toy_input : commitment_input :=
  {| ci_investorAddress := "GA"; ci_kycStatus := ACCREDITED; ci_jurisdiction := "us"; ci_expiresAt := None; ci_tranche := None; ci_providerReference := None |}.
Notation toy_run := (run toy_sha toy_hmac toy_sign "pub" "salt").
Definition toy_hash : string := "#GA:TIER_2_ACCREDITED:US:saltGA:1:1".
Definition toy_request : RegulatorDisclosureRequest :=
  {| rd_regulatorId := "regulator_sec"; rd_authorizationToken := "AUTH_TOKEN_REGULATOR_SEC"; rd_commitmentHash := toy_hash |}.

Lemma disclosure_sound_witness :
  ∃ p, generateRegulatorDisclosurePackage toy_sha (toy_run [Commit toy_input 1000; Issue toy_hash None]) toy_request "audit" 0 = Ok p ∧
    dp_proofValid p = true ∧ oa_investorAddress (dp_audit p) = "GA".
Proof.
  eexists. split; [reflexivity|]. split; [|reflexivity].
  eapply (disclosure_sound toy_sha toy_hmac toy_sign "pub" "salt" [Commit toy_input 1000; Issue toy_hash None] toy_request "audit" 0). reflexivity.
Defined.

(** The token of a regulator follows from its name, which is in the source: anyone can ask. *)
Lemma token_is_public id : id ∈ authorizedRegulators → token_of id = "AUTH_TOKEN_" +:+ id.
Proof. unfold authorizedRegulators. rewrite !elem_of_cons, elem_of_nil. by intros [-> |[-> |[-> |[]]]]. Qed.
