(* ===== verification/FeatureFlags.v ===== *)
(** * Feature flags

    Models [api/src/config/feature-flags.service.ts] and [api/src/config/feature-flags-rollback.service.ts].  The environment is the argument
    [env]; the hash that samples users is computed on 32-bit integers; the numbers of health metrics, with their comparison and
    their text, are arguments of the rollback service.

    Shown: what a flag answers follows from the log of changes ([flags_follow_log]); the sampling hash stays within 31 bits and
    gives a user the same answer every time ([hash_bounded]).  Where the code falls short: a feature stays in canary for good
    once it was ([full_rollout_stays_canary]); the text [false] in the environment enables a feature ([false_enables]); a feature that was
    rolled back automatically can never be enabled again, as its metrics are no longer taken in ([rollback_is_permanent]); and automatic
    rollback is off unless it is asked for ([rollback_not_default]). *)
From S2P Require Import Prelude.

Inductive FeatureFlag := ENABLE_SECONDARY_MARKET | ENABLE_AUTO_COUPON_DISTRIBUTION | ENABLE_INVESTOR_REDEMPTION | ENABLE_GOVERNANCE_PROPOSALS.
#[export] Instance FeatureFlag_eq_dec : EqDecision FeatureFlag.
Proof. solve_decision. Defined.
Definition flag_text (f : FeatureFlag) : string :=
  match f with
  | ENABLE_SECONDARY_MARKET => "ENABLE_SECONDARY_MARKET" | ENABLE_AUTO_COUPON_DISTRIBUTION => "ENABLE_AUTO_COUPON_DISTRIBUTION"
  | ENABLE_INVESTOR_REDEMPTION => "ENABLE_INVESTOR_REDEMPTION" | ENABLE_GOVERNANCE_PROPOSALS => "ENABLE_GOVERNANCE_PROPOSALS"
  end.
Definition all_flags : list FeatureFlag :=
  [ENABLE_SECONDARY_MARKET; ENABLE_AUTO_COUPON_DISTRIBUTION; ENABLE_INVESTOR_REDEMPTION; ENABLE_GOVERNANCE_PROPOSALS].

(** The status of the environment may be any text. *)
Definition DISABLED : string := "disabled".
Definition ENABLED : string := "enabled".
Definition DEGRADED : string := "degraded".
Definition EMERGENCY : string := "emergency".

Record FeatureFlagState := {
  ff_status : string;
  ff_canary : bool;
  ff_enabledAt : option Z;
  ff_emergencyDisabledAt : option Z;
  ff_reason : option string;
}.
Inductive action := enabled | enabled_canary | disabled | emergency_disabled.
#[export] Instance action_eq_dec : EqDecision action.
Proof. solve_decision. Defined.
Record audit_entry := { ae_timestamp : Z; ae_flag : FeatureFlag; ae_action : action; ae_reason : string }.
Record flags := { flagStates : list (FeatureFlag * FeatureFlagState); auditLog : list audit_entry }.

Section Flags.
Context (env : string → option string).

Definition nonempty (x : option string) : option string := match x with Some (String _ _) => x | _ => None end.

Definition initial_state (f : FeatureFlag) (now : Z) : FeatureFlagState :=
  let status := match nonempty (env (flag_text f +:+ "_STATUS")) with
                | Some s => s
                | None => match nonempty (env (flag_text f)) with Some _ => ENABLED | None => DISABLED end
                end in
  {| ff_status := status;
     ff_canary := bool_decide (to_lower <$> env (flag_text f +:+ "_CANARY") = Some "true") && bool_decide (status = ENABLED);
     ff_enabledAt := if decide (status = ENABLED) then Some now else None; ff_emergencyDisabledAt := None; ff_reason := None |}.

Definition initializeFlags (now : Z) : flags := {| flagStates := (λ f, (f, initial_state f now)) <$> all_flags; auditLog := [] |}.

(** *** Sampling *)

Definition int32 (z : Z) : Z := let m := z mod 2 ^ 32 in if m <? 2 ^ 31 then m else m - 2 ^ 32.

(** [(hash << 5) - hash + code], cut to 32 bits. *)
Definition hash_step (hash : Z) (c : ascii) : Z := int32 (int32 (Z.shiftl hash 5) - hash + Z.of_N (code c)).
Definition simpleHash (s : string) : Z := Z.abs (foldl hash_step 0 (String.list_ascii_of_string s)).

(** The rate is ten per cent. *)
Definition isSampledUser (f : FeatureFlag) (userId : string) : bool := simpleHash (flag_text f +:+ ":" +:+ userId) mod 100 <? 10.

Definition isEnabled (st : flags) (f : FeatureFlag) (userId : option string) : bool :=
  match aget f (flagStates st) with
  | None => false
  | Some s =>
      if bool_decide (ff_status s = DISABLED) || bool_decide (ff_status s = EMERGENCY) then false
      else match nonempty userId with
           | Some u => if ff_canary s then isSampledUser f u else bool_decide (ff_status s = ENABLED)
           | None => bool_decide (ff_status s = ENABLED)
           end
  end.

Definition new_flag : FeatureFlagState :=
  {| ff_status := DISABLED; ff_canary := false; ff_enabledAt := None; ff_emergencyDisabledAt := None; ff_reason := None |}.

Definition record_change (st : flags) (f : FeatureFlag) (a : action) (reason : string) (now : Z) (change : FeatureFlagState → FeatureFlagState) : flags :=
  {| flagStates := aput f (change (default new_flag (aget f (flagStates st)))) (flagStates st);
     auditLog := auditLog st ++ [{| ae_timestamp := now; ae_flag := f; ae_action := a; ae_reason := reason |}] |}.

Definition enableFeature (st : flags) (f : FeatureFlag) (reason : string) (now : Z) : flags :=
  record_change st f enabled reason now (λ s, {| ff_status := ENABLED; ff_canary := ff_canary s; ff_enabledAt := Some now;
    ff_emergencyDisabledAt := ff_emergencyDisabledAt s; ff_reason := Some reason |}).
Definition enableFeatureCanary (st : flags) (f : FeatureFlag) (reason : string) (now : Z) : flags :=
  record_change st f enabled_canary reason now (λ s, {| ff_status := ENABLED; ff_canary := true; ff_enabledAt := Some now;
    ff_emergencyDisabledAt := ff_emergencyDisabledAt s; ff_reason := Some reason |}).
Definition disableFeature (st : flags) (f : FeatureFlag) (reason : string) (now : Z) : flags :=
  record_change st f disabled reason now (λ s, {| ff_status := DISABLED; ff_canary := ff_canary s; ff_enabledAt := ff_enabledAt s;
    ff_emergencyDisabledAt := ff_emergencyDisabledAt s; ff_reason := Some reason |}).
Definition emergencyDisable (st : flags) (f : FeatureFlag) (reason : string) (now : Z) : flags :=
  record_change st f emergency_disabled reason now (λ s, {| ff_status := EMERGENCY; ff_canary := ff_canary s; ff_enabledAt := ff_enabledAt s;
    ff_emergencyDisabledAt := Some now; ff_reason := Some reason |}).

Definition getFlagAuditLog (st : flags) (f : FeatureFlag) : list audit_entry := filter (λ e, ae_flag e = f) (auditLog st).

Definition perform (st : flags) (o : action * FeatureFlag * string * Z) : flags :=
  let '(a, f, reason, now) := o in
  match a with
  | enabled => enableFeature st f reason now | enabled_canary => enableFeatureCanary st f reason now
  | disabled => disableFeature st f reason now | emergency_disabled => emergencyDisable st f reason now
  end.
Definition run (now : Z) (os : list (action * FeatureFlag * string * Z)) : flags := foldl perform (initializeFlags now) os.

(** ** Properties *)

Definition status_after (a : action) : string :=
  match a with enabled | enabled_canary => ENABLED | disabled => DISABLED | emergency_disabled => EMERGENCY end.

Definition logged_status (now : Z) (f : FeatureFlag) (log : list audit_entry) : string :=
  match last (filter (λ e, ae_flag e = f) log) with Some e => status_after (ae_action e) | None => ff_status (initial_state f now) end.
Definition logged_canary (now : Z) (f : FeatureFlag) (log : list audit_entry) : bool :=
  ff_canary (initial_state f now) || bool_decide (enabled_canary ∈ ae_action <$> filter (λ e, ae_flag e = f) log).

Lemma initial_flag now f : aget f (flagStates (initializeFlags now)) = Some (initial_state f now).
Proof. by destruct f. Qed.

Lemma run_logged now os f :
  ∃ s, aget f (flagStates (run now os)) = Some s ∧ ff_status s = logged_status now f (auditLog (run now os)) ∧
       ff_canary s = logged_canary now f (auditLog (run now os)).
Proof.
  unfold run. induction os as [|o os IH] using rev_ind.
  { exists (initial_state f now). split_and!; [apply initial_flag|done|]. unfold logged_canary. cbn. by rewrite orb_false_r. }
  rewrite foldl_app. cbn [foldl]. fold (run now os) in *. destruct IH as (s & Hs & H1 & H2). destruct o as [[[a g] reason] t].
  assert (∀ change, (∀ s', ff_status (change s') = status_after a) →
    (∀ s', ff_canary (change s') = ff_canary s' || bool_decide (a = enabled_canary)) →
    ∃ s', aget f (flagStates (record_change (run now os) g a reason t change)) = Some s' ∧
      ff_status s' = logged_status now f (auditLog (record_change (run now os) g a reason t change)) ∧
      ff_canary s' = logged_canary now f (auditLog (record_change (run now os) g a reason t change))) as Hrec.
  { intros change Hst Hca. unfold record_change, logged_status, logged_canary. cbn [flagStates auditLog].
    rewrite aget_aput, filter_app, filter_cons. cbn [ae_flag]. rewrite filter_nil. destruct (decide (f = g)) as [->|Hne].
    - rewrite (decide_True _ _ (eq_refl g)), last_snoc, Hs. cbn. eexists. split_and!; [done|apply Hst|].
      rewrite Hca, H2. unfold logged_canary. rewrite fmap_app. cbn. rewrite <- orb_assoc. f_equal.
      destruct (bool_decide_reflect (a = enabled_canary)) as [->|Hna], (bool_decide_reflect (enabled_canary ∈ ae_action <$> filter (λ e, ae_flag e = g) (auditLog (run now os))));
        symmetry; cbn; rewrite ?bool_decide_eq_true, ?bool_decide_eq_false, elem_of_app, list_elem_of_singleton; naive_solver.
    - rewrite (decide_False (P := g = f)) by done. rewrite app_nil_r. by exists s. }
  destruct a; cbn [perform]; apply Hrec; intros s'; cbn; by rewrite ?orb_false_r, ?orb_true_r.
Qed.

(** What a flag answers follows from the log of changes.  After any changes, a feature is on for everybody exactly when its last
    entry in the log enabled it (or, without an entry, its status at the start is enabled); and for a user it is, in addition,
    sampled when the log, or the start, has it as a canary.  An emergency in the last entry turns it off for all. *)
Theorem flags_follow_log now os f u :
  isEnabled (run now os) f u =
  let log := auditLog (run now os) in
  let status := logged_status now f log in
  if bool_decide (status = DISABLED) || bool_decide (status = EMERGENCY) then false
  else match nonempty u with
       | Some x => if logged_canary now f log then isSampledUser f x else bool_decide (status = ENABLED)
       | None => bool_decide (status = ENABLED)
       end.
Proof. destruct (run_logged now os f) as (s & Hs & H1 & H2). unfold isEnabled. by rewrite Hs, H1, H2. Qed.

Lemma int32_range z : - 2 ^ 31 ≤ int32 z < 2 ^ 31.
Proof. unfold int32. pose proof (Z.mod_pos_bound z (2 ^ 32) ltac:(lia)). destruct (Z.ltb_spec (z mod 2 ^ 32) (2 ^ 31)); lia. Qed.

(** The sampling hash fits 32 bits without a sign. *)
Theorem hash_bounded s : 0 ≤ simpleHash s ≤ 2 ^ 31.
Proof.
  unfold simpleHash. assert (∀ l h, - 2 ^ 31 ≤ h < 2 ^ 31 → - 2 ^ 31 ≤ foldl hash_step h l < 2 ^ 31) as H.
  { induction l as [|c l IH]; intros h Hh; [done|]. cbn [foldl]. apply IH, int32_range. }
  specialize (H (String.list_ascii_of_string s) 0 ltac:(lia)). lia.
Qed.

(** A feature that was a canary once is sampled for good, also after it was enabled for all. *)
Lemma full_rollout_stays_canary now f u r r' t t' :
  u ≠ "" → isEnabled (run now [(enabled_canary, f, r, t); (enabled, f, r', t')]) f (Some u) = isSampledUser f u.
Proof. intros Hu. rewrite flags_follow_log. destruct u as [|c u]; [done|]. unfold logged_status, logged_canary. destruct f; cbn; by rewrite orb_true_r. Qed.
End Flags.

(** ** Automatic rollback *)

Record HealthMetric (num : Type) := { hm_name : string; hm_value : num; hm_threshold : num; hm_breached : bool }.
Arguments hm_name {num}. Arguments hm_value {num}. Arguments hm_threshold {num}. Arguments hm_breached {num}.

Record RollbackVerification (num : Type) := {
  rv_enabled : bool;
  rv_enabledAt : Z;
  rv_healthMetrics : list (HealthMetric num);
  rv_lastVerified : Z;
  rv_automaticRollbackEnabled : bool;
  rv_rollbackReason : option string;
}.
Arguments rv_enabled {num}. Arguments rv_enabledAt {num}. Arguments rv_healthMetrics {num}. Arguments rv_lastVerified {num}.
Arguments rv_automaticRollbackEnabled {num}. Arguments rv_rollbackReason {num}.

Section Rollback.
Context {num : Type} (number : Z → num) (above : num → num → bool) (num_text : num → string).
Context (env : string → option string).

Notation HealthMetric := (HealthMetric num).
Notation RollbackVerification := (RollbackVerification num).

(** One verification per flag, and the history of metrics per flag. *)
Record guard := { rollbackVerifications : list (FeatureFlag * RollbackVerification); healthMetricsHistory : list (FeatureFlag * list (list HealthMetric)) }.

Definition metric (name : string) (threshold : Z) : HealthMetric :=
  {| hm_name := name; hm_value := number 0; hm_threshold := number threshold; hm_breached := false |}.
Definition initializeDefaultMetrics : list HealthMetric :=
  [metric "error_rate" 5; metric "p99_latency_ms" 500; metric "memory_usage_percent" 85;
   metric "database_connection_pool_exhaustion" 95; metric "inconsistent_state_count" 0].

(** [x === 'true' ?? true]: the comparison is never null, so the fallback is never used. *)
Definition initial_verification (f : FeatureFlag) (now : Z) : RollbackVerification :=
  let on := bool_decide (env (flag_text f) = Some "true") || bool_decide (env (flag_text f +:+ "_STATUS") = Some ENABLED) in
  {| rv_enabled := on; rv_enabledAt := if on then now else 0; rv_healthMetrics := initializeDefaultMetrics; rv_lastVerified := now;
     rv_automaticRollbackEnabled := bool_decide (to_lower <$> env (flag_text f +:+ "_AUTO_ROLLBACK") = Some "true"); rv_rollbackReason := None |}.

Definition initializeRollbackVerifications (now : Z) : guard :=
  {| rollbackVerifications := (λ f, (f, initial_verification f now)) <$> all_flags; healthMetricsHistory := [] |}.

(** An update names a metric and may give a value. *)
Definition update_metric (updates : list (string * option num)) (m : HealthMetric) : HealthMetric :=
  match List.find (λ u, bool_decide (u.1 = hm_name m)) updates with
  | None => m
  | Some (_, None) => {| hm_name := hm_name m; hm_value := hm_value m; hm_threshold := hm_threshold m; hm_breached := false |}
  | Some (_, Some v) => {| hm_name := hm_name m; hm_value := v; hm_threshold := hm_threshold m; hm_breached := above v (hm_threshold m) |}
  end.

Definition breach_details (ms : list HealthMetric) : string :=
  join ", " ((λ m, hm_name m +:+ "=" +:+ num_text (hm_value m)) <$> filter (λ m, hm_breached m = true) ms).

Definition updateHealthMetrics (g : guard) (f : FeatureFlag) (updates : list (string * option num)) (now : Z) : guard * bool :=
  match aget f (rollbackVerifications g) with
  | None => (g, false)
  | Some v =>
      if negb (rv_enabled v) then (g, false)
      else
        let ms := update_metric updates <$> rv_healthMetrics v in
        let rolled := existsb hm_breached ms && rv_automaticRollbackEnabled v in
        ({| rollbackVerifications := aput f
              {| rv_enabled := negb rolled; rv_enabledAt := rv_enabledAt v; rv_healthMetrics := ms; rv_lastVerified := now;
                 rv_automaticRollbackEnabled := rv_automaticRollbackEnabled v;
                 rv_rollbackReason := if rolled then Some ("Automatic rollback triggered: " +:+ breach_details ms) else rv_rollbackReason v |}
              (rollbackVerifications g);
            healthMetricsHistory := aput f (default [] (aget f (healthMetricsHistory g)) ++ [ms]) (healthMetricsHistory g) |}, rolled)
  end.

Definition verifyHealthBeforeRollout (g : guard) (f : FeatureFlag) : bool * list string :=
  match aget f (rollbackVerifications g) with
  | None => (false, ["Feature " +:+ flag_text f +:+ " not found"])
  | Some v =>
      let issues := (λ m, hm_name m +:+ " exceeded: " +:+ num_text (hm_value m) +:+ " > " +:+ num_text (hm_threshold m)) <$>
                    filter (λ m, hm_breached m = true) (rv_healthMetrics v) in
      (bool_decide (issues = []), issues)
  end.

Definition getRollbackStatus (g : guard) (f : FeatureFlag) : option RollbackVerification := aget f (rollbackVerifications g).
Definition getMetricsHistory (g : guard) (f : FeatureFlag) (limit : nat) : list (list HealthMetric) :=
  let history := default [] (aget f (healthMetricsHistory g)) in drop (length history - limit) history.

Definition reEnableAfterRollback (g : guard) (f : FeatureFlag) (now : Z) : guard * result string unit :=
  let '(healthy, issues) := verifyHealthBeforeRollout g f in
  if negb healthy then (g, Err ("Cannot re-enable: " +:+ join "; " issues))
  else match aget f (rollbackVerifications g) with
       | None => (g, Ok tt)
       | Some v =>
           ({| rollbackVerifications := aput f
                 {| rv_enabled := true; rv_enabledAt := now; rv_healthMetrics := rv_healthMetrics v; rv_lastVerified := rv_lastVerified v;
                    rv_automaticRollbackEnabled := rv_automaticRollbackEnabled v; rv_rollbackReason := None |} (rollbackVerifications g);
               healthMetricsHistory := healthMetricsHistory g |}, Ok tt)
       end.

Inductive guard_call := Update (f : FeatureFlag) (updates : list (string * option num)) (now : Z) | ReEnable (f : FeatureFlag) (now : Z).
Definition guard_step (g : guard) (o : guard_call) : guard :=
  match o with Update f us now => (updateHealthMetrics g f us now).1 | ReEnable f now => (reEnableAfterRollback g f now).1 end.

(** A feature that is off with a breached metric. *)
Definition stuck (g : guard) (f : FeatureFlag) : Prop :=
  ∃ v, aget f (rollbackVerifications g) = Some v ∧ rv_enabled v = false ∧ existsb hm_breached (rv_healthMetrics v) = true.

Lemma breached_unhealthy g f v : aget f (rollbackVerifications g) = Some v → existsb hm_breached (rv_healthMetrics v) = true →
  (verifyHealthBeforeRollout g f).1 = false.
Proof.
  intros Hv (m & Hm%list_elem_of_In & Hb)%existsb_exists. unfold verifyHealthBeforeRollout. rewrite Hv. cbn [fst].
  apply bool_decide_eq_false. intros E%fmap_nil_inv. apply (not_elem_of_nil m). rewrite <- E. by apply list_elem_of_filter.
Qed.

Lemma stuck_step g f o : stuck g f → stuck (guard_step g o) f.
Proof.
  intros (v & Hv & He & Hb). destruct o as [f' us now|f' now]; cbn [guard_step].
  - unfold updateHealthMetrics. destruct (aget f' (rollbackVerifications g)) as [v'|] eqn:E; [|by exists v].
    destruct (rv_enabled v') eqn:E'; cbn [negb]; [|by exists v]. exists v. cbn. rewrite aget_aput. case_decide; [subst; congruence|done].
  - unfold reEnableAfterRollback. destruct (verifyHealthBeforeRollout g f') as [h issues] eqn:E. destruct h; cbn [negb]; [|by exists v].
    destruct (aget f' (rollbackVerifications g)) as [v'|] eqn:E'; [|by exists v]. exists v. cbn. rewrite aget_aput. case_decide; [|done].
    subst f'. pose proof (breached_unhealthy g f v Hv Hb) as H. by rewrite E in H.
Qed.

(** A feature that was rolled back automatically can never be enabled again: its metrics are taken in only while it is on, so
    the breach stays, and with it the refusal. *)
Theorem rollback_is_permanent g f updates now os later :
  (updateHealthMetrics g f updates now).2 = true →
  let g' := foldl guard_step (updateHealthMetrics g f updates now).1 os in
  (rv_enabled <$> getRollbackStatus g' f) = Some false ∧ ∃ e, (reEnableAfterRollback g' f later).2 = Err e.
Proof.
  intros H g'. assert (stuck (updateHealthMetrics g f updates now).1 f) as Hs.
  { unfold updateHealthMetrics in *. destruct (aget f (rollbackVerifications g)) as [v|]; [|done]. destruct (rv_enabled v); [|done].
    cbn [negb fst snd] in *. apply andb_true_iff in H as [H1 H2]. eexists. cbn. rewrite aget_aput, decide_True by done.
    split; [done|]. cbn. by rewrite H1, H2. }
  assert (stuck g' f) as (v & Hv & He & Hb).
  { unfold g'. clear H g'. revert Hs. generalize (updateHealthMetrics g f updates now).1. induction os as [|o os IH]; intros g0 H0; [done|].
    cbn. by apply IH, stuck_step. }
  unfold getRollbackStatus. rewrite Hv. cbn. rewrite He. split; [done|]. unfold reEnableAfterRollback.
  pose proof (breached_unhealthy g' f v Hv Hb) as Hu. destruct (verifyHealthBeforeRollout g' f) as [h issues]. cbn in Hu. subst h. by eexists.
Qed.
End Rollback.

(** ** Concrete runs *)

Definition env_of (l : list (string * string)) (k : string) : option string := aget k l.

(** The text [false] enables a feature; the rollback service reads it as off. *)
Lemma false_enables :
  isEnabled (initializeFlags (env_of [("ENABLE_SECONDARY_MARKET", "false")]) 0) ENABLE_SECONDARY_MARKET None = true ∧
  rv_enabled (initial_verification (λ z, z) (env_of [("ENABLE_SECONDARY_MARKET", "false")]) ENABLE_SECONDARY_MARKET 0) = false.
Proof. by vm_compute. Qed.

(** Automatic rollback is off unless the environment asks for it. *)
Lemma rollback_not_default :
  rv_automaticRollbackEnabled (initial_verification (λ z, z) (env_of [("ENABLE_SECONDARY_MARKET", "true")]) ENABLE_SECONDARY_MARKET 0) = false ∧
  (updateHealthMetrics (λ a b, b <? a) Z_to_string (initializeRollbackVerifications (λ z, z) (env_of [("ENABLE_SECONDARY_MARKET", "true")]) 0)
     ENABLE_SECONDARY_MARKET [("error_rate", Some 90)] 1).2 = false.
Proof. by vm_compute. Qed.

(** The hash on known texts, one of them beyond 32 bits. *)
Example known_hashes : simpleHash "abc" = 96354 ∧ simpleHash "ENABLE_SECONDARY_MARKET:GA" < 2 ^ 31.
Proof. by vm_compute. Qed.
