(* ===== verification/OperationQueue.v ===== *)
(** * The offline queue of the web client

    Models [frontend/src/app/shared/services/operation-queue.service.ts]: operations on bonds that wait for a connection, kept in the local
    storage of the browser and sent in order by one tab at a time.

    The storage holds a queue, or a text that [parseState] refuses ([None]); a write to it is atomic and may be refused.  A run of
    [drainInOrder] is interleaved with the user and with other tabs at every [await]: the run is a state ([drain_state]) that
    advances by events, and calls of this tab or changes by others come between them.  The Web Lock lets one tab send at a
    time.  The answers of the API and the wallet are in the events.  Amounts are whole numbers; what is shown and the registration of
    a pending transaction are left out.

    Shown: whenever a request is sent, no earlier operation on the same bond and wallet is in the queue, and the request has the body that
    was queued under its idempotency key ([queue_sends_in_order]); and an operation leaves the queue only by a success or because it was
    discarded ([queue_keeps]).  Where the code falls short: a retry switches off the check of the idempotency window and of
    the balance for every later send, not only for the next one ([retry_disarms_checks]); a queue whose storage is full is sent again by the other tabs
    ([refused_write_resends]); and a storage that cannot be read is overwritten ([unreadable_queue_lost]). *)
From S2P Require Import Prelude Json.

Inductive QueuedOperationKind := subscribe | transfer.
Inductive QueuedOperationStatus := queued | conflict | failed.
#[export] Instance QueuedOperationKind_eq_dec : EqDecision QueuedOperationKind.
Proof. solve_decision. Defined.
#[export] Instance QueuedOperationStatus_eq_dec : EqDecision QueuedOperationStatus.
Proof. solve_decision. Defined.

Record QueuedOperationInput := { qi_kind : QueuedOperationKind; qi_bondId : Z; qi_address : string; qi_amount : Z; qi_toAddress : option string }.

Record QueuedOperation := {
  qo_input : QueuedOperationInput;
  qo_id : string;
  qo_seq : Z;
  qo_enqueuedAt : Z;
  qo_basisBalance : string;
  qo_status : QueuedOperationStatus;
  qo_reason : option string;
  qo_rebase : bool;
}.

Record QueueState := { nextSeq : Z; ops : list QueuedOperation }.
Definition EMPTY_STATE : QueueState := {| nextSeq := 1; ops := [] |}.
Definition IDEMPOTENCY_WINDOW_MS : Z := 23 * 60 * 60 * 1000.

(** What a tab sees: the storage, or its own memory once a write was refused. *)
Record tab := { storage : option QueueState; memory : option QueueState }.
Definition readState (t : tab) : QueueState := match memory t with Some s => s | None => default EMPTY_STATE (storage t) end.
Definition update (t : tab) (change : QueueState → QueueState) (accepted : bool) : tab :=
  let next := change (readState t) in
  match memory t with
  | Some _ => {| storage := storage t; memory := Some next |}
  | None => if accepted then {| storage := Some next; memory := None |} else {| storage := storage t; memory := Some next |}
  end.

(** [a.seq - b.seq || …]: by number, then by identifier. *)
Definition bySeq_lt (a b : QueuedOperation) : bool := (qo_seq a <? qo_seq b) || (qo_seq a =? qo_seq b) && str_lt (qo_id a) (qo_id b).
Fixpoint insert_op (x : QueuedOperation) (l : list QueuedOperation) : list QueuedOperation :=
  match l with [] => [x] | y :: l' => if bySeq_lt y x then y :: insert_op x l' else x :: l end.
Definition sort_ops (l : list QueuedOperation) : list QueuedOperation := foldr insert_op [] l.

Definition enqueue_change (i : QueuedOperationInput) (basisBalance id : string) (now : Z) (s : QueueState) : QueueState :=
  {| nextSeq := nextSeq s + 1;
     ops := ops s ++ [{| qo_input := i; qo_id := id; qo_seq := nextSeq s; qo_enqueuedAt := now; qo_basisBalance := basisBalance;
                         qo_status := queued; qo_reason := None; qo_rebase := false |}] |}.
Definition discard_change (id : string) (s : QueueState) : QueueState := {| nextSeq := nextSeq s; ops := filter (λ o, qo_id o ≠ id) (ops s) |}.

(** [patch] with the three fields that its callers set; with [rebase] the operation counts as queued now. *)
Definition patch_change (id : string) (st : QueuedOperationStatus) (reason : option string) (rebase : bool) (now : Z) (s : QueueState) : QueueState :=
  {| nextSeq := nextSeq s;
     ops := (λ o, if decide (qo_id o = id) then
                    {| qo_input := qo_input o; qo_id := qo_id o; qo_seq := qo_seq o; qo_enqueuedAt := if rebase then now else qo_enqueuedAt o;
                       qo_basisBalance := qo_basisBalance o; qo_status := st; qo_reason := reason; qo_rebase := rebase |}
                  else o) <$> ops s |}.
Definition retry_change (id : string) (now : Z) : QueueState → QueueState := patch_change id queued None true now.

(** ** Sending *)

Record BondDetailResponse := {
  bd_id : Z;
  bd_status : string;
  bd_totalSupply : string;
  bd_totalSubscribed : string;
  bd_reached : bool;
  bd_holders : list (string * string);
}.

Definition isTransientFailure (status : Z) : bool := bool_decide (status ∈ [0; 408; 409; 429; 502; 503; 504]).

Definition bigint (s : string) : result string Z := match BigInt_of_string s with Some z => Ok z | None => Err ("Cannot convert " +:+ s +:+ " to a BigInt") end.

Definition conflictReason (o : QueuedOperation) (d : BondDetailResponse) (balance : string) (now : Z) : result string (option string) :=
  let i := qo_input o in
  if negb (bool_decide (bd_status d = "Active")) || bd_reached d then
    Ok (Some ("Bond #" +:+ Z_to_string (bd_id d) +:+ " is no longer open (" +:+ (if bd_reached d then "matured" else bd_status d) +:+ ")."))
  else
    short ← match qi_kind i with
            | subscribe =>
                supply ← bigint (bd_totalSupply d);
                subscribed ← bigint (bd_totalSubscribed d);
                Ok (if supply - subscribed <? qi_amount i then Some ("Only " +:+ Z_to_string (supply - subscribed) +:+ " tokens remain unsubscribed.") else None)
            | transfer =>
                b ← bigint balance;
                Ok (if b <? qi_amount i then Some ("Your balance is " +:+ balance +:+ ", below the " +:+ Z_to_string (qi_amount i) +:+ " tokens to transfer.") else None)
            end;
    match short with
    | Some r => Ok (Some r)
    | None =>
        Ok (if qo_rebase o then None
            else if IDEMPOTENCY_WINDOW_MS <? now - qo_enqueuedAt o then
              Some "Queued over 23 hours ago; the API no longer guarantees it is sent only once."
            else if decide (balance = qo_basisBalance o) then None
            else Some ("Your balance changed from " +:+ qo_basisBalance o +:+ " to " +:+ balance +:+
                       " since this was queued; it may already have been applied."))
    end.

Definition balance_of (o : QueuedOperation) (d : BondDetailResponse) : string := default "0" (aget (qi_address (qo_input o)) (bd_holders d)).

(** The request that is sent, under the identifier as its idempotency key. *)
Record request := { rq_key : string; rq_input : QueuedOperationInput }.
Definition request_of (o : QueuedOperation) : request := {| rq_key := qo_id o; rq_input := qo_input o |}.

Definition lane (o : QueuedOperation) : Z * string := (qi_bondId (qo_input o), qi_address (qo_input o)).

(** Where a run of [drainInOrder] stands: between two operations, waiting for the bond, or waiting for the answer. *)
Inductive drain_state :=
| Idle
| Scanning (address : string) (rest : list string) (stopped : list (Z * string))
| Fetching (o : QueuedOperation) (address : string) (rest : list string) (stopped : list (Z * string))
| Sending (o : QueuedOperation) (balance address : string) (rest : list string) (stopped : list (Z * string)).

Record system := { sys_tab : tab; drain : drain_state }.
Definition queue (s : system) : QueueState := readState (sys_tab s).
Definition new_system (stored : option QueueState) : system := {| sys_tab := {| storage := stored; memory := None |}; drain := Idle |}.

Inductive answer A := Answered (a : A) | Refused (status : Z) (message : string).
Arguments Answered {A}. Arguments Refused {A}.

Inductive event :=
| Enqueue (i : QueuedOperationInput) (basisBalance id : string) (now : Z) (accepted : bool)
| Retry (id : string) (now : Z) (accepted : bool)
| Discard (id : string) (accepted : bool)
| OtherEnqueue (i : QueuedOperationInput) (basisBalance id : string) (now : Z)
| OtherPatch (id : string) (st : QueuedOperationStatus) (reason : option string) (rebase : bool) (now : Z)
| OtherDiscard (id : string)
| Start (address : option string) (online ready : bool)
| Scan
| BondRead (r : answer BondDetailResponse) (now : Z) (accepted : bool)
| Answer (r : answer string) (now : Z) (accepted accepted' : bool).

Definition with_tab (s : system) (t : tab) : system := {| sys_tab := t; drain := drain s |}.
Definition with_drain (s : system) (d : drain_state) : system := {| sys_tab := sys_tab s; drain := d |}.

(** Another tab writes the storage. *)
Definition other (t : tab) (change : QueueState → QueueState) : tab :=
  {| storage := Some (change (default EMPTY_STATE (storage t))); memory := memory t |}.

Definition find_op (id : string) (s : QueueState) : option QueuedOperation := List.find (λ o, bool_decide (qo_id o = id)) (ops s).

(** After [send] answered false: a transient failure ends the run, anything else stops the lane. *)
Definition after_failure (s : system) (o : QueuedOperation) (address : string) (rest : list string) (stopped : list (Z * string)) : system :=
  if decide (qo_status <$> find_op (qo_id o) (queue s) = Some queued) then with_drain s Idle
  else with_drain s (Scanning address rest (lane o :: stopped)).

Definition onSendError (s : system) (o : QueuedOperation) (status : Z) (message : string) (now : Z) (accepted : bool) : system :=
  if isTransientFailure status then s
  else with_tab s (update (sys_tab s) (patch_change (qo_id o) failed
                     (Some (if decide (message = "") then "The request was rejected" else message)) false now) accepted).

(** The balance that a subscription registers as the expected one; a balance that is no number throws here, after the operation was removed. *)
Definition expected (o : QueuedOperation) (balance : string) : result string (option string) :=
  match qi_kind (qo_input o) with
  | subscribe => b ← bigint balance; Ok (Some (Z_to_string (b + qi_amount (qo_input o))))
  | transfer => Ok None
  end.

Definition step (s : system) (e : event) : system * option request :=
  match e, drain s with
  | Enqueue i b id now acc, _ => (with_tab s (update (sys_tab s) (enqueue_change i b id now) acc), None)
  | Retry id now acc, _ => (with_tab s (update (sys_tab s) (retry_change id now) acc), None)
  | Discard id acc, _ => (with_tab s (update (sys_tab s) (discard_change id) acc), None)
  | OtherEnqueue i b id now, _ => (with_tab s (other (sys_tab s) (enqueue_change i b id now)), None)
  | OtherPatch id st reason rebase now, _ => (with_tab s (other (sys_tab s) (patch_change id st reason rebase now)), None)
  | OtherDiscard id, _ => (with_tab s (other (sys_tab s) (discard_change id)), None)
  | Start (Some (String _ _ as a)) true true, Idle => (with_drain s (Scanning a (qo_id <$> sort_ops (ops (queue s))) []), None)
  | Scan, Scanning a [] stopped => (with_drain s Idle, None)
  | Scan, Scanning a (id :: rest) stopped =>
      match find_op id (queue s) with
      | None => (with_drain s (Scanning a rest stopped), None)
      | Some o =>
          if negb (bool_decide (qi_address (qo_input o) = a)) then (with_drain s (Scanning a rest stopped), None)
          else if negb (bool_decide (qo_status o = queued)) || bool_decide (lane o ∈ stopped) then
            (with_drain s (Scanning a rest (lane o :: stopped)), None)
          else (with_drain s (Fetching o a rest stopped), None)
      end
  | BondRead (Refused st m) now acc, Fetching o a rest stopped => (after_failure (onSendError s o st m now acc) o a rest stopped, None)
  | BondRead (Answered d) now acc, Fetching o a rest stopped =>
      match conflictReason o d (balance_of o d) now with
      | Err _ => (with_drain s Idle, None)
      | Ok (Some why) =>
          let s := with_tab s (update (sys_tab s) (patch_change (qo_id o) conflict (Some why) false now) acc) in
          (after_failure s o a rest stopped, None)
      | Ok None => (with_drain s (Sending o (balance_of o d) a rest stopped), Some (request_of o))
      end
  | Answer (Refused st m) now acc _, Sending o _ a rest stopped => (after_failure (onSendError s o st m now acc) o a rest stopped, None)
  | Answer (Answered _) now acc acc', Sending o balance a rest stopped =>
      let s := with_tab s (update (sys_tab s) (discard_change (qo_id o)) acc) in
      match expected o balance with
      | Ok _ => (with_drain s (Scanning a rest stopped), None)
      | Err m => (after_failure (onSendError s o (-1) m now acc') o a rest stopped, None)
      end
  | _, _ => (s, None)
  end.

Definition run (s : system) (es : list event) : system := foldl (λ s e, (step s e).1) s es.

(** ** Properties *)

(** What never changes of an operation. *)
Definition sig (o : QueuedOperation) : Z * string * QueuedOperationInput := (qo_seq o, qo_id o, qo_input o).
Definition sig_lt (g h : Z * string * QueuedOperationInput) : bool := (g.1.1 <? h.1.1) || (g.1.1 =? h.1.1) && str_lt g.1.2 h.1.2.

(** The identifiers and bodies that were ever in the queue. *)
Definition enqueued (e : event) : option (string * QueuedOperationInput) :=
  match e with Enqueue i _ id _ _ | OtherEnqueue i _ id _ => Some (id, i) | _ => None end.
Definition origins (s0 : system) (es : list event) : list (string * QueuedOperationInput) :=
  ((λ o, (qo_id o, qo_input o)) <$> ops (queue s0)) ++ omap enqueued es.

Lemma str_lt_irrefl a : str_lt a a = false.
Proof. unfold str_lt. by rewrite str_compare_refl. Qed.
Lemma str_lt_spec a b : str_lt a b = true ↔ String.compare a b = Lt.
Proof. unfold str_lt. destruct (String.compare a b); naive_solver. Qed.
Lemma str_lt_asym a b : str_lt a b = true → str_lt b a = false.
Proof. rewrite str_lt_spec. unfold str_lt. rewrite (String.compare_antisym b a). intros ->. done. Qed.
Lemma str_lt_total a b : a ≠ b → str_lt a b = false → str_lt b a = true.
Proof.
  unfold str_lt. rewrite (String.compare_antisym b a). destruct (String.compare a b) eqn:E; cbn; try done.
  by apply String.compare_eq_iff in E.
Qed.

Lemma sig_lt_asym g h : sig_lt g h = true → sig_lt h g = false.
Proof.
  unfold sig_lt. destruct (Z.ltb_spec g.1.1 h.1.1), (Z.eqb_spec g.1.1 h.1.1), (Z.ltb_spec h.1.1 g.1.1), (Z.eqb_spec h.1.1 g.1.1); try lia; cbn; try done.
  apply str_lt_asym.
Qed.
Lemma sig_lt_irrefl g : sig_lt g g = false.
Proof. unfold sig_lt. by rewrite Z.ltb_irrefl, Z.eqb_refl, str_lt_irrefl. Qed.
Lemma sig_lt_total g h : g.1.2 ≠ h.1.2 → sig_lt g h = false → sig_lt h g = true.
Proof.
  unfold sig_lt. intros Hne. destruct (Z.ltb_spec g.1.1 h.1.1), (Z.eqb_spec g.1.1 h.1.1), (Z.ltb_spec h.1.1 g.1.1), (Z.eqb_spec h.1.1 g.1.1); try lia; cbn; try done.
  by apply str_lt_total.
Qed.

Record well_formed (s0 : system) (es : list event) (q : QueueState) : Prop := {
  ids_distinct : NoDup (qo_id <$> ops q);
  seq_below : ∀ o, o ∈ ops q → qo_seq o < nextSeq q;
  from_origin : ∀ o, o ∈ ops q → (qo_id o, qo_input o) ∈ origins s0 es;
}.

(** What is left of a run: the operations of [rest] come in order, and every other operation of this wallet in the queue has its lane
    stopped or was queued after the run had started. *)
Record covers (s0 : system) (es : list event) (q : QueueState) (a : string) (ghost : list (Z * string * QueuedOperationInput)) (stopped : list (Z * string)) (b : Z) : Prop := {
  ghost_sorted : StronglySorted (λ g h, sig_lt g h = true) ghost;
  ghost_distinct : NoDup ((λ g, g.1.2) <$> ghost);
  ghost_below : ∀ g, g ∈ ghost → g.1.1 < b;
  bound_below : b ≤ nextSeq q;
  ghost_origin : ∀ g, g ∈ ghost → (g.1.2, g.2) ∈ origins s0 es;
  covered : ∀ x, x ∈ ops q → sig x ∈ ghost ∨
    qo_id x ∉ (λ g, g.1.2) <$> ghost ∧ (qi_address (qo_input x) ≠ a ∨ lane x ∈ stopped ∨ b ≤ qo_seq x);
}.

Definition drain_ok (s0 : system) (es : list event) (q : QueueState) (d : drain_state) : Prop :=
  match d with
  | Idle => True
  | Scanning a rest stopped => ∃ ghost b, (λ g, g.1.2) <$> ghost = rest ∧ covers s0 es q a ghost stopped b
  | Fetching o a rest stopped | Sending o _ a rest stopped =>
      ∃ ghost b, (λ g, g.1.2) <$> ghost = rest ∧ covers s0 es q a (sig o :: ghost) stopped b ∧ lane o ∉ stopped ∧ qi_address (qo_input o) = a
  end.

(** *** Changes of the queue *)

Lemma patch_ids id st r rb now q : qo_id <$> ops (patch_change id st r rb now q) = qo_id <$> ops q.
Proof. cbn. rewrite <- list_fmap_compose. apply list_fmap_ext. intros i o _. cbn. by case_decide. Qed.

Lemma patch_elem id st r rb now q x : x ∈ ops (patch_change id st r rb now q) → ∃ o, o ∈ ops q ∧ sig x = sig o.
Proof. cbn. intros (o & -> & Ho)%list_elem_of_fmap. exists o. split; [done|]. by case_decide. Qed.

Lemma sig_parts x o : sig x = sig o → qo_seq x = qo_seq o ∧ qo_id x = qo_id o ∧ qo_input x = qo_input o.
Proof. unfold sig. by intros [= -> -> ->]. Qed.

(** A change that only keeps, patches or drops operations. *)
Definition keeps_sigs (q q' : QueueState) : Prop :=
  nextSeq q' = nextSeq q ∧ NoDup (qo_id <$> ops q') ∧ ∀ x, x ∈ ops q' → ∃ o, o ∈ ops q ∧ sig x = sig o.

Lemma keeps_patch id st r rb now q : NoDup (qo_id <$> ops q) → keeps_sigs q (patch_change id st r rb now q).
Proof. intros Hn. split_and!; [done|by rewrite patch_ids|apply patch_elem]. Qed.
Lemma keeps_discard id q : NoDup (qo_id <$> ops q) → keeps_sigs q (discard_change id q).
Proof.
  intros Hn. split_and!; [done| |].
  - cbn. eapply sublist_NoDup; [exact Hn|]. apply fmap_sublist, sublist_filter.
  - cbn. intros x [_ Hx]%list_elem_of_filter. by exists x.
Qed.

Lemma keeps_trans q1 q2 q3 : keeps_sigs q1 q2 → keeps_sigs q2 q3 → keeps_sigs q1 q3.
Proof.
  intros (H1 & _ & H2) (H3 & H4 & H5). split_and!; [congruence|done|]. intros x (y & Hy & ->)%H5. by apply H2.
Qed.

Lemma origins_snoc s0 es e : origins s0 (es ++ [e]) = origins s0 es ++ match enqueued e with Some x => [x] | None => [] end.
Proof. unfold origins. rewrite omap_app, app_assoc. cbn. by destruct (enqueued e). Qed.

Lemma origins_grow s0 es e x : x ∈ origins s0 es → x ∈ origins s0 (es ++ [e]).
Proof. rewrite origins_snoc, elem_of_app. by left. Qed.

Lemma well_formed_keeps s0 es e q q' : keeps_sigs q q' → well_formed s0 es q → well_formed s0 (es ++ [e]) q'.
Proof.
  intros (Hs & Hn & Hk) []. split; [done|..].
  - intros o (x & Hx & (-> & _ & _)%sig_parts)%Hk. rewrite Hs. eauto.
  - intros o (x & Hx & (_ & -> & ->)%sig_parts)%Hk. apply origins_grow. eauto.
Qed.

Lemma covers_keeps s0 es e q q' a ghost stopped b :
  keeps_sigs q q' → covers s0 es q a ghost stopped b → covers s0 (es ++ [e]) q' a ghost stopped b.
Proof.
  intros (Hs & _ & Hk) []. split; try done.
  - by rewrite Hs.
  - intros g Hg. apply origins_grow. eauto.
  - intros x (o & Ho & E)%Hk. destruct (covered0 o Ho) as [H|H]; [left; by rewrite E|right]. apply sig_parts in E as (E1 & E2 & E3).
    unfold lane. by rewrite E1, E2, E3.
Qed.

Lemma well_formed_enqueue s0 es e i bb id now q :
  enqueued e = Some (id, i) → NoDup (origins s0 (es ++ [e])).*1 → well_formed s0 es q → well_formed s0 (es ++ [e]) (enqueue_change i bb id now q).
Proof.
  intros He Hf []. rewrite origins_snoc, He, fmap_app in Hf. apply NoDup_app in Hf as (_ & Hf & _). split; cbn.
  - rewrite fmap_app. apply NoDup_app. split_and!; [done| |by apply NoDup_singleton]. intros x (o & -> & Ho)%list_elem_of_fmap.
    intros E%list_elem_of_singleton. cbn in E. apply (Hf id); [|by apply list_elem_of_singleton].
    apply list_elem_of_fmap. exists (qo_id o, qo_input o). split; [by rewrite E|eauto].
  - intros o [Ho| ->%list_elem_of_singleton]%elem_of_app; [|cbn; lia]. apply seq_below0 in Ho. lia.
  - rewrite origins_snoc, He. intros o [Ho| ->%list_elem_of_singleton]%elem_of_app; apply elem_of_app; [left; eauto|right]. by apply list_elem_of_singleton.
Qed.

Lemma covers_enqueue s0 es e i bb id now q a ghost stopped b :
  enqueued e = Some (id, i) → NoDup (origins s0 (es ++ [e])).*1 → covers s0 es q a ghost stopped b →
  covers s0 (es ++ [e]) (enqueue_change i bb id now q) a ghost stopped b.
Proof.
  intros He Hf []. rewrite origins_snoc, He, fmap_app in Hf. apply NoDup_app in Hf as (_ & Hf & _). split; cbn; try done.
  - lia.
  - intros g Hg. apply origins_grow. eauto.
  - intros x [Hx| ->%list_elem_of_singleton]%elem_of_app; [by apply covered0|]. right. cbn. split; [|right; right; lia].
    intros (g & E & Hg)%list_elem_of_fmap. apply (Hf id); [|by apply list_elem_of_singleton]. apply list_elem_of_fmap.
    exists (g.1.2, g.2). split; [done|eauto].
Qed.

Lemma drain_ok_keeps s0 es e q q' d : keeps_sigs q q' → drain_ok s0 es q d → drain_ok s0 (es ++ [e]) q' d.
Proof.
  intros Hk. destruct d as [|a rest stopped|o a rest stopped|o a rest stopped]; cbn; [done|..].
  - intros (ghost & b & E & H). exists ghost, b. split; [done|]. by eapply covers_keeps.
  - intros (ghost & b & E & H & ?). exists ghost, b. split_and!; [done|by eapply covers_keeps|naive_solver..].
  - intros (ghost & b & E & H & ?). exists ghost, b. split_and!; [done|by eapply covers_keeps|naive_solver..].
Qed.

Lemma drain_ok_enqueue s0 es e i bb id now q d :
  enqueued e = Some (id, i) → NoDup (origins s0 (es ++ [e])).*1 → drain_ok s0 es q d → drain_ok s0 (es ++ [e]) (enqueue_change i bb id now q) d.
Proof.
  intros He Hf. destruct d as [|a rest stopped|o a rest stopped|o a rest stopped]; cbn; [done|..].
  - intros (ghost & b & E & H). exists ghost, b. split; [done|]. by eapply covers_enqueue.
  - intros (ghost & b & E & H & ?). exists ghost, b. split_and!; [done|by eapply covers_enqueue|naive_solver..].
  - intros (ghost & b & E & H & ?). exists ghost, b. split_and!; [done|by eapply covers_enqueue|naive_solver..].
Qed.

(** *** Steps of a run *)

Lemma find_op_Some id q o : find_op id q = Some o → o ∈ ops q ∧ qo_id o = id.
Proof. intros [H1%list_elem_of_In H2%bool_decide_eq_true]%List.find_some. done. Qed.
Lemma find_op_None id q x : find_op id q = None → x ∈ ops q → qo_id x ≠ id.
Proof. intros H Hx%list_elem_of_In E. apply (List.find_none _ _ H) in Hx. by apply bool_decide_eq_false in Hx. Qed.

Lemma same_id_eq q x o : NoDup (qo_id <$> ops q) → x ∈ ops q → o ∈ ops q → qo_id x = qo_id o → x = o.
Proof.
  intros Hn Hx Ho E. apply list_elem_of_lookup in Hx as [i Hi]. apply list_elem_of_lookup in Ho as [j Hj].
  assert (i = j) as ->; [|congruence]. eapply NoDup_lookup; [exact Hn|..]; rewrite list_lookup_fmap, ?Hi, ?Hj; cbn; by rewrite ?E.
Qed.

(** The head of what is left is dealt with: no operation in the queue has its identifier, or its lane is stopped, or it belongs to another
    wallet. *)
Lemma covers_tail s0 es q a g ghost stopped stopped' b :
  covers s0 es q a (g :: ghost) stopped b → stopped ⊆ stopped' →
  (∀ x, x ∈ ops q → sig x = g → qi_address (qo_input x) ≠ a ∨ lane x ∈ stopped') → covers s0 es q a ghost stopped' b.
Proof.
  intros [] Hs Hx. inversion_clear ghost_sorted0 as [|? ? Hss Hall]. rewrite fmap_cons in ghost_distinct0. inversion_clear ghost_distinct0 as [|? ? Hni Hnd].
  split; try done.
  - intros h Hh. apply ghost_below0. by constructor.
  - intros h Hh. apply ghost_origin0. by constructor.
  - intros x Hin. destruct (covered0 x Hin) as [[Eg|H]%elem_of_cons|[H1 H2]].
    + right. rewrite <- Eg in Hni. split; [done|]. destruct (Hx x Hin Eg); [by left|by right; left].
    + by left.
    + right. rewrite fmap_cons, not_elem_of_cons in H1. split; [naive_solver|]. destruct H2 as [?|[?|?]]; [by left|right; left; by apply Hs|by right; right].
Qed.

Lemma insert_elem x y l : x ∈ insert_op y l ↔ x = y ∨ x ∈ l.
Proof.
  induction l as [|z l IH]; cbn; [by rewrite list_elem_of_singleton, elem_of_nil; naive_solver|].
  destruct (bySeq_lt z y); rewrite !elem_of_cons; [rewrite IH|]; naive_solver.
Qed.
Lemma sort_elem x l : x ∈ sort_ops l ↔ x ∈ l.
Proof. induction l as [|y l IH]; cbn; [done|]. by rewrite insert_elem, IH, elem_of_cons. Qed.
Lemma insert_perm y l : insert_op y l ≡ₚ y :: l.
Proof. induction l as [|z l IH]; cbn; [done|]. destruct (bySeq_lt z y); [|done]. rewrite IH. apply Permutation_swap. Qed.
Lemma sort_perm l : sort_ops l ≡ₚ l.
Proof. induction l as [|y l IH]; cbn; [done|]. by rewrite insert_perm, IH. Qed.

Lemma sort_sorted l : NoDup (qo_id <$> l) → StronglySorted (λ g h, sig_lt g h = true) (sig <$> sort_ops l).
Proof.
  induction l as [|y l IH]; intros Hn; [constructor|]. rewrite fmap_cons in Hn. inversion_clear Hn as [|? ? Hni Hnd]. specialize (IH Hnd).
  change (sort_ops (y :: l)) with (insert_op y (sort_ops l)).
  assert (∀ x, x ∈ sort_ops l → qo_id x ≠ qo_id y) as Hne.
  { intros x Hx E. apply Hni, list_elem_of_fmap. exists x. rewrite sort_elem in Hx. by rewrite E. }
  clear Hni Hnd. revert IH Hne. induction (sort_ops l) as [|z l' IH]; intros Hs Hne; cbn; [by repeat constructor|].
  rewrite fmap_cons in Hs. inversion_clear Hs as [|? ? Hss Hall]. change (bySeq_lt z y) with (sig_lt (sig z) (sig y)).
  destruct (sig_lt (sig z) (sig y)) eqn:E.
  - rewrite fmap_cons. constructor.
    + apply IH; [done|]. intros x Hx. apply Hne. by constructor.
    + apply Forall_forall. intros g (x & -> & [-> |Hx]%insert_elem)%list_elem_of_fmap; [done|].
      rewrite Forall_forall in Hall. apply Hall. by apply list_elem_of_fmap_2.
  - rewrite !fmap_cons. assert (sig_lt (sig y) (sig z) = true) as Hyz.
    { apply sig_lt_total; [|done]. cbn. apply Hne. by constructor. }
    constructor; [by constructor|]. constructor; [done|]. rewrite Forall_forall in *. intros g Hg. specialize (Hall g Hg).
    clear -Hyz Hall. unfold sig_lt in *. destruct (Z.ltb_spec (sig y).1.1 (sig z).1.1), (Z.ltb_spec (sig z).1.1 g.1.1), (Z.ltb_spec (sig y).1.1 g.1.1),
      (Z.eqb_spec (sig y).1.1 (sig z).1.1), (Z.eqb_spec (sig z).1.1 g.1.1), (Z.eqb_spec (sig y).1.1 g.1.1); try lia; cbn in *; try done.
    by eapply str_lt_trans.
Qed.

(** *** The invariant *)

Record inv (s0 : system) (es : list event) (s : system) : Prop := {
  inv_queue : well_formed s0 es (queue s);
  inv_drain : drain_ok s0 es (queue s) (drain s);
}.

Lemma view_update t change acc : readState (update t change acc) = change (readState t).
Proof. unfold update, readState. destruct (memory t) eqn:E; [by cbn|]. by destruct acc. Qed.
Lemma view_other t change : readState (other t change) = match memory t with Some _ => readState t | None => change (readState t) end.
Proof. unfold other, readState. by destruct (memory t). Qed.

Lemma keeps_refl q : NoDup (qo_id <$> ops q) → keeps_sigs q q.
Proof. intros Hn. split_and!; [done..|]. intros x Hx. by exists x. Qed.

Lemma inv_keeps s0 es e s s' : keeps_sigs (queue s) (queue s') → drain s' = drain s → inv s0 es s → inv s0 (es ++ [e]) s'.
Proof. intros Hk Hd [H1 H2]. split; [by eapply well_formed_keeps|]. rewrite Hd. by eapply drain_ok_keeps. Qed.

Lemma inv_enqueue s0 es e i bb id now s s' :
  enqueued e = Some (id, i) → NoDup (origins s0 (es ++ [e])).*1 → queue s' = enqueue_change i bb id now (queue s) → drain s' = drain s →
  inv s0 es s → inv s0 (es ++ [e]) s'.
Proof. intros He Hf Hq Hd [H1 H2]. split; rewrite Hq; [by eapply well_formed_enqueue|]. rewrite Hd. by eapply drain_ok_enqueue. Qed.

(** A change of the run alone. *)
Lemma inv_redrain s0 es e s d :
  inv s0 es s → drain_ok s0 (es ++ [e]) (queue s) d → inv s0 (es ++ [e]) (with_drain s d).
Proof. intros [H1 _] Hd. split; [|done]. eapply well_formed_keeps; [apply keeps_refl, H1|done]. Qed.

Lemma covers_grow s0 es e q a ghost stopped b : NoDup (qo_id <$> ops q) → covers s0 es q a ghost stopped b → covers s0 (es ++ [e]) q a ghost stopped b.
Proof. intros Hn. apply covers_keeps, keeps_refl, Hn. Qed.

Lemma covers_start s0 es q a : well_formed s0 es q → covers s0 es q a (sig <$> sort_ops (ops q)) [] (nextSeq q).
Proof.
  intros [H1 H2 H3]. split; [by apply sort_sorted| | |done| |].
  - rewrite <- list_fmap_compose. change ((λ g, g.1.2) ∘ sig) with qo_id. by rewrite sort_perm.
  - intros g (o & -> & Ho)%list_elem_of_fmap. rewrite sort_elem in Ho. by apply H2.
  - intros g (o & -> & Ho)%list_elem_of_fmap. rewrite sort_elem in Ho. by apply H3.
  - intros x Hx. left. apply list_elem_of_fmap_2. by rewrite sort_elem.
Qed.

(** A send that failed: the run ends, or the lane of the operation is stopped. *)
Lemma after_failure_inv s0 es s o a ghost stopped b :
  well_formed s0 es (queue s) → covers s0 es (queue s) a (sig o :: ghost) stopped b →
  inv s0 es (after_failure s o a ((λ g, g.1.2) <$> ghost) stopped).
Proof.
  intros Hw Hc. unfold after_failure. case_decide; (split; [done|]); cbn; [done|]. exists ghost, b. split; [done|].
  eapply covers_tail; [exact Hc|set_solver|]. intros x Hx (_ & _ & E)%sig_parts. right. unfold lane. rewrite E. by constructor.
Qed.

Lemma send_error_keeps s o st m now acc : NoDup (qo_id <$> ops (queue s)) → keeps_sigs (queue s) (queue (onSendError s o st m now acc)).
Proof.
  intros Hn. unfold onSendError. destruct (isTransientFailure st); [by apply keeps_refl|]. unfold queue. cbn. rewrite view_update. by apply keeps_patch.
Qed.

Lemma scan_inv s0 es s e a id rest stopped :
  inv s0 es s → drain s = Scanning a (id :: rest) stopped → e = Scan → inv s0 (es ++ [e]) (step s e).1.
Proof.
  intros Hi Ed ->. destruct Hi as [Hw Hd] eqn:EHi. clear EHi. pose proof (ids_distinct _ _ _ Hw) as Hn. rewrite Ed in Hd.
  destruct Hd as (ghost & b & Eg & Hc). destruct ghost as [|g ghost]; [done|]. injection Eg as Eid <-. cbn. rewrite Ed.
  assert (∀ stopped', stopped ⊆ stopped' → (∀ x, x ∈ ops (queue s) → sig x = g → qi_address (qo_input x) ≠ a ∨ lane x ∈ stopped') →
    inv s0 (es ++ [Scan]) (with_drain s (Scanning a ((λ g, g.1.2) <$> ghost) stopped'))) as Hskip.
  { intros stopped' Hs Hx. apply inv_redrain; [by split; [|rewrite Ed; exists (g :: ghost), b; split; [by rewrite <- Eid|]]|].
    exists ghost, b. split; [done|]. apply covers_grow; [done|]. by eapply covers_tail. }
  destruct (find_op id (queue s)) as [o|] eqn:Ef.
  - apply find_op_Some in Ef as [Ho Eo]. assert (sig o = g) as Esig.
    { destruct (covered _ _ _ _ _ _ _ Hc o Ho) as [[?|H]%elem_of_cons|[H _]]; [done| |].
      - pose proof (ghost_distinct _ _ _ _ _ _ _ Hc) as Hnd. rewrite fmap_cons in Hnd. inversion_clear Hnd as [|? ? Hni _].
        exfalso. apply Hni. rewrite Eid, <- Eo. apply list_elem_of_fmap. by exists (sig o).
      - exfalso. apply H. rewrite fmap_cons, Eid, Eo. by constructor. }
    assert (∀ x, x ∈ ops (queue s) → sig x = g → x = o) as Huniq.
    { intros x Hx E. rewrite <- Esig in E. apply sig_parts in E as (_ & E & _). by eapply same_id_eq. }
    destruct (bool_decide_reflect (qi_address (qo_input o) = a)) as [Ha|Ha]; cbn [negb].
    + destruct (negb (bool_decide (qo_status o = queued))) eqn:Es; cbn [orb].
      { apply Hskip; [set_solver|]. intros x Hx ->%Huniq; [|done]. right. by constructor. }
      destruct (bool_decide_reflect (lane o ∈ stopped)) as [Hl|Hl].
      { apply Hskip; [set_solver|]. intros x Hx ->%Huniq; [|done]. right. by constructor. }
      apply inv_redrain; [by split; [|rewrite Ed; exists (g :: ghost), b; split; [by rewrite <- Eid|]]|].
      exists ghost, b. rewrite Esig. split_and!; try done. by apply covers_grow.
    + apply Hskip; [done|]. intros x Hx ->%Huniq; [|done]. by left.
  - apply Hskip; [done|]. intros x Hx E. exfalso. apply (find_op_None _ _ _ Ef Hx). rewrite <- Eid, <- E. done.
Qed.

Lemma queue_step_inv s0 es e s : NoDup (origins s0 (es ++ [e])).*1 → inv s0 es s → inv s0 (es ++ [e]) (step s e).1.
Proof.
  intros Hf Hi. pose proof (ids_distinct _ _ _ (inv_queue _ _ _ Hi)) as Hn.
  assert (keeps_sigs (queue s) (queue s)) as Hr by by apply keeps_refl.
  destruct e as [i bb id now acc|id now acc|id acc|i bb id now|id st r rb now|id|addr online ready| |r now acc|r now acc acc'].
  - eapply (inv_enqueue _ _ _ _ _ _ _ s); [done|done| |done|exact Hi]. unfold queue. cbn. by rewrite view_update.
  - eapply (inv_keeps _ _ _ s); [|done|exact Hi]. unfold queue. cbn. rewrite view_update. by apply keeps_patch.
  - eapply (inv_keeps _ _ _ s); [|done|exact Hi]. unfold queue. cbn. rewrite view_update. by apply keeps_discard.
  - destruct (memory (sys_tab s)) eqn:Em.
    + eapply (inv_keeps _ _ _ s); [|done|exact Hi]. unfold queue. cbn. rewrite view_other, Em. by apply keeps_refl.
    + eapply (inv_enqueue _ _ _ _ _ _ _ s); [done|done| |done|exact Hi]. unfold queue. cbn. by rewrite view_other, Em.
  - eapply (inv_keeps _ _ _ s); [|done|exact Hi]. unfold queue. cbn. rewrite view_other. destruct (memory _); [by apply keeps_refl|by apply keeps_patch].
  - eapply (inv_keeps _ _ _ s); [|done|exact Hi]. unfold queue. cbn. rewrite view_other. destruct (memory _); [by apply keeps_refl|by apply keeps_discard].
  - cbn. destruct addr as [[|c addr]|]; [by eapply (inv_keeps _ _ _ s)| |by eapply (inv_keeps _ _ _ s)]. destruct online, ready; try by eapply (inv_keeps _ _ _ s).
    destruct (drain s) eqn:Ed; try (by eapply (inv_keeps _ _ _ s); [..|exact Hi]; rewrite ?Ed). apply inv_redrain; [done|].
    exists (sig <$> sort_ops (ops (queue s))), (nextSeq (queue s)). split; [by rewrite <- list_fmap_compose|].
    apply covers_grow, covers_start, Hi. done.
  - destruct (drain s) as [|a [|id rest] stopped|o a rest stopped|o bal a rest stopped] eqn:Ed; cycle 2; [by eapply scan_inv|..]; cbn; rewrite Ed;
      [by eapply (inv_keeps _ _ _ s)..|by eapply (inv_keeps _ _ _ s)|by apply inv_redrain].
  - destruct (drain s) as [|a rest stopped|o a rest stopped|o bal a rest stopped] eqn:Ed; cbn; rewrite Ed; try (by destruct r; eapply (inv_keeps _ _ _ s)).
    pose proof (inv_drain _ _ _ Hi) as Hd. rewrite Ed in Hd. destruct Hd as (ghost & b & <- & Hc & Hl & Ha). destruct r as [d|st m].
    + destruct (conflictReason o d (balance_of o d) now) as [[why|]|]; cbn [fst].
      * assert (keeps_sigs (queue s) (readState (update (sys_tab s) (patch_change (qo_id o) conflict (Some why) false now) acc))) as Hk
          by (rewrite view_update; by apply keeps_patch).
        eapply after_failure_inv; [eapply well_formed_keeps; [exact Hk|apply Hi]|eapply covers_keeps; [exact Hk|exact Hc]].
      * apply inv_redrain; [done|]. exists ghost, b. split_and!; try done. by apply covers_grow.
      * by apply inv_redrain.
    + cbn [fst]. pose proof (send_error_keeps s o st m now acc Hn) as Hk.
      eapply after_failure_inv; [eapply well_formed_keeps; [exact Hk|apply Hi]|eapply covers_keeps; [exact Hk|exact Hc]].
  - destruct (drain s) as [|a rest stopped|o a rest stopped|o bal a rest stopped] eqn:Ed; cbn; rewrite Ed; try (by destruct r; eapply (inv_keeps _ _ _ s)).
    pose proof (inv_drain _ _ _ Hi) as Hd. rewrite Ed in Hd. destruct Hd as (ghost & b & <- & Hc & Hl & Ha). destruct r as [tx|st m].
    + cbn [fst]. assert (keeps_sigs (queue s) (readState (update (sys_tab s) (discard_change (qo_id o)) acc))) as Hk
        by (rewrite view_update; by apply keeps_discard).
      destruct (expected o bal) as [|m]; cbn [fst]; cycle 1.
      { pose proof (keeps_trans _ _ _ Hk (send_error_keeps (with_tab s (update (sys_tab s) (discard_change (qo_id o)) acc)) o (-1) m now acc' (proj1 (proj2 Hk)))) as Hk'.
        eapply after_failure_inv; [eapply well_formed_keeps; [exact Hk'|apply Hi]|eapply covers_keeps; [exact Hk'|exact Hc]]. }
      split; [eapply well_formed_keeps; [exact Hk|apply Hi]|]. cbn. exists ghost, b. split; [done|].
      eapply covers_tail; [eapply covers_keeps; [exact Hk|exact Hc]|done|]. intros x Hx (_ & E & _)%sig_parts. exfalso.
      unfold queue in Hx. cbn [sys_tab with_drain with_tab] in Hx. rewrite view_update in Hx. by apply list_elem_of_filter in Hx as [Hx _].
    + cbn [fst]. pose proof (send_error_keeps s o st m now acc Hn) as Hk.
      eapply after_failure_inv; [eapply well_formed_keeps; [exact Hk|apply Hi]|eapply covers_keeps; [exact Hk|exact Hc]].
Qed.

Lemma queue_run_inv s0 es : drain s0 = Idle → well_formed s0 [] (queue s0) → NoDup (origins s0 es).*1 → inv s0 es (run s0 es).
Proof.
  intros Hd Hw. unfold run. induction es as [|e es IH] using rev_ind; intros Hn; [split; cbn [foldl]; [done|by rewrite Hd]|].
  rewrite foldl_app. cbn [foldl]. apply queue_step_inv; [done|]. apply IH. rewrite origins_snoc, fmap_app in Hn. by apply NoDup_app in Hn as [? _].
Qed.

(** C24: requests are sent in order and as they were queued.  Whatever the user, other tabs and the API do in between, a request is sent
    only for the operation whose bond the run has just read; if that operation is still in the queue, it is there with the same sequence
    number, key and body, and no operation on the same bond and wallet that comes before it, by sequence number and then by key, is in
    the queue; and the request has the body under which its idempotency key was queued, so that every request with this key is the
    same.  Keys are used for one operation each. *)
Theorem queue_sends_in_order s0 es e rq :
  drain s0 = Idle → well_formed s0 [] (queue s0) → NoDup (origins s0 es).*1 → (step (run s0 es) e).2 = Some rq →
  ∃ o a rest stopped, drain (run s0 es) = Fetching o a rest stopped ∧ request_of o = rq ∧
    (rq_key rq, rq_input rq) ∈ origins s0 es ∧
    (∀ y, y ∈ ops (queue (run s0 es)) → qo_id y = qo_id o → qo_seq y = qo_seq o ∧ qo_input y = qo_input o) ∧
    ∀ x, x ∈ ops (queue (run s0 es)) → lane x = lane o → bySeq_lt x o = false.
Proof.
  intros Hd Hw Hn Hs. pose proof (queue_run_inv s0 es Hd Hw Hn) as [_ Hdr]. set (s := run s0 es) in *. clearbody s.
  destruct e as [| | | | | |[[|]|] [] []| |r now acc|r now acc acc']; cbn in Hs; try done.
  - by destruct (drain s).
  - destruct (drain s) as [|a [|id rest] stopped| |]; try done. destruct (find_op id (queue s)); [|done].
    destruct (negb _); [done|]. by destruct (_ || _).
  - destruct (drain s) as [| |o a rest stopped|]; try done; [..|by destruct r]; [by destruct r..|]. destruct r as [d|]; [|done].
    destruct (conflictReason o d (balance_of o d) now) as [[|]|]; try done. injection Hs as <-.
    destruct Hdr as (ghost & b & _ & Hc & Hl & Ha). exists o, a, rest, stopped. split; [done|]. split; [done|]. split_and!.
    { apply (ghost_origin _ _ _ _ _ _ _ Hc (sig o)). by constructor. }
    { intros y Hy Ey. pose proof (ghost_distinct _ _ _ _ _ _ _ Hc) as Hnd. rewrite fmap_cons in Hnd. inversion_clear Hnd as [|? ? Hni _].
      destruct (covered _ _ _ _ _ _ _ Hc y Hy) as [[(? & _ & ?)%sig_parts|Hg]%elem_of_cons|[H _]]; [done|exfalso..].
      - apply Hni. change (sig o).1.2 with (qo_id o). rewrite <- Ey. apply list_elem_of_fmap. by exists (sig y).
      - apply H. rewrite fmap_cons. change (sig o).1.2 with (qo_id o). rewrite Ey. by constructor. }
    intros x Hx El. destruct (covered _ _ _ _ _ _ _ Hc x Hx) as [[E|Hg]%elem_of_cons|[_ [H|[H|H]]]].
    + change (sig_lt (sig x) (sig o) = false). rewrite E. apply sig_lt_irrefl.
    + change (sig_lt (sig x) (sig o) = false). apply sig_lt_asym. pose proof (ghost_sorted _ _ _ _ _ _ _ Hc) as Hss. inversion_clear Hss as [|? ? _ Hall].
      rewrite Forall_forall in Hall. by apply Hall.
    + exfalso. apply H. unfold lane in El. by injection El as _ ->.
    + by rewrite El in H.
    + assert (qo_seq o < b) by (apply (ghost_below _ _ _ _ _ _ _ Hc (sig o)); by constructor).
      unfold bySeq_lt. destruct (Z.ltb_spec (qo_seq x) (qo_seq o)), (Z.eqb_spec (qo_seq x) (qo_seq o)); [lia..|done].
  - destruct (drain s), r; try done. by destruct (expected _ _).
Qed.

(** An operation leaves the queue of the tab only when it was discarded, by the user or another tab, or when its own request was answered. *)
Theorem queue_keeps s e id :
  id ∈ qo_id <$> ops (queue s) → id ∉ qo_id <$> ops (queue (step s e).1) →
  (∃ acc, e = Discard id acc) ∨ e = OtherDiscard id ∨
  ∃ tx now acc acc' o b a rest stopped, e = Answer (Answered tx) now acc acc' ∧ drain s = Sending o b a rest stopped ∧ qo_id o = id.
Proof.
  intros Hin Hout. assert (∀ id' q, id ∈ qo_id <$> ops q → id ∉ qo_id <$> ops (discard_change id' q) → id' = id) as Hdis.
  { intros id' q (o & -> & Ho)%list_elem_of_fmap Hno. destruct (decide (id' = qo_id o)); [done|]. exfalso. apply Hno, list_elem_of_fmap.
    exists o. split; [done|]. cbn. apply list_elem_of_filter. split; [congruence|done]. }
  assert (∀ s' o st m now acc, id ∈ qo_id <$> ops (queue s') → id ∈ qo_id <$> ops (queue (onSendError s' o st m now acc))) as Herr.
  { intros s' o st m now acc H. unfold onSendError. destruct (isTransientFailure st); [done|]. unfold queue. cbn. by rewrite view_update, patch_ids. }
  assert (∀ s' o a rest stopped, queue (after_failure s' o a rest stopped) = queue s') as Haf by (intros; unfold after_failure; by case_decide).
  destruct e as [i bb id' now acc|id' now acc|id' acc|i bb id' now|id' st r rb now|id'|[[|c addr]|] [] []| |r now acc|r now acc acc']; try (by destruct Hout).
  - destruct Hout. unfold queue. cbn. rewrite view_update. cbn. rewrite fmap_app. apply elem_of_app. by left.
  - destruct Hout. unfold queue. cbn. rewrite view_update. unfold retry_change. by rewrite patch_ids.
  - left. unfold queue in Hout. cbn in Hout. rewrite view_update in Hout. exists acc. f_equal. by eapply Hdis.
  - destruct Hout. unfold queue in *. cbn. rewrite view_other. destruct (memory _); [done|]. cbn. rewrite fmap_app. apply elem_of_app. by left.
  - destruct Hout. unfold queue in *. cbn. rewrite view_other. destruct (memory _); [done|]. by rewrite patch_ids.
  - right. left. unfold queue in Hout. cbn in Hout. rewrite view_other in Hout. destruct (memory (sys_tab s)) eqn:Em; [done|]. f_equal. by eapply Hdis.
  - destruct Hout. cbn. by destruct (drain s).
  - destruct Hout. cbn. destruct (drain s) as [|a [|id' rest] stopped| |]; try done. destruct (find_op id' (queue s)); [|done].
    destruct (negb _); [done|]. by destruct (_ || _).
  - destruct Hout. cbn. destruct (drain s) as [| |o a rest stopped|]; try (by destruct r). destruct r as [d|st m].
    + destruct (conflictReason _ _ _ _) as [[why|]|]; try done. cbn [fst]. rewrite Haf. unfold queue. cbn. by rewrite view_update, patch_ids.
    + cbn [fst]. rewrite Haf. by apply Herr.
  - cbn in Hout. destruct (drain s) as [| | |o bal a rest stopped] eqn:Ed; try (by destruct r). destruct r as [tx|st m].
    + right. right. exists tx, now, acc, acc', o, bal, a, rest, stopped. split_and!; try done.
      assert (id ∉ qo_id <$> ops (queue (with_tab s (update (sys_tab s) (discard_change (qo_id o)) acc)))) as Hd.
      { intros Hd. apply Hout. destruct (expected o bal) as [|m]; cbn [fst]; [done|rewrite Haf; by apply Herr]. }
      unfold queue in Hd. cbn in Hd. rewrite view_update in Hd. by eapply Hdis.
    + cbn [fst] in Hout. rewrite Haf in Hout. by destruct Hout; apply Herr.
Qed.

(** ** Concrete runs *)

Definition toy_input (bond amount : Z) : QueuedOperationInput := {| qi_kind := subscribe; qi_bondId := bond; qi_address := "GA"; qi_amount := amount; qi_toAddress := None |}.
Definition open_bond (balance : string) : BondDetailResponse :=
  {| bd_id := 1; bd_status := "Active"; bd_totalSupply := "100"; bd_totalSubscribed := "0"; bd_reached := false; bd_holders := [("GA", balance)] |}.
Definition two_queued : list event := [Enqueue (toy_input 1 5) "0" "k1" 0 true; Enqueue (toy_input 1 7) "0" "k2" 1 true; Start (Some "GA") true true; Scan].

Lemma queue_sends_in_order_witness :
  (step (run (new_system None) two_queued) (BondRead (Answered (open_bond "0")) 2 true)).2 = Some {| rq_key := "k1"; rq_input := toy_input 1 5 |} ∧
  ∃ o a rest stopped, drain (run (new_system None) two_queued) = Fetching o a rest stopped ∧ qo_seq o = 1 ∧
    ∀ x, x ∈ ops (queue (run (new_system None) two_queued)) → lane x = lane o → bySeq_lt x o = false.
Proof.
  split; [reflexivity|].
  destruct (queue_sends_in_order (new_system None) two_queued (BondRead (Answered (open_bond "0")) 2 true) {| rq_key := "k1"; rq_input := toy_input 1 5 |}) as (o & a & rest & stopped & Hd & H1 & _ & H3 & H2).
  - reflexivity.
  - split; [constructor|by intros ? ?%elem_of_nil..].
  - apply (bool_decide_unpack _). by vm_compute.
  - reflexivity.
  - exists o, a, rest, stopped. split; [exact Hd|]. split; [|exact H2]. vm_compute in Hd. by injection Hd as <- _ _ _.
Defined.

(** A send that fails transiently after a retry leaves the operation exempt from both checks: two days later it is sent again without a question, with a
    balance that shows that it was already applied and a key that the API has forgotten. *)
Lemma retry_disarms_checks :
  let days := 2 * 24 * 60 * 60 * 1000 in
  let s := run (new_system None) [Enqueue (toy_input 1 5) "0" "k1" 0 true; Retry "k1" 1 true; Start (Some "GA") true true; Scan;
    BondRead (Answered (open_bond "0")) 2 true; Answer (Refused 504 "timeout") 3 true true; Start (Some "GA") true true; Scan] in
  (step s (BondRead (Answered (open_bond "5")) days true)).2 = Some {| rq_key := "k1"; rq_input := toy_input 1 5 |}.
Proof. by vm_compute. Qed.

(** When the storage refuses the write that removes a sent operation, the operation stays in the storage for the other tabs. *)
Lemma refused_write_resends :
  let s := run (new_system None) [Enqueue (toy_input 1 5) "0" "k1" 0 true; Start (Some "GA") true true; Scan;
    BondRead (Answered (open_bond "0")) 2 true; Answer (Answered "tx") 3 false false] in
  ops (queue s) = [] ∧ qo_id <$> ops (queue (new_system (storage (sys_tab s)))) = ["k1"].
Proof. by vm_compute. Qed.

(** A storage that cannot be read counts as empty, and the next operation overwrites it. *)
Lemma unreadable_queue_lost :
  qo_id <$> ops (queue (run (new_system None) [Enqueue (toy_input 1 5) "0" "k9" 0 true])) = ["k9"].
Proof. by vm_compute. Qed.
