(* ===== verification/OrderStates.v ===== *)
(** * Versioned order states

    Models [api/src/marketplace/order-state.service.ts]: the state of an order kept in Redis with a version that every transition names and
    raises.  A call is a sequence of Redis commands, each of which may find Redis out of reach: a read is then answered with nothing and a write
    is lost, as the degrading calls of [redis.service.ts] do.  Calls on one order are threads whose commands interleave in any order;
    [clearOnCancellation] is one command.  Entries of the ledger are what a call returns besides the state.

    Shown: calls that do not overlap, on a reachable Redis, check and raise the version exactly ([transition_exact]), and the version counts the
    transitions since the state was created ([version_counts]).  Where the code falls short of the serialisation that its comments promise: two
    overlapping calls on the same version both succeed, and one of them is lost ([both_transitions_succeed]); a read that Redis does not
    answer overwrites the state with a new one ([lost_read_resets]); and a settled order can be moved on ([settled_not_final]). *)
From S2P Require Import Prelude Market.

Record VersionedOrderState := { os_version : Z; os_status : OrderStatus; os_filledAmount : string; os_lastModified : Z }.

(** What is stored for the order. *)
Definition cell := option VersionedOrderState.

Definition initial (now : Z) : VersionedOrderState := {| os_version := 0; os_status := Open; os_filledAmount := "0"; os_lastModified := now |}.

Definition conflict_text (orderId expected found : Z) : string :=
  "Order " +:+ Z_to_string orderId +:+ " was modified concurrently (version conflict: expected " +:+ Z_to_string expected +:+ ", found " +:+ Z_to_string found +:+ "). Retry with fresh order state.".

(** *** Programs of commands *)

Inductive prog (A : Type) :=
| Ret (a : A)
| Get (k : cell → prog A)
| SetEx (v : VersionedOrderState) (k : prog A)
| Del (k : prog A).
Arguments Ret {A}. Arguments Get {A}. Arguments SetEx {A}. Arguments Del {A}.

Fixpoint bind {A B} (p : prog A) (f : A → prog B) : prog B :=
  match p with
  | Ret a => f a
  | Get k => Get (λ c, bind (k c) f)
  | SetEx v k => SetEx v (bind k f)
  | Del k => Del (bind k f)
  end.

Definition getOrderState (now : Z) : prog VersionedOrderState :=
  Get (λ c, match c with Some s => Ret s | None => SetEx (initial now) (Ret (initial now)) end).

Definition transitionState (orderId currentVersion : Z) (newStatus : OrderStatus) (filledAmount : option string) (now : Z) : prog (result string VersionedOrderState) :=
  bind (getOrderState now) (λ existing,
    if negb (os_version existing =? currentVersion) then Ret (Err (conflict_text orderId currentVersion (os_version existing)))
    else
      let s := {| os_version := currentVersion + 1; os_status := newStatus; os_filledAmount := default (os_filledAmount existing) filledAmount;
                  os_lastModified := now |} in
      SetEx s (Ret (Ok s))).

(** What is appended to the ledger: the state before and after. *)
Record ledger_entry := { le_type : string; le_from : VersionedOrderState; le_to : VersionedOrderState }.

Definition rollbackAfterSettlementFailure (orderId now : Z) : prog (result string (VersionedOrderState * ledger_entry)) :=
  bind (getOrderState now) (λ current,
    bind (transitionState orderId (os_version current) Open (Some "0") now) (λ r,
      Ret (rolled ← r; Ok (rolled, {| le_type := "settlement.rolled_back"; le_from := current; le_to := rolled |})))).

Definition markSettled (orderId now : Z) : prog (result string (VersionedOrderState * ledger_entry)) :=
  bind (getOrderState now) (λ current,
    bind (transitionState orderId (os_version current) Filled None now) (λ r,
      Ret (settled ← r; Ok (settled, {| le_type := "settlement.completed"; le_from := current; le_to := settled |})))).

Definition clearOnCancellation : prog unit := Del (Ret tt).

(** One command; [reach] tells whether Redis answers it. *)
Definition exec {A} (c : cell) (p : prog A) (reach : bool) : cell * prog A :=
  match p with
  | Ret a => (c, Ret a)
  | Get k => (c, k (if reach then c else None))
  | SetEx v k => (if reach then Some v else c, k)
  | Del k => (if reach then None else c, k)
  end.

(** A call on its own, on a Redis that answers. *)
Fixpoint alone {A} (c : cell) (p : prog A) : cell * A :=
  match p with
  | Ret a => (c, a)
  | Get k => alone c (k c)
  | SetEx v k => alone (Some v) k
  | Del k => alone None k
  end.

(** Two calls; the schedule says which one runs its next command. *)
Fixpoint both {A B} (c : cell) (p : prog A) (q : prog B) (schedule : list bool) : cell * prog A * prog B :=
  match schedule with
  | [] => (c, p, q)
  | true :: l => let '(c, p) := exec c p true in both c p q l
  | false :: l => let '(c, q) := exec c q true in both c p q l
  end.

(** ** Properties *)

Lemma alone_bind {A B} c (p : prog A) (f : A → prog B) : alone c (bind p f) = alone (alone c p).1 (f (alone c p).2).
Proof. revert c. induction p as [a|k IH|v k IH|k IH]; intros c; cbn; [done|apply IH|apply IH|apply IH]. Qed.

Lemma getOrderState_alone c now : alone c (getOrderState now) = (Some (default (initial now) c), default (initial now) c).
Proof. by destruct c. Qed.

(** A transition on its own: it succeeds exactly when the version is the one it names, and then the version is the next one; otherwise
    nothing but a missing state changes. *)
Theorem transition_exact c id v st amount now :
  let s := default (initial now) c in
  alone c (transitionState id v st amount now) =
  if os_version s =? v then
    let s' := {| os_version := v + 1; os_status := st; os_filledAmount := default (os_filledAmount s) amount; os_lastModified := now |} in (Some s', Ok s')
  else (Some s, Err (conflict_text id v (os_version s))).
Proof. cbn zeta. unfold transitionState. rewrite alone_bind, getOrderState_alone. cbn. by destruct (_ =? v). Qed.

Inductive call := Transition (v : Z) (st : OrderStatus) (amount : option string) (now : Z) | Rollback (now : Z) | Settle (now : Z) | Read (now : Z).

(** The state after a call, and whether it made a transition. *)
Definition step (id : Z) (c : cell) (o : call) : cell * bool :=
  match o with
  | Transition v st amount now => let '(c, r) := alone c (transitionState id v st amount now) in (c, match r with Ok _ => true | Err _ => false end)
  | Rollback now => let '(c, r) := alone c (rollbackAfterSettlementFailure id now) in (c, match r with Ok _ => true | Err _ => false end)
  | Settle now => let '(c, r) := alone c (markSettled id now) in (c, match r with Ok _ => true | Err _ => false end)
  | Read now => ((alone c (getOrderState now)).1, false)
  end.

Definition version (c : cell) : Z := match c with Some s => os_version s | None => 0 end.

Lemma step_version id c o : version (step id c o).1 = version c + (if (step id c o).2 then 1 else 0).
Proof.
  assert (∀ now, os_version (default (initial now) c) = version c) as Hv by by destruct c.
  destruct o as [v st amount now|now|now|now]; cbn [step].
  - rewrite transition_exact. cbn zeta. rewrite Hv. destruct (Z.eqb_spec (version c) v); cbn; rewrite ?Hv; lia.
  - unfold rollbackAfterSettlementFailure. rewrite alone_bind, getOrderState_alone, alone_bind. cbn [fst snd]. rewrite transition_exact. cbn.
    rewrite Z.eqb_refl. cbn. by rewrite Hv.
  - unfold markSettled. rewrite alone_bind, getOrderState_alone, alone_bind. cbn [fst snd]. rewrite transition_exact. cbn.
    rewrite Z.eqb_refl. cbn. by rewrite Hv.
  - rewrite getOrderState_alone. cbn. rewrite Hv. lia.
Qed.

Fixpoint transitions (id : Z) (c : cell) (os : list call) : nat :=
  match os with [] => 0 | o :: os => (if (step id c o).2 then 1 else 0) + transitions id (step id c o).1 os end.

(** Calls that do not overlap: the version counts the transitions. *)
Theorem version_counts id c os : version (foldl (λ c o, (step id c o).1) c os) = version c + Z.of_nat (transitions id c os).
Proof.
  revert c. induction os as [|o os IH]; intros c; cbn; [lia|]. rewrite IH, step_version. destruct (step id c o).2; cbn; lia.
Qed.

(** *** Where the calls overlap *)

Definition sell : VersionedOrderState := {| os_version := 3; os_status := Open; os_filledAmount := "0"; os_lastModified := 0 |}.

(** A cancellation and a fill that both read version 3 both succeed; the fill is lost. *)
Lemma both_transitions_succeed :
  ∃ a b, both (Some sell) (transitionState 1 3 Filled (Some "10") 1) (transitionState 1 3 Cancelled None 2) [true; false; true; false] =
    (Some b, Ret (Ok a), Ret (Ok b)) ∧ os_status a = Filled ∧ os_status b = Cancelled ∧ os_filledAmount b = "0" ∧ os_version a = os_version b.
Proof. eexists _, _. by vm_compute. Qed.

(** A read that Redis does not answer makes a new state, and the write that follows replaces the order. *)
Lemma lost_read_resets :
  let '(c, p) := exec (Some sell) (getOrderState 9) false in (exec c p true).1 = Some (initial 9).
Proof. by vm_compute. Qed.

(** A settled order is moved on like any other. *)
Lemma settled_not_final :
  ∃ s, (alone (alone (Some sell) (markSettled 1 1)).1 (transitionState 1 4 Open None 2)).2 = Ok s ∧ os_status s = Open.
Proof. eexists. by vm_compute. Qed.
