(* ===== verification/Cancellation.v ===== *)
(** * Cancellation of long-running operations

    Models [api/src/common/services/operation-cancellation.service.ts].  An entry of the registry is an object that tokens share: entries live in a
    heap ([heap]) and the registry and the tokens refer to them by their position.

    Shown: a cancellation reaches the operation ([cancel_reaches]): as long as the operation is not released, its token is cancelled after a call of
    [cancel], whatever was started, cancelled and released in between, and it stays so; and a call of [cancel] that answers true is the first one to reach
    it ([cancel_once]).  Where the code falls short: two runs under one identifier share an entry, and when the one that ends first releases it,
    the other can no longer be cancelled ([release_hides_running]). *)
From S2P Require Import Prelude.

Record Entry := { en_kind : string; en_startedAt : Z; en_aborted : bool; en_cancelledAt : option Z; en_reason : option string }.
Record CancellationToken := { tk_operationId : string; tk_entry : nat }.
Record ActiveOperation := { ao_operationId : string; ao_kind : string; ao_startedAt : Z; ao_cancelled : bool; ao_cancelledAt : option Z; ao_reason : option string }.
Record registry := { heap : list Entry; entries : list (string * nat) }.
Definition new_registry : registry := {| heap := []; entries := [] |}.

Definition aborted (st : registry) (n : nat) : bool := match heap st !! n with Some e => en_aborted e | None => false end.

Definition cancelled (st : registry) (t : CancellationToken) : bool := aborted st (tk_entry t).
Definition token_reason (st : registry) (t : CancellationToken) : option string := heap st !! tk_entry t ≫= en_reason.

Definition error_text (id : string) (reason : option string) : string :=
  "Operation " +:+ id +:+ " was cancelled" +:+ match reason with Some (String _ _ as r) => ": " +:+ r | _ => "" end.
Definition throwIfCancelled (st : registry) (t : CancellationToken) : result string unit :=
  if cancelled st t then Err (error_text (tk_operationId t) (token_reason st t)) else Ok tt.

Definition start (st : registry) (operationId kind : string) (now : Z) : registry * CancellationToken :=
  let fresh := ({| heap := heap st ++ [{| en_kind := kind; en_startedAt := now; en_aborted := false; en_cancelledAt := None; en_reason := None |}];
                   entries := aput operationId (length (heap st)) (entries st) |},
                {| tk_operationId := operationId; tk_entry := length (heap st) |}) in
  match aget operationId (entries st) with
  | Some n => if aborted st n then fresh else (st, {| tk_operationId := operationId; tk_entry := n |})
  | None => fresh
  end.

Definition get (st : registry) (operationId : string) : option CancellationToken :=
  (λ n, {| tk_operationId := operationId; tk_entry := n |}) <$> aget operationId (entries st).

Definition isCancelled (st : registry) (operationId : string) : bool :=
  match aget operationId (entries st) with Some n => aborted st n | None => false end.

Definition abort (e : Entry) (reason : string) (now : Z) : Entry :=
  {| en_kind := en_kind e; en_startedAt := en_startedAt e; en_aborted := true; en_cancelledAt := Some now; en_reason := Some reason |}.

Definition cancel (st : registry) (operationId reason : string) (now : Z) : registry * bool :=
  match aget operationId (entries st) with
  | None => (st, false)
  | Some n =>
      if aborted st n then (st, false)
      else ({| heap := alter (λ e, abort e reason now) n (heap st); entries := entries st |}, true)
  end.

Definition release (st : registry) (operationId : string) : registry := {| heap := heap st; entries := adel operationId (entries st) |}.

Definition listActive (st : registry) : list ActiveOperation :=
  omap (λ kv, (λ e, {| ao_operationId := kv.1; ao_kind := en_kind e; ao_startedAt := en_startedAt e; ao_cancelled := en_aborted e;
                       ao_cancelledAt := en_cancelledAt e; ao_reason := en_reason e |}) <$> heap st !! kv.2) (entries st).

Definition clear (st : registry) : registry := {| heap := heap st; entries := [] |}.

Inductive call :=
| Start (id kind : string) (now : Z)
| Cancel (id reason : string) (now : Z)
| Release (id : string)
| Clear.

Definition step (st : registry) (o : call) : registry :=
  match o with
  | Start id kind now => (start st id kind now).1
  | Cancel id reason now => (cancel st id reason now).1
  | Release id => release st id
  | Clear => clear st
  end.
Definition run (st : registry) (os : list call) : registry := foldl step st os.

(** ** Properties *)

Record registry_ok (st : registry) : Prop := {
  keys_distinct : NoDup (entries st).*1;
  in_heap : ∀ id n, aget id (entries st) = Some n → (n < length (heap st))%nat;
}.

Lemma step_ok st o : registry_ok st → registry_ok (step st o).
Proof.
  intros [H1 H2]. assert (registry_ok st) as Hst by done. destruct o as [id kind now|id reason now|id|]; cbn [step].
  - assert (registry_ok {| heap := heap st ++ [{| en_kind := kind; en_startedAt := now; en_aborted := false; en_cancelledAt := None; en_reason := None |}];
      entries := aput id (length (heap st)) (entries st) |}) as Hf.
    { split; cbn; [by apply aput_keys_NoDup|]. intros id' n. rewrite aget_aput, length_app. case_decide; [intros [= <-]; cbn; lia|]. intros Hx%H2. lia. }
    unfold start. destruct (aget id (entries st)) as [n|]; [|done]. by destruct (aborted st n).
  - unfold cancel. destruct (aget id (entries st)) as [n|]; [|done]. destruct (aborted st n); [done|]. split; cbn; [done|]. intros id' n'. rewrite length_alter. apply H2.
  - split; cbn; [by apply adel_keys_NoDup|]. intros id' n. rewrite aget_adel by done. case_decide; [done|]. apply H2.
  - split; cbn; [constructor|done].
Qed.

Lemma run_ok os st : registry_ok st → registry_ok (run st os).
Proof. unfold run. revert st. induction os as [|o os IH]; intros st Hst; [done|]. cbn. by apply IH, step_ok. Qed.

(** What was aborted stays aborted. *)
Lemma step_aborted st o n : (n < length (heap st))%nat → aborted st n = true → aborted (step st o) n = true ∧ (n < length (heap (step st o)))%nat.
Proof.
  intros Hn Ha. destruct o as [id kind now|id reason now|id|]; cbn [step]; [|..|done|done].
  - assert (∀ x, aborted {| heap := heap st ++ [x]; entries := aput id (length (heap st)) (entries st) |} n = true ∧ (n < length (heap st ++ [x]))%nat) as Hf.
    { intros x. unfold aborted in *. cbn. rewrite lookup_app_l by done. rewrite length_app. split; [done|lia]. }
    unfold start. destruct (aget id (entries st)) as [m|]; [|apply Hf]. destruct (aborted st m); [apply Hf|done].
  - unfold cancel. destruct (aget id (entries st)) as [m|]; [|done]. destruct (aborted st m) eqn:Em; [done|]. cbn. rewrite length_alter. split; [|done].
    unfold aborted in *. cbn. destruct (decide (n = m)) as [->|]; [congruence|]. by rewrite list_lookup_alter_ne.
Qed.

(** The registry leads to the token, or the token is cancelled already. *)
Definition reachable (st : registry) (t : CancellationToken) : Prop :=
  registry_ok st ∧ (tk_entry t < length (heap st))%nat ∧
  ∃ n, aget (tk_operationId t) (entries st) = Some n ∧ (n = tk_entry t ∨ cancelled st t = true).

Lemma reachable_step st t o : o ≠ Release (tk_operationId t) → o ≠ Clear → reachable st t → reachable (step st o) t.
Proof.
  intros Hr Hc (Hok & Hn & m & Hm & Hor). pose proof (step_ok st o Hok) as Hok'.
  assert ((tk_entry t < length (heap (step st o)))%nat ∧ (cancelled st t = true → cancelled (step st o) t = true)) as [Hn' Hmono].
  { split; [|intros H; by apply step_aborted].
    destruct o as [id kind now|id reason now|id|]; cbn [step]; [| |done|done].
    - unfold start. destruct (aget id (entries st)) as [k|]; [destruct (aborted st k)|]; cbn; rewrite ?length_app; lia.
    - unfold cancel. destruct (aget id (entries st)) as [k|]; [|done]. destruct (aborted st k); cbn; by rewrite ?length_alter. }
  split; [done|]. split; [done|]. destruct o as [id kind now|id reason now|id|]; cbn [step] in *.
  - unfold start in *. destruct (aget id (entries st)) as [k|] eqn:Ek; [destruct (aborted st k) eqn:Ea|].
    + cbn in *. rewrite aget_aput. destruct (decide (tk_operationId t = id)) as [<-|]; [|exists m; naive_solver].
      eexists. split; [done|]. right. apply Hmono. rewrite Ek in Hm. injection Hm as ->. destruct Hor as [->|]; done.
    + exists m. naive_solver.
    + cbn in *. rewrite aget_aput. destruct (decide (tk_operationId t = id)) as [<-|]; [congruence|exists m; naive_solver].
  - unfold cancel in *. destruct (aget id (entries st)) as [k|]; [|exists m; naive_solver]. destruct (aborted st k); exists m; naive_solver.
  - cbn. rewrite aget_adel by apply Hok. rewrite decide_False by congruence. exists m. naive_solver.
  - done.
Qed.

(** A cancellation reaches the operation.  Whatever was started, cancelled and released before and in between, as long as the operation itself is not
    released its token is cancelled after a call of [cancel], and stays so whatever is called later. *)
Theorem cancel_reaches os id kind now os2 reason now' os3 :
  let '(st1, t) := start (run new_registry os) id kind now in
  Forall (λ o, o ≠ Release id ∧ o ≠ Clear) os2 →
  cancelled (run (cancel (run st1 os2) id reason now').1 os3) t = true.
Proof.
  destruct (start (run new_registry os) id kind now) as [st1 t] eqn:Es. intros Hf.
  assert (registry_ok (run new_registry os)) as Hok by (apply run_ok; split; [constructor|done]).
  assert (tk_operationId t = id ∧ reachable st1 t) as [Ht H1].
  { pose proof (step_ok _ (Start id kind now) Hok) as Hok1. cbn in Hok1. rewrite Es in Hok1. cbn in Hok1. unfold start in Es.
    destruct (aget id (entries (run new_registry os))) as [n|] eqn:E; [destruct (aborted _ n)|]; injection Es as <- <-; (split; [done|]); (split; [done|]); cbn.
    - rewrite length_app. cbn. split; [lia|]. eexists. rewrite aget_aput, decide_True by done. split; [done|by left].
    - split; [by eapply (in_heap _ Hok)|]. exists n. split; [done|by left].
    - rewrite length_app. cbn. split; [lia|]. eexists. rewrite aget_aput, decide_True by done. split; [done|by left]. }
  subst id. assert (reachable (run st1 os2) t) as (_ & Hn & m & Hm & Hor).
  { clear Es Hok. revert st1 H1. unfold run. induction Hf as [|o os2 [Hr Hc] _ IH]; intros st1 H1; [done|]. cbn. by apply IH, reachable_step. }
  assert ((tk_entry t < length (heap (cancel (run st1 os2) (tk_operationId t) reason now').1))%nat ∧
          cancelled (cancel (run st1 os2) (tk_operationId t) reason now').1 t = true) as [Hn' Hc].
  { unfold cancel. rewrite Hm. destruct (aborted (run st1 os2) m) eqn:Ea; cbn [fst].
    - split; [done|]. destruct Hor as [->|]; done.
    - cbn [heap]. rewrite length_alter. split; [done|]. unfold cancelled, aborted. cbn [heap]. destruct Hor as [->|Hc].
      + rewrite list_lookup_alter_eq. destruct (lookup_lt_is_Some_2 _ _ Hn) as [e ->]. done.
      + destruct (decide (m = tk_entry t)) as [->|]; [unfold cancelled in Hc; congruence|]. by rewrite list_lookup_alter_ne. }
  clear -Hn' Hc. revert Hn' Hc. generalize (cancel (run st1 os2) (tk_operationId t) reason now').1. unfold run.
  induction os3 as [|o os3 IH]; intros st Hn Hc; [done|]. cbn. destruct (step_aborted st o (tk_entry t) Hn Hc). by apply IH.
Qed.

(** A call that answers true found the operation running, and the next one answers false. *)
Theorem cancel_once st id reason now st' reason' now' :
  registry_ok st → cancel st id reason now = (st', true) →
  isCancelled st id = false ∧ isCancelled st' id = true ∧ (cancel st' id reason' now').2 = false.
Proof.
  intros Hok. unfold cancel, isCancelled. destruct (aget id (entries st)) as [n|] eqn:E; [|done]. destruct (aborted st n) eqn:Ea; [done|]. intros [= <-].
  cbn [entries]. rewrite E. assert (aborted {| heap := alter (λ e, abort e reason now) n (heap st); entries := entries st |} n = true) as H.
  { unfold aborted. cbn. rewrite list_lookup_alter_eq. destruct (lookup_lt_is_Some_2 _ _ (in_heap _ Hok _ _ E)) as [e ->]. done. }
  rewrite H. done.
Qed.

(** ** Concrete runs *)

Lemma cancel_reaches_witness :
  cancelled (run (cancel (run (start (run new_registry []) "x" "import" 1).1 [Start "y" "export" 2]) "x" "stop" 3).1 [Release "x"]) {| tk_operationId := "x"; tk_entry := 0 |} = true.
Proof. apply (cancel_reaches [] "x" "import" 1 [Start "y" "export" 2] "stop" 3 [Release "x"]). by repeat constructor. Defined.

(** Two runs under one identifier share the entry: when the first one ends and releases it, the second can no longer be cancelled. *)
Lemma release_hides_running :
  let '(st, t) := start (start new_registry "x" "import" 1).1 "x" "import" 2 in
  cancel (release st "x") "x" "stop" 3 = (release st "x", false) ∧ cancelled (release st "x") t = false.
Proof. by vm_compute. Qed.
