(* ===== verification/PendingTransactions.v ===== *)
(** * Pending transactions of the web client

    Models [frontend/src/app/shared/services/pending-transactions.service.ts]: the transactions that were submitted and not yet confirmed, the values shown in
    advance for them, and the check of these values against the chain.

    The service is a state: the entries, what the local storage holds, the transactions that are polled ([polls]) and the reads of the chain that are under way
    ([reads]).  The answers of the API come as events; [None] is a request that failed.  A write to the storage may be refused.  Entries come back from the storage as
    they were written.

    Shown: the entries, with all their fields, are the rendering of a machine of four phases per transaction ([pending_refines]): every transaction that waits is polled,
    every confirmed one is compared with the chain, the first answer decides, and a reload changes nothing.  Consequently a value is shown in advance exactly
    while its transaction waits ([optimistic_exact]).  Where the code falls short: an API that cannot be reached for five minutes counts as a
    transaction that was not applied, and the transaction is never asked for again ([outage_rolls_back]); and a tab overwrites what another tab has
    stored ([other_tab_lost]). *)
From S2P Require Import Prelude.

Inductive TransactionStatus := pending | confirmed | failed.
Inductive OptimisticKind := holder_balance | claimable_credits.
Inductive Reconciliation := awaiting | delayed | matched | diverged | rolled_back.
Inductive RollbackReason := by_failure | by_expiry.
#[export] Instance TransactionStatus_eq_dec : EqDecision TransactionStatus.
Proof. solve_decision. Defined.
#[export] Instance OptimisticKind_eq_dec : EqDecision OptimisticKind.
Proof. solve_decision. Defined.
#[export] Instance Reconciliation_eq_dec : EqDecision Reconciliation.
Proof. solve_decision. Defined.

Record OptimisticEffect := { oe_kind : OptimisticKind; oe_bondId : Z; oe_address : string; oe_expected : string; oe_actual : option string }.
#[export] Instance OptimisticEffect_eq_dec : EqDecision OptimisticEffect.
Proof. solve_decision. Defined.

Record PendingTx := {
  tx_hash : string;
  tx_operation : string;
  tx_status : TransactionStatus;
  tx_submittedAt : Z;
  tx_effect : option OptimisticEffect;
  tx_reconciliation : option Reconciliation;
  tx_rollbackReason : option RollbackReason;
  tx_acknowledged : bool;
}.

Definition DELAYED_AFTER_MS : Z := 60000.
Definition EXPIRED_AFTER_MS : Z := 5 * 60000.

Record service := { entries : list PendingTx; stored : option (list PendingTx); polls : list string; reads : list (string * OptimisticEffect) }.

Definition loadFromStorage (raw : option (list PendingTx)) : list PendingTx := default [] raw.

Definition find (s : service) (hash : string) : option PendingTx := List.find (λ e, bool_decide (tx_hash e = hash)) (entries s).

Definition persist (s : service) (accepted : bool) : service :=
  if accepted then {| entries := entries s; stored := Some (entries s); polls := polls s; reads := reads s |} else s.
Definition with_entries (s : service) (l : list PendingTx) : service := {| entries := l; stored := stored s; polls := polls s; reads := reads s |}.
Definition patch (s : service) (hash : string) (changes : PendingTx → PendingTx) (accepted : bool) : service :=
  persist (with_entries s ((λ e, if decide (tx_hash e = hash) then changes e else e) <$> entries s)) accepted.

Definition poll (s : service) (hash : string) : service :=
  {| entries := entries s; stored := stored s; polls := hash :: filter (λ h, h ≠ hash) (polls s); reads := reads s |}.
Definition unsubscribe (s : service) (hash : string) : service :=
  {| entries := entries s; stored := stored s; polls := filter (λ h, h ≠ hash) (polls s); reads := reads s |}.

(** [reconcile] starts the read of the chain; its answer is an event. *)
Definition reconcile (s : service) (hash : string) : service :=
  match find s hash ≫= tx_effect with
  | Some e => {| entries := entries s; stored := stored s; polls := polls s; reads := (hash, e) :: reads s |}
  | None => s
  end.

Definition new_tx (hash operation : string) (effect : option OptimisticEffect) (now : Z) : PendingTx :=
  {| tx_hash := hash; tx_operation := operation; tx_status := pending; tx_submittedAt := now; tx_effect := effect;
     tx_reconciliation := if effect is Some _ then Some awaiting else None; tx_rollbackReason := None; tx_acknowledged := false |}.

Definition register (s : service) (hash : option string) (operation : string) (effect : option OptimisticEffect) (now : Z) (accepted : bool) : service :=
  match hash with
  | Some (String _ _ as h) =>
      poll (persist (with_entries s (new_tx h operation effect now :: filter (λ e, tx_hash e ≠ h) (entries s))) accepted) h
  | _ => s
  end.

Definition shows (kind : OptimisticKind) (bondId : Z) (address : string) (e : PendingTx) : bool :=
  bool_decide (tx_status e = pending) &&
  match tx_effect e with
  | Some f => bool_decide (oe_kind f = kind) && (oe_bondId f =? bondId) && bool_decide (oe_address f = address)
  | None => false
  end.
Definition optimisticValue (s : service) (kind : OptimisticKind) (bondId : Z) (address : option string) : option string :=
  match address with
  | Some (String _ _ as a) => e ← List.find (shows kind bondId a) (entries s); oe_expected <$> tx_effect e
  | _ => None
  end.

Definition notices (s : service) (bondId : Z) : list PendingTx :=
  filter (λ e, (oe_bondId <$> tx_effect e) = Some bondId ∧ tx_acknowledged e = false ∧
               (tx_reconciliation e = Some delayed ∨ tx_reconciliation e = Some diverged ∨ tx_reconciliation e = Some rolled_back)) (entries s).

Definition with_ack (a : bool) (e : PendingTx) : PendingTx :=
  {| tx_hash := tx_hash e; tx_operation := tx_operation e; tx_status := tx_status e; tx_submittedAt := tx_submittedAt e; tx_effect := tx_effect e;
     tx_reconciliation := tx_reconciliation e; tx_rollbackReason := tx_rollbackReason e; tx_acknowledged := a |}.
Definition with_status (st : TransactionStatus) (e : PendingTx) : PendingTx :=
  {| tx_hash := tx_hash e; tx_operation := tx_operation e; tx_status := st; tx_submittedAt := tx_submittedAt e; tx_effect := tx_effect e;
     tx_reconciliation := tx_reconciliation e; tx_rollbackReason := tx_rollbackReason e; tx_acknowledged := tx_acknowledged e |}.
Definition with_reconciliation (r : Reconciliation) (e : PendingTx) : PendingTx :=
  {| tx_hash := tx_hash e; tx_operation := tx_operation e; tx_status := tx_status e; tx_submittedAt := tx_submittedAt e; tx_effect := tx_effect e;
     tx_reconciliation := Some r; tx_rollbackReason := tx_rollbackReason e; tx_acknowledged := tx_acknowledged e |}.
Definition rolled (why : RollbackReason) (e : PendingTx) : PendingTx :=
  {| tx_hash := tx_hash e; tx_operation := tx_operation e; tx_status := failed; tx_submittedAt := tx_submittedAt e; tx_effect := tx_effect e;
     tx_reconciliation := Some rolled_back; tx_rollbackReason := Some why; tx_acknowledged := false |}.
Definition with_actual (f : OptimisticEffect) (actual : string) (e : PendingTx) : PendingTx :=
  {| tx_hash := tx_hash e; tx_operation := tx_operation e; tx_status := tx_status e; tx_submittedAt := tx_submittedAt e;
     tx_effect := Some {| oe_kind := oe_kind f; oe_bondId := oe_bondId f; oe_address := oe_address f; oe_expected := oe_expected f; oe_actual := Some actual |};
     tx_reconciliation := Some (if decide (actual = oe_expected f) then matched else diverged);
     tx_rollbackReason := tx_rollbackReason e; tx_acknowledged := bool_decide (actual = oe_expected f) |}.

Definition acknowledge (s : service) (hash : string) (accepted : bool) : service := patch s hash (with_ack true) accepted.

Definition expire (s : service) (hash : string) (now : Z) (accepted : bool) : service * bool :=
  match find s hash with
  | None => (s, true)
  | Some e =>
      let age := now - tx_submittedAt e in
      if EXPIRED_AFTER_MS <=? age then
        (patch s hash (match tx_effect e with Some _ => rolled by_expiry | None => with_status failed end) accepted, true)
      else if (DELAYED_AFTER_MS <=? age) && bool_decide (tx_reconciliation e = Some awaiting) then
        (patch s hash (λ e, with_ack false (with_reconciliation delayed e)) accepted, false)
      else (s, false)
  end.

Definition updateStatus (s : service) (hash : string) (status : TransactionStatus) (accepted : bool) : service :=
  match find s hash with
  | Some e =>
      if decide (tx_status e = pending) then
        let s' := match status, tx_effect e with
                  | failed, Some _ => patch s hash (rolled by_failure) accepted
                  | confirmed, Some _ => reconcile (patch s hash (λ e, with_reconciliation awaiting (with_status status e)) accepted) hash
                  | _, _ => patch s hash (with_status status) accepted
                  end in
        if decide (status = pending) then s' else unsubscribe s' hash
      else s
  | None => s
  end.

(** An answer to a poll: a request that failed counts as pending. *)
Definition polled (s : service) (hash : string) (answer : option TransactionStatus) (now : Z) (accepted accepted' : bool) : service :=
  if decide (hash ∈ polls s) then
    match default pending answer with
    | pending => let '(s', stop) := expire s hash now accepted in
                 let s' := updateStatus s' hash pending accepted' in if stop then unsubscribe s' hash else s'
    | status => unsubscribe (updateStatus s hash status accepted) hash
    end
  else s.

Fixpoint drop_read (r : string * OptimisticEffect) (l : list (string * OptimisticEffect)) : list (string * OptimisticEffect) :=
  match l with [] => [] | x :: l' => if decide (x = r) then l' else x :: drop_read r l' end.

(** The answer to a read of the chain, [None] after the last attempt has failed. *)
Definition read (s : service) (hash : string) (effect : OptimisticEffect) (answer : option string) (accepted : bool) : service :=
  if decide ((hash, effect) ∈ reads s) then
    let s' := {| entries := entries s; stored := stored s; polls := polls s; reads := drop_read (hash, effect) (reads s) |} in
    match answer with Some actual => patch s' hash (with_actual effect actual) accepted | None => s' end
  else s.

Definition resume (s : service) (e : PendingTx) : service :=
  match tx_status e with
  | pending => poll s (tx_hash e)
  | confirmed => if decide (tx_reconciliation e = Some awaiting) then reconcile s (tx_hash e) else s
  | failed => s
  end.
Definition load (raw : option (list PendingTx)) : service :=
  foldl resume {| entries := loadFromStorage raw; stored := raw; polls := []; reads := [] |} (loadFromStorage raw).

Inductive event :=
| Register (hash : option string) (operation : string) (effect : option OptimisticEffect) (now : Z) (accepted : bool)
| Polled (hash : string) (answer : option TransactionStatus) (now : Z) (accepted accepted' : bool)
| Read (hash : string) (effect : OptimisticEffect) (answer : option string) (accepted : bool)
| Ack (hash : string) (accepted : bool)
| Reload.

Definition step (s : service) (e : event) : service :=
  match e with
  | Register h op eff now acc => register s h op eff now acc
  | Polled h a now acc acc' => polled s h a now acc acc'
  | Read h eff a acc => read s h eff a acc
  | Ack h acc => acknowledge s h acc
  | Reload => load (stored s)
  end.
Definition run (es : list event) : service := foldl step (load None) es.

(** ** The machine behind the entries *)

Inductive phase := Waiting (late : bool) | Applied (reading : bool) (actual : option string) | Rejected | Expired.
Record tx := { sp_hash : string; sp_operation : string; sp_submittedAt : Z; sp_effect : option OptimisticEffect; sp_phase : phase; sp_ack : bool }.

Definition has_effect (t : tx) : bool := if sp_effect t is Some _ then true else false.
Definition move (t : tx) (p : phase) (ack : bool) : tx :=
  {| sp_hash := sp_hash t; sp_operation := sp_operation t; sp_submittedAt := sp_submittedAt t; sp_effect := sp_effect t; sp_phase := p; sp_ack := ack |}.

(** An answer moves only what waits. *)
Definition answered (answer : option TransactionStatus) (now : Z) (t : tx) : tx :=
  match sp_phase t with
  | Waiting late =>
      let quiet := if has_effect t then false else sp_ack t in
      match default pending answer with
      | confirmed => move t (Applied (has_effect t) None) (sp_ack t)
      | failed => move t Rejected quiet
      | pending => if EXPIRED_AFTER_MS <=? now - sp_submittedAt t then move t Expired quiet
                   else if (DELAYED_AFTER_MS <=? now - sp_submittedAt t) && has_effect t && negb late then move t (Waiting true) false
                   else t
      end
  | _ => t
  end.
Definition compared (effect : OptimisticEffect) (answer : option string) (t : tx) : tx :=
  match sp_phase t with
  | Applied true None =>
      if decide (sp_effect t = Some effect) then
        match answer with
        | Some a => move t (Applied false (Some a)) (bool_decide (a = oe_expected effect))
        | None => move t (Applied false None) (sp_ack t)
        end
      else t
  | _ => t
  end.
Definition reloaded (t : tx) : tx := match sp_phase t with Applied _ None => move t (Applied (has_effect t) None) (sp_ack t) | _ => t end.

Definition at_hash (h : string) (g : tx → tx) (t : tx) : tx := if decide (sp_hash t = h) then g t else t.
Definition spec_step (l : list tx) (e : event) : list tx :=
  match e with
  | Register (Some (String _ _ as h)) op eff now _ =>
      {| sp_hash := h; sp_operation := op; sp_submittedAt := now; sp_effect := eff; sp_phase := Waiting false; sp_ack := false |} :: l
  | Register _ _ _ _ _ => l
  | Polled h a now _ _ => at_hash h (answered a now) <$> l
  | Read h eff a _ => at_hash h (compared eff a) <$> l
  | Ack h _ => at_hash h (λ t, move t (sp_phase t) true) <$> l
  | Reload => reloaded <$> l
  end.
Definition spec_run (es : list event) : list tx := foldl spec_step [] es.

Definition render (t : tx) : PendingTx :=
  {| tx_hash := sp_hash t; tx_operation := sp_operation t; tx_submittedAt := sp_submittedAt t; tx_acknowledged := sp_ack t;
     tx_status := match sp_phase t with Waiting _ => pending | Applied _ _ => confirmed | Rejected | Expired => failed end;
     tx_effect := match sp_phase t, sp_effect t with
                  | Applied _ (Some a), Some f =>
                      Some {| oe_kind := oe_kind f; oe_bondId := oe_bondId f; oe_address := oe_address f; oe_expected := oe_expected f; oe_actual := Some a |}
                  | _, f => f
                  end;
     tx_reconciliation :=
       f ← sp_effect t;
       Some (match sp_phase t with
             | Waiting late => if late then delayed else awaiting
             | Applied _ None => awaiting
             | Applied _ (Some a) => if decide (a = oe_expected f) then matched else diverged
             | Rejected | Expired => rolled_back
             end);
     tx_rollbackReason := f ← sp_effect t; match sp_phase t with Rejected => Some by_failure | Expired => Some by_expiry | _ => None end |}.

Definition waiting (t : tx) : bool := if sp_phase t is Waiting _ then true else false.
Definition reading (t : tx) : option (string * OptimisticEffect) :=
  match sp_phase t with Applied true None => pair (sp_hash t) <$> sp_effect t | _ => None end.

(** A transaction without an effect is never late or read. *)
Definition plain_ok (t : tx) : Prop :=
  sp_effect t = None → match sp_phase t with Waiting true | Applied true _ | Applied _ (Some _) => False | _ => True end.

Record ok (s : service) (l : list tx) : Prop := {
  ok_entries : entries s = render <$> l;
  ok_distinct : NoDup (sp_hash <$> l);
  ok_polls : ∀ h, h ∈ polls s ↔ ∃ t, t ∈ l ∧ sp_hash t = h ∧ waiting t = true;
  ok_reads : ∀ r, r ∈ reads s ↔ ∃ t, t ∈ l ∧ reading t = Some r;
  ok_reads_distinct : NoDup (reads s);
  ok_plain : ∀ t, t ∈ l → plain_ok t;
}.

(** *** One transaction changes *)

Lemma same_hash_eq (l : list tx) t u : NoDup (sp_hash <$> l) → t ∈ l → u ∈ l → sp_hash t = sp_hash u → t = u.
Proof.
  intros Hn Ht Hu E. apply list_elem_of_lookup in Ht as [i Hi]. apply list_elem_of_lookup in Hu as [j Hj].
  assert (i = j) as ->; [|congruence]. eapply NoDup_lookup; [exact Hn|..]; rewrite list_lookup_fmap, ?Hi, ?Hj; cbn; by rewrite ?E.
Qed.

Lemma find_render s l h : ok s l →
  match find s h with
  | Some e => ∃ t, t ∈ l ∧ sp_hash t = h ∧ e = render t
  | None => h ∉ sp_hash <$> l
  end.
Proof.
  intros [He _ _ _ _ _]. unfold find. rewrite He. clear. induction l as [|t l IH]; [by apply not_elem_of_nil|]. cbn.
  destruct (bool_decide_reflect (sp_hash t = h)) as [E|E].
  - exists t. split_and!; [by constructor|done|done].
  - destruct (List.find _ _) as [e|].
    + destruct IH as (u & H1 & H2 & H3). exists u. split_and!; [by constructor|done|done].
    + rewrite not_elem_of_cons. split; [congruence|done].
Qed.

Lemma at_hash_absent h g (l : list tx) : h ∉ sp_hash <$> l → at_hash h g <$> l = l.
Proof.
  intros H. rewrite <- (list_fmap_id l) at 2. apply list_fmap_ext. intros i t Ht. unfold at_hash. rewrite decide_False; [done|].
  intros <-. apply H, list_elem_of_fmap_2. by eapply list_elem_of_lookup_2.
Qed.

Lemma at_hash_same h g (l : list tx) t : NoDup (sp_hash <$> l) → t ∈ l → sp_hash t = h → g t = t → at_hash h g <$> l = l.
Proof.
  intros Hn Ht E Eg. rewrite <- (list_fmap_id l) at 2. apply list_fmap_ext. intros i u Hu. unfold at_hash. case_decide as Eu; [|done].
  rewrite (same_hash_eq l u t); [done|done|by eapply list_elem_of_lookup_2|done|congruence].
Qed.

Lemma patch_render h f g (l : list tx) t : NoDup (sp_hash <$> l) → t ∈ l → sp_hash t = h → f (render t) = render (g t) →
  (λ e, if decide (tx_hash e = h) then f e else e) <$> (render <$> l) = render <$> (at_hash h g <$> l).
Proof.
  intros Hn Ht E Ef. rewrite <- !list_fmap_compose. apply list_fmap_ext. intros i u Hu. cbn. unfold at_hash. change (tx_hash (render u)) with (sp_hash u).
  case_decide as Eu; [|done]. rewrite (same_hash_eq l u t); [done|done|by eapply list_elem_of_lookup_2|done|congruence].
Qed.

Lemma at_hash_elem h g (l : list tx) t : NoDup (sp_hash <$> l) → t ∈ l → sp_hash t = h →
  ∀ u, u ∈ at_hash h g <$> l ↔ u = g t ∨ u ∈ l ∧ sp_hash u ≠ h.
Proof.
  intros Hn Ht E u. rewrite list_elem_of_fmap. unfold at_hash. split.
  - intros (v & -> & Hv). case_decide as Ev; [left|by right]. f_equal. apply (same_hash_eq l); [done..|congruence].
  - intros [->|[Hu Hne]]; [exists t; by rewrite decide_True|exists u; by rewrite decide_False].
Qed.

(** The steps that move one transaction keep the machine in step with the service. *)
Lemma ok_update s l s' t g :
  ok s l → t ∈ l → (∀ u, sp_hash (g u) = sp_hash u) → plain_ok (g t) →
  entries s' = render <$> (at_hash (sp_hash t) g <$> l) →
  (∀ h, h ∈ polls s' ↔ if decide (h = sp_hash t) then waiting (g t) = true else h ∈ polls s) →
  (∀ r, r ∈ reads s' ↔ if decide (r.1 = sp_hash t) then reading (g t) = Some r else r ∈ reads s) → NoDup (reads s') →
  ok s' (at_hash (sp_hash t) g <$> l).
Proof.
  intros [He Hd Hp Hr Hn Hpl] Ht Hg Hpg He' Hp' Hr' Hn'. pose proof (at_hash_elem (sp_hash t) g l t Hd Ht eq_refl) as Hin.
  split; [done| |..|done|].
  - rewrite <- list_fmap_compose. erewrite list_fmap_ext; [exact Hd|]. intros i u _. cbn. unfold at_hash. by case_decide.
  - intros h. rewrite Hp'. case_decide as E.
    + subst h. split.
      * intros Hw. exists (g t). split; [apply Hin; by left|by rewrite Hg].
      * intros (u & Hu & Eu & Hw). apply Hin in Hu as [->|[_ Hne]]; [done|by destruct Hne].
    + rewrite Hp. split; intros (u & Hu & Eu & Hw); exists u.
      * split; [apply Hin; right; split; [done|congruence]|done].
      * apply Hin in Hu as [->|[Hu _]]; [|done]. exfalso. apply E. by rewrite <- Eu, Hg.
  - intros r. rewrite Hr'. assert (∀ u, reading u = Some r → sp_hash u = r.1) as Hrh.
    { intros u. unfold reading. destruct (sp_phase u) as [|[] []| |]; try done. destruct (sp_effect u); [|done]. cbn. by intros [= <-]. }
    case_decide as E.
    + split.
      * intros Hw. exists (g t). split; [apply Hin; by left|done].
      * intros (u & Hu & Eu). apply Hin in Hu as [->|[_ Hne]]; [done|]. exfalso. apply Hne. by rewrite (Hrh u Eu).
    + rewrite Hr. split; intros (u & Hu & Eu); exists u; pose proof (Hrh u Eu) as E1.
      * split; [apply Hin; right; split; [done|congruence]|done].
      * apply Hin in Hu as [->|[Hu _]]; [|done]. exfalso. apply E. by rewrite <- E1, Hg.
  - intros u Hu. apply Hin in Hu as [->|[? _]]; [done|by apply Hpl].
Qed.

Lemma patch_entries s h f acc : entries (patch s h f acc) = (λ e, if decide (tx_hash e = h) then f e else e) <$> entries s.
Proof. by destruct acc. Qed.
Lemma patch_polls s h f acc : polls (patch s h f acc) = polls s.
Proof. by destruct acc. Qed.
Lemma patch_reads s h f acc : reads (patch s h f acc) = reads s.
Proof. by destruct acc. Qed.

Lemma find_patched s h f acc e : find s h = Some e → tx_hash (f e) = h → find (patch s h f acc) h = Some (f e).
Proof.
  unfold find. rewrite patch_entries. induction (entries s) as [|x l IH]; [done|]. cbn.
  destruct (bool_decide_reflect (tx_hash x = h)) as [E|E].
  - intros [= ->] Ef. rewrite decide_True by done. by rewrite bool_decide_true.
  - rewrite decide_False by done. rewrite bool_decide_false by done. apply IH.
Qed.

Lemma answered_hash a now u : sp_hash (answered a now u) = sp_hash u.
Proof. unfold answered. destruct (sp_phase u); [|done..]. destruct (default pending a); try done. by destruct (_ <=? _); [|destruct (_ && _)]. Qed.
Lemma compared_hash f a u : sp_hash (compared f a u) = sp_hash u.
Proof. unfold compared. destruct (sp_phase u) as [|[] []| |]; try done. case_decide; [|done]. by destruct a. Qed.

Lemma answered_plain a now t : plain_ok t → plain_ok (answered a now t).
Proof.
  unfold plain_ok, answered. intros H. destruct (sp_phase t) as [late| | |] eqn:Ep; [|by rewrite Ep..].
  destruct (default pending a); cbn.
  - destruct (_ <=? _); cbn; [done|]. destruct (_ && _) eqn:E; cbn; [|by rewrite Ep].
    intros E'. unfold has_effect in E. rewrite E', andb_false_r in E. done.
  - intros E'. unfold has_effect. by rewrite E'.
  - done.
Qed.

Lemma find_waiting s l h t : ok s l → t ∈ l → sp_hash t = h → find s h = Some (render t).
Proof.
  intros Hok Ht E. pose proof (find_render s l h Hok) as Hf. destruct (find s h) as [e|].
  - destruct Hf as (u & Hu & Eu & ->). by rewrite (same_hash_eq l u t (ok_distinct _ _ Hok) Hu Ht (eq_trans Eu (eq_sym E))).
  - exfalso. apply Hf. rewrite <- E. by apply list_elem_of_fmap_2.
Qed.

(** What the service does with an answer for a transaction that waits: the fields of its entry, its poll and its read. *)
Lemma polled_effect s l t a now acc acc' late :
  ok s l → t ∈ l → sp_phase t = Waiting late → plain_ok t →
  let s' := polled s (sp_hash t) a now acc acc' in
  entries s' = render <$> (at_hash (sp_hash t) (answered a now) <$> l) ∧
  polls s' ⊆ polls s ∧ (∀ h, h ∈ polls s → h ∈ polls s' ∨ h = sp_hash t) ∧ (sp_hash t ∈ polls s' ↔ waiting (answered a now t) = true) ∧
  reads s' = match reading (answered a now t) with Some r => r :: reads s | None => reads s end.
Proof.
  intros Hok Ht Ep Hpl. assert (sp_hash t ∈ polls s) as Hin by (apply (ok_polls _ _ Hok); exists t; unfold waiting; by rewrite Ep).
  pose proof (find_waiting s l _ t Hok Ht eq_refl) as Hf. pose proof (ok_entries _ _ Hok) as He. pose proof (ok_distinct _ _ Hok) as Hd.
  assert (Est : tx_status (render t) = pending) by (cbn; by rewrite Ep).
  assert (Eeff : tx_effect (render t) = sp_effect t) by (cbn; by rewrite Ep).
  set (u := answered a now t). set (P := λ s', entries s' = render <$> (at_hash (sp_hash t) (answered a now) <$> l) ∧
    polls s' ⊆ polls s ∧ (∀ h, h ∈ polls s → h ∈ polls s' ∨ h = sp_hash t) ∧ (sp_hash t ∈ polls s' ↔ waiting u = true) ∧
    reads s' = match reading u with Some r => r :: reads s | None => reads s end).
  assert (Hdone : ∀ s' f, f (render t) = render u → entries s' = (λ e, if decide (tx_hash e = sp_hash t) then f e else e) <$> entries s →
    (∀ h, h ∈ polls s' ↔ h ∈ polls s ∧ h ≠ sp_hash t) → waiting u = false →
    reads s' = match reading u with Some r => r :: reads s | None => reads s end → P s').
  { intros s' f Hff Hent Hpo Hw Hre. split_and!; [rewrite Hent, He; by apply (patch_render _ _ _ l t)| | | |done].
    - by intros h [? _]%Hpo.
    - intros h Hh. destruct (decide (h = sp_hash t)); [by right|left; by apply Hpo].
    - rewrite Hw. split; [|done]. by intros [_ ?]%Hpo. }
  assert (Hstay : ∀ s' f, f (render t) = render u → entries s' = (λ e, if decide (tx_hash e = sp_hash t) then f e else e) <$> entries s →
    polls s' = polls s → reads s' = reads s → waiting u = true → reading u = None → P s').
  { intros s' f Hff Hent Hpo Hre Hw Hr. unfold P. rewrite Hpo, Hw, Hre, Hr. split_and!; [rewrite Hent, He; by apply (patch_render _ _ _ l t)|done| |done|done].
    intros h Hh. by left. }
  assert (Hun : ∀ x h, h ∈ polls (unsubscribe x (sp_hash t)) ↔ h ∈ polls x ∧ h ≠ sp_hash t).
  { intros x h. cbn. rewrite list_elem_of_filter. tauto. }
  change (P (polled s (sp_hash t) a now acc acc')). unfold polled. rewrite decide_True by done. clearbody P. subst u. unfold answered in *. rewrite Ep in *.
  destruct (default pending a).
  - unfold expire. rewrite Hf, Eeff. change (tx_submittedAt (render t)) with (sp_submittedAt t).
    destruct (EXPIRED_AFTER_MS <=? now - sp_submittedAt t).
    + set (F := if sp_effect t is Some _ then rolled by_expiry else with_status failed).
      assert (HF : F (render t) = render (move t Expired (if has_effect t then false else sp_ack t))).
      { unfold F, render, has_effect. cbn. rewrite Ep. by destruct (sp_effect t). }
      unfold updateStatus. rewrite (find_patched _ _ _ _ _ Hf) by by rewrite HF. rewrite HF. cbn [tx_status render move sp_phase].
      rewrite decide_False by done. eapply Hdone; [exact HF|apply patch_entries|..|done|apply patch_reads].
      intros h. by rewrite Hun, patch_polls.
    + assert (Hb : bool_decide (tx_reconciliation (render t) = Some awaiting) = has_effect t && negb late).
      { unfold render, has_effect. cbn. rewrite Ep. by destruct (sp_effect t), late. }
      rewrite Hb, andb_assoc. destruct (_ && _ && _) eqn:Ec.
      * set (F := λ e, with_ack false (with_reconciliation delayed e)).
        assert (HF : with_status pending (F (render t)) = render (move t (Waiting true) false)).
        { unfold F, render. cbn. rewrite Ep. unfold has_effect in Ec. destruct (sp_effect t); [done|]. by rewrite andb_false_r in Ec. }
        unfold updateStatus. rewrite (find_patched _ _ _ _ _ Hf) by done. change (tx_status (F (render t))) with (tx_status (render t)).
        rewrite Est, !decide_True by done. destruct (tx_effect (F (render t))) as [f|];
          (eapply (Hstay _ (λ e, with_status pending (F e))); [exact HF| |by rewrite !patch_polls|by rewrite !patch_reads|done|done]);
          rewrite !patch_entries, <- list_fmap_compose; apply list_fmap_ext; intros i e _; cbn;
          destruct (decide (tx_hash e = sp_hash t)) as [E|E]; by rewrite ?(decide_True _ _ E), ?(decide_False _ _ E).
      * unfold updateStatus. rewrite Hf, Est, !decide_True by done.
        eapply Hstay; [|apply patch_entries|apply patch_polls|apply patch_reads|unfold waiting; by rewrite Ep|unfold reading; by rewrite Ep].
        rewrite <- Est. by destruct (render t).
  - unfold updateStatus. rewrite Hf, Est, decide_True by done. rewrite Eeff, decide_False by done. destruct (sp_effect t) as [f|] eqn:Ee.
    + set (F := λ e, with_reconciliation awaiting (with_status confirmed e)).
      assert (HF : F (render t) = render (move t (Applied (has_effect t) None) (sp_ack t))).
      { unfold F, render. cbn. rewrite Ep, Ee. done. }
      unfold reconcile. rewrite (find_patched _ _ _ _ _ Hf) by done. cbn [mbind option_bind]. change (tx_effect (F (render t))) with (tx_effect (render t)).
      rewrite Eeff. eapply Hdone; [exact HF|apply patch_entries| |done|].
      * intros h. rewrite !Hun. cbn. rewrite patch_polls. tauto.
      * unfold reading, has_effect. cbn. rewrite Ee, patch_reads. done.
    + eapply Hdone; [|apply patch_entries| |done|].
      * unfold render, has_effect. cbn. by rewrite Ep, Ee.
      * intros h. rewrite !Hun, patch_polls. tauto.
      * unfold reading, has_effect. cbn. rewrite Ee. apply patch_reads.
  - unfold updateStatus. rewrite Hf, Est, decide_True by done. rewrite Eeff, decide_False by done.
    destruct (sp_effect t) as [f|] eqn:Ee; (eapply Hdone; [|apply patch_entries| |done|apply patch_reads]);
      try (intros h; rewrite !Hun, patch_polls; tauto); unfold render, has_effect; cbn; by rewrite Ep, Ee.
Qed.

Lemma not_waiting_same a now t : waiting t = false → answered a now t = t.
Proof. unfold waiting, answered. by destruct (sp_phase t). Qed.

Lemma reading_hash t r : reading t = Some r → r.1 = sp_hash t.
Proof. unfold reading. destruct (sp_phase t) as [|[] []| |]; try done. destruct (sp_effect t); [|done]. cbn. by intros [= <-]. Qed.

(** The case that no transaction of the list is touched. *)
Lemma ok_untouched s l h g : ok s l → (∀ t, t ∈ l → sp_hash t = h → g t = t) → at_hash h g <$> l = l.
Proof.
  intros Hok H. destruct (decide (h ∈ sp_hash <$> l)) as [(t & -> & Ht)%list_elem_of_fmap|]; [|by apply at_hash_absent].
  eapply (at_hash_same _ _ _ t); [apply Hok|done|done|by apply H].
Qed.

Lemma polled_ok s l h a now acc acc' : ok s l → ok (polled s h a now acc acc') (at_hash h (answered a now) <$> l).
Proof.
  intros Hok. destruct (decide (h ∈ polls s)) as [Hin|Hout].
  - apply (ok_polls _ _ Hok) in Hin as (t & Ht & <- & Hw). destruct (sp_phase t) as [late| | |] eqn:Ep; try (unfold waiting in Hw; by rewrite Ep in Hw).
    pose proof (ok_plain _ _ Hok t Ht) as Hpl. destruct (polled_effect s l t a now acc acc' late Hok Ht Ep Hpl) as (H1 & H2 & H3 & H4 & H5).
    assert (∀ f, (sp_hash t, f) ∉ reads s) as Hnr.
    { intros f (u & Hu & Er)%(ok_reads _ _ Hok). pose proof (reading_hash _ _ Er) as E. cbn in E.
      rewrite (same_hash_eq l u t) in Er by (try apply Hok; congruence). unfold reading in Er. by rewrite Ep in Er. }
    apply (ok_update s l); [done|done|apply answered_hash|by apply answered_plain|done|..].
    + intros h. case_decide as E; [by subst|]. split; [apply H2|]. intros Hh. by destruct (H3 h Hh).
    + intros [k f]. cbn. rewrite H5. case_decide as E.
      * subst k. destruct (reading (answered a now t)) as [r|] eqn:Er; [rewrite elem_of_cons|]; (split; [|]).
        -- intros [<-|H]; [done|]. by destruct (Hnr f).
        -- intros [= ->]. by left.
        -- intros H. by destruct (Hnr f).
        -- done.
      * destruct (reading (answered a now t)) as [r|] eqn:Er; [|done]. rewrite elem_of_cons. split; [|by right]. intros [<-|]; [|done].
        exfalso. apply E. apply reading_hash in Er. cbn in Er. by rewrite answered_hash in Er.
    + rewrite H5. destruct (reading (answered a now t)) as [[k f]|] eqn:Er; [|apply Hok]. constructor; [|apply Hok].
      apply reading_hash in Er. cbn in Er. rewrite answered_hash in Er. subst k. apply Hnr.
  - unfold polled. rewrite decide_False by done. rewrite (ok_untouched s); [done|done|]. intros t Ht <-. apply not_waiting_same.
    destruct (waiting t) eqn:E; [|done]. exfalso. apply Hout, (ok_polls _ _ Hok). by exists t.
Qed.

Lemma drop_read_elem r x l : NoDup l → x ∈ drop_read r l ↔ x ∈ l ∧ x ≠ r.
Proof.
  induction 1 as [|y l Hni Hnd IH]; cbn; [set_solver|]. case_decide as E.
  - subst y. rewrite elem_of_cons. split; [intros H; split; [by right|by intros ->]|]. by intros [[->|] ?].
  - rewrite !elem_of_cons, IH. split; [intros [->|[? ?]]; naive_solver|naive_solver].
Qed.
Lemma drop_read_NoDup r l : NoDup l → NoDup (drop_read r l).
Proof.
  induction 1 as [|y l Hni Hnd IH]; cbn; [constructor|]. case_decide; [done|]. constructor; [|done]. rewrite drop_read_elem by done. tauto.
Qed.

Lemma read_ok s l h f a acc : ok s l → ok (read s h f a acc) (at_hash h (compared f a) <$> l).
Proof.
  intros Hok. unfold read. case_decide as Hin.
  - pose proof (ok_reads_distinct _ _ Hok) as Hn. apply (ok_reads _ _ Hok) in Hin as (t & Ht & Er). pose proof (reading_hash _ _ Er) as E. cbn in E. subst h.
    assert (sp_phase t = Applied true None ∧ sp_effect t = Some f) as [Ep Ef].
    { unfold reading in Er. destruct (sp_phase t) as [|[] []| |]; try done. destruct (sp_effect t); [|done]. cbn in Er. by injection Er as ->. }
    assert (compared f a t = match a with Some x => move t (Applied false (Some x)) (bool_decide (x = oe_expected f)) | None => move t (Applied false None) (sp_ack t) end) as Hc
      by (unfold compared; rewrite Ep, decide_True by done; done).
    assert (reading (compared f a t) = None) as Er' by (unfold reading, compared; rewrite Ep, decide_True by done; by destruct a).
    apply (ok_update s l); [done|done|apply compared_hash| | |..].
    + unfold plain_ok, compared. rewrite Ep, decide_True by done. destruct a; cbn; by rewrite Ef.
    + destruct a as [a|]; cbn [entries].
      * rewrite patch_entries. cbn [entries]. rewrite (ok_entries _ _ Hok). apply (patch_render _ _ _ l t); [apply Hok|done|done|].
        rewrite Hc. unfold render, with_actual. cbn. by rewrite Ep, Ef.
      * rewrite (ok_entries _ _ Hok). rewrite <- !list_fmap_compose. apply list_fmap_ext. intros i u Hu. cbn. unfold at_hash. case_decide as Eu; [|done].
        rewrite (same_hash_eq l u t) by (try apply Hok; try done; by eapply list_elem_of_lookup_2).
        rewrite Hc. unfold render. cbn. by rewrite Ep, Ef.
    + intros h. assert (polls (match a with Some actual => patch {| entries := entries s; stored := stored s; polls := polls s; reads := drop_read (sp_hash t, f) (reads s) |}
        (sp_hash t) (with_actual f actual) acc | None => {| entries := entries s; stored := stored s; polls := polls s; reads := drop_read (sp_hash t, f) (reads s) |} end) = polls s) as ->
        by (destruct a; [by rewrite patch_polls|done]). case_decide as E; [|done]. subst h.
      assert (waiting (compared f a t) = false) as -> by (unfold waiting, compared; rewrite Ep, decide_True by done; by destruct a).
      split; [|done]. intros (u & Hu & Eu & Hw)%(ok_polls _ _ Hok). rewrite (same_hash_eq l u t) in Hw by (try apply Hok; done). unfold waiting in Hw. by rewrite Ep in Hw.
    + intros [k f']. cbn [fst]. rewrite Er'.
      assert ((k, f') ∈ reads s ∧ (k, f') ≠ (sp_hash t, f) ↔ if decide (k = sp_hash t) then None = Some (k, f') else (k, f') ∈ reads s) as <-.
      { case_decide as E; [|split; [by intros [? _]|]; intros ?; split; [done|congruence]]. subst k. split; [|done].
        intros [(u & Hu & Eu)%(ok_reads _ _ Hok) Hne]. pose proof (reading_hash _ _ Eu) as E. cbn in E.
        rewrite (same_hash_eq l u t) in Eu by (try apply Hok; done). congruence. }
      rewrite <- drop_read_elem by done. by destruct a; [rewrite patch_reads|].
    + destruct a; [rewrite patch_reads|]; by apply drop_read_NoDup.
  - rewrite (ok_untouched s); [done|done|]. intros t Ht <-. unfold compared. destruct (sp_phase t) as [|[] []| |] eqn:Ep; try done.
    case_decide as Ef; [|done]. exfalso. apply Hin, (ok_reads _ _ Hok). exists t. split; [done|]. unfold reading. by rewrite Ep, Ef.
Qed.

Lemma ack_ok s l h acc : ok s l → ok (acknowledge s h acc) (at_hash h (λ t, move t (sp_phase t) true) <$> l).
Proof.
  intros Hok. unfold acknowledge. destruct (decide (h ∈ sp_hash <$> l)) as [(t & -> & Ht)%list_elem_of_fmap|Hno].
  - apply (ok_update s l); [done|done|done| |..].
    + apply (ok_plain _ _ Hok t Ht).
    + rewrite patch_entries, (ok_entries _ _ Hok). apply (patch_render _ _ _ l t); [apply Hok|done|done|done].
    + intros h. rewrite patch_polls. case_decide as E; [|done]. subst h. rewrite (ok_polls _ _ Hok). change (waiting (move t (sp_phase t) true)) with (waiting t).
      split; [|by intros Hw; exists t]. intros (u & Hu & Eu & Hw). by rewrite (same_hash_eq l u t) in Hw by (try apply Hok; done).
    + intros [k f]. rewrite patch_reads. cbn [fst]. case_decide as E; [|done]. subst k. rewrite (ok_reads _ _ Hok). change (reading (move t (sp_phase t) true)) with (reading t).
      split; [|by intros Hr; exists t]. intros (u & Hu & Er). pose proof (reading_hash _ _ Er) as E. cbn in E. by rewrite (same_hash_eq l u t) in Er by (try apply Hok; done).
    + rewrite patch_reads. apply Hok.
  - rewrite at_hash_absent by done. destruct Hok as [He Hd Hp Hr Hn Hpl]. split; [|done|by rewrite patch_polls|by rewrite patch_reads|by rewrite patch_reads|done].
    rewrite patch_entries, He. rewrite <- (list_fmap_id (render <$> l)) at 2. apply list_fmap_ext. intros i e (t & -> & Ht)%list_lookup_fmap_Some_1. cbn.
    rewrite decide_False; [done|]. intros E. apply Hno. rewrite <- E. apply list_elem_of_fmap_2. by eapply list_elem_of_lookup_2.
Qed.

Lemma register_ok s l h op eff now acc :
  ok s l → h ∉ sp_hash <$> l → h ≠ "" → ok (register s (Some h) op eff now acc) (spec_step l (Register (Some h) op eff now acc)).
Proof.
  intros [He Hd Hp Hr Hn Hpl] Hno Hne. destruct h as [|c h]; [done|]. cbn [register spec_step]. set (k := String c h) in *. clearbody k.
  assert (filter (λ e, tx_hash e ≠ k) (entries s) = entries s) as Hfil.
  { rewrite He. clear -Hno. induction l as [|t l IH]; [done|]. rewrite fmap_cons, not_elem_of_cons in Hno. cbn. rewrite decide_True by (cbn; intros E; by destruct Hno). f_equal. apply IH. tauto. }
  rewrite Hfil. assert (k ∉ polls s) as Hnp by (intros (t & Ht & <- & _)%Hp; apply Hno; by apply list_elem_of_fmap_2).
  split.
  - assert (new_tx k op eff now = render {| sp_hash := k; sp_operation := op; sp_submittedAt := now; sp_effect := eff; sp_phase := Waiting false; sp_ack := false |}) as Enew by by destruct eff.
    rewrite fmap_cons, <- Enew, <- He. by destruct acc.
  - cbn. by constructor.
  - intros h'. assert (polls (poll (persist (with_entries s (new_tx k op eff now :: entries s)) acc) k) = k :: filter (λ h, h ≠ k) (polls s)) as -> by by destruct acc.
    rewrite elem_of_cons, list_elem_of_filter, Hp. split.
    + intros [->|[_ (t & Ht & <- & Hw)]]; [eexists; split; [by left|done]|]. exists t. split; [by right|done].
    + intros (t & [->|Ht]%elem_of_cons & <- & Hw); [by left|]. right. split; [|by exists t]. intros E. apply Hno. rewrite <- E. by apply list_elem_of_fmap_2.
  - intros r. assert (reads (poll (persist (with_entries s (new_tx k op eff now :: entries s)) acc) k) = reads s) as -> by by destruct acc.
    rewrite Hr. split; intros (t & Ht & E); exists t; [split; [by right|done]|]. apply elem_of_cons in Ht as [->|Ht]; [done|done].
  - by destruct acc.
  - intros t [->|Ht]%elem_of_cons; [done|by apply Hpl].
Qed.

(** *** Reloading *)

Lemma resume_entries xs s : entries (foldl resume s xs) = entries s.
Proof.
  revert s. induction xs as [|x xs IH]; intros s; [done|]. cbn. rewrite IH. unfold resume. destruct (tx_status x); [done| |done].
  case_decide; [|done]. unfold reconcile. by destruct (find s (tx_hash x) ≫= tx_effect).
Qed.
Lemma resume_stored xs s : stored (foldl resume s xs) = stored s.
Proof.
  revert s. induction xs as [|x xs IH]; intros s; [done|]. cbn. rewrite IH. unfold resume. destruct (tx_status x); [done| |done].
  case_decide; [|done]. unfold reconcile. by destruct (find s (tx_hash x) ≫= tx_effect).
Qed.

Lemma resume_polls xs s h : h ∈ polls (foldl resume s xs) ↔ h ∈ polls s ∨ ∃ e, e ∈ xs ∧ tx_hash e = h ∧ tx_status e = pending.
Proof.
  revert s. induction xs as [|x xs IH]; intros s; cbn [foldl].
  - split; [by left|]. intros [?|(e & He & _)]; [done|by apply elem_of_nil in He].
  - rewrite IH. assert (h ∈ polls (resume s x) ↔ h ∈ polls s ∨ tx_hash x = h ∧ tx_status x = pending) as ->.
    { unfold resume. destruct (tx_status x).
      - cbn. rewrite elem_of_cons, list_elem_of_filter. destruct (decide (h = tx_hash x)); naive_solver.
      - case_decide; [unfold reconcile; destruct (find s (tx_hash x) ≫= tx_effect)|]; cbn; naive_solver.
      - naive_solver. }
    setoid_rewrite elem_of_cons. naive_solver.
Qed.

Definition rereads (e : PendingTx) : bool := bool_decide (tx_status e = confirmed) && bool_decide (tx_reconciliation e = Some awaiting).

Lemma resume_reads xs s r : r ∈ reads (foldl resume s xs) ↔
  r ∈ reads s ∨ ∃ e, e ∈ xs ∧ rereads e = true ∧ tx_hash e = r.1 ∧ find s (tx_hash e) ≫= tx_effect = Some r.2.
Proof.
  revert s. induction xs as [|x xs IH]; intros s; cbn [foldl].
  - split; [by left|]. intros [?|(e & He & _)]; [done|by apply elem_of_nil in He].
  - rewrite IH. assert (∀ h, find (resume s x) h = find s h) as Hf by (intros h; unfold find; f_equal; apply (resume_entries [x] s)).
    assert (r ∈ reads (resume s x) ↔ r ∈ reads s ∨ rereads x = true ∧ tx_hash x = r.1 ∧ find s (tx_hash x) ≫= tx_effect = Some r.2) as ->.
    { unfold resume, rereads. destruct (tx_status x); cbn [bool_decide decide_rel andb]; [naive_solver| |naive_solver].
      rewrite bool_decide_true by done. cbn. case_decide as E; [rewrite bool_decide_true by done|rewrite bool_decide_false by done; naive_solver].
      unfold reconcile. destruct (find s (tx_hash x) ≫= tx_effect) as [f|]; [|naive_solver]. cbn. rewrite elem_of_cons. destruct r as [k g]. cbn. naive_solver. }
    setoid_rewrite Hf. setoid_rewrite elem_of_cons. naive_solver.
Qed.

Lemma resume_reads_NoDup xs s : NoDup (tx_hash <$> xs) → NoDup (reads s) → (∀ r, r ∈ reads s → r.1 ∉ tx_hash <$> xs) → NoDup (reads (foldl resume s xs)).
Proof.
  revert s. induction xs as [|x xs IH]; intros s Hd Hn Hr; [done|]. cbn [foldl]. rewrite fmap_cons in Hd. inversion_clear Hd as [|? ? Hni Hd'].
  assert (∀ r, r ∈ reads s → r.1 ≠ tx_hash x ∧ r.1 ∉ tx_hash <$> xs) as Hr' by (intros r H%Hr; by rewrite fmap_cons, not_elem_of_cons in H).
  apply IH; [done|..]; unfold resume; destruct (tx_status x); try done; try (intros r Hx; by apply Hr').
  - case_decide; [|done]. unfold reconcile. destruct (find s (tx_hash x) ≫= tx_effect) as [f|]; [|done]. constructor; [|done].
    intros Hx. by destruct (Hr' _ Hx).
  - case_decide; [|intros r Hx; by apply Hr']. unfold reconcile. destruct (find s (tx_hash x) ≫= tx_effect) as [f|]; [|intros r Hx; by apply Hr'].
    intros r. cbn. intros [->|Hx]%elem_of_cons; [done|by apply Hr'].
Qed.

Lemma reloaded_hash t : sp_hash (reloaded t) = sp_hash t.
Proof. unfold reloaded. by destruct (sp_phase t) as [|? []| |]. Qed.
Lemma reloaded_render t : render (reloaded t) = render t.
Proof. unfold reloaded. destruct (sp_phase t) as [|? []| |] eqn:E; try done. unfold render. cbn. by rewrite E. Qed.

Lemma reload_ok s l : ok s l → loadFromStorage (stored s) = entries s → ok (load (stored s)) (reloaded <$> l).
Proof.
  intros Hok Hst. pose proof (ok_entries _ _ Hok) as He. pose proof (ok_distinct _ _ Hok) as Hd. unfold load. rewrite Hst.
  set (s0 := {| entries := entries s; stored := stored s; polls := []; reads := [] |}).
  assert (Hfind : ∀ t, t ∈ l → find s0 (sp_hash t) = Some (render t)) by (intros t Ht; by apply (find_waiting s l)).
  assert (Hin : ∀ u, u ∈ reloaded <$> l ↔ ∃ t, t ∈ l ∧ u = reloaded t) by (intros u; rewrite list_elem_of_fmap; naive_solver).
  split.
  - rewrite resume_entries. cbn. rewrite He, <- list_fmap_compose. apply list_fmap_ext. intros i t _. symmetry; apply reloaded_render.
  - rewrite <- list_fmap_compose. erewrite list_fmap_ext; [exact Hd|]. intros i t _. apply reloaded_hash.
  - intros h. rewrite resume_polls. cbn. rewrite He. split.
    + intros [[]%elem_of_nil|(e & (t & -> & Ht)%list_elem_of_fmap & <- & Hs)]. exists (reloaded t). split; [apply Hin; by exists t|]. split; [apply reloaded_hash|].
      unfold waiting, reloaded. cbn in Hs. by destruct (sp_phase t) as [|? []| |] eqn:Ep; rewrite ?Ep.
    + intros (u & (t & Ht & ->)%Hin & <- & Hw). right. exists (render t). split; [by apply list_elem_of_fmap_2|]. split; [symmetry; apply reloaded_hash|].
      unfold waiting, reloaded in Hw. cbn. by destruct (sp_phase t) as [|? []| |] eqn:Ep; rewrite ?Ep in Hw.
  - intros r. rewrite resume_reads. cbn [reads]. rewrite He. split.
    + intros [[]%elem_of_nil|(e & (t & -> & Ht)%list_elem_of_fmap & Hb & Eh & Hf)]. exists (reloaded t). split; [apply Hin; by exists t|].
      change (tx_hash (render t)) with (sp_hash t) in *. rewrite (Hfind t Ht) in Hf. cbn [mbind option_bind] in Hf. unfold rereads in Hb. apply andb_true_iff in Hb as [H1%bool_decide_eq_true H2%bool_decide_eq_true].
      destruct r as [k f]. cbn in Eh, Hf, H1, H2. subst k. unfold reading, reloaded. destruct (sp_phase t) as [|b [a|]| |] eqn:Ep; try done.
      { destruct (sp_effect t) as [g|]; cbn in H2; [|done]. by case_decide. }
      unfold has_effect. rewrite Hf. cbn. by rewrite Hf.
    + intros (u & (t & Ht & ->)%Hin & Hr). right. exists (render t). split; [by apply list_elem_of_fmap_2|]. pose proof (reading_hash _ _ Hr) as Eh. rewrite reloaded_hash in Eh.
      change (tx_hash (render t)) with (sp_hash t). rewrite (Hfind t Ht). cbn [mbind option_bind].
      unfold reading, reloaded in Hr. destruct (sp_phase t) as [|b [a|]| |] eqn:Ep; rewrite ?Ep in Hr; try done.
      { by destruct b. }
      unfold has_effect in Hr. cbn in Hr. destruct (sp_effect t) as [f|] eqn:Ef; [|done]. cbn in Hr. injection Hr as <-.
      unfold rereads. cbn. rewrite Ep, Ef. done.
  - apply resume_reads_NoDup; [|constructor|by intros ? ?%elem_of_nil]. cbn. rewrite He, <- list_fmap_compose. done.
  - intros u (t & Ht & ->)%Hin. pose proof (ok_plain _ _ Hok t Ht) as Hpl. unfold plain_ok, reloaded in *. destruct (sp_phase t) as [|b [a|]| |] eqn:Ep; rewrite ?Ep; try done.
    cbn. unfold has_effect. intros ->. done.
Qed.

(** *** Runs *)

Definition registered (e : event) : option string := match e with Register (Some (String _ _ as h)) _ _ _ _ => Some h | _ => None end.
Definition accepted (e : event) : Prop :=
  match e with
  | Register _ _ _ _ acc | Read _ _ _ acc | Ack _ acc => acc = true
  | Polled _ _ _ acc acc' => acc = true ∧ acc' = true
  | Reload => True
  end.

Definition saved (s : service) : Prop := loadFromStorage (stored s) = entries s.

Lemma patch_saved s h f : saved (patch s h f true).
Proof. done. Qed.
Lemma update_saved s h st : saved s → saved (updateStatus s h st true).
Proof.
  intros Hs. unfold updateStatus. destruct (find s h) as [e|]; [|done]. case_decide; [|done].
  assert (∀ x k, saved x → saved (reconcile x k)) as Hrec by (intros x k Hx; unfold reconcile; by destruct (find x k ≫= tx_effect)).
  destruct st, (tx_effect e); case_decide; cbn; try done; unfold saved, unsubscribe; cbn; try done; apply (Hrec (patch s h _ true)); done.
Qed.
Lemma step_saved s e : accepted e → saved s → saved (step s e).
Proof.
  destruct e as [h op eff now acc|h a now acc acc'|h f a acc|h acc|]; cbn; intros Ha Hs.
  - subst acc. destruct h as [[|c h]|]; done.
  - destruct Ha as [-> ->]. unfold polled. case_decide; [|done]. destruct (default pending a); [|by apply (update_saved s)..].
    assert (saved (expire s h now true).1) as He.
    { unfold expire. destruct (find s h) as [e|]; [|done]. destruct (_ <=? _); [done|]. by destruct (_ && _). }
    destruct (expire s h now true) as [s' []]; by apply (update_saved s').
  - subst acc. unfold read. case_decide; [|done]. by destruct a.
  - by subst.
  - unfold saved, load. by rewrite resume_stored, resume_entries.
Qed.

Lemma spec_hashes es h : h ∈ sp_hash <$> spec_run es → h ∈ omap registered es.
Proof.
  unfold spec_run. induction es as [|e es IH] using rev_ind; [by intros ?%elem_of_nil|]. rewrite foldl_app, omap_app, elem_of_app. cbn [foldl].
  assert (∀ g, (∀ u, sp_hash (g u) = sp_hash u) → h ∈ sp_hash <$> (g <$> foldl spec_step [] es) → h ∈ sp_hash <$> foldl spec_step [] es) as Hmap.
  { intros g Hg. rewrite <- list_fmap_compose. erewrite list_fmap_ext; [done|]. intros i u _. apply Hg. }
  assert (∀ k g, (∀ u, sp_hash (g u) = sp_hash u) → ∀ u, sp_hash (at_hash k g u) = sp_hash u) as Hat by (intros k g Hg u; unfold at_hash; by case_decide).
  destruct e as [[[|c k]|] op eff now acc|k a now acc acc'|k f a acc|k acc|]; cbn [spec_step]; try (intros H; left; by apply IH).
  - rewrite fmap_cons, elem_of_cons. intros [->|H]; [right; by constructor|left; by apply IH].
  - intros H. left. apply IH. by apply (Hmap _ (Hat k _ (answered_hash a now))).
  - intros H. left. apply IH. by apply (Hmap _ (Hat k _ (compared_hash f a))).
  - intros H. left. apply IH. by apply (Hmap (at_hash k (λ t, move t (sp_phase t) true))); [apply Hat|].
  - intros H. left. apply IH. by apply (Hmap _ reloaded_hash).
Qed.

Lemma pending_run_ok es : NoDup (omap registered es) → (Reload ∈ es → Forall accepted es) → ok (run es) (spec_run es).
Proof.
  induction es as [|e es IH] using rev_ind; intros Hn Ha; [by split; try constructor; try (intros; set_solver)|].
  assert (Reload ∈ es → Forall accepted es) as Ha'.
  { intros H. specialize (Ha ltac:(apply elem_of_app; by left)). by apply Forall_app in Ha as [? _]. }
  rewrite omap_app in Hn. apply NoDup_app in Hn as (Hn & Hdis & _). specialize (IH Hn Ha'). unfold run, spec_run in *. rewrite !foldl_app. cbn [foldl].
  fold (run es) in *. fold (spec_run es) in *. destruct e as [[[|c h]|] op eff now acc|h a now acc acc'|h f a acc|h acc|]; try done.
  - apply register_ok; [done| |done]. intros H%spec_hashes. apply (Hdis _ H). by constructor.
  - by apply polled_ok.
  - by apply read_ok.
  - by apply ack_ok.
  - apply reload_ok; [done|]. specialize (Ha ltac:(apply elem_of_app; right; by constructor)). apply Forall_app in Ha as [Ha _]. clear -Ha.
    change (saved (run es)). unfold run. induction es as [|e es IH] using rev_ind; [done|]. rewrite foldl_app. cbn [foldl].
    apply Forall_app in Ha as [Ha He]. inversion_clear He. by apply step_saved, IH.
Qed.

(** C23: The entries of the service are, field by field, the rendering of a machine with four phases per transaction: waiting, applied, rejected, expired.  The first
    answer decides and nothing later moves a settled transaction; exactly the waiting transactions are polled, and exactly the applied ones whose value is not
    known yet are read from the chain; a reload, with the storage writable, changes nothing but to read again what could not be read.  Every transaction is registered once. *)
Theorem pending_refines es :
  NoDup (omap registered es) → (Reload ∈ es → Forall accepted es) →
  entries (run es) = render <$> spec_run es ∧
  (∀ h, h ∈ polls (run es) ↔ ∃ t, t ∈ spec_run es ∧ sp_hash t = h ∧ waiting t = true) ∧
  (∀ r, r ∈ reads (run es) ↔ ∃ t, t ∈ spec_run es ∧ reading t = Some r).
Proof. intros Hn Ha. by destruct (pending_run_ok es Hn Ha). Qed.

(** A value is shown in advance exactly while a transaction that produces it waits, and it is the one of the last such transaction. *)
Theorem optimistic_exact es kind bondId a :
  NoDup (omap registered es) → (Reload ∈ es → Forall accepted es) → a ≠ "" →
  optimisticValue (run es) kind bondId (Some a) =
    (t ← List.find (λ t, waiting t && shows kind bondId a (render t)) (spec_run es); oe_expected <$> sp_effect t).
Proof.
  intros Hn Ha Hne. unfold optimisticValue. destruct a as [|c a]; [done|]. set (k := String c a). rewrite (ok_entries _ _ (pending_run_ok es Hn Ha)). clearbody k.
  induction (spec_run es) as [|t l IH]; [done|]. cbn [fmap list_fmap List.find]. unfold shows at 1 3. unfold waiting at 1.
  destruct (sp_phase t) eqn:Ep; cbn [render tx_status]; rewrite Ep; [|by rewrite bool_decide_false by done; apply IH..].
  rewrite bool_decide_true by done. cbn [andb]. destruct (match tx_effect (render t) with Some _ => _ | None => _ end) eqn:E; [|apply IH].
  cbn. rewrite Ep. done.
Qed.

(** ** Concrete runs *)

Definition toy_effect : OptimisticEffect := {| oe_kind := holder_balance; oe_bondId := 1; oe_address := "GA"; oe_expected := "5"; oe_actual := None |}.
Definition toy_events : list event :=
  [Register (Some "t1") "subscribe" (Some toy_effect) 0 true; Polled "t1" (Some pending) 70000 true true; Reload; Polled "t1" (Some confirmed) 80000 true true;
   Read "t1" toy_effect (Some "7") true].

Lemma pending_refines_witness :
  entries (run toy_events) = [{| tx_hash := "t1"; tx_operation := "subscribe"; tx_status := confirmed; tx_submittedAt := 0;
    tx_effect := Some {| oe_kind := holder_balance; oe_bondId := 1; oe_address := "GA"; oe_expected := "5"; oe_actual := Some "7" |};
    tx_reconciliation := Some diverged; tx_rollbackReason := None; tx_acknowledged := false |}].
Proof.
  destruct (pending_refines toy_events) as [-> _].
  - apply (bool_decide_unpack _). by vm_compute.
  - intros _. by repeat constructor.
  - reflexivity.
Defined.

(** While the API cannot be reached nothing is known about the transaction; after five minutes it counts as not applied all the same, and although it was confirmed it is
    never asked for again. *)
Lemma outage_rolls_back :
  let s := run [Register (Some "t1") "subscribe" (Some toy_effect) 0 true; Polled "t1" None 300000 true true; Polled "t1" (Some confirmed) 304000 true true; Reload;
                Polled "t1" (Some confirmed) 308000 true true] in
  tx_reconciliation <$> find s "t1" = Some (Some rolled_back) ∧ polls s = [].
Proof. by vm_compute. Qed.

(** A tab writes its own entries only: what another tab has stored since is lost. *)
Lemma other_tab_lost :
  let a := register (load None) (Some "t1") "subscribe" None 0 true in
  let b := register {| entries := []; stored := stored a; polls := []; reads := [] |} (Some "t2") "transfer" None 1 true in
  tx_hash <$> entries (load (stored b)) = ["t2"].
Proof. by vm_compute. Qed.
