(* ===== verification/SearchIndex.v ===== *)
(** * The search index

    Models [api/src/common/search/search-index.service.ts]: entries with a visibility, kept in Redis under keys that expire, searched on behalf of a viewer.

    Redis is a world: the entries and the visibilities by key, each with the instant at which it expires, the set of keys per type, and the
    fate of the commands to come: served, refused, or served with the answer lost.  A failing command degrades, as the wrapper around Redis does.
    A key is the pair of the type and the record; a stored text that does not parse is [None].  The members of a set come in the order in
    which they were added, Redis gives them in any order.  The hooks of a mutation are given by how they end; the texts of the errors of
    a repair are left out.

    Shown: whatever fails, a search gives only entries that the viewer may see and that match ([search_sound]); the pages
    are the whole answer cut into pieces ([pages_cover]); a record that was hidden, revoked or deleted stays out of every search until it is shown,
    restored or indexed again, whatever happens to other records and whatever is repaired ([hidden_stays_hidden]); and a second repair finds nothing left
    to do ([repair_settles]).  Where the code falls short: showing a hidden record makes it public whatever it was before
    ([unhide_publishes]); a hiding that Redis refuses is reported as done ([refused_hide_reported]); a
    repair that read an entry before it was hidden writes it back visible ([stale_repair_republishes]); a deleted record with another owner is
    indexed again by the repair that removes it ([repair_reindexes_deleted]); entries vanish after an hour, and no repair brings them back
    ([expired_not_reindexed]). *)
From S2P Require Import Prelude Json.

Inductive VisibilityLevel := PUBLIC | RESTRICTED | PRIVATE | HIDDEN | REVOKED | DELETED.
Inductive EntityType := BOND | PROJECT | OFFER | CREDIT_RETIREMENT | HOLDER.
#[export] Instance VisibilityLevel_eq_dec : EqDecision VisibilityLevel.
Proof. solve_decision. Defined.
#[export] Instance EntityType_eq_dec : EqDecision EntityType.
Proof. solve_decision. Defined.

Record IndexEntry := {
  ie_id : string;
  ie_recordId : string;
  ie_entityType : EntityType;
  ie_visibility : VisibilityLevel;
  ie_indexedAt : Z;
  ie_updatedAt : Z;
  ie_permissions : list string;
  ie_searchableFields : json;
  ie_ownerAddress : option string;
}.
Record SearchResult := { sr_entries : list IndexEntry; sr_total : nat; sr_page : Z; sr_limit : Z }.

Definition key : Type := EntityType * string.
Record RepairResult := { rr_repaired : Z; rr_removed : Z; rr_errors : list key }.
Inductive VisibilityMutation := hide | revoke | delete | unhide | restore.

Definition defaultPermissionChecker (viewer : string) (e : IndexEntry) : bool :=
  match ie_visibility e with
  | PUBLIC => true
  | RESTRICTED => bool_decide (viewer ∈ ie_permissions e) || bool_decide (ie_ownerAddress e = Some viewer)
  | PRIVATE => bool_decide (ie_ownerAddress e = Some viewer)
  | HIDDEN | REVOKED | DELETED => false
  end.

(** ** Redis *)

Inductive fate := Served | Refused | Lost.
Record world := { index : key → option (option IndexEntry * Z); visibility : key → option (VisibilityLevel * Z); members : EntityType → list key; fates : list fate }.
Definition new_world (fs : list fate) : world := {| index := λ _, None; visibility := λ _, None; members := λ _, []; fates := fs |}.
Definition M (A : Type) : Type := world → world * A.
Definition ret {A} (a : A) : M A := λ w, (w, a).
Definition bind {A B} (m : M A) (f : A → M B) : M B := λ w, let '(w', a) := m w in f a w'.
Notation "'let!' x ':=' m 'in' k" := (bind m (fun x => k)) (at level 200, x name, m at level 100, k at level 200, right associativity).
Notation "m1 ;; m2" := (bind m1 (λ _, m2)) (at level 100, right associativity).

Definition upd {K} `{EqDecision K} {V} (k : K) (v : V) (f : K → V) : K → V := λ k', if decide (k' = k) then v else f k'.

(** One command: refused, it does nothing; lost, it takes effect and answers as if it were refused. *)
Definition command {A} (degraded : A) (f : world → world * A) : M A := λ w,
  let rest := {| index := index w; visibility := visibility w; members := members w; fates := tail (fates w) |} in
  match head (fates w) with
  | Some Refused => (rest, degraded)
  | Some Lost => ((f rest).1, degraded)
  | _ => f rest
  end.

Definition live {A} (now : Z) (x : option (A * Z)) : option A := match x with Some (a, t) => if now <? t then Some a else None | None => None end.
Definition get (now : Z) (k : key) : M (option (option IndexEntry)) := command None (λ w, (w, live now (index w k))).
Definition setEx (now : Z) (k : key) (e : IndexEntry) : M unit :=
  command tt (λ w, ({| index := upd k (Some (Some e, now + 3600 * 1000)) (index w); visibility := visibility w; members := members w; fates := fates w |}, tt)).
Definition setEx_visibility (now : Z) (k : key) (v : VisibilityLevel) : M unit :=
  command tt (λ w, ({| index := index w; visibility := upd k (Some (v, now + 3600 * 1000)) (visibility w); members := members w; fates := fates w |}, tt)).
Definition del (k : key) : M unit :=
  command tt (λ w, ({| index := upd k (None) (index w); visibility := visibility w; members := members w; fates := fates w |}, tt)).
Definition del_visibility (k : key) : M unit :=
  command tt (λ w, ({| index := index w; visibility := upd k (None) (visibility w); members := members w; fates := fates w |}, tt)).
Definition sAdd (t : EntityType) (k : key) : M unit :=
  command tt (λ w, ({| index := index w; visibility := visibility w; members := if decide (k ∈ members w t) then members w else upd t (members w t ++ [k]) (members w);
                       fates := fates w |}, tt)).
Definition sMembers (t : EntityType) : M (list key) := command [] (λ w, (w, members w t)).

(** ** The service *)

Definition getIndexKey (e : IndexEntry) : key := (ie_entityType e, ie_recordId e).

Definition upsert (now : Z) (e : IndexEntry) : M unit :=
  setEx now (getIndexKey e) e;; setEx_visibility now (getIndexKey e) (ie_visibility e);; sAdd (ie_entityType e) (getIndexKey e).

Definition remove (k : key) : M unit := del k;; del_visibility k.

Definition matches (query : string) (e : IndexEntry) : bool :=
  bool_decide (query = "") || includes (to_lower query) (to_lower (JSON_stringify (ie_searchableFields e))).

Fixpoint gather (now : Z) (keep : IndexEntry → bool) (ks : list key) : M (list IndexEntry) :=
  match ks with
  | [] => ret []
  | k :: ks =>
      let! raw := get now k in
      let! rest := gather now keep ks in
      ret (match raw with Some (Some e) => if keep e then e :: rest else rest | _ => rest end)
  end.

(** [slice] with the bounds of a page; a negative bound counts from the end. *)
Definition from_end (n : nat) (i : Z) : nat := if i <? 0 then Z.to_nat (Z.of_nat n + i) else Nat.min (Z.to_nat i) n.
Definition slice {A} (l : list A) (start stop : Z) : list A :=
  let a := from_end (length l) start in take (from_end (length l) stop - a) (drop a l).
Definition page_of (l : list IndexEntry) (page limit : Z) : list IndexEntry :=
  let start := (page - 1) * limit in slice l start (Z.min (start + limit) (Z.of_nat (length l))).

Definition search (now : Z) (t : EntityType) (query viewer : string) (page limit : Z) (checker : string → IndexEntry → bool) : M SearchResult :=
  let! keys := sMembers t in
  let! entries := gather now (λ e, checker viewer e && matches query e) keys in
  ret {| sr_entries := page_of entries page limit; sr_total := length entries; sr_page := page; sr_limit := limit |}.

Definition getAll (now : Z) (t : EntityType) : M (list IndexEntry) := let! keys := sMembers t in gather now (λ _, true) keys.

(** A stored text that does not parse throws here. *)
Definition getEntry (now : Z) (k : key) : M (result string (option IndexEntry)) :=
  let! raw := get now k in
  ret (match raw with None => Ok None | Some (Some e) => Ok (Some e) | Some None => Err "SyntaxError" end).

Definition getVisibility (now : Z) (k : key) : M (option VisibilityLevel) := command None (λ w, (w, live now (visibility w k))).

Definition with_visibility (v : VisibilityLevel) (e : IndexEntry) : IndexEntry :=
  {| ie_id := ie_id e; ie_recordId := ie_recordId e; ie_entityType := ie_entityType e; ie_visibility := v; ie_indexedAt := ie_indexedAt e; ie_updatedAt := ie_updatedAt e;
     ie_permissions := ie_permissions e; ie_searchableFields := ie_searchableFields e; ie_ownerAddress := ie_ownerAddress e |}.
Definition with_owner (o : string) (e : IndexEntry) : IndexEntry :=
  {| ie_id := ie_id e; ie_recordId := ie_recordId e; ie_entityType := ie_entityType e; ie_visibility := ie_visibility e; ie_indexedAt := ie_indexedAt e; ie_updatedAt := ie_updatedAt e;
     ie_permissions := ie_permissions e; ie_searchableFields := ie_searchableFields e; ie_ownerAddress := Some o |}.

Definition type_text (t : EntityType) : string :=
  match t with BOND => "bond" | PROJECT => "project" | OFFER => "offer" | CREDIT_RETIREMENT => "credit_retirement" | HOLDER => "holder" end.

Definition mutated (m : VisibilityMutation) : VisibilityLevel :=
  match m with hide => HIDDEN | revoke => REVOKED | delete => DELETED | unhide => PUBLIC | restore => RESTRICTED end.

Definition handleVisibilityChange (now : Z) (k : key) (m : VisibilityMutation) (hooks : list (result string unit)) : M (result string unit) :=
  let! r := getEntry now k in
  match r with
  | Err e => ret (Err e)
  | Ok None => ret (Err ("No index entry found for " +:+ type_text k.1 +:+ ":" +:+ k.2))
  | Ok (Some e) =>
      match m with delete => remove k | _ => upsert now (with_visibility (mutated m) e) end;;
      ret (foldr (λ h r, match h with Ok _ => r | Err e => Err e end) (Ok tt) hooks)
  end.

Record record_state := { rs_isActive : bool; rs_isDeleted : bool; rs_ownerAddress : option string }.

(** One entry of a repair: the three corrections in turn. *)
Definition repair_entry (now : Z) (t : EntityType) (e : IndexEntry) (st : record_state) (r : RepairResult) : M RepairResult :=
  let! p :=
    if rs_isDeleted st && negb (bool_decide (ie_visibility e = DELETED)) then
      remove (t, ie_recordId e);; ret (with_visibility DELETED e, {| rr_repaired := rr_repaired r; rr_removed := rr_removed r + 1; rr_errors := rr_errors r |})
    else ret (e, r) in
  let '(e, r) := p in
  let! p :=
    if negb (rs_isActive st) && negb (rs_isDeleted st) && bool_decide (ie_visibility e = PUBLIC) then
      upsert now (with_visibility RESTRICTED e);;
      ret (with_visibility RESTRICTED e, {| rr_repaired := rr_repaired r + 1; rr_removed := rr_removed r; rr_errors := rr_errors r |})
    else ret (e, r) in
  let '(e, r) := p in
  match rs_ownerAddress st with
  | Some (String _ _ as o) =>
      if decide (ie_ownerAddress e = Some o) then ret r
      else upsert now (with_owner o e);; ret {| rr_repaired := rr_repaired r + 1; rr_removed := rr_removed r; rr_errors := rr_errors r |}
  | _ => ret r
  end.

Fixpoint repair_each (now : Z) (t : EntityType) (getRecordState : string → result string record_state) (ks : list key) (r : RepairResult) : M RepairResult :=
  match ks with
  | [] => ret r
  | k :: ks =>
      let! raw := get now k in
      let failed := {| rr_repaired := rr_repaired r; rr_removed := rr_removed r; rr_errors := rr_errors r ++ [k] |} in
      let! r := match raw with
                | None => ret r
                | Some None => ret failed
                | Some (Some e) => match getRecordState (ie_recordId e) with Err _ => ret failed | Ok st => repair_entry now t e st r end
                end in
      repair_each now t getRecordState ks r
  end.
Definition repairStaleEntries (now : Z) (t : EntityType) (getRecordState : string → result string record_state) : M RepairResult :=
  let! keys := sMembers t in repair_each now t getRecordState keys {| rr_repaired := 0; rr_removed := 0; rr_errors := [] |}.

Definition forbidden (v : VisibilityLevel) : bool := match v with HIDDEN | REVOKED | DELETED => true | _ => false end.
Definition all_types : list EntityType := [BOND; PROJECT; OFFER; CREDIT_RETIREMENT; HOLDER].
Fixpoint all_members (ts : list EntityType) : M (list key) :=
  match ts with [] => ret [] | t :: ts => let! ks := sMembers t in let! rest := all_members ts in ret (ks ++ rest) end.
Fixpoint purge (now : Z) (ks : list key) : M Z :=
  match ks with
  | [] => ret 0
  | k :: ks =>
      let! raw := get now k in
      let! here := match raw with Some (Some e) => if forbidden (ie_visibility e) then del k;; ret 1 else ret 0 | _ => ret 0 end in
      let! rest := purge now ks in ret (here + rest)
  end.
Definition removeForbiddenEntries (now : Z) : M Z := let! ks := all_members all_types in purge now ks.

Inductive call :=
| Upsert (now : Z) (e : IndexEntry)
| Remove (k : key)
| Change (now : Z) (k : key) (m : VisibilityMutation) (hooks : list (result string unit))
| Repair (now : Z) (t : EntityType) (getRecordState : string → result string record_state)
| Purge (now : Z).
Definition step (w : world) (o : call) : world :=
  match o with
  | Upsert now e => (upsert now e w).1
  | Remove k => (remove k w).1
  | Change now k m hooks => (handleVisibilityChange now k m hooks w).1
  | Repair now t grs => (repairStaleEntries now t grs w).1
  | Purge now => (removeForbiddenEntries now w).1
  end.
Definition run (w : world) (os : list call) : world := foldl step w os.

(** ** Properties *)

Lemma get_reads now k w : index (get now k w).1 = index w ∧ members (get now k w).1 = members w ∧ ∀ x, (get now k w).2 = Some x → live now (index w k) = Some x.
Proof. unfold get, command. destruct (head (fates w)) as [[]|]; done. Qed.
Lemma sMembers_reads t w : index (sMembers t w).1 = index w ∧ members (sMembers t w).1 = members w ∧ ∀ k, k ∈ (sMembers t w).2 → k ∈ members w t.
Proof. unfold sMembers, command. destruct (head (fates w)) as [[]|]; cbn; split_and!; try done; by intros k ?%elem_of_nil. Qed.

Lemma gather_sound now keep ks w e :
  e ∈ (gather now keep ks w).2 → keep e = true ∧ ∃ k, k ∈ ks ∧ live now (index w k) = Some (Some e).
Proof.
  revert w. induction ks as [|k ks IH]; intros w; cbn [gather]; [by intros ?%elem_of_nil|]. unfold bind, ret.
  pose proof (get_reads now k w) as (Hi & _ & Hg). destruct (get now k w) as [w1 raw]. cbn in *.
  specialize (IH w1). destruct (gather now keep ks w1) as [w2 rest]. cbn in *. rewrite Hi in IH.
  assert (e ∈ rest → keep e = true ∧ ∃ k', k' ∈ k :: ks ∧ live now (index w k') = Some (Some e)) as Hrest.
  { intros (H1 & k' & H2 & H3)%IH. split; [done|]. exists k'. split; [by right|done]. }
  destruct raw as [[x|]|]; [|exact Hrest..]. destruct (keep x) eqn:Ek; [|exact Hrest]. intros [->|H]%elem_of_cons; [|by apply Hrest].
  split; [done|]. exists k. split; [by left|by apply Hg].
Qed.

Lemma slice_sub {A} (l : list A) a b x : x ∈ slice l a b → x ∈ l.
Proof. unfold slice. intros H. eapply elem_of_sublist in H; [|apply sublist_take]. by eapply elem_of_sublist in H; [|apply sublist_drop]. Qed.

(** Whatever fails: what is found is stored and not expired, the viewer may see it and it matches. *)
Lemma search_sound now t query viewer page limit checker w e :
  e ∈ sr_entries (search now t query viewer page limit checker w).2 →
  checker viewer e = true ∧ matches query e = true ∧ ∃ k, k ∈ members w t ∧ live now (index w k) = Some (Some e).
Proof.
  unfold search, bind, ret. pose proof (sMembers_reads t w) as (Hi & _ & Hm). destruct (sMembers t w) as [w1 ks]. cbn in *.
  pose proof (gather_sound now (λ e, checker viewer e && matches query e) ks w1 e) as Hg. destruct (gather _ _ ks w1) as [w2 l]. cbn in *.
  intros H%slice_sub. apply Hg in H as ([H1 H2]%andb_true_iff & k & Hk & Hl). rewrite Hi in Hl. split_and!; [done|done|]. exists k. split; [by apply Hm|done].
Qed.

(** *** Pages *)

Lemma page_of_pos (l : list IndexEntry) i limit : 0 < limit → page_of l (Z.of_nat i + 1) limit = take (Z.to_nat limit) (drop (i * Z.to_nat limit) l).
Proof.
  intros Hl. unfold page_of, slice, from_end. replace (Z.of_nat i + 1 - 1) with (Z.of_nat i) by lia. set (m := Z.to_nat limit).
  assert (limit = Z.of_nat m) as Em by lia. clearbody m. subst limit. clear Hl. set (n := length l).
  destruct (Z.ltb_spec (Z.of_nat i * Z.of_nat m) 0); [nia|].
  destruct (Z.ltb_spec (Z.min (Z.of_nat i * Z.of_nat m + Z.of_nat m) (Z.of_nat n)) 0); [lia|].
  replace (Z.to_nat (Z.of_nat i * Z.of_nat m)) with (i * m)%nat by nia.
  destruct (decide (i * m ≤ n)%nat) as [Hin|Hout].
  - rewrite (Nat.min_l (i * m)) by done.
    replace (Nat.min (Z.to_nat (Z.min (Z.of_nat i * Z.of_nat m + Z.of_nat m) (Z.of_nat n))) n - i * m)%nat with (Nat.min m (n - i * m)) by nia.
    destruct (decide (m ≤ n - i * m)%nat); [by rewrite Nat.min_l|]. rewrite Nat.min_r by lia. rewrite !take_ge; [done|rewrite length_drop; lia..].
  - rewrite (Nat.min_r (i * m)) by lia. rewrite !drop_ge by lia. by rewrite !take_nil.
Qed.

Lemma chunks_concat {A} (l : list A) m n : (0 < m)%nat → (length l ≤ n * m)%nat → concat ((λ i, take m (drop (i * m) l)) <$> seq 0 n) = l.
Proof.
  revert l. induction n as [|n IH]; intros l Hm Hl; [by destruct l; [|cbn in Hl; lia]|]. cbn [seq fmap list_fmap concat]. rewrite Nat.mul_0_l, drop_0.
  transitivity (take m l ++ drop m l); [|apply take_drop]. f_equal. transitivity (concat ((λ i, take m (drop (i * m) (drop m l))) <$> seq 0 n)); [|apply IH; [done|rewrite length_drop; lia]]. f_equal.
  rewrite <- seq_shift, <- list_fmap_compose. apply list_fmap_ext. intros i x _. cbn. by rewrite drop_drop.
Qed.

(** The pages of a search are its whole answer cut into pieces, and the total is its length. *)
Theorem pages_cover now t query viewer limit checker w n :
  0 < limit → let page i := (search now t query viewer (Z.of_nat i + 1) limit checker w).2 in
  Z.of_nat (sr_total (page 0%nat)) ≤ Z.of_nat n * limit →
  concat ((λ i, sr_entries (page i)) <$> seq 0 n) = sr_entries (search now t query viewer 1 (Z.max 1 (Z.of_nat (sr_total (page 0%nat)))) checker w).2 ∧
  length (concat ((λ i, sr_entries (page i)) <$> seq 0 n)) = sr_total (page 0%nat).
Proof.
  intros Hl. cbn zeta. unfold search, bind, ret. destruct (sMembers t w) as [w1 ks]. destruct (gather _ _ ks w1) as [w2 l]. cbn [snd sr_entries sr_total]. intros Hn.
  set (p := λ i : nat, page_of l (Z.of_nat i + 1) limit). assert (concat (p <$> seq 0 n) = l) as Hc.
  { erewrite list_fmap_ext; [apply (chunks_concat l (Z.to_nat limit)); nia|]. intros i x Hx. apply page_of_pos. done. }
  change (concat (p <$> seq 0 n) = page_of l 1 (Z.max 1 (Z.of_nat (length l))) ∧ length (concat (p <$> seq 0 n)) = length l). rewrite Hc. split; [|done].
  change 1 with (Z.of_nat 0 + 1) at 1. rewrite page_of_pos by lia. cbn. rewrite drop_0, take_ge by lia. done.
Qed.

(** *** What is stored *)

Record guarded (good : IndexEntry → Prop) (w : world) : Prop := {
  stored_good : ∀ k r τ, index w k = Some (r, τ) → ∃ e, r = Some e ∧ getIndexKey e = k ∧ good e;
  members_typed : ∀ t k, k ∈ members w t → k.1 = t;
}.

(** A program keeps an invariant of the world and ends with an answer of a kind. *)
Definition triple {A} (P : world → Prop) (m : M A) (Q : A → Prop) : Prop := ∀ w, P w → P (m w).1 ∧ Q (m w).2.

Lemma index_triple_ret {A} P (a : A) (Q : A → Prop) : Q a → triple P (ret a) Q.
Proof. by intros Ha w Hw. Qed.
Lemma index_triple_bind {A B} P (m : M A) (f : A → M B) Q R : triple P m Q → (∀ a, Q a → triple P (f a) R) → triple P (bind m f) R.
Proof. intros Hm Hf w [Hw Ha]%Hm. unfold bind. destruct (m w) as [w' a]. by apply Hf. Qed.
Lemma triple_any {A} P (m : M A) Q : triple P m Q → triple P m (λ _, True).
Proof. intros Hm w Hw. split; [by apply Hm|done]. Qed.

Section Guarded.
Context (good : IndexEntry → Prop).
Notation P := (guarded good).

Lemma command_triple {A} (d : A) (f : world → world * A) (Q : A → Prop) :
  (∀ w, P w → P (f w).1 ∧ Q (f w).2) → Q d → triple P (command d f) Q.
Proof.
  intros Hf Hd w [H1 H2]. unfold command. set (rest := {| index := index w; visibility := visibility w; members := members w; fates := tail (fates w) |}).
  assert (P rest) as Hr by by split. destruct (head (fates w)) as [[]|]; [by apply Hf|done|split; [by apply Hf|done]|by apply Hf].
Qed.

Lemma get_triple now k : triple P (get now k) (λ raw, ∀ x, raw = Some x → ∃ e, x = Some e ∧ getIndexKey e = k ∧ good e).
Proof.
  apply command_triple; [|done]. intros w Hw. split; [done|]. cbn. unfold live. intros x. destruct (index w k) as [[r τ]|] eqn:E; [|done].
  destruct (now <? τ); [|done]. intros [= <-]. by eapply (stored_good _ _ Hw).
Qed.
Lemma sMembers_triple t : triple P (sMembers t) (λ ks, ∀ k, k ∈ ks → k.1 = t).
Proof. apply command_triple; [|by intros k ?%elem_of_nil]. intros w Hw. split; [done|]. cbn. apply (members_typed _ _ Hw). Qed.
Lemma setEx_triple now e : good e → triple P (setEx now (getIndexKey e) e) (λ _, True).
Proof.
  intros He. apply command_triple; [|done]. intros w [H1 H2]. split; [|done]. split; [|done]. cbn. unfold upd. intros k r τ. case_decide as E; [|apply H1].
  intros [= <- <-]. by exists e.
Qed.
Lemma del_triple k : triple P (del k) (λ _, True).
Proof.
  apply command_triple; [|done]. intros w [H1 H2]. split; [|done]. split; [|done]. cbn. unfold upd. intros k' r τ. case_decide; [done|apply H1].
Qed.
Lemma setEx_visibility_triple now k v : triple P (setEx_visibility now k v) (λ _, True).
Proof. apply command_triple; [|done]. intros w [H1 H2]. split; [by split|done]. Qed.
Lemma del_visibility_triple k : triple P (del_visibility k) (λ _, True).
Proof. apply command_triple; [|done]. intros w [H1 H2]. split; [by split|done]. Qed.
Lemma sAdd_triple k : triple P (sAdd k.1 k) (λ _, True).
Proof.
  apply command_triple; [|done]. intros w [H1 H2]. split; [|done]. split; [done|]. cbn. case_decide; [done|]. unfold upd. intros t k'. case_decide as E; [|apply H2].
  subst t. intros [Hk|Hk%list_elem_of_singleton]%elem_of_app; [by apply H2|by subst].
Qed.

Lemma upsert_triple now e : good e → triple P (upsert now e) (λ _, True).
Proof.
  intros He. eapply index_triple_bind; [by apply setEx_triple|]. intros _ _. eapply index_triple_bind; [apply setEx_visibility_triple|]. intros _ _. apply (sAdd_triple (getIndexKey e)).
Qed.
Lemma remove_triple k : triple P (remove k) (λ _, True).
Proof. eapply index_triple_bind; [apply del_triple|]. intros _ _. apply del_visibility_triple. Qed.

Lemma purge_triple now ks : triple P (purge now ks) (λ _, True).
Proof.
  induction ks as [|k ks IH]; [by apply index_triple_ret|]. eapply index_triple_bind; [apply get_triple|]. intros raw _.
  eapply (index_triple_bind _ _ _ (λ _, True)); [|intros n _; eapply index_triple_bind; [exact IH|]; intros; by apply index_triple_ret].
  destruct raw as [[e|]|]; [|by apply index_triple_ret..]. destruct (forbidden _); [|by apply index_triple_ret]. eapply index_triple_bind; [apply del_triple|]. intros; by apply index_triple_ret.
Qed.
Lemma all_members_triple ts : triple P (all_members ts) (λ _, True).
Proof.
  induction ts as [|t ts IH]; [by apply index_triple_ret|]. eapply index_triple_bind; [apply sMembers_triple|]. intros ks _. eapply index_triple_bind; [exact IH|]. intros; by apply index_triple_ret.
Qed.

(** What the corrections of a repair may do to an entry. *)
Context (good_deleted : ∀ e, good e → good (with_visibility DELETED e)).
Context (good_restricted : ∀ e, ie_visibility e = PUBLIC → good e → good (with_visibility RESTRICTED e)).
Context (good_owner : ∀ e o, good e → good (with_owner o e)).

Lemma repair_entry_triple now t e st r : good e → triple P (repair_entry now t e st r) (λ _, True).
Proof.
  intros He. eapply (index_triple_bind _ _ _ (λ p : IndexEntry * RepairResult, good p.1)).
  { destruct (_ && _); [|by apply index_triple_ret]. eapply index_triple_bind; [apply remove_triple|]. intros _ _. apply index_triple_ret. cbn. by apply good_deleted. }
  intros [e1 r1] He1. cbn in He1. eapply (index_triple_bind _ _ _ (λ p : IndexEntry * RepairResult, good p.1)).
  { destruct (_ && _) eqn:E; [|by apply index_triple_ret]. assert (good (with_visibility RESTRICTED e1)) as Hg.
    { apply good_restricted; [|done]. apply andb_true_iff in E as [_ E]. by apply bool_decide_eq_true in E. }
    eapply index_triple_bind; [by apply upsert_triple|]. intros _ _. by apply index_triple_ret. }
  intros [e2 r2] He2. cbn in He2. destruct (rs_ownerAddress st) as [[|c o]|]; [by apply index_triple_ret| |by apply index_triple_ret]. case_decide; [by apply index_triple_ret|].
  eapply index_triple_bind; [by apply upsert_triple, good_owner|]. intros _ _. by apply index_triple_ret.
Qed.

Lemma repair_triple now t grs : triple P (repairStaleEntries now t grs) (λ _, True).
Proof.
  eapply index_triple_bind; [apply sMembers_triple|]. intros ks _. generalize {| rr_repaired := 0; rr_removed := 0; rr_errors := [] |}.
  induction ks as [|k ks IH]; intros r; [by apply index_triple_ret|]. eapply index_triple_bind; [apply get_triple|]. intros raw Hraw.
  eapply (index_triple_bind _ _ _ (λ _, True)); [|intros r' _; apply IH].
  destruct raw as [[e|]|]; [|by apply index_triple_ret..]. destruct (Hraw _ eq_refl) as (e' & [= ->] & _ & He). destruct (grs _); [by apply repair_entry_triple|by apply index_triple_ret].
Qed.
End Guarded.

(** ** Hidden records *)

(** The calls that could show a record again. *)
Definition quiet (k : key) (o : call) : Prop :=
  match o with
  | Upsert _ e => getIndexKey e ≠ k
  | Change _ k' m _ => k' ≠ k ∨ forbidden (mutated m) = true
  | _ => True
  end.
Definition off (k : key) (e : IndexEntry) : Prop := getIndexKey e = k → forbidden (ie_visibility e) = true.

Lemma off_restricted k e : ie_visibility e = PUBLIC → off k e → off k (with_visibility RESTRICTED e).
Proof. unfold off. intros E H Hk. specialize (H Hk). by rewrite E in H. Qed.

Lemma change_triple good now k m hooks :
  (∀ e, getIndexKey e = k → good e → m = delete ∨ good (with_visibility (mutated m) e)) →
  triple (guarded good) (handleVisibilityChange now k m hooks) (λ _, True).
Proof.
  intros Hg. eapply (index_triple_bind _ _ _ (λ r, ∀ e, r = Ok (Some e) → getIndexKey e = k ∧ good e)).
  { eapply index_triple_bind; [apply get_triple|]. intros raw Hraw. apply index_triple_ret. destruct raw as [[e|]|]; intros e' [= ->].
    destruct (Hraw _ eq_refl) as (? & [= ->] & ?). done. }
  intros [[e|]|err] He; [|by apply index_triple_ret..]. destruct (He e eq_refl) as [Hk Hge]. destruct (Hg e Hk Hge) as [->|Hm].
  - eapply index_triple_bind; [apply remove_triple|]. intros; by apply index_triple_ret.
  - eapply index_triple_bind; [|intros; by apply index_triple_ret]. destruct m; try apply remove_triple; by apply upsert_triple.
Qed.

Lemma step_off k o w : quiet k o → guarded (off k) w → guarded (off k) (step w o).
Proof.
  intros Hq Hw. destruct o as [now e|k'|now k' m hooks|now t grs|now]; cbn [step] in *.
  - apply (upsert_triple (off k)); [|done]. intros E. by destruct Hq.
  - by apply (remove_triple (off k)).
  - apply (change_triple (off k)); [|done]. intros e Ek He. destruct Hq as [Hne|Hm].
    + right. unfold off. cbn. intros E. destruct Hne. by rewrite <- Ek, <- E.
    + right. by intros _.
  - apply (repair_triple (off k)); [| | |done]; [by intros e _ _|apply off_restricted|done].
  - unfold removeForbiddenEntries. eapply (index_triple_bind (guarded (off k))); [apply all_members_triple|..|done]. intros ks _. apply purge_triple.
Qed.

Lemma step_guarded o w : guarded (λ _, True) w → guarded (λ _, True) (step w o).
Proof.
  intros Hw. destruct o as [now e|k'|now k' m hooks|now t grs|now]; cbn [step] in *.
  - by apply (upsert_triple (λ _, True)).
  - by apply (remove_triple (λ _, True)).
  - apply (change_triple (λ _, True)); [|done]. intros; by right.
  - by apply (repair_triple (λ _, True)).
  - unfold removeForbiddenEntries. eapply (index_triple_bind (guarded (λ _, True))); [apply all_members_triple|..|done]. intros ks _. apply purge_triple.
Qed.
Lemma run_guarded fs os : guarded (λ _, True) (run (new_world fs) os).
Proof.
  unfold run. assert (guarded (λ _, True) (new_world fs)) as H by (split; [done|by intros t k ?%elem_of_nil]). revert H. generalize (new_world fs).
  induction os as [|o os IH]; intros w Hw; [done|]. cbn. by apply IH, step_guarded.
Qed.

Lemma command_index {A} (d : A) (f : world → world * A) w :
  (∀ w', index (f w').1 = index w') → index (command d f w).1 = index w.
Proof. intros Hf. unfold command. destruct (head (fates w)) as [[]|]; cbn; by rewrite ?Hf. Qed.

(** A hiding that is not refused takes the record out. *)
Lemma hide_off now k m hooks w :
  guarded (λ _, True) w → forbidden (mutated m) = true → (handleVisibilityChange now k m hooks w).2 = Ok tt → fates w !! 1%nat ≠ Some Refused →
  guarded (off k) (handleVisibilityChange now k m hooks w).1.
Proof.
  intros Hw Hm Hok Hf. pose proof (change_triple (λ _, True) now k m hooks ltac:(intros; by right) w Hw) as [[_ Hty] _].
  split; [|exact Hty]. clear Hty. unfold handleVisibilityChange, getEntry, bind, ret in *. destruct (get_triple (λ _, True) now k w Hw) as [_ Hg].
  assert (index (get now k w).1 = index w ∧ fates (get now k w).1 = tail (fates w)) as [Hi Ht] by (unfold get, command; by destruct (head (fates w)) as [[]|]).
  destruct (get now k w) as [w1 raw]. cbn in Hi, Ht, Hg. destruct raw as [[e|]|]; [|done..]. destruct (Hg _ eq_refl) as (? & [= <-] & Hk & _). clear Hg Hok.
  assert (head (fates w1) ≠ Some Refused) as Hf1 by (rewrite Ht; destruct (fates w) as [|? [|? ?]]; try done; cbn in *; congruence).
  assert (∃ v, index (match m with delete => remove k | _ => upsert now (with_visibility (mutated m) e) end w1).1 = upd k v (index w1) ∧
    (∀ r τ, v = Some (r, τ) → r = Some (with_visibility (mutated m) e))) as (v & Hv & Hr).
  { assert (index (upsert now (with_visibility (mutated m) e) w1).1 = upd k (Some (Some (with_visibility (mutated m) e), now + 3600 * 1000)) (index w1)) as Hu.
    { unfold upsert, bind. change (getIndexKey (with_visibility (mutated m) e)) with (getIndexKey e). rewrite Hk.
      assert (index (setEx now k (with_visibility (mutated m) e) w1).1 = upd k (Some (Some (with_visibility (mutated m) e), now + 3600 * 1000)) (index w1)) as Hs
        by (unfold setEx, command; by destruct (head (fates w1)) as [[]|]).
      destruct (setEx now k _ w1) as [w2 []]. cbn in Hs. rewrite <- Hs.
      destruct (setEx_visibility now k _ w2) as [w3 []] eqn:E3. etransitivity; [apply (command_index tt _ w3); by intros|].
      change w3 with (w3, ()).1. rewrite <- E3. apply (command_index tt _ w2); by intros. }
    destruct m; try done; try (eexists; split; [exact Hu|]; by intros ? ? [= <- _]).
    exists None. split; [|done]. unfold remove, bind. assert (index (del k w1).1 = upd k None (index w1)) as Hd by (unfold del, command; by destruct (head (fates w1)) as [[]|]).
    destruct (del k w1) as [w2 []]. cbn in Hd. rewrite <- Hd. apply (command_index tt _ w2); by intros. }
  intros k' r τ. destruct (match m with delete => remove k | _ => upsert now (with_visibility (mutated m) e) end w1) as [w2 u]. cbn in *. rewrite Hv, Hi. unfold upd.
  case_decide as E.
  - subst k'. intros Hs. rewrite (Hr _ _ Hs). eexists. split; [done|]. split; [exact Hk|]. by intros _.
  - intros Hs. destruct (stored_good _ _ Hw _ _ _ Hs) as (e' & -> & Hk' & _). exists e'. split_and!; [done|done|]. intros E'. destruct E. by rewrite <- Hk', <- E'.
Qed.

(** C32: a record that was hidden, revoked or deleted stays out of every search.  Calls run one at a time, and the write
    that hides the record is not refused (a refused one is reported as done: [refused_hide_reported]).  Then, whatever was done before and
    whatever fails or is repaired afterwards, as long as the record itself is not shown, restored or indexed again no viewer finds it, on any
    page and for any query.  (A repair that read the entry before the hiding and writes after it shows the record again:
    [stale_repair_republishes].) *)
Theorem hidden_stays_hidden fs os now k m hooks os2 now' t query viewer page limit e :
  let w := run (new_world fs) os in
  let changed := handleVisibilityChange now k m hooks w in
  forbidden (mutated m) = true → changed.2 = Ok tt → fates w !! 1%nat ≠ Some Refused → Forall (quiet k) os2 →
  e ∈ sr_entries (search now' t query viewer page limit defaultPermissionChecker (run changed.1 os2)).2 → getIndexKey e ≠ k.
Proof.
  cbn zeta. intros Hm Hok Hf Hq He Ek. pose proof (hide_off now k m hooks _ (run_guarded fs os) Hm Hok Hf) as Hw.
  assert (guarded (off k) (run (handleVisibilityChange now k m hooks (run (new_world fs) os)).1 os2)) as Hw2.
  { revert Hw. generalize (handleVisibilityChange now k m hooks (run (new_world fs) os)).1. clear -Hq. unfold run.
    induction Hq as [|o os2 Ho _ IH]; intros w Hw; [done|]. cbn. by apply IH, step_off. }
  apply search_sound in He as (Hc & _ & k' & _ & Hl). unfold live in Hl.
  destruct (index _ k') as [[r τ]|] eqn:Ei; [|done]. destruct (now' <? τ); [|done]. injection Hl as ->.
  destruct (stored_good _ _ Hw2 _ _ _ Ei) as (e' & [= <-] & _ & Hoff). specialize (Hoff Ek). unfold defaultPermissionChecker in Hc.
  by destruct (ie_visibility e).
Qed.

(** ** Repairs *)

Definition settled (st : record_state) (e : IndexEntry) : Prop :=
  rs_isDeleted st && negb (bool_decide (ie_visibility e = DELETED)) = false ∧
  negb (rs_isActive st) && negb (rs_isDeleted st) && bool_decide (ie_visibility e = PUBLIC) = false ∧
  match rs_ownerAddress st with Some (String _ _ as o) => ie_ownerAddress e = Some o | _ => True end.

Lemma served {A} (d : A) f w : fates w = [] → command d f w = f w.
Proof. intros Hf. unfold command. rewrite Hf. f_equal. destruct w. cbn in *. by rewrite Hf. Qed.

Lemma repair_entry_settled now t e st r w : settled st e → repair_entry now t e st r w = (w, r).
Proof.
  intros (H1 & H2 & H3). unfold repair_entry, bind. rewrite H1. cbn. rewrite H2. cbn. destruct (rs_ownerAddress st) as [[|c o]|]; [done| |done]. by rewrite decide_True.
Qed.

(** The worlds before and after a change of the entry of one key. *)
Record changed (k : key) (w w' : world) : Prop := {
  ch_fates : fates w' = [];
  ch_members : members w' = members w;
  ch_others : ∀ k', k' ≠ k → index w' k' = index w k';
}.
Lemma upsert_served now e k w : fates w = [] → getIndexKey e = k → k ∈ members w k.1 →
  changed k w (upsert now e w).1 ∧ index (upsert now e w).1 k = Some (Some e, now + 3600 * 1000).
Proof.
  intros Hf <- Hin. unfold upsert, bind, setEx, setEx_visibility, sAdd. repeat (rewrite served by done; cbn).
  change (ie_entityType e) with (getIndexKey e).1. rewrite decide_True by done. unfold upd. split; [split; [done|done|]|by rewrite decide_True].
  cbn. intros k' Hne. by rewrite decide_False.
Qed.
Lemma remove_served k w : fates w = [] → changed k w (remove k w).1 ∧ index (remove k w).1 k = None.
Proof.
  intros Hf. unfold remove, bind, del, del_visibility. repeat (rewrite served by done; cbn). unfold upd.
  split; [split; [done|done|]|by rewrite decide_True]. cbn. intros k' Hne. by rewrite decide_False.
Qed.
Lemma changed_trans k w1 w2 w3 : changed k w1 w2 → changed k w2 w3 → changed k w1 w3.
Proof. intros [? M1 O1] [? M2 O2]. split; [done|congruence|]. intros k' Hne. by rewrite O2, O1. Qed.
Lemma changed_refl k w : fates w = [] → changed k w w.
Proof. by split. Qed.

Definition fixed (k : key) (st : record_state) (w : world) : Prop :=
  ∀ x τ, index w k = Some (x, τ) → ∃ e, x = Some e ∧ getIndexKey e = k ∧ settled st e.

Lemma repair_entry_fixes now t e st r w τ :
  fates w = [] → getIndexKey e ∈ members w t → ie_entityType e = t → index w (getIndexKey e) = Some (Some e, τ) →
  changed (getIndexKey e) w (repair_entry now t e st r w).1 ∧ fixed (getIndexKey e) st (repair_entry now t e st r w).1.
Proof.
  intros Hf Hin Et Hix. set (k := getIndexKey e). unfold repair_entry, bind, ret.
  assert (Hown : ∀ w1 e1 r1, changed k w w1 → getIndexKey e1 = k → (∀ x τ, index w1 k = Some (x, τ) → x = Some e1) →
    rs_isDeleted st && negb (bool_decide (ie_visibility e1 = DELETED)) = false →
    negb (rs_isActive st) && negb (rs_isDeleted st) && bool_decide (ie_visibility e1 = PUBLIC) = false →
    let res := match rs_ownerAddress st with
               | Some (String _ _ as o) => if decide (ie_ownerAddress e1 = Some o) then (λ w, (w, r1)) else
                   bind (upsert now (with_owner o e1)) (λ _, ret {| rr_repaired := rr_repaired r1 + 1; rr_removed := rr_removed r1; rr_errors := rr_errors r1 |})
               | _ => (λ w, (w, r1))
               end w1 in changed k w res.1 ∧ fixed k st res.1).
  { intros w1 e1 r1 Hc Ek Hx H1 H2. assert (settled st e1 → changed k w w1 ∧ fixed k st w1) as Hstay.
    { intros Hs. split; [done|]. intros x τ' Hi. rewrite (Hx _ _ Hi). by exists e1. }
    cbn zeta. destruct (rs_ownerAddress st) as [[|c o]|] eqn:Eo; [by apply Hstay; repeat split; rewrite ?Eo| |by apply Hstay; repeat split; rewrite ?Eo].
    destruct (decide (ie_ownerAddress e1 = Some (String c o))) as [Eow|Eow]; [by apply Hstay; repeat split; rewrite ?Eo|]. unfold bind, ret.
    destruct (upsert_served now (with_owner (String c o) e1) k w1) as [Hc' Hi'].
    { apply Hc. } { exact Ek. } { rewrite (ch_members _ _ _ Hc). unfold k. cbn. by rewrite Et. }
    destruct (upsert now _ w1) as [w2 u]. cbn in *. split; [by eapply changed_trans|]. intros x τ' Hi. rewrite Hi' in Hi. injection Hi as <- _.
    eexists. split; [done|]. split; [exact Ek|]. repeat split; [done|done|]. by rewrite Eo. }
  destruct (rs_isDeleted st && negb (bool_decide (ie_visibility e = DELETED))) eqn:E1.
  - apply andb_true_iff in E1 as [Hd _]. destruct (remove_served k w Hf) as [Hc Hn]. replace (t, ie_recordId e) with k by (unfold k, getIndexKey; by rewrite Et).
    destruct (remove k w) as [w1 u]. cbn in Hc, Hn. rewrite Hd, andb_false_r. cbn [andb].
    apply (Hown w1 (with_visibility DELETED e)); [done|done|intros x τ'; by rewrite Hn|by rewrite andb_false_r|by rewrite Hd, andb_false_r].
  - destruct (negb (rs_isActive st) && negb (rs_isDeleted st) && bool_decide (ie_visibility e = PUBLIC)) eqn:E2.
    + apply andb_true_iff in E2 as [[_ Hnd]%andb_true_iff _]. apply negb_true_iff in Hnd.
      destruct (upsert_served now (with_visibility RESTRICTED e) k w Hf eq_refl) as [Hc Hi]; [unfold k; cbn; by rewrite Et|].
      destruct (upsert now (with_visibility RESTRICTED e) w) as [w1 u]. cbn in Hc, Hi.
      apply (Hown w1 (with_visibility RESTRICTED e)); [done|done| |by rewrite Hnd|by rewrite andb_false_r]. intros x τ'. rewrite Hi. by intros [= <- _].
    + apply (Hown w e); [by apply changed_refl|done| |done|done]. intros x τ'. fold k in Hix. rewrite Hix. by intros [= <- _].
Qed.

Definition visit (now : Z) (t : EntityType) (grs : string → result string record_state) (k : key) (r : RepairResult) (w : world) : M RepairResult :=
  let failed := {| rr_repaired := rr_repaired r; rr_removed := rr_removed r; rr_errors := rr_errors r ++ [k] |} in
  match live now (index w k) with
  | None => ret r
  | Some None => ret failed
  | Some (Some e) => match grs (ie_recordId e) with Err _ => ret failed | Ok st => repair_entry now t e st r end
  end.
Lemma repair_each_cons now t grs k ks r w :
  fates w = [] → repair_each now t grs (k :: ks) r w = let '(w', r') := visit now t grs k r w w in repair_each now t grs ks r' w'.
Proof. intros Hf. cbn [repair_each]. unfold bind at 1. unfold get. by rewrite served. Qed.

Lemma repair_each_fixes now t grs ks r w :
  fates w = [] → guarded (λ _, True) w → (∀ id, ∃ st, grs id = Ok st) → (∀ k, k ∈ ks → k ∈ members w t) →
  let w' := (repair_each now t grs ks r w).1 in
  fates w' = [] ∧ members w' = members w ∧ (∀ k, k ∉ ks → index w' k = index w k) ∧
  ∀ k x τ st, k ∈ ks → index w' k = Some (x, τ) → now < τ → grs k.2 = Ok st → ∃ e, x = Some e ∧ getIndexKey e = k ∧ settled st e.
Proof.
  revert r w. induction ks as [|k ks IH]; intros r w Hf Hw Hgrs Hks; cbn zeta.
  { split_and!; [done|done|done|]. by intros k x τ st ?%elem_of_nil. }
  rewrite repair_each_cons by done. set (m := visit now t grs k r w).
  assert (∃ r1, changed k w (m w).1 ∧ (m w).2 = r1 ∧ guarded (λ _, True) (m w).1 ∧
    ∀ x τ st, index (m w).1 k = Some (x, τ) → now < τ → grs k.2 = Ok st → ∃ e, x = Some e ∧ getIndexKey e = k ∧ settled st e) as (r1 & Hc & Er & Hg & Hfix).
  { exists (m w).2. unfold m, visit, live. destruct (index w k) as [[x τ]|] eqn:Ei.
    - destruct (stored_good _ _ Hw _ _ _ Ei) as (e & -> & Ek & _). destruct (Z.ltb_spec now τ) as [Hlt|Hge].
      + assert (ie_recordId e = k.2) as Eid by by rewrite <- Ek. rewrite Eid. destruct (Hgrs k.2) as [st Est]. rewrite Est.
        assert (k ∈ members w t) as Hkm by (apply Hks; by left).
        destruct (repair_entry_fixes now t e st r w τ) as [Hc Hx]; [done|by rewrite Ek|by rewrite <- (members_typed _ _ Hw _ _ Hkm), <- Ek|by rewrite Ek|].
        rewrite Ek in Hc, Hx. split_and!; [done|done|by apply (repair_entry_triple (λ _, True))|]. intros x τ' st' Hi _ Est'. injection Est' as <-. by eapply Hx.
      + split_and!; [by apply changed_refl|done|done|]. intros x τ' st Hi Hlt _. cbn in Hi. rewrite Ei in Hi. injection Hi as <- <-. lia.
    - split_and!; [by apply changed_refl|done|done|]. intros x τ' st Hi. cbn in Hi. by rewrite Ei in Hi. }
  clearbody m. destruct (m w) as [w1 r1']. cbn in Hc, Er, Hg, Hfix. subst r1'. cbn iota beta.
  destruct (IH r1 w1) as (H1 & H2 & H3 & H4); [apply Hc|done|done| |].
  { intros k' Hk'. rewrite (ch_members _ _ _ Hc). apply Hks. by right. }
  split_and!; [done|by rewrite H2, (ch_members _ _ _ Hc)| |].
  - intros k' [Hne Hni]%not_elem_of_cons. rewrite H3 by done. by apply (ch_others _ _ _ Hc).
  - intros k' x τ st Hk' Hi Hlt Est. destruct (decide (k' ∈ ks)) as [Hin|Hni]; [by eapply H4|]. apply elem_of_cons in Hk' as [->|]; [|done].
    rewrite H3 in Hi by done. by eapply Hfix.
Qed.

Lemma repair_each_settled now t grs ks r w :
  fates w = [] → (∀ k x, k ∈ ks → live now (index w k) = Some x → ∃ e st, x = Some e ∧ grs (ie_recordId e) = Ok st ∧ settled st e) →
  repair_each now t grs ks r w = (w, r).
Proof.
  intros Hf. induction ks as [|k ks IH]; intros Hs; [done|]. rewrite repair_each_cons by done. unfold visit.
  assert (repair_each now t grs ks r w = (w, r)) as Hrest by (apply IH; intros k' x Hk'; apply Hs; by right).
  destruct (live now (index w k)) as [x|] eqn:El; [|exact Hrest]. destruct (Hs k x) as (e & st & -> & Est & Hst); [by left|done|]. rewrite Est.
  by rewrite repair_entry_settled.
Qed.

(** A repair leaves nothing for the next one: afterwards every entry that has not expired agrees with the state of its record, and a second repair changes
    nothing and reports nothing. *)
Theorem repair_settles fs os now now' t grs :
  let w := run (new_world fs) os in
  let w' := (repairStaleEntries now t grs w).1 in
  fates w = [] → (∀ id, ∃ st, grs id = Ok st) → now ≤ now' →
  (∀ k e st, k ∈ members w' t → live now' (index w' k) = Some (Some e) → grs k.2 = Ok st → settled st e) ∧
  repairStaleEntries now' t grs w' = (w', {| rr_repaired := 0; rr_removed := 0; rr_errors := [] |}).
Proof.
  cbn zeta. set (w := run (new_world fs) os). intros Hf Hgrs Hnow. pose proof (run_guarded fs os) as Hw. fold w in Hw. clearbody w.
  unfold repairStaleEntries, bind, sMembers. rewrite (served [] _ w) by done.
  destruct (repair_each_fixes now t grs (members w t) {| rr_repaired := 0; rr_removed := 0; rr_errors := [] |} w Hf Hw Hgrs) as (H1 & H2 & H3 & H4); [done|].
  set (w' := (repair_each _ _ _ _ _ w).1) in *. clearbody w'.
  assert (∀ k x, k ∈ members w t → live now' (index w' k) = Some x → ∃ e st, x = Some e ∧ getIndexKey e = k ∧ grs k.2 = Ok st ∧ settled st e) as Hall.
  { intros k x Hk Hl. unfold live in Hl. destruct (index w' k) as [[y τ]|] eqn:Ei; [|done]. destruct (Z.ltb_spec now' τ); [|done]. injection Hl as ->.
    destruct (Hgrs k.2) as [st Est]. destruct (H4 k x τ st Hk Ei ltac:(lia) Est) as (e & -> & Ek & Hst). by exists e, st. }
  split.
  - intros k e st Hk Hl Est. rewrite H2 in Hk. destruct (Hall k _ Hk Hl) as (e' & st' & [= <-] & _ & Est' & Hst). congruence.
  - rewrite served by done. rewrite H2. apply repair_each_settled; [done|]. intros k x Hk Hl. destruct (Hall k x Hk Hl) as (e & st & -> & Ek & Est & Hst).
    exists e, st. split_and!; [done| |done]. by rewrite <- Est, <- Ek.
Qed.

(** ** Concrete runs *)

Definition toy_entry (v : VisibilityLevel) (owner : string) : IndexEntry :=
  {| ie_id := "1"; ie_recordId := "b1"; ie_entityType := BOND; ie_visibility := v; ie_indexedAt := 0; ie_updatedAt := 0; ie_permissions := [];
     ie_searchableFields := JObj [("name", JStr "Mangrove")]; ie_ownerAddress := Some owner |}.
Definition found (now : Z) (viewer : string) (w : world) : list string :=
  ie_recordId <$> sr_entries (search now BOND "mangrove" viewer 1 20 defaultPermissionChecker w).2.

Lemma hidden_stays_hidden_witness :
  found 2 "GB" (run (new_world []) [Upsert 0 (toy_entry PUBLIC "GA")]) = ["b1"] ∧
  ∀ e, e ∈ sr_entries (search 3 BOND "mangrove" "GB" 1 20 defaultPermissionChecker
    (run (handleVisibilityChange 1 (BOND, "b1") hide [] (run (new_world []) [Upsert 0 (toy_entry PUBLIC "GA")])).1 [Purge 2])).2 → getIndexKey e ≠ (BOND, "b1").
Proof.
  split; [by vm_compute|]. intros e. apply (hidden_stays_hidden [] [Upsert 0 (toy_entry PUBLIC "GA")] 1 (BOND, "b1") hide [] [Purge 2] 3 BOND "mangrove" "GB" 1 20 e).
  - reflexivity.
  - reflexivity.
  - done.
  - by repeat constructor.
Defined.

(** A private record that is hidden and shown again is public. *)
Lemma unhide_publishes :
  let w := run (new_world []) [Upsert 0 (toy_entry PRIVATE "GA")] in
  found 1 "GB" w = [] ∧ found 4 "GB" (run w [Change 2 (BOND, "b1") hide []; Change 3 (BOND, "b1") unhide []]) = ["b1"].
Proof. by vm_compute. Qed.

(** A hiding that Redis refuses ends well, and the record is found as before. *)
Lemma refused_hide_reported :
  let w := run (new_world [Served; Served; Served; Served; Refused; Refused; Refused]) [Upsert 0 (toy_entry PUBLIC "GA")] in
  (handleVisibilityChange 1 (BOND, "b1") hide [] w).2 = Ok tt ∧ found 2 "GB" (handleVisibilityChange 1 (BOND, "b1") hide [] w).1 = ["b1"].
Proof. by vm_compute. Qed.

(** A repair awaits the state of the record between reading an entry and writing it.  The record is hidden in
    between; the repair writes the entry it read, and the record is found again. *)
Lemma stale_repair_republishes :
  let w := run (new_world []) [Upsert 0 (toy_entry PUBLIC "GA")] in
  match (get 1 (BOND, "b1") w).2 with
  | Some (Some e) =>
      let hidden := (handleVisibilityChange 2 (BOND, "b1") hide [] w).1 in
      let state := {| rs_isActive := true; rs_isDeleted := false; rs_ownerAddress := Some "GC" |} in
      found 3 "GB" hidden = [] ∧
      found 4 "GB" (repair_entry 3 BOND e state {| rr_repaired := 0; rr_removed := 0; rr_errors := [] |} hidden).1 = ["b1"]
  | _ => False
  end.
Proof. by vm_compute. Qed.

(** The entry of a deleted record whose owner has changed is removed and then indexed again. *)
Lemma repair_reindexes_deleted :
  let r := repairStaleEntries 1 BOND (λ _, Ok {| rs_isActive := false; rs_isDeleted := true; rs_ownerAddress := Some "GB" |})
             (run (new_world []) [Upsert 0 (toy_entry PUBLIC "GA")]) in
  rr_removed r.2 = 1 ∧ ie_visibility <$> (getAll 2 BOND r.1).2 = [DELETED].
Proof. by vm_compute. Qed.

(** After an hour the entry of an active record is gone; a repair finds nothing to do. *)
Lemma expired_not_reindexed :
  let r := repairStaleEntries 3600000 BOND (λ _, Ok {| rs_isActive := true; rs_isDeleted := false; rs_ownerAddress := Some "GA" |})
             (run (new_world []) [Upsert 0 (toy_entry PUBLIC "GA")]) in
  r.2 = {| rr_repaired := 0; rr_removed := 0; rr_errors := [] |} ∧ found 3600001 "GA" r.1 = [].
Proof. by vm_compute. Qed.
